(* ===== verification/_CoqProject ===== *)
-Q . S2P
Prelude.v
WireCommon.v
WireTx.v
ChainHash.v
WireBlock.v
WireNet.v
WireMsgs.v
WireMsgLaws.v
WireMessage.v
Treap.v
TreapIter.v
HeaderList.v
LRUList.v
LRUCache.v
Bech32.v
GoBig.v
Base58.v
NogoTypes.v
GoFloat.v
NogoDifficulty.v
NogoMatrix.v
NogoSeed.v
NogoCache.v
NogoEngine.v
Address.v
TxSort.v
ChanQueue.v
BatchWriter.v
NogoUtil.v
KeyMap.v
DbEffects.v
BlockStore.v
BlockLog.v
DbCache.v
DbTx.v
DbBlocks.v
DbCommit.v
DbOpen.v
IterMerge.v
IterMap.v
DbCursor.v
Bloom.v
MerkleBlock.v
GCS.v
GCSBuilder.v
HeaderFS.v
HeaderStore.v
HeaderLaws.v
HeaderClaims.v
NetText.v
AddrNetwork.v
Float64.v
AddrManager.v
AddrLocal.v
AddrLaws.v
AddrClaims.v
AddrPeers.v
AddrRestart.v
Secp.v
Schnorr.v
MuSig2.v
MuSig2Claims.v
MuSigContext.v
CoinSet.v
