(* ===== verification/Prelude.v ===== *)
(** * Verification of nogocommons

    nogocommons is the library the NogoChain nodes, wallets and miners share: the
    wire protocol, hashes and addresses, the proof of work, the storage of blocks
    and headers, the support of light clients, the manager of peers' addresses and
    the signatures.  This development models in Rocq the parts of it that can be
    stated as functions on explicit data and proves what makes each correct.

    ** The program's parts and how they meet

    A node reads frames from a connection ([wire/message.go]); a frame names a
    message type, whose decoder reads the payload ([wire/msg*.go]) with the
    primitive codecs of [wire/common.go].  Transactions and blocks are identified
    by the double SHA-256 of their serialization ([chainhash]); [nogoutil] wraps
    them with cached hashes, sorts them, and makes the filters of light clients
    ([bloom], [gcs]).  The engine of [nogopow] verifies and mines headers with
    matrices grown from the parent's hash, which it keeps in a cache.  The database
    ([database/ffldb]) appends blocks to flat files and keeps buckets of metadata
    in ordered maps ([internal/treap]) in front of a third-party store; a
    transaction reads a snapshot, merged with its pending changes by iterators.  A
    light client stores headers in flat files with an index
    ([neutrino/headerfs]), keeps the last ones in a ring ([headerlist]), filters
    and blocks in a cache ([cache/lru]), and passes them through queues
    ([chanutils]).  [addrmgr] remembers the addresses of peers in buckets.
    Payment addresses ([address]) are written in base58 or bech32.  [nogoec] wraps
    the curve, on which Schnorr and MuSig2 signatures are made.

    ** The files

    - [Prelude]: bytes, fixed-width integers ([wrap_uN], [to_signed]), endian
      codecs, the [result] monad, tactics and the hint databases.
    - [WireCommon], [WireTx], [WireBlock], [WireNet], [WireMsgs], [WireMsgLaws],
      [WireMessage] ([wire/]): the monad of decoders and the class [Codec];
      transactions; blocks, headers and inventories; addresses of peers; the
      message types behind the class [Message] with the instances of [Codec],
      [MessageLaws] and [CanonicalMessage]; frames, proved against the classes.
    - [ChainHash] ([chainhash/]): SHA-256 written out, hash strings, tagged hashes.
    - [Bech32], [GoBig], [Base58], [Address] ([address/]): both encodings, big
      integers as bytes, the kinds of addresses.
    - [TxSort], [NogoUtil], [Bloom], [MerkleBlock], [GCS], [GCSBuilder],
      [CoinSet] ([nogoutil/]): BIP 69, cached transactions and blocks, bloom
      filters and the partial merkle trees they ask for, Golomb coded sets and
      basic filters, sets of coins and their selectors.
    - [NogoTypes], [GoFloat], [NogoDifficulty], [NogoMatrix], [NogoSeed],
      [NogoCache], [NogoEngine] ([nogopow/]): headers and their encodings,
      rounded floating point, the difficulty controller, fixed-point matrices, the
      memory-hard expansion, its cache, the engine.
    - [Treap], [TreapIter], [KeyMap], [DbEffects], [BlockStore], [BlockLog],
      [DbCache], [DbTx], [DbBlocks], [DbCommit], [DbOpen], [IterMerge],
      [IterMap], [DbCursor] ([database/]): the treaps and their iterator; the
      classes [KeyMap], [IterMap], [Iter] and [LevelDB] the database is proved
      against; system calls with outcomes; the flat files; the metadata cache;
      buckets; committing, opening after a crash; merged iterators and cursors.
    - [HeaderList], [LRUList], [LRUCache], [ChanQueue], [BatchWriter],
      [HeaderFS], [HeaderStore], [HeaderLaws], [HeaderClaims] ([neutrino/]): the
      ring of headers, the list and the cache, the queue and the batch writer, the
      header stores: their code, what they hold, and their properties.
    - [NetText], [AddrNetwork], [Float64], [AddrManager], [AddrLocal],
      [AddrLaws], [AddrClaims], [AddrPeers], [AddrRestart] ([addrmgr/]): textual
      addresses, reserved networks and groups, floating point with its whole range,
      the manager, its invariant and properties, the file of peers.
    - [Secp], [Schnorr], [MuSig2], [MuSig2Claims], [MuSigContext] ([nogoec/]):
      the class of the curve and its laws, keys; BIP 340; keys, nonces and partial
      signatures; their sums; contexts and sessions.

    Definitions keep the names of the code; a method [T.m] is [T_m], or [m] where
    no other has the name.

    ** How the code is modelled

    A reader is the list of bytes left; a decoder returns a value and the rest, or
    the error of the code.  A writer is the list of bytes written.  Integers are in
    [Z] with their wrap-around written out.  A float64 or [big.Float] is a dyadic
    number and every operation rounds.  A panic is a result of its own or [None],
    and theorems show where it cannot happen.  Slices are lists; slicing or
    indexing beyond the length is a panic.  Pointers are modelled where sharing
    matters: cells of a store in the linked lists, the caches and the address
    manager, slots in the header ring.

    Goroutines are turns: a channel operation, a tick or a critical section is one
    step, and any interleaving is a list of steps.  Mutexes held for a whole call
    are left out.  Times are whole seconds, the clock and random draws arguments.

    Every call of the file system, of goleveldb and of walletdb that can fail takes
    its outcome from a list: success, an error, for a write an error after some
    bytes, or a full disk; theorems are for all lists.  Reads of the metadata
    database do not fail, and its transactions are atomic.

    Code that is not in the repository is a parameter or a class with the laws its
    documentation gives: Keccak-256, RIPEMD-160, SHA3-256, SipHash, the stream of
    bits of the Golomb filters, [math.Log], the single-flight group, goleveldb, the
    arithmetic of secp256k1 and the nonces of RFC 6979.  Each class has an
    instance, with which the witnesses compute: [exponents] for the curve, a sorted
    list or the treaps for the maps.  What Go leaves open is a parameter too: the
    order of map iteration, the algorithm of [sort.Sort] (class [Sorter]).

    ** Fuel

    Loops that are not structural have fuel, and the theorems show it is enough as
    they give the value of the whole call: the nodes of a tree plus one for walks
    over treaps, two more than the slots for [Ancestor_loop], the elements of the
    list plus one for [evict_loop]; the length plus two or one for the loops of
    base58 and base32, the digits of a word for decimal numbers; the cells plus one
    for the cache of seeds; the difference of the cursors for [delete_down], the
    bounds of the iterators plus two for cursors and [ForEach]; eight bits per byte
    for the Golomb decoder; 500 for the locator, the length of the file for the
    check of connectivity, 33 for the height of a merkle tree.  [GetAddress] is
    given its random draws, and 3900 candidates are shown to be enough.  [mine_loop]
    and [sign_loop] run until they find something; their theorems say that with
    fuel beyond the first usable nonce they return it.

    ** What the theorems show

    - Codecs: decoding inverts encoding for transactions, blocks, all message types
      (through the class), headers of NogoPow, addresses, bech32 and base58, keys
      of peers, Golomb filters, signatures; what a decoder accepts is what the
      encoder writes, or the difference is stated; decoders do not panic.
    - Framing: what is accepted has the right network, length and checksum; what is
      refused is skipped exactly.
    - Proof of work: header verification is the conjunction of its rules, mining
      finds the first nonce that passes, the blocked and parallel products are the
      plain one and never overflow, the controller stays within its bounds, batches
      deliver every result in order, the walk over ancestors ends.
    - Storage: treaps and buckets refine finite maps; cursors and iterators walk as
      over a sorted list; commits are atomic under any fault; a database opened
      after a crash holds the blocks of its metadata; the flat files are a log.
    - Light clients: the ring refines a bounded queue and [Ancestor] a walk back;
      the cache evicts the least recently used; queues are first in, first out; the
      header stores write and roll back atomically and recover from a crash;
      filters have no false negatives and match as their definition says.
    - Addresses of peers: whatever is called, index, buckets and counters agree and
      nothing panics; saving and loading keeps everything but times; choosing an
      address ends.
    - Coins: the selectors return coins worth the target, the fewest of them when
      the largest are taken first, or the error.
    - Signatures: what is signed verifies; verification is the equation of BIP 340;
      valid partial signatures combine to a valid signature; sessions of honest
      signers complete in any order of messages; a session signs at most once.
    - Where the code does something else than it says there is a theorem that shows
      it on a concrete input or in general.

    ** Not modelled

    Of modelled packages: recycling of treap nodes; [PushBackList],
    [PushFrontList]; the iteration of the LRU cache; [DeleteBucket], which removes
    keys from the treap it iterates over, and [PruneBlocks]; the removal of
    iterators that are no longer used; constructors and setters of messages, error
    texts, JSON forms; the saving goroutine of the address manager; logging, most
    counters and the read-only calls of the engine; the buffers that are reused.

    Not modelled at all: the network (peers, connections, seeding, Tor), the
    managers of bans, notifications, filters and broadcasts of [neutrino], which
    only order calls of a wallet database, of peers and of tickers; amounts;
    extended keys, ECDSA, ElligatorSwift and the transport of BIP 324,
    which are thin over third-party field arithmetic and ciphers; the tables of
    network parameters; the registry of database drivers, the command-line tool and
    system calls. *)

From Stdlib Require Import ZArith Lia.
From Stdlib Require Export Strings.Byte.
From stdpp Require Export base list gmap strings option.
From stdpp Require Import tactics.

#[export] Set Default Goal Selector "!".

Declare Scope nogo_scope.
Delimit Scope nogo_scope with nogo.
Open Scope nogo_scope.
Open Scope Z_scope.

(** Every list result of the development is automated through two hint
    databases: [nogo] collects the closing lemmas (bounds, lengths), [wire]
    the compositional reading lemmas of the codecs. *)
Create HintDb nogo discriminated.
Create HintDb wire discriminated.

(** ** Bytes *)

Abbreviation byte := Init.Byte.byte.

#[export] Instance byte_eq_dec : EqDecision byte := Byte.byte_eq_dec.

Definition b2z (b : byte) : Z := Z.of_N (Byte.to_N b).
Definition z2b (z : Z) : byte := default x00 (Byte.of_N (Z.to_N (z mod 256))).

Lemma b2z_range b : 0 <= b2z b < 256.
Proof.
  unfold b2z. pose proof (Byte.to_N_bounded b). lia.
Qed.
#[export] Hint Resolve b2z_range : nogo.

Lemma z2b_b2z b : z2b (b2z b) = b.
Proof.
  unfold z2b. rewrite Z.mod_small by apply b2z_range.
  unfold b2z. rewrite N2Z.id, Byte.of_to_N. done.
Qed.

Lemma b2z_z2b z : b2z (z2b z) = z mod 256.
Proof.
  unfold z2b, b2z.
  pose proof (Z.mod_pos_bound z 256 ltac:(lia)) as Hb.
  destruct (Byte.of_N (Z.to_N (z mod 256))) as [b|] eqn:E; simpl.
  - apply Byte.to_of_N in E. rewrite E. lia.
  - apply Byte.of_N_None_iff in E. lia.
Qed.

Lemma b2z_z2b_small z : 0 <= z < 256 -> b2z (z2b z) = z.
Proof. intros H. rewrite b2z_z2b. apply Z.mod_small. done. Qed.

Lemma b2z_inj a b : b2z a = b2z b -> a = b.
Proof. intros H. rewrite <- (z2b_b2z a), <- (z2b_b2z b). congruence. Qed.

#[export] Instance byte_countable : Countable byte.
Proof.
  apply (inj_countable' Byte.to_N (fun n => default x00 (Byte.of_N n))).
  intros b. by rewrite Byte.of_to_N.
Defined.

#[export] Instance b2z_Inj : Inj (=) (=) b2z := b2z_inj.

(** The bytes of a Go string literal. *)
Definition bytes_of (s : string) : list byte := String.list_byte_of_string s.

(** [strings.ToLower] and [strings.ToUpper] on ASCII, a byte at a time. *)
Definition is_lower (c : byte) : bool := (97 <=? b2z c) && (b2z c <=? 122).
Definition is_upper (c : byte) : bool := (65 <=? b2z c) && (b2z c <=? 90).
Definition to_lower (c : byte) : byte := if is_upper c then z2b (b2z c + 32) else c.
Definition to_upper (c : byte) : byte := if is_lower c then z2b (b2z c - 32) else c.

(** [strings.IndexByte] and [LastIndexByte]. *)
Fixpoint IndexByte (s : list byte) (c : byte) : option nat :=
  match s with
  | [] => None
  | x :: s' => if decide (x = c) then Some O else S <$> IndexByte s' c
  end.
Fixpoint LastIndexByte (s : list byte) (c : byte) : option nat :=
  match s with
  | [] => None
  | x :: s' =>
      match LastIndexByte s' c with
      | Some i => Some (S i)
      | None => if decide (x = c) then Some O else None
      end
  end.

Lemma LastIndexByte_app s c t :
  c ∉ t -> LastIndexByte (s ++ c :: t) c = Some (length s).
Proof.
  intros Ht. assert (H0 : LastIndexByte t c = None).
  { induction t as [|x t IH]; [done|]. apply not_elem_of_cons in Ht as [Hx Ht]. simpl.
    rewrite (IH Ht). by rewrite decide_False by congruence. }
  induction s as [|x s IH]; simpl; [by rewrite H0, decide_True by done|by rewrite IH].
Qed.

(** ** Fixed width integers *)

#[global] Arguments Z.pow : simpl never.

Definition wrap_u8 (z : Z) : Z := z mod 2 ^ 8.
Definition wrap_u16 (z : Z) : Z := z mod 2 ^ 16.
Definition wrap_u32 (z : Z) : Z := z mod 2 ^ 32.
Definition wrap_u64 (z : Z) : Z := z mod 2 ^ 64.

(** Go's conversion of an unsigned value of width [w] to the signed type. *)
Definition to_signed (w : Z) (z : Z) : Z :=
  if z <? 2 ^ (w - 1) then z else z - 2 ^ w.

Abbreviation u8_ok z := (0 <= z < 2 ^ 8) (only parsing).
Abbreviation u16_ok z := (0 <= z < 2 ^ 16) (only parsing).
Abbreviation u32_ok z := (0 <= z < 2 ^ 32) (only parsing).
Abbreviation u64_ok z := (0 <= z < 2 ^ 64) (only parsing).
Abbreviation i32_ok z := (- 2 ^ 31 <= z < 2 ^ 31) (only parsing).
Abbreviation i64_ok z := (- 2 ^ 63 <= z < 2 ^ 63) (only parsing).

Lemma to_signed_mod w z :
  0 < w -> - 2 ^ (w - 1) <= z < 2 ^ (w - 1) -> to_signed w (z mod 2 ^ w) = z.
Proof.
  intros Hw Hz. unfold to_signed.
  assert (H2 : 2 ^ w = 2 * 2 ^ (w - 1)).
  { replace w with (Z.succ (w - 1)) at 1 by lia. apply Z.pow_succ_r. lia. }
  destruct (Z.ltb_spec z 0).
  - replace (z mod 2 ^ w) with (z + 2 ^ w).
    + destruct (Z.ltb_spec (z + 2 ^ w) (2 ^ (w - 1))); lia.
    + apply (Z.mod_unique _ _ (-1)); lia.
  - rewrite Z.mod_small by lia. destruct (Z.ltb_spec z (2 ^ (w - 1))); lia.
Qed.

Lemma to_signed_range w z :
  0 < w -> 0 <= z < 2 ^ w ->
  - 2 ^ (w - 1) <= to_signed w z < 2 ^ (w - 1) /\ to_signed w z mod 2 ^ w = z.
Proof.
  intros Hw Hz. unfold to_signed.
  assert (H2 : 2 ^ w = 2 * 2 ^ (w - 1)).
  { replace w with (Z.succ (w - 1)) at 1 by lia. apply Z.pow_succ_r. lia. }
  destruct (Z.ltb_spec z (2 ^ (w - 1))).
  - split; [lia|]. apply Z.mod_small. lia.
  - split; [lia|]. symmetry. apply (Z.mod_unique _ _ (-1)); lia.
Qed.

(** What a signed word of 64 bits keeps of a number. *)
Definition wrap_i64 (z : Z) : Z := to_signed 64 (z mod 2 ^ 64).

Lemma wrap_i64_range z : - 2 ^ 63 <= wrap_i64 z < 2 ^ 63.
Proof.
  unfold wrap_i64. apply (to_signed_range 64); [lia|]. apply Z.mod_pos_bound. lia.
Qed.

Lemma wrap_i64_small z : - 2 ^ 63 <= z < 2 ^ 63 -> wrap_i64 z = z.
Proof. intros H. apply (to_signed_mod 64); lia. Qed.

(** Joining a high and a low part with [|] adds them. *)
Lemma lor_shifted a k x : 0 <= k -> 0 <= x < 2 ^ k -> Z.lor (a * 2 ^ k) x = a * 2 ^ k + x.
Proof.
  intros Hk Hx. rewrite <- Z.add_lor_land, <- (Z.add_0_r (Z.lor _ _)) at 1. f_equal. symmetry.
  rewrite <- Z.shiftl_mul_pow2 by lia. apply Z.bits_inj'. intros n Hn.
  rewrite Z.land_spec, Z.bits_0. destruct (Z.ltb_spec n k).
  - by rewrite Z.shiftl_spec_low by lia.
  - destruct (Z.eq_dec x 0) as [->|]; [by rewrite Z.bits_0, andb_false_r|].
    rewrite (Z.bits_above_log2 x n), andb_false_r; [done|lia|].
    apply Z.log2_lt_pow2; [lia|]. apply (Z.lt_le_trans _ (2 ^ k)); [lia|]. apply Z.pow_le_mono_r; lia.
Qed.

Lemma land_lxor a b m : Z.land (Z.lxor a b) m = Z.lxor (Z.land a m) (Z.land b m).
Proof.
  apply Z.bits_inj. intros n. rewrite !Z.land_spec, !Z.lxor_spec, !Z.land_spec.
  by destruct (Z.testbit a n), (Z.testbit b n), (Z.testbit m n).
Qed.

Lemma lxor_width n a b : 0 <= n -> 0 <= a < 2 ^ n -> 0 <= b < 2 ^ n -> 0 <= Z.lxor a b < 2 ^ n.
Proof.
  intros Hn Ha Hb.
  assert (H0 : Z.lxor a b mod 2 ^ n = Z.lxor a b).
  { rewrite <- Z.land_ones, land_lxor, !Z.land_ones, !Z.mod_small by lia. done. }
  rewrite <- H0. apply Z.mod_pos_bound. lia.
Qed.

(** ** Little and big endian encodings ([encoding/binary]) *)

Fixpoint le_put (n : nat) (z : Z) : list byte :=
  match n with
  | O => []
  | S n' => z2b z :: le_put n' (z / 256)
  end.

Fixpoint le_get (bs : list byte) : Z :=
  match bs with
  | [] => 0
  | b :: bs' => b2z b + 256 * le_get bs'
  end.

Definition be_put (n : nat) (z : Z) : list byte := rev (le_put n z).
Definition be_get (bs : list byte) : Z := le_get (rev bs).

Lemma length_le_put n z : length (le_put n z) = n.
Proof. revert z. induction n as [|n IH]; intros z; simpl; [done|by rewrite IH]. Qed.

Lemma length_be_put n z : length (be_put n z) = n.
Proof. unfold be_put. rewrite length_rev. apply length_le_put. Qed.

Lemma pow_256_S n : 256 ^ Z.of_nat (S n) = 256 * 256 ^ Z.of_nat n.
Proof. rewrite Nat2Z.inj_succ, Z.pow_succ_r by lia. done. Qed.

Lemma le_get_put n z : 0 <= z < 256 ^ Z.of_nat n -> le_get (le_put n z) = z.
Proof.
  revert z. induction n as [|n IH]; intros z Hz; simpl.
  - change (256 ^ Z.of_nat 0) with 1 in Hz. lia.
  - rewrite pow_256_S in Hz. rewrite b2z_z2b, IH.
    + pose proof (Z.div_mod z 256). lia.
    + split; [apply Z.div_pos; lia|]. apply Z.div_lt_upper_bound; lia.
Qed.

Lemma le_get_range bs : 0 <= le_get bs < 256 ^ Z.of_nat (length bs).
Proof.
  induction bs as [|b bs IH]; cbn [le_get length].
  - change (256 ^ Z.of_nat 0) with 1. lia.
  - rewrite pow_256_S. pose proof (b2z_range b). lia.
Qed.

Lemma le_put_get bs : le_put (length bs) (le_get bs) = bs.
Proof.
  induction bs as [|b bs IH]; cbn [le_get le_put length]; [done|].
  pose proof (b2z_range b).
  f_equal.
  - apply b2z_inj. rewrite b2z_z2b.
    rewrite Z.mul_comm, Z.mod_add, Z.mod_small by lia. done.
  - rewrite Z.mul_comm, Z.div_add, Z.div_small by lia. done.
Qed.

Lemma be_get_put n z : 0 <= z < 256 ^ Z.of_nat n -> be_get (be_put n z) = z.
Proof. intros. unfold be_get, be_put. rewrite rev_involutive. by apply le_get_put. Qed.

Lemma be_put_get bs : be_put (length bs) (be_get bs) = bs.
Proof.
  unfold be_get, be_put. rewrite <- (length_rev bs), le_put_get. apply rev_involutive.
Qed.

Lemma be_get_range bs : 0 <= be_get bs < 256 ^ Z.of_nat (length bs).
Proof. unfold be_get. rewrite <- (length_rev bs). apply le_get_range. Qed.

Lemma le_get_1 b : le_get [b] = b2z b.
Proof. simpl. lia. Qed.

(** ** bytes.Compare *)

Fixpoint bytes_Compare (a b : list byte) : comparison :=
  match a, b with
  | [], [] => Eq
  | [], _ :: _ => Lt
  | _ :: _, [] => Gt
  | x :: a', y :: b' =>
      match Z.compare (b2z x) (b2z y) with
      | Eq => bytes_Compare a' b'
      | c => c
      end
  end.

Definition key_lt (a b : list byte) : Prop := bytes_Compare a b = Lt.

Lemma bytes_Compare_eq a b : bytes_Compare a b = Eq <-> a = b.
Proof.
  split; [|intros <-; induction a as [|x a IH]; [done|]; simpl; by rewrite Z.compare_refl].
  revert b. induction a as [|x a IH]; intros [|y b] H; simpl in H; try done.
  destruct (Z.compare_spec (b2z x) (b2z y)) as [E|E|E]; try done.
  f_equal; [by apply b2z_inj|by apply IH].
Qed.

Lemma bytes_Compare_antisym a b : bytes_Compare b a = CompOpp (bytes_Compare a b).
Proof.
  revert b. induction a as [|x a IH]; intros [|y b]; try done. simpl.
  rewrite (Z.compare_antisym (b2z x)). destruct (b2z x ?= b2z y); [apply IH|done|done].
Qed.

Lemma key_lt_trans a b c : key_lt a b -> key_lt b c -> key_lt a c.
Proof.
  unfold key_lt. revert b c. induction a as [|x a IH]; intros [|y b] [|z c] H1 H2; simpl in *; try done.
  destruct (Z.compare_spec (b2z x) (b2z y)), (Z.compare_spec (b2z y) (b2z z)); try done;
    destruct (Z.compare_spec (b2z x) (b2z z)); try done; try lia. by eapply IH.
Qed.

Lemma key_lt_irrefl a : ~ key_lt a a.
Proof. unfold key_lt. by rewrite (proj2 (bytes_Compare_eq a a) eq_refl). Qed.

Lemma bytes_Compare_gt a b : bytes_Compare a b = Gt -> key_lt b a.
Proof. unfold key_lt. intros H. by rewrite bytes_Compare_antisym, H. Qed.

Lemma le_get_app a b : le_get (a ++ b) = le_get a + 256 ^ Z.of_nat (length a) * le_get b.
Proof.
  induction a as [|x a IH]; [simpl; change (256 ^ Z.of_nat 0) with 1; lia|].
  cbn [app length le_get]. rewrite IH, pow_256_S. lia.
Qed.

(** On strings of one length it is the order of the numbers they encode. *)
Lemma bytes_Compare_be a b :
  length a = length b -> bytes_Compare a b = (be_get a ?= be_get b).
Proof.
  revert b. induction a as [|x a IH]; intros [|y b] [=]; [done|]. cbn [bytes_Compare].
  rewrite IH by done. unfold be_get. cbn [rev]. rewrite !le_get_app, !length_rev, <- H0. cbn [le_get].
  pose proof (le_get_range (rev a)) as Ha. pose proof (le_get_range (rev b)) as Hb.
  rewrite length_rev in Ha, Hb. rewrite <- H0 in Hb. set (m := 256 ^ Z.of_nat (length a)) in *. clearbody m.
  destruct (Z.compare_spec (b2z x) (b2z y)) as [->|E|E]; [| |].
  - destruct (Z.compare_spec (le_get (rev a)) (le_get (rev b))); symmetry;
      [apply Z.compare_eq_iff|apply Z.compare_lt_iff|apply Z.compare_gt_iff]; lia.
  - symmetry. apply Z.compare_lt_iff. nia.
  - symmetry. apply Z.compare_gt_iff. nia.
Qed.

(** The codecs reason about these through the lemmas above only. *)
#[global] Opaque le_put le_get b2z z2b.

(** ** Results: a Go pair [(value, error)] *)

Inductive result (E A : Type) : Type :=
| Ok (a : A)
| Err (e : E).
Arguments Ok {E A} a.
Arguments Err {E A} e.

#[export] Instance result_ret E : MRet (result E) := fun A a => Ok a.
#[export] Instance result_bind E : MBind (result E) := fun A B f m =>
  match m with Ok a => f a | Err e => Err e end.
#[export] Instance result_fmap E : FMap (result E) := fun A B f m =>
  match m with Ok a => Ok (f a) | Err e => Err e end.

Lemma result_bind_Ok {E A B} (m : result E A) (k : A -> result E B) b :
  m ≫= k = Ok b <-> exists a, m = Ok a /\ k a = Ok b.
Proof. destruct m; simpl; split.
  - eauto.
  - by intros (? & [= ->] & ?).
  - done.
  - by intros (? & ? & ?). Qed.

(** ** Lists *)

Lemma foldl_map {A B D} (f : D -> B -> D) (g : A -> B) (xs : list A) d :
  foldl f d (map g xs) = foldl (fun d x => f d (g x)) d xs.
Proof. revert d. induction xs as [|x xs IH]; intros d; [done|]. apply IH. Qed.

Lemma take_drop_app {A} (xs ys : list A) n :
  length xs = n -> take n (xs ++ ys) = xs /\ drop n (xs ++ ys) = ys.
Proof. intros <-. split; [apply take_app_length|apply drop_app_length]. Qed.

(** Induction two elements at a time. *)
Lemma list_pair_ind {A} (P : list A -> Prop) :
  P [] -> (forall a, P [a]) -> (forall a b l, P l -> P (a :: b :: l)) -> forall l, P l.
Proof.
  intros H0 H1 H2. fix IH 1. intros [|a [|b l]]; [exact H0|exact (H1 a)|].
  apply H2, IH.
Qed.

(** The repeated proof steps of the development. *)
Tactic Notation "case_bool" :=
  match goal with
  | |- context [Z.ltb ?a ?b] => destruct (Z.ltb_spec a b)
  | |- context [Z.leb ?a ?b] => destruct (Z.leb_spec a b)
  | |- context [Z.eqb ?a ?b] => destruct (Z.eqb_spec a b)
  | H : context [Z.ltb ?a ?b] |- _ => destruct (Z.ltb_spec a b)
  | H : context [Z.leb ?a ?b] |- _ => destruct (Z.leb_spec a b)
  | H : context [Z.eqb ?a ?b] |- _ => destruct (Z.eqb_spec a b)
  end.

(** The same for the comparisons of natural numbers, in the goal. *)
Ltac nat_bool :=
  match goal with
  | |- context [Nat.ltb ?a ?b] => destruct (Nat.ltb_spec a b)
  | |- context [Nat.leb ?a ?b] => destruct (Nat.leb_spec a b)
  | |- context [Nat.eqb ?a ?b] => destruct (Nat.eqb_spec a b)
  end.

Ltac case_bools := repeat (case_bool; try lia).

(** Closes well-formedness goals about concrete values. *)
Ltac concrete :=
  repeat match goal with
  | |- Forall _ [] => apply Forall_nil_2
  | |- Forall _ (_ :: _) => apply Forall_cons_2
  | |- _ /\ _ => split
  | |- Forall ?P ?l =>
      let l' := eval vm_compute in l in
      lazymatch l' with l => fail | _ => change (Forall P l') end
  | |- ?P => let h := eval hnf in P in
             lazymatch h with _ /\ _ => change h end
  end; vm_compute; congruence.
