(* ===== verification/WireCommon.v ===== *)
(** * wire/common.go: the primitive wire codecs

    An [io.Reader] is the list of bytes that are still to be read and a
    decoder is a state-passing function that may fail; an encoder returns the
    bytes it writes.  The free list of 8-byte scratch buffers is not modelled:
    every use overwrites the bytes it then reads. *)

From Stdlib Require Import ZArith Lia.
From S2P Require Import Prelude.

(** ** Errors (wire/error.go and the sentinels of the package)

    The formatted description of a [MessageError] is not modelled, only the
    function it names.  [PanicSliceBounds] stands for the run-time panic of an
    out-of-range slice expression. *)

Inductive wire_error : Type :=
| EOF
| ErrUnexpectedEOF
| MessageError (Func : string)
| ErrSuperfluousWitnessRecord
| ErrInsaneCFHeaderCount
| ErrUnknownMessage
| ErrInvalidAddressSize
| ErrSkippedNetworkID
| ErrUnexpectedAddressType
| PanicSliceBounds.

#[export] Instance wire_error_eq_dec : EqDecision wire_error.
Proof. solve_decision. Defined.

Inductive MessageEncoding : Type := BaseEncoding | WitnessEncoding.

#[export] Instance MessageEncoding_eq_dec : EqDecision MessageEncoding.
Proof. solve_decision. Defined.

(** ** Readers *)

Definition Reader (A : Type) : Type :=
  list byte -> result wire_error (A * list byte).

#[export] Instance reader_ret : MRet Reader := fun A a r => Ok (a, r).
#[export] Instance reader_bind : MBind Reader := fun A B k m r =>
  match m r with
  | Ok (a, r') => k a r'
  | Err e => Err e
  end.

Definition fail {A} (e : wire_error) : Reader A := fun _ => Err e.

(** A step that does not read. *)
Definition lift {A} (x : result wire_error A) : Reader A := fun r =>
  match x with Ok a => Ok (a, r) | Err e => Err e end.

(** [io.ReadFull]: all of [n] bytes, [EOF] when there is none and
    [ErrUnexpectedEOF] when there are some but not enough. *)
Definition ReadFull (n : Z) : Reader (list byte) := fun r =>
  if n <=? 0 then Ok ([], r)
  else if Z.of_nat (length r) <? n then
    Err (match r with [] => EOF | _ => ErrUnexpectedEOF end)
  else Ok (take (Z.to_nat n) r, drop (Z.to_nat n) r).

Inductive ByteOrder : Type := littleEndian | bigEndian.

Definition order_get (o : ByteOrder) (bs : list byte) : Z :=
  match o with littleEndian => le_get bs | bigEndian => be_get bs end.
Definition order_put (o : ByteOrder) (n : nat) (z : Z) : list byte :=
  match o with littleEndian => le_put n z | bigEndian => be_put n z end.

Definition binarySerializer_Uint8 : Reader Z :=
  buf ← ReadFull 1; mret (le_get buf).
Definition binarySerializer_Uint16 (o : ByteOrder) : Reader Z :=
  buf ← ReadFull 2; mret (order_get o buf).
Definition binarySerializer_Uint32 (o : ByteOrder) : Reader Z :=
  buf ← ReadFull 4; mret (order_get o buf).
Definition binarySerializer_Uint64 (o : ByteOrder) : Reader Z :=
  buf ← ReadFull 8; mret (order_get o buf).

Definition binarySerializer_PutUint8 (val : Z) : list byte := le_put 1 val.
Definition binarySerializer_PutUint16 (o : ByteOrder) (val : Z) : list byte :=
  order_put o 2 val.
Definition binarySerializer_PutUint32 (o : ByteOrder) (val : Z) : list byte :=
  order_put o 4 val.
Definition binarySerializer_PutUint64 (o : ByteOrder) (val : Z) : list byte :=
  order_put o 8 val.

(** ** Elements: the dynamic types [readElement] and [writeElement] switch on *)

Inductive elem_kind : Type :=
| K_int32 | K_uint32 | K_int64 | K_uint64 | K_bool
| K_uint32Time | K_int64Time
| K_bytes4 | K_command | K_bytes16 | K_Hash
| K_ServiceFlag | K_InvType | K_BitcoinNet | K_BloomUpdateType | K_RejectCode
| K_uint8.

Definition elem_type (k : elem_kind) : Type :=
  match k with
  | K_bool => bool
  | K_bytes4 | K_command | K_bytes16 | K_Hash => list byte
  | _ => Z
  end.

Definition CommandSize : Z := 12.

Definition readElement (k : elem_kind) : Reader (elem_type k) :=
  match k as k return Reader (elem_type k) with
  | K_int32 => rv ← binarySerializer_Uint32 littleEndian; mret (to_signed 32 rv)
  | K_uint32 => rv ← binarySerializer_Uint32 littleEndian; mret rv
  | K_int64 => rv ← binarySerializer_Uint64 littleEndian; mret (to_signed 64 rv)
  | K_uint64 => rv ← binarySerializer_Uint64 littleEndian; mret rv
  | K_bool => rv ← binarySerializer_Uint8; mret (negb (rv =? 0))
  | K_uint32Time => rv ← binarySerializer_Uint32 littleEndian; mret rv
  | K_int64Time => rv ← binarySerializer_Uint64 littleEndian; mret (to_signed 64 rv)
  | K_bytes4 => ReadFull 4
  | K_command => ReadFull CommandSize
  | K_bytes16 => ReadFull 16
  | K_Hash => ReadFull 32
  | K_ServiceFlag => rv ← binarySerializer_Uint64 littleEndian; mret rv
  | K_InvType => rv ← binarySerializer_Uint32 littleEndian; mret rv
  | K_BitcoinNet => rv ← binarySerializer_Uint32 littleEndian; mret rv
  | K_BloomUpdateType => rv ← binarySerializer_Uint8; mret rv
  | K_RejectCode => rv ← binarySerializer_Uint8; mret rv
  | K_uint8 => rv ← ReadFull 1; mret (le_get rv)
  end.

(** The two time kinds only exist on the reading side: a writer passes the
    [uint32] or the [int64] of the Unix time. *)
Definition writeElement (k : elem_kind) : elem_type k -> list byte :=
  match k as k return elem_type k -> list byte with
  | K_int32 => fun e => binarySerializer_PutUint32 littleEndian (wrap_u32 e)
  | K_uint32 => fun e => binarySerializer_PutUint32 littleEndian e
  | K_int64 => fun e => binarySerializer_PutUint64 littleEndian (wrap_u64 e)
  | K_uint64 => fun e => binarySerializer_PutUint64 littleEndian e
  | K_bool => fun e => binarySerializer_PutUint8 (if e then 1 else 0)
  | K_uint32Time => fun e => binarySerializer_PutUint32 littleEndian (wrap_u32 e)
  | K_int64Time => fun e => binarySerializer_PutUint64 littleEndian (wrap_u64 e)
  | K_bytes4 | K_command | K_bytes16 | K_Hash => fun e => e
  | K_ServiceFlag => fun e => binarySerializer_PutUint64 littleEndian e
  | K_InvType => fun e => binarySerializer_PutUint32 littleEndian e
  | K_BitcoinNet => fun e => binarySerializer_PutUint32 littleEndian e
  | K_BloomUpdateType => fun e => binarySerializer_PutUint8 e
  | K_RejectCode => fun e => binarySerializer_PutUint8 e
  | K_uint8 => fun e => le_put 1 e
  end.

(** ** Variable length integers, strings and byte arrays *)

Definition MaxVarIntPayload : Z := 9.
Definition MaxMessagePayload : Z := 1024 * 1024 * 32.

Definition ReadVarIntBuf (pver : Z) : Reader Z :=
  buf ← ReadFull 1;
  let discriminant := le_get buf in
  if discriminant =? 0xff then
    buf ← ReadFull 8;
    let rv := le_get buf in
    if rv <? 0x100000000 then fail (MessageError "ReadVarInt") else mret rv
  else if discriminant =? 0xfe then
    buf ← ReadFull 4;
    let rv := le_get buf in
    if rv <? 0x10000 then fail (MessageError "ReadVarInt") else mret rv
  else if discriminant =? 0xfd then
    buf ← ReadFull 2;
    let rv := le_get buf in
    if rv <? 0xfd then fail (MessageError "ReadVarInt") else mret rv
  else mret discriminant.

Definition ReadVarInt (pver : Z) : Reader Z := ReadVarIntBuf pver.

Definition WriteVarIntBuf (pver val : Z) : list byte :=
  if val <? 0xfd then [z2b val]
  else if val <=? 0xffff then z2b 0xfd :: le_put 2 val
  else if val <=? 0xffffffff then z2b 0xfe :: le_put 4 val
  else z2b 0xff :: le_put 8 val.

Definition WriteVarInt (pver val : Z) : list byte := WriteVarIntBuf pver val.

Definition VarIntSerializeSize (val : Z) : Z :=
  if val <? 0xfd then 1
  else if val <=? 0xffff then 3
  else if val <=? 0xffffffff then 5
  else 9.

(** [uint64(len(x))] *)
Definition len {A} (l : list A) : Z := Z.of_nat (length l).

Definition readVarStringBuf (pver : Z) : Reader (list byte) :=
  count ← ReadVarIntBuf pver;
  if MaxMessagePayload <? count then fail (MessageError "ReadVarString")
  else ReadFull count.

Definition ReadVarString (pver : Z) : Reader (list byte) := readVarStringBuf pver.

Definition writeVarStringBuf (pver : Z) (str : list byte) : list byte :=
  WriteVarIntBuf pver (len str) ++ str.

Definition WriteVarString (pver : Z) (str : list byte) : list byte :=
  writeVarStringBuf pver str.

Definition ReadVarBytesBuf (pver maxAllowed : Z) : Reader (list byte) :=
  count ← ReadVarIntBuf pver;
  if maxAllowed <? count then fail (MessageError "ReadVarBytes")
  else ReadFull count.

Definition ReadVarBytes (pver maxAllowed : Z) : Reader (list byte) :=
  ReadVarBytesBuf pver maxAllowed.

Definition WriteVarBytesBuf (pver : Z) (bytes : list byte) : list byte :=
  WriteVarIntBuf pver (len bytes) ++ bytes.

Definition WriteVarBytes (pver : Z) (bytes : list byte) : list byte :=
  WriteVarBytesBuf pver bytes.

(** [randomUint64]: the reader is the random source. *)
Definition randomUint64 : Reader Z := binarySerializer_Uint64 bigEndian.

(** The loops [for i := uint64(0); i < count; i++]: read an element, then add
    it to the message with the type's [Add...] method, whose error the decoders
    ignore. *)
Fixpoint read_loop {A} (m : Reader A) (add : list A -> A -> list A)
    (count : nat) (acc : list A) : Reader (list A) :=
  match count with
  | O => mret acc
  | S n => a ← m; read_loop m add n (add acc a)
  end.

(** ** Specification of a codec

    [reads m bs a]: on any input that starts with [bs] the decoder [m] takes
    exactly [bs] and returns [a].  [exact_reader]: whatever [m] accepts is the
    encoding of the value it returns, and that value is well formed. *)

Definition reads {A} (m : Reader A) (bs : list byte) (a : A) : Prop :=
  forall rest, m (bs ++ rest) = Ok (a, rest).

Definition exact_reader {A} (m : Reader A) (enc : A -> list byte) (wf : A -> Prop)
    : Prop :=
  forall bs a rest, m bs = Ok (a, rest) -> wf a /\ bs = enc a ++ rest.

(** The interface between the message types and their parts: a decoder, an
    encoder and the values on which they are inverse to each other. *)
Class Codec {A} (m : Reader A) (enc : A -> list byte) (wf : A -> Prop) : Prop := {
  codec_reads : forall a, wf a -> reads m (enc a) a;
  codec_exact : exact_reader m enc wf;
}.
#[export] Hint Mode Codec - ! - - : typeclass_instances.

Lemma codec_inv {A} {m : Reader A} {enc wf} {HC : Codec m enc wf} bs a rest :
  m bs = Ok (a, rest) -> wf a /\ bs = enc a ++ rest.
Proof. apply codec_exact. Qed.

(** ** Generic reading lemmas *)

Lemma reads_ret {A} (a : A) : reads (mret a) [] a.
Proof. done. Qed.

Lemma reads_ret_eq {A} (a b : A) : a = b -> reads (mret a) [] b.
Proof. by intros ->. Qed.

Lemma reads_bind {A B} (m : Reader A) (k : A -> Reader B) bs1 bs2 a b :
  reads m bs1 a -> reads (k a) bs2 b -> reads (m ≫= k) (bs1 ++ bs2) b.
Proof.
  intros H1 H2 rest. unfold mbind, reader_bind.
  rewrite <- app_assoc, H1. apply H2.
Qed.

(** The first step of a decoder, as an equation. *)
Lemma bind_reads {A B} (m : Reader A) (k : A -> Reader B) bs a rest :
  reads m bs a -> (m ≫= k) (bs ++ rest) = k a rest.
Proof. intros H. unfold mbind, reader_bind. by rewrite H. Qed.

Lemma reads_bind_ret {A B} (m : Reader A) (k : A -> Reader B) bs a b :
  reads m bs a -> reads (k a) [] b -> reads (m ≫= k) bs b.
Proof. intros H1 H2. rewrite <- (app_nil_r bs). by eapply reads_bind. Qed.

Lemma bind_Ok {A B} (m : Reader A) (k : A -> Reader B) bs b rest :
  (m ≫= k) bs = Ok (b, rest) <->
  exists a mid, m bs = Ok (a, mid) /\ k a mid = Ok (b, rest).
Proof.
  unfold mbind, reader_bind. destruct (m bs) as [[a mid]|e]; split.
  - eauto.
  - intros (? & ? & [= -> ->] & ?). done.
  - done.
  - intros (? & ? & ? & ?). done.
Qed.

Lemma bind_Err {A B} (m : Reader A) (k : A -> Reader B) bs e :
  m bs = Err e -> (m ≫= k) bs = Err e.
Proof. unfold mbind, reader_bind. by intros ->. Qed.

Lemma len_nonneg {A} (l : list A) : 0 <= len l.
Proof. unfold len. lia. Qed.
#[export] Hint Resolve len_nonneg : nogo.

Lemma len_app {A} (l k : list A) : len (l ++ k) = len l + len k.
Proof. unfold len. rewrite length_app. lia. Qed.

Lemma to_nat_len {A} (l : list A) : Z.to_nat (len l) = length l.
Proof. unfold len. lia. Qed.

Lemma reads_ReadFull n bs : len bs = n -> reads (ReadFull n) bs bs.
Proof.
  unfold len. intros <- rest. unfold ReadFull.
  destruct (Z.leb_spec (Z.of_nat (length bs)) 0).
  - destruct bs; simpl in *; [done|lia].
  - rewrite length_app. case_bool; [lia|].
    rewrite Nat2Z.id. by rewrite take_app_length, drop_app_length.
Qed.

Lemma ReadFull_Ok n bs xs rest :
  0 <= n -> ReadFull n bs = Ok (xs, rest) -> len xs = n /\ bs = xs ++ rest.
Proof.
  unfold ReadFull, len. intros Hn. case_bools; try done.
  - intros [= <- <-]. split; [simpl; lia|done].
  - intros [= <- <-]. split; [|by rewrite take_drop].
    rewrite length_take. lia.
Qed.

(** A truncated input never decodes: the error is [EOF] exactly when there is
    nothing left to read. *)
Lemma ReadFull_short n bs :
  len bs < n -> ReadFull n bs = Err (if decide (bs = []) then EOF else ErrUnexpectedEOF).
Proof.
  unfold ReadFull, len. intros H. case_bools.
  by destruct bs; case_decide.
Qed.

#[export] Instance ReadFull_codec n {Hn : @TCEq bool (Z.leb 0 n) true} :
  Codec (ReadFull n) (fun xs => xs) (fun xs => len xs = n).
Proof.
  apply TCEq_eq, Z.leb_le in Hn. split.
  - intros a <-. by apply reads_ReadFull.
  - intros bs a rest H. by apply ReadFull_Ok in H.
Qed.

(** ** Tactics for codecs

    [inv_read] inverts the first read of a sequential decoder that returned
    [Ok]; [exact_tac] does it for every read whose codec is known, turning the
    input into the encodings read; [reads_tac] follows a sequential encoder. *)

Tactic Notation "inv_read" hyp(H) "as" simple_intropattern(a) simple_intropattern(mid)
    simple_intropattern(H1) :=
  apply bind_Ok in H; destruct H as (a & mid & H1 & H).

Lemma mret_Ok {A} (a b : A) bs rest :
  (mret a : Reader A) bs = Ok (b, rest) -> b = a /\ rest = bs.
Proof. by intros [= -> ->]. Qed.

(** The fixed-width integers: the [n]-byte buffer followed by a conversion. *)
Lemma fixed_codec (n : nat) (o : ByteOrder) :
  Codec (buf ← ReadFull (Z.of_nat n); mret (order_get o buf))
    (order_put o n) (fun z => 0 <= z < 256 ^ Z.of_nat n).
Proof.
  split.
  - intros a Ha. eapply reads_bind_ret.
    + apply reads_ReadFull. unfold len, order_put.
      destruct o; by rewrite ?length_le_put, ?length_be_put.
    + replace a with (order_get o (order_put o n a)) at 2; [apply reads_ret|].
      destruct o; simpl; [by apply le_get_put|by apply be_get_put].
  - intros bs a rest H. inv_read H as buf mid H1.
    apply mret_Ok in H as [-> ->]. apply ReadFull_Ok in H1 as [Hl ->]; [|lia].
    unfold len in Hl. assert (n = length buf) as -> by lia.
    destruct o; simpl.
    + split; [apply le_get_range|by rewrite le_put_get].
    + split; [apply be_get_range|by rewrite be_put_get].
Qed.

#[export] Instance Uint8_codec :
  Codec binarySerializer_Uint8 binarySerializer_PutUint8 (fun z => u8_ok z).
Proof. exact (fixed_codec 1 littleEndian). Qed.
#[export] Instance Uint16_codec o :
  Codec (binarySerializer_Uint16 o) (binarySerializer_PutUint16 o) (fun z => u16_ok z).
Proof. exact (fixed_codec 2 o). Qed.
#[export] Instance Uint32_codec o :
  Codec (binarySerializer_Uint32 o) (binarySerializer_PutUint32 o) (fun z => u32_ok z).
Proof. exact (fixed_codec 4 o). Qed.
#[export] Instance Uint64_codec o :
  Codec (binarySerializer_Uint64 o) (binarySerializer_PutUint64 o) (fun z => u64_ok z).
Proof. exact (fixed_codec 8 o). Qed.


Ltac exact_step :=
  match goal with
  | H : mbind _ _ _ = Ok _ |- _ =>
      let a := fresh "a" in let mid := fresh "mid" in
      let H1 := fresh "Hr" in let Hwf := fresh "Hwf" in
      apply bind_Ok in H; destruct H as (a & mid & H1 & H);
      try (apply codec_inv in H1; destruct H1 as [Hwf H1]; subst)
  | H : mret _ _ = Ok _ |- _ => apply mret_Ok in H; destruct H; subst
  | H : fail _ _ = Ok _ |- _ => discriminate H
  end.

Ltac exact_tac := repeat (exact_step; cbv beta zeta in * ); rewrite <- ?app_assoc; simpl.

Ltac reads_tac :=
  repeat match goal with
  | |- reads (mret _) [] _ => apply reads_ret
  | |- reads (mbind _ _) (_ ++ _) _ => eapply reads_bind
  | |- reads (mbind _ _) _ _ => eapply reads_bind_ret
  | |- reads ?m ?bs _ => apply codec_reads
  end.

(** ** Elements *)

Definition elem_ok (k : elem_kind) : elem_type k -> Prop :=
  match k as k return elem_type k -> Prop with
  | K_int32 => fun e => i32_ok e
  | K_int64 | K_int64Time => fun e => i64_ok e
  | K_uint32 | K_uint32Time | K_InvType | K_BitcoinNet => fun e => u32_ok e
  | K_uint64 | K_ServiceFlag => fun e => u64_ok e
  | K_BloomUpdateType | K_RejectCode | K_uint8 => fun e => u8_ok e
  | K_bool => fun e => True
  | K_bytes4 => fun e => len e = 4
  | K_command => fun e => len e = CommandSize
  | K_bytes16 => fun e => len e = 16
  | K_Hash => fun e => len e = 32
  end.

(** A signed field read through the unsigned reader of its width. *)
Lemma signed_codec (w : Z) (m : Reader Z) (enc : Z -> list byte) :
  0 < w -> Codec m enc (fun z => 0 <= z < 2 ^ w) ->
  Codec (rv ← m; mret (to_signed w rv)) (fun e => enc (e mod 2 ^ w))
    (fun e => - 2 ^ (w - 1) <= e < 2 ^ (w - 1)).
Proof.
  intros Hw HC. split.
  - intros a Ha. eapply reads_bind_ret.
    + apply codec_reads. apply Z.mod_pos_bound. lia.
    + rewrite to_signed_mod by lia. apply reads_ret.
  - intros bs a rest H. exact_tac.
    destruct (to_signed_range w a0) as [Hr Hm]; [lia..|]. by rewrite Hm.
Qed.

Lemma codec_ext {A} (enc enc' : A -> list byte) (m : Reader A) wf :
  (forall a, wf a -> enc' a = enc a) -> Codec m enc wf -> Codec m enc' wf.
Proof.
  intros He [Hr Hx]. split.
  - intros a Ha. rewrite He by done. auto.
  - intros bs a rest H. apply Hx in H as [? ->]. by rewrite He.
Qed.

Lemma mret_codec {A} (m : Reader A) enc wf :
  Codec m enc wf -> Codec (rv ← m; mret rv) enc wf.
Proof.
  intros HC. split.
  - intros a Ha. eapply reads_bind_ret; [by apply codec_reads|apply reads_ret].
  - intros bs a rest H. exact_tac. done.
Qed.

(** Every element kind but [bool] has one encoding per value; a [bool] is
    read from any byte. *)
Lemma readElement_codec k :
  k <> K_bool -> Codec (readElement k) (writeElement k) (elem_ok k).
Proof.
  intros Hk. destruct k; try done;
    first [ exact (signed_codec 32 _ _ eq_refl (Uint32_codec littleEndian))
          | exact (signed_codec 64 _ _ eq_refl (Uint64_codec littleEndian))
          | exact (mret_codec _ _ _ Uint8_codec)
          | exact (mret_codec _ _ _ (Uint32_codec littleEndian))
          | exact (mret_codec _ _ _ (Uint64_codec littleEndian))
          | apply (ReadFull_codec 4) | apply (ReadFull_codec 12)
          | apply (ReadFull_codec 16) | apply (ReadFull_codec 32)
          | exact Uint8_codec | idtac ].
  apply (codec_ext (binarySerializer_PutUint32 littleEndian)); [|exact (mret_codec _ _ _ _)].
  intros a Ha. cbn [elem_ok] in Ha. simpl. unfold wrap_u32. by rewrite Z.mod_small.
Qed.

Lemma readElement_bool b : reads (readElement K_bool) (writeElement K_bool b) b.
Proof.
  assert (H : u8_ok (if b then 1 else 0)) by (destruct b; lia).
  eapply reads_bind_ret; [exact (codec_reads (Codec := Uint8_codec) _ H)|].
  by destruct b.
Qed.

#[export] Instance read_int32 :
  Codec (readElement K_int32) (writeElement K_int32) (elem_ok K_int32).
Proof. by apply readElement_codec. Qed.
#[export] Instance read_uint32 :
  Codec (readElement K_uint32) (writeElement K_uint32) (elem_ok K_uint32).
Proof. by apply readElement_codec. Qed.
#[export] Instance read_int64 :
  Codec (readElement K_int64) (writeElement K_int64) (elem_ok K_int64).
Proof. by apply readElement_codec. Qed.
#[export] Instance read_uint64 :
  Codec (readElement K_uint64) (writeElement K_uint64) (elem_ok K_uint64).
Proof. by apply readElement_codec. Qed.
#[export] Instance read_uint32Time :
  Codec (readElement K_uint32Time) (writeElement K_uint32Time) (elem_ok K_uint32Time).
Proof. by apply readElement_codec. Qed.
#[export] Instance read_ServiceFlag :
  Codec (readElement K_ServiceFlag) (writeElement K_ServiceFlag) (elem_ok K_ServiceFlag).
Proof. by apply readElement_codec. Qed.
#[export] Instance read_int64Time :
  Codec (readElement K_int64Time) (writeElement K_int64Time) (elem_ok K_int64Time).
Proof. by apply readElement_codec. Qed.
#[export] Instance read_uint8 :
  Codec (readElement K_uint8) (writeElement K_uint8) (elem_ok K_uint8).
Proof. by apply readElement_codec. Qed.
#[export] Instance read_bloom_flags :
  Codec (readElement K_BloomUpdateType) (writeElement K_BloomUpdateType)
    (elem_ok K_BloomUpdateType).
Proof. by apply readElement_codec. Qed.

(** ** Variable length integers *)

Lemma z2b_get v : 0 <= v < 256 -> le_get [z2b v] = v.
Proof. intros H. by rewrite le_get_1, b2z_z2b_small. Qed.

Lemma WriteVarIntBuf_head pver v :
  0 <= v ->
  exists d tl, WriteVarIntBuf pver v = z2b d :: tl /\ 0 <= d < 256 /\
    (d = v /\ tl = [] /\ v < 0xfd \/
     d = 0xfd /\ tl = le_put 2 v /\ 0xfd <= v <= 0xffff \/
     d = 0xfe /\ tl = le_put 4 v /\ 0x10000 <= v <= 0xffffffff \/
     d = 0xff /\ tl = le_put 8 v /\ 0x100000000 <= v).
Proof.
  intros Hv. unfold WriteVarIntBuf. case_bools.
  - exists v, []. intuition lia.
  - exists 0xfd, (le_put 2 v). intuition lia.
  - exists 0xfe, (le_put 4 v). intuition lia.
  - exists 0xff, (le_put 8 v). intuition lia.
Qed.

(** The multi-byte forms: [n] bytes and the canonicity check. *)
Definition varint_tail (n : nat) (min : Z) : Reader Z :=
  buf ← ReadFull (Z.of_nat n);
  let rv := le_get buf in
  if rv <? min then fail (MessageError "ReadVarInt") else mret rv.

Lemma varint_tail_codec n min :
  Codec (varint_tail n min) (le_put n) (fun v => min <= v /\ 0 <= v < 256 ^ Z.of_nat n).
Proof.
  split.
  - intros v [Hm Hv]. eapply reads_bind_ret.
    + apply reads_ReadFull. unfold len. by rewrite length_le_put.
    + cbv zeta. rewrite le_get_put by done. case_bools. apply reads_ret.
  - intros bs v rest H. unfold varint_tail in H. inv_read H as buf mid H1.
    apply ReadFull_Ok in H1 as [Hl ->]; [|lia]. cbv zeta in H. case_bools; [done|].
    apply mret_Ok in H as [-> ->]. unfold len in Hl.
    assert (n = length buf) as -> by lia.
    rewrite le_put_get. pose proof (le_get_range buf). auto.
Qed.

#[export] Instance VarInt_codec pver :
  Codec (ReadVarIntBuf pver) (WriteVarIntBuf pver) (fun v => u64_ok v).
Proof.
  split.
  - intros v Hv. destruct (WriteVarIntBuf_head pver v) as (d & tl & -> & Hd & Hc); [lia|].
    change (z2b d :: tl) with ([z2b d] ++ tl).
    eapply reads_bind; [by apply reads_ReadFull|]. cbv zeta.
    rewrite z2b_get by done.
    destruct Hc as [(-> & -> & ?)|[(-> & -> & ?)|[(-> & -> & ?)|(-> & -> & ?)]]].
    + case_bools. apply reads_ret.
    + apply (codec_reads (Codec := varint_tail_codec 2 0xfd)). lia.
    + apply (codec_reads (Codec := varint_tail_codec 4 0x10000)). lia.
    + apply (codec_reads (Codec := varint_tail_codec 8 0x100000000)). lia.
  - intros bs v rest H. unfold ReadVarIntBuf in H. inv_read H as buf mid H1.
    apply ReadFull_Ok in H1 as [Hl ->]; [|lia].
    destruct buf as [|b [|]]; try (unfold len in Hl; simpl in Hl; lia).
    cbv zeta in H. rewrite le_get_1 in H.
    pose proof (b2z_range b). pose proof (z2b_b2z b) as Hb.
    case_bools.
    + change ((varint_tail 8 0x100000000) mid = Ok (v, rest)) in H.
      apply (codec_inv (HC := varint_tail_codec _ _)) in H as [Hv ->].
      change (256 ^ Z.of_nat 8) with (2 ^ 64) in Hv. split; [lia|].
      unfold WriteVarIntBuf. case_bools. simpl. congruence.
    + change ((varint_tail 4 0x10000) mid = Ok (v, rest)) in H.
      apply (codec_inv (HC := varint_tail_codec _ _)) in H as [Hv ->].
      change (256 ^ Z.of_nat 4) with (2 ^ 32) in Hv. split; [lia|].
      unfold WriteVarIntBuf. case_bools. simpl. congruence.
    + change ((varint_tail 2 0xfd) mid = Ok (v, rest)) in H.
      apply (codec_inv (HC := varint_tail_codec _ _)) in H as [Hv ->].
      change (256 ^ Z.of_nat 2) with (2 ^ 16) in Hv. split; [lia|].
      unfold WriteVarIntBuf. case_bools. simpl. congruence.
    + apply mret_Ok in H as [-> ->]. split; [lia|].
      unfold WriteVarIntBuf. case_bools. simpl. congruence.
Qed.

Lemma length_WriteVarIntBuf pver v :
  0 <= v -> len (WriteVarIntBuf pver v) = VarIntSerializeSize v.
Proof.
  intros Hv. unfold WriteVarIntBuf, VarIntSerializeSize, len.
  case_bools; cbn [length]; rewrite ?length_le_put; lia.
Qed.

Lemma VarIntSerializeSize_bounds v : 1 <= VarIntSerializeSize v <= MaxVarIntPayload.
Proof. unfold VarIntSerializeSize, MaxVarIntPayload. case_bools. Qed.

Lemma ReadFull_reads_len n (bs : list byte) : len bs = n -> reads (ReadFull n) bs bs.
Proof. apply reads_ReadFull. Qed.

(** A count-prefixed byte string with an upper bound on the count. *)
Lemma var_bytes_codec pver max err :
  max < 2 ^ 64 ->
  Codec (count ← ReadVarIntBuf pver;
         if max <? count then fail err else ReadFull count)
    (fun bs => WriteVarIntBuf pver (len bs) ++ bs) (fun bs => len bs <= max).
Proof.
  intros Hmax. split.
  - intros bs Hl. pose proof (len_nonneg bs).
    eapply reads_bind; [apply codec_reads; lia|].
    case_bools. by apply reads_ReadFull.
  - intros bs a rest H. exact_tac. case_bools; [done|].
    apply ReadFull_Ok in H as [Hl ->]; [|lia]. subst. auto.
Qed.

#[export] Instance VarBytes_codec pver max {Hmax : @TCEq bool (max <? 2 ^ 64) true} :
  Codec (ReadVarBytesBuf pver max) (WriteVarBytesBuf pver) (fun bs => len bs <= max).
Proof. apply TCEq_eq, Z.ltb_lt in Hmax. by apply var_bytes_codec. Qed.

#[export] Instance VarString_codec pver :
  Codec (readVarStringBuf pver) (writeVarStringBuf pver)
    (fun s => len s <= MaxMessagePayload).
Proof. by apply var_bytes_codec. Qed.

(** ** Loops *)

(** [for _, x := range l { write(x) }] *)
Definition write_all {A} (enc : A -> list byte) (l : list A) : list byte :=
  concat (map enc l).

Lemma write_all_cons {A} (enc : A -> list byte) a l :
  write_all enc (a :: l) = enc a ++ write_all enc l.
Proof. done. Qed.

Lemma len_write_all {A} (enc : A -> list byte) n l :
  (forall a, a ∈ l -> len (enc a) = n) -> len (write_all enc l) = n * len l.
Proof.
  induction l as [|a l IH]; intros H.
  - unfold len. simpl. lia.
  - rewrite write_all_cons, len_app, H, IH by set_solver.
    unfold len. simpl length. lia.
Qed.

(** The [Add...] methods append as long as the list is below the limit. *)
Definition appends_below {A} (add : list A -> A -> list A) (max : Z) : Prop :=
  forall acc a, len acc < max -> add acc a = acc ++ [a].

Section loops.
Context {A : Type} (m : Reader A) (enc : A -> list byte) (wf : A -> Prop).
Context `{HC : !Codec m enc wf} (add : list A -> A -> list A) (max : Z).
Hypothesis Hadd : appends_below add max.

Lemma read_loop_reads l acc :
  Forall wf l -> len acc + len l <= max ->
  reads (read_loop m add (length l) acc) (write_all enc l) (acc ++ l).
Proof.
  revert acc. induction l as [|a l IH]; intros acc Hwf Hm.
  - rewrite app_nil_r. apply reads_ret.
  - inversion_clear Hwf as [|?? Ha Hl]. rewrite write_all_cons.
    assert (Hc : len (a :: l) = 1 + len l) by (unfold len; simpl length; lia).
    pose proof (len_nonneg l). simpl.
    eapply reads_bind; [by apply codec_reads|].
    rewrite Hadd by lia. replace (acc ++ a :: l) with ((acc ++ [a]) ++ l).
    + apply IH; [done|]. rewrite len_app. change (len [a]) with 1. lia.
    + by rewrite <- app_assoc.
Qed.

Lemma read_loop_exact n acc bs l' rest :
  len acc + Z.of_nat n <= max ->
  read_loop m add n acc bs = Ok (l', rest) ->
  exists l, l' = acc ++ l /\ length l = n /\ Forall wf l /\
            bs = write_all enc l ++ rest.
Proof.
  revert acc bs. induction n as [|n IH]; intros acc bs Hm H.
  - simpl in H. apply mret_Ok in H as [-> ->]. exists []. by rewrite app_nil_r.
  - simpl in H. exact_tac. rewrite Hadd in H by lia.
    apply IH in H as (l & -> & Hl & Hwf' & ->).
    + exists (a :: l). rewrite <- !app_assoc. simpl.
      rewrite write_all_cons, <- app_assoc. auto.
    + rewrite len_app. change (len [a]) with 1. lia.
Qed.

(** The whole pattern: count, bound check, loop. *)
Lemma counted_codec pver err :
  max < 2 ^ 64 ->
  Codec (count ← ReadVarIntBuf pver;
         if max <? count then fail err else read_loop m add (Z.to_nat count) [])
    (fun l => WriteVarIntBuf pver (len l) ++ write_all enc l)
    (fun l => len l <= max /\ Forall wf l).
Proof.
  intros Hmax. split.
  - intros l [Hl Hwf]. pose proof (len_nonneg l).
    eapply reads_bind; [apply codec_reads; lia|].
    case_bools. rewrite to_nat_len.
    apply (read_loop_reads l []); [done|]. change (len []) with 0. lia.
  - intros bs l rest H. exact_tac. case_bools; [done|].
    apply read_loop_exact in H as (l0 & -> & Hn & Hwf' & ->).
    + simpl. unfold len. rewrite Hn, Z2Nat.id by lia. cbv beta. rewrite <- ?app_assoc.
      split; [split; [lia|done]|done].
    + change (len []) with 0. lia.
Qed.
End loops.

(** Loops that append unconditionally. *)
Definition push {A} (l : list A) (a : A) : list A := l ++ [a].
Lemma push_appends {A} max : appends_below (@push A) max.
Proof. done. Qed.

(** ** Consequences every codec has *)

Section codec_consequences.
Context {A : Type} (m : Reader A) (enc : A -> list byte) (wf : A -> Prop).
Context `{HC : !Codec m enc wf}.

Lemma codec_inj a b : wf a -> wf b -> enc a = enc b -> a = b.
Proof using HC.
  intros Ha Hb He.
  pose proof (codec_reads (Codec := HC) a Ha []) as H1. pose proof (codec_reads (Codec := HC) b Hb []) as H2.
  rewrite He in H1. congruence.
Qed.

(** No proper prefix of an encoding decodes. *)
Lemma codec_truncated a p q :
  wf a -> enc a = p ++ q -> q <> [] -> exists e, m p = Err e.
Proof using HC.
  intros Ha He Hq. destruct (m p) as [[a' rest]|e] eqn:Hm; [exfalso|eauto].
  apply codec_inv in Hm as [Ha' ->].
  pose proof (codec_reads (Codec := HC) a' Ha' (rest ++ q)) as H1.
  pose proof (codec_reads (Codec := HC) a Ha []) as H2.
  rewrite app_nil_r, He, <- app_assoc, H1 in H2.
  inversion H2. destruct rest, q; done.
Qed.
End codec_consequences.

(** ** Decoders that cannot panic *)

Definition no_panic {A} (m : Reader A) : Prop := forall bs, m bs <> Err PanicSliceBounds.

Lemma no_panic_ret {A} (a : A) : no_panic (mret a).
Proof. by intros bs. Qed.
Lemma no_panic_fail {A} e : e <> PanicSliceBounds -> no_panic (@fail A e).
Proof. intros He bs [= ->]. done. Qed.
Lemma no_panic_ReadFull n : no_panic (ReadFull n).
Proof. intros bs. unfold ReadFull. repeat case_match; done. Qed.
Lemma no_panic_bind {A B} (m : Reader A) (k : A -> Reader B) :
  no_panic m -> (forall a, no_panic (k a)) -> no_panic (m ≫= k).
Proof.
  intros Hm Hk bs. unfold mbind, reader_bind. destruct (m bs) as [[a r]|e] eqn:E.
  - apply Hk.
  - intros [= ->]. by apply (Hm bs).
Qed.
Lemma no_panic_if {A} (b : bool) (m1 m2 : Reader A) :
  no_panic m1 -> no_panic m2 -> no_panic (if b then m1 else m2).
Proof. by destruct b. Qed.
#[export] Hint Resolve no_panic_ret no_panic_ReadFull no_panic_bind no_panic_if : wire.
#[export] Hint Extern 1 (no_panic (fail _)) => apply no_panic_fail; discriminate : wire.

Lemma no_panic_ReadVarIntBuf pver : no_panic (ReadVarIntBuf pver).
Proof. unfold ReadVarIntBuf. cbv zeta. auto 20 with wire. Qed.
#[export] Hint Resolve no_panic_ReadVarIntBuf : wire.
