(* ===== verification/WireTx.v ===== *)
(** * wire/msgtx.go: transactions

    Scripts are byte lists; a [TxWitness] is an [option] because the code tells
    a nil witness from an empty one.  The decoder reads the scripts into a slab
    of [scriptSlabSize] bytes whose unused length it threads along, and at the
    end copies them into one contiguous buffer; both are modelled. *)

From Stdlib Require Import ZArith Lia.
From S2P Require Import Prelude WireCommon.

Definition HashSize : Z := 32.
Definition MaxTxInSequenceNum : Z := 0xffffffff.
Definition minTxInPayload : Z := 9 + HashSize.
Definition maxTxInPerMessage : Z := MaxMessagePayload / minTxInPayload + 1.
Definition MinTxOutPayload : Z := 9.
Definition maxTxOutPerMessage : Z := MaxMessagePayload / MinTxOutPayload + 1.
Definition maxWitnessItemsPerInput : Z := 4000000.
Definition maxWitnessItemSize : Z := 4000000.
Definition TxFlagMarker : Z := 0.
Definition WitnessFlag : Z := 1.
Definition scriptSlabSize : Z := Z.shiftl 1 22.

(** ** Data *)

Record OutPoint : Type := mkOutPoint {
  OutPoint_Hash : list byte;
  OutPoint_Index : Z;
}.

Record TxIn : Type := mkTxIn {
  TxIn_PreviousOutPoint : OutPoint;
  TxIn_SignatureScript : list byte;
  TxIn_Witness : option (list (list byte));
  TxIn_Sequence : Z;
}.

Record TxOut : Type := mkTxOut {
  TxOut_Value : Z;
  TxOut_PkScript : list byte;
}.

Record MsgTx : Type := mkMsgTx {
  MsgTx_Version : Z;
  MsgTx_TxIn : list TxIn;
  MsgTx_TxOut : list TxOut;
  MsgTx_LockTime : Z;
}.

(** The elements of a witness, none for a nil one. *)
Definition wit_items (ti : TxIn) : list (list byte) := default [] (TxIn_Witness ti).

Definition NewOutPoint (hash : list byte) (index : Z) : OutPoint :=
  mkOutPoint hash index.
Definition NewTxIn (prevOut : OutPoint) (signatureScript : list byte)
    (witness : option (list (list byte))) : TxIn :=
  mkTxIn prevOut signatureScript witness MaxTxInSequenceNum.
Definition NewTxOut (value : Z) (pkScript : list byte) : TxOut :=
  mkTxOut value pkScript.
Definition NewMsgTx (version : Z) : MsgTx := mkMsgTx version [] [] 0.

Definition MsgTx_AddTxIn (msg : MsgTx) (ti : TxIn) : MsgTx :=
  mkMsgTx (MsgTx_Version msg) (MsgTx_TxIn msg ++ [ti]) (MsgTx_TxOut msg)
    (MsgTx_LockTime msg).
Definition MsgTx_AddTxOut (msg : MsgTx) (to : TxOut) : MsgTx :=
  mkMsgTx (MsgTx_Version msg) (MsgTx_TxIn msg) (MsgTx_TxOut msg ++ [to])
    (MsgTx_LockTime msg).

Definition MsgTx_HasWitness (msg : MsgTx) : bool :=
  existsb (fun txIn => negb (len (wit_items txIn) =? 0)) (MsgTx_TxIn msg).

(** ** Sizes *)

Definition sum_Z {A} (f : A -> Z) (l : list A) : Z := foldr (fun a n => f a + n) 0 l.

Definition TxIn_SerializeSize (t : TxIn) : Z :=
  40 + VarIntSerializeSize (len (TxIn_SignatureScript t)) + len (TxIn_SignatureScript t).

Definition TxWitness_SerializeSize (t : list (list byte)) : Z :=
  VarIntSerializeSize (len t) +
  sum_Z (fun witItem => VarIntSerializeSize (len witItem) + len witItem) t.

Definition TxOut_SerializeSize (t : TxOut) : Z :=
  8 + VarIntSerializeSize (len (TxOut_PkScript t)) + len (TxOut_PkScript t).

Definition MsgTx_baseSize (msg : MsgTx) : Z :=
  8 + VarIntSerializeSize (len (MsgTx_TxIn msg)) +
  VarIntSerializeSize (len (MsgTx_TxOut msg)) +
  sum_Z TxIn_SerializeSize (MsgTx_TxIn msg) +
  sum_Z TxOut_SerializeSize (MsgTx_TxOut msg).

Definition MsgTx_SerializeSize (msg : MsgTx) : Z :=
  let n := MsgTx_baseSize msg in
  if MsgTx_HasWitness msg
  then n + 2 + sum_Z (fun txin => TxWitness_SerializeSize (wit_items txin)) (MsgTx_TxIn msg)
  else n.

Definition MsgTx_SerializeSizeStripped (msg : MsgTx) : Z := MsgTx_baseSize msg.

(** The running offset of the loop over the outputs, and the offsets it stores. *)
Fixpoint pkScriptLocs_loop (n : Z) (outs : list TxOut) : list Z :=
  match outs with
  | [] => []
  | txOut :: outs' =>
      let n := n + 8 + VarIntSerializeSize (len (TxOut_PkScript txOut)) in
      n :: pkScriptLocs_loop (n + len (TxOut_PkScript txOut)) outs'
  end.

Definition MsgTx_PkScriptLocs (msg : MsgTx) : list Z :=
  let numTxOut := len (MsgTx_TxOut msg) in
  if numTxOut =? 0 then []
  else
    let n := 4 + VarIntSerializeSize (len (MsgTx_TxIn msg)) +
             VarIntSerializeSize numTxOut in
    let n := match MsgTx_TxIn msg with
             | txIn0 :: _ => if TxIn_Witness txIn0 is Some _ then n + 2 else n
             | [] => n
             end in
    let n := n + sum_Z TxIn_SerializeSize (MsgTx_TxIn msg) in
    pkScriptLocs_loop n (MsgTx_TxOut msg).

(** ** Encoding *)

Definition writeOutPointBuf (pver version : Z) (op : OutPoint) : list byte :=
  OutPoint_Hash op ++ le_put 4 (OutPoint_Index op).

Definition writeTxInBuf (pver version : Z) (ti : TxIn) : list byte :=
  writeOutPointBuf pver version (TxIn_PreviousOutPoint ti) ++
  WriteVarBytesBuf pver (TxIn_SignatureScript ti) ++
  le_put 4 (TxIn_Sequence ti).

Definition WriteTxOutBuf (pver version : Z) (to : TxOut) : list byte :=
  le_put 8 (wrap_u64 (TxOut_Value to)) ++
  WriteVarBytesBuf pver (TxOut_PkScript to).

Definition writeTxWitnessBuf (pver version : Z) (wit : list (list byte)) : list byte :=
  WriteVarIntBuf pver (len wit) ++ write_all (WriteVarBytesBuf pver) wit.

Definition MsgTx_btcEncode (pver : Z) (enc : MessageEncoding) (msg : MsgTx)
    : list byte :=
  let doWitness := bool_decide (enc = WitnessEncoding) && MsgTx_HasWitness msg in
  le_put 4 (wrap_u32 (MsgTx_Version msg)) ++
  (if doWitness then [z2b TxFlagMarker; z2b WitnessFlag] else []) ++
  WriteVarIntBuf pver (len (MsgTx_TxIn msg)) ++
  write_all (writeTxInBuf pver (MsgTx_Version msg)) (MsgTx_TxIn msg) ++
  WriteVarIntBuf pver (len (MsgTx_TxOut msg)) ++
  write_all (WriteTxOutBuf pver (MsgTx_Version msg)) (MsgTx_TxOut msg) ++
  (if doWitness
   then write_all (fun ti => writeTxWitnessBuf pver (MsgTx_Version msg) (wit_items ti))
          (MsgTx_TxIn msg)
   else []) ++
  le_put 4 (MsgTx_LockTime msg).

Definition MsgTx_BtcEncode (pver : Z) (enc : MessageEncoding) (msg : MsgTx)
    : list byte := MsgTx_btcEncode pver enc msg.
Definition MsgTx_Serialize (msg : MsgTx) : list byte :=
  MsgTx_BtcEncode 0 WitnessEncoding msg.
Definition MsgTx_SerializeNoWitness (msg : MsgTx) : list byte :=
  MsgTx_BtcEncode 0 BaseEncoding msg.

(** ** Decoding *)

(** [littleEndian.UintN(buf[:n])] after [io.ReadFull(r, buf[:n])]. *)
Abbreviation read_u32 := (binarySerializer_Uint32 littleEndian).
Abbreviation read_u64 := (binarySerializer_Uint64 littleEndian).

Definition readOutPointBuf (pver version : Z) : Reader OutPoint :=
  hash ← ReadFull HashSize;
  index ← read_u32;
  mret (mkOutPoint hash index).

(** [s] is the length of the unused part of the slab. *)
Definition readScriptBuf (pver s : Z) : Reader (list byte) :=
  count ← ReadVarIntBuf pver;
  if maxWitnessItemSize <? count then fail (MessageError "readScript")
  else if s <? count then fail (MessageError "readScript")
  else ReadFull count.

Definition readTxInBuf (pver version s : Z) : Reader TxIn :=
  op ← readOutPointBuf pver version;
  script ← readScriptBuf pver s;
  seq ← read_u32;
  mret (mkTxIn op script None seq).

Definition readTxOutBuf (pver version s : Z) : Reader TxOut :=
  value ← read_u64;
  script ← readScriptBuf pver s;
  mret (mkTxOut (to_signed 64 value) script).

(** The reading loops thread [sbuf] (what is left of the slab) and
    [totalScriptSize]. *)
Record slab : Type := mkSlab { sbuf : Z; totalScriptSize : Z }.

Definition slab_use (st : slab) (n : Z) : slab :=
  mkSlab (sbuf st - n) (totalScriptSize st + n).

Fixpoint slab_loop {A} (m : Z -> Reader A) (size : A -> Z) (count : nat)
    (st : slab) : Reader (list A * slab) :=
  match count with
  | O => mret ([], st)
  | S n =>
      a ← m (sbuf st);
      r ← slab_loop m size n (slab_use st (size a));
      mret (a :: r.1, r.2)
  end.

Definition with_witness (ti : TxIn) (w : option (list (list byte))) : TxIn :=
  mkTxIn (TxIn_PreviousOutPoint ti) (TxIn_SignatureScript ti) w (TxIn_Sequence ti).

(** The loop over [msg.TxIn] that reads the witnesses. *)
Fixpoint read_witnesses (pver : Z) (ins : list TxIn) (st : slab)
    : Reader (list TxIn * slab) :=
  match ins with
  | [] => mret ([], st)
  | txin :: ins' =>
      witCount ← ReadVarIntBuf pver;
      if maxWitnessItemsPerInput <? witCount
      then fail (MessageError "MsgTx.BtcDecode")
      else
        items ← slab_loop (readScriptBuf pver) len (Z.to_nat witCount) st;
        r ← read_witnesses pver ins' items.2;
        mret (with_witness txin (Some items.1) :: r.1, r.2)
  end.

(** The first count: zero is the marker of the witness format, which is
    followed by the flag and the real count.  Returns the flag and the count. *)
Definition MsgTx_read_flag (pver : Z) (enc : MessageEncoding) : Reader (Z * Z) :=
  count ← ReadVarIntBuf pver;
  if (count =? TxFlagMarker) && bool_decide (enc = WitnessEncoding) then
    flag ← ReadFull 1;
    if negb (le_get flag =? WitnessFlag)
    then fail (MessageError "MsgTx.BtcDecode")
    else count ← ReadVarIntBuf pver; mret (le_get flag, count)
  else mret (0, count).

(** The witnesses of a transaction whose flag is set, none of which may be
    missing altogether. *)
Definition MsgTx_read_wits (pver : Z) (enc : MessageEncoding) (flag version : Z)
    (ins : list TxIn) (outs : list TxOut) (st : slab) : Reader (list TxIn * slab) :=
  if negb (flag =? 0) && bool_decide (enc = WitnessEncoding) then
    r ← read_witnesses pver ins st;
    if negb (MsgTx_HasWitness (mkMsgTx version r.1 outs 0))
    then fail ErrSuperfluousWitnessRecord
    else mret r
  else mret (ins, st).

(** Lines 497-637: everything that consumes input. *)
Definition MsgTx_parse (pver : Z) (enc : MessageEncoding) (slabLen : Z)
    : Reader (MsgTx * Z) :=
  version ← read_u32;
  let version := to_signed 32 version in
  hdr ← MsgTx_read_flag pver enc;
  let flag := hdr.1 in
  let count := hdr.2 in
  if maxTxInPerMessage <? count then fail (MessageError "MsgTx.BtcDecode") else
  ins ← slab_loop (readTxInBuf pver version) (fun ti => len (TxIn_SignatureScript ti))
          (Z.to_nat count) (mkSlab slabLen 0);
  count ← ReadVarIntBuf pver;
  if maxTxOutPerMessage <? count then fail (MessageError "MsgTx.BtcDecode") else
  outs ← slab_loop (readTxOutBuf pver version) (fun to => len (TxOut_PkScript to))
           (Z.to_nat count) ins.2;
  wits ← MsgTx_read_wits pver enc flag version ins.1 outs.1 outs.2;
  lockTime ← read_u32;
  mret (mkMsgTx version wits.1 outs.1 lockTime, totalScriptSize wits.2).

(** The scripts in the order lines 655-695 visit them. *)
Definition tx_scripts (msg : MsgTx) : list (list byte) :=
  concat (map (fun ti => TxIn_SignatureScript ti :: wit_items ti) (MsgTx_TxIn msg)) ++
  map TxOut_PkScript (MsgTx_TxOut msg).

(** [copy(scripts[offset:], x); end := offset + len(x); scripts[offset:end:end]]:
    the buffer after the copy, the new offset and the slice, as a range. *)
Definition compact_copy (scripts : list byte) (offset : Z) (x : list byte)
    : result wire_error (list byte * Z * (Z * Z)) :=
  let end_ := offset + len x in
  if len scripts <? end_ then Err PanicSliceBounds
  else Ok (take (Z.to_nat offset) scripts ++ x ++ drop (Z.to_nat end_) scripts,
           end_, (offset, end_)).

Fixpoint compact_loop (scripts : list byte) (offset : Z) (xs : list (list byte))
    : result wire_error (list byte * list (Z * Z)) :=
  match xs with
  | [] => Ok (scripts, [])
  | x :: xs' =>
      match compact_copy scripts offset x with
      | Err e => Err e
      | Ok (scripts, offset, range) =>
          match compact_loop scripts offset xs' with
          | Err e => Err e
          | Ok (scripts, ranges) => Ok (scripts, range :: ranges)
          end
      end
  end.

(** A slice of the buffer, read once the whole buffer has been written. *)
Definition slice_of (scripts : list byte) (range : Z * Z) : list byte :=
  take (Z.to_nat (range.2 - range.1)) (drop (Z.to_nat range.1) scripts).

Fixpoint place_ins (ins : list TxIn) (xs : list (list byte))
    : list TxIn * list (list byte) :=
  match ins with
  | [] => ([], xs)
  | ti :: ins' =>
      let n := length (wit_items ti) in
      let r := place_ins ins' (drop (S n) xs) in
      (mkTxIn (TxIn_PreviousOutPoint ti) (hd [] xs)
         (const (take n (tl xs)) <$> TxIn_Witness ti) (TxIn_Sequence ti) :: r.1, r.2)
  end.

Fixpoint place_outs (outs : list TxOut) (xs : list (list byte)) : list TxOut :=
  match outs with
  | [] => []
  | to :: outs' => mkTxOut (TxOut_Value to) (hd [] xs) :: place_outs outs' (tl xs)
  end.

(** Lines 653-695: every script is moved into one buffer of [total] bytes. *)
Definition MsgTx_compact (msg : MsgTx) (total : Z) : result wire_error MsgTx :=
  match compact_loop (replicate (Z.to_nat total) x00) 0 (tx_scripts msg) with
  | Err e => Err e
  | Ok (scripts, ranges) =>
      let r := place_ins (MsgTx_TxIn msg) (map (slice_of scripts) ranges) in
      Ok (mkMsgTx (MsgTx_Version msg) r.1 (place_outs (MsgTx_TxOut msg) r.2)
            (MsgTx_LockTime msg))
  end.

Definition MsgTx_btcDecode (pver : Z) (enc : MessageEncoding) (slabLen : Z)
    : Reader MsgTx :=
  p ← MsgTx_parse pver enc slabLen;
  lift (MsgTx_compact p.1 p.2).

Definition MsgTx_BtcDecode (pver : Z) (enc : MessageEncoding) : Reader MsgTx :=
  MsgTx_btcDecode pver enc scriptSlabSize.
Definition MsgTx_Deserialize : Reader MsgTx := MsgTx_BtcDecode 0 WitnessEncoding.
Definition MsgTx_DeserializeNoWitness : Reader MsgTx := MsgTx_BtcDecode 0 BaseEncoding.

(** ** Copying *)

(** [make] and [copy] of a non-empty script; an empty one becomes nil. *)
Definition copy_script (old : list byte) : list byte :=
  if 0 <? len old then old else [].

Definition copy_txin (oldTxIn : TxIn) : TxIn :=
  mkTxIn (TxIn_PreviousOutPoint oldTxIn) (copy_script (TxIn_SignatureScript oldTxIn))
    (if negb (len (wit_items oldTxIn) =? 0) then Some (wit_items oldTxIn) else None)
    (TxIn_Sequence oldTxIn).

Definition MsgTx_Copy (msg : MsgTx) : MsgTx :=
  mkMsgTx (MsgTx_Version msg)
    (map copy_txin (MsgTx_TxIn msg))
    (map (fun to => mkTxOut (TxOut_Value to) (copy_script (TxOut_PkScript to)))
       (MsgTx_TxOut msg))
    (MsgTx_LockTime msg).

(** * Specification *)

(** What survives an encoding: the witnesses, each one non-nil, when they are
    written, and no witness otherwise. *)
Definition writes_witness (enc : MessageEncoding) (msg : MsgTx) : bool :=
  bool_decide (enc = WitnessEncoding) && MsgTx_HasWitness msg.

Definition normalize (enc : MessageEncoding) (msg : MsgTx) : MsgTx :=
  mkMsgTx (MsgTx_Version msg)
    (map (fun ti => with_witness ti
                      (if writes_witness enc msg then Some (wit_items ti) else None))
       (MsgTx_TxIn msg))
    (MsgTx_TxOut msg) (MsgTx_LockTime msg).

Definition OutPoint_ok (op : OutPoint) : Prop :=
  len (OutPoint_Hash op) = HashSize /\ u32_ok (OutPoint_Index op).

Definition TxIn_ok (ti : TxIn) : Prop :=
  OutPoint_ok (TxIn_PreviousOutPoint ti) /\ u32_ok (TxIn_Sequence ti) /\
  len (TxIn_SignatureScript ti) <= maxWitnessItemSize.

(** An input as [readTxInBuf] leaves it: the witness comes later. *)
Definition TxIn_bare (ti : TxIn) : Prop := TxIn_ok ti /\ TxIn_Witness ti = None.

Definition TxOut_ok (to : TxOut) : Prop :=
  i64_ok (TxOut_Value to) /\ len (TxOut_PkScript to) <= maxWitnessItemSize.

Definition witness_ok (wit : list (list byte)) : Prop :=
  len wit <= maxWitnessItemsPerInput /\
  Forall (fun item => len item <= maxWitnessItemSize) wit.

(** The transactions the decoder accepts: field widths, and the limits it
    enforces on counts and on the bytes of script in one transaction. *)
Record MsgTx_ok (enc : MessageEncoding) (slabLen : Z) (msg : MsgTx) : Prop := {
  ok_version : i32_ok (MsgTx_Version msg);
  ok_locktime : u32_ok (MsgTx_LockTime msg);
  ok_ins : Forall TxIn_ok (MsgTx_TxIn msg);
  ok_outs : Forall TxOut_ok (MsgTx_TxOut msg);
  ok_nins : len (MsgTx_TxIn msg) <= maxTxInPerMessage;
  ok_nouts : len (MsgTx_TxOut msg) <= maxTxOutPerMessage;
  ok_wits : Forall (fun ti => witness_ok (wit_items ti)) (MsgTx_TxIn (normalize enc msg));
  ok_scripts : sum_Z len (tx_scripts (normalize enc msg)) <= slabLen;
  ok_nonempty : enc = WitnessEncoding -> MsgTx_TxIn msg <> [];
}.

(** * Proofs *)

Lemma sum_Z_app {A} (f : A -> Z) l k : sum_Z f (l ++ k) = sum_Z f l + sum_Z f k.
Proof. unfold sum_Z. induction l; simpl; lia. Qed.

Lemma sum_Z_cons {A} (f : A -> Z) a l : sum_Z f (a :: l) = f a + sum_Z f l.
Proof. done. Qed.

Lemma sum_Z_nonneg {A} (f : A -> Z) l : (forall a, 0 <= f a) -> 0 <= sum_Z f l.
Proof. intros Hf. unfold sum_Z. induction l as [|a l IH]; simpl; [lia|]. specialize (Hf a). lia. Qed.

Lemma sum_Z_map {A B} (f : B -> Z) (g : A -> B) l :
  sum_Z f (map g l) = sum_Z (fun a => f (g a)) l.
Proof. unfold sum_Z. induction l; simpl; congruence. Qed.

Lemma sum_Z_ext {A} (f g : A -> Z) l : (forall a, f a = g a) -> sum_Z f l = sum_Z g l.
Proof. intros H. unfold sum_Z. induction l; simpl; congruence. Qed.

Lemma len_concat (xs : list (list byte)) : len (concat xs) = sum_Z len xs.
Proof. induction xs; [done|]. simpl concat. rewrite len_app. unfold sum_Z in *. simpl. lia. Qed.

Lemma len_write_all_sum {A} (enc : A -> list byte) (f : A -> Z) l :
  (forall a, a ∈ l -> len (enc a) = f a) -> len (write_all enc l) = sum_Z f l.
Proof.
  intros H. induction l as [|a l IH]; [done|].
  rewrite write_all_cons, len_app, H, IH by set_solver. done.
Qed.

(** ** The contiguous buffer *)

Fixpoint ranges_from (off : Z) (xs : list (list byte)) : list (Z * Z) :=
  match xs with
  | [] => []
  | x :: xs' => (off, off + len x) :: ranges_from (off + len x) xs'
  end.

Lemma compact_loop_ok done_ xs :
  compact_loop (done_ ++ replicate (length (concat xs)) x00) (len done_) xs =
    Ok (done_ ++ concat xs, ranges_from (len done_) xs).
Proof.
  revert done_. induction xs as [|x xs IH]; intros done_; [done|].
  cbn [compact_loop ranges_from concat]. unfold compact_copy.
  rewrite len_app. unfold len at 2. rewrite length_replicate, length_app.
  case_bools; [unfold len in *; lia|].
  replace (Z.to_nat (len done_)) with (length done_) by (unfold len; lia).
  replace (Z.to_nat (len done_ + len x)) with (length done_ + length x)%nat
    by (unfold len; lia).
  rewrite take_app_length, drop_app_add, drop_replicate.
  replace (length x + length (concat xs) - length x)%nat with (length (concat xs)) by lia.
  rewrite app_assoc, <- len_app, IH, <- app_assoc. done.
Qed.

Lemma slice_ranges done_ xs tail :
  map (slice_of (done_ ++ concat xs ++ tail)) (ranges_from (len done_) xs) = xs.
Proof.
  revert done_. induction xs as [|x xs IH]; intros done_; [done|].
  cbn [ranges_from concat map]. f_equal.
  - unfold slice_of. cbn [fst snd].
    replace (Z.to_nat (len done_)) with (length done_) by (unfold len; lia).
    replace (Z.to_nat (len done_ + len x - len done_)) with (length x) by (unfold len; lia).
    by rewrite drop_app_length, <- app_assoc, take_app_length.
  - rewrite <- len_app. specialize (IH (done_ ++ x)).
    rewrite <- !app_assoc in IH. by rewrite <- !app_assoc.
Qed.

Lemma place_ins_scripts ins xs :
  place_ins ins (concat (map (fun ti => TxIn_SignatureScript ti :: wit_items ti) ins) ++ xs)
  = (ins, xs).
Proof.
  induction ins as [|ti ins IH]; [done|].
  cbn [map concat place_ins]. cbn [app hd tl drop].
  rewrite <- app_assoc, take_app_length, drop_app_length, IH. simpl.
  destruct ti as [op sig [w|] seq]; done.
Qed.

Lemma place_outs_scripts outs : place_outs outs (map TxOut_PkScript outs) = outs.
Proof. induction outs as [|[v s] outs IH]; simpl; [done|by rewrite IH]. Qed.

(** Compaction is invisible: with a buffer of the right size no slice is out of
    range and every script is read back unchanged. *)
Lemma MsgTx_compact_id msg : MsgTx_compact msg (sum_Z len (tx_scripts msg)) = Ok msg.
Proof.
  unfold MsgTx_compact. rewrite <- len_concat.
  rewrite to_nat_len.
  pose proof (compact_loop_ok [] (tx_scripts msg)) as H. simpl app in H.
  change (len []) with 0 in H. rewrite H.
  pose proof (slice_ranges [] (tx_scripts msg) []) as Hs. simpl app in Hs.
  rewrite app_nil_r in Hs. change (len []) with 0 in Hs. rewrite Hs.
  unfold tx_scripts. rewrite place_ins_scripts. simpl.
  rewrite place_outs_scripts. by destruct msg.
Qed.

(** ** Part codecs *)

#[export] Instance read_u32_codec : Codec read_u32 (le_put 4) (fun z => u32_ok z).
Proof. exact (Uint32_codec littleEndian). Qed.
#[export] Instance read_u64_codec : Codec read_u64 (le_put 8) (fun z => u64_ok z).
Proof. exact (Uint64_codec littleEndian). Qed.

#[export] Instance OutPoint_codec pver version :
  Codec (readOutPointBuf pver version) (writeOutPointBuf pver version) OutPoint_ok.
Proof.
  split.
  - intros [h i] [Hh Hi]. simpl in *. eapply reads_bind; [by apply reads_ReadFull|].
    eapply reads_bind_ret; [by apply codec_reads|apply reads_ret].
  - intros bs a rest H. unfold readOutPointBuf in H. exact_tac.
    unfold writeOutPointBuf, OutPoint_ok. simpl. by rewrite <- app_assoc.
Qed.

#[export] Instance Script_codec pver s :
  Codec (readScriptBuf pver s) (WriteVarBytesBuf pver)
    (fun bs => len bs <= maxWitnessItemSize /\ len bs <= s).
Proof.
  split.
  - intros bs [Hl Hs]. pose proof (len_nonneg bs).
    eapply reads_bind; [apply codec_reads; unfold maxWitnessItemSize in *; lia|].
    case_bools. by apply reads_ReadFull.
  - intros bs a rest H. unfold readScriptBuf in H. exact_tac. case_bools; [done..|].
    apply ReadFull_Ok in H as [Hl ->]; [|lia]. subst.
    unfold WriteVarBytesBuf. by rewrite <- app_assoc.
Qed.

#[export] Instance TxIn_codec pver version s :
  Codec (readTxInBuf pver version s) (writeTxInBuf pver version)
    (fun ti => TxIn_bare ti /\ len (TxIn_SignatureScript ti) <= s).
Proof.
  split.
  - intros [op sig w seq] [[(Hop & Hseq & Hsig) Hw] Hs]. simpl in *. subst w.
    unfold readTxInBuf, writeTxInBuf. simpl.
    eapply reads_bind; [by apply codec_reads|].
    eapply reads_bind; [by apply codec_reads|].
    eapply reads_bind_ret; [by apply codec_reads|apply reads_ret].
  - intros bs a rest H. unfold readTxInBuf in H. exact_tac.
    unfold writeTxInBuf, TxIn_bare, TxIn_ok. simpl. rewrite <- !app_assoc. intuition.
Qed.

#[export] Instance TxOut_codec pver version s :
  Codec (readTxOutBuf pver version s) (WriteTxOutBuf pver version)
    (fun to => TxOut_ok to /\ len (TxOut_PkScript to) <= s).
Proof.
  split.
  - intros [v pk] [[Hv Hpk] Hs]. simpl in *. unfold readTxOutBuf, WriteTxOutBuf. simpl.
    eapply reads_bind; [apply codec_reads; apply Z.mod_pos_bound; lia|].
    eapply reads_bind_ret; [by apply codec_reads|].
    unfold wrap_u64. rewrite (to_signed_mod 64) by lia. apply reads_ret.
  - intros bs a rest H. unfold readTxOutBuf in H. exact_tac.
    unfold WriteTxOutBuf, TxOut_ok. simpl.
    match goal with |- context [to_signed 64 ?v] =>
      destruct (to_signed_range 64 v) as [Hr Hm]; [lia..|] end.
    unfold wrap_u64. rewrite Hm, <- app_assoc. intuition lia.
Qed.

(** ** The slab loops *)

Section slab_loops.
Context {A : Type} (m : Z -> Reader A) (enc : A -> list byte) (wf : A -> Prop).
Context (size : A -> Z).
Hypothesis size_nonneg : forall a, 0 <= size a.
Context `{HC : !forall s, Codec (m s) enc (fun a => wf a /\ size a <= s)}.

Lemma slab_loop_reads l st :
  Forall wf l -> sum_Z size l <= sbuf st ->
  reads (slab_loop m size (length l) st) (write_all enc l)
    (l, slab_use st (sum_Z size l)).
Proof using size_nonneg HC.
  revert st. induction l as [|a l IH]; intros [s t] Hwf Hs.
  - unfold slab_use, sum_Z. simpl.
    replace (s - 0) with s by lia. replace (t + 0) with t by lia. apply reads_ret.
  - inversion_clear Hwf as [|?? Ha Hl]. rewrite write_all_cons. simpl in *.
    change (sum_Z size (a :: l)) with (size a + sum_Z size l) in *.
    pose proof (sum_Z_nonneg size l size_nonneg).
    eapply reads_bind; [apply codec_reads; split; [done|lia]|].
    eapply reads_bind_ret; [apply IH; [done|simpl; lia]|].
    unfold slab_use. simpl.
    replace (s - (size a + sum_Z size l)) with (s - size a - sum_Z size l) by lia.
    replace (t + (size a + sum_Z size l)) with (t + size a + sum_Z size l) by lia.
    apply reads_ret.
Qed.

Lemma slab_loop_exact n st bs r rest :
  0 <= sbuf st -> slab_loop m size n st bs = Ok (r, rest) ->
  length r.1 = n /\ Forall wf r.1 /\ sum_Z size r.1 <= sbuf st /\
  r.2 = slab_use st (sum_Z size r.1) /\ bs = write_all enc r.1 ++ rest.
Proof using size_nonneg HC.
  revert st bs r. induction n as [|n IH]; intros [s t] bs r Hs H; simpl in H.
  - apply mret_Ok in H as [-> ->]. unfold slab_use, sum_Z. simpl in *.
    replace (s - 0) with s by lia. replace (t + 0) with t by lia. auto.
  - inv_read H as a mid H1. inv_read H as r' mid' H2.
    apply mret_Ok in H as [-> ->]. apply codec_inv in H1 as [[Hwf Hsz] ->].
    apply IH in H2 as (Hl & Hf & Hsum & Hr & ->); [|simpl in *; lia].
    simpl in *. change (sum_Z size (a :: r'.1)) with (size a + sum_Z size r'.1).
    rewrite Hr, write_all_cons, <- app_assoc. unfold slab_use in *. simpl in *.
    split; [lia|]. split; [by constructor|]. split; [lia|]. split; [|done].
    f_equal; lia.
Qed.
End slab_loops.

#[local] Abbreviation sig_size := (fun ti => len (TxIn_SignatureScript ti)).
#[local] Abbreviation pk_size := (fun to => len (TxOut_PkScript to)).
#[local] Abbreviation wit_size := (fun ti => sum_Z len (wit_items ti)).
#[local] Abbreviation no_wit := (fun ti => with_witness ti None).
#[local] Abbreviation some_wit := (fun ti => with_witness ti (Some (wit_items ti))).

Lemma tx_scripts_size msg :
  sum_Z len (tx_scripts msg) =
    sum_Z sig_size (MsgTx_TxIn msg) + sum_Z pk_size (MsgTx_TxOut msg) +
    sum_Z wit_size (MsgTx_TxIn msg).
Proof.
  unfold tx_scripts. rewrite sum_Z_app, sum_Z_map.
  assert (forall ins : list TxIn,
    sum_Z len (concat (map (fun ti => TxIn_SignatureScript ti :: wit_items ti) ins)) =
    sum_Z sig_size ins + sum_Z wit_size ins) as ->; [|lia].
  induction ins as [|ti ins IH]; [done|].
  cbn [map concat]. rewrite sum_Z_app, IH.
  unfold sum_Z. cbn [foldr]. lia.
Qed.

Lemma map_ext_Forall_iff {A B} (f g : A -> B) l :
  Forall (fun a => f a = g a) l -> map f l = map g l.
Proof. induction 1; simpl; congruence. Qed.

(** ** Witnesses *)


Lemma read_witnesses_reads pver version ins st :
  Forall (fun ti => witness_ok (wit_items ti)) ins -> sum_Z wit_size ins <= sbuf st ->
  reads (read_witnesses pver (map no_wit ins) st)
    (write_all (fun ti => writeTxWitnessBuf pver version (wit_items ti)) ins)
    (map some_wit ins, slab_use st (sum_Z wit_size ins)).
Proof.
  revert st. induction ins as [|ti ins IH]; intros [s t] Hwf Hs.
  - unfold slab_use, sum_Z. simpl.
    replace (s - 0) with s by lia. replace (t + 0) with t by lia. apply reads_ret.
  - inversion_clear Hwf as [|?? [Hn Hit] Hl]. rewrite write_all_cons.
    change (sum_Z wit_size (ti :: ins)) with (sum_Z len (wit_items ti) + sum_Z wit_size ins) in *.
    simpl in Hs.
    pose proof (len_nonneg (wit_items ti)).
    assert (0 <= sum_Z wit_size ins).
    { apply sum_Z_nonneg. intros. apply sum_Z_nonneg, len_nonneg. }
    unfold writeTxWitnessBuf. rewrite <- app_assoc. cbn [map read_witnesses].
    eapply reads_bind; [apply codec_reads; unfold maxWitnessItemsPerInput in *; lia|].
    case_bools. rewrite to_nat_len.
    eapply reads_bind.
    { apply (slab_loop_reads _ _ _ _ len_nonneg); [done|simpl; lia]. }
    eapply reads_bind_ret; [apply IH; [done|simpl; lia]|].
    simpl. unfold slab_use. simpl.
    replace (s - (sum_Z len (wit_items ti) + sum_Z wit_size ins)) with
      (s - sum_Z len (wit_items ti) - sum_Z wit_size ins) by lia.
    replace (t + (sum_Z len (wit_items ti) + sum_Z wit_size ins)) with
      (t + sum_Z len (wit_items ti) + sum_Z wit_size ins) by lia.
    apply reads_ret.
Qed.

Lemma read_witnesses_exact pver version ins st bs r rest :
  0 <= sbuf st -> read_witnesses pver ins st bs = Ok (r, rest) ->
  map no_wit r.1 = map no_wit ins /\ map some_wit r.1 = r.1 /\
  Forall (fun ti => witness_ok (wit_items ti)) r.1 /\
  sum_Z wit_size r.1 <= sbuf st /\ r.2 = slab_use st (sum_Z wit_size r.1) /\
  bs = write_all (fun ti => writeTxWitnessBuf pver version (wit_items ti)) r.1 ++ rest.
Proof.
  revert st bs r. induction ins as [|ti ins IH]; intros [s t] bs r Hs H; simpl in H.
  - apply mret_Ok in H as [-> ->]. unfold slab_use, sum_Z. simpl in *.
    replace (s - 0) with s by lia. replace (t + 0) with t by lia. split_and!; done || by constructor.
  - inv_read H as n mid H1. apply codec_inv in H1 as [Hn ->]. case_bools; [done|].
    inv_read H as items mid1 H2. inv_read H as r' mid2 H3.
    apply mret_Ok in H as [-> ->].
    apply (slab_loop_exact _ (WriteVarBytesBuf pver) _ _ len_nonneg) in H2
      as (Hl & Hf & Hsum & Hst & ->); [|done].
    simpl in Hsum. apply IH in H3 as (Hno & Hsome & Hok & Hsum' & Hst' & ->).
    2: { rewrite Hst. simpl. lia. }
    rewrite Hst in Hsum'. simpl in Hsum'. cbn [fst snd map].
    rewrite Hno, Hsome, write_all_cons, sum_Z_cons, Hst', Hst.
    unfold writeTxWitnessBuf.
    change (wit_items (with_witness ti (Some items.1))) with items.1.
    pose proof (sum_Z_nonneg len items.1 len_nonneg). cbn [sbuf].
    split; [by destruct ti|]. split; [done|].
    split.
    { constructor; [|done]. unfold witness_ok, wit_items, len. simpl.
      split; [lia|exact Hf]. }
    split; [lia|]. split.
    { unfold slab_use. simpl. f_equal; lia. }
    rewrite <- !app_assoc. unfold len. by rewrite Hl, Z2Nat.id by lia.
Qed.

Lemma write_all_map {A B} (enc : B -> list byte) (f : A -> B) l :
  write_all enc (map f l) = write_all (fun a => enc (f a)) l.
Proof. unfold write_all. by rewrite map_map. Qed.

(** ** The count, the marker and the flag *)

Lemma MsgTx_read_flag_plain pver enc n :
  u64_ok n -> (enc = WitnessEncoding -> n <> 0) ->
  reads (MsgTx_read_flag pver enc) (WriteVarIntBuf pver n) (0, n).
Proof.
  intros Hn He. eapply reads_bind_ret; [by apply codec_reads|]. unfold TxFlagMarker.
  case_bool_decide; [|rewrite andb_false_r; apply reads_ret].
  case_bool; [by destruct He|apply reads_ret].
Qed.

Lemma MsgTx_read_flag_witness pver n :
  u64_ok n ->
  reads (MsgTx_read_flag pver WitnessEncoding)
    ([z2b TxFlagMarker; z2b WitnessFlag] ++ WriteVarIntBuf pver n) (1, n).
Proof.
  intros Hn.
  change [z2b TxFlagMarker; z2b WitnessFlag] with
    (WriteVarIntBuf pver TxFlagMarker ++ [z2b WitnessFlag]).
  rewrite <- app_assoc.
  eapply reads_bind; [apply codec_reads; unfold TxFlagMarker; lia|].
  eapply reads_bind; [by apply reads_ReadFull|].
  rewrite z2b_get by (unfold WitnessFlag; lia).
  eapply reads_bind_ret; [by apply codec_reads|apply reads_ret].
Qed.

Lemma MsgTx_read_flag_exact pver enc bs f n rest :
  MsgTx_read_flag pver enc bs = Ok ((f, n), rest) ->
  u64_ok n /\
  (f = 0 /\ (enc = WitnessEncoding -> n <> 0) /\ bs = WriteVarIntBuf pver n ++ rest \/
   f = 1 /\ enc = WitnessEncoding /\
   bs = [z2b TxFlagMarker; z2b WitnessFlag] ++ WriteVarIntBuf pver n ++ rest).
Proof.
  intros H. unfold MsgTx_read_flag in H. inv_read H as c mid H1.
  apply codec_inv in H1 as [Hc ->].
  destruct ((c =? TxFlagMarker) && bool_decide (enc = WitnessEncoding)) eqn:E.
  - apply andb_true_iff in E as [E1 E2]. apply Z.eqb_eq in E1. subst c.
    apply bool_decide_eq_true in E2. subst enc.
    inv_read H as fl mid1 H2. apply ReadFull_Ok in H2 as [Hl ->]; [|lia].
    destruct fl as [|b [|]]; try (unfold len in Hl; simpl in Hl; lia).
    rewrite le_get_1 in H. destruct (Z.eqb_spec (b2z b) WitnessFlag) as [Hb|]; [|done].
    simpl in H. inv_read H as c' mid2 H3. apply codec_inv in H3 as [Hc' ->].
    apply mret_Ok in H as [[= -> ->] ->]. split; [done|]. right.
    rewrite Hb. split; [done|]. split; [done|].
    rewrite <- Hb, z2b_b2z. done.
  - apply mret_Ok in H as [[= -> ->] ->]. split; [done|]. left. split; [done|].
    split; [|done]. intros -> ->. done.
Qed.

(** ** The whole transaction *)

Lemma HasWitness_some v outs lt msg :
  MsgTx_HasWitness (mkMsgTx v (map some_wit (MsgTx_TxIn msg)) outs lt) =
  MsgTx_HasWitness msg.
Proof.
  unfold MsgTx_HasWitness. simpl.
  induction (MsgTx_TxIn msg) as [|ti ins IH]; simpl; [done|by rewrite IH].
Qed.

Lemma HasWitness_bare v ins outs lt :
  Forall TxIn_bare ins -> MsgTx_HasWitness (mkMsgTx v ins outs lt) = false.
Proof.
  unfold MsgTx_HasWitness. simpl. induction 1 as [|ti ins [_ Hw] _ IH]; [done|].
  simpl. unfold wit_items at 1. by rewrite Hw, IH.
Qed.

Lemma normalize_scripts_size enc msg :
  sum_Z len (tx_scripts (normalize enc msg)) =
    sum_Z sig_size (MsgTx_TxIn msg) + sum_Z pk_size (MsgTx_TxOut msg) +
    (if writes_witness enc msg then sum_Z wit_size (MsgTx_TxIn msg) else 0).
Proof.
  rewrite tx_scripts_size. unfold normalize. cbn [MsgTx_TxIn MsgTx_TxOut].
  rewrite !sum_Z_map. cbn [with_witness TxIn_SignatureScript].
  destruct (writes_witness enc msg); f_equal.
  unfold wit_items. simpl. unfold sum_Z.
  induction (MsgTx_TxIn msg); simpl; [done|lia].
Qed.

Lemma bare_no_wit ins : Forall TxIn_ok ins -> Forall TxIn_bare (map no_wit ins).
Proof. induction 1 as [|? ? []]; simpl; constructor; [|done]. split; [|done]. by split. Qed.

Lemma counted_len_ok {A} (l : list A) max : len l <= max -> max < 2 ^ 64 -> u64_ok (len l).
Proof. pose proof (len_nonneg l). lia. Qed.

(** The inputs of the normal form: the witnesses are the only difference. *)
Abbreviation norm_in enc msg :=
  (fun ti => with_witness ti
     (if writes_witness enc msg then Some (wit_items ti) else None)).

Lemma MsgTx_read_wits_reads pver enc version msg st :
  Forall (fun ti => witness_ok (wit_items ti)) (MsgTx_TxIn (normalize enc msg)) ->
  (if writes_witness enc msg then sum_Z wit_size (MsgTx_TxIn msg) else 0) <= sbuf st ->
  reads
    (MsgTx_read_wits pver enc (if writes_witness enc msg then 1 else 0) version
       (map no_wit (MsgTx_TxIn msg)) (MsgTx_TxOut msg) st)
    (if writes_witness enc msg
     then write_all (fun ti => writeTxWitnessBuf pver (MsgTx_Version msg) (wit_items ti))
            (MsgTx_TxIn msg) else [])
    (map (norm_in enc msg) (MsgTx_TxIn msg),
     slab_use st (if writes_witness enc msg then sum_Z wit_size (MsgTx_TxIn msg) else 0)).
Proof.
  unfold MsgTx_read_wits, normalize. cbn [MsgTx_TxIn]. intros Hw Hs.
  destruct (writes_witness enc msg) eqn:Eww.
  - unfold writes_witness in Eww. apply andb_true_iff in Eww as [-> Eh].
    cbn [negb Z.eqb andb].
    eapply reads_bind_ret.
    { apply read_witnesses_reads; [|done].
      revert Hw. rewrite Forall_map. apply Forall_impl. done. }
    cbn [fst snd]. rewrite HasWitness_some, Eh. apply reads_ret.
  - cbn [negb Z.eqb andb]. destruct st as [s t]. unfold slab_use. simpl.
    replace (s - 0) with s by lia. replace (t + 0) with t by lia. apply reads_ret.
Qed.

Lemma MsgTx_read_flag_reads pver enc msg :
  len (MsgTx_TxIn msg) <= maxTxInPerMessage ->
  (enc = WitnessEncoding -> MsgTx_TxIn msg <> []) ->
  reads (MsgTx_read_flag pver enc)
    ((if writes_witness enc msg then [z2b TxFlagMarker; z2b WitnessFlag] else []) ++
     WriteVarIntBuf pver (len (MsgTx_TxIn msg)))
    (if writes_witness enc msg then 1 else 0, len (MsgTx_TxIn msg)).
Proof.
  intros Hl Hne. pose proof (counted_len_ok _ _ Hl eq_refl).
  destruct (writes_witness enc msg) eqn:Eww.
  - unfold writes_witness in Eww. apply andb_true_iff in Eww as [Ee _].
    apply bool_decide_eq_true in Ee. subst enc. by apply MsgTx_read_flag_witness.
  - apply MsgTx_read_flag_plain; [done|].
    intros ->. specialize (Hne eq_refl). destruct (MsgTx_TxIn msg); [done|].
    unfold len. simpl. lia.
Qed.

Lemma writeTxIn_no_wit pver v ins :
  write_all (writeTxInBuf pver v) (map no_wit ins) = write_all (writeTxInBuf pver v) ins.
Proof. by rewrite write_all_map. Qed.

Lemma MsgTx_parse_reads pver enc s msg :
  MsgTx_ok enc s msg ->
  reads (MsgTx_parse pver enc s) (MsgTx_btcEncode pver enc msg)
    (normalize enc msg, sum_Z len (tx_scripts (normalize enc msg))).
Proof.
  intros [Hv Hlt Hins Houts Hni Hno Hw Hs Hne].
  pose proof (normalize_scripts_size enc msg) as Hsize. rewrite Hsize in *. clear Hsize.
  unfold MsgTx_btcEncode. fold (writes_witness enc msg). unfold MsgTx_parse.
  pose proof (sum_Z_nonneg sig_size (MsgTx_TxIn msg) (fun a => len_nonneg (TxIn_SignatureScript a))) as Hsig.
  pose proof (sum_Z_nonneg pk_size (MsgTx_TxOut msg) (fun a => len_nonneg (TxOut_PkScript a))) as Hpk.
  set (ws := if writes_witness enc msg then sum_Z wit_size (MsgTx_TxIn msg) else 0) in *.
  assert (Hwit : 0 <= ws).
  { unfold ws. case_match; [|lia]. apply sum_Z_nonneg. intros. apply sum_Z_nonneg, len_nonneg. }
  eapply reads_bind; [apply codec_reads; apply Z.mod_pos_bound; lia|]. cbv zeta.
  unfold wrap_u32. rewrite (to_signed_mod 32) by lia.
  rewrite (app_assoc (if writes_witness enc msg then _ else _)).
  eapply reads_bind; [by apply MsgTx_read_flag_reads|].
  cbn [fst snd]. case_bool; [lia|]. rewrite to_nat_len.
  rewrite <- (length_map no_wit (MsgTx_TxIn msg)), <- writeTxIn_no_wit.
  eapply reads_bind.
  { apply (slab_loop_reads _ _ TxIn_bare sig_size (fun a => len_nonneg (TxIn_SignatureScript a)));
      [by apply bare_no_wit|]. rewrite sum_Z_map. simpl. lia. }
  rewrite sum_Z_map. cbn [fst snd with_witness TxIn_SignatureScript].
  eapply reads_bind; [apply codec_reads; eapply counted_len_ok; [exact Hno|done]|].
  case_bool; [lia|]. rewrite to_nat_len.
  eapply reads_bind.
  { apply (slab_loop_reads _ _ TxOut_ok pk_size (fun a => len_nonneg (TxOut_PkScript a))); [done|].
    simpl. lia. }
  cbn [fst snd].
  eapply reads_bind; [apply MsgTx_read_wits_reads; [done|simpl; unfold ws in *; lia]|].
  eapply reads_bind_ret; [by apply codec_reads|].
  by apply reads_ret_eq.
Qed.

(** Conversely, what is parsed is in normal form and is the only input that
    parses to it. *)
Lemma MsgTx_read_wits_exact pver enc flag version v ins outs st bs r rest :
  Forall TxIn_bare ins -> 0 <= sbuf st ->
  (flag = 0 \/ flag = 1 /\ enc = WitnessEncoding) ->
  MsgTx_read_wits pver enc flag version ins outs st bs = Ok (r, rest) ->
  let ww := negb (flag =? 0) in
  map no_wit r.1 = ins /\
  (forall lt, writes_witness enc (mkMsgTx version r.1 outs lt) = ww) /\
  map (fun ti => with_witness ti (if ww then Some (wit_items ti) else None)) r.1 = r.1 /\
  Forall (fun ti => witness_ok (wit_items ti)) r.1 /\
  sum_Z wit_size r.1 <= sbuf st /\ r.2 = slab_use st (sum_Z wit_size r.1) /\
  bs = (if ww then
          write_all (fun ti => writeTxWitnessBuf pver v (wit_items ti)) r.1
        else []) ++ rest.
Proof.
  intros Hbare Hs Hf H. cbv zeta. unfold MsgTx_read_wits in H.
  destruct Hf as [-> | [-> ->]]; cbn [negb Z.eqb andb] in H |- *.
  - apply mret_Ok in H as [-> ->]. cbn [fst snd].
    assert (Hno : map no_wit ins = ins).
    { clear -Hbare. induction Hbare as [|ti ins [_ Hw] _ IH]; [done|].
      simpl. rewrite IH. destruct ti; simpl in *. by subst. }
    assert (Hz : sum_Z wit_size ins = 0).
    { clear -Hbare. induction Hbare as [|ti ins [_ Hw] _ IH]; [done|].
      rewrite sum_Z_cons, IH. unfold wit_items. by rewrite Hw. }
    rewrite Hno, Hz. split; [done|]. split.
    { intros lt. unfold writes_witness. rewrite HasWitness_bare by done. apply andb_false_r. }
    split; [done|]. split.
    { revert Hbare. apply Forall_impl. intros ti [_ Hw]. unfold wit_items. by rewrite Hw. }
    split; [done|]. split; [|done]. destruct st. unfold slab_use. simpl. f_equal; lia.
  - inv_read H as r' mid H1. destruct (MsgTx_HasWitness _) eqn:E; [|done].
    simpl in H. apply mret_Ok in H as [-> ->].
    apply (read_witnesses_exact pver v) in H1 as (Hno & Hsome & Hw & Hsum & Hst & ->); [|done].
    split; [|split_and!; try done].
    rewrite Hno. clear -Hbare. induction Hbare as [|ti ins [_ Hw] _ IH]; [done|].
    simpl. rewrite IH. destruct ti; simpl in *. by subst.
Qed.

Lemma TxIn_bare_no_wit ins : Forall TxIn_bare (map no_wit ins) -> Forall TxIn_ok ins.
Proof. rewrite Forall_map. apply Forall_impl. by intros ti [? _]. Qed.

Lemma MsgTx_parse_exact pver enc s bs msg total rest :
  0 <= s -> MsgTx_parse pver enc s bs = Ok ((msg, total), rest) ->
  MsgTx_ok enc s msg /\ normalize enc msg = msg /\
  total = sum_Z len (tx_scripts msg) /\ bs = MsgTx_btcEncode pver enc msg ++ rest.
Proof.
  intros Hs H. unfold MsgTx_parse in H. inv_read H as v mid Hr1.
  apply codec_inv in Hr1 as [Hv ->]. cbv zeta in H.
  destruct (to_signed_range 32 v) as [Hvr Hvm]; [lia..|]. set (v' := to_signed 32 v) in *.
  inv_read H as hdr mid0 Hr1. destruct hdr as [f n].
  apply MsgTx_read_flag_exact in Hr1 as [Hn Hflag]. cbn [fst snd] in H.
  case_bool; [done|]. inv_read H as ins mid1 Hr1.
  apply (slab_loop_exact _ (writeTxInBuf pver v') TxIn_bare sig_size
           (fun a => len_nonneg (TxIn_SignatureScript a))) in Hr1
    as (Hln & Hins & Hsig & Hst1 & ->); [|done].
  inv_read H as m mid2 Hr1. apply codec_inv in Hr1 as [Hm ->].
  case_bool; [done|]. inv_read H as outs mid3 Hr1.
  cbn [sbuf] in Hsig. rewrite Hst1 in Hr1.
  apply (slab_loop_exact _ (WriteTxOutBuf pver v') TxOut_ok pk_size
           (fun a => len_nonneg (TxOut_PkScript a))) in Hr1
    as (Hlm & Houts & Hpk & Hst2 & ->); [|simpl; lia]. simpl in Hpk.
  inv_read H as r mid4 Hr1. inv_read H as lt mid5 Hr2.
  apply codec_inv in Hr2 as [Hlt ->]. apply mret_Ok in H as [[= -> ->] ->].
  apply (MsgTx_read_wits_exact _ _ _ _ v') in Hr1
    as (Hno & Hww & Hnorm & Hwit & Hws & Hst3 & ->);
    [|done|rewrite Hst2; simpl; lia|destruct Hflag as [(-> & _)|(-> & -> & _)]; auto].
  rewrite Hst2 in Hws. simpl in Hws. rewrite Hst3, Hst2.
  assert (Hnin : len r.1 = n).
  { rewrite <- Hno in Hln. rewrite length_map in Hln. unfold len. rewrite Hln. lia. }
  assert (Hnout : len outs.1 = m) by (unfold len; rewrite Hlm; lia).
  rewrite <- Hno in Hsig, Hpk, Hws |- *. rewrite sum_Z_map in Hsig, Hpk, Hws |- *.
  cbn [with_witness TxIn_SignatureScript] in Hsig, Hpk, Hws |- *.
  set (M := mkMsgTx v' r.1 outs.1 lt).
  assert (HwM : writes_witness enc M = negb (f =? 0)) by apply Hww.
  assert (HnM : normalize enc M = M).
  { unfold normalize. rewrite HwM. cbn [M MsgTx_Version MsgTx_TxIn MsgTx_TxOut MsgTx_LockTime].
    by rewrite Hnorm. }
  assert (Hsz : sum_Z len (tx_scripts M) =
    sum_Z sig_size r.1 + sum_Z pk_size outs.1 + sum_Z wit_size r.1)
    by apply tx_scripts_size.
  split; [|split; [done|split]].
  - split; try done; try (rewrite HnM); cbn [M MsgTx_TxIn MsgTx_TxOut]; try lia; try done.
    + apply TxIn_bare_no_wit. by rewrite Hno.
    + intros ->. destruct Hflag as [(_ & Hn0 & _)|(Hf1 & _ & _)].
      * specialize (Hn0 eq_refl). by destruct r.1.
      * subst f. specialize (Hww 0). unfold writes_witness, MsgTx_HasWitness in Hww.
        simpl in Hww. by destruct r.1.
  - simpl. lia.
  - unfold MsgTx_btcEncode. fold (writes_witness enc M). rewrite HwM.
    cbn [M MsgTx_Version MsgTx_TxIn MsgTx_TxOut MsgTx_LockTime].
    rewrite Hnin, Hnout, <- writeTxIn_no_wit, Hno. unfold wrap_u32.
    change (v' mod 2 ^ 32) with ((to_signed 32 v) mod 2 ^ 32). rewrite <- !app_assoc.
    replace (to_signed 32 v mod 2 ^ 32) with v by (symmetry; exact Hvm).
    destruct Hflag as [(-> & _ & ->)|(-> & _ & ->)]; simpl; rewrite <- ?app_assoc; done.
Qed.

(** The decoder as a codec: the well formed transactions in normal form. *)
#[export] Instance MsgTx_codec pver enc :
  Codec (MsgTx_BtcDecode pver enc) (MsgTx_BtcEncode pver enc)
    (fun msg => MsgTx_ok enc scriptSlabSize msg /\ normalize enc msg = msg).
Proof.
  split.
  - intros msg [Hok Hn]. eapply reads_bind_ret; [by apply MsgTx_parse_reads|].
    rewrite Hn. intros rest. cbn [fst snd]. unfold lift. by rewrite MsgTx_compact_id.
  - intros bs msg rest H. inv_read H as p mid H1. destruct p as [msg' total].
    apply MsgTx_parse_exact in H1 as (Hok & Hn & -> & ->); [|done].
    unfold lift in H. cbn [fst snd] in H. rewrite MsgTx_compact_id in H.
    by injection H as -> ->.
Qed.

(** ** No slice of the decoder is out of range *)

Lemma no_panic_u32 : no_panic read_u32.
Proof. unfold binarySerializer_Uint32. auto with wire. Qed.
Lemma no_panic_u64 : no_panic read_u64.
Proof. unfold binarySerializer_Uint64. auto with wire. Qed.
#[local] Hint Resolve no_panic_u32 no_panic_u64 : wire.

Lemma no_panic_readScriptBuf pver s : no_panic (readScriptBuf pver s).
Proof. unfold readScriptBuf. auto 20 with wire. Qed.
#[local] Hint Resolve no_panic_readScriptBuf : wire.

Lemma no_panic_readTxInBuf pver v s : no_panic (readTxInBuf pver v s).
Proof. unfold readTxInBuf, readOutPointBuf. auto 20 with wire. Qed.
Lemma no_panic_readTxOutBuf pver v s : no_panic (readTxOutBuf pver v s).
Proof. unfold readTxOutBuf. auto 20 with wire. Qed.
#[local] Hint Resolve no_panic_readTxInBuf no_panic_readTxOutBuf : wire.

Lemma no_panic_slab_loop {A} (m : Z -> Reader A) size n st :
  (forall s, no_panic (m s)) -> no_panic (slab_loop m size n st).
Proof. intros Hm. revert st. induction n; intros st; simpl; auto 10 with wire. Qed.
#[local] Hint Resolve no_panic_slab_loop : wire.

Lemma no_panic_read_witnesses pver ins st : no_panic (read_witnesses pver ins st).
Proof. revert st. induction ins; intros st; simpl; auto 20 with wire. Qed.
#[local] Hint Resolve no_panic_read_witnesses : wire.

Lemma no_panic_MsgTx_parse pver enc s : no_panic (MsgTx_parse pver enc s).
Proof.
  unfold MsgTx_parse, MsgTx_read_flag, MsgTx_read_wits. cbv zeta. auto 30 with wire.
Qed.

(** ** Sizes *)

Lemma len_WriteVarBytesBuf pver bs :
  len (WriteVarBytesBuf pver bs) = VarIntSerializeSize (len bs) + len bs.
Proof.
  unfold WriteVarBytesBuf. rewrite len_app, length_WriteVarIntBuf by apply len_nonneg. done.
Qed.

Lemma len_le_put n z : len (le_put n z) = Z.of_nat n.
Proof. unfold len. by rewrite length_le_put. Qed.

Lemma len_writeTxInBuf pver v ti :
  TxIn_ok ti -> len (writeTxInBuf pver v ti) = TxIn_SerializeSize ti.
Proof.
  intros ([Hh _] & _ & _). unfold writeTxInBuf, writeOutPointBuf, TxIn_SerializeSize.
  rewrite !len_app, len_WriteVarBytesBuf, !len_le_put, Hh. unfold HashSize. lia.
Qed.

Lemma len_WriteTxOutBuf pver v to :
  len (WriteTxOutBuf pver v to) = TxOut_SerializeSize to.
Proof.
  unfold WriteTxOutBuf, TxOut_SerializeSize.
  rewrite !len_app, len_WriteVarBytesBuf, !len_le_put. lia.
Qed.

Lemma len_writeTxWitnessBuf pver v wit :
  len (writeTxWitnessBuf pver v wit) = TxWitness_SerializeSize wit.
Proof.
  unfold writeTxWitnessBuf, TxWitness_SerializeSize.
  rewrite len_app, length_WriteVarIntBuf by apply len_nonneg. f_equal.
  apply len_write_all_sum. intros. apply len_WriteVarBytesBuf.
Qed.

Lemma len_write_ins pver v ins :
  Forall TxIn_ok ins -> len (write_all (writeTxInBuf pver v) ins) = sum_Z TxIn_SerializeSize ins.
Proof.
  intros Hins. apply len_write_all_sum. intros ti Hti.
  apply len_writeTxInBuf. rewrite Forall_forall in Hins. by apply Hins, list_elem_of_In.
Qed.

Lemma len_write_outs pver v outs :
  len (write_all (WriteTxOutBuf pver v) outs) = sum_Z TxOut_SerializeSize outs.
Proof. apply len_write_all_sum. intros. apply len_WriteTxOutBuf. Qed.

(** The encoding up to the outputs, and its length. *)
Definition tx_prefix (pver : Z) (enc : MessageEncoding) (msg : MsgTx) : list byte :=
  le_put 4 (wrap_u32 (MsgTx_Version msg)) ++
  (if writes_witness enc msg then [z2b TxFlagMarker; z2b WitnessFlag] else []) ++
  WriteVarIntBuf pver (len (MsgTx_TxIn msg)) ++
  write_all (writeTxInBuf pver (MsgTx_Version msg)) (MsgTx_TxIn msg) ++
  WriteVarIntBuf pver (len (MsgTx_TxOut msg)).

Definition tx_suffix (pver : Z) (enc : MessageEncoding) (msg : MsgTx) : list byte :=
  (if writes_witness enc msg
   then write_all (fun ti => writeTxWitnessBuf pver (MsgTx_Version msg) (wit_items ti))
          (MsgTx_TxIn msg)
   else []) ++
  le_put 4 (MsgTx_LockTime msg).

Lemma MsgTx_btcEncode_split pver enc msg :
  MsgTx_btcEncode pver enc msg =
  tx_prefix pver enc msg ++
  write_all (WriteTxOutBuf pver (MsgTx_Version msg)) (MsgTx_TxOut msg) ++
  tx_suffix pver enc msg.
Proof. unfold tx_prefix, tx_suffix. by rewrite <- !app_assoc. Qed.

Lemma len_tx_prefix pver enc msg :
  Forall TxIn_ok (MsgTx_TxIn msg) ->
  len (tx_prefix pver enc msg) =
    4 + (if writes_witness enc msg then 2 else 0) +
    VarIntSerializeSize (len (MsgTx_TxIn msg)) +
    VarIntSerializeSize (len (MsgTx_TxOut msg)) +
    sum_Z TxIn_SerializeSize (MsgTx_TxIn msg).
Proof.
  intros Hins. unfold tx_prefix. rewrite !len_app, len_le_put, len_write_ins by done.
  rewrite !length_WriteVarIntBuf by apply len_nonneg.
  destruct (writes_witness enc msg); unfold len at 1; simpl length; lia.
Qed.

Lemma len_tx_suffix pver enc msg :
  len (tx_suffix pver enc msg) =
    (if writes_witness enc msg
     then sum_Z (fun ti => TxWitness_SerializeSize (wit_items ti)) (MsgTx_TxIn msg)
     else 0) + 4.
Proof.
  unfold tx_suffix. rewrite len_app, len_le_put.
  destruct (writes_witness enc msg); [|done]. f_equal.
  apply len_write_all_sum. intros. apply len_writeTxWitnessBuf.
Qed.

Lemma tx_sizes msg :
  Forall TxIn_ok (MsgTx_TxIn msg) ->
  len (MsgTx_Serialize msg) = MsgTx_SerializeSize msg /\
  len (MsgTx_SerializeNoWitness msg) = MsgTx_SerializeSizeStripped msg.
Proof.
  intros Hins.
  unfold MsgTx_Serialize, MsgTx_SerializeNoWitness, MsgTx_BtcEncode.
  rewrite !MsgTx_btcEncode_split, !len_app, !len_tx_prefix, !len_tx_suffix, !len_write_outs by done.
  unfold MsgTx_SerializeSizeStripped, MsgTx_SerializeSize, MsgTx_baseSize, writes_witness.
  simpl. destruct (MsgTx_HasWitness msg); lia.
Qed.

(** ** Script offsets *)

(** The bytes of [bs] at an offset. *)
Definition bytes_at (bs : list byte) (off : Z) (n : Z) : list byte :=
  take (Z.to_nat n) (drop (Z.to_nat off) bs).

Lemma bytes_at_app pre x post : bytes_at (pre ++ x ++ post) (len pre) (len x) = x.
Proof. unfold bytes_at. by rewrite !to_nat_len, drop_app_length, take_app_length. Qed.

Lemma pkScriptLocs_loop_correct pver v outs pre post :
  Forall2 (fun loc to =>
      bytes_at (pre ++ write_all (WriteTxOutBuf pver v) outs ++ post) loc
        (len (TxOut_PkScript to)) = TxOut_PkScript to)
    (pkScriptLocs_loop (len pre) outs) outs.
Proof.
  revert pre. induction outs as [|to outs IH]; intros pre; [done|].
  cbn [pkScriptLocs_loop]. rewrite write_all_cons. set (pk := TxOut_PkScript to) in *.
  set (hd := le_put 8 (wrap_u64 (TxOut_Value to)) ++ WriteVarIntBuf pver (len pk)).
  assert (Hhd : len hd = 8 + VarIntSerializeSize (len pk)).
  { unfold hd. rewrite len_app, len_le_put, length_WriteVarIntBuf by apply len_nonneg. done. }
  assert (Heq : WriteTxOutBuf pver v to = hd ++ pk).
  { unfold WriteTxOutBuf, WriteVarBytesBuf, hd. by rewrite <- app_assoc. }
  rewrite Heq. cbv zeta.
  replace (len pre + 8 + VarIntSerializeSize (len pk)) with (len (pre ++ hd))
    by (rewrite len_app; lia).
  constructor.
  - rewrite <- !app_assoc. rewrite (app_assoc pre hd). apply bytes_at_app.
  - rewrite <- len_app. specialize (IH ((pre ++ hd) ++ pk)).
    rewrite <- !app_assoc in IH. by rewrite <- !app_assoc.
Qed.

Lemma len_zero_nil {A} (l : list A) : len l = 0 -> l = [].
Proof. unfold len. destruct l; simpl; [done|lia]. Qed.

(** The test of [PkScriptLocs]: the first input has a witness slice. *)
Definition first_witness (msg : MsgTx) : bool :=
  match MsgTx_TxIn msg with
  | txIn0 :: _ => if TxIn_Witness txIn0 is Some _ then true else false
  | [] => false
  end.

(** * Properties *)


(** C1: encoding and then decoding a transaction gives back its normal form
    (the witnesses when the encoding carries them) and leaves the rest of the
    input, for every transaction within the decoder's limits. *)
Theorem MsgTx_roundtrip pver enc msg rest :
  MsgTx_ok enc scriptSlabSize msg ->
  MsgTx_BtcDecode pver enc (MsgTx_BtcEncode pver enc msg ++ rest) =
    Ok (normalize enc msg, rest).
Proof.
  intros Hok. unfold MsgTx_BtcDecode, MsgTx_btcDecode, mbind, reader_bind.
  rewrite (MsgTx_parse_reads _ _ _ _ Hok). unfold lift. cbn [fst snd].
  by rewrite MsgTx_compact_id.
Qed.

Definition tx_example : MsgTx :=
  mkMsgTx 2
    [mkTxIn (mkOutPoint (replicate 32 x05) 1) [x01; x02] (Some [[x09]; []]) 0xfffffffe;
     mkTxIn (mkOutPoint (replicate 32 x06) 0) [] None 7]
    [mkTxOut 5000 [x51; x52]; mkTxOut (-1) []] 77.

Lemma tx_example_ok : MsgTx_ok WitnessEncoding scriptSlabSize tx_example.
Proof. split; lazymatch goal with |- _ = _ -> _ => done | _ => concrete end. Defined.

Lemma MsgTx_roundtrip_witness :
  MsgTx_BtcDecode 70016 WitnessEncoding
    (MsgTx_BtcEncode 70016 WitnessEncoding tx_example ++ [x00]) =
  Ok (normalize WitnessEncoding tx_example, [x00]).
Proof. apply MsgTx_roundtrip. exact tx_example_ok. Defined.

(** the decoder is canonical: an input it accepts is the encoding of the
    transaction it returns followed by what it leaves, the transaction is within
    the limits, and its witnesses are the ones the encoding carries. *)
Theorem MsgTx_decode_canonical pver enc bs msg rest :
  MsgTx_BtcDecode pver enc bs = Ok (msg, rest) ->
  MsgTx_ok enc scriptSlabSize msg /\ normalize enc msg = msg /\
  bs = MsgTx_BtcEncode pver enc msg ++ rest.
Proof. intros H. apply codec_inv in H as [[] ->]. auto. Qed.

Lemma MsgTx_decode_canonical_witness :
  MsgTx_ok BaseEncoding scriptSlabSize (mkMsgTx 1 [] [] 2) /\
  normalize BaseEncoding (mkMsgTx 1 [] [] 2) = mkMsgTx 1 [] [] 2 /\
  [x01; x00; x00; x00; x00; x00; x02; x00; x00; x00] =
    MsgTx_BtcEncode 1 BaseEncoding (mkMsgTx 1 [] [] 2) ++ [].
Proof. apply MsgTx_decode_canonical. vm_compute. reflexivity. Defined.

(** whatever the input, no slice expression of the transaction decoder is
    out of range: compacting the scripts never panics. *)
Theorem MsgTx_decode_no_panic pver enc : no_panic (MsgTx_BtcDecode pver enc).
Proof.
  intros bs H. unfold MsgTx_BtcDecode, MsgTx_btcDecode, mbind, reader_bind in H.
  destruct (MsgTx_parse pver enc scriptSlabSize bs) as [[[msg total] rest]|e] eqn:E.
  - apply MsgTx_parse_exact in E as (_ & _ & -> & _); [|done].
    unfold lift in H. cbn [fst snd] in H. by rewrite MsgTx_compact_id in H.
  - injection H as ->. by apply no_panic_MsgTx_parse in E.
Qed.

(** [SerializeSize] and [SerializeSizeStripped] are the number of bytes
    the two serializations write. *)
Theorem MsgTx_SerializeSize_correct msg :
  Forall TxIn_ok (MsgTx_TxIn msg) ->
  len (MsgTx_Serialize msg) = MsgTx_SerializeSize msg /\
  len (MsgTx_SerializeNoWitness msg) = MsgTx_SerializeSizeStripped msg.
Proof.
  apply tx_sizes.
Qed.

Lemma MsgTx_SerializeSize_correct_witness :
  len (MsgTx_Serialize tx_example) = MsgTx_SerializeSize tx_example /\
  len (MsgTx_SerializeNoWitness tx_example) = MsgTx_SerializeSizeStripped tx_example.
Proof. apply MsgTx_SerializeSize_correct. apply tx_example_ok. Defined.

(** [PkScriptLocs] gives, for each output, the offset at which the output's
    script occurs in the serialized transaction, when the first input has a
    witness slice exactly if some input has a witness (as for a decoded
    transaction). *)
Theorem MsgTx_PkScriptLocs_correct msg :
  Forall TxIn_ok (MsgTx_TxIn msg) ->
  MsgTx_HasWitness msg = first_witness msg ->
  Forall2 (fun loc to =>
      bytes_at (MsgTx_Serialize msg) loc (len (TxOut_PkScript to)) = TxOut_PkScript to)
    (MsgTx_PkScriptLocs msg) (MsgTx_TxOut msg).
Proof.
  intros Hins Hfw. unfold MsgTx_PkScriptLocs.
  destruct (Z.eqb_spec (len (MsgTx_TxOut msg)) 0) as [Hz|_].
  { apply len_zero_nil in Hz. by rewrite Hz. }
  cbv zeta. unfold MsgTx_Serialize, MsgTx_BtcEncode. rewrite MsgTx_btcEncode_split.
  match goal with |- Forall2 _ (pkScriptLocs_loop ?n _) _ =>
    replace n with (len (tx_prefix 0 WitnessEncoding msg)) end.
  { apply pkScriptLocs_loop_correct. }
  rewrite len_tx_prefix by done. unfold writes_witness. simpl. rewrite Hfw.
  unfold first_witness. destruct (MsgTx_TxIn msg) as [|ti ins]; [lia|].
  destruct (TxIn_Witness ti); lia.
Qed.

Lemma MsgTx_PkScriptLocs_correct_witness :
  Forall2 (fun loc to =>
      bytes_at (MsgTx_Serialize tx_example) loc (len (TxOut_PkScript to)) = TxOut_PkScript to)
    (MsgTx_PkScriptLocs tx_example) (MsgTx_TxOut tx_example).
Proof. apply MsgTx_PkScriptLocs_correct; [apply tx_example_ok|reflexivity]. Defined.

(** when the first input has no witness slice but another one has a
    witness, the offsets [PkScriptLocs] returns are wrong by the two bytes of the
    marker and the flag. *)
Theorem MsgTx_PkScriptLocs_mixed :
  let msg := mkMsgTx 1
    [mkTxIn (mkOutPoint (replicate 32 x00) 0) [] None 0;
     mkTxIn (mkOutPoint (replicate 32 x00) 0) [] (Some [[x07]]) 0]
    [mkTxOut 0 [x51; x52; x53]] 0 in
  Forall TxIn_ok (MsgTx_TxIn msg) /\ MsgTx_HasWitness msg = true /\
  MsgTx_PkScriptLocs msg = [97] /\
  bytes_at (MsgTx_Serialize msg) 97 3 <> [x51; x52; x53] /\
  bytes_at (MsgTx_Serialize msg) 99 3 = [x51; x52; x53].
Proof.
  split; [concrete|].
  vm_compute. split_and!; done.
Qed.

Lemma copy_script_id s : copy_script s = s.
Proof. unfold copy_script. case_bool; [done|]. pose proof (len_nonneg s).
  symmetry. apply len_zero_nil. lia. Qed.

Lemma copy_wit_items ti : wit_items (copy_txin ti) = wit_items ti.
Proof.
  unfold copy_txin. case_bool; unfold wit_items at 1; simpl; [|done].
  symmetry. by apply len_zero_nil.
Qed.

Lemma existsb_map {A B} (g : A -> B) (f : B -> bool) l :
  existsb f (map g l) = existsb (fun a => f (g a)) l.
Proof. induction l; simpl; congruence. Qed.

(** A copy keeps every field, and every witness as a list of items (an
    empty witness becomes nil), so it has the same encodings and the same size. *)
Theorem MsgTx_Copy_correct msg pver enc :
  map (fun ti => with_witness ti None) (MsgTx_TxIn (MsgTx_Copy msg)) =
    map (fun ti => with_witness ti None) (MsgTx_TxIn msg) /\
  map wit_items (MsgTx_TxIn (MsgTx_Copy msg)) = map wit_items (MsgTx_TxIn msg) /\
  MsgTx_TxOut (MsgTx_Copy msg) = MsgTx_TxOut msg /\
  MsgTx_BtcEncode pver enc (MsgTx_Copy msg) = MsgTx_BtcEncode pver enc msg /\
  MsgTx_SerializeSize (MsgTx_Copy msg) = MsgTx_SerializeSize msg.
Proof.
  assert (Hin : map (fun ti => with_witness ti None) (MsgTx_TxIn (MsgTx_Copy msg)) =
    map (fun ti => with_witness ti None) (MsgTx_TxIn msg)).
  { simpl. rewrite map_map. apply map_ext. intros [op sig w q].
    unfold copy_txin, with_witness. simpl. by rewrite copy_script_id. }
  assert (Hw : map wit_items (MsgTx_TxIn (MsgTx_Copy msg)) = map wit_items (MsgTx_TxIn msg)).
  { simpl. rewrite map_map. apply map_ext, copy_wit_items. }
  assert (Hout : MsgTx_TxOut (MsgTx_Copy msg) = MsgTx_TxOut msg).
  { simpl. rewrite <- (map_id (MsgTx_TxOut msg)) at 2. apply map_ext.
    intros [v s]. simpl. by rewrite copy_script_id. }
  assert (Hhas : MsgTx_HasWitness (MsgTx_Copy msg) = MsgTx_HasWitness msg).
  { unfold MsgTx_HasWitness. rewrite <- !(existsb_map wit_items (fun w => negb (len w =? 0))).
    by rewrite Hw. }
  assert (Hl : len (MsgTx_TxIn (MsgTx_Copy msg)) = len (MsgTx_TxIn msg))
    by (unfold len; simpl; by rewrite length_map).
  do 3 (split; [done|]). split.
  - unfold MsgTx_BtcEncode, MsgTx_btcEncode. rewrite Hhas, Hout, Hl.
    change (MsgTx_Version (MsgTx_Copy msg)) with (MsgTx_Version msg).
    change (MsgTx_LockTime (MsgTx_Copy msg)) with (MsgTx_LockTime msg).
    rewrite <- (writeTxIn_no_wit _ _ (MsgTx_TxIn (MsgTx_Copy msg))), Hin, writeTxIn_no_wit.
    pose proof (write_all_map (writeTxWitnessBuf pver (MsgTx_Version msg)) wit_items) as Hm.
    rewrite <- !Hm, Hw. done.
  - unfold MsgTx_SerializeSize, MsgTx_baseSize. rewrite Hhas, Hout, Hl.
    rewrite <- !(sum_Z_map TxWitness_SerializeSize wit_items), Hw.
    assert (Hs : forall l, sum_Z TxIn_SerializeSize l =
      sum_Z TxIn_SerializeSize (map (fun ti => with_witness ti None) l)).
    { intros l. by rewrite sum_Z_map. }
    by rewrite (Hs (MsgTx_TxIn (MsgTx_Copy msg))), Hin, <- Hs.
Qed.
