(* ===== verification/ChainHash.v ===== *)
(** * chainhash: hashes, their strings and the double SHA-256

    Go's [crypto/sha256] and [encoding/hex] belong to the standard library of
    the language: [sha256_Sum256] is the executable FIPS 180-4 function and
    [hex_EncodeToString], [hex_Decode] the two functions of [encoding/hex] the
    package calls.  A [Hash] is a list of 32 bytes; strings are byte lists. *)

From Stdlib Require Import ZArith Lia.
From S2P Require Import Prelude WireCommon.

(** ** SHA-256 *)

Definition add32 (x y : Z) : Z := wrap_u32 (x + y).
Definition rotr32 (n x : Z) : Z :=
  Z.lor (Z.shiftr x n) (wrap_u32 (Z.shiftl x (32 - n))).
Definition not32 (x : Z) : Z := 0xffffffff - x.
Definition sha_Ch (x y z : Z) : Z := Z.lxor (Z.land x y) (Z.land (not32 x) z).
Definition sha_Maj (x y z : Z) : Z :=
  Z.lxor (Z.lxor (Z.land x y) (Z.land x z)) (Z.land y z).
Definition sha_S0 (x : Z) : Z := Z.lxor (Z.lxor (rotr32 2 x) (rotr32 13 x)) (rotr32 22 x).
Definition sha_S1 (x : Z) : Z := Z.lxor (Z.lxor (rotr32 6 x) (rotr32 11 x)) (rotr32 25 x).
Definition sha_s0 (x : Z) : Z :=
  Z.lxor (Z.lxor (rotr32 7 x) (rotr32 18 x)) (Z.shiftr x 3).
Definition sha_s1 (x : Z) : Z :=
  Z.lxor (Z.lxor (rotr32 17 x) (rotr32 19 x)) (Z.shiftr x 10).

(** The constants are the first 32 bits of the fractional parts of the cube
    roots of the first 64 primes, and of the square roots of the first 8. *)
Definition is_prime (n : nat) : bool :=
  forallb (fun d => negb (n mod d =? 0)%nat) (seq 2 (n - 2)).
Definition sha_primes : list Z := map Z.of_nat (filter (fun n => Is_true (is_prime n)) (seq 2 310)).

Fixpoint cube_root_bits (k : nat) (n r : Z) : Z :=
  match k with
  | O => r
  | S k' =>
      let r' := r + 2 ^ Z.of_nat k' in
      cube_root_bits k' n (if r' * r' * r' <=? n then r' else r)
  end.

Definition sha_K : list Z :=
  Eval vm_compute in
    map (fun p => wrap_u32 (cube_root_bits 40 (p * 2 ^ 96) 0)) sha_primes.
Definition sha_H0 : list Z :=
  Eval vm_compute in
    map (fun p => wrap_u32 (Z.sqrt (p * 2 ^ 64))) (take 8 sha_primes).

(** The message schedule, newest word first: [n] more words. *)
Fixpoint sha_schedule (n : nat) (w : list Z) : list Z :=
  match n with
  | O => w
  | S n' =>
      let x := add32 (add32 (sha_s1 (nth 1 w 0)) (nth 6 w 0))
                     (add32 (sha_s0 (nth 14 w 0)) (nth 15 w 0)) in
      sha_schedule n' (x :: w)
  end.

Definition sha_round (st : list Z) (kw : Z * Z) : list Z :=
  match st with
  | [a; b; c; d; e; f; g; h] =>
      let t1 := add32 (add32 (add32 h (sha_S1 e)) (sha_Ch e f g)) (add32 kw.1 kw.2) in
      let t2 := add32 (sha_S0 a) (sha_Maj a b c) in
      [add32 t1 t2; a; b; c; add32 d t1; e; f; g]
  | _ => st
  end.

(** A list cut into [n] chunks of [k] elements. *)
Fixpoint chunks {A} (k : nat) (n : nat) (l : list A) : list (list A) :=
  match n with
  | O => []
  | S n' => take k l :: chunks k n' (drop k l)
  end.

Definition sha_block (st : list Z) (block : list byte) : list Z :=
  let w := rev (map be_get (chunks 4 16 block)) in
  zip_with add32 st (foldl sha_round st (zip sha_K (rev (sha_schedule 48 w)))).

Definition sha_pad (bs : list byte) : list byte :=
  bs ++ x80 :: replicate (Z.to_nat ((55 - len bs) mod 64)) x00 ++ be_put 8 (8 * len bs).

Definition sha256_Sum256 (bs : list byte) : list byte :=
  let m := sha_pad bs in
  concat (map (be_put 4) (foldl sha_block sha_H0 (chunks 64 (length m / 64) m))).

Example sha256_abc : sha256_Sum256 (bytes_of "abc") = map z2b
  [0xba;0x78;0x16;0xbf;0x8f;0x01;0xcf;0xea;0x41;0x41;0x40;0xde;0x5d;0xae;0x22;0x23;
   0xb0;0x03;0x61;0xa3;0x96;0x17;0x7a;0x9c;0xb4;0x10;0xff;0x61;0xf2;0x00;0x15;0xad].
Proof. vm_compute. reflexivity. Qed.

(** ** encoding/hex *)

Definition hex_digit (v : Z) : byte := z2b (if v <? 10 then 48 + v else 87 + v).

Definition hex_EncodeToString (bs : list byte) : list byte :=
  concat (map (fun b => [hex_digit (b2z b / 16); hex_digit (b2z b mod 16)]) bs).

Definition fromHexChar (c : byte) : option Z :=
  let v := b2z c in
  if (48 <=? v) && (v <=? 57) then Some (v - 48)
  else if (97 <=? v) && (v <=? 102) then Some (v - 97 + 10)
  else if (65 <=? v) && (v <=? 70) then Some (v - 65 + 10)
  else None.

Inductive hash_error : Type :=
| ErrHashStrSize
| ErrHashStrSizeMismatch
| InvalidByteError
| ErrLength
| InvalidHashLength.

(** The bytes written by [hex.Decode], which stops at the first bad digit. *)
Fixpoint hex_Decode (src : list byte) : result hash_error (list byte) :=
  match src with
  | [] => Ok []
  | [c] => Err (if fromHexChar c is Some _ then ErrLength else InvalidByteError)
  | c1 :: c2 :: src' =>
      match fromHexChar c1, fromHexChar c2 with
      | Some a, Some b =>
          bs ← hex_Decode src'; mret (z2b (16 * a + b) :: bs)
      | _, _ => Err InvalidByteError
      end
  end.

(** ** Hash *)

Definition chainhash_HashSize : Z := 32.
Definition MaxHashStringSize : Z := chainhash_HashSize * 2.
Definition zeroHash : list byte := replicate 32 x00.

(** An array element; every index below is within the 32 bytes. *)
Definition at_ (h : list byte) (i : nat) : byte := nth i h x00.

(** [for i := 0; i < HashSize/2; i++ { h[i], h[31-i] = h[31-i], h[i] }] *)
Definition swap_step (h : list byte) (i : nat) : list byte :=
  <[(31 - i)%nat := at_ h i]> (<[i := at_ h (31 - i)%nat]> h).

Definition Hash_String (hash : list byte) : list byte :=
  hex_EncodeToString (foldl swap_step hash (seq 0 16)).

Definition Hash_SetBytes (newHash : list byte) : result hash_error (list byte) :=
  if negb (len newHash =? chainhash_HashSize) then Err InvalidHashLength
  else Ok newHash.

Definition NewHash (newHash : list byte) : result hash_error (list byte) :=
  Hash_SetBytes newHash.

Definition Hash_CloneBytes (hash : list byte) : list byte := hash.

(** Two pointers, nil or to a hash. *)
Definition Hash_IsEqual (hash target : option (list byte)) : bool :=
  match hash, target with
  | None, None => true
  | None, _ | _, None => false
  | Some a, Some b => bool_decide (a = b)
  end.

(** One iteration of the reverse copy into [dst]. *)
Definition rev_copy_step (reversedHash dst : list byte) (i : nat) : list byte :=
  <[(31 - i)%nat := at_ reversedHash i]> (<[i := at_ reversedHash (31 - i)%nat]> dst).

Definition decodeHash (dst src : list byte) : result hash_error (list byte) :=
  match hex_Decode src with
  | Err e => Err e
  | Ok bs =>
      let reversedHash := take (32 - length src / 2) zeroHash ++ bs in
      Ok (foldl (rev_copy_step reversedHash) dst (seq 0 16))
  end.

Definition Hash_Decode (dst src : list byte) : result hash_error (list byte) :=
  if MaxHashStringSize <? len src then Err ErrHashStrSize
  else
    let srcBytes := if len src mod 2 =? 0 then src else z2b 48 :: src in
    decodeHash dst srcBytes.

Definition Hash_DecodeStrict (dst src : list byte) : result hash_error (list byte) :=
  if negb (len src =? MaxHashStringSize) then Err ErrHashStrSizeMismatch
  else decodeHash dst src.

Definition NewHashFromStr (hash : list byte) : result hash_error (list byte) :=
  Hash_Decode zeroHash hash.
Definition NewHashFromStrStrict (hash : list byte) : result hash_error (list byte) :=
  Hash_DecodeStrict zeroHash hash.

(** ** Hash functions *)

Definition HashB (b : list byte) : list byte := sha256_Sum256 b.
Definition HashH (b : list byte) : list byte := sha256_Sum256 b.
Definition DoubleHashB (b : list byte) : list byte := sha256_Sum256 (sha256_Sum256 b).
Definition DoubleHashH (b : list byte) : list byte := sha256_Sum256 (sha256_Sum256 b).
Definition DoubleHashRaw (serialized : list byte) : list byte :=
  let first := sha256_Sum256 serialized in
  sha256_Sum256 first.

Definition TagBIP0340Challenge := bytes_of "BIP0340/challenge".
Definition TagBIP0340Aux := bytes_of "BIP0340/aux".
Definition TagBIP0340Nonce := bytes_of "BIP0340/nonce".
Definition TagTapSighash := bytes_of "TapSighash".
Definition TagTapLeaf := bytes_of "TapLeaf".
Definition TagTapBranch := bytes_of "TapBranch".
Definition TagTapTweak := bytes_of "TapTweak".

Definition precomputedTags : list (list byte * list byte) :=
  map (fun tag => (tag, sha256_Sum256 tag))
    [TagBIP0340Challenge; TagBIP0340Aux; TagBIP0340Nonce; TagTapSighash;
     TagTapLeaf; TagTapBranch; TagTapTweak].

Fixpoint assoc (k : list byte) (l : list (list byte * list byte)) : option (list byte) :=
  match l with
  | [] => None
  | (k', v) :: l' => if decide (k = k') then Some v else assoc k l'
  end.

Definition TaggedHash (tag : list byte) (msgs : list (list byte)) : list byte :=
  let shaTag := match assoc tag precomputedTags with
                | Some h => h
                | None => sha256_Sum256 tag
                end in
  sha256_Sum256 (shaTag ++ shaTag ++ concat msgs).

(** * Proofs *)

Lemma length_sha_round st kw : length st = 8%nat -> length (sha_round st kw) = 8%nat.
Proof. intros H. do 9 (destruct st as [|? st]; try done). Qed.

Lemma length_sha_block st b : length st = 8%nat -> length (sha_block st b) = 8%nat.
Proof.
  intros H. unfold sha_block. rewrite length_zip_with.
  assert (Hf : forall l s, length s = 8%nat -> length (foldl sha_round s l) = 8%nat).
  { induction l as [|x l IH]; intros s Hs; [done|]. simpl. by apply IH, length_sha_round. }
  rewrite Hf by done. lia.
Qed.

Lemma length_sha256_Sum256 bs : length (sha256_Sum256 bs) = 32%nat.
Proof.
  unfold sha256_Sum256. set (l := chunks _ _ _). clearbody l.
  assert (Hf : forall s, length s = 8%nat -> length (foldl sha_block s l) = 8%nat).
  { induction l as [|x l IH]; intros s Hs; [done|]. simpl. by apply IH, length_sha_block. }
  specialize (Hf sha_H0 eq_refl). revert Hf. generalize (foldl sha_block sha_H0 l).
  intros st Hst. do 9 (destruct st as [|? st]; try done).
Qed.

(** A list of 32 bytes, element by element. *)
Ltac explode h H :=
  do 32 (destruct h as [|? h]; [discriminate H|]); destruct h; [|discriminate H].

Lemma swap_rev h : length h = 32%nat -> foldl swap_step h (seq 0 16) = rev h.
Proof. intros H. explode h H. reflexivity. Qed.

Lemma rev_copy_rev r dst :
  length r = 32%nat -> length dst = 32%nat ->
  foldl (rev_copy_step r) dst (seq 0 16) = rev r.
Proof. intros Hr Hd. explode r Hr. explode dst Hd. reflexivity. Qed.

Lemma fromHexChar_digit v : 0 <= v < 16 -> fromHexChar (hex_digit v) = Some v.
Proof.
  intros H. unfold fromHexChar, hex_digit.
  destruct (Z.ltb_spec v 10); rewrite b2z_z2b_small by lia.
  - case_bools. f_equal. lia.
  - case_bools. f_equal. lia.
Qed.

Lemma hex_Decode_Encode bs : hex_Decode (hex_EncodeToString bs) = Ok bs.
Proof.
  induction bs as [|b bs IH]; [done|].
  change (hex_EncodeToString (b :: bs)) with
    (hex_digit (b2z b / 16) :: hex_digit (b2z b mod 16) :: hex_EncodeToString bs).
  pose proof (b2z_range b). cbn [hex_Decode].
  rewrite !fromHexChar_digit.
  - rewrite IH. simpl. rewrite <- (Z.div_mod (b2z b) 16) by lia. by rewrite z2b_b2z.
  - apply Z.mod_pos_bound. lia.
  - split; [apply Z.div_pos; lia|apply Z.div_lt_upper_bound; lia].
Qed.

Lemma length_hex_EncodeToString bs : length (hex_EncodeToString bs) = (2 * length bs)%nat.
Proof.
  induction bs as [|b bs IH]; [done|].
  change (hex_EncodeToString (b :: bs)) with
    (hex_digit (b2z b / 16) :: hex_digit (b2z b mod 16) :: hex_EncodeToString bs).
  cbn [length]. lia.
Qed.

Lemma length_hex_Decode src bs : hex_Decode src = Ok bs -> length src = (2 * length bs)%nat.
Proof.
  revert bs. induction src as [|c1|c1 c2 src IH] using list_pair_ind; intros bs H; simpl in H.
  - by injection H as <-.
  - by destruct (fromHexChar c1).
  - destruct (fromHexChar c1), (fromHexChar c2); try done.
    apply result_bind_Ok in H as (bs' & H1 & [= <-]). apply IH in H1. simpl. lia.
Qed.

Lemma rev_replicate {A} n (a : A) : rev (replicate n a) = replicate n a.
Proof. rewrite rev_alt. apply reverse_replicate. Qed.

Lemma decodeHash_rev dst src bs :
  length dst = 32%nat -> (length src <= 64)%nat -> hex_Decode src = Ok bs ->
  decodeHash dst src = Ok (rev bs ++ replicate (32 - length bs) x00).
Proof.
  intros Hd Hs H. unfold decodeHash. rewrite H.
  apply length_hex_Decode in H. unfold zeroHash.
  replace (length src / 2)%nat with (length bs)
    by (rewrite H, Nat.mul_comm, Nat.div_mul; lia).
  rewrite take_replicate. replace ((32 - length bs) `min` 32)%nat with (32 - length bs)%nat by lia.
  rewrite rev_copy_rev; [|rewrite length_app, length_replicate; lia|done].
  rewrite rev_app_distr. f_equal. f_equal.
  apply rev_replicate.
Qed.

(** The other direction of the digit table: case is all that is lost. *)
Definition lower_hex (c : byte) : byte :=
  if (65 <=? b2z c) && (b2z c <=? 70) then z2b (b2z c + 32) else c.

Lemma fromHexChar_inv c v :
  fromHexChar c = Some v -> 0 <= v < 16 /\ hex_digit v = lower_hex c.
Proof.
  unfold fromHexChar, hex_digit, lower_hex. pose proof (b2z_range c). intros H1.
  destruct ((48 <=? b2z c) && (b2z c <=? 57)) eqn:E1;
    [|destruct ((97 <=? b2z c) && (b2z c <=? 102)) eqn:E2;
      [|destruct ((65 <=? b2z c) && (b2z c <=? 70)) eqn:E3; [|done]]];
    injection H1 as <-;
    repeat match goal with
    | E : (_ && _) = true |- _ => apply andb_true_iff in E as [?%Z.leb_le ?%Z.leb_le]
    end; (split; [lia|]); apply b2z_inj; case_bools; simpl;
    rewrite ?b2z_z2b_small by lia; lia.
Qed.

Lemma hex_Encode_Decode src bs :
  hex_Decode src = Ok bs -> hex_EncodeToString bs = map lower_hex src.
Proof.
  revert bs. induction src as [|c1|c1 c2 src IH] using list_pair_ind; intros bs H; simpl in H.
  - by injection H as <-.
  - by destruct (fromHexChar c1).
  - destruct (fromHexChar c1) as [v1|] eqn:E1; [|done].
    destruct (fromHexChar c2) as [v2|] eqn:E2; [|done].
    apply result_bind_Ok in H as (bs' & H1 & [= <-]). apply IH in H1.
    apply fromHexChar_inv in E1 as [Hv1 Hd1]. apply fromHexChar_inv in E2 as [Hv2 Hd2].
    change (hex_EncodeToString (z2b (16 * v1 + v2) :: bs')) with
      (hex_digit (b2z (z2b (16 * v1 + v2)) / 16) ::
       hex_digit (b2z (z2b (16 * v1 + v2)) mod 16) :: hex_EncodeToString bs').
    rewrite b2z_z2b_small by lia.
    replace ((16 * v1 + v2) / 16) with v1 by (Z.div_mod_to_equations; lia).
    replace ((16 * v1 + v2) mod 16) with v2 by (Z.div_mod_to_equations; lia).
    simpl. by rewrite H1, Hd1, Hd2.
Qed.

(** A leading zero digit pair is a leading zero byte. *)
Lemma hex_Decode_zeros n src :
  hex_Decode (replicate (2 * n) (z2b 48) ++ src) =
    match hex_Decode src with Ok bs => Ok (replicate n x00 ++ bs) | Err e => Err e end.
Proof.
  induction n as [|n IH]; [simpl; by destruct (hex_Decode src)|].
  replace (2 * S n)%nat with (S (S (2 * n))) by lia. cbn [replicate app hex_Decode].
  change (fromHexChar (z2b 48)) with (Some 0). rewrite IH.
  by destruct (hex_Decode src).
Qed.

(** * Properties *)

(** parsing the string of a hash gives back the hash, with the strict and
    with the lenient parser. *)
Theorem Hash_String_roundtrip hash :
  length hash = 32%nat ->
  NewHashFromStrStrict (Hash_String hash) = Ok hash /\
  NewHashFromStr (Hash_String hash) = Ok hash.
Proof.
  intros Hh. unfold Hash_String. rewrite swap_rev by done.
  pose proof (length_hex_EncodeToString (rev hash)) as Hl. rewrite length_rev, Hh in Hl.
  assert (Hd : decodeHash zeroHash (hex_EncodeToString (rev hash)) = Ok hash).
  { rewrite (decodeHash_rev _ _ (rev hash));
      [|done|lia|apply hex_Decode_Encode].
    rewrite rev_involutive, length_rev, Hh. by rewrite app_nil_r. }
  split.
  - unfold NewHashFromStrStrict, Hash_DecodeStrict, len. by rewrite Hl.
  - unfold NewHashFromStr, Hash_Decode, len. by rewrite Hl.
Qed.

Lemma Hash_String_roundtrip_witness :
  NewHashFromStrStrict (Hash_String (x01 :: replicate 31 xff)) = Ok (x01 :: replicate 31 xff) /\
  NewHashFromStr (Hash_String (x01 :: replicate 31 xff)) = Ok (x01 :: replicate 31 xff).
Proof. apply Hash_String_roundtrip. reflexivity. Defined.

(** the strict parser accepts exactly the 64-digit strings: what it accepts
    is, up to the case of the digits, the string of the hash it returns. *)
Theorem NewHashFromStrStrict_sound str hash :
  NewHashFromStrStrict str = Ok hash ->
  length hash = 32%nat /\ length str = 64%nat /\ Hash_String hash = map lower_hex str.
Proof.
  unfold NewHashFromStrStrict, Hash_DecodeStrict. intros H.
  destruct (Z.eqb_spec (len str) MaxHashStringSize) as [Hl|]; [|done]. simpl in H.
  assert (Hs : length str = 64%nat).
  { unfold len, MaxHashStringSize, chainhash_HashSize in Hl. lia. }
  destruct (hex_Decode str) as [bs|e] eqn:E; [|by unfold decodeHash in H; rewrite E in H].
  rewrite (decodeHash_rev _ _ bs) in H; [|done|lia|done].
  pose proof (length_hex_Decode _ _ E) as Hlb. assert (Hb : length bs = 32%nat) by lia.
  rewrite Hb in H. simpl in H. rewrite app_nil_r in H. injection H as <-.
  rewrite length_rev. split; [done|]. split; [done|].
  unfold Hash_String. rewrite swap_rev by (by rewrite length_rev).
  rewrite rev_involutive. by apply hex_Encode_Decode.
Qed.

Lemma NewHashFromStrStrict_sound_witness :
  length (xab :: replicate 31 x00) = 32%nat /\
  length (replicate 62 x30 ++ [x41; x62]) = 64%nat /\
  Hash_String (xab :: replicate 31 x00) = map lower_hex (replicate 62 x30 ++ [x41; x62]).
Proof. apply NewHashFromStrStrict_sound. vm_compute. reflexivity. Defined.

(** The lenient parser reads a short or odd string as the strict parser
    reads the same string padded with zero digits on the left. *)
Theorem NewHashFromStr_pads str :
  len str <= MaxHashStringSize ->
  NewHashFromStr str =
    NewHashFromStrStrict (replicate (64 - length str) (z2b 48) ++ str).
Proof.
  intros Hl. unfold NewHashFromStr, NewHashFromStrStrict, Hash_Decode, Hash_DecodeStrict.
  case_bool; [lia|]. unfold len in *. unfold MaxHashStringSize, chainhash_HashSize in *.
  rewrite length_app, length_replicate.
  destruct (Z.eqb_spec (Z.of_nat (64 - length str + length str)) (32 * 2)); [|lia].
  cbn [negb]. cbv zeta.
  set (src := if Z.of_nat (length str) mod 2 =? 0 then str else z2b 48 :: str).
  assert (Hsrc : exists n, (2 * n + length src = 64)%nat /\
    replicate (64 - length str) (z2b 48) ++ str = replicate (2 * n) (z2b 48) ++ src).
  { unfold src. destruct (Z.eqb_spec (Z.of_nat (length str) mod 2) 0) as [E|E].
    - exists (Z.to_nat (32 - Z.of_nat (length str) / 2)).
      split; [|f_equal; f_equal]; Z.div_mod_to_equations; lia.
    - exists (Z.to_nat (31 - Z.of_nat (length str) / 2)). simpl length.
      split; [Z.div_mod_to_equations; lia|].
      replace (64 - length str)%nat with
        (2 * Z.to_nat (31 - Z.of_nat (length str) / 2) + 1)%nat
        by (Z.div_mod_to_equations; lia).
      rewrite replicate_add, <- app_assoc. done. }
  destruct Hsrc as (n & Hn & ->).
  destruct (hex_Decode src) as [bs|er] eqn:E.
  - pose proof (length_hex_Decode _ _ E) as Hb.
    rewrite (decodeHash_rev _ _ bs); [|done|lia|done].
    rewrite (decodeHash_rev _ _ (replicate n x00 ++ bs)); [|done| |].
    + rewrite rev_app_distr, length_app, length_replicate.
      rewrite rev_replicate, <- app_assoc, <- replicate_add. f_equal. f_equal. f_equal. lia.
    + rewrite length_app, length_replicate. lia.
    + by rewrite hex_Decode_zeros, E.
  - unfold decodeHash. by rewrite hex_Decode_zeros, E.
Qed.

Lemma NewHashFromStr_pads_witness :
  NewHashFromStr (bytes_of "abc") =
    NewHashFromStrStrict (replicate 61 (z2b 48) ++ bytes_of "abc").
Proof. apply (NewHashFromStr_pads (bytes_of "abc")). vm_compute. congruence. Defined.

(** the table of precomputed tag hashes is invisible: [TaggedHash] is
    SHA-256 of the tag's hash twice and the messages, for every tag. *)
Theorem TaggedHash_spec tag msgs :
  TaggedHash tag msgs =
    HashH (HashB tag ++ HashB tag ++ concat msgs) /\
  length (TaggedHash tag msgs) = 32%nat.
Proof.
  split; [|apply length_sha256_Sum256].
  unfold TaggedHash, precomputedTags, HashH, HashB.
  assert (Ha : forall l, match assoc tag (map (fun t => (t, sha256_Sum256 t)) l) with
                 | Some h => h | None => sha256_Sum256 tag end = sha256_Sum256 tag).
  { induction l as [|t l IH]; [done|]. cbn [map assoc]. by destruct (decide (tag = t)) as [->|]. }
  by rewrite Ha.
Qed.
