(* ===== verification/WireBlock.v ===== *)
(** * wire/blockheader.go, wire/msgblock.go and wire/invvect.go

    A [time.Time] is its Unix time in seconds.  Block decoding is the header,
    a bounded count and one [MsgTx_btcDecode] per transaction, each with the
    whole script slab. *)

From Stdlib Require Import ZArith Lia.
From S2P Require Import Prelude WireCommon WireTx ChainHash.

(** ** Headers *)

Record BlockHeader : Type := mkBlockHeader {
  Header_Version : Z;
  Header_PrevBlock : list byte;
  Header_MerkleRoot : list byte;
  Header_Timestamp : Z;
  Header_Bits : Z;
  Header_Nonce : Z;
}.

Definition blockHeaderLen : Z := 80.
Definition MaxBlockHeaderPayload : Z := 16 + chainhash_HashSize * 2.

Definition readBlockHeaderBuf (pver : Z) : Reader BlockHeader :=
  version ← read_u32;
  prev ← ReadFull chainhash_HashSize;
  root ← ReadFull chainhash_HashSize;
  stamp ← read_u32;
  bits ← read_u32;
  nonce ← read_u32;
  mret (mkBlockHeader (to_signed 32 version) prev root stamp bits nonce).
Definition readBlockHeader (pver : Z) : Reader BlockHeader := readBlockHeaderBuf pver.

Definition writeBlockHeaderBuf (pver : Z) (bh : BlockHeader) : list byte :=
  le_put 4 (wrap_u32 (Header_Version bh)) ++
  Header_PrevBlock bh ++
  Header_MerkleRoot bh ++
  le_put 4 (wrap_u32 (Header_Timestamp bh)) ++
  le_put 4 (Header_Bits bh) ++
  le_put 4 (Header_Nonce bh).
Definition writeBlockHeader (pver : Z) (bh : BlockHeader) : list byte :=
  writeBlockHeaderBuf pver bh.

Definition BlockHeader_BtcDecode (pver : Z) (enc : MessageEncoding) : Reader BlockHeader :=
  readBlockHeader pver.
Definition BlockHeader_BtcEncode (pver : Z) (enc : MessageEncoding) (h : BlockHeader)
    : list byte := writeBlockHeader pver h.
Definition BlockHeader_Deserialize : Reader BlockHeader := readBlockHeader 0.
Definition BlockHeader_Serialize (h : BlockHeader) : list byte := writeBlockHeader 0 h.
Definition BlockHeader_BlockHash (h : BlockHeader) : list byte :=
  DoubleHashRaw (writeBlockHeader 0 h).

(** [now] is [time.Now().Unix()]. *)
Definition NewBlockHeader (now version : Z) (prevHash merkleRootHash : list byte)
    (bits nonce : Z) : BlockHeader :=
  mkBlockHeader version prevHash merkleRootHash now bits nonce.

(** ** Transaction hashes (wire/msgtx.go) *)

Definition MsgTx_TxHash (msg : MsgTx) : list byte :=
  DoubleHashRaw (MsgTx_SerializeNoWitness msg).
Definition MsgTx_TxID (msg : MsgTx) : list byte := Hash_String (MsgTx_TxHash msg).
Definition MsgTx_WitnessHash (msg : MsgTx) : list byte :=
  if MsgTx_HasWitness msg then DoubleHashRaw (MsgTx_Serialize msg) else MsgTx_TxHash msg.

(** ** Blocks *)

Record MsgBlock : Type := mkMsgBlock {
  MsgBlock_Header : BlockHeader;
  MsgBlock_Transactions : list MsgTx;
}.

Record TxLoc : Type := mkTxLoc { TxStart : Z; TxLen : Z }.

Definition MaxBlocksPerMsg : Z := 500.
Definition MaxBlockPayload : Z := 4000000.
Definition minTxPayload : Z := 10.
Definition maxTxPerBlock : Z := MaxBlockPayload / minTxPayload + 1.

Definition MsgBlock_AddTransaction (msg : MsgBlock) (tx : MsgTx) : MsgBlock :=
  mkMsgBlock (MsgBlock_Header msg) (MsgBlock_Transactions msg ++ [tx]).
Definition MsgBlock_ClearTransactions (msg : MsgBlock) : MsgBlock :=
  mkMsgBlock (MsgBlock_Header msg) [].
Definition MsgBlock_Copy (msg : MsgBlock) : MsgBlock :=
  mkMsgBlock (MsgBlock_Header msg) (map MsgTx_Copy (MsgBlock_Transactions msg)).
Definition NewMsgBlock (blockHeader : BlockHeader) : MsgBlock := mkMsgBlock blockHeader [].

Definition MsgBlock_BtcDecode (pver : Z) (enc : MessageEncoding) : Reader MsgBlock :=
  header ← readBlockHeaderBuf pver;
  txs ← (txCount ← ReadVarIntBuf pver;
         if maxTxPerBlock <? txCount then fail (MessageError "MsgBlock.BtcDecode")
         else read_loop (MsgTx_btcDecode pver enc scriptSlabSize) push
                (Z.to_nat txCount) []);
  mret (mkMsgBlock header txs).

Definition MsgBlock_Deserialize : Reader MsgBlock := MsgBlock_BtcDecode 0 WitnessEncoding.
Definition MsgBlock_DeserializeNoWitness : Reader MsgBlock :=
  MsgBlock_BtcDecode 0 BaseEncoding.

(** [r.Len()] *)
Definition r_Len : Reader Z := fun r => Ok (len r, r).

Fixpoint txloc_loop (fullLen : Z) (count : nat) (txs : list MsgTx) (locs : list TxLoc)
    : Reader (list MsgTx * list TxLoc) :=
  match count with
  | O => mret (txs, locs)
  | S n =>
      before ← r_Len;
      tx ← MsgTx_btcDecode 0 WitnessEncoding scriptSlabSize;
      after ← r_Len;
      let start := fullLen - before in
      txloc_loop fullLen n (txs ++ [tx]) (locs ++ [mkTxLoc start (fullLen - after - start)])
  end.

Definition MsgBlock_DeserializeTxLoc : Reader (MsgBlock * list TxLoc) :=
  fullLen ← r_Len;
  header ← readBlockHeaderBuf 0;
  txCount ← ReadVarIntBuf 0;
  if maxTxPerBlock <? txCount then fail (MessageError "MsgBlock.DeserializeTxLoc")
  else
    r ← txloc_loop fullLen (Z.to_nat txCount) [] [];
    mret (mkMsgBlock header r.1, r.2).

Definition MsgBlock_BtcEncode (pver : Z) (enc : MessageEncoding) (msg : MsgBlock)
    : list byte :=
  writeBlockHeaderBuf pver (MsgBlock_Header msg) ++
  WriteVarIntBuf pver (len (MsgBlock_Transactions msg)) ++
  write_all (MsgTx_btcEncode pver enc) (MsgBlock_Transactions msg).

Definition MsgBlock_Serialize (msg : MsgBlock) : list byte :=
  MsgBlock_BtcEncode 0 WitnessEncoding msg.
Definition MsgBlock_SerializeNoWitness (msg : MsgBlock) : list byte :=
  MsgBlock_BtcEncode 0 BaseEncoding msg.

Definition MsgBlock_SerializeSize (msg : MsgBlock) : Z :=
  blockHeaderLen + VarIntSerializeSize (len (MsgBlock_Transactions msg)) +
  sum_Z MsgTx_SerializeSize (MsgBlock_Transactions msg).
Definition MsgBlock_SerializeSizeStripped (msg : MsgBlock) : Z :=
  blockHeaderLen + VarIntSerializeSize (len (MsgBlock_Transactions msg)) +
  sum_Z MsgTx_SerializeSizeStripped (MsgBlock_Transactions msg).

Definition MsgBlock_BlockHash (msg : MsgBlock) : list byte :=
  BlockHeader_BlockHash (MsgBlock_Header msg).
Definition MsgBlock_TxHashes (msg : MsgBlock) : list (list byte) :=
  map MsgTx_TxHash (MsgBlock_Transactions msg).

(** ** Inventory vectors *)

Record InvVect : Type := mkInvVect { Inv_Type : Z; Inv_Hash : list byte }.

Definition MaxInvPerMsg : Z := 50000.
Definition maxInvVectPayload : Z := 4 + chainhash_HashSize.
Definition InvWitnessFlag : Z := Z.shiftl 1 30.
Definition InvTypeError : Z := 0.
Definition InvTypeTx : Z := 1.
Definition InvTypeBlock : Z := 2.
Definition InvTypeFilteredBlock : Z := 3.
Definition InvTypeWitnessBlock : Z := Z.lor InvTypeBlock InvWitnessFlag.
Definition InvTypeWitnessTx : Z := Z.lor InvTypeTx InvWitnessFlag.
Definition InvTypeFilteredWitnessBlock : Z := Z.lor InvTypeFilteredBlock InvWitnessFlag.

Definition NewInvVect (typ : Z) (hash : list byte) : InvVect := mkInvVect typ hash.

Definition readInvVectBuf (pver : Z) : Reader InvVect :=
  typ ← read_u32;
  hash ← ReadFull chainhash_HashSize;
  mret (mkInvVect typ hash).

Definition writeInvVectBuf (pver : Z) (iv : InvVect) : list byte :=
  le_put 4 (Inv_Type iv) ++ Inv_Hash iv.

(** * Specification *)

Definition BlockHeader_ok (bh : BlockHeader) : Prop :=
  i32_ok (Header_Version bh) /\ len (Header_PrevBlock bh) = chainhash_HashSize /\
  len (Header_MerkleRoot bh) = chainhash_HashSize /\ u32_ok (Header_Timestamp bh) /\
  u32_ok (Header_Bits bh) /\ u32_ok (Header_Nonce bh).

Definition InvVect_ok (iv : InvVect) : Prop :=
  u32_ok (Inv_Type iv) /\ len (Inv_Hash iv) = chainhash_HashSize.

Definition MsgBlock_ok (enc : MessageEncoding) (msg : MsgBlock) : Prop :=
  BlockHeader_ok (MsgBlock_Header msg) /\
  len (MsgBlock_Transactions msg) <= maxTxPerBlock /\
  Forall (MsgTx_ok enc scriptSlabSize) (MsgBlock_Transactions msg).

Definition normalize_block (enc : MessageEncoding) (msg : MsgBlock) : MsgBlock :=
  mkMsgBlock (MsgBlock_Header msg) (map (normalize enc) (MsgBlock_Transactions msg)).

(** * Proofs *)

#[export] Instance InvVect_codec pver :
  Codec (readInvVectBuf pver) (writeInvVectBuf pver) InvVect_ok.
Proof.
  split.
  - intros [t h] [Ht Hh]. simpl in *. eapply reads_bind; [by apply codec_reads|].
    eapply reads_bind_ret; [by apply reads_ReadFull|apply reads_ret].
  - intros bs a rest H. unfold readInvVectBuf in H. exact_tac.
    unfold writeInvVectBuf, InvVect_ok. simpl. by rewrite <- app_assoc.
Qed.

#[export] Instance BlockHeader_codec pver :
  Codec (readBlockHeaderBuf pver) (writeBlockHeaderBuf pver) BlockHeader_ok.
Proof.
  split.
  - intros [v p r t b n] (Hv & Hp & Hr & Ht & Hb & Hn).
    cbn [Header_Version Header_PrevBlock Header_MerkleRoot Header_Timestamp
         Header_Bits Header_Nonce] in *.
    unfold readBlockHeaderBuf, writeBlockHeaderBuf. simpl. unfold wrap_u32.
    rewrite (Z.mod_small t) by lia.
    eapply reads_bind; [apply codec_reads; apply Z.mod_pos_bound; lia|].
    eapply reads_bind; [by apply reads_ReadFull|].
    eapply reads_bind; [by apply reads_ReadFull|].
    eapply reads_bind; [by apply codec_reads|].
    eapply reads_bind; [by apply codec_reads|].
    eapply reads_bind_ret; [by apply codec_reads|].
    rewrite (to_signed_mod 32) by lia. apply reads_ret.
  - intros bs a rest H. unfold readBlockHeaderBuf in H. exact_tac.
    unfold writeBlockHeaderBuf, BlockHeader_ok. simpl.
    match goal with |- context [to_signed 32 ?v] =>
      destruct (to_signed_range 32 v) as [Hrr Hm]; [lia..|] end.
    unfold wrap_u32. rewrite Hm, Z.mod_small by lia. rewrite <- !app_assoc.
    split; [|done]. split_and!; done || lia.
Qed.

Lemma len_writeBlockHeaderBuf pver bh :
  BlockHeader_ok bh -> len (writeBlockHeaderBuf pver bh) = blockHeaderLen.
Proof.
  intros (_ & Hp & Hr & _). unfold writeBlockHeaderBuf.
  by rewrite !len_app, !len_le_put, Hp, Hr.
Qed.

(** A transaction in normal form is well formed and encodes alike. *)
Lemma normalize_facts enc msg :
  MsgTx_ok enc scriptSlabSize msg ->
  MsgTx_ok enc scriptSlabSize (normalize enc msg) /\
  normalize enc (normalize enc msg) = normalize enc msg /\
  forall pver, MsgTx_btcEncode pver enc (normalize enc msg) = MsgTx_btcEncode pver enc msg.
Proof.
  intros Hok.
  assert (H : forall pver, MsgTx_ok enc scriptSlabSize (normalize enc msg) /\
    normalize enc (normalize enc msg) = normalize enc msg /\
    MsgTx_btcEncode pver enc msg = MsgTx_btcEncode pver enc (normalize enc msg) ++ []).
  { intros pver. pose proof (MsgTx_parse_reads pver _ _ _ Hok []) as Hp.
    apply MsgTx_parse_exact in Hp as (? & ? & _ & Hb); [|done].
    rewrite app_nil_r in Hb. auto. }
  split; [apply (H 0)|]. split; [apply (H 0)|].
  intros pver. destruct (H pver) as (_ & _ & ->). by rewrite app_nil_r.
Qed.

Definition tx_normal (enc : MessageEncoding) (msg : MsgTx) : Prop :=
  MsgTx_ok enc scriptSlabSize msg /\ normalize enc msg = msg.

#[export] Instance MsgTx_btcDecode_codec pver enc :
  Codec (MsgTx_btcDecode pver enc scriptSlabSize) (MsgTx_btcEncode pver enc) (tx_normal enc).
Proof. exact (MsgTx_codec pver enc). Qed.

#[export] Instance MsgBlock_codec pver enc :
  Codec (MsgBlock_BtcDecode pver enc) (MsgBlock_BtcEncode pver enc)
    (fun msg => BlockHeader_ok (MsgBlock_Header msg) /\
       len (MsgBlock_Transactions msg) <= maxTxPerBlock /\
       Forall (tx_normal enc) (MsgBlock_Transactions msg)).
Proof.
  pose proof (counted_codec (MsgTx_btcDecode pver enc scriptSlabSize)
    (MsgTx_btcEncode pver enc) (tx_normal enc) push maxTxPerBlock
    (push_appends maxTxPerBlock) pver (MessageError "MsgBlock.BtcDecode") eq_refl) as HC.
  split.
  - intros [h txs] (Hh & Htxs). simpl in *.
    eapply reads_bind; [by apply codec_reads|].
    eapply reads_bind_ret; [by apply (codec_reads (Codec := HC))|apply reads_ret].
  - intros bs a rest H. unfold MsgBlock_BtcDecode in H.
    inv_read H as h mid H1. apply codec_inv in H1 as [Hh ->].
    inv_read H as txs mid1 H2. apply (codec_inv (HC := HC)) in H2 as [Htxs ->].
    apply mret_Ok in H as [-> ->]. simpl. split; [done|].
    unfold MsgBlock_BtcEncode. simpl. by rewrite <- !app_assoc.
Qed.

Lemma normalize_block_facts enc msg :
  MsgBlock_ok enc msg ->
  (BlockHeader_ok (MsgBlock_Header (normalize_block enc msg)) /\
   len (MsgBlock_Transactions (normalize_block enc msg)) <= maxTxPerBlock /\
   Forall (tx_normal enc) (MsgBlock_Transactions (normalize_block enc msg))) /\
  forall pver, MsgBlock_BtcEncode pver enc (normalize_block enc msg) =
    MsgBlock_BtcEncode pver enc msg.
Proof.
  destruct msg as [h txs]. intros (Hh & Hl & Htxs). simpl in *.
  assert (He : forall pver, write_all (MsgTx_btcEncode pver enc) (map (normalize enc) txs) =
    write_all (MsgTx_btcEncode pver enc) txs).
  { intros pver. induction Htxs as [|tx txs Htx _ IH]; [done|].
    cbn [map]. rewrite !write_all_cons, IH.
    - by rewrite (proj2 (proj2 (normalize_facts _ _ Htx))).
    - unfold len in *. simpl in Hl. lia. }
  split.
  - unfold len in *. rewrite length_map. split; [done|]. split; [done|].
    rewrite Forall_map. eapply Forall_impl; [|exact Htxs].
    intros tx Htx. destruct (normalize_facts _ _ Htx) as (? & ? & _). by split.
  - intros pver. unfold MsgBlock_BtcEncode. simpl. rewrite He. unfold len.
    by rewrite length_map.
Qed.

Lemma MsgTx_roundtrip_raw pver enc msg rest :
  MsgTx_ok enc scriptSlabSize msg ->
  MsgTx_btcDecode pver enc scriptSlabSize (MsgTx_btcEncode pver enc msg ++ rest) =
    Ok (normalize enc msg, rest).
Proof.
  intros Hok. destruct (normalize_facts _ _ Hok) as (Ho & Hn & He).
  rewrite <- He. by apply (codec_reads (Codec := MsgTx_btcDecode_codec pver enc)).
Qed.

(** The locations are relative to the whole input [pre ++ bs]. *)
Lemma txloc_loop_reads fullLen pre txs locs txs0 rest :
  Forall (MsgTx_ok WitnessEncoding scriptSlabSize) txs ->
  fullLen = len (pre ++ write_all (MsgTx_btcEncode 0 WitnessEncoding) txs ++ rest) ->
  exists locs',
    txloc_loop fullLen (length txs) txs0 locs
      (write_all (MsgTx_btcEncode 0 WitnessEncoding) txs ++ rest) =
      Ok ((txs0 ++ map (normalize WitnessEncoding) txs, locs ++ locs'), rest) /\
    Forall2 (fun loc tx =>
        bytes_at (pre ++ write_all (MsgTx_btcEncode 0 WitnessEncoding) txs ++ rest)
          (TxStart loc) (TxLen loc) = MsgTx_Serialize tx) locs' txs.
Proof.
  revert pre locs txs0. induction txs as [|tx txs IH]; intros pre locs txs0 Hok Hfull.
  - exists []. rewrite !app_nil_r. by split.
  - inversion_clear Hok as [|?? Htx Hrest]. rewrite write_all_cons in Hfull |- *.
    set (e := MsgTx_btcEncode 0 WitnessEncoding tx) in *.
    set (es := write_all (MsgTx_btcEncode 0 WitnessEncoding) txs) in *.
    set (loc := mkTxLoc (fullLen - len (e ++ es ++ rest))
                  (fullLen - len (es ++ rest) - (fullLen - len (e ++ es ++ rest)))).
    destruct (IH (pre ++ e) (locs ++ [loc]) (txs0 ++ [normalize WitnessEncoding tx]))
      as (locs' & Hloop & Hlocs); [done| |].
    { rewrite Hfull, <- !app_assoc. done. }
    exists (loc :: locs'). rewrite <- !app_assoc in *. split.
    + cbn [length txloc_loop map]. unfold mbind, reader_bind, r_Len.
      pose proof (MsgTx_roundtrip_raw 0 WitnessEncoding tx (es ++ rest) Htx) as Hr.
      fold e in Hr. rewrite Hr. cbv beta iota zeta. fold loc. by rewrite Hloop.
    + constructor; [|done]. unfold loc. cbn [TxStart TxLen].
      rewrite !len_app. rewrite !len_app in Hfull.
      replace (fullLen - (len e + (len es + len rest))) with (len pre) by lia.
      replace (fullLen - (len es + len rest) - len pre) with (len e) by lia.
      apply bytes_at_app.
Qed.

(** * Properties *)

(** decoding the encoding of a block gives the block with its transactions
    in normal form and leaves the rest; and an input that decodes is the encoding
    of the block it decodes to, in both encodings. *)
Theorem MsgBlock_roundtrip pver enc :
  (forall msg rest, MsgBlock_ok enc msg ->
     MsgBlock_BtcDecode pver enc (MsgBlock_BtcEncode pver enc msg ++ rest) =
       Ok (normalize_block enc msg, rest)) /\
  (forall bs msg rest, MsgBlock_BtcDecode pver enc bs = Ok (msg, rest) ->
     MsgBlock_ok enc msg /\ normalize_block enc msg = msg /\
     bs = MsgBlock_BtcEncode pver enc msg ++ rest).
Proof.
  split.
  - intros msg rest Hok. destruct (normalize_block_facts _ _ Hok) as [Hn He].
    rewrite <- He. by apply codec_reads.
  - intros bs msg rest H. apply codec_inv in H as [(Hh & Hl & Htxs) ->].
    destruct msg as [h txs]. simpl in *. split; [split; [done|split; [done|]]|split; [|done]].
    + eapply Forall_impl; [|exact Htxs]. by intros tx [? _].
    + unfold normalize_block. simpl. f_equal. clear Hl.
      induction Htxs as [|tx txs [_ Hn] _ IH]; [done|]. simpl. by rewrite Hn, IH.
Qed.

Definition block_example : MsgBlock :=
  mkMsgBlock (mkBlockHeader 1 (replicate 32 x01) (replicate 32 x02) 3 4 5)
    [tx_example; mkMsgTx 1 [mkTxIn (mkOutPoint zeroHash 0xffffffff) [x01] None 0]
                   [mkTxOut 0 []] 0].

Lemma block_example_ok : MsgBlock_ok WitnessEncoding block_example.
Proof.
  split; [concrete|]. split; [concrete|].
  constructor; [exact tx_example_ok|]. constructor; [|constructor].
  split; lazymatch goal with |- _ = _ -> _ => done | _ => concrete end.
Defined.

Lemma MsgBlock_roundtrip_witness :
  MsgBlock_BtcDecode 7 WitnessEncoding
    (MsgBlock_BtcEncode 7 WitnessEncoding block_example ++ [xff]) =
  Ok (normalize_block WitnessEncoding block_example, [xff]).
Proof. apply (proj1 (MsgBlock_roundtrip 7 WitnessEncoding)). exact block_example_ok. Defined.

(** [DeserializeTxLoc] of a serialized block returns the block [Deserialize]
    returns together with the position and the length of every transaction: the
    bytes at each location are that transaction's serialization. *)
Theorem MsgBlock_DeserializeTxLoc_correct msg rest :
  MsgBlock_ok WitnessEncoding msg ->
  exists locs,
    MsgBlock_DeserializeTxLoc (MsgBlock_Serialize msg ++ rest) =
      Ok ((normalize_block WitnessEncoding msg, locs), rest) /\
    Forall2 (fun loc tx =>
        bytes_at (MsgBlock_Serialize msg ++ rest) (TxStart loc) (TxLen loc) =
          MsgTx_Serialize tx) locs (MsgBlock_Transactions msg).
Proof.
  destruct msg as [h txs]. intros (Hh & Hl & Htxs). simpl in Hh, Hl, Htxs.
  unfold MsgBlock_Serialize, MsgBlock_BtcEncode. cbn [MsgBlock_Header MsgBlock_Transactions].
  set (hd := writeBlockHeaderBuf 0 h). set (ct := WriteVarIntBuf 0 (len txs)).
  set (body := write_all (MsgTx_btcEncode 0 WitnessEncoding) txs).
  destruct (txloc_loop_reads (len (hd ++ ct ++ body ++ rest)) (hd ++ ct) txs [] [] rest Htxs)
    as (locs & Hloop & Hlocs).
  { by rewrite <- !app_assoc. }
  exists locs. fold body in Hloop, Hlocs. rewrite <- !app_assoc in *. split; [|done].
  unfold MsgBlock_DeserializeTxLoc. unfold mbind, reader_bind, r_Len at 1.
  rewrite (codec_reads (Codec := BlockHeader_codec 0) h Hh).
  rewrite (codec_reads (Codec := VarInt_codec 0) (len txs));
    [|apply (counted_len_ok _ _ Hl eq_refl)].
  destruct (Z.ltb_spec maxTxPerBlock (len txs)); [lia|]. rewrite to_nat_len.
  rewrite Hloop. done.
Qed.

Lemma MsgBlock_DeserializeTxLoc_correct_witness :
  exists locs,
    MsgBlock_DeserializeTxLoc (MsgBlock_Serialize block_example ++ [x05]) =
      Ok ((normalize_block WitnessEncoding block_example, locs), [x05]) /\
    Forall2 (fun loc tx =>
        bytes_at (MsgBlock_Serialize block_example ++ [x05]) (TxStart loc) (TxLen loc) =
          MsgTx_Serialize tx) locs (MsgBlock_Transactions block_example).
Proof. apply MsgBlock_DeserializeTxLoc_correct. exact block_example_ok. Defined.

(** the computed block sizes are the numbers of bytes written. *)
Theorem MsgBlock_SerializeSize_correct msg :
  BlockHeader_ok (MsgBlock_Header msg) ->
  Forall (fun tx => Forall TxIn_ok (MsgTx_TxIn tx)) (MsgBlock_Transactions msg) ->
  len (MsgBlock_Serialize msg) = MsgBlock_SerializeSize msg /\
  len (MsgBlock_SerializeNoWitness msg) = MsgBlock_SerializeSizeStripped msg.
Proof.
  intros Hh Htxs. unfold MsgBlock_Serialize, MsgBlock_SerializeNoWitness, MsgBlock_BtcEncode.
  rewrite !len_app, !len_writeBlockHeaderBuf, !length_WriteVarIntBuf
    by (apply len_nonneg || done).
  unfold MsgBlock_SerializeSize, MsgBlock_SerializeSizeStripped.
  assert (Hs : forall tx, tx ∈ MsgBlock_Transactions msg ->
    len (MsgTx_Serialize tx) = MsgTx_SerializeSize tx /\
    len (MsgTx_SerializeNoWitness tx) = MsgTx_SerializeSizeStripped tx).
  { intros tx Hin. apply tx_sizes. rewrite Forall_forall in Htxs.
    by apply Htxs, list_elem_of_In. }
  change (MsgTx_btcEncode 0 WitnessEncoding) with MsgTx_Serialize.
  change (MsgTx_btcEncode 0 BaseEncoding) with MsgTx_SerializeNoWitness.
  rewrite (len_write_all_sum _ MsgTx_SerializeSize) by (intros; by apply Hs).
  rewrite (len_write_all_sum _ MsgTx_SerializeSizeStripped) by (intros; by apply Hs).
  lia.
Qed.

Lemma MsgBlock_SerializeSize_correct_witness :
  len (MsgBlock_Serialize block_example) = MsgBlock_SerializeSize block_example /\
  len (MsgBlock_SerializeNoWitness block_example) =
    MsgBlock_SerializeSizeStripped block_example.
Proof.
  apply MsgBlock_SerializeSize_correct; [apply block_example_ok|].
  repeat constructor; apply tx_example_ok || concrete.
Defined.

(** the transaction hash does not depend on the witnesses: transactions
    that differ in nothing else have the same hash, and a transaction without
    witnesses has its hash as witness hash. *)
Theorem MsgTx_TxHash_witness_independent msg msg' :
  MsgTx_Version msg = MsgTx_Version msg' -> MsgTx_LockTime msg = MsgTx_LockTime msg' ->
  MsgTx_TxOut msg = MsgTx_TxOut msg' ->
  map (fun ti => with_witness ti None) (MsgTx_TxIn msg) =
    map (fun ti => with_witness ti None) (MsgTx_TxIn msg') ->
  MsgTx_TxHash msg = MsgTx_TxHash msg' /\
  (MsgTx_HasWitness msg' = false -> MsgTx_WitnessHash msg' = MsgTx_TxHash msg).
Proof.
  intros Hv Hlt Hout Hin.
  assert (Hs : MsgTx_SerializeNoWitness msg = MsgTx_SerializeNoWitness msg').
  { unfold MsgTx_SerializeNoWitness, MsgTx_BtcEncode, MsgTx_btcEncode. simpl.
    rewrite Hv, Hlt, Hout, <- (writeTxIn_no_wit _ _ (MsgTx_TxIn msg)), Hin, writeTxIn_no_wit.
    assert (len (MsgTx_TxIn msg) = len (MsgTx_TxIn msg')) as ->; [|done].
    unfold len. by rewrite <- (length_map (fun ti => with_witness ti None)), Hin, length_map. }
  unfold MsgTx_WitnessHash, MsgTx_TxHash. rewrite Hs. split; [done|]. by intros ->.
Qed.

Lemma MsgTx_TxHash_witness_independent_witness :
  MsgTx_TxHash tx_example = MsgTx_TxHash (normalize BaseEncoding tx_example) /\
  (MsgTx_HasWitness (normalize BaseEncoding tx_example) = false ->
   MsgTx_WitnessHash (normalize BaseEncoding tx_example) = MsgTx_TxHash tx_example).
Proof. apply MsgTx_TxHash_witness_independent; reflexivity. Defined.
