(* ===== verification/WireNet.v ===== *)
(** * wire/netaddress.go, wire/netaddressv2.go, wire/protocol.go

    Peer addresses.  A [net.IP] is a byte list, empty for nil, a [time.Time] its
    Unix seconds; [IP_To16] is [net.IP.To16] of the standard library. *)

From Stdlib Require Import ZArith Lia.
From S2P Require Import Prelude WireCommon WireTx.

(** ** Protocol versions and service flags *)

Definition ProtocolVersion : Z := 70016.
Definition MultipleAddressVersion : Z := 209.
Definition NetAddressTimeVersion : Z := 31402.
Definition BIP0031Version : Z := 60000.
Definition BIP0035Version : Z := 60002.
Definition BIP0037Version : Z := 70001.
Definition RejectVersion : Z := 70002.
Definition SendHeadersVersion : Z := 70012.
Definition FeeFilterVersion : Z := 70013.
Definition AddrV2Version : Z := 70016.

Definition ServiceFlag_HasFlag (f s : Z) : bool := Z.land f s =? s.

(** ** Legacy addresses *)

Record NetAddress : Type := mkNetAddress {
  NA_Timestamp : Z;
  NA_Services : Z;
  NA_IP : list byte;
  NA_Port : Z;
}.

(** The Unix time of [time.Time{}], and the zero [NetAddress]. *)
Definition zeroTime : Z := -62135596800.
Definition zeroNetAddress : NetAddress := mkNetAddress zeroTime 0 [] 0.

Definition v4InV6Prefix : list byte := replicate 10 x00 ++ [xff; xff].

Definition IP_To16 (ip : list byte) : list byte :=
  if len ip =? 4 then v4InV6Prefix ++ ip else if len ip =? 16 then ip else [].

(** [var a [n]byte; copy(a[:], x)] *)
Definition copy_array (n : nat) (x : list byte) : list byte :=
  take n x ++ replicate (n - length x) x00.

Definition maxNetAddressPayload (pver : Z) : Z :=
  let plen := 26 in
  if NetAddressTimeVersion <=? pver then plen + 4 else plen.

Definition NetAddress_HasService (na : NetAddress) (service : Z) : bool :=
  Z.land (NA_Services na) service =? service.
Definition NetAddress_AddService (na : NetAddress) (service : Z) : NetAddress :=
  mkNetAddress (NA_Timestamp na) (Z.lor (NA_Services na) service) (NA_IP na) (NA_Port na).

Definition readNetAddressBuf (pver : Z) (ts : bool) : Reader NetAddress :=
  timestamp ← (if ts && (NetAddressTimeVersion <=? pver) then read_u32 else mret zeroTime);
  services ← read_u64;
  ip ← ReadFull 16;
  port ← binarySerializer_Uint16 bigEndian;
  mret (mkNetAddress timestamp services ip port).
Definition readNetAddress (pver : Z) (ts : bool) : Reader NetAddress :=
  readNetAddressBuf pver ts.

Definition writeNetAddressBuf (pver : Z) (ts : bool) (na : NetAddress) : list byte :=
  (if ts && (NetAddressTimeVersion <=? pver)
   then le_put 4 (wrap_u32 (NA_Timestamp na)) else []) ++
  le_put 8 (NA_Services na) ++
  copy_array 16 (if bool_decide (NA_IP na = []) then [] else IP_To16 (NA_IP na)) ++
  binarySerializer_PutUint16 bigEndian (NA_Port na).
Definition writeNetAddress (pver : Z) (ts : bool) (na : NetAddress) : list byte :=
  writeNetAddressBuf pver ts na.

(** ** Addresses of BIP155 *)

Inductive NetAddr : Type :=
| ipv4Addr (addr : list byte)
| ipv6Addr (addr : list byte)
| torv2Addr (addr : list byte)
| torv3Addr (addr : list byte).

Record NetAddressV2 : Type := mkNetAddressV2 {
  NA2_Timestamp : Z;
  NA2_Services : Z;
  NA2_Addr : option NetAddr;
  NA2_Port : Z;
}.

Definition id_ipv4 : Z := 1.
Definition id_ipv6 : Z := 2.
Definition id_torv2 : Z := 3.
Definition id_torv3 : Z := 4.
Definition id_i2p : Z := 5.
Definition id_cjdns : Z := 6.
Definition ipv4Size : Z := 4.
Definition ipv6Size : Z := 16.
Definition torv2Size : Z := 10.
Definition TorV3Size : Z := 32.
Definition i2pSize : Z := 32.
Definition cjdnsSize : Z := 16.
Definition maxAddrV2Size : Z := 512.

Definition maxNetAddressV2Payload : Z := 4 + 9 + 1 + 515 + 2.

Definition isKnownNetworkID (netID : Z) : bool := (id_ipv4 <=? netID) && (netID <=? id_cjdns).

(** [fd87:d87e:eb43::/48] *)
Definition onionCatPrefix : list byte := [xfd; x87; xd8; x7e; xeb; x43].
Definition isOnionCatTor (ip : list byte) : bool :=
  bool_decide (take 6 ip = onionCatPrefix).
Definition isIPv4Mapped (addr : list byte) : bool :=
  bool_decide (take 12 addr = v4InV6Prefix).

Definition NetAddressV2_HasService (na : NetAddressV2) (service : Z) : bool :=
  Z.land (NA2_Services na) service =? service.
Definition NetAddressV2_AddService (na : NetAddressV2) (service : Z) : NetAddressV2 :=
  mkNetAddressV2 (NA2_Timestamp na) (Z.lor (NA2_Services na) service) (NA2_Addr na)
    (NA2_Port na).

(** [None] is the nil pointer returned for a Tor v3 address. *)
Definition NetAddressV2_ToLegacy (na : NetAddressV2) : option NetAddress :=
  let legacy ip := Some (mkNetAddress (NA2_Timestamp na) (NA2_Services na) ip (NA2_Port na)) in
  match NA2_Addr na with
  | Some (ipv4Addr a) => legacy a
  | Some (ipv6Addr a) => legacy a
  | Some (torv2Addr a) => legacy (onionCatPrefix ++ a)
  | Some (torv3Addr _) => None
  | None => legacy []
  end.

Definition NetAddressV2_IsTorV3 (na : NetAddressV2) : bool :=
  match NA2_Addr na with Some (torv3Addr _) => true | _ => false end.

Definition NetAddressV2FromBytes (timestamp services : Z) (addrBytes : list byte)
    (port : Z) : NetAddressV2 :=
  let netAddr :=
    if len addrBytes =? ipv4Size then Some (ipv4Addr addrBytes)
    else if len addrBytes =? ipv6Size then
      if isOnionCatTor addrBytes then Some (torv2Addr (drop 6 addrBytes))
      else if isIPv4Mapped addrBytes then Some (ipv4Addr (drop 12 addrBytes))
      else Some (ipv6Addr addrBytes)
    else if len addrBytes =? torv2Size then Some (torv2Addr addrBytes)
    else if len addrBytes =? TorV3Size then Some (torv3Addr addrBytes)
    else None in
  mkNetAddressV2 timestamp services netAddr port.

Definition writeNetAddressV2 (pver : Z) (na : NetAddressV2)
    : result wire_error (list byte) :=
  let head := writeElement K_uint32 (wrap_u32 (NA2_Timestamp na)) ++
              WriteVarInt pver (NA2_Services na) in
  let body netID address :=
    Ok (head ++ writeElement K_uint8 netID ++ WriteVarInt pver (len address) ++
        address ++ order_put bigEndian 2 (NA2_Port na)) in
  match NA2_Addr na with
  | Some (ipv4Addr a) => body id_ipv4 a
  | Some (ipv6Addr a) => body id_ipv6 a
  | Some (torv2Addr a) => body id_torv2 a
  | Some (torv3Addr a) => body id_torv3 a
  | None => Err ErrUnexpectedAddressType
  end.

(** An address and a port of a network with addresses of [size] bytes. *)
Definition read_addr_port (size decodedSize : Z) : Reader (list byte * Z) :=
  if negb (decodedSize =? size) then fail ErrInvalidAddressSize
  else
    addr ← ReadFull size;
    port ← binarySerializer_Uint16 bigEndian;
    mret (addr, port).

(** The address of a network, once its identifier and its size are known.
    [None] stands for [ErrSkippedNetworkID]: the caller goes on reading after
    the address it skipped, so it is not a failure of the reader. *)
Definition read_network_address (timestamp services netID decodedSize : Z)
    : Reader (option NetAddressV2) :=
  let made mk := fun r : list byte * Z =>
    mkNetAddressV2 timestamp services (Some (mk r.1)) r.2 in
  if negb (isKnownNetworkID netID) then
    if maxAddrV2Size <? decodedSize then fail ErrInvalidAddressSize
    else _ ← ReadFull (decodedSize + 2); mret None
  else if netID =? id_ipv4 then
    r ← read_addr_port ipv4Size decodedSize; mret (Some (made ipv4Addr r))
  else if netID =? id_ipv6 then
    r ← read_addr_port ipv6Size decodedSize;
    if isOnionCatTor r.1 then mret None
    else if isIPv4Mapped r.1 then mret None
    else mret (Some (made ipv6Addr r))
  else if netID =? id_torv2 then
    r ← read_addr_port torv2Size decodedSize; mret (Some (made torv2Addr r))
  else if netID =? id_torv3 then
    r ← read_addr_port TorV3Size decodedSize; mret (Some (made torv3Addr r))
  else if netID =? id_i2p then
    r ← read_addr_port i2pSize decodedSize; mret None
  else
    r ← read_addr_port cjdnsSize decodedSize; mret None.

Definition readNetAddressV2 (pver : Z) : Reader (option NetAddressV2) :=
  timestamp ← readElement K_uint32Time;
  services ← ReadVarInt pver;
  netID ← readElement K_uint8;
  decodedSize ← ReadVarInt pver;
  read_network_address timestamp services netID decodedSize.

(** * Specification *)

Definition NetAddress_ok (pver : Z) (ts : bool) (na : NetAddress) : Prop :=
  (if ts && (NetAddressTimeVersion <=? pver) then u32_ok (NA_Timestamp na)
   else NA_Timestamp na = zeroTime) /\
  u64_ok (NA_Services na) /\ len (NA_IP na) = 16 /\ u16_ok (NA_Port na).

(** The addresses a legacy peer cannot be told about are kept out of [ipv6]. *)
Definition NetAddr_ok (a : NetAddr) : Prop :=
  match a with
  | ipv4Addr a => len a = ipv4Size
  | ipv6Addr a => len a = ipv6Size /\ isOnionCatTor a = false /\ isIPv4Mapped a = false
  | torv2Addr a => len a = torv2Size
  | torv3Addr a => len a = TorV3Size
  end.

Definition NetAddressV2_ok (na : NetAddressV2) : Prop :=
  u32_ok (NA2_Timestamp na) /\ u64_ok (NA2_Services na) /\ u16_ok (NA2_Port na) /\
  exists a, NA2_Addr na = Some a /\ NetAddr_ok a.

(** * Proofs *)

Lemma copy_array_full n x : length x = n -> copy_array n x = x.
Proof.
  intros H. unfold copy_array. rewrite take_ge by lia. rewrite H, Nat.sub_diag.
  apply app_nil_r.
Qed.

Lemma IP_copy ip :
  len ip = 16 -> copy_array 16 (if bool_decide (ip = []) then [] else IP_To16 ip) = ip.
Proof.
  intros H. rewrite bool_decide_eq_false_2 by (intros ->; done).
  unfold IP_To16. rewrite H. simpl. apply copy_array_full. unfold len in H. lia.
Qed.

Lemma len_copy_array n x : len (copy_array n x) = Z.of_nat n.
Proof. unfold len, copy_array. rewrite length_app, length_take, length_replicate. lia. Qed.

Lemma len_order_put o n z : len (order_put o n z) = Z.of_nat n.
Proof. unfold len. destruct o; simpl; by rewrite ?length_le_put, ?length_be_put. Qed.

#[export] Instance NetAddress_codec pver ts :
  Codec (readNetAddressBuf pver ts) (writeNetAddressBuf pver ts) (NetAddress_ok pver ts).
Proof.
  split.
  - intros [t s ip p] (Ht & Hs & Hip & Hp). unfold readNetAddressBuf, writeNetAddressBuf.
    simpl in *. rewrite IP_copy by done.
    eapply reads_bind with (a := t).
    { destruct (ts && _); [|subst t; apply reads_ret].
      unfold wrap_u32. rewrite Z.mod_small by lia. by apply codec_reads. }
    eapply reads_bind; [by apply codec_reads|].
    eapply reads_bind; [by apply reads_ReadFull|].
    eapply reads_bind_ret; [by apply codec_reads|apply reads_ret].
  - intros bs na rest H. unfold readNetAddressBuf in H.
    inv_read H as t mid H1.
    assert (Ht : (if ts && (NetAddressTimeVersion <=? pver) then u32_ok t else t = zeroTime) /\
      bs = (if ts && (NetAddressTimeVersion <=? pver) then le_put 4 (wrap_u32 t) else []) ++ mid).
    { destruct (ts && _).
      - apply codec_inv in H1 as [Ht ->]. unfold wrap_u32. by rewrite Z.mod_small by lia.
      - by apply mret_Ok in H1 as [-> ->]. }
    destruct Ht as [Ht ->]. clear H1. exact_tac.
    unfold writeNetAddressBuf, NetAddress_ok. simpl. rewrite IP_copy by done.
    rewrite <- !app_assoc. auto.
Qed.

Lemma len_writeNetAddressBuf pver ts na :
  len (writeNetAddressBuf pver ts na) <= maxNetAddressPayload pver.
Proof.
  unfold writeNetAddressBuf, maxNetAddressPayload, binarySerializer_PutUint16.
  rewrite !len_app, len_copy_array, len_le_put, len_order_put.
  destruct ts; simpl; case_bool; rewrite ?len_le_put; unfold len; simpl; lia.
Qed.

Lemma read_addr_port_reads size addr port :
  len addr = size -> u16_ok port ->
  reads (read_addr_port size (len addr)) (addr ++ order_put bigEndian 2 port) (addr, port).
Proof.
  intros <- Hp. unfold read_addr_port. rewrite Z.eqb_refl. simpl negb. cbv iota.
  eapply reads_bind; [by apply reads_ReadFull|].
  eapply reads_bind_ret; [by apply codec_reads|apply reads_ret].
Qed.

(** The fields of an address other than the address itself. *)
Definition v2_bytes (pver t s netID : Z) (x : list byte) (p : Z) : list byte :=
  (writeElement K_uint32 t ++ WriteVarInt pver s) ++
  writeElement K_uint8 netID ++ WriteVarInt pver (len x) ++ x ++ order_put bigEndian 2 p.

Lemma len_v2_bytes pver t s netID x p :
  0 <= s -> len x <= 32 -> len (v2_bytes pver t s netID x p) <= maxNetAddressV2Payload.
Proof.
  intros Hs Hx. unfold v2_bytes, WriteVarInt. simpl.
  unfold binarySerializer_PutUint32. cbn [order_put]. rewrite !len_app, !len_le_put.
  rewrite !length_WriteVarIntBuf by (apply len_nonneg || done).
  change (be_put 2 p) with (order_put bigEndian 2 p). rewrite len_order_put.
  pose proof (VarIntSerializeSize_bounds s).
  pose proof (VarIntSerializeSize_bounds (len x)).
  unfold MaxVarIntPayload, maxNetAddressV2Payload in *. lia.
Qed.

Lemma v2_bytes_reads pver t s netID x p r :
  u32_ok t -> u64_ok s -> 1 <= netID <= 4 -> len x <= 32 ->
  reads (read_network_address t s netID (len x)) (x ++ order_put bigEndian 2 p) r ->
  reads (readNetAddressV2 pver) (v2_bytes pver t s netID x p) r.
Proof.
  intros Ht Hs Hn Hx Hr. unfold v2_bytes, readNetAddressV2. rewrite <- app_assoc.
  eapply reads_bind; [by apply codec_reads|].
  eapply reads_bind; [by apply codec_reads|].
  eapply reads_bind; [apply codec_reads; cbn [elem_ok]; lia|].
  eapply reads_bind; [apply codec_reads; pose proof (len_nonneg x); lia|]. exact Hr.
Qed.

Lemma readNetAddressV2_reads pver na :
  NetAddressV2_ok na ->
  exists bs, writeNetAddressV2 pver na = Ok bs /\
    reads (readNetAddressV2 pver) bs (Some na) /\ len bs <= maxNetAddressV2Payload.
Proof.
  destruct na as [t s a' p]. intros (Ht & Hs & Hp & a & Ha & Hok). simpl in *. subst a'.
  unfold writeNetAddressV2. cbn [NA2_Addr NA2_Timestamp NA2_Services NA2_Port].
  unfold wrap_u32. rewrite Z.mod_small by lia.
  destruct a as [x|x|x|x]; cbn [NetAddr_ok] in Hok;
    [|destruct Hok as (Hok & Ho & Hm)| |];
    unfold ipv4Size, ipv6Size, torv2Size, TorV3Size in Hok;
    (eexists; split; [reflexivity|]; split; [|apply len_v2_bytes; lia]);
    (apply v2_bytes_reads; [lia|lia|done|lia|]); cbn;
    (eapply reads_bind_ret; [by apply read_addr_port_reads|]); cbn [fst snd];
    rewrite ?Ho, ?Hm; apply reads_ret.
Qed.

(** ** Legacy form *)

Definition from_legacy (l : NetAddress) : NetAddressV2 :=
  NetAddressV2FromBytes (NA_Timestamp l) (NA_Services l) (NA_IP l) (NA_Port l).

(** The 16 bytes of an address that has a legacy form. *)
Definition legacy_ip16 (a : NetAddr) : list byte :=
  match a with
  | ipv4Addr x => v4InV6Prefix ++ x
  | ipv6Addr x => x
  | torv2Addr x => onionCatPrefix ++ x
  | torv3Addr _ => []
  end.

Lemma from_bytes_legacy t s p a :
  NetAddr_ok a -> (forall x, a <> torv3Addr x) ->
  len (legacy_ip16 a) = 16 /\
  NetAddressV2FromBytes t s (legacy_ip16 a) p = mkNetAddressV2 t s (Some a) p.
Proof.
  intros Hok Hv3. unfold NetAddressV2FromBytes.
  destruct a as [x|x|x|x]; cbn [NetAddr_ok legacy_ip16] in *; [| | |by destruct (Hv3 x)].
  - unfold ipv4Size in Hok. rewrite len_app, Hok. by split.
  - destruct Hok as (Hl & Ho & Hm). rewrite Hl, Ho, Hm. done.
  - unfold torv2Size in Hok. rewrite len_app, Hok. by split.
Qed.

(** * Properties *)

(** an address with a legacy form is recovered from it, directly and after
    the legacy address has been written and read on the wire, where an IPv4 address
    travels in its IPv6-mapped form. *)
Theorem NetAddressV2_legacy_roundtrip na pver rest :
  NetAddressV2_ok na -> NetAddressV2_IsTorV3 na = false -> NetAddressTimeVersion <= pver ->
  exists l l', NetAddressV2_ToLegacy na = Some l /\ from_legacy l = na /\
    readNetAddress pver true (writeNetAddress pver true l ++ rest) = Ok (l', rest) /\
    from_legacy l' = na.
Proof.
  destruct na as [t s oa p]. intros (Ht & Hs & Hp & a & Ha & Hok) Hv3 Hpv.
  cbn [NA2_Addr NA2_Timestamp NA2_Services NA2_Port] in *. subst oa.
  assert (Hn : forall x, a <> torv3Addr x) by (intros x ->; done).
  destruct (from_bytes_legacy t s p a Hok Hn) as [Hl16 Hfrom].
  set (l' := mkNetAddress t s (legacy_ip16 a) p).
  assert (Hl' : NetAddress_ok pver true l').
  { unfold NetAddress_ok. cbn [andb]. case_bool; [|lia]. done. }
  assert (Hdone : forall ip, NetAddressV2FromBytes t s ip p = mkNetAddressV2 t s (Some a) p ->
    writeNetAddress pver true (mkNetAddress t s ip p) = writeNetAddress pver true l' ->
    exists l l'', Some (mkNetAddress t s ip p) = Some l /\
      from_legacy l = mkNetAddressV2 t s (Some a) p /\
      readNetAddress pver true (writeNetAddress pver true l ++ rest) = Ok (l'', rest) /\
      from_legacy l'' = mkNetAddressV2 t s (Some a) p).
  { intros ip Hip Hw. eexists _, l'. split; [done|]. split; [done|]. split; [|done].
    rewrite Hw. by apply (codec_reads (Codec := NetAddress_codec pver true)). }
  unfold NetAddressV2_ToLegacy. cbn [NA2_Addr NA2_Timestamp NA2_Services NA2_Port].
  destruct a as [x|x|x|x]; [| | |by destruct (Hn x)]; apply Hdone; try done.
  - unfold NetAddressV2FromBytes. cbn [NetAddr_ok] in Hok. by rewrite Hok.
  - unfold writeNetAddress, writeNetAddressBuf. cbn [NA_IP NA_Timestamp NA_Services NA_Port l'].
    rewrite (IP_copy (legacy_ip16 (ipv4Addr x))) by done. cbn [NetAddr_ok] in Hok.
    rewrite bool_decide_eq_false_2 by (intros ->; done).
    unfold IP_To16. rewrite Hok. cbn [Z.eqb Pos.eqb ipv4Size].
    rewrite copy_array_full; [done|]. unfold ipv4Size, len in Hok.
    rewrite length_app. simpl length at 1. lia.
Qed.

Lemma NetAddressV2_legacy_roundtrip_witness :
  let na := mkNetAddressV2 5 1 (Some (ipv4Addr [x01; x02; x03; x04])) 8333 in
  exists l l', NetAddressV2_ToLegacy na = Some l /\ from_legacy l = na /\
    readNetAddress 70016 true (writeNetAddress 70016 true l ++ [x09]) = Ok (l', [x09]) /\
    from_legacy l' = na.
Proof.
  apply NetAddressV2_legacy_roundtrip; [|reflexivity|vm_compute; congruence].
  split_and!; cbn; try lia. by exists (ipv4Addr [x01; x02; x03; x04]).
Defined.
