(* ===== verification/WireMsgs.v ===== *)
(** * wire/msg*.go: the message types and the Message interface

    [Message] is the Go interface; [MessageLaws] is what the framing of
    wire/message.go relies on, and [CanonicalMessage] holds for the messages whose
    decoder accepts one encoding only.  Every type below is an instance. *)

From Stdlib Require Import ZArith Lia.
From S2P Require Import Prelude WireCommon WireTx ChainHash WireBlock WireNet.

(** ** The interface *)

Class Message (M : Type) : Type := {
  Command : list byte;
  BtcDecode : Z -> MessageEncoding -> Reader M;
  BtcEncode : Z -> MessageEncoding -> M -> result wire_error (list byte);
  MaxPayloadLength : Z -> Z;
}.
#[global] Arguments Command M {_}.
#[global] Arguments MaxPayloadLength M {_} _.

(** A message that is [msg_ok] is encoded within its own size limit, and its
    encoding, alone in the buffer, decodes to it and is consumed entirely. *)
Class MessageLaws (M : Type) {HM : Message M} : Type := {
  msg_ok : Z -> MessageEncoding -> M -> Prop;
  msg_roundtrip : forall pver enc m, msg_ok pver enc m ->
    exists bs, BtcEncode pver enc m = Ok bs /\ BtcDecode pver enc bs = Ok (m, []) /\
      len bs <= MaxPayloadLength M pver;
}.

(** Whatever decodes is an encoding, up to what is left in the buffer. *)
Class CanonicalMessage (M : Type) {HM : Message M} : Prop := {
  msg_canonical : forall pver enc bs m rest, BtcDecode pver enc bs = Ok (m, rest) ->
    exists bs', BtcEncode pver enc m = Ok bs' /\ bs = bs' ++ rest;
}.

(** ** Commands (wire/message.go) *)

Definition CmdVersion := bytes_of "version".
Definition CmdVerAck := bytes_of "verack".
Definition CmdGetAddr := bytes_of "getaddr".
Definition CmdAddr := bytes_of "addr".
Definition CmdAddrV2 := bytes_of "addrv2".
Definition CmdGetBlocks := bytes_of "getblocks".
Definition CmdInv := bytes_of "inv".
Definition CmdGetData := bytes_of "getdata".
Definition CmdNotFound := bytes_of "notfound".
Definition CmdBlock := bytes_of "block".
Definition CmdTx := bytes_of "tx".
Definition CmdGetHeaders := bytes_of "getheaders".
Definition CmdHeaders := bytes_of "headers".
Definition CmdPing := bytes_of "ping".
Definition CmdPong := bytes_of "pong".
Definition CmdMemPool := bytes_of "mempool".
Definition CmdFilterAdd := bytes_of "filteradd".
Definition CmdFilterClear := bytes_of "filterclear".
Definition CmdFilterLoad := bytes_of "filterload".
Definition CmdMerkleBlock := bytes_of "merkleblock".
Definition CmdReject := bytes_of "reject".
Definition CmdSendHeaders := bytes_of "sendheaders".
Definition CmdFeeFilter := bytes_of "feefilter".
Definition CmdGetCFilters := bytes_of "getcfilters".
Definition CmdGetCFHeaders := bytes_of "getcfheaders".
Definition CmdGetCFCheckpt := bytes_of "getcfcheckpt".
Definition CmdCFilter := bytes_of "cfilter".
Definition CmdCFHeaders := bytes_of "cfheaders".
Definition CmdCFCheckpt := bytes_of "cfcheckpt".
Definition CmdSendAddrV2 := bytes_of "sendaddrv2".
Definition CmdWTxIdRelay := bytes_of "wtxidrelay".

Definition MaxProtocolMessageLength : Z := 4 * 1000 * 1000.

(** ** Shared shapes

    The [Add...] methods check the limit before they append; the decoding loops
    call them and drop their error. *)

Definition add_bounded {A} (max : Z) (func : string) (l : list A) (a : A)
    : result wire_error (list A) :=
  if max <? len l + 1 then Err (MessageError func) else Ok (l ++ [a]).

Definition ignoring_error {A} (add : list A -> A -> result wire_error (list A))
    (l : list A) (a : A) : list A :=
  match add l a with Ok l' => l' | Err _ => l end.

Lemma add_bounded_below {A} max func :
  appends_below (ignoring_error (@add_bounded A max func)) max.
Proof. intros l a H. unfold ignoring_error, add_bounded. by case_bools. Qed.

(** A bounded count followed by that many elements. *)
Definition read_list {A} (pver max : Z) (err : wire_error) (m : Reader A)
    (add : list A -> A -> list A) : Reader (list A) :=
  count ← ReadVarIntBuf pver;
  if max <? count then fail err else read_loop m add (Z.to_nat count) [].

Definition write_list {A} (pver : Z) (enc : A -> list byte) (l : list A) : list byte :=
  WriteVarIntBuf pver (len l) ++ write_all enc l.

Abbreviation read_u8 := binarySerializer_Uint8.
Abbreviation read_hash := (ReadFull chainhash_HashSize).
Abbreviation write_hash := (fun hash : list byte => hash).

(** ** inv, getdata, notfound *)

Record MsgInv : Type := mkMsgInv { MsgInv_InvList : list InvVect }.
Record MsgGetData : Type := mkMsgGetData { MsgGetData_InvList : list InvVect }.
Record MsgNotFound : Type := mkMsgNotFound { MsgNotFound_InvList : list InvVect }.

Definition MsgInv_AddInvVect := @add_bounded InvVect MaxInvPerMsg "MsgInv.AddInvVect".
Definition MsgGetData_AddInvVect := @add_bounded InvVect MaxInvPerMsg "MsgGetData.AddInvVect".
Definition MsgNotFound_AddInvVect := @add_bounded InvVect MaxInvPerMsg "MsgNotFound.AddInvVect".

Definition MsgInv_BtcDecode (pver : Z) (enc : MessageEncoding) : Reader MsgInv :=
  l ← read_list pver MaxInvPerMsg (MessageError "MsgInv.BtcDecode")
        (readInvVectBuf pver) (ignoring_error MsgInv_AddInvVect);
  mret (mkMsgInv l).
Definition MsgGetData_BtcDecode (pver : Z) (enc : MessageEncoding) : Reader MsgGetData :=
  l ← read_list pver MaxInvPerMsg (MessageError "MsgGetData.BtcDecode")
        (readInvVectBuf pver) (ignoring_error MsgGetData_AddInvVect);
  mret (mkMsgGetData l).
Definition MsgNotFound_BtcDecode (pver : Z) (enc : MessageEncoding) : Reader MsgNotFound :=
  l ← read_list pver MaxInvPerMsg (MessageError "MsgNotFound.BtcDecode")
        (readInvVectBuf pver) (ignoring_error MsgNotFound_AddInvVect);
  mret (mkMsgNotFound l).

Definition inv_BtcEncode (func : string) (pver : Z) (l : list InvVect)
    : result wire_error (list byte) :=
  if MaxInvPerMsg <? len l then Err (MessageError func)
  else Ok (write_list pver (writeInvVectBuf pver) l).
Definition MsgInv_BtcEncode (pver : Z) (enc : MessageEncoding) (msg : MsgInv) :=
  inv_BtcEncode "MsgInv.BtcEncode" pver (MsgInv_InvList msg).
Definition MsgGetData_BtcEncode (pver : Z) (enc : MessageEncoding) (msg : MsgGetData) :=
  inv_BtcEncode "MsgGetData.BtcEncode" pver (MsgGetData_InvList msg).
Definition MsgNotFound_BtcEncode (pver : Z) (enc : MessageEncoding) (msg : MsgNotFound) :=
  inv_BtcEncode "MsgNotFound.BtcEncode" pver (MsgNotFound_InvList msg).

Definition inv_MaxPayloadLength (pver : Z) : Z :=
  MaxVarIntPayload + MaxInvPerMsg * maxInvVectPayload.

#[export] Instance Message_MsgInv : Message MsgInv :=
  Build_Message _ CmdInv MsgInv_BtcDecode MsgInv_BtcEncode inv_MaxPayloadLength.
#[export] Instance Message_MsgGetData : Message MsgGetData :=
  Build_Message _ CmdGetData MsgGetData_BtcDecode MsgGetData_BtcEncode inv_MaxPayloadLength.
#[export] Instance Message_MsgNotFound : Message MsgNotFound :=
  Build_Message _ CmdNotFound MsgNotFound_BtcDecode MsgNotFound_BtcEncode inv_MaxPayloadLength.

(** ** getblocks, getheaders *)

Definition MaxBlockLocatorsPerMsg : Z := 500.

Record MsgGetBlocks : Type := mkMsgGetBlocks {
  GetBlocks_ProtocolVersion : Z;
  GetBlocks_BlockLocatorHashes : list (list byte);
  GetBlocks_HashStop : list byte;
}.
Record MsgGetHeaders : Type := mkMsgGetHeaders {
  GetHeaders_ProtocolVersion : Z;
  GetHeaders_BlockLocatorHashes : list (list byte);
  GetHeaders_HashStop : list byte;
}.

Definition MsgGetBlocks_AddBlockLocatorHash :=
  @add_bounded (list byte) MaxBlockLocatorsPerMsg "MsgGetBlocks.AddBlockLocatorHash".
Definition MsgGetHeaders_AddBlockLocatorHash :=
  @add_bounded (list byte) MaxBlockLocatorsPerMsg "MsgGetHeaders.AddBlockLocatorHash".

Definition MsgGetBlocks_BtcDecode (pver : Z) (enc : MessageEncoding) : Reader MsgGetBlocks :=
  pv ← read_u32;
  hashes ← read_list pver MaxBlockLocatorsPerMsg (MessageError "MsgGetBlocks.BtcDecode")
             read_hash (ignoring_error MsgGetBlocks_AddBlockLocatorHash);
  stop ← read_hash;
  mret (mkMsgGetBlocks pv hashes stop).
Definition MsgGetHeaders_BtcDecode (pver : Z) (enc : MessageEncoding) : Reader MsgGetHeaders :=
  pv ← read_u32;
  hashes ← read_list pver MaxBlockLocatorsPerMsg (MessageError "MsgGetHeaders.BtcDecode")
             read_hash (ignoring_error MsgGetHeaders_AddBlockLocatorHash);
  stop ← read_hash;
  mret (mkMsgGetHeaders pv hashes stop).

Definition locator_BtcEncode (func : string) (pver pv : Z) (hashes : list (list byte))
    (stop : list byte) : result wire_error (list byte) :=
  if MaxBlockLocatorsPerMsg <? len hashes then Err (MessageError func)
  else Ok (le_put 4 pv ++ write_list pver write_hash hashes ++ stop).
Definition MsgGetBlocks_BtcEncode (pver : Z) (enc : MessageEncoding) (msg : MsgGetBlocks) :=
  locator_BtcEncode "MsgGetBlocks.BtcEncode" pver (GetBlocks_ProtocolVersion msg)
    (GetBlocks_BlockLocatorHashes msg) (GetBlocks_HashStop msg).
Definition MsgGetHeaders_BtcEncode (pver : Z) (enc : MessageEncoding) (msg : MsgGetHeaders) :=
  locator_BtcEncode "MsgGetHeaders.BtcEncode" pver (GetHeaders_ProtocolVersion msg)
    (GetHeaders_BlockLocatorHashes msg) (GetHeaders_HashStop msg).

Definition locator_MaxPayloadLength (pver : Z) : Z :=
  4 + MaxVarIntPayload + MaxBlockLocatorsPerMsg * chainhash_HashSize + chainhash_HashSize.

#[export] Instance Message_MsgGetBlocks : Message MsgGetBlocks :=
  Build_Message _ CmdGetBlocks MsgGetBlocks_BtcDecode MsgGetBlocks_BtcEncode
    locator_MaxPayloadLength.
#[export] Instance Message_MsgGetHeaders : Message MsgGetHeaders :=
  Build_Message _ CmdGetHeaders MsgGetHeaders_BtcDecode MsgGetHeaders_BtcEncode
    locator_MaxPayloadLength.

(** ** headers *)

Definition MaxBlockHeadersPerMsg : Z := 2000.

Record MsgHeaders : Type := mkMsgHeaders { MsgHeaders_Headers : list BlockHeader }.

Definition MsgHeaders_AddBlockHeader :=
  @add_bounded BlockHeader MaxBlockHeadersPerMsg "MsgHeaders.AddBlockHeader".

(** A header and its transaction count, which must be zero. *)
Definition read_header_entry (pver : Z) : Reader BlockHeader :=
  bh ← readBlockHeaderBuf pver;
  txCount ← ReadVarIntBuf pver;
  if 0 <? txCount then fail (MessageError "MsgHeaders.BtcDecode") else mret bh.

Definition write_header_entry (pver : Z) (bh : BlockHeader) : list byte :=
  writeBlockHeaderBuf pver bh ++ WriteVarIntBuf pver 0.

Definition MsgHeaders_BtcDecode (pver : Z) (enc : MessageEncoding) : Reader MsgHeaders :=
  l ← read_list pver MaxBlockHeadersPerMsg (MessageError "MsgHeaders.BtcDecode")
        (read_header_entry pver) (ignoring_error MsgHeaders_AddBlockHeader);
  mret (mkMsgHeaders l).

Definition MsgHeaders_BtcEncode (pver : Z) (enc : MessageEncoding) (msg : MsgHeaders)
    : result wire_error (list byte) :=
  if MaxBlockHeadersPerMsg <? len (MsgHeaders_Headers msg)
  then Err (MessageError "MsgHeaders.BtcEncode")
  else Ok (write_list pver (write_header_entry pver) (MsgHeaders_Headers msg)).

Definition MsgHeaders_MaxPayloadLength (pver : Z) : Z :=
  MaxVarIntPayload + (MaxBlockHeaderPayload + 1) * MaxBlockHeadersPerMsg.

#[export] Instance Message_MsgHeaders : Message MsgHeaders :=
  Build_Message _ CmdHeaders MsgHeaders_BtcDecode MsgHeaders_BtcEncode
    MsgHeaders_MaxPayloadLength.

(** ** ping, pong, feefilter *)

Record MsgPing : Type := mkMsgPing { Ping_Nonce : Z }.
Record MsgPong : Type := mkMsgPong { Pong_Nonce : Z }.
Record MsgFeeFilter : Type := mkMsgFeeFilter { FeeFilter_MinFee : Z }.

Definition MsgPing_BtcDecode (pver : Z) (enc : MessageEncoding) : Reader MsgPing :=
  if BIP0031Version <? pver then
    nonce ← binarySerializer_Uint64 littleEndian; mret (mkMsgPing nonce)
  else mret (mkMsgPing 0).
Definition MsgPing_BtcEncode (pver : Z) (enc : MessageEncoding) (msg : MsgPing)
    : result wire_error (list byte) :=
  Ok (if BIP0031Version <? pver
      then binarySerializer_PutUint64 littleEndian (Ping_Nonce msg) else []).
Definition MsgPing_MaxPayloadLength (pver : Z) : Z :=
  if BIP0031Version <? pver then 8 else 0.

Definition MsgPong_BtcDecode (pver : Z) (enc : MessageEncoding) : Reader MsgPong :=
  if pver <=? BIP0031Version then fail (MessageError "MsgPong.BtcDecode")
  else nonce ← binarySerializer_Uint64 littleEndian; mret (mkMsgPong nonce).
Definition MsgPong_BtcEncode (pver : Z) (enc : MessageEncoding) (msg : MsgPong)
    : result wire_error (list byte) :=
  if pver <=? BIP0031Version then Err (MessageError "MsgPong.BtcEncode")
  else Ok (binarySerializer_PutUint64 littleEndian (Pong_Nonce msg)).
Definition MsgPong_MaxPayloadLength (pver : Z) : Z :=
  if BIP0031Version <? pver then 8 else 0.

Definition MsgFeeFilter_BtcDecode (pver : Z) (enc : MessageEncoding) : Reader MsgFeeFilter :=
  if pver <? FeeFilterVersion then fail (MessageError "MsgFeeFilter.BtcDecode")
  else fee ← readElement K_int64; mret (mkMsgFeeFilter fee).
Definition MsgFeeFilter_BtcEncode (pver : Z) (enc : MessageEncoding) (msg : MsgFeeFilter)
    : result wire_error (list byte) :=
  if pver <? FeeFilterVersion then Err (MessageError "MsgFeeFilter.BtcEncode")
  else Ok (writeElement K_int64 (FeeFilter_MinFee msg)).
Definition MsgFeeFilter_MaxPayloadLength (pver : Z) : Z := 8.

#[export] Instance Message_MsgPing : Message MsgPing :=
  Build_Message _ CmdPing MsgPing_BtcDecode MsgPing_BtcEncode MsgPing_MaxPayloadLength.
#[export] Instance Message_MsgPong : Message MsgPong :=
  Build_Message _ CmdPong MsgPong_BtcDecode MsgPong_BtcEncode MsgPong_MaxPayloadLength.
#[export] Instance Message_MsgFeeFilter : Message MsgFeeFilter :=
  Build_Message _ CmdFeeFilter MsgFeeFilter_BtcDecode MsgFeeFilter_BtcEncode
    MsgFeeFilter_MaxPayloadLength.

(** ** Messages without a payload *)

Record MsgVerAck : Type := mkMsgVerAck {}.
Record MsgGetAddr : Type := mkMsgGetAddr {}.
Record MsgMemPool : Type := mkMsgMemPool {}.
Record MsgFilterClear : Type := mkMsgFilterClear {}.
Record MsgSendHeaders : Type := mkMsgSendHeaders {}.
Record MsgSendAddrV2 : Type := mkMsgSendAddrV2 {}.
Record MsgWTxIdRelay : Type := mkMsgWTxIdRelay {}.

(** The only thing these do is to refuse old protocol versions. *)
Definition empty_BtcDecode {M} (mk : M) (min : Z) (func : string)
    (pver : Z) (enc : MessageEncoding) : Reader M :=
  if pver <? min then fail (MessageError func) else mret mk.
Definition empty_BtcEncode {M} (min : Z) (func : string)
    (pver : Z) (enc : MessageEncoding) (msg : M) : result wire_error (list byte) :=
  if pver <? min then Err (MessageError func) else Ok [].
Definition empty_MaxPayloadLength (pver : Z) : Z := 0.

Definition MsgVerAck_BtcDecode (pver : Z) (enc : MessageEncoding) : Reader MsgVerAck :=
  mret mkMsgVerAck.
Definition MsgVerAck_BtcEncode (pver : Z) (enc : MessageEncoding) (msg : MsgVerAck)
    : result wire_error (list byte) := Ok [].
Definition MsgGetAddr_BtcDecode (pver : Z) (enc : MessageEncoding) : Reader MsgGetAddr :=
  mret mkMsgGetAddr.
Definition MsgGetAddr_BtcEncode (pver : Z) (enc : MessageEncoding) (msg : MsgGetAddr)
    : result wire_error (list byte) := Ok [].
Definition MsgMemPool_BtcDecode :=
  empty_BtcDecode mkMsgMemPool BIP0035Version "MsgMemPool.BtcDecode".
Definition MsgMemPool_BtcEncode :=
  @empty_BtcEncode MsgMemPool BIP0035Version "MsgMemPool.BtcEncode".
Definition MsgFilterClear_BtcDecode :=
  empty_BtcDecode mkMsgFilterClear BIP0037Version "MsgFilterClear.BtcDecode".
Definition MsgFilterClear_BtcEncode :=
  @empty_BtcEncode MsgFilterClear BIP0037Version "MsgFilterClear.BtcEncode".
Definition MsgSendHeaders_BtcDecode :=
  empty_BtcDecode mkMsgSendHeaders SendHeadersVersion "MsgSendHeaders.BtcDecode".
Definition MsgSendHeaders_BtcEncode :=
  @empty_BtcEncode MsgSendHeaders SendHeadersVersion "MsgSendHeaders.BtcEncode".
Definition MsgSendAddrV2_BtcDecode :=
  empty_BtcDecode mkMsgSendAddrV2 AddrV2Version "MsgSendAddrV2.BtcDecode".
Definition MsgSendAddrV2_BtcEncode :=
  @empty_BtcEncode MsgSendAddrV2 AddrV2Version "MsgSendAddrV2.BtcEncode".
Definition MsgWTxIdRelay_BtcDecode :=
  empty_BtcDecode mkMsgWTxIdRelay AddrV2Version "MsgWTxIdRelay.BtcDecode".
Definition MsgWTxIdRelay_BtcEncode :=
  @empty_BtcEncode MsgWTxIdRelay AddrV2Version "MsgWTxIdRelay.BtcEncode".

#[export] Instance Message_MsgVerAck : Message MsgVerAck :=
  Build_Message _ CmdVerAck MsgVerAck_BtcDecode MsgVerAck_BtcEncode empty_MaxPayloadLength.
#[export] Instance Message_MsgGetAddr : Message MsgGetAddr :=
  Build_Message _ CmdGetAddr MsgGetAddr_BtcDecode MsgGetAddr_BtcEncode empty_MaxPayloadLength.
#[export] Instance Message_MsgMemPool : Message MsgMemPool :=
  Build_Message _ CmdMemPool MsgMemPool_BtcDecode MsgMemPool_BtcEncode empty_MaxPayloadLength.
#[export] Instance Message_MsgFilterClear : Message MsgFilterClear :=
  Build_Message _ CmdFilterClear MsgFilterClear_BtcDecode MsgFilterClear_BtcEncode
    empty_MaxPayloadLength.
#[export] Instance Message_MsgSendHeaders : Message MsgSendHeaders :=
  Build_Message _ CmdSendHeaders MsgSendHeaders_BtcDecode MsgSendHeaders_BtcEncode
    empty_MaxPayloadLength.
#[export] Instance Message_MsgSendAddrV2 : Message MsgSendAddrV2 :=
  Build_Message _ CmdSendAddrV2 MsgSendAddrV2_BtcDecode MsgSendAddrV2_BtcEncode
    empty_MaxPayloadLength.
#[export] Instance Message_MsgWTxIdRelay : Message MsgWTxIdRelay :=
  Build_Message _ CmdWTxIdRelay MsgWTxIdRelay_BtcDecode MsgWTxIdRelay_BtcEncode
    empty_MaxPayloadLength.

(** ** filteradd, filterload, merkleblock *)

Definition MaxFilterAddDataSize : Z := 520.
Definition MaxFilterLoadHashFuncs : Z := 50.
Definition MaxFilterLoadFilterSize : Z := 36000.
Definition maxFlagsPerMerkleBlock : Z := maxTxPerBlock / 8.

Record MsgFilterAdd : Type := mkMsgFilterAdd { FilterAdd_Data : list byte }.
Record MsgFilterLoad : Type := mkMsgFilterLoad {
  FilterLoad_Filter : list byte;
  FilterLoad_HashFuncs : Z;
  FilterLoad_Tweak : Z;
  FilterLoad_Flags : Z;
}.
Record MsgMerkleBlock : Type := mkMsgMerkleBlock {
  MerkleBlock_Header : BlockHeader;
  MerkleBlock_Transactions : Z;
  MerkleBlock_Hashes : list (list byte);
  MerkleBlock_Flags : list byte;
}.

Definition MsgFilterAdd_BtcDecode (pver : Z) (enc : MessageEncoding) : Reader MsgFilterAdd :=
  if pver <? BIP0037Version then fail (MessageError "MsgFilterAdd.BtcDecode")
  else data ← ReadVarBytes pver MaxFilterAddDataSize; mret (mkMsgFilterAdd data).
Definition MsgFilterAdd_BtcEncode (pver : Z) (enc : MessageEncoding) (msg : MsgFilterAdd)
    : result wire_error (list byte) :=
  if pver <? BIP0037Version then Err (MessageError "MsgFilterAdd.BtcEncode")
  else if MaxFilterAddDataSize <? len (FilterAdd_Data msg)
  then Err (MessageError "MsgFilterAdd.BtcEncode")
  else Ok (WriteVarBytes pver (FilterAdd_Data msg)).
Definition MsgFilterAdd_MaxPayloadLength (pver : Z) : Z :=
  wrap_u32 (VarIntSerializeSize MaxFilterAddDataSize) + MaxFilterAddDataSize.

Definition MsgFilterLoad_BtcDecode (pver : Z) (enc : MessageEncoding) : Reader MsgFilterLoad :=
  if pver <? BIP0037Version then fail (MessageError "MsgFilterLoad.BtcDecode")
  else
    filter ← ReadVarBytes pver MaxFilterLoadFilterSize;
    funcs ← readElement K_uint32;
    tweak ← readElement K_uint32;
    flags ← readElement K_BloomUpdateType;
    if MaxFilterLoadHashFuncs <? funcs then fail (MessageError "MsgFilterLoad.BtcDecode")
    else mret (mkMsgFilterLoad filter funcs tweak flags).
Definition MsgFilterLoad_BtcEncode (pver : Z) (enc : MessageEncoding) (msg : MsgFilterLoad)
    : result wire_error (list byte) :=
  if pver <? BIP0037Version then Err (MessageError "MsgFilterLoad.BtcEncode")
  else if MaxFilterLoadFilterSize <? len (FilterLoad_Filter msg)
  then Err (MessageError "MsgFilterLoad.BtcEncode")
  else if MaxFilterLoadHashFuncs <? FilterLoad_HashFuncs msg
  then Err (MessageError "MsgFilterLoad.BtcEncode")
  else Ok (WriteVarBytes pver (FilterLoad_Filter msg) ++
           writeElement K_uint32 (FilterLoad_HashFuncs msg) ++
           writeElement K_uint32 (FilterLoad_Tweak msg) ++
           writeElement K_BloomUpdateType (FilterLoad_Flags msg)).
Definition MsgFilterLoad_MaxPayloadLength (pver : Z) : Z :=
  wrap_u32 (VarIntSerializeSize MaxFilterLoadFilterSize) + MaxFilterLoadFilterSize + 9.

Definition MsgMerkleBlock_AddTxHash :=
  @add_bounded (list byte) maxTxPerBlock "MsgMerkleBlock.AddTxHash".

Definition MsgMerkleBlock_BtcDecode (pver : Z) (enc : MessageEncoding)
    : Reader MsgMerkleBlock :=
  if pver <? BIP0037Version then fail (MessageError "MsgMerkleBlock.BtcDecode")
  else
    header ← readBlockHeaderBuf pver;
    txs ← read_u32;
    hashes ← read_list pver maxTxPerBlock (MessageError "MsgMerkleBlock.BtcDecode")
               read_hash (ignoring_error MsgMerkleBlock_AddTxHash);
    flags ← ReadVarBytesBuf pver maxFlagsPerMerkleBlock;
    mret (mkMsgMerkleBlock header txs hashes flags).
Definition MsgMerkleBlock_BtcEncode (pver : Z) (enc : MessageEncoding) (msg : MsgMerkleBlock)
    : result wire_error (list byte) :=
  if pver <? BIP0037Version then Err (MessageError "MsgMerkleBlock.BtcEncode")
  else if maxTxPerBlock <? len (MerkleBlock_Hashes msg)
  then Err (MessageError "MsgMerkleBlock.BtcDecode")
  else if maxFlagsPerMerkleBlock <? len (MerkleBlock_Flags msg)
  then Err (MessageError "MsgMerkleBlock.BtcDecode")
  else Ok (writeBlockHeaderBuf pver (MerkleBlock_Header msg) ++
           le_put 4 (MerkleBlock_Transactions msg) ++
           write_list pver write_hash (MerkleBlock_Hashes msg) ++
           WriteVarBytesBuf pver (MerkleBlock_Flags msg)).
Definition MsgMerkleBlock_MaxPayloadLength (pver : Z) : Z := MaxBlockPayload.

#[export] Instance Message_MsgFilterAdd : Message MsgFilterAdd :=
  Build_Message _ CmdFilterAdd MsgFilterAdd_BtcDecode MsgFilterAdd_BtcEncode
    MsgFilterAdd_MaxPayloadLength.
#[export] Instance Message_MsgFilterLoad : Message MsgFilterLoad :=
  Build_Message _ CmdFilterLoad MsgFilterLoad_BtcDecode MsgFilterLoad_BtcEncode
    MsgFilterLoad_MaxPayloadLength.
#[export] Instance Message_MsgMerkleBlock : Message MsgMerkleBlock :=
  Build_Message _ CmdMerkleBlock MsgMerkleBlock_BtcDecode MsgMerkleBlock_BtcEncode
    MsgMerkleBlock_MaxPayloadLength.

(** ** reject *)

Record MsgReject : Type := mkMsgReject {
  Reject_Cmd : list byte;
  Reject_Code : Z;
  Reject_Reason : list byte;
  Reject_Hash : list byte;
}.

(** The commands whose rejection names a hash. *)
Definition reject_has_hash (cmd : list byte) : bool :=
  bool_decide (cmd = CmdBlock) || bool_decide (cmd = CmdTx).

Definition MsgReject_BtcDecode (pver : Z) (enc : MessageEncoding) : Reader MsgReject :=
  if pver <? RejectVersion then fail (MessageError "MsgReject.BtcDecode")
  else
    cmd ← readVarStringBuf pver;
    code ← read_u8;
    reason ← readVarStringBuf pver;
    hash ← (if reject_has_hash cmd then read_hash else mret zeroHash);
    mret (mkMsgReject cmd code reason hash).
Definition MsgReject_BtcEncode (pver : Z) (enc : MessageEncoding) (msg : MsgReject)
    : result wire_error (list byte) :=
  if pver <? RejectVersion then Err (MessageError "MsgReject.BtcEncode")
  else Ok (writeVarStringBuf pver (Reject_Cmd msg) ++
           binarySerializer_PutUint8 (Reject_Code msg) ++
           writeVarStringBuf pver (Reject_Reason msg) ++
           (if reject_has_hash (Reject_Cmd msg) then Reject_Hash msg else [])).
Definition MsgReject_MaxPayloadLength (pver : Z) : Z :=
  if RejectVersion <=? pver then MaxProtocolMessageLength else 0.

#[export] Instance Message_MsgReject : Message MsgReject :=
  Build_Message _ CmdReject MsgReject_BtcDecode MsgReject_BtcEncode
    MsgReject_MaxPayloadLength.

(** ** Committed filters *)

Definition MaxCFilterDataSize : Z := 256 * 1024.
Definition MaxCFHeadersPerMsg : Z := 2000.
Definition maxCFHeadersLen : Z := 100000.
Definition maxCFCheckptPayload : Z := 1 + 32 + 5 + maxCFHeadersLen * 32.

Record MsgGetCFilters : Type := mkMsgGetCFilters {
  GetCFilters_FilterType : Z;
  GetCFilters_StartHeight : Z;
  GetCFilters_StopHash : list byte;
}.
Record MsgGetCFHeaders : Type := mkMsgGetCFHeaders {
  GetCFHeaders_FilterType : Z;
  GetCFHeaders_StartHeight : Z;
  GetCFHeaders_StopHash : list byte;
}.
Record MsgGetCFCheckpt : Type := mkMsgGetCFCheckpt {
  GetCFCheckpt_FilterType : Z;
  GetCFCheckpt_StopHash : list byte;
}.
Record MsgCFilter : Type := mkMsgCFilter {
  CFilter_FilterType : Z;
  CFilter_BlockHash : list byte;
  CFilter_Data : list byte;
}.
Record MsgCFHeaders : Type := mkMsgCFHeaders {
  CFHeaders_FilterType : Z;
  CFHeaders_StopHash : list byte;
  CFHeaders_PrevFilterHeader : list byte;
  CFHeaders_FilterHashes : list (list byte);
}.
Record MsgCFCheckpt : Type := mkMsgCFCheckpt {
  CFCheckpt_FilterType : Z;
  CFCheckpt_StopHash : list byte;
  CFCheckpt_FilterHeaders : list (list byte);
}.

Definition MsgGetCFilters_BtcDecode (pver : Z) (enc : MessageEncoding)
    : Reader MsgGetCFilters :=
  typ ← read_u8; height ← read_u32; stop ← read_hash;
  mret (mkMsgGetCFilters typ height stop).
Definition MsgGetCFilters_BtcEncode (pver : Z) (enc : MessageEncoding) (msg : MsgGetCFilters)
    : result wire_error (list byte) :=
  Ok (binarySerializer_PutUint8 (GetCFilters_FilterType msg) ++
      le_put 4 (GetCFilters_StartHeight msg) ++ GetCFilters_StopHash msg).
Definition MsgGetCFHeaders_BtcDecode (pver : Z) (enc : MessageEncoding)
    : Reader MsgGetCFHeaders :=
  typ ← read_u8; height ← read_u32; stop ← read_hash;
  mret (mkMsgGetCFHeaders typ height stop).
Definition MsgGetCFHeaders_BtcEncode (pver : Z) (enc : MessageEncoding) (msg : MsgGetCFHeaders)
    : result wire_error (list byte) :=
  Ok (binarySerializer_PutUint8 (GetCFHeaders_FilterType msg) ++
      le_put 4 (GetCFHeaders_StartHeight msg) ++ GetCFHeaders_StopHash msg).
Definition getcf_MaxPayloadLength (pver : Z) : Z := 1 + 4 + chainhash_HashSize.

Definition MsgGetCFCheckpt_BtcDecode (pver : Z) (enc : MessageEncoding)
    : Reader MsgGetCFCheckpt :=
  typ ← read_u8; stop ← read_hash; mret (mkMsgGetCFCheckpt typ stop).
Definition MsgGetCFCheckpt_BtcEncode (pver : Z) (enc : MessageEncoding) (msg : MsgGetCFCheckpt)
    : result wire_error (list byte) :=
  Ok (binarySerializer_PutUint8 (GetCFCheckpt_FilterType msg) ++ GetCFCheckpt_StopHash msg).
Definition MsgGetCFCheckpt_MaxPayloadLength (pver : Z) : Z := 1 + chainhash_HashSize.

Definition MsgCFilter_BtcDecode (pver : Z) (enc : MessageEncoding) : Reader MsgCFilter :=
  typ ← read_u8; hash ← read_hash; data ← ReadVarBytesBuf pver MaxCFilterDataSize;
  mret (mkMsgCFilter typ hash data).
Definition MsgCFilter_BtcEncode (pver : Z) (enc : MessageEncoding) (msg : MsgCFilter)
    : result wire_error (list byte) :=
  if MaxCFilterDataSize <? len (CFilter_Data msg)
  then Err (MessageError "MsgCFilter.BtcEncode")
  else Ok (binarySerializer_PutUint8 (CFilter_FilterType msg) ++ CFilter_BlockHash msg ++
           WriteVarBytesBuf pver (CFilter_Data msg)).
Definition MsgCFilter_MaxPayloadLength (pver : Z) : Z :=
  wrap_u32 (VarIntSerializeSize MaxCFilterDataSize) + MaxCFilterDataSize +
  chainhash_HashSize + 1.

Definition MsgCFHeaders_AddCFHash :=
  @add_bounded (list byte) MaxCFHeadersPerMsg "MsgCFHeaders.AddCFHash".
Definition MsgCFHeaders_BtcDecode (pver : Z) (enc : MessageEncoding) : Reader MsgCFHeaders :=
  typ ← read_u8; stop ← read_hash; prev ← read_hash;
  hashes ← read_list pver MaxCFHeadersPerMsg (MessageError "MsgCFHeaders.BtcDecode")
             read_hash (ignoring_error MsgCFHeaders_AddCFHash);
  mret (mkMsgCFHeaders typ stop prev hashes).
Definition MsgCFHeaders_BtcEncode (pver : Z) (enc : MessageEncoding) (msg : MsgCFHeaders)
    : result wire_error (list byte) :=
  if MaxCFHeadersPerMsg <? len (CFHeaders_FilterHashes msg)
  then Err (MessageError "MsgCFHeaders.BtcEncode")
  else Ok (binarySerializer_PutUint8 (CFHeaders_FilterType msg) ++ CFHeaders_StopHash msg ++
           CFHeaders_PrevFilterHeader msg ++
           write_list pver write_hash (CFHeaders_FilterHashes msg)).
Definition MsgCFHeaders_MaxPayloadLength (pver : Z) : Z :=
  1 + chainhash_HashSize + chainhash_HashSize + MaxVarIntPayload +
  chainhash_HashSize * MaxCFHeadersPerMsg.

(** The hashes are stored by index, so every one is kept. *)
Definition MsgCFCheckpt_BtcDecode (pver : Z) (enc : MessageEncoding) : Reader MsgCFCheckpt :=
  typ ← read_u8; stop ← read_hash;
  hashes ← read_list pver maxCFHeadersLen ErrInsaneCFHeaderCount read_hash push;
  mret (mkMsgCFCheckpt typ stop hashes).
Definition MsgCFCheckpt_BtcEncode (pver : Z) (enc : MessageEncoding) (msg : MsgCFCheckpt)
    : result wire_error (list byte) :=
  Ok (binarySerializer_PutUint8 (CFCheckpt_FilterType msg) ++ CFCheckpt_StopHash msg ++
      write_list pver write_hash (CFCheckpt_FilterHeaders msg)).
Definition MsgCFCheckpt_MaxPayloadLength (pver : Z) : Z := maxCFCheckptPayload.

#[export] Instance Message_MsgGetCFilters : Message MsgGetCFilters :=
  Build_Message _ CmdGetCFilters MsgGetCFilters_BtcDecode MsgGetCFilters_BtcEncode
    getcf_MaxPayloadLength.
#[export] Instance Message_MsgGetCFHeaders : Message MsgGetCFHeaders :=
  Build_Message _ CmdGetCFHeaders MsgGetCFHeaders_BtcDecode MsgGetCFHeaders_BtcEncode
    getcf_MaxPayloadLength.
#[export] Instance Message_MsgGetCFCheckpt : Message MsgGetCFCheckpt :=
  Build_Message _ CmdGetCFCheckpt MsgGetCFCheckpt_BtcDecode MsgGetCFCheckpt_BtcEncode
    MsgGetCFCheckpt_MaxPayloadLength.
#[export] Instance Message_MsgCFilter : Message MsgCFilter :=
  Build_Message _ CmdCFilter MsgCFilter_BtcDecode MsgCFilter_BtcEncode
    MsgCFilter_MaxPayloadLength.
#[export] Instance Message_MsgCFHeaders : Message MsgCFHeaders :=
  Build_Message _ CmdCFHeaders MsgCFHeaders_BtcDecode MsgCFHeaders_BtcEncode
    MsgCFHeaders_MaxPayloadLength.
#[export] Instance Message_MsgCFCheckpt : Message MsgCFCheckpt :=
  Build_Message _ CmdCFCheckpt MsgCFCheckpt_BtcDecode MsgCFCheckpt_BtcEncode
    MsgCFCheckpt_MaxPayloadLength.

(** ** tx, block *)

#[export] Instance Message_MsgTx : Message MsgTx :=
  Build_Message _ CmdTx MsgTx_BtcDecode
    (fun pver enc msg => Ok (MsgTx_BtcEncode pver enc msg)) (fun _ => MaxBlockPayload).
#[export] Instance Message_MsgBlock : Message MsgBlock :=
  Build_Message _ CmdBlock MsgBlock_BtcDecode
    (fun pver enc msg => Ok (MsgBlock_BtcEncode pver enc msg)) (fun _ => MaxBlockPayload).

(** ** addr, addrv2 *)

Definition MaxAddrPerMsg : Z := 1000.
Definition MaxV2AddrPerMsg : Z := 1000.

Record MsgAddr : Type := mkMsgAddr { MsgAddr_AddrList : list NetAddress }.
Record MsgAddrV2 : Type := mkMsgAddrV2 { MsgAddrV2_AddrList : list NetAddressV2 }.

Definition MsgAddr_AddAddress := @add_bounded NetAddress MaxAddrPerMsg "MsgAddr.AddAddress".

(** [AddAddresses] stops at the first error; what was added stays. *)
Fixpoint MsgAddr_AddAddresses (l netAddrs : list NetAddress)
    : list NetAddress * option wire_error :=
  match netAddrs with
  | [] => (l, None)
  | na :: netAddrs' =>
      match MsgAddr_AddAddress l na with
      | Ok l' => MsgAddr_AddAddresses l' netAddrs'
      | Err e => (l, Some e)
      end
  end.

Definition MsgAddr_BtcDecode (pver : Z) (enc : MessageEncoding) : Reader MsgAddr :=
  l ← read_list pver MaxAddrPerMsg (MessageError "MsgAddr.BtcDecode")
        (readNetAddressBuf pver true) (ignoring_error MsgAddr_AddAddress);
  mret (mkMsgAddr l).
Definition MsgAddr_BtcEncode (pver : Z) (enc : MessageEncoding) (msg : MsgAddr)
    : result wire_error (list byte) :=
  let count := len (MsgAddr_AddrList msg) in
  if (pver <? MultipleAddressVersion) && (1 <? count)
  then Err (MessageError "MsgAddr.BtcEncode")
  else if MaxAddrPerMsg <? count then Err (MessageError "MsgAddr.BtcEncode")
  else Ok (write_list pver (writeNetAddressBuf pver true) (MsgAddr_AddrList msg)).
Definition MsgAddr_MaxPayloadLength (pver : Z) : Z :=
  if pver <? MultipleAddressVersion then MaxVarIntPayload + maxNetAddressPayload pver
  else MaxVarIntPayload + MaxAddrPerMsg * maxNetAddressPayload pver.

(** An address of a network that is not supported is left out. *)
Definition add_known (l : list NetAddressV2) (na : option NetAddressV2)
    : list NetAddressV2 :=
  match na with Some na => l ++ [na] | None => l end.

Fixpoint addrv2_loop (pver : Z) (count : nat) (acc : list NetAddressV2)
    : Reader (list NetAddressV2) :=
  match count with
  | O => mret acc
  | S n => na ← readNetAddressV2 pver; addrv2_loop pver n (add_known acc na)
  end.

Definition MsgAddrV2_BtcDecode (pver : Z) (enc : MessageEncoding) : Reader MsgAddrV2 :=
  count ← ReadVarInt pver;
  if MaxV2AddrPerMsg <? count then fail (MessageError "MsgAddrV2.BtcDecode")
  else l ← addrv2_loop pver (Z.to_nat count) []; mret (mkMsgAddrV2 l).

Fixpoint write_addrs_v2 (pver : Z) (l : list NetAddressV2) : result wire_error (list byte) :=
  match l with
  | [] => Ok []
  | na :: l' =>
      bs ← writeNetAddressV2 pver na;
      bs' ← write_addrs_v2 pver l';
      mret (bs ++ bs')
  end.
Definition MsgAddrV2_BtcEncode (pver : Z) (enc : MessageEncoding) (msg : MsgAddrV2)
    : result wire_error (list byte) :=
  let count := len (MsgAddrV2_AddrList msg) in
  if MaxV2AddrPerMsg <? count then Err (MessageError "MsgAddrV2.BtcEncode")
  else bs ← write_addrs_v2 pver (MsgAddrV2_AddrList msg); mret (WriteVarInt pver count ++ bs).
Definition MsgAddrV2_MaxPayloadLength (pver : Z) : Z :=
  3 + MaxV2AddrPerMsg * maxNetAddressV2Payload.

#[export] Instance Message_MsgAddr : Message MsgAddr :=
  Build_Message _ CmdAddr MsgAddr_BtcDecode MsgAddr_BtcEncode MsgAddr_MaxPayloadLength.
#[export] Instance Message_MsgAddrV2 : Message MsgAddrV2 :=
  Build_Message _ CmdAddrV2 MsgAddrV2_BtcDecode MsgAddrV2_BtcEncode MsgAddrV2_MaxPayloadLength.

(** ** version *)

Definition MaxUserAgentLen : Z := 256.
Definition DefaultUserAgent : list byte := bytes_of "/btcwire:0.5.0/".

Record MsgVersion : Type := mkMsgVersion {
  Version_ProtocolVersion : Z;
  Version_Services : Z;
  Version_Timestamp : Z;
  Version_AddrYou : NetAddress;
  Version_AddrMe : NetAddress;
  Version_Nonce : Z;
  Version_UserAgent : list byte;
  Version_LastBlock : Z;
  Version_DisableRelayTx : bool;
}.

Definition MsgVersion_HasService (msg : MsgVersion) (service : Z) : bool :=
  Z.land (Version_Services msg) service =? service.

Definition validateUserAgent (userAgent : list byte) : result wire_error () :=
  if MaxUserAgentLen <? len userAgent then Err (MessageError "MsgVersion") else Ok ().

(** [if buf.Len() > 0 { ... }]: the optional fields. *)
Definition if_more {A} (m : Reader A) (dflt : A) : Reader A := fun r =>
  if 0 <? len r then m r else Ok (dflt, r).

Definition MsgVersion_BtcDecode (pver : Z) (enc : MessageEncoding) : Reader MsgVersion :=
  pv ← readElement K_int32;
  services ← readElement K_ServiceFlag;
  stamp ← readElement K_int64Time;
  you ← readNetAddress pver false;
  me ← if_more (readNetAddress pver false) zeroNetAddress;
  nonce ← if_more (readElement K_uint64) 0;
  agent ← if_more (userAgent ← ReadVarString pver;
                   _ ← lift (validateUserAgent userAgent); mret userAgent) [];
  last ← if_more (readElement K_int32) 0;
  norelay ← if_more (relayTx ← readElement K_bool; mret (negb relayTx)) false;
  mret (mkMsgVersion pv services stamp you me nonce agent last norelay).

Definition MsgVersion_BtcEncode (pver : Z) (enc : MessageEncoding) (msg : MsgVersion)
    : result wire_error (list byte) :=
  match validateUserAgent (Version_UserAgent msg) with
  | Err e => Err e
  | Ok _ =>
      Ok (writeElement K_int32 (Version_ProtocolVersion msg) ++
          writeElement K_ServiceFlag (Version_Services msg) ++
          writeElement K_int64 (Version_Timestamp msg) ++
          writeNetAddress pver false (Version_AddrYou msg) ++
          writeNetAddress pver false (Version_AddrMe msg) ++
          writeElement K_uint64 (Version_Nonce msg) ++
          WriteVarString pver (Version_UserAgent msg) ++
          writeElement K_int32 (Version_LastBlock msg) ++
          (if BIP0037Version <=? pver
           then writeElement K_bool (negb (Version_DisableRelayTx msg)) else []))
  end.
Definition MsgVersion_MaxPayloadLength (pver : Z) : Z :=
  33 + maxNetAddressPayload pver * 2 + MaxVarIntPayload + MaxUserAgentLen.

#[export] Instance Message_MsgVersion : Message MsgVersion :=
  Build_Message _ CmdVersion MsgVersion_BtcDecode MsgVersion_BtcEncode
    MsgVersion_MaxPayloadLength.
