(* ===== verification/WireMsgLaws.v ===== *)
(** * The laws of the message types

    Every message type of WireMsgs.v is shown to be a codec, hence an instance of
    [MessageLaws] and, where the decoder is exact, of [CanonicalMessage]. *)

From Stdlib Require Import ZArith Lia.
From S2P Require Import Prelude WireCommon WireTx ChainHash WireBlock WireNet WireMsgs.

(** ** From codecs to laws *)

Section laws.
Context (M : Type) {HM : Message M} (wf : Z -> MessageEncoding -> M -> Prop).
Context (body : Z -> MessageEncoding -> M -> list byte).
Hypothesis HC : forall pver enc, Codec (BtcDecode pver enc) (body pver enc) (wf pver enc).
Hypothesis Henc : forall pver enc m, wf pver enc m -> BtcEncode pver enc m = Ok (body pver enc m).

Lemma codec_roundtrip pver enc m :
  wf pver enc m -> len (body pver enc m) <= MaxPayloadLength M pver ->
  exists bs, BtcEncode pver enc m = Ok bs /\ BtcDecode pver enc bs = Ok (m, []) /\
    len bs <= MaxPayloadLength M pver.
Proof using HC Henc.
  intros Hwf Hl. exists (body pver enc m). split; [by apply Henc|]. split; [|done].
  rewrite <- (app_nil_r (body pver enc m)). by apply codec_reads.
Qed.

Lemma codec_canonical : CanonicalMessage M.
Proof using HC Henc.
  constructor. intros pver enc bs m rest H. apply codec_inv in H as [Hwf ->].
  exists (body pver enc m). split; [by apply Henc|done].
Qed.

(** The encoding of every well formed message is within the limit. *)
Definition laws_of_codec
    (Hlen : forall pver enc m, wf pver enc m -> len (body pver enc m) <= MaxPayloadLength M pver)
    : MessageLaws M :=
  {| msg_ok := wf;
     msg_roundtrip := fun pver enc m H => codec_roundtrip pver enc m H (Hlen pver enc m H) |}.

(** The limit is a condition on the message. *)
Definition laws_of_sized_codec : MessageLaws M :=
  {| msg_ok := fun pver enc m =>
       wf pver enc m /\ len (body pver enc m) <= MaxPayloadLength M pver;
     msg_roundtrip := fun pver enc m H => codec_roundtrip pver enc m (proj1 H) (proj2 H) |}.
End laws.

(** ** Combinators *)

Existing Class appends_below.
#[export] Existing Instance add_bounded_below.
#[export] Existing Instance push_appends.

#[export] Instance read_list_codec {A} (m : Reader A) enc wf add pver max err
    {HC : Codec m enc wf} {Ha : appends_below add max}
    {Hmax : @TCEq bool (max <? 2 ^ 64) true} :
  Codec (read_list pver max err m add) (write_list pver enc)
    (fun l => len l <= max /\ Forall wf l).
Proof. apply TCEq_eq, Z.ltb_lt in Hmax. by apply counted_codec. Qed.

Lemma len_write_list {A} pver (enc : A -> list byte) (P : A -> Prop) k max l :
  (forall a, P a -> len (enc a) <= k) -> 0 <= k -> len l <= max -> Forall P l ->
  len (write_list pver enc l) <= MaxVarIntPayload + max * k.
Proof.
  intros Hk Hk0 Hl HP. unfold write_list.
  rewrite len_app, length_WriteVarIntBuf by apply len_nonneg.
  pose proof (VarIntSerializeSize_bounds (len l)).
  assert (Hs : len (write_all enc l) <= len l * k).
  { clear Hl H. induction HP as [|a l Ha _ IH]; [done|].
    rewrite write_all_cons, len_app. specialize (Hk a Ha).
    assert (len (a :: l) = 1 + len l) as -> by (unfold len; simpl length; lia). lia. }
  assert (len l * k <= max * k) by (apply Z.mul_le_mono_nonneg_r; lia). lia.
Qed.

(** A message that is one field. *)
Lemma map_codec {A B} (m : Reader A) enc wf (f : A -> B) (g : B -> A) :
  Codec m enc wf -> (forall a, g (f a) = a) -> (forall b, f (g b) = b) ->
  Codec (a ← m; mret (f a)) (fun b => enc (g b)) (fun b => wf (g b)).
Proof.
  intros HC Hgf Hfg. split.
  - intros b Hb. eapply reads_bind_ret; [by apply codec_reads|].
    rewrite Hfg. apply reads_ret.
  - intros bs b rest H. exact_tac. by rewrite Hgf.
Qed.

(** A decoder that refuses protocol versions below [min]. *)
Lemma guard_codec {A} (m : Reader A) enc wf pver min err :
  Codec m enc wf ->
  Codec (if pver <? min then fail err else m) enc (fun a => min <= pver /\ wf a).
Proof.
  intros HC. split.
  - intros a [Hp Ha]. case_bools. by apply codec_reads.
  - intros bs a rest H. case_bools; [done|]. by apply codec_inv in H as [? ->].
Qed.

Ltac side := simpl in *; first [done | lia | intuition (done || lia)].

Ltac read_step :=
  first [ apply codec_reads; solve [side]
        | apply reads_ReadFull; solve [side] ].

Ltac reads_seq :=
  simpl;
  repeat first
    [ apply reads_ret
    | eapply reads_bind_ret; [ read_step | apply reads_ret ]
    | eapply reads_bind; [ read_step | ] ].

(** ** Inventories *)

Lemma len_writeInvVectBuf pver iv : InvVect_ok iv -> len (writeInvVectBuf pver iv) <= maxInvVectPayload.
Proof.
  intros [_ Hh]. unfold writeInvVectBuf, maxInvVectPayload. rewrite len_app, len_le_put, Hh. lia.
Qed.

Definition invs_ok (l : list InvVect) : Prop := len l <= MaxInvPerMsg /\ Forall InvVect_ok l.

Lemma inv_BtcEncode_ok func pver l :
  invs_ok l -> inv_BtcEncode func pver l = Ok (write_list pver (writeInvVectBuf pver) l).
Proof. intros [Hl _]. unfold inv_BtcEncode. by case_bools. Qed.

Lemma len_write_invs pver l :
  invs_ok l -> len (write_list pver (writeInvVectBuf pver) l) <= inv_MaxPayloadLength pver.
Proof.
  intros [Hl HF]. eapply len_write_list; [apply len_writeInvVectBuf|done|done|done].
Qed.

#[export] Instance MsgInv_codec pver enc :
  Codec (MsgInv_BtcDecode pver enc)
    (fun m => write_list pver (writeInvVectBuf pver) (MsgInv_InvList m))
    (fun m => invs_ok (MsgInv_InvList m)).
Proof. apply (map_codec _ _ invs_ok); [apply _|done|by intros []]. Qed.
#[export] Instance MsgGetData_codec pver enc :
  Codec (MsgGetData_BtcDecode pver enc)
    (fun m => write_list pver (writeInvVectBuf pver) (MsgGetData_InvList m))
    (fun m => invs_ok (MsgGetData_InvList m)).
Proof. apply (map_codec _ _ invs_ok); [apply _|done|by intros []]. Qed.
#[export] Instance MsgNotFound_codec pver enc :
  Codec (MsgNotFound_BtcDecode pver enc)
    (fun m => write_list pver (writeInvVectBuf pver) (MsgNotFound_InvList m))
    (fun m => invs_ok (MsgNotFound_InvList m)).
Proof. apply (map_codec _ _ invs_ok); [apply _|done|by intros []]. Qed.

#[export] Instance MsgInv_laws : MessageLaws MsgInv :=
  laws_of_codec MsgInv _ _ MsgInv_codec (fun pver enc m => inv_BtcEncode_ok _ pver _)
    (fun pver enc m => len_write_invs pver _).
#[export] Instance MsgGetData_laws : MessageLaws MsgGetData :=
  laws_of_codec MsgGetData _ _ MsgGetData_codec (fun pver enc m => inv_BtcEncode_ok _ pver _)
    (fun pver enc m => len_write_invs pver _).
#[export] Instance MsgNotFound_laws : MessageLaws MsgNotFound :=
  laws_of_codec MsgNotFound _ _ MsgNotFound_codec (fun pver enc m => inv_BtcEncode_ok _ pver _)
    (fun pver enc m => len_write_invs pver _).
#[export] Instance MsgInv_canonical : CanonicalMessage MsgInv :=
  codec_canonical MsgInv _ _ MsgInv_codec (fun pver enc m => inv_BtcEncode_ok _ pver _).
#[export] Instance MsgGetData_canonical : CanonicalMessage MsgGetData :=
  codec_canonical MsgGetData _ _ MsgGetData_codec (fun pver enc m => inv_BtcEncode_ok _ pver _).
#[export] Instance MsgNotFound_canonical : CanonicalMessage MsgNotFound :=
  codec_canonical MsgNotFound _ _ MsgNotFound_codec (fun pver enc m => inv_BtcEncode_ok _ pver _).

(** ** Locators *)

Definition hash_ok (h : list byte) : Prop := len h = chainhash_HashSize.

#[export] Instance read_hash_codec : Codec read_hash write_hash hash_ok.
Proof. exact (ReadFull_codec 32). Qed.

Definition locator_ok (pv : Z) (hashes : list (list byte)) (stop : list byte) : Prop :=
  u32_ok pv /\ (len hashes <= MaxBlockLocatorsPerMsg /\ Forall hash_ok hashes) /\ hash_ok stop.

Definition write_locator (pver pv : Z) (hashes : list (list byte)) (stop : list byte)
    : list byte := le_put 4 pv ++ write_list pver write_hash hashes ++ stop.

Lemma locator_BtcEncode_ok func pver pv hashes stop :
  locator_ok pv hashes stop ->
  locator_BtcEncode func pver pv hashes stop = Ok (write_locator pver pv hashes stop).
Proof. intros (_ & [Hl _] & _). unfold locator_BtcEncode. by case_bools. Qed.

Lemma len_write_hashes pver max l :
  len l <= max -> Forall hash_ok l ->
  len (write_list pver write_hash l) <= MaxVarIntPayload + max * chainhash_HashSize.
Proof.
  intros Hl HF. eapply len_write_list; [|done|done|exact HF]. unfold hash_ok. intros. lia.
Qed.

Lemma len_write_locator pver pv hashes stop :
  locator_ok pv hashes stop ->
  len (write_locator pver pv hashes stop) <= locator_MaxPayloadLength pver.
Proof.
  intros (_ & [Hl HF] & Hs). unfold write_locator. rewrite !len_app, len_le_put, Hs.
  pose proof (len_write_hashes pver _ _ Hl HF). unfold locator_MaxPayloadLength. lia.
Qed.

#[export] Instance MsgGetBlocks_codec pver enc :
  Codec (MsgGetBlocks_BtcDecode pver enc)
    (fun m => write_locator pver (GetBlocks_ProtocolVersion m) (GetBlocks_BlockLocatorHashes m)
                (GetBlocks_HashStop m))
    (fun m => locator_ok (GetBlocks_ProtocolVersion m) (GetBlocks_BlockLocatorHashes m)
                (GetBlocks_HashStop m)).
Proof.
  split.
  - intros [pv hs stop] (Hpv & Hhs & Hstop). unfold write_locator. reads_seq.
  - intros bs a rest H. unfold MsgGetBlocks_BtcDecode in H. exact_tac.
    unfold write_locator, locator_ok. rewrite <- !app_assoc. auto.
Qed.
#[export] Instance MsgGetHeaders_codec pver enc :
  Codec (MsgGetHeaders_BtcDecode pver enc)
    (fun m => write_locator pver (GetHeaders_ProtocolVersion m)
                (GetHeaders_BlockLocatorHashes m) (GetHeaders_HashStop m))
    (fun m => locator_ok (GetHeaders_ProtocolVersion m) (GetHeaders_BlockLocatorHashes m)
                (GetHeaders_HashStop m)).
Proof.
  split.
  - intros [pv hs stop] (Hpv & Hhs & Hstop). unfold write_locator. reads_seq.
  - intros bs a rest H. unfold MsgGetHeaders_BtcDecode in H. exact_tac.
    unfold write_locator, locator_ok. rewrite <- !app_assoc. auto.
Qed.

#[export] Instance MsgGetBlocks_laws : MessageLaws MsgGetBlocks :=
  laws_of_codec MsgGetBlocks _ _ MsgGetBlocks_codec
    (fun pver enc m => locator_BtcEncode_ok _ pver _ _ _)
    (fun pver enc m => len_write_locator pver _ _ _).
#[export] Instance MsgGetHeaders_laws : MessageLaws MsgGetHeaders :=
  laws_of_codec MsgGetHeaders _ _ MsgGetHeaders_codec
    (fun pver enc m => locator_BtcEncode_ok _ pver _ _ _)
    (fun pver enc m => len_write_locator pver _ _ _).
#[export] Instance MsgGetBlocks_canonical : CanonicalMessage MsgGetBlocks :=
  codec_canonical MsgGetBlocks _ _ MsgGetBlocks_codec
    (fun pver enc m => locator_BtcEncode_ok _ pver _ _ _).
#[export] Instance MsgGetHeaders_canonical : CanonicalMessage MsgGetHeaders :=
  codec_canonical MsgGetHeaders _ _ MsgGetHeaders_codec
    (fun pver enc m => locator_BtcEncode_ok _ pver _ _ _).

(** ** Headers *)

#[export] Instance header_entry_codec pver :
  Codec (read_header_entry pver) (write_header_entry pver) BlockHeader_ok.
Proof.
  split.
  - intros bh Hbh. eapply reads_bind; [by apply codec_reads|].
    eapply reads_bind_ret; [apply codec_reads; lia|apply reads_ret].
  - intros bs bh rest H. unfold read_header_entry in H.
    inv_read H as bh' mid H1. inv_read H as c mid1 H2.
    apply codec_inv in H1 as [Hb ->]. apply codec_inv in H2 as [Hc ->].
    case_bools; [done|]. apply mret_Ok in H as [-> ->]. assert (c = 0) as -> by lia.
    unfold write_header_entry. by rewrite <- app_assoc.
Qed.

Definition headers_ok (l : list BlockHeader) : Prop :=
  len l <= MaxBlockHeadersPerMsg /\ Forall BlockHeader_ok l.

#[export] Instance MsgHeaders_codec pver enc :
  Codec (MsgHeaders_BtcDecode pver enc)
    (fun m => write_list pver (write_header_entry pver) (MsgHeaders_Headers m))
    (fun m => headers_ok (MsgHeaders_Headers m)).
Proof. apply (map_codec _ _ headers_ok); [apply _|done|by intros []]. Qed.

Lemma MsgHeaders_BtcEncode_ok pver enc m :
  headers_ok (MsgHeaders_Headers m) ->
  MsgHeaders_BtcEncode pver enc m =
    Ok (write_list pver (write_header_entry pver) (MsgHeaders_Headers m)).
Proof. intros [Hl _]. unfold MsgHeaders_BtcEncode. by case_bools. Qed.

Lemma len_write_headers pver l :
  headers_ok l ->
  len (write_list pver (write_header_entry pver) l) <= MsgHeaders_MaxPayloadLength pver.
Proof.
  intros [Hl HF]. unfold MsgHeaders_MaxPayloadLength. rewrite (Z.mul_comm _ MaxBlockHeadersPerMsg).
  eapply len_write_list; [|done|done|exact HF].
  intros bh Hbh. unfold write_header_entry.
  rewrite len_app, len_writeBlockHeaderBuf, length_WriteVarIntBuf by done.
  unfold MaxBlockHeaderPayload, blockHeaderLen, chainhash_HashSize. change (VarIntSerializeSize 0) with 1. lia.
Qed.

#[export] Instance MsgHeaders_laws : MessageLaws MsgHeaders :=
  laws_of_codec MsgHeaders _ _ MsgHeaders_codec MsgHeaders_BtcEncode_ok
    (fun pver enc m => len_write_headers pver _).
#[export] Instance MsgHeaders_canonical : CanonicalMessage MsgHeaders :=
  codec_canonical MsgHeaders _ _ MsgHeaders_codec MsgHeaders_BtcEncode_ok.

(** ** ping, pong, feefilter *)

Definition ping_ok (pver : Z) (m : MsgPing) : Prop :=
  if BIP0031Version <? pver then u64_ok (Ping_Nonce m) else Ping_Nonce m = 0.
Definition write_ping (pver : Z) (m : MsgPing) : list byte :=
  if BIP0031Version <? pver
  then binarySerializer_PutUint64 littleEndian (Ping_Nonce m) else [].

#[export] Instance MsgPing_codec pver enc :
  Codec (MsgPing_BtcDecode pver enc) (write_ping pver) (ping_ok pver).
Proof.
  unfold MsgPing_BtcDecode, write_ping, ping_ok. destruct (BIP0031Version <? pver).
  - apply (map_codec _ _ (fun z => u64_ok z)); [apply _|done|by intros []].
  - split.
    + intros [n] Hn. simpl in Hn. subst n. apply reads_ret.
    + intros bs a rest H. by apply mret_Ok in H as [-> ->].
Qed.

Lemma len_put64 o z : len (binarySerializer_PutUint64 o z) = 8.
Proof. unfold binarySerializer_PutUint64. by rewrite len_order_put. Qed.

Lemma len_write_ping pver m : len (write_ping pver m) <= MsgPing_MaxPayloadLength pver.
Proof.
  unfold write_ping, MsgPing_MaxPayloadLength. destruct (_ <? _); [|done].
  by rewrite len_put64.
Qed.

#[export] Instance MsgPing_laws : MessageLaws MsgPing :=
  laws_of_codec MsgPing _ _ MsgPing_codec (fun _ _ _ _ => eq_refl)
    (fun pver _ m _ => len_write_ping pver m).
#[export] Instance MsgPing_canonical : CanonicalMessage MsgPing :=
  codec_canonical MsgPing _ _ MsgPing_codec (fun _ _ _ _ => eq_refl).

Definition pong_ok (pver : Z) (m : MsgPong) : Prop :=
  BIP0031Version + 1 <= pver /\ u64_ok (Pong_Nonce m).

Lemma leb_ltb_succ a b : (a <=? b) = (a <? b + 1).
Proof. case_bools; done. Qed.

#[export] Instance MsgPong_codec pver enc :
  Codec (MsgPong_BtcDecode pver enc)
    (fun m => binarySerializer_PutUint64 littleEndian (Pong_Nonce m)) (pong_ok pver).
Proof.
  unfold MsgPong_BtcDecode, pong_ok. rewrite leb_ltb_succ. apply guard_codec.
  apply (map_codec _ _ (fun z => u64_ok z)); [apply _|done|by intros []].
Qed.

Lemma MsgPong_BtcEncode_ok pver enc m :
  pong_ok pver m ->
  MsgPong_BtcEncode pver enc m = Ok (binarySerializer_PutUint64 littleEndian (Pong_Nonce m)).
Proof. intros [Hp _]. unfold MsgPong_BtcEncode. by case_bools. Qed.

Lemma len_write_pong pver (enc : MessageEncoding) m :
  pong_ok pver m ->
  len (binarySerializer_PutUint64 littleEndian (Pong_Nonce m)) <= MsgPong_MaxPayloadLength pver.
Proof.
  intros [Hp _]. rewrite len_put64. unfold MsgPong_MaxPayloadLength. case_bools.
Qed.

#[export] Instance MsgPong_laws : MessageLaws MsgPong :=
  laws_of_codec MsgPong _ _ MsgPong_codec MsgPong_BtcEncode_ok len_write_pong.
#[export] Instance MsgPong_canonical : CanonicalMessage MsgPong :=
  codec_canonical MsgPong _ _ MsgPong_codec MsgPong_BtcEncode_ok.

Definition feefilter_ok (pver : Z) (m : MsgFeeFilter) : Prop :=
  FeeFilterVersion <= pver /\ i64_ok (FeeFilter_MinFee m).

#[export] Instance MsgFeeFilter_codec pver enc :
  Codec (MsgFeeFilter_BtcDecode pver enc)
    (fun m => writeElement K_int64 (FeeFilter_MinFee m)) (feefilter_ok pver).
Proof.
  apply guard_codec.
  apply (map_codec (A := Z) _ (writeElement K_int64) (elem_ok K_int64)); [apply _|done|by intros []].
Qed.

Lemma MsgFeeFilter_BtcEncode_ok pver enc m :
  feefilter_ok pver m ->
  MsgFeeFilter_BtcEncode pver enc m = Ok (writeElement K_int64 (FeeFilter_MinFee m)).
Proof. intros [Hp _]. unfold MsgFeeFilter_BtcEncode. by case_bools. Qed.

Lemma len_write_feefilter pver (enc : MessageEncoding) m :
  feefilter_ok pver m ->
  len (writeElement K_int64 (FeeFilter_MinFee m)) <= MsgFeeFilter_MaxPayloadLength pver.
Proof. intros _. cbn [writeElement]. by rewrite len_put64. Qed.

#[export] Instance MsgFeeFilter_laws : MessageLaws MsgFeeFilter :=
  laws_of_codec MsgFeeFilter _ _ MsgFeeFilter_codec MsgFeeFilter_BtcEncode_ok len_write_feefilter.
#[export] Instance MsgFeeFilter_canonical : CanonicalMessage MsgFeeFilter :=
  codec_canonical MsgFeeFilter _ _ MsgFeeFilter_codec MsgFeeFilter_BtcEncode_ok.

(** ** Messages without a payload *)

Section empty.
Context {M : Type} (mk : M) (min : Z) (dfunc efunc : string).
Hypothesis Hmk : forall m : M, m = mk.

Lemma empty_codec pver enc :
  Codec (empty_BtcDecode mk min dfunc pver enc) (fun _ => []) (fun _ => min <= pver /\ True).
Proof using Hmk.
  apply guard_codec. split.
  - intros m _. rewrite (Hmk m). apply reads_ret.
  - intros bs m rest H. by apply mret_Ok in H as [-> ->].
Qed.

Lemma empty_BtcEncode_ok pver enc (m : M) :
  min <= pver /\ True -> empty_BtcEncode min efunc pver enc m = Ok [].
Proof. intros [Hp _]. unfold empty_BtcEncode. by case_bools. Qed.
End empty.

Lemma always_codec {M} (mk : M) :
  (forall m : M, m = mk) -> Codec (mret mk) (fun _ => []) (fun _ => True).
Proof.
  intros Hmk. split.
  - intros m _. rewrite (Hmk m). apply reads_ret.
  - intros bs m rest H. by apply mret_Ok in H as [-> ->].
Qed.

Lemma MsgMemPool_eta m : m = mkMsgMemPool. Proof. by destruct m. Qed.
Lemma MsgFilterClear_eta m : m = mkMsgFilterClear. Proof. by destruct m. Qed.
Lemma MsgSendHeaders_eta m : m = mkMsgSendHeaders. Proof. by destruct m. Qed.
Lemma MsgSendAddrV2_eta m : m = mkMsgSendAddrV2. Proof. by destruct m. Qed.
Lemma MsgWTxIdRelay_eta m : m = mkMsgWTxIdRelay. Proof. by destruct m. Qed.
Lemma MsgVerAck_eta m : m = mkMsgVerAck. Proof. by destruct m. Qed.
Lemma MsgGetAddr_eta m : m = mkMsgGetAddr. Proof. by destruct m. Qed.

#[export] Instance MsgMemPool_laws : MessageLaws MsgMemPool :=
  laws_of_codec MsgMemPool (fun pver _ _ => BIP0035Version <= pver /\ True) (fun _ _ _ => [])
    (empty_codec _ _ _ MsgMemPool_eta) (empty_BtcEncode_ok _ _) (fun _ _ _ _ => Z.le_refl 0).
#[export] Instance MsgMemPool_canonical : CanonicalMessage MsgMemPool :=
  codec_canonical MsgMemPool _ _ (empty_codec _ _ _ MsgMemPool_eta) (empty_BtcEncode_ok _ _).
#[export] Instance MsgFilterClear_laws : MessageLaws MsgFilterClear :=
  laws_of_codec MsgFilterClear (fun pver _ _ => BIP0037Version <= pver /\ True) (fun _ _ _ => [])
    (empty_codec _ _ _ MsgFilterClear_eta) (empty_BtcEncode_ok _ _) (fun _ _ _ _ => Z.le_refl 0).
#[export] Instance MsgFilterClear_canonical : CanonicalMessage MsgFilterClear :=
  codec_canonical MsgFilterClear _ _ (empty_codec _ _ _ MsgFilterClear_eta) (empty_BtcEncode_ok _ _).
#[export] Instance MsgSendHeaders_laws : MessageLaws MsgSendHeaders :=
  laws_of_codec MsgSendHeaders (fun pver _ _ => SendHeadersVersion <= pver /\ True) (fun _ _ _ => [])
    (empty_codec _ _ _ MsgSendHeaders_eta) (empty_BtcEncode_ok _ _) (fun _ _ _ _ => Z.le_refl 0).
#[export] Instance MsgSendHeaders_canonical : CanonicalMessage MsgSendHeaders :=
  codec_canonical MsgSendHeaders _ _ (empty_codec _ _ _ MsgSendHeaders_eta) (empty_BtcEncode_ok _ _).
#[export] Instance MsgSendAddrV2_laws : MessageLaws MsgSendAddrV2 :=
  laws_of_codec MsgSendAddrV2 (fun pver _ _ => AddrV2Version <= pver /\ True) (fun _ _ _ => [])
    (empty_codec _ _ _ MsgSendAddrV2_eta) (empty_BtcEncode_ok _ _) (fun _ _ _ _ => Z.le_refl 0).
#[export] Instance MsgSendAddrV2_canonical : CanonicalMessage MsgSendAddrV2 :=
  codec_canonical MsgSendAddrV2 _ _ (empty_codec _ _ _ MsgSendAddrV2_eta) (empty_BtcEncode_ok _ _).
#[export] Instance MsgWTxIdRelay_laws : MessageLaws MsgWTxIdRelay :=
  laws_of_codec MsgWTxIdRelay (fun pver _ _ => AddrV2Version <= pver /\ True) (fun _ _ _ => [])
    (empty_codec _ _ _ MsgWTxIdRelay_eta) (empty_BtcEncode_ok _ _) (fun _ _ _ _ => Z.le_refl 0).
#[export] Instance MsgWTxIdRelay_canonical : CanonicalMessage MsgWTxIdRelay :=
  codec_canonical MsgWTxIdRelay _ _ (empty_codec _ _ _ MsgWTxIdRelay_eta) (empty_BtcEncode_ok _ _).
#[export] Instance MsgVerAck_laws : MessageLaws MsgVerAck :=
  laws_of_codec MsgVerAck (fun _ _ _ => True) (fun _ _ _ => [])
    (fun _ _ => always_codec _ MsgVerAck_eta) (fun _ _ _ _ => eq_refl)
    (fun _ _ _ _ => Z.le_refl 0).
#[export] Instance MsgVerAck_canonical : CanonicalMessage MsgVerAck :=
  codec_canonical MsgVerAck _ _ (fun _ _ => always_codec _ MsgVerAck_eta)
    (fun _ _ _ _ => eq_refl).
#[export] Instance MsgGetAddr_laws : MessageLaws MsgGetAddr :=
  laws_of_codec MsgGetAddr (fun _ _ _ => True) (fun _ _ _ => [])
    (fun _ _ => always_codec _ MsgGetAddr_eta) (fun _ _ _ _ => eq_refl)
    (fun _ _ _ _ => Z.le_refl 0).
#[export] Instance MsgGetAddr_canonical : CanonicalMessage MsgGetAddr :=
  codec_canonical MsgGetAddr _ _ (fun _ _ => always_codec _ MsgGetAddr_eta)
    (fun _ _ _ _ => eq_refl).

(** ** filteradd, filterload, merkleblock *)

Definition filteradd_ok (pver : Z) (m : MsgFilterAdd) : Prop :=
  BIP0037Version <= pver /\ len (FilterAdd_Data m) <= MaxFilterAddDataSize.

#[export] Instance ReadVarBytes_codec pver max {Hmax : @TCEq bool (max <? 2 ^ 64) true} :
  Codec (ReadVarBytes pver max) (WriteVarBytesBuf pver) (fun bs => len bs <= max).
Proof. by apply VarBytes_codec. Qed.

#[export] Instance MsgFilterAdd_codec pver enc :
  Codec (MsgFilterAdd_BtcDecode pver enc)
    (fun m => WriteVarBytesBuf pver (FilterAdd_Data m)) (filteradd_ok pver).
Proof.
  apply guard_codec.
  apply (map_codec _ _ (fun bs => len bs <= MaxFilterAddDataSize)); [apply _|done|by intros []].
Qed.

Lemma MsgFilterAdd_BtcEncode_ok pver enc m :
  filteradd_ok pver m ->
  MsgFilterAdd_BtcEncode pver enc m = Ok (WriteVarBytesBuf pver (FilterAdd_Data m)).
Proof. intros [Hp Hl]. unfold MsgFilterAdd_BtcEncode. by case_bools. Qed.

Lemma VarIntSerializeSize_mono a b :
  0 <= a <= b -> VarIntSerializeSize a <= VarIntSerializeSize b.
Proof. intros H. unfold VarIntSerializeSize. case_bools. Qed.

Lemma len_WriteVarBytes_le pver bs max :
  len bs <= max -> len (WriteVarBytesBuf pver bs) <= VarIntSerializeSize max + max.
Proof.
  intros Hl. rewrite len_WriteVarBytesBuf. pose proof (len_nonneg bs).
  pose proof (VarIntSerializeSize_mono (len bs) max). lia.
Qed.

Lemma len_write_filteradd pver (enc : MessageEncoding) m :
  filteradd_ok pver m ->
  len (WriteVarBytesBuf pver (FilterAdd_Data m)) <= MsgFilterAdd_MaxPayloadLength pver.
Proof. intros [_ Hl]. by apply (len_WriteVarBytes_le pver) in Hl. Qed.

#[export] Instance MsgFilterAdd_laws : MessageLaws MsgFilterAdd :=
  laws_of_codec MsgFilterAdd _ _ MsgFilterAdd_codec MsgFilterAdd_BtcEncode_ok len_write_filteradd.
#[export] Instance MsgFilterAdd_canonical : CanonicalMessage MsgFilterAdd :=
  codec_canonical MsgFilterAdd _ _ MsgFilterAdd_codec MsgFilterAdd_BtcEncode_ok.

Definition filterload_ok (pver : Z) (m : MsgFilterLoad) : Prop :=
  BIP0037Version <= pver /\
  (len (FilterLoad_Filter m) <= MaxFilterLoadFilterSize /\
   0 <= FilterLoad_HashFuncs m <= MaxFilterLoadHashFuncs /\
   u32_ok (FilterLoad_Tweak m) /\ u8_ok (FilterLoad_Flags m)).
Definition write_filterload (pver : Z) (m : MsgFilterLoad) : list byte :=
  WriteVarBytesBuf pver (FilterLoad_Filter m) ++
  writeElement K_uint32 (FilterLoad_HashFuncs m) ++
  writeElement K_uint32 (FilterLoad_Tweak m) ++
  writeElement K_BloomUpdateType (FilterLoad_Flags m).

#[export] Instance MsgFilterLoad_codec pver enc :
  Codec (MsgFilterLoad_BtcDecode pver enc) (write_filterload pver) (filterload_ok pver).
Proof.
  apply guard_codec. unfold write_filterload. split.
  - intros [f n t fl] (Hf & Hn & Ht & Hfl). cbn [FilterLoad_Filter FilterLoad_HashFuncs
      FilterLoad_Tweak FilterLoad_Flags] in *.
    eapply reads_bind; [by apply codec_reads|].
    eapply reads_bind.
    { apply codec_reads. cbn [elem_ok]. unfold MaxFilterLoadHashFuncs in Hn. lia. }
    eapply reads_bind; [by apply codec_reads|].
    eapply reads_bind_ret; [by apply codec_reads|]. case_bools. apply reads_ret.
  - intros bs a rest H. inv_read H as f mid H1. inv_read H as n mid1 H2.
    inv_read H as t mid2 H3. inv_read H as fl mid3 H4.
    apply codec_inv in H1 as [Hf ->], H2 as [Hn ->], H3 as [Ht ->], H4 as [Hfl ->].
    case_bools; [done|]. apply mret_Ok in H as [-> ->]. cbn [elem_ok] in *.
    simpl. unfold wrap_u32. rewrite !Z.mod_small by lia. rewrite <- !app_assoc.
    split; [|done]. split_and!; done || lia.
Qed.

Lemma MsgFilterLoad_BtcEncode_ok pver enc m :
  filterload_ok pver m -> MsgFilterLoad_BtcEncode pver enc m = Ok (write_filterload pver m).
Proof. intros (Hp & Hl & Hn & _). unfold MsgFilterLoad_BtcEncode. by case_bools. Qed.

Lemma len_write_filterload pver (enc : MessageEncoding) m :
  filterload_ok pver m -> len (write_filterload pver m) <= MsgFilterLoad_MaxPayloadLength pver.
Proof.
  intros (_ & Hl & _). unfold write_filterload. apply (len_WriteVarBytes_le pver) in Hl.
  cbn [writeElement]. unfold binarySerializer_PutUint32, binarySerializer_PutUint8.
  cbn [order_put]. rewrite !len_app, !len_le_put.
  unfold MsgFilterLoad_MaxPayloadLength.
  change (wrap_u32 (VarIntSerializeSize MaxFilterLoadFilterSize)) with
    (VarIntSerializeSize MaxFilterLoadFilterSize). lia.
Qed.

#[export] Instance MsgFilterLoad_laws : MessageLaws MsgFilterLoad :=
  laws_of_codec MsgFilterLoad _ _ MsgFilterLoad_codec MsgFilterLoad_BtcEncode_ok
    len_write_filterload.
#[export] Instance MsgFilterLoad_canonical : CanonicalMessage MsgFilterLoad :=
  codec_canonical MsgFilterLoad _ _ MsgFilterLoad_codec MsgFilterLoad_BtcEncode_ok.

Definition merkleblock_ok (pver : Z) (m : MsgMerkleBlock) : Prop :=
  BIP0037Version <= pver /\
  (BlockHeader_ok (MerkleBlock_Header m) /\ u32_ok (MerkleBlock_Transactions m) /\
   (len (MerkleBlock_Hashes m) <= maxTxPerBlock /\ Forall hash_ok (MerkleBlock_Hashes m)) /\
   len (MerkleBlock_Flags m) <= maxFlagsPerMerkleBlock).
Definition write_merkleblock (pver : Z) (m : MsgMerkleBlock) : list byte :=
  writeBlockHeaderBuf pver (MerkleBlock_Header m) ++
  le_put 4 (MerkleBlock_Transactions m) ++
  write_list pver write_hash (MerkleBlock_Hashes m) ++
  WriteVarBytesBuf pver (MerkleBlock_Flags m).

#[export] Instance MsgMerkleBlock_codec pver enc :
  Codec (MsgMerkleBlock_BtcDecode pver enc) (write_merkleblock pver) (merkleblock_ok pver).
Proof.
  apply guard_codec. unfold write_merkleblock. split.
  - intros [h n hs fl] (Hh & Hn & Hhs & Hfl). reads_seq.
  - intros bs a rest H. exact_tac. rewrite <- ?app_assoc. simpl. rewrite <- ?app_assoc. auto.
Qed.

Lemma MsgMerkleBlock_BtcEncode_ok pver enc m :
  merkleblock_ok pver m -> MsgMerkleBlock_BtcEncode pver enc m = Ok (write_merkleblock pver m).
Proof.
  intros (Hp & _ & _ & [Hl _] & Hf). unfold MsgMerkleBlock_BtcEncode. by case_bools.
Qed.

#[export] Instance MsgMerkleBlock_laws : MessageLaws MsgMerkleBlock :=
  laws_of_sized_codec MsgMerkleBlock _ _ MsgMerkleBlock_codec MsgMerkleBlock_BtcEncode_ok.
#[export] Instance MsgMerkleBlock_canonical : CanonicalMessage MsgMerkleBlock :=
  codec_canonical MsgMerkleBlock _ _ MsgMerkleBlock_codec MsgMerkleBlock_BtcEncode_ok.

(** ** reject *)

Definition reject_ok (pver : Z) (m : MsgReject) : Prop :=
  RejectVersion <= pver /\
  (len (Reject_Cmd m) <= MaxMessagePayload /\ u8_ok (Reject_Code m) /\
   len (Reject_Reason m) <= MaxMessagePayload /\
   if reject_has_hash (Reject_Cmd m) then hash_ok (Reject_Hash m) else Reject_Hash m = zeroHash).
Definition write_reject (pver : Z) (m : MsgReject) : list byte :=
  writeVarStringBuf pver (Reject_Cmd m) ++
  binarySerializer_PutUint8 (Reject_Code m) ++
  writeVarStringBuf pver (Reject_Reason m) ++
  (if reject_has_hash (Reject_Cmd m) then Reject_Hash m else []).

#[export] Instance MsgReject_codec pver enc :
  Codec (MsgReject_BtcDecode pver enc) (write_reject pver) (reject_ok pver).
Proof.
  apply guard_codec. unfold write_reject. split.
  - intros [cmd code reason h] (Hc & Hcode & Hr & Hh).
    cbn [Reject_Cmd Reject_Code Reject_Reason Reject_Hash] in *.
    eapply reads_bind; [by apply codec_reads|].
    eapply reads_bind; [by apply codec_reads|].
    eapply reads_bind; [by apply codec_reads|].
    eapply reads_bind_ret with (a := h); [|apply reads_ret].
    destruct (reject_has_hash cmd); [by apply reads_ReadFull|].
    subst h. apply reads_ret.
  - intros bs a rest H. inv_read H as cmd mid H1. inv_read H as code mid1 H2.
    inv_read H as reason mid2 H3. inv_read H as h mid3 H4. apply mret_Ok in H as [-> ->].
    apply codec_inv in H1 as [Hc ->], H2 as [Hcode ->], H3 as [Hr ->].
    simpl. destruct (reject_has_hash cmd).
    + apply codec_inv in H4 as [Hh ->]. rewrite <- !app_assoc. auto.
    + apply mret_Ok in H4 as [-> ->]. rewrite <- !app_assoc. auto.
Qed.

Lemma MsgReject_BtcEncode_ok pver enc m :
  reject_ok pver m -> MsgReject_BtcEncode pver enc m = Ok (write_reject pver m).
Proof. intros [Hp _]. unfold MsgReject_BtcEncode. by case_bools. Qed.

#[export] Instance MsgReject_laws : MessageLaws MsgReject :=
  laws_of_sized_codec MsgReject _ _ MsgReject_codec MsgReject_BtcEncode_ok.
#[export] Instance MsgReject_canonical : CanonicalMessage MsgReject :=
  codec_canonical MsgReject _ _ MsgReject_codec MsgReject_BtcEncode_ok.

(** ** Committed filters *)

Definition getcf_ok (typ height : Z) (stop : list byte) : Prop :=
  u8_ok typ /\ u32_ok height /\ hash_ok stop.
Definition write_getcf (typ height : Z) (stop : list byte) : list byte :=
  binarySerializer_PutUint8 typ ++ le_put 4 height ++ stop.

Lemma len_put8 z : len (binarySerializer_PutUint8 z) = 1.
Proof. apply len_le_put. Qed.

Lemma len_write_getcf (pver typ height : Z) stop :
  getcf_ok typ height stop -> len (write_getcf typ height stop) <= getcf_MaxPayloadLength pver.
Proof.
  intros (_ & _ & Hs). unfold write_getcf. rewrite !len_app, len_put8, len_le_put, Hs.
  unfold getcf_MaxPayloadLength. lia.
Qed.

#[export] Instance MsgGetCFilters_codec (pver : Z) enc :
  Codec (MsgGetCFilters_BtcDecode pver enc)
    (fun m => write_getcf (GetCFilters_FilterType m) (GetCFilters_StartHeight m)
                (GetCFilters_StopHash m))
    (fun m => getcf_ok (GetCFilters_FilterType m) (GetCFilters_StartHeight m)
                (GetCFilters_StopHash m)).
Proof.
  unfold write_getcf. split.
  - intros [t h s] (Ht & Hh & Hs). reads_seq.
  - intros bs a rest H. unfold MsgGetCFilters_BtcDecode in H. exact_tac.
    rewrite <- ?app_assoc. split; [repeat (split; [done|]); done|done].
Qed.
#[export] Instance MsgGetCFHeaders_codec (pver : Z) enc :
  Codec (MsgGetCFHeaders_BtcDecode pver enc)
    (fun m => write_getcf (GetCFHeaders_FilterType m) (GetCFHeaders_StartHeight m)
                (GetCFHeaders_StopHash m))
    (fun m => getcf_ok (GetCFHeaders_FilterType m) (GetCFHeaders_StartHeight m)
                (GetCFHeaders_StopHash m)).
Proof.
  unfold write_getcf. split.
  - intros [t h s] (Ht & Hh & Hs). reads_seq.
  - intros bs a rest H. unfold MsgGetCFHeaders_BtcDecode in H. exact_tac.
    rewrite <- ?app_assoc. split; [repeat (split; [done|]); done|done].
Qed.
#[export] Instance MsgGetCFilters_laws : MessageLaws MsgGetCFilters :=
  laws_of_codec MsgGetCFilters _ _ MsgGetCFilters_codec (fun _ _ _ _ => eq_refl)
    (fun pver _ m => len_write_getcf pver _ _ _).
#[export] Instance MsgGetCFilters_canonical : CanonicalMessage MsgGetCFilters :=
  codec_canonical MsgGetCFilters _ _ MsgGetCFilters_codec (fun _ _ _ _ => eq_refl).
#[export] Instance MsgGetCFHeaders_laws : MessageLaws MsgGetCFHeaders :=
  laws_of_codec MsgGetCFHeaders _ _ MsgGetCFHeaders_codec (fun _ _ _ _ => eq_refl)
    (fun pver _ m => len_write_getcf pver _ _ _).
#[export] Instance MsgGetCFHeaders_canonical : CanonicalMessage MsgGetCFHeaders :=
  codec_canonical MsgGetCFHeaders _ _ MsgGetCFHeaders_codec (fun _ _ _ _ => eq_refl).

Definition getcfcheckpt_ok (m : MsgGetCFCheckpt) : Prop :=
  u8_ok (GetCFCheckpt_FilterType m) /\ hash_ok (GetCFCheckpt_StopHash m).
Definition write_getcfcheckpt (m : MsgGetCFCheckpt) : list byte :=
  binarySerializer_PutUint8 (GetCFCheckpt_FilterType m) ++ GetCFCheckpt_StopHash m.

#[export] Instance MsgGetCFCheckpt_codec (pver : Z) enc :
  Codec (MsgGetCFCheckpt_BtcDecode pver enc) write_getcfcheckpt getcfcheckpt_ok.
Proof.
  unfold write_getcfcheckpt. split.
  - intros [t s] (Ht & Hs). reads_seq.
  - intros bs a rest H. unfold MsgGetCFCheckpt_BtcDecode in H. exact_tac.
    rewrite <- ?app_assoc. split; [repeat (split; [done|]); done|done].
Qed.
Lemma len_write_getcfcheckpt pver (enc : MessageEncoding) m :
  getcfcheckpt_ok m -> len (write_getcfcheckpt m) <= MsgGetCFCheckpt_MaxPayloadLength pver.
Proof.
  intros [_ Hs]. unfold write_getcfcheckpt. rewrite len_app, len_put8, Hs.
  unfold MsgGetCFCheckpt_MaxPayloadLength. lia.
Qed.
#[export] Instance MsgGetCFCheckpt_laws : MessageLaws MsgGetCFCheckpt :=
  laws_of_codec MsgGetCFCheckpt (fun _ _ => getcfcheckpt_ok) (fun _ _ => write_getcfcheckpt)
    MsgGetCFCheckpt_codec (fun _ _ _ _ => eq_refl) len_write_getcfcheckpt.
#[export] Instance MsgGetCFCheckpt_canonical : CanonicalMessage MsgGetCFCheckpt :=
  codec_canonical MsgGetCFCheckpt (fun _ _ => getcfcheckpt_ok) (fun _ _ => write_getcfcheckpt)
    MsgGetCFCheckpt_codec (fun _ _ _ _ => eq_refl).

Definition cfilter_ok (m : MsgCFilter) : Prop :=
  u8_ok (CFilter_FilterType m) /\ hash_ok (CFilter_BlockHash m) /\
  len (CFilter_Data m) <= MaxCFilterDataSize.
Definition write_cfilter (pver : Z) (m : MsgCFilter) : list byte :=
  binarySerializer_PutUint8 (CFilter_FilterType m) ++ CFilter_BlockHash m ++
  WriteVarBytesBuf pver (CFilter_Data m).

#[export] Instance MsgCFilter_codec pver enc :
  Codec (MsgCFilter_BtcDecode pver enc) (write_cfilter pver) cfilter_ok.
Proof.
  unfold write_cfilter. split.
  - intros [t h d] (Ht & Hh & Hd). reads_seq.
  - intros bs a rest H. unfold MsgCFilter_BtcDecode in H. exact_tac.
    rewrite <- ?app_assoc. split; [repeat (split; [done|]); done|done].
Qed.
Lemma MsgCFilter_BtcEncode_ok pver enc m :
  cfilter_ok m -> MsgCFilter_BtcEncode pver enc m = Ok (write_cfilter pver m).
Proof. intros (_ & _ & Hl). unfold MsgCFilter_BtcEncode. by case_bools. Qed.
Lemma len_write_cfilter pver (enc : MessageEncoding) m :
  cfilter_ok m -> len (write_cfilter pver m) <= MsgCFilter_MaxPayloadLength pver.
Proof.
  intros (_ & Hh & Hl). unfold write_cfilter. rewrite !len_app, len_put8, Hh.
  apply (len_WriteVarBytes_le pver) in Hl. unfold MsgCFilter_MaxPayloadLength.
  change (wrap_u32 (VarIntSerializeSize MaxCFilterDataSize)) with
    (VarIntSerializeSize MaxCFilterDataSize). lia.
Qed.
#[export] Instance MsgCFilter_laws : MessageLaws MsgCFilter :=
  laws_of_codec MsgCFilter (fun _ _ => cfilter_ok) _ MsgCFilter_codec MsgCFilter_BtcEncode_ok
    len_write_cfilter.
#[export] Instance MsgCFilter_canonical : CanonicalMessage MsgCFilter :=
  codec_canonical MsgCFilter (fun _ _ => cfilter_ok) _ MsgCFilter_codec MsgCFilter_BtcEncode_ok.

Definition cfheaders_ok (m : MsgCFHeaders) : Prop :=
  u8_ok (CFHeaders_FilterType m) /\ hash_ok (CFHeaders_StopHash m) /\
  hash_ok (CFHeaders_PrevFilterHeader m) /\
  len (CFHeaders_FilterHashes m) <= MaxCFHeadersPerMsg /\
  Forall hash_ok (CFHeaders_FilterHashes m).
Definition write_cfheaders (pver : Z) (m : MsgCFHeaders) : list byte :=
  binarySerializer_PutUint8 (CFHeaders_FilterType m) ++ CFHeaders_StopHash m ++
  CFHeaders_PrevFilterHeader m ++ write_list pver write_hash (CFHeaders_FilterHashes m).

#[export] Instance MsgCFHeaders_codec pver enc :
  Codec (MsgCFHeaders_BtcDecode pver enc) (write_cfheaders pver) cfheaders_ok.
Proof.
  unfold write_cfheaders. split.
  - intros [t s p l] (Ht & Hs & Hp & Hl & HF). reads_seq.
  - intros bs a rest H. unfold MsgCFHeaders_BtcDecode in H. exact_tac.
    rewrite <- ?app_assoc. destruct_and?. split; [repeat (split; [done|]); done|done].
Qed.
Lemma MsgCFHeaders_BtcEncode_ok pver enc m :
  cfheaders_ok m -> MsgCFHeaders_BtcEncode pver enc m = Ok (write_cfheaders pver m).
Proof. intros (_ & _ & _ & Hl & _). unfold MsgCFHeaders_BtcEncode. by case_bools. Qed.
Lemma len_write_cfheaders pver (enc : MessageEncoding) m :
  cfheaders_ok m -> len (write_cfheaders pver m) <= MsgCFHeaders_MaxPayloadLength pver.
Proof.
  intros (_ & Hs & Hp & Hl & HF). unfold write_cfheaders.
  rewrite !len_app, len_put8, Hs, Hp. pose proof (len_write_hashes pver _ _ Hl HF).
  unfold MsgCFHeaders_MaxPayloadLength. lia.
Qed.
#[export] Instance MsgCFHeaders_laws : MessageLaws MsgCFHeaders :=
  laws_of_codec MsgCFHeaders (fun _ _ => cfheaders_ok) _ MsgCFHeaders_codec
    MsgCFHeaders_BtcEncode_ok len_write_cfheaders.
#[export] Instance MsgCFHeaders_canonical : CanonicalMessage MsgCFHeaders :=
  codec_canonical MsgCFHeaders (fun _ _ => cfheaders_ok) _ MsgCFHeaders_codec
    MsgCFHeaders_BtcEncode_ok.

Definition cfcheckpt_ok (m : MsgCFCheckpt) : Prop :=
  u8_ok (CFCheckpt_FilterType m) /\ hash_ok (CFCheckpt_StopHash m) /\
  len (CFCheckpt_FilterHeaders m) <= maxCFHeadersLen /\
  Forall hash_ok (CFCheckpt_FilterHeaders m).
Definition write_cfcheckpt (pver : Z) (m : MsgCFCheckpt) : list byte :=
  binarySerializer_PutUint8 (CFCheckpt_FilterType m) ++ CFCheckpt_StopHash m ++
  write_list pver write_hash (CFCheckpt_FilterHeaders m).

#[export] Instance MsgCFCheckpt_codec pver enc :
  Codec (MsgCFCheckpt_BtcDecode pver enc) (write_cfcheckpt pver) cfcheckpt_ok.
Proof.
  unfold write_cfcheckpt. split.
  - intros [t s l] (Ht & Hs & Hl & HF). reads_seq.
  - intros bs a rest H. unfold MsgCFCheckpt_BtcDecode in H. exact_tac.
    rewrite <- ?app_assoc. destruct_and?. split; [repeat (split; [done|]); done|done].
Qed.
Lemma len_write_cfcheckpt pver (enc : MessageEncoding) m :
  cfcheckpt_ok m -> len (write_cfcheckpt pver m) <= MsgCFCheckpt_MaxPayloadLength pver.
Proof.
  intros (_ & Hs & Hl & HF). unfold write_cfcheckpt, write_list.
  rewrite !len_app, len_put8, Hs, length_WriteVarIntBuf by apply len_nonneg.
  rewrite (len_write_all _ chainhash_HashSize).
  - pose proof (len_nonneg (CFCheckpt_FilterHeaders m)).
    pose proof (VarIntSerializeSize_mono (len (CFCheckpt_FilterHeaders m)) maxCFHeadersLen) as Hv.
    change (VarIntSerializeSize maxCFHeadersLen) with 5 in Hv.
    unfold MsgCFCheckpt_MaxPayloadLength, maxCFCheckptPayload, chainhash_HashSize. lia.
  - intros h Hh. rewrite Forall_forall in HF. by apply HF, list_elem_of_In.
Qed.
#[export] Instance MsgCFCheckpt_laws : MessageLaws MsgCFCheckpt :=
  laws_of_codec MsgCFCheckpt (fun _ _ => cfcheckpt_ok) (fun pver _ => write_cfcheckpt pver)
    MsgCFCheckpt_codec (fun _ _ _ _ => eq_refl) len_write_cfcheckpt.
#[export] Instance MsgCFCheckpt_canonical : CanonicalMessage MsgCFCheckpt :=
  codec_canonical MsgCFCheckpt (fun _ _ => cfcheckpt_ok) (fun pver _ => write_cfcheckpt pver)
    MsgCFCheckpt_codec (fun _ _ _ _ => eq_refl).

(** ** tx, block *)

#[export] Instance MsgTx_laws : MessageLaws MsgTx :=
  laws_of_sized_codec MsgTx (fun _ => tx_normal) MsgTx_BtcEncode MsgTx_codec
    (fun _ _ _ _ => eq_refl).
#[export] Instance MsgTx_canonical : CanonicalMessage MsgTx :=
  codec_canonical MsgTx _ _ MsgTx_codec (fun _ _ _ _ => eq_refl).
#[export] Instance MsgBlock_laws : MessageLaws MsgBlock :=
  laws_of_sized_codec MsgBlock _ MsgBlock_BtcEncode MsgBlock_codec (fun _ _ _ _ => eq_refl).
#[export] Instance MsgBlock_canonical : CanonicalMessage MsgBlock :=
  codec_canonical MsgBlock _ _ MsgBlock_codec (fun _ _ _ _ => eq_refl).

(** ** addr, addrv2 *)

Definition addr_list_ok (pver : Z) (l : list NetAddress) : Prop :=
  len l <= MaxAddrPerMsg /\ Forall (NetAddress_ok pver true) l.
Definition addr_ok (pver : Z) (enc : MessageEncoding) (m : MsgAddr) : Prop :=
  addr_list_ok pver (MsgAddr_AddrList m) /\
  (pver < MultipleAddressVersion -> len (MsgAddr_AddrList m) <= 1).

#[export] Instance MsgAddr_codec pver enc :
  Codec (MsgAddr_BtcDecode pver enc)
    (fun m => write_list pver (writeNetAddressBuf pver true) (MsgAddr_AddrList m))
    (fun m => addr_list_ok pver (MsgAddr_AddrList m)).
Proof. apply (map_codec _ _ (addr_list_ok pver)); [apply _|done|by intros []]. Qed.

Lemma MsgAddr_roundtrip pver enc m :
  addr_ok pver enc m ->
  exists bs, BtcEncode pver enc m = Ok bs /\ BtcDecode pver enc bs = Ok (m, []) /\
    len bs <= MaxPayloadLength MsgAddr pver.
Proof.
  intros [[Hl HF] H1].
  exists (write_list pver (writeNetAddressBuf pver true) (MsgAddr_AddrList m)).
  split; [|split].
  - simpl. unfold MsgAddr_BtcEncode. destruct (Z.ltb_spec pver MultipleAddressVersion) as [Hp|Hp].
    + specialize (H1 Hp). cbn [andb]. case_bools. done.
    + cbn [andb]. by case_bools.
  - rewrite <- (app_nil_r (write_list _ _ _)). by apply (codec_reads (Codec := MsgAddr_codec pver enc)).
  - simpl. unfold MsgAddr_MaxPayloadLength.
    assert (Hn : 0 <= maxNetAddressPayload pver) by (unfold maxNetAddressPayload; case_bools).
    assert (Hmax : forall max, len (MsgAddr_AddrList m) <= max ->
      len (write_list pver (writeNetAddressBuf pver true) (MsgAddr_AddrList m)) <=
      MaxVarIntPayload + max * maxNetAddressPayload pver).
    { intros max Hm. eapply len_write_list; [|done|done|exact HF].
      intros a _. apply len_writeNetAddressBuf. }
    destruct (Z.ltb_spec pver MultipleAddressVersion) as [Hp|Hp]; [|by apply Hmax].
    specialize (Hmax 1 (H1 Hp)). lia.
Qed.

#[export] Instance MsgAddr_laws : MessageLaws MsgAddr :=
  {| msg_ok := addr_ok; msg_roundtrip := MsgAddr_roundtrip |}.

Definition addrv2_ok (m : MsgAddrV2) : Prop :=
  len (MsgAddrV2_AddrList m) <= MaxV2AddrPerMsg /\
  Forall NetAddressV2_ok (MsgAddrV2_AddrList m).

Lemma addrv2_loop_reads pver l acc :
  Forall NetAddressV2_ok l ->
  exists bs, write_addrs_v2 pver l = Ok bs /\
    reads (addrv2_loop pver (length l) acc) bs (acc ++ l) /\
    len bs <= len l * maxNetAddressV2Payload.
Proof.
  intros HF. revert acc. induction HF as [|na l Hna _ IH]; intros acc.
  - exists []. rewrite app_nil_r. split; [done|]. split; [apply reads_ret|done].
  - destruct (readNetAddressV2_reads pver na Hna) as (bs1 & He1 & Hr1 & Hl1).
    destruct (IH (add_known acc (Some na))) as (bs2 & He2 & Hr2 & Hl2).
    exists (bs1 ++ bs2). simpl. rewrite He1, He2. split; [done|]. split.
    + eapply reads_bind; [exact Hr1|]. simpl in Hr2. by rewrite <- app_assoc in Hr2.
    + rewrite len_app. assert (len (na :: l) = 1 + len l) as -> by (unfold len; simpl length; lia).
      lia.
Qed.

Lemma MsgAddrV2_roundtrip pver (enc : MessageEncoding) m :
  addrv2_ok m ->
  exists bs, BtcEncode pver enc m = Ok bs /\ BtcDecode pver enc bs = Ok (m, []) /\
    len bs <= MaxPayloadLength MsgAddrV2 pver.
Proof.
  destruct m as [l]. intros [Hl HF]. simpl in Hl, HF.
  destruct (addrv2_loop_reads pver l [] HF) as (bs & He & Hr & Hlen).
  pose proof (len_nonneg l) as Hl0.
  exists (WriteVarInt pver (len l) ++ bs). split; [|split].
  - simpl. unfold MsgAddrV2_BtcEncode. simpl. case_bools. by rewrite He.
  - rewrite <- (app_nil_r (WriteVarInt _ _ ++ _)).
    enough (reads (MsgAddrV2_BtcDecode pver enc) (WriteVarInt pver (len l) ++ bs) (mkMsgAddrV2 l))
      as Hd by apply Hd.
    eapply reads_bind; [apply codec_reads; unfold MaxV2AddrPerMsg in *; lia|].
    case_bools. rewrite to_nat_len. eapply reads_bind_ret; [exact Hr|apply reads_ret].
  - simpl. unfold MsgAddrV2_MaxPayloadLength, WriteVarInt.
    rewrite len_app, length_WriteVarIntBuf by done.
    pose proof (VarIntSerializeSize_mono (len l) MaxV2AddrPerMsg (conj Hl0 Hl)) as Hv.
    change (VarIntSerializeSize MaxV2AddrPerMsg) with 3 in Hv.
    unfold maxNetAddressV2Payload in *. lia.
Qed.

#[export] Instance MsgAddrV2_laws : MessageLaws MsgAddrV2 :=
  {| msg_ok := fun _ _ => addrv2_ok; msg_roundtrip := MsgAddrV2_roundtrip |}.

(** ** version *)

Record version_ok (pver : Z) (enc : MessageEncoding) (m : MsgVersion) : Prop := {
  vok_pver : i32_ok (Version_ProtocolVersion m);
  vok_services : u64_ok (Version_Services m);
  vok_stamp : i64_ok (Version_Timestamp m);
  vok_you : NetAddress_ok pver false (Version_AddrYou m);
  vok_me : NetAddress_ok pver false (Version_AddrMe m);
  vok_nonce : u64_ok (Version_Nonce m);
  vok_agent : len (Version_UserAgent m) <= MaxUserAgentLen;
  vok_last : i32_ok (Version_LastBlock m);
  vok_relay : pver < BIP0037Version -> Version_DisableRelayTx m = false;
}.

Lemma if_more_reads {A} (m : Reader A) dflt bs a :
  bs <> [] -> reads m bs a -> reads (if_more m dflt) bs a.
Proof.
  intros Hne Hr rest. unfold if_more. rewrite len_app.
  assert (0 < len bs) by (destruct bs; [done|]; unfold len; simpl; lia).
  pose proof (len_nonneg rest). case_bools. apply Hr.
Qed.

Lemma len_pos_nonempty {A} (l : list A) : 0 < len l -> l <> [].
Proof. by intros H ->. Qed.

Definition write_version_body (pver : Z) (m : MsgVersion) : list byte :=
  writeElement K_int32 (Version_ProtocolVersion m) ++
  writeElement K_ServiceFlag (Version_Services m) ++
  writeElement K_int64 (Version_Timestamp m) ++
  writeNetAddress pver false (Version_AddrYou m) ++
  writeNetAddress pver false (Version_AddrMe m) ++
  writeElement K_uint64 (Version_Nonce m) ++
  WriteVarString pver (Version_UserAgent m) ++
  writeElement K_int32 (Version_LastBlock m) ++
  (if BIP0037Version <=? pver
   then writeElement K_bool (negb (Version_DisableRelayTx m)) else []).

Lemma read_user_agent_reads pver agent :
  len agent <= MaxUserAgentLen ->
  reads (userAgent ← ReadVarString pver; _ ← lift (validateUserAgent userAgent); mret userAgent)
    (WriteVarString pver agent) agent.
Proof.
  intros Hl. eapply reads_bind_ret.
  { apply (codec_reads (Codec := VarString_codec pver)). unfold MaxUserAgentLen, MaxMessagePayload in *. lia. }
  intros rest. unfold validateUserAgent, lift, mbind, reader_bind. by case_bools.
Qed.

Lemma len_WriteVarString pver s :
  len (WriteVarString pver s) = VarIntSerializeSize (len s) + len s.
Proof. apply (len_WriteVarBytesBuf pver s). Qed.

Lemma len_writeElements e1 e2 e3 e4 :
  len (writeElement K_int32 e1) = 4 /\ len (writeElement K_ServiceFlag e2) = 8 /\
  len (writeElement K_int64 e3) = 8 /\ len (writeElement K_bool e4) = 1.
Proof.
  cbn [writeElement]. unfold binarySerializer_PutUint32, binarySerializer_PutUint64,
    binarySerializer_PutUint8. by rewrite !len_order_put, len_le_put.
Qed.

Lemma len_writeNetAddress_pos pver ts na : 0 < len (writeNetAddress pver ts na).
Proof.
  unfold writeNetAddress, writeNetAddressBuf. rewrite !len_app, len_copy_array, len_le_put.
  match goal with |- context [len (if ?b then _ else _)] =>
    pose proof (len_nonneg (if b then le_put 4 (wrap_u32 (NA_Timestamp na)) else [])) end.
  pose proof (len_nonneg (binarySerializer_PutUint16 bigEndian (NA_Port na))). lia.
Qed.

Lemma MsgVersion_decodes pver enc m :
  version_ok pver enc m ->
  MsgVersion_BtcDecode pver enc (write_version_body pver m) = Ok (m, []).
Proof.
  intros [H1 H2 H3 H4 H5 H6 H7 H8 H9]. destruct m as [pv sv st you me nc ag lb dr].
  unfold write_version_body.
  cbn [Version_ProtocolVersion Version_Services Version_Timestamp Version_AddrYou
       Version_AddrMe Version_Nonce Version_UserAgent Version_LastBlock
       Version_DisableRelayTx] in *.
  assert (Hne : forall k e, k <> K_command -> k <> K_bytes4 -> k <> K_bytes16 -> k <> K_Hash ->
    writeElement k e <> []).
  { intros k e. destruct k; try done; intros _ _ _ _; apply len_pos_nonempty;
      cbn [writeElement]; unfold binarySerializer_PutUint32, binarySerializer_PutUint64,
      binarySerializer_PutUint8; rewrite ?len_order_put, ?len_le_put; lia. }
  assert (Hc : forall k, k <> K_bool -> Codec (readElement k) (writeElement k) (elem_ok k))
    by apply readElement_codec.
  unfold MsgVersion_BtcDecode.
  rewrite (bind_reads _ _ _ _ _ (codec_reads (Codec := Hc K_int32 ltac:(done)) pv H1)).
  rewrite (bind_reads _ _ _ _ _ (codec_reads (Codec := Hc K_ServiceFlag ltac:(done)) sv H2)).
  rewrite (bind_reads _ _ _ _ _ (codec_reads (Codec := Hc K_int64Time ltac:(done)) st H3)).
  rewrite (bind_reads _ _ _ _ _ (codec_reads (Codec := NetAddress_codec pver false) you H4)).
  rewrite (bind_reads _ _ _ _ _ (if_more_reads _ _ _ _
    (len_pos_nonempty _ (len_writeNetAddress_pos pver false me))
    (codec_reads (Codec := NetAddress_codec pver false) me H5))).
  rewrite (bind_reads _ _ _ _ _ (if_more_reads _ _ _ _ (Hne K_uint64 nc ltac:(done) ltac:(done) ltac:(done) ltac:(done))
    (codec_reads (Codec := Hc K_uint64 ltac:(done)) nc H6))).
  assert (Hag : WriteVarString pver ag <> []).
  { apply len_pos_nonempty. rewrite len_WriteVarString. pose proof (len_nonneg ag).
    pose proof (VarIntSerializeSize_bounds (len ag)). lia. }
  rewrite (bind_reads _ _ _ _ _ (if_more_reads _ _ _ _ Hag (read_user_agent_reads pver ag H7))).
  rewrite (bind_reads _ _ _ _ _ (if_more_reads _ _ _ _ (Hne K_int32 lb ltac:(done) ltac:(done) ltac:(done) ltac:(done))
    (codec_reads (Codec := Hc K_int32 ltac:(done)) lb H8))).
  unfold mbind at 1, reader_bind at 1. destruct (Z.leb_spec BIP0037Version pver).
  - rewrite <- (app_nil_r (writeElement K_bool _)), if_more_reads with (a := dr);
      [done|by apply Hne|].
    eapply reads_bind_ret; [apply readElement_bool|]. rewrite negb_involutive. apply reads_ret.
  - by rewrite (H9 ltac:(lia)).
Qed.

Lemma len_write_version pver enc m :
  version_ok pver enc m -> len (write_version_body pver m) <= MsgVersion_MaxPayloadLength pver.
Proof.
  intros Hok. unfold write_version_body, MsgVersion_MaxPayloadLength.
  rewrite !len_app.
  destruct (len_writeElements (Version_ProtocolVersion m) (Version_Services m)
    (Version_Timestamp m) (negb (Version_DisableRelayTx m))) as (-> & -> & -> & Hb).
  destruct (len_writeElements (Version_LastBlock m) (Version_Nonce m) 0 true) as (-> & Hn & _ & _).
  change (writeElement K_uint64 (Version_Nonce m)) with (writeElement K_ServiceFlag (Version_Nonce m)).
  rewrite Hn, len_WriteVarString.
  pose proof (len_writeNetAddressBuf pver false (Version_AddrYou m)).
  pose proof (len_writeNetAddressBuf pver false (Version_AddrMe m)).
  pose proof (VarIntSerializeSize_mono (len (Version_UserAgent m)) MaxUserAgentLen
    (conj (len_nonneg _) (vok_agent _ _ _ Hok))) as Hv.
  change (VarIntSerializeSize MaxUserAgentLen) with 3 in Hv.
  pose proof (vok_agent _ _ _ Hok). unfold writeNetAddress, MaxVarIntPayload in *.
  assert (len (if BIP0037Version <=? pver
     then writeElement K_bool (negb (Version_DisableRelayTx m)) else []) <= 1)
    by (case_match; [rewrite Hb; lia|done]).
  lia.
Qed.

Lemma MsgVersion_roundtrip pver enc m :
  version_ok pver enc m ->
  exists bs, BtcEncode pver enc m = Ok bs /\ BtcDecode pver enc bs = Ok (m, []) /\
    len bs <= MaxPayloadLength MsgVersion pver.
Proof.
  intros Hok. exists (write_version_body pver m). split; [|split].
  - simpl. unfold MsgVersion_BtcEncode, validateUserAgent.
    pose proof (vok_agent _ _ _ Hok). case_bool; [lia|done].
  - by apply MsgVersion_decodes.
  - by eapply len_write_version.
Qed.

#[export] Instance MsgVersion_laws : MessageLaws MsgVersion :=
  {| msg_ok := version_ok; msg_roundtrip := MsgVersion_roundtrip |}.
