(* ===== verification/WireMessage.v ===== *)
(** * wire/message.go: message framing

    An [AnyMessage] is a value of the Go interface type [Message]: a concrete
    type, its methods and the value.  A read returns the number of bytes it
    counted, the message or the error, and the input that is left, because the
    caller keeps reading from the same connection after most errors. *)

From Stdlib Require Import ZArith Lia.
From S2P Require Import Prelude WireCommon WireTx ChainHash WireBlock WireNet WireMsgs WireMsgLaws.

Record MessageType : Type := mkType { mt_type : Type; mt_inst : Message mt_type }.
Record AnyMessage : Type := mkAny {
  any_type : Type;
  any_inst : Message any_type;
  any_val : any_type;
}.
#[global] Arguments mkType _ {_}.
#[global] Arguments mkAny {_ _} _.

Definition MessageHeaderSize : Z := 24.

(** The type of the empty message made for a command; [None] is
    [ErrUnknownMessage]. *)
Definition makeEmptyMessage (command : list byte) : option MessageType :=
  if bool_decide (command = CmdVersion) then Some (mkType MsgVersion)
  else if bool_decide (command = CmdVerAck) then Some (mkType MsgVerAck)
  else if bool_decide (command = CmdSendAddrV2) then Some (mkType MsgSendAddrV2)
  else if bool_decide (command = CmdGetAddr) then Some (mkType MsgGetAddr)
  else if bool_decide (command = CmdAddr) then Some (mkType MsgAddr)
  else if bool_decide (command = CmdAddrV2) then Some (mkType MsgAddrV2)
  else if bool_decide (command = CmdGetBlocks) then Some (mkType MsgGetBlocks)
  else if bool_decide (command = CmdBlock) then Some (mkType MsgBlock)
  else if bool_decide (command = CmdInv) then Some (mkType MsgInv)
  else if bool_decide (command = CmdGetData) then Some (mkType MsgGetData)
  else if bool_decide (command = CmdNotFound) then Some (mkType MsgNotFound)
  else if bool_decide (command = CmdTx) then Some (mkType MsgTx)
  else if bool_decide (command = CmdPing) then Some (mkType MsgPing)
  else if bool_decide (command = CmdPong) then Some (mkType MsgPong)
  else if bool_decide (command = CmdGetHeaders) then Some (mkType MsgGetHeaders)
  else if bool_decide (command = CmdHeaders) then Some (mkType MsgHeaders)
  else if bool_decide (command = CmdMemPool) then Some (mkType MsgMemPool)
  else if bool_decide (command = CmdFilterAdd) then Some (mkType MsgFilterAdd)
  else if bool_decide (command = CmdFilterClear) then Some (mkType MsgFilterClear)
  else if bool_decide (command = CmdFilterLoad) then Some (mkType MsgFilterLoad)
  else if bool_decide (command = CmdMerkleBlock) then Some (mkType MsgMerkleBlock)
  else if bool_decide (command = CmdReject) then Some (mkType MsgReject)
  else if bool_decide (command = CmdSendHeaders) then Some (mkType MsgSendHeaders)
  else if bool_decide (command = CmdFeeFilter) then Some (mkType MsgFeeFilter)
  else if bool_decide (command = CmdGetCFilters) then Some (mkType MsgGetCFilters)
  else if bool_decide (command = CmdGetCFHeaders) then Some (mkType MsgGetCFHeaders)
  else if bool_decide (command = CmdGetCFCheckpt) then Some (mkType MsgGetCFCheckpt)
  else if bool_decide (command = CmdCFilter) then Some (mkType MsgCFilter)
  else if bool_decide (command = CmdCFHeaders) then Some (mkType MsgCFHeaders)
  else if bool_decide (command = CmdCFCheckpt) then Some (mkType MsgCFCheckpt)
  else None.

(** ** Standard library: [utf8.ValidString], [bytes.TrimRight(s, "\x00")] *)

Definition in_range (lo hi : Z) (b : byte) : bool := (lo <=? b2z b) && (b2z b <=? hi).
Abbreviation is_cont := (in_range 0x80 0xbf).

Fixpoint utf8_ValidString (s : list byte) : bool :=
  match s with
  | [] => true
  | b0 :: s0 =>
      if in_range 0 0x7f b0 then utf8_ValidString s0 else
      match s0 with
      | [] => false
      | b1 :: s1 =>
          if in_range 0xc2 0xdf b0 then is_cont b1 && utf8_ValidString s1 else
          match s1 with
          | [] => false
          | b2 :: s2 =>
              if in_range 0xe0 0xef b0 then
                in_range (if b2z b0 =? 0xe0 then 0xa0 else 0x80)
                  (if b2z b0 =? 0xed then 0x9f else 0xbf) b1 &&
                is_cont b2 && utf8_ValidString s2
              else
                match s2 with
                | [] => false
                | b3 :: s3 =>
                    in_range 0xf0 0xf4 b0 &&
                    in_range (if b2z b0 =? 0xf0 then 0x90 else 0x80)
                      (if b2z b0 =? 0xf4 then 0x8f else 0xbf) b1 &&
                    is_cont b2 && is_cont b3 && utf8_ValidString s3
                end
          end
      end
  end.

Fixpoint strip_zeros (l : list byte) : list byte :=
  match l with
  | b :: l' => if bool_decide (b = x00) then strip_zeros l' else l
  | [] => []
  end.
Definition TrimRight_zeros (l : list byte) : list byte := rev (strip_zeros (rev l)).

(** ** Headers *)

Record messageHeader : Type := mkHeader {
  hdr_magic : Z;
  hdr_command : list byte;
  hdr_length : Z;
  hdr_checksum : list byte;
}.

(** [readElements] of the four fields of a header that has been read whole. *)
Definition parse_header : Reader messageHeader :=
  magic ← readElement K_BitcoinNet;
  command ← readElement K_command;
  length ← readElement K_uint32;
  checksum ← readElement K_bytes4;
  mret (mkHeader magic (TrimRight_zeros command) length checksum).

(** [io.ReadFull] with the count of bytes it returns and what is left. *)
Definition ReadFull_n (n : Z) (r : list byte) : Z * result wire_error (list byte) * list byte :=
  match ReadFull n r with
  | Ok (buf, r') => (n, Ok buf, r')
  | Err e => (len r, Err e, [])
  end.

Definition readMessageHeader (r : list byte)
    : Z * result wire_error messageHeader * list byte :=
  match ReadFull_n MessageHeaderSize r with
  | (n, Err e, r') => (n, Err e, r')
  | (n, Ok headerBytes, r') =>
      match parse_header headerBytes with
      | Ok (hdr, _) => (n, Ok hdr, r')
      | Err _ => (n, Ok (mkHeader 0 [] 0 []), r')
      end
  end.

Definition readPartialHeader (prefix r : list byte)
    : Z * result wire_error messageHeader * list byte :=
  match (magic ← readElement K_BitcoinNet; command ← readElement K_command;
         mret (magic, command)) prefix with
  | Err e => (0, Err e, r)
  | Ok ((magic, command), _) =>
      match (length ← readElement K_uint32; checksum ← readElement K_bytes4;
             mret (length, checksum)) r with
      | Err e => (0, Err e, [])
      | Ok ((length, checksum), r') =>
          (MessageHeaderSize, Ok (mkHeader magic (TrimRight_zeros command) length checksum), r')
      end
  end.

(** ** Skipping a payload *)

(** [io.ReadFull(r, buf)] whose result is dropped. *)
Definition skip_full (n : Z) (r : list byte) : list byte :=
  match ReadFull n r with Ok (_, r') => r' | Err _ => [] end.

Fixpoint skip_loop (numReads : nat) (n : Z) (r : list byte) : list byte :=
  match numReads with
  | O => r
  | S k => skip_loop k n (skip_full n r)
  end.

Definition discardInput (r : list byte) (n : Z) : list byte :=
  let maxSize := 10 * 1024 in
  let numReads := n / maxSize in
  let bytesRemaining := n mod maxSize in
  let r := if 0 <? n then skip_loop (Z.to_nat numReads) maxSize r else r in
  if 0 <? bytesRemaining then skip_full bytesRemaining r else r.

(** ** Reading *)

Definition read_outcome : Type := Z * result wire_error (AnyMessage * list byte) * list byte.

Definition readMessageWithEncodingNInternal (r : list byte) (pver : Z) (hdr : messageHeader)
    (btcnet : Z) (enc : MessageEncoding) (totalBytes : Z) : read_outcome :=
  if MaxProtocolMessageLength <? hdr_length hdr
  then (totalBytes, Err (MessageError "ReadMessage"), r)
  else if negb (hdr_magic hdr =? btcnet)
  then (totalBytes, Err (MessageError "ReadMessage"), discardInput r (hdr_length hdr))
  else
    let command := hdr_command hdr in
    if negb (utf8_ValidString command)
    then (totalBytes, Err (MessageError "ReadMessage"), discardInput r (hdr_length hdr))
    else
      match makeEmptyMessage command with
      | None => (totalBytes, Err ErrUnknownMessage, discardInput r (hdr_length hdr))
      | Some (mkType M) =>
          let mpl := MaxPayloadLength M pver in
          if mpl <? hdr_length hdr
          then (totalBytes, Err (MessageError "ReadMessage"), discardInput r (hdr_length hdr))
          else
            match ReadFull_n (hdr_length hdr) r with
            | (n, Err e, r') => (totalBytes + n, Err e, r')
            | (n, Ok payload, r') =>
                let totalBytes := totalBytes + n in
                let checksum := take 4 (DoubleHashB payload) in
                if negb (bool_decide (checksum = hdr_checksum hdr))
                then (totalBytes, Err (MessageError "ReadMessage"), r')
                else
                  match BtcDecode (M := M) pver enc payload with
                  | Err e => (totalBytes, Err e, r')
                  | Ok (msg, pr) =>
                      if 0 <? len pr
                      then (totalBytes, Err (MessageError "ReadMessage"), r')
                      else (totalBytes, Ok (mkAny msg, payload), r')
                  end
            end
      end.

Definition ReadMessageWithEncodingN (r : list byte) (pver btcnet : Z) (enc : MessageEncoding)
    : read_outcome :=
  match readMessageHeader r with
  | (n, Err e, r') => (n, Err e, r')
  | (n, Ok hdr, r') => readMessageWithEncodingNInternal r' pver hdr btcnet enc n
  end.

Definition ReadPartialMessageWithEncodingN (r : list byte) (pver btcnet : Z)
    (enc : MessageEncoding) (prefix : list byte) : read_outcome :=
  match readPartialHeader prefix r with
  | (n, Err e, r') => (n, Err e, r')
  | (n, Ok hdr, r') => readMessageWithEncodingNInternal r' pver hdr btcnet enc n
  end.

Definition ReadMessageN (r : list byte) (pver btcnet : Z) : read_outcome :=
  ReadMessageWithEncodingN r pver btcnet BaseEncoding.
Definition ReadMessage (r : list byte) (pver btcnet : Z)
    : result wire_error (AnyMessage * list byte) * list byte :=
  match ReadMessageN r pver btcnet with (_, res, r') => (res, r') end.

(** ** Writing: the bytes written, all of them or none *)

(** The payload, when it is within both limits. *)
Definition encode_payload (msg : AnyMessage) (pver : Z) (encoding : MessageEncoding)
    : result wire_error (list byte) :=
  let '@mkAny M HM m := msg in
  match BtcEncode pver encoding m with
  | Err e => Err e
  | Ok payload =>
      let lenp := len payload in
      if MaxProtocolMessageLength <? lenp then Err (MessageError "WriteMessage")
      else if MaxPayloadLength M pver <? wrap_u32 lenp then Err (MessageError "WriteMessage")
      else Ok payload
  end.

Definition any_Command (msg : AnyMessage) : list byte := @Command _ (any_inst msg).

Definition WriteMessageWithEncodingN (msg : AnyMessage) (pver btcnet : Z)
    (encoding : MessageEncoding) : result wire_error (list byte) :=
  let cmd := any_Command msg in
  if CommandSize <? len cmd then Err (MessageError "WriteMessage")
  else
    let command := copy_array 12 cmd in
    match encode_payload msg pver encoding with
    | Err e => Err e
    | Ok payload =>
        let hdr := mkHeader btcnet cmd (wrap_u32 (len payload)) (take 4 (DoubleHashB payload)) in
        Ok (writeElement K_BitcoinNet (hdr_magic hdr) ++
            writeElement K_command command ++
            writeElement K_uint32 (hdr_length hdr) ++
            writeElement K_bytes4 (hdr_checksum hdr) ++ payload)
    end.

Definition WriteMessageN (msg : AnyMessage) (pver btcnet : Z) : result wire_error (list byte) :=
  WriteMessageWithEncodingN msg pver btcnet BaseEncoding.
Definition WriteMessage (msg : AnyMessage) (pver btcnet : Z) : result wire_error (list byte) :=
  WriteMessageN msg pver btcnet.

(** ** The BIP324 encoding *)

Definition v2MessageIDs : list (Z * list byte) :=
  [(1, CmdAddr); (2, CmdBlock); (5, CmdFeeFilter); (6, CmdFilterAdd); (7, CmdFilterClear);
   (8, CmdFilterLoad); (9, CmdGetBlocks); (11, CmdGetData); (12, CmdGetHeaders);
   (13, CmdHeaders); (14, CmdInv); (15, CmdMemPool); (16, CmdMerkleBlock); (17, CmdNotFound);
   (18, CmdPing); (19, CmdPong); (21, CmdTx); (22, CmdGetCFilters); (23, CmdCFilter);
   (24, CmdGetCFHeaders); (25, CmdCFHeaders); (26, CmdGetCFCheckpt); (27, CmdCFCheckpt);
   (28, CmdAddrV2)].

Definition v2Messages : list (list byte * Z) :=
  [(CmdAddr, 1); (CmdBlock, 2); (CmdFeeFilter, 5); (CmdFilterAdd, 6); (CmdFilterClear, 7);
   (CmdFilterLoad, 8); (CmdGetBlocks, 9); (CmdGetData, 11); (CmdGetHeaders, 12);
   (CmdHeaders, 13); (CmdInv, 14); (CmdMemPool, 15); (CmdMerkleBlock, 16); (CmdNotFound, 17);
   (CmdPing, 18); (CmdPong, 19); (CmdTx, 21); (CmdGetCFilters, 22); (CmdCFilter, 23);
   (CmdGetCFHeaders, 24); (CmdCFHeaders, 25); (CmdGetCFCheckpt, 26); (CmdCFCheckpt, 27);
   (CmdAddrV2, 28)].

Fixpoint lookup_map {K V} `{EqDecision K} (k : K) (m : list (K * V)) : option V :=
  match m with
  | [] => None
  | (k', v) :: m' => if bool_decide (k = k') then Some v else lookup_map k m'
  end.

(** The bytes written and the error: the command is written before the message
    is encoded. *)
Definition WriteV2MessageN (msg : AnyMessage) (pver : Z) (encoding : MessageEncoding)
    : list byte * option wire_error :=
  let cmd := any_Command msg in
  if CommandSize <? len cmd then ([], Some (MessageError "WriteMessage"))
  else
    let head :=
      match lookup_map cmd v2Messages with
      | None => writeElement K_uint8 0 ++ writeElement K_command (copy_array 12 cmd)
      | Some index => writeElement K_uint8 index
      end in
    match encode_payload msg pver encoding with
    | Err e => (head, Some e)
    | Ok payload => (head ++ payload, None)
    end.

Definition ReadV2MessageN (plaintext : list byte) (pver : Z) (enc : MessageEncoding)
    : result wire_error (AnyMessage * list byte) :=
  match plaintext with
  | [] => Err (MessageError "ReadV2MessageN")
  | b0 :: tail =>
      let short := bool_decide (b0 = x00) && (len plaintext <? CommandSize + 1) in
      if short then Err (MessageError "ReadV2MessageN")
      else
        let msgCmd :=
          if bool_decide (b0 = x00) then TrimRight_zeros (take 12 tail)
          else default [] (lookup_map (b2z b0) v2MessageIDs) in
        let plaintext := if bool_decide (b0 = x00) then drop 12 tail else tail in
        match makeEmptyMessage msgCmd with
        | None => Err ErrUnknownMessage
        | Some (mkType M) =>
            if MaxProtocolMessageLength <? len plaintext
            then Err (MessageError "ReadV2MessageN")
            else if MaxPayloadLength M pver <? len plaintext
            then Err (MessageError "ReadV2MessageN")
            else
              match BtcDecode (M := M) pver enc plaintext with
              | Err e => Err e
              | Ok (msg, _) => Ok (mkAny msg, plaintext)
              end
        end
  end.

(** * Proofs *)

(** What the framing needs to know of the commands in the table. *)
Record command_ok (cmd : list byte) (k : MessageType) : Prop := {
  cmd_is : @Command _ (mt_inst k) = cmd;
  cmd_utf8 : utf8_ValidString cmd = true;
  cmd_len : len cmd <= CommandSize;
  cmd_trim : TrimRight_zeros (copy_array 12 cmd) = cmd;
  cmd_max : forall pver, 0 <= @MaxPayloadLength _ (mt_inst k) pver <= MaxProtocolMessageLength;
}.

Lemma const_max n pver : (0 <=? n) && (n <=? MaxProtocolMessageLength) = true ->
  0 <= (fun _ : Z => n) pver <= MaxProtocolMessageLength.
Proof. intros [H1%Z.leb_le H2%Z.leb_le]%andb_true_iff. lia. Qed.

Lemma version_max pver : 0 <= MsgVersion_MaxPayloadLength pver <= MaxProtocolMessageLength.
Proof.
  unfold MsgVersion_MaxPayloadLength, maxNetAddressPayload, MaxVarIntPayload, MaxUserAgentLen,
    MaxProtocolMessageLength. case_bools.
Qed.
Lemma addr_max pver : 0 <= MsgAddr_MaxPayloadLength pver <= MaxProtocolMessageLength.
Proof.
  unfold MsgAddr_MaxPayloadLength, maxNetAddressPayload, MaxVarIntPayload, MaxAddrPerMsg,
    MaxProtocolMessageLength. case_bools.
Qed.
Lemma ping_max pver : 0 <= MsgPing_MaxPayloadLength pver <= MaxProtocolMessageLength.
Proof. unfold MsgPing_MaxPayloadLength, MaxProtocolMessageLength. case_bools. Qed.
Lemma pong_max pver : 0 <= MsgPong_MaxPayloadLength pver <= MaxProtocolMessageLength.
Proof. unfold MsgPong_MaxPayloadLength, MaxProtocolMessageLength. case_bools. Qed.
Lemma reject_max pver : 0 <= MsgReject_MaxPayloadLength pver <= MaxProtocolMessageLength.
Proof. unfold MsgReject_MaxPayloadLength, MaxProtocolMessageLength. case_bools. Qed.

Lemma makeEmptyMessage_ok cmd k : makeEmptyMessage cmd = Some k -> command_ok cmd k.
Proof.
  intros H. unfold makeEmptyMessage in H.
  repeat match type of H with
  | (if bool_decide ?P then _ else _) = _ =>
      destruct (bool_decide_reflect P) as [->|_];
      [injection H as <-; split; [reflexivity|reflexivity|vm_compute; congruence|reflexivity|];
       intros pver; first [ apply version_max | apply addr_max | apply ping_max | apply pong_max
                          | apply reject_max | split; vm_compute; congruence ] |]
  end.
  discriminate H.
Qed.

(** ** Headers *)

Definition header_ok (magic : Z) (length : Z) (checksum : list byte) : Prop :=
  u32_ok magic /\ u32_ok length /\ len checksum = 4.

Definition write_header (magic : Z) (command : list byte) (length : Z) (checksum : list byte)
    : list byte :=
  writeElement K_BitcoinNet magic ++ writeElement K_command command ++
  writeElement K_uint32 length ++ writeElement K_bytes4 checksum.

Lemma len_write_header magic command length checksum :
  len command = 12 -> len checksum = 4 ->
  len (write_header magic command length checksum) = MessageHeaderSize.
Proof.
  intros Hc Hs. unfold write_header. cbn [writeElement]. rewrite !len_app, Hc, Hs.
  unfold binarySerializer_PutUint32. by rewrite !len_order_put.
Qed.

Lemma parse_header_reads magic command length checksum :
  header_ok magic length checksum -> len command = 12 ->
  reads parse_header (write_header magic command length checksum)
    (mkHeader magic (TrimRight_zeros command) length checksum).
Proof.
  intros (Hm & Hl & Hs) Hc. unfold parse_header, write_header.
  eapply reads_bind; [by apply (codec_reads (Codec := readElement_codec K_BitcoinNet ltac:(done)))|].
  eapply reads_bind; [by apply (codec_reads (Codec := readElement_codec K_command ltac:(done)))|].
  eapply reads_bind; [by apply (codec_reads (Codec := readElement_codec K_uint32 ltac:(done)))|].
  eapply reads_bind_ret;
    [by apply (codec_reads (Codec := readElement_codec K_bytes4 ltac:(done)))|apply reads_ret].
Qed.

Lemma ReadFull_n_app n bs rest : len bs = n -> ReadFull_n n (bs ++ rest) = (n, Ok bs, rest).
Proof. intros H. unfold ReadFull_n. by rewrite (reads_ReadFull n bs H). Qed.

Lemma readMessageHeader_app magic command length checksum rest :
  header_ok magic length checksum -> len command = 12 ->
  readMessageHeader (write_header magic command length checksum ++ rest) =
    (MessageHeaderSize, Ok (mkHeader magic (TrimRight_zeros command) length checksum), rest).
Proof.
  intros Hok Hc. unfold readMessageHeader.
  rewrite ReadFull_n_app by (apply len_write_header; [done|apply Hok]).
  rewrite <- (app_nil_r (write_header _ _ _ _)).
  by rewrite (parse_header_reads _ _ _ _ Hok Hc).
Qed.

(** Every header that is read was written: the command is the one that was
    trimmed. *)
Lemma readMessageHeader_exact r n hdr r' :
  readMessageHeader r = (n, Ok hdr, r') ->
  exists command, n = MessageHeaderSize /\
    header_ok (hdr_magic hdr) (hdr_length hdr) (hdr_checksum hdr) /\
    len command = 12 /\ hdr_command hdr = TrimRight_zeros command /\
    r = write_header (hdr_magic hdr) command (hdr_length hdr) (hdr_checksum hdr) ++ r'.
Proof.
  unfold readMessageHeader, ReadFull_n. intros H.
  destruct (ReadFull MessageHeaderSize r) as [[buf r1]|e] eqn:E; [|done].
  apply ReadFull_Ok in E as [Hl ->]; [|done].
  destruct (parse_header buf) as [[h rest]|e] eqn:Ep.
  - injection H as <- <- <-. unfold parse_header in Ep.
    inv_read Ep as magic mid H1. inv_read Ep as command mid1 H2. inv_read Ep as lng mid2 H3.
    inv_read Ep as sum mid3 H4. apply mret_Ok in Ep as [-> ->].
    apply (codec_inv (HC := readElement_codec K_BitcoinNet ltac:(done))) in H1 as [Hm ->].
    apply (codec_inv (HC := readElement_codec K_command ltac:(done))) in H2 as [Hc ->].
    apply (codec_inv (HC := readElement_codec K_uint32 ltac:(done))) in H3 as [Hlg ->].
    apply (codec_inv (HC := readElement_codec K_bytes4 ltac:(done))) in H4 as [Hs ->].
    exists command. split; [done|]. split; [by split|]. split; [done|]. split; [done|].
    assert (Hn : mid3 = []).
    { assert (Hw : len (write_header magic command lng sum ++ mid3) = MessageHeaderSize).
      { rewrite <- Hl. unfold write_header. by rewrite <- !app_assoc. }
      rewrite len_app, len_write_header in Hw by done. apply len_zero_nil. lia. }
    subst mid3. unfold write_header. cbn [hdr_magic hdr_length hdr_checksum].
    by rewrite app_nil_r, <- !app_assoc.
  - exfalso. assert (Hne : forall bs, len bs = MessageHeaderSize -> exists x, parse_header bs = Ok x).
    { clear. intros bs Hl. do 24 (destruct bs as [|? bs]; [discriminate Hl|]).
      destruct bs; [|unfold len in Hl; simpl in Hl; unfold MessageHeaderSize in Hl; lia].
      eexists. reflexivity. }
    destruct (Hne buf Hl) as [x Hx]. congruence.
Qed.

(** ** Skipping *)

Lemma skip_full_drop n r : 0 <= n -> skip_full n r = drop (Z.to_nat n) r.
Proof.
  intros Hn. unfold skip_full, ReadFull.
  destruct (Z.leb_spec n 0); [by replace (Z.to_nat n) with 0%nat by lia|].
  destruct (Z.ltb_spec (Z.of_nat (length r)) n).
  - rewrite drop_ge by lia. done.
  - done.
Qed.

Lemma skip_loop_drop k n r : 0 <= n -> skip_loop k n r = drop (k * Z.to_nat n) r.
Proof.
  intros Hn. revert r. induction k as [|k IH]; intros r; [done|].
  cbn [skip_loop]. rewrite IH, skip_full_drop, drop_drop by done. f_equal; lia.
Qed.

Lemma discardInput_drop r n : 0 <= n -> discardInput r n = drop (Z.to_nat n) r.
Proof.
  intros Hn. unfold discardInput. cbv zeta.
  set (m := 10 * 1024). assert (Hm : 0 < m) by done. clearbody m.
  pose proof (Z.mod_pos_bound n m Hm). pose proof (Z.div_pos n m Hn Hm).
  pose proof (Z.div_mod n m). rewrite skip_loop_drop by lia.
  destruct (Z.ltb_spec 0 n).
  - destruct (Z.ltb_spec 0 (n mod m)).
    + rewrite skip_full_drop, drop_drop by lia. f_equal. nia.
    + f_equal. nia.
  - assert (n = 0) as -> by lia. by rewrite Z.mod_0_l by lia.
Qed.

(** * Properties *)

Lemma len_double_hash bs : len (take 4 (DoubleHashB bs)) = 4.
Proof. unfold len, DoubleHashB. by rewrite length_take, length_sha256_Sum256. Qed.

Lemma encode_payload_inv {M} {HM : Message M} (m : M) pver enc payload :
  encode_payload (mkAny m) pver enc = Ok payload ->
  BtcEncode pver enc m = Ok payload /\ len payload <= MaxProtocolMessageLength /\
  len payload <= MaxPayloadLength M pver.
Proof.
  unfold encode_payload. destruct (BtcEncode pver enc m) as [p|e]; [|done].
  pose proof (len_nonneg p). unfold MaxProtocolMessageLength in *.
  destruct (Z.ltb_spec (4 * 1000 * 1000) (len p)); [done|].
  unfold wrap_u32. rewrite Z.mod_small by lia. case_bools; [done|]. by intros [= <-].
Qed.

Lemma encode_payload_ok {M} {HM : Message M} (m : M) pver enc payload :
  BtcEncode pver enc m = Ok payload -> len payload <= MaxPayloadLength M pver ->
  MaxPayloadLength M pver <= MaxProtocolMessageLength ->
  encode_payload (mkAny m) pver enc = Ok payload.
Proof.
  intros He Hl Hm. unfold encode_payload. rewrite He. pose proof (len_nonneg payload).
  destruct (Z.ltb_spec MaxProtocolMessageLength (len payload)); [lia|].
  unfold wrap_u32, MaxProtocolMessageLength in *. rewrite Z.mod_small by lia. by case_bools.
Qed.

Lemma WriteMessage_bytes {M} {HM : Message M} (m : M) pver btcnet enc payload :
  len (Command M) <= CommandSize -> encode_payload (mkAny m) pver enc = Ok payload ->
  WriteMessageWithEncodingN (mkAny m) pver btcnet enc =
    Ok (write_header btcnet (copy_array 12 (Command M)) (wrap_u32 (len payload))
          (take 4 (DoubleHashB payload)) ++ payload).
Proof.
  intros Hc He. unfold WriteMessageWithEncodingN, any_Command. cbn [any_type any_inst].
  destruct (Z.ltb_spec CommandSize (len (Command M))); [lia|]. rewrite He.
  cbv zeta. cbn [hdr_magic hdr_length hdr_checksum]. unfold write_header.
  rewrite <- !app_assoc. done.
Qed.

(** framing round trip, against the [Message] interface: a message of any
    type the reader knows that obeys the laws of the interface is written in one
    frame, and reading that frame at the head of any input gives back the message,
    its payload and the count of bytes, and leaves exactly what follows. *)
Theorem ReadMessage_WriteMessage M {HM : Message M} {HL : MessageLaws M} (m : M)
    pver btcnet enc rest :
  makeEmptyMessage (Command M) = Some (mkType M) ->
  u32_ok btcnet -> msg_ok pver enc m ->
  exists frame payload,
    WriteMessageWithEncodingN (mkAny m) pver btcnet enc = Ok frame /\
    BtcEncode pver enc m = Ok payload /\
    ReadMessageWithEncodingN (frame ++ rest) pver btcnet enc =
      (len frame, Ok (mkAny m, payload), rest).
Proof.
  intros Hk Hnet Hm. destruct (makeEmptyMessage_ok _ _ Hk) as [_ Hutf Hlen Htrim Hmax].
  destruct (msg_roundtrip pver enc m Hm) as (payload & He & Hd & Hl).
  specialize (Hmax pver). cbn [mt_type mt_inst] in Hmax. pose proof (len_nonneg payload) as Hp0.
  pose proof (encode_payload_ok m pver enc payload He Hl ltac:(lia)) as Hep.
  pose proof (len_double_hash payload) as Hsum.
  assert (Hw : wrap_u32 (len payload) = len payload).
  { apply Z.mod_small. unfold MaxProtocolMessageLength in Hmax. lia. }
  eexists _, payload. split; [by apply WriteMessage_bytes|]. split; [done|].
  assert (Hcmd : len (copy_array 12 (Command M)) = 12) by apply len_copy_array.
  rewrite Hw, len_app, len_write_header by done.
  unfold ReadMessageWithEncodingN. rewrite <- app_assoc, readMessageHeader_app;
    [|split; [done|split; [unfold MaxProtocolMessageLength in Hmax; lia|done]]|done].
  unfold readMessageWithEncodingNInternal. cbn [hdr_length hdr_magic hdr_command hdr_checksum].
  rewrite Htrim, Z.eqb_refl, Hutf, Hk. cbn [negb].
  destruct (Z.ltb_spec MaxProtocolMessageLength (len payload)); [lia|].
  destruct (Z.ltb_spec (MaxPayloadLength M pver) (len payload)); [lia|].
  rewrite ReadFull_n_app by done. rewrite bool_decide_eq_true_2 by done. cbn [negb].
  by rewrite Hd.
Qed.

Lemma ReadMessage_WriteMessage_witness :
  exists frame payload,
    WriteMessageWithEncodingN (mkAny (mkMsgPing 5)) 70016 7 WitnessEncoding = Ok frame /\
    BtcEncode 70016 WitnessEncoding (mkMsgPing 5) = Ok payload /\
    ReadMessageWithEncodingN (frame ++ [x01]) 70016 7 WitnessEncoding =
      (len frame, Ok (mkAny (mkMsgPing 5), payload), [x01]).
Proof. apply (ReadMessage_WriteMessage MsgPing); [reflexivity|lia|vm_compute; intuition congruence]. Defined.

(** every message type but wtxidrelay is known to the reader under the
    command it is written with; a written wtxidrelay message is always refused as
    unknown. *)
Theorem makeEmptyMessage_known :
  Forall (fun k => makeEmptyMessage (@Command _ (mt_inst k)) = Some k)
    [mkType MsgVersion; mkType MsgVerAck; mkType MsgSendAddrV2; mkType MsgGetAddr;
     mkType MsgAddr; mkType MsgAddrV2; mkType MsgGetBlocks; mkType MsgBlock; mkType MsgInv;
     mkType MsgGetData; mkType MsgNotFound; mkType MsgTx; mkType MsgPing; mkType MsgPong;
     mkType MsgGetHeaders; mkType MsgHeaders; mkType MsgMemPool; mkType MsgFilterAdd;
     mkType MsgFilterClear; mkType MsgFilterLoad; mkType MsgMerkleBlock; mkType MsgReject;
     mkType MsgSendHeaders; mkType MsgFeeFilter; mkType MsgGetCFilters;
     mkType MsgGetCFHeaders; mkType MsgGetCFCheckpt; mkType MsgCFilter; mkType MsgCFHeaders;
     mkType MsgCFCheckpt] /\
  makeEmptyMessage (Command MsgWTxIdRelay) = None /\
  exists frame, WriteMessage (mkAny mkMsgWTxIdRelay) 70016 1 = Ok frame /\
    ReadMessage frame 70016 1 = (Err ErrUnknownMessage, []).
Proof.
  split; [repeat constructor|]. split; [reflexivity|].
  eexists. split; [vm_compute; reflexivity|vm_compute; reflexivity].
Qed.

(** C3: what the reader accepts is authentic and not malleable: the frame is
    for the right network, its checksum is that of the payload, the payload is
    within both limits and decodes completely; and when the message type has one
    encoding per value, writing the message gives exactly the bytes consumed. *)
Theorem ReadMessage_sound r pver btcnet enc n msg payload rest :
  ReadMessageWithEncodingN r pver btcnet enc = (n, Ok (msg, payload), rest) ->
  (exists command, len command = 12 /\
     makeEmptyMessage (any_Command msg) = Some (@mkType (any_type msg) (any_inst msg)) /\
     TrimRight_zeros command = any_Command msg /\
     r = write_header btcnet command (len payload) (take 4 (DoubleHashB payload)) ++
         payload ++ rest) /\
  n = MessageHeaderSize + len payload /\
  len payload <= MaxProtocolMessageLength /\
  len payload <= @MaxPayloadLength _ (any_inst msg) pver /\
  @BtcDecode _ (any_inst msg) pver enc payload = Ok (any_val msg, []) /\
  (@CanonicalMessage _ (any_inst msg) ->
   @BtcEncode _ (any_inst msg) pver enc (any_val msg) = Ok payload).
Proof.
  unfold ReadMessageWithEncodingN. intros H.
  destruct (readMessageHeader r) as [[n0 [hdr|e]] r'] eqn:Eh; [|done].
  apply readMessageHeader_exact in Eh as (command & -> & (Hm & Hl & Hs) & Hc & Hcmd & ->).
  unfold readMessageWithEncodingNInternal in H.
  destruct (Z.ltb_spec MaxProtocolMessageLength (hdr_length hdr)); [done|].
  destruct (Z.eqb_spec (hdr_magic hdr) btcnet) as [<-|]; [|done]. cbn [negb] in H.
  destruct (utf8_ValidString (hdr_command hdr)); [|done]. cbn [negb] in H.
  destruct (makeEmptyMessage (hdr_command hdr)) as [[M HM]|] eqn:Ek; [|done].
  destruct (Z.ltb_spec (MaxPayloadLength M pver) (hdr_length hdr)); [done|].
  unfold ReadFull_n in H.
  destruct (ReadFull (hdr_length hdr) r') as [[p r1]|e] eqn:Er; [|done].
  apply ReadFull_Ok in Er as [Hp ->]; [|lia].
  destruct (bool_decide_reflect (take 4 (DoubleHashB p) = hdr_checksum hdr)) as [Hsum|];
    [|done]. cbn [negb] in H.
  destruct (BtcDecode pver enc p) as [[v pr]|e] eqn:Ed; [|done].
  destruct (Z.ltb_spec 0 (len pr)); [done|].
  assert (pr = []) as -> by (apply len_zero_nil; pose proof (len_nonneg pr); lia).
  injection H as <- <- <- <-. cbn [any_type any_inst any_val].
  destruct (makeEmptyMessage_ok _ _ Ek) as [Hk _ _ _ _]. cbn [mt_type mt_inst] in Hk.
  rewrite Hp, Hsum. unfold any_Command. cbn [any_type any_inst].
  split; [exists command; rewrite Hk, <- Hcmd; auto|].
  split; [done|]. split; [lia|]. split; [lia|]. split; [done|].
  intros HC. destruct (msg_canonical pver enc p v [] Ed) as (bs & He & Hb).
  rewrite app_nil_r in Hb. by subst bs.
Qed.

Definition verack_frame : list byte :=
  write_header 7 (copy_array 12 CmdVerAck) 0 (take 4 (DoubleHashB [])).

Lemma verack_frame_read :
  ReadMessageWithEncodingN (verack_frame ++ [x01]) 70016 7 BaseEncoding =
    (24, Ok (mkAny mkMsgVerAck, []), [x01]).
Proof. vm_compute. reflexivity. Qed.

Lemma ReadMessage_sound_witness :
  24 = MessageHeaderSize + len (@nil byte) /\
  @BtcDecode MsgVerAck _ 70016 BaseEncoding [] = Ok (mkMsgVerAck, []).
Proof.
  destruct (ReadMessage_sound (verack_frame ++ [x01]) 70016 7 BaseEncoding 24
    (mkAny mkMsgVerAck) [] [x01] verack_frame_read) as (_ & Hn & _ & _ & Hd & _).
  exact (conj Hn Hd).
Defined.

(** after a frame for another network, or with a malformed or unknown
    command, or too large for its type, the reader has consumed exactly that
    frame (or the whole input, when it is shorter), so that the next read starts
    at the next frame. *)
Theorem ReadMessage_resync r n hdr r' pver btcnet enc :
  readMessageHeader r = (n, Ok hdr, r') ->
  hdr_length hdr <= MaxProtocolMessageLength ->
  (hdr_magic hdr <> btcnet \/ utf8_ValidString (hdr_command hdr) = false \/
   match makeEmptyMessage (hdr_command hdr) with
   | None => True
   | Some k => @MaxPayloadLength _ (mt_inst k) pver < hdr_length hdr
   end) ->
  exists e, ReadMessageWithEncodingN r pver btcnet enc =
    (n, Err e, drop (Z.to_nat (hdr_length hdr)) r').
Proof.
  intros Hr Hl Hbad. unfold ReadMessageWithEncodingN. rewrite Hr.
  apply readMessageHeader_exact in Hr as (command & -> & (_ & Hlen & _) & _).
  unfold readMessageWithEncodingNInternal.
  rewrite discardInput_drop by lia.
  destruct (Z.ltb_spec MaxProtocolMessageLength (hdr_length hdr)); [lia|].
  destruct (Z.eqb_spec (hdr_magic hdr) btcnet); [|by eexists]. cbn [negb].
  destruct (utf8_ValidString (hdr_command hdr)) eqn:Eu; [|by eexists]. cbn [negb].
  destruct Hbad as [?|[?|Hbad]]; [done|done|].
  destruct (makeEmptyMessage (hdr_command hdr)) as [[M HM]|]; [|by eexists].
  cbn [mt_type mt_inst] in Hbad. destruct (Z.ltb_spec (MaxPayloadLength M pver) (hdr_length hdr)); [|lia].
  by eexists.
Qed.

Definition foreign_frame : list byte :=
  write_header 9 (copy_array 12 (bytes_of "nosuch")) 3 [x00; x00; x00; x00].

Lemma ReadMessage_resync_witness :
  exists e, ReadMessageWithEncodingN (foreign_frame ++ [x01; x02; x03; x04]) 70016 9 BaseEncoding =
    (24, Err e, [x04]).
Proof.
  apply (ReadMessage_resync (foreign_frame ++ [x01; x02; x03; x04]) 24
    (mkHeader 9 (bytes_of "nosuch") 3 [x00; x00; x00; x00]) [x01; x02; x03; x04]).
  - vm_compute. reflexivity.
  - vm_compute. congruence.
  - right. right. vm_compute. exact I.
Defined.

(** the two BIP324 tables are inverse to each other, and a message of any
    type the reader knows survives the BIP324 encoding, with its short or its long
    command. *)
Theorem ReadV2Message_WriteV2Message M {HM : Message M} {HL : MessageLaws M} (m : M) pver enc :
  makeEmptyMessage (Command M) = Some (mkType M) -> msg_ok pver enc m ->
  exists bs payload,
    WriteV2MessageN (mkAny m) pver enc = (bs, None) /\ BtcEncode pver enc m = Ok payload /\
    ReadV2MessageN bs pver enc = Ok (mkAny m, payload).
Proof.
  intros Hk Hm. destruct (makeEmptyMessage_ok _ _ Hk) as [_ Hutf Hlen Htrim Hmax].
  destruct (msg_roundtrip pver enc m Hm) as (payload & He & Hd & Hl).
  specialize (Hmax pver). cbn [mt_type mt_inst] in Hmax.
  pose proof (encode_payload_ok m pver enc payload He Hl ltac:(lia)) as Hep.
  eexists _, payload. split.
  { unfold WriteV2MessageN, any_Command. cbn [any_type any_inst].
    destruct (Z.ltb_spec CommandSize (len (Command M))); [lia|]. by rewrite Hep. }
  split; [done|]. destruct (lookup_map (Command M) v2Messages) as [index|] eqn:Ei.
  - assert (Hid : lookup_map index v2MessageIDs = Some (Command M) /\ 0 < index < 256).
    { revert Ei. unfold v2Messages. cbn [lookup_map].
      repeat match goal with |- (if bool_decide ?P then _ else _) = _ -> _ =>
        destruct (bool_decide_reflect P) as [Hc|_];
        [rewrite Hc; intros [= <-]; split; [reflexivity|lia]|] end.
      intros [=]. }
    destruct Hid as [Hid Hi]. cbn [writeElement].
    assert (Hb : exists b, le_put 1 index = [b] /\ b2z b = index).
    { exists (z2b index). split; [reflexivity|apply b2z_z2b_small; lia]. }
    destruct Hb as (b & -> & Hb). unfold ReadV2MessageN. cbn [app].
    rewrite bool_decide_eq_false_2 by (intros ->; change (b2z x00) with 0 in Hb; lia).
    cbn [andb]. rewrite Hb, Hid. unfold default, from_option, id. rewrite Hk.
    destruct (Z.ltb_spec MaxProtocolMessageLength (len payload)); [lia|].
    destruct (Z.ltb_spec (MaxPayloadLength M pver) (len payload)); [lia|]. by rewrite Hd.
  - cbn [writeElement]. change (le_put 1 0) with [x00]. unfold ReadV2MessageN. cbn [app].
    rewrite bool_decide_eq_true_2 by done. cbn [andb].
    assert (Hcl : length (copy_array 12 (Command M)) = 12%nat).
    { pose proof (len_copy_array 12 (Command M)) as Hca. unfold len in Hca. lia. }
    destruct (Z.ltb_spec (len (x00 :: copy_array 12 (Command M) ++ payload)) (CommandSize + 1)).
    { unfold len in *. cbn [length] in *. rewrite length_app, Hcl in *.
      unfold CommandSize in *. lia. }
    destruct (take_drop_app (copy_array 12 (Command M)) payload 12 Hcl) as [-> ->].
    rewrite Htrim, Hk.
    destruct (Z.ltb_spec MaxProtocolMessageLength (len payload)); [lia|].
    destruct (Z.ltb_spec (MaxPayloadLength M pver) (len payload)); [lia|]. by rewrite Hd.
Qed.

Lemma ReadV2Message_WriteV2Message_witness :
  exists bs payload,
    WriteV2MessageN (mkAny mkMsgSendHeaders) 70016 BaseEncoding = (bs, None) /\
    BtcEncode 70016 BaseEncoding mkMsgSendHeaders = Ok payload /\
    ReadV2MessageN bs 70016 BaseEncoding = Ok (mkAny mkMsgSendHeaders, payload).
Proof. apply (ReadV2Message_WriteV2Message MsgSendHeaders); [reflexivity|vm_compute; intuition congruence]. Defined.

(** unlike the reader of the original framing, the BIP324 reader accepts a
    payload with bytes left after the message. *)
Theorem ReadV2Message_trailing :
  let payload := [x00; xaa; xbb] in
  ReadV2MessageN (x0e :: payload) 70016 BaseEncoding = Ok (mkAny (mkMsgInv []), payload) /\
  ReadMessage (write_header 1 (copy_array 12 CmdInv) 3 (take 4 (DoubleHashB payload)) ++ payload)
    70016 1 = (Err (MessageError "ReadMessage"), []).
Proof.
  intros payload.
  assert (Hd : MsgInv_BtcDecode 70016 BaseEncoding payload = Ok (mkMsgInv [], [xaa; xbb]))
    by (vm_compute; reflexivity).
  split; [|vm_compute; reflexivity]. unfold ReadV2MessageN.
  replace (lookup_map (b2z x0e) v2MessageIDs) with (Some CmdInv) by (vm_compute; reflexivity).
  rewrite bool_decide_eq_false_2 by done. cbn [andb].
  change (default [] (Some CmdInv)) with CmdInv.
  replace (makeEmptyMessage CmdInv) with (Some (mkType MsgInv)) by reflexivity.
  replace (MaxProtocolMessageLength <? len payload) with false by reflexivity.
  replace (MaxPayloadLength MsgInv 70016 <? len payload) with false by reflexivity.
  change (BtcDecode 70016 BaseEncoding payload) with
    (MsgInv_BtcDecode 70016 BaseEncoding payload). by rewrite Hd.
Qed.
