(* ===== verification/Treap.v ===== *)
(** * database/internal/treap: the ordered map behind the pending keys

    Trees are values: the sharing of nodes between versions and the pool of
    recycled nodes are not modelled.  A node that is rebuilt or rotated is
    described by the stack of its parents, as in the code; the random priority is
    an argument of the insertion.  [parentStack] is modelled on its own, with its
    static array and its overflow slice. *)

From Stdlib Require Import ZArith Lia.
From stdpp Require Import sorting.
From S2P Require Import Prelude WireCommon.

(** ** The parent stack *)

Definition staticDepth : nat := 128.

Section parent_stack.
Context {A : Type}.

Record parentStack : Type := mkStack {
  ps_index : nat;
  ps_items : list (option A);
  ps_overflow : list (option A);
}.

Definition newStack : parentStack := mkStack 0 (replicate staticDepth None) [].

Definition parentStack_Len (s : parentStack) : nat := ps_index s.

(** Indexing a slice: [None] would be the panic of an index out of range. *)
Definition slice_at (l : list (option A)) (i : nat) : option (option A) := l !! i.

(** The outer option is the absence of a panic, the inner one a nil pointer. *)
Definition parentStack_At (s : parentStack) (n : nat) : option (option A) :=
  if (ps_index s <? n + 1)%nat then Some None
  else
    let index := (ps_index s - n - 1)%nat in
    if (index <? staticDepth)%nat then slice_at (ps_items s) index
    else slice_at (ps_overflow s) (index - staticDepth).

Definition parentStack_Pop (s : parentStack) : option (option A * parentStack) :=
  if (ps_index s =? 0)%nat then Some (None, s)
  else
    let index := (ps_index s - 1)%nat in
    if (index <? staticDepth)%nat then
      node ← slice_at (ps_items s) index;
      Some (node, mkStack index (<[index := None]> (ps_items s)) (ps_overflow s))
    else
      node ← slice_at (ps_overflow s) (index - staticDepth);
      Some (node, mkStack index (ps_items s)
                    (<[(index - staticDepth)%nat := None]> (ps_overflow s))).

(** [make] gives a slice whose capacity is its length, so the capacity of the
    overflow is always its length. *)
Definition parentStack_Push (s : parentStack) (node : A) : option parentStack :=
  if (ps_index s <? staticDepth)%nat then
    Some (mkStack (S (ps_index s)) (<[ps_index s := Some node]> (ps_items s)) (ps_overflow s))
  else
    let index := (ps_index s - staticDepth)%nat in
    let overflow :=
      if (length (ps_overflow s) <? index + 1)%nat
      then ps_overflow s ++ replicate (index + 1 - length (ps_overflow s)) None
      else ps_overflow s in
    if (index <? length overflow)%nat
    then Some (mkStack (S (ps_index s)) (ps_items s) (<[index := Some node]> overflow))
    else None.
End parent_stack.
#[global] Arguments parentStack : clear implicits.

(** ** Nodes and trees *)

Record treapNode : Type := mkNode {
  node_key : list byte;
  node_value : list byte;
  node_priority : Z;
}.

Inductive tree : Type :=
| Nil
| Node (left : tree) (node : treapNode) (right : tree).

Definition nodeFieldsSize : Z := 72.
Definition nodeSize (n : treapNode) : Z :=
  wrap_u64 (nodeFieldsSize + (len (node_key n) + len (node_value n))).

Definition newTreapNode (key value : list byte) (priority : Z) : treapNode :=
  mkNode key value priority.

(** A parent on the stack: the side its child hangs on, the parent itself and
    its other child. *)
Inductive side : Type := OnLeft | OnRight.
Record frame : Type := mkFrame { fr_side : side; fr_node : treapNode; fr_other : tree }.

Definition plug (f : frame) (t : tree) : tree :=
  match fr_side f with
  | OnLeft => Node t (fr_node f) (fr_other f)
  | OnRight => Node (fr_other f) (fr_node f) t
  end.

(** The root, once the node at the top of the stack is [t]. *)
Fixpoint rebuild (parents : list frame) (t : tree) : tree :=
  match parents with
  | [] => t
  | f :: parents' => rebuild parents' (plug f t)
  end.

(** ** Search *)

Fixpoint tree_get (key : list byte) (t : tree) : option treapNode :=
  match t with
  | Nil => None
  | Node l n r =>
      match bytes_Compare key (node_key n) with
      | Lt => tree_get key l
      | Gt => tree_get key r
      | Eq => Some n
      end
  end.

(** The walk that pushes the parents: the node with the key and its subtrees, or
    nothing when it falls off the tree. *)
Fixpoint descend (key : list byte) (t : tree) (parents : list frame)
    : list frame * option (tree * treapNode * tree) :=
  match t with
  | Nil => (parents, None)
  | Node l n r =>
      match bytes_Compare key (node_key n) with
      | Lt => descend key l (mkFrame OnLeft n r :: parents)
      | Gt => descend key r (mkFrame OnRight n l :: parents)
      | Eq => (parents, Some (l, n, r))
      end
  end.

(** ** Rotations *)

(** The loop of [put] that restores the heap: [node], with its two subtrees,
    rises while its priority is below its parent's. *)
Fixpoint rotate_up (parents : list frame) (l : tree) (node : treapNode) (r : tree) : tree :=
  match parents with
  | [] => Node l node r
  | f :: parents' =>
      let parent := fr_node f in
      if node_priority parent <=? node_priority node then rebuild parents (Node l node r)
      else
        match fr_side f with
        | OnLeft => rotate_up parents' l node (Node r parent (fr_other f))
        | OnRight => rotate_up parents' (Node (fr_other f) parent l) node r
        end
  end.

(** One turn of the loop of [Delete]: the chosen child becomes the parent of the
    node to delete, which keeps the subtrees [l] and [r]. *)
Definition sink_step (l r : tree) : option (frame * tree * tree) :=
  match l, r with
  | Nil, Nil => None
  | Nil, Node rl c rr => Some (mkFrame OnLeft c rr, Nil, rl)
  | Node ll c lr, Nil => Some (mkFrame OnRight c ll, lr, Nil)
  | Node ll c lr, Node rl c' rr =>
      if node_priority c' <=? node_priority c
      then Some (mkFrame OnRight c ll, lr, r)
      else Some (mkFrame OnLeft c' rr, l, rl)
  end.

(** The loop: the node sinks until it is a leaf, which is then unlinked from its
    parent.  [None] when the fuel runs out. *)
Fixpoint sink (fuel : nat) (parents : list frame) (l r : tree) : option tree :=
  match fuel with
  | O => None
  | S fuel' =>
      match sink_step l r with
      | None => Some (rebuild parents Nil)
      | Some (f, l', r') => sink fuel' (f :: parents) l' r'
      end
  end.

Fixpoint tree_size (t : tree) : nat :=
  match t with
  | Nil => O
  | Node l _ r => S (tree_size l + tree_size r)
  end.

(** ** Immutable *)

Record Immutable : Type := newImmutable {
  im_root : tree;
  im_count : Z;
  im_totalSize : Z;
}.

Definition NewImmutable : Immutable := newImmutable Nil 0 0.
Definition Immutable_Len (t : Immutable) : Z := im_count t.
Definition Immutable_Size (t : Immutable) : Z := im_totalSize t.
Definition Immutable_get (t : Immutable) (key : list byte) : option treapNode :=
  tree_get key (im_root t).
Definition Immutable_Has (t : Immutable) (key : list byte) : bool :=
  if Immutable_get t key is Some _ then true else false.
(** [None] is a nil slice. *)
Definition Immutable_Get (t : Immutable) (key : list byte) : option (list byte) :=
  node_value <$> Immutable_get t key.

Definition Immutable_put (t : Immutable) (key : list byte) (value : option (list byte))
    (prio : Z) : Immutable :=
  let value := default [] value in
  match im_root t with
  | Nil =>
      let root := newTreapNode key value prio in
      newImmutable (Node Nil root Nil) 1 (nodeSize root)
  | Node _ _ _ =>
      match descend key (im_root t) [] with
      | (parents, Some (l, n, r)) =>
          let newRoot := rebuild parents (Node l (mkNode (node_key n) value (node_priority n)) r) in
          newImmutable newRoot (im_count t)
            (wrap_u64 (im_totalSize t - len (node_value n) + len value))
      | (parents, None) =>
          let node := newTreapNode key value prio in
          newImmutable (rotate_up parents Nil node Nil) (im_count t + 1)
            (wrap_u64 (im_totalSize t + nodeSize node))
      end
  end.

(** [Put] of several pairs, each with the priority drawn for it. *)
Definition Immutable_Put (t : Immutable)
    (kvPairs : list (list byte * option (list byte) * Z)) : Immutable :=
  foldl (fun t '(key, value, prio) => Immutable_put t key value prio) t kvPairs.

Definition Immutable_Delete (t : Immutable) (key : list byte) : option Immutable :=
  match descend key (im_root t) [] with
  | (_, None) => Some t
  | (parents, Some (l, delNode, r)) =>
      match parents, l, r with
      | [], Nil, Nil => Some (newImmutable Nil 0 0)
      | _, _, _ =>
          newRoot ← sink (S (tree_size l + tree_size r)) parents l r;
          Some (newImmutable newRoot (im_count t - 1)
                  (wrap_u64 (im_totalSize t - nodeSize delNode)))
      end
  end.

(** ** Mutable *)

Record Mutable : Type := mkMutable {
  mu_root : tree;
  mu_count : Z;
  mu_totalSize : Z;
}.

Definition NewMutable : Mutable := mkMutable Nil 0 0.
Definition Mutable_Len (t : Mutable) : Z := mu_count t.
Definition Mutable_Size (t : Mutable) : Z := mu_totalSize t.
Definition Mutable_Reset (t : Mutable) : Mutable := mkMutable Nil 0 0.

(** The node and its parent. *)
Fixpoint Mutable_get_loop (key : list byte) (t : tree) (parent : option treapNode)
    : option treapNode * option treapNode :=
  match t with
  | Nil => (None, None)
  | Node l n r =>
      match bytes_Compare key (node_key n) with
      | Lt => Mutable_get_loop key l (Some n)
      | Gt => Mutable_get_loop key r (Some n)
      | Eq => (Some n, parent)
      end
  end.
Definition Mutable_get (t : Mutable) (key : list byte) : option treapNode * option treapNode :=
  Mutable_get_loop key (mu_root t) None.
Definition Mutable_Has (t : Mutable) (key : list byte) : bool :=
  if (Mutable_get t key).1 is Some _ then true else false.
Definition Mutable_Get (t : Mutable) (key : list byte) : option (list byte) :=
  node_value <$> (Mutable_get t key).1.

Definition Mutable_Put (t : Mutable) (key : list byte) (value : option (list byte))
    (prio : Z) : Mutable :=
  let value := default [] value in
  match mu_root t with
  | Nil =>
      let node := newTreapNode key value prio in
      mkMutable (Node Nil node Nil) 1 (nodeSize node)
  | Node _ _ _ =>
      match descend key (mu_root t) [] with
      | (parents, Some (l, n, r)) =>
          let totalSize := wrap_u64 (mu_totalSize t - len (node_value n)) in
          let totalSize := wrap_u64 (totalSize + len value) in
          mkMutable (rebuild parents (Node l (mkNode (node_key n) value (node_priority n)) r))
            (mu_count t) totalSize
      | (parents, None) =>
          let node := newTreapNode key value prio in
          mkMutable (rotate_up parents Nil node Nil) (mu_count t + 1)
            (wrap_u64 (mu_totalSize t + nodeSize node))
      end
  end.

Definition Mutable_Delete (t : Mutable) (key : list byte) : option Mutable :=
  match descend key (mu_root t) [] with
  | (_, None) => Some t
  | (parents, Some (l, node, r)) =>
      match parents, l, r with
      | [], Nil, Nil => Some (mkMutable Nil 0 0)
      | _, _, _ =>
          root ← sink (S (tree_size l + tree_size r)) parents l r;
          Some (mkMutable root (mu_count t - 1) (wrap_u64 (mu_totalSize t - nodeSize node)))
      end
  end.

(** ** ForEach *)

(** [for node := t; node != nil; node = node.left { parents.Push(node) }]: the
    stack holds each node with its right subtree. *)
Fixpoint push_left (t : tree) (parents : list (treapNode * tree)) : list (treapNode * tree) :=
  match t with
  | Nil => parents
  | Node l n r => push_left l ((n, r) :: parents)
  end.

Section foreach.
Context {S : Type} (fn : S -> list byte -> list byte -> S * bool).

(** [None] when the fuel runs out before the loop ends. *)
Fixpoint foreach_loop (fuel : nat) (parents : list (treapNode * tree)) (s : S) : option S :=
  match fuel with
  | O => None
  | Datatypes.S fuel' =>
      match parents with
      | [] => Some s
      | (n, r) :: parents' =>
          let res := fn s (node_key n) (node_value n) in
          if negb res.2 then Some res.1
          else foreach_loop fuel' (push_left r parents') res.1
      end
  end.

Definition tree_ForEach (t : tree) (s : S) : option S :=
  foreach_loop (Datatypes.S (tree_size t)) (push_left t []) s.
Definition Immutable_ForEach (t : Immutable) (s : S) : option S := tree_ForEach (im_root t) s.
Definition Mutable_ForEach (t : Mutable) (s : S) : option S := tree_ForEach (mu_root t) s.

(** What it should do: call the function on the pairs until it says stop. *)
Fixpoint visit (l : list treapNode) (s : S) : S :=
  match l with
  | [] => s
  | n :: l' =>
      let res := fn s (node_key n) (node_value n) in
      if negb res.2 then res.1 else visit l' res.1
  end.
End foreach.

(** * Specification *)

(** The nodes in ascending order of position, the map they represent, and the
    well-formed treaps: keys strictly ascending, the count and the size right. *)
Fixpoint inorder (t : tree) : list treapNode :=
  match t with
  | Nil => []
  | Node l n r => inorder l ++ n :: inorder r
  end.

Definition node_pair (n : treapNode) : list byte * list byte := (node_key n, node_value n).
Definition to_map (t : tree) : gmap (list byte) (list byte) :=
  list_to_map (map node_pair (inorder t)).

Definition sorted_nodes (l : list treapNode) : Prop :=
  StronglySorted (fun a b => key_lt (node_key a) (node_key b)) l.
Definition bst (t : tree) : Prop := sorted_nodes (inorder t).

Definition sum_nodes (l : list treapNode) : Z := foldr (fun n s => nodeSize n + s) 0 l.

Record treap_ok (t : tree) (count totalSize : Z) : Prop := {
  tok_bst : bst t;
  tok_count : count = len (inorder t);
  tok_size : totalSize = wrap_u64 (sum_nodes (inorder t));
}.

Definition im_ok (t : Immutable) : Prop := treap_ok (im_root t) (im_count t) (im_totalSize t).
Definition mu_view (t : Mutable) : Immutable :=
  newImmutable (mu_root t) (mu_count t) (mu_totalSize t).

(** The heap order the comments ask for: no node has a priority above one of
    its children's. *)
Definition prio_le (p : Z) (t : tree) : Prop :=
  match t with Nil => True | Node _ n _ => p <= node_priority n end.
Fixpoint heap (t : tree) : Prop :=
  match t with
  | Nil => True
  | Node l n r =>
      prio_le (node_priority n) l /\ prio_le (node_priority n) r /\ heap l /\ heap r
  end.

(** * Proofs *)

(** ** Keys *)

Abbreviation node_lt := (fun a b => key_lt (node_key a) (node_key b)).
Abbreviation below key := (Forall (fun m => key_lt (node_key m) key)).
Abbreviation above key := (Forall (fun m => key_lt key (node_key m))).

(** Inserting a node between the smaller and the larger ones. *)
Lemma sorted_split l r n :
  sorted_nodes (l ++ n :: r) <->
  sorted_nodes (l ++ r) /\ below (node_key n) l /\ above (node_key n) r.
Proof.
  unfold sorted_nodes. rewrite !StronglySorted_app, !Forall_forall. split.
  - intros (Hlr & Hl & Hr). apply StronglySorted_inv in Hr as [Hr Hn].
    rewrite Forall_forall in Hn.
    split; [split; [|by split]|split].
    + intros x y Hx Hy. apply Hlr; [done|by right].
    + intros x Hx. apply list_elem_of_In in Hx. apply (Hlr x n Hx). by left.
    + intros x Hx. by apply Hn.
  - intros ((Hlr & Hl & Hr) & Hbl & Hab). split; [|split; [done|]].
    + intros x y Hx Hy. apply elem_of_cons in Hy as [->|Hy]; [|by apply Hlr].
      by apply Hbl, list_elem_of_In.
    + constructor; [done|]. by apply Forall_forall.
Qed.

Lemma sorted_nodup l : sorted_nodes l -> NoDup (map node_pair l).*1.
Proof.
  induction l as [|n l IH]; intros H; [constructor|].
  apply StronglySorted_inv in H as [Hs Hn]. simpl. constructor; [|by apply IH].
  intros Hin. apply list_elem_of_fmap in Hin as (p & Hp & Hin).
  apply list_elem_of_In, in_map_iff in Hin as (m & <- & Hm). simpl in Hp.
  rewrite Forall_forall in Hn. specialize (Hn m Hm). simpl in Hn. rewrite <- Hp in Hn.
  by apply key_lt_irrefl in Hn.
Qed.

(** ** The zipper *)

Fixpoint lefts (parents : list frame) : list treapNode :=
  match parents with
  | [] => []
  | f :: parents' =>
      lefts parents' ++
      match fr_side f with OnLeft => [] | OnRight => inorder (fr_other f) ++ [fr_node f] end
  end.
Fixpoint rights (parents : list frame) : list treapNode :=
  match parents with
  | [] => []
  | f :: parents' =>
      match fr_side f with OnLeft => fr_node f :: inorder (fr_other f) | OnRight => [] end ++
      rights parents'
  end.

Lemma inorder_rebuild parents t :
  inorder (rebuild parents t) = lefts parents ++ inorder t ++ rights parents.
Proof.
  revert t. induction parents as [|[s n o] parents IH]; intros t; simpl.
  - by rewrite app_nil_r.
  - rewrite IH. destruct s; simpl; rewrite ?app_nil_r, <- ?app_assoc; simpl;
      by rewrite <- ?app_assoc.
Qed.

Lemma inorder_rotate_up parents l n r :
  inorder (rotate_up parents l n r) = lefts parents ++ inorder (Node l n r) ++ rights parents.
Proof.
  revert l r. induction parents as [|[s p o] parents IH]; intros l r.
  - simpl. by rewrite app_nil_r.
  - cbn [rotate_up fr_node fr_side fr_other]. case_bool.
    + apply (inorder_rebuild (mkFrame s p o :: parents)).
    + destruct s; rewrite IH; simpl; rewrite ?app_nil_r, <- ?app_assoc; simpl;
        by rewrite <- ?app_assoc.
Qed.

Lemma sink_inorder fuel parents l r :
  (tree_size l + tree_size r < fuel)%nat ->
  exists t, sink fuel parents l r = Some t /\
    inorder t = lefts parents ++ inorder l ++ inorder r ++ rights parents.
Proof.
  revert parents l r. induction fuel as [|fuel IH]; intros parents l r Hf; [lia|].
  cbn [sink].
  destruct l as [|ll lc lr], r as [|rl rc rr]; cbn [sink_step].
  - eexists. split; [done|]. by rewrite inorder_rebuild.
  - destruct (IH (mkFrame OnLeft rc rr :: parents) Nil rl) as (t & -> & Ht);
      [simpl in *; lia|]. exists t. split; [done|]. rewrite Ht. simpl.
    by rewrite app_nil_r, <- !app_assoc.
  - destruct (IH (mkFrame OnRight lc ll :: parents) lr Nil) as (t & -> & Ht);
      [simpl in *; lia|]. exists t. split; [done|]. rewrite Ht. simpl.
    by rewrite <- !app_assoc.
  - case_bool.
    + destruct (IH (mkFrame OnRight lc ll :: parents) lr (Node rl rc rr)) as (t & -> & Ht);
        [simpl in *; lia|]. exists t. split; [done|]. rewrite Ht. simpl.
      by rewrite <- !app_assoc.
    + destruct (IH (mkFrame OnLeft rc rr :: parents) (Node ll lc lr) rl) as (t & -> & Ht);
        [simpl in *; lia|]. exists t. split; [done|]. rewrite Ht. simpl.
      by rewrite app_nil_r, <- !app_assoc.
Qed.

(** The walk: it stops at the node with the key, or between the smaller and the
    larger keys. *)
Lemma descend_spec key t parents parents' res :
  descend key t parents = (parents', res) ->
  sorted_nodes (inorder t) -> below key (lefts parents) -> above key (rights parents) ->
  match res with
  | Some (l, n, r) => node_key n = key /\ rebuild parents' (Node l n r) = rebuild parents t
  | None => rebuild parents' Nil = rebuild parents t /\
            below key (lefts parents') /\ above key (rights parents')
  end.
Proof.
  revert parents. induction t as [|l IHl n r IHr]; intros parents H Hs Hl Hr; simpl in H.
  - by injection H as <- <-.
  - cbn [inorder] in Hs. apply sorted_split in Hs as (Hs & Hbl & Hab).
    apply StronglySorted_app in Hs as (_ & Hsl & Hsr).
    destruct (bytes_Compare key (node_key n)) eqn:E.
    + injection H as <- <-. apply bytes_Compare_eq in E. done.
    + apply (IHl _ H Hsl).
      * simpl. by rewrite app_nil_r.
      * simpl. constructor; [done|]. apply Forall_app. split; [|done].
        eapply Forall_impl; [|exact Hab]. intros m Hm. by eapply key_lt_trans.
    + apply bytes_Compare_gt in E. apply (IHr _ H Hsr).
      * simpl. apply Forall_app. split; [done|]. apply Forall_app. split; [|by constructor].
        eapply Forall_impl; [|exact Hbl]. intros m Hm. exact (key_lt_trans _ _ _ Hm E).
      * done.
Qed.

(** ** The map *)

Definition nodes_map (l : list treapNode) : gmap (list byte) (list byte) :=
  list_to_map (map node_pair l).

Lemma nodes_map_cons n l :
  nodes_map (n :: l) = <[node_key n := node_value n]> (nodes_map l).
Proof. done. Qed.

Lemma nodes_map_middle l n r :
  sorted_nodes (l ++ n :: r) ->
  nodes_map (l ++ n :: r) = <[node_key n := node_value n]> (nodes_map (l ++ r)) /\
  nodes_map (l ++ r) !! node_key n = None.
Proof.
  intros Hs. pose proof (sorted_nodup _ Hs) as Hnd.
  assert (Hp : map node_pair (l ++ n :: r) ≡ₚ map node_pair (n :: l ++ r)).
  { rewrite !map_app. simpl. rewrite map_app. symmetry. apply Permutation_middle. }
  split.
  - unfold nodes_map at 1. rewrite (list_to_map_proper _ _ Hnd Hp). done.
  - apply not_elem_of_list_to_map_1. rewrite Hp in Hnd. simpl in Hnd.
    by inversion Hnd.
Qed.

Lemma tree_get_lookup key t :
  bst t -> node_value <$> tree_get key t = to_map t !! key.
Proof.
  unfold bst, to_map. intros Hs.
  destruct (descend key t []) as [parents res] eqn:E.
  pose proof (descend_spec _ _ _ _ _ E Hs) as Hd. simpl in Hd.
  specialize (Hd ltac:(constructor) ltac:(constructor)).
  assert (Hg : tree_get key t = match res with Some (_, n, _) => Some n | None => None end).
  { clear Hd Hs. revert E. generalize (@nil frame). induction t as [|l IHl n r IHr]; intros ps E; simpl in *.
    - by injection E as _ <-.
    - destruct (bytes_Compare key (node_key n)); [by injection E as _ <-|by eapply IHl|by eapply IHr]. }
  rewrite Hg. fold (nodes_map (inorder t)). destruct res as [[[l n] r]|].
  - destruct Hd as [<- Ht]. rewrite <- Ht, inorder_rebuild in Hs |- *.
    simpl in Hs |- *. rewrite <- app_assoc, app_assoc in Hs |- *. simpl in Hs |- *.
    destruct (nodes_map_middle _ _ _ Hs) as [-> _]. by rewrite lookup_insert_eq.
  - destruct Hd as (Ht & Hb & Ha). rewrite <- Ht, inorder_rebuild in Hs |- *. simpl in Hs |- *.
    set (n := mkNode key [] 0).
    assert (Hs' : sorted_nodes (lefts parents ++ n :: rights parents)) by (by apply sorted_split).
    destruct (nodes_map_middle _ _ _ Hs') as [_ Hn]. symmetry. exact Hn.
Qed.

Lemma sum_nodes_app l r : sum_nodes (l ++ r) = sum_nodes l + sum_nodes r.
Proof. unfold sum_nodes. induction l; simpl; lia. Qed.

Lemma wrap_u64_add a b : wrap_u64 (wrap_u64 a + b) = wrap_u64 (a + b).
Proof. unfold wrap_u64. apply Zplus_mod_idemp_l. Qed.
Lemma wrap_u64_idem a : wrap_u64 (wrap_u64 a) = wrap_u64 a.
Proof. unfold wrap_u64. by rewrite Z.mod_mod by lia. Qed.
Lemma wrap_u64_add_r a b : wrap_u64 (a + wrap_u64 b) = wrap_u64 (a + b).
Proof. rewrite Z.add_comm, wrap_u64_add. f_equal. lia. Qed.

Lemma nodeSize_wrap n : nodeSize n = wrap_u64 (nodeFieldsSize + (len (node_key n) + len (node_value n))).
Proof. done. Qed.

Lemma wrap_u64_ex a : exists q, wrap_u64 a = a + q * 2^64.
Proof.
  exists (- (a / 2^64)). unfold wrap_u64. pose proof (Z.div_mod a (2^64) ltac:(lia)). lia.
Qed.
Lemma wrap_u64_cong a b q : a = b + q * 2^64 -> wrap_u64 a = wrap_u64 b.
Proof. intros ->. unfold wrap_u64. apply Z.mod_add. lia. Qed.

(** ** One operation on the list of nodes *)

Lemma treap_ok_replace t t' l n n' r cnt sz :
  inorder t = l ++ n :: r -> inorder t' = l ++ n' :: r -> node_key n' = node_key n ->
  treap_ok t cnt sz ->
  treap_ok t' cnt (wrap_u64 (sz - len (node_value n) + len (node_value n'))) /\
  to_map t' = <[node_key n := node_value n']> (to_map t).
Proof.
  intros Ht Ht' Hk [Hs Hc Hz]. unfold bst in Hs. rewrite Ht in *.
  assert (Hs' : sorted_nodes (l ++ n' :: r)).
  { apply sorted_split in Hs. apply sorted_split. by rewrite Hk. }
  split; [split|].
  - unfold bst. by rewrite Ht'.
  - rewrite Hc, Ht'. unfold len. by rewrite !length_app.
  - rewrite Hz, Ht', !sum_nodes_app. simpl. rewrite !nodeSize_wrap, Hk.
    destruct (wrap_u64_ex (nodeFieldsSize + (len (node_key n) + len (node_value n)))) as [q1 E1].
    destruct (wrap_u64_ex (nodeFieldsSize + (len (node_key n) + len (node_value n')))) as [q2 E2].
    rewrite E1, E2.
    destruct (wrap_u64_ex (sum_nodes l + (nodeFieldsSize + (len (node_key n) + len (node_value n))
      + q1 * 2^64 + sum_nodes r))) as [q3 E3]. rewrite E3.
    apply (wrap_u64_cong _ _ (q1 - q2 + q3)). lia.
  - unfold to_map. rewrite Ht, Ht'. fold (nodes_map (l ++ n' :: r)) (nodes_map (l ++ n :: r)).
    destruct (nodes_map_middle _ _ _ Hs') as [-> _], (nodes_map_middle _ _ _ Hs) as [-> _].
    by rewrite Hk, insert_insert_eq.
Qed.

Lemma treap_ok_insert t t' l n r cnt sz :
  inorder t = l ++ r -> inorder t' = l ++ n :: r ->
  below (node_key n) l -> above (node_key n) r ->
  treap_ok t cnt sz ->
  treap_ok t' (cnt + 1) (wrap_u64 (sz + nodeSize n)) /\
  to_map t' = <[node_key n := node_value n]> (to_map t).
Proof.
  intros Ht Ht' Hl Hr [Hs Hc Hz]. unfold bst in Hs. rewrite Ht in *.
  assert (Hs' : sorted_nodes (l ++ n :: r)) by (by apply sorted_split).
  split; [split|].
  - unfold bst. by rewrite Ht'.
  - rewrite Hc, Ht'. unfold len. rewrite !length_app. simpl. lia.
  - rewrite Hz, Ht', wrap_u64_add, !sum_nodes_app. f_equal. simpl. lia.
  - unfold to_map. rewrite Ht, Ht'. by destruct (nodes_map_middle _ _ _ Hs') as [? _].
Qed.

Lemma treap_ok_delete t t' l n r cnt sz :
  inorder t = l ++ n :: r -> inorder t' = l ++ r ->
  treap_ok t cnt sz ->
  treap_ok t' (cnt - 1) (wrap_u64 (sz - nodeSize n)) /\
  to_map t' = delete (node_key n) (to_map t).
Proof.
  intros Ht Ht' [Hs Hc Hz]. unfold bst in Hs. rewrite Ht in *.
  split; [split|].
  - unfold bst. rewrite Ht'. by apply sorted_split in Hs as [? _].
  - rewrite Hc, Ht'. unfold len. rewrite !length_app. simpl. lia.
  - rewrite Hz, Ht', <- Z.add_opp_r, wrap_u64_add, !sum_nodes_app. f_equal. simpl. lia.
  - unfold to_map. rewrite Ht, Ht'. fold (nodes_map (l ++ n :: r)) (nodes_map (l ++ r)).
    destruct (nodes_map_middle _ _ _ Hs) as [-> Hn]. by rewrite delete_insert_id.
Qed.

(** What the walk from the root finds. *)
Lemma descend_root key t parents res :
  bst t -> descend key t [] = (parents, res) ->
  match res with
  | Some (l, n, r) => node_key n = key /\
      inorder t = (lefts parents ++ inorder l) ++ n :: (inorder r ++ rights parents)
  | None => inorder t = lefts parents ++ rights parents /\
      below key (lefts parents) /\ above key (rights parents) /\
      to_map t !! key = None
  end.
Proof.
  intros Hs E. pose proof (descend_spec _ _ _ _ _ E Hs) as Hd. simpl in Hd.
  specialize (Hd ltac:(constructor) ltac:(constructor)).
  destruct res as [[[l n] r]|].
  - destruct Hd as [Hk Ht]. split; [done|]. rewrite <- Ht, inorder_rebuild. simpl.
    by rewrite <- !app_assoc.
  - destruct Hd as (Ht & Hb & Ha).
    assert (Hi : inorder t = lefts parents ++ rights parents)
      by (by rewrite <- Ht, inorder_rebuild).
    split_and!; [done..|].
    set (n := mkNode key [] 0).
    assert (Hs' : sorted_nodes (lefts parents ++ n :: rights parents)).
    { apply sorted_split. unfold bst in Hs. by rewrite Hi in Hs. }
    destruct (nodes_map_middle _ _ _ Hs') as [_ Hn]. unfold to_map. rewrite Hi. exact Hn.
Qed.

(** ** The operations *)

Lemma Immutable_put_ok t key value prio :
  im_ok t ->
  im_ok (Immutable_put t key value prio) /\
  to_map (im_root (Immutable_put t key value prio)) =
    <[key := default [] value]> (to_map (im_root t)).
Proof.
  intros Hok. unfold Immutable_put, im_ok in *. destruct (im_root t) as [|l n r] eqn:Et.
  - destruct Hok as [_ Hc Hz]. simpl in *. split; [|done].
    unfold newTreapNode. split; simpl; [by repeat constructor|done|].
    rewrite nodeSize_wrap, Z.add_0_r. by rewrite wrap_u64_idem.
  - rewrite <- Et in *. clear Et l n r.
    destruct (descend key (im_root t) []) as [parents res] eqn:E.
    pose proof (descend_root _ _ _ _ (tok_bst _ _ _ Hok) E) as Hd.
    destruct res as [[[l n] r]|].
    + destruct Hd as [<- Ht]. cbn [im_root im_count im_totalSize].
      eapply (treap_ok_replace _ _ _ n (mkNode (node_key n) (default [] value) (node_priority n))
               _ _ _ Ht); [|done|done].
      rewrite inorder_rebuild. simpl. by rewrite <- !app_assoc.
    + destruct Hd as (Ht & Hl & Hr & _). cbn [im_root im_count im_totalSize].
      eapply (treap_ok_insert _ _ _ (newTreapNode key (default [] value) prio) _ _ _ Ht); [|done..].
      rewrite inorder_rotate_up. done.
Qed.

(** C13: [Immutable.Put] refines the insertion into a finite map: from a
    well-formed treap it gives a well-formed one (keys strictly ascending, count
    and size exact) whose content is the old one with the pairs inserted from
    first to last, a nil value being the empty one. *)
Theorem Immutable_Put_correct t kvPairs (Hok : im_ok t) :
  im_ok (Immutable_Put t kvPairs) /\
  to_map (im_root (Immutable_Put t kvPairs)) =
    foldl (fun m '(key, value, _) => <[key := default [] value]> m) (to_map (im_root t)) kvPairs.
Proof.
  revert t Hok. induction kvPairs as [|[[key value] prio] kvs IH]; intros t Hok; [done|].
  destruct (Immutable_put_ok t key value prio Hok) as [Hok' Hm].
  simpl. rewrite <- Hm. by apply IH.
Qed.

Lemma Immutable_delete_ok t key :
  im_ok t ->
  exists t', Immutable_Delete t key = Some t' /\ im_ok t' /\
    to_map (im_root t') = delete key (to_map (im_root t)).
Proof.
  intros Hok.
  unfold Immutable_Delete, im_ok in *.
  destruct (descend key (im_root t) []) as [parents res] eqn:E.
  pose proof (descend_root _ _ _ _ (tok_bst _ _ _ Hok) E) as Hd.
  destruct res as [[[l n] r]|].
  - destruct Hd as [<- Ht].
    assert (Hgen : exists t',
      (newRoot ← sink (S (tree_size l + tree_size r)) parents l r;
       Some (newImmutable newRoot (im_count t - 1)
               (wrap_u64 (im_totalSize t - nodeSize n)))) = Some t' /\
      treap_ok (im_root t') (im_count t') (im_totalSize t') /\
      to_map (im_root t') = delete (node_key n) (to_map (im_root t))).
    { destruct (sink_inorder (S (tree_size l + tree_size r)) parents l r ltac:(lia))
        as (t' & -> & Ht'). eexists. split; [done|]. cbn [im_root im_count im_totalSize].
      eapply (treap_ok_delete _ _ _ _ _ _ _ Ht); [|done]. by rewrite Ht', <- !app_assoc. }
    destruct parents as [|p ps]; [|by destruct l, r].
    destruct l as [|ll ln lr]; [|by destruct r].
    destruct r as [|rl rn rr]; [|done]. clear Hgen. simpl in Ht.
    eexists. split; [done|]. simpl. split; [split; [constructor|done|done]|].
    unfold to_map. rewrite Ht. simpl. by rewrite delete_insert_eq.
  - destruct Hd as (_ & _ & _ & Hn). exists t. split; [done|]. split; [done|].
    by rewrite delete_id.
Qed.

(** C15: [Immutable.Delete] refines the removal from a finite map: on a
    well-formed treap the rotations terminate, the result is well-formed, with
    the count and the size updated, and its content is the old one without the
    key. *)
Theorem Immutable_Delete_correct t key (Hok : im_ok t) :
  exists t', Immutable_Delete t key = Some t' /\ im_ok t' /\
    to_map (im_root t') = delete key (to_map (im_root t)).
Proof. by apply Immutable_delete_ok. Qed.

(** the readers of a well-formed treap are those of the finite map it
    represents: [Get] is the lookup (nil when absent), [Has] membership, [Len]
    the number of keys. *)
Theorem Immutable_Get_correct t key (Hok : im_ok t) :
  Immutable_Get t key = to_map (im_root t) !! key /\
  Immutable_Has t key = bool_decide (is_Some (to_map (im_root t) !! key)) /\
  Immutable_Len t = Z.of_nat (size (to_map (im_root t))).
Proof.
  pose proof (tree_get_lookup key _ (tok_bst _ _ _ Hok)) as Hg.
  unfold Immutable_Get, Immutable_Has, Immutable_get. rewrite <- Hg. split_and!.
  - done.
  - destruct (tree_get key (im_root t)); [by rewrite bool_decide_true by eauto|].
    rewrite bool_decide_false; [done|]. intros [? H]. done.
  - unfold Immutable_Len. rewrite (tok_count _ _ _ Hok). unfold len, to_map.
    rewrite map_size_list_to_map by apply sorted_nodup, (tok_bst _ _ _ Hok).
    by rewrite length_map.
Qed.

Lemma Mutable_get_loop_fst key t parent : (Mutable_get_loop key t parent).1 = tree_get key t.
Proof.
  revert parent. induction t as [|l IHl n r IHr]; intros parent; [done|]. simpl.
  by destruct (bytes_Compare key (node_key n)).
Qed.

(** the mutable treap computes what the immutable one does, state for state:
    root, count and (64-bit) total size after each operation, and the value of
    each reader. *)
Theorem Mutable_agrees_Immutable t key value prio :
  mu_view (Mutable_Put t key value prio) = Immutable_put (mu_view t) key value prio /\
  (mu_view <$> Mutable_Delete t key) = Immutable_Delete (mu_view t) key /\
  Mutable_Get t key = Immutable_Get (mu_view t) key /\
  Mutable_Has t key = Immutable_Has (mu_view t) key /\
  mu_view (Mutable_Reset t) = NewImmutable.
Proof.
  split_and!.
  - unfold Mutable_Put, Immutable_put. simpl. destruct (mu_root t); [done|].
    destruct (descend key _ []) as [parents [[[l n] r]|]]; [|done].
    unfold mu_view. simpl. by rewrite wrap_u64_add.
  - unfold Mutable_Delete, Immutable_Delete. simpl.
    destruct (descend key _ []) as [parents [[[l n] r]|]]; [|by destruct t].
    destruct parents, l, r; try done;
      match goal with |- context [mbind _ ?o] => by destruct o end.
  - unfold Mutable_Get, Immutable_Get, Mutable_get, Immutable_get. by rewrite Mutable_get_loop_fst.
  - unfold Mutable_Has, Immutable_Has, Mutable_get, Immutable_get. by rewrite Mutable_get_loop_fst.
  - done.
Qed.

(** ** The heap *)

Definition top_le (parents : list frame) (t : tree) : Prop :=
  match parents with [] => True | f :: _ => prio_le (node_priority (fr_node f)) t end.

Fixpoint ctx_heap (parents : list frame) : Prop :=
  match parents with
  | [] => True
  | f :: parents' =>
      prio_le (node_priority (fr_node f)) (fr_other f) /\ heap (fr_other f) /\
      top_le parents' (Node Nil (fr_node f) Nil) /\ ctx_heap parents'
  end.

Lemma heap_rebuild parents t :
  heap (rebuild parents t) <-> heap t /\ top_le parents t /\ ctx_heap parents.
Proof.
  revert t. induction parents as [|[s n o] parents IH]; intros t; simpl; [tauto|].
  rewrite IH. destruct s; simpl; destruct parents; simpl; tauto.
Qed.

Lemma prio_le_trans p q t : p <= q -> prio_le q t -> prio_le p t.
Proof. destruct t; simpl; lia. Qed.

Lemma heap_rotate_up parents l n r :
  heap (Node l n r) -> top_le parents l -> top_le parents r -> ctx_heap parents ->
  heap (rotate_up parents l n r).
Proof.
  revert l r. induction parents as [|[s p o] parents IH]; intros l r Hh Hl Hr Hc; [done|].
  cbn [rotate_up fr_node fr_side fr_other]. case_bool.
  - apply (heap_rebuild (mkFrame s p o :: parents)). done.
  - destruct Hc as (Ho & Hho & Ht & Hc). destruct Hh as (Hnl & Hnr & Hhl & Hhr). simpl in *.
    assert (Hq : forall t, prio_le (node_priority p) t -> top_le parents t).
    { intros t. destruct parents; [done|]. simpl in *. by apply prio_le_trans. }
    destruct s; apply IH; simpl; split_and?; auto; lia.
Qed.

Lemma descend_rebuild key t parents parents' res :
  descend key t parents = (parents', res) ->
  rebuild parents t =
    rebuild parents' (match res with Some (l, n, r) => Node l n r | None => Nil end).
Proof.
  revert parents. induction t as [|l IHl n r IHr]; intros parents H; simpl in H.
  - by injection H as <- <-.
  - destruct (bytes_Compare key (node_key n)); [by injection H as <- <-|by apply IHl in H|by apply IHr in H].
Qed.

Lemma Immutable_put_heap t key value prio :
  heap (im_root t) -> heap (im_root (Immutable_put t key value prio)).
Proof.
  unfold Immutable_put. intros Hh. destruct (im_root t) as [|l n r] eqn:Et; [done|].
  rewrite <- Et in *. clear Et l n r.
  destruct (descend key (im_root t) []) as [parents res] eqn:E.
  apply descend_rebuild in E. simpl in E. rewrite E in Hh. apply heap_rebuild in Hh.
  destruct res as [[[l n] r]|]; simpl.
  - apply heap_rebuild. destruct Hh as (Hh & Ht & Hc). split; [done|]. split; [|done].
    by destruct parents.
  - destruct Hh as (_ & Ht & Hc). by apply heap_rotate_up.
Qed.

(** insertion keeps the min-heap on priorities: whatever the pairs and the
    priorities drawn for them, a treap in heap order is in heap order after
    [Put]. *)
Theorem Immutable_Put_heap t kvPairs (Hh : heap (im_root t)) :
  heap (im_root (Immutable_Put t kvPairs)).
Proof.
  revert t Hh. induction kvPairs as [|[[key value] prio] kvs IH]; intros t Hh; [done|].
  simpl. by apply IH, Immutable_put_heap.
Qed.

Definition three_keys : Immutable :=
  Immutable_Put NewImmutable
    [([x02], Some [], 0); ([x01], Some [], 1); ([x03], Some [], 2)].

(** deletion does not keep it, although the comments of both [Delete]
    methods say so: there is a well-formed treap in heap order whose root's
    deletion lifts the child with the higher priority above the other one, and
    the result is not in heap order. *)
Theorem Immutable_Delete_breaks_heap :
  im_ok three_keys /\ heap (im_root three_keys) /\
  exists t', Immutable_Delete three_keys [x02] = Some t' /\ ~ heap (im_root t').
Proof.
  split; [|split].
  - refine (proj1 (Immutable_put_ok (Immutable_put (Immutable_put NewImmutable _ _ _) _ _ _) _ _ _ _)).
    do 2 apply Immutable_put_ok. split; [constructor|done|done].
  - do 3 apply Immutable_put_heap. done.
  - eexists. split; [vm_compute; reflexivity|]. vm_compute. intros (H & _). by apply H.
Qed.

(** ** ForEach *)

Definition stacked (parents : list (treapNode * tree)) : list treapNode :=
  flat_map (fun '(n, r) => n :: inorder r) parents.

Lemma stacked_push_left t parents : stacked (push_left t parents) = inorder t ++ stacked parents.
Proof.
  revert parents. induction t as [|l IH n r _]; intros parents; simpl; [done|].
  rewrite IH. simpl. by rewrite <- app_assoc.
Qed.

Lemma length_inorder t : length (inorder t) = tree_size t.
Proof. induction t; simpl; [done|]. rewrite length_app. simpl. lia. Qed.

Lemma foreach_visit {S} (fn : S -> list byte -> list byte -> S * bool) fuel parents s :
  (length (stacked parents) < fuel)%nat ->
  foreach_loop fn fuel parents s = Some (visit fn (stacked parents) s).
Proof.
  revert parents s. induction fuel as [|fuel IH]; intros parents s Hf; [lia|].
  destruct parents as [|[n r] parents]; [done|]. simpl in Hf |- *.
  destruct (fn s (node_key n) (node_value n)) as [s' go]. destruct go; simpl; [|done].
  rewrite IH, stacked_push_left; [done|].
  rewrite stacked_push_left. lia.
Qed.

(** [ForEach] terminates and calls the function on exactly the pairs of the
    treap, in ascending order of position, each once, until the function returns
    false; on a well-formed treap that order is the strict order of the keys. *)
Theorem ForEach_correct {S} (fn : S -> list byte -> list byte -> S * bool) (t : Immutable)
    (Hok : im_ok t) s :
  Immutable_ForEach fn t s = Some (visit fn (inorder (im_root t)) s) /\
  Mutable_ForEach fn (mkMutable (im_root t) (im_count t) (im_totalSize t)) s =
    Some (visit fn (inorder (im_root t)) s) /\
  sorted_nodes (inorder (im_root t)).
Proof.
  unfold Immutable_ForEach, Mutable_ForEach, tree_ForEach. cbn [mu_root].
  rewrite foreach_visit, stacked_push_left; rewrite ?stacked_push_left; cbn [stacked flat_map]; rewrite app_nil_r.
  - split_and!; [done..|]. apply (tok_bst _ _ _ Hok).
  - rewrite length_inorder. lia.
Qed.

(** ** The parent stack *)

Section stack.
Context {A : Type}.
Implicit Types (s : parentStack A) (l : list A).

(** The cell at an index, in the static array or in the overflow. *)
Definition cell s (i : nat) : option (option A) :=
  if (i <? staticDepth)%nat then ps_items s !! i else ps_overflow s !! (i - staticDepth)%nat.

(** A stack represents a list, the top first: the item [n] below the top is in
    the cell [index - 1 - n]. *)
Record represents s l : Prop := {
  rep_items : length (ps_items s) = staticDepth;
  rep_index : ps_index s = length l;
  rep_cells : forall n, (n < length l)%nat -> cell s (length l - 1 - n) = Some (l !! n);
}.

Lemma cell_lt s i x :
  length (ps_items s) = staticDepth -> cell s i = Some x ->
  (i < staticDepth + length (ps_overflow s))%nat.
Proof.
  unfold cell. intros Hl. nat_bool; intros Hx; apply lookup_lt_Some in Hx; lia.
Qed.

Lemma Push_represents s l x :
  represents s l -> exists s', parentStack_Push s x = Some s' /\ represents s' (x :: l).
Proof.
  intros [Hi Hx Hc]. unfold parentStack_Push. rewrite Hx.
  destruct (Nat.ltb_spec (length l) staticDepth) as [Hs|Hs].
  - eexists. split; [done|]. split; simpl; [by rewrite length_insert|done|].
    intros [|n] Hn; unfold cell; simpl.
    + replace (length l - 0 - 0)%nat with (length l) by lia.
      destruct (Nat.ltb_spec (length l) staticDepth); [|lia]. rewrite list_lookup_insert_eq by lia. done.
    + specialize (Hc n ltac:(lia)). unfold cell in Hc.
      replace (length l - 0 - S n)%nat with (length l - 1 - n)%nat by lia.
      revert Hc. nat_bool; rewrite ?list_lookup_insert_ne by lia; done.
  - set (index := (length l - staticDepth)%nat).
    set (overflow := if (length (ps_overflow s) <? index + 1)%nat then _ else _).
    assert (Hov : (index < length overflow)%nat).
    { unfold overflow. nat_bool; rewrite ?length_app, ?length_replicate; lia. }
    destruct (Nat.ltb_spec index (length overflow)); [|lia].
    eexists. split; [done|]. split; simpl; [done|done|].
    intros [|n] Hn; unfold cell; simpl.
    + replace (length l - 0 - 0)%nat with (length l) by lia.
      destruct (Nat.ltb_spec (length l) staticDepth); [lia|]. fold index.
      by rewrite list_lookup_insert_eq by lia.
    + specialize (Hc n ltac:(lia)). pose proof (cell_lt _ _ _ Hi Hc) as Hlt. unfold cell in Hc.
      replace (length l - 0 - S n)%nat with (length l - 1 - n)%nat by lia.
      revert Hc. destruct (Nat.ltb_spec (length l - 1 - n) staticDepth); [done|].
      rewrite list_lookup_insert_ne by lia. unfold overflow. nat_bool; [|done].
      by rewrite lookup_app_l by lia.
Qed.

Lemma Pop_represents s l :
  represents s l -> exists s', parentStack_Pop s = Some (head l, s') /\ represents s' (tail l).
Proof.
  intros [Hi Hx Hc]. unfold parentStack_Pop. rewrite Hx. destruct l as [|x l]; simpl.
  - eexists. split; [done|]. by split.
  - pose proof (Hc 0%nat ltac:(simpl; lia)) as H0. simpl in H0. unfold cell in H0.
    rewrite !Nat.sub_0_r in *.
    assert (Hrest : forall s', length (ps_items s') = staticDepth -> ps_index s' = length l ->
              (forall i, i <> length l -> cell s' i = cell s i) -> represents s' l).
    { intros s' H1 H2 H3. split; [done..|]. intros n Hn. rewrite H3 by lia.
      specialize (Hc (S n) ltac:(simpl; lia)). simpl in Hc. rewrite <- Hc. f_equal. lia. }
    unfold slice_at. revert H0. nat_bool; intros H0; rewrite H0; simpl; eexists; (split; [done|]); apply Hrest; simpl;
      rewrite ?length_insert; try done; intros i Hne; unfold cell; simpl; nat_bool;
      rewrite ?list_lookup_insert_ne by lia; done.
Qed.

Lemma At_represents s l n : represents s l -> parentStack_At s n = Some (l !! n).
Proof.
  intros [Hi Hx Hc]. unfold parentStack_At. rewrite Hx.
  destruct (Nat.ltb_spec (length l) (n + 1)).
  - by rewrite lookup_ge_None_2 by lia.
  - specialize (Hc n ltac:(lia)). unfold cell in Hc.
    replace (length l - n - 1)%nat with (length l - 1 - n)%nat by lia. exact Hc.
Qed.

(** the parent stack, with its static array and its overflow slice, refines
    a list: no operation indexes out of range, [Push] is cons, [Pop] gives the
    head (nil when empty) and leaves the tail, [At n] is the [n]-th item from the
    top (nil beyond), [Len] the length, at any depth. *)
Theorem parentStack_refines s l x n (Hr : represents s l) :
  (exists s', parentStack_Push s x = Some s' /\ represents s' (x :: l)) /\
  (exists s', parentStack_Pop s = Some (head l, s') /\ represents s' (tail l)) /\
  parentStack_At s n = Some (l !! n) /\ parentStack_Len s = length l.
Proof.
  split_and!; [by apply Push_represents|by apply Pop_represents|by apply At_represents|].
  apply Hr.
Qed.

Lemma newStack_represents : represents newStack [].
Proof. split; [done|done|]. simpl. lia. Qed.
End stack.

(** ** Witnesses *)

Definition two_keys : Immutable :=
  Immutable_Put NewImmutable [([x01], Some [x0a], 5); ([x02], None, 3)].

Lemma NewImmutable_ok : im_ok NewImmutable.
Proof. split; [constructor|done|done]. Defined.

Lemma two_keys_ok : im_ok two_keys.
Proof. apply Immutable_put_ok, Immutable_put_ok, NewImmutable_ok. Qed.

Lemma Immutable_Put_correct_witness :
  im_ok NewImmutable /\ im_ok (Immutable_Put NewImmutable [([x01], Some [x0a], 5); ([x01], None, 3)]).
Proof.
  split; [apply NewImmutable_ok|].
  apply (Immutable_Put_correct NewImmutable _ NewImmutable_ok).
Defined.

Lemma Immutable_Delete_correct_witness :
  exists t', Immutable_Delete two_keys [x01] = Some t' /\ im_ok t'.
Proof.
  destruct (Immutable_Delete_correct two_keys [x01] two_keys_ok) as (t' & H & Hok & _).
  by exists t'.
Defined.

Lemma Immutable_Get_correct_witness :
  Immutable_Get two_keys [x01] = Some [x0a] /\
  Immutable_Get two_keys [x02] = to_map (im_root two_keys) !! [x02].
Proof. split; [reflexivity|]. apply (Immutable_Get_correct two_keys [x02] two_keys_ok). Defined.

Lemma Immutable_Put_heap_witness :
  heap (im_root (Immutable_Put NewImmutable [([x01], Some [], 9); ([x02], Some [], 3)])).
Proof. apply (Immutable_Put_heap NewImmutable). exact I. Defined.

Lemma ForEach_correct_witness :
  Immutable_ForEach (fun s k _ => (s ++ k, true)) two_keys [] = Some [x01; x02] /\
  sorted_nodes (inorder (im_root two_keys)).
Proof.
  split; [reflexivity|].
  apply (ForEach_correct (fun (s : list byte) k _ => (s ++ k, true)) two_keys two_keys_ok []).
Defined.

Lemma parentStack_refines_witness :
  exists s', parentStack_Push (newStack (A := nat)) 7%nat = Some s' /\ represents s' [7%nat].
Proof. apply (parentStack_refines newStack [] 7%nat 0%nat newStack_represents). Defined.
