(* ===== verification/TreapIter.v ===== *)
(** * database/internal/treap: the iterator

    The cursor is a node, with its subtrees, and the stack of its parents with the
    side each was left by: the comparison of pointers [parent.right == iter.node]
    of the code is that side.  The tree the iterator walks is the value of its
    root when it was created or last reseeked, as the code requires of its
    callers ([ForceReseek] after every change). *)

From Stdlib Require Import ZArith Lia.
From stdpp Require Import sorting.
From S2P Require Import Prelude WireCommon Treap.

(** A node and its subtrees. *)
Definition cursor : Type := tree * treapNode * tree.
Definition cur_node (c : cursor) : treapNode := c.1.2.
Definition cur_tree (c : cursor) : tree := Node c.1.1 c.1.2 c.2.

Record Iterator : Type := mkIterator {
  it_t : bool;   (* whether the iterator belongs to a mutable treap *)
  it_root : tree;
  it_node : option cursor;
  it_parents : list frame;
  it_isNew : bool;
  it_seekKey : option (list byte);
  it_startKey : option (list byte);
  it_limitKey : option (list byte);
}.

Definition set_pos (it : Iterator) (node : option cursor) (parents : list frame) : Iterator :=
  mkIterator (it_t it) (it_root it) node parents (it_isNew it) (it_seekKey it)
    (it_startKey it) (it_limitKey it).
Definition set_isNew (it : Iterator) (b : bool) : Iterator :=
  mkIterator (it_t it) (it_root it) (it_node it) (it_parents it) b (it_seekKey it)
    (it_startKey it) (it_limitKey it).
Definition set_seekKey (it : Iterator) (k : option (list byte)) : Iterator :=
  mkIterator (it_t it) (it_root it) (it_node it) (it_parents it) (it_isNew it) k
    (it_startKey it) (it_limitKey it).

Definition Immutable_Iterator (t : Immutable) (startKey limitKey : option (list byte)) : Iterator :=
  mkIterator false (im_root t) None [] true None startKey limitKey.
Definition Mutable_Iterator (t : Mutable) (startKey limitKey : option (list byte)) : Iterator :=
  mkIterator true (mu_root t) None [] true None startKey limitKey.

(** ** limitIterator *)

Definition below_start (startKey : option (list byte)) (key : list byte) : bool :=
  match startKey with
  | Some s => match bytes_Compare key s with Lt => true | _ => false end
  | None => false
  end.
Definition above_limit (limitKey : option (list byte)) (key : list byte) : bool :=
  match limitKey with
  | Some s => match bytes_Compare key s with Lt => false | _ => true end
  | None => false
  end.

Definition limitIterator (it : Iterator) : Iterator * bool :=
  match it_node it with
  | None => (it, false)
  | Some c =>
      if below_start (it_startKey it) (node_key (cur_node c)) then
        (set_pos it None (it_parents it), false)
      else if above_limit (it_limitKey it) (node_key (cur_node c)) then
        (set_pos it None (it_parents it), false)
      else (it, true)
  end.

(** ** seek *)

Section seek.
Variables (key : list byte) (exactMatch greater : bool).

(** The walk, with the node selected so far and its depth; when it falls off the
    tree the parents are popped down to that depth. *)
Fixpoint seek_loop (t : tree) (parents : list frame) (node : option cursor)
    (selectedNodeDepth : nat) : option cursor * list frame :=
  match t with
  | Nil => (node, drop (length parents - selectedNodeDepth) parents)
  | Node l n r =>
      match bytes_Compare key (node_key n) with
      | Lt =>
          seek_loop l (mkFrame OnLeft n r :: parents)
            (if greater then Some (l, n, r) else node)
            (if greater then length parents else selectedNodeDepth)
      | Gt =>
          seek_loop r (mkFrame OnRight n l :: parents)
            (if negb greater then Some (l, n, r) else node)
            (if negb greater then length parents else selectedNodeDepth)
      | Eq =>
          if exactMatch then (Some (l, n, r), parents)
          else if greater then seek_loop r (mkFrame OnRight n l :: parents) node selectedNodeDepth
          else seek_loop l (mkFrame OnLeft n r :: parents) node selectedNodeDepth
      end
  end.

Definition Iterator_seek (it : Iterator) : Iterator * bool :=
  let '(node, parents) := seek_loop (it_root it) [] None 0 in
  limitIterator (set_pos it node parents).
End seek.

(** ** First, Last, Next, Prev *)

(** Down the left children: the left-most node of a non-empty tree. *)
Fixpoint leftmost (l : tree) (n : treapNode) (r : tree) (parents : list frame)
    : cursor * list frame :=
  match l with
  | Nil => ((Nil, n, r), parents)
  | Node ll ln lr => leftmost ll ln lr (mkFrame OnLeft n r :: parents)
  end.
Fixpoint rightmost (l : tree) (n : treapNode) (r : tree) (parents : list frame)
    : cursor * list frame :=
  match r with
  | Nil => ((l, n, Nil), parents)
  | Node rl rn rr => rightmost rl rn rr (mkFrame OnRight n l :: parents)
  end.

Definition Iterator_First (it : Iterator) : Iterator * bool :=
  let it := set_isNew it false in
  match it_startKey it with
  | Some startKey => Iterator_seek startKey true true it
  | None =>
      match it_root it with
      | Nil => (set_pos it (it_node it) [], false)
      | Node l n r =>
          let '(c, parents) := leftmost l n r [] in (set_pos it (Some c) parents, true)
      end
  end.

Definition Iterator_Last (it : Iterator) : Iterator * bool :=
  let it := set_isNew it false in
  match it_limitKey it with
  | Some limitKey => Iterator_seek limitKey false false it
  | None =>
      match it_root it with
      | Nil => (set_pos it (it_node it) [], false)
      | Node l n r =>
          let '(c, parents) := rightmost l n r [] in (set_pos it (Some c) parents, true)
      end
  end.

(** Up the parents while the child is on the given side. *)
Fixpoint climb (from : side) (child : tree) (parents : list frame)
    : option cursor * list frame :=
  match parents with
  | [] => (None, [])
  | f :: parents' =>
      match from, fr_side f with
      | OnRight, OnRight | OnLeft, OnLeft => climb from (plug f child) parents'
      | OnRight, OnLeft => (Some (child, fr_node f, fr_other f), parents')
      | OnLeft, OnRight => (Some (fr_other f, fr_node f, child), parents')
      end
  end.

Definition Iterator_Next (it : Iterator) : Iterator * bool :=
  if it_isNew it then Iterator_First it
  else
    match it_node it with
    | None => (it, false)
    | Some (l, n, r) =>
        match it_seekKey it with
        | Some seekKey => Iterator_seek seekKey false true (set_seekKey it None)
        | None =>
            match r with
            | Nil =>
                let '(node, parents) := climb OnRight (Node l n r) (it_parents it) in
                limitIterator (set_pos it node parents)
            | Node rl rn rr =>
                let '(c, parents) := leftmost rl rn rr (mkFrame OnRight n l :: it_parents it) in
                limitIterator (set_pos it (Some c) parents)
            end
        end
    end.

Definition Iterator_Prev (it : Iterator) : Iterator * bool :=
  if it_isNew it then Iterator_Last it
  else
    match it_node it with
    | None => (it, false)
    | Some (l, n, r) =>
        match it_seekKey it with
        | Some seekKey => Iterator_seek seekKey false false (set_seekKey it None)
        | None =>
            match l with
            | Nil =>
                let '(node, parents) := climb OnLeft (Node l n r) (it_parents it) in
                limitIterator (set_pos it node parents)
            | Node ll ln lr =>
                let '(c, parents) := rightmost ll ln lr (mkFrame OnLeft n r :: it_parents it) in
                limitIterator (set_pos it (Some c) parents)
            end
        end
    end.

Definition Iterator_Seek (it : Iterator) (key : list byte) : Iterator * bool :=
  Iterator_seek key true true (set_isNew it false).

Definition Iterator_Key (it : Iterator) : option (list byte) := node_key ∘ cur_node <$> it_node it.
Definition Iterator_Value (it : Iterator) : option (list byte) := node_value ∘ cur_node <$> it_node it.
Definition Iterator_Valid (it : Iterator) : bool := if it_node it is Some _ then true else false.

(** [root] is the current root of the mutable treap. *)
Definition Iterator_ForceReseek (it : Iterator) (root : tree) : Iterator :=
  if negb (it_t it) then it
  else
    mkIterator (it_t it) root (it_node it) (it_parents it) (it_isNew it)
      (Iterator_Key it) (it_startKey it) (it_limitKey it).

(** * Specification *)

(** What comes before and after the cursor. *)
Definition before (c : cursor) (parents : list frame) : list treapNode :=
  lefts parents ++ inorder c.1.1.
Definition after (c : cursor) (parents : list frame) : list treapNode :=
  inorder c.2 ++ rights parents.

Definition in_range (it : Iterator) (n : treapNode) : bool :=
  negb (below_start (it_startKey it) (node_key n)) &&
  negb (above_limit (it_limitKey it) (node_key n)).

(** The iterator stands on the node between two parts of its tree. *)
Definition stands (it : Iterator) (l : list treapNode) (n : treapNode) (r : list treapNode) : Prop :=
  exists c, it_node it = Some c /\ cur_node c = n /\
    rebuild (it_parents it) (cur_tree c) = it_root it /\
    before c (it_parents it) = l /\ after c (it_parents it) = r.

(** The nodes [Next] walks over until it returns false. *)
Fixpoint collect (step : Iterator -> Iterator * bool) (fuel : nat) (it : Iterator)
    : list treapNode :=
  match fuel with
  | O => []
  | S fuel' =>
      let '(it', ok) := step it in
      if ok then
        match it_node it' with
        | Some c => cur_node c :: collect step fuel' it'
        | None => []
        end
      else []
  end.

(** Where a seek should land: the keys of the tree split at the sought one, which
    goes with the side the flags say. *)
Section target.
Variables (key : list byte) (exactMatch greater : bool).

Definition left_side (m : treapNode) : bool :=
  match bytes_Compare key (node_key m) with
  | Gt => true
  | Lt => false
  | Eq => xorb exactMatch greater
  end.

Definition seek_target (l : list treapNode) : option (list treapNode * treapNode * list treapNode) :=
  let a := List.filter left_side l in
  let b := List.filter (negb ∘ left_side) l in
  if greater then match b with [] => None | n :: r => Some (a, n, r) end
  else match rev a with [] => None | n :: ra => Some (rev ra, n, b) end.
End target.

(** The outcome of a move: on the target when there is one and it is in the range
    of the iterator, exhausted otherwise. *)
Definition lands (it : Iterator) (res : Iterator * bool)
    (target : option (list treapNode * treapNode * list treapNode)) : Prop :=
  match target with
  | Some (l, n, r) =>
      if in_range it n then
        res.2 = true /\ stands res.1 l n r /\ it_root res.1 = it_root it /\
        it_isNew res.1 = false /\ it_seekKey res.1 = None /\
        it_startKey res.1 = it_startKey it /\ it_limitKey res.1 = it_limitKey it
      else res.2 = false /\ it_node res.1 = None
  | None => res.2 = false /\ it_node res.1 = None
  end.

(** * Proofs *)

Lemma rebuild_inorder c parents :
  inorder (rebuild parents (cur_tree c)) = before c parents ++ cur_node c :: after c parents.
Proof.
  rewrite inorder_rebuild. unfold before, after. destruct c as [[l n] r]. simpl.
  by rewrite <- !app_assoc.
Qed.

Lemma stands_inorder it l n r : stands it l n r -> inorder (it_root it) = l ++ n :: r.
Proof. intros (c & _ & <- & <- & <- & <-). apply rebuild_inorder. Qed.

Lemma leftmost_spec l n r parents :
  let '(c, ps) := leftmost l n r parents in
  rebuild ps (cur_tree c) = rebuild parents (Node l n r) /\
  before c ps = lefts parents /\
  cur_node c :: after c ps = inorder (Node l n r) ++ rights parents.
Proof.
  revert n r parents. induction l as [|ll IH ln lr _]; intros n r parents; simpl.
  - unfold before, after. simpl. by rewrite app_nil_r.
  - specialize (IH ln lr (mkFrame OnLeft n r :: parents)).
    destruct (leftmost _ _ _ _) as [c ps]. destruct IH as (-> & -> & ->). simpl.
    by rewrite app_nil_r, <- !app_assoc.
Qed.

Lemma rightmost_spec l n r parents :
  let '(c, ps) := rightmost l n r parents in
  rebuild ps (cur_tree c) = rebuild parents (Node l n r) /\
  after c ps = rights parents /\
  before c ps ++ [cur_node c] = lefts parents ++ inorder (Node l n r).
Proof.
  revert l n parents. induction r as [|rl _ rn rr IH]; intros l n parents; simpl.
  - unfold before, after. simpl. by rewrite <- !app_assoc.
  - specialize (IH rl rn (mkFrame OnRight n l :: parents)).
    destruct (rightmost _ _ _ _) as [c ps]. destruct IH as (-> & -> & ->). simpl.
    by rewrite <- !app_assoc.
Qed.

Lemma climb_right_spec child parents :
  let '(o, ps) := climb OnRight child parents in
  match o with
  | Some c => rebuild ps (cur_tree c) = rebuild parents child /\
      before c ps = lefts parents ++ inorder child /\ cur_node c :: after c ps = rights parents
  | None => rights parents = []
  end.
Proof.
  revert child. induction parents as [|[s n o] parents IH]; intros child; simpl; [done|].
  destruct s; simpl.
  - unfold before, after. simpl. by rewrite app_nil_r.
  - specialize (IH (Node o n child)). cbn in IH |- *. unfold plug. simpl.
    destruct (climb _ _ _) as [[c|] ps]; [|done]. destruct IH as (? & -> & ?).
    split_and!; [done|by rewrite <- !app_assoc|done].
Qed.

Lemma climb_left_spec child parents :
  let '(o, ps) := climb OnLeft child parents in
  match o with
  | Some c => rebuild ps (cur_tree c) = rebuild parents child /\
      after c ps = inorder child ++ rights parents /\ before c ps ++ [cur_node c] = lefts parents
  | None => lefts parents = []
  end.
Proof.
  revert child. induction parents as [|[s n o] parents IH]; intros child; simpl; [done|].
  destruct s; simpl.
  - specialize (IH (Node child n o)). cbn in IH |- *. unfold plug. simpl.
    rewrite app_nil_r.
    destruct (climb _ _ _) as [[c|] ps]; [|done]. destruct IH as (? & -> & ?).
    split_and!; [done|by rewrite <- !app_assoc|done].
  - unfold before, after. simpl. by rewrite <- !app_assoc.
Qed.

(** The iterators that walk the same tree within the same limits. *)
Record same_walk (it it0 : Iterator) : Prop := {
  sw_root : it_root it = it_root it0;
  sw_start : it_startKey it = it_startKey it0;
  sw_limit : it_limitKey it = it_limitKey it0;
}.
Definition positioned (it : Iterator) : Prop := it_isNew it = false /\ it_seekKey it = None.

Lemma limitIterator_lands it it0 c ps l r :
  same_walk it it0 -> positioned it ->
  rebuild ps (cur_tree c) = it_root it -> before c ps = l -> after c ps = r ->
  lands it0 (limitIterator (set_pos it (Some c) ps)) (Some (l, cur_node c, r)).
Proof.
  intros [Hr Hs Hl] [Hnew Hseek] Hroot <- <-. unfold lands, limitIterator, in_range. simpl.
  rewrite Hs, Hl. destruct (below_start _ _); [done|]. destruct (above_limit _ _); [done|]. simpl.
  split_and!; [done| |done..]. by exists c.
Qed.

(** A cursor that splits the nodes as [l ++ n :: r] given its last part. *)
Lemma cursor_before c ps l b :
  before c ps ++ cur_node c :: after c ps = l ++ b -> cur_node c :: after c ps = b ->
  before c ps = l.
Proof. intros H Hb. rewrite Hb in H. by apply app_inv_tail in H. Qed.

Lemma cursor_after c ps a r :
  before c ps ++ cur_node c :: after c ps = a ++ r -> before c ps ++ [cur_node c] = a ->
  after c ps = r.
Proof.
  intros H <-. rewrite <- app_assoc in H. simpl in H. apply app_inv_head in H. by injection H.
Qed.

(** ** seek *)

(** What the walk has selected, for the part of the tree it has passed. *)
Definition selected (greater : bool) (root : tree) (parents : list frame) (node : option cursor) (depth : nat) : Prop :=
  match node with
  | None => depth = O /\ (if greater then rights parents = [] else lefts parents = [])
  | Some c =>
      let ps := drop (length parents - depth) parents in
      (depth <= length parents)%nat /\ rebuild ps (cur_tree c) = root /\
      if greater then cur_node c :: after c ps = rights parents
      else before c ps ++ [cur_node c] = lefts parents
  end.

Lemma selected_push (greater : bool) root parents node depth (f : frame) :
  (if greater then fr_side f = OnRight else fr_side f = OnLeft) ->
  selected greater root parents node depth -> selected greater root (f :: parents) node depth.
Proof.
  unfold selected. destruct node as [c|]; destruct f as [s n o]; simpl.
  - intros Hs (Hd & Hr & H).
    replace (S (length parents) - depth)%nat with (S (length parents - depth)) by lia.
    simpl. split_and!; [lia|done|]. destruct greater; subst s; [done|by rewrite app_nil_r].
  - intros Hs (-> & H). split; [done|]. destruct greater; subst s; [done|by rewrite app_nil_r].
Qed.

Lemma selected_here (greater : bool) parents l n r (f : frame) :
  fr_node f = n ->
  (if greater then fr_side f = OnLeft /\ fr_other f = r else fr_side f = OnRight /\ fr_other f = l) ->
  selected greater (rebuild parents (Node l n r)) (f :: parents) (Some (l, n, r)) (length parents).
Proof.
  destruct f as [s n' o]. simpl. intros -> Hs. unfold selected. cbn [length].
  replace (S (length parents) - length parents)%nat with 1%nat by lia. cbn [drop].
  split_and!; [lia|done|]. unfold after, before.
  destruct greater; destruct Hs as [-> ->]; simpl; [done|by rewrite <- app_assoc].
Qed.

(** The cursor the walk ends with is next to the split. *)
Definition at_split (greater : bool) (root : tree) (a b : list treapNode) (res : option cursor * list frame) : Prop :=
  match res.1 with
  | Some c => rebuild res.2 (cur_tree c) = root /\
      if greater then cur_node c :: after c res.2 = b else before c res.2 ++ [cur_node c] = a
  | None => if greater then b = [] else a = []
  end.

Lemma left_side_lt key exactMatch greater m : key_lt (node_key m) key -> left_side key exactMatch greater m = true.
Proof. intros H. unfold left_side. by rewrite bytes_Compare_antisym, H. Qed.
Lemma left_side_gt key exactMatch greater m : key_lt key (node_key m) -> left_side key exactMatch greater m = false.
Proof. intros H. unfold left_side. by rewrite H. Qed.

Lemma seek_loop_spec key exactMatch greater t : forall parents node depth,
  sorted_nodes (inorder t) ->
  Forall (fun m => left_side key exactMatch greater m = true) (lefts parents) ->
  Forall (fun m => left_side key exactMatch greater m = false) (rights parents) ->
  selected greater (rebuild parents t) parents node depth ->
  exists a b, inorder (rebuild parents t) = a ++ b /\
    Forall (fun m => left_side key exactMatch greater m = true) a /\ Forall (fun m => left_side key exactMatch greater m = false) b /\
    at_split greater (rebuild parents t) a b (seek_loop key exactMatch greater t parents node depth).
Proof.
  induction t as [|l IHl n r IHr]; intros parents node depth Hs Ha Hb Hsel.
  - exists (lefts parents), (rights parents). rewrite inorder_rebuild.
    split_and!; [done..|]. unfold at_split. simpl.
    destruct node as [c|]; [apply Hsel|]. by destruct Hsel as [_ ?].
  - cbn [inorder] in Hs. apply sorted_split in Hs as (Hs & Hbl & Hab).
    apply StronglySorted_app in Hs as (_ & Hsl & Hsr). cbn [seek_loop].
    assert (Hleft : left_side key exactMatch greater n = false -> key_lt key (node_key n) \/ node_key n = key ->
              Forall (fun m => left_side key exactMatch greater m = false) (rights (mkFrame OnLeft n r :: parents))).
    { intros Hn Hk. simpl. constructor; [done|]. apply Forall_app. split; [|done].
      eapply Forall_impl; [|exact Hab]. intros m Hm. apply left_side_gt.
      destruct Hk as [Hk| <-]; [exact (key_lt_trans _ _ _ Hk Hm)|done]. }
    assert (Hright : left_side key exactMatch greater n = true -> key_lt (node_key n) key \/ node_key n = key ->
              Forall (fun m => left_side key exactMatch greater m = true) (lefts (mkFrame OnRight n l :: parents))).
    { intros Hn Hk. simpl. apply Forall_app. split; [done|]. apply Forall_app.
      split; [|by constructor].
      eapply Forall_impl; [|exact Hbl]. intros m Hm. apply left_side_lt.
      destruct Hk as [Hk| <-]; [exact (key_lt_trans _ _ _ Hm Hk)|done]. }
    assert (Hl0 : Forall (fun m => left_side key exactMatch greater m = true) (lefts (mkFrame OnLeft n r :: parents))).
    { simpl. by rewrite app_nil_r. }
    assert (Hn : left_side key exactMatch greater n = match bytes_Compare key (node_key n) with
                               | Gt => true | Lt => false | Eq => xorb exactMatch greater end) by done.
    destruct (bytes_Compare key (node_key n)) eqn:E.
    + apply bytes_Compare_eq in E. destruct exactMatch; [|destruct greater eqn:Eg].
      * exists (lefts parents ++ inorder l ++ if greater then [] else [n]),
          ((if greater then [n] else []) ++ inorder r ++ rights parents).
        rewrite inorder_rebuild. split_and!.
        -- simpl. destruct greater; simpl; by rewrite ?app_nil_r, <- ?app_assoc.
        -- apply Forall_app. split; [done|]. apply Forall_app. split.
           ++ eapply Forall_impl; [|exact Hbl]. intros m Hm. apply left_side_lt. by rewrite E.
           ++ destruct greater; by repeat constructor.
        -- apply Forall_app. split; [destruct greater; by repeat constructor|].
           apply Forall_app. split; [|done].
           eapply Forall_impl; [|exact Hab]. intros m Hm. apply left_side_gt. by rewrite E.
        -- unfold at_split, before, after. simpl. split; [done|]. destruct greater; [done|].
           by rewrite <- app_assoc.
      * apply (IHr (mkFrame OnRight n l :: parents)); [done|apply Hright; auto|done|by apply selected_push].
      * apply (IHl (mkFrame OnLeft n r :: parents)); [done|done|apply Hleft; auto|by apply selected_push].
    + apply (IHl (mkFrame OnLeft n r :: parents)); [done|done|by apply Hleft; auto|].
      destruct greater; [by apply selected_here|by apply selected_push].
    + apply bytes_Compare_gt in E.
      apply (IHr (mkFrame OnRight n l :: parents)); [done|by apply Hright; auto|done|].
      destruct greater; [by apply selected_push|by apply selected_here].
Qed.

Lemma filter_split {A} (f : A -> bool) (a b : list A) :
  Forall (fun x => f x = true) a -> Forall (fun x => f x = false) b ->
  List.filter f (a ++ b) = a /\ List.filter (negb ∘ f) (a ++ b) = b.
Proof.
  intros Ha Hb. rewrite !List.filter_app. split.
  - induction Ha as [|x a H _ IH]; simpl; [|by rewrite H; simpl; f_equal].
    induction Hb as [|x b H _ IH]; simpl; [done|by rewrite H].
  - induction Ha as [|x a H _ IH]; simpl; [|by rewrite H].
    induction Hb as [|x b H _ IH]; simpl; [done|by rewrite H; simpl; f_equal].
Qed.

Lemma Iterator_seek_lands it it0 key exactMatch greater :
  same_walk it it0 -> positioned it -> bst (it_root it) ->
  lands it0 (Iterator_seek key exactMatch greater it)
    (seek_target key exactMatch greater (inorder (it_root it))).
Proof.
  intros Hw Hp Hs. unfold Iterator_seek.
  destruct (seek_loop_spec key exactMatch greater (it_root it) [] None 0 Hs
    ltac:(constructor) ltac:(constructor) ltac:(by destruct greater))
    as (a & b & Hab & Ha & Hb & Hat). simpl in Hab, Hat.
  unfold seek_target. rewrite Hab.
  destruct (filter_split _ _ _ Ha Hb) as [-> ->].
  destruct (seek_loop _ _ _ _ _ _ _) as [[c|] ps]; unfold at_split in Hat; cbn [fst snd] in Hat.
  - destruct Hat as [Hr Hc]. pose proof (rebuild_inorder c ps) as Hi. rewrite Hr, Hab in Hi.
    destruct greater.
    + rewrite <- Hc. apply limitIterator_lands; [done..| |done].
      by eapply cursor_before.
    + rewrite <- Hc, rev_app_distr. simpl. rewrite rev_involutive.
      apply limitIterator_lands; [done..|]. by eapply cursor_after.
  - destruct greater; subst; done.
Qed.

(** One step on the list: forwards and backwards. *)
Definition next_target (l : list treapNode) (n : treapNode) (r : list treapNode) :=
  match r with [] => None | m :: r' => Some (l ++ [n], m, r') end.
Definition prev_target (l : list treapNode) (n : treapNode) (r : list treapNode) :=
  match rev l with [] => None | m :: ra => Some (rev ra, m, n :: r) end.

Lemma Iterator_Next_lands it l n r :
  positioned it -> stands it l n r -> lands it (Iterator_Next it) (next_target l n r).
Proof.
  intros [Hnew Hseek] (c & Hc & <- & Hroot & <- & <-). unfold Iterator_Next. rewrite Hnew, Hc, Hseek.
  destruct c as [[cl cn] cr]. unfold after. destruct cr as [|rl rn rr].
  - pose proof (climb_right_spec (Node cl cn Nil) (it_parents it)) as H.
    destruct (climb _ _ _) as [[c'|] ps]; [|by rewrite H].
    destruct H as (Hr & Hb & Ha). simpl. rewrite <- Ha.
    apply limitIterator_lands; [done..|by rewrite Hr| |done].
    rewrite Hb. unfold before. simpl. by rewrite <- app_assoc.
  - pose proof (leftmost_spec rl rn rr (mkFrame OnRight cn cl :: it_parents it)) as H.
    destruct (leftmost _ _ _ _) as [c' ps]. destruct H as (Hr & Hb & Ha).
    unfold cur_node at 1. cbn [fst snd].
    change (rights (mkFrame OnRight cn cl :: it_parents it)) with (rights (it_parents it)) in Ha.
    rewrite <- Ha. simpl.
    apply limitIterator_lands; [done..|by rewrite Hr| |done].
    rewrite Hb. unfold before. simpl. by rewrite <- app_assoc.
Qed.

Lemma Iterator_Prev_lands it l n r :
  positioned it -> stands it l n r -> lands it (Iterator_Prev it) (prev_target l n r).
Proof.
  intros [Hnew Hseek] (c & Hc & <- & Hroot & <- & <-). unfold Iterator_Prev. rewrite Hnew, Hc, Hseek.
  destruct c as [[cl cn] cr]. unfold before, prev_target. destruct cl as [|ll ln lr].
  - pose proof (climb_left_spec (Node Nil cn cr) (it_parents it)) as H.
    destruct (climb _ _ _) as [[c'|] ps]; [|by simpl; rewrite H].
    destruct H as (Hr & Ha & Hb). simpl. rewrite app_nil_r, <- Hb, rev_app_distr. simpl.
    rewrite rev_involutive.
    apply limitIterator_lands; [done..|by rewrite Hr|done|].
    rewrite Ha. unfold after. done.
  - pose proof (rightmost_spec ll ln lr (mkFrame OnLeft cn cr :: it_parents it)) as H.
    destruct (rightmost _ _ _ _) as [c' ps]. destruct H as (Hr & Ha & Hb).
    cbn [fst snd].
    change (lefts (mkFrame OnLeft cn cr :: it_parents it)) with (lefts (it_parents it) ++ []) in Hb.
    rewrite app_nil_r in Hb. rewrite <- Hb, rev_app_distr. simpl. rewrite rev_involutive.
    apply limitIterator_lands; [done..|by rewrite Hr|done|].
    rewrite Ha. unfold after. simpl. done.
Qed.

(** ** The whole walk *)

Fixpoint while_range (it : Iterator) (l : list treapNode) : list treapNode :=
  match l with
  | [] => []
  | n :: l' => if in_range it n then n :: while_range it l' else []
  end.

(** The part of the list a walk still has to go over. *)
Definition ahead (forward : bool) (l r : list treapNode) : list treapNode :=
  if forward then r else rev l.
Definition Iterator_step (forward : bool) : Iterator -> Iterator * bool :=
  if forward then Iterator_Next else Iterator_Prev.

Lemma Iterator_step_lands forward it l n r :
  positioned it -> stands it l n r ->
  match ahead forward l r with
  | [] => (Iterator_step forward it).2 = false
  | m :: rest => exists l' r', ahead forward l' r' = rest /\
      lands it (Iterator_step forward it) (Some (l', m, r'))
  end.
Proof.
  intros Hp Hs. destruct forward; cbn [ahead Iterator_step].
  - pose proof (Iterator_Next_lands _ _ _ _ Hp Hs) as H. destruct r as [|m r]; [apply H|].
    by exists (l ++ [n]), r.
  - pose proof (Iterator_Prev_lands _ _ _ _ Hp Hs) as H. unfold prev_target in H.
    destruct (rev l) as [|m ra]; [apply H|].
    exists (rev ra), (n :: r). by rewrite rev_involutive.
Qed.

Lemma collect_lands forward fuel : forall it it0 l n r,
  same_walk it it0 -> positioned it -> stands it l n r -> (length (ahead forward l r) < fuel)%nat ->
  collect (Iterator_step forward) fuel it = while_range it0 (ahead forward l r).
Proof.
  induction fuel as [|fuel IH]; intros it it0 l n r Hw Hp Hs Hf; [lia|]. cbn [collect].
  pose proof (Iterator_step_lands forward _ _ _ _ Hp Hs) as H.
  destruct (ahead forward l r) as [|m rest].
  - destruct (Iterator_step forward it). simpl in H. by subst.
  - destruct H as (l' & r' & <- & H). unfold lands in H. cbn [while_range].
    assert (Hin : in_range it m = in_range it0 m).
    { unfold in_range. destruct Hw as [_ -> ->]. done. }
    rewrite Hin in H. destruct (Iterator_step forward it) as [it' ok]. cbn [fst snd] in H. destruct (in_range it0 m).
    + destruct H as (-> & Hs' & Hr' & Hn' & Hk' & Hst' & Hli').
      pose proof Hs' as (c & Hc & Hcn & _). rewrite Hc, Hcn. f_equal.
      eapply IH; [|done|done|simpl in Hf; lia].
      destruct Hw as [? ? ?]. split; congruence.
    + by destruct H as (-> & _).
Qed.

Lemma collect_first forward fuel it l n r :
  lands it (Iterator_step forward it) (Some (l, n, r)) -> (length (ahead forward l r) < fuel)%nat ->
  collect (Iterator_step forward) (S fuel) it = while_range it (n :: ahead forward l r).
Proof.
  intros H Hf. unfold lands in H. cbn [collect while_range].
  destruct (Iterator_step forward it) as [it' ok]. cbn [fst snd] in H.
  destruct (in_range it n); [|by destruct H as (-> & _)].
  destruct H as (-> & Hs & Hr & Hn & Hk & Hst & Hli).
  pose proof Hs as (c & Hc & Hcn & _). rewrite Hc, Hcn. f_equal.
  by eapply collect_lands.
Qed.

Lemma while_range_filter it l :
  StronglySorted (fun a b => in_range it b = true -> in_range it a = true) l ->
  while_range it l = List.filter (in_range it) l.
Proof.
  induction l as [|n l IH]; intros Hs; [done|]. apply StronglySorted_inv in Hs as [Hs Hn]. simpl.
  destruct (in_range it n) eqn:E; [by rewrite IH|]. symmetry.
  clear Hs IH. induction Hn as [|m l Hm Hn IH]; [done|]. simpl.
  destruct (in_range it m); [by specialize (Hm eq_refl)|done].
Qed.

Lemma StronglySorted_weaken {A} (R R' : A -> A -> Prop) (P : A -> Prop) l :
  (forall a b, P a -> P b -> R a b -> R' a b) -> Forall P l ->
  StronglySorted R l -> StronglySorted R' l.
Proof.
  intros HR HP. induction HP as [|x l Hx HP IH]; intros Hs; constructor;
    apply StronglySorted_inv in Hs as [Hs Hn]; [by apply IH|].
  clear Hs IH. induction Hn as [|y l Hy Hn IH]; inversion HP; subst; constructor; auto.
Qed.

Lemma StronglySorted_rev {A} (R : A -> A -> Prop) l :
  StronglySorted R l -> StronglySorted (flip R) (rev l).
Proof.
  induction l as [|x l IH]; intros Hs; [constructor|]. apply StronglySorted_inv in Hs as [Hs Hn].
  simpl. apply StronglySorted_app. split; [|split; [by apply IH|by repeat constructor]].
  intros u v Hu Hv. apply list_elem_of_In in Hu, Hv. apply in_rev in Hu.
  destruct Hv as [<-|[]]. rewrite Forall_forall in Hn. by apply Hn.
Qed.

Lemma below_start_mono s a b :
  key_lt a b -> below_start s a = false -> below_start s b = false.
Proof.
  unfold below_start. destruct s as [s|]; [|done]. intros Hab.
  destruct (bytes_Compare b s) eqn:E; try done. by rewrite (key_lt_trans _ _ _ Hab E).
Qed.
Lemma above_limit_mono s a b :
  key_lt a b -> above_limit s b = false -> above_limit s a = false.
Proof.
  unfold above_limit. destruct s as [s|]; [|done]. intros Hab.
  destruct (bytes_Compare b s) eqn:E; try done. by rewrite (key_lt_trans _ _ _ Hab E).
Qed.

Lemma in_range_true it n : in_range it n = true <->
  below_start (it_startKey it) (node_key n) = false /\
  above_limit (it_limitKey it) (node_key n) = false.
Proof.
  unfold in_range. destruct (below_start _ _), (above_limit _ _); simpl; split; try done; by intros [? ?].
Qed.

(** Forwards the walk stops at the limit only, backwards at the start only. *)
Lemma while_range_forward it l :
  sorted_nodes l -> Forall (fun n => below_start (it_startKey it) (node_key n) = false) l ->
  while_range it l = List.filter (in_range it) l.
Proof.
  intros Hs Hst. apply while_range_filter. eapply StronglySorted_weaken; [|exact Hst|exact Hs].
  intros a b Ha Hb Hlt. rewrite !in_range_true. intros [_ Hl].
  split; [done|exact (above_limit_mono _ _ _ Hlt Hl)].
Qed.
Lemma while_range_backward it l :
  sorted_nodes l -> Forall (fun n => above_limit (it_limitKey it) (node_key n) = false) l ->
  while_range it (rev l) = rev (List.filter (in_range it) l).
Proof.
  intros Hs Hst. rewrite while_range_filter.
  - apply List.filter_rev.
  - apply StronglySorted_rev in Hs. apply Forall_rev in Hst.
    eapply StronglySorted_weaken; [|exact Hst|exact Hs].
    intros a b Ha Hb Hlt. rewrite !in_range_true. intros [Hb' _].
    split; [exact (below_start_mono _ _ _ Hlt Hb')|done].
Qed.

(** The nodes of the tree that are in the range, in the order of the walk. *)
Definition walk_spec (forward : bool) (it : Iterator) : list treapNode :=
  let l := List.filter (in_range it) (inorder (it_root it)) in if forward then l else rev l.

(** What the walk does not check: the first node, when there is no bound on the
    side it starts from. *)
Definition first_in_range (forward : bool) (it : Iterator) : Prop :=
  if forward then
    it_startKey it = None ->
    Forall (fun n => in_range it n = true) (take 1 (inorder (it_root it)))
  else
    it_limitKey it = None ->
    Forall (fun n => in_range it n = true) (take 1 (rev (inorder (it_root it)))).

Lemma filter_none {A} (f : A -> bool) l : Forall (fun x => f x = false) l -> List.filter f l = [].
Proof. induction 1 as [|x l H _ IH]; simpl; [done|by rewrite H]. Qed.

Lemma collect_none step fuel it :
  lands it (step it) None -> collect step fuel it = [].
Proof.
  destruct fuel; [done|]. cbn [collect lands]. destruct (step it). intros [H _]. simpl in H. by subst.
Qed.

Lemma length_filter_le {A} (f : A -> bool) l : (length (List.filter f l) <= length l)%nat.
Proof. induction l as [|x l IH]; simpl; [lia|]. destruct (f x); simpl; lia. Qed.

(** The nodes on the two sides of a key that is not to be matched exactly, or
    only from the right. *)
Lemma split_start key n : left_side key true true n = below_start (Some key) (node_key n).
Proof.
  unfold left_side, below_start. rewrite (bytes_Compare_antisym key (node_key n)).
  by destruct (bytes_Compare key (node_key n)).
Qed.
Lemma split_limit key n : left_side key false false n = negb (above_limit (Some key) (node_key n)).
Proof.
  unfold left_side, above_limit. rewrite (bytes_Compare_antisym key (node_key n)).
  by destruct (bytes_Compare key (node_key n)).
Qed.

Lemma Forall_filter {A} (f : A -> bool) l : Forall (fun x => f x = true) (List.filter f l).
Proof. apply Forall_forall. intros x Hx. by apply filter_In in Hx as [_ ?]. Qed.

Lemma filter_drop_out {A} (p f : A -> bool) l :
  (forall x, p x = true -> f x = true) -> List.filter p (List.filter f l) = List.filter p l.
Proof.
  intros Hpf. induction l as [|x l IH]; [done|]. simpl. destruct (f x) eqn:Ef; simpl.
  - by rewrite IH.
  - destruct (p x) eqn:Ep; [|done]. apply Hpf in Ep. congruence.
Qed.

Lemma sorted_filter (f : treapNode -> bool) l : sorted_nodes l -> sorted_nodes (List.filter f l).
Proof.
  unfold sorted_nodes. induction l as [|x l IH]; intros Hs; [done|].
  apply StronglySorted_inv in Hs as [Hs Hn]. simpl. destruct (f x); [|by apply IH].
  constructor; [by apply IH|]. apply Forall_forall. intros y Hy. apply filter_In in Hy as [Hy _].
  rewrite Forall_forall in Hn. by apply Hn.
Qed.

Lemma lands_here it it0 c ps l r :
  same_walk it it0 -> positioned it -> in_range it0 (cur_node c) = true ->
  rebuild ps (cur_tree c) = it_root it -> before c ps = l -> after c ps = r ->
  lands it0 (set_pos it (Some c) ps, true) (Some (l, cur_node c, r)).
Proof.
  intros [Hr Hs Hl] [Hn Hk] Hin Hroot Hb Ha. unfold lands. rewrite Hin. simpl.
  split_and!; [done| |done..]. by exists c.
Qed.

Lemma rev_split_last {A} (l : list A) a x : a ++ [x] = l -> rev l = x :: rev a.
Proof. intros <-. by rewrite rev_app_distr. Qed.

(** The first step of a new iterator whose side of departure has no bound. *)
Lemma First_lands it :
  it_startKey it = None -> it_seekKey it = None -> it_node it = None -> first_in_range true it ->
  lands it (Iterator_First it)
    (match inorder (it_root it) with [] => None | n :: r => Some ([], n, r) end).
Proof.
  intros Hst Hk Hnode Hfirst. specialize (Hfirst Hst). unfold Iterator_First. cbn.
  rewrite Hst. destruct (it_root it) as [|l n r] eqn:Er; [by rewrite Hnode|].
  pose proof (leftmost_spec l n r []) as H. destruct (leftmost l n r []) as [c ps].
  destruct H as (Hr & Hb & Ha). rewrite app_nil_r in Ha. rewrite <- Ha in *.
  apply lands_here; [done|done| |by rewrite Hr|done|done].
  by inversion Hfirst.
Qed.

Lemma Last_lands it :
  it_limitKey it = None -> it_seekKey it = None -> it_node it = None -> first_in_range false it ->
  lands it (Iterator_Last it)
    (match rev (inorder (it_root it)) with [] => None | n :: ra => Some (rev ra, n, []) end).
Proof.
  intros Hst Hk Hnode Hfirst. specialize (Hfirst Hst). unfold Iterator_Last. cbn.
  rewrite Hst. destruct (it_root it) as [|l n r] eqn:Er; [by rewrite Hnode|].
  pose proof (rightmost_spec l n r []) as H. destruct (rightmost l n r []) as [c ps].
  destruct H as (Hr & Ha & Hb). cbn [lefts app] in Hb. apply rev_split_last in Hb. rewrite Hb in *.
  rewrite rev_involutive.
  apply lands_here; [done|done| |by rewrite Hr|done|done].
  by inversion Hfirst.
Qed.

Lemma walk_forward it fuel :
  bst (it_root it) -> it_isNew it = true -> it_seekKey it = None -> first_in_range true it ->
  (length (inorder (it_root it)) < fuel)%nat -> it_node it = None ->
  collect (Iterator_step true) fuel it = walk_spec true it.
Proof.
  intros Hs Hnew Hk Hfirst Hf Hnode. destruct fuel as [|fuel]; [lia|]. unfold walk_spec.
  assert (Hstep : Iterator_step true it = Iterator_First it).
  { unfold Iterator_step, Iterator_Next. by rewrite Hnew. }
  destruct (it_startKey it) as [start|] eqn:Est.
  - assert (Hl : lands it (Iterator_step true it) (seek_target start true true (inorder (it_root it)))).
    { rewrite Hstep. unfold Iterator_First. cbn. rewrite Est.
      by apply (Iterator_seek_lands (set_isNew it false) it start true true). }
    set (b := List.filter (negb ∘ left_side start true true) (inorder (it_root it))).
    assert (Hb : while_range it b = List.filter (in_range it) (inorder (it_root it))).
    { rewrite while_range_forward.
      - apply filter_drop_out. intros n Hn. simpl. rewrite split_start, <- Est.
        apply in_range_true in Hn as [-> _]. done.
      - by apply sorted_filter.
      - rewrite Est. eapply Forall_impl; [|apply Forall_filter]. intros n Hn. simpl in Hn.
        rewrite split_start in Hn. by destruct (below_start _ _). }
    rewrite <- Hb. pose proof (length_filter_le (negb ∘ left_side start true true) (inorder (it_root it))) as Hle.
    unfold seek_target in Hl. fold b in Hl, Hle. destruct b as [|n r].
    + by apply collect_none.
    + apply (collect_first true fuel it _ n r Hl). simpl in *. lia.
  - pose proof (First_lands it Est Hk Hnode Hfirst) as Hl. rewrite <- Hstep in Hl.
    rewrite <- while_range_forward; [|done|].
    2: { apply Forall_forall. intros n _. by rewrite Est. }
    destruct (inorder (it_root it)) as [|n r].
    + by apply collect_none.
    + apply (collect_first true fuel it _ n r Hl). simpl in *. lia.
Qed.

Lemma walk_backward it fuel :
  bst (it_root it) -> it_isNew it = true -> it_seekKey it = None -> first_in_range false it ->
  (length (inorder (it_root it)) < fuel)%nat -> it_node it = None ->
  collect (Iterator_step false) fuel it = walk_spec false it.
Proof.
  intros Hs Hnew Hk Hfirst Hf Hnode. destruct fuel as [|fuel]; [lia|]. unfold walk_spec.
  assert (Hstep : Iterator_step false it = Iterator_Last it).
  { unfold Iterator_step, Iterator_Prev. by rewrite Hnew. }
  destruct (it_limitKey it) as [limit|] eqn:Est.
  - assert (Hl : lands it (Iterator_step false it) (seek_target limit false false (inorder (it_root it)))).
    { rewrite Hstep. unfold Iterator_Last. cbn. rewrite Est.
      by apply (Iterator_seek_lands (set_isNew it false) it limit false false). }
    set (a := List.filter (left_side limit false false) (inorder (it_root it))).
    assert (Ha : while_range it (rev a) = rev (List.filter (in_range it) (inorder (it_root it)))).
    { rewrite while_range_backward.
      - f_equal. apply filter_drop_out. intros n Hn. rewrite split_limit, <- Est.
        apply in_range_true in Hn as [_ ->]. done.
      - by apply sorted_filter.
      - rewrite Est. eapply Forall_impl; [|apply Forall_filter]. intros n Hn. simpl in Hn.
        rewrite split_limit in Hn. by destruct (above_limit _ _). }
    rewrite <- Ha. pose proof (length_filter_le (left_side limit false false) (inorder (it_root it))) as Hle.
    unfold seek_target in Hl. fold a in Hl, Hle. rewrite <- (length_rev a) in Hle.
    destruct (rev a) as [|n ra].
    + by apply collect_none.
    + rewrite (collect_first false fuel it _ n _ Hl); cbn [ahead]; rewrite rev_involutive; [done|].
      simpl in *. lia.
  - pose proof (Last_lands it Est Hk Hnode Hfirst) as Hl. rewrite <- Hstep in Hl.
    rewrite <- while_range_backward; [|done|].
    2: { apply Forall_forall. intros n _. by rewrite Est. }
    rewrite <- length_rev in Hf. destruct (rev (inorder (it_root it))) as [|n ra].
    + by apply collect_none.
    + rewrite (collect_first false fuel it _ n _ Hl); cbn [ahead]; rewrite rev_involutive; [done|].
      simpl in *. lia.
Qed.

(** C20: on a well-formed treap the iterator enumerates: calling [Next] until it
    returns false visits exactly the pairs whose key is in [startKey, limitKey),
    each once and in ascending order, and [Prev] the same ones in descending
    order, with one proviso on the very first pair (see
    [Iterator_First_ignores_limit]). *)
Theorem Iterator_enumerates t startKey limitKey (forward : bool) fuel (Hok : im_ok t)
    (Hfirst : first_in_range forward (Immutable_Iterator t startKey limitKey))
    (Hfuel : (length (inorder (im_root t)) < fuel)%nat) :
  collect (Iterator_step forward) fuel (Immutable_Iterator t startKey limitKey) =
    walk_spec forward (Immutable_Iterator t startKey limitKey).
Proof.
  pose proof (tok_bst _ _ _ Hok).
  destruct forward; [by apply walk_forward|by apply walk_backward].
Qed.

(** [Seek], and the reseek of [Next] and [Prev] after [ForceReseek], land on
    the right key of the current tree whatever the position before: [Seek] on the
    first key at or above the sought one; after the treap changed, [Next] on the
    first key strictly above the one the iterator stood on and [Prev] on the last
    strictly below, present or not; the move fails when that key is out of the
    iterator's range or missing. *)
Theorem Iterator_seek_correct it key root c (Hb : bst (it_root it)) (Hr : bst root)
    (Hk : it_seekKey it = None) (Hm : it_t it = true) (Hc : it_node it = Some c)
    (Hnew : it_isNew it = false) :
  lands it (Iterator_Seek it key) (seek_target key true true (inorder (it_root it))) /\
  let it' := Iterator_ForceReseek it root in
  lands it' (Iterator_Next it') (seek_target (node_key (cur_node c)) false true (inorder root)) /\
  lands it' (Iterator_Prev it') (seek_target (node_key (cur_node c)) false false (inorder root)).
Proof.
  split; [by apply (Iterator_seek_lands (set_isNew it false) it)|].
  unfold Iterator_ForceReseek, Iterator_Next, Iterator_Prev, Iterator_Key. rewrite Hm, Hc, Hnew. simpl.
  destruct c as [[l n] r]. unfold cur_node. simpl.
  split; apply (Iterator_seek_lands (mkIterator _ root _ _ _ None _ _)); done.
Qed.

Definition one_key : Immutable := Immutable_Put NewImmutable [([x05], Some [], 0)].

(** [First] does not check the limit when the iterator has no start key, nor
    [Last] the start when it has no limit: the treap holding only the key 5 gives
    that key to an iterator limited to the keys below 3, and to one over the keys
    from 7 on walked backwards, although [walk_spec] is empty. *)
Theorem Iterator_First_ignores_limit :
  (let it := Immutable_Iterator one_key None (Some [x03]) in
   (Iterator_First it).2 = true /\ Iterator_Key (Iterator_First it).1 = Some [x05] /\
   walk_spec true it = []) /\
  (let it := Immutable_Iterator one_key (Some [x07]) None in
   (Iterator_Last it).2 = true /\ Iterator_Key (Iterator_Last it).1 = Some [x05] /\
   walk_spec false it = []).
Proof. by vm_compute. Qed.

(** ** Witnesses *)

Lemma Iterator_enumerates_witness :
  map node_key (walk_spec true (Immutable_Iterator two_keys (Some [x02]) None)) = [[x02]] /\
  collect (Iterator_step true) 3 (Immutable_Iterator two_keys (Some [x02]) None) =
    walk_spec true (Immutable_Iterator two_keys (Some [x02]) None).
Proof.
  split; [reflexivity|].
  apply (Iterator_enumerates two_keys (Some [x02]) None true 3 two_keys_ok); [discriminate|].
  vm_compute. lia.
Defined.

Lemma Iterator_seek_correct_witness :
  exists it c, it_node it = Some c /\ node_key (cur_node c) = [x01] /\
    lands (Iterator_ForceReseek it Nil) (Iterator_Next (Iterator_ForceReseek it Nil)) None.
Proof.
  pose (it := (Iterator_First (Mutable_Iterator
    (mkMutable (Node Nil (mkNode [x01] [] 0) Nil) 1 73) None None)).1).
  exists it, (Nil, mkNode [x01] [] 0, Nil).
  split; [reflexivity|]. split; [reflexivity|].
  apply (Iterator_seek_correct it [x02] Nil (Nil, mkNode [x01] [] 0, Nil));
    try reflexivity; repeat constructor.
Defined.
