(* ===== verification/HeaderList.v ===== *)
(** * neutrino/headerlist: the bounded chain of headers

    The nodes live in the slots of a ring and point to each other: a pointer is
    the index of a slot, so that a slot that is overwritten is seen through the
    pointers that were left to it. *)

From Stdlib Require Import ZArith Lia.
From stdpp Require Import sorting.
From S2P Require Import Prelude WireCommon ChainHash WireBlock.

Record Node : Type := mkNode {
  Height : Z;
  Header : BlockHeader;
  prev : option Z;
  ancestor : option Z;
}.

Definition set_prev (p : option Z) (n : Node) : Node :=
  mkNode (Height n) (Header n) p (ancestor n).
Definition set_ancestor (a : option Z) (n : Node) : Node :=
  mkNode (Height n) (Header n) (prev n) a.

Definition Node_Prev (n : Node) : option Z := prev n.

Definition invertLowestOne (n : Z) : Z := Z.land n (n - 1).

Definition getAncestorHeight (height : Z) : Z :=
  if height <=? 0 then 0 else invertLowestOne (invertLowestOne height).

(** Dereference of a slot pointer; [None] if it is out of the ring. *)
Definition deref (chain : list Node) (p : Z) : option Node :=
  if p <? 0 then None else chain !! Z.to_nat p.

(** The loop of [Ancestor].  The outer option is [None] when the fuel runs out or
    a pointer is not one of the ring, the inner one is a nil pointer. *)
Fixpoint Ancestor_loop (fuel : nat) (chain : list Node) (n : option Z) (height : Z)
    : option (option Z) :=
  match fuel with
  | O => None
  | S fuel' =>
      match n with
      | None => Some None
      | Some p =>
          nd ← deref chain p;
          if Height nd =? height then Some (Some p)
          else
            let ancestorHeight := getAncestorHeight (Height nd) in
            match ancestor nd with
            | Some a =>
                an ← deref chain a;
                if (height <=? ancestorHeight) && (height <=? Height an) && (Height an <? Height nd)
                then Ancestor_loop fuel' chain (Some a) height
                else Ancestor_loop fuel' chain (prev nd) height
            | None => Ancestor_loop fuel' chain (prev nd) height
            end
      end
  end.

(** The fuel is two more than the number of slots: a walk visits each at most once. *)
Definition Node_Ancestor (chain : list Node) (n : option Z) (height : Z) : option (option Z) :=
  match n with
  | None => Some None
  | Some p =>
      nd ← deref chain p;
      if Height nd <? height then Some None
      else Ancestor_loop (S (S (length chain))) chain n height
  end.

Definition set_slot (chain : list Node) (p : Z) (n : Node) : list Node :=
  <[Z.to_nat p := n]> chain.

(** On the node in the slot [p]. *)
Definition Node_buildAncestor (chain : list Node) (p : Z) : option (list Node) :=
  nd ← deref chain p;
  match prev nd with
  | None => Some chain
  | Some q =>
      a ← Node_Ancestor chain (Some q) (getAncestorHeight (Height nd));
      Some (set_slot chain p (set_ancestor a nd))
  end.

(** ** The chain *)

Record BoundedMemoryChain : Type := mkChain {
  headPtr : Z;
  tailPtr : Z;
  chain_len : Z;
  maxSize : Z;
  chain : list Node;
}.

Definition zeroNode : Node := mkNode 0 (mkBlockHeader 0 zeroHash zeroHash 0 0 0) None None.

(** [maxNodes] is a uint32, [maxSize] an int32. *)
Definition NewBoundedMemoryChain (maxNodes : Z) : BoundedMemoryChain :=
  mkChain (-1) (-1) 0 (to_signed 32 maxNodes) (replicate (Z.to_nat maxNodes) zeroNode).

Definition Back (b : BoundedMemoryChain) : option Z :=
  if (tailPtr b =? -1) && (headPtr b =? -1) then None else Some (tailPtr b).
Definition Front (b : BoundedMemoryChain) : option Z :=
  if (tailPtr b =? -1) && (headPtr b =? -1) then None else Some (headPtr b).

(** The remainder of int32, which panics on zero. *)
Definition rem_i32 (a m : Z) : option Z := if m =? 0 then None else Some (Z.rem a m).

(** [None] is a panic or an endless walk. *)
Definition PushBack (b : BoundedMemoryChain) (n : Node) : option (BoundedMemoryChain * Z) :=
  let prevElem := if negb (tailPtr b =? -1) then Some (tailPtr b) else None in
  let prevElem := if maxSize b =? 1 then None else prevElem in
  tail ← rem_i32 (tailPtr b + 1) (maxSize b);
  '(head, slots) ← (if (tail <=? headPtr b) || (headPtr b =? -1)
                    then
                      head ← rem_i32 (headPtr b + 1) (maxSize b);
                      hd ← deref (chain b) head;
                      Some (head, set_slot (chain b) head (set_prev None hd))
                    else Some (headPtr b, chain b));
  _ ← deref slots tail;
  let slots := set_slot slots tail (set_ancestor None (set_prev prevElem n)) in
  slots ← Node_buildAncestor slots tail;
  let len := chain_len b + 1 in
  let len := if maxSize b <? len then maxSize b else len in
  Some (mkChain head tail len (maxSize b) slots, tail).

Definition ResetHeaderState (b : BoundedMemoryChain) (n : Node) : option BoundedMemoryChain :=
  fst <$> PushBack (mkChain (-1) (-1) 0 (maxSize b) (chain b)) n.

(** * Specification: the last nodes pushed, oldest first *)

Abbreviation entry := (Z * BlockHeader)%type.
Definition entry_of (n : Node) : entry := (Height n, Header n).

Definition slot (b : BoundedMemoryChain) (i : nat) : Z := (headPtr b + Z.of_nat i) mod maxSize b.

(** The node of the entry [i], in its slot: linked to the entry before, its skip
    pointer, if any, on the slot of some entry. *)
Definition node_at (b : BoundedMemoryChain) (l : list entry) (i : nat) : Prop :=
  exists nd, deref (chain b) (slot b i) = Some nd /\ l !! i = Some (entry_of nd) /\
    prev nd = (match i with O => None | S j => Some (slot b j) end) /\
    (forall a, ancestor nd = Some a -> exists j, (j < length l)%nat /\ a = slot b j).

Record holds (b : BoundedMemoryChain) (l : list entry) : Prop := {
  ho_size : 0 < maxSize b;
  ho_chain : Z.of_nat (length (chain b)) = maxSize b;
  ho_len : chain_len b = Z.of_nat (length l) /\ chain_len b <= maxSize b;
  ho_ptrs : match l with
            | [] => headPtr b = -1 /\ tailPtr b = -1
            | _ :: _ => 0 <= headPtr b < maxSize b /\ tailPtr b = slot b (length l - 1)
            end;
  ho_start : (length l < length (chain b))%nat -> l <> [] -> headPtr b = 0;
  ho_nodes : forall i, (i < length l)%nat -> node_at b l i;
}.

(** Heights rise along the chain. *)
Definition rising (l : list entry) : Prop := StronglySorted (fun a b => a.1 < b.1) l.

(** The reference for [Ancestor]: walk back with [Prev] until the height. *)
Fixpoint walk_back (l : list entry) (i : nat) (height : Z) : option nat :=
  match l !! i with
  | Some e =>
      if e.1 =? height then Some i
      else match i with O => None | S j => walk_back l j height end
  | None => None
  end.

(** What pushing does to the list. *)
Definition push_bounded (size : Z) (l : list entry) (e : entry) : list entry :=
  if Z.of_nat (length l) <? size then l ++ [e] else tail l ++ [e].

(** * Proofs *)

Lemma deref_lookup c p : 0 <= p -> deref c p = c !! Z.to_nat p.
Proof. intros Hp. unfold deref. by case_bool; [lia|]. Qed.

Lemma slot_range b i : 0 < maxSize b -> 0 <= slot b i < maxSize b.
Proof. intros H. apply Z.mod_pos_bound, H. Qed.

Lemma mod_inj h i j m :
  0 <= i < m -> 0 <= j < m -> (h + i) mod m = (h + j) mod m -> i = j.
Proof.
  intros Hi Hj H.
  pose proof (Z.div_mod (h + i) m ltac:(lia)). pose proof (Z.div_mod (h + j) m ltac:(lia)).
  set (q := (h + i) / m) in *. set (q' := (h + j) / m) in *.
  assert (i - j = m * (q - q')) by lia.
  destruct (Z.lt_trichotomy q q') as [|[-> |]]; nia.
Qed.

Lemma slot_inj b i j :
  Z.of_nat i < maxSize b -> Z.of_nat j < maxSize b -> slot b i = slot b j -> i = j.
Proof. intros Hi Hj H. apply mod_inj in H; lia. Qed.

(** ** Ancestor *)

Lemma rising_lookup l i j a b :
  rising l -> l !! i = Some a -> l !! j = Some b -> (i < j)%nat -> a.1 < b.1.
Proof.
  intros Hl Hi Hj Hij. unfold rising in Hl. rewrite <- (take_drop j l) in Hl.
  eapply (StronglySorted_app_1_elem_of _ _ _ a b) in Hl; [done| |].
  - apply (list_elem_of_lookup_2 _ i). by rewrite lookup_take_lt.
  - apply (list_elem_of_lookup_2 _ 0). rewrite lookup_drop. by rewrite Nat.add_0_r.
Qed.

Lemma walk_back_skip l i j ei ej height :
  rising l -> l !! i = Some ei -> l !! j = Some ej ->
  height <= ej.1 -> ej.1 < ei.1 -> walk_back l i height = walk_back l j height.
Proof.
  intros Hl Hi Hj Hh Hlt.
  assert (Hij : (j < i)%nat).
  { destruct (lt_eq_lt_dec i j) as [[H| ->]|H]; [|rewrite Hi in Hj; injection Hj as ->; lia|done].
    pose proof (rising_lookup _ _ _ _ _ Hl Hi Hj H). lia. }
  clear Hlt. revert ei Hi Hij. induction i as [|i IH]; intros ei Hi Hij; [lia|].
  cbn [walk_back]. rewrite Hi.
  pose proof (rising_lookup _ _ _ _ _ Hl Hj Hi Hij).
  case_bool; [lia|]. destruct (decide (j = i)) as [->|Hne]; [done|].
  destruct (lookup_lt_is_Some_2 l i) as [e He]; [apply lookup_lt_Some in Hi; lia|].
  apply (IH e He). lia.
Qed.

Lemma Ancestor_loop_spec b l height fuel : forall i,
  holds b l -> rising l -> (i < length l)%nat -> (i + 1 < fuel)%nat ->
  Ancestor_loop fuel (chain b) (Some (slot b i)) height = Some (slot b <$> walk_back l i height).
Proof.
  induction fuel as [|fuel IH]; intros i Hb Hl Hi Hf; [lia|].
  destruct (ho_nodes _ _ Hb i Hi) as (nd & Hnd & Hli & Hp & Ha).
  cbn [Ancestor_loop]. rewrite Hnd. simpl.
  assert (Hw : walk_back l i height =
               if Height nd =? height then Some i
               else match i with O => None | S j => walk_back l j height end).
  { destruct i; cbn [walk_back]; by rewrite Hli. }
  assert (Hprev : Height nd <> height -> Ancestor_loop fuel (chain b) (prev nd) height =
                  Some (slot b <$> walk_back l i height)).
  { intros Hne. rewrite Hw. destruct (Z.eqb_spec (Height nd) height); [done|]. rewrite Hp. destruct i as [|i].
    - destruct fuel; [lia|done].
    - apply IH; [done|done|lia|lia]. }
  destruct (Z.eqb_spec (Height nd) height) as [|Hne]; [by rewrite Hw|].
  destruct (ancestor nd) as [a|] eqn:Ea; [|by apply Hprev].
  destruct (Ha a eq_refl) as (j & Hj & ->).
  destruct (ho_nodes _ _ Hb j Hj) as (an & Han & Hlj & _ & _). rewrite Han. simpl.
  destruct (_ && _) eqn:Eg; [|by apply Hprev].
  apply andb_prop in Eg as [Eg H3]. apply andb_prop in Eg as [_ H2].
  apply Z.leb_le in H2. apply Z.ltb_lt in H3.
  pose proof (walk_back_skip l i j (entry_of nd) (entry_of an) height Hl Hli Hlj H2 H3) as Hs.
  assert (Hji : (j < i)%nat).
  { destruct (lt_eq_lt_dec i j) as [[H| ->]|H]; [|rewrite Hlj in Hli; injection Hli; lia|done].
    pose proof (rising_lookup _ _ _ _ _ Hl Hli Hlj H) as Hlt. simpl in Hlt. lia. }
  rewrite IH by (try done; lia). by rewrite <- Hs.
Qed.

Lemma length_holds b l : holds b l -> (length l <= length (chain b))%nat.
Proof. intros H. destruct (ho_len _ _ H), (ho_chain _ _ H). lia. Qed.

Lemma walk_back_above l i e height :
  rising l -> l !! i = Some e -> e.1 < height -> walk_back l i height = None.
Proof.
  intros Hl. revert e. induction i as [|i IH]; intros e He Hh; cbn [walk_back]; rewrite He;
    case_bool; try lia; [done|].
  destruct (lookup_lt_is_Some_2 l i) as [e' He']; [apply lookup_lt_Some in He; lia|].
  apply (IH e' He'). pose proof (rising_lookup _ _ _ _ _ Hl He' He ltac:(lia)). lia.
Qed.

Lemma Node_Ancestor_spec b l i height :
  holds b l -> rising l -> (i < length l)%nat ->
  Node_Ancestor (chain b) (Some (slot b i)) height = Some (slot b <$> walk_back l i height).
Proof.
  intros Hb Hl Hi. unfold Node_Ancestor.
  destruct (ho_nodes _ _ Hb i Hi) as (nd & Hnd & Hli & _). rewrite Hnd. cbn [mbind option_bind].
  case_bool.
  - by rewrite (walk_back_above l i (entry_of nd)).
  - apply Ancestor_loop_spec; [done..|]. pose proof (length_holds _ _ Hb). lia.
Qed.

(** ** PushBack *)

Lemma deref_set_slot c p q n :
  0 <= p < Z.of_nat (length c) -> 0 <= q ->
  deref (set_slot c p n) q = if q =? p then Some n else deref c q.
Proof.
  intros Hp Hq. rewrite !deref_lookup by done. unfold set_slot. case_bool.
  - subst. apply list_lookup_insert_eq. lia.
  - apply list_lookup_insert_ne. lia.
Qed.

Lemma deref_some c p : 0 <= p < Z.of_nat (length c) -> is_Some (deref c p).
Proof. intros H. rewrite deref_lookup by lia. apply lookup_lt_is_Some_2. lia. Qed.

Lemma length_set_slot c p n : length (set_slot c p n) = length c.
Proof. apply length_insert. Qed.

(** The same slots, seen from the next head. *)
Lemma slot_next b head i :
  0 < maxSize b -> (headPtr b + 1) mod maxSize b = head mod maxSize b ->
  (head + Z.of_nat i) mod maxSize b = slot b (S i).
Proof.
  intros Hm Hh. unfold slot. rewrite <- Z.add_mod_idemp_l, <- Hh, Z.add_mod_idemp_l by lia.
  f_equal. lia.
Qed.
Lemma slot_wrap b : 0 < maxSize b -> slot b (Z.to_nat (maxSize b)) = slot b 0.
Proof.
  intros Hm. unfold slot. rewrite Z2Nat.id by lia.
  rewrite <- (Z.mul_1_l (maxSize b)) at 1. rewrite Z.mod_add by lia. f_equal. lia.
Qed.

(** [holds] does not depend on the skip pointer, as long as it is in the chain. *)
Lemma set_ancestor_holds b l i nd a :
  holds b l -> (i < length l)%nat -> deref (chain b) (slot b i) = Some nd ->
  (forall p, a = Some p -> exists j, (j < length l)%nat /\ p = slot b j) ->
  holds (mkChain (headPtr b) (tailPtr b) (chain_len b) (maxSize b)
           (set_slot (chain b) (slot b i) (set_ancestor a nd))) l.
Proof.
  intros Hb Hi Hnd Ha. pose proof (slot_range b i (ho_size _ _ Hb)).
  pose proof (ho_chain _ _ Hb) as Hc. destruct (ho_len _ _ Hb) as [Hl Hl'].
  set (b' := mkChain _ _ _ _ _).
  assert (Hs : forall k, slot b' k = slot b k) by done.
  split; cbn [b' headPtr tailPtr chain_len maxSize chain]; try rewrite length_set_slot; try apply Hb.
  intros k Hk. destruct (ho_nodes _ _ Hb k Hk) as (ndk & Hndk & Hlk & Hpk & Hak).
  pose proof (slot_range b k (ho_size _ _ Hb)).
  unfold node_at. rewrite Hs. cbn [b' chain].
  rewrite deref_set_slot by lia. destruct (Z.eqb_spec (slot b k) (slot b i)) as [Heq|_].
  - apply slot_inj in Heq; [|lia..]. subst k. rewrite Hndk in Hnd. injection Hnd as ->.
    by exists (set_ancestor a nd).
  - by exists ndk.
Qed.

Lemma rem_i32_pos a m : 0 <= a -> 0 < m -> rem_i32 a m = Some (a mod m).
Proof. intros Ha Hm. unfold rem_i32. case_bool; [lia|]. by rewrite Z.rem_mod_nonneg by lia. Qed.

(** The chain as [PushBack] leaves it before building the skip pointer. *)
Definition pushed_slots (b : BoundedMemoryChain) (head tail : Z) (p : option Z) (slots : list Node)
    (n : Node) : BoundedMemoryChain :=
  let len := chain_len b + 1 in
  mkChain head tail (if maxSize b <? len then maxSize b else len) (maxSize b)
    (set_slot slots tail (set_ancestor None (set_prev p n))).

Lemma push_first b n m :
  holds b [] -> holds (pushed_slots b 0 0 None (set_slot (chain b) 0 m) n) [entry_of n].
Proof.
  intros Hb. pose proof (ho_size _ _ Hb) as Hm. pose proof (ho_chain _ _ Hb) as Hc.
  destruct (ho_len _ _ Hb) as [Hl _]. simpl in Hl.
  split; cbn [pushed_slots headPtr tailPtr chain_len maxSize chain length]; rewrite ?length_set_slot.
  - done.
  - done.
  - rewrite Hl. case_bool; lia.
  - split; [lia|]. unfold slot. simpl. by rewrite Z.mod_small by lia.
  - done.
  - intros [|i] Hi; [|lia]. exists (set_ancestor None (set_prev None n)).
    unfold slot. cbn [pushed_slots headPtr maxSize chain]. rewrite Z.mod_small by lia.
    split; [|done]. rewrite deref_set_slot; [done|rewrite length_set_slot; lia|lia].
Qed.

Lemma push_room b l n :
  holds b l -> l <> [] -> Z.of_nat (length l) < maxSize b ->
  holds (pushed_slots b 0 (slot b (length l)) (Some (tailPtr b)) (chain b) n) (l ++ [entry_of n]).
Proof.
  intros Hb Hne Hlt. pose proof (ho_size _ _ Hb) as Hm. pose proof (ho_chain _ _ Hb) as Hc.
  destruct (ho_len _ _ Hb) as [Hl _].
  assert (Hh : headPtr b = 0) by (apply (ho_start _ _ Hb); [lia|done]).
  set (b' := pushed_slots _ _ _ _ _ _).
  assert (Hs : forall i, slot b' i = slot b i) by (intros i; unfold slot; by rewrite Hh).
  pose proof (slot_range b (length l) Hm) as Ht.
  split; cbn [b' pushed_slots headPtr tailPtr chain_len maxSize chain]; rewrite ?length_set_slot, ?length_app.
  - done.
  - done.
  - cbn [length]. rewrite Hl. case_bool; lia.
  - destruct l as [|x l]; [done|]. cbn [app]. split; [lia|]. rewrite <- Hs. f_equal. cbn [length]. lia.
  - done.
  - intros i Hi. cbn [length] in Hi. unfold node_at. rewrite Hs.
    pose proof (slot_range b i Hm). cbn [b' pushed_slots chain].
    rewrite deref_set_slot by lia.
    destruct (Z.eqb_spec (slot b i) (slot b (length l))) as [Heq|Hns].
    + apply slot_inj in Heq; [|lia..]. subst i. eexists. split; [done|].
      rewrite lookup_app_r, Nat.sub_diag by lia. split; [done|]. split; [|by intros ? [=]].
      pose proof (ho_ptrs _ _ Hb) as Hp. destruct l as [|x l]; [done|]. destruct Hp as [_ ->].
      cbn [length set_ancestor set_prev prev]. f_equal. rewrite Hs. f_equal. lia.
    + destruct (decide (i = length l)) as [->|]; [done|].
      destruct (ho_nodes _ _ Hb i ltac:(lia)) as (nd & Hnd & Hli & Hp & Ha).
      exists nd. rewrite lookup_app_l by lia. split_and!; [done|done| |].
      * rewrite Hp. destruct i; [done|]. by rewrite Hs.
      * intros a Hia. destruct (Ha a Hia) as (j & Hj & ->). exists j. rewrite Hs, length_app.
        split; [lia|done].
Qed.

Lemma push_full b x l n hd :
  holds b (x :: l) -> Z.of_nat (length (x :: l)) = maxSize b ->
  deref (chain b) (slot b 1) = Some hd ->
  holds (pushed_slots b (slot b 1) (headPtr b) (if maxSize b =? 1 then None else Some (tailPtr b))
           (set_slot (chain b) (slot b 1) (set_prev None hd)) n) (l ++ [entry_of n]).
Proof.
  intros Hb Hfull Hhd. pose proof (ho_size _ _ Hb) as Hm. pose proof (ho_chain _ _ Hb) as Hc.
  destruct (ho_len _ _ Hb) as [Hl _]. cbn [length] in Hfull, Hl.
  destruct (ho_ptrs _ _ Hb) as [Hhr Htl].
  set (b' := pushed_slots _ _ _ _ _ _).
  assert (Hs : forall i, slot b' i = slot b (S i)).
  { intros i. change (slot b' i) with ((slot b 1 + Z.of_nat i) mod maxSize b).
    apply slot_next; [done|]. unfold slot. simpl. by rewrite Z.mod_mod by lia. }
  assert (H0 : slot b 0 = headPtr b) by (unfold slot; rewrite Z.mod_small; lia).
  assert (Hlast : slot b (S (length l)) = headPtr b).
  { rewrite <- H0, <- slot_wrap by done. f_equal. lia. }
  pose proof (slot_range b 1 Hm) as H1.
  split; cbn [b' pushed_slots headPtr tailPtr chain_len maxSize chain]; rewrite ?length_set_slot, ?length_app.
  - done.
  - done.
  - cbn [length]. rewrite Hl. case_bool; lia.
  - destruct (l ++ [entry_of n]) eqn:E; [by destruct l|]. split; [done|]. rewrite Hs, <- Hlast.
    f_equal. cbn [length]. lia.
  - cbn [length]. lia.
  - intros i Hi. cbn [length] in Hi. unfold node_at. rewrite Hs.
    pose proof (slot_range b (S i) Hm). cbn [b' pushed_slots chain].
    rewrite deref_set_slot by (rewrite ?length_set_slot; lia).
    destruct (decide (i = length l)) as [->|Hne].
    + rewrite Hlast, Z.eqb_refl. eexists. split; [done|].
      rewrite lookup_app_r, Nat.sub_diag by lia. split; [done|]. split; [|by intros ? [=]].
      cbn [set_ancestor set_prev prev]. destruct l as [|y l]; cbn [length] in *.
      * case_bool; [done|lia].
      * case_bool; [lia|]. by rewrite Hs, Htl.
    + destruct (Z.eqb_spec (slot b (S i)) (headPtr b)) as [Heq|_].
      { rewrite <- H0 in Heq. apply slot_inj in Heq; lia. }
      destruct (ho_nodes _ _ Hb (S i) ltac:(cbn [length]; lia)) as (nd & Hnd & Hli & Hp & Ha).
      rewrite deref_set_slot by lia. rewrite lookup_app_l by lia.
      assert (Ha' : forall a, ancestor nd = Some a ->
                exists j, (j < length (l ++ [entry_of n]))%nat /\ a = slot b' j).
      { intros a Hia. destruct (Ha a Hia) as (j & Hj & ->). rewrite length_app. cbn [length] in *.
        destruct j as [|j]; [exists (length l)|exists j]; rewrite Hs; (split; [lia|]); congruence. }
      destruct i as [|i].
      * rewrite Z.eqb_refl. rewrite Hhd in Hnd. injection Hnd as <-.
        by exists (set_prev None hd).
      * destruct (Z.eqb_spec (slot b (S (S i))) (slot b 1)) as [Heq|_].
        { apply slot_inj in Heq; lia. }
        exists nd. split_and!; [done|done| |done]. by rewrite Hp, Hs.
Qed.

Lemma walk_back_some l i height j :
  walk_back l i height = Some j -> (j < length l)%nat /\ exists e, l !! j = Some e /\ e.1 = height.
Proof.
  assert (Hhere : forall i e, l !! i = Some e -> e.1 = height -> Some i = Some j ->
            (j < length l)%nat /\ exists e, l !! j = Some e /\ e.1 = height).
  { intros k e He Hh [= <-]. split; [by apply lookup_lt_Some in He|by exists e]. }
  induction i as [|i IH]; cbn [walk_back].
  - destruct (l !! 0%nat) as [e|] eqn:E; [|done]. case_bool; [by eapply Hhere|done].
  - destruct (l !! S i) as [e|] eqn:E; [|done]. case_bool; [by eapply Hhere|done].
Qed.

Lemma walk_back_found l i j e :
  rising l -> (j <= i < length l)%nat -> l !! j = Some e -> walk_back l i e.1 = Some j.
Proof.
  intros Hl. induction i as [|i IH]; intros Hi He; cbn [walk_back].
  - replace j with 0%nat in * by lia. rewrite He. case_bool; [done|lia].
  - destruct (decide (j = S i)) as [->|Hne]; [rewrite He; case_bool; [done|lia]|].
    destruct (lookup_lt_is_Some_2 l (S i) ltac:(lia)) as [e' He']. rewrite He'.
    pose proof (rising_lookup _ _ _ _ _ Hl He He' ltac:(lia)). case_bool; [lia|].
    apply IH; [lia|done].
Qed.

Lemma build_holds b l i :
  holds b l -> rising l -> (i < length l)%nat ->
  exists slots, Node_buildAncestor (chain b) (slot b i) = Some slots /\
    holds (mkChain (headPtr b) (tailPtr b) (chain_len b) (maxSize b) slots) l.
Proof.
  intros Hb Hl Hi. destruct (ho_nodes _ _ Hb i Hi) as (nd & Hnd & Hli & Hp & _).
  unfold Node_buildAncestor. rewrite Hnd. cbn [mbind option_bind]. rewrite Hp.
  destruct i as [|i]; [exists (chain b); by destruct b|].
  rewrite (Node_Ancestor_spec b l i) by (try done; lia). cbn [mbind option_bind].
  eexists. split; [done|]. apply set_ancestor_holds; [done..|].
  intros p Hp'. apply fmap_Some in Hp' as (j & Hj & ->).
  apply walk_back_some in Hj as [Hj _]. by exists j.
Qed.

Lemma tail_slot b l : holds b l -> l <> [] -> tailPtr b = slot b (length l - 1).
Proof. intros Hb Hl. pose proof (ho_ptrs _ _ Hb). destruct l; [done|]. by destruct H. Qed.

Lemma finish_holds b head tail p slots n l :
  holds (pushed_slots b head tail p slots n) l -> rising l -> l <> [] ->
  let len := chain_len b + 1 in
  exists slots', Node_buildAncestor (set_slot slots tail (set_ancestor None (set_prev p n))) tail
                   = Some slots' /\
    holds (mkChain head tail (if maxSize b <? len then maxSize b else len) (maxSize b) slots') l.
Proof.
  intros Hh Hr Hne len. pose proof (tail_slot _ _ Hh Hne) as Ht.
  destruct (build_holds _ l (length l - 1) Hh Hr) as (slots' & Hs & Hh').
  { destruct l; [done|]. cbn [length]. lia. }
  rewrite <- Ht in Hs. by exists slots'.
Qed.

Lemma PushBack_holds b l n :
  holds b l -> rising (push_bounded (maxSize b) l (entry_of n)) ->
  exists b', PushBack b n = Some (b', tailPtr b') /\ maxSize b' = maxSize b /\
    holds b' (push_bounded (maxSize b) l (entry_of n)).
Proof.
  intros Hb Hr. pose proof (ho_size _ _ Hb) as Hm. pose proof (ho_chain _ _ Hb) as Hc.
  destruct (ho_len _ _ Hb) as [Hl Hl']. unfold push_bounded in *. unfold PushBack.
  pose proof (ho_ptrs _ _ Hb) as Hp. destruct l as [|x l].
  - destruct Hp as [Hh Ht]. cbn [length] in Hr |- *.
    destruct (Z.ltb_spec (Z.of_nat 0) (maxSize b)); [|lia].
    rewrite Hh, Ht. change (negb (-1 =? -1)) with false. cbn iota.
    change (-1 + 1) with 0. rewrite rem_i32_pos, Z.mod_small by lia.
    cbn [orb Z.leb Z.eqb Z.compare Pos.eqb mbind option_bind].
    destruct (deref_some (chain b) 0 ltac:(lia)) as [hd Hhd]. rewrite Hhd. cbn [mbind option_bind].
    rewrite deref_set_slot, Z.eqb_refl by lia. cbn [mbind option_bind].
    destruct (finish_holds b 0 0 None (set_slot (chain b) 0 (set_prev None hd)) n [entry_of n]
      (push_first _ _ _ Hb) Hr ltac:(done)) as (slots' & Hs & Hh').
    assert (Hpe : (if maxSize b =? 1 then None else None) = @None Z) by (by destruct (_ =? _)).
    rewrite Hpe, Hs. eexists (mkChain _ _ _ _ slots'). split_and!; [reflexivity|reflexivity|exact Hh'].
  - destruct Hp as [Hhr Htl]. pose proof (slot_range b (length (x :: l) - 1) Hm) as Htr.
    destruct (Z.eqb_spec (tailPtr b) (-1)) as [|_]; [lia|]. cbn [negb].
    destruct (Z.eqb_spec (headPtr b) (-1)) as [|_]; [lia|].
    rewrite (rem_i32_pos (tailPtr b + 1)) by lia. cbn [mbind option_bind]. rewrite orb_false_r.
    assert (Hnext : (tailPtr b + 1) mod maxSize b = slot b (length (x :: l))).
    { rewrite Htl. unfold slot. rewrite Z.add_mod_idemp_l by lia. f_equal. cbn [length]. lia. }
    rewrite Hnext. pose proof (slot_range b (length (x :: l)) Hm) as Hnr.
    destruct (Z.ltb_spec (Z.of_nat (length (x :: l))) (maxSize b)) as [Hlt|Hge].
    + pose proof (ho_start _ _ Hb ltac:(lia) ltac:(done)) as Hh0.
      assert (Hs0 : slot b (length (x :: l)) = Z.of_nat (length (x :: l))).
      { unfold slot. rewrite Hh0, Z.mod_small; lia. }
      destruct (Z.leb_spec (slot b (length (x :: l))) (headPtr b)); [cbn [length] in *; lia|].
      cbn [mbind option_bind].
      destruct (deref_some (chain b) (slot b (length (x :: l))) ltac:(lia)) as [d ->].
      cbn [mbind option_bind].
      destruct (Z.eqb_spec (maxSize b) 1) as [|_]; [cbn [length] in *; lia|].
      destruct (finish_holds b 0 _ _ _ n _ (push_room b (x :: l) n Hb ltac:(done) Hlt) Hr ltac:(done))
        as (slots' & Hs & Hh'). rewrite Hh0, Hs. eexists (mkChain _ _ _ _ slots'). split_and!; [reflexivity|reflexivity|exact Hh'].
    + assert (Hfull : Z.of_nat (length (x :: l)) = maxSize b) by lia.
      assert (Hw : slot b (length (x :: l)) = headPtr b).
      { replace (length (x :: l)) with (Z.to_nat (maxSize b)) by lia. rewrite slot_wrap by done.
        unfold slot. rewrite Z.mod_small; lia. }
      rewrite Hw, Z.leb_refl. rewrite rem_i32_pos by lia. cbn [mbind option_bind].
      change ((headPtr b + 1) mod maxSize b) with (slot b 1).
      pose proof (slot_range b 1 Hm).
      destruct (deref_some (chain b) (slot b 1) ltac:(lia)) as [hd Hhd]. rewrite Hhd.
      cbn [mbind option_bind].
      destruct (deref_some (set_slot (chain b) (slot b 1) (set_prev None hd)) (headPtr b)) as [d ->].
      { rewrite length_set_slot. lia. }
      cbn [mbind option_bind tail].
      destruct (finish_holds b _ _ _ _ n _ (push_full b x l n hd Hb Hfull Hhd) Hr)
        as (slots' & Hs & Hh'). { by destruct l. }
      rewrite Hs. eexists (mkChain _ _ _ _ slots'). split_and!; [reflexivity|reflexivity|exact Hh'].
Qed.

(** ** The chain as its users see it *)

(** The nodes pushed one after the other. *)
Fixpoint pushes (b : BoundedMemoryChain) (ns : list Node) : option BoundedMemoryChain :=
  match ns with
  | [] => Some b
  | n :: ns' => '(b, _) ← PushBack b n; pushes b ns'
  end.

Lemma NewBoundedMemoryChain_holds maxNodes :
  0 < maxNodes < 2^31 -> holds (NewBoundedMemoryChain maxNodes) [].
Proof.
  intros Hm. assert (Hs : to_signed 32 maxNodes = maxNodes).
  { unfold to_signed. change (2 ^ (32 - 1)) with (2 ^ 31). by case_bool; [|lia]. }
  split; cbn; rewrite ?Hs, ?length_replicate; try done; lia.
Qed.

Lemma rising_push size l e rest :
  rising (l ++ e :: rest) -> rising (push_bounded size l e ++ rest).
Proof.
  unfold push_bounded. intros H. case_bool.
  - by rewrite <- app_assoc.
  - rewrite <- app_assoc. destruct l as [|x l]; [done|]. by apply StronglySorted_inv in H as [H _].
Qed.

Lemma pushes_holds ns : forall b l,
  holds b l -> rising (l ++ map entry_of ns) ->
  exists b', pushes b ns = Some b' /\ maxSize b' = maxSize b /\
    holds b' (foldl (push_bounded (maxSize b)) l (map entry_of ns)).
Proof.
  induction ns as [|n ns IH]; intros b l Hb Hr; [by exists b|]. cbn [map foldl pushes] in *.
  pose proof (rising_push (maxSize b) _ _ _ Hr) as Hr'.
  destruct (PushBack_holds b l n Hb) as (b' & Hp & Hm & Hb').
  { by apply StronglySorted_app_1_l in Hr'. }
  rewrite Hp. cbn [mbind option_bind]. rewrite <- Hm in *. by apply IH.
Qed.

Lemma push_bounded_last size l e :
  0 < size -> push_bounded size (drop (length l - Z.to_nat size) l) e =
              drop (length (l ++ [e]) - Z.to_nat size) (l ++ [e]).
Proof.
  intros Hs. unfold push_bounded. rewrite length_drop, length_app. cbn [length]. case_bool.
  - rewrite drop_app_le by lia. f_equal. f_equal. lia.
  - rewrite drop_app_le by lia. f_equal.
    assert (Ht : forall l : list entry, tail l = drop 1 l) by (by intros []).
    rewrite Ht, drop_drop. f_equal. lia.
Qed.

Lemma push_all size es :
  0 < size -> foldl (push_bounded size) [] es = drop (length es - Z.to_nat size) es.
Proof.
  intros Hs. induction es as [|e es IH] using rev_ind; [done|].
  by rewrite foldl_app, IH, <- push_bounded_last.
Qed.

Lemma rising_drop k l : rising l -> rising (drop k l).
Proof. intros H. rewrite <- (take_drop k l) in H. by apply StronglySorted_app_1_r in H. Qed.

Lemma slot_entry b l i e :
  holds b l -> l !! i = Some e -> exists nd, deref (chain b) (slot b i) = Some nd /\ entry_of nd = e.
Proof.
  intros Hb He. destruct (ho_nodes _ _ Hb i) as (nd & Hnd & Hl & _).
  { by apply lookup_lt_Some in He. }
  exists nd. split; [done|]. congruence.
Qed.

Lemma push_bounded_nonempty size l e : push_bounded size l e <> [].
Proof. unfold push_bounded. case_bool; intros Hn; by apply app_eq_nil in Hn as [_ Hn]. Qed.

Lemma ends_holds b l :
  holds b l -> l <> [] ->
  Front b = Some (slot b 0) /\ Back b = Some (tailPtr b) /\ tailPtr b = slot b (length l - 1).
Proof.
  intros Hb Hl. pose proof (ho_ptrs _ _ Hb) as Hp. destruct l; [done|]. destruct Hp as [Hh Ht].
  unfold Front, Back. destruct (Z.eqb_spec (headPtr b) (-1)); [lia|]. rewrite andb_false_r.
  split_and!; [|done|done]. unfold slot. f_equal. rewrite Z.mod_small; lia.
Qed.

(** the ring is a bounded queue whose nodes are linked backwards: pushing a
    node higher than the last one never indexes out of the ring nor loops, the
    chain then holds the last [maxSize] nodes pushed, oldest first, in consecutive
    slots, each with its [prev] on the one before and the first with none (so that
    the overwritten nodes are unreachable), [Front] and [Back] on its ends;
    [ResetHeaderState] leaves the one node it is given. *)
Theorem PushBack_correct b l n
    (Hb : holds b l) (Hr : rising (push_bounded (maxSize b) l (entry_of n))) :
  (exists b', PushBack b n = Some (b', tailPtr b') /\
    holds b' (push_bounded (maxSize b) l (entry_of n)) /\
    Front b' = Some (slot b' 0) /\ Back b' = Some (tailPtr b')) /\
  (exists b', ResetHeaderState b n = Some b' /\ holds b' [entry_of n]).
Proof.
  split.
  - destruct (PushBack_holds b l n Hb Hr) as (b' & Hp & _ & Hb'). exists b'.
    by destruct (ends_holds _ _ Hb' (push_bounded_nonempty _ _ _)) as (-> & -> & _).
  - assert (Hb0 : holds (mkChain (-1) (-1) 0 (maxSize b) (chain b)) []).
    { split; cbn; [apply Hb|apply Hb| |done|done|lia].
      pose proof (ho_size _ _ Hb). lia. }
    destruct (PushBack_holds _ [] n Hb0) as (b' & Hp & _ & Hb').
    { unfold push_bounded. cbn. pose proof (ho_size _ _ Hb). case_bool; [|lia]. by repeat constructor. }
    exists b'. unfold ResetHeaderState. rewrite Hp. split; [done|].
    unfold push_bounded in Hb'. cbn in Hb'. by case_bool.
Qed.

(** C12: [Ancestor] agrees with walking back: after any number of nodes of rising
    heights is pushed on a new chain of any capacity, the ancestor of the last
    node at the height of one of the nodes still held is that node, and nil at
    every other height, whatever the skip pointers left to slots that have been
    overwritten since; the walk never runs out of the ring. *)
Theorem Node_Ancestor_correct maxNodes ns (Hm : 0 < maxNodes < 2^31)
    (Hr : rising (map entry_of ns)) :
  exists b, pushes (NewBoundedMemoryChain maxNodes) ns = Some b /\
    let live := drop (length ns - Z.to_nat maxNodes) (map entry_of ns) in
    (forall e, e ∈ live -> exists p nd, Node_Ancestor (chain b) (Back b) e.1 = Some (Some p) /\
       deref (chain b) p = Some nd /\ entry_of nd = e) /\
    (forall height, (forall e, e ∈ live -> e.1 <> height) ->
       Node_Ancestor (chain b) (Back b) height = Some None).
Proof.
  pose proof (NewBoundedMemoryChain_holds _ Hm) as Hb.
  destruct (pushes_holds ns _ [] Hb Hr) as (b & Hp & _ & Hh). exists b. split; [done|].
  assert (Hsz : maxSize (NewBoundedMemoryChain maxNodes) = maxNodes).
  { cbn. unfold to_signed. change (2 ^ (32 - 1)) with (2 ^ 31). by case_bool; [|lia]. }
  rewrite Hsz, push_all, length_map in Hh by lia.
  intros live. fold live in Hh. pose proof (rising_drop (length ns - Z.to_nat maxNodes) _ Hr) as Hrl.
  fold live in Hrl.
  assert (Hback : live <> [] -> Back b = Some (slot b (length live - 1))).
  { intros Hne. by destruct (ends_holds _ _ Hh Hne) as (_ & -> & ->). }
  split.
  - intros e He. apply list_elem_of_lookup_1 in He as [j Hj].
    assert (Hne : live <> []) by (intros ->; done).
    pose proof (lookup_lt_Some _ _ _ Hj) as Hlt.
    rewrite (Hback Hne), (Node_Ancestor_spec b live) by (try done; lia).
    rewrite (walk_back_found live _ j e) by (try done; lia).
    destruct (slot_entry b live j e Hh Hj) as (nd & Hnd & He). by exists (slot b j), nd.
  - intros height Hno. destruct (decide (live = [])) as [El|Hne].
    + unfold Back. rewrite El in Hh. pose proof (ho_ptrs _ _ Hh) as [-> ->]. done.
    + rewrite (Hback Hne), (Node_Ancestor_spec b live); [|done|done|destruct live; [done|cbn [length]; lia]].
      destruct (walk_back _ _ _) as [j|] eqn:E; [|done]. exfalso.
      apply walk_back_some in E as (_ & e & He & Hh'). apply (Hno e); [|done].
      by eapply list_elem_of_lookup_2.
Qed.

(** ** Witnesses *)

Definition header_at (h : Z) : Node := mkNode h (Header zeroNode) None None.

Lemma PushBack_correct_witness :
  exists b', PushBack (NewBoundedMemoryChain 3) (header_at 7) = Some (b', tailPtr b') /\
    holds b' [entry_of (header_at 7)].
Proof.
  destruct (PushBack_correct (NewBoundedMemoryChain 3) [] (header_at 7)) as [(b' & H & Hh & _) _].
  - apply NewBoundedMemoryChain_holds. lia.
  - repeat constructor.
  - by exists b'.
Defined.

Lemma Node_Ancestor_correct_witness :
  exists b, pushes (NewBoundedMemoryChain 2) [header_at 1; header_at 2; header_at 3] = Some b /\
    Node_Ancestor (chain b) (Back b) 1 = Some None.
Proof.
  destruct (Node_Ancestor_correct 2 [header_at 1; header_at 2; header_at 3]) as (b & Hb & _ & Hn).
  - lia.
  - repeat constructor.
  - exists b. split; [done|]. apply Hn. intros e He. cbn in He.
    apply list_elem_of_In in He as [<-|[<-|[]]]; discriminate.
Defined.
