(* ===== verification/LRUList.v ===== *)
(** * neutrino/cache/lru: the doubly linked list

    The elements of a list are cells of a store, linked in a ring through the
    sentinel [&l.root], the cell 0; a nil pointer is [None].  The store belongs to
    one list, so that [e.list == l] is a flag of the cell. *)

From Stdlib Require Import ZArith Lia.
From S2P Require Import Prelude.

Section list.
Context {V : Type}.

Record Element : Type := mkElement {
  e_next : option nat;
  e_prev : option nat;
  e_list : bool;
  e_Value : option V;   (* None in the sentinel *)
}.

Record List : Type := mkList {
  heap : gmap nat Element;
  l_len : Z;
  l_new : nat;   (* the next cell to be allocated *)
}.

Definition root : nat := 0.

(** [p.next = n] and the like: [None] is the nil dereference. *)
Definition set_next (p : nat) (n : option nat) (h : gmap nat Element) : option (gmap nat Element) :=
  x ← h !! p; Some (<[p := mkElement n (e_prev x) (e_list x) (e_Value x)]> h).
Definition set_prev (p : nat) (n : option nat) (h : gmap nat Element) : option (gmap nat Element) :=
  x ← h !! p; Some (<[p := mkElement (e_next x) n (e_list x) (e_Value x)]> h).
Definition set_list (p : nat) (b : bool) (h : gmap nat Element) : option (gmap nat Element) :=
  x ← h !! p; Some (<[p := mkElement (e_next x) (e_prev x) b (e_Value x)]> h).
(** [p.next] and [p.prev]: the outer option is the nil dereference. *)
Definition get_next (p : nat) (h : gmap nat Element) : option (option nat) := e_next <$> h !! p.
Definition get_prev (p : nat) (h : gmap nat Element) : option (option nat) := e_prev <$> h !! p.

Definition Element_Next (l : List) (e : nat) : option (option nat) :=
  x ← heap l !! e;
  Some (match e_next x with
        | Some p => if e_list x && negb (p =? root)%nat then Some p else None
        | None => None
        end).
Definition Element_Prev (l : List) (e : nat) : option (option nat) :=
  x ← heap l !! e;
  Some (match e_prev x with
        | Some p => if e_list x && negb (p =? root)%nat then Some p else None
        | None => None
        end).

(** [NewList], that is [Init] of a fresh list. *)
Definition NewList : List :=
  mkList {[root := mkElement (Some root) (Some root) false None]} 0 1.

Definition List_Len (l : List) : Z := l_len l.
Definition List_Front (l : List) : option (option nat) :=
  if l_len l =? 0 then Some None else get_next root (heap l).
Definition List_Back (l : List) : option (option nat) :=
  if l_len l =? 0 then Some None else get_prev root (heap l).

(** The four assignments of [insert] and [move] that link [e] after [at_]. *)
Definition link_after (e at_ : nat) (h : gmap nat Element) : option (gmap nat Element) :=
  h ← set_prev e (Some at_) h;
  n ← get_next at_ h;
  h ← set_next e n h;
  p ← get_prev e h;
  p ← p;
  h ← set_next p (Some e) h;
  n ← get_next e h;
  n ← n;
  set_prev n (Some e) h.

(** The two assignments of [remove] and [move] that unlink [e]. *)
Definition unlink (e : nat) (h : gmap nat Element) : option (gmap nat Element) :=
  p ← get_prev e h;
  p ← p;
  n ← get_next e h;
  h ← set_next p n h;
  n ← get_next e h;
  n ← n;
  p ← get_prev e h;
  set_prev n p h.

Definition List_insert (l : List) (e at_ : nat) : option List :=
  h ← link_after e at_ (heap l);
  h ← set_list e true h;
  Some (mkList h (l_len l + 1) (l_new l)).

Definition List_insertValue (l : List) (v : V) (at_ : nat) : option (List * nat) :=
  let e := l_new l in
  l ← List_insert (mkList (<[e := mkElement None None false (Some v)]> (heap l)) (l_len l) (S e)) e at_;
  Some (l, e).

Definition List_remove (l : List) (e : nat) : option List :=
  h ← unlink e (heap l);
  h ← set_next e None h;
  h ← set_prev e None h;
  h ← set_list e false h;
  Some (mkList h (l_len l - 1) (l_new l)).

Definition List_move (l : List) (e at_ : nat) : option List :=
  if (e =? at_)%nat then Some l
  else
    h ← unlink e (heap l);
    h ← link_after e at_ h;
    Some (mkList h (l_len l) (l_new l)).

Definition List_Remove (l : List) (e : nat) : option List :=
  x ← heap l !! e;
  if e_list x then List_remove l e else Some l.

Definition List_PushFront (l : List) (v : V) : option (List * nat) := List_insertValue l v root.
Definition List_PushBack (l : List) (v : V) : option (List * nat) :=
  p ← get_prev root (heap l);
  p ← p;
  List_insertValue l v p.

Definition List_InsertAfter (l : List) (v : V) (mark : nat) : option (List * option nat) :=
  x ← heap l !! mark;
  if negb (e_list x) then Some (l, None)
  else '(l, e) ← List_insertValue l v mark; Some (l, Some e).
Definition List_InsertBefore (l : List) (v : V) (mark : nat) : option (List * option nat) :=
  x ← heap l !! mark;
  if negb (e_list x) then Some (l, None)
  else p ← e_prev x; '(l, e) ← List_insertValue l v p; Some (l, Some e).

Definition List_MoveToFront (l : List) (e : nat) : option List :=
  x ← heap l !! e;
  n ← get_next root (heap l);
  if negb (e_list x) || bool_decide (n = Some e) then Some l else List_move l e root.
Definition List_MoveToBack (l : List) (e : nat) : option List :=
  x ← heap l !! e;
  p ← get_prev root (heap l);
  if negb (e_list x) || bool_decide (p = Some e) then Some l
  else p ← p; List_move l e p.

Definition List_MoveAfter (l : List) (e mark : nat) : option List :=
  x ← heap l !! e;
  m ← heap l !! mark;
  if negb (e_list x) || (e =? mark)%nat || negb (e_list m) then Some l else List_move l e mark.
Definition List_MoveBefore (l : List) (e mark : nat) : option List :=
  x ← heap l !! e;
  m ← heap l !! mark;
  if negb (e_list x) || (e =? mark)%nat || negb (e_list m) then Some l
  else p ← e_prev m; List_move l e p.

(** * Specification *)

Definition next (h : gmap nat Element) (p : nat) : option nat := x ← h !! p; e_next x.
Definition prev (h : gmap nat Element) (p : nat) : option nat := x ← h !! p; e_prev x.

(** The links from [a] through the cells to [b]. *)
Fixpoint seg (a : nat) (ids : list nat) (b : nat) : list (nat * nat) :=
  match ids with
  | [] => [(a, b)]
  | x :: ids' => (a, x) :: seg x ids' b
  end.

Definition linked (h : gmap nat Element) (l : list (nat * nat)) : Prop :=
  Forall (fun '(p, n) => next h p = Some n /\ prev h n = Some p) l.

(** The cells of the list, from the front, with their values. *)
Record lists (l : List) (es : list (nat * V)) : Prop := {
  li_nodup : NoDup (root :: es.*1);
  li_linked : linked (heap l) (seg root es.*1 root);
  li_len : l_len l = Z.of_nat (length es);
  li_values : Forall (fun '(e, v) => exists x, heap l !! e = Some x /\ e_Value x = Some v) es;
  li_list : forall e x, heap l !! e = Some x -> (e_list x = true <-> e ∈ es.*1);
  li_new : forall e, is_Some (heap l !! e) -> (e < l_new l)%nat;
}.
End list.
#[global] Arguments Element : clear implicits.
#[global] Arguments List : clear implicits.

(** * Proofs *)

Section proofs.
Context {V : Type}.
Implicit Types (h : gmap nat (Element V)) (es : list (nat * V)).

(** What the links do not touch. *)
Definition data h (q : nat) : option (bool * option V) :=
  (fun x => (e_list x, e_Value x)) <$> h !! q.

Lemma data_dom h q : is_Some (data h q) <-> is_Some (h !! q).
Proof. unfold data. by rewrite fmap_is_Some. Qed.

Lemma set_next_spec h p n :
  is_Some (data h p) -> exists h', set_next p n h = Some h' /\
    (forall q, next h' q = if decide (q = p) then n else next h q) /\
    (forall q, prev h' q = prev h q) /\ (forall q, data h' q = data h q).
Proof.
  intros [x Hx]%data_dom. unfold set_next. rewrite Hx. eexists. split; [done|].
  split_and!; intros q; unfold next, prev, data;
    destruct (decide (p = q)) as [<-|Hne];
    rewrite ?lookup_insert_eq, ?lookup_insert_ne, ?Hx by done;
    repeat case_decide; try done; congruence.
Qed.

Lemma set_prev_spec h p n :
  is_Some (data h p) -> exists h', set_prev p n h = Some h' /\
    (forall q, next h' q = next h q) /\
    (forall q, prev h' q = if decide (q = p) then n else prev h q) /\
    (forall q, data h' q = data h q).
Proof.
  intros [x Hx]%data_dom. unfold set_prev. rewrite Hx. eexists. split; [done|].
  split_and!; intros q; unfold next, prev, data;
    destruct (decide (p = q)) as [<-|Hne];
    rewrite ?lookup_insert_eq, ?lookup_insert_ne, ?Hx by done;
    repeat case_decide; try done; congruence.
Qed.

Lemma set_list_spec h p b v c :
  data h p = Some (c, v) -> exists h', set_list p b h = Some h' /\
    (forall q, next h' q = next h q) /\ (forall q, prev h' q = prev h q) /\
    (forall q, data h' q = if decide (q = p) then Some (b, v) else data h q).
Proof.
  intros Hd. pose proof (proj1 (data_dom h p) ltac:(by eexists)) as [x Hx].
  unfold data in Hd. rewrite Hx in Hd. injection Hd as Hc Hv.
  unfold set_list. rewrite Hx. eexists. split; [done|].
  split_and!; intros q; unfold next, prev, data;
    destruct (decide (p = q)) as [<-|Hne];
    rewrite ?lookup_insert_eq, ?lookup_insert_ne, ?Hx by done;
    repeat case_decide; try done; simpl; congruence.
Qed.

Lemma get_next_spec h p : is_Some (data h p) -> get_next p h = Some (next h p).
Proof. intros [x Hx]%data_dom. unfold get_next, next. by rewrite Hx. Qed.
Lemma get_prev_spec h p : is_Some (data h p) -> get_prev p h = Some (prev h p).
Proof. intros [x Hx]%data_dom. unfold get_prev, prev. by rewrite Hx. Qed.

Lemma next_dom h p n : next h p = Some n -> is_Some (data h p).
Proof. unfold next, data. destruct (h !! p); [by eexists|done]. Qed.
Lemma prev_dom h p n : prev h p = Some n -> is_Some (data h p).
Proof. unfold prev, data. destruct (h !! p); [by eexists|done]. Qed.

(** One assignment of a chain of them. *)
Ltac assign lem h' :=
  let Hn := fresh "Hn" in let Hp := fresh "Hp" in let Hd := fresh "Hd" in
  destruct lem as (h' & -> & Hn & Hp & Hd); [|cbn [mbind option_bind]].

Lemma link_after_spec h e at_ n :
  is_Some (data h e) -> next h at_ = Some n -> is_Some (data h n) -> e <> at_ -> e <> n ->
  exists h', link_after e at_ h = Some h' /\
    (forall q, next h' q = if decide (q = e) then Some n else if decide (q = at_) then Some e else next h q) /\
    (forall q, prev h' q = if decide (q = e) then Some at_ else if decide (q = n) then Some e else prev h q) /\
    (forall q, data h' q = data h q).
Proof.
  intros He Hat Hdn Hea Hen. pose proof (next_dom _ _ _ Hat) as Hda. unfold link_after.
  assign (set_prev_spec h e (Some at_)) h1; [done|].
  rewrite get_next_spec by (by rewrite Hd). rewrite Hn, Hat. cbn [mbind option_bind].
  assign (set_next_spec h1 e (Some n)) h2; [by rewrite Hd|].
  rewrite get_prev_spec by (by rewrite Hd0, Hd). rewrite Hp0, Hp.
  destruct (decide (e = e)); [|done]. cbn [mbind option_bind].
  assign (set_next_spec h2 at_ (Some e)) h3; [by rewrite Hd0, Hd|].
  rewrite get_next_spec by (by rewrite Hd1, Hd0, Hd). rewrite Hn1, Hn0.
  destruct (decide (e = at_)); [done|]. destruct (decide (e = e)); [|done]. cbn [mbind option_bind].
  destruct (set_prev_spec h3 n (Some e)) as (h4 & -> & Hn2 & Hp2 & Hd2); [by rewrite Hd1, Hd0, Hd|].
  exists h4. split; [done|].
  split_and!; intros q; rewrite ?Hn2, ?Hn1, ?Hn0, ?Hn, ?Hp2, ?Hp1, ?Hp0, ?Hp, ?Hd2, ?Hd1, ?Hd0, ?Hd;
    repeat case_decide; congruence.
Qed.

Lemma unlink_spec h e p n :
  prev h e = Some p -> next h e = Some n -> is_Some (data h p) -> is_Some (data h n) ->
  e <> p -> e <> n ->
  exists h', unlink e h = Some h' /\
    (forall q, next h' q = if decide (q = p) then Some n else next h q) /\
    (forall q, prev h' q = if decide (q = n) then Some p else prev h q) /\
    (forall q, data h' q = data h q).
Proof.
  intros Hpe Hne Hdp Hdn Hep Hen. pose proof (next_dom _ _ _ Hne) as Hde. unfold unlink.
  rewrite get_prev_spec, Hpe by done. cbn [mbind option_bind].
  rewrite get_next_spec, Hne by done. cbn [mbind option_bind].
  assign (set_next_spec h p (Some n)) h1; [done|].
  rewrite get_next_spec by (by rewrite Hd). rewrite Hn.
  destruct (decide (e = p)); [done|]. rewrite Hne. cbn [mbind option_bind].
  rewrite get_prev_spec by (by rewrite Hd). rewrite Hp, Hpe. cbn [mbind option_bind].
  destruct (set_prev_spec h1 n (Some p)) as (h2 & -> & Hn2 & Hp2 & Hd2); [by rewrite Hd|].
  exists h2. split; [done|].
  split_and!; intros q; rewrite ?Hn2, ?Hp2, ?Hd2, ?Hn, ?Hp, ?Hd; done.
Qed.

(** ** The ring *)

Lemma seg_app a l1 x l2 b : seg a (l1 ++ x :: l2) b = seg a l1 x ++ seg x l2 b.
Proof. revert a. induction l1 as [|y l1 IH]; intros a; simpl; [done|by rewrite IH]. Qed.

Lemma seg_fst a ids b : (seg a ids b).*1 = a :: ids.
Proof. revert a. induction ids as [|x ids IH]; intros a; simpl; [done|by rewrite IH]. Qed.
Lemma seg_snd a ids b : (seg a ids b).*2 = ids ++ [b].
Proof. revert a. induction ids as [|x ids IH]; intros a; simpl; [done|by rewrite IH]. Qed.

(** The cell before and the cell after a position in the ring. *)
Definition pred_of (ids : list nat) : nat := default root (stdpp.list_basics.list.last ids).
Definition succ_of (ids : list nat) : nat := default root (head ids).

Lemma seg_last a l1 : exists pre, forall b, seg a l1 b = pre ++ [(default a (stdpp.list_basics.list.last l1), b)].
Proof.
  revert a. induction l1 as [|x l1 IH]; intros a; [by exists []|].
  destruct (IH x) as [pre H]. exists ((a, x) :: pre). intros b. simpl. rewrite H.
  destruct l1 as [|y l1]; [done|]. rewrite last_cons_cons, last_cons.
  by destruct (stdpp.list_basics.list.last l1).
Qed.
Lemma seg_first l2 : exists post, forall a, seg a l2 root = (a, succ_of l2) :: post.
Proof. destruct l2 as [|x l2]; [by exists []|by exists (seg x l2 root)]. Qed.

(** Where a cell comes in or goes out. *)
Lemma seg_split l1 l2 : exists pre post,
  seg root (l1 ++ l2) root = pre ++ (pred_of l1, succ_of l2) :: post /\
  (forall e, seg root (l1 ++ e :: l2) root =
             pre ++ (pred_of l1, e) :: (e, succ_of l2) :: post).
Proof.
  destruct (seg_last root l1) as (pre & H1). destruct (seg_first l2) as (post & H2).
  exists pre, post. split.
  - destruct l2 as [|x l2]; pose proof (H2 root) as H; injection H as H.
    + subst post. by rewrite app_nil_r, H1.
    + subst post. rewrite seg_app, H1, <- app_assoc. done.
  - intros e. by rewrite seg_app, H1, H2, <- app_assoc.
Qed.

Lemma linked_app h l1 l2 : linked h (l1 ++ l2) <-> linked h l1 /\ linked h l2.
Proof. unfold linked. by rewrite Forall_app. Qed.

(** Links that do not start at a changed [next] nor end at a changed [prev]. *)
Lemma linked_frame h h' l :
  (forall p n, (p, n) ∈ l -> next h' p = next h p /\ prev h' n = prev h n) ->
  linked h l -> linked h' l.
Proof.
  intros Hf. unfold linked. rewrite !Forall_forall. intros H [p n] Hin.
  specialize (H (p, n) Hin). destruct (Hf p n) as [-> ->]; [by apply list_elem_of_In|done].
Qed.

(** The two ends of the links on either side of a link. *)
Lemma seg_nodup pre p n post l1 :
  NoDup (root :: l1) -> seg root l1 root = pre ++ (p, n) :: post ->
  forall q m, (q, m) ∈ pre ++ post -> q <> p /\ m <> n.
Proof.
  intros Hnd Hs q m Hin.
  assert (H1 : NoDup (pre.*1 ++ p :: post.*1)).
  { change (NoDup (pre.*1 ++ ((p, n) :: post).*1)). by rewrite <- fmap_app, <- Hs, seg_fst. }
  assert (H2 : NoDup (pre.*2 ++ n :: post.*2)).
  { change (NoDup (pre.*2 ++ ((p, n) :: post).*2)). rewrite <- fmap_app, <- Hs, seg_snd.
    by rewrite (Permutation_app_comm l1 [root]). }
  rewrite <- Permutation_middle in H1, H2. inversion H1 as [|? ? Hp _]; subst.
  inversion H2 as [|? ? Hn _]; subst.
  split; intros ->; [apply Hp|apply Hn]; rewrite <- fmap_app; apply list_elem_of_fmap; by eexists (_, _).
Qed.

Lemma pred_in l1 : pred_of l1 ∈ root :: l1.
Proof.
  unfold pred_of. destruct (stdpp.list_basics.list.last l1) as [x|] eqn:E; [|by left].
  right. by apply last_Some_elem_of.
Qed.
Lemma succ_in l2 : succ_of l2 ∈ root :: l2.
Proof. destruct l2; [by left|right; by left]. Qed.

(** Every cell of the ring is in the store. *)
Lemma linked_dom h ids e : linked h (seg root ids root) -> e ∈ root :: ids -> is_Some (data h e).
Proof.
  intros Hl He. rewrite <- (seg_fst root ids root) in He.
  apply list_elem_of_fmap in He as ([p n] & -> & Hin). apply list_elem_of_In in Hin.
  unfold linked in Hl. rewrite Forall_forall in Hl. destruct (Hl _ Hin) as [Hn _].
  by eapply next_dom.
Qed.

Lemma insert_linked h e l1 l2 :
  linked h (seg root (l1 ++ l2) root) -> NoDup (e :: root :: l1 ++ l2) -> is_Some (data h e) ->
  exists h', link_after e (pred_of l1) h = Some h' /\
    linked h' (seg root (l1 ++ e :: l2) root) /\ (forall q, data h' q = data h q).
Proof.
  intros Hl Hnd He. destruct (seg_split l1 l2) as (pre & post & Hs & Hse).
  inversion Hnd as [|? ? Hfresh Hnd']; subst.
  assert (Hp : pred_of l1 ∈ root :: l1 ++ l2).
  { pose proof (pred_in l1) as H. apply elem_of_cons in H as [->|H]; [by left|].
    right. apply elem_of_app. by left. }
  assert (Hn : succ_of l2 ∈ root :: l1 ++ l2).
  { pose proof (succ_in l2) as H. apply elem_of_cons in H as [->|H]; [by left|].
    right. apply elem_of_app. by right. }
  pose proof (seg_nodup _ _ _ _ _ Hnd' Hs) as Hends.
  pose proof (linked_dom _ _ _ Hl Hn) as Hdn.
  assert (Hl' := Hl). rewrite Hs in Hl'. apply linked_app in Hl' as [Hpre Hpost].
  apply Forall_cons_iff in Hpost as [[Hnext _] Hpost].
  destruct (link_after_spec h e (pred_of l1) (succ_of l2) He Hnext Hdn ltac:(congruence) ltac:(congruence))
    as (h' & Hh' & Hn' & Hp' & Hd').
  exists h'. split; [done|]. split; [|done]. rewrite Hse.
  assert (Hframe : forall l, (forall p n, (p, n) ∈ l -> (p, n) ∈ pre ++ post) -> linked h l -> linked h' l).
  { intros l Hin. apply linked_frame. intros p n Hpn. apply Hin in Hpn.
    destruct (Hends p n Hpn) as [Hp1 Hn1]. rewrite Hn', Hp'.
    assert (Hq : p ∈ (seg root (l1 ++ l2) root).*1 /\ n ∈ (seg root (l1 ++ l2) root).*2).
    { rewrite Hs. split; apply list_elem_of_fmap; exists (p, n); (split; [done|]);
      apply elem_of_app in Hpn as [?|?]; apply elem_of_app; [by left|right; by right|by left|right; by right]. }
    rewrite seg_fst, seg_snd in Hq. destruct Hq as [Hq1 Hq2].
    assert (n ∈ root :: l1 ++ l2) by (apply elem_of_app in Hq2 as [?|[->|[]%not_elem_of_nil]%elem_of_cons]; [by right|by left]).
    repeat case_decide; try done; congruence. }
  apply linked_app. split.
  - apply Hframe; [|done]. intros p n Hpn. apply elem_of_app. by left.
  - constructor; [|constructor].
    + rewrite Hn', Hp'. repeat case_decide; try done; congruence.
    + rewrite Hn', Hp'. repeat case_decide; try done; congruence.
    + apply Hframe; [|done]. intros p n Hpn. apply elem_of_app. by right.
Qed.

Lemma unlink_linked h e l1 l2 :
  linked h (seg root (l1 ++ e :: l2) root) -> NoDup (root :: l1 ++ e :: l2) ->
  exists h', unlink e h = Some h' /\
    linked h' (seg root (l1 ++ l2) root) /\ (forall q, data h' q = data h q).
Proof.
  intros Hl Hnd. destruct (seg_split l1 l2) as (pre & post & Hs & Hse).
  assert (Hnd' : NoDup (e :: root :: l1 ++ l2)).
  { rewrite <- Permutation_middle in Hnd. by rewrite perm_swap. }
  inversion Hnd' as [|? ? Hfresh Hnd'']; subst.
  assert (Hp : pred_of l1 ∈ root :: l1 ++ l2).
  { pose proof (pred_in l1) as H. apply elem_of_cons in H as [->|H]; [by left|].
    right. apply elem_of_app. by left. }
  assert (Hn : succ_of l2 ∈ root :: l1 ++ l2).
  { pose proof (succ_in l2) as H. apply elem_of_cons in H as [->|H]; [by left|].
    right. apply elem_of_app. by right. }
  pose proof (seg_nodup _ _ _ _ _ Hnd'' Hs) as Hends.
  assert (Hin : forall q, q ∈ root :: l1 ++ l2 -> is_Some (data h q)).
  { intros q Hq. eapply linked_dom; [exact Hl|].
    apply elem_of_cons in Hq as [->|Hq]; [by left|]. right. apply elem_of_app.
    apply elem_of_app in Hq as [?|?]; [by left|right; by right]. }
  assert (Hl' := Hl). rewrite Hse in Hl'. apply linked_app in Hl' as [Hpre Hpost].
  apply Forall_cons_iff in Hpost as [[_ Hprev] Hpost]. apply Forall_cons_iff in Hpost as [[Hnext _] Hpost].
  destruct (unlink_spec h e (pred_of l1) (succ_of l2) Hprev Hnext (Hin _ Hp) (Hin _ Hn)
    ltac:(congruence) ltac:(congruence)) as (h' & Hh' & Hn' & Hp' & Hd').
  exists h'. split; [done|]. split; [|done]. rewrite Hs.
  assert (Hframe : forall l, (forall p n, (p, n) ∈ l -> (p, n) ∈ pre ++ post) -> linked h l -> linked h' l).
  { intros l Hsub. apply linked_frame. intros p n Hpn.
    destruct (Hends p n (Hsub _ _ Hpn)) as [Hp1 Hn1]. rewrite Hn', Hp'.
    by repeat case_decide. }
  apply linked_app. split.
  - apply Hframe; [|done]. intros p n Hpn. apply elem_of_app. by left.
  - constructor.
    + rewrite Hn', Hp'. repeat case_decide; done.
    + apply Hframe; [|done]. intros p n Hpn. apply elem_of_app. by right.
Qed.

(** ** The operations on the list *)

Lemma values_data h es :
  Forall (fun '(e, v) => exists x, h !! e = Some x /\ e_Value x = Some v) es <->
  Forall (fun '(e, v) => exists b, data h e = Some (b, Some v)) es.
Proof.
  rewrite !Forall_forall. split; intros H [e v] Hin; specialize (H _ Hin); simpl in H |- *; unfold data in *.
  - destruct H as (x & -> & Hx). exists (e_list x). simpl. by rewrite Hx.
  - destruct H as (b & H). destruct (h !! e) as [x|]; [|done]. exists x. split; [done|]. by injection H.
Qed.

Lemma flags_data h (ids : list nat) :
  (forall e x, h !! e = Some x -> (e_list x = true <-> e ∈ ids)) <->
  (forall e b v, data h e = Some (b, v) -> (b = true <-> e ∈ ids)).
Proof.
  unfold data. split; intros H e.
  - intros b v He. destruct (h !! e) as [x|] eqn:E; [|done]. injection He as <- _. by apply H.
  - intros x Hx. apply (H e (e_list x) (e_Value x)). by rewrite Hx.
Qed.

Lemma cells_dom (l : List V) es e : lists l es -> e ∈ root :: es.*1 -> is_Some (data (heap l) e).
Proof. intros Hl. eapply linked_dom. apply Hl. Qed.

Lemma new_fresh (l : List V) es : lists l es -> l_new l ∉ root :: es.*1.
Proof.
  intros Hl Hin. apply (cells_dom _ _ _ Hl) in Hin. apply data_dom in Hin.
  apply (li_new _ _ Hl) in Hin. lia.
Qed.

(** Reordering, adding or removing cells, once the links are right. *)
Lemma lists_intro (l : List V) es :
  NoDup (root :: es.*1) -> linked (heap l) (seg root es.*1 root) ->
  l_len l = Z.of_nat (length es) ->
  Forall (fun '(e, v) => exists b, data (heap l) e = Some (b, Some v)) es ->
  (forall e b v, data (heap l) e = Some (b, v) -> (b = true <-> e ∈ es.*1)) ->
  (forall e, is_Some (data (heap l) e) -> (e < l_new l)%nat) ->
  lists l es.
Proof.
  intros H1 H2 H3 H4 H5 H6. split; try done; [by apply values_data|by apply flags_data|].
  intros e He. by apply H6, data_dom.
Qed.

Lemma insertValue_lists (l : List V) es1 es2 v :
  lists l (es1 ++ es2) -> exists l', List_insertValue l v (pred_of es1.*1) = Some (l', l_new l) /\
    lists l' (es1 ++ (l_new l, v) :: es2).
Proof.
  intros Hl. set (e := l_new l). pose proof (new_fresh _ _ Hl) as Hfresh.
  assert (Hnd : NoDup (e :: root :: es1.*1 ++ es2.*1)).
  { rewrite <- fmap_app. constructor; [exact Hfresh|apply Hl]. }
  set (h0 := <[e := mkElement None None false (Some v)]> (heap l)).
  assert (Hd0 : forall q, data h0 q = if decide (q = e) then Some (false, Some v) else data (heap l) q).
  { intros q. unfold data, h0. case_decide; [subst; by rewrite lookup_insert_eq|].
    by rewrite lookup_insert_ne. }
  assert (Hlink0 : linked h0 (seg root (es1.*1 ++ es2.*1) root)).
  { rewrite <- fmap_app. eapply linked_frame; [|apply Hl]. intros p n Hpn.
    assert (Hp : p ∈ root :: (es1 ++ es2).*1 /\ n ∈ root :: (es1 ++ es2).*1).
    { split.
      - rewrite <- (seg_fst root _ root). apply list_elem_of_fmap. by exists (p, n).
      - assert (n ∈ (es1 ++ es2).*1 ++ [root]).
        { rewrite <- (seg_snd root). apply list_elem_of_fmap. by exists (p, n). }
        by rewrite (Permutation_app_comm _ [root]) in H. }
    unfold next, prev, h0. by rewrite !lookup_insert_ne by (intros <-; tauto). }
  destruct (insert_linked h0 e es1.*1 es2.*1 Hlink0 Hnd) as (h1 & Hh1 & Hlink1 & Hd1).
  { rewrite Hd0. by case_decide. }
  destruct (set_list_spec h1 e true (Some v) false) as (h2 & Hh2 & Hn2 & Hp2 & Hd2).
  { rewrite Hd1, Hd0. by case_decide. }
  unfold List_insertValue, List_insert. cbn [heap]. fold e h0. rewrite Hh1. cbn [mbind option_bind].
  rewrite Hh2. cbn [mbind option_bind]. eexists. split; [done|].
  assert (Hd : forall q, data h2 q = if decide (q = e) then Some (true, Some v) else data (heap l) q).
  { intros q. rewrite Hd2, Hd1, Hd0. by repeat case_decide. }
  apply lists_intro; cbn [heap l_len l_new]; rewrite ?fmap_app; cbn [fmap list_fmap fst].
  - by rewrite <- Permutation_middle, perm_swap.
  - eapply linked_frame; [|exact Hlink1]. by intros.
  - rewrite (li_len _ _ Hl), !length_app. simpl. lia.
  - pose proof (proj1 (values_data _ _) (li_values _ _ Hl)) as Hv.
    assert (Hv' : Forall (fun '(q, w) => exists b, data h2 q = Some (b, Some w)) (es1 ++ es2)).
    { rewrite Forall_forall in Hv |- *. intros [q w] Hin. specialize (Hv _ Hin). simpl in Hv |- *.
      rewrite Hd. case_decide; [|done]. subst q. destruct Hfresh. right.
      apply list_elem_of_fmap. exists (e, w). split; [done|]. by apply list_elem_of_In. }
    apply Forall_app in Hv' as [H1 H2]. apply Forall_app. split; [done|]. constructor; [|done].
    exists true. rewrite Hd. by case_decide.
  - intros q b w. rewrite Hd. case_decide as Hq.
    + intros [= <- <-]. subst q. split; [intros _|done]. apply elem_of_app. right. by left.
    + intros Hqd. rewrite (proj1 (flags_data _ _) (li_list _ _ Hl) q b w Hqd), fmap_app, !elem_of_app, elem_of_cons.
      clear -Hq. tauto.
  - intros q. rewrite Hd. case_decide; [lia|]. intros Hq. apply data_dom in Hq.
    apply (li_new _ _ Hl) in Hq. unfold e. lia.
Qed.

Lemma remove_lists (l : List V) es1 e v es2 :
  lists l (es1 ++ (e, v) :: es2) -> exists l', List_remove l e = Some l' /\ lists l' (es1 ++ es2).
Proof.
  intros Hl. pose proof (li_nodup _ _ Hl) as Hnd. pose proof (li_linked _ _ Hl) as Hlink.
  rewrite fmap_app in Hnd, Hlink. cbn [fmap list_fmap fst] in Hnd, Hlink.
  destruct (unlink_linked _ _ _ _ Hlink Hnd) as (h1 & Hh1 & Hlink1 & Hd1).
  assert (He : data (heap l) e = Some (true, Some v)).
  { pose proof (proj1 (values_data _ _) (li_values _ _ Hl)) as Hv.
    apply Forall_app in Hv as [_ Hv]. apply Forall_cons_iff in Hv as [[b Hb] _].
    rewrite Hb. repeat f_equal. apply (proj1 (flags_data _ _) (li_list _ _ Hl) _ _ _ Hb).
    rewrite fmap_app. apply elem_of_app. right. by left. }
  assert (Hne : e ∉ root :: es1.*1 ++ es2.*1).
  { rewrite <- Permutation_middle, perm_swap in Hnd. by inversion Hnd. }
  assert (Hdom : is_Some (data h1 e)) by (rewrite Hd1, He; by eexists).
  destruct (set_next_spec h1 e None Hdom) as (h2 & Hh2 & Hn2 & Hp2 & Hd2).
  destruct (set_prev_spec h2 e None) as (h3 & Hh3 & Hn3 & Hp3 & Hd3); [by rewrite Hd2|].
  destruct (set_list_spec h3 e false (Some v) true) as (h4 & Hh4 & Hn4 & Hp4 & Hd4).
  { by rewrite Hd3, Hd2, Hd1. }
  unfold List_remove. rewrite Hh1. cbn [mbind option_bind]. rewrite Hh2. cbn [mbind option_bind].
  rewrite Hh3. cbn [mbind option_bind]. rewrite Hh4. cbn [mbind option_bind]. eexists. split; [done|].
  assert (Hd : forall q, data h4 q = if decide (q = e) then Some (false, Some v) else data (heap l) q).
  { intros q. rewrite Hd4, Hd3, Hd2, Hd1. by repeat case_decide. }
  apply lists_intro; cbn [heap l_len l_new]; rewrite ?fmap_app.
  - rewrite <- Permutation_middle, perm_swap in Hnd. by inversion Hnd.
  - eapply linked_frame; [|exact Hlink1]. intros p n Hpn.
    rewrite Hn4, Hn3, Hn2, Hp4, Hp3, Hp2.
    assert (Hp : p ∈ root :: es1.*1 ++ es2.*1 /\ n ∈ root :: es1.*1 ++ es2.*1).
    { split.
      - rewrite <- (seg_fst root _ root). apply list_elem_of_fmap. by exists (p, n).
      - assert (H : n ∈ (es1.*1 ++ es2.*1) ++ [root]).
        { rewrite <- (seg_snd root). apply list_elem_of_fmap. by exists (p, n). }
        by rewrite (Permutation_app_comm _ [root]) in H. }
    repeat case_decide; destruct Hp; subst; tauto.
  - rewrite (li_len _ _ Hl), !length_app. simpl. lia.
  - pose proof (proj1 (values_data _ _) (li_values _ _ Hl)) as Hv.
    assert (Hv' : Forall (fun '(q, w) => exists b, data (heap l) q = Some (b, Some w)) (es1 ++ es2)).
    { apply Forall_app in Hv as [H1 H2]. apply Forall_cons_iff in H2 as [_ H2]. by apply Forall_app. }
    rewrite Forall_forall in Hv' |- *. intros [q w] Hin. specialize (Hv' _ Hin). simpl in Hv' |- *.
    rewrite Hd. case_decide; [|done]. subst q. destruct Hne. right. rewrite <- fmap_app.
    apply list_elem_of_fmap. exists (e, w). split; [done|]. by apply list_elem_of_In.
  - intros q b w. rewrite Hd. case_decide as Hq.
    + intros [= <- <-]. subst q. split; [done|]. intros Hin. destruct Hne. by right.
    + intros Hqd. rewrite (proj1 (flags_data _ _) (li_list _ _ Hl) q b w Hqd), fmap_app, !elem_of_app.
      cbn [fmap list_fmap fst]. rewrite elem_of_cons. clear -Hq. tauto.
  - intros q. rewrite Hd. case_decide; intros Hq.
    + subst. apply (li_new _ _ Hl), data_dom. by rewrite He.
    + by apply (li_new _ _ Hl), data_dom.
Qed.

(** [move] takes the cell out and puts it back after another one. *)
Lemma move_lists (l : List V) A e v B C D :
  lists l (A ++ (e, v) :: B) -> A ++ B = C ++ D -> pred_of C.*1 <> e ->
  exists l', List_move l e (pred_of C.*1) = Some l' /\ lists l' (C ++ (e, v) :: D) /\
    (forall q, data (heap l') q = data (heap l) q) /\ l_new l' = l_new l.
Proof.
  intros Hl HAB Hpe. pose proof (li_nodup _ _ Hl) as Hnd. pose proof (li_linked _ _ Hl) as Hlink.
  rewrite fmap_app in Hnd, Hlink. cbn [fmap list_fmap fst] in Hnd, Hlink.
  destruct (unlink_linked _ _ _ _ Hlink Hnd) as (h1 & Hh1 & Hlink1 & Hd1).
  rewrite <- fmap_app, HAB, fmap_app in Hlink1.
  assert (Hperm : A ++ (e, v) :: B ≡ₚ C ++ (e, v) :: D).
  { by rewrite <- !Permutation_middle, HAB. }
  assert (Hnd1 : NoDup (e :: root :: C.*1 ++ D.*1)).
  { rewrite <- Permutation_middle, <- fmap_app, HAB, fmap_app in Hnd. by rewrite perm_swap. }
  destruct (insert_linked h1 e C.*1 D.*1 Hlink1 Hnd1) as (h2 & Hh2 & Hlink2 & Hd2).
  { rewrite Hd1. apply (cells_dom _ _ _ Hl). right. rewrite fmap_app. apply elem_of_app. right. by left. }
  unfold List_move. destruct (Nat.eqb_spec e (pred_of C.*1)) as [|_]; [congruence|].
  rewrite Hh1. cbn [mbind option_bind]. rewrite Hh2. cbn [mbind option_bind].
  assert (Hd : forall q, data h2 q = data (heap l) q) by (intros q; by rewrite Hd2, Hd1).
  eexists. split; [done|]. split; [|done].
  apply lists_intro; cbn [heap l_len l_new].
  - rewrite <- Hperm. apply Hl.
  - rewrite fmap_app. done.
  - rewrite (li_len _ _ Hl). by rewrite Hperm.
  - rewrite <- Hperm. pose proof (proj1 (values_data _ _) (li_values _ _ Hl)) as Hv.
    eapply Forall_impl; [|exact Hv]. intros [q w]. by rewrite Hd.
  - intros q b w. rewrite Hd, <- Hperm. apply (proj1 (flags_data _ _) (li_list _ _ Hl)).
  - intros q. rewrite Hd. intros Hq. by apply (li_new _ _ Hl), data_dom.
Qed.

(** ** The interface of the list *)

Lemma NewList_lists : lists (NewList (V := V)) [].
Proof.
  apply lists_intro; unfold NewList, root; cbn [heap l_len l_new fmap list_fmap seg length].
  - apply NoDup_singleton.
  - by repeat constructor.
  - done.
  - constructor.
  - intros e b v. unfold data. destruct (decide (e = 0%nat)) as [->|].
    + rewrite lookup_singleton_eq. intros [= <- <-]. split; [done|]. by intros ?%not_elem_of_nil.
    + by rewrite lookup_singleton_ne by done.
  - intros e [x Hx]%data_dom. apply lookup_singleton_Some in Hx as [<- _]. lia.
Qed.

(** The neighbours of a cell, and the ends. *)
Lemma lists_around (l : List V) es1 e v es2 :
  lists l (es1 ++ (e, v) :: es2) ->
  prev (heap l) e = Some (pred_of es1.*1) /\ next (heap l) e = Some (succ_of es2.*1) /\
  e <> root /\ exists x, heap l !! e = Some x /\ e_list x = true /\ e_Value x = Some v.
Proof.
  intros Hl. pose proof (li_linked _ _ Hl) as Hk. rewrite fmap_app in Hk. cbn [fmap list_fmap fst] in Hk.
  destruct (seg_split es1.*1 es2.*1) as (pre & post & _ & Hs). rewrite Hs in Hk.
  apply linked_app in Hk as [_ Hk]. apply Forall_cons_iff in Hk as [[_ Hp] Hk].
  apply Forall_cons_iff in Hk as [[Hn _] _]. split; [done|]. split; [done|].
  assert (Hin : e ∈ (es1 ++ (e, v) :: es2).*1).
  { rewrite fmap_app. apply elem_of_app. right. by left. }
  split.
  - intros ->. pose proof (li_nodup _ _ Hl) as Hnd. by inversion Hnd.
  - pose proof (li_values _ _ Hl) as Hv. apply Forall_app in Hv as [_ Hv].
    apply Forall_cons_iff in Hv as [(x & Hx & Hxv) _]. exists x. split_and!; [done| |done].
    by apply (li_list _ _ Hl e x Hx).
Qed.

Lemma lists_ends (l : List V) es :
  lists l es -> next (heap l) root = Some (succ_of es.*1) /\ prev (heap l) root = Some (pred_of es.*1).
Proof.
  intros Hl. pose proof (li_linked _ _ Hl) as Hk. split.
  - destruct (seg_first es.*1) as (post & Hs). rewrite Hs in Hk.
    by apply Forall_cons_iff in Hk as [[? _] _].
  - destruct (seg_last root es.*1) as (pre & Hs). rewrite Hs in Hk.
    apply linked_app in Hk as [_ Hk]. by apply Forall_cons_iff in Hk as [[_ ?] _].
Qed.

Lemma root_dom (l : List V) es : lists l es -> is_Some (data (heap l) root).
Proof. intros Hl. apply (cells_dom _ _ _ Hl). by left. Qed.

Lemma List_Front_lists (l : List V) es : lists l es -> List_Front l = Some (head es.*1).
Proof.
  intros Hl. unfold List_Front. rewrite (li_len _ _ Hl). destruct es as [|[e v] es]; [done|].
  case_bool; [simpl in *; lia|]. rewrite get_next_spec by (by eapply root_dom).
  by rewrite (proj1 (lists_ends _ _ Hl)).
Qed.

Lemma List_Back_lists (l : List V) es :
  lists l es -> List_Back l = Some (stdpp.list_basics.list.last es.*1).
Proof.
  intros Hl. unfold List_Back. rewrite (li_len _ _ Hl). destruct es as [|[e v] es]; [done|].
  case_bool; [simpl in *; lia|]. rewrite get_prev_spec by (by eapply root_dom).
  rewrite (proj2 (lists_ends _ _ Hl)). f_equal. unfold pred_of. simpl fmap.
  rewrite last_cons. by destruct (stdpp.list_basics.list.last _).
Qed.

Lemma PushFront_lists (l : List V) es v :
  lists l es -> exists l', List_PushFront l v = Some (l', l_new l) /\ lists l' ((l_new l, v) :: es).
Proof. intros Hl. exact (insertValue_lists l [] es v Hl). Qed.

Lemma PushBack_lists (l : List V) es v :
  lists l es -> exists l', List_PushBack l v = Some (l', l_new l) /\ lists l' (es ++ [(l_new l, v)]).
Proof.
  intros Hl. unfold List_PushBack. rewrite get_prev_spec by (by eapply root_dom).
  rewrite (proj2 (lists_ends _ _ Hl)). cbn [mbind option_bind].
  apply (insertValue_lists l es [] v). by rewrite app_nil_r.
Qed.

Lemma Remove_lists (l : List V) es1 e v es2 :
  lists l (es1 ++ (e, v) :: es2) -> exists l', List_Remove l e = Some l' /\ lists l' (es1 ++ es2).
Proof.
  intros Hl. destruct (lists_around _ _ _ _ _ Hl) as (_ & _ & _ & x & Hx & Hb & _).
  unfold List_Remove. rewrite Hx. cbn [mbind option_bind]. rewrite Hb. by eapply remove_lists.
Qed.

(** A cell that has left the list, or was never in it, is left alone. *)
Lemma Remove_absent (l : List V) es e :
  lists l es -> is_Some (heap l !! e) -> e ∉ es.*1 -> List_Remove l e = Some l.
Proof.
  intros Hl [x Hx] He. unfold List_Remove. rewrite Hx. cbn [mbind option_bind].
  destruct (e_list x) eqn:E; [|done]. by apply (li_list _ _ Hl _ _ Hx) in E.
Qed.

Lemma MoveToFront_lists (l : List V) es1 e v es2 :
  lists l (es1 ++ (e, v) :: es2) ->
  exists l', List_MoveToFront l e = Some l' /\ lists l' ((e, v) :: es1 ++ es2).
Proof.
  intros Hl. destruct (lists_around _ _ _ _ _ Hl) as (_ & _ & Hne & x & Hx & Hb & _).
  unfold List_MoveToFront. rewrite Hx. cbn [mbind option_bind].
  rewrite get_next_spec by (by eapply root_dom). rewrite (proj1 (lists_ends _ _ Hl)), Hb.
  cbn [mbind option_bind negb orb]. case_bool_decide as Hh.
  - exists l. split; [done|]. destruct es1 as [|[e1 v1] es1]; [done|]. exfalso.
    assert (e1 = e) as -> by (by injection Hh). pose proof (li_nodup _ _ Hl) as Hnd. inversion Hnd as [|? ? _ Hnd']; subst.
    inversion Hnd' as [|? ? Hn _]; subst. apply Hn. rewrite fmap_app. apply elem_of_app. right. by left.
  - destruct (move_lists l es1 e v es2 [] (es1 ++ es2) Hl eq_refl) as (l' & Hm & Hl' & _).
    { intros Heq. by apply Hne. }
    by exists l'.
Qed.

Lemma MoveToBack_lists (l : List V) es1 e v es2 :
  lists l (es1 ++ (e, v) :: es2) ->
  exists l', List_MoveToBack l e = Some l' /\ lists l' (es1 ++ es2 ++ [(e, v)]).
Proof.
  intros Hl. destruct (lists_around _ _ _ _ _ Hl) as (_ & _ & Hne & x & Hx & Hb & _).
  unfold List_MoveToBack. rewrite Hx. cbn [mbind option_bind].
  rewrite get_prev_spec by (by eapply root_dom). rewrite (proj2 (lists_ends _ _ Hl)), Hb.
  cbn [mbind option_bind negb orb].
  destruct es2 as [|[e2 v2] es2 _] using rev_ind.
  - assert (Hp : pred_of (es1 ++ [(e, v)]).*1 = e).
    { unfold pred_of. rewrite fmap_app. simpl. by rewrite last_snoc. }
    rewrite Hp, bool_decide_true by done. by exists l.
  - assert (Hp : pred_of (es1 ++ (e, v) :: es2 ++ [(e2, v2)]).*1 = e2).
    { unfold pred_of. rewrite app_comm_cons, app_assoc, fmap_app. simpl. by rewrite last_snoc. }
    assert (Hp' : pred_of (es1 ++ es2 ++ [(e2, v2)]).*1 = e2).
    { unfold pred_of. rewrite app_assoc, fmap_app. simpl. by rewrite last_snoc. }
    assert (Hee : e2 <> e).
    { intros ->. pose proof (li_nodup _ _ Hl) as Hnd. inversion Hnd as [|? ? _ Hnd']; subst.
      rewrite <- Permutation_middle in Hnd'. inversion Hnd' as [|? ? Hn _]; subst. apply Hn.
      rewrite !fmap_app. apply elem_of_app. right. apply elem_of_app. right. by left. }
    rewrite Hp, bool_decide_false by congruence. cbn [mbind option_bind].
    destruct (move_lists l es1 e v (es2 ++ [(e2, v2)]) (es1 ++ es2 ++ [(e2, v2)]) [] Hl)
      as (l' & Hm & Hl' & _); [by rewrite app_nil_r|by rewrite Hp'|].
    rewrite Hp' in Hm. exists l'. split; [done|].
    rewrite <- !app_assoc in Hl'. by rewrite <- !app_assoc.
Qed.

Lemma Element_Next_lists (l : List V) es1 e v es2 :
  lists l (es1 ++ (e, v) :: es2) -> Element_Next l e = Some (head es2.*1).
Proof.
  intros Hl. pose proof (lists_around _ _ _ _ _ Hl) as (Hp & Hn & Hne & x & Hx & Hb & _).
  unfold Element_Next, next in *. rewrite Hx in *. cbn [mbind option_bind] in *. rewrite Hn, Hb.
  f_equal. destruct es2 as [|[e2 v2] es2]; [done|]. cbn. 
  destruct (Nat.eqb_spec e2 root) as [->|]; [|done]. exfalso.
  pose proof (li_nodup _ _ Hl) as Hnd. inversion Hnd as [|? ? Hr _]; subst. apply Hr.
  rewrite fmap_app. apply elem_of_app. right. right. by left.
Qed.

Lemma Element_Prev_lists (l : List V) es1 e v es2 :
  lists l (es1 ++ (e, v) :: es2) -> Element_Prev l e = Some (stdpp.list_basics.list.last es1.*1).
Proof.
  intros Hl. pose proof (lists_around _ _ _ _ _ Hl) as (Hp & Hn & Hne & x & Hx & Hb & _).
  unfold Element_Prev, prev in *. rewrite Hx in *. cbn [mbind option_bind] in *. rewrite Hp, Hb.
  f_equal. unfold pred_of. destruct (stdpp.list_basics.list.last es1.*1) as [p|] eqn:E; [|done]. cbn.
  destruct (Nat.eqb_spec p root) as [->|]; [|done]. exfalso.
  pose proof (li_nodup _ _ Hl) as Hnd. inversion Hnd as [|? ? Hr _]; subst. apply Hr.
  rewrite fmap_app. apply elem_of_app. left. by apply last_Some_elem_of.
Qed.

(** the pointers of the doubly linked list implement a sequence: on a well
    linked list no operation dereferences nil; [PushFront] and [PushBack] add a
    new element at the ends, [Remove] takes out exactly the given element (and
    does nothing on one that is no longer in the list), [MoveToFront] and
    [MoveToBack] move it, [Front], [Back], [Len], [Next] and [Prev] read it. *)
Theorem List_correct (l : List V) es1 e v es2 w stale
    (Hl : lists l (es1 ++ (e, v) :: es2))
    (Hs : is_Some (heap l !! stale)) (Hstale : stale ∉ (es1 ++ (e, v) :: es2).*1) :
  (exists l', List_PushFront l w = Some (l', l_new l) /\ lists l' ((l_new l, w) :: es1 ++ (e, v) :: es2)) /\
  (exists l', List_PushBack l w = Some (l', l_new l) /\ lists l' ((es1 ++ (e, v) :: es2) ++ [(l_new l, w)])) /\
  (exists l', List_Remove l e = Some l' /\ lists l' (es1 ++ es2)) /\
  List_Remove l stale = Some l /\
  (exists l', List_MoveToFront l e = Some l' /\ lists l' ((e, v) :: es1 ++ es2)) /\
  (exists l', List_MoveToBack l e = Some l' /\ lists l' (es1 ++ es2 ++ [(e, v)])) /\
  List_Front l = Some (head (es1 ++ (e, v) :: es2).*1) /\
  List_Back l = Some (stdpp.list_basics.list.last (es1 ++ (e, v) :: es2).*1) /\
  List_Len l = Z.of_nat (length (es1 ++ (e, v) :: es2)) /\
  Element_Next l e = Some (head es2.*1) /\
  Element_Prev l e = Some (stdpp.list_basics.list.last es1.*1).
Proof.
  split_and!; [by apply PushFront_lists|by apply PushBack_lists|by eapply Remove_lists
    |by eapply Remove_absent|by eapply MoveToFront_lists|by eapply MoveToBack_lists
    |by apply List_Front_lists|by apply List_Back_lists|apply Hl
    |by eapply Element_Next_lists|by eapply Element_Prev_lists].
Qed.
End proofs.

(** ** Witness *)

Definition list_1 : List nat := (default (NewList, O) (List_PushFront NewList 7%nat)).1.
Definition list_2 : List nat := (default (NewList, O) (List_PushBack list_1 9%nat)).1.

Lemma List_correct_witness : exists l', List_MoveToBack list_2 1%nat = Some l' /\
  lists l' [(2, 9); (1, 7)]%nat.
Proof.
  assert (H1 : lists list_1 [(1, 7)]%nat).
  { destruct (PushFront_lists NewList [] 7%nat NewList_lists) as (l' & H & Hl).
    unfold list_1. rewrite H. exact Hl. }
  assert (H2 : lists list_2 [(1, 7); (2, 9)]%nat).
  { destruct (PushBack_lists list_1 [(1, 7)]%nat 9%nat H1) as (l' & H & Hl).
    unfold list_2. rewrite H. exact Hl. }
  destruct (List_correct list_2 [] 1%nat 7%nat [(2, 9)]%nat 0%nat root H2) as (_ & _ & _ & _ & _ & H & _).
  - apply data_dom. exact (root_dom _ _ H2).
  - pose proof (li_nodup _ _ H2) as Hnd. by inversion Hnd.
  - exact H.
Defined.
