(* ===== verification/LRUCache.v ===== *)
(** * neutrino/cache/lru: the cache

    The size of a value is a parameter, as it is an interface of the code; the map
    of the code is a synchronised map, used outside the mutex, so that a call is
    several atomic steps: the access to the map, the section under the lock and,
    for [Put], the final store.  The sequential calls compose the steps;
    [Race.delete_put_race] interleaves them. *)

From Stdlib Require Import ZArith Lia.
From S2P Require Import Prelude LRUList.

Inductive cache_error : Type :=
| ErrTooLarge        (* the value is larger than the capacity *)
| ErrAllEvicted      (* nothing left to evict *)
| ErrSize            (* the size of a value could not be determined *)
| ErrElementNotFound.

Section cache.
Context {K : Type} `{Countable K} {V : Type}.
(** [Value.Size]; [None] is its error. *)
Variable Size : V -> option Z.

Abbreviation entry := (K * V)%type.

Record Cache : Type := mkCache {
  capacity : Z;
  size : Z;
  ll : List entry;
  cache : gmap K nat;
  mtx : bool;                (* whether the mutex is held *)
  onDelete : bool;           (* whether the callback is set *)
  calls : list entry;        (* the calls made to it so far *)
}.

Definition NewCache (capacity : Z) (onDelete : bool) : Cache :=
  mkCache capacity 0 NewList ∅ false onDelete [].

Definition set_list (c : Cache) (l : List entry) (size : Z) : Cache :=
  mkCache (capacity c) size l (cache c) (mtx c) (onDelete c) (calls c).
Definition set_cache (c : Cache) (m : gmap K nat) : Cache :=
  mkCache (capacity c) (size c) (ll c) m (mtx c) (onDelete c) (calls c).
Definition set_mtx (c : Cache) (b : bool) : Cache :=
  mkCache (capacity c) (size c) (ll c) (cache c) b (onDelete c) (calls c).
Definition call_onDelete (c : Cache) (e : entry) : Cache :=
  mkCache (capacity c) (size c) (ll c) (cache c) (mtx c) (onDelete c)
    (if onDelete c then calls c ++ [e] else calls c).

Definition elem_value (c : Cache) (e : nat) : option entry := x ← heap (ll c) !! e; e_Value x.

(** The loop of [evict]: [None] when the fuel runs out or a pointer is nil. *)
Fixpoint evict_loop (fuel : nat) (c : Cache) (needed : Z) (evicted : bool)
    : option (Cache * result cache_error bool) :=
  match fuel with
  | O => None
  | S fuel' =>
      if wrap_u64 (capacity c - size c) <? needed then
        if List_Len (ll c) =? 0 then Some (c, Err ErrAllEvicted)
        else
          elr ← List_Back (ll c);
          match elr with
          | None => evict_loop fuel' c needed evicted
          | Some elr =>
              ce ← elem_value c elr;
              match Size ce.2 with
              | None => Some (c, Err ErrSize)
              | Some es =>
                  let c := set_list c (ll c) (wrap_u64 (size c - es)) in
                  let c := call_onDelete c ce in
                  l ← List_Remove (ll c) elr;
                  let c := set_list c l (size c) in
                  let c := set_cache c (delete ce.1 (cache c)) in
                  evict_loop fuel' c needed true
              end
          end
      else Some (c, Ok evicted)
  end.

Definition evict (c : Cache) (needed : Z) : option (Cache * result cache_error bool) :=
  if capacity c <? needed then Some (c, Err ErrTooLarge)
  else evict_loop (S (Z.to_nat (List_Len (ll c)))) c needed false.

(** ** Put *)

Definition Put_load (c : Cache) (key : K) : option nat := cache c !! key.

(** Making room and inserting.  On an error of [evict] the call returns without
    [Unlock]. *)
Definition Put_insert (c : Cache) (key : K) (value : V) (vs : Z)
    : option (Cache * result cache_error (nat * bool)) :=
  '(c, r) ← evict c vs;
  match r with
  | Err e => Some (set_mtx c true, Err e)
  | Ok evicted =>
      '(l, e) ← List_PushFront (ll c) (key, value);
      Some (set_list c l (wrap_u64 (size c + vs)), Ok (e, evicted))
  end.

(** The section between [Lock] and [Unlock], with the element loaded before it.
    [None] is also a lock that is never released. *)
Definition Put_locked (c : Cache) (key : K) (value : V) (vs : Z) (el : option nat)
    : option (Cache * result cache_error (nat * bool)) :=
  if mtx c then None
  else
    '(c, r) ← match el with
              | None => Some (c, Ok tt)
              | Some e =>
                  old ← elem_value c e;
                  match Size old.2 with
                  | None => Some (c, Err ErrSize)
                  | Some es =>
                      l ← List_Remove (ll c) e;
                      Some (set_list c l (wrap_u64 (size c - es)), Ok tt)
                  end
              end;
    match r with
    | Err e => Some (c, Err e)
    | Ok _ =>
        Put_insert c key value vs
    end.

Definition Put_store (c : Cache) (key : K) (el : nat) : Cache := set_cache c (<[key := el]> (cache c)).

Definition Put (c : Cache) (key : K) (value : V) : option (Cache * result cache_error bool) :=
  match Size value with
  | None => Some (c, Err ErrSize)
  | Some vs =>
      if capacity c <? vs then Some (c, Err ErrTooLarge)
      else
        '(c, r) ← Put_locked c key value vs (Put_load c key);
        match r with
        | Err e => Some (c, Err e)
        | Ok (el, evicted) => Some (Put_store c key el, Ok evicted)
        end
  end.

(** ** Get *)

Definition Get_locked (c : Cache) (el : nat) : option (Cache * V) :=
  if mtx c then None
  else
    l ← List_MoveToFront (ll c) el;
    let c := set_list c l (size c) in
    e ← elem_value c el;
    Some (c, e.2).

Definition Get (c : Cache) (key : K) : option (Cache * result cache_error V) :=
  match cache c !! key with
  | None => Some (c, Err ErrElementNotFound)
  | Some el => '(c, v) ← Get_locked c el; Some (c, Ok v)
  end.

(** ** Delete *)

Definition LoadAndDelete_map (c : Cache) (key : K) : Cache * option nat :=
  (set_cache c (delete key (cache c)), cache c !! key).

Definition LoadAndDelete_locked (c : Cache) (key : K) (el : nat) : option (Cache * option V) :=
  if mtx c then None
  else
    e ← elem_value c el;
    match Size e.2 with
    | None => Some (c, None)
    | Some vs =>
        let c := call_onDelete c (key, e.2) in
        l ← List_Remove (ll c) el;
        Some (set_list c l (wrap_u64 (size c - vs)), Some e.2)
    end.

Definition LoadAndDelete (c : Cache) (key : K) : option (Cache * option V) :=
  match LoadAndDelete_map c key with
  | (c, None) => Some (c, None)
  | (c, Some el) => LoadAndDelete_locked c key el
  end.

Definition Delete (c : Cache) (key : K) : option Cache := fst <$> LoadAndDelete c key.

Definition Cache_Len (c : Cache) : option Z := if mtx c then None else Some (List_Len (ll c)).
Definition Cache_Size (c : Cache) : option Z := if mtx c then None else Some (size c).

(** ** RangeFILO and RangeFIFO *)

Section range.
Context {S : Type} (visitor : S -> K -> V -> S * bool).

Fixpoint range_loop (step : List entry -> nat -> option (option nat)) (fuel : nat) (c : Cache)
    (e : option nat) (s : S) : option S :=
  match fuel with
  | O => None
  | Datatypes.S fuel' =>
      match e with
      | None => Some s
      | Some e =>
          kv ← elem_value c e;
          let '(s, next) := visitor s kv.1 kv.2 in
          if negb next then Some s
          else e ← step (ll c) e; range_loop step fuel' c e s
      end
  end.

Definition RangeFILO (c : Cache) (s : S) : option S :=
  e ← List_Front (ll c); range_loop Element_Next (Datatypes.S (Z.to_nat (List_Len (ll c)))) c e s.
Definition RangeFIFO (c : Cache) (s : S) : option S :=
  e ← List_Back (ll c); range_loop Element_Prev (Datatypes.S (Z.to_nat (List_Len (ll c)))) c e s.

Fixpoint visit (l : list entry) (s : S) : S :=
  match l with
  | [] => s
  | (k, v) :: l' => let '(s, next) := visitor s k v in if negb next then s else visit l' s
  end.
End range.

(** * Specification: the entries, most recently used first *)

Definition sz (v : V) : Z := default 0 (Size v).
Definition total (l : list entry) : Z := foldr (fun e t => sz e.2 + t) 0 l.
Definition sized (l : list entry) : Prop := Forall (fun e => exists s, Size e.2 = Some s /\ 0 <= s) l.

Definition cells_map (es : list (nat * entry)) : gmap K nat :=
  list_to_map (map (fun '(e, (k, _)) => (k, e)) es).

(** The cache while the key [ex] is in transit, and at rest. *)
Record holds_but (ex : option K) (c : Cache) (es : list (nat * entry)) : Prop := {
  hb_lists : lists (ll c) es;
  hb_nodup : NoDup (es.*2.*1);
  hb_map : (match ex with Some k => delete k (cache c) | None => cache c end) = cells_map es;
  hb_ex : forall k, ex = Some k -> k ∉ es.*2.*1;
  hb_sized : sized es.*2;
  hb_size : size c = total es.*2 /\ size c <= capacity c < 2^64;
  hb_mtx : mtx c = false;
}.

Definition holds (c : Cache) (l : list entry) : Prop :=
  exists es, holds_but None c es /\ es.*2 = l.

Definition without (key : K) (l : list entry) : list entry :=
  filter (fun e => e.1 <> key) l.
End cache.
#[global] Arguments Cache : clear implicits.
#[global] Arguments Cache K {_ _} V.

(** * Proofs *)

Section proofs.
Context {K : Type} `{Countable K} {V : Type} (Size : V -> option Z).
Implicit Types (es : list (nat * (K * V))) (l : list (K * V)) (c : Cache K V).

Definition cell_pair : nat * (K * V) -> K * nat := fun '(e, (k, _)) => (k, e).

Lemma cell_keys es : (map cell_pair es).*1 = es.*2.*1.
Proof. induction es as [|[e [k v]] es IH]; [done|]. simpl. f_equal. exact IH. Qed.

Lemma cells_map_perm es es' :
  NoDup es.*2.*1 -> es ≡ₚ es' -> cells_map es = cells_map es'.
Proof.
  intros Hnd Hp. unfold cells_map. apply list_to_map_proper.
  - by rewrite cell_keys.
  - by apply Permutation_map.
Qed.

Lemma cells_map_cons e k v es : cells_map ((e, (k, v)) :: es) = <[k := e]> (cells_map es).
Proof. done. Qed.

Lemma cells_map_none es k : k ∉ es.*2.*1 -> cells_map es !! k = None.
Proof. intros Hk. apply not_elem_of_list_to_map_1. by rewrite cell_keys. Qed.

Lemma cells_map_some es k e :
  NoDup es.*2.*1 -> cells_map es !! k = Some e -> exists es1 v es2, es = es1 ++ (e, (k, v)) :: es2.
Proof.
  intros Hnd Hk. apply elem_of_list_to_map_2 in Hk. apply list_elem_of_fmap in Hk as ([e' [k' v]] & Heq & Hin).
  injection Heq as -> ->. apply list_elem_of_split in Hin as (es1 & es2 & ->). by exists es1, v, es2.
Qed.

Lemma cells_map_delete es1 e k v es2 :
  NoDup (es1 ++ (e, (k, v)) :: es2).*2.*1 ->
  delete k (cells_map (es1 ++ (e, (k, v)) :: es2)) = cells_map (es1 ++ es2) /\
  (k ∉ (es1 ++ es2).*2.*1) /\ NoDup (es1 ++ es2).*2.*1.
Proof.
  intros Hnd. pose proof (Permutation_middle es1 es2 (e, (k, v))) as Hp.
  rewrite (cells_map_perm _ _ Hnd (Permutation_sym Hp)).
  rewrite <- Hp in Hnd. cbn [fmap list_fmap fst snd] in Hnd.
  inversion Hnd as [|? ? Hk Hnd']; subst. split_and!; [|done|done].
  rewrite cells_map_cons, delete_insert_id; [done|]. by apply cells_map_none.
Qed.

Lemma total_app l1 l2 : total Size (l1 ++ l2) = total Size l1 + total Size l2.
Proof. unfold total. induction l1 as [|x l1 IH]; simpl; lia. Qed.

Lemma total_perm l1 l2 : l1 ≡ₚ l2 -> total Size l1 = total Size l2.
Proof. unfold total. induction 1; simpl; lia. Qed.

Lemma total_nonneg l : sized Size l -> 0 <= total Size l.
Proof.
  unfold total. induction 1 as [|e l (s & Hs & H0) _ IH]; simpl; [lia|].
  unfold sz at 1. rewrite Hs. simpl. lia.
Qed.

Lemma sized_app l1 l2 : sized Size (l1 ++ l2) <-> sized Size l1 /\ sized Size l2.
Proof. apply Forall_app. Qed.

(** The element of a cell. *)
Lemma elem_value_holds c es1 e kv es2 :
  lists (ll c) (es1 ++ (e, kv) :: es2) -> elem_value c e = Some kv.
Proof.
  intros Hl. destruct (lists_around _ _ _ _ _ Hl) as (_ & _ & _ & x & Hx & _ & Hv).
  unfold elem_value. by rewrite Hx.
Qed.

Lemma wrap_sub a b : 0 <= b <= a -> a < 2^64 -> wrap_u64 (a - b) = a - b.
Proof. intros. unfold wrap_u64. apply Z.mod_small. lia. Qed.

(** What an eviction leaves: a prefix of the entries, the longest that fits. *)
Definition evicts (cap needed : Z) (l l' ev : list (K * V)) : Prop :=
  l = l' ++ ev /\ total Size l' + needed <= cap /\
  match ev with [] => True | x :: _ => cap < total Size (l' ++ [x]) + needed end.

Lemma evicts_nothing cap needed l : total Size l + needed <= cap -> evicts cap needed l l [].
Proof. intros H0. split_and!; [by rewrite app_nil_r|done|done]. Qed.

Lemma evicts_more cap needed l l' ev x :
  cap < total Size (l ++ [x]) + needed -> evicts cap needed l l' ev ->
  evicts cap needed (l ++ [x]) l' (ev ++ [x]).
Proof.
  intros Hx (-> & Hfit & Hmax). split_and!; [by rewrite app_assoc|done|].
  destruct ev as [|y ev]; [|done]. by rewrite app_nil_r in Hx.
Qed.

(** The state after one turn of the loop. *)
Lemma evict_step key c es e k v s (l' : List (K * V)) :
  holds_but Size (Some key) c (es ++ [(e, (k, v))]) -> Size v = Some s -> 0 <= s ->
  lists l' es ->
  holds_but Size (Some key)
    (mkCache (capacity c) (wrap_u64 (size c - s)) l' (delete k (cache c)) (mtx c) (onDelete c)
       (if onDelete c then calls c ++ [(k, v)] else calls c)) es.
Proof.
  intros Hc Hv Hs0 Hl'. destruct (hb_size _ _ _ _ Hc) as [Hs Hle].
  pose proof (hb_sized _ _ _ _ Hc) as Hsz. rewrite fmap_app in Hsz, Hs.
  apply sized_app in Hsz as [Hsz _]. rewrite total_app in Hs. simpl in Hs. unfold sz in Hs.
  rewrite Hv in Hs. simpl in Hs. pose proof (total_nonneg _ Hsz).
  pose proof (hb_nodup _ _ _ _ Hc) as Hnd.
  destruct (cells_map_delete es e k v [] Hnd) as (Hm & Hk & Hnd'). rewrite app_nil_r in *.
  pose proof (hb_map _ _ _ _ Hc) as Hmap. pose proof (hb_ex _ _ _ _ Hc key eq_refl) as Hex.
  split; cbn [ll cache size capacity mtx].
  - done.
  - done.
  - by rewrite delete_delete, Hmap, Hm.
  - intros k0 [= <-] Hin. apply Hex. rewrite !fmap_app. apply elem_of_app. by left.
  - done.
  - rewrite wrap_sub by lia. lia.
  - apply Hc.
Qed.

Lemma evict_loop_spec key needed : forall es c b fuel,
  holds_but Size (Some key) c es -> 0 <= needed <= capacity c -> (length es < fuel)%nat ->
  exists c' es' ev, evict_loop Size fuel c needed b =
      Some (c', Ok (b || negb (bool_decide (ev = [])))) /\
    evicts (capacity c) needed es.*2 es'.*2 ev /\ holds_but Size (Some key) c' es' /\
    capacity c' = capacity c /\ onDelete c' = onDelete c /\
    calls c' = calls c ++ (if onDelete c then rev ev else []).
Proof.
  intros es. induction es as [|[e [k v]] es IH] using rev_ind; intros c b fuel Hc Hn Hf;
    (destruct fuel as [|fuel]; [lia|]); cbn [evict_loop].
  - destruct (hb_size _ _ _ _ Hc) as [Hs Hle]. simpl in Hs.
    rewrite Hs, wrap_sub by lia. destruct (Z.ltb_spec (capacity c - 0) needed); [lia|].
    exists c, [], []. rewrite orb_false_r. split; [done|]. split; [apply evicts_nothing; simpl; lia|].
    split_and!; try done. by destruct (onDelete c); rewrite app_nil_r.
  - destruct (hb_size _ _ _ _ Hc) as [Hs Hle]. pose proof (hb_sized _ _ _ _ Hc) as Hsz.
    pose proof (total_nonneg _ Hsz) as Hpos.
    rewrite wrap_sub by lia. destruct (Z.ltb_spec (capacity c - size c) needed) as [Hlt|Hge].
    + pose proof (hb_lists _ _ _ _ Hc) as Hl. unfold List_Len. rewrite (li_len _ _ Hl).
      destruct (Z.eqb_spec (Z.of_nat (length (es ++ [(e, (k, v))]))) 0) as [H0|_].
      { rewrite length_app in H0. simpl in H0. lia. }
      rewrite (List_Back_lists _ _ Hl), fmap_app. simpl. rewrite last_snoc. cbn [mbind option_bind].
      rewrite (elem_value_holds _ _ _ _ _ Hl). cbn [mbind option_bind snd].
      rewrite fmap_app in Hsz. apply sized_app in Hsz as [Hsz Hsv].
      apply Forall_cons_iff in Hsv as [(s & Hsv & Hs0) _]. simpl in Hsv. rewrite Hsv.
      destruct (Remove_lists _ _ _ _ _ Hl) as (l' & Hrem & Hl'). rewrite app_nil_r in Hl'.
      destruct (IH (mkCache (capacity c) (wrap_u64 (size c - s)) l' (delete k (cache c)) (mtx c)
        (onDelete c) (if onDelete c then calls c ++ [(k, v)] else calls c)) true fuel)
        as (c' & es' & ev & Hev & Hevs & Hc' & Hcap & Hon & Hcalls).
      { by eapply evict_step. }
      { done. }
      { rewrite length_app in Hf. simpl in Hf. lia. }
      cbn [capacity onDelete calls] in *. exists c', es', (ev ++ [(k, v)]). split_and!.
      * unfold set_cache, set_list, call_onDelete. cbn [capacity size ll cache mtx onDelete calls].
        rewrite Hrem. cbn [mbind option_bind fst]. rewrite Hev.
        rewrite (bool_decide_false (ev ++ [(k, v)] = [])) by (by destruct ev).
        by rewrite orb_true_r.
      * rewrite fmap_app. apply evicts_more; [|done]. rewrite fmap_app in Hs. simpl in Hs |- *. lia.
      * done.
      * done.
      * done.
      * rewrite Hcalls, rev_app_distr. destruct (onDelete c); [|done]. by rewrite <- app_assoc.
    + exists c, (es ++ [(e, (k, v))]), []. rewrite orb_false_r. split; [done|].
      split; [apply evicts_nothing; lia|]. split_and!; try done.
      by destruct (onDelete c); rewrite app_nil_r.
Qed.

(** ** Put *)

Lemma Put_rest c key value vs es :
  holds_but Size (Some key) c es -> Size value = Some vs -> 0 <= vs <= capacity c ->
  exists c' e es' ev,
    Put_insert Size c key value vs = Some (c', Ok (e, negb (bool_decide (ev = [])))) /\
    holds_but Size None (Put_store c' key e) ((e, (key, value)) :: es') /\
    evicts (capacity c) vs es.*2 es'.*2 ev /\ capacity c' = capacity c /\
    calls c' = calls c ++ (if onDelete c then rev ev else []).
Proof.
  intros Hc Hv Hvs. unfold Put_insert, evict. case_bool; [lia|].
  destruct (evict_loop_spec key vs es c false (S (Z.to_nat (List_Len (ll c)))) Hc Hvs)
    as (c' & es' & ev & Hev & Hevs & Hc' & Hcap & Hon & Hcalls).
  { unfold List_Len. rewrite (li_len _ _ (hb_lists _ _ _ _ Hc)). lia. }
  rewrite Hev. cbn [mbind option_bind orb].
  destruct (PushFront_lists _ _ (key, value) (hb_lists _ _ _ _ Hc')) as (l' & Hpush & Hl').
  rewrite Hpush. cbn [mbind option_bind].
  eexists _, _, es', ev. split; [done|]. split; [|done].
  destruct (hb_size _ _ _ _ Hc') as [Hs Hle]. destruct Hevs as (_ & Hfit & _).
  pose proof (total_nonneg _ (hb_sized _ _ _ _ Hc')).
  split; cbn [Put_store set_cache set_list ll cache size capacity mtx].
  - done.
  - cbn. constructor; [by apply (hb_ex _ _ _ _ Hc')|apply Hc'].
  - rewrite cells_map_cons, <- (hb_map _ _ _ _ Hc'). by rewrite insert_delete_eq.
  - done.
  - cbn. constructor; [by exists vs; split; [|lia]|apply Hc'].
  - match goal with |- _ = total Size ?x /\ _ =>
      change (total Size x) with (sz Size value + total Size es'.*2) end.
    unfold sz. rewrite Hv. cbn [default]. unfold wrap_u64. rewrite Z.mod_small; unfold id; lia.
  - apply Hc'.
Qed.

Lemma without_absent key l : key ∉ l.*1 -> without key l = l.
Proof.
  intros Hk. induction l as [|[k v] l IH]; [done|]. simpl in Hk. apply not_elem_of_cons in Hk as [Hne Hk].
  unfold without. rewrite filter_cons_True by (simpl; congruence). f_equal. by apply IH.
Qed.

Lemma without_middle key l1 v l2 :
  key ∉ (l1 ++ l2).*1 -> without key (l1 ++ (key, v) :: l2) = l1 ++ l2.
Proof.
  intros Hk. rewrite <- (without_absent _ _ Hk). unfold without.
  induction l1 as [|x l1 IH]; simpl.
  - by rewrite filter_cons_False by (simpl; tauto).
  - simpl in Hk. apply not_elem_of_cons in Hk as [Hx Hk].
    rewrite !filter_cons_True by congruence. f_equal. by apply IH.
Qed.

(** What the cells of a cache at rest say about a key. *)
Lemma holds_lookup c l key :
  holds Size c l ->
  match cache c !! key with
  | None => key ∉ l.*1
  | Some e => exists es1 v es2, holds_but Size None c (es1 ++ (e, (key, v)) :: es2) /\
      l = es1.*2 ++ (key, v) :: es2.*2 /\ key ∉ (es1.*2 ++ es2.*2).*1
  end.
Proof.
  intros (es & Hc & <-). pose proof (hb_map _ _ _ _ Hc) as Hm. rewrite Hm.
  destruct (cells_map es !! key) as [e|] eqn:E.
  - apply cells_map_some in E as (es1 & v & es2 & ->); [|apply Hc]. exists es1, v, es2.
    split; [done|]. split; [by rewrite fmap_app|].
    destruct (cells_map_delete es1 e key v es2 (hb_nodup _ _ _ _ Hc)) as (_ & Hk & _).
    by rewrite fmap_app in Hk.
  - intros Hin. apply not_elem_of_list_to_map in E. apply E.
    change (key ∈ (map cell_pair es).*1). by rewrite cell_keys.
Qed.

(** The state once a cell has left the list. *)
Lemma holds_removed ex c es1 e k v es2 s (l' : List (K * V)) m cs :
  holds_but Size None c (es1 ++ (e, (k, v)) :: es2) -> Size v = Some s -> 0 <= s ->
  lists l' (es1 ++ es2) ->
  (ex = Some k /\ m = cache c) \/ (ex = None /\ m = delete k (cache c)) ->
  holds_but Size ex (mkCache (capacity c) (wrap_u64 (size c - s)) l' m (mtx c) (onDelete c) cs)
    (es1 ++ es2).
Proof.
  intros Hc Hv Hs0 Hl' Hm. destruct (hb_size _ _ _ _ Hc) as [Hs Hle].
  pose proof (hb_sized _ _ _ _ Hc) as Hsz. pose proof (hb_map _ _ _ _ Hc) as Hmap.
  destruct (cells_map_delete es1 e k v es2 (hb_nodup _ _ _ _ Hc)) as (Hd & Hk & Hnd).
  assert (Hp : (es1 ++ (e, (k, v)) :: es2).*2 ≡ₚ (k, v) :: (es1 ++ es2).*2).
  { rewrite !fmap_app. simpl. by rewrite <- Permutation_middle. }
  rewrite (total_perm _ _ Hp) in Hs. unfold sized in Hsz. rewrite Hp in Hsz.
  apply Forall_cons_iff in Hsz as [_ Hsz]. pose proof (total_nonneg _ Hsz).
  simpl in Hs. unfold sz in Hs. rewrite Hv in Hs. simpl in Hs.
  split; cbn [ll cache size capacity mtx]; try done.
  - destruct Hm as [[-> ->]|[-> ->]]; by rewrite Hmap.
  - destruct Hm as [[-> ->]|[-> ->]]; [by intros ? [= <-]|done].
  - rewrite wrap_sub by lia. unfold total in *. lia.
  - apply Hc.
Qed.

Lemma holds_sized c es1 e k v es2 :
  holds_but Size None c (es1 ++ (e, (k, v)) :: es2) -> exists s, Size v = Some s /\ 0 <= s.
Proof.
  intros Hc. pose proof (hb_sized _ _ _ _ Hc) as Hsz. rewrite fmap_app in Hsz.
  apply sized_app in Hsz as [_ Hsz]. by apply Forall_cons_iff in Hsz as [? _].
Qed.

(** C7: [Put] on a cache at rest, of a value that fits: it takes out the previous
    entry of the key, evicts the least recently used entries and only those that
    are needed (what stays is the longest prefix that leaves room), calls the
    callback on each evicted entry in that order, and puts the new entry first;
    it reports whether anything was evicted, the sizes stay exact and within the
    capacity, and the mutex is released.  A value that is too large changes
    nothing. *)
Theorem Put_correct c l key value vs (Hc : holds Size c l) (Hv : Size value = Some vs) (Hvs : 0 <= vs) :
  (capacity c < vs -> Put Size c key value = Some (c, Err ErrTooLarge)) /\
  (vs <= capacity c -> exists c' l' ev,
    Put Size c key value = Some (c', Ok (negb (bool_decide (ev = [])))) /\
    holds Size c' ((key, value) :: l') /\ evicts (capacity c) vs (without key l) l' ev /\
    capacity c' = capacity c /\ calls c' = calls c ++ (if onDelete c then rev ev else [])).
Proof.
  unfold Put. rewrite Hv. split; intros Hfit; [by case_bool; [|lia]|]. case_bool; [lia|].
  pose proof (holds_lookup c l key Hc) as Hk. unfold Put_load, Put_locked.
  assert (Hm : mtx c = false) by (destruct Hc as (es & Hc & _); apply Hc). rewrite Hm.
  destruct (cache c !! key) as [e|] eqn:E.
  - destruct Hk as (es1 & v & es2 & Hb & -> & Hnot).
    rewrite (elem_value_holds _ _ _ _ _ (hb_lists _ _ _ _ Hb)). cbn [mbind option_bind snd].
    destruct (holds_sized _ _ _ _ _ _ Hb) as (s & Hs & Hs0). rewrite Hs.
    destruct (Remove_lists _ _ _ _ _ (hb_lists _ _ _ _ Hb)) as (l1 & Hrem & Hl1).
    rewrite Hrem. cbn [mbind option_bind].
    pose proof (holds_removed (Some key) _ _ _ _ _ _ _ l1 (cache c) (calls c) Hb Hs Hs0 Hl1
      ltac:(by left)) as Hb'.
    destruct (Put_rest _ _ value vs _ Hb' Hv ltac:(simpl; lia)) as (c' & e' & es' & ev & Hput & Hc' & Hev & Hcap & Hcalls).
    unfold set_list. rewrite Hput. cbn [mbind option_bind].
    exists (Put_store c' key e'), es'.*2, ev. split; [done|]. split; [by eexists|].
    rewrite without_middle by done. by rewrite fmap_app in Hev.
  - destruct Hc as (es & Hb & <-). cbn [mbind option_bind].
    assert (Hb' : holds_but Size (Some key) c es).
    { destruct Hb. split; try done; [|by intros ? [= <-]]. by rewrite delete_id. }
    destruct (Put_rest _ _ value vs _ Hb' Hv ltac:(lia)) as (c' & e' & es' & ev & Hput & Hc' & Hev & Hcap & Hcalls).
    rewrite Hput. cbn [mbind option_bind].
    exists (Put_store c' key e'), es'.*2, ev. split; [done|]. split; [by eexists|].
    by rewrite without_absent.
Qed.

(** ** Get, Delete, Range *)

Lemma holds_mtx c l : holds Size c l -> mtx c = false.
Proof. intros (es & Hc & _). apply Hc. Qed.

Lemma nodup_split (key : K) l1 (v1 : V) r1 l2 v2 r2 :
  NoDup (l1 ++ (key, v1) :: r1).*1 -> l1 ++ (key, v1) :: r1 = l2 ++ (key, v2) :: r2 ->
  l1 = l2 /\ v1 = v2 /\ r1 = r2.
Proof.
  revert l2. induction l1 as [|x l1 IH]; intros [|y l2] Hnd Heq; simpl in Hnd, Heq.
  - by injection Heq as -> ->.
  - injection Heq as <- ->. inversion Hnd as [|? ? Hn _]; subst. destruct Hn.
    rewrite fmap_app. apply elem_of_app. right. by left.
  - injection Heq as -> <-. inversion Hnd as [|? ? Hn _]; subst. destruct Hn.
    rewrite fmap_app. apply elem_of_app. right. by left.
  - injection Heq as -> Heq. inversion Hnd as [|? ? _ Hnd']; subst.
    by destruct (IH l2 Hnd' Heq) as (-> & -> & ->).
Qed.

Lemma Get_spec c l key :
  holds Size c l ->
  (key ∉ l.*1 -> Get c key = Some (c, Err ErrElementNotFound)) /\
  (forall l1 v l2, l = l1 ++ (key, v) :: l2 ->
     exists c', Get c key = Some (c', Ok v) /\ holds Size c' ((key, v) :: l1 ++ l2)).
Proof.
  intros Hc. pose proof (holds_lookup c l key Hc) as Hk. pose proof (holds_mtx _ _ Hc) as Hm.
  unfold Get. destruct (cache c !! key) as [e|].
  - destruct Hk as (es1 & v & es2 & Hb & -> & Hnot). split.
    { intros Hin. destruct Hin. rewrite fmap_app. apply elem_of_app. right. by left. }
    intros l1 v' l2 Heq.
    assert (l1 = es1.*2 /\ v' = v /\ l2 = es2.*2) as (-> & -> & ->).
    { pose proof (hb_nodup _ _ _ _ Hb) as Hnd. rewrite fmap_app in Hnd.
      by destruct (nodup_split _ _ _ _ _ _ _ Hnd Heq) as (E1 & E2 & E3). }
    destruct (MoveToFront_lists _ _ _ _ _ (hb_lists _ _ _ _ Hb)) as (l' & Hmv & Hl').
    unfold Get_locked. rewrite Hm, Hmv. cbn [mbind option_bind].
    rewrite (elem_value_holds (set_list c l' (size c)) [] e (key, v) _ Hl'). cbn [mbind option_bind].
    eexists. split; [done|]. exists ((e, (key, v)) :: es1 ++ es2).
    split; [|by cbn; rewrite fmap_app].
    pose proof (Permutation_middle es1 es2 (e, (key, v))) as Hp. destruct Hb.
    split; cbn [set_list ll cache size capacity mtx]; try done; try by rewrite Hp.
    + by rewrite hb_map0, (cells_map_perm _ _ hb_nodup0 (Permutation_sym Hp)).
    + unfold sized. by rewrite Hp.
    + by rewrite (total_perm _ _ (fmap_Permutation snd _ _ Hp)).
  - split; [done|]. intros l1 v l2 ->. destruct Hk. rewrite fmap_app. apply elem_of_app. right. by left.
Qed.

Lemma LoadAndDelete_spec c l key :
  holds Size c l ->
  match cache c !! key with
  | None => (key ∉ l.*1) /\ exists c', LoadAndDelete Size c key = Some (c', None) /\ holds Size c' l
  | Some _ => exists l1 v l2 c', l = l1 ++ (key, v) :: l2 /\
      LoadAndDelete Size c key = Some (c', Some v) /\ holds Size c' (l1 ++ l2) /\
      calls c' = if onDelete c then calls c ++ [(key, v)] else calls c
  end.
Proof.
  intros Hc. pose proof (holds_lookup c l key Hc) as Hk. pose proof (holds_mtx _ _ Hc) as Hm.
  unfold LoadAndDelete, LoadAndDelete_map. destruct (cache c !! key) as [e|] eqn:E.
  - destruct Hk as (es1 & v & es2 & Hb & -> & Hnot).
    destruct (holds_sized _ _ _ _ _ _ Hb) as (s & Hs & Hs0).
    destruct (Remove_lists _ _ _ _ _ (hb_lists _ _ _ _ Hb)) as (l' & Hrem & Hl').
    pose proof (holds_removed None _ _ _ _ _ _ _ l' (delete key (cache c))
      (if onDelete c then calls c ++ [(key, v)] else calls c) Hb Hs Hs0 Hl' ltac:(by right)) as Hb'.
    unfold LoadAndDelete_locked. cbn [set_cache mtx]. rewrite Hm.
    change (elem_value (set_cache c (delete key (cache c))) e) with (elem_value c e).
    rewrite (elem_value_holds _ _ _ _ _ (hb_lists _ _ _ _ Hb)). cbn [mbind option_bind snd].
    rewrite Hs. cbn [call_onDelete set_cache ll]. rewrite Hrem. cbn [mbind option_bind].
    eexists es1.*2, v, es2.*2, _. split; [done|]. split; [done|]. split; [|done].
    exists (es1 ++ es2). split; [exact Hb'|by rewrite fmap_app].
  - split; [done|]. eexists. split; [done|]. destruct Hc as (es & Hb & <-). exists es. split; [|done].
    destruct Hb. split; try done. cbn [set_cache cache]. rewrite delete_id by done. done.
Qed.

Lemma range_next {S} (visitor : S -> K -> V -> S * bool) c es2 : forall es1 fuel s,
  lists (ll c) (es1 ++ es2) -> (length es2 < fuel)%nat ->
  range_loop visitor Element_Next fuel c (head es2.*1) s = Some (visit visitor es2.*2 s).
Proof.
  induction es2 as [|[e [k v]] es2 IH]; intros es1 fuel s Hl Hf; (destruct fuel as [|fuel]; [simpl in Hf; lia|]).
  - done.
  - cbn [fmap list_fmap fst snd head range_loop visit]. rewrite (elem_value_holds _ _ _ _ _ Hl).
    cbn [mbind option_bind fst snd]. destruct (visitor s k v) as [s' go]. destruct go; [|done]. cbn [negb].
    rewrite (Element_Next_lists _ _ _ _ _ Hl). cbn [mbind option_bind].
    apply (IH (es1 ++ [(e, (k, v))])); [by rewrite <- app_assoc|simpl in Hf; lia].
Qed.

Lemma range_prev {S} (visitor : S -> K -> V -> S * bool) c es1 : forall es2 fuel s,
  lists (ll c) (es1 ++ es2) -> (length es1 < fuel)%nat ->
  range_loop visitor Element_Prev fuel c (stdpp.list_basics.list.last es1.*1) s =
    Some (visit visitor (rev es1.*2) s).
Proof.
  induction es1 as [|[e [k v]] es1 IH] using rev_ind; intros es2 fuel s Hl Hf;
    (destruct fuel as [|fuel]; [lia|]).
  - done.
  - rewrite length_app in Hf. rewrite !fmap_app. simpl. rewrite last_snoc, rev_app_distr.
    rewrite <- app_assoc in Hl. cbn [range_loop rev app visit]. rewrite (elem_value_holds _ _ _ _ _ Hl).
    cbn [mbind option_bind fst snd]. destruct (visitor s k v) as [s' go]. destruct go; [|done]. cbn [negb].
    rewrite (Element_Prev_lists _ _ _ _ _ Hl). cbn [mbind option_bind].
    eapply IH; [exact Hl|simpl in Hf; lia].
Qed.

Lemma Range_spec {S} (visitor : S -> K -> V -> S * bool) c l s :
  holds Size c l ->
  RangeFILO visitor c s = Some (visit visitor l s) /\
  RangeFIFO visitor c s = Some (visit visitor (rev l) s).
Proof.
  intros (es & Hb & <-). pose proof (hb_lists _ _ _ _ Hb) as Hl. unfold RangeFILO, RangeFIFO.
  rewrite (List_Front_lists _ _ Hl), (List_Back_lists _ _ Hl). cbn [mbind option_bind].
  unfold List_Len. rewrite (li_len _ _ Hl), Nat2Z.id. split.
  - apply (range_next visitor c es []); [done|lia].
  - apply (range_prev visitor c es []); [by rewrite app_nil_r|lia].
Qed.

(** the other calls on a cache at rest: [Get] of a key that is present gives
    its value and makes it the most recently used entry, and of one that is not
    the error; [Delete] takes out the entry of the key and nothing else, giving
    its value to the callback; [Len] and [Size] are the number of entries and the
    total of their sizes, which never exceeds the capacity; [RangeFILO] visits the
    entries from the most to the least recently used and [RangeFIFO] in the other
    order, until the visitor stops. *)
Theorem Cache_correct c l key (Hc : holds Size c l) :
  (key ∉ l.*1 -> Get c key = Some (c, Err ErrElementNotFound)) /\
  (forall l1 v l2, l = l1 ++ (key, v) :: l2 ->
     exists c', Get c key = Some (c', Ok v) /\ holds Size c' ((key, v) :: l1 ++ l2)) /\
  (exists c', Delete Size c key = Some c' /\ holds Size c' (without key l)) /\
  Cache_Len c = Some (Z.of_nat (length l)) /\
  Cache_Size c = Some (total Size l) /\ total Size l <= capacity c /\
  (forall S (visitor : S -> K -> V -> S * bool) s,
     RangeFILO visitor c s = Some (visit visitor l s) /\
     RangeFIFO visitor c s = Some (visit visitor (rev l) s)).
Proof.
  pose proof (Get_spec c l key Hc) as [Hg1 Hg2]. split; [done|]. split; [done|]. split.
  - pose proof (LoadAndDelete_spec c l key Hc) as Hd. unfold Delete.
    pose proof (holds_lookup c l key Hc) as Hk.
    destruct (cache c !! key) as [e|].
    + destruct Hd as (l1 & v & l2 & c' & -> & -> & Hc' & _). exists c'. split; [done|].
      rewrite without_middle; [done|]. destruct Hc as (es & Hb & Heq).
      pose proof (hb_nodup _ _ _ _ Hb) as Hnd. rewrite Heq, <- Permutation_middle in Hnd. by inversion Hnd.
    + destruct Hd as (Hnot & c' & -> & Hc'). exists c'. split; [done|]. by rewrite without_absent.
  - pose proof (fun S (visitor : S -> K -> V -> S * bool) s => Range_spec visitor c l s Hc) as Hr.
    destruct Hc as (es & Hb & <-). destruct (hb_size _ _ _ _ Hb) as [Hs Hle].
    unfold Cache_Len, Cache_Size. rewrite (hb_mtx _ _ _ _ Hb).
    unfold List_Len. rewrite (li_len _ _ (hb_lists _ _ _ _ Hb)), <- Hs.
    split_and!; [by rewrite length_fmap|done|lia|done].
Qed.

Lemma NewCache_holds cap cb : 0 <= cap < 2^64 -> holds Size (NewCache (K := K) cap cb) [].
Proof.
  intros Hcap. exists []. split; [|done]. split; cbn; try done; [apply NewList_lists|constructor|constructor].
Qed.
End proofs.

(** ** Interleaved calls *)

Module Race.
(** Keys and values are numbers, and the size of a value is the value. *)
Definition Size (v : Z) : option Z := Some v.

(** A cache of capacity 2 that holds the entry 1 of size 1. *)
Definition start : option (Cache Z Z) :=
  fst <$> Put Size (NewCache 2 false) 1 1.

(** One goroutine deletes the key 1; between its access to the map and its
    critical section another one puts an entry of size 2, which evicts the entry
    1.  A third one then puts another entry of size 1. *)
Definition interleaved : option (Cache Z Z) :=
  c ← start;
  let '(c, el) := LoadAndDelete_map c 1 in
  '(c, _) ← Put Size c 2 2;
  el ← el;
  '(c, _) ← LoadAndDelete_locked Size c 1 el;
  '(c, _) ← Put Size c 3 1;
  Some c.
End Race.

(** the cache calls itself thread-safe and says that its size cannot exceed the
    capacity; but the accesses to the map are outside the lock, and an entry that
    is deleted while it is being evicted is subtracted from the size twice: the
    cache then holds entries of total size 3 for a capacity of 2 and reports 2. *)
Lemma delete_put_race : exists c, Race.interleaved = Some c /\
  capacity c = 2 /\ Cache_Size c = Some 2 /\
  RangeFILO (fun (l : list (Z * Z)) k v => (l ++ [(k, v)], true)) c [] = Some [(3, 1); (2, 2)] /\
  total Race.Size [(3, 1); (2, 2)] = 3.
Proof. eexists. split; [vm_compute; reflexivity|]. by vm_compute. Qed.

(** The mutex is not released when making room fails: if the size of an entry that
    is being evicted can no longer be determined, [Put] returns the error with the
    lock held, and every later call that takes it blocks. *)
Definition Size_later (v : Z) : option Z := if v =? 1 then None else Some v.

Lemma evict_error_keeps_lock : exists c c',
  Race.start = Some c /\ Put Size_later c 2 2 = Some (c', Err ErrSize) /\
  Cache_Len c' = None /\ Put Size_later c' 3 2 = None.
Proof.
  eexists _, _. split; [vm_compute; reflexivity|]. split; [vm_compute; reflexivity|].
  split; vm_compute; reflexivity.
Qed.

(** ** Witnesses *)

Lemma Put_correct_witness :
  exists c', Put Race.Size (NewCache 2 false) 1 1 = Some (c', Ok false) /\ holds Race.Size c' [(1, 1)].
Proof.
  destruct (Put_correct Race.Size (NewCache 2 false) [] 1 1 1) as [_ H].
  - apply NewCache_holds. lia.
  - reflexivity.
  - lia.
  - destruct H as (c' & l' & ev & Hp & Hc' & (Hl & _) & _); [simpl; lia|].
    destruct l', ev; try discriminate Hl. by exists c'.
Defined.

Lemma Cache_correct_witness :
  Get (NewCache (K := Z) (V := Z) 2 false) 1 = Some (NewCache 2 false, Err ErrElementNotFound).
Proof.
  apply (Cache_correct Race.Size (NewCache 2 false) [] 1).
  - apply NewCache_holds. lia.
  - by intros ?%not_elem_of_nil.
Defined.
