(* ===== verification/Bech32.v ===== *)
(** * address/bech32: the checksummed base 32 strings of addresses

    Strings are lists of bytes.  [strings.ToLower] is modelled on ASCII, the only
    characters the decoder lets through and the only ones the documentation of the
    encoder allows in the human-readable part. *)

From Stdlib Require Import ZArith Lia.
From S2P Require Import Prelude.

Inductive Version : Type := Version0 | VersionM | VersionUnknown.

Inductive bech32_error : Type :=
| ErrMixedCase
| ErrInvalidBitGroups
| ErrInvalidIncompleteGroup
| ErrInvalidLength (n : Z)
| ErrInvalidCharacter (c : byte)
| ErrInvalidSeparatorIndex (i : Z)
| ErrNonCharsetChar (c : byte)
| ErrInvalidChecksum (Expected ExpectedM Actual : list byte)
| ErrInvalidDataByte (b : byte)
| ErrPanic.   (* a slice out of range *)

Abbreviation res := (result bech32_error).

Definition Version0Const : Z := 1.
Definition VersionMConst : Z := 0x2bc830a3.

(** The zero value for a version that is not in the map. *)
Definition VersionToConsts (version : Version) : Z :=
  match version with
  | Version0 => Version0Const
  | VersionM => VersionMConst
  | VersionUnknown => 0
  end.
Definition ConstsToVersion (c : Z) : option Version :=
  if c =? Version0Const then Some Version0
  else if c =? VersionMConst then Some VersionM
  else None.

Definition charset : list byte := bytes_of "qpzry9x8gf2tvdw0s3jn54khce6mua7l".
Definition gen : list Z := [0x3b6a57b2; 0x26508e6d; 0x1ea119fa; 0x3d4233dd; 0x2a1462b3].

(** ** Strings *)

Definition ToLower (s : list byte) : list byte := map to_lower s.

Fixpoint toBytes (chars : list byte) : res (list byte) :=
  match chars with
  | [] => Ok []
  | c :: chars' =>
      match IndexByte charset c with
      | None => Err (ErrNonCharsetChar c)
      | Some index => decoded ← toBytes chars'; Ok (z2b (Z.of_nat index) :: decoded)
      end
  end.

(** ** The checksum *)

(** The inner loop over the generator. *)
Fixpoint gen_loop (b : Z) (i : Z) (gen : list Z) (chk : Z) : Z :=
  match gen with
  | [] => chk
  | g :: gen' =>
      gen_loop b (i + 1) gen' (if Z.land (Z.shiftr b i) 1 =? 1 then Z.lxor chk g else chk)
  end.

(** One turn of each of the loops of [bech32Polymod], which only differ by the
    value that comes in. *)
Definition polymod_round (chk v : Z) : Z :=
  let b := Z.shiftr chk 25 in
  gen_loop b 0 gen (Z.lxor (Z.shiftl (Z.land chk 0x1ffffff) 5) v).

Definition bech32Polymod (hrp values : list byte) (checksum : option (list byte)) : Z :=
  let chk := 1 in
  let chk := foldl (fun chk c => polymod_round chk (Z.shiftr (b2z c) 5)) chk hrp in
  let chk := polymod_round chk 0 in
  let chk := foldl (fun chk c => polymod_round chk (Z.land (b2z c) 31)) chk hrp in
  let chk := foldl (fun chk v => polymod_round chk (b2z v)) chk values in
  match checksum with
  | None => foldl polymod_round chk (replicate 6 0)
  | Some checksum => foldl (fun chk v => polymod_round chk (b2z v)) chk checksum
  end.

(** [charset[b]], for [b] below 32. *)
Definition charset_at (b : Z) : byte := default x00 (charset !! Z.to_nat b).

(** The characters it writes to the builder. *)
Definition writeBech32Checksum (hrp data : list byte) (version : Version) : list byte :=
  let bech32Const := VersionToConsts version in
  let polymod := Z.lxor (bech32Polymod hrp data None) bech32Const in
  map (fun i => charset_at (Z.land (Z.shiftr polymod (5 * (5 - i))) 31)) [0; 1; 2; 3; 4; 5].

Definition bech32VerifyChecksum (hrp data : list byte) : res (Version * bool) :=
  if (length data <? 6)%nat then Err ErrPanic
  else
    let checksum := drop (length data - 6) data in
    let values := take (length data - 6) data in
    let polymod := bech32Polymod hrp values (Some checksum) in
    match ConstsToVersion polymod with
    | Some bech32Version => Ok (bech32Version, true)
    | None => Ok (VersionUnknown, false)
    end.

(** ** Decoding *)

Fixpoint scan (bech : list byte) (hasLower hasUpper : bool) : res bool :=
  match bech with
  | [] => Ok hasUpper
  | c :: bech' =>
      if (b2z c <? 33) || (126 <? b2z c) then Err (ErrInvalidCharacter c)
      else
        let hasLower := hasLower || is_lower c in
        let hasUpper := hasUpper || is_upper c in
        if hasLower && hasUpper then Err ErrMixedCase else scan bech' hasLower hasUpper
  end.

Definition DecodeNoLimitWithVersion (bech : list byte)
    : res (list byte * list byte * Version) :=
  if (length bech <? 8)%nat then Err (ErrInvalidLength (Z.of_nat (length bech)))
  else
    hasUpper ← scan bech false false;
    let bech := if (hasUpper : bool) then ToLower bech else bech in
    let one := match LastIndexByte bech (z2b 49) with Some i => Z.of_nat i | None => -1 end in
    if (one <? 1) || (Z.of_nat (length bech) <? one + 7) then Err (ErrInvalidSeparatorIndex one)
    else
      let hrp := take (Z.to_nat one) bech in
      let data := drop (Z.to_nat one + 1) bech in
      decoded ← toBytes data;
      '(bech32Version, ok) ← bech32VerifyChecksum hrp decoded;
      let payload := take (length decoded - 6) decoded in
      if negb ok then
        let actual := drop (length bech - 6) bech in
        let expectedVersion0 := writeBech32Checksum hrp payload Version0 in
        (* the second checksum goes to the same builder *)
        let expectedVersionM :=
          expectedVersion0 ++ writeBech32Checksum hrp payload VersionM in
        Err (ErrInvalidChecksum expectedVersion0 expectedVersionM actual)
      else Ok (hrp, payload, bech32Version).

Definition DecodeNoLimit (bech : list byte) : res (list byte * list byte) :=
  '(hrp, data, _) ← DecodeNoLimitWithVersion bech; Ok (hrp, data).

Definition Decode (bech : list byte) : res (list byte * list byte) :=
  if (90 <? length bech)%nat then Err (ErrInvalidLength (Z.of_nat (length bech)))
  else '(hrp, data, _) ← DecodeNoLimitWithVersion bech; Ok (hrp, data).

Definition DecodeGeneric (bech : list byte) : res (list byte * list byte * Version) :=
  if (90 <? length bech)%nat then Err (ErrInvalidLength (Z.of_nat (length bech)))
  else DecodeNoLimitWithVersion bech.

(** ** Encoding *)

Fixpoint write_data (data : list byte) : res (list byte) :=
  match data with
  | [] => Ok []
  | b :: data' =>
      if Z.of_nat (length charset) <=? b2z b then Err (ErrInvalidDataByte b)
      else bldr ← write_data data'; Ok (charset_at (b2z b) :: bldr)
  end.

Definition encodeGeneric (hrp data : list byte) (version : Version) : res (list byte) :=
  let hrp := ToLower hrp in
  chars ← write_data data;
  Ok (hrp ++ [z2b 49] ++ chars ++ writeBech32Checksum hrp data version).

Definition Encode (hrp data : list byte) : res (list byte) := encodeGeneric hrp data Version0.
Definition EncodeM (hrp data : list byte) : res (list byte) := encodeGeneric hrp data VersionM.

(** ** ConvertBits *)

(** Shifts of a byte. *)
Definition shl8 (b n : Z) : Z := wrap_u8 (Z.shiftl b n).

(** The inner loop on one byte: the fuel bounds its turns, at most one per bit. *)
Fixpoint extract_loop (fuel : nat) (toBits b remFromBits nextByte filledBits : Z)
    (regrouped : list byte) : list byte * Z * Z :=
  match fuel with
  | O => (regrouped, nextByte, filledBits)
  | S fuel' =>
      if 0 <? remFromBits then
        let remToBits := toBits - filledBits in
        let toExtract := if remToBits <? remFromBits then remToBits else remFromBits in
        let nextByte := Z.lor (shl8 nextByte toExtract) (Z.shiftr b (8 - toExtract)) in
        let b := shl8 b toExtract in
        let remFromBits := remFromBits - toExtract in
        let filledBits := filledBits + toExtract in
        if filledBits =? toBits
        then extract_loop fuel' toBits b remFromBits 0 0 (regrouped ++ [z2b nextByte])
        else extract_loop fuel' toBits b remFromBits nextByte filledBits regrouped
      else (regrouped, nextByte, filledBits)
  end.

Definition ConvertBits (data : list byte) (fromBits toBits : Z) (pad : bool) : res (list byte) :=
  if (fromBits <? 1) || (8 <? fromBits) || (toBits <? 1) || (8 <? toBits)
  then Err ErrInvalidBitGroups
  else
    let '(regrouped, nextByte, filledBits) :=
      foldl (fun '(regrouped, nextByte, filledBits) c =>
        extract_loop 9 toBits (shl8 (b2z c) (8 - fromBits)) fromBits nextByte filledBits regrouped)
        ([], 0, 0) data in
    let '(regrouped, nextByte, filledBits) :=
      if pad && (0 <? filledBits)
      then (regrouped ++ [z2b (shl8 nextByte (toBits - filledBits))], 0, 0)
      else (regrouped, nextByte, filledBits) in
    if (0 <? filledBits) && ((4 <? filledBits) || negb (nextByte =? 0))
    then Err ErrInvalidIncompleteGroup
    else Ok regrouped.

Definition EncodeFromBase256 (hrp data : list byte) : res (list byte) :=
  converted ← ConvertBits data 8 5 true;
  Encode hrp converted.

Definition DecodeToBase256 (bech : list byte) : res (list byte * list byte) :=
  '(hrp, data) ← Decode bech;
  converted ← ConvertBits data 5 8 false;
  Ok (hrp, converted).

(** * Proofs *)

(** ** The checksum is linear *)

Fixpoint gen_sum (b : Z) (i : Z) (gen : list Z) : Z :=
  match gen with
  | [] => 0
  | g :: gen' => Z.lxor (if Z.testbit b i then g else 0) (gen_sum b (i + 1) gen')
  end.

Lemma bit_test b i : 0 <= i -> (Z.land (Z.shiftr b i) 1 =? 1) = Z.testbit b i.
Proof.
  intros Hi. change 1 with (Z.ones 1) at 1. rewrite Z.land_ones by lia.
  rewrite <- (Z.add_0_l i) at 2. rewrite <- Z.shiftr_spec, Z.bit0_odd by lia.
  change (2 ^ 1) with 2. rewrite Zmod_odd. by destruct (Z.odd _).
Qed.

Lemma gen_loop_sum b gen : forall i chk,
  0 <= i -> gen_loop b i gen chk = Z.lxor chk (gen_sum b i gen).
Proof.
  induction gen as [|g gen IH]; intros i chk Hi; cbn [gen_loop gen_sum]; [by rewrite Z.lxor_0_r|].
  rewrite IH, bit_test by lia. destruct (Z.testbit b i); rewrite ?Z.lxor_0_l; [|done].
  by rewrite Z.lxor_assoc.
Qed.

Lemma lxor_swap a b c d : Z.lxor (Z.lxor a b) (Z.lxor c d) = Z.lxor (Z.lxor a c) (Z.lxor b d).
Proof. rewrite !Z.lxor_assoc. f_equal. rewrite <- !Z.lxor_assoc. f_equal. apply Z.lxor_comm. Qed.

Lemma gen_sum_lxor a b gen : forall i,
  gen_sum (Z.lxor a b) i gen = Z.lxor (gen_sum a i gen) (gen_sum b i gen).
Proof.
  induction gen as [|g gen IH]; intros i; cbn [gen_sum]; [done|].
  rewrite IH, Z.lxor_spec, lxor_swap. f_equal.
  destruct (Z.testbit a i), (Z.testbit b i); simpl;
    by rewrite ?Z.lxor_nilpotent, ?Z.lxor_0_r, ?Z.lxor_0_l.
Qed.

Definition shift_in (chk : Z) : Z := Z.shiftl (Z.land chk 0x1ffffff) 5.

Lemma polymod_round_eq chk v :
  polymod_round chk v = Z.lxor (Z.lxor (shift_in chk) v) (gen_sum (Z.shiftr chk 25) 0 gen).
Proof. unfold polymod_round. by rewrite gen_loop_sum by lia. Qed.

Lemma polymod_round_lxor a b u v :
  polymod_round (Z.lxor a b) (Z.lxor u v) = Z.lxor (polymod_round a u) (polymod_round b v).
Proof.
  rewrite !polymod_round_eq, Z.shiftr_lxor, gen_sum_lxor.
  unfold shift_in. rewrite land_lxor, Z.shiftl_lxor.
  rewrite (lxor_swap (Z.shiftl (Z.land a _) 5)). by rewrite lxor_swap.
Qed.

Lemma polymod_fold_lxor d : forall a b,
  foldl polymod_round (Z.lxor a b) d =
  Z.lxor (foldl polymod_round a (replicate (length d) 0)) (foldl polymod_round b d).
Proof.
  induction d as [|x d IH]; intros a b; [done|]. cbn [foldl length replicate].
  rewrite <- (Z.lxor_0_l x) at 1. by rewrite polymod_round_lxor, IH.
Qed.

(** ** Widths *)

Lemma gen_sum_width b l : forall i,
  Forall (fun g => 0 <= g < 2 ^ 30) l -> 0 <= gen_sum b i l < 2 ^ 30.
Proof.
  induction l as [|g l IH]; intros i Hl; cbn [gen_sum]; [lia|].
  apply Forall_cons_iff in Hl as [Hg Hl]. apply lxor_width; [lia| |by apply IH].
  destruct (Z.testbit b i); lia.
Qed.

Lemma gen_width : Forall (fun g => 0 <= g < 2 ^ 30) gen.
Proof. repeat (constructor; [by split|]). constructor. Qed.

Lemma shift_in_eq chk : 0 <= chk < 2 ^ 25 -> shift_in chk = 32 * chk.
Proof.
  intros H0. unfold shift_in. change 0x1ffffff with (Z.ones 25).
  rewrite Z.land_ones, Z.mod_small, Z.shiftl_mul_pow2 by lia. lia.
Qed.

Lemma shift_in_width chk : 0 <= shift_in chk < 2 ^ 30.
Proof.
  unfold shift_in. change 0x1ffffff with (Z.ones 25).
  rewrite Z.land_ones, Z.shiftl_mul_pow2 by lia.
  pose proof (Z.mod_pos_bound chk (2 ^ 25) ltac:(lia)).
  change (2 ^ 30) with (2 ^ 25 * 2 ^ 5). nia.
Qed.

Lemma polymod_round_width chk v : 0 <= v < 2 ^ 30 -> 0 <= polymod_round chk v < 2 ^ 30.
Proof.
  intros Hv. rewrite polymod_round_eq.
  apply lxor_width; [lia| |apply gen_sum_width, gen_width].
  apply lxor_width; [lia|apply shift_in_width|done].
Qed.

(** Appending to a small number: a digit in base 32. *)
Lemma lxor_digit c v : 0 <= c -> 0 <= v < 32 -> Z.lxor (32 * c) v = 32 * c + v.
Proof.
  intros Hc Hv. symmetry. apply Z.add_nocarry_lxor. change 32 with (2 ^ 5) in *.
  rewrite Z.mul_comm, <- Z.shiftl_mul_pow2 by lia.
  apply Z.bits_inj'. intros n Hn. rewrite Z.land_spec, Z.bits_0.
  destruct (Z.ltb_spec n 5).
  - by rewrite Z.shiftl_spec_low by lia.
  - destruct (Z.eq_dec v 0) as [->|]; [by rewrite Z.bits_0, andb_false_r|].
    rewrite (Z.bits_above_log2 v n), andb_false_r; [done|lia|].
    apply Z.log2_lt_pow2; [lia|]. apply (Z.lt_le_trans _ (2 ^ 5)); [lia|]. apply Z.pow_le_mono_r; lia.
Qed.

Lemma polymod_round_small chk v :
  0 <= chk < 2 ^ 25 -> 0 <= v < 32 -> polymod_round chk v = 32 * chk + v.
Proof.
  intros Hc Hv. rewrite polymod_round_eq, shift_in_eq, lxor_digit by lia.
  replace (Z.shiftr chk 25) with 0 by (rewrite Z.shiftr_div_pow2 by lia; symmetry; apply Z.div_small; lia).
  change (gen_sum 0 0 gen) with 0. apply Z.lxor_0_r.
Qed.

(** Six digits, the most significant first. *)
Definition horner (d : list Z) : Z := foldl (fun a x => 32 * a + x) 0 d.

Lemma polymod_digits d0 d1 d2 d3 d4 d5 :
  Forall (fun x => 0 <= x < 32) [d0; d1; d2; d3; d4; d5] ->
  foldl polymod_round 0 [d0; d1; d2; d3; d4; d5] = horner [d0; d1; d2; d3; d4; d5].
Proof.
  intros Hd. repeat (apply Forall_cons_iff in Hd as [? Hd]). unfold horner. cbn [foldl].
  change (2 ^ 25) with 33554432 in *.
  rewrite (polymod_round_small 0 d0) by lia.
  rewrite (polymod_round_small (32 * 0 + d0) d1) by (change (2 ^ 25) with 33554432; lia).
  rewrite (polymod_round_small _ d2) by (change (2 ^ 25) with 33554432; lia).
  rewrite (polymod_round_small _ d3) by (change (2 ^ 25) with 33554432; lia).
  rewrite (polymod_round_small _ d4) by (change (2 ^ 25) with 33554432; lia).
  rewrite (polymod_round_small _ d5) by (change (2 ^ 25) with 33554432; lia).
  done.
Qed.

(** The digits the checksum writes. *)
Definition digits (p : Z) : list Z :=
  map (fun i => Z.land (Z.shiftr p (5 * (5 - i))) 31) [0; 1; 2; 3; 4; 5].

Lemma digit_eq p k : 0 <= k -> Z.land (Z.shiftr p k) 31 = p / 2 ^ k mod 32.
Proof.
  intros Hk. change 31 with (Z.ones 5). by rewrite Z.land_ones, Z.shiftr_div_pow2 by lia.
Qed.

Lemma digits_range p : Forall (fun x => 0 <= x < 32) (digits p).
Proof.
  unfold digits. apply Forall_map. apply Forall_forall. intros i Hi.
  change 31 with (Z.ones 5). rewrite Z.land_ones by lia. apply Z.mod_pos_bound. lia.
Qed.

Lemma horner_digits p : 0 <= p < 2 ^ 30 -> horner (digits p) = p.
Proof.
  intros Hp. unfold horner, digits. cbn [map foldl]. rewrite !digit_eq by lia.
  change (2 ^ 30) with 1073741824 in Hp.
  change (2 ^ (5 * (5 - 0))) with 33554432. change (2 ^ (5 * (5 - 1))) with 1048576.
  change (2 ^ (5 * (5 - 2))) with 32768. change (2 ^ (5 * (5 - 3))) with 1024.
  change (2 ^ (5 * (5 - 4))) with 32. change (2 ^ (5 * (5 - 5))) with 1.
  Z.to_euclidean_division_equations. lia.
Qed.

Lemma digits_horner d0 d1 d2 d3 d4 d5 :
  Forall (fun x => 0 <= x < 32) [d0; d1; d2; d3; d4; d5] ->
  digits (horner [d0; d1; d2; d3; d4; d5]) = [d0; d1; d2; d3; d4; d5].
Proof.
  intros Hd. repeat (apply Forall_cons_iff in Hd as [? Hd]). unfold horner, digits.
  cbn [map foldl]. rewrite !digit_eq by lia.
  change (2 ^ (5 * (5 - 0))) with 33554432. change (2 ^ (5 * (5 - 1))) with 1048576.
  change (2 ^ (5 * (5 - 2))) with 32768. change (2 ^ (5 * (5 - 3))) with 1024.
  change (2 ^ (5 * (5 - 4))) with 32. change (2 ^ (5 * (5 - 5))) with 1.
  repeat f_equal; Z.to_euclidean_division_equations; lia.
Qed.

(** ** The checksum of a string *)

Definition polymod_state (hrp values : list byte) : Z :=
  foldl polymod_round
    (foldl polymod_round
       (polymod_round (foldl polymod_round 1 (map (fun c => Z.shiftr (b2z c) 5) hrp)) 0)
       (map (fun c => Z.land (b2z c) 31) hrp))
    (map b2z values).

Lemma bech32Polymod_eq hrp values checksum :
  bech32Polymod hrp values checksum =
  foldl polymod_round (polymod_state hrp values)
    (match checksum with None => replicate 6 0 | Some c => map b2z c end).
Proof.
  unfold bech32Polymod, polymod_state. cbn zeta.
  rewrite <- (foldl_map polymod_round (fun c => Z.shiftr (b2z c) 5)), <- (foldl_map polymod_round (fun c => Z.land (b2z c) 31)),
    <- (foldl_map polymod_round b2z values).
  destruct checksum as [c|]; [|done]. symmetry. apply foldl_map.
Qed.

Definition is_digit (b : byte) : Prop := b2z b < 32.

Lemma six_digits (c : list byte) :
  length c = 6%nat -> Forall is_digit c -> exists d0 d1 d2 d3 d4 d5,
  map b2z c = [d0; d1; d2; d3; d4; d5] /\ Forall (fun x => 0 <= x < 32) [d0; d1; d2; d3; d4; d5].
Proof.
  intros Hl Hc. do 6 (destruct c as [|? c]; [done|]). destruct c; [|done].
  eexists _, _, _, _, _, _. split; [reflexivity|].
  repeat (apply Forall_cons_iff in Hc as [? Hc]; constructor;
          [split; [apply b2z_range|assumption]|]). constructor.
Qed.

Lemma polymod_checksum hrp values c :
  length c = 6%nat -> Forall is_digit c ->
  bech32Polymod hrp values (Some c) = Z.lxor (bech32Polymod hrp values None) (horner (map b2z c)) /\
  digits (horner (map b2z c)) = map b2z c.
Proof.
  intros Hl Hc. destruct (six_digits c Hl Hc) as (d0 & d1 & d2 & d3 & d4 & d5 & Hm & Hd).
  rewrite !bech32Polymod_eq, Hm. split; [|by apply digits_horner].
  rewrite <- (Z.lxor_0_r (polymod_state hrp values)) at 1.
  rewrite polymod_fold_lxor, polymod_digits by done. done.
Qed.

Lemma polymod_width hrp values : 0 <= bech32Polymod hrp values None < 2 ^ 30.
Proof.
  rewrite bech32Polymod_eq. change (replicate 6 0) with (replicate 5 0 ++ [0]).
  rewrite foldl_app. apply polymod_round_width. lia.
Qed.

(** ** Characters *)

Definition range32 : list Z := map Z.of_nat (seq 0 32).

Lemma in_range32 z : 0 <= z < 32 -> In z range32.
Proof.
  intros Hz. apply in_map_iff. exists (Z.to_nat z). split; [lia|]. apply in_seq. lia.
Qed.

Lemma charset_ok : Forall (fun i => IndexByte charset (charset_at i) = Some (Z.to_nat i) /\
  33 <= b2z (charset_at i) <= 126 /\ is_upper (charset_at i) = false /\ charset_at i <> z2b 49) range32.
Proof. repeat (constructor; [vm_compute; repeat split; congruence|]). constructor. Qed.

Lemma charset_at_ok i : 0 <= i < 32 -> IndexByte charset (charset_at i) = Some (Z.to_nat i) /\
  33 <= b2z (charset_at i) <= 126 /\ is_upper (charset_at i) = false /\ charset_at i <> z2b 49.
Proof. intros Hi. pose proof charset_ok as Hc. rewrite Forall_forall in Hc. by apply Hc, in_range32. Qed.

Lemma IndexByte_some s c i : IndexByte s c = Some i -> s !! i = Some c.
Proof.
  revert i. induction s as [|x s IH]; intros i; simpl; [done|].
  case_decide; [by intros [= <-]; subst|]. intros Hi. apply fmap_Some in Hi as (j & Hj & ->). by apply IH.
Qed.

Definition chars_of (data : list byte) : list byte := map (fun b => charset_at (b2z b)) data.

Lemma write_data_ok data : Forall is_digit data -> write_data data = Ok (chars_of data).
Proof.
  induction 1 as [|b data Hb _ IH]; [done|]. cbn [write_data].
  change (Z.of_nat (length charset)) with 32. unfold is_digit in Hb.
  case_bool; [lia|]. by rewrite IH.
Qed.

Lemma toBytes_chars data : Forall is_digit data -> toBytes (chars_of data) = Ok data.
Proof.
  induction 1 as [|b data Hb _ IH]; [done|]. cbn [chars_of map toBytes].
  pose proof (b2z_range b). unfold is_digit in Hb.
  destruct (charset_at_ok (b2z b) ltac:(lia)) as (-> & _).
  change (map (fun b => charset_at (b2z b)) data) with (chars_of data). rewrite IH. simpl.
  by rewrite Z2Nat.id, z2b_b2z by lia.
Qed.

Lemma toBytes_sound chars decoded :
  toBytes chars = Ok decoded -> Forall is_digit decoded /\ chars = chars_of decoded.
Proof.
  revert decoded. induction chars as [|c chars IH]; intros decoded; cbn [toBytes].
  - intros [= <-]. done.
  - destruct (IndexByte charset c) as [i|] eqn:E; [|done].
    destruct (toBytes chars) as [d|]; [|done]. intros [= <-].
    destruct (IH d eq_refl) as [Hd ->]. apply IndexByte_some in E.
    assert (Hi : (i < 32)%nat) by (apply lookup_lt_Some in E; exact E).
    assert (Hz : b2z (z2b (Z.of_nat i)) = Z.of_nat i) by (apply b2z_z2b_small; lia).
    split.
    + constructor; [|done]. unfold is_digit. rewrite Hz. lia.
    + cbn [chars_of map]. f_equal. rewrite Hz. unfold charset_at. by rewrite Nat2Z.id, E.
Qed.

Lemma checksum_chars hrp data version :
  writeBech32Checksum hrp data version =
  chars_of (map z2b (digits (Z.lxor (bech32Polymod hrp data None) (VersionToConsts version)))).
Proof.
  unfold writeBech32Checksum, chars_of. rewrite map_map. unfold digits. rewrite map_map.
  apply map_ext. intros i. rewrite b2z_z2b_small; [done|].
  change 31 with (Z.ones 5). rewrite Z.land_ones by lia.
  pose proof (Z.mod_pos_bound (Z.shiftr (Z.lxor (bech32Polymod hrp data None) (VersionToConsts version))
    (5 * (5 - i))) (2 ^ 5) ltac:(lia)). change (2 ^ 5) with 32 in *. lia.
Qed.

Lemma map_b2z_z2b l : Forall (fun x => 0 <= x < 32) l -> map b2z (map z2b l) = l.
Proof.
  induction 1 as [|x l Hx _ IH]; [done|]. simpl. rewrite IH, b2z_z2b_small by lia. done.
Qed.

Lemma map_z2b_b2z l : map z2b (map b2z l) = l.
Proof. induction l as [|x l IH]; [done|]. simpl. by rewrite IH, z2b_b2z. Qed.

Lemma VersionToConsts_width v : 0 <= VersionToConsts v < 2 ^ 30.
Proof.
  change (2 ^ 30) with 1073741824. unfold VersionToConsts, Version0Const, VersionMConst. destruct v; lia.
Qed.

(** The checksum verifies exactly when it is the one that is written. *)
Lemma verify_iff hrp data c v :
  length c = 6%nat -> Forall is_digit c -> v <> VersionUnknown ->
  bech32VerifyChecksum hrp (data ++ c) = Ok (v, true) <->
  writeBech32Checksum hrp data v = chars_of c.
Proof.
  intros Hl Hc Hv. unfold bech32VerifyChecksum.
  rewrite length_app, Hl. destruct (Nat.ltb_spec (length data + 6) 6) as [|_]; [lia|].
  replace (length data + 6 - 6)%nat with (length data) by lia.
  rewrite drop_app_length, take_app_length.
  destruct (polymod_checksum hrp data c Hl Hc) as [Hp Hd]. rewrite Hp, checksum_chars.
  set (P := bech32Polymod hrp data None). set (h := horner (map b2z c)) in *.
  pose proof (polymod_width hrp data) as HP. fold P in HP.
  assert (Hxor : Z.lxor P h = VersionToConsts v <-> digits (Z.lxor P (VersionToConsts v)) = map b2z c).
  { split; intros Heq.
    - rewrite <- Heq, <- Z.lxor_assoc, Z.lxor_nilpotent, Z.lxor_0_l. done.
    - assert (Hh : h = Z.lxor P (VersionToConsts v)).
      { unfold h. rewrite <- Heq. apply horner_digits, lxor_width; [lia|done|apply VersionToConsts_width]. }
      by rewrite Hh, <- Z.lxor_assoc, Z.lxor_nilpotent, Z.lxor_0_l. }
  assert (Hconst : ConstsToVersion (Z.lxor P h) = Some v <-> Z.lxor P h = VersionToConsts v).
  { unfold ConstsToVersion. change Version0Const with 1. change VersionMConst with 0x2bc830a3.
    split.
    - repeat case_bool; intros [= <-]; done.
    - intros ->. by destruct v. }
  rewrite <- Hconst in Hxor. transitivity (ConstsToVersion (Z.lxor P h) = Some v).
  { destruct (ConstsToVersion _) as [w|]; split; try congruence. }
  rewrite Hxor. split.
  - intros ->. by rewrite map_z2b_b2z.
  - intros Heq. assert (Hinj : forall a b, Forall is_digit a -> Forall is_digit b ->
      chars_of a = chars_of b -> a = b).
    { intros a b Ha Hb H0. pose proof (toBytes_chars a Ha) as H1. rewrite H0, toBytes_chars in H1 by done.
      by injection H1. }
    apply Hinj in Heq; [|apply Forall_map; eapply Forall_impl; [|apply digits_range]|done].
    + rewrite <- Heq. symmetry. apply map_b2z_z2b, digits_range.
    + intros x Hx. cbn beta in Hx. unfold is_digit. rewrite b2z_z2b_small; lia.
Qed.

(** ** Strings *)

Definition printable (c : byte) : Prop := 33 <= b2z c <= 126.

Lemma is_upper_spec c : is_upper c = true <-> 65 <= b2z c <= 90.
Proof. unfold is_upper. rewrite andb_true_iff, !Z.leb_le. lia. Qed.

Lemma to_lower_not_upper c : is_upper (to_lower c) = false.
Proof.
  unfold to_lower. destruct (is_upper c) eqn:E; [|done]. apply is_upper_spec in E.
  apply not_true_iff_false. rewrite is_upper_spec, b2z_z2b_small; lia.
Qed.

Lemma to_lower_printable c : printable c -> printable (to_lower c).
Proof.
  unfold to_lower, printable. destruct (is_upper c) eqn:E; [|done]. apply is_upper_spec in E.
  intros _. rewrite b2z_z2b_small; lia.
Qed.

Lemma ToLower_id s : Forall (fun c => is_upper c = false) s -> ToLower s = s.
Proof. induction 1 as [|c s Hc _ IH]; [done|]. simpl. unfold to_lower. by rewrite Hc, IH. Qed.

Lemma ToLower_lower s : Forall (fun c => is_upper c = false) (ToLower s).
Proof. induction s; simpl; constructor; [apply to_lower_not_upper|done]. Qed.

Lemma scan_lower s lo :
  Forall (fun c => printable c /\ is_upper c = false) s -> scan s lo false = Ok false.
Proof.
  intros Hs. revert lo. induction Hs as [|c s [Hp Hu] _ IH]; intros lo; [done|]. cbn [scan].
  unfold printable in Hp. rewrite Hu. destruct (Z.ltb_spec (b2z c) 33), (Z.ltb_spec 126 (b2z c)); try lia.
  cbn [orb]. rewrite andb_false_r. apply IH.
Qed.

Lemma scan_sound s lo up u :
  scan s lo up = Ok u -> Forall printable s /\
  (u = false -> up = false /\ Forall (fun c => is_upper c = false) s).
Proof.
  revert lo up. induction s as [|c s IH]; intros lo up; cbn [scan].
  - intros [= <-]. by repeat split.
  - destruct (Z.ltb_spec (b2z c) 33), (Z.ltb_spec 126 (b2z c)); cbn [orb]; try done.
    destruct (_ && _); [done|]. intros Hs. apply IH in Hs as [Hp Hu].
    split; [constructor; [unfold printable; lia|done]|]. intros Hf.
    destruct (Hu Hf) as [Hup Hl]. apply orb_false_iff in Hup as [-> Hc].
    split; [done|]. by constructor.
Qed.

(** The string the decoder works on. *)
Lemma scan_ToLower s u : scan s false false = Ok u -> (if u then ToLower s else s) = ToLower s.
Proof.
  intros Hs. apply scan_sound in Hs as [_ Hu]. destruct u; [done|].
  symmetry. apply ToLower_id, Hu. done.
Qed.

Lemma LastIndexByte_some s c i : LastIndexByte s c = Some i -> s = take i s ++ c :: drop (S i) s.
Proof.
  revert i. induction s as [|x s IH]; intros i; simpl; [done|].
  destruct (LastIndexByte s c) as [j|].
  - intros [= <-]. simpl. f_equal. by apply IH.
  - case_decide; [|done]. intros [= <-]. subst. done.
Qed.

Lemma chars_of_ok data :
  Forall is_digit data ->
  Forall (fun c => printable c /\ is_upper c = false) (chars_of data) /\ z2b 49 ∉ chars_of data.
Proof.
  intros Hd. split.
  - apply Forall_map. eapply Forall_impl; [|exact Hd]. intros b Hb.
    destruct (charset_at_ok (b2z b)) as (_ & Hp & Hu & _); [|done].
    pose proof (b2z_range b). unfold is_digit in Hb. lia.
  - intros Hin. apply list_elem_of_In, in_map_iff in Hin as (b & Hb & Hin).
    rewrite Forall_forall in Hd. specialize (Hd b Hin). pose proof (b2z_range b). unfold is_digit in Hd.
    by destruct (charset_at_ok (b2z b) ltac:(lia)) as (_ & _ & _ & Hne).
Qed.

Definition checksum_of (hrp data : list byte) (version : Version) : list byte :=
  map z2b (digits (Z.lxor (bech32Polymod hrp data None) (VersionToConsts version))).

Lemma checksum_of_ok hrp data version :
  length (checksum_of hrp data version) = 6%nat /\ Forall is_digit (checksum_of hrp data version).
Proof.
  split; [done|]. unfold checksum_of. apply Forall_map.
  eapply Forall_impl; [|apply digits_range]. intros x Hx. cbn beta in Hx.
  unfold is_digit. rewrite b2z_z2b_small; lia.
Qed.

Lemma encode_decode hrp data version :
  hrp <> [] -> Forall printable hrp -> Forall is_digit data -> version <> VersionUnknown ->
  exists bech, encodeGeneric hrp data version = Ok bech /\
    length bech = (length hrp + 1 + (length data + 6))%nat /\
    DecodeNoLimitWithVersion bech = Ok (ToLower hrp, data, version).
Proof.
  intros Hne Hhrp Hdata Hv. unfold encodeGeneric. rewrite (write_data_ok _ Hdata). eexists. split; [reflexivity|].
  set (hrp' := ToLower hrp). rewrite checksum_chars. fold (checksum_of hrp' data version).
  destruct (checksum_of_ok hrp' data version) as [Hcl Hc]. set (c := checksum_of _ _ _) in *.
  assert (Hjoin : chars_of data ++ chars_of c = chars_of (data ++ c)).
  { unfold chars_of. by rewrite map_app. }
  rewrite Hjoin. assert (Hdc : Forall is_digit (data ++ c)) by (by apply Forall_app).
  destruct (chars_of_ok _ Hdc) as [Hch Hno].
  assert (Hlen : length (hrp' ++ [z2b 49] ++ chars_of (data ++ c)) =
                 (length hrp + 1 + (length data + 6))%nat).
  { rewrite !length_app. unfold hrp', ToLower, chars_of. rewrite !length_map, length_app, Hcl.
    simpl. lia. }
  assert (Hpos : (0 < length hrp)%nat) by (destruct hrp; [done|simpl; lia]).
  split; [exact Hlen|]. unfold DecodeNoLimitWithVersion. rewrite Hlen.
  destruct (Nat.ltb_spec (length hrp + 1 + (length data + 6)) 8) as [|_]; [lia|].
  rewrite scan_lower.
  2: { apply Forall_app. split; [|constructor; [by vm_compute|done]].
       unfold hrp', ToLower. apply Forall_map. eapply Forall_impl; [|exact Hhrp]. intros b Hb.
       split; [by apply to_lower_printable|apply to_lower_not_upper]. }
  cbn [mbind result_bind]. rewrite Hlen.
  change ([z2b 49] ++ ?x) with (z2b 49 :: x). rewrite LastIndexByte_app by done.
  assert (Hh' : length hrp' = length hrp) by (apply length_map). rewrite Hh'.
  destruct (Z.ltb_spec (Z.of_nat (length hrp)) 1) as [|_]; [lia|].
  destruct (Z.ltb_spec (Z.of_nat (length hrp + 1 + (length data + 6))) (Z.of_nat (length hrp) + 7)) as [|_]; [lia|].
  cbn [orb]. rewrite Nat2Z.id.
  replace (Z.to_nat (Z.of_nat (length hrp) + 1)) with (length hrp + 1)%nat by lia.
  rewrite <- Hh', take_app_length. rewrite cons_middle, app_assoc.
  assert (Hdrop : drop (length hrp' + 1) ((hrp' ++ [z2b 49]) ++ chars_of (data ++ c)) =
                  chars_of (data ++ c)).
  { change (length hrp' + 1)%nat with (length hrp' + length [z2b 49])%nat.
    rewrite <- length_app. apply drop_app_length. }
  rewrite Hdrop.
  rewrite toBytes_chars by done. cbn [mbind result_bind].
  rewrite (proj2 (verify_iff hrp' data c version Hcl Hc Hv)) by (by rewrite checksum_chars).
  cbn [mbind result_bind negb]. rewrite length_app, Hcl.
  replace (length data + 6 - 6)%nat with (length data) by lia. by rewrite take_app_length.
Qed.

(** decoding inverts encoding: for a printable non-empty human-readable part,
    data of 5-bit values and either version of the checksum, the encoder succeeds
    and the decoder gives back the lower-case human-readable part, the data and
    the version, whatever separators the human-readable part contains. *)
Theorem Bech32_roundtrip hrp data version
    (Hne : hrp <> []) (Hhrp : Forall printable hrp) (Hdata : Forall is_digit data)
    (Hv : version <> VersionUnknown) :
  exists bech, encodeGeneric hrp data version = Ok bech /\
    DecodeNoLimitWithVersion bech = Ok (ToLower hrp, data, version).
Proof.
  destruct (encode_decode hrp data version Hne Hhrp Hdata Hv) as (bech & He & _ & Hd).
  by exists bech.
Qed.

Lemma decode_sound bech hrp data version
    (Hd : DecodeNoLimitWithVersion bech = Ok (hrp, data, version)) :
  encodeGeneric hrp data version = Ok (ToLower bech) /\ Forall printable bech /\
  hrp <> [] /\ Forall is_digit data /\ version <> VersionUnknown.
Proof.
  unfold DecodeNoLimitWithVersion in Hd. revert Hd. nat_bool; [done|]. intros Hd.
  destruct (scan bech false false) as [u|] eqn:Es; [|done]. cbn [mbind result_bind] in Hd.
  pose proof (scan_ToLower _ _ Es) as Hlow. apply scan_sound in Es as [Hprint _].
  rewrite Hlow in Hd. set (s := ToLower bech) in *.
  destruct (LastIndexByte s (z2b 49)) as [i|] eqn:Ei; [|done].
  revert Hd. destruct (Z.ltb_spec (Z.of_nat i) 1) as [|Hi]; [done|].
  destruct (Z.ltb_spec (Z.of_nat (length s)) (Z.of_nat i + 7)) as [|Hlen]; [done|]. intros Hd.
  cbn [orb] in Hd. rewrite Nat2Z.id in Hd.
  replace (i + 1)%nat with (S i) in Hd by lia.
  apply LastIndexByte_some in Ei.
  destruct (toBytes (drop (S i) s)) as [decoded|] eqn:Eb; [|done]. cbn [mbind result_bind] in Hd.
  apply toBytes_sound in Eb as [Hdig Hdrop].
  assert (Hdl : (6 <= length decoded)%nat).
  { assert (H0 : length (drop (S i) s) = length decoded) by (rewrite Hdrop; apply length_map).
    rewrite length_drop in H0. lia. }
  rewrite <- (take_drop (length decoded - 6) decoded) in Hd at 1.
  set (payload := take (length decoded - 6) decoded) in *.
  set (c := drop (length decoded - 6) decoded) in *.
  assert (Hcl : length c = 6%nat) by (unfold c; rewrite length_drop; lia).
  assert (Hpc : payload ++ c = decoded) by apply take_drop.
  rewrite <- Hpc in Hdig. apply Forall_app in Hdig as [Hpd Hcd].
  destruct (bech32VerifyChecksum _ _) as [[w ok]|] eqn:Ev; [|done]. cbn [mbind result_bind] in Hd.
  destruct ok; [|done]. injection Hd as <- <- <-. cbn [negb] in *.
  assert (Hw : w <> VersionUnknown).
  { intros ->. unfold bech32VerifyChecksum, ConstsToVersion in Ev. revert Ev.
    nat_bool; [done|]. by repeat case_bool. }
  apply (verify_iff _ _ _ _ Hcl Hcd Hw) in Ev.
  assert (Hhl : ToLower (take i s) = take i s).
  { apply ToLower_id. pose proof (ToLower_lower bech) as Hl. fold s in Hl.
    rewrite <- (take_drop i s) in Hl. by apply Forall_app in Hl as [? _]. }
  split_and!; [|done| |done|done].
  - unfold encodeGeneric. rewrite write_data_ok by done. cbn [mbind result_bind].
    rewrite Hhl, Ev. f_equal. rewrite Ei at 2. f_equal. simpl. f_equal.
    rewrite Hdrop, <- Hpc. unfold chars_of. by rewrite map_app.
  - intros He. apply (f_equal length) in He. rewrite length_take in He. simpl in He. lia.
Qed.

(** and the decoder accepts nothing else: a string it accepts is printable,
    and is, up to case, what the encoder writes for the parts returned, with a
    non-empty human-readable part, data of 5-bit values and a known version. *)
Theorem Bech32_decode_sound bech hrp data version
    (Hd : DecodeNoLimitWithVersion bech = Ok (hrp, data, version)) :
  encodeGeneric hrp data version = Ok (ToLower bech) /\ Forall printable bech /\
  hrp <> [] /\ Forall is_digit data /\ version <> VersionUnknown.
Proof. exact (decode_sound bech hrp data version Hd). Qed.

(** The two checksums an [ErrInvalidChecksum] proposes: the second is written to
    the builder of the first, so that it holds both. *)
Lemma ErrInvalidChecksum_expectedM : exists e0 em actual,
  DecodeNoLimitWithVersion (bytes_of "a12uel5q") = Err (ErrInvalidChecksum e0 em actual) /\
  e0 = bytes_of "2uel5l" /\ em = bytes_of "2uel5llqfn3a".
Proof. eexists _, _, _. split; [vm_compute; reflexivity|]. by vm_compute. Qed.

(** ** Witnesses *)

Lemma Bech32_roundtrip_witness : exists bech,
  encodeGeneric (bytes_of "BC1") [x00; x1f] VersionM = Ok bech /\
  DecodeNoLimitWithVersion bech = Ok (bytes_of "bc1", [x00; x1f], VersionM).
Proof.
  apply (Bech32_roundtrip (bytes_of "BC1") [x00; x1f] VersionM); [discriminate| | |discriminate].
  - repeat (constructor; [by vm_compute|]). constructor.
  - repeat (constructor; [by vm_compute|]). constructor.
Defined.

Lemma Bech32_decode_sound_witness :
  encodeGeneric (bytes_of "a") [] Version0 = Ok (ToLower (bytes_of "A12UEL5L")).
Proof. apply (Bech32_decode_sound (bytes_of "A12UEL5L")). vm_compute. reflexivity. Defined.

(** ** Regrouping bits *)

(** The number a list of groups of [w] bits writes, and what the loop has read: the
    complete groups and the one being filled. *)
Definition groups_val (w : Z) (l : list byte) : Z := foldl (fun a b => a * 2 ^ w + b2z b) 0 l.
Definition groups_ok (w : Z) (l : list byte) : Prop := Forall (fun b => b2z b < 2 ^ w) l.
Definition read_val (w : Z) (l : list byte) (nextByte filledBits : Z) : Z :=
  groups_val w l * 2 ^ filledBits + nextByte.
Definition read_bits (w : Z) (l : list byte) (filledBits : Z) : Z :=
  w * Z.of_nat (length l) + filledBits.

Lemma groups_val_snoc w l b : groups_val w (l ++ [b]) = groups_val w l * 2 ^ w + b2z b.
Proof. unfold groups_val. by rewrite foldl_app. Qed.

Lemma groups_val_inj w l1 l2 :
  0 <= w -> length l1 = length l2 -> groups_ok w l1 -> groups_ok w l2 ->
  groups_val w l1 = groups_val w l2 -> l1 = l2.
Proof.
  intros Hw. revert l2. induction l1 as [|a l1 IH] using rev_ind; intros l2 Hlen H1 H2 Hv.
  - by destruct l2.
  - destruct l2 as [|b l2 _] using rev_ind; [by rewrite length_app, Nat.add_comm in Hlen|].
    rewrite !length_app in Hlen. cbn [length] in Hlen. rewrite !groups_val_snoc in Hv.
    apply Forall_app in H1 as [H1 Ha]. apply Forall_app in H2 as [H2 Hb].
    apply Forall_cons_iff in Ha as [Ha _]. apply Forall_cons_iff in Hb as [Hb _].
    pose proof (b2z_range a). pose proof (b2z_range b). pose proof (Z.pow_pos_nonneg 2 w ltac:(lia) Hw).
    assert (Heq : groups_val w l1 = groups_val w l2 /\ b2z a = b2z b).
    { destruct (Z.div_mod_unique (2 ^ w) (groups_val w l1) (groups_val w l2) (b2z a) (b2z b));
        [lia|lia|lia|done]. }
    destruct Heq as [Hg Hab]. apply b2z_inj in Hab as ->. f_equal. apply IH; [lia|done..].
Qed.

Lemma groups_val_range w l :
  0 <= w -> groups_ok w l -> 0 <= groups_val w l < 2 ^ (w * Z.of_nat (length l)).
Proof.
  intros Hw. induction l as [|b l IH] using rev_ind; intros Hl.
  - simpl. rewrite Z.mul_0_r. change (2 ^ 0) with 1. unfold groups_val. simpl. lia.
  - apply Forall_app in Hl as [Hl Hb]. apply Forall_cons_iff in Hb as [Hb _].
    specialize (IH Hl). rewrite groups_val_snoc, length_app, Nat2Z.inj_add, Z.mul_add_distr_l, Z.pow_add_r by lia.
    cbn [length]. rewrite Z.mul_1_r. pose proof (b2z_range b). nia.
Qed.


Lemma pow_split a b : 0 <= b <= a -> 2 ^ a = 2 ^ (a - b) * 2 ^ b.
Proof. intros H0. rewrite <- Z.pow_add_r by lia. f_equal. lia. Qed.

Lemma shl8_small b n : 0 <= n -> 0 <= b -> b * 2 ^ n < 256 -> shl8 b n = b * 2 ^ n.
Proof.
  intros Hn Hb Hs. unfold shl8, wrap_u8. rewrite Z.shiftl_mul_pow2 by lia. apply Z.mod_small.
  change (2 ^ 8) with 256. nia.
Qed.

(** The state of the loops: groups in range, and less than a group in progress. *)
Definition loop_ok (w : Z) (regrouped : list byte) (nextByte filledBits : Z) : Prop :=
  groups_ok w regrouped /\ 0 <= filledBits < w /\ 0 <= nextByte < 2 ^ filledBits.

(** One turn of the inner loop, for [k] bits off the top of the [rem] remaining. *)
Lemma extract_step next filled r rem k :
  0 <= next < 2 ^ filled -> 0 <= r < 2 ^ rem -> 0 <= filled -> 0 < k <= rem -> rem <= 8 ->
  filled + k <= 8 ->
  let next' := Z.lor (shl8 next k) (Z.shiftr (r * 2 ^ (8 - rem)) (8 - k)) in
  next' = next * 2 ^ k + r / 2 ^ (rem - k) /\ 0 <= next' < 2 ^ (filled + k) /\
  shl8 (r * 2 ^ (8 - rem)) k = (r mod 2 ^ (rem - k)) * 2 ^ (8 - (rem - k)).
Proof.
  intros Hn Hr Hf Hk Hrem Hfk next'.
  pose proof (Z.pow_pos_nonneg 2 k ltac:(lia) ltac:(lia)).
  pose proof (Z.pow_pos_nonneg 2 (rem - k) ltac:(lia) ltac:(lia)).
  pose proof (Z.pow_pos_nonneg 2 (8 - rem) ltac:(lia) ltac:(lia)).
  assert (Hshr : Z.shiftr (r * 2 ^ (8 - rem)) (8 - k) = r / 2 ^ (rem - k)).
  { rewrite Z.shiftr_div_pow2 by lia. rewrite (pow_split (8 - k) (8 - rem)) by lia.
    rewrite Z.div_mul_cancel_r by lia. f_equal. f_equal. lia. }
  assert (Hq : 0 <= r / 2 ^ (rem - k) < 2 ^ k).
  { split; [apply Z.div_pos; lia|]. apply Z.div_lt_upper_bound; [lia|].
    rewrite <- Z.pow_add_r by lia. replace (rem - k + k) with rem by lia. lia. }
  assert (Hle : next * 2 ^ k + 2 ^ k <= 2 ^ (filled + k)) by (rewrite Z.pow_add_r by lia; nia).
  assert (H256 : 2 ^ (filled + k) <= 256).
  { change 256 with (2 ^ 8). apply Z.pow_le_mono_r; lia. }
  assert (Hnext' : next' = next * 2 ^ k + r / 2 ^ (rem - k)).
  { unfold next'. rewrite Hshr, shl8_small by nia. apply lor_shifted; lia. }
  split_and!; [done|nia|nia|].
  unfold shl8, wrap_u8. rewrite Z.shiftl_mul_pow2, <- Z.mul_assoc, <- Z.pow_add_r by lia.
  rewrite (pow_split 8 (8 - rem + k)) by lia. rewrite Z.mul_mod_distr_r by (apply Z.pow_nonzero; lia).
  f_equal; [f_equal|]; f_equal; lia.
Qed.

Lemma extract_loop_spec w : 1 <= w <= 8 -> forall fuel rem r next filled regrouped,
  0 <= rem <= 8 -> 0 <= r < 2 ^ rem -> rem < Z.of_nat fuel -> loop_ok w regrouped next filled ->
  let '(regrouped', next', filled') :=
    extract_loop fuel w (r * 2 ^ (8 - rem)) rem next filled regrouped in
  loop_ok w regrouped' next' filled' /\
  read_val w regrouped' next' filled' = read_val w regrouped next filled * 2 ^ rem + r /\
  read_bits w regrouped' filled' = read_bits w regrouped filled + rem.
Proof.
  intros Hw. induction fuel as [|fuel IH]; intros rem r next filled regrouped Hrem Hr Hf Hok; [lia|].
  cbn [extract_loop]. destruct (Z.ltb_spec 0 rem) as [Hpos|Hz].
  2: { replace rem with 0 in * by lia. change (2 ^ 0) with 1 in *. repeat split; try apply Hok; lia. }
  destruct Hok as (Hg & Hfill & Hnext).
  set (k := if w - filled <? rem then w - filled else rem).
  assert (Hk : 0 < k <= rem /\ filled + k <= w) by (unfold k; case_bool; lia).
  destruct (extract_step next filled r rem k Hnext Hr ltac:(lia) ltac:(lia) ltac:(lia) ltac:(lia))
    as (Hn' & Hrange & ->).
  set (next' := Z.lor _ _) in *.
  pose proof (Z.mod_pos_bound r (2 ^ (rem - k)) ltac:(apply Z.pow_pos_nonneg; lia)) as Hr'.
  assert (Hval : next' * 2 ^ (rem - k) + r mod 2 ^ (rem - k) = next * 2 ^ rem + r).
  { rewrite Hn'. rewrite (pow_split rem (rem - k)) by lia. replace (rem - (rem - k)) with k by lia.
    pose proof (Z.div_mod r (2 ^ (rem - k)) ltac:(apply Z.pow_nonzero; lia)). lia. }
  destruct (Z.eqb_spec (filled + k) w) as [Hfull|Hne].
  - assert (H256 : 2 ^ w <= 256) by (change 256 with (2 ^ 8); apply Z.pow_le_mono_r; lia).
    assert (Hb : b2z (z2b next') = next') by (apply b2z_z2b_small; rewrite Hfull in Hrange; lia).
    specialize (IH (rem - k) (r mod 2 ^ (rem - k)) 0 0 (regrouped ++ [z2b next'])).
    destruct (extract_loop _ _ _ _ _ _ _) as [[rg nx] fl].
    destruct IH as (Hok' & Hv & Hbits); [lia|done|lia| |].
    { split; [|change (2 ^ 0) with 1; lia]. apply Forall_app. split; [done|]. constructor; [|done].
      rewrite Hb. rewrite Hfull in Hrange. lia. }
    split; [done|]. split.
    + rewrite Hv. unfold read_val. rewrite groups_val_snoc, Hb. change (2 ^ 0) with 1.
      rewrite <- Hfull, Z.pow_add_r by lia. rewrite (pow_split rem (rem - k)) in Hval |- * by lia.
      replace (rem - (rem - k)) with k in * by lia. nia.
    + rewrite Hbits. unfold read_bits. rewrite length_app. cbn [length]. lia.
  - specialize (IH (rem - k) (r mod 2 ^ (rem - k)) next' (filled + k) regrouped).
    destruct (extract_loop _ _ _ _ _ _ _) as [[rg nx] fl].
    destruct IH as (Hok' & Hv & Hbits); [lia|done|lia| |].
    { split; [done|]. lia. }
    split; [done|]. split.
    + rewrite Hv. unfold read_val. rewrite Z.pow_add_r by lia.
      rewrite (pow_split rem (rem - k)) in Hval |- * by lia.
      replace (rem - (rem - k)) with k in * by lia. nia.
    + rewrite Hbits. unfold read_bits. lia.
Qed.

Lemma convert_fold from w data :
  1 <= from <= 8 -> 1 <= w <= 8 -> groups_ok from data ->
  let '(regrouped, next, filled) :=
    foldl (fun '(regrouped, nextByte, filledBits) c =>
      extract_loop 9 w (shl8 (b2z c) (8 - from)) from nextByte filledBits regrouped)
      ([], 0, 0) data in
  loop_ok w regrouped next filled /\
  read_val w regrouped next filled = groups_val from data /\
  read_bits w regrouped filled = from * Z.of_nat (length data).
Proof.
  intros Hf Hw. induction data as [|c data IH] using rev_ind; intros Hd.
  - cbn [foldl]. unfold loop_ok, read_val, read_bits, groups_val. cbn. change (2 ^ 0) with 1.
    repeat split; try lia. constructor.
  - apply Forall_app in Hd as [Hd Hc]. apply Forall_cons_iff in Hc as [Hc _]. specialize (IH Hd).
    rewrite foldl_app. cbn [foldl].
    destruct (foldl _ _ data) as [[rg nx] fl]. destruct IH as (Hok & Hv & Hb).
    pose proof (b2z_range c) as Hr.
    assert (Hle : b2z c * 2 ^ (8 - from) < 256).
    { change 256 with (2 ^ 8). rewrite (pow_split 8 (8 - from)) by lia.
      replace (8 - (8 - from)) with from by lia.
      pose proof (Z.pow_pos_nonneg 2 (8 - from) ltac:(lia) ltac:(lia)). nia. }
    rewrite shl8_small by (try lia).
    pose proof (extract_loop_spec w Hw 9 from (b2z c) nx fl rg ltac:(lia) ltac:(lia) ltac:(lia) Hok) as Hx.
    destruct (extract_loop _ _ _ _ _ _ _) as [[rg' nx'] fl']. destruct Hx as (Hok' & Hv' & Hb').
    split; [done|]. split.
    + by rewrite Hv', Hv, groups_val_snoc.
    + rewrite Hb', Hb, length_app. cbn [length]. lia.
Qed.

Lemma bytes_ok data : groups_ok 8 data.
Proof. apply Forall_forall. intros b _. apply b2z_range. Qed.

(** Bytes to groups of five bits with padding: the groups, and their value. *)
Lemma ConvertBits_8_5 data : exists d5 pad,
  ConvertBits data 8 5 true = Ok d5 /\ groups_ok 5 d5 /\ 0 <= pad < 5 /\
  5 * Z.of_nat (length d5) = 8 * Z.of_nat (length data) + pad /\
  groups_val 5 d5 = groups_val 8 data * 2 ^ pad.
Proof.
  unfold ConvertBits. cbn [Z.ltb Z.compare Pos.compare Pos.compare_cont orb].
  pose proof (convert_fold 8 5 data ltac:(lia) ltac:(lia) (bytes_ok data)) as H0.
  destruct (foldl _ _ data) as [[rg nx] fl]. destruct H0 as ((Hg & Hf & Hn) & Hv & Hb).
  unfold read_val, read_bits in *. cbn [andb]. destruct (Z.ltb_spec 0 fl) as [Hpos|Hz].
  - assert (Hlt : nx * 2 ^ (5 - fl) < 32).
    { change 32 with (2 ^ 5). rewrite (pow_split 5 (5 - fl)) by lia.
      replace (5 - (5 - fl)) with fl by lia.
      pose proof (Z.pow_pos_nonneg 2 (5 - fl) ltac:(lia) ltac:(lia)). nia. }
    assert (Hge : 0 <= nx * 2 ^ (5 - fl)).
    { apply Z.mul_nonneg_nonneg; [lia|]. apply Z.pow_nonneg. lia. }
    rewrite shl8_small by lia.
    assert (Hb2 : b2z (z2b (nx * 2 ^ (5 - fl))) = nx * 2 ^ (5 - fl)) by (apply b2z_z2b_small; lia).
    cbn [Z.ltb Z.compare andb]. exists (rg ++ [z2b (nx * 2 ^ (5 - fl))]), (5 - fl). split_and!.
    + done.
    + apply Forall_app. split; [done|]. constructor; [|done]. rewrite Hb2. change (2 ^ 5) with 32. lia.
    + lia.
    + lia.
    + rewrite length_app. cbn [length]. lia.
    + rewrite groups_val_snoc, Hb2, <- Hv. rewrite (pow_split 5 (5 - fl)) by lia.
      replace (5 - (5 - fl)) with fl by lia. lia.
  - replace fl with 0 in * by lia. change (2 ^ 0) with 1 in *. exists rg, 0.
    split_and!; [done|done|lia|lia|lia|]. change (2 ^ 0) with 1. lia.
Qed.

Lemma ConvertBits_5_8 d5 pad data :
  groups_ok 5 d5 -> 0 <= pad < 5 -> 5 * Z.of_nat (length d5) = 8 * Z.of_nat (length data) + pad ->
  groups_val 5 d5 = groups_val 8 data * 2 ^ pad -> ConvertBits d5 5 8 false = Ok data.
Proof.
  intros Hg5 Hpad Hlen Hval. unfold ConvertBits.
  cbn [Z.ltb Z.compare Pos.compare Pos.compare_cont orb andb].
  pose proof (convert_fold 5 8 d5 ltac:(lia) ltac:(lia) Hg5) as H0.
  destruct (foldl _ _ d5) as [[rg nx] fl]. destruct H0 as ((Hg & Hf & Hn) & Hv & Hb).
  unfold read_val, read_bits in *.
  assert (Hfl : fl = pad /\ length rg = length data) by lia. destruct Hfl as [-> Hrg].
  rewrite Hval in Hv.
  assert (Hq : groups_val 8 rg = groups_val 8 data /\ nx = 0).
  { destruct (Z.div_mod_unique (2 ^ pad) (groups_val 8 rg) (groups_val 8 data) nx 0); lia. }
  destruct Hq as [Hq ->]. rewrite andb_comm. cbn [Z.eqb negb orb].
  destruct (Z.ltb_spec 4 pad); [lia|]. cbn [orb andb]. f_equal.
  apply (groups_val_inj 8); [lia|lia|done|apply bytes_ok|done].
Qed.

(** any bytes survive the trip through a bech32 string: as long as the string
    is not longer than the 90 characters the decoder allows, [DecodeToBase256]
    gives back exactly the bytes given to [EncodeFromBase256] and the lower-case
    human-readable part; the padding is neither lost nor read as data. *)
Theorem Base256_roundtrip hrp data
    (Hne : hrp <> []) (Hhrp : Forall printable hrp)
    (Hlen : 5 * Z.of_nat (length hrp) + 8 * Z.of_nat (length data) <= 5 * 83) :
  exists bech, EncodeFromBase256 hrp data = Ok bech /\
    DecodeToBase256 bech = Ok (ToLower hrp, data).
Proof.
  destruct (ConvertBits_8_5 data) as (d5 & pad & Hc & Hg & Hpad & Hl & Hv).
  destruct (encode_decode hrp d5 Version0 Hne Hhrp) as (bech & He & Hb & Hd); [exact Hg|done|].
  exists bech. unfold EncodeFromBase256, DecodeToBase256, Encode, Decode. rewrite Hc.
  split; [exact He|]. nat_bool; [lia|]. rewrite Hd. cbn [mbind result_bind].
  by rewrite (ConvertBits_5_8 d5 pad data).
Qed.

Lemma Base256_roundtrip_witness : exists bech,
  EncodeFromBase256 (bytes_of "bc") [xff; x00; x7f] = Ok bech /\
  DecodeToBase256 bech = Ok (bytes_of "bc", [xff; x00; x7f]).
Proof.
  apply (Base256_roundtrip (bytes_of "bc") [xff; x00; x7f]); [discriminate| |vm_compute; congruence].
  repeat (constructor; [by vm_compute|]). constructor.
Defined.

(** Groups of five bits the decoder accepts are those the encoder makes. *)
Lemma ConvertBits_5_8_sound d5 data :
  groups_ok 5 d5 -> ConvertBits d5 5 8 false = Ok data -> ConvertBits data 8 5 true = Ok d5.
Proof.
  intros Hg5. unfold ConvertBits at 1. cbn [Z.ltb Z.compare Pos.compare Pos.compare_cont orb andb].
  pose proof (convert_fold 5 8 d5 ltac:(lia) ltac:(lia) Hg5) as H0.
  destruct (foldl _ _ d5) as [[rg nx] fl]. destruct H0 as ((Hg & Hf & Hn) & Hv & Hb).
  unfold read_val, read_bits in *. intros Hok.
  assert (Hz : 0 <= fl <= 4 /\ nx = 0 /\ rg = data).
  { destruct (Z.ltb_spec 0 fl); cbn [andb] in Hok.
    - destruct (Z.ltb_spec 4 fl); [done|]. destruct (Z.eqb_spec nx 0); [|done]. cbn in Hok. injection Hok as ->. split_and!; [lia|lia|done|done].
    - replace fl with 0 in * by lia. change (2 ^ 0) with 1 in Hn. injection Hok as ->. split_and!; [lia|lia|lia|done]. }
  destruct Hz as (Hfl & -> & ->).
  destruct (ConvertBits_8_5 data) as (d' & pad & -> & Hg' & Hpad & Hl & Hv'). f_equal.
  assert (Heq : pad = fl /\ length d' = length d5) by lia. destruct Heq as [-> Hlen].
  apply (groups_val_inj 5); [lia|done..|lia].
Qed.

(** A string with a lower case letter that is scanned has no upper case one. *)
Lemma scan_one_case s : forall lo up u,
  scan s lo up = Ok u -> lo && up = false -> (lo || existsb is_lower s) && (up || existsb is_upper s) = false.
Proof.
  induction s as [|c s IH]; intros lo up u; cbn [scan existsb].
  - intros _ H. by rewrite !orb_false_r.
  - destruct (_ || _); [done|]. destruct (_ && _) eqn:E; [done|]. intros Hs _.
    rewrite !orb_assoc. by eapply IH.
Qed.

Lemma to_lower_49 c : to_lower c = z2b 49 <-> c = z2b 49.
Proof.
  unfold to_lower. destruct (is_upper c) eqn:E; [|done]. apply is_upper_spec in E. split; intros H.
  - apply (f_equal b2z) in H. rewrite !b2z_z2b_small in H by lia. lia.
  - subst c. rewrite b2z_z2b_small in E; lia.
Qed.

Lemma LastIndexByte_ToLower s : LastIndexByte (ToLower s) (z2b 49) = LastIndexByte s (z2b 49).
Proof.
  induction s as [|c s IH]; [done|]. cbn [ToLower map LastIndexByte]. fold (ToLower s). rewrite IH.
  destruct (LastIndexByte s (z2b 49)); [done|].
  pose proof (to_lower_49 c). by do 2 case_decide; try tauto.
Qed.

Lemma Ok_inj {E A} (x y : A) : @Ok E A x = Ok y -> x = y.
Proof. by intros [= ->]. Qed.

(** Where the separator of an encoded string is. *)
Lemma encode_separator hrp data version bech :
  Forall is_digit data -> encodeGeneric hrp data version = Ok bech ->
  LastIndexByte bech (z2b 49) = Some (length hrp) /\ take (length hrp) bech = ToLower hrp.
Proof.
  intros Hdata. unfold encodeGeneric. rewrite (write_data_ok _ Hdata), checksum_chars. intros He. apply Ok_inj in He.
  fold (checksum_of (ToLower hrp) data version) in He.
  destruct (checksum_of_ok (ToLower hrp) data version) as [_ Hc].
  revert He Hc. generalize (checksum_of (ToLower hrp) data version). intros c <- Hc.
  assert (Hl : length (ToLower hrp) = length hrp) by exact (length_map to_lower hrp).
  split.
  - rewrite <- Hl. apply (LastIndexByte_app (ToLower hrp) (z2b 49) (chars_of data ++ chars_of c)).
    replace (chars_of data ++ chars_of c) with (chars_of (data ++ c)) by (unfold chars_of; by rewrite map_app).
    apply chars_of_ok. apply Forall_app. by split.
  - by rewrite <- Hl, take_app_length.
Qed.

(** A string with a lower case letter is decoded as it is. *)
Lemma decode_lower s r :
  DecodeNoLimitWithVersion s = Ok r -> existsb is_lower s = true -> ToLower s = s.
Proof.
  unfold DecodeNoLimitWithVersion. destruct (length s <? 8)%nat; [done|].
  destruct (scan s false false) as [u|] eqn:Es; [|done]. intros _ Hl.
  apply scan_one_case in Es; [|done]. rewrite Hl in Es. cbn in Es. apply ToLower_id.
  apply Forall_forall. intros c Hin. apply not_true_iff_false. intros Hu.
  apply (eq_true_false_abs (existsb is_upper s)); [|done]. apply existsb_exists. by exists c.
Qed.

Lemma ToLower_idem s : ToLower (ToLower s) = ToLower s.
Proof. apply ToLower_id, ToLower_lower. Qed.

Lemma encodeGeneric_ToLower hrp data version :
  encodeGeneric (ToLower hrp) data version = encodeGeneric hrp data version.
Proof. unfold encodeGeneric. by rewrite ToLower_idem. Qed.
