(* ===== verification/GoBig.v ===== *)
(** * Arbitrary precision integers as bytes

    The two conversions of Go's [math/big] that the repository relies on:
    [Int.Bytes], the big endian bytes of the absolute value without leading
    zeros, and [Int.SetBytes], the number a string of bytes denotes.  Base58, the
    headers of NogoPow and its target comparison use them. *)

From Stdlib Require Import ZArith Lia.
From S2P Require Import Prelude.
Open Scope Z_scope.

(** ** Sizes *)

(** The number of bytes of the absolute value, [len(n.Bytes())]. *)
Definition big_len (n : Z) : nat :=
  if n =? 0 then 0%nat else Z.to_nat (Z.log2 (Z.abs n) / 8 + 1).

(** [Int.Bytes]. *)
Definition big_Bytes (n : Z) : list byte := be_put (big_len n) (Z.abs n).

(** [Int.SetBytes] is [be_get]. *)
Definition big_SetBytes (bs : list byte) : Z := be_get bs.

Lemma pow_256_2 k : 0 <= k -> 256 ^ k = 2 ^ (8 * k).
Proof. intros Hk. change 256 with (2 ^ 8). by rewrite <- Z.pow_mul_r by lia. Qed.

Lemma big_len_pos n : n <> 0 -> Z.of_nat (big_len n) = Z.log2 (Z.abs n) / 8 + 1.
Proof.
  intros Hn. unfold big_len. destruct (Z.eqb_spec n 0); [done|].
  pose proof (Z.log2_nonneg (Z.abs n)).
  rewrite Z2Nat.id; [done|]. pose proof (Z.div_pos (Z.log2 (Z.abs n)) 8). lia.
Qed.

(** The length is the least one that holds the number. *)
Lemma big_len_spec n :
  n <> 0 ->
  256 ^ (Z.of_nat (big_len n) - 1) <= Z.abs n < 256 ^ Z.of_nat (big_len n).
Proof.
  intros Hn. rewrite big_len_pos by done.
  set (l := Z.log2 (Z.abs n)).
  assert (0 <= l) by apply Z.log2_nonneg.
  assert (Hl : 2 ^ l <= Z.abs n < 2 ^ Z.succ l) by (apply Z.log2_spec; lia).
  pose proof (Z.div_pos l 8). pose proof (Z.div_mod l 8). pose proof (Z.mod_pos_bound l 8).
  rewrite !pow_256_2 by lia. split.
  - etrans; [|apply Hl]. apply Z.pow_le_mono_r; lia.
  - eapply Z.lt_le_trans; [apply Hl|]. apply Z.pow_le_mono_r; lia.
Qed.

Lemma big_len_bound n : Z.abs n < 256 ^ Z.of_nat (big_len n).
Proof.
  destruct (decide (n = 0)) as [->|Hn]; [done|]. by apply big_len_spec.
Qed.

(** It is determined by these bounds. *)
Lemma big_len_unique n k :
  0 < n -> 256 ^ (Z.of_nat k - 1) <= n < 256 ^ Z.of_nat k -> (0 < k)%nat -> big_len n = k.
Proof.
  intros Hn Hk H0. pose proof (big_len_spec n ltac:(lia)) as Hs.
  rewrite Z.abs_eq in Hs by lia.
  assert (Hlt : forall a b, 0 <= a -> 0 <= b -> 256 ^ a < 256 ^ b -> a < b).
  { intros a b Ha Hb Hab. apply (Z.pow_lt_mono_r_iff 256); lia. }
  assert (Z.of_nat (big_len n) - 1 < Z.of_nat k).
  { destruct (big_len n) as [|m] eqn:E; [lia|]. apply Hlt; lia. }
  assert (Z.of_nat k - 1 < Z.of_nat (big_len n)) by (apply Hlt; lia).
  lia.
Qed.

Lemma big_len_0 n : big_len n = 0%nat <-> n = 0.
Proof.
  split; [|by intros ->]. intros H. destruct (decide (n = 0)) as [|Hn]; [done|].
  pose proof (big_len_pos n Hn). pose proof (Z.log2_nonneg (Z.abs n)).
  pose proof (Z.div_pos (Z.log2 (Z.abs n)) 8). lia.
Qed.

Lemma length_big_Bytes n : length (big_Bytes n) = big_len n.
Proof. apply length_be_put. Qed.

(** ** Round trips *)

Lemma SetBytes_Bytes n : 0 <= n -> big_SetBytes (big_Bytes n) = n.
Proof.
  intros Hn. unfold big_SetBytes, big_Bytes. rewrite Z.abs_eq by done.
  apply be_get_put. split; [done|]. rewrite <- (Z.abs_eq n) at 1 by done.
  apply big_len_bound.
Qed.

Lemma SetBytes_nonneg bs : 0 <= big_SetBytes bs.
Proof. apply be_get_range. Qed.

Lemma be_get_cons b bs :
  be_get (b :: bs) = b2z b * 256 ^ Z.of_nat (length bs) + be_get bs.
Proof.
  unfold be_get. simpl. rewrite <- (length_rev bs). generalize (rev bs) as l.
  intros l. induction l as [|c l IH]; cbn [app length].
  - rewrite le_get_1. change (256 ^ Z.of_nat 0) with 1. change (le_get []) with 0. lia.
  - assert (Hc : forall x y, le_get (x :: y) = b2z x + 256 * le_get y) by reflexivity.
    rewrite !Hc, IH, pow_256_S. lia.
Qed.

Lemma be_get_app xs ys :
  be_get (xs ++ ys) = be_get xs * 256 ^ Z.of_nat (length ys) + be_get ys.
Proof.
  induction xs as [|x xs IH]; cbn [app].
  - change (be_get []) with 0. lia.
  - rewrite !be_get_cons, IH, length_app, Nat2Z.inj_add, Z.pow_add_r by lia. lia.
Qed.

(** Leading zero bytes. *)
Fixpoint zero_prefix (bs : list byte) : nat :=
  match bs with
  | b :: bs' => if bool_decide (b = x00) then S (zero_prefix bs') else 0%nat
  | [] => 0%nat
  end.

Lemma b2z_0 b : b2z b = 0 <-> b = x00.
Proof.
  split; [|by intros ->]. intros H. apply b2z_inj. by rewrite H.
Qed.

Lemma zero_prefix_split bs :
  bs = repeat x00 (zero_prefix bs) ++ drop (zero_prefix bs) bs /\
  match drop (zero_prefix bs) bs with [] => True | b :: _ => b <> x00 end.
Proof.
  induction bs as [|b bs [IH1 IH2]]; simpl; [done|].
  case_bool_decide as Hb; simpl.
  - subst b. split; [by f_equal|done].
  - done.
Qed.

Lemma be_get_zeros n bs : be_get (repeat x00 n ++ bs) = be_get bs.
Proof.
  induction n as [|n IH]; [done|]. cbn [repeat app].
  rewrite be_get_cons, IH. change (b2z x00) with 0. lia.
Qed.

(** The bytes of a number that starts with a non-zero byte are its own bytes. *)
Lemma Bytes_SetBytes_nz b bs :
  b <> x00 -> big_Bytes (big_SetBytes (b :: bs)) = b :: bs.
Proof.
  intros Hb. unfold big_Bytes, big_SetBytes.
  pose proof (b2z_range b). assert (b2z b <> 0) by by rewrite b2z_0.
  pose proof (be_get_range (b :: bs)) as Hr. pose proof (be_get_range bs) as Hr'.
  assert (Hlo : 256 ^ Z.of_nat (length bs) <= be_get (b :: bs)).
  { rewrite be_get_cons. nia. }
  assert (0 < 256 ^ Z.of_nat (length bs)) by (apply Z.pow_pos_nonneg; lia).
  rewrite (big_len_unique _ (length (b :: bs))).
  - rewrite Z.abs_eq by lia. apply be_put_get.
  - lia.
  - split; [|apply Hr]. cbn [length]. rewrite Nat2Z.inj_succ.
    replace (Z.succ (Z.of_nat (length bs)) - 1) with (Z.of_nat (length bs)) by lia. done.
  - simpl. lia.
Qed.

(** In general the leading zeros are lost, and nothing else. *)
Lemma Bytes_SetBytes bs :
  big_Bytes (big_SetBytes bs) = drop (zero_prefix bs) bs.
Proof.
  destruct (zero_prefix_split bs) as [Hs Hd].
  unfold big_SetBytes. rewrite Hs at 1. rewrite be_get_zeros.
  destruct (drop (zero_prefix bs) bs) as [|b l]; [done|].
  by apply Bytes_SetBytes_nz.
Qed.

Lemma big_Bytes_head n : 0 <= n -> match big_Bytes n with [] => True | b :: _ => b <> x00 end.
Proof.
  intros Hn. rewrite <- (SetBytes_Bytes n Hn), Bytes_SetBytes. apply zero_prefix_split.
Qed.

(** Appending a byte to the bytes of a positive number shifts it. *)
Lemma big_Bytes_snoc n b : 0 < n -> big_Bytes (n * 256 + b2z b) = big_Bytes n ++ [b].
Proof.
  intros Hn. pose proof (big_Bytes_head n ltac:(lia)) as Hh.
  destruct (big_Bytes n) as [|c l] eqn:E.
  - assert (n = 0); [|lia]. rewrite <- (SetBytes_Bytes n), E by lia. done.
  - cbn [app]. rewrite <- (Bytes_SetBytes_nz c (l ++ [b])) by done. f_equal.
    unfold big_SetBytes. change (c :: l ++ [b]) with ((c :: l) ++ [b]).
    rewrite be_get_app, <- E. change (be_get (big_Bytes n)) with (big_SetBytes (big_Bytes n)).
    rewrite SetBytes_Bytes by lia. cbn [length]. change (256 ^ Z.of_nat 1) with 256.
    rewrite be_get_cons. change (be_get []) with 0. change (256 ^ Z.of_nat (length [])) with 1. lia.
Qed.

#[export] Hint Resolve SetBytes_nonneg : nogo.
#[global] Opaque big_Bytes big_SetBytes.
