(* ===== verification/Base58.v ===== *)
(** * Base58 ([address/base58])

    [Encode] and [Decode] of [base58.go] with the tables of [alphabet.go], and the
    checksummed form of [base58check.go].

    The code does not divide by 58 one digit at a time: it splits the number into
    blocks of ten digits, which fit a machine word, and treats the last block
    apart so as not to emit zeros in front.  [encode_loop] and [decode_loop] follow
    that; [value58] and [canonical] are the reference they are compared with.
    Strings are lists of bytes.  The loop of [Decode] ranges over the runes of a
    slice; a byte from 128 on starts a rune above 127 or an invalid one, which the
    code reads as 65533, and both end in the empty answer, as the table holds 255
    from 128 on: [decode_chunk] reads bytes. *)

From Stdlib Require Import ZArith Lia.
From S2P Require Import Prelude ChainHash GoBig.
Open Scope Z_scope.

(** ** The tables *)

Definition alphabet : list byte :=
  bytes_of "123456789ABCDEFGHJKLMNPQRSTUVWXYZabcdefghijkmnopqrstuvwxyz".

Definition alphabetIdx0 : byte := x31.

Definition b58 : list Z :=
  [255; 255; 255; 255; 255; 255; 255; 255;
   255; 255; 255; 255; 255; 255; 255; 255;
   255; 255; 255; 255; 255; 255; 255; 255;
   255; 255; 255; 255; 255; 255; 255; 255;
   255; 255; 255; 255; 255; 255; 255; 255;
   255; 255; 255; 255; 255; 255; 255; 255;
   255; 0; 1; 2; 3; 4; 5; 6;
   7; 8; 255; 255; 255; 255; 255; 255;
   255; 9; 10; 11; 12; 13; 14; 15;
   16; 255; 17; 18; 19; 20; 21; 255;
   22; 23; 24; 25; 26; 27; 28; 29;
   30; 31; 32; 255; 255; 255; 255; 255;
   255; 33; 34; 35; 36; 37; 38; 39;
   40; 41; 42; 43; 255; 44; 45; 46;
   47; 48; 49; 50; 51; 52; 53; 54;
   55; 56; 57; 255; 255; 255; 255; 255] ++ repeat 255 128%nat.

(** [bigRadix] and [bigRadix10]. *)
Definition bigRadix : list Z :=
  [0; 58; 58 * 58; 58 * 58 * 58; 58 * 58 * 58 * 58; 58 * 58 * 58 * 58 * 58;
   58 * 58 * 58 * 58 * 58 * 58; 58 * 58 * 58 * 58 * 58 * 58 * 58;
   58 * 58 * 58 * 58 * 58 * 58 * 58 * 58;
   58 * 58 * 58 * 58 * 58 * 58 * 58 * 58 * 58;
   58 * 58 * 58 * 58 * 58 * 58 * 58 * 58 * 58 * 58].

Definition bigRadix10 : Z := 58 * 58 * 58 * 58 * 58 * 58 * 58 * 58 * 58 * 58.

(** [alphabet[d]]; the digits the code looks up are remainders by 58. *)
Definition alphabet_at (d : Z) : byte := nth (Z.to_nat d) alphabet x00.
Definition b58_at (c : byte) : Z := nth (Z.to_nat (b2z c)) b58 255.

(** ** Decoding *)

(** One block of at most ten characters, [total] a [uint64]; [None] is the
    early return of the empty string. *)
Fixpoint decode_chunk (t : list byte) (total : Z) : option Z :=
  match t with
  | [] => Some total
  | v :: t' =>
      let tmp := b58_at v in
      if tmp =? 255 then None
      else decode_chunk t' (wrap_u64 (total * 58 + tmp))
  end.

(** The loop over the blocks; every turn removes at least one character. *)
Fixpoint decode_loop (fuel : nat) (t : list byte) (answer : Z) : option Z :=
  match fuel with
  | O => None
  | S fuel' =>
      if bool_decide (t = []) then Some answer
      else
        let n := Nat.min (length t) 10 in
        match decode_chunk (take n t) 0 with
        | None => None
        | Some total => decode_loop fuel' (drop n t) (answer * nth n bigRadix 0 + total)
        end
  end.

(** The leading characters that stand for zero bytes. *)
Fixpoint count_idx0 (b : list byte) : nat :=
  match b with
  | c :: b' => if bool_decide (c = alphabetIdx0) then S (count_idx0 b') else 0%nat
  | [] => 0%nat
  end.

Definition Decode (b : list byte) : list byte :=
  match decode_loop (S (length b)) b 0 with
  | None => []
  | Some answer =>
      let tmpval := big_Bytes answer in
      let numZeros := count_idx0 b in
      repeat x00 numZeros ++ tmpval
  end.

(** ** Encoding *)

(** [for m > 0 { append(alphabet[m%58]); m /= 58 }]; a block is below [58^10], so
    ten turns are enough. *)
Fixpoint append_digits (fuel : nat) (m : Z) (answer : list byte) : list byte :=
  match fuel with
  | O => answer
  | S fuel' =>
      if 0 <? m then append_digits fuel' (m / 58) (answer ++ [alphabet_at (m mod 58)])
      else answer
  end.

(** [for i := 0; i < 10; i++ { ... }]. *)
Fixpoint append_block (n : nat) (m : Z) (answer : list byte) : list byte :=
  match n with
  | O => answer
  | S n' => append_block n' (m / 58) (answer ++ [alphabet_at (m mod 58)])
  end.

Fixpoint encode_loop (fuel : nat) (x : Z) (answer : list byte) : option (list byte) :=
  match fuel with
  | O => None
  | S fuel' =>
      if 0 <? x then
        let m := x mod bigRadix10 in
        let x' := x / bigRadix10 in
        if x' =? 0 then encode_loop fuel' x' (append_digits 10 m answer)
        else encode_loop fuel' x' (append_block 10 m answer)
      else Some answer
  end.

(** The loop that appends a character for every leading zero byte. *)
Fixpoint append_zeros (b : list byte) (answer : list byte) : list byte :=
  match b with
  | i :: b' =>
      if bool_decide (i = x00) then append_zeros b' (answer ++ [alphabetIdx0]) else answer
  | [] => answer
  end.

(** The fuel of two more turns than bytes is enough, as [Encode_total] shows. *)
Definition Encode (b : list byte) : option (list byte) :=
  answer ← encode_loop (length b + 2) (big_SetBytes b) [];
  Some (rev (append_zeros b answer)).

(** ** The checksummed form *)

Inductive CheckError := ErrChecksum | ErrInvalidFormat.

Definition checksum (input : list byte) : list byte :=
  take 4 (sha256_Sum256 (sha256_Sum256 input)).

Definition CheckEncode (input : list byte) (version : byte) : option (list byte) :=
  let b := version :: input in
  Encode (b ++ checksum b).

Definition CheckDecode (input : list byte) : result CheckError (list byte * byte) :=
  let decoded := Decode input in
  if (length decoded <? 5)%nat then Err ErrInvalidFormat
  else
    let version := nth 0 decoded x00 in
    let cksum := drop (length decoded - 4) decoded in
    if bool_decide (checksum (take (length decoded - 4) decoded) = cksum)
    then Ok (drop 1 (take (length decoded - 4) decoded), version)
    else Err ErrChecksum.

(** ** Reference: little endian digits *)

Fixpoint value58 (ds : list Z) : Z :=
  match ds with
  | [] => 0
  | d :: ds' => d + 58 * value58 ds'
  end.

Definition digits_ok (ds : list Z) : Prop := Forall (fun d => 0 <= d < 58) ds.

(** No zero at the most significant end. *)
Definition canonical (ds : list Z) : Prop :=
  digits_ok ds /\ stdpp.list_basics.list.last ds <> Some 0.

Lemma value58_app xs ys : value58 (xs ++ ys) = value58 xs + 58 ^ Z.of_nat (length xs) * value58 ys.
Proof.
  induction xs as [|x xs IH]; cbn [app length value58].
  - change (58 ^ Z.of_nat 0) with 1. lia.
  - rewrite IH, Nat2Z.inj_succ, Z.pow_succ_r by lia. lia.
Qed.

Lemma value58_range ds : digits_ok ds -> 0 <= value58 ds < 58 ^ Z.of_nat (length ds).
Proof.
  induction 1 as [|d ds Hd _ IH]; cbn [length value58]; [done|].
  rewrite Nat2Z.inj_succ, Z.pow_succ_r by lia. lia.
Qed.

Lemma canonical_cons d ds : canonical (d :: ds) -> (0 <= d < 58) /\ canonical ds /\ (ds = [] -> d <> 0).
Proof.
  intros [Hd Hl]. inversion Hd as [|?? Hd1 Hd2]. subst. split; [done|].
  destruct ds as [|d' ds].
  - split; [done|]. intros _ ->. by apply Hl.
  - split; [split; done|done].
Qed.

Lemma canonical_pos ds : canonical ds -> ds <> [] -> 0 < value58 ds.
Proof.
  induction ds as [|d ds IH]; intros Hc Hn; [done|].
  apply canonical_cons in Hc as (Hd & Hc & Hz). cbn [value58].
  destruct ds as [|d' ds]; [specialize (Hz eq_refl); cbn; lia|].
  specialize (IH Hc ltac:(done)). lia.
Qed.

(** A number has one canonical form. *)
Lemma canonical_unique xs ys :
  canonical xs -> canonical ys -> value58 xs = value58 ys -> xs = ys.
Proof.
  revert ys. induction xs as [|x xs IH]; intros [|y ys] Hx Hy Hv; [done| | |].
  - pose proof (canonical_pos _ Hy ltac:(done)). cbn in *. lia.
  - pose proof (canonical_pos _ Hx ltac:(done)). cbn in *. lia.
  - apply canonical_cons in Hx as (Hx & Hcx & _). apply canonical_cons in Hy as (Hy & Hcy & _).
    cbn [value58] in Hv. assert (x = y) by lia. subst y. f_equal. apply IH; [done..|lia].
Qed.

(** ** The tables are inverse to each other *)

Lemma b58_alphabet_at d : 0 <= d < 58 -> b58_at (alphabet_at d) = d.
Proof.
  intros Hd.
  assert (Hall : forallb (fun n => b58_at (alphabet_at (Z.of_nat n)) =? Z.of_nat n) (seq 0%nat 58%nat) = true)
    by (vm_compute; done).
  rewrite forallb_forall in Hall. specialize (Hall (Z.to_nat d)).
  rewrite in_seq, Z2Nat.id in Hall by lia. apply Z.eqb_eq, Hall. lia.
Qed.

Lemma alphabet_b58_at c : b58_at c <> 255 -> 0 <= b58_at c < 58 /\ alphabet_at (b58_at c) = c.
Proof.
  assert (Hall : forallb (fun n => let c := z2b (Z.of_nat n) in
      (b58_at c =? 255) || ((0 <=? b58_at c) && (b58_at c <? 58) && bool_decide (alphabet_at (b58_at c) = c)))
      (seq 0%nat 256%nat) = true) by (vm_compute; done).
  intros Hc. rewrite forallb_forall in Hall. specialize (Hall (Z.to_nat (b2z c))).
  pose proof (b2z_range c). rewrite in_seq, Z2Nat.id, z2b_b2z in Hall by lia.
  specialize (Hall ltac:(lia)). cbv zeta in Hall.
  apply orb_true_iff in Hall as [Hall|Hall]; [apply Z.eqb_eq in Hall; done|].
  apply andb_true_iff in Hall as [Hall Hb]. apply andb_true_iff in Hall as [Ha1 Ha2].
  apply bool_decide_eq_true in Hb. split; [lia|done].
Qed.

Lemma alphabet_at_idx0 d : 0 <= d < 58 -> alphabet_at d = alphabetIdx0 <-> d = 0.
Proof.
  intros Hd. split; [|by intros ->]. intros H.
  rewrite <- (b58_alphabet_at d Hd), H. done.
Qed.

(** ** Encoding computes the canonical digits *)

Lemma append_digits_spec fuel m answer :
  0 <= m < 58 ^ Z.of_nat fuel ->
  exists ds, append_digits fuel m answer = answer ++ map alphabet_at ds /\
    canonical ds /\ value58 ds = m.
Proof.
  revert m answer. induction fuel as [|fuel IH]; intros m answer Hm.
  - change (58 ^ Z.of_nat 0) with 1 in Hm.
    exists []. cbn. rewrite app_nil_r. repeat split; [constructor|done|lia].
  - rewrite Nat2Z.inj_succ, Z.pow_succ_r in Hm by lia. cbn [append_digits].
    destruct (Z.ltb_spec 0 m).
    + destruct (IH (m / 58) (answer ++ [alphabet_at (m mod 58)])) as (ds & -> & [Hd Hl] & Hv).
      { split; [apply Z.div_pos; lia|apply Z.div_lt_upper_bound; lia]. }
      pose proof (Z.div_mod m 58). pose proof (Z.mod_pos_bound m 58).
      exists (m mod 58 :: ds). rewrite <- app_assoc. split; [done|].
      cbn [value58]. split; [|lia]. split; [constructor; [lia|done]|].
      destruct ds as [|d ds]; [|done]. cbn in Hv |- *. intros [= Hz]. lia.
    + exists []. cbn. rewrite app_nil_r. repeat split; [constructor|done|lia].
Qed.

Lemma append_block_spec n m answer :
  0 <= m < 58 ^ Z.of_nat n ->
  exists ds, append_block n m answer = answer ++ map alphabet_at ds /\
    digits_ok ds /\ length ds = n /\ value58 ds = m.
Proof.
  revert m answer. induction n as [|n IH]; intros m answer Hm.
  - change (58 ^ Z.of_nat 0) with 1 in Hm.
    exists []. cbn. rewrite app_nil_r. repeat split; [constructor|lia].
  - rewrite Nat2Z.inj_succ, Z.pow_succ_r in Hm by lia. cbn [append_block].
    destruct (IH (m / 58) (answer ++ [alphabet_at (m mod 58)])) as (ds & -> & Hd & Hl & Hv).
    { split; [apply Z.div_pos; lia|apply Z.div_lt_upper_bound; lia]. }
    pose proof (Z.div_mod m 58). pose proof (Z.mod_pos_bound m 58).
    exists (m mod 58 :: ds). rewrite <- app_assoc. split; [done|].
    split; [constructor; [lia|done]|]. cbn [value58 length]. split; [by rewrite Hl|lia].
Qed.

Lemma last_app_ne {A} (xs ys : list A) :
  ys <> [] -> stdpp.list_basics.list.last (xs ++ ys) = stdpp.list_basics.list.last ys.
Proof.
  intros Hn. rewrite stdpp.list_basics.list.last_app.
  destruct (stdpp.list_basics.list.last ys) eqn:E; [done|].
  by apply last_None in E.
Qed.

Lemma encode_loop_spec fuel x answer :
  0 <= x < bigRadix10 ^ Z.of_nat fuel ->
  exists ds, encode_loop (S fuel) x answer = Some (answer ++ map alphabet_at ds) /\
    canonical ds /\ value58 ds = x.
Proof.
  revert x answer. induction fuel as [|fuel IH]; intros x answer Hx.
  - change (bigRadix10 ^ Z.of_nat 0) with 1 in Hx. assert (x = 0) as -> by lia.
    exists []. cbn. rewrite app_nil_r. repeat split; [constructor|done].
  - rewrite Nat2Z.inj_succ, Z.pow_succ_r in Hx by lia.
    cbn [encode_loop]. destruct (Z.ltb_spec 0 x).
    2: { exists []. cbn. rewrite app_nil_r. repeat split; [constructor|done|lia]. }
    assert (HB : bigRadix10 = 58 ^ Z.of_nat 10) by reflexivity.
    assert (0 < bigRadix10) by done.
    pose proof (Z.div_mod x bigRadix10). pose proof (Z.mod_pos_bound x bigRadix10).
    assert (Hx' : 0 <= x / bigRadix10 < bigRadix10 ^ Z.of_nat fuel).
    { split; [apply Z.div_pos; lia|apply Z.div_lt_upper_bound; lia]. }
    destruct (Z.eqb_spec (x / bigRadix10) 0) as [Hz|Hz].
    + destruct (append_digits_spec 10 (x mod bigRadix10) answer ltac:(lia)) as (ds & -> & Hc & Hv).
      rewrite Hz. exists ds. split; [done|]. split; [done|lia].
    + destruct (append_block_spec 10 (x mod bigRadix10) answer ltac:(lia)) as (ds & -> & Hd & Hl & Hv).
      destruct (IH (x / bigRadix10) (answer ++ map alphabet_at ds) Hx') as (es & Hes & [Hc1 Hc2] & He).
      exists (ds ++ es). rewrite map_app, app_assoc. split; [apply Hes|].
      rewrite value58_app, Hl, Hv, He, <- HB. split; [|lia].
      clear HB Hx' Hx IH. split; [apply Forall_app; split; [exact Hd|exact Hc1]|].
      rewrite last_app_ne; [exact Hc2|].
      intros ->. cbn in He. lia.
Qed.

Lemma append_zeros_spec b answer :
  append_zeros b answer = answer ++ repeat alphabetIdx0 (zero_prefix b).
Proof.
  revert answer. induction b as [|i b IH]; intros answer; cbn [append_zeros zero_prefix].
  - by rewrite app_nil_r.
  - case_bool_decide; cbn [repeat]; [rewrite IH, <- app_assoc; done|by rewrite app_nil_r].
Qed.

Lemma pow_256_bigRadix10 (n : nat) : 256 ^ Z.of_nat n <= bigRadix10 ^ Z.of_nat (S n).
Proof.
  assert (Hb : 256 <= bigRadix10) by done. revert Hb. generalize bigRadix10 as B. intros B Hb.
  etrans; [apply (Z.pow_le_mono_l _ B); lia|]. apply Z.pow_le_mono_r; lia.
Qed.

(** Most significant digit first. *)
Definition chars (ds : list Z) : list byte := map alphabet_at (rev ds).

Lemma Encode_spec b :
  exists ds, Encode b = Some (repeat alphabetIdx0 (zero_prefix b) ++ chars ds) /\
    canonical ds /\ value58 ds = big_SetBytes b.
Proof.
  unfold Encode. replace (length b + 2)%nat with (S (S (length b))) by lia.
  destruct (encode_loop_spec (S (length b)) (big_SetBytes b) []) as (ds & -> & Hc & Hv).
  { split; [apply SetBytes_nonneg|].
    eapply Z.lt_le_trans; [apply be_get_range|].
    apply pow_256_bigRadix10. }
  exists ds. split; [|done]. cbn. f_equal. unfold chars.
  rewrite append_zeros_spec, rev_app_distr. f_equal; [|by rewrite map_rev].
  generalize (zero_prefix b) as n. intros n. induction n as [|n IH]; [done|].
  cbn [repeat rev]. rewrite IH. symmetry. apply (repeat_cons n alphabetIdx0).
Qed.

(** ** Decoding is Horner's rule *)

Definition horner (ds : list Z) (acc : Z) : Z := foldl (fun a d => a * 58 + d) acc ds.

Lemma horner_value ds acc :
  horner ds acc = acc * 58 ^ Z.of_nat (length ds) + value58 (rev ds).
Proof.
  revert acc. induction ds as [|d ds IH]; intros acc; unfold horner in *; cbn [foldl length rev].
  - change (58 ^ Z.of_nat 0) with 1. cbn. lia.
  - rewrite IH, value58_app, length_rev, Nat2Z.inj_succ, Z.pow_succ_r by lia. cbn [value58]. lia.
Qed.

Definition valid (s : list byte) : Prop := Forall (fun c => b58_at c <> 255) s.

#[export] Instance valid_dec s : Decision (valid s).
Proof. apply Forall_dec. intros c. destruct (Z.eq_dec (b58_at c) 255); [right|left]; tauto. Defined.

Lemma digits_ok_valid s : valid s -> digits_ok (map b58_at s).
Proof. induction 1; constructor; [|done]. by apply alphabet_b58_at. Qed.

Lemma decode_chunk_spec t total :
  valid t -> 0 <= total -> (total + 1) * 58 ^ Z.of_nat (length t) <= 2 ^ 64 ->
  decode_chunk t total = Some (horner (map b58_at t) total).
Proof.
  intros Hv. revert total. induction Hv as [|c t Hc Hv IH]; intros total H0 Hb; [done|].
  cbn [decode_chunk map]. destruct (Z.eqb_spec (b58_at c) 255); [done|].
  destruct (alphabet_b58_at c Hc) as [Hr _].
  cbn [length] in Hb. rewrite Nat2Z.inj_succ, Z.pow_succ_r in Hb by lia.
  assert (1 <= 58 ^ Z.of_nat (length t)) by (apply (Z.pow_le_mono_r 58 0); lia).
  unfold wrap_u64. rewrite Z.mod_small by (split; [lia|nia]).
  rewrite IH; [done|lia|]. nia.
Qed.

Lemma decode_chunk_invalid t total : ~ valid t -> decode_chunk t total = None.
Proof.
  revert total. induction t as [|c t IH]; intros total Hv; [destruct Hv; constructor|].
  cbn [decode_chunk]. destruct (Z.eqb_spec (b58_at c) 255); [done|]. cbv zeta.
  apply IH. intros Hv'. apply Hv. by constructor.
Qed.

Lemma bigRadix_nth n : (1 <= n <= 10)%nat -> nth n bigRadix 0 = 58 ^ Z.of_nat n.
Proof.
  intros Hn. do 11 (destruct n as [|n]; [try lia; reflexivity|]). lia.
Qed.

Lemma decode_loop_spec fuel t answer :
  (length t < fuel)%nat -> valid t ->
  decode_loop fuel t answer = Some (horner (map b58_at t) answer).
Proof.
  revert t answer. induction fuel as [|fuel IH]; intros t answer Hf Hv; [lia|].
  cbn [decode_loop]. case_bool_decide as Ht; [by subst t|].
  set (n := Nat.min (length t) 10).
  assert (Hn : (1 <= n <= 10)%nat) by (destruct t; [done|cbn in n; lia]).
  assert (Hl : length (take n t) = n) by (rewrite length_take; lia).
  rewrite decode_chunk_spec; [|by apply Forall_take|lia|].
  2: { rewrite Hl. etrans; [apply Z.mul_le_mono_nonneg_l;
         [lia|apply (Z.pow_le_mono_r 58 _ 10); lia]|]. vm_compute. congruence. }
  cbv zeta. rewrite IH; [|rewrite length_drop; lia|by apply Forall_drop].
  f_equal. rewrite bigRadix_nth by done.
  rewrite <- (take_drop n t) at 3. rewrite map_app. unfold horner. rewrite foldl_app.
  fold (horner (map b58_at (take n t)) 0) (horner (map b58_at (take n t)) answer).
  f_equal. rewrite !horner_value, length_map, Hl. lia.
Qed.

Lemma decode_loop_invalid fuel t answer : ~ valid t -> decode_loop fuel t answer = None.
Proof.
  revert t answer. induction fuel as [|fuel IH]; intros t answer Hv; [done|].
  cbn [decode_loop]. case_bool_decide as Ht; [subst; destruct Hv; constructor|].
  set (n := Nat.min (length t) 10).
  destruct (decide (valid (take n t))) as [Hv1|Hv1].
  - destruct (decode_chunk _ _) eqn:E; [|done]. apply IH. intros Hv2. apply Hv.
    rewrite <- (take_drop n t). by apply Forall_app.
  - by rewrite decode_chunk_invalid.
Qed.

(** The digits a string denotes, least significant first. *)
Definition digits_of (s : list byte) : list Z := rev (map b58_at s).

Lemma Decode_valid s :
  valid s -> Decode s = repeat x00 (count_idx0 s) ++ big_Bytes (value58 (digits_of s)).
Proof.
  intros Hv. unfold Decode. rewrite decode_loop_spec by (done || lia).
  rewrite horner_value. do 2 f_equal.
Qed.

Lemma Decode_invalid s : ~ valid s -> Decode s = [].
Proof. intros Hv. unfold Decode. by rewrite decode_loop_invalid. Qed.

(** ** Round trips *)

Lemma rev_canonical_head ds : canonical ds -> match rev ds with [] => True | d :: _ => 0 < d < 58 end.
Proof.
  destruct ds as [|d ds _] using rev_ind; [done|].
  rewrite rev_unit. intros [Hd Hl]. apply Forall_app in Hd as [_ Hd].
  rewrite stdpp.list_basics.list.last_snoc in Hl. inversion Hd. subst.
  assert (d <> 0) by congruence. lia.
Qed.

Lemma count_idx0_repeat n s :
  match s with [] => True | c :: _ => c <> alphabetIdx0 end ->
  count_idx0 (repeat alphabetIdx0 n ++ s) = n.
Proof.
  intros Hs. induction n as [|n IH]; cbn [repeat app count_idx0].
  - destruct s as [|c s]; [done|]. cbn. by rewrite bool_decide_eq_false_2.
  - rewrite bool_decide_eq_true_2 by done. by rewrite IH.
Qed.

Lemma chars_head ds :
  canonical ds -> match chars ds with [] => True | c :: _ => c <> alphabetIdx0 end.
Proof.
  intros Hc. unfold chars. pose proof (rev_canonical_head ds Hc) as Hh.
  destruct (rev ds) as [|d l]; [done|]. cbn [map]. rewrite alphabet_at_idx0; lia.
Qed.

Lemma valid_zeros n : valid (repeat alphabetIdx0 n).
Proof. apply Forall_forall. intros c ->%repeat_spec. by vm_compute. Qed.

Lemma valid_chars ds : digits_ok ds -> valid (chars ds).
Proof.
  intros Hd. unfold chars, valid. apply Forall_map, Forall_rev.
  eapply Forall_impl; [|exact Hd]. intros d Hr.
  change (0 <= d < 58) in Hr. change (b58_at (alphabet_at d) <> 255). rewrite b58_alphabet_at; lia.
Qed.

Lemma digits_of_chars ds : digits_ok ds -> digits_of (chars ds) = ds.
Proof.
  intros Hd. unfold digits_of, chars. rewrite map_map, <- map_rev, rev_involutive.
  rewrite <- (map_id ds) at 2. apply map_ext_in. intros d Hin.
  unfold digits_ok in Hd. rewrite Forall_forall in Hd. by apply b58_alphabet_at, Hd.
Qed.

Lemma value58_zeros ds n : value58 (ds ++ repeat 0 n) = value58 ds.
Proof.
  rewrite value58_app. replace (value58 (repeat 0 n)) with 0; [lia|].
  induction n as [|n IH]; [done|]. cbn [repeat value58]. lia.
Qed.

Lemma digits_of_app xs ys : digits_of (xs ++ ys) = digits_of ys ++ digits_of xs.
Proof. unfold digits_of. by rewrite map_app, rev_app_distr. Qed.

Lemma digits_of_zeros n : digits_of (repeat alphabetIdx0 n) = repeat 0 n.
Proof.
  unfold digits_of. induction n as [|n IH]; [done|]. cbn [repeat map rev]. rewrite IH.
  symmetry. apply (repeat_cons n 0).
Qed.

Lemma Encode_decodes (b : list byte) :
  exists s, Encode b = Some s /\ Decode s = b.
Proof.
  destruct (Encode_spec b) as (ds & -> & Hc & Hv). eexists. split; [done|].
  rewrite Decode_valid.
  2: { apply Forall_app. split; [apply valid_zeros|apply valid_chars, Hc]. }
  rewrite count_idx0_repeat by by apply chars_head.
  rewrite digits_of_app, digits_of_zeros, digits_of_chars, value58_zeros by apply Hc.
  rewrite Hv, Bytes_SetBytes. symmetry. apply zero_prefix_split.
Qed.

(** [Encode] answers on every string of bytes and [Decode] gives the string
    back, leading zero bytes included. *)
Theorem Decode_Encode (b : list byte) :
  exists s, Encode b = Some s /\ Decode s = b.
Proof. apply Encode_decodes. Qed.

Lemma count_idx0_split s :
  s = repeat alphabetIdx0 (count_idx0 s) ++ drop (count_idx0 s) s /\
  match drop (count_idx0 s) s with [] => True | c :: _ => c <> alphabetIdx0 end.
Proof.
  induction s as [|c s [IH1 IH2]]; simpl; [done|].
  case_bool_decide as Hc; simpl; [subst c; split; [by f_equal|done]|done].
Qed.

Lemma canonical_digits_of s :
  valid s -> match s with [] => True | c :: _ => c <> alphabetIdx0 end -> canonical (digits_of s).
Proof.
  intros Hv Hh. split; [by apply Forall_rev, digits_ok_valid|].
  unfold digits_of. destruct s as [|c s]; [done|]. cbn [map rev].
  rewrite stdpp.list_basics.list.last_snoc. intros [= Hz]. apply Hh.
  inversion Hv as [|?? Hc _]. subst. destruct (alphabet_b58_at c Hc) as [_ <-]. by rewrite Hz.
Qed.

Lemma chars_digits_of s : valid s -> chars (digits_of s) = s.
Proof.
  intros Hv. unfold chars, digits_of. rewrite rev_involutive, map_map.
  rewrite <- (map_id s) at 2. apply map_ext_in. intros c Hin.
  unfold valid in Hv. rewrite Forall_forall in Hv. apply alphabet_b58_at. by apply Hv.
Qed.

Lemma zero_prefix_repeat n bs :
  match bs with [] => True | b :: _ => b <> x00 end -> zero_prefix (repeat x00 n ++ bs) = n.
Proof.
  intros Hs. induction n as [|n IH]; cbn [repeat app zero_prefix].
  - destruct bs as [|c s]; [done|]. cbn. by rewrite bool_decide_eq_false_2.
  - rewrite bool_decide_eq_true_2 by done. by rewrite IH.
Qed.

(** a string over the alphabet is the encoding of what it decodes to, so
    [Decode] is injective on the strings it accepts; all others give the empty
    answer. *)
Theorem Encode_Decode (s : list byte) :
  (valid s -> Encode (Decode s) = Some s) /\ (~ valid s -> Decode s = []).
Proof.
  split; [|apply Decode_invalid]. intros Hv.
  destruct (count_idx0_split s) as [Hs Hh]. set (n := count_idx0 s) in *.
  assert (Hvd : valid (drop n s)) by by apply Forall_drop.
  assert (Hval : value58 (digits_of s) = value58 (digits_of (drop n s))).
  { rewrite Hs at 1. by rewrite digits_of_app, digits_of_zeros, value58_zeros. }
  rewrite Decode_valid by done. fold n. rewrite Hval.
  destruct (canonical_digits_of _ Hvd Hh) as [Hd Hl].
  pose proof (value58_range _ Hd) as Hr.
  destruct (Encode_spec (repeat x00 n ++ big_Bytes (value58 (digits_of (drop n s)))))
    as (ds & -> & Hc & Hvd').
  rewrite zero_prefix_repeat by (apply big_Bytes_head; lia).
  assert (Hb : big_SetBytes (repeat x00 n ++ big_Bytes (value58 (digits_of (drop n s)))) =
    value58 (digits_of (drop n s))).
  { etrans; [apply be_get_zeros|]. apply SetBytes_Bytes. lia. }
  rewrite (canonical_unique ds (digits_of (drop n s)) Hc ltac:(done)) by congruence.
  rewrite chars_digits_of by done. by rewrite <- Hs.
Qed.

(** ** The checksummed form *)

Lemma length_checksum input : length (checksum input) = 4%nat.
Proof.
  unfold checksum. rewrite length_take, length_sha256_Sum256. done.
Qed.

(** [CheckDecode] recovers payload and version from what [CheckEncode] made. *)
Theorem CheckDecode_CheckEncode (input : list byte) (version : byte) :
  exists s, CheckEncode input version = Some s /\ CheckDecode s = Ok (input, version).
Proof.
  unfold CheckEncode. set (b := version :: input).
  destruct (Encode_decodes (b ++ checksum b)) as (s & -> & Hd). exists s. split; [done|].
  unfold CheckDecode. rewrite Hd.
  assert (Hl : length (b ++ checksum b) = (length b + 4)%nat)
    by by rewrite length_app, length_checksum.
  rewrite Hl. nat_bool; [cbn in *; lia|].
  replace (length b + 4 - 4)%nat with (length b) by lia.
  rewrite take_app_length, drop_app_length.
  rewrite bool_decide_eq_true_2 by done. done.
Qed.

Lemma CheckDecode_encodes (s input : list byte) (version : byte) :
  CheckDecode s = Ok (input, version) -> CheckEncode input version = Some s.
Proof.
  unfold CheckDecode. destruct (Nat.ltb_spec (length (Decode s)) 5); [done|].
  case_bool_decide as Hc; [|done]. intros [= Hi Hv].
  destruct (decide (valid s)) as [Hs|Hs].
  2: { rewrite Decode_invalid in * by done. cbn in *. lia. }
  destruct (Encode_Decode s) as [He _]. specialize (He Hs).
  unfold CheckEncode.
  assert (Hb : version :: input = take (length (Decode s) - 4) (Decode s)).
  { subst. destruct (Decode s) as [|d l]; [cbn in *; lia|].
    destruct (length (d :: l) - 4)%nat eqn:E; [cbn [length] in *; lia|]. done. }
  rewrite Hb, Hc, take_drop. done.
Qed.

(** [CheckDecode] accepts nothing but what [CheckEncode] makes. *)
Theorem CheckDecode_sound (s input : list byte) (version : byte) :
  CheckDecode s = Ok (input, version) -> CheckEncode input version = Some s.
Proof. apply CheckDecode_encodes. Qed.

Lemma CheckDecode_sound_witness :
  CheckDecode (bytes_of "3MNQE1X") = Ok ([], x14) /\
  CheckEncode [] x14 = Some (bytes_of "3MNQE1X").
Proof.
  assert (H : CheckDecode (bytes_of "3MNQE1X") = Ok ([], x14)) by (vm_compute; reflexivity).
  split; [exact H|]. exact (CheckDecode_sound _ _ _ H).
Defined.

(** Vectors of [base58_test.go]. *)
Example Encode_abc : Encode (bytes_of "abc") = Some (bytes_of "ZiCa").
Proof. vm_compute. reflexivity. Qed.

Example Encode_long :
  Encode (bytes_of "abcdefghijklmnopqrstuvwxyz") =
  Some (bytes_of "3yxU3u1igY8WkgtjK92fbJQCd4BZiiT1v25f").
Proof. vm_compute. reflexivity. Qed.

Example Decode_rejects : Decode (bytes_of "3mJr0") = [].
Proof. vm_compute. reflexivity. Qed.
