(* ===== verification/NogoTypes.v ===== *)
(** * Headers of NogoPow ([nogopow/types.go], [dse.go], [bridge.go])

    The block header, its two serializations (the concatenation that is hashed,
    and the deterministic encoding DSE), the conversion from and to the headers of
    the older code, and the compact form of a target.  A [big.Int] pointer is an
    [option Z].  Arrays are lists of bytes whose length [header_ok] fixes.

    Go checks the bounds of a slice expression against the capacity of the slice,
    not its length: [DSEDecodeHeader] gets the bytes of its argument and the
    [spare] bytes behind them, which a read past the end yields when there are
    enough of them; otherwise the code panics, [DSEPanic] here. *)

From Stdlib Require Import ZArith Lia.
From S2P Require Import Prelude ChainHash GoBig.
Open Scope Z_scope.

(** ** Data *)

Record Header := mkHeader {
  ParentHash : list byte;
  Coinbase : list byte;
  Root : list byte;
  TxHash : list byte;
  Number : option Z;
  GasLimit : Z;
  Time : Z;
  Extra : list byte;
  Nonce : list byte;
  Difficulty : option Z }.

(** What the Go types guarantee. *)
Record header_ok (h : Header) : Prop := {
  ParentHash_ok : length (ParentHash h) = 32%nat;
  Coinbase_ok : length (Coinbase h) = 20%nat;
  Root_ok : length (Root h) = 32%nat;
  TxHash_ok : length (TxHash h) = 32%nat;
  GasLimit_ok : u64_ok (GasLimit h);
  Time_ok : u64_ok (Time h);
  Nonce_ok : length (Nonce h) = 32%nat }.

(** The bytes a nil or present [big.Int] contributes to the hashed form. *)
Definition big_opt (n : option Z) : list byte :=
  match n with Some z => big_Bytes z | None => [] end.

(** ** The hashed form *)

Definition rlpEncode (h : Header) : list byte :=
  ParentHash h ++ Coinbase h ++ Root h ++ TxHash h ++ big_opt (Number h) ++
  be_put 8 (GasLimit h) ++ be_put 8 (Time h) ++ Extra h ++ Nonce h ++
  big_opt (Difficulty h).

Definition BytesToHash (b : list byte) : list byte :=
  let b := if (32 <? length b)%nat then drop (length b - 32) b else b in
  repeat x00 (32 - length b) ++ b.

Definition BigToHash (b : option Z) : list byte :=
  match b with None => repeat x00 32 | Some z => BytesToHash (big_Bytes z) end.

(** ** Compact targets *)

Definition CompactToBig (compact : Z) : Z :=
  let mantissa := Z.land compact 0x007fffff in
  let isNegative := negb (Z.land compact 0x00800000 =? 0) in
  let exponent := Z.shiftr compact 24 in
  let bn :=
    if exponent <=? 3 then Z.shiftr mantissa (8 * (3 - exponent))
    else Z.shiftl mantissa (8 * (exponent - 3)) in
  if isNegative then - bn else bn.

(** [n.Bits()[0]] is the low 64-bit word of the absolute value. *)
Definition low_word (n : Z) : Z := Z.abs n mod 2 ^ 64.

Definition BigToCompact (n : Z) : Z :=
  if n =? 0 then 0
  else
    let exponent := Z.of_nat (length (big_Bytes n)) in
    let mantissa :=
      if exponent <=? 3 then wrap_u32 (Z.shiftl (wrap_u32 (low_word n)) (8 * (3 - exponent)))
      else wrap_u32 (low_word (Z.shiftr n (8 * (exponent - 3)))) in
    let mantissa := Z.land mantissa 0x007fffff in
    let compact := Z.lor (wrap_u32 (wrap_u64 (Z.shiftl exponent 24))) mantissa in
    if n <? 0 then Z.lor compact 0x00800000 else compact.

(** ** DSE *)

Inductive DSEError :=
| DSENilHeader
| DSETooShort (got : nat)
| DSENumberBounds
| DSEExtraBounds
| DSEDifficultyBounds
| DSEPanic.

Definition DSEMinHeaderSize : nat := (32 + 32 + 32 + 32 + 8 + 8 + 32) + 2 + 1 + 2 + 0 + 2 + 1.

Definition PadAddressTo32 (addr : list byte) : list byte := repeat x00 12 ++ addr.
Definition UnpadAddressFrom32 (padded : list byte) : list byte := drop 12 padded.

(** The two byte length prefix, [AppendUint16(buf, uint16(n))]. *)
Definition put_len (n : nat) : list byte := be_put 2 (wrap_u16 (Z.of_nat n)).

Definition DSEEncodeHeader (h : option Header) : result DSEError (list byte) :=
  match h with
  | None => Err DSENilHeader
  | Some h =>
      match Number h, Difficulty h with
      | Some number, Some difficulty =>
          let numBytes := big_Bytes number in
          let diffBytes := big_Bytes difficulty in
          Ok (ParentHash h ++ PadAddressTo32 (Coinbase h) ++ Root h ++ TxHash h ++
              put_len (length numBytes) ++ numBytes ++
              be_put 8 (GasLimit h) ++ be_put 8 (Time h) ++
              put_len (length (Extra h)) ++ Extra h ++ Nonce h ++
              put_len (length diffBytes) ++ diffBytes)
      | _, _ => Err DSEPanic
      end
  end.

(** [data[pos:pos+n]] on a slice with the bytes [buf] up to its capacity. *)
Definition slice (buf : list byte) (pos n : nat) : result DSEError (list byte) :=
  if (pos + n <=? length buf)%nat then Ok (take n (drop pos buf)) else Err DSEPanic.

Definition read_len (buf : list byte) (pos : nat) : result DSEError nat :=
  b ← slice buf pos 2; Ok (Z.to_nat (be_get b)).

Definition guard_bounds (e : DSEError) (pos n len : nat) : result DSEError unit :=
  if (len <? pos + n)%nat then Err e else Ok ().

(** The fields one after the other, [len] the length of the slice. *)
Definition DSEDecodeFields (len : nat) (buf : list byte) : result DSEError Header :=
  let pos := 0%nat in
  parentHash ← slice buf pos 32;
  let pos := (pos + 32)%nat in
  coinbase32 ← slice buf pos 32;
  let pos := (pos + 32)%nat in
  root ← slice buf pos 32;
  let pos := (pos + 32)%nat in
  txHash ← slice buf pos 32;
  let pos := (pos + 32)%nat in
  numLen ← read_len buf pos;
  let pos := (pos + 2)%nat in
  _ ← guard_bounds DSENumberBounds pos numLen len;
  number ← slice buf pos numLen;
  let pos := (pos + numLen)%nat in
  gasLimit ← slice buf pos 8;
  let pos := (pos + 8)%nat in
  time ← slice buf pos 8;
  let pos := (pos + 8)%nat in
  extraLen ← read_len buf pos;
  let pos := (pos + 2)%nat in
  _ ← guard_bounds DSEExtraBounds pos extraLen len;
  extra ← slice buf pos extraLen;
  let pos := (pos + extraLen)%nat in
  nonce ← slice buf pos 32;
  let pos := (pos + 32)%nat in
  diffLen ← read_len buf pos;
  let pos := (pos + 2)%nat in
  _ ← guard_bounds DSEDifficultyBounds pos diffLen len;
  difficulty ← slice buf pos diffLen;
  Ok (mkHeader parentHash (UnpadAddressFrom32 coinbase32) root txHash
        (Some (big_SetBytes number)) (be_get gasLimit) (be_get time) extra nonce
        (Some (big_SetBytes difficulty))).

Definition DSEDecodeHeader (data spare : list byte) : result DSEError Header :=
  if (length data <? DSEMinHeaderSize)%nat then Err (DSETooShort (length data))
  else DSEDecodeFields (length data) (data ++ spare).

(** ** Addresses *)

Inductive AddressError := AddrInvalidHex | AddrInvalidLength (got : nat).

Definition StringToAddress (s : list byte) : result AddressError (list byte) :=
  let encoded :=
    if (4 <=? length s)%nat && bool_decide (take 4 s = bytes_of "NOGO") then drop 4 s else s in
  match hex_Decode encoded with
  | Err _ => Err AddrInvalidHex
  | Ok decoded =>
      if (length decoded <? 20)%nat then Err (AddrInvalidLength (length decoded))
      else Ok (take 20 decoded)
  end.

(** ** The bridge to the older headers *)

Record BTCDBlockHeader := mkBTCDBlockHeader {
  Version : Z;
  PrevBlock : list byte;
  MerkleRoot : list byte;
  Timestamp : Z;
  Bits : Z;
  BNonce : list byte;
  Height : Z;
  BCoinbase : list byte;
  StateRoot : list byte;
  ExtraData : list byte }.

Record btcd_ok (b : BTCDBlockHeader) : Prop := {
  Version_ok : i32_ok (Version b);
  Timestamp_ok : i64_ok (Timestamp b);
  Bits_ok : u32_ok (Bits b);
  Height_ok : i64_ok (Height b) }.

Definition FromBTCDHeader (btcd : option BTCDBlockHeader) (difficulty : option Z) : option Header :=
  match btcd with
  | None => None
  | Some b =>
      Some (mkHeader (PrevBlock b) (BCoinbase b) (StateRoot b) (MerkleRoot b)
              (Some (Height b)) (Bits b) (wrap_u64 (Timestamp b)) (ExtraData b)
              (BNonce b) difficulty)
  end.

Inductive BridgeError := BridgeNilHeader | BridgeNilNumber.

(** [big.Int.Int64]: the low 64 bits of the two's complement. *)
Definition big_Int64 (n : Z) : Z := to_signed 64 (n mod 2 ^ 64).

Definition ToBTCDHeader (h : option Header) : result BridgeError BTCDBlockHeader :=
  match h with
  | None => Err BridgeNilHeader
  | Some h =>
      match Number h with
      | None => Err BridgeNilNumber
      | Some number =>
          Ok (mkBTCDBlockHeader 1 (ParentHash h) (TxHash h) (to_signed 64 (Time h))
                (Z.land (GasLimit h) 0xFFFFFFFF) (Nonce h) (big_Int64 number)
                (Coinbase h) (Root h) (Extra h))
      end
  end.

Section Hashing.

(** The sponge of [golang.org/x/crypto/sha3], legacy Keccak-256. *)
Variable keccak256 : list byte -> list byte.

Definition Header_Hash (h : Header) : list byte := BytesToHash (keccak256 (rlpEncode h)).

(** The bridge hashes headers through the same function. *)
Definition ComputeBTCDSealHash (btcd : option BTCDBlockHeader) (difficulty : option Z) : list byte :=
  match FromBTCDHeader btcd difficulty with
  | None => repeat x00 32
  | Some hdr => Header_Hash hdr
  end.

End Hashing.

(** ** Reading what was written *)

(** The bytes from [pos] on are [rest]. *)
Definition at_pos (buf : list byte) (pos : nat) (rest : list byte) : Prop :=
  drop pos buf = rest /\ (pos + length rest)%nat = length buf.

Lemma slice_at buf pos y zs n :
  at_pos buf pos (y ++ zs) -> length y = n ->
  slice buf pos n = Ok y /\ at_pos buf (pos + n) zs.
Proof.
  intros [Hd Hl] <-. rewrite length_app in Hl. unfold slice, at_pos.
  destruct (Nat.leb_spec (pos + length y) (length buf)); [|lia].
  rewrite <- drop_drop, Hd, take_app_length, drop_app_length. repeat split; lia.
Qed.

Lemma length_put_len n : length (put_len n) = 2%nat.
Proof. apply length_be_put. Qed.

Lemma read_len_at buf pos n zs :
  at_pos buf pos (put_len n ++ zs) -> Z.of_nat n < 65536 ->
  read_len buf pos = Ok n /\ at_pos buf (pos + 2) zs.
Proof.
  intros Ha Hn. destruct (slice_at _ _ _ _ 2 Ha (length_put_len n)) as [Hs Hz].
  unfold read_len. rewrite Hs. split; [|done]. cbn. f_equal. unfold put_len, wrap_u16.
  rewrite Z.mod_small by lia. rewrite be_get_put; [lia|].
  change (256 ^ Z.of_nat 2) with 65536. lia.
Qed.

Lemma guard_bounds_ok e pos n len : (pos + n <= len)%nat -> guard_bounds e pos n len = Ok ().
Proof. intros H. unfold guard_bounds. destruct (Nat.ltb_spec len (pos + n)); [lia|done]. Qed.

Lemma length_PadAddressTo32 a : length (PadAddressTo32 a) = (12 + length a)%nat.
Proof. done. Qed.

Lemma UnpadAddressFrom32_Pad a : UnpadAddressFrom32 (PadAddressTo32 a) = a.
Proof. done. Qed.

Lemma length_UnpadAddressFrom32 l : length (UnpadAddressFrom32 l) = (length l - 12)%nat.
Proof. apply length_drop. Qed.

#[global] Opaque PadAddressTo32 UnpadAddressFrom32.

(** The bounds the encoder does not check. *)
Record dse_fits (h : Header) : Prop := {
  dse_ok : header_ok h;
  dse_number : exists n, Number h = Some n /\ 0 <= n /\ Z.of_nat (big_len n) < 65536;
  dse_difficulty : exists d, Difficulty h = Some d /\ 0 <= d /\ Z.of_nat (big_len d) < 65536;
  dse_extra : Z.of_nat (length (Extra h)) < 65536 }.

(** The variable part of the encoding. *)
Definition dse_var (h : Header) : nat :=
  length (big_opt (Number h)) + length (Extra h) + length (big_opt (Difficulty h)).

Lemma length_DSEEncode h bs :
  header_ok h -> DSEEncodeHeader (Some h) = Ok bs -> length bs = (182 + dse_var h)%nat.
Proof.
  intros [H1 H2 H3 H4 _ _ H7]. unfold DSEEncodeHeader, dse_var.
  destruct (Number h) as [n|]; [|done]. destruct (Difficulty h) as [d|]; [|done].
  intros [= <-]. unfold big_opt.
  repeat first [rewrite length_PadAddressTo32 | rewrite length_put_len | rewrite length_be_put
    | rewrite length_app]. lia.
Qed.

(** One field of the decoder: from [at_pos buf pos (y ++ zs)] to the rest. *)
Ltac dse_field H :=
  let A := fresh "A" in
  lazymatch type of H with
  | at_pos ?buf ?pos (put_len ?n ++ ?zs) =>
      assert (A : read_len buf pos = Ok n /\ at_pos buf (pos + 2) zs)
        by (apply read_len_at; [exact H|lia])
  | at_pos ?buf ?pos (?y ++ ?zs) =>
      lazymatch goal with
      | |- context [slice buf pos ?n] =>
          assert (A : slice buf pos n = Ok y /\ at_pos buf (pos + n) zs)
            by (apply slice_at; [exact H|];
                rewrite ?length_PadAddressTo32, ?length_be_put, ?length_big_Bytes; lia)
      end
  end;
  clear H; destruct A as [-> H]; cbn [mbind result_bind].

Lemma DSEDecodeFields_encoded h n d len buf rest :
  header_ok h -> Number h = Some n -> 0 <= n -> Z.of_nat (big_len n) < 65536 ->
  Difficulty h = Some d -> 0 <= d -> Z.of_nat (big_len d) < 65536 -> Z.of_nat (length (Extra h)) < 65536 ->
  (182 + big_len n + length (Extra h) + big_len d <= len)%nat ->
  at_pos buf 0 (ParentHash h ++ PadAddressTo32 (Coinbase h) ++ Root h ++ TxHash h ++
    put_len (big_len n) ++ big_Bytes n ++ be_put 8 (GasLimit h) ++ be_put 8 (Time h) ++
    put_len (length (Extra h)) ++ Extra h ++ Nonce h ++
    put_len (big_len d) ++ big_Bytes d ++ rest) ->
  DSEDecodeFields len buf = Ok h.
Proof.
  intros [H1 H2 H3 H4 H5 H6 H7] Hn Hn0 Hnl Hd Hd0 Hdl He Hlen A.
  unfold DSEDecodeFields. cbv zeta.
  do 5 dse_field A. rewrite guard_bounds_ok by lia. cbn [mbind result_bind].
  do 4 dse_field A. rewrite guard_bounds_ok by lia. cbn [mbind result_bind].
  do 3 dse_field A. rewrite guard_bounds_ok by lia. cbn [mbind result_bind].
  dse_field A. rewrite UnpadAddressFrom32_Pad, !SetBytes_Bytes, !be_get_put by (done || lia).
  rewrite <- Hn, <- Hd. by destruct h.
Qed.

(** Decoding inverts encoding, whatever follows, for a header whose variable
    fields fit their prefixes and hold two bytes together. *)
Theorem DSE_roundtrip (h : Header) (rest spare : list byte) :
  dse_fits h -> (2 <= dse_var h)%nat ->
  exists bs, DSEEncodeHeader (Some h) = Ok bs /\ DSEDecodeHeader (bs ++ rest) spare = Ok h.
Proof.
  intros [Hok (n & Hn & Hn0 & Hnl) (d & Hd & Hd0 & Hdl) He] Hvar.
  unfold dse_var in Hvar. rewrite Hn, Hd in Hvar. cbn [big_opt] in Hvar.
  rewrite !length_big_Bytes in Hvar.
  assert (Henc : exists bs, DSEEncodeHeader (Some h) = Ok bs).
  { unfold DSEEncodeHeader. rewrite Hn, Hd. eauto. }
  destruct Henc as [bs Hbs]. exists bs. split; [done|].
  pose proof (length_DSEEncode h bs Hok Hbs) as Hlen. unfold dse_var in Hlen.
  rewrite Hn, Hd in Hlen. cbn [big_opt] in Hlen. rewrite !length_big_Bytes in Hlen.
  unfold DSEDecodeHeader. rewrite length_app. unfold DSEMinHeaderSize. nat_bool; [lia|].
  apply (DSEDecodeFields_encoded h n d _ _ (rest ++ spare)); try done; [lia|].
  split; [|by rewrite Nat.add_0_l; unfold DSEEncodeHeader in Hbs; rewrite Hn, Hd in Hbs;
    injection Hbs as <-; rewrite !length_big_Bytes, <- !app_assoc].
  unfold DSEEncodeHeader in Hbs. rewrite Hn, Hd in Hbs. injection Hbs as <-.
  by rewrite !length_big_Bytes, <- !app_assoc.
Qed.

Lemma slice_length buf pos n y : slice buf pos n = Ok y -> length y = n.
Proof.
  unfold slice. destruct (Nat.leb_spec (pos + n) (length buf)); [|done]. intros [= <-].
  rewrite length_take, length_drop. lia.
Qed.

Lemma read_len_bound buf pos n : read_len buf pos = Ok n -> Z.of_nat n < 65536.
Proof.
  unfold read_len. destruct (slice buf pos 2) as [b|] eqn:E; [|done]. apply slice_length in E.
  intros [= <-]. pose proof (be_get_range b) as Hr. rewrite E in Hr.
  change (256 ^ Z.of_nat 2) with 65536 in Hr. lia.
Qed.

(** Taking apart a successful run of the decoder. *)
Ltac dse_invert H :=
  repeat (lazymatch type of H with
  | match ?m with Ok _ => _ | Err _ => _ end = Ok _ => let E := fresh "E" in destruct m eqn:E; [|done]
  | mbind _ ?m = Ok _ => let E := fresh "E" in destruct m eqn:E; cbn [mbind result_bind] in H; [|done]
  end).

(** Whatever [DSEDecodeHeader] accepts is a header of the types of the code,
    with both numbers present and not negative. *)
Theorem DSE_decode_type (data spare : list byte) (h : Header) :
  DSEDecodeHeader data spare = Ok h ->
  header_ok h /\
  exists n d, Number h = Some n /\ Difficulty h = Some d /\ 0 <= n /\ 0 <= d /\
    Z.of_nat (length (Extra h)) < 65536.
Proof.
  unfold DSEDecodeHeader. destruct (_ <? _)%nat; [done|]. unfold DSEDecodeFields. cbv zeta.
  intros H. dse_invert H. injection H as <-. cbn.
  repeat match goal with E : slice _ _ _ = Ok _ |- _ => apply slice_length in E end.
  assert (Hw : forall l : list byte, length l = 8%nat -> u64_ok (be_get l)).
  { intros l Hl. pose proof (be_get_range l) as Hr. rewrite Hl in Hr. exact Hr. }
  split.
  - split; cbn; try done; [|by apply Hw..]. rewrite length_UnpadAddressFrom32. lia.
  - eexists _, _. split; [done|]. split; [done|].
    split; [apply SetBytes_nonneg|]. split; [apply SetBytes_nonneg|].
    match goal with E : length ?l = _ |- context [length ?l] => rewrite E end.
    match goal with E : read_len _ _ = Ok ?n |- context [?n] => exact (read_len_bound _ _ _ E) end.
Qed.

Definition zeros32 : list byte := repeat x00 32.

Lemma DSE_decode_type_witness :
  exists h, DSEDecodeHeader (repeat x00 184) [] = Ok h /\ header_ok h.
Proof.
  destruct (DSEDecodeHeader (repeat x00 184) []) as [h|e] eqn:E; [|vm_compute in E; discriminate E].
  exists h. split; [reflexivity|]. exact (proj1 (DSE_decode_type _ _ _ E)).
Defined.

(** The encoding of the genesis header, whose number has no bytes, is refused
    whenever difficulty and extra data have less than two bytes together: the
    minimum the decoder asks for counts a byte for each number. *)
Theorem DSE_short_header_refused (h : Header) (n d : Z) (spare : list byte) :
  header_ok h -> Number h = Some n -> Difficulty h = Some d -> (dse_var h < 2)%nat ->
  exists bs, DSEEncodeHeader (Some h) = Ok bs /\
    DSEDecodeHeader bs spare = Err (DSETooShort (length bs)).
Proof.
  intros Hok Hn Hd Hvar.
  assert (Henc : exists bs, DSEEncodeHeader (Some h) = Ok bs).
  { unfold DSEEncodeHeader. rewrite Hn, Hd. eauto. }
  destruct Henc as [bs Hbs]. exists bs. split; [done|].
  pose proof (length_DSEEncode h bs Hok Hbs).
  unfold DSEDecodeHeader, DSEMinHeaderSize. nat_bool; [done|lia].
Qed.

(** A header for examples. *)
Definition sample_header (number : Z) (gas time : Z) (extra : list byte) (difficulty : Z) : Header :=
  mkHeader zeros32 (repeat x00 20) zeros32 zeros32 (Some number) gas time extra zeros32 (Some difficulty).

Lemma sample_header_ok number gas time extra difficulty :
  u64_ok gas -> u64_ok time -> header_ok (sample_header number gas time extra difficulty).
Proof. intros Hg Ht. by split. Qed.

Lemma DSE_short_header_refused_witness :
  header_ok (sample_header 0 0 0 [] 1) /\
  exists bs, DSEEncodeHeader (Some (sample_header 0 0 0 [] 1)) = Ok bs /\
    DSEDecodeHeader bs [] = Err (DSETooShort (length bs)).
Proof.
  assert (H : header_ok (sample_header 0 0 0 [] 1)) by (apply sample_header_ok; lia).
  split; [exact H|].
  apply (DSE_short_header_refused _ 0 1 []); [exact H|reflexivity|reflexivity|vm_compute; lia].
Defined.

Lemma DSE_roundtrip_witness :
  exists bs, DSEEncodeHeader (Some (sample_header 7 21000 1700000000 [x01] 65536)) = Ok bs /\
    DSEDecodeHeader (bs ++ [xff]) [] = Ok (sample_header 7 21000 1700000000 [x01] 65536).
Proof.
  apply DSE_roundtrip.
  - split.
    + apply sample_header_ok; lia.
    + exists 7. split; [reflexivity|]. split; [lia|]. vm_compute. reflexivity.
    + exists 65536. split; [reflexivity|]. split; [lia|]. vm_compute. reflexivity.
    + vm_compute. reflexivity.
  - vm_compute. lia.
Defined.

(** An input of the least length whose number field claims eight bytes. *)
Definition dse_evil : list byte := repeat x00 128 ++ [x00; x08] ++ repeat x00 54.

(** The bounds are checked for the variable fields only: this input makes the
    decoder slice out of range, and only spare capacity behind the slice turns
    the panic into an error. *)
Theorem DSE_decode_panics :
  length dse_evil = DSEMinHeaderSize /\
  DSEDecodeHeader dse_evil [] = Err DSEPanic /\
  DSEDecodeHeader dse_evil (repeat xff 6) = Err DSEDifficultyBounds.
Proof. split; [done|]. split; vm_compute; reflexivity. Qed.

(** ** The hashed form does not determine the header *)

Lemma be_put_8_cons z : exists b l, be_put 8 z = b :: l /\ length l = 7%nat.
Proof.
  pose proof (length_be_put 8 z) as Hl. destruct (be_put 8 z) as [|b l]; [done|].
  exists b, l. split; [done|]. cbn in Hl. lia.
Qed.

(** The concatenation has no lengths, so the first byte of the gas limit can be
    read as the last one of the number, and so on up to the extra data: every
    header with a positive number and some extra data shares its hash, for any
    hash function, with a header of another height. *)
Theorem Header_Hash_malleable (h : Header) (n : Z) (e : byte) (ex : list byte) :
  header_ok h -> Number h = Some n -> 0 < n -> Extra h = e :: ex ->
  exists h', header_ok h' /\ Number h' <> Number h /\
    forall keccak256, Header_Hash keccak256 h' = Header_Hash keccak256 h.
Proof.
  intros [H1 H2 H3 H4 H5 H6 H7] Hn Hpos He.
  destruct (be_put_8_cons (GasLimit h)) as (g & gs & Hg & Hgl).
  destruct (be_put_8_cons (Time h)) as (t & ts & Ht & Htl).
  assert (Hl8 : forall (l : list byte) b, length l = 7%nat -> length (l ++ [b]) = 8%nat).
  { intros l b Hl. rewrite length_app. cbn. lia. }
  assert (Hput : forall (l : list byte) b, length l = 7%nat -> be_put 8 (be_get (l ++ [b])) = l ++ [b]).
  { intros l b Hl. rewrite <- (Hl8 l b Hl). apply be_put_get. }
  assert (Hrange : forall (l : list byte) b, length l = 7%nat -> u64_ok (be_get (l ++ [b]))).
  { intros l b Hl. pose proof (be_get_range (l ++ [b])) as Hr. by rewrite (Hl8 l b Hl) in Hr. }
  exists (mkHeader (ParentHash h) (Coinbase h) (Root h) (TxHash h) (Some (n * 256 + b2z g))
    (be_get (gs ++ [t])) (be_get (ts ++ [e])) ex (Nonce h) (Difficulty h)).
  split; [split; cbn; auto|]. split.
  - cbn. rewrite Hn. pose proof (b2z_range g). intros [= ?]. lia.
  - intros keccak256. unfold Header_Hash. do 2 f_equal. unfold rlpEncode. cbn.
    rewrite Hn, He, Hg, Ht, !Hput by done. cbn [big_opt]. rewrite big_Bytes_snoc by done.
    rewrite <- !app_assoc. done.
Qed.

Lemma Header_Hash_malleable_witness :
  exists h', header_ok h' /\ Number h' <> Some 1 /\
    forall keccak256,
      Header_Hash keccak256 h' = Header_Hash keccak256 (sample_header 1 0 0 [x00] 1).
Proof.
  apply (Header_Hash_malleable (sample_header 1 0 0 [x00] 1) 1 x00 []);
    [apply sample_header_ok; lia|reflexivity|lia|reflexivity].
Defined.

(** ** Compact targets *)

Lemma land_mask23 x : Z.land x 0x007fffff = x mod 2 ^ 23.
Proof. apply (Z.land_ones x 23). lia. Qed.

Lemma land_bit23 x : negb (Z.land x 0x00800000 =? 0) = Z.testbit x 23.
Proof.
  change 0x00800000 with (2 ^ 23). destruct (Z.testbit x 23) eqn:E.
  - destruct (Z.eqb_spec (Z.land x (2 ^ 23)) 0) as [H|]; [|done].
    apply (f_equal (fun z => Z.testbit z 23)) in H.
    rewrite Z.land_spec, Z.pow2_bits_true, E in H by lia. done.
  - destruct (Z.eqb_spec (Z.land x (2 ^ 23)) 0) as [|H]; [done|]. destruct H.
    apply Z.bits_inj'. intros i Hi. rewrite Z.land_spec, Z.bits_0.
    destruct (Z.eq_dec i 23) as [->|Hne]; [by rewrite E|].
    rewrite Z.pow2_bits_false by done. apply andb_false_r.
Qed.

(** Exponent and mantissa of a positive compact number. *)
Lemma CompactToBig_parts e m :
  0 <= e -> 0 <= m < 2 ^ 23 ->
  CompactToBig (Z.lor (Z.shiftl e 24) m) =
  if e <=? 3 then Z.shiftr m (8 * (3 - e)) else Z.shiftl m (8 * (e - 3)).
Proof.
  intros He Hm.
  assert (Hc : Z.lor (Z.shiftl e 24) m = e * 2 ^ 24 + m).
  { rewrite Z.shiftl_mul_pow2 by lia. apply lor_shifted; lia. }
  unfold CompactToBig. rewrite land_mask23, land_bit23, Hc.
  replace ((e * 2 ^ 24 + m) mod 2 ^ 23) with m.
  2: { replace (e * 2 ^ 24 + m) with (m + (2 * e) * 2 ^ 23) by lia.
       rewrite Z.mod_add, Z.mod_small by lia. done. }
  replace (Z.shiftr (e * 2 ^ 24 + m) 24) with e.
  2: { rewrite Z.shiftr_div_pow2 by lia. rewrite Z.div_add_l, Z.div_small by lia. lia. }
  replace (Z.testbit (e * 2 ^ 24 + m) 23) with false; [done|]. symmetry.
  rewrite Z.testbit_false by lia.
  replace (e * 2 ^ 24 + m) with (m + (2 * e) * 2 ^ 23) by lia.
  rewrite Z.div_add, Z.div_small, Z.add_0_l by lia.
  rewrite Z.mul_comm. apply Z.mod_mul. lia.
Qed.

(** The three leading bytes of a positive number, the mantissa before the code
    truncates it. *)
Definition top_bytes (n : Z) : Z := Z.shiftr n (8 * (Z.of_nat (big_len n) - 3)).

Lemma top_bytes_log n : 0 < n -> Z.log2 (top_bytes n) = 16 + Z.log2 n mod 8.
Proof.
  intros Hn. unfold top_bytes. rewrite Z.log2_shiftr by done.
  rewrite big_len_pos, Z.abs_eq by lia. pose proof (Z.log2_nonneg n).
  pose proof (Z.div_mod (Z.log2 n) 8). pose proof (Z.mod_pos_bound (Z.log2 n) 8). lia.
Qed.

Lemma top_bytes_range n : 0 < n -> 2 ^ (16 + Z.log2 n mod 8) <= top_bytes n < 2 ^ 24.
Proof.
  intros Hn. pose proof (top_bytes_log n Hn) as Hl. pose proof (Z.mod_pos_bound (Z.log2 n) 8).
  assert (Hp : 0 < top_bytes n).
  { destruct (Z.lt_trichotomy (top_bytes n) 0) as [Hc|[Hc|Hc]]; [|rewrite Hc in Hl; cbn in Hl; lia|done].
    unfold top_bytes in Hc. apply Z.shiftr_neg in Hc. lia. }
  pose proof (Z.log2_spec (top_bytes n) Hp) as [H1 H2]. rewrite Hl in H1, H2.
  split; [done|]. eapply Z.lt_le_trans; [done|]. apply Z.pow_le_mono_r; lia.
Qed.

Lemma BigToCompact_pos n :
  0 < n -> (big_len n <= 255)%nat ->
  BigToCompact n = Z.lor (Z.shiftl (Z.of_nat (big_len n)) 24) (top_bytes n mod 2 ^ 23).
Proof.
  intros Hn He. unfold BigToCompact. destruct (Z.eqb_spec n 0); [lia|].
  rewrite length_big_Bytes, land_mask23.
  assert (Hne : (1 <= big_len n)%nat) by (pose proof (big_len_0 n); lia).
  pose proof (top_bytes_range n Hn) as Ht. pose proof (big_len_bound n) as Hb.
  rewrite Z.abs_eq in Hb by lia.
  assert (Hs : wrap_u32 (wrap_u64 (Z.shiftl (Z.of_nat (big_len n)) 24)) = Z.shiftl (Z.of_nat (big_len n)) 24).
  { unfold wrap_u32, wrap_u64. rewrite Z.shiftl_mul_pow2 by lia. rewrite (Z.mod_small _ (2 ^ 64)) by lia.
    apply Z.mod_small. lia. }
  rewrite Hs. destruct (Z.ltb_spec n 0); [lia|]. cbv zeta.
  lazymatch goal with |- context [if ?c then ?a else ?b] =>
    enough (Hm : (if c then a else b) = top_bytes n) by by rewrite Hm end.
  assert (Hlow : forall x, 0 <= x < 2 ^ 24 -> wrap_u32 (low_word x) = x).
  { intros x Hx. unfold wrap_u32, low_word. rewrite Z.abs_eq, (Z.mod_small x (2 ^ 64)) by lia.
    apply Z.mod_small. lia. }
  destruct (Z.leb_spec (Z.of_nat (big_len n)) 3).
  - rewrite Hlow.
    2: { split; [lia|]. eapply Z.lt_le_trans; [apply Hb|]. apply (Z.pow_le_mono_r 256 _ 3); lia. }
    unfold top_bytes in *.
    replace (8 * (Z.of_nat (big_len n) - 3)) with (- (8 * (3 - Z.of_nat (big_len n)))) in * by lia.
    rewrite Z.shiftr_opp_r in *. apply Z.mod_small. split; [|lia].
    apply Z.shiftl_nonneg. lia.
  - fold (top_bytes n). rewrite Hlow; [done|]. split; [|lia]. apply Z.shiftr_nonneg. lia.
Qed.

(** What the code intends to keep: the three leading bytes. *)
Definition truncated (n : Z) : Z :=
  n - n mod 2 ^ (8 * Z.max 0 (Z.of_nat (big_len n) - 3)).

Lemma mod_2_23 t : 0 <= t < 2 ^ 24 -> t mod 2 ^ 23 = t - (if 2 ^ 23 <=? t then 2 ^ 23 else 0).
Proof.
  intros Ht. case_bool.
  - symmetry. apply (Z.mod_unique _ _ 1); lia.
  - rewrite Z.mod_small; lia.
Qed.

Lemma log2_mod_8 n : 0 < n -> (2 ^ 23 <=? top_bytes n) = (Z.log2 n mod 8 =? 7).
Proof.
  intros Hn. pose proof (top_bytes_range n Hn) as Ht. pose proof (top_bytes_log n Hn) as Hl.
  pose proof (Z.mod_pos_bound (Z.log2 n) 8). destruct (Z.eqb_spec (Z.log2 n mod 8) 7) as [E|E].
  - rewrite E in Ht. case_bool; lia.
  - case_bool; [|done]. apply Z.log2_le_mono in H0. rewrite Hl in H0.
    change (Z.log2 (2 ^ 23)) with 23 in H0. lia.
Qed.

Lemma log2_big_len n : 0 < n -> Z.log2 n = 8 * (Z.of_nat (big_len n) - 1) + Z.log2 n mod 8.
Proof.
  intros Hn. rewrite big_len_pos, Z.abs_eq by lia. pose proof (Z.div_mod (Z.log2 n) 8). lia.
Qed.

(** The two conversions compose to the three leading bytes of the number, less
    its most significant bit when that is the top bit of its byte: the code does
    not make room for the sign bit of the format. *)
Theorem CompactToBig_BigToCompact (n : Z) :
  0 < n -> (big_len n <= 255)%nat ->
  CompactToBig (BigToCompact n) =
  truncated n - (if Z.log2 n mod 8 =? 7 then 2 ^ Z.log2 n else 0).
Proof.
  intros Hn He. pose proof (top_bytes_range n Hn) as Ht.
  assert (Hne : (1 <= big_len n)%nat) by (pose proof (big_len_0 n); lia).
  pose proof (Z.mod_pos_bound (Z.log2 n) 8).
  assert (0 < 2 ^ (16 + Z.log2 n mod 8)) by (apply Z.pow_pos_nonneg; lia).
  rewrite BigToCompact_pos by done.
  rewrite CompactToBig_parts by (try apply Z.mod_pos_bound; lia).
  rewrite mod_2_23, log2_mod_8 by lia.
  pose proof (log2_big_len n Hn) as Hl. unfold truncated, top_bytes in *.
  set (e := Z.of_nat (big_len n)) in *.
  destruct (Z.leb_spec e 3) as [H3|H3].
  - replace (8 * (e - 3)) with (- (8 * (3 - e))) in * by lia.
    rewrite Z.shiftr_opp_r in *. rewrite Z.shiftl_mul_pow2, Z.shiftr_div_pow2 by lia.
    replace (Z.max 0 (e - 3)) with 0 by lia. change (2 ^ (8 * 0)) with 1. rewrite Z.mod_1_r.
    set (k := 8 * (3 - e)) in *. assert (Hk : 2 ^ k <> 0) by (apply Z.pow_nonzero; lia).
    destruct (Z.eqb_spec (Z.log2 n mod 8) 7) as [E7|E7].
    + replace (2 ^ 23) with (2 ^ Z.log2 n * 2 ^ k).
      2: { rewrite <- Z.pow_add_r by lia. f_equal. lia. }
      rewrite <- Z.mul_sub_distr_r, Z.div_mul by done. lia.
    + rewrite !Z.sub_0_r. by apply Z.div_mul.
  - replace (Z.max 0 (e - 3)) with (e - 3) by lia. set (k := 8 * (e - 3)) in *.
    rewrite Z.shiftl_mul_pow2, Z.shiftr_div_pow2 by lia.
    assert (Hk : 0 < 2 ^ k) by (apply Z.pow_pos_nonneg; lia).
    pose proof (Z.div_mod n (2 ^ k)) as Hd.
    destruct (Z.eqb_spec (Z.log2 n mod 8) 7) as [E7|E7].
    + replace (2 ^ Z.log2 n) with (2 ^ 23 * 2 ^ k).
      2: { rewrite <- Z.pow_add_r by lia. f_equal. lia. }
      rewrite Z.mul_sub_distr_r. lia.
    + lia.
Qed.

Lemma CompactToBig_BigToCompact_witness :
  0 < 2 ^ 200 + 5 /\ CompactToBig (BigToCompact (2 ^ 200 + 5)) = 2 ^ 200.
Proof.
  split; [lia|]. rewrite (CompactToBig_BigToCompact (2 ^ 200 + 5)); [reflexivity|lia|].
  vm_compute. lia.
Defined.

(** A target that is a power of two at the top of a byte becomes zero. *)
Example BigToCompact_loses_bit : CompactToBig (BigToCompact 128) = 0 /\ BigToCompact 128 = 0x01000000.
Proof. split; reflexivity. Qed.

(** ** The bridge *)

(** The two conversions compose to the identity but for the version, which
    becomes 1. *)
Theorem ToBTCDHeader_FromBTCDHeader (b : BTCDBlockHeader) (difficulty : option Z) :
  btcd_ok b ->
  ToBTCDHeader (FromBTCDHeader (Some b) difficulty) =
  Ok (mkBTCDBlockHeader 1 (PrevBlock b) (MerkleRoot b) (Timestamp b) (Bits b) (BNonce b)
        (Height b) (BCoinbase b) (StateRoot b) (ExtraData b)).
Proof.
  intros [_ Ht Hb Hh]. unfold FromBTCDHeader, ToBTCDHeader. cbn. do 2 f_equal.
  - unfold wrap_u64. apply (to_signed_mod 64); lia.
  - change 0xFFFFFFFF with (Z.ones 32). rewrite Z.land_ones by lia. apply Z.mod_small. lia.
  - apply (to_signed_mod 64); lia.
Qed.

Lemma ToBTCDHeader_FromBTCDHeader_witness :
  ToBTCDHeader (FromBTCDHeader (Some (mkBTCDBlockHeader 2 [] [] (-5) 7 [] (-1) [] [] [])) None) =
  Ok (mkBTCDBlockHeader 1 [] [] (-5) 7 [] (-1) [] [] []).
Proof. apply ToBTCDHeader_FromBTCDHeader. split; cbn; lia. Defined.
