(* ===== verification/GoFloat.v ===== *)
(** * Floating point numbers

    Go's [float64] and [math/big.Float], as far as the difficulty controller of
    [nogopow] needs them: finite numbers [m * 2^e], and operations that compute
    the exact result and round it to [p] bits, to nearest and ties to even.  A
    [float64] has 53 bits; the operands of the controller are ratios of 64-bit
    integers, far from the ends of the exponent range, so neither overflow nor
    subnormal numbers occur.  A [big.Float] has the precision its operation gives
    it, and an exponent that is not bounded here.

    Rounding is compared with the exact value through bounds: [round_le] and
    [round_ge] say that rounding does not cross a number of at most [p] bits. *)

From Stdlib Require Import ZArith Lia.
From Stdlib Require SpecFloat.
From S2P Require Import Prelude.
Open Scope Z_scope.

(** [dm * 2 ^ de]. *)
Record dy := mkDy { dm : Z; de : Z }.

Definition dy_int (n : Z) : dy := mkDy n 0.

(** ** Exact operations *)

(** The mantissa at the exponent [s], which is not above [de x]. *)
Definition scaled (s : Z) (x : dy) : Z := dm x * 2 ^ (de x - s).

Definition dy_add (x y : dy) : dy :=
  let s := Z.min (de x) (de y) in mkDy (scaled s x + scaled s y) s.

Definition dy_opp (x : dy) : dy := mkDy (- dm x) (de x).
Definition dy_abs (x : dy) : dy := mkDy (Z.abs (dm x)) (de x).
Definition dy_mul (x y : dy) : dy := mkDy (dm x * dm y) (de x + de y).

Definition dy_leb (x y : dy) : bool :=
  let s := Z.min (de x) (de y) in scaled s x <=? scaled s y.

Definition dy_ltb (x y : dy) : bool := negb (dy_leb y x).

(** Truncation towards zero ([big.Float.Int], a conversion to an integer). *)
Definition dy_trunc (x : dy) : Z :=
  if 0 <=? de x then dm x * 2 ^ de x
  else Z.sgn (dm x) * (Z.abs (dm x) / 2 ^ (- de x)).

(** ** Rounding *)

(** [a / 2^k] to nearest, ties to even; [0 <= a], [0 < k]. *)
Definition rne (a k : Z) : Z :=
  let q := a / 2 ^ k in
  let r := a mod 2 ^ k in
  let h := 2 ^ (k - 1) in
  if r <? h then q
  else if h <? r then q + 1
  else if Z.even q then q else q + 1.

Definition dy_round (p : Z) (x : dy) : dy :=
  let a := Z.abs (dm x) in
  let k := Z.log2 a + 1 - p in
  if (a =? 0) || (k <=? 0) then x
  else mkDy (Z.sgn (dm x) * rne a k) (de x + k).

Definition f_add (p : Z) (x y : dy) : dy := dy_round p (dy_add x y).
Definition f_sub (p : Z) (x y : dy) : dy := dy_round p (dy_add x (dy_opp y)).
Definition f_mul (p : Z) (x y : dy) : dy := dy_round p (dy_mul x y).

(** The quotient to [p + 2] bits or more, with a sticky bit below. *)
Definition f_div (p : Z) (x y : dy) : dy :=
  let a := Z.abs (dm x) in
  let b := Z.abs (dm y) in
  let k := Z.max 0 (p + 2 + Z.log2 b - Z.log2 a) in
  let q := (a * 2 ^ k) / b in
  let sticky := if (a * 2 ^ k) mod b =? 0 then 0 else 1 in
  dy_round p (mkDy (Z.sgn (dm x) * Z.sgn (dm y) * (2 * q + sticky)) (de x - de y - k - 1)).

Definition float64_of_int (n : Z) : dy := dy_round 53 (dy_int n).

(** ** Order *)

Definition dy_le (x y : dy) : Prop :=
  scaled (Z.min (de x) (de y)) x <= scaled (Z.min (de x) (de y)) y.

Lemma scaled_shift s t x : s <= t <= de x -> scaled s x = scaled t x * 2 ^ (t - s).
Proof.
  intros H. unfold scaled. rewrite <- Z.mul_assoc, <- Z.pow_add_r by lia. do 2 f_equal. lia.
Qed.

(** Any common exponent decides the order. *)
Lemma dy_le_scaled s x y : s <= de x -> s <= de y -> dy_le x y <-> scaled s x <= scaled s y.
Proof.
  intros Hx Hy. unfold dy_le. set (t := Z.min (de x) (de y)).
  rewrite (scaled_shift s t x), (scaled_shift s t y) by lia.
  assert (0 < 2 ^ (t - s)) by (apply Z.pow_pos_nonneg; lia).
  split; intros; nia.
Qed.

Lemma dy_leb_le x y : dy_leb x y = true <-> dy_le x y.
Proof. unfold dy_leb, dy_le. apply Z.leb_le. Qed.

Lemma dy_leb_gt x y : dy_leb x y = false -> dy_le y x.
Proof. unfold dy_leb, dy_le. rewrite Z.min_comm. intros H%Z.leb_gt. lia. Qed.

(** A common exponent for three numbers. *)
Ltac common_exp s x y z :=
  pose (s := Z.min (Z.min (de x) (de y)) (de z));
  assert (s <= de x) by lia; assert (s <= de y) by lia; assert (s <= de z) by lia.

#[export] Instance dy_le_preorder : PreOrder dy_le.
Proof.
  split.
  - intros x. unfold dy_le. lia.
  - intros x y z. common_exp s x y z. rewrite !(dy_le_scaled s) by done. lia.
Qed.

Lemma dy_add_le x x' y y' : dy_le x x' -> dy_le y y' -> dy_le (dy_add x y) (dy_add x' y').
Proof.
  pose (s := Z.min (Z.min (de x) (de x')) (Z.min (de y) (de y'))).
  intros Hx Hy. apply (dy_le_scaled s) in Hx, Hy; [|lia..].
  assert (Ha : forall u v, s <= de u -> s <= de v -> scaled s (dy_add u v) = scaled s u + scaled s v).
  { intros u v Hu Hv. unfold dy_add. set (t := Z.min (de u) (de v)).
    rewrite (scaled_shift s t u), (scaled_shift s t v) by lia. unfold scaled at 1. cbn. lia. }
  apply (dy_le_scaled s); [cbn; lia..|]. rewrite !Ha by lia. lia.
Qed.

(** Multiplying by a non-negative integer. *)
Lemma dy_mul_le n x y : 0 <= n -> dy_le x y -> dy_le (dy_mul (dy_int n) x) (dy_mul (dy_int n) y).
Proof.
  intros Hn H. pose (s := Z.min (de x) (de y)). apply (dy_le_scaled s) in H; [|lia..].
  apply (dy_le_scaled s); [cbn; lia..|]. unfold scaled in *. cbn.
  rewrite <- !Z.mul_assoc. apply Z.mul_le_mono_nonneg_l; done.
Qed.

Lemma dy_le_int n m : dy_le (dy_int n) (dy_int m) <-> n <= m.
Proof. rewrite (dy_le_scaled 0) by done. unfold scaled. cbn. change (2 ^ 0) with 1. lia. Qed.

(** Truncation and integer bounds. *)
Lemma dy_trunc_ge n x : 0 <= n -> dy_le (dy_int n) x -> n <= dy_trunc x.
Proof.
  intros Hn H. unfold dy_trunc. destruct (Z.leb_spec 0 (de x)) as [He|He].
  - apply (dy_le_scaled 0) in H; [|cbn; lia|done]. unfold scaled in H. cbn in H.
    rewrite !Z.sub_0_r in H. change (2 ^ 0) with 1 in H. lia.
  - apply (dy_le_scaled (de x)) in H; [|cbn; lia|lia]. unfold scaled in H. cbn in H.
    rewrite Z.sub_diag in H. change (2 ^ 0) with 1 in H.
    replace (0 - de x) with (- de x) in H by lia.
    assert (0 < 2 ^ (- de x)) by (apply Z.pow_pos_nonneg; lia).
    assert (0 <= dm x) by nia. rewrite Z.abs_eq by done.
    destruct (Z.eq_dec (dm x) 0) as [E|E]; [rewrite E in *; cbn; nia|].
    rewrite Z.sgn_pos by lia. rewrite Z.mul_1_l. apply Z.div_le_lower_bound; lia.
Qed.

Lemma dy_trunc_le n x : 0 <= n -> dy_le x (dy_int n) -> dy_trunc x <= n.
Proof.
  intros Hn H. unfold dy_trunc. destruct (Z.leb_spec 0 (de x)) as [He|He].
  - apply (dy_le_scaled 0) in H; [|done|cbn; lia]. unfold scaled in H. cbn in H.
    rewrite !Z.sub_0_r in H. change (2 ^ 0) with 1 in H. lia.
  - apply (dy_le_scaled (de x)) in H; [|lia|cbn; lia]. unfold scaled in H. cbn in H.
    rewrite Z.sub_diag in H. change (2 ^ 0) with 1 in H.
    replace (0 - de x) with (- de x) in H by lia.
    assert (0 < 2 ^ (- de x)) by (apply Z.pow_pos_nonneg; lia).
    assert (0 <= Z.abs (dm x) / 2 ^ (- de x)) by (apply Z.div_pos; lia).
    destruct (Z.lt_trichotomy (dm x) 0) as [E|[E|E]].
    + rewrite Z.sgn_neg by done. lia.
    + rewrite E. cbn. lia.
    + rewrite Z.sgn_pos, Z.mul_1_l by done. rewrite Z.abs_eq by lia.
      apply Z.div_le_upper_bound; lia.
Qed.

(** Below the next integer. *)
Lemma dy_trunc_lt n x : 0 <= n -> dy_leb (dy_int (n + 1)) x = false -> dy_trunc x <= n.
Proof.
  intros Hn H. unfold dy_leb in H. apply Z.leb_gt in H. unfold scaled in H. cbn in H.
  unfold dy_trunc. destruct (Z.leb_spec 0 (de x)) as [He|He].
  - rewrite Z.min_l in H by lia. rewrite !Z.sub_0_r in H. change (2 ^ 0) with 1 in H. lia.
  - rewrite Z.min_r in H by lia. rewrite Z.sub_diag in H. change (2 ^ 0) with 1 in H.
    replace (0 - de x) with (- de x) in H by lia.
    assert (0 < 2 ^ (- de x)) by (apply Z.pow_pos_nonneg; lia).
    assert (0 <= Z.abs (dm x) / 2 ^ (- de x)) by (apply Z.div_pos; lia).
    destruct (Z.lt_trichotomy (dm x) 0) as [E|[E|E]].
    + rewrite Z.sgn_neg by done. lia.
    + rewrite E. cbn. lia.
    + rewrite Z.sgn_pos, Z.mul_1_l by done. rewrite Z.abs_eq by lia.
      apply Z.lt_succ_r. apply Z.div_lt_upper_bound; lia.
Qed.

(** ** Bounds on rounded values *)

Lemma rne_bounds a k :
  0 <= a -> 0 < k ->
  rne a k = a / 2 ^ k \/ (rne a k = a / 2 ^ k + 1 /\ 0 < a mod 2 ^ k).
Proof.
  intros Ha Hk. unfold rne. assert (0 < 2 ^ (k - 1)) by (apply Z.pow_pos_nonneg; lia).
  destruct (Z.ltb_spec (a mod 2 ^ k) (2 ^ (k - 1))); [by left|].
  destruct (Z.ltb_spec (2 ^ (k - 1)) (a mod 2 ^ k)); [right; split; [done|lia]|].
  destruct (Z.even _); [by left|right; split; [done|lia]].
Qed.

(** The mantissa of a number that has to be rounded. *)
Lemma round_quotient p a :
  0 < p -> 0 < a -> 0 < Z.log2 a + 1 - p ->
  2 ^ (p - 1) <= a / 2 ^ (Z.log2 a + 1 - p) < 2 ^ p.
Proof.
  intros Hp Ha Hk. pose proof (Z.log2_spec a Ha) as [H1 H2].
  set (k := Z.log2 a + 1 - p) in *.
  assert (0 < 2 ^ k) by (apply Z.pow_pos_nonneg; lia). split.
  - apply Z.div_le_lower_bound; [done|]. rewrite <- Z.pow_add_r by lia.
    replace (k + (p - 1)) with (Z.log2 a) by lia. done.
  - apply Z.div_lt_upper_bound; [done|]. rewrite <- Z.pow_add_r by lia.
    replace (k + p) with (Z.succ (Z.log2 a)) by lia. done.
Qed.

Lemma pow2_pos k : 0 <= k -> 0 < 2 ^ k.
Proof. intros. apply Z.pow_pos_nonneg; lia. Qed.

Lemma round_le p x m e :
  0 < p -> 0 <= dm x -> 0 <= m < 2 ^ p -> dy_le x (mkDy m e) -> dy_le (dy_round p x) (mkDy m e).
Proof.
  intros Hp Hx Hm H. unfold dy_round. rewrite Z.abs_eq by done.
  destruct ((dm x =? 0) || (Z.log2 (dm x) + 1 - p <=? 0)) eqn:E; [done|].
  apply orb_false_iff in E as [E1%Z.eqb_neq E2%Z.leb_gt].
  assert (Ha : 0 < dm x) by lia. pose proof (round_quotient p (dm x) Hp Ha E2) as Hq.
  pose proof (rne_bounds (dm x) _ Hx E2) as Hr. rewrite Z.sgn_pos, Z.mul_1_l by done.
  set (k := Z.log2 (dm x) + 1 - p) in *. pose proof (Z.div_mod (dm x) (2 ^ k)) as Hd.
  pose proof (pow2_pos k ltac:(lia)). specialize (Hd ltac:(lia)).
  pose proof (Z.mod_pos_bound (dm x) (2 ^ k) ltac:(lia)) as Hmod.
  pose (s := Z.min (de x) e). rewrite (dy_le_scaled s) in H by (cbn; lia).
  apply (dy_le_scaled s); [cbn; lia..|]. unfold scaled in *. cbn [dm de] in *.
  destruct (Z.le_gt_cases (de x + k) e) as [HK|HK].
  - replace (e - s) with ((e - (de x + k)) + (k + (de x - s))) in * by lia.
    replace (de x + k - s) with (k + (de x - s)) by lia.
    rewrite !Z.pow_add_r in * by lia.
    pose proof (pow2_pos (e - (de x + k)) ltac:(lia)). pose proof (pow2_pos (de x - s) ltac:(lia)).
    set (u := 2 ^ (e - (de x + k))) in *. set (v := 2 ^ (de x - s)) in *. set (w := 2 ^ k) in *.
    assert (dm x <= m * u * w) by (apply (Z.mul_le_mono_pos_r _ _ v); lia).
    enough (rne (dm x) k <= m * u).
    { replace (m * (u * (w * v))) with (m * u * (w * v)) by lia.
      apply Z.mul_le_mono_nonneg_r; [lia|done]. }
    destruct Hr as [->|[-> Hr]].
    + apply Z.div_le_upper_bound; lia.
    + enough (dm x / w < m * u) by lia. apply (Z.mul_lt_mono_pos_r w); lia.
  - exfalso.
    assert (Hlo : 2 ^ (p - 1 + k) <= dm x).
    { rewrite Z.pow_add_r by lia. nia. }
    assert (2 ^ (p - 1 + k + (de x - s)) < 2 ^ (p + (e - s))).
    { rewrite (Z.pow_add_r 2 (p - 1 + k)), (Z.pow_add_r 2 p) by lia.
      pose proof (pow2_pos (de x - s) ltac:(lia)). pose proof (pow2_pos (e - s) ltac:(lia)).
      apply (Z.le_lt_trans _ (dm x * 2 ^ (de x - s))); [by apply Z.mul_le_mono_nonneg_r; lia|].
      eapply Z.le_lt_trans; [exact H|]. apply Z.mul_lt_mono_pos_r; lia. }
    apply Z.pow_lt_mono_r_iff in H1; lia.
Qed.

Lemma round_ge p x m e :
  0 < p -> 0 <= dm x -> 0 <= m < 2 ^ p -> dy_le (mkDy m e) x -> dy_le (mkDy m e) (dy_round p x).
Proof.
  intros Hp Hx Hm H. unfold dy_round. rewrite Z.abs_eq by done.
  destruct ((dm x =? 0) || (Z.log2 (dm x) + 1 - p <=? 0)) eqn:E; [done|].
  apply orb_false_iff in E as [E1%Z.eqb_neq E2%Z.leb_gt].
  assert (Ha : 0 < dm x) by lia. pose proof (round_quotient p (dm x) Hp Ha E2) as Hq.
  pose proof (rne_bounds (dm x) _ Hx E2) as Hr. rewrite Z.sgn_pos, Z.mul_1_l by done.
  set (k := Z.log2 (dm x) + 1 - p) in *. pose proof (Z.div_mod (dm x) (2 ^ k)) as Hd.
  pose proof (pow2_pos k ltac:(lia)). specialize (Hd ltac:(lia)).
  pose proof (Z.mod_pos_bound (dm x) (2 ^ k) ltac:(lia)) as Hmod.
  assert (Hr' : dm x / 2 ^ k <= rne (dm x) k) by (destruct Hr as [->|[-> _]]; lia).
  pose (s := Z.min (de x) e). rewrite (dy_le_scaled s) in H by (cbn; lia).
  apply (dy_le_scaled s); [cbn; lia..|]. unfold scaled in *. cbn [dm de] in *.
  destruct (Z.le_gt_cases (de x + k) e) as [HK|HK].
  - replace (e - s) with ((e - (de x + k)) + (k + (de x - s))) in * by lia.
    replace (de x + k - s) with (k + (de x - s)) by lia.
    rewrite !Z.pow_add_r in * by lia.
    pose proof (pow2_pos (e - (de x + k)) ltac:(lia)). pose proof (pow2_pos (de x - s) ltac:(lia)).
    set (u := 2 ^ (e - (de x + k))) in *. set (v := 2 ^ (de x - s)) in *. set (w := 2 ^ k) in *.
    assert (m * u * w <= dm x) by (apply (Z.mul_le_mono_pos_r _ _ v); lia).
    assert (m * u <= dm x / w) by (apply Z.div_le_lower_bound; lia).
    replace (m * (u * (w * v))) with (m * u * (w * v)) by lia.
    apply Z.mul_le_mono_nonneg_r; [lia|]. lia.
  - assert (2 ^ (p + (e - s)) <= 2 ^ (p - 1 + (de x + k - s))) by (apply Z.pow_le_mono_r; lia).
    rewrite (Z.pow_add_r 2 p), (Z.pow_add_r 2 (p - 1)) in H1 by lia.
    pose proof (pow2_pos (de x + k - s) ltac:(lia)). pose proof (pow2_pos (e - s) ltac:(lia)).
    apply (Z.le_trans _ (2 ^ p * 2 ^ (e - s))); [apply Z.mul_le_mono_nonneg_r; lia|].
    etrans; [eassumption|]. apply Z.mul_le_mono_nonneg_r; lia.
Qed.

(** Rounding keeps the sign. *)
Lemma round_nonneg p x : 0 <= dm x -> 0 <= dm (dy_round p x).
Proof.
  intros Hx. unfold dy_round. destruct (_ || _) eqn:E; [done|]. cbn.
  apply orb_false_iff in E as [E1%Z.eqb_neq E2%Z.leb_gt].
  pose proof (rne_bounds (Z.abs (dm x)) _ ltac:(lia) E2) as Hr.
  assert (0 <= Z.abs (dm x) / 2 ^ (Z.log2 (Z.abs (dm x)) + 1 - p)).
  { apply Z.div_pos; [lia|]. apply pow2_pos. lia. }
  rewrite Z.sgn_pos by lia. destruct Hr as [->|[-> _]]; lia.
Qed.

(** The operations on the ratios that occur, against their decimal values. *)
Example div_ratio : f_div 53 (dy_int 60) (dy_int 57) = mkDy 4740631186705785 (-52) /\
  f_div 53 (dy_int 30) (dy_int 30) = mkDy 4503599627370496 (-52).
Proof. split; vm_compute; reflexivity. Qed.

(** The same ratio by the specification of IEEE 754 in the Standard Library. *)
Example div_spec_float :
  let of_Z n := SpecFloat.binary_normalize 53 1024 n 0 false in
  SpecFloat.SFdiv 53 1024 (of_Z 60) (of_Z 57) = SpecFloat.S754_finite false 4740631186705785 (-52) /\
  SpecFloat.SFdiv 53 1024 (of_Z 1) (of_Z 10) = SpecFloat.S754_finite false 7205759403792794 (-56) /\
  f_div 53 (dy_int 1) (dy_int 10) = mkDy 7205759403792794 (-56).
Proof. repeat split; vm_compute; reflexivity. Qed.
