(* ===== verification/NogoDifficulty.v ===== *)
(** * Difficulty and targets ([nogopow/difficulty_adjustment.go],
      [compatibility.go], and the targets of [nogopow.go])

    The proportional controller that computes the difficulty of a block from its
    parent and the time between them, its validation, the 32-bit wrapper of the
    older code, and the check of a hash against a difficulty.  The arithmetic of
    the controller is the one of [GoFloat]: [float64] for the ratio, [big.Float]
    for the product, each operation rounded. *)

From Stdlib Require Import ZArith Lia.
From S2P Require Import Prelude GoBig GoFloat NogoTypes.
Open Scope Z_scope.

(** ** Parameters *)

Record ConsensusParams := mkConsensusParams {
  ChainID : Z;
  DifficultyEnable : bool;
  BlockTimeTargetSeconds : Z;
  MinDifficulty : Z;
  MaxDifficultyChangePercent : Z;
  DifficultyAdjustmentInterval : Z }.

(** Integers of the platform, 64 bits. *)
Definition params_ok (p : ConsensusParams) : Prop :=
  i64_ok (BlockTimeTargetSeconds p) /\ i64_ok (MinDifficulty p).

Record DifficultyAdjuster := mkDifficultyAdjuster { consensusParams : ConsensusParams }.

Definition NewDifficultyAdjuster (p : option ConsensusParams) : DifficultyAdjuster :=
  match p with
  | None => mkDifficultyAdjuster (mkConsensusParams 0 false 60 0 100 0)
  | Some p => mkDifficultyAdjuster p
  end.

Definition kpGain : dy := mkDy 1 (-1).
Definition kpClampMax : dy := dy_int 2.
Definition kpClampMin : dy := mkDy 1 (-1).
Definition kpDeadband : dy := f_div 53 (dy_int 5) (dy_int 100).

(** ** The controller *)

(** [int64(currentTime) - int64(parent.Time)], at least one second. *)
Definition block_interval (currentTime parentTime : Z) : Z :=
  let interval := to_signed 64 (wrap_u64 (to_signed 64 currentTime - to_signed 64 parentTime)) in
  if interval <? 1 then 1 else interval.

Definition controller_ratio (targetTime interval : Z) : dy :=
  f_div 53 (float64_of_int targetTime) (float64_of_int interval).

(** [math.Abs(ratio-1.0) < kpDeadband]. *)
Definition in_deadband (ratio : dy) : bool :=
  dy_ltb (dy_abs (f_sub 53 ratio (dy_int 1))) kpDeadband.

Definition controller_adj (ratio : dy) : dy :=
  let adj := f_add 53 (dy_int 1) (f_mul 53 kpGain (f_sub 53 ratio (dy_int 1))) in
  if dy_ltb kpClampMax adj then kpClampMax
  else if dy_ltb adj kpClampMin then kpClampMin
  else adj.

(** The precision [SetInt] gives a number, and the constant that is added. *)
Definition big_float_prec (n : Z) : Z := Z.max (Z.log2 (Z.abs n) + 1) 64.
Definition almost_one : dy := f_div 53 (dy_int 999999) (dy_int 1000000).

(** [parentDiff * adj + 0.999999], truncated, at least one. *)
Definition adjust_difficulty (parentDiff : Z) (adj : dy) : Z :=
  let prec := big_float_prec parentDiff in
  let newDiffFloat := f_mul prec (dy_int parentDiff) adj in
  let ceiled := f_add prec newDiffFloat almost_one in
  let result := dy_trunc ceiled in
  if result <=? 0 then 1 else result.

Definition enforce_minimum (minDifficulty result : Z) : Z :=
  if 0 <? minDifficulty then (if result <? minDifficulty then minDifficulty else result)
  else result.

(** The difficulty of the parent the controller works with. *)
Definition parent_difficulty (d : Z) : Z := if d <=? 0 then 1 else d.

Definition target_time (p : ConsensusParams) : Z :=
  if BlockTimeTargetSeconds p <=? 0 then 60 else BlockTimeTargetSeconds p.

Definition DifficultyAdjuster_CalcDifficulty
    (da : DifficultyAdjuster) (currentTime : Z) (parent : option Header) : Z :=
  let p := consensusParams da in
  match parent with
  | Some h =>
      match Difficulty h with
      | Some d =>
          let parentDiff := parent_difficulty d in
          let targetTime := target_time p in
          let interval := block_interval currentTime (Time h) in
          let ratio := controller_ratio targetTime interval in
          if in_deadband ratio then parentDiff
          else
            enforce_minimum (MinDifficulty p)
              (adjust_difficulty parentDiff (controller_adj ratio))
      | None => if 0 <? MinDifficulty p then MinDifficulty p else 1
      end
  | None => if 0 <? MinDifficulty p then MinDifficulty p else 1
  end.

Definition DifficultyAdjuster_ValidateDifficulty
    (da : DifficultyAdjuster) (difficulty : option Z) (parent : option Header) : bool :=
  match difficulty with
  | None => false
  | Some difficulty =>
      if difficulty <=? 0 then false
      else if (0 <? MinDifficulty (consensusParams da)) &&
              (difficulty <? MinDifficulty (consensusParams da)) then false
      else
        match parent with
        | Some h =>
            match Difficulty h with
            | Some d =>
                if 0 <? d then negb (d * 2048 / 1000 <? difficulty) else true
            | None => true
            end
        | None => true
        end
  end.

(** ** The 32-bit wrapper *)

Record BlockHeader := mkBlockHeader {
  BH_Height : Z;
  BH_TimestampUnix : Z;
  BH_DifficultyBits : Z;
  BH_PrevHash : list byte;
  BH_Hash : list byte }.

Record DifficultyCalculator := mkDifficultyCalculator {
  adjuster : DifficultyAdjuster;
  dc_params : ConsensusParams }.

Definition NewDifficultyCalculator (p : option ConsensusParams) : DifficultyCalculator :=
  let p := match p with None => mkConsensusParams 0 false 30 0 100 0 | Some p => p end in
  mkDifficultyCalculator (NewDifficultyAdjuster (Some p)) p.

Definition maxDifficultyBits : Z := 2 ^ 32 - 1.

Definition CalcNextDifficulty
    (dc : DifficultyCalculator) (parent : option BlockHeader) (currentTime : Z) : Z :=
  match parent with
  | None => wrap_u32 (MinDifficulty (dc_params dc))
  | Some b =>
      let parentHeader :=
        mkHeader (repeat x00 32) (repeat x00 20) (repeat x00 32) (repeat x00 32)
          (Some (to_signed 64 (BH_Height b))) 0 (wrap_u64 (BH_TimestampUnix b)) []
          (repeat x00 32) (Some (BH_DifficultyBits b)) in
      let newDifficulty :=
        DifficultyAdjuster_CalcDifficulty (adjuster dc) currentTime (Some parentHeader) in
      let bits :=
        if 2 ^ 32 <=? Z.abs newDifficulty then maxDifficultyBits
        else
          let bits := wrap_u64 newDifficulty in
          if maxDifficultyBits <? bits then maxDifficultyBits else bits in
      let bits := if bits <? 1 then 1 else bits in
      wrap_u32 bits
  end.

Inductive DifficultyError := DifficultyMismatchError (height expected got : Z).

Definition DifficultyCalculator_ValidateDifficulty
    (dc : DifficultyCalculator) (parent current : option BlockHeader) : result DifficultyError () :=
  match parent, current with
  | Some p, Some c =>
      let expected := CalcNextDifficulty dc (Some p) (wrap_u64 (BH_TimestampUnix c)) in
      if BH_DifficultyBits c =? expected then Ok ()
      else Err (DifficultyMismatchError (BH_Height c) expected (BH_DifficultyBits c))
  | _, _ => Ok ()
  end.

Definition GetMinimumDifficulty (dc : DifficultyCalculator) : Z :=
  wrap_u32 (MinDifficulty (dc_params dc)).

Definition GetMaximumDifficulty : Z := maxDifficultyBits.

(** ** Targets *)

Definition difficultyToTarget (difficulty : option Z) : Z :=
  let maxTarget := 2 ^ 256 - 1 in
  match difficulty with
  | Some d => if d <=? 0 then maxTarget else maxTarget / d
  | None => maxTarget
  end.

Definition checkPow (hash : list byte) (difficulty : option Z) : bool :=
  big_SetBytes hash <=? difficultyToTarget difficulty.

(** ** Bounds of one step of the controller *)

Lemma controller_adj_bounds ratio :
  dy_le kpClampMin (controller_adj ratio) /\ dy_le (controller_adj ratio) kpClampMax.
Proof.
  unfold controller_adj. set (adj := f_add _ _ _). cbv zeta. unfold dy_ltb.
  destruct (dy_leb adj kpClampMax) eqn:E1; cbn [negb].
  - destruct (dy_leb kpClampMin adj) eqn:E2; cbn [negb].
    + split; by apply dy_leb_le.
    + split; [reflexivity|]. by vm_compute.
  - split; [by vm_compute|reflexivity].
Qed.

Lemma dy_le_pos m e x : 0 <= m -> dy_le (mkDy m e) x -> 0 <= dm x.
Proof.
  intros Hm H. unfold dy_le, scaled in H. cbn in H.
  pose proof (pow2_pos (e - Z.min e (de x)) ltac:(lia)).
  pose proof (pow2_pos (de x - Z.min e (de x)) ltac:(lia)). nia.
Qed.

Lemma dy_add_nonneg x y : 0 <= dm x -> 0 <= dm y -> 0 <= dm (dy_add x y).
Proof.
  intros Hx Hy. cbn. unfold scaled.
  pose proof (pow2_pos (de x - Z.min (de x) (de y)) ltac:(lia)).
  pose proof (pow2_pos (de y - Z.min (de x) (de y)) ltac:(lia)). nia.
Qed.

(** Comparing explicit numbers at a common exponent. *)
Ltac ground_exps :=
  repeat match goal with
  | |- context [2 ^ ?e] =>
      let v := eval vm_compute in (2 ^ e) in
      lazymatch v with Z0 => idtac | Zpos _ => idtac end;
      change (2 ^ e) with v
  end.

Ltac dy_at s :=
  rewrite (dy_le_scaled s); unfold kpClampMin, kpClampMax, dy_add, dy_mul, dy_int, scaled;
  cbn [dm de]; [|lia|lia]; ground_exps.

Lemma big_float_prec_spec d : 0 < d -> d < 2 ^ big_float_prec d /\ 64 <= big_float_prec d.
Proof.
  intros Hd. unfold big_float_prec. rewrite Z.abs_eq by lia. split; [|lia].
  eapply Z.lt_le_trans; [apply Z.log2_spec; lia|]. apply Z.pow_le_mono_r; lia.
Qed.

Lemma product_bounds d adj :
  0 < d -> dy_le kpClampMin adj -> dy_le adj kpClampMax ->
  let x := f_mul (big_float_prec d) (dy_int d) adj in
  dy_le (mkDy d (-1)) x /\ dy_le x (mkDy d 1).
Proof.
  intros Hd Hlo Hhi x. destruct (big_float_prec_spec d Hd) as [Hp Hp64].
  pose proof (dy_le_pos 1 (-1) adj ltac:(lia) Hlo) as Hadj.
  assert (Hpos : 0 <= dm (dy_mul (dy_int d) adj)) by (cbn; nia).
  apply (dy_mul_le d) in Hlo, Hhi; [|lia..]. unfold x, f_mul. split.
  - apply round_ge; [lia|done|lia|]. etrans; [|exact Hlo]. dy_at (-1). lia.
  - apply round_le; [lia|done|lia|]. etrans; [exact Hhi|]. dy_at 0. lia.
Qed.

Lemma almost_one_bounds : dy_le (mkDy 1 (-1)) almost_one /\ dy_le almost_one (mkDy (2 ^ 20 - 1) (-20)).
Proof. split; by vm_compute. Qed.

Lemma adjust_difficulty_bounds d adj :
  0 < d -> dy_le kpClampMin adj -> dy_le adj kpClampMax ->
  (d + 1) / 2 <= adjust_difficulty d adj <= 2 * d + 2 /\
  (d < 2 ^ 43 -> adjust_difficulty d adj <= 2 * d).
Proof.
  intros Hd Hlo Hhi. unfold adjust_difficulty.
  destruct (product_bounds d adj Hd Hlo Hhi) as [Hx1 Hx2].
  set (p := big_float_prec d) in *. set (x := f_mul p (dy_int d) adj) in *.
  destruct (big_float_prec_spec d Hd) as [Hp Hp64]. fold p in Hp, Hp64.
  destruct almost_one_bounds as [Hc1 Hc2]. cbv zeta.
  pose proof (dy_add_le _ _ _ _ Hx1 Hc1) as Hs1. pose proof (dy_add_le _ _ _ _ Hx2 Hc2) as Hs2.
  set (s := dy_add x almost_one) in *.
  assert (Hs : 0 <= dm s).
  { apply dy_add_nonneg; [|by vm_compute]. eapply dy_le_pos; [|exact Hx1]. lia. }
  pose proof (Z.div_mod (d + 1) 2). pose proof (Z.mod_pos_bound (d + 1) 2).
  assert (H1 : (d + 1) / 2 <= dy_trunc (dy_round p s)).
  { apply dy_trunc_ge; [lia|]. apply round_ge; [lia|done|lia|].
    etrans; [|exact Hs1]. dy_at (-1). lia. }
  assert (H2 : dy_trunc (dy_round p s) <= 2 * d + 2).
  { apply dy_trunc_le; [lia|].
    destruct (Z.eq_dec (d + 1) (2 ^ p)) as [E|E].
    - apply (transitivity (y := mkDy 1 (p + 1))).
      + apply round_le; [lia|done|split; [lia|apply (Z.pow_gt_1 2); lia]|].
        etrans; [exact Hs2|]. dy_at (-20).
        replace (p + 1 - -20) with (p + 21) by lia. rewrite Z.pow_add_r, <- E by lia. lia.
      + dy_at 0. rewrite !Z.sub_0_r, Z.pow_add_r, <- E by lia. lia.
    - apply (transitivity (y := mkDy (d + 1) 1)).
      + apply round_le; [lia|done|lia|]. etrans; [exact Hs2|]. dy_at (-20). lia.
      + dy_at 0. lia. }
  assert (H3 : d < 2 ^ 43 -> dy_trunc (dy_round p s) <= 2 * d).
  { intros Hd43. apply dy_trunc_lt; [lia|].
    assert (Hr : dy_le (dy_round p s) (mkDy (d * 2 ^ 21 + 2 ^ 20 - 1) (-20))).
    { apply round_le; [lia|done| |].
      - split; [lia|]. apply (Z.lt_le_trans _ (2 ^ 64)); [lia|]. apply Z.pow_le_mono_r; lia.
      - etrans; [exact Hs2|]. dy_at (-20). lia. }
    destruct (dy_leb (dy_int (2 * d + 1)) (dy_round p s)) eqn:E; [|done].
    apply dy_leb_le in E. exfalso. assert (Hc : dy_le (dy_int (2 * d + 1)) (mkDy (d * 2 ^ 21 + 2 ^ 20 - 1) (-20)))
      by (etrans; [exact E|exact Hr]).
    revert Hc.
    rewrite (dy_le_scaled (-20)) by (cbn; lia). unfold scaled, dy_int. cbn [dm de]. ground_exps. lia. }
  assert (0 < (d + 1) / 2) by lia. unfold f_add. fold s.
  destruct (Z.leb_spec (dy_trunc (dy_round p s)) 0); split; intros; lia.
Qed.

(** ** The controller as a whole *)

Lemma parent_difficulty_pos d : 0 < parent_difficulty d.
Proof. unfold parent_difficulty. case_bool; lia. Qed.

Lemma enforce_minimum_spec m r : enforce_minimum m r = Z.max r m \/ (m <= 0 /\ enforce_minimum m r = r).
Proof. unfold enforce_minimum. case_bools. Qed.

Lemma CalcDifficulty_range
    (da : DifficultyAdjuster) (currentTime : Z) (h : Header) (d : Z) :
  Difficulty h = Some d ->
  let r := DifficultyAdjuster_CalcDifficulty da currentTime (Some h) in
  let d' := parent_difficulty d in
  let m := MinDifficulty (consensusParams da) in
  (d' + 1) / 2 <= r <= Z.max (2 * d' + 2) m /\ (d' < 2 ^ 43 -> r <= Z.max (2 * d') m).
Proof.
  intros Hd r d' m. unfold r, DifficultyAdjuster_CalcDifficulty. rewrite Hd. fold d'. cbv zeta.
  pose proof (parent_difficulty_pos d) as Hpos. fold d' in Hpos.
  pose proof (Z.div_mod (d' + 1) 2). pose proof (Z.mod_pos_bound (d' + 1) 2).
  destruct (in_deadband _); [split; intros; lia|]. fold m.
  set (ratio := controller_ratio _ _).
  destruct (controller_adj_bounds ratio) as [Hlo Hhi].
  destruct (adjust_difficulty_bounds d' _ Hpos Hlo Hhi) as [Hb Hb43].
  destruct (enforce_minimum_spec m (adjust_difficulty d' (controller_adj ratio))) as [->|[Hm ->]];
    split; intros; try specialize (Hb43 ltac:(lia)); lia.
Qed.


Definition sample_adjuster : DifficultyAdjuster :=
  NewDifficultyAdjuster (Some (mkConsensusParams 1 true 30 1 50 10)).


(** What the controller computes is accepted by the validation, provided the
    parent has a positive difficulty that is not below the minimum itself. *)
Theorem CalcDifficulty_validates
    (da : DifficultyAdjuster) (currentTime : Z) (h : Header) (d : Z) :
  Difficulty h = Some d -> 0 < d -> MinDifficulty (consensusParams da) <= d ->
  DifficultyAdjuster_ValidateDifficulty da
    (Some (DifficultyAdjuster_CalcDifficulty da currentTime (Some h))) (Some h) = true.
Proof.
  intros Hd Hpos Hmin. destruct (CalcDifficulty_range da currentTime h d Hd) as [Hb Hb43].
  assert (Hge : MinDifficulty (consensusParams da) <=
    DifficultyAdjuster_CalcDifficulty da currentTime (Some h)).
  { unfold DifficultyAdjuster_CalcDifficulty. rewrite Hd. cbv zeta.
    assert (Hp : parent_difficulty d = d) by (unfold parent_difficulty; case_bool; lia). rewrite Hp.
    destruct (in_deadband _); [done|]. unfold enforce_minimum. case_bools.
    pose proof (controller_adj_bounds (controller_ratio (target_time (consensusParams da))
      (block_interval currentTime (Time h)))) as [Hlo Hhi].
    pose proof (adjust_difficulty_bounds d _ Hpos Hlo Hhi) as [Hb' _].
    pose proof (Z.div_pos (d + 1) 2). lia. }
  set (r := DifficultyAdjuster_CalcDifficulty da currentTime (Some h)) in *.
  assert (Hp : parent_difficulty d = d) by (unfold parent_difficulty; case_bool; lia).
  rewrite Hp in Hb, Hb43. pose proof (Z.div_mod (d + 1) 2). pose proof (Z.mod_pos_bound (d + 1) 2).
  unfold DifficultyAdjuster_ValidateDifficulty. rewrite Hd.
  destruct (Z.leb_spec r 0); [lia|]. destruct (Z.ltb_spec r (MinDifficulty (consensusParams da))); [lia|].
  rewrite andb_false_r. destruct (Z.ltb_spec 0 d); [|done].
  destruct (Z.ltb_spec (d * 2048 / 1000) r) as [Hc|]; [|done]. exfalso.
  pose proof (Z.div_mod (d * 2048) 1000). pose proof (Z.mod_pos_bound (d * 2048) 1000).
  destruct (Z.lt_ge_cases d (2 ^ 43)) as [H43|H43]; [specialize (Hb43 H43)|]; lia.
Qed.

Lemma CalcDifficulty_validates_witness :
  DifficultyAdjuster_ValidateDifficulty sample_adjuster
    (Some (DifficultyAdjuster_CalcDifficulty sample_adjuster 1005
      (Some (sample_header 1 0 1000 [] 1000)))) (Some (sample_header 1 0 1000 [] 1000)) = true.
Proof.
  apply (CalcDifficulty_validates _ _ _ 1000); [reflexivity|lia|vm_compute; congruence].
Defined.

(** Without that condition the two disagree: the deadband returns the difficulty
    of the parent without raising it to the minimum, and a step up to the minimum
    may be more than the validation allows. *)
Theorem CalcDifficulty_rejected_below_minimum :
  let da := NewDifficultyAdjuster (Some (mkConsensusParams 1 true 60 100 50 10)) in
  let h := sample_header 1 0 1000 [] 40 in
  DifficultyAdjuster_CalcDifficulty da 1060 (Some h) = 40 /\
  DifficultyAdjuster_ValidateDifficulty da (Some 40) (Some h) = false /\
  DifficultyAdjuster_CalcDifficulty da 1005 (Some h) = 100 /\
  DifficultyAdjuster_ValidateDifficulty da (Some 100) (Some h) = false.
Proof. repeat split; vm_compute; reflexivity. Qed.

(** The comments give [57, 63] seconds as the deadband of a target of 60; at 57
    seconds the ratio is already outside. *)
Theorem deadband_is_58_to_63 :
  let da := NewDifficultyAdjuster (Some (mkConsensusParams 1 true 60 1 50 10)) in
  map (fun t => DifficultyAdjuster_CalcDifficulty da (1000 + t)
                  (Some (sample_header 1 0 1000 [] 10000)))
      [56; 57; 58; 59; 60; 61; 62; 63; 64] =
  [10358; 10264; 10000; 10000; 10000; 10000; 10000; 10000; 9688].
Proof. vm_compute. reflexivity. Qed.

(** The other rows of the table of the comments. *)
Example controller_table :
  let da := NewDifficultyAdjuster (Some (mkConsensusParams 1 true 60 1 50 10)) in
  map (fun t => DifficultyAdjuster_CalcDifficulty da (1000 + t)
                  (Some (sample_header 1 0 1000 [] 1000)))
      [5; 40; 90; 120; 300] = [2000; 1250; 834; 750; 600].
Proof. vm_compute. reflexivity. Qed.

(** ** The 32-bit wrapper *)

(** The wrapper saturates: its result is the one of the controller, or the
    largest 32-bit number, and never zero. *)
Lemma CalcNextDifficulty_saturates dc b currentTime :
  u32_ok (BH_DifficultyBits b) ->
  exists r,
    r = DifficultyAdjuster_CalcDifficulty (adjuster dc) currentTime
          (Some (mkHeader (repeat x00 32) (repeat x00 20) (repeat x00 32) (repeat x00 32)
            (Some (to_signed 64 (BH_Height b))) 0 (wrap_u64 (BH_TimestampUnix b)) []
            (repeat x00 32) (Some (BH_DifficultyBits b)))) /\
    CalcNextDifficulty dc (Some b) currentTime = Z.min r maxDifficultyBits /\
    1 <= CalcNextDifficulty dc (Some b) currentTime <= maxDifficultyBits.
Proof.
  intros Hb. unfold CalcNextDifficulty. set (h := mkHeader _ _ _ _ _ _ _ _ _ _). cbv zeta.
  destruct (CalcDifficulty_range (adjuster dc) currentTime h (BH_DifficultyBits b) eq_refl) as [Hr _].
  set (r := DifficultyAdjuster_CalcDifficulty _ _ _) in *.
  pose proof (parent_difficulty_pos (BH_DifficultyBits b)).
  pose proof (Z.div_mod (parent_difficulty (BH_DifficultyBits b) + 1) 2).
  pose proof (Z.mod_pos_bound (parent_difficulty (BH_DifficultyBits b) + 1) 2).
  exists r. split; [done|]. rewrite Z.abs_eq by lia. unfold maxDifficultyBits.
  destruct (Z.leb_spec (2 ^ 32) r) as [Hc|Hc].
  - change (wrap_u32 (if 2 ^ 32 - 1 <? 1 then 1 else 2 ^ 32 - 1)) with (2 ^ 32 - 1). lia.
  - replace (wrap_u64 r) with r by (unfold wrap_u64; rewrite Z.mod_small; lia).
    destruct (Z.ltb_spec (2 ^ 32 - 1) r); [lia|]. destruct (Z.ltb_spec r 1); [lia|].
    unfold wrap_u32. rewrite Z.mod_small; lia.
Qed.

(** ** Targets *)

Lemma difficultyToTarget_range d : 0 <= difficultyToTarget d <= 2 ^ 256 - 1.
Proof.
  unfold difficultyToTarget. destruct d as [d|]; [|lia].
  destruct (Z.leb_spec d 0); [lia|]. split; [apply Z.div_pos; lia|].
  apply Z.div_le_upper_bound; [done|].
  assert (1 * (2 ^ 256 - 1) <= d * (2 ^ 256 - 1)) by (apply Z.mul_le_mono_nonneg_r; lia). lia.
Qed.

(** A hash passes a positive difficulty exactly when their product fits 256
    bits, so a hash that passes a difficulty passes every lower one. *)
Theorem checkPow_correct (hash : list byte) (d : Z) :
  0 < d ->
  (checkPow hash (Some d) = true <-> be_get hash * d <= 2 ^ 256 - 1) /\
  (forall d', 0 < d' <= d -> checkPow hash (Some d) = true -> checkPow hash (Some d') = true).
Proof.
  assert (Hspec : forall e, 0 < e -> checkPow hash (Some e) = true <-> be_get hash * e <= 2 ^ 256 - 1).
  { intros e He. unfold checkPow, difficultyToTarget. change (big_SetBytes hash) with (be_get hash).
    destruct (Z.leb_spec e 0); [lia|]. rewrite Z.leb_le. set (t := 2 ^ 256 - 1).
    pose proof (Z.div_mod t e ltac:(lia)). pose proof (Z.mod_pos_bound t e He). split; intros Hc.
    - apply (Z.mul_le_mono_nonneg_r _ _ e) in Hc; lia.
    - apply Z.div_le_lower_bound; lia. }
  intros Hd. split; [by apply Hspec|]. intros d' Hd'. rewrite !Hspec by lia. intros Hc.
  pose proof (be_get_range hash) as [Hr _]. etrans; [|exact Hc]. apply Z.mul_le_mono_nonneg_l; lia.
Qed.

Lemma checkPow_correct_witness :
  checkPow (repeat x00 31 ++ [x05]) (Some 1000) = true.
Proof.
  apply (proj1 (checkPow_correct (repeat x00 31 ++ [x05]) 1000 ltac:(lia))).
  vm_compute. congruence.
Defined.

Lemma checkPow_free (hash : list byte) (d : option Z) :
  length hash = 32%nat -> (match d with Some d => d <= 0 | None => True end) ->
  checkPow hash d = true.
Proof.
  intros Hl Hd. unfold checkPow. apply Z.leb_le.
  assert (Ht : difficultyToTarget d = 2 ^ 256 - 1).
  { unfold difficultyToTarget. destruct d as [d|]; [|done]. case_bool; [done|lia]. }
  rewrite Ht. pose proof (be_get_range hash) as Hr. rewrite Hl in Hr.
  change (big_SetBytes hash) with (be_get hash).
  change (256 ^ Z.of_nat 32) with (2 ^ 256) in Hr. lia.
Qed.

(** A zero or negative difficulty accepts every hash: the comment on the target
    says that such blocks are effectively rejected. *)
Theorem checkPow_no_difficulty (hash : list byte) (d : option Z) :
  length hash = 32%nat -> (match d with Some d => d <= 0 | None => True end) ->
  checkPow hash d = true.
Proof. apply checkPow_free. Qed.

Lemma checkPow_no_difficulty_witness : checkPow (repeat xff 32) (Some 0) = true.
Proof. exact (checkPow_no_difficulty (repeat xff 32) (Some 0) eq_refl (Z.le_refl 0)). Defined.
