(* ===== verification/NogoMatrix.v ===== *)
(** * The matrices of NogoPow ([nogopow/matrix.go])

    Fixed-point numbers with 24 fractional bits in an [int64], the three matrix
    products of the code (plain, split over workers, and in blocks of 32), the
    chain of 64 products that one header is put through, and the final hash.

    A matrix is a flat list; an index beyond the end, which would panic, reads 0
    here, and [flat_index] shows that the loops stay inside.  The goroutines of
    [mulMatrix] and [mulMatrixPooled] share nothing but their inputs, so they are
    run one after the other.  Keccak-256 of [golang.org/x/crypto] is a parameter. *)

From Stdlib Require Import ZArith Lia.
From S2P Require Import Prelude GoFloat.
Open Scope Z_scope.

(** ** Fixed point *)

Definition FixedPointFactor : Z := 2 ^ 24.
Definition FixedPointHalf : Z := 2 ^ 23.
Definition FixedPointShift : Z := 24.

Definition wrap_i8 (z : Z) : Z := to_signed 8 (z mod 2 ^ 8).

Definition toFixed (val : dy) : Z := dy_trunc (f_mul 53 val (dy_int FixedPointFactor)).

Definition fromFixed (val : Z) : Z :=
  let rounded := Z.shiftr (wrap_i64 (val + FixedPointHalf)) FixedPointShift in
  if 127 <? rounded then 127
  else if rounded <? -128 then -128
  else rounded.

Definition toFixedShift (v : Z) : Z := wrap_i64 (Z.shiftl v FixedPointShift).

(** One rounded product, as it is added to a sum. *)
Definition term (x y : Z) : Z :=
  Z.shiftr (wrap_i64 (wrap_i64 (x * y) + FixedPointHalf)) FixedPointShift.

(** ** Matrices *)

Record denseMatrix := mkDense { data : list Z; rows : nat; cols : nat }.

Definition matSize : nat := 256.
Definition matNum : nat := 256.

Definition At (m : denseMatrix) (row col : nat) : Z := nth (row * cols m + col) (data m) 0.

Definition Set_ (m : denseMatrix) (row col : nat) (v : Z) : denseMatrix :=
  mkDense (<[(row * cols m + col)%nat := v]> (data m)) (rows m) (cols m).

(** [for i := lo; i < hi; i++ { s = f(s, i) }]. *)
Definition range (lo hi : nat) : list nat := seq lo (hi - lo).
Definition for_ {S} (l : list nat) (f : S -> nat -> S) (s : S) : S := foldl f s l.

(** [clear(m.data[:n])]. *)
Definition clear_prefix (n : nat) (d : list Z) : list Z := repeat 0 n ++ drop n d.

Definition Reset (m : denseMatrix) (r c : nat) : denseMatrix :=
  if (rows m <? r)%nat || (cols m <? c)%nat
  then mkDense (repeat 0 (r * c)) r c
  else mkDense (clear_prefix (r * c) (data m)) r c.

(** [GetMatrix] resets what the pool holds. *)
Definition GetMatrix (pooled : denseMatrix) (r c : nat) : denseMatrix := Reset pooled r c.

(** [None] is the panic of an identity with more rows than columns. *)
Definition newDenseMatrix (r c : nat) (d : option (list Z)) : option denseMatrix :=
  match d with
  | Some d => Some (mkDense d r c)
  | None =>
      if (0 <? r)%nat && (r * c <=? (r - 1) * c + (r - 1))%nat then None
      else Some (mkDense (for_ (range 0 r) (fun d i => <[(i * c + i)%nat := FixedPointFactor]> d)
                           (repeat 0 (r * c))) r c)
  end.

Definition T (m : denseMatrix) : denseMatrix :=
  mkDense
    (for_ (range 0 (rows m)) (fun d i =>
       for_ (range 0 (cols m)) (fun d j =>
         <[(j * rows m + i)%nat := nth (i * cols m + j) (data m) 0]> d) d)
     (repeat 0 (rows m * cols m)))
    (cols m) (rows m).

(** ** Products *)

(** The sum over [k] that all products compute. *)
Definition dot (a b : denseMatrix) (n i j : nat) : Z :=
  for_ (range 0 n) (fun sum k => wrap_i64 (sum + term (At a i k) (At b k j))) 0.

Definition mulMatrixInto (dst a b : denseMatrix) (size : nat) : denseMatrix :=
  for_ (range 0 size) (fun dst i =>
    for_ (range 0 size) (fun dst j => Set_ dst i j (dot a b size i j)) dst) dst.

Inductive MatrixError := DimensionMismatch (aCols bRows : nat) | MulPanic.

(** The rows of worker [w]. *)
Definition worker_rows (m : denseMatrix) (rowsPerWorker w : nat) : list nat :=
  let startRow := (w * rowsPerWorker)%nat in
  let endRow := (startRow + rowsPerWorker)%nat in
  let endRow := if (rows m <? endRow)%nat then rows m else endRow in
  range startRow endRow.

(** [numCPU] is [runtime.NumCPU()]; without rows the division panics. *)
Definition Mul (numCPU : nat) (m a b : denseMatrix) : result MatrixError denseMatrix :=
  if negb (cols a =? rows b)%nat then Err (DimensionMismatch (cols a) (rows b))
  else
    let numWorkers := if (rows m <? numCPU)%nat then rows m else numCPU in
    if (numWorkers =? 0)%nat then Err MulPanic
    else
      let rowsPerWorker := ((rows m + numWorkers - 1) / numWorkers)%nat in
      Ok (for_ (range 0 numWorkers) (fun m' w =>
            for_ (worker_rows m rowsPerWorker w) (fun m' i =>
              for_ (range 0 (cols b)) (fun m' j => Set_ m' i j (dot a b (cols a) i j)) m') m') m).

Definition blockSize : nat := 32.

(** [0, 32, 64, ...] below [size]. *)
Definition block_starts (size : nat) : list nat :=
  map (fun n => n * blockSize)%nat (seq 0 ((size + blockSize - 1) / blockSize)).

Definition block_end (s size : nat) : nat :=
  if (size <? s + blockSize)%nat then size else (s + blockSize)%nat.

Definition mulMatrixBlocked (dst a b : list Z) (size : nat) : list Z :=
  let dst := for_ (range 0 (size * size)) (fun dst i => <[i := 0]> dst) dst in
  for_ (block_starts size) (fun dst i0 =>
    let i1 := block_end i0 size in
    for_ (block_starts size) (fun dst k0 =>
      let k1 := block_end k0 size in
      for_ (block_starts size) (fun dst j0 =>
        let j1 := block_end j0 size in
        for_ (range i0 i1) (fun dst i =>
          for_ (range k0 k1) (fun dst k =>
            let valA := nth (i * size + k) a 0 in
            if valA =? 0 then dst
            else
              for_ (range j0 j1) (fun dst j =>
                <[(i * size + j)%nat :=
                    wrap_i64 (nth (i * size + j) dst 0 + term valA (nth (k * size + j) b 0))]> dst)
                dst) dst) dst) dst) dst) dst.

(** ** Loops over an array, seen at one index *)

(** What a loop does to an observation [g] of its state, when every turn acts on
    the observation by [h] and keeps the invariant [I]. *)
Lemma for_view {S B} (I : S -> Prop) (g : S -> B) (F : S -> nat -> S) (h : B -> nat -> B) l s :
  (forall s i, In i l -> I s -> I (F s i) /\ g (F s i) = h (g s) i) -> I s ->
  I (for_ l F s) /\ g (for_ l F s) = for_ l h (g s).
Proof.
  unfold for_. revert s. induction l as [|i l IH]; intros s HF Hs; [done|]. cbn [foldl].
  destruct (HF s i (or_introl eq_refl) Hs) as [HI <-].
  apply IH; [|done]. intros s' i' Hi'. apply HF. by right.
Qed.

(** A loop in which one index acts, and at most once. *)
Lemma for_single {B} (f : B -> B) t lo hi (x : B) :
  for_ (range lo hi) (fun x i => if (i =? t)%nat then f x else x) x =
  if (lo <=? t)%nat && (t <? hi)%nat then f x else x.
Proof.
  unfold for_, range. destruct (Nat.leb_spec hi lo) as [Hle|Hlt].
  - replace (hi - lo)%nat with 0%nat by lia. cbn [seq foldl].
    destruct (Nat.leb_spec lo t), (Nat.ltb_spec t hi); try lia; done.
  - remember (hi - lo)%nat as n eqn:Hn.
    assert (Hhi : hi = (lo + n)%nat) by lia. clear Hn Hlt. subst hi.
    revert lo x. induction n as [|n IH]; intros lo x; cbn [seq foldl].
    + destruct (Nat.leb_spec lo t), (Nat.ltb_spec t (lo + 0)); try lia; done.
    + rewrite IH. destruct (Nat.eqb_spec lo t) as [->|Hne].
      * destruct (Nat.leb_spec (S t) t), (Nat.leb_spec t t), (Nat.ltb_spec t (t + S n)); try lia; done.
      * destruct (Nat.leb_spec (S lo) t), (Nat.leb_spec lo t), (Nat.ltb_spec t (S lo + n)),
          (Nat.ltb_spec t (lo + S n)); try lia; done.
Qed.

Lemma for_const {B} (l : list nat) (x : B) : for_ l (fun x _ => x) x = x.
Proof. unfold for_. by induction l. Qed.

Lemma for_ext {B} l (f g : B -> nat -> B) x :
  (forall x i, In i l -> f x i = g x i) -> for_ l f x = for_ l g x.
Proof.
  unfold for_. revert x. induction l as [|i l IH]; intros x H; [done|]. cbn [foldl].
  rewrite (H x i (or_introl eq_refl)). apply IH. intros. apply H. by right.
Qed.

Lemma in_range i lo hi : In i (range lo hi) <-> (lo <= i < hi)%nat.
Proof. unfold range. rewrite in_seq. lia. Qed.

(** *** The blocks partition the indices *)

Lemma in_block_starts s size : In s (block_starts size) -> (s < size)%nat.
Proof.
  unfold block_starts, blockSize. rewrite in_map_iff. intros (n & <- & Hn%in_seq).
  pose proof (Nat.div_mod (size + 32 - 1) 32 ltac:(lia)).
  pose proof (Nat.mod_upper_bound (size + 32 - 1) 32 ltac:(lia)). nia.
Qed.

Lemma block_end_le s size : (s < size)%nat -> (block_end s size <= size)%nat.
Proof. unfold block_end, blockSize. nat_bool; lia. Qed.

Lemma for_map {B} (h : nat -> nat) l (f : B -> nat -> B) x :
  for_ (map h l) f x = for_ l (fun x i => f x (h i)) x.
Proof. unfold for_. revert x. by induction l; intros; cbn; auto. Qed.

Lemma block_end_min s size : block_end s size = Nat.min (s + 32) size.
Proof. unfold block_end, blockSize. nat_bool; lia. Qed.

(** Exactly one block contains an index. *)
Lemma for_block {B} (f : B -> B) t size (x : B) :
  (t < size)%nat ->
  for_ (block_starts size)
    (fun x s => if (s <=? t)%nat && (t <? block_end s size)%nat then f x else x) x = f x.
Proof.
  intros Ht. unfold block_starts. rewrite for_map.
  pose proof (Nat.div_mod (size + 32 - 1) 32 ltac:(lia)).
  pose proof (Nat.mod_upper_bound (size + 32 - 1) 32 ltac:(lia)).
  pose proof (Nat.div_mod t 32 ltac:(lia)). pose proof (Nat.mod_upper_bound t 32 ltac:(lia)).
  set (nb := ((size + blockSize - 1) / blockSize)%nat) in *.
  assert (Hnb : nb = ((size + 32 - 1) / 32)%nat) by done.
  rewrite (for_ext _ _ (fun x n => if (n =? t / 32)%nat then f x else x)).
  - replace (seq 0 nb) with (range 0 nb) by (unfold range; f_equal; lia).
    assert (t / 32 < nb)%nat by nia.
    rewrite for_single. destruct (Nat.leb_spec 0 (t / 32)), (Nat.ltb_spec (t / 32) nb); try lia; done.
  - intros y n Hn%in_seq. rewrite block_end_min. unfold blockSize.
    destruct (Nat.eqb_spec n (t / 32)) as [->|Hne]; repeat nat_bool; try lia; done.
Qed.

Lemma range_app a b c : (a <= b <= c)%nat -> range a c = range a b ++ range b c.
Proof. intros H. unfold range. replace (c - a)%nat with ((b - a) + (c - b))%nat by lia.
  rewrite seq_app. do 2 f_equal. lia. Qed.

(** The loops over the blocks go through the indices in order. *)
Lemma for_blocks {B} (f : B -> nat -> B) size (x : B) :
  for_ (block_starts size) (fun x s => for_ (range s (block_end s size)) f x) x =
  for_ (range 0 size) f x.
Proof.
  unfold block_starts. rewrite for_map.
  pose proof (Nat.div_mod (size + 32 - 1) 32 ltac:(lia)).
  pose proof (Nat.mod_upper_bound (size + 32 - 1) 32 ltac:(lia)).
  set (nb := ((size + blockSize - 1) / blockSize)%nat) in *.
  assert (Hnb : nb = ((size + 32 - 1) / 32)%nat) by done.
  assert (Hgen : forall n, (n <= nb)%nat ->
    for_ (seq 0 n) (fun x s => for_ (range (s * blockSize) (block_end (s * blockSize) size)) f x) x =
    for_ (range 0 (Nat.min (n * 32) size)) f x).
  { induction n as [|n IH]; intros Hn; [done|].
    rewrite seq_S. unfold for_ at 1. rewrite foldl_app. cbn [foldl Nat.add].
    fold (for_ (seq 0 n) (fun x s => for_ (range (s * blockSize) (block_end (s * blockSize) size)) f x) x).
    rewrite IH by lia.
    assert (Hlt : (n * 32 < size)%nat) by nia.
    assert (He : block_end (n * blockSize) size = Nat.min (S n * 32) size).
    { rewrite block_end_min. unfold blockSize. lia. }
    rewrite He, (Nat.min_l (n * 32) size) by lia. unfold blockSize.
    rewrite (range_app 0 (n * 32) (Nat.min (S n * 32) size)) by lia.
    unfold for_. by rewrite foldl_app. }
  rewrite Hgen by done. rewrite Nat.min_r; [done|]. nia.
Qed.

(** ** The blocked product *)

(** All accesses of the loops over square matrices are in range, and different
    cells have different indices. *)
Lemma flat_index size i j : (i < size)%nat -> (j < size)%nat -> (i * size + j < size * size)%nat.
Proof. nia. Qed.

Lemma flat_index_inj size i j i' j' :
  (j < size)%nat -> (j' < size)%nat -> (i * size + j = i' * size + j')%nat -> i = i' /\ j = j'.
Proof.
  intros Hj Hj' H. assert (i = i'); [|split; lia].
  destruct (Nat.lt_trichotomy i i') as [?|[?|?]]; [|done|]; nia.
Qed.

Lemma nth_insert (l : list Z) p q v :
  nth p (<[q := v]> l) 0 = if (p =? q)%nat && (q <? length l)%nat then v else nth p l 0.
Proof.
  rewrite <- !nth_default_eq. unfold nth_default. change @nth_error with (fun A (l : list A) n => nth_error l n).
  assert (Hn : forall (l : list Z) n, nth_error l n = l !! n).
  { clear. induction l; intros [|n]; cbn; auto. }
  rewrite !Hn. destruct (Nat.eqb_spec p q) as [->|Hne].
  - destruct (Nat.ltb_spec q (length l)).
    + by rewrite list_lookup_insert_eq.
    + by rewrite list_insert_ge.
  - by rewrite list_lookup_insert_ne.
Qed.

Lemma term_0 y : term 0 y = 0.
Proof. reflexivity. Qed.

Section Blocked.
Context (a b : list Z) (size : nat).

(** What one turn of the inner loop does to the sum of cell [(I, J)]. *)
Definition cell_step (I J : nat) (x : Z) (k : nat) : Z :=
  if nth (I * size + k) a 0 =? 0 then x
  else wrap_i64 (x + term (nth (I * size + k) a 0) (nth (k * size + J) b 0)).

Definition block_body (i0 k0 j0 : nat) (dst : list Z) : list Z :=
  for_ (range i0 (block_end i0 size)) (fun dst i =>
    for_ (range k0 (block_end k0 size)) (fun dst k =>
      let valA := nth (i * size + k) a 0 in
      if valA =? 0 then dst
      else
        for_ (range j0 (block_end j0 size)) (fun dst j =>
          <[(i * size + j)%nat :=
              wrap_i64 (nth (i * size + j) dst 0 + term valA (nth (k * size + j) b 0))]> dst)
          dst) dst) dst.

Context (I J : nat) (HI : (I < size)%nat) (HJ : (J < size)%nat).

Definition room (dst : list Z) : Prop := (size * size <= length dst)%nat.
Definition cell (dst : list Z) : Z := nth (I * size + J) dst 0.

Lemma inner_view i k j0 dst :
  (i < size)%nat -> (j0 < size)%nat -> room dst ->
  let F := for_ (range j0 (block_end j0 size)) (fun dst j =>
    <[(i * size + j)%nat :=
        wrap_i64 (nth (i * size + j) dst 0 +
                  term (nth (i * size + k) a 0) (nth (k * size + j) b 0))]> dst) dst in
  room F /\
  cell F = if (i =? I)%nat && ((j0 <=? J)%nat && (J <? block_end j0 size)%nat)
           then wrap_i64 (cell dst + term (nth (I * size + k) a 0) (nth (k * size + J) b 0))
           else cell dst.
Proof.
  intros Hi Hj0 Hroom F. pose proof (block_end_le j0 size Hj0).
  set (h := fun (x : Z) (j : nat) => if (j =? J)%nat then
    (if (i =? I)%nat then wrap_i64 (x + term (nth (I * size + k) a 0) (nth (k * size + J) b 0)) else x) else x).
  destruct (for_view room cell (fun dst j =>
    <[(i * size + j)%nat :=
        wrap_i64 (nth (i * size + j) dst 0 +
                  term (nth (i * size + k) a 0) (nth (k * size + j) b 0))]> dst) h
    (range j0 (block_end j0 size)) dst) as [Hr Hc].
  - intros d j Hj%in_range Hd. unfold room in *. rewrite length_insert. split; [done|].
    unfold cell, h. rewrite nth_insert.
    pose proof (flat_index size i j Hi ltac:(lia)).
    destruct (Nat.ltb_spec (i * size + j) (length d)); [|lia]. rewrite andb_true_r.
    destruct (Nat.eqb_spec (I * size + J) (i * size + j)) as [E|E].
    + apply flat_index_inj in E as [-> ->]; [|lia..]. by rewrite !Nat.eqb_refl.
    + destruct (Nat.eqb_spec j J) as [->|]; [|done]. destruct (Nat.eqb_spec i I) as [->|]; [|done].
      by destruct E.
  - done.
  - split; [done|]. unfold F. rewrite Hc. unfold h.
    rewrite (for_single (fun x => if (i =? I)%nat
      then wrap_i64 (x + term (nth (I * size + k) a 0) (nth (k * size + J) b 0)) else x)).
    destruct (i =? I)%nat; cbn [andb]; [done|]. by destruct (_ && _).
Qed.

Lemma block_body_view i0 k0 j0 dst :
  (i0 < size)%nat -> (k0 < size)%nat -> (j0 < size)%nat -> room dst ->
  room (block_body i0 k0 j0 dst) /\
  cell (block_body i0 k0 j0 dst) =
    if (i0 <=? I)%nat && (I <? block_end i0 size)%nat then
      (if (j0 <=? J)%nat && (J <? block_end j0 size)%nat
       then for_ (range k0 (block_end k0 size)) (cell_step I J) (cell dst) else cell dst)
    else cell dst.
Proof.
  intros Hi0 Hk0 Hj0 Hroom. pose proof (block_end_le i0 size Hi0).
  unfold block_body.
  set (cj := (j0 <=? J)%nat && (J <? block_end j0 size)%nat).
  edestruct (for_view room cell) as [Hr Hc]; [| |split; [exact Hr|rewrite Hc]].
  2: exact Hroom.
  - intros d i Hi%in_range Hd. cbv beta.
    edestruct (for_view room cell) as [Hr' Hc']; [| |split; [exact Hr'|rewrite Hc']].
    2: exact Hd.
    + intros d' k _ Hd'. cbv beta zeta.
      instantiate (1 := fun x k => if (i =? I)%nat && cj then cell_step I J x k else x).
      cbv beta. unfold cell_step.
      destruct (Z.eqb_spec (nth (i * size + k) a 0) 0) as [E|E].
      * split; [done|]. destruct (Nat.eqb_spec i I) as [->|]; [|done]. rewrite E.
        cbn [andb Z.eqb]. by destruct cj.
      * destruct (inner_view i k j0 d' ltac:(lia) Hj0 Hd') as [Hr'' Hc'']. split; [done|].
        rewrite Hc''. fold cj. destruct (Nat.eqb_spec i I) as [->|]; [|done].
        cbn [andb]. destruct cj; [|done]. destruct (Z.eqb_spec (nth (I * size + k) a 0) 0); done.
    + instantiate (1 := fun x i => if (i =? I)%nat
        then (if cj then for_ (range k0 (block_end k0 size)) (cell_step I J) x else x) else x).
      cbv beta. destruct (i =? I)%nat; cbn [andb]; [destruct cj; [done|]|]; apply for_const.
  - apply (for_single (fun x => if cj then for_ (range k0 (block_end k0 size)) (cell_step I J) x else x)).
Qed.

Lemma mulMatrixBlocked_cell dst :
  room dst ->
  room (mulMatrixBlocked dst a b size) /\
  cell (mulMatrixBlocked dst a b size) = for_ (range 0 size) (cell_step I J) 0.
Proof.
  intros Hroom. unfold mulMatrixBlocked. cbv zeta.
  set (z := for_ (range 0 (size * size)) (fun dst i => <[i := 0]> dst) dst).
  assert (Hz : room z /\ cell z = 0).
  { destruct (for_view room cell (fun dst i => <[i := 0]> dst)
      (fun x i => if (i =? I * size + J)%nat then 0 else x) (range 0 (size * size)) dst) as [Hr Hc].
    - intros d i Hi%in_range Hd. unfold room, cell in *. rewrite length_insert, nth_insert.
      split; [done|]. rewrite Nat.eqb_sym.
      destruct (Nat.ltb_spec i (length d)); [|lia]. by rewrite andb_true_r.
    - done.
    - split; [exact Hr|]. unfold z. rewrite Hc, (for_single (fun _ => 0)).
      pose proof (flat_index size I J HI HJ). by destruct (Nat.leb_spec 0 (I * size + J)),
        (Nat.ltb_spec (I * size + J) (size * size)); try lia. }
  destruct Hz as [Hz Hz0]. clearbody z.
  replace (for_ (range 0 size) (cell_step I J) 0) with
    (for_ (range 0 size) (cell_step I J) (cell z)) by by rewrite Hz0.
  change (room (for_ (block_starts size) (fun dst i0 =>
      for_ (block_starts size) (fun dst k0 =>
        for_ (block_starts size) (fun dst j0 => block_body i0 k0 j0 dst) dst) dst) z) /\
    cell (for_ (block_starts size) (fun dst i0 =>
      for_ (block_starts size) (fun dst k0 =>
        for_ (block_starts size) (fun dst j0 => block_body i0 k0 j0 dst) dst) dst) z) =
    for_ (range 0 size) (cell_step I J) (cell z)).
  set (ci := fun i0 => (i0 <=? I)%nat && (I <? block_end i0 size)%nat).
  set (cj := fun j0 => (j0 <=? J)%nat && (J <? block_end j0 size)%nat).
  set (hk := fun k0 x => for_ (range k0 (block_end k0 size)) (cell_step I J) x).
  destruct (for_view room cell (fun dst i0 => for_ (block_starts size) (fun dst k0 =>
        for_ (block_starts size) (fun dst j0 => block_body i0 k0 j0 dst) dst) dst)
    (fun x i0 => if ci i0 then for_ (range 0 size) (cell_step I J) x else x)
    (block_starts size) z) as [Hr Hc]; [|done|].
  - intros d i0 Hi0%in_block_starts Hd.
    destruct (for_view room cell (fun dst k0 =>
        for_ (block_starts size) (fun dst j0 => block_body i0 k0 j0 dst) dst)
      (fun x k0 => if ci i0 then hk k0 x else x) (block_starts size) d) as [Hr Hc]; [|done|].
    + intros d' k0 Hk0%in_block_starts Hd'.
      destruct (for_view room cell (fun dst j0 => block_body i0 k0 j0 dst)
        (fun x j0 => if ci i0 then (if cj j0 then hk k0 x else x) else x)
        (block_starts size) d') as [Hr Hc]; [|done|].
      * intros d'' j0 Hj0%in_block_starts Hd''. exact (block_body_view i0 k0 j0 d'' Hi0 Hk0 Hj0 Hd'').
      * split; [exact Hr|]. rewrite Hc. destruct (ci i0); [|apply for_const].
        apply (for_block (hk k0) J size _ HJ).
    + split; [exact Hr|]. rewrite Hc. destruct (ci i0); [|apply for_const]. apply for_blocks.
  - split; [exact Hr|]. rewrite Hc.
    apply (for_block (fun x => for_ (range 0 size) (cell_step I J) x) I size _ HI).
Qed.

(** Skipping a zero operand adds nothing, so the cell is the plain sum. *)
Lemma cell_step_dot l x :
  - 2 ^ 63 <= x < 2 ^ 63 ->
  for_ l (cell_step I J) x =
  for_ l (fun x k => wrap_i64 (x + term (nth (I * size + k) a 0) (nth (k * size + J) b 0))) x.
Proof.
  unfold for_. revert x. induction l as [|k l IH]; intros x Hx; [done|]. cbn [foldl].
  assert (E : cell_step I J x k =
    wrap_i64 (x + term (nth (I * size + k) a 0) (nth (k * size + J) b 0))).
  { unfold cell_step. destruct (Z.eqb_spec (nth (I * size + k) a 0) 0) as [->|]; [|done].
    rewrite term_0, Z.add_0_r. by rewrite wrap_i64_small. }
  rewrite E. apply IH, wrap_i64_range.
Qed.

End Blocked.

Lemma mulMatrixBlocked_dot a b size dst I J :
  (I < size)%nat -> (J < size)%nat -> (size * size <= length dst)%nat ->
  nth (I * size + J) (mulMatrixBlocked dst a b size) 0 =
  dot (mkDense a size size) (mkDense b size size) size I J.
Proof.
  intros HI HJ Hd. destruct (mulMatrixBlocked_cell a b size I J HI HJ dst Hd) as [_ Hc].
  unfold cell in Hc. rewrite Hc, cell_step_dot by lia. reflexivity.
Qed.

Lemma for_cons {S} i l (F : S -> nat -> S) s : for_ (i :: l) F s = for_ l F (F s i).
Proof. done. Qed.

Lemma length_for l (F : list Z -> nat -> list Z) d :
  (forall d i, length (F d i) = length d) -> length (for_ l F d) = length d.
Proof.
  intros HF. unfold for_. revert d. induction l as [|i l IH]; intros d; [done|]. cbn [foldl].
  by rewrite IH.
Qed.

Lemma length_mulMatrixBlocked dst a b size : length (mulMatrixBlocked dst a b size) = length dst.
Proof.
  unfold mulMatrixBlocked. cbv zeta.
  etrans; [|apply (length_for (range 0 (size * size)) (fun dst i => <[i := 0]> dst));
    intros; apply length_insert].
  do 5 (apply length_for; intros). destruct (_ =? _); [done|].
  apply length_for. intros. apply length_insert.
Qed.

(** *** The plain product *)

Lemma Set_cell m i j v i' j' :
  (i < cols m)%nat -> (j < cols m)%nat -> (j' < cols m)%nat ->
  (cols m * cols m <= length (data m))%nat ->
  nth (i' * cols m + j') (data (Set_ m i j v)) 0 =
  if (i =? i')%nat && (j =? j')%nat then v else nth (i' * cols m + j') (data m) 0.
Proof.
  intros Hi Hj Hj' Hl. unfold Set_. cbn [data]. rewrite nth_insert.
  pose proof (flat_index (cols m) i j Hi Hj).
  destruct (Nat.ltb_spec (i * cols m + j) (length (data m))); [|lia]. rewrite andb_true_r.
  destruct (Nat.eqb_spec (i' * cols m + j') (i * cols m + j)) as [E|E].
  - apply flat_index_inj in E as [-> ->]; [|lia..]. by rewrite !Nat.eqb_refl.
  - destruct (Nat.eqb_spec i i') as [->|]; [|done]. destruct (Nat.eqb_spec j j') as [->|]; [|done].
    by destruct E.
Qed.

(** Setting every cell of a list of rows, one after the other. *)
Definition fill_rows (f : nat -> nat -> Z) (n : nat) (rs : list nat) (m : denseMatrix) : denseMatrix :=
  for_ rs (fun m i => for_ (range 0 n) (fun m j => Set_ m i j (f i j)) m) m.

Definition square (size : nat) (m : denseMatrix) : Prop :=
  cols m = size /\ (size * size <= length (data m))%nat.

Lemma Set_square size m i j v : square size m -> square size (Set_ m i j v).
Proof. intros [Hc Hl]. split; [done|]. cbn. by rewrite length_insert. Qed.

Lemma fill_rows_cell f size rs m I J :
  square size m -> Forall (fun i => (i < size)%nat) rs -> (J < size)%nat ->
  square size (fill_rows f size rs m) /\
  nth (I * size + J) (data (fill_rows f size rs m)) 0 =
  if existsb (Nat.eqb I) rs then f I J else nth (I * size + J) (data m) 0.
Proof.
  intros Hsq Hrs HJ. unfold fill_rows. revert m Hsq.
  induction Hrs as [|i rs Hi Hrs IH]; intros m Hsq; [done|]. rewrite for_cons. cbn [existsb].
  edestruct (for_view (square size) (fun m => nth (I * size + J) (data m) 0)
    (fun m j => Set_ m i j (f i j)) (fun x j => if (j =? J)%nat then (if (i =? I)%nat then f I J else x) else x)
    (range 0 size) m) as [Hs Hc].
  - intros m' j Hj%in_range Hm'. split; [by apply Set_square|]. cbv beta.
    destruct Hm' as [Hcols Hl]. rewrite <- Hcols at 1. rewrite Set_cell by (rewrite ?Hcols; lia).
    rewrite Hcols. destruct (Nat.eqb_spec i I) as [->|], (Nat.eqb_spec j J) as [->|]; done.
  - done.
  - cbv beta in Hc. rewrite (for_single (fun x => if (i =? I)%nat then f I J else x)) in Hc.
    destruct (IH _ Hs) as [Hs' ->]. split; [done|]. rewrite Hc. rewrite (Nat.eqb_sym I i).
    destruct (Nat.leb_spec 0 J), (Nat.ltb_spec J size); try lia. cbn [andb].
    destruct (i =? I)%nat, (existsb (Nat.eqb I) rs); done.
Qed.

(** The blocked product computes the plain product in every cell, with the same
    wrap-around, whatever the result array held before. *)
Theorem mulMatrixBlocked_correct (dst a b : list Z) (size I J : nat) :
  (I < size)%nat -> (J < size)%nat -> (size * size <= length dst)%nat ->
  nth (I * size + J) (mulMatrixBlocked dst a b size) 0 =
  nth (I * size + J)
    (data (mulMatrixInto (mkDense dst size size) (mkDense a size size) (mkDense b size size) size)) 0.
Proof.
  intros HI HJ Hd. rewrite mulMatrixBlocked_dot by done.
  change (mulMatrixInto (mkDense dst size size) (mkDense a size size) (mkDense b size size) size)
    with (fill_rows (dot (mkDense a size size) (mkDense b size size) size) size (range 0 size)
            (mkDense dst size size)).
  destruct (fill_rows_cell (dot (mkDense a size size) (mkDense b size size) size) size (range 0 size)
    (mkDense dst size size) I J) as [_ ->]; [done| |done|].
  - apply Forall_forall. intros i Hi%in_range. lia.
  - assert (He : existsb (Nat.eqb I) (range 0 size) = true); [|by rewrite He].
    apply existsb_exists. exists I. rewrite in_range, Nat.eqb_refl. split; [lia|done].
Qed.

Lemma mulMatrixBlocked_correct_witness :
  let a := [toFixedShift 2; toFixedShift 0; toFixedShift (-3); toFixedShift 5] in
  let b := [toFixedShift 1; toFixedShift 4; toFixedShift 7; toFixedShift (-6)] in
  nth 2 (mulMatrixBlocked [9; 9; 9; 9] a b 2) 0 =
  nth 2 (data (mulMatrixInto (mkDense [9; 9; 9; 9] 2 2) (mkDense a 2 2) (mkDense b 2 2) 2)) 0 /\
  nth 2 (mulMatrixBlocked [9; 9; 9; 9] a b 2) 0 = toFixedShift 32.
Proof.
  split; [|vm_compute; reflexivity].
  apply (mulMatrixBlocked_correct [9; 9; 9; 9] _ _ 2 1 0); vm_compute; lia.
Defined.

(** The parallel product does not depend on the number of processors. *)
Theorem Mul_workers_irrelevant (numCPU : nat) (m a b : denseMatrix) :
  (0 < numCPU)%nat -> (0 < rows m)%nat -> cols a = rows b ->
  Mul numCPU m a b = Ok (fill_rows (dot a b (cols a)) (cols b) (range 0 (rows m)) m).
Proof.
  intros Hcpu Hrows Hdim. unfold Mul. rewrite Hdim, Nat.eqb_refl. cbn [negb].
  set (nw := if (rows m <? numCPU)%nat then rows m else numCPU).
  assert (Hnw : (0 < nw)%nat) by (unfold nw; nat_bool; lia).
  destruct (Nat.eqb_spec nw 0) as [|_]; [lia|]. cbv zeta.
  set (rpw := ((rows m + nw - 1) / nw)%nat). f_equal.
  pose proof (Nat.div_mod (rows m + nw - 1) nw ltac:(lia)) as Hdm. fold rpw in Hdm.
  pose proof (Nat.mod_upper_bound (rows m + nw - 1) nw ltac:(lia)).
  set (F := fun (m' : denseMatrix) (i : nat) =>
    for_ (range 0 (cols b)) (fun m' j => Set_ m' i j (dot a b (rows b) i j)) m').
  change (for_ (range 0 nw) (fun m' w => for_ (worker_rows m rpw w) F m') m = for_ (range 0 (rows m)) F m).
  assert (Hgen : forall n, (n <= nw)%nat ->
    for_ (seq 0 n) (fun m' w => for_ (worker_rows m rpw w) F m') m =
    for_ (range 0 (Nat.min (n * rpw) (rows m))) F m).
  { induction n as [|n IH]; intros Hn; [done|].
    rewrite seq_S. unfold for_ at 1. rewrite foldl_app. cbn [foldl Nat.add].
    fold (for_ (seq 0 n) (fun m' w => for_ (worker_rows m rpw w) F m') m).
    rewrite IH by lia. unfold worker_rows. cbv zeta.
    assert (Hend : (if (rows m <? n * rpw + rpw)%nat then rows m else (n * rpw + rpw)%nat) =
      Nat.min (S n * rpw) (rows m)) by (cbn [Nat.mul]; nat_bool; lia).
    rewrite Hend. destruct (Nat.le_gt_cases (rows m) (n * rpw)).
    - rewrite !Nat.min_r by (cbn [Nat.mul]; lia).
      assert (Hnil : range (n * rpw) (rows m) = []).
      { unfold range. by replace (rows m - n * rpw)%nat with 0%nat by lia. }
      by rewrite Hnil.
    - rewrite (Nat.min_l (n * rpw)) by lia.
      rewrite (range_app 0 (n * rpw) (Nat.min (S n * rpw) (rows m))) by (cbn [Nat.mul]; lia).
      unfold for_. by rewrite foldl_app. }
  change (range 0 nw) with (seq 0 (nw - 0)). rewrite Nat.sub_0_r, Hgen by done.
  rewrite Nat.min_r by nia. done.
Qed.

Lemma Mul_workers_irrelevant_witness :
  let m := mkDense [0; 0; 0; 0] 2 2 in
  Mul 7 m m m = Mul 1 m m m.
Proof.
  cbv zeta. rewrite (Mul_workers_irrelevant 7), (Mul_workers_irrelevant 1) by (vm_compute; lia || reflexivity).
  reflexivity.
Defined.

(** ** The chain of products of a header *)

(** [copy(dst[pos:], src)] when the source fits. *)
Definition copy_at (dst : list Z) (pos : nat) (src : list Z) : list Z :=
  take pos dst ++ src ++ drop (pos + length src) dst.

Definition slice_of {A} (l : list A) (pos n : nat) : list A := take n (drop pos l).

(** The words of the cache, even blocks of 32 in the first half of each of the
    128 parts and odd ones in the second. *)
Definition spread_cache (cache : list Z) : list Z :=
  for_ (range 0 128) (fun ui32data i =>
    let start := (i * 1024 * 32)%nat in
    for_ (range 0 512) (fun ui32data j =>
      let ui32data := copy_at ui32data (start + j * 32) (slice_of cache (start + j * 64) 32) in
      copy_at ui32data (start + 512 * 32 + j * 32) (slice_of cache (start + j * 64 + 32) 32))
      ui32data)
    (repeat 0 (matNum * matSize * matSize / 4)).

Definition byte_to_fixed (b : byte) : Z := toFixed (float64_of_int (wrap_i8 (b2z b))).

Definition fixed_data (cache : list Z) : list Z :=
  map byte_to_fixed (concat (map (le_put 4) (spread_cache cache))).

Definition dataIdentity : list Z :=
  for_ (range 0 matSize) (fun d i => <[(i * 257)%nat := FixedPointFactor]> d)
    (repeat 0 (matSize * matSize)).

(** Rounding every cell to 8 bits and back. *)
Definition clamp_cells (m : denseMatrix) : denseMatrix :=
  for_ (range 0 matSize) (fun m row =>
    for_ (range 0 matSize) (fun m col =>
      let i8v := fromFixed (At m row col) in
      Set_ m row col (toFixedShift i8v)) m) m.

(** One turn: [B := clamp(A * mb)] and the swap of the two matrices. *)
Definition chain_step (mb : list Z) (ab : denseMatrix * denseMatrix) : denseMatrix * denseMatrix :=
  let '(A, B) := ab in
  let B := mkDense (mulMatrixBlocked (data B) (data A) mb matSize) (rows B) (cols B) in
  (clamp_cells B, A).

Section Chain.

Variable keccak256 : list byte -> list byte.

(** The matrix that byte [k] of the sequence selects. *)
Definition selected (fixedData : list Z) (sequence : list byte) (k : nat) : list Z :=
  let index := Z.to_nat (b2z (nth k sequence x00)) in
  slice_of fixedData (index * matSize * matSize) (matSize * matSize).

(** The body of goroutine [i], on the two matrices it got. *)
Definition goroutine (hashBytes : list byte) (fixedData : list Z) (i : nat)
    (matA matB : denseMatrix) : denseMatrix :=
  let matA := mkDense (copy_at (data matA) 0 dataIdentity) (rows matA) (cols matA) in
  let sequence := take 32 (keccak256 (slice_of hashBytes (i * 8) 8)) in
  fst (for_ (range 0 2) (fun ab _ =>
         for_ (range 0 32) (fun ab k => chain_step (selected fixedData sequence k) ab) ab)
       (matA, matB)).

(** The sum of the four matrices and its bytes. *)
Definition sum_bytes (ma : nat -> denseMatrix) : list Z :=
  concat (map (fun row =>
    map (fun col =>
      wrap_u8 (fromFixed (for_ (range 0 4) (fun s i => wrap_i64 (s + At (ma i) row col)) 0)))
      (range 0 matSize)) (range 0 matSize)).

(** Fresh matrices for every goroutine. *)
Definition mulMatrixPooled (hashBytes : list byte) (cache : list Z) : option (list Z) :=
  let fixedData := fixed_data cache in
  match newDenseMatrix matSize matSize None with
  | None => None
  | Some fresh =>
      Some (sum_bytes (fun i => goroutine hashBytes fixedData i fresh fresh))
  end.

(** Goroutine [i] takes two matrices from the pool. *)
Definition mulMatrix (pool : nat -> denseMatrix * denseMatrix)
    (headerHash : list byte) (cache : list Z) : list Z :=
  let fixedData := fixed_data cache in
  sum_bytes (fun i =>
    goroutine headerHash fixedData i
      (GetMatrix (fst (pool i)) matSize matSize) (GetMatrix (snd (pool i)) matSize matSize)).

(** ** The final hash *)

Definition fnv (a b : Z) : Z := Z.lxor (wrap_u32 (a * 0x01000193)) b.

(** The matrix of words, by rows. *)
Definition mat32_init (result : list Z) : list (list Z) :=
  map (fun i =>
    map (fun j =>
      let at_ c := nth (i * matSize + c) result 0 in
      Z.lor (Z.lor (Z.lor (wrap_u32 (Z.shiftl (at_ (j + 192)%nat) 24))
                          (wrap_u32 (Z.shiftl (at_ (j + 128)%nat) 16)))
                   (wrap_u32 (Z.shiftl (at_ (j + 64)%nat) 8)))
            (at_ j))
      (range 0 (matSize / 4))) (range 0 matSize).

(** [for k := 256; k > 1; k /= 2]: row [j] absorbs row [j + k/2]; after eight
    turns one row is left. *)
Fixpoint fold_rows (fuel k : nat) (m : list (list Z)) : list (list Z) :=
  match fuel with
  | O => m
  | S fuel' =>
      if (k <=? 1)%nat then m
      else
        fold_rows fuel' (k / 2)
          (for_ (range 0 (k / 2)) (fun m j =>
             <[j := zip_with fnv (nth j m []) (nth (j + k / 2) m [])]> m) m)
  end.

Definition hashMatrix (result : list Z) : list byte :=
  let row := nth 0 (fold_rows 8 matSize (mat32_init result)) [] in
  let h := keccak256 (concat (map (le_put 4) row)) in
  take 32 h ++ repeat x00 (32 - length h).

End Chain.

(** ** The fixed-point chain is exact integer arithmetic *)

#[global] Opaque matSize matNum.

Lemma matSize_Z : Z.of_nat matSize = 256.
Proof. reflexivity. Qed.

(** Saturation to eight bits. *)
Definition sat8 (z : Z) : Z := if 127 <? z then 127 else if z <? -128 then -128 else z.

Lemma sat8_range z : -128 <= sat8 z <= 127.
Proof. unfold sat8. case_bools. Qed.

Lemma term_exact v w :
  - 2 ^ 7 <= v <= 2 ^ 7 -> - 2 ^ 7 <= w <= 2 ^ 7 ->
  term (2 ^ 24 * v) (2 ^ 24 * w) = 2 ^ 24 * (v * w) /\ - 2 ^ 14 <= v * w <= 2 ^ 14.
Proof.
  intros Hv Hw. assert (Hvw : - 2 ^ 14 <= v * w <= 2 ^ 14) by nia. split; [|done].
  unfold term, FixedPointHalf, FixedPointShift.
  replace (2 ^ 24 * v * (2 ^ 24 * w)) with (2 ^ 48 * (v * w)) by lia.
  rewrite (wrap_i64_small (2 ^ 48 * (v * w))), wrap_i64_small by lia.
  rewrite Z.shiftr_div_pow2 by lia.
  replace (2 ^ 48 * (v * w) + 2 ^ 23) with (2 ^ 23 + (2 ^ 24 * (v * w)) * 2 ^ 24) by lia.
  rewrite Z.div_add, Z.div_small by lia. lia.
Qed.

Lemma fromFixed_exact s : - 2 ^ 38 <= s <= 2 ^ 38 -> fromFixed (2 ^ 24 * s) = sat8 s.
Proof.
  intros Hs. unfold fromFixed, FixedPointHalf, FixedPointShift, sat8.
  rewrite wrap_i64_small, Z.shiftr_div_pow2 by lia.
  replace (2 ^ 24 * s + 2 ^ 23) with (2 ^ 23 + s * 2 ^ 24) by lia.
  rewrite Z.div_add, Z.div_small by lia. done.
Qed.

Lemma toFixedShift_exact v : - 2 ^ 7 <= v <= 2 ^ 7 -> toFixedShift v = 2 ^ 24 * v.
Proof.
  intros Hv. unfold toFixedShift, FixedPointShift. rewrite Z.shiftl_mul_pow2 by lia.
  rewrite wrap_i64_small; lia.
Qed.

Lemma wrap_i8_range b : -128 <= wrap_i8 (b2z b) <= 127.
Proof.
  pose proof (to_signed_range 8 (b2z b mod 2 ^ 8) ltac:(lia)) as H. unfold wrap_i8.
  specialize (H ltac:(apply Z.mod_pos_bound; lia)). lia.
Qed.

Lemma byte_to_fixed_exact b : byte_to_fixed b = 2 ^ 24 * wrap_i8 (b2z b).
Proof.
  assert (Hall : forallb (fun n => byte_to_fixed (z2b (Z.of_nat n)) =?
    2 ^ 24 * wrap_i8 (b2z (z2b (Z.of_nat n)))) (seq 0 256) = true) by (vm_compute; done).
  rewrite forallb_forall in Hall. pose proof (b2z_range b).
  specialize (Hall (Z.to_nat (b2z b))). rewrite in_seq, Z2Nat.id, z2b_b2z in Hall by lia.
  apply Z.eqb_eq, Hall. lia.
Qed.

(** Sums. *)
Definition zsum (n : nat) (f : nat -> Z) : Z := for_ (range 0 n) (fun s k => s + f k) 0.

Lemma sum_bound l f B s0 :
  0 <= B -> (forall k, In k l -> - B <= f k <= B) ->
  s0 - Z.of_nat (length l) * B <= for_ l (fun s k => s + f k) s0 <= s0 + Z.of_nat (length l) * B.
Proof.
  intros HB. revert s0. induction l as [|k l IH]; intros s0 Hf; [cbn; lia|].
  rewrite for_cons. pose proof (Hf k (or_introl eq_refl)).
  specialize (IH (s0 + f k) (fun k' Hk' => Hf k' (or_intror Hk'))). cbn [length]. lia.
Qed.

Lemma for_exact l (g f : nat -> Z) s0 :
  (forall k, In k l -> g k = 2 ^ 24 * f k /\ - 2 ^ 14 <= f k <= 2 ^ 14) ->
  Z.abs s0 + Z.of_nat (length l) * 2 ^ 14 <= 2 ^ 38 ->
  for_ l (fun s k => wrap_i64 (s + g k)) (2 ^ 24 * s0) =
  2 ^ 24 * for_ l (fun s k => s + f k) s0.
Proof.
  revert s0. induction l as [|k l IH]; intros s0 Hf Hb; [done|].
  rewrite !for_cons. destruct (Hf k (or_introl eq_refl)) as [Hg Hfk]. cbn [length] in Hb.
  rewrite Hg, <- Z.mul_add_distr_l, wrap_i64_small by lia.
  apply IH; [intros k' Hk'; apply Hf; by right|lia].
Qed.

Lemma length_range lo hi : length (range lo hi) = (hi - lo)%nat.
Proof. apply length_seq. Qed.

(** A matrix holds 8-bit integers [V]. *)
Definition cells_of (V : nat -> nat -> Z) (get : nat -> nat -> Z) : Prop :=
  forall r c, (r < matSize)%nat -> (c < matSize)%nat ->
    get r c = 2 ^ 24 * V r c /\ -128 <= V r c <= 127.

Definition holds (m : denseMatrix) (V : nat -> nat -> Z) : Prop :=
  square matSize m /\ cells_of V (At m).

(** The product of two such matrices, saturated. *)
Definition ref_step (M V : nat -> nat -> Z) : nat -> nat -> Z :=
  fun i j => sat8 (zsum matSize (fun k => V i k * M k j)).

Lemma dot_exact a mb V M i j :
  (i < matSize)%nat -> (j < matSize)%nat ->
  cells_of V (fun r c => nth (r * matSize + c) a 0) ->
  cells_of M (fun r c => nth (r * matSize + c) mb 0) ->
  dot (mkDense a matSize matSize) (mkDense mb matSize matSize) matSize i j =
    2 ^ 24 * zsum matSize (fun k => V i k * M k j) /\
  - 2 ^ 22 <= zsum matSize (fun k => V i k * M k j) <= 2 ^ 22.
Proof.
  intros Hi Hj HV HM. unfold dot, zsum.
  assert (Ht : forall k, In k (range 0 matSize) ->
    term (nth (i * matSize + k) a 0) (nth (k * matSize + j) mb 0) = 2 ^ 24 * (V i k * M k j) /\
    - 2 ^ 14 <= V i k * M k j <= 2 ^ 14).
  { intros k Hk%in_range. destruct (HV i k Hi ltac:(lia)) as [-> HVk].
    destruct (HM k j ltac:(lia) Hj) as [-> HMk]. apply term_exact; lia. }
  pose proof matSize_Z as HmZ. split.
  - apply (for_exact (range 0 matSize) (fun k => term (nth (i * matSize + k) a 0) (nth (k * matSize + j) mb 0))
      (fun k => V i k * M k j) 0); [done|]. rewrite length_range. lia.
  - pose proof (sum_bound (range 0 matSize) (fun k => V i k * M k j) (2 ^ 14) 0 ltac:(lia)
      (fun k Hk => proj2 (Ht k Hk))) as Hs. rewrite length_range in Hs. lia.
Qed.

Lemma At_Set m i j v r c :
  square matSize m -> (i < matSize)%nat -> (j < matSize)%nat -> (c < matSize)%nat ->
  At (Set_ m i j v) r c = if (i =? r)%nat && (j =? c)%nat then v else At m r c.
Proof.
  intros [Hc Hl] Hi Hj Hcc. unfold At. change (cols (Set_ m i j v)) with (cols m).
  rewrite Hc, <- Hc. apply Set_cell; rewrite ?Hc; done.
Qed.

Lemma clamp_cells_spec m :
  square matSize m ->
  square matSize (clamp_cells m) /\
  forall r c, (r < matSize)%nat -> (c < matSize)%nat ->
    At (clamp_cells m) r c = toFixedShift (fromFixed (At m r c)).
Proof.
  intros Hm. unfold clamp_cells.
  assert (Hview : forall r c, (r < matSize)%nat -> (c < matSize)%nat ->
    square matSize (for_ (range 0 matSize) (fun m row =>
      for_ (range 0 matSize) (fun m col => Set_ m row col (toFixedShift (fromFixed (At m row col)))) m) m) /\
    At (for_ (range 0 matSize) (fun m row =>
      for_ (range 0 matSize) (fun m col => Set_ m row col (toFixedShift (fromFixed (At m row col)))) m) m) r c =
    toFixedShift (fromFixed (At m r c))).
  { intros r c Hr Hc. set (g := fun x => toFixedShift (fromFixed x)).
    destruct (for_view (square matSize) (fun m => At m r c)
      (fun m row => for_ (range 0 matSize) (fun m col => Set_ m row col (g (At m row col))) m)
      (fun x row => if (row =? r)%nat then g x else x) (range 0 matSize) m) as [Hs Hv]; [|done|].
    - intros m' row Hrow%in_range Hm'.
      destruct (for_view (square matSize) (fun m => At m r c)
        (fun m col => Set_ m row col (g (At m row col)))
        (fun x col => if (col =? c)%nat then (if (row =? r)%nat then g x else x) else x)
        (range 0 matSize) m') as [Hs Hv]; [|done|].
      + intros m'' col Hcol%in_range Hm''. split; [by apply Set_square|]. cbv beta.
        rewrite At_Set by (done || lia).
        destruct (Nat.eqb_spec row r) as [->|], (Nat.eqb_spec col c) as [->|]; done.
      + split; [done|]. cbv beta in Hv |- *. rewrite Hv.
        rewrite (for_single (fun x => if (row =? r)%nat then g x else x)).
        destruct (Nat.leb_spec 0 c), (Nat.ltb_spec c matSize); try lia. done.
    - split; [exact Hs|]. cbv beta in Hv. etrans; [exact Hv|]. rewrite for_single.
      destruct (Nat.leb_spec 0 r), (Nat.ltb_spec r matSize); try lia. done. }
  split; [|intros r c Hr Hc; by apply Hview].
  assert (H0 : (0 < matSize)%nat) by (pose proof matSize_Z; lia).
  exact (proj1 (Hview 0%nat 0%nat H0 H0)).
Qed.

Lemma chain_step_exact mb A B V M :
  holds A V -> square matSize B ->
  cells_of M (fun r c => nth (r * matSize + c) mb 0) ->
  holds (fst (chain_step mb (A, B))) (ref_step M V) /\
  square matSize (snd (chain_step mb (A, B))).
Proof.
  intros [HA HV] [HBc HBl] HM. cbn [chain_step fst snd]. split; [|done].
  set (P := mkDense (mulMatrixBlocked (data B) (data A) mb matSize) (rows B) (cols B)).
  assert (HP : square matSize P) by (split; [exact HBc|]; unfold P; cbn [data]; by rewrite length_mulMatrixBlocked).
  destruct (clamp_cells_spec P HP) as [Hs Hc]. split; [exact Hs|].
  intros r c Hr Hcc. rewrite Hc by done.
  assert (HPc : At P r c = dot (mkDense (data A) matSize matSize) (mkDense mb matSize matSize) matSize r c).
  { unfold At. change (cols P) with (cols B). rewrite HBc. unfold P. cbn [data].
    by apply mulMatrixBlocked_dot. }
  destruct (dot_exact (data A) mb V M r c Hr Hcc) as [Hd Hb].
  { intros r' c' Hr' Hc'. destruct HA as [HAc _]. specialize (HV r' c' Hr' Hc').
    unfold At in HV. by rewrite HAc in HV. }
  { exact HM. }
  rewrite HPc, Hd, fromFixed_exact by lia. unfold ref_step.
  pose proof (sat8_range (zsum matSize (fun k => V r k * M k c))).
  rewrite toFixedShift_exact by lia. done.
Qed.

(** *** The matrices the chain starts from and multiplies by *)

Definition delta (r c : nat) : Z := if (r =? c)%nat then 1 else 0.

Lemma dataIdentity_cell r c :
  (r < matSize)%nat -> (c < matSize)%nat ->
  nth (r * matSize + c) dataIdentity 0 = 2 ^ 24 * delta r c.
Proof.
  intros Hr Hc. pose proof matSize_Z as HmZ. unfold dataIdentity.
  destruct (for_view (fun d : list Z => (matSize * matSize <= length d)%nat)
    (fun d => nth (r * matSize + c) d 0) (fun d i => <[(i * 257)%nat := FixedPointFactor]> d)
    (fun x i => if (i =? r)%nat then (if (r =? c)%nat then FixedPointFactor else x) else x)
    (range 0 matSize) (repeat 0 (matSize * matSize))) as [_ Hv].
  - intros d i Hi%in_range Hd. rewrite length_insert. split; [done|]. rewrite nth_insert.
    assert (E257 : (i * 257 = i * matSize + i)%nat).
    { assert (Hm : matSize = 256%nat) by lia. rewrite Hm. lia. } rewrite E257.
    pose proof (flat_index matSize i i ltac:(lia) ltac:(lia)).
    destruct (Nat.ltb_spec (i * matSize + i) (length d)); [|lia]. rewrite andb_true_r.
    destruct (Nat.eqb_spec (r * matSize + c) (i * matSize + i)) as [E|E].
    + apply flat_index_inj in E as [-> ->]; [|lia..]. by rewrite !Nat.eqb_refl.
    + destruct (Nat.eqb_spec i r) as [->|]; [|done]. destruct (Nat.eqb_spec r c) as [->|]; [|done].
      by destruct E.
  - by rewrite repeat_length.
  - rewrite Hv, (for_single (fun x => if (r =? c)%nat then FixedPointFactor else x)).
    destruct (Nat.leb_spec 0 r), (Nat.ltb_spec r matSize); try lia. cbn [andb]. unfold delta.
    destruct (r =? c)%nat; [done|]. rewrite nth_repeat. done.
Qed.

Lemma length_dataIdentity : length dataIdentity = (matSize * matSize)%nat.
Proof.
  unfold dataIdentity. rewrite length_for; [apply repeat_length|]. intros. apply length_insert.
Qed.

Lemma holds_identity m :
  square matSize m ->
  holds (mkDense (copy_at (data m) 0 dataIdentity) (rows m) (cols m)) delta.
Proof.
  intros [Hc Hl]. unfold copy_at. rewrite take_0. cbn [Nat.add app]. split.
  - split; [done|]. cbn [data]. rewrite !length_app, !length_dataIdentity. cbn [length]. lia.
  - intros r c Hr Hcc. unfold At. cbn [data cols]. rewrite Hc.
    rewrite app_nth1 by (rewrite length_dataIdentity; by apply flat_index).
    rewrite dataIdentity_cell by done. split; [done|]. unfold delta. destruct (r =? c)%nat; lia.
Qed.

(** The bytes behind the fixed-point data. *)
Definition cache_bytes (cache : list Z) : list byte := concat (map (le_put 4) (spread_cache cache)).

Definition mem_cell (cache : list Z) (index r c : nat) : Z :=
  wrap_i8 (b2z (nth (index * matSize * matSize + (r * matSize + c)) (cache_bytes cache) x00)).

Lemma fixed_data_bytes cache : fixed_data cache = map byte_to_fixed (cache_bytes cache).
Proof. unfold fixed_data, cache_bytes. reflexivity. Qed.

Lemma byte_to_fixed_nth bytes n :
  nth n (map byte_to_fixed bytes) 0 = 2 ^ 24 * wrap_i8 (b2z (nth n bytes x00)).
Proof.
  revert n. induction bytes as [|b bytes IH]; intros [|n]; cbn [map nth]; try done.
  apply byte_to_fixed_exact.
Qed.

Lemma selected_cells cache sequence k :
  cells_of (mem_cell cache (Z.to_nat (b2z (nth k sequence x00))))
    (fun r c => nth (r * matSize + c) (selected (fixed_data cache) sequence k) 0).
Proof.
  intros r c Hr Hc. pose proof (flat_index matSize r c Hr Hc) as Hlt.
  rewrite fixed_data_bytes. unfold selected, slice_of, mem_cell. cbv zeta.
  generalize (Z.to_nat (b2z (nth k sequence x00))) as index. intros index.
  generalize (cache_bytes cache) as bytes. intros bytes.
  rewrite nth_firstn. destruct (Nat.ltb_spec (r * matSize + c) (matSize * matSize)); [|lia].
  rewrite nth_skipn, byte_to_fixed_nth. split; [done|]. apply wrap_i8_range.
Qed.

#[global] Opaque spread_cache fixed_data cache_bytes.

(** ** The proof-of-work matrix *)

Lemma for_rel {S B} (R : S -> B -> Prop) (F : S -> nat -> S) (h : B -> nat -> B) l s x :
  (forall s x i, R s x -> R (F s i) (h x i)) -> R s x -> R (for_ l F s) (for_ l h x).
Proof.
  intros HF. unfold for_. revert s x. induction l as [|i l IH]; intros s x Hs; [done|].
  cbn [foldl]. by apply IH, HF.
Qed.

Section Reference.

Variable keccak256 : list byte -> list byte.

(** The specification: a chain of 64 saturated products of 8-bit matrices. *)
Definition ref_chain (hashBytes : list byte) (cache : list Z) (i : nat) : nat -> nat -> Z :=
  let sequence := take 32 (keccak256 (slice_of hashBytes (i * 8) 8)) in
  for_ (range 0 2) (fun V _ =>
    for_ (range 0 32) (fun V k => ref_step (mem_cell cache (Z.to_nat (b2z (nth k sequence x00)))) V) V)
    delta.

Definition ref_bytes (hashBytes : list byte) (cache : list Z) : list Z :=
  concat (map (fun row =>
    map (fun col => wrap_u8 (sat8 (zsum 4 (fun i => ref_chain hashBytes cache i row col))))
      (range 0 matSize)) (range 0 matSize)).

Lemma goroutine_exact hashBytes cache i matA matB :
  square matSize matA -> square matSize matB ->
  holds (goroutine keccak256 hashBytes (fixed_data cache) i matA matB) (ref_chain hashBytes cache i).
Proof.
  intros HA HB. unfold goroutine, ref_chain. cbv zeta.
  set (sequence := take 32 _).
  set (R := fun (ab : denseMatrix * denseMatrix) V => holds (fst ab) V /\ square matSize (snd ab)).
  enough (HR : R (for_ (range 0 2) (fun ab _ =>
         for_ (range 0 32) (fun ab k => chain_step (selected (fixed_data cache) sequence k) ab) ab)
       (mkDense (copy_at (data matA) 0 dataIdentity) (rows matA) (cols matA), matB))
       (for_ (range 0 2) (fun V _ =>
         for_ (range 0 32) (fun V k => ref_step (mem_cell cache (Z.to_nat (b2z (nth k sequence x00)))) V) V)
         delta)) by exact (proj1 HR).
  apply for_rel; [|split; [by apply holds_identity|done]].
  intros ab V _ Hab. apply for_rel; [|done].
  intros [A B] W k [HAB HsB]. cbn [fst snd] in HAB, HsB.
  apply chain_step_exact; [done|done|apply selected_cells].
Qed.

Lemma sum_bytes_exact ma V :
  (forall i, holds (ma i) (V i)) ->
  sum_bytes ma =
  concat (map (fun row =>
    map (fun col => wrap_u8 (sat8 (zsum 4 (fun i => V i row col)))) (range 0 matSize)) (range 0 matSize)).
Proof.
  intros H. unfold sum_bytes. f_equal. apply map_ext_in. intros row Hrow%in_range.
  apply map_ext_in. intros col Hcol%in_range. f_equal.
  assert (Hc : forall i, In i (range 0 4) ->
    At (ma i) row col = 2 ^ 24 * V i row col /\ - 2 ^ 14 <= V i row col <= 2 ^ 14).
  { intros i _. destruct (H i) as [_ Hi]. destruct (Hi row col ltac:(lia) ltac:(lia)). lia. }
  pose proof (for_exact (range 0 4) (fun i => At (ma i) row col) (fun i => V i row col) 0 Hc
    ltac:(rewrite length_range; lia)) as He. change (2 ^ 24 * 0) with 0 in He. rewrite He.
  change (for_ (range 0 4) (fun s k => s + V k row col) 0) with (zsum 4 (fun i => V i row col)).
  apply fromFixed_exact.
  pose proof (sum_bound (range 0 4) (fun i => V i row col) (2 ^ 14) 0 ltac:(lia)
    (fun i Hi => proj2 (Hc i Hi))) as Hs. rewrite length_range in Hs. unfold zsum. lia.
Qed.

Lemma Reset_square m :
  (rows m * cols m <= length (data m))%nat -> square matSize (GetMatrix m matSize matSize).
Proof.
  intros Hm. unfold GetMatrix, Reset.
  destruct (Nat.ltb_spec (rows m) matSize), (Nat.ltb_spec (cols m) matSize); cbn [orb];
    (split; [done|]; cbn [data]; rewrite ?repeat_length; try done).
  unfold clear_prefix. rewrite length_app, repeat_length. lia.
Qed.

Lemma newDenseMatrix_square : exists m, newDenseMatrix matSize matSize None = Some m /\ square matSize m.
Proof.
  unfold newDenseMatrix. pose proof matSize_Z as HmZ.
  destruct (Nat.leb_spec (matSize * matSize) ((matSize - 1) * matSize + (matSize - 1))) as [Hc|_]; [nia|].
  rewrite andb_false_r. eexists. split; [done|]. split; [done|]. cbn [data].
  rewrite length_for; [by rewrite repeat_length|]. intros. apply length_insert.
Qed.

Lemma mulMatrixPooled_ref hashBytes cache :
  mulMatrixPooled keccak256 hashBytes cache = Some (ref_bytes hashBytes cache).
Proof.
  destruct newDenseMatrix_square as (fresh & Hf & Hsq). unfold mulMatrixPooled. rewrite Hf. cbv zeta.
  rewrite (sum_bytes_exact _ (ref_chain hashBytes cache)); [unfold ref_bytes; reflexivity|].
  intros i. by apply goroutine_exact.
Qed.


(** Every byte of the result is the two's complement of a saturated sum. *)
Lemma length_ref_bytes hashBytes cache : length (ref_bytes hashBytes cache) = (matSize * matSize)%nat.
Proof.
  unfold ref_bytes. rewrite length_concat, map_map.
  rewrite (map_ext _ (fun _ => matSize)).
  - assert (Hs : forall l : list nat, list_sum (map (fun _ => matSize) l) = (length l * matSize)%nat)
      by (induction l; cbn [map list_sum fold_right length]; [done|]; unfold list_sum in *; lia).
    rewrite Hs, length_range. lia.
  - intros row. rewrite length_map, length_range. lia.
Qed.

End Reference.

(** Rounding to fixed point and back. *)
Lemma fromFixed_toFixedShift v : -128 <= v <= 127 -> fromFixed (toFixedShift v) = v.
Proof.
  intros Hv. rewrite toFixedShift_exact, fromFixed_exact by lia. unfold sat8. case_bools.
Qed.


(** The final hash has 32 bytes. *)
Lemma length_hashMatrix keccak256 result : length (hashMatrix keccak256 result) = 32%nat.
Proof.
  unfold hashMatrix. cbv zeta. rewrite length_app, length_take, repeat_length. lia.
Qed.
