(* ===== verification/NogoSeed.v ===== *)
(** * The seed cache of NogoPow ([nogopow/ai_hash.go])

    The memory-hard expansion of the hash of the parent block into the words from
    which [NogoMatrix] takes its matrices: the core function of the file, its use
    on blocks of 32 words, the two passes over a table of 1024 blocks, and the 128
    rounds of [calcSeedCache], which reuse one table.  Keccak-256 is a parameter.

    Arrays are lists; [copy_at] and insertion stand for [copy] and assignment.
    [romix_table] and [romix] are the reference the two passes are compared
    with: they have no table, only the iterates of [blockMix]. *)

From Stdlib Require Import ZArith Lia.
From S2P Require Import Prelude NogoMatrix.
Open Scope Z_scope.

(** ** The core *)

Definition rotl (a b : Z) : Z := Z.lor (wrap_u32 (Z.shiftl a b)) (Z.shiftr a (32 - b)).

(** [y[d] ^= rotl(y[a]+y[b], n)]. *)
Definition mix (y : list Z) (op : nat * nat * nat * nat) : list Z :=
  let '(d, a, b, n) := op in
  <[d := Z.lxor (nth d y 0) (rotl (wrap_u32 (nth a y 0 + nth b y 0)) (Z.of_nat n))]> y.

(** The 32 assignments of one double round, in the order of the code. *)
Definition double_round : list (nat * nat * nat * nat) :=
  [(12, 8, 4, 7); (0, 12, 8, 9); (4, 0, 12, 13); (8, 4, 0, 18);
   (13, 9, 5, 7); (1, 13, 9, 9); (5, 1, 13, 13); (9, 5, 1, 18);
   (14, 10, 6, 7); (2, 14, 10, 9); (6, 2, 14, 13); (10, 6, 2, 18);
   (15, 11, 7, 7); (3, 15, 11, 9); (7, 3, 15, 13); (11, 7, 3, 18);
   (1, 0, 3, 7); (2, 1, 0, 9); (3, 2, 1, 13); (0, 3, 2, 18);
   (6, 5, 4, 7); (7, 6, 5, 9); (4, 7, 6, 13); (5, 4, 7, 18);
   (11, 10, 9, 7); (8, 11, 10, 9); (9, 8, 11, 13); (10, 9, 8, 18);
   (12, 15, 14, 7); (13, 12, 15, 9); (14, 13, 12, 13); (15, 14, 13, 18)]%nat.

Definition salsa20_8 (x : list Z) : list Z :=
  let y := for_ (range 0 4) (fun y _ => foldl mix y double_round) x in
  zip_with (fun a b => wrap_u32 (a + b)) x y.

(** ** Blocks *)

Definition blockMix (x : list Z) (r : nat) : list Z :=
  let blockSize := 16%nat in
  let y := slice_of x ((2 * r - 1) * blockSize) blockSize in
  snd (for_ (range 0 (2 * r)) (fun '(y, result) i =>
         let t := zip_with Z.lxor (slice_of x (i * blockSize) blockSize) y in
         let y := salsa20_8 t in
         (y, copy_at result ((i mod 2) * r * blockSize + (i / 2) * blockSize) y))
       (y, repeat 0 (2 * r * blockSize))).

(** ** The two passes *)

Definition smix_r : nat := 1.
Definition smix_N : nat := 1024.
Definition chunk : nat := 16 * 2 * smix_r.

(** [binary.LittleEndian.Uint32(b[i*4:])] for the words of a block. *)
Definition block_words (b : list byte) : list Z :=
  map (fun i => le_get (slice_of b (i * 4) 4)) (range 0 chunk).

(** [for i := 0; i < N; i++ { copy(v[i*32:], x); x = blockMix(x) }]. *)
Definition fill_pass (N : nat) (vx : list Z * list Z) : list Z * list Z :=
  for_ (range 0 N) (fun '(v, x) i => (copy_at v (i * chunk) x, blockMix x smix_r)) vx.

(** One turn of the second pass; the index comes from the data. *)
Definition mix_step (N : nat) (v x : list Z) : list Z :=
  let j := Z.to_nat (nth (16 * (2 * smix_r - 1)) x 0 mod Z.of_nat N) in
  let x := zip_with Z.lxor x (slice_of v (j * chunk) chunk) in
  blockMix x smix_r.

Definition mix_pass (N : nat) (v x : list Z) : list Z :=
  for_ (range 0 N) (fun x _ => mix_step N v x) x.

(** The block and the table, both changed in place. *)
Definition Smix (b : list byte) (v : list Z) : list byte * list Z :=
  let x := block_words b in
  let '(v, x) := fill_pass smix_N (v, x) in
  let x := mix_pass smix_N v x in
  (concat (map (le_put 4) x) ++ drop (4 * chunk) b, v).

(** ** The cache *)

(** [PutUint32] big endian of 0x01020304, then the last byte. *)
Definition isLittleEndian : bool := bool_decide (nth 3 (be_put 4 0x01020304) x00 = x04).

(** [swap] on the whole 4-byte chunks. *)
Fixpoint swap (buffer : list byte) : list byte :=
  match buffer with
  | a :: b :: c :: d :: rest => d :: c :: b :: a :: swap rest
  | rest => rest
  end.

Definition safeBytesToUint32 (b : list byte) (offset : Z) : Z :=
  if (offset <? 0) || (Z.of_nat (length b) <? offset + 4) then 0
  else le_get (slice_of b (Z.to_nat offset) 4).

Definition safeUint32ToBytes (val : Z) (dst : list byte) (offset : Z) : list byte :=
  if (offset <? 0) || (Z.of_nat (length dst) <? offset + 4) then dst
  else
    let o := Z.to_nat offset in take o dst ++ le_put 4 val ++ drop (o + 4) dst.

Section Seed.

Variable keccak256 : list byte -> list byte.

(** Block [i+1] is the hash of block [i]. *)
Definition extendBytes (seed : list byte) (round : nat) : list byte :=
  let extSeed := seed ++ repeat x00 (length seed * (round + 1) - length seed) in
  for_ (range 0 round) (fun extSeed i =>
    let start := (i * 32)%nat in
    let sum := keccak256 (slice_of extSeed start 32) in
    let h := take 32 sum ++ repeat x00 (32 - length sum) in
    take ((i + 1) * 32) extSeed ++ h ++ drop ((i + 1) * 32 + 32) extSeed) extSeed.

(** The table is appended after every round and handed to the next one. *)
Definition calcSeedCache (seed : list byte) : list Z :=
  let extSeed := extendBytes seed 3 in
  let v := repeat 0 (32 * 1024) in
  let extSeed := if negb isLittleEndian then swap extSeed else extSeed in
  let '(_, _, cache) :=
    for_ (range 0 128) (fun '(extSeed, v, cache) _ =>
      let '(extSeed, v) := Smix extSeed v in
      (extSeed, v, cache ++ v)) (extSeed, v, []) in
  cache.

(** The whole proof of work, [legacyAlgorithm] and [ComputePoWHash]. *)
Definition ComputePoWHash (blockHash seed : list byte) : option (list byte) :=
  let cacheData := calcSeedCache seed in
  match mulMatrixPooled keccak256 blockHash cacheData with
  | None => None
  | Some result => Some (hashMatrix keccak256 result)
  end.

Definition legacyAlgorithm (pool : nat -> denseMatrix * denseMatrix)
    (headerHash seed : list byte) : list byte :=
  hashMatrix keccak256 (mulMatrix keccak256 pool headerHash (calcSeedCache seed)).

End Seed.

(** ** The core is not Salsa20/8 *)

(** The double round of Salsa20 (RFC 7914, section 3). *)
Definition rfc_double_round : list (nat * nat * nat * nat) :=
  [(4, 0, 12, 7); (8, 4, 0, 9); (12, 8, 4, 13); (0, 12, 8, 18);
   (9, 5, 1, 7); (13, 9, 5, 9); (1, 13, 9, 13); (5, 1, 13, 18);
   (14, 10, 6, 7); (2, 14, 10, 9); (6, 2, 14, 13); (10, 6, 2, 18);
   (3, 15, 11, 7); (7, 3, 15, 9); (11, 7, 3, 13); (15, 11, 7, 18);
   (1, 0, 3, 7); (2, 1, 0, 9); (3, 2, 1, 13); (0, 3, 2, 18);
   (6, 5, 4, 7); (7, 6, 5, 9); (4, 7, 6, 13); (5, 4, 7, 18);
   (11, 10, 9, 7); (8, 11, 10, 9); (9, 8, 11, 13); (10, 9, 8, 18);
   (12, 15, 14, 7); (13, 12, 15, 9); (14, 13, 12, 13); (15, 14, 13, 18)]%nat.

Definition rfc_salsa20_8 (x : list Z) : list Z :=
  let y := for_ (range 0 4) (fun y _ => foldl mix y rfc_double_round) x in
  zip_with (fun a b => wrap_u32 (a + b)) x y.

(** The test vector of RFC 7914, section 8, as little endian words. *)
Definition rfc_input : list Z :=
  [0x219a877e; 0x86c93e4f; 0xe640a97c; 0x268f7141; 0x5b55eeba; 0xb5c1618c;
   0x1146f80d; 0x1d3bcd6d; 0x19f324ee; 0x853d9bdf; 0x4b1e1214; 0x32aac55a;
   0x291d0276; 0x2948c709; 0x8dc6ebed; 0x5ec2b8b8].
Definition rfc_output : list Z :=
  [0x9c851fa4; 0x99cc0866; 0xcbca813b; 0x05ef0c02; 0x81214b04; 0x7d33fda2;
   0x631c7bfd; 0x292f6896; 0x683139b4; 0xbce6c9e3; 0xb7c56bfe; 0xba966da0;
   0x10cc24e4; 0x5c74912c; 0x3d67ad24; 0x818f61c7].

(** With the double round of the standard the construction meets its test vector;
    with the one of the code it does not, although the code calls it Salsa20. *)
Theorem salsa20_8_not_standard :
  rfc_salsa20_8 rfc_input = rfc_output /\ salsa20_8 rfc_input <> rfc_output.
Proof. split; vm_compute; [reflexivity|congruence]. Qed.

(** The detection of the byte order has one outcome on every machine. *)
Example isLittleEndian_constant : isLittleEndian = true.
Proof. vm_compute. reflexivity. Qed.

(** ** Sizes *)

Lemma length_mix y op : length (mix y op) = length y.
Proof. destruct op as [[[d a] b] n]. apply length_insert. Qed.

Lemma length_salsa20_8 x : length (salsa20_8 x) = length x.
Proof.
  unfold salsa20_8. rewrite length_zip_with, length_for; [lia|].
  intros d _. generalize double_round as ops. intros ops. revert d.
  induction ops as [|op ops IH]; intros d; [done|]. cbn [foldl]. rewrite IH. apply length_mix.
Qed.

#[global] Opaque salsa20_8.

Lemma length_copy_at dst pos src :
  (pos + length src <= length dst)%nat -> length (copy_at dst pos src) = length dst.
Proof.
  intros H. unfold copy_at. rewrite !length_app, length_take, length_drop. lia.
Qed.

Lemma length_slice_of {A} (l : list A) pos n : (pos + n <= length l)%nat -> length (slice_of l pos n) = n.
Proof. intros H. unfold slice_of. rewrite length_take, length_drop. lia. Qed.

Lemma length_blockMix x : length x = 32%nat -> length (blockMix x smix_r) = 32%nat.
Proof.
  intros Hx. unfold blockMix, smix_r. cbv zeta.
  assert (Hgen : forall (yr : list Z * list Z) i, (i < 2)%nat ->
    length (fst yr) = 16%nat -> length (snd yr) = 32%nat ->
    let '(y, result) := yr in
    let y' := salsa20_8 (zip_with Z.lxor (slice_of x (i * 16) 16) y) in
    length y' = 16%nat /\
    length (copy_at result ((i mod 2) * 1 * 16 + (i / 2) * 16) y') = 32%nat).
  { intros [y result] i Hi Hy Hr. cbn [fst snd] in *. cbv zeta.
    assert (Hl : length (salsa20_8 (zip_with Z.lxor (slice_of x (i * 16) 16) y)) = 16%nat).
    { rewrite length_salsa20_8, length_zip_with, length_slice_of by lia. lia. }
    split; [done|]. rewrite length_copy_at; [done|]. rewrite Hl, Hr.
    rewrite (Nat.mod_small i 2), (Nat.div_small i 2) by lia. lia. }
  change (range 0 (2 * 1)) with [0; 1]%nat. unfold for_. cbn [foldl].
  set (y0 := slice_of x _ _). set (r0 := repeat 0 _).
  assert (Hy0 : length y0 = 16%nat) by (apply length_slice_of; lia).
  assert (Hr0 : length r0 = 32%nat) by apply repeat_length.
  destruct (Hgen (y0, r0) 0%nat ltac:(lia) Hy0 Hr0) as [H1 H2].
  destruct (Hgen (_, _) 1%nat ltac:(lia) H1 H2) as [_ H3]. exact H3.
Qed.

#[global] Opaque blockMix.

(** ** The two passes against their specification *)

Definition romix_table (x : list Z) (i : nat) : list Z := Nat.iter i (fun x => blockMix x smix_r) x.

(** The table of the first [N] iterates, flat. *)
Definition romix_words (N : nat) (x : list Z) : list Z := concat (map (romix_table x) (seq 0 N)).

Definition romix_step (N : nat) (x0 x : list Z) : list Z :=
  let j := Z.to_nat (nth 16 x 0 mod Z.of_nat N) in
  blockMix (zip_with Z.lxor x (romix_table x0 j)) smix_r.

Definition romix (N : nat) (x0 : list Z) : list Z :=
  Nat.iter N (romix_step N x0) (romix_table x0 N).

Lemma chunk_32 : chunk = 32%nat.
Proof. reflexivity. Qed.

Lemma length_romix_table x i : length x = 32%nat -> length (romix_table x i) = 32%nat.
Proof. intros Hx. unfold romix_table. induction i as [|i IH]; [done|]. cbn. by apply length_blockMix. Qed.

Lemma length_romix_words N x : length x = 32%nat -> length (romix_words N x) = (N * 32)%nat.
Proof.
  intros Hx. unfold romix_words. induction N as [|N IH]; [done|].
  rewrite seq_S, map_app, concat_app, length_app, IH. cbn [map concat].
  rewrite app_nil_r, length_romix_table by done. lia.
Qed.

Lemma fill_pass_spec N v x :
  length x = 32%nat -> (N * 32 <= length v)%nat ->
  fill_pass N (v, x) = (romix_words N x ++ drop (N * 32) v, romix_table x N).
Proof.
  intros Hx. unfold fill_pass, range. rewrite Nat.sub_0_r. induction N as [|N IH]; intros Hv.
  - cbn. by rewrite drop_0.
  - rewrite seq_S. unfold for_ in *. rewrite foldl_app, IH by lia. cbn [foldl Nat.add].
    f_equal. rewrite chunk_32. unfold copy_at.
    pose proof (length_romix_words N x Hx) as Hl.
    rewrite (take_app_length' (romix_words N x)) by lia.
    rewrite length_romix_table by done.
    rewrite drop_app_ge by lia. rewrite Hl, drop_drop.
    unfold romix_words. rewrite seq_S, map_app, concat_app. cbn [map concat Nat.add].
    rewrite app_nil_r, <- app_assoc. do 3 f_equal. lia.
Qed.

Lemma romix_slice N x rest j :
  length x = 32%nat -> (j < N)%nat ->
  slice_of (romix_words N x ++ rest) (j * chunk) chunk = romix_table x j.
Proof.
  intros Hx Hj. rewrite chunk_32. unfold slice_of.
  assert (Hs : romix_words N x = romix_words j x ++ romix_table x j ++
    concat (map (romix_table x) (seq (S j) (N - S j)))).
  { unfold romix_words. replace N with (j + S (N - S j))%nat at 1 by lia.
    rewrite seq_app, map_app, concat_app. cbn [Nat.add]. f_equal. }
  rewrite Hs, <- app_assoc. rewrite drop_app_length' by (by rewrite length_romix_words).
  rewrite <- app_assoc. rewrite take_app_length'; [done|]. by rewrite length_romix_table.
Qed.

Lemma mix_pass_spec N v x0 x n rest :
  length x0 = 32%nat -> (0 < N)%nat -> v = romix_words N x0 ++ rest ->
  for_ (range 0 n) (fun x _ => mix_step N v x) x = Nat.iter n (romix_step N x0) x.
Proof.
  intros Hx0 HN ->. unfold range. rewrite Nat.sub_0_r. unfold for_.
  induction n as [|n IH]; [done|]. rewrite seq_S, foldl_app, IH. cbn [foldl].
  cbn [Nat.iter nat_rect]. change (nat_rect _ _ _ n) with (Nat.iter n (romix_step N x0) x).
  set (y := Nat.iter n _ _). unfold mix_step, romix_step. cbv zeta.
  change (16 * (2 * smix_r - 1))%nat with 16%nat.
  pose proof (Z.mod_pos_bound (nth 16 y 0) (Z.of_nat N) ltac:(lia)).
  rewrite romix_slice by lia. done.
Qed.

Lemma length_block_words b : length (block_words b) = 32%nat.
Proof. unfold block_words. by rewrite length_map, length_range. Qed.

(** One round computes the table of the iterates and the mixing over it; the
    words the table held before are all replaced, and no index leaves it. *)
Theorem Smix_correct (b : list byte) (v : list Z) :
  (smix_N * 32 <= length v)%nat ->
  Smix b v =
    (concat (map (le_put 4) (romix smix_N (block_words b))) ++ drop (4 * chunk) b,
     romix_words smix_N (block_words b) ++ drop (smix_N * 32) v).
Proof.
  assert (HN : (0 < smix_N)%nat) by (unfold smix_N; lia).
  revert HN. unfold Smix. generalize smix_N as N. intros N HN Hv.
  pose proof (length_block_words b) as Hx. rewrite fill_pass_spec by done.
  unfold mix_pass.
  rewrite (mix_pass_spec N (romix_words N (block_words b) ++ drop (N * 32) v) (block_words b)
    (romix_table (block_words b) N) N (drop (N * 32) v) Hx HN eq_refl).
  reflexivity.
Qed.

Lemma Smix_correct_witness :
  snd (Smix (repeat x00 128) (repeat 7 (smix_N * 32))) =
  snd (Smix (repeat x00 128) (repeat 0 (smix_N * 32))).
Proof.
  rewrite !(Smix_correct (repeat x00 128)) by (rewrite repeat_length; apply Nat.le_refl).
  cbn [snd]. rewrite !drop_ge by (rewrite repeat_length; apply Nat.le_refl). reflexivity.
Defined.

(** ** The whole cache *)

(** The block after one round. *)
Definition next_block (b : list byte) : list byte :=
  concat (map (le_put 4) (romix smix_N (block_words b))) ++ drop (4 * chunk) b.

Lemma length_romix_words_block b : length (romix_words smix_N (block_words b)) = (smix_N * 32)%nat.
Proof. apply length_romix_words, length_block_words. Qed.

Lemma Smix_next b v :
  length v = (smix_N * 32)%nat ->
  Smix b v = (next_block b, romix_words smix_N (block_words b)).
Proof.
  intros Hv. assert (Hle : (smix_N * 32 <= length v)%nat) by (rewrite Hv; apply Nat.le_refl).
  unfold next_block. rewrite (Smix_correct b v Hle). rewrite (drop_ge v) by (rewrite Hv; apply Nat.le_refl).
  by rewrite app_nil_r.
Qed.

#[global] Opaque Smix romix_words next_block.

Lemma iter_rounds {A B} (f : A -> list B) (g : A -> A) b n :
  f b ++ concat (map (fun r => f (Nat.iter r g (g b))) (seq 0 n)) =
  concat (map (fun r => f (Nat.iter r g b)) (seq 0 (S n))).
Proof.
  cbn [seq map concat Nat.iter nat_rect]. f_equal. f_equal.
  rewrite <- seq_shift, map_map. apply map_ext. intros r. f_equal.
  induction r as [|r IH]; [done|]. cbn [Nat.iter nat_rect] in *. by rewrite <- IH.
Qed.

Lemma length_concat_map {A B} (f : A -> list B) k l :
  (forall a, length (f a) = k) -> length (concat (map f l)) = (length l * k)%nat.
Proof.
  intros H. induction l as [|a l IH]; [done|]. cbn [map concat length Nat.mul]. by rewrite length_app, H, IH.
Qed.

Lemma smix_rounds l b v cache :
  length v = (smix_N * 32)%nat ->
  let '(_, _, cache') := for_ l (fun '(extSeed, v, cache) _ =>
      let '(extSeed, v) := Smix extSeed v in (extSeed, v, cache ++ v)) (b, v, cache) in
  cache' = cache ++
    concat (map (fun r => romix_words smix_N (block_words (Nat.iter r next_block b))) (seq 0 (length l))).
Proof.
  revert b v cache. induction l as [|i l IH]; intros b v cache Hv.
  { cbn. by rewrite app_nil_r. }
  rewrite for_cons, (Smix_next b v Hv).
  pose proof (length_romix_words_block b) as Hl. specialize (IH (next_block b) _ (cache ++ romix_words smix_N (block_words b)) Hl).
  destruct (for_ l _ _) as [[eS v'] c']. rewrite IH, <- app_assoc. apply (f_equal (app cache)).
  apply (iter_rounds (fun b => romix_words smix_N (block_words b)) next_block b (length l)).
Qed.

(** The cache of a seed is the tables of 128 rounds one after the other, each of
    1024 blocks of 32 words, each round starting from the block the one before it
    ends with: reusing one table leaves nothing of a round in the next. *)
Theorem calcSeedCache_rounds (keccak256 : list byte -> list byte) (seed : list byte) :
  calcSeedCache keccak256 seed =
    concat (map (fun r => romix_words smix_N
                   (block_words (Nat.iter r next_block (extendBytes keccak256 seed 3)))) (seq 0 128)) /\
  length (calcSeedCache keccak256 seed) = (128 * (smix_N * 32))%nat.
Proof.
  assert (Heq : calcSeedCache keccak256 seed =
    concat (map (fun r => romix_words smix_N
                   (block_words (Nat.iter r next_block (extendBytes keccak256 seed 3)))) (seq 0 128))).
  { unfold calcSeedCache. rewrite isLittleEndian_constant. cbn [negb].
    pose proof (smix_rounds (range 0 128) (extendBytes keccak256 seed 3) (repeat 0 (32 * 1024)) []) as H.
    rewrite length_range, app_nil_l in H. change (128 - 0)%nat with 128%nat in H.
    specialize (H (repeat_length _ _)).
    destruct (for_ (range 0 128) _ _) as [[eS v'] c']. exact H. }
  split; [exact Heq|]. rewrite Heq, (length_concat_map _ (smix_N * 32)), length_seq; [reflexivity|].
  intros r. apply length_romix_words_block.
Qed.
