(* ===== verification/NogoCache.v ===== *)
(** * The cache of seed caches ([nogopow/cache.go], the counters of [metrics.go])

    The cells of the list are a store ([cells]); a nil pointer is [None], and an
    operation is [None] when it would follow one.  [onEvict] only logs: the calls
    to it are collected.  The group of [golang.org/x/sync/singleflight] is a
    parameter: for the calls of one goroutine it runs the function it is given. *)

From Stdlib Require Import ZArith Lia.
From S2P Require Import Prelude.
Open Scope Z_scope.

Section LRU.
Context {K : Type} `{Countable K} {V : Type}.

Record listItem := mkItem {
  li_key : K;
  li_value : V;
  li_prev : option nat;
  li_next : option nat }.

Record simpleLRU := mkLRU {
  size : Z;
  capacity : Z;
  items : gmap K nat;
  head_ : option nat;
  tail_ : option nat;
  cells : gmap nat listItem;
  evicted : list (K * V) }.

Definition newSimpleLRU (capacity : Z) : simpleLRU := mkLRU 0 capacity ∅ None None ∅ [].

(** Assignments to the fields of the cache and of a cell. *)
Definition set_head (l : simpleLRU) (p : option nat) : simpleLRU :=
  mkLRU (size l) (capacity l) (items l) p (tail_ l) (cells l) (evicted l).
Definition set_tail (l : simpleLRU) (p : option nat) : simpleLRU :=
  mkLRU (size l) (capacity l) (items l) (head_ l) p (cells l) (evicted l).
Definition set_items (l : simpleLRU) (m : gmap K nat) (size : Z) : simpleLRU :=
  mkLRU size (capacity l) m (head_ l) (tail_ l) (cells l) (evicted l).
Definition set_cells (l : simpleLRU) (m : gmap nat listItem) : simpleLRU :=
  mkLRU (size l) (capacity l) (items l) (head_ l) (tail_ l) m (evicted l).
Definition call_onEvict (l : simpleLRU) (e : K * V) : simpleLRU :=
  mkLRU (size l) (capacity l) (items l) (head_ l) (tail_ l) (cells l) (evicted l ++ [e]).
Definition with_prev (x : listItem) (p : option nat) : listItem :=
  mkItem (li_key x) (li_value x) p (li_next x).
Definition with_next (x : listItem) (p : option nat) : listItem :=
  mkItem (li_key x) (li_value x) (li_prev x) p.
Definition with_value (x : listItem) (v : V) : listItem :=
  mkItem (li_key x) v (li_prev x) (li_next x).
Definition set_cell (l : simpleLRU) (p : nat) (f : listItem -> listItem) : option simpleLRU :=
  x ← cells l !! p; Some (set_cells l (<[p := f x]> (cells l))).

(** The address of a new cell. *)
Definition new_cell (l : simpleLRU) : nat := fresh (dom (cells l)).

Definition removeElement (l : simpleLRU) (ent : nat) : option simpleLRU :=
  x ← cells l !! ent;
  let l := set_items l (delete (li_key x) (items l)) (size l - 1) in
  l ← match li_prev x with
      | Some p => set_cell l p (fun y => with_next y (li_next x))
      | None => Some (set_head l (li_next x))
      end;
  x ← cells l !! ent;
  l ← match li_next x with
      | Some n => set_cell l n (fun y => with_prev y (li_prev x))
      | None => Some (set_tail l (li_prev x))
      end;
  x ← cells l !! ent;
  Some (call_onEvict l (li_key x, li_value x)).

Definition removeOldest (l : simpleLRU) : option simpleLRU :=
  match tail_ l with
  | Some t => removeElement l t
  | None => Some l
  end.

Definition moveToFront (l : simpleLRU) (ent : nat) : option simpleLRU :=
  if decide (head_ l = Some ent) then Some l
  else
    l ← removeElement l ent;
    l ← set_cell l ent (fun x => with_next x (head_ l));
    l ← set_cell l ent (fun x => with_prev x None);
    l ← match head_ l with
        | Some h => set_cell l h (fun x => with_prev x (Some ent))
        | None => Some l
        end;
    let l := set_head l (Some ent) in
    match tail_ l with
    | None => Some (set_tail l (Some ent))
    | Some _ => Some l
    end.

Definition Add (l : simpleLRU) (key : K) (value : V) : option simpleLRU :=
  match items l !! key with
  | Some ent =>
      l ← moveToFront l ent;
      set_cell l ent (fun x => with_value x value)
  | None =>
      let ent := new_cell l in
      let l := set_cells l (<[ent := mkItem key value None None]> (cells l)) in
      let l := set_items l (<[key := ent]> (items l)) (size l) in
      l ← match head_ l with
          | None => Some (set_tail (set_head l (Some ent)) (Some ent))
          | Some h =>
              l ← set_cell l ent (fun x => with_next x (Some h));
              l ← set_cell l h (fun x => with_prev x (Some ent));
              Some (set_head l (Some ent))
          end;
      let l := set_items l (items l) (size l + 1) in
      if capacity l <? size l then removeOldest l else Some l
  end.

Definition Get (l : simpleLRU) (key : K) : option (simpleLRU * option V) :=
  match items l !! key with
  | Some ent =>
      l ← moveToFront l ent;
      x ← cells l !! ent;
      Some (l, Some (li_value x))
  | None => Some (l, None)
  end.

Definition Remove (l : simpleLRU) (key : K) : option (simpleLRU * bool) :=
  match items l !! key with
  | Some ent => l ← removeElement l ent; Some (l, true)
  | None => Some (l, false)
  end.

Definition Len (l : simpleLRU) : Z := size l.

(** The walk of [Keys]; the fuel is the number of cells and one. *)
Fixpoint keys_loop (fuel : nat) (l : simpleLRU) (ent : option nat) : option (list K) :=
  match fuel with
  | O => None
  | S fuel' =>
      match ent with
      | None => Some []
      | Some p => x ← cells l !! p; ks ← keys_loop fuel' l (li_next x); Some (li_key x :: ks)
      end
  end.

Definition Keys (l : simpleLRU) : option (list K) := keys_loop (S (base.size (cells l))) l (head_ l).

End LRU.

Arguments listItem : clear implicits.
Arguments simpleLRU _ {_ _} _.

(** ** The list behind the cells *)

Section rep.
Context {K : Type} `{Countable K} {V : Type}.
Implicit Types (c : gmap nat (listItem K V)) (l : simpleLRU K V).
Abbreviation slot := (nat * (K * V))%type.
Implicit Types (xs ys es : list slot).

(** The cell at the front of a segment, or what follows it; its last cell, or
    what precedes it. *)
Definition hd ys (b : option nat) : option nat := match ys with [] => b | e :: _ => Some e.1 end.
Fixpoint lst xs (a : option nat) : option nat :=
  match xs with [] => a | e :: xs => lst xs (Some e.1) end.

(** The cells of a segment, linked both ways, between the pointers [a] and [b]. *)
Fixpoint seg c (a : option nat) (es : list slot) (b : option nat) : Prop :=
  match es with
  | [] => True
  | (p, kv) :: es => c !! p = Some (mkItem kv.1 kv.2 a (hd es b)) /\ seg c (Some p) es b
  end.

Lemma hd_app xs ys b : hd (xs ++ ys) b = hd xs (hd ys b).
Proof. by destruct xs. Qed.

Lemma lst_app xs ys a : lst (xs ++ ys) a = lst ys (lst xs a).
Proof. revert a. induction xs as [|x xs IH]; intros a; [done|]. apply IH. Qed.

Lemma lst_snoc e xs a : lst (xs ++ [e]) a = Some e.1.
Proof. by rewrite lst_app. Qed.

Lemma seg_cut c a xs ys b : seg c a (xs ++ ys) b <-> seg c a xs (hd ys b) /\ seg c (lst xs a) ys b.
Proof.
  revert a. induction xs as [|[p kv] xs IH]; intros a; cbn [app seg].
  - cbn. naive_solver.
  - rewrite IH, hd_app. cbn. naive_solver.
Qed.

Lemma seg_frame c a xs b p x : (p ∉ xs.*1) -> seg c a xs b -> seg (<[p := x]> c) a xs b.
Proof.
  revert a. induction xs as [|[q kv] xs IH]; intros a Hp; [done|]. cbn [seg].
  rewrite fmap_cons, not_elem_of_cons in Hp. destruct Hp as [Hq Hp]. cbn in Hq. intros [Hc Hs]. split.
  - by rewrite lookup_insert_ne.
  - by apply IH.
Qed.

Lemma seg_in_dom c a xs b p : seg c a xs b -> p ∈ xs.*1 -> p ∈ dom c.
Proof.
  revert a. induction xs as [|[q kv] xs IH]; intros a; cbn [seg]; rewrite ?fmap_nil, ?fmap_cons.
  - intros _ Hp. by apply not_elem_of_nil in Hp.
  - intros [Hc Hs] Hp. apply elem_of_cons in Hp as [->|Hp]; [|by eapply IH].
    apply elem_of_dom. cbn. by rewrite Hc.
Qed.

(** Assigning to the last cell, and to the first one. *)
Lemma seg_set_next c a xs b b' q :
  seg c a xs b -> NoDup xs.*1 -> lst xs None = Some q ->
  exists y, c !! q = Some y /\ seg (<[q := with_next y b']> c) a xs b'.
Proof.
  destruct xs as [|[p kv] xs _] using rev_ind; [done|]. rewrite lst_snoc, fmap_app, seg_cut. cbn [hd fst].
  intros [Hs [Hp _]] Hnd [= <-]. exists (mkItem kv.1 kv.2 (lst xs a) b). split; [done|].
  apply list.NoDup_app in Hnd as (_ & Hnd & _). apply seg_cut. cbn [hd fst seg]. split.
  - apply seg_frame; [|done]. intros Hin. apply (Hnd p Hin). cbn. apply elem_of_cons. by left.
  - by rewrite lookup_insert_eq.
Qed.

Lemma seg_set_prev c a ys b a' n :
  seg c a ys b -> NoDup ys.*1 -> hd ys None = Some n ->
  exists y, c !! n = Some y /\ seg (<[n := with_prev y a']> c) a' ys b.
Proof.
  destruct ys as [|[p kv] ys]; [done|]. cbn [hd fst seg]. intros [Hp Hs] Hnd [= <-].
  rewrite fmap_cons in Hnd. apply list.NoDup_cons in Hnd as [Hni _].
  exists (mkItem kv.1 kv.2 a (hd ys b)). split; [done|]. split; [by rewrite lookup_insert_eq|].
  by apply seg_frame.
Qed.

(** What a cache represents: the cells from the front, and keys of the map that
    point to cells of the list that hold them. *)
Record rep l es : Prop := {
  rep_nodup : NoDup es.*1;
  rep_seg : seg (cells l) None es None;
  rep_head : head_ l = hd es None;
  rep_tail : tail_ l = lst es None;
  rep_items : forall k p, items l !! k = Some p -> exists v, (p, (k, v)) ∈ es }.

Lemma rep_new cap : rep (newSimpleLRU cap) [].
Proof. split; [by constructor|done..]. Qed.

Lemma rep_at l xs p kv ys :
  rep l (xs ++ (p, kv) :: ys) ->
  cells l !! p = Some (mkItem kv.1 kv.2 (lst xs None) (hd ys None)) /\
  seg (cells l) None xs (Some p) /\ seg (cells l) (Some p) ys None /\
  NoDup xs.*1 /\ NoDup ys.*1 /\ (p ∉ xs.*1) /\ (p ∉ ys.*1) /\ (forall q, q ∈ xs.*1 -> q ∉ ys.*1).
Proof.
  intros [Hnd Hs _ _ _]. apply seg_cut in Hs as [H1 [H2 H3]]. cbn in H1, H3.
  rewrite fmap_app, fmap_cons in Hnd. apply list.NoDup_app in Hnd as (Hx & Hd & Hy).
  apply list.NoDup_cons in Hy as [Hpy Hy]. cbn in *. split_and!; try done.
  - intros Hp. apply (Hd p Hp). apply elem_of_cons. by left.
  - intros q Hq Hqy. apply (Hd q Hq). apply elem_of_cons. by right.
Qed.

Lemma rep_slot l es p kv kv' : rep l es -> (p, kv) ∈ es -> (p, kv') ∈ es -> kv = kv'.
Proof.
  intros Hr H1 H2. apply list_elem_of_split in H1 as (xs & ys & ->).
  destruct (rep_at l xs p kv ys Hr) as (_ & _ & _ & _ & _ & Hx & Hy & _).
  apply elem_of_app in H2 as [H2|H2]; [|apply elem_of_cons in H2 as [[= ->]|H2]; [done|]].
  - exfalso. apply Hx. apply list_elem_of_fmap. by exists (p, kv').
  - exfalso. apply Hy. apply list_elem_of_fmap. by exists (p, kv').
Qed.

(** ** The operations on what the cache represents *)

Lemma set_cell_Some l p f x :
  cells l !! p = Some x -> set_cell l p f = Some (set_cells l (<[p := f x]> (cells l))).
Proof. intros Hx. unfold set_cell. by rewrite Hx. Qed.

Lemma hd_in ys n : hd ys None = Some n -> n ∈ ys.*1.
Proof. destruct ys as [|e ys]; [done|]. intros [= <-]. apply elem_of_cons. by left. Qed.

Lemma lst_in xs q : lst xs None = Some q -> q ∈ xs.*1.
Proof.
  destruct xs as [|e xs _] using rev_ind; [done|]. rewrite lst_snoc. intros [= <-].
  rewrite fmap_app. apply elem_of_app. right. apply elem_of_cons. by left.
Qed.

Lemma slot_in p kv es : (p, kv) ∈ es -> p ∈ es.*1.
Proof. intros Hin. apply list_elem_of_fmap. by exists (p, kv). Qed.

(** Items of the representation that remain when a key is deleted with its cell. *)
Lemma items_delete l xs p k v ys :
  rep l (xs ++ (p, (k, v)) :: ys) ->
  forall k' q, delete k (items l) !! k' = Some q -> exists w, (q, (k', w)) ∈ xs ++ ys.
Proof.
  intros Hr k' q Hq. apply lookup_delete_Some in Hq as [Hne Hq].
  destruct (rep_items _ _ Hr _ _ Hq) as [w Hw]. exists w.
  rewrite elem_of_app, elem_of_cons in Hw. rewrite elem_of_app.
  destruct Hw as [Hw|[[= -> -> ->]|Hw]]; [by left|done|by right].
Qed.

(** What the two assignments around an unlinked cell leave alone. *)
Record same_but_links l l' : Prop := {
  sb_items : items l' = items l;
  sb_size : size l' = size l;
  sb_capacity : capacity l' = capacity l;
  sb_evicted : evicted l' = evicted l;
  sb_dom : dom (cells l') = dom (cells l) }.

(** The pointer into the cell [p] from the left, and the one from the right. *)
Definition link_left l xs ys : option (simpleLRU K V) :=
  match lst xs None with
  | Some q => set_cell l q (fun y => with_next y (hd ys None))
  | None => Some (set_head l (hd ys None))
  end.

Definition link_right l xs ys : option (simpleLRU K V) :=
  match hd ys None with
  | Some n => set_cell l n (fun y => with_prev y (lst xs None))
  | None => Some (set_tail l (lst xs None))
  end.

Section unlink.
Variables (xs ys : list slot) (p : nat).
Hypothesis Hnx : NoDup xs.*1.
Hypothesis Hny : NoDup ys.*1.
Hypothesis Hpx : p ∉ xs.*1.
Hypothesis Hpy : p ∉ ys.*1.
Hypothesis Hxy : forall q, q ∈ xs.*1 -> q ∉ ys.*1.

Lemma link_left_rep l :
  seg (cells l) None xs (Some p) -> seg (cells l) (Some p) ys None -> head_ l = hd xs (Some p) ->
  exists l', link_left l xs ys = Some l' /\ seg (cells l') None xs (hd ys None) /\
    seg (cells l') (Some p) ys None /\ cells l' !! p = cells l !! p /\
    head_ l' = hd xs (hd ys None) /\ tail_ l' = tail_ l /\ same_but_links l l'.
Proof using Hnx Hpx Hxy.
  intros Hsx Hsy Hh. unfold link_left. destruct (lst xs None) as [q|] eqn:Hq.
  - destruct (seg_set_next _ _ _ _ (hd ys None) q Hsx Hnx Hq) as (y & Hy & Hs).
    pose proof (lst_in _ _ Hq) as Hqx. rewrite (set_cell_Some l q _ y Hy). eexists. split; [done|]. cbn.
    split_and!; try done.
    + apply seg_frame; [by apply Hxy|done].
    + apply lookup_insert_ne. by intros ->.
    + rewrite Hh. by destruct xs.
    + split; try done. cbn. rewrite dom_insert_lookup_L; [done|]. by exists y.
  - assert (xs = []) as -> by (destruct xs as [|e xs' _] using rev_ind; [done|by rewrite lst_snoc in Hq]).
    eexists. split; [done|]. cbn. by split_and!.
Qed.

Lemma link_right_rep l :
  seg (cells l) None xs (hd ys None) -> seg (cells l) (Some p) ys None -> tail_ l = lst ys (Some p) ->
  exists l', link_right l xs ys = Some l' /\ seg (cells l') None (xs ++ ys) None /\
    cells l' !! p = cells l !! p /\ head_ l' = head_ l /\ tail_ l' = lst ys (lst xs None) /\
    same_but_links l l'.
Proof using Hny Hpy Hxy.
  intros Hsx Hsy Ht. unfold link_right. destruct (hd ys None) as [n|] eqn:Hn.
  - destruct (seg_set_prev _ _ _ _ (lst xs None) n Hsy Hny Hn) as (y & Hy & Hs).
    pose proof (hd_in _ _ Hn) as Hny'. rewrite (set_cell_Some l n _ y Hy). eexists. split; [done|]. cbn.
    split_and!; try done.
    + apply seg_cut. rewrite Hn. split; [|done]. apply seg_frame; [|done]. intros Hnx'. by apply (Hxy n).
    + apply lookup_insert_ne. by intros ->.
    + rewrite Ht. by destruct ys.
    + split; try done. cbn. rewrite dom_insert_lookup_L; [done|]. by exists y.
  - assert (ys = []) as -> by (by destruct ys).
    eexists. split; [done|]. cbn. split_and!; try done. by rewrite app_nil_r.
Qed.

End unlink.

(** Unlinking a cell: the cells before and after it are linked, the map loses
    the key of the cell, the size goes down, and the callback is called. *)
Lemma removeElement_rep l xs p k v ys :
  rep l (xs ++ (p, (k, v)) :: ys) ->
  exists l', removeElement l p = Some l' /\ rep l' (xs ++ ys) /\
    items l' = delete k (items l) /\ size l' = size l - 1 /\ capacity l' = capacity l /\
    evicted l' = evicted l ++ [(k, v)] /\
    cells l' !! p = Some (mkItem k v (lst xs None) (hd ys None)) /\
    dom (cells l') = dom (cells l).
Proof.
  intros Hr. pose proof (items_delete _ _ _ _ _ _ Hr) as Hitems.
  destruct (rep_at _ _ _ _ _ Hr) as (Hp & Hsx & Hsy & Hnx & Hny & Hpx & Hpy & Hxy). cbn [fst snd] in Hp.
  pose proof (rep_head _ _ Hr) as Hh. pose proof (rep_tail _ _ Hr) as Ht.
  rewrite hd_app in Hh. rewrite lst_app in Ht. cbn [hd lst fst] in Hh, Ht.
  set (l1 := set_items l (delete k (items l)) (size l - 1)).
  destruct (link_left_rep xs ys p Hnx Hpx Hxy l1 Hsx Hsy Hh)
    as (l2 & E2 & Hsx2 & Hsy2 & Hp2 & Hh2 & Ht2 & Hsb2).
  destruct (link_right_rep xs ys p Hny Hpy Hxy l2 Hsx2 Hsy2 (eq_trans Ht2 Ht))
    as (l3 & E3 & Hs3 & Hp3 & Hh3 & Ht3 & Hsb3).
  destruct Hsb2 as [Hi2 Hsz2 Hc2 Hev2 Hd2]. destruct Hsb3 as [Hi3 Hsz3 Hc3 Hev3 Hd3].
  cbn in Hp2. rewrite Hp in Hp2. rewrite Hp2 in Hp3.
  exists (call_onEvict l3 (k, v)). split.
  { unfold removeElement. rewrite Hp. cbn [mbind option_bind li_key li_prev li_next]. fold l1.
    change (match lst xs None with Some _ => _ | None => _ end) with (link_left l1 xs ys). rewrite E2.
    cbn [mbind option_bind]. rewrite Hp2. cbn [mbind option_bind li_key li_prev li_next].
    change (match hd ys None with Some _ => _ | None => _ end) with (link_right l2 xs ys). rewrite E3.
    cbn [mbind option_bind]. rewrite Hp3. done. }
  cbn. rewrite Hi3, Hi2, Hsz3, Hsz2, Hev3, Hev2, Hp3, Hc3, Hc2, Hd3, Hd2. split; [|by split_and!].
  split; cbn.
  - rewrite fmap_app. apply list.NoDup_app. by split_and!.
  - done.
  - by rewrite Hh3, Hh2, hd_app.
  - by rewrite Ht3, lst_app.
  - by rewrite Hi3, Hi2.
Qed.

(** Linking an unlinked cell in front of the list. *)
Lemma seg_push c es p kv h :
  seg c None es None -> NoDup es.*1 -> p ∉ es.*1 ->
  c !! p = Some (mkItem kv.1 kv.2 None (hd es None)) -> hd es None = Some h ->
  exists y, c !! h = Some y /\
    seg (<[h := with_prev y (Some p)]> c) None ((p, kv) :: es) None.
Proof.
  intros Hs Hnd Hp Hc Hh. destruct (seg_set_prev _ _ _ _ (Some p) h Hs Hnd Hh) as (y & Hy & Hs').
  exists y. split; [done|]. cbn [seg]. split; [|done].
  rewrite lookup_insert_ne; [done|]. intros ->. by apply Hp, hd_in.
Qed.

Lemma insert_twice c p x y : <[p := y]> (<[p := x]> c) = <[p := y]> c.
Proof. apply insert_insert_eq. Qed.

(** Moving the first cell does nothing; any other one leaves the map, and the
    size and the callback follow, although the cell stays in the list. *)
Lemma moveToFront_first l p kv ys : rep l ((p, kv) :: ys) -> moveToFront l p = Some l.
Proof. intros Hr. unfold moveToFront. rewrite (rep_head _ _ Hr). cbn. by rewrite decide_True. Qed.

Lemma moveToFront_rep l e xs p k v ys :
  rep l ((e :: xs) ++ (p, (k, v)) :: ys) ->
  exists l', moveToFront l p = Some l' /\ rep l' ((p, (k, v)) :: (e :: xs) ++ ys) /\
    items l' = delete k (items l) /\ size l' = size l - 1 /\ capacity l' = capacity l /\
    evicted l' = evicted l ++ [(k, v)].
Proof.
  intros Hr. destruct (rep_at _ _ _ _ _ Hr) as (_ & _ & _ & _ & _ & Hpx & Hpy & _).
  pose proof (items_delete _ _ _ _ _ _ Hr) as Hitems.
  pose proof (rep_head _ _ Hr) as Hhead. cbn in Hhead.
  destruct (removeElement_rep _ _ _ _ _ _ Hr) as (l1 & E & [Hnd Hs Hh Ht Hi] & Hi1 & Hsz & Hcap & Hev & Hp & _).
  assert (Hni : p ∉ ((e :: xs) ++ ys).*1) by (rewrite fmap_app, elem_of_app; naive_solver).
  cbn [app hd] in Hh.
  set (c0 := <[p := mkItem k v None (Some e.1)]> (cells l1)).
  destruct (seg_push c0 ((e :: xs) ++ ys) p (k, v) e.1) as (y & Hy & Hs');
    [by apply seg_frame|done|done|apply lookup_insert_eq|done|].
  exists (set_head (set_cells l1 (<[e.1 := with_prev y (Some p)]> c0)) (Some p)). split.
  { unfold moveToFront. rewrite Hhead, decide_False by (intros [= Heq]; apply Hpx; rewrite fmap_cons, Heq; apply elem_of_cons; by left).
    rewrite E. cbn [mbind option_bind]. rewrite (set_cell_Some l1 p _ _ Hp). cbn [mbind option_bind].
    erewrite set_cell_Some by apply lookup_insert_eq. cbn. rewrite insert_twice, Hh. unfold with_prev, with_next. cbn.
    fold c0. erewrite set_cell_Some by exact Hy. cbn. rewrite Ht. cbn [app lst].
    destruct (lst (xs ++ ys) (Some e.1)) eqn:Hlst; [done|].
    exfalso. destruct (xs ++ ys) as [|e' es' _] using rev_ind; [done|by rewrite lst_snoc in Hlst]. }
  cbn. rewrite Hi1, Hsz, Hcap, Hev. split; [|by split_and!]. split; cbn [cells head_ tail_ items set_head set_cells].
  - rewrite fmap_cons. by apply list.NoDup_cons.
  - exact Hs'.
  - done.
  - rewrite Ht. done.
  - rewrite Hi1. intros k' q Hq. destruct (Hitems k' q Hq) as [w Hw]. exists w. apply elem_of_cons. by right.
Qed.

(** A new value for a cell of the list. *)
Lemma set_value_rep l xs p k v w ys :
  rep l (xs ++ (p, (k, v)) :: ys) ->
  exists l', set_cell l p (fun x => with_value x w) = Some l' /\ rep l' (xs ++ (p, (k, w)) :: ys) /\
    items l' = items l /\ size l' = size l /\ capacity l' = capacity l /\ evicted l' = evicted l.
Proof.
  intros Hr. destruct (rep_at _ _ _ _ _ Hr) as (Hp & Hsx & Hsy & Hnx & Hny & Hpx & Hpy & Hxy).
  rewrite (set_cell_Some l p _ _ Hp). eexists. split; [done|]. cbn. split; [|by split_and!].
  pose proof Hr as [Hnd Hs Hh Ht Hi]. split; cbn.
  - rewrite !fmap_app, !fmap_cons in *. exact Hnd.
  - apply seg_cut. cbn [hd fst seg]. split_and!.
    + by apply seg_frame.
    + by rewrite lookup_insert_eq.
    + by apply seg_frame.
  - rewrite Hh. by destruct xs.
  - rewrite Ht, !lst_app. done.
  - intros k' q Hq. destruct (Hi k' q Hq) as [w' Hw].
    rewrite elem_of_app, elem_of_cons in Hw. setoid_rewrite elem_of_app. setoid_rewrite elem_of_cons.
    destruct Hw as [Hw|[[= -> -> ->]|Hw]]; [exists w'; by left|exists w; right; by left|exists w'; by do 2 right].
Qed.

(** The cell a key of the map points to. *)
Lemma items_split l es k p :
  rep l es -> items l !! k = Some p -> exists xs v ys, es = xs ++ (p, (k, v)) :: ys.
Proof.
  intros Hr Hk. destruct (rep_items _ _ Hr _ _ Hk) as [v Hin].
  apply list_elem_of_split in Hin as (xs & ys & ->). by exists xs, v, ys.
Qed.

Lemma Get_miss l k : items l !! k = None -> Get l k = Some (l, None).
Proof. intros Hk. unfold Get. by rewrite Hk. Qed.

Lemma Get_first l p k v ys :
  rep l ((p, (k, v)) :: ys) -> items l !! k = Some p -> Get l k = Some (l, Some v).
Proof.
  intros Hr Hk. unfold Get. rewrite Hk. cbn. rewrite (moveToFront_first _ _ _ _ Hr). cbn.
  destruct (rep_at l [] p (k, v) ys Hr) as [Hp _]. by rewrite Hp.
Qed.

(** A hit behind the first cell drops the key from the map. *)
Lemma Get_other l e xs p k v ys :
  rep l ((e :: xs) ++ (p, (k, v)) :: ys) -> items l !! k = Some p ->
  exists l', Get l k = Some (l', Some v) /\ rep l' ((p, (k, v)) :: (e :: xs) ++ ys) /\
    items l' = delete k (items l) /\ size l' = size l - 1 /\ capacity l' = capacity l /\
    evicted l' = evicted l ++ [(k, v)].
Proof.
  intros Hr Hk. destruct (moveToFront_rep _ _ _ _ _ _ _ Hr) as (l' & E & Hr' & Hrest).
  exists l'. split; [|by split]. unfold Get. rewrite Hk, E. cbn.
  destruct (rep_at l' [] p (k, v) _ Hr') as [Hp _]. by rewrite Hp.
Qed.

(** A new key is a new first cell; above the capacity the last one goes. *)
Lemma Add_new l es k v :
  rep l es -> items l !! k = None ->
  exists l' p, Add l k v = (if capacity l <? size l + 1 then removeOldest l' else Some l') /\
    rep l' ((p, (k, v)) :: es) /\ (p ∉ es.*1) /\
    items l' = <[k := p]> (items l) /\ size l' = size l + 1 /\ capacity l' = capacity l /\
    evicted l' = evicted l.
Proof.
  intros [Hnd Hs Hh Ht Hi] Hk. set (p := new_cell l).
  assert (Hp : p ∉ dom (cells l)) by apply is_fresh.
  assert (Hpe : p ∉ es.*1) by (intros Hin; by apply Hp, (seg_in_dom _ _ _ _ _ Hs)).
  assert (Hitems : forall k' q, <[k := p]> (items l) !! k' = Some q -> exists w, (q, (k', w)) ∈ (p, (k, v)) :: es).
  { intros k' q Hq. apply lookup_insert_Some in Hq as [[<- <-]|[_ Hq]]; [exists v; apply elem_of_cons; by left|].
    destruct (Hi k' q Hq) as [w Hw]. exists w. apply elem_of_cons. by right. }
  assert (Hnd' : NoDup ((p, (k, v)) :: es).*1) by (rewrite fmap_cons; by apply list.NoDup_cons).
  unfold Add. rewrite Hk. fold p. cbv zeta. cbn [head_ set_items set_cells cells].
  destruct (hd es None) as [h|] eqn:Hhd; rewrite Hh.
  - set (c0 := <[p := mkItem k v None (Some h)]> (cells l)).
    destruct (seg_push c0 es p (k, v) h) as (y & Hy & Hs'); [by apply seg_frame|done|done|
      rewrite Hhd; apply lookup_insert_eq|done|].
    erewrite set_cell_Some by apply lookup_insert_eq. cbn [mbind option_bind cells set_items set_cells].
    rewrite insert_twice. unfold with_next. cbn [li_key li_value li_prev]. fold c0.
    erewrite set_cell_Some by exact Hy. cbn.
    eexists _, p. split; [done|]. cbn. split; [|by split_and!].
    split; cbn; [done|done|done| |done]. rewrite Ht. by destruct es.
  - assert (es = []) as -> by (by destruct es). cbn [mbind option_bind].
    eexists _, p. split; [reflexivity|]. cbn. split; [|by split_and!].
    split; cbn; try done. split; [apply lookup_insert_eq|done].
Qed.

Lemma in_move (s s' : slot) xs ys : s' ∈ s :: xs ++ ys <-> s' ∈ xs ++ s :: ys.
Proof. by rewrite Permutation_middle. Qed.

(** Every call of the cache ends without following a nil pointer, keeps the list
    in order, and holds for a key only values that were there or are added. *)
Definition values_ok (P : K -> V -> Prop) es : Prop := forall p k v, (p, (k, v)) ∈ es -> P k v.

Lemma removeElement_safe P l es p :
  rep l es -> values_ok P es -> p ∈ es.*1 ->
  exists l' es', removeElement l p = Some l' /\ rep l' es' /\ values_ok P es' /\ capacity l' = capacity l /\
    size l' = size l - 1.
Proof.
  intros Hr HP Hp. apply list_elem_of_fmap in Hp as ([q [k v]] & -> & Hin).
  apply list_elem_of_split in Hin as (xs & ys & ->).
  destruct (removeElement_rep _ _ _ _ _ _ Hr) as (l' & E & Hr' & _ & Hsz & Hc & _).
  exists l', (xs ++ ys). split_and!; try done. intros q' k' v' Hin. apply (HP q' k' v').
  apply elem_of_app. apply elem_of_app in Hin as [?|?]; [by left|right; apply elem_of_cons; by right].
Qed.

Lemma Get_safe P l es k :
  rep l es -> values_ok P es -> size l <= capacity l ->
  exists l' es' r, Get l k = Some (l', r) /\ rep l' es' /\ values_ok P es' /\
    capacity l' = capacity l /\ size l' <= capacity l /\ (forall v, r = Some v -> P k v).
Proof.
  intros Hr HP Hsz. destruct (items l !! k) as [p|] eqn:Hk.
  - destruct (items_split _ _ _ _ Hr Hk) as ([|e xs] & v & ys & ->).
    + exists l, ((p, (k, v)) :: ys), (Some v). rewrite (Get_first _ _ _ _ _ Hr Hk). split_and!; try done.
      intros w [= <-]. apply (HP p). apply elem_of_cons. by left.
    + destruct (Get_other _ _ _ _ _ _ _ Hr Hk) as (l' & E & Hr' & _ & Hsz' & Hc & _).
      exists l', ((p, (k, v)) :: (e :: xs) ++ ys), (Some v). rewrite Hc. split_and!; try done; [|lia|].
      * intros q k' v' Hin. apply (HP q k' v'). by apply (proj1 (in_move _ _ _ _)).
      * intros w [= <-]. apply (HP p). apply (proj1 (in_move _ _ _ _)), elem_of_cons. by left.
  - exists l, es, None. by rewrite (Get_miss _ _ Hk).
Qed.

Lemma Remove_safe P l es k :
  rep l es -> values_ok P es -> size l <= capacity l ->
  exists l' es' b, Remove l k = Some (l', b) /\ rep l' es' /\ values_ok P es' /\
    capacity l' = capacity l /\ size l' <= capacity l.
Proof.
  intros Hr HP Hsz. unfold Remove. destruct (items l !! k) as [p|] eqn:Hk.
  - destruct (rep_items _ _ Hr _ _ Hk) as [v Hin].
    destruct (removeElement_safe P l es p Hr HP (slot_in _ _ _ Hin)) as (l' & es' & -> & Hr' & HP' & Hc & Hsz').
    exists l', es', true. rewrite Hc. split_and!; try done. lia.
  - by exists l, es, false.
Qed.

Lemma lst_cons_in e es a : exists t, lst (e :: es) a = Some t /\ t ∈ (e :: es).*1.
Proof.
  revert e a. induction es as [|e' es IH]; intros e a.
  - exists e.1. split; [done|]. apply elem_of_cons. by left.
  - destruct (IH e' (Some e.1)) as (t & Ht & Hin). exists t. split; [done|]. apply elem_of_cons. by right.
Qed.

Lemma Add_safe P l es k v :
  rep l es -> values_ok P es -> size l <= capacity l -> P k v ->
  exists l' es', Add l k v = Some l' /\ rep l' es' /\ values_ok P es' /\
    capacity l' = capacity l /\ size l' <= capacity l.
Proof.
  intros Hr HP Hsz Hv. destruct (items l !! k) as [p|] eqn:Hk.
  - assert (Hset : forall l1 w zs, rep l1 ((p, (k, w)) :: zs) -> values_ok P zs -> exists l2,
      set_cell l1 p (fun x => with_value x v) = Some l2 /\ rep l2 ((p, (k, v)) :: zs) /\
      values_ok P ((p, (k, v)) :: zs) /\ capacity l2 = capacity l1 /\ size l2 = size l1).
    { intros l1 w zs Hr1 HP1. destruct (set_value_rep l1 [] p k w v zs Hr1) as (l2 & E & Hr2 & _ & Hs2 & Hc2 & _).
      exists l2. split_and!; try done. intros q k' v' Hin.
      apply elem_of_cons in Hin as [[= -> -> ->]|Hin]; [done|by apply (HP1 q)]. }
    unfold Add. rewrite Hk. destruct (items_split _ _ _ _ Hr Hk) as ([|e xs] & w & ys & ->).
    + rewrite (moveToFront_first _ _ _ _ Hr). cbn [mbind option_bind].
      destruct (Hset l w ys Hr) as (l2 & E & Hr2 & HP2 & Hc2 & Hs2).
      { intros q k' v' Hin. apply (HP q). apply elem_of_cons. by right. }
      exists l2, ((p, (k, v)) :: ys). rewrite Hs2. by split_and!.
    + destruct (moveToFront_rep _ _ _ _ _ _ _ Hr) as (l1 & E1 & Hr1 & _ & Hs1 & Hc1 & _).
      rewrite E1. cbn [mbind option_bind].
      destruct (Hset l1 w _ Hr1) as (l2 & E & Hr2 & HP2 & Hc2 & Hs2).
      { intros q k' v' Hin. apply (HP q). apply (proj1 (in_move _ _ _ _)), elem_of_cons. by right. }
      exists l2, ((p, (k, v)) :: (e :: xs) ++ ys). rewrite Hs2, Hc2. split_and!; try done. lia.
  - destruct (Add_new l es k v Hr Hk) as (l1 & p & -> & Hr1 & _ & _ & Hs1 & Hc1 & _).
    assert (HP1 : values_ok P ((p, (k, v)) :: es)).
    { intros q k' v' Hin. apply elem_of_cons in Hin as [[= -> -> ->]|Hin]; [done|by apply (HP q)]. }
    destruct (Z.ltb_spec (capacity l) (size l + 1)).
    + assert (Ht : exists t, tail_ l1 = Some t /\ t ∈ ((p, (k, v)) :: es).*1).
      { rewrite (rep_tail _ _ Hr1). apply lst_cons_in. }
      destruct Ht as (t & Ht & Hin). unfold removeOldest. rewrite Ht.
      destruct (removeElement_safe P l1 _ t Hr1 HP1 Hin) as (l2 & es2 & E & Hr2 & HP2 & Hc2 & Hs2).
      exists l2, es2. rewrite Hc2. split_and!; try done. lia.
    + exists l1, ((p, (k, v)) :: es). split_and!; try done. lia.
Qed.

Lemma keys_loop_seg l a xs fuel :
  seg (cells l) a xs None -> (length xs < fuel)%nat ->
  keys_loop fuel l (hd xs None) = Some (xs.*2.*1).
Proof.
  revert a fuel. induction xs as [|[p kv] xs IH]; intros a [|fuel] Hs Hf; [cbn in Hf; lia|done|cbn in Hf; lia|].
  cbn [seg] in Hs. destruct Hs as [Hc Hs]. cbn [hd fst keys_loop]. rewrite Hc.
  cbn [mbind option_bind li_next li_key length] in *. rewrite (IH _ _ Hs) by lia. done.
Qed.

Lemma rep_length l es : rep l es -> (length es <= base.size (cells l))%nat.
Proof.
  intros [Hnd Hs _ _ _]. rewrite <- (length_fmap fst es), <- (size_list_to_set (C := gset nat)) by done.
  rewrite <- size_dom. apply subseteq_size. intros p. rewrite elem_of_list_to_set. by eapply seg_in_dom.
Qed.

(** [Keys] ends, and lists the keys of the cells from the front. *)
Lemma Keys_rep l es : rep l es -> Keys l = Some (es.*2.*1).
Proof.
  intros Hr. pose proof (rep_length _ _ Hr) as Hl. unfold Keys. rewrite (rep_head _ _ Hr).
  eapply keys_loop_seg; [apply Hr|lia].
Qed.

End rep.

(** ** The cache of seed caches *)

Record Cache := mkCache {
  lruCache : simpleLRU (list byte) (list Z);
  cacheHits : Z;
  cacheMisses : Z }.

Definition maxCacheItems : Z := 64.
Definition NewCache : Cache := mkCache (newSimpleLRU maxCacheItems) 0 0.

Definition set_lru (c : Cache) l : Cache := mkCache l (cacheHits c) (cacheMisses c).
Definition IncCacheHits (c : Cache) : Cache :=
  mkCache (lruCache c) (wrap_u64 (cacheHits c + 1)) (cacheMisses c).
Definition IncCacheMisses (c : Cache) : Cache :=
  mkCache (lruCache c) (cacheHits c) (wrap_u64 (cacheMisses c + 1)).

(** [copy(seedKey[:], seed)] into an array of zeros. *)
Definition seedKey (seed : list byte) : list byte :=
  take 32 seed ++ repeat x00 (32 - length seed).

Section GetData.

(** [calcSeedCache], applied to the 32 byte array of the seed. *)
Variable generate : list byte -> list Z.
(** [Group.Do], for the calls of one goroutine. *)
Variable Do : list byte -> (Cache -> option (Cache * list Z)) -> Cache -> option (Cache * list Z).

(** The function given to the group. *)
Definition fill (seed : list byte) (c : Cache) : option (Cache * list Z) :=
  '(l, item) ← Get (lruCache c) seed;
  match item with
  | Some data => Some (set_lru c l, data)
  | None =>
      let data := generate (seedKey seed) in
      l ← Add l seed data;
      Some (set_lru c l, data)
  end.

Definition GetData (c : Cache) (seed : list byte) : option (Cache * list Z) :=
  '(l, item) ← Get (lruCache c) seed;
  let c := set_lru c l in
  match item with
  | Some data => Some (IncCacheHits c, data)
  | None => Do seed (fill seed) (IncCacheMisses c)
  end.

Definition Cache_Remove (c : Cache) (seed : list byte) : option Cache :=
  '(l, _) ← Remove (lruCache c) seed;
  Some (set_lru c l).

(** One turn of the loop of [Stats]. *)
Definition stats_step (l : simpleLRU (list byte) (list Z)) (totalSize : Z) (key : list byte) :=
  '(l, item) ← Get l key;
  Some (l, match item with
           | Some data => totalSize + Z.of_nat (length data) * 4
           | None => totalSize
           end).

Fixpoint stats_loop (keys : list (list byte)) (l : simpleLRU (list byte) (list Z)) (totalSize : Z) :=
  match keys with
  | [] => Some (l, totalSize)
  | key :: keys => '(l, totalSize) ← stats_step l totalSize key; stats_loop keys l totalSize
  end.

(** The number of items, their size and the maximum. *)
Definition Stats (c : Cache) : option (Cache * (Z * Z * Z)) :=
  let count := Len (lruCache c) in
  keys ← Keys (lruCache c);
  '(l, totalSize) ← stats_loop keys (lruCache c) 0;
  Some (set_lru c l, (count, totalSize, maxCacheItems)).

(** ** Sequences of calls *)

Inductive call := CallGetData (seed : list byte) | CallRemove (seed : list byte) | CallStats.

Definition run_call (c : Cache) (x : call) : option (Cache * option (list Z)) :=
  match x with
  | CallGetData seed => '(c, d) ← GetData c seed; Some (c, Some d)
  | CallRemove seed => c ← Cache_Remove c seed; Some (c, None)
  | CallStats => '(c, _) ← Stats c; Some (c, None)
  end.

Fixpoint run (c : Cache) (xs : list call) : option (Cache * list (option (list Z))) :=
  match xs with
  | [] => Some (c, [])
  | x :: xs => '(c, r) ← run_call c x; '(c, rs) ← run c xs; Some (c, r :: rs)
  end.

Definition answer (x : call) : option (list Z) :=
  match x with CallGetData seed => Some (generate (seedKey seed)) | _ => None end.

End GetData.

(** [singleflight.Group.Do] runs its function when no other call is in flight. *)
Definition runs_function
    (Do : list byte -> (Cache -> option (Cache * list Z)) -> Cache -> option (Cache * list Z)) : Prop :=
  forall key f c, Do key f c = f c.

Definition Do_alone (key : list byte) (f : Cache -> option (Cache * list Z)) (c : Cache) := f c.

(** ** What the cache answers *)

Section correct.
Variable generate : list byte -> list Z.
Variable Do : list byte -> (Cache -> option (Cache * list Z)) -> Cache -> option (Cache * list Z).
Hypothesis HDo : runs_function Do.

Definition generated (k : list byte) (v : list Z) : Prop := v = generate (seedKey k).

Definition cache_inv (c : Cache) : Prop :=
  exists es, rep (lruCache c) es /\ values_ok generated es /\
    capacity (lruCache c) = maxCacheItems /\ size (lruCache c) <= maxCacheItems.

Lemma fill_correct c seed :
  cache_inv c -> exists c', fill generate seed c = Some (c', generate (seedKey seed)) /\ cache_inv c'.
Proof.
  intros (es & Hr & HP & Hc & Hs). unfold fill. rewrite <- Hc in Hs.
  destruct (Get_safe generated _ _ seed Hr HP Hs) as (l1 & es1 & r & -> & Hr1 & HP1 & Hc1 & Hs1 & Hv).
  cbn [mbind option_bind]. destruct r as [v|].
  - rewrite (Hv v eq_refl). eexists. split; [done|]. exists es1. rewrite <- Hc. by split_and!.
  - rewrite <- Hc1 in Hs1.
    destruct (Add_safe generated l1 es1 seed (generate (seedKey seed)) Hr1 HP1 Hs1 eq_refl)
      as (l2 & es2 & -> & Hr2 & HP2 & Hc2 & Hs2).
    eexists. split; [done|]. exists es2. rewrite <- Hc, <- Hc1. by split_and!.
Qed.

Lemma GetData_correct c seed :
  cache_inv c -> exists c', GetData generate Do c seed = Some (c', generate (seedKey seed)) /\ cache_inv c'.
Proof using HDo.
  intros (es & Hr & HP & Hc & Hs). unfold GetData. rewrite <- Hc in Hs.
  destruct (Get_safe generated _ _ seed Hr HP Hs) as (l1 & es1 & r & -> & Hr1 & HP1 & Hc1 & Hs1 & Hv).
  cbn [mbind option_bind].
  assert (Hinv : cache_inv (set_lru c l1)) by (exists es1; rewrite <- Hc; by split_and!).
  destruct r as [v|].
  - rewrite (Hv v eq_refl). eexists. split; [done|]. exact Hinv.
  - rewrite HDo. apply fill_correct. exact Hinv.
Qed.

Lemma Cache_Remove_correct c seed : cache_inv c -> exists c', Cache_Remove c seed = Some c' /\ cache_inv c'.
Proof.
  intros (es & Hr & HP & Hc & Hs). unfold Cache_Remove. rewrite <- Hc in Hs.
  destruct (Remove_safe generated _ _ seed Hr HP Hs) as (l1 & es1 & b & -> & Hr1 & HP1 & Hc1 & Hs1).
  eexists. split; [done|]. exists es1. rewrite <- Hc. by split_and!.
Qed.

Lemma stats_loop_correct keys c t :
  cache_inv c -> exists l t', stats_loop keys (lruCache c) t = Some (l, t') /\ cache_inv (set_lru c l).
Proof.
  revert c t. induction keys as [|k keys IH]; intros c t Hinv.
  { eexists _, t. split; [done|]. by destruct c. }
  destruct Hinv as (es & Hr & HP & Hc & Hs). rewrite <- Hc in Hs.
  destruct (Get_safe generated _ _ k Hr HP Hs) as (l1 & es1 & r & E & Hr1 & HP1 & Hc1 & Hs1 & _).
  cbn [stats_loop]. unfold stats_step. rewrite E. cbn [mbind option_bind].
  destruct (IH (set_lru c l1) (match r with Some data => t + Z.of_nat (length data) * 4 | None => t end))
    as (l' & t' & E' & Hinv'); [exists es1; rewrite <- Hc; by split_and!|].
  exists l', t'. by split.
Qed.

Lemma Stats_correct c :
  cache_inv c -> exists c' n, Stats c = Some (c', (Len (lruCache c), n, maxCacheItems)) /\ cache_inv c'.
Proof.
  intros Hinv. destruct Hinv as (es & Hr & Hrest) eqn:Hi. unfold Stats. rewrite (Keys_rep _ _ Hr). cbn [mbind option_bind].
  destruct (stats_loop_correct (es.*2.*1) c 0 Hinv) as (l & n & -> & Hinv').
  exists (set_lru c l), n. by split.
Qed.

Lemma run_call_correct c x :
  cache_inv c -> exists c', run_call generate Do c x = Some (c', answer generate x) /\ cache_inv c'.
Proof using HDo.
  intros Hinv. destruct x as [seed|seed|]; cbn [run_call answer].
  - destruct (GetData_correct c seed Hinv) as (c' & -> & Hinv'). by exists c'.
  - destruct (Cache_Remove_correct c seed Hinv) as (c' & -> & Hinv'). by exists c'.
  - destruct (Stats_correct c Hinv) as (c' & n & -> & Hinv'). by exists c'.
Qed.

Lemma NewCache_inv : cache_inv NewCache.
Proof. exists []. split; [apply rep_new|]. split; [|done]. intros p k v Hin. by apply not_elem_of_nil in Hin. Qed.

Lemma run_inv c xs :
  cache_inv c -> exists c', run generate Do c xs = Some (c', map (answer generate) xs) /\ cache_inv c'.
Proof using HDo.
  revert c. induction xs as [|x xs IH]; intros c Hinv; [by exists c|].
  destruct (run_call_correct c x Hinv) as (c1 & E & Hinv1). destruct (IH c1 Hinv1) as (c2 & E2 & Hinv2).
  exists c2. split; [|done]. cbn [run map]. rewrite E. cbn [mbind option_bind]. by rewrite E2.
Qed.

End correct.

(** C21: Whatever the calls before it, a call returns the generated data of its seed:
    no nil pointer is followed, no value is handed to another seed, and the
    counted size stays within the maximum. *)
Theorem Cache_answers
    (generate : list byte -> list Z)
    (Do : list byte -> (Cache -> option (Cache * list Z)) -> Cache -> option (Cache * list Z))
    (HDo : runs_function Do) (xs : list call) :
  exists c, run generate Do NewCache xs = Some (c, map (answer generate) xs) /\
    Len (lruCache c) <= maxCacheItems.
Proof.
  destruct (run_inv generate Do HDo NewCache xs (NewCache_inv generate)) as (c & E & es & _ & _ & _ & Hs).
  by exists c.
Qed.

Lemma Cache_answers_witness :
  exists c, run (fun seed => [Z.of_nat (length seed)]) Do_alone NewCache
      [CallGetData [x61]; CallStats; CallRemove [x61]; CallGetData [x61]] =
    Some (c, [Some [32]; None; None; Some [32]]) /\ Len (lruCache c) <= maxCacheItems.
Proof.
  exact (Cache_answers (fun seed => [Z.of_nat (length seed)]) Do_alone (fun _ _ _ => eq_refl)
    [CallGetData [x61]; CallStats; CallRemove [x61]; CallGetData [x61]]).
Defined.

(** Reading the statistics drops all items but the first one from the map. *)
Example Stats_drops_items :
  ('(c, _) ← run (fun s => [b2z (nth 0 s x00)]) Do_alone NewCache
     [CallGetData [x61]; CallGetData [x62]; CallGetData [x63]];
   '(c, counts) ← Stats c;
   ks ← Keys (lruCache c);
   Some (counts, Len (lruCache c), length ks,
     bool_decide (items (lruCache c) !! [x61] = None), bool_decide (items (lruCache c) !! [x62] = None)))
  = Some ((3, 12, 64), 1, 3%nat, true, true).
Proof. vm_compute. reflexivity. Qed.

(** ** The list outgrows the maximum *)

Section leak.
Variable generate : list byte -> list Z.
Variable Do : list byte -> (Cache -> option (Cache * list Z)) -> Cache -> option (Cache * list Z).
Hypothesis HDo : runs_function Do.

(** A call for a seed that is not in the map adds a cell in front. *)
Lemma GetData_miss c es seed :
  rep (lruCache c) es -> items (lruCache c) !! seed = None ->
  size (lruCache c) < capacity (lruCache c) ->
  exists c' p, GetData generate Do c seed = Some (c', generate (seedKey seed)) /\
    rep (lruCache c') ((p, (seed, generate (seedKey seed))) :: es) /\
    items (lruCache c') = <[seed := p]> (items (lruCache c)) /\
    size (lruCache c') = size (lruCache c) + 1 /\ capacity (lruCache c') = capacity (lruCache c).
Proof using HDo.
  intros Hr Hk Hs. unfold GetData. rewrite (Get_miss _ _ Hk). cbn [mbind option_bind]. rewrite HDo.
  unfold fill. cbn [IncCacheMisses set_lru lruCache]. rewrite (Get_miss _ _ Hk). cbn [mbind option_bind].
  destruct (Add_new _ _ seed (generate (seedKey seed)) Hr Hk) as (l & p & E & Hr' & _ & Hi & Hs' & Hc & _).
  rewrite E. destruct (Z.ltb_spec (capacity (lruCache c)) (size (lruCache c) + 1)); [lia|].
  eexists _, p. split; [done|]. by split_and!.
Qed.

(** A call for a seed behind the first cell takes it out of the map. *)
Lemma GetData_hit c e p seed v es :
  rep (lruCache c) (e :: (p, (seed, v)) :: es) -> items (lruCache c) !! seed = Some p ->
  exists c', GetData generate Do c seed = Some (c', v) /\
    rep (lruCache c') ((p, (seed, v)) :: e :: es) /\
    items (lruCache c') = delete seed (items (lruCache c)) /\
    size (lruCache c') = size (lruCache c) - 1 /\ capacity (lruCache c') = capacity (lruCache c).
Proof.
  intros Hr Hk. unfold GetData.
  destruct (Get_other (lruCache c) e [] p seed v es Hr Hk) as (l & E & Hr' & Hi & Hs & Hc & _).
  rewrite E. cbn [mbind option_bind]. eexists. split; [done|]. by split_and!.
Qed.

Definition round (a b : list byte) : list call :=
  [CallGetData a; CallGetData b; CallGetData a; CallGetData b].

(** The state between two rounds. *)
Definition forgotten (c : Cache) (n : nat) : Prop :=
  exists es, rep (lruCache c) es /\ length es = n /\ items (lruCache c) = ∅ /\
    size (lruCache c) = 0 /\ capacity (lruCache c) = maxCacheItems.

Lemma round_forgotten a b c n :
  a <> b -> forgotten c n ->
  exists c' rs, run generate Do c (round a b) = Some (c', rs) /\ forgotten c' (S (S n)).
Proof using HDo.
  intros Hab (es & Hr & Hl & Hi & Hs & Hc).
  destruct (GetData_miss c es a Hr) as (c1 & p & E1 & Hr1 & Hi1 & Hs1 & Hc1);
    [by rewrite Hi|rewrite Hs, Hc; done|]. rewrite Hi in Hi1. rewrite Hs in Hs1. rewrite Hc in Hc1.
  destruct (GetData_miss c1 _ b Hr1) as (c2 & q & E2 & Hr2 & Hi2 & Hs2 & Hc2);
    [by rewrite Hi1, lookup_insert_ne|rewrite Hs1, Hc1; done|].
  rewrite Hi1 in Hi2. rewrite Hs1 in Hs2. rewrite Hc1 in Hc2.
  destruct (GetData_hit c2 _ _ _ _ _ Hr2) as (c3 & E3 & Hr3 & Hi3 & Hs3 & Hc3);
    [by rewrite Hi2, lookup_insert_ne, lookup_insert_eq|].
  rewrite Hi2 in Hi3. rewrite Hs2 in Hs3. rewrite Hc2 in Hc3.
  destruct (GetData_hit c3 _ _ _ _ _ Hr3) as (c4 & E4 & Hr4 & Hi4 & Hs4 & Hc4);
    [by rewrite Hi3, lookup_delete_ne, lookup_insert_eq|].
  exists c4. eexists. split.
  { unfold round. cbn [run run_call]. rewrite E1. cbn [mbind option_bind]. rewrite E2. cbn [mbind option_bind].
    rewrite E3. cbn [mbind option_bind]. rewrite E4. cbn [mbind option_bind]. reflexivity. }
  eexists. split; [exact Hr4|]. split; [cbn; by rewrite Hl|]. rewrite Hi4, Hi3, Hs4, Hs3, Hc4, Hc3.
  split_and!; try done. apply map_eq. intros k.
  rewrite !lookup_delete, !lookup_insert. repeat case_decide; try done; congruence.
Qed.

Lemma run_app c xs ys :
  run generate Do c (xs ++ ys) =
  '(c, rs) ← run generate Do c xs; '(c, rs') ← run generate Do c ys; Some (c, rs ++ rs').
Proof.
  revert c. induction xs as [|x xs IH]; intros c; cbn [run app].
  - cbn. by destruct (run generate Do c ys) as [[? ?]|].
  - destruct (run_call generate Do c x) as [[c1 r]|]; [|done]. cbn [mbind option_bind]. rewrite IH.
    destruct (run generate Do c1 xs) as [[c2 rs]|]; [|done]. cbn [mbind option_bind].
    by destruct (run generate Do c2 ys) as [[c3 rs']|].
Qed.

Lemma rounds_forgotten a b n :
  a <> b -> exists c rs, run generate Do NewCache (concat (repeat (round a b) n)) = Some (c, rs) /\
    forgotten c (2 * n).
Proof using HDo.
  intros Hab. induction n as [|n IH].
  { exists NewCache, []. split; [done|]. exists []. split; [apply rep_new|]. done. }
  destruct IH as (c & rs & E & Hf). destruct (round_forgotten a b c _ Hab Hf) as (c' & rs' & E' & Hf').
  exists c', (rs ++ rs'). replace (2 * S n)%nat with (S (S (2 * n))) by lia. split; [|done].
  replace (S n) with (n + 1)%nat by lia. rewrite repeat_app, concat_app, run_app, E.
  cbn [repeat concat mbind option_bind]. rewrite app_nil_r, E'. done.
Qed.

End leak.

(** Four calls for two seeds that alternate leave two more cells in the list, an
    empty map and the size 0: the maximum of 64 items does not bound the list,
    and half of the calls generate the data again. *)
Theorem Cache_list_unbounded
    (generate : list byte -> list Z)
    (Do : list byte -> (Cache -> option (Cache * list Z)) -> Cache -> option (Cache * list Z))
    (HDo : runs_function Do) (a b : list byte) (Hab : a <> b) (n : nat) :
  exists c rs ks, run generate Do NewCache (concat (repeat (round a b) n)) = Some (c, rs) /\
    Keys (lruCache c) = Some ks /\ length ks = (2 * n)%nat /\ Len (lruCache c) = 0 /\
    items (lruCache c) = ∅.
Proof.
  destruct (rounds_forgotten generate Do HDo a b n Hab) as (c & rs & E & es & Hr & Hl & Hi & Hs & _).
  exists c, rs, (es.*2.*1). split; [done|]. split; [by apply Keys_rep|]. by rewrite !length_fmap.
Qed.

Lemma Cache_list_unbounded_witness :
  exists c rs ks,
    run (fun s => [b2z (nth 0 s x00)]) Do_alone NewCache (concat (repeat (round [x61] [x62]) 100)) = Some (c, rs) /\
    Keys (lruCache c) = Some ks /\ length ks = 200%nat /\ Len (lruCache c) = 0 /\
    items (lruCache c) = ∅.
Proof.
  apply (Cache_list_unbounded (fun s => [b2z (nth 0 s x00)]) Do_alone (fun _ _ _ => eq_refl)
    [x61] [x62] ltac:(discriminate) 100).
Defined.
