(* ===== verification/NogoEngine.v ===== *)
(** * The proof-of-work engine ([nogopow/nogopow.go], [config.go], [api.go])

    Verification of seals, headers, batches of headers and uncles, preparation
    and assembly of blocks, the mining loop, and the walk over the ancestors.
    Every computation of a hash goes through the cache of [NogoCache], so an
    operation takes the cache and returns it changed.

    A method called on a nil [big.Int], and a read past the end of a slice, is
    [EnginePanic].  Keccak-256 and the group of the cache are parameters, as are
    the chain ([GetHeaderByHash]) and the state ([IntermediateRoot]), which are
    interfaces of the code.  What the two channels of the mining loop hold when it
    looks at them is a function of the turn. *)

From Stdlib Require Import ZArith Lia.
From S2P Require Import Prelude GoBig NogoTypes NogoDifficulty NogoMatrix NogoSeed NogoCache.
Open Scope Z_scope.

(** ** Data *)

Inductive Mode := ModeNormal | ModeFake | ModeTest.

Record Config := mkConfig {
  PowMode : Mode;
  cfg_params : option ConsensusParams }.

Definition DefaultConfig : Config := mkConfig ModeNormal None.
Definition NewConfigForGenesis (mode : Mode) : Config := mkConfig mode (cfg_params DefaultConfig).
Definition ValidateConsensusParams (c : Config) : bool :=
  match cfg_params c with None => false | Some _ => true end.

Record NogopowEngine := mkEngine {
  config : Config;
  running : bool;
  hashrate : Z;
  cache : Cache;
  diffAdjuster : DifficultyAdjuster }.

Definition New (c : option Config) : NogopowEngine :=
  let c := match c with None => DefaultConfig | Some c => c end in
  mkEngine c false 0 NewCache (NewDifficultyAdjuster (cfg_params c)).
Definition NewFaker : NogopowEngine := New (Some (mkConfig ModeFake (cfg_params DefaultConfig))).

Definition set_cache (t : NogopowEngine) (c : Cache) : NogopowEngine :=
  mkEngine (config t) (running t) (hashrate t) c (diffAdjuster t).
Definition add_hashrate (t : NogopowEngine) : NogopowEngine :=
  mkEngine (config t) (running t) (wrap_u64 (hashrate t + 1)) (cache t) (diffAdjuster t).

Inductive EngineError :=
| ErrInvalidSeal
| ErrTooManyUncles
| ErrParentNotFound
| EnginePanic.

Record Block := mkBlock { header : Header; uncles : list Header }.
Definition NewBlock (h : Header) (us : list Header) : Block := mkBlock h us.

Definition set_Difficulty (h : Header) (d : option Z) : Header :=
  mkHeader (ParentHash h) (Coinbase h) (Root h) (TxHash h) (Number h) (GasLimit h) (Time h)
    (Extra h) (Nonce h) d.
Definition set_Root (h : Header) (r : list byte) : Header :=
  mkHeader (ParentHash h) (Coinbase h) r (TxHash h) (Number h) (GasLimit h) (Time h)
    (Extra h) (Nonce h) (Difficulty h).
Definition set_Nonce (h : Header) (n : list byte) : Header :=
  mkHeader (ParentHash h) (Coinbase h) (Root h) (TxHash h) (Number h) (GasLimit h) (Time h)
    (Extra h) n (Difficulty h).

(** [header.Number.Uint64()]; [None] is the nil pointer. *)
Definition number_u64 (h : Header) : option Z := low_word <$> Number h.

Definition Author (h : Header) : list byte := Coinbase h.
Definition engine_HashRate (t : NogopowEngine) : Z := hashrate t.

(** ** Seals *)

(** [calcSeed]: no seed for the first block, the hash of the parent otherwise. *)
Definition calcSeed (h : Header) : option (list byte) :=
  n ← number_u64 h;
  Some (if n =? 0 then repeat x00 32 else ParentHash h).

Section Engine.

Variable keccak256 : list byte -> list byte.
Variable Do : list byte -> (Cache -> option (Cache * list Z)) -> Cache -> option (Cache * list Z).

Definition SealHash (h : Header) : list byte := BytesToHash (keccak256 (rlpEncode h)).

(** [None] is a panic of the code below. *)
Definition computePoW (t : NogopowEngine) (blockHash seed : list byte)
    : option (NogopowEngine * list byte) :=
  '(c, cacheData) ← GetData (calcSeedCache keccak256) Do (cache t) seed;
  result ← mulMatrixPooled keccak256 blockHash cacheData;
  Some (set_cache t c, hashMatrix keccak256 result).

Definition ComputePoWWithCache (blockHash seed : list byte) (cacheData : list Z) : option (list byte) :=
  result ← mulMatrixPooled keccak256 blockHash cacheData;
  Some (hashMatrix keccak256 result).

Definition CacheData (t : NogopowEngine) (seed : list byte) : option (NogopowEngine * list Z) :=
  '(c, d) ← GetData (calcSeedCache keccak256) Do (cache t) seed;
  Some (set_cache t c, d).

Definition checkSolution (t : NogopowEngine) (h : Header) (seed : list byte)
    : option (NogopowEngine * bool) :=
  let blockHash := SealHash h in
  '(t, powHash) ← computePoW t blockHash seed;
  Some (t, checkPow powHash (Difficulty h)).

(** The rest of [verifySeal] and of [VerifySealWithBlockHash]; the refusal logs
    the number of the header. *)
Definition check_seal (t : NogopowEngine) (h : Header) (blockHash seed : list byte)
    : NogopowEngine * result EngineError unit :=
  match computePoW t blockHash seed with
  | None => (t, Err EnginePanic)
  | Some (t, powHash) =>
      if negb (checkPow powHash (Difficulty h)) then
        match number_u64 h with
        | None => (t, Err EnginePanic)
        | Some _ => (t, Err ErrInvalidSeal)
        end
      else (t, Ok tt)
  end.

Definition verifySeal (t : NogopowEngine) (h : Header) : NogopowEngine * result EngineError unit :=
  match calcSeed h with
  | None => (t, Err EnginePanic)
  | Some seed => check_seal t h (SealHash h) seed
  end.

(** The three entry points skip the check in fake mode and for number zero. *)
Definition when_checked (t : NogopowEngine) (h : Header)
    (k : NogopowEngine * result EngineError unit) : NogopowEngine * result EngineError unit :=
  match PowMode (config t) with
  | ModeFake => (t, Ok tt)
  | _ =>
      match number_u64 h with
      | None => (t, Err EnginePanic)
      | Some n => if n =? 0 then (t, Ok tt) else k
      end
  end.

Definition VerifyHeader (t : NogopowEngine) (h : Header) (seal : bool)
    : NogopowEngine * result EngineError unit :=
  when_checked t h (if seal then verifySeal t h else (t, Ok tt)).

Definition VerifySealOnly (t : NogopowEngine) (h : Header) : NogopowEngine * result EngineError unit :=
  when_checked t h (verifySeal t h).

Definition VerifySealWithBlockHash (t : NogopowEngine) (h : Header) (blockHash : list byte)
    : NogopowEngine * result EngineError unit :=
  when_checked t h
    (match calcSeed h with
     | None => (t, Err EnginePanic)
     | Some seed => check_seal t h blockHash seed
     end).

Definition maxUncles : nat := 2.

Fixpoint uncles_loop (t : NogopowEngine) (number : option Z) (us : list Header)
    : NogopowEngine * result EngineError unit :=
  match us with
  | [] => (t, Ok tt)
  | uncle :: us =>
      match Number uncle, number with
      | Some a, Some b =>
          if negb (a =? b) then (t, Err ErrInvalidSeal)
          else
            match PowMode (config t) with
            | ModeFake => uncles_loop t number us
            | _ =>
                match verifySeal t uncle with
                | (t, Err e) => (t, Err e)
                | (t, Ok _) => uncles_loop t number us
                end
            end
      | _, _ => (t, Err EnginePanic)
      end
  end.

Definition VerifyUncles (t : NogopowEngine) (b : Block) : NogopowEngine * result EngineError unit :=
  if (maxUncles <? length (uncles b))%nat then (t, Err ErrTooManyUncles)
  else uncles_loop t (Number (header b)) (uncles b).

(** ** Preparing and assembling blocks *)

(** The engine's own: the log at the end reads the number of the parent. *)
Definition CalcDifficulty (t : NogopowEngine) (time : Z) (parent : option Header)
    : result EngineError Z :=
  let minDifficulty :=
    match cfg_params (config t) with Some p => wrap_u64 (MinDifficulty p) | None => 1 end in
  match parent with
  | None => Ok (to_signed 64 minDifficulty)
  | Some h =>
      match Difficulty h with
      | None => Ok (to_signed 64 minDifficulty)
      | Some _ =>
          let newDifficulty := DifficultyAdjuster_CalcDifficulty (diffAdjuster t) time (Some h) in
          match number_u64 h with
          | None => Err EnginePanic
          | Some _ => Ok newDifficulty
          end
      end
  end.

Definition Prepare (t : NogopowEngine) (GetHeaderByHash : list byte -> option Header) (h : Header)
    : result EngineError Header :=
  match GetHeaderByHash (ParentHash h) with
  | None => Err ErrParentNotFound
  | Some parent =>
      d ← CalcDifficulty t (Time h) (Some parent);
      Ok (set_Difficulty h (Some d))
  end.

Definition Finalize (h : Header) (IntermediateRoot : bool -> list byte) : Header :=
  set_Root h (IntermediateRoot true).

Definition FinalizeAndAssemble (h : Header) (IntermediateRoot : bool -> list byte) (us : list Header) : Block :=
  NewBlock (Finalize h IntermediateRoot) us.

(** ** Mining *)

(** What the select at the head of a turn finds. *)
Inductive signal := NoSignal | Stop | Exit.

(** How mining ends: with a block sent, or because it is told to.  The nonce is
    written into the header of the block either way. *)
Inductive mined := Sent (b : Block) | Stopped (b : Block) | MinePanic.

Definition nonce_bytes (nonce : Z) : list byte := le_put 8 nonce ++ repeat x00 24.

(** [send] says whether the result is received before a stop. *)
Fixpoint mine_loop (fuel : nat) (t : NogopowEngine) (b : Block) (seed : list byte)
    (signals : Z -> signal) (send : bool) (nonce : Z) : option (NogopowEngine * mined) :=
  match fuel with
  | O => None
  | S fuel' =>
      match signals nonce with
      | Stop | Exit => Some (t, Stopped b)
      | NoSignal =>
          let h := set_Nonce (header b) (nonce_bytes nonce) in
          let b := mkBlock h (uncles b) in
          match checkSolution t h seed with
          | None => Some (t, MinePanic)
          | Some (t, true) => Some (t, if send then Sent b else Stopped b)
          | Some (t, false) =>
              mine_loop fuel' (add_hashrate t) b seed signals send (wrap_u64 (nonce + 1))
          end
      end
  end.

Definition mineBlock (fuel : nat) (t : NogopowEngine) (b : Block) (signals : Z -> signal) (send : bool)
    : option (NogopowEngine * mined) :=
  match number_u64 (header b), calcSeed (header b) with
  | Some _, Some seed => mine_loop fuel t b seed signals send 0
  | _, _ => Some (t, MinePanic)
  end.

(** In the fake and the test mode the block is sent as it is. *)
Definition Seal (fuel : nat) (t : NogopowEngine) (b : Block) (signals : Z -> signal) (send : bool)
    : option (NogopowEngine * mined) :=
  match PowMode (config t) with
  | ModeFake | ModeTest =>
      match Number (header b) with
      | None => Some (t, MinePanic)
      | Some _ => Some (t, if send then Sent b else Stopped b)
      end
  | ModeNormal => mineBlock fuel t b signals send
  end.

End Engine.

(** ** The walk over the ancestors *)

(** [None]: out of fuel. *)
Fixpoint ancestors_loop (fuel : nat) (getHeader : list byte -> option Header)
    (cache : gmap Z Header) (current : option Header) : option (gmap Z Header) :=
  match fuel with
  | O => None
  | S fuel' =>
      match current with
      | None => Some cache
      | Some cur =>
          match number_u64 cur with
          | None => Some cache
          | Some h =>
              match cache !! h with
              | Some _ => Some cache
              | None =>
                  let cache := <[h := cur]> cache in
                  if h =? 0 then Some cache
                  else ancestors_loop fuel' getHeader cache (getHeader (ParentHash cur))
              end
          end
      end
  end.

(** [SetAncestorFunc] keeps nothing, and [GetAncestorFunc] is nil, so that the
    walk is repeated by every call; the log reads the number of the parent. *)
Definition initAncestorFuncWithGetter (fuel : nat) (getHeader : list byte -> option Header)
    (parent : option Header) : option (result EngineError (gmap Z Header)) :=
  cache ← ancestors_loop fuel getHeader ∅ parent;
  match parent with
  | None => Some (Err EnginePanic)
  | Some p => match number_u64 p with None => Some (Err EnginePanic) | Some _ => Some (Ok cache) end
  end.

(** ** Seals are the standalone proof of work *)

Lemma length_seedKey seed : length seed = 32%nat -> seedKey seed = seed.
Proof. intros H. unfold seedKey. rewrite take_ge by lia. rewrite H. apply app_nil_r. Qed.

#[global] Opaque calcSeedCache hashMatrix mulMatrixPooled ref_bytes.

Section laws.
Variable keccak256 : list byte -> list byte.
Variable Do : list byte -> (Cache -> option (Cache * list Z)) -> Cache -> option (Cache * list Z).
Hypothesis HDo : runs_function Do.

(** What the engine keeps true of its cache. *)
Definition engine_inv (t : NogopowEngine) : Prop := cache_inv (calcSeedCache keccak256) (cache t).

Lemma New_inv c : engine_inv (New c).
Proof. apply NewCache_inv. Qed.

Definition pow_hash (blockHash seed : list byte) : list byte :=
  hashMatrix keccak256 (ref_bytes keccak256 blockHash (calcSeedCache keccak256 seed)).

Lemma ComputePoWHash_pow blockHash seed :
  ComputePoWHash keccak256 blockHash seed = Some (pow_hash blockHash seed).
Proof. unfold ComputePoWHash. cbv zeta. by rewrite mulMatrixPooled_ref. Qed.

Lemma computePoW_pow t blockHash seed :
  engine_inv t -> length seed = 32%nat ->
  exists t', computePoW keccak256 Do t blockHash seed = Some (t', pow_hash blockHash seed) /\
    engine_inv t' /\ config t' = config t /\ hashrate t' = hashrate t /\ diffAdjuster t' = diffAdjuster t.
Proof using HDo.
  intros Hinv Hs. destruct (GetData_correct _ Do HDo (cache t) seed Hinv) as (c' & E & Hinv').
  unfold computePoW. rewrite E. cbn [mbind option_bind]. rewrite mulMatrixPooled_ref, length_seedKey by done.
  exists (set_cache t c'). done.
Qed.

(** The seed and the verdict a header has, whatever the state of the cache. *)
Definition seed_of (h : Header) (n : Z) : list byte := if low_word n =? 0 then repeat x00 32 else ParentHash h.
Definition pow_valid (h : Header) (n : Z) : bool :=
  checkPow (pow_hash (SealHash keccak256 h) (seed_of h n)) (Difficulty h).

Lemma length_seed_of h n : header_ok h -> length (seed_of h n) = 32%nat.
Proof. intros Hh. unfold seed_of. case_bool; [apply repeat_length|apply Hh]. Qed.

Lemma verifySeal_pow t h n :
  engine_inv t -> header_ok h -> Number h = Some n ->
  exists t', verifySeal keccak256 Do t h = (t', if pow_valid h n then Ok tt else Err ErrInvalidSeal) /\
    engine_inv t' /\ config t' = config t.
Proof using HDo.
  intros Hinv Hh Hn. unfold verifySeal, calcSeed, check_seal, number_u64. rewrite Hn. cbn [fmap option_fmap option_map mbind option_bind].
  destruct (computePoW_pow t (SealHash keccak256 h) (seed_of h n) Hinv (length_seed_of h n Hh))
    as (t' & E & Hinv' & Hc & _).
  exists t'. unfold seed_of in E. rewrite E. unfold pow_valid, seed_of.
  destruct (checkPow _ _); cbn; by split.
Qed.

Definition header_verdict (mode : Mode) (h : Header) (seal : bool) : result EngineError unit :=
  match mode, Number h with
  | ModeFake, _ => Ok tt
  | _, None => Err EnginePanic
  | _, Some n =>
      if low_word n =? 0 then Ok tt
      else if seal && negb (pow_valid h n) then Err ErrInvalidSeal else Ok tt
  end.

Lemma VerifyHeader_verdict t h seal :
  engine_inv t -> header_ok h ->
  exists t', VerifyHeader keccak256 Do t h seal = (t', header_verdict (PowMode (config t)) h seal) /\
    engine_inv t' /\ config t' = config t.
Proof using HDo.
  intros Hinv Hh. unfold VerifyHeader, when_checked, header_verdict, number_u64.
  assert (Hk : forall n, Number h = Some n ->
    exists t', (if seal then verifySeal keccak256 Do t h else (t, Ok tt)) =
      (t', if seal && negb (pow_valid h n) then Err ErrInvalidSeal else Ok tt) /\
      engine_inv t' /\ config t' = config t).
  { intros n Hn. destruct seal; [|by exists t].
    destruct (verifySeal_pow t h n Hinv Hh Hn) as (t' & -> & Hrest). exists t'. cbn [andb].
    by destruct (pow_valid h n). }
  destruct (PowMode (config t)) eqn:Hm; [|by exists t|];
    (destruct (Number h) as [n|] eqn:Hn; [|by exists t]; cbn [fmap option_fmap option_map];
     destruct (low_word n =? 0); [by exists t|by apply Hk]).
Qed.

End laws.

(** ** Verification *)

(** C4: In the normal mode a header is accepted exactly when its number is zero
    modulo 2^64, or no seal is asked for, or the hash that the standalone
    [ComputePoWHash] gives passes the difficulty; the state of the cache and the
    headers verified before do not matter. *)
Theorem VerifyHeader_correct
    (keccak256 : list byte -> list byte)
    (Do : list byte -> (Cache -> option (Cache * list Z)) -> Cache -> option (Cache * list Z))
    (HDo : runs_function Do) (t : NogopowEngine) (h : Header) (n : Z) (seal : bool) (hash : list byte) :
  engine_inv keccak256 t -> header_ok h -> Number h = Some n -> PowMode (config t) <> ModeFake ->
  ComputePoWHash keccak256 (SealHash keccak256 h) (seed_of h n) = Some hash ->
  exists t', VerifyHeader keccak256 Do t h seal =
      (t', if (n mod 2 ^ 64 =? 0) || negb seal || checkPow hash (Difficulty h)
           then Ok tt else Err ErrInvalidSeal) /\
    engine_inv keccak256 t' /\ config t' = config t.
Proof.
  intros Hinv Hh Hn Hmode. rewrite ComputePoWHash_pow. intros [= <-].
  destruct (VerifyHeader_verdict keccak256 Do HDo t h seal Hinv Hh) as (t' & E & Hrest).
  exists t'. split; [|done]. rewrite E. unfold header_verdict. rewrite Hn.
  assert (Hz : (low_word n =? 0) = (n mod 2 ^ 64 =? 0)).
  { unfold low_word. apply eq_true_iff_eq. rewrite !Z.eqb_eq, !Z.mod_divide by done. apply Z.divide_abs_r. }
  rewrite Hz. unfold pow_valid.
  destruct (PowMode (config t)); [|done|]; (destruct (n mod 2 ^ 64 =? 0); [done|]; destruct seal; [|done];
    cbn [negb andb orb]; by destruct (checkPow _ _)).
Qed.

Lemma length_pow_hash keccak256 blockHash seed : length (pow_hash keccak256 blockHash seed) = 32%nat.
Proof. apply length_hashMatrix. Qed.

Lemma checkPow_one hash : length hash = 32%nat -> checkPow hash (Some 1) = true.
Proof.
  intros Hl. unfold checkPow, difficultyToTarget. apply Z.leb_le. rewrite Z.div_1_r.
  pose proof (be_get_range hash) as Hr. rewrite Hl in Hr. change (big_SetBytes hash) with (be_get hash).
  change (256 ^ Z.of_nat 32) with (2 ^ 256) in Hr. cbn [Z.leb Z.compare]. lia.
Qed.

Definition zeros_hash : list byte -> list byte := fun _ => repeat x00 32.

Lemma VerifyHeader_correct_witness :
  exists t', VerifyHeader zeros_hash Do_alone (New None) (sample_header 1 0 0 [] 1) true = (t', Ok tt).
Proof.
  destruct (VerifyHeader_correct zeros_hash Do_alone (fun _ _ _ => eq_refl) (New None)
    (sample_header 1 0 0 [] 1) 1 true
    (pow_hash zeros_hash (SealHash zeros_hash (sample_header 1 0 0 [] 1)) (seed_of (sample_header 1 0 0 [] 1) 1))
    (New_inv zeros_hash None) ltac:(apply sample_header_ok; lia) eq_refl ltac:(discriminate)
    (ComputePoWHash_pow zeros_hash _ _)) as (t' & E & _).
  exists t'. rewrite E. cbn [Difficulty sample_header]. rewrite checkPow_one by apply length_pow_hash. reflexivity.
Defined.

(** A header without difficulty, or with one that is not positive, is accepted
    whatever its nonce, its parent and its content. *)
Theorem VerifyHeader_no_difficulty
    (keccak256 : list byte -> list byte)
    (Do : list byte -> (Cache -> option (Cache * list Z)) -> Cache -> option (Cache * list Z))
    (HDo : runs_function Do) (t : NogopowEngine) (h : Header) (n : Z) :
  engine_inv keccak256 t -> header_ok h -> Number h = Some n ->
  match Difficulty h with Some d => d <= 0 | None => True end ->
  snd (VerifyHeader keccak256 Do t h true) = Ok tt.
Proof.
  intros Hinv Hh Hn Hd. destruct (VerifyHeader_verdict keccak256 Do HDo t h true Hinv Hh) as (t' & E & _).
  rewrite E. cbn [snd]. unfold header_verdict. rewrite Hn.
  assert (Hp : pow_valid keccak256 h n = true).
  { unfold pow_valid. by apply (checkPow_free _ (Difficulty h)); [apply length_pow_hash|]. }
  rewrite Hp. destruct (PowMode (config t)); [|done|]; by destruct (low_word n =? 0).
Qed.

Lemma VerifyHeader_no_difficulty_witness :
  snd (VerifyHeader zeros_hash Do_alone (New None) (sample_header 1 0 0 [] 0) true) = Ok tt.
Proof.
  apply (VerifyHeader_no_difficulty zeros_hash Do_alone (fun _ _ _ => eq_refl) (New None)
    (sample_header 1 0 0 [] 0) 1 (New_inv zeros_hash None));
    [apply sample_header_ok; lia|reflexivity|apply Z.le_refl].
Defined.

(** A header whose number is 2^64 passes as the first block does. *)
Example VerifyHeader_number_wraps :
  snd (VerifyHeader zeros_hash Do_alone (New None) (sample_header (2 ^ 64) 0 0 [] (2 ^ 300)) true) = Ok tt.
Proof. reflexivity. Qed.

(** Without a parent the engine takes the minimum of the parameters as it is,
    here 0, and the adjuster takes 1. *)
Example CalcDifficulty_differs :
  let p := Some (mkConsensusParams 1 true 60 0 100 0) in
  CalcDifficulty (New (Some (mkConfig ModeNormal p))) 0 None = Ok 0 /\
  DifficultyAdjuster_CalcDifficulty (NewDifficultyAdjuster p) 0 None = 1.
Proof. split; reflexivity. Qed.

(** ** Mining *)

Section mining.
Variable keccak256 : list byte -> list byte.
Variable Do : list byte -> (Cache -> option (Cache * list Z)) -> Cache -> option (Cache * list Z).
Hypothesis HDo : runs_function Do.

(** The header with a nonce of the search. *)
Definition sealed (h : Header) (k : Z) : Header := set_Nonce h (nonce_bytes k).

Lemma sealed_sealed h j k : sealed (sealed h j) k = sealed h k.
Proof. done. Qed.

Lemma sealed_ok h k : header_ok h -> header_ok (sealed h k).
Proof. by intros [? ? ? ? ? ? ?]. Qed.

Lemma checkSolution_pow t h n :
  engine_inv keccak256 t -> header_ok h -> Number h = Some n ->
  exists t', checkSolution keccak256 Do t h (seed_of h n) = Some (t', pow_valid keccak256 h n) /\
    engine_inv keccak256 t' /\ config t' = config t /\ hashrate t' = hashrate t.
Proof using HDo.
  intros Hinv Hh Hn. unfold checkSolution, pow_valid.
  destruct (computePoW_pow keccak256 Do HDo t (SealHash keccak256 h) (seed_of h n) Hinv (length_seed_of h n Hh))
    as (t' & -> & Hinv' & Hc & Hr & _). by exists t'.
Qed.

(** The search from a nonce on finds the first solution. *)
Lemma mine_loop_finds h n us signals send d : forall t nonce h',
  header_ok h -> Number h = Some n -> engine_inv keccak256 t -> h' = h \/ (exists j, h' = sealed h j) ->
  0 <= nonce -> nonce + Z.of_nat d < 2 ^ 64 ->
  (forall j, nonce <= j < nonce + Z.of_nat d -> pow_valid keccak256 (sealed h j) n = false) ->
  pow_valid keccak256 (sealed h (nonce + Z.of_nat d)) n = true ->
  (forall j, nonce <= j <= nonce + Z.of_nat d -> signals j = NoSignal) ->
  exists t', mine_loop keccak256 Do (S d) t (mkBlock h' us) (seed_of h n) signals send nonce =
    Some (t', let b := mkBlock (sealed h (nonce + Z.of_nat d)) us in if send then Sent b else Stopped b) /\
    engine_inv keccak256 t' /\ config t' = config t /\ hashrate t' mod 2 ^ 64 = (hashrate t + Z.of_nat d) mod 2 ^ 64.
Proof using HDo.
  induction d as [|d IH]; intros t nonce h' Hh Hn Hinv Hh' H0 Hlt Hno Hyes Hsig.
  - rewrite Z.add_0_r in Hyes. cbn [mine_loop header uncles]. rewrite (Hsig nonce) by lia.
    assert (Hse : set_Nonce h' (nonce_bytes nonce) = sealed h nonce) by (destruct Hh' as [->|[j ->]]; done).
    rewrite Hse. destruct (checkSolution_pow t (sealed h nonce) n Hinv (sealed_ok _ _ Hh) Hn) as (t' & E & Hi & Hc & Hr).
    change (seed_of (sealed h nonce) n) with (seed_of h n) in E. rewrite E, Hyes. exists t'.
    rewrite !Z.add_0_r, Hr. by split.
  - remember (S d) as f eqn:Hf. cbn [mine_loop header uncles]. rewrite (Hsig nonce) by lia.
    assert (Hse : set_Nonce h' (nonce_bytes nonce) = sealed h nonce) by (destruct Hh' as [->|[j ->]]; done).
    rewrite Hse. destruct (checkSolution_pow t (sealed h nonce) n Hinv (sealed_ok _ _ Hh) Hn) as (t1 & E & Hi & Hc & Hr).
    change (seed_of (sealed h nonce) n) with (seed_of h n) in E. rewrite E, (Hno nonce) by lia.
    replace (wrap_u64 (nonce + 1)) with (nonce + 1) by (unfold wrap_u64; rewrite Z.mod_small; lia).
    subst f. destruct (IH (add_hashrate t1) (nonce + 1) (sealed h nonce)) as (t' & E' & Hi' & Hc' & Hr');
      [done|done|done|right; by exists nonce|lia|lia| | | |].
    + intros j Hj. apply Hno. lia.
    + by replace (nonce + 1 + Z.of_nat d) with (nonce + Z.of_nat (S d)) by lia.
    + intros j Hj. apply Hsig. lia.
    + exists t'. replace (nonce + Z.of_nat (S d)) with (nonce + 1 + Z.of_nat d) by lia.
      split; [exact E'|]. split; [done|]. split; [by rewrite Hc'|]. rewrite Hr'. cbn [hashrate add_hashrate].
      unfold wrap_u64. rewrite Hr, Zplus_mod_idemp_l. f_equal. lia.
Qed.

(** Whatever the search sends is sealed. *)
Lemma mine_loop_sound h n us signals send fuel : forall t nonce h' t' b,
  header_ok h -> Number h = Some n -> engine_inv keccak256 t -> h' = h \/ (exists j, h' = sealed h j) ->
  mine_loop keccak256 Do fuel t (mkBlock h' us) (seed_of h n) signals send nonce = Some (t', Sent b) ->
  (exists k, b = mkBlock (sealed h k) us /\ pow_valid keccak256 (sealed h k) n = true) /\
  engine_inv keccak256 t' /\ config t' = config t.
Proof using HDo.
  induction fuel as [|fuel IH]; intros t nonce h' t' b Hh Hn Hinv Hh'; [done|]. cbn [mine_loop header uncles].
  destruct (signals nonce); [|done|done].
  assert (Hse : set_Nonce h' (nonce_bytes nonce) = sealed h nonce) by (destruct Hh' as [->|[j ->]]; done).
  rewrite Hse. destruct (checkSolution_pow t (sealed h nonce) n Hinv (sealed_ok _ _ Hh) Hn) as (t1 & E & Hi & Hc & Hr).
  change (seed_of (sealed h nonce) n) with (seed_of h n) in E. rewrite E.
  destruct (pow_valid keccak256 (sealed h nonce) n) eqn:Hp.
  - destruct send; [|done]. intros [= <- <-]. split; [by exists nonce|done].
  - intros Hrun. destruct (IH (add_hashrate t1) _ (sealed h nonce) t' b Hh Hn Hi (or_intror (ex_intro _ nonce eq_refl)) Hrun) as (Hk & Hi' & Hc').
    split; [done|]. split; [done|]. by rewrite Hc'.
Qed.

End mining.

(** C8: Mining finds the first nonce that is a solution, if there is one and nobody
    stops it, with one turn for every nonce up to it; it sends the block with this
    nonce in its header, which the engine then accepts, and the hash rate has
    counted the turns that failed. *)
Theorem mineBlock_finds
    (keccak256 : list byte -> list byte)
    (Do : list byte -> (Cache -> option (Cache * list Z)) -> Cache -> option (Cache * list Z))
    (HDo : runs_function Do) (t : NogopowEngine) (b : Block) (n k : Z) (signals : Z -> signal) :
  engine_inv keccak256 t -> header_ok (header b) -> Number (header b) = Some n -> 0 <= k < 2 ^ 64 ->
  pow_valid keccak256 (sealed (header b) k) n = true ->
  (forall j, 0 <= j < k -> pow_valid keccak256 (sealed (header b) j) n = false) ->
  (forall j, 0 <= j <= k -> signals j = NoSignal) ->
  exists t', mineBlock keccak256 Do (S (Z.to_nat k)) t b signals true =
      Some (t', Sent (mkBlock (sealed (header b) k) (uncles b))) /\
    snd (VerifyHeader keccak256 Do t' (sealed (header b) k) true) = Ok tt /\
    hashrate t' mod 2 ^ 64 = (hashrate t + k) mod 2 ^ 64.
Proof.
  intros Hinv Hh Hn Hk Hyes Hno Hsig. destruct b as [h us]. cbn [header uncles] in *.
  destruct (mine_loop_finds keccak256 Do HDo h n us signals true (Z.to_nat k) t 0 h Hh Hn Hinv
    (or_introl eq_refl) ltac:(lia) ltac:(lia)) as (t' & E & Hi & Hc & Hr).
  { intros j Hj. apply Hno. lia. }
  { replace (0 + Z.of_nat (Z.to_nat k)) with k by lia. exact Hyes. }
  { intros j Hj. apply Hsig. lia. }
  replace (0 + Z.of_nat (Z.to_nat k)) with k in E by lia. rewrite Z2Nat.id in Hr by lia.
  exists t'. split.
  { unfold mineBlock, calcSeed, number_u64. cbn [header]. rewrite Hn.
    cbn [fmap option_fmap option_map mbind option_bind]. exact E. }
  split; [|done].
  destruct (VerifyHeader_verdict keccak256 Do HDo t' (sealed h k) true Hi (sealed_ok _ _ Hh)) as (t2 & E2 & _).
  rewrite E2. cbn [snd]. unfold header_verdict. change (Number (sealed h k)) with (Number h). rewrite Hn, Hyes.
  destruct (PowMode (config t')); [|done|]; by destruct (low_word n =? 0).
Qed.

Lemma mineBlock_finds_witness :
  let b := mkBlock (sample_header 1 0 0 [] 1) [] in
  exists t', mineBlock zeros_hash Do_alone 1 (New None) b (fun _ => NoSignal) true =
    Some (t', Sent (mkBlock (sealed (header b) 0) [])).
Proof.
  intros b.
  destruct (mineBlock_finds zeros_hash Do_alone (fun _ _ _ => eq_refl) (New None) b 1 0 (fun _ => NoSignal)
    (New_inv zeros_hash None) ltac:(apply sample_header_ok; lia) eq_refl ltac:(lia)) as (t' & E & _).
  - apply checkPow_one, length_pow_hash.
  - intros j Hj. lia.
  - done.
  - by exists t'.
Defined.

(** With any fuel and any signals, a block sent in the normal mode has a header
    the engine accepts, and only its nonce has changed; in the fake and the test
    mode the block is the one that was given, whether its seal is valid or not. *)
Theorem Seal_sound
    (keccak256 : list byte -> list byte)
    (Do : list byte -> (Cache -> option (Cache * list Z)) -> Cache -> option (Cache * list Z))
    (HDo : runs_function Do) (fuel : nat) (t t' : NogopowEngine) (b b' : Block) (n : Z)
    (signals : Z -> signal) (send : bool) :
  engine_inv keccak256 t -> header_ok (header b) -> Number (header b) = Some n ->
  Seal keccak256 Do fuel t b signals send = Some (t', Sent b') ->
  uncles b' = uncles b /\
  ((exists k, PowMode (config t) = ModeNormal /\ header b' = sealed (header b) k /\
      snd (VerifyHeader keccak256 Do t' (header b') true) = Ok tt) \/
   (PowMode (config t) <> ModeNormal /\ header b' = header b)).
Proof.
  intros Hinv Hh Hn. destruct b as [h us]. unfold Seal. cbn [header uncles] in *. rewrite Hn.
  destruct (PowMode (config t)) eqn:Hm.
  - unfold mineBlock, calcSeed, number_u64. cbn [header]. rewrite Hn.
    cbn [fmap option_fmap option_map mbind option_bind]. intros Hrun.
    destruct (mine_loop_sound keccak256 Do HDo h n us signals send fuel t 0 h t' b' Hh Hn Hinv
      (or_introl eq_refl) Hrun) as ((k & -> & Hp) & Hi & Hc).
    split; [done|]. left. exists k. split; [done|]. split; [done|].
    destruct (VerifyHeader_verdict keccak256 Do HDo t' (sealed h k) true Hi (sealed_ok _ _ Hh)) as (t2 & E2 & _).
    cbn [header]. rewrite E2. cbn [snd]. unfold header_verdict. change (Number (sealed h k)) with (Number h).
    rewrite Hn, Hp, Hc, Hm. by destruct (low_word n =? 0).
  - destruct send; [|done]. intros [= <- <-]. split; [done|]. by right.
  - destruct send; [|done]. intros [= <- <-]. split; [done|]. by right.
Qed.

Lemma Seal_sound_witness :
  let b := mkBlock (sample_header 1 0 0 [] 1) [] in
  exists t' b', Seal zeros_hash Do_alone 1 (New None) b (fun _ => NoSignal) true = Some (t', Sent b') /\
    exists k, header b' = sealed (header b) k /\ snd (VerifyHeader zeros_hash Do_alone t' (header b') true) = Ok tt.
Proof.
  intros b. assert (Hh : header_ok (header b)) by (apply sample_header_ok; lia).
  destruct (mine_loop_finds zeros_hash Do_alone (fun _ _ _ => eq_refl) (header b) 1 [] (fun _ => NoSignal) true 0
    (New None) 0 (header b) Hh eq_refl (New_inv zeros_hash None) (or_introl eq_refl)) as (t' & E & _);
    [lia|lia|intros; lia|apply checkPow_one, length_pow_hash|done|].
  exists t', (mkBlock (sealed (header b) 0) []). split; [exact E|].
  destruct (Seal_sound zeros_hash Do_alone (fun _ _ _ => eq_refl) 1 (New None) t' b
    (mkBlock (sealed (header b) 0) []) 1 (fun _ => NoSignal) true (New_inv zeros_hash None) Hh eq_refl E)
    as [_ [(k & _ & Hk & Hv)|[Hm _]]].
  - exists k. split; [exact Hk|exact Hv].
  - exfalso. apply Hm. reflexivity.
Defined.

(** ** Uncles *)

Section uncles.
Variable keccak256 : list byte -> list byte.
Variable Do : list byte -> (Cache -> option (Cache * list Z)) -> Cache -> option (Cache * list Z).
Hypothesis HDo : runs_function Do.

(** What is asked of one uncle of a block of number [n]. *)
Definition uncle_ok (mode : Mode) (n : Z) (u : Header) : bool :=
  match Number u with
  | Some m => (m =? n) && match mode with ModeFake => true | _ => pow_valid keccak256 u n end
  | None => false
  end.

Lemma uncles_loop_spec n us : forall t,
  engine_inv keccak256 t -> Forall (fun u => header_ok u /\ is_Some (Number u)) us ->
  exists t', uncles_loop keccak256 Do t (Some n) us =
      (t', if forallb (uncle_ok (PowMode (config t)) n) us then Ok tt else Err ErrInvalidSeal) /\
    engine_inv keccak256 t' /\ config t' = config t.
Proof using HDo.
  induction us as [|u us IH]; intros t Hinv Hus; [by exists t|].
  apply list.Forall_cons in Hus as [[Hu [m Hm]] Hus]. cbn [uncles_loop forallb]. unfold uncle_ok at 1. rewrite Hm.
  destruct (Z.eqb_spec m n) as [->|Hne]; cbn [negb andb]; [|by exists t].
  destruct (verifySeal_pow keccak256 Do HDo t u n Hinv Hu Hm) as (t1 & E & Hi & Hc).
  destruct (PowMode (config t)) eqn:Hmode; [|rewrite <- Hmode; by apply IH|].
  - rewrite E. destruct (pow_valid keccak256 u n); [|by exists t1]. cbn [andb].
    destruct (IH t1 Hi Hus) as (t2 & E2 & Hi2 & Hc2). exists t2. rewrite E2, Hc, Hmode. by rewrite Hc2.
  - rewrite E. destruct (pow_valid keccak256 u n); [|by exists t1]. cbn [andb].
    destruct (IH t1 Hi Hus) as (t2 & E2 & Hi2 & Hc2). exists t2. rewrite E2, Hc, Hmode. by rewrite Hc2.
Qed.

End uncles.

(** A block has at most two uncles, each of the number of the block and, but for
    the fake mode, with a valid seal. *)
Theorem VerifyUncles_correct
    (keccak256 : list byte -> list byte)
    (Do : list byte -> (Cache -> option (Cache * list Z)) -> Cache -> option (Cache * list Z))
    (HDo : runs_function Do) (t : NogopowEngine) (b : Block) (n : Z) :
  engine_inv keccak256 t -> Number (header b) = Some n ->
  Forall (fun u => header_ok u /\ is_Some (Number u)) (uncles b) ->
  snd (VerifyUncles keccak256 Do t b) =
    if (2 <? length (uncles b))%nat then Err ErrTooManyUncles
    else if forallb (uncle_ok keccak256 (PowMode (config t)) n) (uncles b) then Ok tt
    else Err ErrInvalidSeal.
Proof.
  intros Hinv Hn Hus. unfold VerifyUncles, maxUncles. destruct (2 <? length (uncles b))%nat; [done|].
  rewrite Hn. by destruct (uncles_loop_spec keccak256 Do HDo n (uncles b) t Hinv Hus) as (t' & -> & _).
Qed.

Lemma VerifyUncles_correct_witness :
  snd (VerifyUncles zeros_hash Do_alone (New None)
    (mkBlock (sample_header 3 0 0 [] 1) [sample_header 3 0 0 [] 1; sample_header 2 0 0 [] 1])) =
  Err ErrInvalidSeal.
Proof.
  rewrite (VerifyUncles_correct zeros_hash Do_alone (fun _ _ _ => eq_refl) (New None)
    (mkBlock (sample_header 3 0 0 [] 1) [sample_header 3 0 0 [] 1; sample_header 2 0 0 [] 1]) 3
    (New_inv zeros_hash None) eq_refl).
  - cbn [uncles length Nat.ltb Nat.leb forallb]. rewrite andb_false_intro2; reflexivity.
  - repeat constructor; try (by eexists); apply sample_header_ok; lia.
Defined.

(** ** The ancestors *)

(** The headers on the way back from one. *)
Inductive ancestor (getHeader : list byte -> option Header) : Header -> Header -> Prop :=
| anc_self h : ancestor getHeader h h
| anc_parent h p a : getHeader (ParentHash h) = Some p -> ancestor getHeader p a -> ancestor getHeader h a.

(** A chain whose heights go down by one to the first block. *)
Definition linked (getHeader : list byte -> option Header) (h : Header) : Prop :=
  forall a x, ancestor getHeader h a -> number_u64 a = Some x -> 0 < x ->
    exists p, getHeader (ParentHash a) = Some p /\ number_u64 p = Some (x - 1).

Lemma number_u64_range h x : number_u64 h = Some x -> 0 <= x < 2 ^ 64.
Proof.
  unfold number_u64. destruct (Number h) as [n|]; [|done]. intros [= <-]. by apply Z.mod_pos_bound.
Qed.

Lemma map_size_bound {A} (m : gmap Z A) (B : nat) :
  (forall x, is_Some (m !! x) -> 0 <= x < Z.of_nat B) -> (base.size m <= B)%nat.
Proof.
  intros Hm. rewrite <- length_map_to_list, <- (length_fmap fst).
  rewrite <- (length_seq B 0), <- (length_map Z.of_nat).
  apply NoDup_incl_length; [apply NoDup_ListNoDup, NoDup_fst_map_to_list|].
  intros x Hx. apply list_elem_of_In, list_elem_of_fmap in Hx as ([y a] & -> & Hin).
  apply elem_of_map_to_list in Hin. cbn. destruct (Hm y ltac:(by eexists)).
  apply in_map_iff. exists (Z.to_nat y). rewrite in_seq. lia.
Qed.

Section ancestors.
Variable getHeader : list byte -> option Header.
(** A bound of the heights; it is the range of an [uint64] below. *)
Variable B : nat.
Hypothesis HB : forall h x, number_u64 h = Some x -> 0 <= x < Z.of_nat B.

(** Every turn of the walk that is not the last takes a free height. *)
Lemma ancestors_loop_ends d : forall cache current,
  (forall x, is_Some (cache !! x) -> 0 <= x < Z.of_nat B) -> (B < base.size cache + d)%nat ->
  exists m, ancestors_loop d getHeader cache current = Some m.
Proof using HB.
  induction d as [|d IH]; intros cache current Hc Hd.
  { pose proof (map_size_bound cache B Hc). lia. }
  cbn [ancestors_loop]. destruct current as [cur|]; [|by eexists].
  destruct (number_u64 cur) as [x|] eqn:Hx; [|by eexists]. destruct (cache !! x) eqn:Hcx; [by eexists|].
  cbv zeta. destruct (x =? 0); [by eexists|]. apply IH.
  - intros y Hy. apply lookup_insert_is_Some in Hy as [<-|[_ Hy]]; [by apply (HB cur)|by apply Hc].
  - rewrite map_size_insert_None by done. lia.
Qed.

Lemma ancestors_loop_more d : forall e cache current m,
  ancestors_loop d getHeader cache current = Some m -> (d <= e)%nat ->
  ancestors_loop e getHeader cache current = Some m.
Proof.
  induction d as [|d IH]; intros [|e] cache current m Hm He; [done|done|lia|]. cbn [ancestors_loop] in *.
  destruct current as [cur|]; [|done]. destruct (number_u64 cur) as [x|]; [|done].
  destruct (cache !! x); [done|]. cbv zeta in *. destruct (x =? 0); [done|]. apply IH; [done|lia].
Qed.

Lemma ancestors_loop_sound parent d : forall cache current m,
  (forall x a, cache !! x = Some a -> number_u64 a = Some x /\ ancestor getHeader parent a) ->
  (forall cur, current = Some cur -> forall a, ancestor getHeader cur a -> ancestor getHeader parent a) ->
  ancestors_loop d getHeader cache current = Some m ->
  forall x a, m !! x = Some a -> number_u64 a = Some x /\ ancestor getHeader parent a.
Proof.
  induction d as [|d IH]; intros cache current m Hc Hcur; [done|]. cbn [ancestors_loop].
  destruct current as [cur|]; [|by intros [= <-]]. destruct (number_u64 cur) as [y|] eqn:Hy; [|by intros [= <-]].
  destruct (cache !! y); [by intros [= <-]|]. cbv zeta.
  assert (Hins : forall x a, <[y := cur]> cache !! x = Some a -> number_u64 a = Some x /\ ancestor getHeader parent a).
  { intros x a Hx. apply lookup_insert_Some in Hx as [[<- <-]|[_ Hx]]; [|by apply Hc].
    split; [done|]. apply (Hcur cur eq_refl), anc_self. }
  destruct (y =? 0); [by intros [= <-]|]. apply IH; [done|].
  intros p Hp a Ha. apply (Hcur cur eq_refl). by eapply anc_parent.
Qed.

Lemma ancestors_loop_complete d : forall cache cur m n,
  number_u64 cur = Some n -> linked getHeader cur -> (forall x, x <= n -> cache !! x = None) ->
  ancestors_loop d getHeader cache (Some cur) = Some m ->
  (forall x, is_Some (cache !! x) \/ 0 <= x <= n -> is_Some (m !! x)).
Proof using HB.
  induction d as [|d IH]; intros cache cur m n Hn Hl Hfree; [done|]. cbn [ancestors_loop].
  rewrite Hn, (Hfree n) by lia. cbv zeta. pose proof (HB _ _ Hn) as Hr. destruct (Z.eqb_spec n 0) as [->|Hz].
  - intros [= <-] x Hx. apply lookup_insert_is_Some. destruct (Z.eq_dec x 0) as [->|]; [by left|].
    right. split; [done|]. destruct Hx as [Hx|Hx]; [done|lia].
  - destruct (Hl cur n (anc_self _ _) Hn ltac:(lia)) as (p & Hp & Hpn). rewrite Hp. intros Hm x Hx.
    eapply (IH _ p m (n - 1)); [done| | |exact Hm|].
    + intros a y Ha. apply Hl. by eapply anc_parent.
    + intros y Hy. rewrite lookup_insert_ne by lia. apply Hfree. lia.
    + destruct (Z.eq_dec x n) as [->|]; [left; apply lookup_insert_is_Some; by left|].
      destruct Hx as [Hx|Hx]; [left; apply lookup_insert_is_Some; by right|right; lia].
Qed.

End ancestors.

(** C37: The walk ends on every chain, also on one that runs in a circle or never
    comes down to the first block; what it collects are ancestors under their
    heights, and on a chain without gaps it collects one for every height. *)
Theorem ancestors_terminate (getHeader : list byte -> option Header) (parent : Header) :
  exists fuel m, (forall fuel', (fuel <= fuel')%nat -> ancestors_loop fuel' getHeader ∅ (Some parent) = Some m) /\
    (forall x a, m !! x = Some a -> number_u64 a = Some x /\ ancestor getHeader parent a) /\
    (forall n, number_u64 parent = Some n -> linked getHeader parent ->
      forall x, 0 <= x <= n -> is_Some (m !! x)).
Proof.
  assert (HB : exists B : nat, 2 ^ 64 = Z.of_nat B) by (exists (Z.to_nat (2 ^ 64)); by rewrite Z2Nat.id).
  destruct HB as [B HB].
  assert (Hr : forall h x, number_u64 h = Some x -> 0 <= x < Z.of_nat B)
    by (intros h x Hx; rewrite <- HB; by apply (number_u64_range h)).
  destruct (ancestors_loop_ends getHeader B Hr (S B) ∅ (Some parent)) as [m Hm].
  { intros x [a Ha]. by rewrite lookup_empty in Ha. }
  { rewrite map_size_empty. lia. }
  exists (S B), m. split; [intros fuel' Hf; by eapply ancestors_loop_more|]. split.
  - eapply ancestors_loop_sound; [| |exact Hm]; [intros x a Ha; by rewrite lookup_empty in Ha|].
    intros cur [= <-] a Ha. exact Ha.
  - intros n Hn Hl x Hx. eapply (ancestors_loop_complete getHeader B Hr); [exact Hn|exact Hl|intros y _; apply lookup_empty|exact Hm|by right].
Qed.

(** ** Batches of headers *)

(** The goroutines of [VerifyHeaders]: how many are started, those that have not
    answered, the channel of the answers (nobody receives from it, which is the
    worst case for its buffer), and whether the caller has closed [abort]. *)
Record Batch := mkBatch {
  b_engine : NogopowEngine;
  b_next : nat;
  b_running : list (Header * bool);
  b_results : list (result EngineError unit);
  b_aborted : bool;
  b_closed : bool }.

Section batch.
Variable keccak256 : list byte -> list byte.
Variable Do : list byte -> (Cache -> option (Cache * list Z)) -> Cache -> option (Cache * list Z).
Variables (headers : list Header) (seals : list bool).

Definition batch_init (t : NogopowEngine) : Batch := mkBatch t 0 [] [] false false.

(** A send needs room in the buffer, of the size of the batch. *)
Definition room (s : Batch) : Prop := (length (b_results s) < length headers)%nat.

Inductive batch_step : Batch -> Batch -> Prop :=
| step_spawn t next running results aborted h seal :
    headers !! next = Some h -> seals !! next = Some seal ->
    batch_step (mkBatch t next running results aborted false)
      (mkBatch t (S next) (running ++ [(h, seal)]) results aborted false)
| step_verify t next xs h seal ys results t' r :
    (length results < length headers)%nat ->
    VerifyHeader keccak256 Do t h seal = (t', r) ->
    batch_step (mkBatch t next (xs ++ (h, seal) :: ys) results false false)
      (mkBatch t' next (xs ++ ys) (results ++ [r]) false false)
| step_skip t next xs h seal ys results :
    (length results < length headers)%nat ->
    batch_step (mkBatch t next (xs ++ (h, seal) :: ys) results true false)
      (mkBatch t next (xs ++ ys) (results ++ [Ok tt]) true false)
| step_close t results aborted :
    batch_step (mkBatch t (length headers) [] results aborted false)
      (mkBatch t (length headers) [] results aborted true)
| step_abort t next running results closed :
    batch_step (mkBatch t next running results false closed)
      (mkBatch t next running results true closed).

(** The steps of the goroutines, all but the caller's. *)
Definition own_step (s s' : Batch) : Prop := batch_step s s' /\ b_aborted s' = b_aborted s.

Definition batch_measure (s : Batch) : nat :=
  2 * (length headers - b_next s) + length (b_running s) +
  (if b_aborted s then 0 else 1) + (if b_closed s then 0 else 1).

Hypothesis HDo : runs_function Do.
Hypothesis Hheaders : Forall header_ok headers.
Hypothesis Hseals : length seals = length headers.
Variable t0 : NogopowEngine.
Hypothesis Ht0 : engine_inv keccak256 t0.

Definition verdict (hs : Header * bool) : result EngineError unit :=
  header_verdict keccak256 (PowMode (config t0)) hs.1 hs.2.

Record batch_inv (s : Batch) : Prop := {
  bi_engine : engine_inv keccak256 (b_engine s);
  bi_config : config (b_engine s) = config t0;
  bi_next : (b_next s <= length headers)%nat;
  bi_running : Forall (fun hs => header_ok hs.1) (b_running s);
  bi_count : (length (b_results s) + length (b_running s) = b_next s)%nat;
  bi_results : b_aborted s = false ->
    b_results s ++ map verdict (b_running s) ≡ₚ map verdict (take (b_next s) (zip headers seals));
  bi_closed : b_closed s = true -> b_next s = length headers /\ b_running s = [] }.

Lemma batch_init_inv : batch_inv (batch_init t0).
Proof using Hseals Ht0. split; cbn; try done; lia. Qed.

Lemma take_S_zip n h seal :
  headers !! n = Some h -> seals !! n = Some seal ->
  take (S n) (zip headers seals) = take n (zip headers seals) ++ [(h, seal)].
Proof.
  intros Hh Hs. apply take_S_r. rewrite lookup_zip_with, Hh. cbn. by rewrite Hs.
Qed.

Lemma batch_step_inv s s' : batch_inv s -> batch_step s s' -> batch_inv s'.
Proof using HDo Hheaders Hseals.
  intros [He Hc Hn Hr Hl Hres Hcl] Hstep. destruct Hstep; cbn in *.
  - pose proof (lookup_lt_Some _ _ _ H). split; cbn; try done.
    + apply Forall_app. split; [done|]. constructor; [|done]. by eapply Forall_lookup_1.
    + rewrite length_app. cbn. lia.
    + intros Ha. rewrite map_app, (take_S_zip _ _ _ H H0), map_app, app_assoc. by rewrite (Hres Ha).
  - apply Forall_app in Hr as [Hx Hr]. apply list.Forall_cons in Hr as [Hh Hy]. cbn in Hh.
    destruct (VerifyHeader_verdict keccak256 Do HDo t h seal He Hh) as (t1 & E & Hi & Hcf).
    rewrite E in H0. injection H0 as <- <-. split; cbn; try done.
    + by rewrite Hcf.
    + by apply Forall_app.
    + rewrite !length_app in *. cbn in *. lia.
    + intros Ha. rewrite <- (Hres Ha), !map_app, <- app_assoc. cbn [map app]. rewrite Hc.
      change (header_verdict keccak256 (PowMode (config t0)) h seal) with (verdict (h, seal)).
      by rewrite Permutation_middle.
  - apply Forall_app in Hr as [Hx Hr]. apply list.Forall_cons in Hr as [Hh Hy]. split; cbn; try done.
    + by apply Forall_app.
    + rewrite !length_app in *. cbn in *. lia.
  - by split.
  - by split.
Qed.

Lemma batch_step_measure s s' : batch_inv s -> batch_step s s' -> (batch_measure s' < batch_measure s)%nat.
Proof.
  intros [_ _ Hn _ _ _ _] Hstep. unfold batch_measure. destruct Hstep; cbn in *; rewrite ?length_app; cbn; try lia.
  pose proof (lookup_lt_Some _ _ _ H). lia.
Qed.

Lemma batch_progress s : batch_inv s -> b_closed s = false -> exists s', own_step s s'.
Proof using Hseals.
  intros Hinv Hc. pose proof Hinv as [He _ Hn Hr Hl _ _].
  destruct s as [t next [|[h seal] running] results aborted closed]; cbn in *; subst closed.
  - destruct (decide (next = length headers)) as [->|Hne].
    + eexists. split; [apply step_close|done].
    + destruct (lookup_lt_is_Some_2 headers next ltac:(lia)) as [h Hh].
      destruct (lookup_lt_is_Some_2 seals next ltac:(lia)) as [seal Hs].
      eexists. split; [by apply step_spawn|done].
  - destruct aborted.
    + eexists. split; [apply (step_skip t next [] h seal running); lia|done].
    + destruct (VerifyHeader keccak256 Do t h seal) as [t' r] eqn:E.
      eexists. split; [by apply (step_verify t next [] h seal running results t' r); [lia|]|done].
Qed.

Lemma batch_reachable_inv s : rtc batch_step (batch_init t0) s -> batch_inv s.
Proof using HDo Hheaders Hseals Ht0.
  intros Hs. remember (batch_init t0) as s0 eqn:E.
  assert (H0 : batch_inv s0) by (subst; apply batch_init_inv). clear E.
  induction Hs as [s|s0 s1 s Hstep _ IH]; [done|]. apply IH. by eapply batch_step_inv.
Qed.

End batch.


