(* ===== verification/Address.v ===== *)
(** * Addresses ([address/address.go], [address/hash160.go], and the prefixes of
      [chaincfg/params.go])

    The kinds of addresses, their constructors and methods, and the decoder that
    tells them apart, on top of [Base58] and [Bech32].  The keys of the curve
    ([ParsePubKey] and the two serializations) and RIPEMD-160 come from third
    parties and are parameters.  A string is the list of its bytes; [EncodeAddress]
    is an option because [Base58.Encode] is, which [Encode_decodes] shows total. *)

From Stdlib Require Import ZArith Lia.
From S2P Require Import Prelude ChainHash Bech32 GoBig Base58.
Open Scope Z_scope.

(** ** Parameters of a network *)

Record Params := mkParams {
  PubKeyHashAddrID : byte;
  ScriptHashAddrID : byte;
  Bech32HRPSegwit : list byte }.

Definition MainNetParams : Params := mkParams x00 x05 (bytes_of "nc").
Definition TestNet3Params : Params := mkParams x6f xc4 (bytes_of "tn").

Definition knownBech32Prefixes : list (list byte) :=
  [Bech32HRPSegwit MainNetParams; Bech32HRPSegwit TestNet3Params].

(** The prefix comes with the separator behind it. *)
Definition IsBech32SegwitPrefix (prefix : list byte) : bool :=
  bool_decide (take (length prefix - 1) prefix ∈ knownBech32Prefixes).

(** ** Errors *)

Inductive address_error :=
| UnsupportedWitnessVerError (v : Z)
| UnsupportedWitnessProgLenError (n : nat)
| ErrChecksumMismatch
| ErrUnknownAddressType
| ErrAddressCollision
| ErrBech32 (e : bech32_error)
| ErrSegWitData            (* version or program of a segwit string *)
| ErrUnknownFormat
| ErrUnknownSize
| ErrPubKeyHex
| ErrPubKey
| ErrHashLength
| ErrNilNetwork.

Definition lift_bech32 {A} (r : result bech32_error A) : result address_error A :=
  match r with Ok a => Ok a | Err e => Err (ErrBech32 e) end.

(** ** Segwit strings *)

Definition decodeSegWitAddress (address : list byte) : result address_error (byte * list byte) :=
  '(_, data, bech32version) ← lift_bech32 (DecodeGeneric address);
  match data with
  | [] => Err ErrSegWitData
  | version :: data =>
      if 16 <? b2z version then Err ErrSegWitData
      else
        regrouped ← lift_bech32 (ConvertBits data 5 8 false);
        let n := length regrouped in
        if (n <? 2)%nat || (40 <? n)%nat then Err ErrSegWitData
        else if (b2z version =? 0) && negb (n =? 20)%nat && negb (n =? 32)%nat then Err ErrSegWitData
        else if (b2z version =? 0) && match bech32version with Version0 => false | _ => true end
        then Err ErrSegWitData
        else if (b2z version =? 1) && match bech32version with VersionM => false | _ => true end
        then Err ErrSegWitData
        else Ok (version, regrouped)
  end.

Definition encodeSegWitAddress (hrp : list byte) (witnessVersion : byte) (witnessProgram : list byte)
    : result address_error (list byte) :=
  converted ← lift_bech32 (ConvertBits witnessProgram 8 5 true);
  let combined := witnessVersion :: converted in
  bech ← (if b2z witnessVersion =? 0 then lift_bech32 (Bech32.Encode hrp combined)
          else if b2z witnessVersion =? 1 then lift_bech32 (EncodeM hrp combined)
          else Err ErrSegWitData);
  '(version, program) ← decodeSegWitAddress bech;
  if negb (bool_decide (version = witnessVersion)) || negb (bool_decide (program = witnessProgram))
  then Err ErrSegWitData
  else Ok bech.

(** ** Addresses *)

Inductive PubKeyFormat := PKFUncompressed | PKFCompressed.

Record AddressSegWit := mkSegWit {
  hrp : list byte;
  witnessVersion : byte;
  witnessProgram : list byte }.

Definition payToAnchorWitnessProgram : list byte := [x4e; x73].

Section Addresses.

Context {PublicKey : Type}.
Variable ParsePubKey : list byte -> option PublicKey.
Variables SerializeCompressed SerializeUncompressed : PublicKey -> list byte.
Variable ripemd160 : list byte -> list byte.

Inductive Address :=
| AddressPubKeyHash (hash : list byte) (netID : byte)
| AddressScriptHash (hash : list byte) (netID : byte)
| AddressPubKey (pubKeyFormat : PubKeyFormat) (pubKey : PublicKey) (pubKeyHashID : byte)
| AddressWitnessPubKeyHash (a : AddressSegWit)
| AddressWitnessScriptHash (a : AddressSegWit)
| AddressTaproot (a : AddressSegWit)
| AddressPayToAnchor (hrp : list byte).

Definition Hash160 (buf : list byte) : list byte := ripemd160 (sha256_Sum256 buf).

(** ** Constructors *)

Definition newAddressPubKeyHash (pkHash : list byte) (netID : byte) : result address_error Address :=
  if negb (length pkHash =? 20)%nat then Err ErrHashLength else Ok (AddressPubKeyHash pkHash netID).
Definition NewAddressPubKeyHash (pkHash : list byte) (net : Params) :=
  newAddressPubKeyHash pkHash (PubKeyHashAddrID net).

Definition newAddressScriptHashFromHash (scriptHash : list byte) (netID : byte) : result address_error Address :=
  if negb (length scriptHash =? 20)%nat then Err ErrHashLength else Ok (AddressScriptHash scriptHash netID).
Definition NewAddressScriptHash (serializedScript : list byte) (net : Params) :=
  newAddressScriptHashFromHash (Hash160 serializedScript) (ScriptHashAddrID net).
Definition NewAddressScriptHashFromHash (scriptHash : list byte) (net : Params) :=
  newAddressScriptHashFromHash scriptHash (ScriptHashAddrID net).

Definition NewAddressPubKey (serializedPubKey : list byte) (net : Params) : result address_error Address :=
  match ParsePubKey serializedPubKey with
  | None => Err ErrPubKey
  | Some pubKey =>
      let first := nth 0 serializedPubKey x00 in
      let pkFormat :=
        if bool_decide (first = x02) || bool_decide (first = x03) then PKFCompressed else PKFUncompressed in
      Ok (AddressPubKey pkFormat pubKey (PubKeyHashAddrID net))
  end.

Definition newAddressWitnessPubKeyHash (hrp witnessProg : list byte) : result address_error Address :=
  if negb (length witnessProg =? 20)%nat then Err ErrHashLength
  else Ok (AddressWitnessPubKeyHash (mkSegWit (ToLower hrp) x00 witnessProg)).
Definition NewAddressWitnessPubKeyHash (witnessProg : list byte) (net : Params) :=
  newAddressWitnessPubKeyHash (Bech32HRPSegwit net) witnessProg.

Definition newAddressWitnessScriptHash (hrp witnessProg : list byte) : result address_error Address :=
  if negb (length witnessProg =? 32)%nat then Err ErrHashLength
  else Ok (AddressWitnessScriptHash (mkSegWit (ToLower hrp) x00 witnessProg)).
Definition NewAddressWitnessScriptHash (witnessProg : list byte) (net : Params) :=
  newAddressWitnessScriptHash (Bech32HRPSegwit net) witnessProg.

Definition newAddressTaproot (hrp witnessProg : list byte) : result address_error Address :=
  if negb (length witnessProg =? 32)%nat then Err ErrHashLength
  else Ok (AddressTaproot (mkSegWit (ToLower hrp) x01 witnessProg)).
Definition NewAddressTaproot (witnessProg : list byte) (net : Params) :=
  newAddressTaproot (Bech32HRPSegwit net) witnessProg.

Definition newAddressPayToAnchor (hrp : list byte) : Address := AddressPayToAnchor (ToLower hrp).
Definition NewAddressPayToAnchor (net : option Params) : result address_error Address :=
  match net with
  | None => Err ErrNilNetwork
  | Some net => Ok (newAddressPayToAnchor (Bech32HRPSegwit net))
  end.

(** ** Methods *)

(** [base58.CheckEncode(hash160[:20], netID)], on arrays of 20 bytes. *)
Definition encodeAddress (hash160 : list byte) (netID : byte) : option (list byte) :=
  CheckEncode (take 20 hash160) netID.

Definition serialize (f : PubKeyFormat) (pubKey : PublicKey) : list byte :=
  match f with
  | PKFUncompressed => SerializeUncompressed pubKey
  | PKFCompressed => SerializeCompressed pubKey
  end.

(** An error becomes the empty string. *)
Definition segwit_EncodeAddress (hrp : list byte) (ver : byte) (prog : list byte) : list byte :=
  match encodeSegWitAddress hrp ver prog with Ok s => s | Err _ => [] end.

Definition AddressPubKeyHash_EncodeAddress (hash : list byte) (netID : byte) := encodeAddress hash netID.
Definition AddressScriptHash_EncodeAddress (hash : list byte) (netID : byte) := encodeAddress hash netID.
Definition AddressPubKey_EncodeAddress (f : PubKeyFormat) (k : PublicKey) (pubKeyHashID : byte) :=
  encodeAddress (Hash160 (serialize f k)) pubKeyHashID.
Definition AddressPayToAnchor_EncodeAddress (hrp : list byte) : list byte :=
  segwit_EncodeAddress hrp x01 payToAnchorWitnessProgram.
Definition AddressPubKey_String (f : PubKeyFormat) (k : PublicKey) : list byte :=
  hex_EncodeToString (serialize f k).

(** The methods of the interface, by the kind of the address. *)
Definition EncodeAddress (a : Address) : option (list byte) :=
  match a with
  | AddressPubKeyHash hash netID => AddressPubKeyHash_EncodeAddress hash netID
  | AddressScriptHash hash netID => AddressScriptHash_EncodeAddress hash netID
  | AddressPubKey f k netID => AddressPubKey_EncodeAddress f k netID
  | AddressWitnessPubKeyHash s | AddressWitnessScriptHash s | AddressTaproot s =>
      Some (segwit_EncodeAddress (hrp s) (witnessVersion s) (witnessProgram s))
  | AddressPayToAnchor hrp => Some (AddressPayToAnchor_EncodeAddress hrp)
  end.

Definition Address_String (a : Address) : option (list byte) :=
  match a with
  | AddressPubKey f k _ => Some (AddressPubKey_String f k)
  | _ => EncodeAddress a
  end.

Definition ScriptAddress (a : Address) : list byte :=
  match a with
  | AddressPubKeyHash hash _ | AddressScriptHash hash _ => hash
  | AddressPubKey f k _ => serialize f k
  | AddressWitnessPubKeyHash s | AddressWitnessScriptHash s | AddressTaproot s => witnessProgram s
  | AddressPayToAnchor _ => payToAnchorWitnessProgram
  end.

Definition AddressPubKeyHash_IsForNet (netID : byte) (net : Params) : bool :=
  bool_decide (netID = PubKeyHashAddrID net).
Definition AddressScriptHash_IsForNet (netID : byte) (net : Params) : bool :=
  bool_decide (netID = ScriptHashAddrID net).
Definition AddressPubKey_IsForNet (pubKeyHashID : byte) (net : Params) : bool :=
  bool_decide (pubKeyHashID = PubKeyHashAddrID net).
Definition AddressSegWit_IsForNet (s : AddressSegWit) (net : Params) : bool :=
  bool_decide (hrp s = Bech32HRPSegwit net).
Definition AddressPayToAnchor_IsForNet (hrp : list byte) (net : Params) : bool :=
  bool_decide (hrp = Bech32HRPSegwit net).

Definition IsForNet (a : Address) (net : Params) : bool :=
  match a with
  | AddressPubKeyHash _ netID => AddressPubKeyHash_IsForNet netID net
  | AddressScriptHash _ netID => AddressScriptHash_IsForNet netID net
  | AddressPubKey _ _ id => AddressPubKey_IsForNet id net
  | AddressWitnessPubKeyHash s | AddressWitnessScriptHash s | AddressTaproot s => AddressSegWit_IsForNet s net
  | AddressPayToAnchor hrp => AddressPayToAnchor_IsForNet hrp net
  end.

(** [SetFormat] and [AddressPubKeyHash] of a public key. *)
Definition SetFormat (a : Address) (f : PubKeyFormat) : Address :=
  match a with AddressPubKey _ k id => AddressPubKey f k id | _ => a end.
Definition pubKey_AddressPubKeyHash (f : PubKeyFormat) (k : PublicKey) (id : byte) : Address :=
  AddressPubKeyHash (Hash160 (serialize f k)) id.

(** ** Decoding *)

(** The branch for segwit strings, with the part before the separator. *)
Definition decode_segwit (addr hrp : list byte) : result address_error Address :=
  '(witnessVer, witnessProg) ← decodeSegWitAddress addr;
  if negb (b2z witnessVer =? 0) && negb (b2z witnessVer =? 1)
  then Err (UnsupportedWitnessVerError (b2z witnessVer))
  else
    match length witnessProg with
    | 2%nat =>
        if (b2z witnessVer =? 1) && bool_decide (witnessProg = [x4e; x73])
        then Ok (newAddressPayToAnchor hrp)
        else Err (UnsupportedWitnessProgLenError (length witnessProg))
    | 20%nat => newAddressWitnessPubKeyHash hrp witnessProg
    | 32%nat =>
        if b2z witnessVer =? 1 then newAddressTaproot hrp witnessProg
        else newAddressWitnessScriptHash hrp witnessProg
    | n => Err (UnsupportedWitnessProgLenError n)
    end.

Definition decode_base58 (addr : list byte) (defaultNet : Params) : result address_error Address :=
  match CheckDecode addr with
  | Err ErrChecksum => Err ErrChecksumMismatch
  | Err _ => Err ErrUnknownFormat
  | Ok (decoded, netID) =>
      if negb (length decoded =? 20)%nat then Err ErrUnknownSize
      else
        let isP2PKH := bool_decide (netID = PubKeyHashAddrID defaultNet) in
        let isP2SH := bool_decide (netID = ScriptHashAddrID defaultNet) in
        if isP2PKH && isP2SH then Err ErrAddressCollision
        else if isP2PKH then newAddressPubKeyHash decoded netID
        else if isP2SH then newAddressScriptHashFromHash decoded netID
        else Err ErrUnknownAddressType
  end.

(** The part before the last separator, when the string is treated as segwit. *)
Definition segwit_prefix (addr : list byte) : option (list byte) :=
  match LastIndexByte addr (z2b 49) with
  | Some oneIndex =>
      if (1 <? oneIndex)%nat then
        let prefix := take (oneIndex + 1) addr in
        if IsBech32SegwitPrefix prefix then Some (take (length prefix - 1) prefix) else None
      else None
  | None => None
  end.

Definition DecodeAddress (addr : list byte) (defaultNet : Params) : result address_error Address :=
  match segwit_prefix addr with
  | Some hrp => decode_segwit addr hrp
  | None =>
      if (length addr =? 130)%nat || (length addr =? 66)%nat then
        match hex_Decode addr with
        | Err _ => Err ErrPubKeyHex
        | Ok serializedPubKey => NewAddressPubKey serializedPubKey defaultNet
        end
      else decode_base58 addr defaultNet
  end.

End Addresses.

Arguments Address : clear implicits.

(** ** Segwit strings *)

#[global] Opaque encodeGeneric DecodeNoLimitWithVersion ConvertBits.

Lemma digit_version v : 0 <= v < 32 -> is_digit (z2b v).
Proof. intros Hv. unfold is_digit. rewrite b2z_z2b_small; lia. Qed.

(** The versions with their program lengths and checksums. *)
Definition segwit_ok (hrp : list byte) (ver : byte) (prog : list byte) : Prop :=
  hrp <> [] /\ Forall printable hrp /\ ToLower hrp = hrp /\ (length hrp <= 18)%nat /\
  (2 <= length prog <= 40)%nat /\
  ((ver = x00 /\ (length prog = 20%nat \/ length prog = 32%nat)) \/ ver = x01).

Definition version_of (ver : byte) : Version := if b2z ver =? 0 then Version0 else VersionM.

Lemma decodeSegWit_of_decode s hrp ver d5 prog :
  DecodeGeneric s = Ok (hrp, ver :: d5, version_of ver) -> ConvertBits d5 5 8 false = Ok prog ->
  (2 <= length prog <= 40)%nat ->
  ((ver = x00 /\ (length prog = 20%nat \/ length prog = 32%nat)) \/ ver = x01) ->
  decodeSegWitAddress s = Ok (ver, prog).
Proof.
  intros Hd Hc Hl Hv. unfold decodeSegWitAddress. rewrite Hd. cbn [lift_bech32 mbind result_bind].
  assert (Hver : ver = x00 \/ ver = x01) by tauto.
  assert (H16 : (16 <? b2z ver) = false) by (destruct Hver as [->| ->]; reflexivity). rewrite H16.
  rewrite Hc. cbn [lift_bech32 mbind result_bind].
  destruct (Nat.ltb_spec (length prog) 2); [lia|]. destruct (Nat.ltb_spec 40 (length prog)); [lia|]. cbn [orb].
  destruct Hver as [->| ->]; [|reflexivity].
  assert (Hn : length prog = 20%nat \/ length prog = 32%nat) by (destruct Hv as [[_ Hv]|Hv]; [done|discriminate]).
  by destruct Hn as [->| ->].
Qed.

Lemma encodeSegWit_spec hrp ver prog :
  segwit_ok hrp ver prog ->
  exists s, encodeSegWitAddress hrp ver prog = Ok s /\ decodeSegWitAddress s = Ok (ver, prog) /\
    LastIndexByte s (z2b 49) = Some (length hrp) /\ take (length hrp) s = hrp.
Proof.
  intros (Hne & Hp & Hlow & Hl & Hprog & Hver).
  destruct (ConvertBits_8_5 prog) as (d5 & pad & Hc & Hg & Hpad & Hlen & Hval).
  assert (Hdig : Forall is_digit (ver :: d5)).
  { constructor; [|exact Hg]. unfold is_digit. by destruct Hver as [[-> _]| ->]. }
  destruct (encode_decode hrp (ver :: d5) (version_of ver) Hne Hp Hdig) as (s & He & Hsl & Hd).
  { unfold version_of. by destruct (b2z ver =? 0). }
  exists s. rewrite Hlow in Hd.
  assert (Hdec : decodeSegWitAddress s = Ok (ver, prog)).
  { apply (decodeSegWit_of_decode s hrp ver d5 prog); [|exact (ConvertBits_5_8 d5 pad prog Hg Hpad Hlen Hval)|done|done].
    unfold DecodeGeneric. nat_bool; [cbn [length] in Hsl; lia|]. exact Hd. }
  split; [|split; [exact Hdec|]].
  - unfold encodeSegWitAddress. rewrite Hc. cbn [lift_bech32 mbind result_bind].
    assert (Hb : (if b2z ver =? 0 then lift_bech32 (Bech32.Encode hrp (ver :: d5))
        else if b2z ver =? 1 then lift_bech32 (EncodeM hrp (ver :: d5)) else Err ErrSegWitData) = Ok s).
    { destruct Hver as [[-> _]| ->]; exact (f_equal lift_bech32 He). }
    cbv zeta. rewrite Hb. cbn [mbind result_bind]. rewrite Hdec. cbn [mbind result_bind].
    rewrite !bool_decide_eq_true_2 by done. done.
  - destruct (encode_separator hrp (ver :: d5) (version_of ver) s Hdig He) as [H1 H2].
    split; [done|]. by rewrite H2.
Qed.

(** ** Checked base58 strings *)

Lemma pow58_le a b : (a <= b)%nat -> 58 ^ Z.of_nat a <= 58 ^ Z.of_nat b.
Proof. intros H. apply Z.pow_le_mono_r; lia. Qed.

Lemma canonical_lower ds : canonical ds -> ds <> [] -> 58 ^ Z.of_nat (length ds - 1) <= value58 ds.
Proof.
  intros Hc Hne. destruct ds as [|d ds _] using rev_ind; [done|]. destruct Hc as [Hd Hl].
  apply Forall_app in Hd as [Hds Hd]. apply Forall_cons_iff in Hd as [Hd _].
  rewrite stdpp.list_basics.list.last_snoc in Hl. assert (d <> 0) by congruence.
  rewrite value58_app, length_app. cbn [length value58].
  replace (length ds + 1 - 1)%nat with (length ds) by lia.
  pose proof (value58_range ds Hds). pose proof (Z.pow_pos_nonneg 58 (Z.of_nat (length ds)) ltac:(lia) ltac:(lia)). nia.
Qed.

Lemma zero_prefix_le b : (zero_prefix b <= length b)%nat.
Proof. induction b as [|x b IH]; [done|]. cbn [zero_prefix length]. case_bool_decide; lia. Qed.

(** No string that [CheckEncode] makes of 20 bytes has the length of a key. *)
Lemma CheckEncode_length h id s : length h = 20%nat -> CheckEncode h id = Some s -> (length s <= 60)%nat.
Proof.
  intros Hh. unfold CheckEncode. set (b := (id :: h) ++ checksum (id :: h)).
  assert (Hb : length b = 25%nat) by (unfold b; rewrite length_app, length_checksum; cbn [length]; lia).
  clearbody b. destruct (Encode_spec b) as (ds & -> & Hc & Hv). intros [= <-].
  rewrite length_app, repeat_length. unfold chars. rewrite length_map, length_rev.
  pose proof (zero_prefix_le b). pose proof (be_get_range b) as Hr. rewrite Hb in Hr.
  change (big_SetBytes b) with (be_get b) in Hv.
  destruct (Nat.le_gt_cases (length ds) 35) as [Hle|Hgt]; [lia|]. exfalso.
  assert (Hne : ds <> []) by (intros ->; cbn [length] in Hgt; lia).
  pose proof (canonical_lower ds Hc Hne) as Hlo.
  pose proof (pow58_le 35 (length ds - 1) ltac:(lia)).
  assert (256 ^ Z.of_nat 25 < 58 ^ Z.of_nat 35) by reflexivity. lia.
Qed.

(** The first two characters place a number between two powers. *)
Lemma chars_first_two ds c1 c2 r :
  digits_ok ds -> chars ds = c1 :: c2 :: r ->
  exists m, (b58_at c1 * 58 + b58_at c2) * 58 ^ Z.of_nat m <= value58 ds <
            (b58_at c1 * 58 + b58_at c2 + 1) * 58 ^ Z.of_nat m.
Proof.
  intros Hd Hc. pose proof (digits_of_chars ds Hd) as Hds. rewrite Hc in Hds.
  unfold digits_of in Hds. cbn [map rev] in Hds. rewrite <- app_assoc in Hds. cbn [app] in Hds.
  set (low := rev (map b58_at r)) in *.
  assert (Hlow : digits_ok low) by (rewrite <- Hds in Hd; by apply Forall_app in Hd as [? _]).
  exists (length low). rewrite <- Hds, value58_app. cbn [value58].
  pose proof (value58_range low Hlow). lia.
Qed.

(** The networks whose addresses are told apart. *)
Definition known_net (net : Params) : Prop := net = MainNetParams \/ net = TestNet3Params.

Lemma segwit_prefix_known s hrp :
  segwit_prefix s = Some hrp ->
  LastIndexByte s (z2b 49) = Some (length hrp) /\ take (length hrp) s = hrp /\ hrp ∈ knownBech32Prefixes /\
  exists c1 c2 r, s = c1 :: c2 :: r /\ hrp = [c1; c2].
Proof.
  unfold segwit_prefix. destruct (LastIndexByte s (z2b 49)) as [i|] eqn:Ei; [|done].
  apply LastIndexByte_some in Ei as Hs.
  assert (Hi : (i < length s)%nat).
  { apply (f_equal length) in Hs. rewrite length_app, length_take in Hs. cbn [length] in Hs. rewrite length_drop in Hs. lia. }
  destruct (1 <? i)%nat eqn:E1; [|done]. cbv zeta. unfold IsBech32SegwitPrefix.
  rewrite length_take, (Nat.min_l (i + 1)) by lia. replace (i + 1 - 1)%nat with i by lia.
  rewrite take_take, Nat.min_l by lia. case_bool_decide as Hk; [|done]. intros [= <-].
  rewrite length_take, Nat.min_l by lia. split; [done|]. split; [done|]. split; [done|].
  assert (H2 : length (take i s) = 2%nat).
  { unfold knownBech32Prefixes in Hk. rewrite !elem_of_cons in Hk.
    destruct Hk as [->|[->|Hk]]; [done|done|by apply not_elem_of_nil in Hk]. }
  rewrite length_take, Nat.min_l in H2 by lia. subst i.
  destruct s as [|c1 [|c2 r]]; [cbn in Hi; lia..|]. by exists c1, c2, r.
Qed.

Lemma known_prefix_cases c1 c2 : [c1; c2] ∈ knownBech32Prefixes -> (c1 = x6e /\ c2 = x63) \/ (c1 = x74 /\ c2 = x6e).
Proof.
  unfold knownBech32Prefixes. rewrite !elem_of_cons. intros [H|[H|H]].
  - injection H. by left.
  - injection H. by right.
  - by apply not_elem_of_nil in H.
Qed.

(** No address of the known networks looks like a segwit string. *)
Lemma CheckEncode_not_segwit h id s :
  length h = 20%nat -> id = x00 \/ id = x05 \/ id = x6f \/ id = xc4 ->
  CheckEncode h id = Some s -> segwit_prefix s = None.
Proof.
  intros Hh Hid. unfold CheckEncode. set (b := (id :: h) ++ checksum (id :: h)).
  assert (Hb : exists t, b = id :: t /\ length t = 24%nat).
  { exists (h ++ checksum (id :: h)). split; [done|]. rewrite length_app, length_checksum. lia. }
  clearbody b. destruct Hb as (t & -> & Ht).
  destruct (Encode_spec (id :: t)) as (ds & -> & [Hd Hc] & Hv). intros [= <-].
  destruct (segwit_prefix _) as [hrp|] eqn:E; [|done]. exfalso.
  apply segwit_prefix_known in E as (_ & _ & Hk & c1 & c2 & r & Hs & ->).
  apply known_prefix_cases in Hk.
  change (big_SetBytes (id :: t)) with (be_get (id :: t)) in Hv. rewrite be_get_cons, Ht in Hv.
  pose proof (be_get_range t) as Hr. rewrite Ht in Hr. change (256 ^ Z.of_nat 24) with (2 ^ 192) in *.
  destruct (decide (id = x00)) as [->|Hne].
  { cbn in Hs. destruct Hk as [[-> _]|[-> _]]; discriminate. }
  cbn [zero_prefix] in Hs. rewrite bool_decide_eq_false_2 in Hs by done. cbn [repeat app] in Hs.
  destruct (chars_first_two ds c1 c2 r Hd Hs) as (m & Hlo & Hhi). rewrite Hv in Hlo, Hhi.
  assert (Hm : (m <= 31)%nat \/ m = 32%nat \/ (33 <= m)%nat) by lia.
  assert (H58 : (m <= 31)%nat -> 58 ^ Z.of_nat m <= 58 ^ 31) by (intros; apply Z.pow_le_mono_r; lia).
  assert (H58' : (33 <= m)%nat -> 58 ^ 33 <= 58 ^ Z.of_nat m) by (intros; apply Z.pow_le_mono_r; lia).
  revert Hlo Hhi H58 H58' Hm. intros Hlo Hhi H31 H33 Hm.
  assert (Hm' : (m <= 31)%nat \/ 58 ^ Z.of_nat m = 58 ^ 32 \/ (33 <= m)%nat) by (destruct Hm as [?|[->|?]]; tauto).
  clear Hm. rename Hm' into Hm. remember (58 ^ Z.of_nat m) as P eqn:HPm. clear HPm.
  assert (Hbi : b2z id = 5 \/ b2z id = 111 \/ b2z id = 196)
    by (destruct Hid as [->|[->|[->| ->]]]; [done|by left|right; by left|right; by right]).
  assert (Hbc : b58_at c1 * 58 + b58_at c2 = 2645 \/ b58_at c1 * 58 + b58_at c2 = 3003)
    by (destruct Hk as [[-> ->]|[-> ->]]; [by left|by right]).
  revert Hlo Hhi H31 H33 Hr. generalize (be_get t). intros T Hlo Hhi H31 H33 Hr. clear -Hm Hbi Hbc Hlo Hhi H31 H33 Hr.
  assert (HP : P <= 58 ^ 31 \/ P = 58 ^ 32 \/ 58 ^ 33 <= P) by (destruct Hm as [Hm|[Hm|Hm]]; auto).
  change (58 ^ 31) with (ltac:(let v := eval vm_compute in (58 ^ 31) in exact v)) in HP.
  change (58 ^ 32) with (ltac:(let v := eval vm_compute in (58 ^ 32) in exact v)) in HP.
  change (58 ^ 33) with (ltac:(let v := eval vm_compute in (58 ^ 33) in exact v)) in HP.
  change (2 ^ 192) with (ltac:(let v := eval vm_compute in (2 ^ 192) in exact v)) in *.
  destruct Hbi as [Hbi|[Hbi|Hbi]], Hbc as [Hbc|Hbc]; rewrite Hbi in *; rewrite Hbc in *; lia.
Qed.

Lemma hex_not_segwit bs : segwit_prefix (hex_EncodeToString bs) = None.
Proof.
  destruct (segwit_prefix _) as [hrp|] eqn:E; [|done]. exfalso.
  apply segwit_prefix_known in E as (_ & _ & Hk & c1 & c2 & r & Hs & ->). apply known_prefix_cases in Hk.
  destruct bs as [|b bs]; [done|].
  change (hex_EncodeToString (b :: bs)) with
    (hex_digit (b2z b / 16) :: hex_digit (b2z b mod 16) :: hex_EncodeToString bs) in Hs.
  injection Hs as Hs _ _. pose proof (b2z_range b).
  assert (Hr : 0 <= b2z b / 16 < 16) by (split; [apply Z.div_pos; lia|apply Z.div_lt_upper_bound; lia]).
  assert (Hd : b2z (hex_digit (b2z b / 16)) < 110).
  { unfold hex_digit. case_bool; rewrite b2z_z2b_small; lia. }
  rewrite Hs in Hd. destruct Hk as [[-> _]|[-> _]]; vm_compute in Hd; discriminate.
Qed.

(** ** Round trips *)

Section laws.
Context {PublicKey : Type}.
Variable ParsePubKey : list byte -> option PublicKey.
Variables SerializeCompressed SerializeUncompressed : PublicKey -> list byte.
Variable ripemd160 : list byte -> list byte.

(** What SEC 1 says of the two forms of a key. *)
Record key_laws : Prop := {
  parse_compressed : forall k, ParsePubKey (SerializeCompressed k) = Some k;
  parse_uncompressed : forall k, ParsePubKey (SerializeUncompressed k) = Some k;
  length_compressed : forall k, length (SerializeCompressed k) = 33%nat;
  length_uncompressed : forall k, length (SerializeUncompressed k) = 65%nat;
  head_compressed : forall k, let b := nth 0 (SerializeCompressed k) x00 in b = x02 \/ b = x03;
  head_uncompressed : forall k, nth 0 (SerializeUncompressed k) x00 = x04 }.

(** The addresses the constructors make for a network. *)
Definition address_ok (net : Params) (a : Address PublicKey) : Prop :=
  match a with
  | AddressPubKeyHash h id => length h = 20%nat /\ id = PubKeyHashAddrID net
  | AddressScriptHash h id => length h = 20%nat /\ id = ScriptHashAddrID net
  | AddressPubKey _ _ id => id = PubKeyHashAddrID net
  | AddressWitnessPubKeyHash s => exists p, length p = 20%nat /\ s = mkSegWit (Bech32HRPSegwit net) x00 p
  | AddressWitnessScriptHash s => exists p, length p = 32%nat /\ s = mkSegWit (Bech32HRPSegwit net) x00 p
  | AddressTaproot s => exists p, length p = 32%nat /\ s = mkSegWit (Bech32HRPSegwit net) x01 p
  | AddressPayToAnchor hrp => hrp = Bech32HRPSegwit net
  end.

Lemma known_hrp net :
  known_net net ->
  let hrp := Bech32HRPSegwit net in
  hrp <> [] /\ Forall printable hrp /\ ToLower hrp = hrp /\ length hrp = 2%nat /\ hrp ∈ knownBech32Prefixes.
Proof.
  assert (Hp : forall c, (33 <=? b2z c) && (b2z c <=? 126) = true -> printable c).
  { intros c Hc. apply andb_true_iff in Hc as [H1 H2]. unfold printable. lia. }
  intros [->| ->]; (split; [discriminate|]); (split; [repeat (constructor; [by apply Hp|]); constructor|]);
    (split; [reflexivity|]); (split; [reflexivity|]); unfold knownBech32Prefixes; rewrite !elem_of_cons; tauto.
Qed.

(** A segwit string of a network goes to its branch of the decoder. *)
Lemma DecodeAddress_segwit net ver prog :
  known_net net -> (2 <= length prog <= 40)%nat ->
  ((ver = x00 /\ (length prog = 20%nat \/ length prog = 32%nat)) \/ ver = x01) ->
  exists s, segwit_EncodeAddress (Bech32HRPSegwit net) ver prog = s /\
    decodeSegWitAddress s = Ok (ver, prog) /\
    encodeSegWitAddress (Bech32HRPSegwit net) ver prog = Ok s /\
    DecodeAddress ParsePubKey s net = decode_segwit s (Bech32HRPSegwit net).
Proof.
  intros Hnet Hl Hver. destruct (known_hrp net Hnet) as (Hne & Hp & Hlow & Hh & Hk).
  destruct (encodeSegWit_spec (Bech32HRPSegwit net) ver prog) as (s & He & Hd & Hi & Ht);
    [split_and!; try done; lia|].
  exists s. unfold segwit_EncodeAddress. rewrite He. split; [done|]. split; [done|]. split; [done|].
  unfold DecodeAddress, segwit_prefix. rewrite Hi, Hh in *. cbn [Nat.ltb Nat.leb]. cbv zeta.
  unfold IsBech32SegwitPrefix.
  assert (Hs : (3 <= length s)%nat).
  { apply LastIndexByte_some in Hi. apply (f_equal length) in Hi.
    rewrite length_app, length_take in Hi. cbn [length] in Hi. lia. }
  rewrite length_take, (Nat.min_l 3) by lia. cbn [Nat.sub Nat.add]. rewrite take_take. cbn [Nat.min].
  rewrite Ht. rewrite bool_decide_eq_true_2 by done. done.
Qed.

Lemma DecodeAddress_hex net f k :
  key_laws -> DecodeAddress ParsePubKey
    (hex_EncodeToString (serialize SerializeCompressed SerializeUncompressed f k)) net =
  Ok (AddressPubKey f k (PubKeyHashAddrID net)).
Proof.
  intros [Hpc Hpu Hlc Hlu Hhc Hhu]. unfold DecodeAddress. rewrite hex_not_segwit.
  rewrite length_hex_EncodeToString, hex_Decode_Encode. unfold NewAddressPubKey.
  destruct f; cbn [serialize].
  - rewrite Hlu, Hpu, Hhu. reflexivity.
  - rewrite Hlc, Hpc. cbn [Nat.mul Nat.add Nat.eqb orb]. cbv zeta. do 2 f_equal.
    by destruct (Hhc k) as [->| ->].
Qed.

Lemma DecodeAddress_base58 net h id :
  known_net net -> length h = 20%nat -> id = PubKeyHashAddrID net \/ id = ScriptHashAddrID net ->
  exists s, encodeAddress h id = Some s /\
    DecodeAddress ParsePubKey s net =
      Ok (if bool_decide (id = PubKeyHashAddrID net) then AddressPubKeyHash h id else AddressScriptHash h id).
Proof using Type.
  intros Hnet Hh Hid. unfold encodeAddress. rewrite take_ge by lia.
  destruct (CheckDecode_CheckEncode h id) as (s & He & Hd). exists s. split; [done|].
  assert (Hid' : id = x00 \/ id = x05 \/ id = x6f \/ id = xc4)
    by (clear -Hnet Hid; destruct Hnet as [->| ->], Hid as [->| ->]; cbn; tauto).
  unfold DecodeAddress. rewrite (CheckEncode_not_segwit h id s Hh Hid' He).
  pose proof (CheckEncode_length h id s Hh He).
  destruct (Nat.eqb_spec (length s) 130); [lia|]. destruct (Nat.eqb_spec (length s) 66); [lia|]. cbn [orb].
  unfold decode_base58. rewrite Hd, Hh. cbn [Nat.eqb negb].
  unfold newAddressPubKeyHash, newAddressScriptHashFromHash. rewrite Hh.
  by destruct Hnet as [->| ->], Hid as [->| ->].
Qed.

End laws.

(** On the main and the test network every address of every kind is decoded from
    the string it is written as, back to itself; the string of one kind is never
    taken for another. *)
Theorem DecodeAddress_String {PublicKey}
    (ParsePubKey : list byte -> option PublicKey) (SerializeCompressed SerializeUncompressed : PublicKey -> list byte)
    (ripemd160 : list byte -> list byte)
    (Hkeys : key_laws ParsePubKey SerializeCompressed SerializeUncompressed)
    (net : Params) (Hnet : known_net net) (a : Address PublicKey) (Ha : address_ok net a) :
  exists s, Address_String SerializeCompressed SerializeUncompressed ripemd160 a = Some s /\
    DecodeAddress ParsePubKey s net = Ok a /\ IsForNet a net = true.
Proof.
  destruct (known_hrp net Hnet) as (_ & _ & Hlow & _).
  destruct a as [h id|h id|f k id|s|s|s|hrp]; cbn [address_ok Address_String EncodeAddress IsForNet] in *;
    unfold AddressPubKeyHash_IsForNet, AddressScriptHash_IsForNet, AddressPubKey_IsForNet,
      AddressSegWit_IsForNet, AddressPayToAnchor_IsForNet, AddressPubKeyHash_EncodeAddress,
      AddressScriptHash_EncodeAddress, AddressPayToAnchor_EncodeAddress in *.
  - destruct Ha as [Hh ->]. destruct (DecodeAddress_base58 ParsePubKey net h _ Hnet Hh (or_introl eq_refl)) as (s & He & Hd).
    exists s. rewrite bool_decide_eq_true_2 in * by done. done.
  - destruct Ha as [Hh ->]. destruct (DecodeAddress_base58 ParsePubKey net h _ Hnet Hh (or_intror eq_refl)) as (s & He & Hd).
    exists s. rewrite (bool_decide_eq_true_2 (ScriptHashAddrID net = _)) by done. split; [done|]. split; [|done].
    rewrite Hd. by destruct Hnet as [->| ->].
  - subst id. eexists. split; [done|]. rewrite bool_decide_eq_true_2 by done. split; [|done]. by apply DecodeAddress_hex.
  - destruct Ha as (p & Hp & ->).
    destruct (DecodeAddress_segwit ParsePubKey net x00 p Hnet ltac:(lia) ltac:(left; auto)) as (s & He & Hd & _ & Hda).
    cbn [hrp witnessVersion witnessProgram]. exists s. rewrite He, Hda, bool_decide_eq_true_2 by done.
    split; [done|]. split; [|done]. unfold decode_segwit. rewrite Hd. cbn. rewrite Hp.
    unfold newAddressWitnessPubKeyHash. by rewrite Hp, Hlow.
  - destruct Ha as (p & Hp & ->).
    destruct (DecodeAddress_segwit ParsePubKey net x00 p Hnet ltac:(lia) ltac:(left; auto)) as (s & He & Hd & _ & Hda).
    cbn [hrp witnessVersion witnessProgram]. exists s. rewrite He, Hda, bool_decide_eq_true_2 by done.
    split; [done|]. split; [|done]. unfold decode_segwit. rewrite Hd. cbn. rewrite Hp.
    unfold newAddressWitnessScriptHash. by rewrite Hp, Hlow.
  - destruct Ha as (p & Hp & ->).
    destruct (DecodeAddress_segwit ParsePubKey net x01 p Hnet ltac:(lia) ltac:(right; auto)) as (s & He & Hd & _ & Hda).
    cbn [hrp witnessVersion witnessProgram]. exists s. rewrite He, Hda, bool_decide_eq_true_2 by done.
    split; [done|]. split; [|done]. unfold decode_segwit. rewrite Hd. cbn. rewrite Hp.
    unfold newAddressTaproot. by rewrite Hp, Hlow.
  - subst hrp.
    destruct (DecodeAddress_segwit ParsePubKey net x01 payToAnchorWitnessProgram Hnet ltac:(cbn; lia) ltac:(right; auto))
      as (s & He & Hd & _ & Hda).
    exists s. rewrite He, Hda, bool_decide_eq_true_2 by done. split; [done|]. split; [|done].
    unfold decode_segwit. rewrite Hd. cbn. unfold newAddressPayToAnchor. by rewrite Hlow.
Qed.

(** A model of the laws of keys, with one key. *)
Definition one_key_compressed (_ : unit) : list byte := x02 :: repeat x00 32.
Definition one_key_uncompressed (_ : unit) : list byte := x04 :: repeat x00 64.
Definition one_key_parse (_ : list byte) : option unit := Some tt.

Lemma one_key_laws : key_laws one_key_parse one_key_compressed one_key_uncompressed.
Proof. split; intros []; try done. by left. Qed.

Lemma DecodeAddress_String_witness :
  exists s, Address_String one_key_compressed one_key_uncompressed (fun _ => repeat x00 20)
      (AddressTaproot (mkSegWit (bytes_of "nc") x01 (repeat x07 32))) = Some s /\
    DecodeAddress one_key_parse s MainNetParams = Ok (AddressTaproot (mkSegWit (bytes_of "nc") x01 (repeat x07 32))) /\
    IsForNet (AddressTaproot (PublicKey := unit) (mkSegWit (bytes_of "nc") x01 (repeat x07 32))) MainNetParams = true.
Proof.
  apply (DecodeAddress_String one_key_parse one_key_compressed one_key_uncompressed (fun _ => repeat x00 20)
    one_key_laws MainNetParams (or_introl eq_refl) (AddressTaproot (mkSegWit (bytes_of "nc") x01 (repeat x07 32)))).
  exists (repeat x07 32). split; reflexivity.
Defined.

(** A string of version 1 with a program of 20 bytes is decoded as an address of
    version 0, which is written as another string and paid with another script. *)
Theorem DecodeAddress_wrong_version {PublicKey}
    (ParsePubKey : list byte -> option PublicKey) (net : Params) (Hnet : known_net net)
    (prog : list byte) (Hp : length prog = 20%nat) :
  exists s s', encodeSegWitAddress (Bech32HRPSegwit net) x01 prog = Ok s /\
    let a := AddressWitnessPubKeyHash (mkSegWit (Bech32HRPSegwit net) x00 prog) in
    DecodeAddress ParsePubKey s net = Ok a /\
    (forall c u r, EncodeAddress c u r a = Some s') /\ s' <> s.
Proof.
  destruct (known_hrp net Hnet) as (_ & _ & Hlow & _).
  destruct (DecodeAddress_segwit ParsePubKey net x01 prog Hnet ltac:(lia) ltac:(right; auto))
    as (s & _ & Hd & He & Hda).
  destruct (DecodeAddress_segwit ParsePubKey net x00 prog Hnet ltac:(lia) ltac:(left; auto))
    as (s' & He' & Hd' & _ & _).
  exists s, s'. split; [done|]. cbv zeta. split; [|split].
  - rewrite Hda. unfold decode_segwit. rewrite Hd. cbn. rewrite Hp. unfold newAddressWitnessPubKeyHash.
    by rewrite Hp, Hlow.
  - intros c u r. cbn. by rewrite He'.
  - intros ->. rewrite Hd in Hd'. discriminate.
Qed.

Lemma DecodeAddress_wrong_version_witness :
  exists s, encodeSegWitAddress (bytes_of "nc") x01 (repeat x00 20) = Ok s /\
    DecodeAddress one_key_parse s MainNetParams =
      Ok (AddressWitnessPubKeyHash (mkSegWit (bytes_of "nc") x00 (repeat x00 20))).
Proof.
  destruct (DecodeAddress_wrong_version one_key_parse MainNetParams (or_introl eq_refl) (repeat x00 20) eq_refl)
    as (s & s' & He & Hd & _).
  exact (ex_intro _ s (conj He Hd)).
Defined.

(** Upper case strings, which bech32 allows and [decodeSegWitAddress] accepts,
    are not recognised, as the known prefixes are in lower case. *)
Example DecodeAddress_upper_case :
  exists lower, encodeSegWitAddress (bytes_of "nc") x01 (repeat x01 32) = Ok lower /\
    let upper := map (fun c => if is_lower c then z2b (b2z c - 32) else c) lower in
    decodeSegWitAddress upper = Ok (x01, repeat x01 32) /\
    DecodeAddress one_key_parse upper MainNetParams = Err ErrUnknownFormat.
Proof. eexists. split; [vm_compute; reflexivity|]. split; vm_compute; reflexivity. Qed.

(** ** Soundness *)

Lemma decodeSegWit_sound s ver prog :
  decodeSegWitAddress s = Ok (ver, prog) -> ver = x00 \/ ver = x01 ->
  exists hrp d5 r, DecodeNoLimitWithVersion s = Ok r /\ Forall is_digit (ver :: d5) /\
    ConvertBits prog 8 5 true = Ok d5 /\ encodeGeneric hrp (ver :: d5) (version_of ver) = Ok (ToLower s).
Proof.
  unfold decodeSegWitAddress, DecodeGeneric. destruct (90 <? length s)%nat; [done|].
  destruct (DecodeNoLimitWithVersion s) as [[[hrp data] v]|] eqn:Ed; [|done].
  destruct (decode_sound _ _ _ _ Ed) as (He & _ & _ & Hdig & _).
  cbn [lift_bech32 mbind result_bind]. destruct data as [|w d5]; [done|]. destruct (16 <? b2z w); [done|].
  destruct (ConvertBits d5 5 8 false) as [p|] eqn:Ec; [|done]. cbn [lift_bech32 mbind result_bind].
  destruct (_ || _); [done|]. destruct (_ && _ && _); [done|].
  destruct ((b2z w =? 0) && _) eqn:E0; [done|]. destruct ((b2z w =? 1) && _) eqn:E1; [done|].
  intros [= -> ->] Hver. exists hrp, d5, (hrp, ver :: d5, v).
  split; [done|]. split; [done|]. split.
  - apply ConvertBits_5_8_sound; [|done]. by apply Forall_cons_iff in Hdig as [_ ?].
  - rewrite <- He. f_equal. unfold version_of. by destruct Hver as [->| ->], v.
Qed.

(** Decoding a segwit string and writing its parts again. *)
Lemma decodeSegWit_encode s h ver prog :
  decodeSegWitAddress s = Ok (ver, prog) -> ver = x00 \/ ver = x01 -> segwit_prefix s = Some h ->
  ToLower h = h /\ segwit_EncodeAddress h ver prog = s.
Proof.
  intros Hd Hver Hp. destruct (segwit_prefix_known _ _ Hp) as (Hi & Ht & Hk & c1 & c2 & r & Hs & Hh).
  assert (Hlow : existsb is_lower s = true).
  { rewrite Hs. subst h. by destruct (known_prefix_cases _ _ Hk) as [[-> ->]|[-> ->]]. }
  destruct (decodeSegWit_sound _ _ _ Hd Hver) as (hrp & d5 & r' & Hdec & Hdig & Hc & He).
  rewrite (decode_lower _ _ Hdec Hlow) in He.
  destruct (encode_separator _ _ _ _ Hdig He) as [Hi' Ht'].
  assert (Hl : length h = length hrp) by congruence. rewrite <- Hl, Ht in Ht'.
  split; [rewrite Ht'; apply ToLower_idem|].
  rewrite <- encodeGeneric_ToLower, <- Ht' in He.
  unfold segwit_EncodeAddress, encodeSegWitAddress. rewrite Hc. cbn [lift_bech32 mbind result_bind]. cbv zeta.
  assert (Hb : (if b2z ver =? 0 then lift_bech32 (Bech32.Encode h (ver :: d5))
        else if b2z ver =? 1 then lift_bech32 (EncodeM h (ver :: d5)) else Err ErrSegWitData) = Ok s)
    by (destruct Hver as [->| ->]; exact (f_equal lift_bech32 He)).
  rewrite Hb. cbn [mbind result_bind]. rewrite Hd. cbn [mbind result_bind].
  by rewrite !bool_decide_eq_true_2 by done.
Qed.

(** An address is written as the string it was decoded from: no other string is
    decoded to it, but for public keys, which have several forms, and for
    programs of 20 bytes under version 1. *)
Theorem DecodeAddress_sound {PublicKey}
    (ParsePubKey : list byte -> option PublicKey) (SerializeCompressed SerializeUncompressed : PublicKey -> list byte)
    (ripemd160 : list byte -> list byte) (s : list byte) (net : Params) (a : Address PublicKey) :
  DecodeAddress ParsePubKey s net = Ok a ->
  Address_String SerializeCompressed SerializeUncompressed ripemd160 a = Some s \/
  (exists f k, a = AddressPubKey f k (PubKeyHashAddrID net)) \/
  (exists p, decodeSegWitAddress s = Ok (x01, p) /\ length p = 20%nat).
Proof.
  unfold DecodeAddress. destruct (segwit_prefix s) as [h|] eqn:Ep.
  - unfold decode_segwit. destruct (decodeSegWitAddress s) as [[ver prog]|] eqn:Ed; [|done].
    cbn [mbind result_bind]. destruct (negb (b2z ver =? 0) && negb (b2z ver =? 1)) eqn:Ev; [done|].
    assert (Hver : ver = x00 \/ ver = x01).
    { destruct (Z.eqb_spec (b2z ver) 0) as [E|_]; [left; by apply b2z_inj|].
      destruct (Z.eqb_spec (b2z ver) 1) as [E|_]; [right; by apply b2z_inj|done]. }
    destruct (decodeSegWit_encode s h ver prog Ed Hver Ep) as [Hh Hs].
    destruct (decide (length prog = 20%nat)) as [E20|N20].
    + rewrite E20. unfold newAddressWitnessPubKeyHash. rewrite E20. cbn [Nat.eqb negb]. rewrite Hh. intros [= <-].
      destruct Hver as [->| ->]; [left; exact (f_equal Some Hs)|right; right; by exists prog].
    + destruct (decide (length prog = 32%nat)) as [E32|N32].
      * rewrite E32. unfold newAddressTaproot, newAddressWitnessScriptHash. rewrite E32. cbn [Nat.eqb negb]. rewrite Hh.
        destruct Hver as [->| ->]; cbn; intros [= <-]; left; exact (f_equal Some Hs).
      * destruct (decide (length prog = 2%nat)) as [E2|N2].
        -- rewrite E2. destruct (Z.eqb_spec (b2z ver) 1) as [E|_]; [|done]. cbn [andb].
           case_bool_decide as Hanchor; [|done]. unfold newAddressPayToAnchor. rewrite Hh. intros [= <-].
           apply (b2z_inj ver x01) in E as ->. left. rewrite Hanchor in Hs. exact (f_equal Some Hs).
        -- clear -N20 N32 N2. revert N20 N32 N2. generalize (length prog). intros n N20 N32 N2 H. exfalso.
           do 33 (destruct n as [|n]; [solve [done|discriminate]|]). discriminate.
  - destruct ((length s =? 130)%nat || (length s =? 66)%nat).
    + destruct (hex_Decode s) as [k|]; [|done]. unfold NewAddressPubKey. destruct (ParsePubKey k); [|done].
      intros [= <-]. right. left. by eexists _, _.
    + unfold decode_base58. destruct (CheckDecode s) as [[d id]|e] eqn:Ec; [|by destruct e].
      apply CheckDecode_encodes in Ec. destruct (Nat.eqb_spec (length d) 20) as [E|]; [|done]. cbn [negb].
      unfold newAddressPubKeyHash, newAddressScriptHashFromHash. rewrite E. cbn [Nat.eqb negb].
      destruct (bool_decide _) eqn:E1, (bool_decide (id = ScriptHashAddrID net)) eqn:E2; cbn [andb]; try done;
        intros [= <-]; left; cbn; unfold encodeAddress; rewrite take_ge by lia; done.
Qed.

(** The address of the first block's output. *)
Definition genesisCoinbaseAddress : list byte := bytes_of "1Dqbr8L29Yirs8EVhNmmikB4DLMwU5Akm7".

Lemma DecodeAddress_sound_witness :
  exists h, let a := AddressPubKeyHash (PublicKey := unit) h x00 in
    DecodeAddress one_key_parse genesisCoinbaseAddress MainNetParams = Ok a /\
    (Address_String one_key_compressed one_key_uncompressed (fun _ => []) a = Some genesisCoinbaseAddress \/
     (exists f k, a = AddressPubKey f k x00) \/
     (exists p, decodeSegWitAddress genesisCoinbaseAddress = Ok (x01, p) /\ length p = 20%nat)).
Proof.
  eexists. cbv zeta.
  assert (Hd : DecodeAddress one_key_parse genesisCoinbaseAddress MainNetParams = Ok (AddressPubKeyHash _ x00))
    by (vm_compute; reflexivity).
  split; [exact Hd|].
  exact (DecodeAddress_sound one_key_parse one_key_compressed one_key_uncompressed (fun _ => [])
    genesisCoinbaseAddress MainNetParams _ Hd).
Defined.
