(* ===== verification/TxSort.v ===== *)
(** * nogoutil/txsort: the canonical order of inputs and outputs (BIP 69)

    [sort.Sort] belongs to Go's library and its algorithm has changed between
    releases: the class [Sorter] states what its documentation promises, and
    [insertion] is the one it uses on short slices.  The theorems hold for any
    sorter, and two different ones give the same transaction. *)

From Stdlib Require Import ZArith Lia.
From stdpp Require Import sorting.
From S2P Require Import Prelude WireTx.

Open Scope Z_scope.

(** ** Go's sort *)

(** [sort.IsSorted]: no element is less than the one before it. *)
Fixpoint sort_IsSorted {A} (Less : A -> A -> bool) (s : list A) : bool :=
  match s with
  | x :: (y :: _) as s' => negb (Less y x) && sort_IsSorted Less s'
  | _ => true
  end.

(** A strict weak order on the values of [P], what [sort.Interface] asks of
    [Less]. *)
Record strict_weak {A} (P : A -> Prop) (Less : A -> A -> bool) : Prop := {
  sw_asym x y : P x -> P y -> Less x y = true -> Less y x = false;
  sw_trans x y z : P x -> P y -> P z -> Less y x = false -> Less z y = false -> Less z x = false;
}.

(** The result of [sort.Sort] is made by swaps alone and is sorted. *)
Class Sorter : Type := {
  sort_Sort : forall {A}, (A -> A -> bool) -> list A -> list A;
  sort_Sort_perm : forall {A} (Less : A -> A -> bool) s, sort_Sort Less s ≡ₚ s;
  sort_Sort_sorted : forall {A} (P : A -> Prop) (Less : A -> A -> bool) s,
    strict_weak P Less -> Forall P s -> sort_IsSorted Less (sort_Sort Less s) = true;
}.

(** Insertion into a reversed sorted prefix, and the sort of short slices. *)
Fixpoint insert_back {A} (Less : A -> A -> bool) (x : A) (r : list A) : list A :=
  match r with
  | y :: r' => if Less x y then y :: insert_back Less x r' else x :: r
  | [] => [x]
  end.
Definition insertionSort {A} (Less : A -> A -> bool) (s : list A) : list A :=
  rev (fold_left (fun r x => insert_back Less x r) s []).

(** ** The package *)

(** The loop that reverses a hash: [hash[b]] and [hash[31-b]] exchanged for the
    first half of the indices. *)
Definition swap_at (h : list byte) (b : nat) : list byte :=
  let i := nth b h Byte.x00 in
  let j := nth (31 - b) h Byte.x00 in
  <[(31 - b)%nat := i]> (<[b := j]> h).
Definition reverse_hash (h : list byte) : list byte :=
  fold_left swap_at (seq 0 16) h.

Definition sortableInputSlice_Less (si sj : TxIn) : bool :=
  let ihash := OutPoint_Hash (TxIn_PreviousOutPoint si) in
  let jhash := OutPoint_Hash (TxIn_PreviousOutPoint sj) in
  if decide (ihash = jhash)
  then OutPoint_Index (TxIn_PreviousOutPoint si) <? OutPoint_Index (TxIn_PreviousOutPoint sj)
  else match bytes_Compare (reverse_hash ihash) (reverse_hash jhash) with Lt => true | _ => false end.

Definition sortableOutputSlice_Less (si sj : TxOut) : bool :=
  if TxOut_Value si =? TxOut_Value sj
  then match bytes_Compare (TxOut_PkScript si) (TxOut_PkScript sj) with Lt => true | _ => false end
  else TxOut_Value si <? TxOut_Value sj.

Section txsort.
Context `{Sorter}.

Definition InPlaceSort (tx : MsgTx) : MsgTx :=
  mkMsgTx (MsgTx_Version tx)
    (sort_Sort sortableInputSlice_Less (MsgTx_TxIn tx))
    (sort_Sort sortableOutputSlice_Less (MsgTx_TxOut tx))
    (MsgTx_LockTime tx).

Definition Sort (tx : MsgTx) : MsgTx :=
  let txCopy := MsgTx_Copy tx in
  mkMsgTx (MsgTx_Version txCopy)
    (sort_Sort sortableInputSlice_Less (MsgTx_TxIn txCopy))
    (sort_Sort sortableOutputSlice_Less (MsgTx_TxOut txCopy))
    (MsgTx_LockTime txCopy).
End txsort.

Definition IsSorted (tx : MsgTx) : bool :=
  if negb (sort_IsSorted sortableInputSlice_Less (MsgTx_TxIn tx)) then false
  else if negb (sort_IsSorted sortableOutputSlice_Less (MsgTx_TxOut tx)) then false
  else true.

(** * Specification *)

(** A hash of 32 bytes as the number its display shows. *)
Definition hash_number (h : list byte) : Z := le_get h.

(** The key of an input: the hash, then the index. *)
Definition input_key (ti : TxIn) : Z :=
  hash_number (OutPoint_Hash (TxIn_PreviousOutPoint ti)) * 2 ^ 32 +
  OutPoint_Index (TxIn_PreviousOutPoint ti).
Definition outpoint_ok (op : OutPoint) : Prop :=
  length (OutPoint_Hash op) = 32%nat /\ 0 <= OutPoint_Index op < 2 ^ 32.
Definition inputs_ok (tx : MsgTx) : Prop :=
  Forall (fun ti => outpoint_ok (TxIn_PreviousOutPoint ti)) (MsgTx_TxIn tx).
(** No output is spent twice. *)
Definition distinct_outpoints (tx : MsgTx) : Prop :=
  NoDup (map TxIn_PreviousOutPoint (MsgTx_TxIn tx)).

(** * Proofs *)

Lemma sort_IsSorted_spec {A} (Less : A -> A -> bool) s :
  sort_IsSorted Less s = true <-> Sorted (fun x y => Less y x = false) s.
Proof.
  induction s as [|x s IH]; [split; [constructor|done]|].
  destruct s as [|y s]; [split; [by repeat constructor|done]|]. cbn [sort_IsSorted].
  rewrite andb_true_iff, negb_true_iff, IH. split.
  - intros [H1 H2]. constructor; [done|by constructor].
  - intros Hs. apply Sorted_inv in Hs as [Hs Hx]. by apply HdRel_inv in Hx.
Qed.

Lemma insert_back_perm {A} (Less : A -> A -> bool) x r : insert_back Less x r ≡ₚ x :: r.
Proof.
  induction r as [|y r IH]; [done|]. cbn. destruct (Less x y); [|done]. rewrite IH. apply Permutation_swap.
Qed.

Lemma insert_back_sorted {A} (P : A -> Prop) (Less : A -> A -> bool) x r :
  strict_weak P Less -> P x -> Forall P r ->
  Sorted (fun x y => Less x y = false) r -> Sorted (fun x y => Less x y = false) (insert_back Less x r).
Proof.
  intros Hsw Hx. induction r as [|y r IH]; intros Hp Hs; [repeat constructor|]. cbn.
  apply list.Forall_cons in Hp as [Hpy Hp].
  destruct (Less x y) eqn:E; [|constructor; [done|by constructor]].
  apply Sorted_inv in Hs as [Hs Hy]. constructor; [by apply IH|].
  destruct r as [|z r]; cbn; [constructor; by eapply sw_asym|].
  apply HdRel_inv in Hy. destruct (Less x z); constructor; [done|by eapply sw_asym].
Qed.

Lemma Sorted_rev {A} (R : A -> A -> Prop) l : Sorted R l -> Sorted (fun x y => R y x) (rev l).
Proof.
  induction l as [|x l IH]; intros Hs; [constructor|]. apply Sorted_inv in Hs as [Hs Hx]. cbn.
  apply Sorted_snoc; [by apply IH|]. destruct l as [|z l]; [constructor|].
  apply HdRel_inv in Hx. cbn. by constructor.
Qed.

Lemma insertionSort_inv {A} (P : A -> Prop) (Less : A -> A -> bool) s r :
  fold_left (fun r x => insert_back Less x r) s r ≡ₚ s ++ r /\
  (strict_weak P Less -> Forall P s -> Forall P r -> Sorted (fun x y => Less x y = false) r ->
   Sorted (fun x y => Less x y = false) (fold_left (fun r x => insert_back Less x r) s r)).
Proof.
  revert r. induction s as [|x s IH]; intros r; [done|]. cbn. destruct (IH (insert_back Less x r)) as [H1 H2].
  split.
  - rewrite H1, insert_back_perm. by rewrite Permutation_middle.
  - intros Hsw Hp Hr Hs. apply list.Forall_cons in Hp as [Hx Hp]. apply H2; [done|done| |by eapply insert_back_sorted].
    by rewrite insert_back_perm; constructor.
Qed.

#[export] Program Instance insertion : Sorter := {| sort_Sort A Less s := insertionSort Less s |}.
Next Obligation.
  intros A Less s. unfold insertionSort. rewrite <- Permutation_rev.
  rewrite (proj1 (insertionSort_inv (fun _ => True) Less s [])). by rewrite app_nil_r.
Qed.
Next Obligation.
  intros A P Less s Hsw Hp. apply sort_IsSorted_spec. unfold insertionSort.
  apply (Sorted_rev (fun x y => Less x y = false)), (insertionSort_inv P Less s []); [done|done|apply Forall_nil_2|constructor].
Qed.

(** ** The two orders *)

Lemma reverse_hash_rev h : length h = 32%nat -> reverse_hash h = rev h.
Proof.
  intros Hl. do 32 (destruct h as [|? h]; [discriminate Hl|]). destruct h; [vm_compute; reflexivity|discriminate Hl].
Qed.

(** The comparison of inputs is the order of their keys. *)
Lemma Less_input_key a b :
  outpoint_ok (TxIn_PreviousOutPoint a) -> outpoint_ok (TxIn_PreviousOutPoint b) ->
  sortableInputSlice_Less a b = (input_key a <? input_key b).
Proof.
  destruct a as [[h i] sa wa qa], b as [[h' i'] sb wb qb]. intros [Hl Hi] [Hl' Hi'].
  unfold sortableInputSlice_Less, input_key, hash_number.
  cbn [TxIn_PreviousOutPoint OutPoint_Hash OutPoint_Index] in *. case_decide as E.
  - subst h'. generalize (le_get h). intros n. apply Bool.eq_true_iff_eq. rewrite !Z.ltb_lt. lia.
  - rewrite !reverse_hash_rev by done. rewrite bytes_Compare_be by (rewrite !length_rev; congruence).
    unfold be_get. rewrite !rev_involutive.
    assert (Hne : le_get h <> le_get h').
    { intros Heq. apply E. rewrite <- (le_put_get h), <- (le_put_get h'). congruence. }
    generalize dependent (le_get h). intros n. generalize dependent (le_get h'). intros m Hne.
    apply Bool.eq_true_iff_eq. rewrite Z.ltb_lt. destruct (Z.compare_spec n m); split; intros; try discriminate; try lia; reflexivity.
Qed.

Lemma strict_weak_key {A} (P : A -> Prop) (Less : A -> A -> bool) (key : A -> Z) :
  (forall a b, P a -> P b -> Less a b = (key a <? key b)) -> strict_weak P Less.
Proof.
  intros Hk. split.
  - intros x y Hx Hy. rewrite !Hk by done. rewrite Z.ltb_lt, Z.ltb_ge. lia.
  - intros x y z Hx Hy Hz. rewrite !Hk by done. rewrite !Z.ltb_ge. lia.
Qed.

Lemma Less_output_false x y : sortableOutputSlice_Less y x = false <->
  TxOut_Value x < TxOut_Value y \/
  TxOut_Value x = TxOut_Value y /\ ~ key_lt (TxOut_PkScript y) (TxOut_PkScript x).
Proof.
  unfold sortableOutputSlice_Less, key_lt.
  destruct (Z.eqb_spec (TxOut_Value y) (TxOut_Value x)) as [E|E].
  - destruct (bytes_Compare _ _); split; intros H0; try done; try (right; split; [lia|done]);
      destruct H0 as [?|[_ H0]]; first [lia|by destruct H0|done].
  - rewrite Z.ltb_ge. lia.
Qed.

Lemma key_lt_trichotomy a b : key_lt a b \/ a = b \/ key_lt b a.
Proof.
  unfold key_lt. destruct (bytes_Compare a b) eqn:E; [|by left|].
  - right. left. by apply bytes_Compare_eq.
  - right. right. by apply bytes_Compare_gt.
Qed.

Lemma key_le_trans a b c : ~ key_lt b a -> ~ key_lt c b -> ~ key_lt c a.
Proof.
  intros H1 H2 H3. destruct (key_lt_trichotomy a b) as [H|[->|H]]; [|done|done].
  apply H2. by eapply key_lt_trans.
Qed.

Lemma output_strict_weak : strict_weak (fun _ => True) sortableOutputSlice_Less.
Proof.
  split.
  - intros x y _ _. rewrite Less_output_false. unfold sortableOutputSlice_Less.
    destruct (Z.eqb_spec (TxOut_Value x) (TxOut_Value y)); [|rewrite Z.ltb_lt; lia].
    destruct (bytes_Compare _ _) eqn:E; try done. intros _. right. split; [done|]. intros Hk.
    apply (key_lt_irrefl (TxOut_PkScript x)). by eapply key_lt_trans.
  - intros x y z _ _ _. rewrite !Less_output_false. intros [H1|[H1 H2]] [H3|[H3 H4]]; [left; lia..|].
    right. split; [lia|]. by eapply key_le_trans.
Qed.

Lemma input_strict_weak :
  strict_weak (fun ti => outpoint_ok (TxIn_PreviousOutPoint ti)) sortableInputSlice_Less.
Proof. apply (strict_weak_key _ _ input_key). intros. by apply Less_input_key. Qed.

Lemma input_key_inj a b :
  outpoint_ok (TxIn_PreviousOutPoint a) -> outpoint_ok (TxIn_PreviousOutPoint b) ->
  input_key a = input_key b -> TxIn_PreviousOutPoint a = TxIn_PreviousOutPoint b.
Proof.
  destruct a as [[h i] sa wa qa], b as [[h' i'] sb wb qb]. intros [Hl Hi] [Hl' Hi']. unfold input_key, hash_number.
  cbn [TxIn_PreviousOutPoint OutPoint_Hash OutPoint_Index] in *. intros H.
  assert (le_get h = le_get h' /\ i = i') as [Hh ->].
  { revert H. generalize (le_get h), (le_get h'). intros n m H. change (2 ^ 32) with 4294967296 in *. lia. }
  f_equal. rewrite <- (le_put_get h), <- (le_put_get h'). congruence.
Qed.

Lemma map_inj_in {A B} (f : A -> B) l x y : NoDup (map f l) -> x ∈ l -> y ∈ l -> f x = f y -> x = y.
Proof.
  intros Hnd (i & Hi)%list_elem_of_lookup (j & Hj)%list_elem_of_lookup Hf.
  assert (i = j) as ->; [|congruence].
  apply (NoDup_lookup (map f l) i j (f x) Hnd); rewrite list_lookup_fmap.
  - by rewrite Hi.
  - by rewrite Hj, Hf.
Qed.

(** Inputs and outputs in order are determined by the set they come from. *)
Lemma inputs_unique l1 l2 :
  Forall (fun ti => outpoint_ok (TxIn_PreviousOutPoint ti)) l1 -> NoDup (map TxIn_PreviousOutPoint l1) ->
  l1 ≡ₚ l2 -> sort_IsSorted sortableInputSlice_Less l1 = true ->
  sort_IsSorted sortableInputSlice_Less l2 = true -> l1 = l2.
Proof.
  intros Hok Hnd Hp. rewrite !sort_IsSorted_spec. intros H1 H2.
  assert (Hok2 : Forall (fun ti => outpoint_ok (TxIn_PreviousOutPoint ti)) l2) by (by rewrite <- Hp).
  assert (Hs : forall l, Forall (fun ti => outpoint_ok (TxIn_PreviousOutPoint ti)) l ->
    Sorted (fun x y => sortableInputSlice_Less y x = false) l -> Sorted (fun x y => input_key x <= input_key y) l).
  { clear. induction l as [|x l IH]; intros Hok Hs; [constructor|].
    apply list.Forall_cons in Hok as [Hx Hok]. apply Sorted_inv in Hs as [Hs Hhd]. constructor; [by apply IH|].
    destruct l as [|y l]; constructor. apply list.Forall_cons in Hok as [Hy _]. apply HdRel_inv in Hhd.
    rewrite Less_input_key in Hhd by done. lia. }
  assert (Htr : Transitive (fun x y => input_key x <= input_key y)) by (intros x y z; lia).
  apply (Sorted_unique_strong (fun x y => input_key x <= input_key y)); [ |by apply Hs..|done].
  rewrite !list.Forall_forall in *. intros x y Hx Hy Hxy Hyx.
  apply (map_inj_in TxIn_PreviousOutPoint l1); [done|done|by rewrite Hp|].
  apply input_key_inj; [by apply Hok|by apply Hok2|lia].
Qed.

Lemma outputs_unique l1 l2 :
  l1 ≡ₚ l2 -> sort_IsSorted sortableOutputSlice_Less l1 = true ->
  sort_IsSorted sortableOutputSlice_Less l2 = true -> l1 = l2.
Proof.
  intros Hp. rewrite !sort_IsSorted_spec. intros H1 H2.
  assert (Htr : Transitive (fun x y => sortableOutputSlice_Less y x = false)).
  { intros x y z Hxy Hyz. by apply (sw_trans _ _ output_strict_weak x y z). }
  assert (Has : AntiSymm eq (fun x y => sortableOutputSlice_Less y x = false)); [|by eapply Sorted_unique].
  intros [v s] [v' s'] H3 H4. rewrite Less_output_false in H3, H4. cbn in *.
  destruct H3 as [H3|[H3 H5]], H4 as [H4|[H4 H6]]; [lia..|]. f_equal; [done|].
  by destruct (key_lt_trichotomy s s') as [?|[?|?]].
Qed.

Lemma IsSorted_spec tx : IsSorted tx = true <->
  sort_IsSorted sortableInputSlice_Less (MsgTx_TxIn tx) = true /\
  sort_IsSorted sortableOutputSlice_Less (MsgTx_TxOut tx) = true.
Proof. unfold IsSorted. do 2 destruct (sort_IsSorted _ _); cbn; intuition done. Qed.

Lemma Sort_InPlaceSort `{Sorter} tx : Sort tx = InPlaceSort (MsgTx_Copy tx).
Proof. done. Qed.

Lemma InPlaceSort_sorted `{Sorter} tx : inputs_ok tx -> IsSorted (InPlaceSort tx) = true.
Proof.
  intros Hok. apply IsSorted_spec. split; cbn.
  - by apply (sort_Sort_sorted _ _ _ input_strict_weak).
  - apply (sort_Sort_sorted _ _ _ output_strict_weak). by apply Forall_true.
Qed.

Lemma Copy_inputs tx : map TxIn_PreviousOutPoint (MsgTx_TxIn (MsgTx_Copy tx)) = map TxIn_PreviousOutPoint (MsgTx_TxIn tx).
Proof. cbn. rewrite map_map. apply map_ext. by intros [[h i] s w q]. Qed.

Lemma inputs_ok_map tx tx' :
  map TxIn_PreviousOutPoint (MsgTx_TxIn tx) ≡ₚ map TxIn_PreviousOutPoint (MsgTx_TxIn tx') -> inputs_ok tx -> inputs_ok tx'.
Proof.
  unfold inputs_ok. intros Hm. rewrite <- !(list.Forall_fmap TxIn_PreviousOutPoint outpoint_ok).
  unfold fmap. intros H. change (Forall outpoint_ok (map TxIn_PreviousOutPoint (MsgTx_TxIn tx'))). by rewrite <- Hm.
Qed.

(** * The correctness of the component *)

(** C: [Sort] returns a copy whose inputs and outputs are those of the
    transaction in another order, and that [IsSorted] accepts. *)
Theorem Sort_correct `{Sorter} tx (Hok : inputs_ok tx) :
  IsSorted (Sort tx) = true /\
  MsgTx_TxIn (Sort tx) ≡ₚ MsgTx_TxIn (MsgTx_Copy tx) /\
  MsgTx_TxOut (Sort tx) ≡ₚ MsgTx_TxOut tx /\
  MsgTx_Version (Sort tx) = MsgTx_Version tx /\ MsgTx_LockTime (Sort tx) = MsgTx_LockTime tx.
Proof.
  split.
  { rewrite Sort_InPlaceSort. apply InPlaceSort_sorted. eapply inputs_ok_map; [|done]. by rewrite Copy_inputs. }
  split; [apply sort_Sort_perm|]. split; [|done]. cbn [Sort MsgTx_TxOut]. rewrite sort_Sort_perm. cbn.
  rewrite (map_ext _ id); [by rewrite map_id|]. intros [v s]. cbn. by rewrite copy_script_id.
Qed.

(** C35: C: the order is canonical: two transactions that spend the same outpoints,
    each once, and pay the same outputs are sorted to one transaction, whatever
    the algorithms of [sort.Sort] on the two sides; in particular a transaction
    that [IsSorted] accepts is left as it is. *)
Theorem InPlaceSort_canonical (S1 S2 : Sorter) tx1 tx2
    (Hok : inputs_ok tx1) (Hd : distinct_outpoints tx1)
    (Hin : MsgTx_TxIn tx1 ≡ₚ MsgTx_TxIn tx2) (Hout : MsgTx_TxOut tx1 ≡ₚ MsgTx_TxOut tx2)
    (Hv : MsgTx_Version tx1 = MsgTx_Version tx2) (Hl : MsgTx_LockTime tx1 = MsgTx_LockTime tx2) :
  InPlaceSort (H := S1) tx1 = InPlaceSort (H := S2) tx2 /\
  (IsSorted tx1 = true -> InPlaceSort (H := S1) tx1 = tx1).
Proof.
  assert (Hgen : forall tx, IsSorted tx = true -> MsgTx_TxIn tx1 ≡ₚ MsgTx_TxIn tx -> MsgTx_TxOut tx1 ≡ₚ MsgTx_TxOut tx ->
    MsgTx_Version tx1 = MsgTx_Version tx -> MsgTx_LockTime tx1 = MsgTx_LockTime tx -> InPlaceSort (H := S1) tx1 = tx).
  { intros [v ins outs l] [Hs1 Hs2]%IsSorted_spec Hi Ho Hv' Hl'. cbn in *.
    pose proof (InPlaceSort_sorted (H := S1) tx1 Hok) as [Hr1 Hr2]%IsSorted_spec. cbn in *. unfold InPlaceSort. f_equal; [done| | |done].
    - apply inputs_unique; [by rewrite sort_Sort_perm| |by rewrite sort_Sort_perm|done|done].
      unfold distinct_outpoints in Hd. by rewrite (Permutation_map _ (sort_Sort_perm _ _)).
    - apply outputs_unique; [by rewrite sort_Sort_perm|done|done]. }
  split; [|intros Hs; by apply Hgen]. apply Hgen; [|cbn; by rewrite sort_Sort_perm..|done|done].
  apply InPlaceSort_sorted. eapply inputs_ok_map; [|exact Hok]. by rewrite Hin.
Qed.

(** A transaction with two inputs and three outputs out of order. *)
Definition sort_sample : MsgTx :=
  mkMsgTx 1
    [mkTxIn (mkOutPoint (repeat Byte.x01 31 ++ [Byte.x02]) 0) [] None 0;
     mkTxIn (mkOutPoint (Byte.x03 :: repeat Byte.x01 31) 1) [] None 0]
    [mkTxOut 5 [Byte.x02]; mkTxOut 5 [Byte.x01]; mkTxOut 3 []] 0.

Lemma Sort_correct_witness :
  IsSorted sort_sample = false /\ IsSorted (Sort sort_sample) = true.
Proof.
  split; [by vm_compute|]. apply (Sort_correct sort_sample). by repeat constructor.
Defined.

Lemma InPlaceSort_canonical_witness :
  InPlaceSort sort_sample = InPlaceSort (mkMsgTx 1 (rev (MsgTx_TxIn sort_sample)) (rev (MsgTx_TxOut sort_sample)) 0).
Proof.
  apply (InPlaceSort_canonical insertion insertion); try reflexivity.
  - by repeat constructor.
  - apply list.NoDup_cons. split; [|apply NoDup_singleton].
    intros Hin. apply list_elem_of_singleton in Hin. discriminate Hin.
  - apply Permutation_rev.
  - apply Permutation_rev.
Defined.
