(* ===== verification/ChanQueue.v ===== *)
(** * neutrino/chanutils/queue.go: the concurrent queue

    The goroutine of a queue, its producers and its consumers take turns; a turn is
    an event, and [step] is what it does, or [None] where it cannot happen (a
    channel that is not ready, a goroutine that has left).  The overflow is the
    linked list of [LRUList], operated as the code does.  A select whose several
    cases are ready lets any of the events happen. *)

From Stdlib Require Import ZArith Lia.
From S2P Require Import Prelude LRUList.

Open Scope Z_scope.

Section queue.
Context {T : Type}.

(** Where the goroutine is: not started, in [readLoop], emptying the overflow,
    gone. *)
Inductive phase : Type := Idle | Reading | Draining | Exited.

Record ConcurrentQueue : Type := mkQueue {
  q_phase : phase;
  q_in_closed : bool;          (* chanIn has been closed *)
  q_size : nat;                (* the capacity of chanOut *)
  q_out : list T;              (* the buffer of chanOut *)
  q_out_closed : bool;
  q_overflow : List T;
  q_quit : bool;               (* quit has been closed *)
}.

Definition NewConcurrentQueue (bufferSize : nat) : ConcurrentQueue :=
  mkQueue Idle false bufferSize [] false NewList false.

Definition set_phase (q : ConcurrentQueue) (p : phase) : ConcurrentQueue :=
  mkQueue p (q_in_closed q) (q_size q) (q_out q) (q_out_closed q) (q_overflow q) (q_quit q).
Definition set_out (q : ConcurrentQueue) (b : list T) : ConcurrentQueue :=
  mkQueue (q_phase q) (q_in_closed q) (q_size q) b (q_out_closed q) (q_overflow q) (q_quit q).
Definition set_overflow (q : ConcurrentQueue) (l : List T) : ConcurrentQueue :=
  mkQueue (q_phase q) (q_in_closed q) (q_size q) (q_out q) (q_out_closed q) l (q_quit q).

(** A turn.  [receiver] says whether a consumer is waiting on an unbuffered
    [chanOut]. *)
Inductive event : Type :=
| Start
| In (item : T) (receiver : bool)    (* chanIn <- item, received by the goroutine *)
| CloseIn                            (* close(chanIn) *)
| InClosed                           (* the goroutine receives !ok *)
| Feed (receiver : bool)             (* chanOut <- nextElement.Value *)
| Out                                (* item := <-chanOut, from the buffer *)
| Stop
| Quit                               (* the goroutine receives from quit *)
| Finish.                            (* the overflow is empty: close(chanOut) *)

(** [chanOut <- item]: into the buffer, or into the hands of a consumer; [None]
    when it would block. *)
Definition send (q : ConcurrentQueue) (item : T) (receiver : bool) : option (ConcurrentQueue * option T) :=
  if (length (q_out q) <? q_size q)%nat then Some (set_out q (q_out q ++ [item]), None)
  else if receiver && (q_size q =? 0)%nat then Some (q, Some item)
  else None.

Definition push_overflow (q : ConcurrentQueue) (item : T) : option (ConcurrentQueue * option T) :=
  '(l, _) ← List_PushBack (q_overflow q) item;
  Some (set_overflow q l, None).

(** [nextElement.Value] and [cq.overflow.Remove(nextElement)]. *)
Definition front_value (q : ConcurrentQueue) (e : nat) : option T :=
  x ← heap (q_overflow q) !! e; e_Value x.
Definition remove_front (q : ConcurrentQueue) (e : nat) : option ConcurrentQueue :=
  l ← List_Remove (q_overflow q) e; Some (set_overflow q l).

(** What a turn does, and the item it hands to a consumer. *)
Definition step (q : ConcurrentQueue) (ev : event) : option (ConcurrentQueue * option T) :=
  match ev, q_phase q with
  | Start, Idle => Some (set_phase q Reading, None)
  | Start, _ => Some (q, None)            (* sync.Once *)
  | In item receiver, Reading =>
      if q_in_closed q then None
      else
        nextElement ← List_Front (q_overflow q);
        match nextElement with
        | None => match send q item receiver with Some r => Some r | None => push_overflow q item end
        | Some _ => push_overflow q item
        end
  | CloseIn, _ =>
      if q_in_closed q then None
      else Some (mkQueue (q_phase q) true (q_size q) (q_out q) (q_out_closed q) (q_overflow q) (q_quit q), None)
  | InClosed, Reading => if q_in_closed q then Some (set_phase q Draining, None) else None
  | Feed receiver, (Reading | Draining) =>
      nextElement ← List_Front (q_overflow q);
      e ← nextElement;
      v ← front_value q e;
      '(q, o) ← send q v receiver;
      q ← remove_front q e;
      Some (q, o)
  | Out, _ => match q_out q with item :: rest => Some (set_out q rest, Some item) | [] => None end
  | Stop, _ => Some (mkQueue (q_phase q) (q_in_closed q) (q_size q) (q_out q) (q_out_closed q) (q_overflow q) true, None)
  | Quit, Reading => if q_quit q then Some (set_phase q Exited, None) else None
  | Quit, Draining =>
      nextElement ← List_Front (q_overflow q);
      _ ← nextElement;
      if q_quit q then Some (set_phase q Exited, None) else None
  | Finish, Draining =>
      nextElement ← List_Front (q_overflow q);
      match nextElement with
      | None => Some (mkQueue Exited (q_in_closed q) (q_size q) (q_out q) true (q_overflow q) (q_quit q), None)
      | Some _ => None
      end
  | _, _ => None
  end.

(** A sequence of turns and the items the consumers got. *)
Fixpoint run (q : ConcurrentQueue) (evs : list event) : option (ConcurrentQueue * list T) :=
  match evs with
  | [] => Some (q, [])
  | ev :: evs' =>
      '(q, o) ← step q ev;
      '(q, outs) ← run q evs';
      Some (q, option_list o ++ outs)
  end.

(** * Specification: an unbounded FIFO *)

Definition input (ev : event) : list T := match ev with In item _ => [item] | _ => [] end.
Definition inputs (evs : list event) : list T := concat (map input evs).

(** The items a queue holds, in order, and how it holds them. *)
Record holds (q : ConcurrentQueue) (buf over : list T) : Prop := {
  ho_buf : q_out q = buf;
  ho_over : exists es, lists (q_overflow q) es /\ es.*2 = over;
  ho_size : (length buf <= q_size q)%nat;
  ho_closed : q_out_closed q = true -> over = [] /\ q_phase q = Exited;
  ho_draining : q_phase q = Draining -> q_in_closed q = true;
  ho_exited : q_phase q = Exited -> q_quit q = true \/ q_out_closed q = true;
}.

(** The turns of the goroutine and of the consumers. *)
Definition internal (ev : event) : bool :=
  match ev with InClosed | Feed _ | Out | Finish => true | _ => false end.

(** The turns left once the producers have closed [chanIn]. *)
Definition phase_rank (p : phase) : nat :=
  match p with Idle | Reading => 2 | Draining => 1 | Exited => 0 end.
Definition todo (q : ConcurrentQueue) (buf over : list T) : nat :=
  2 * length over + length buf + phase_rank (q_phase q).
End queue.
#[global] Arguments ConcurrentQueue : clear implicits.
#[global] Arguments event : clear implicits.

(** * Proofs *)

Section proofs.
Context {T : Type}.
Implicit Types (q : ConcurrentQueue T) (buf over : list T).

Lemma New_holds n : holds (T := T) (NewConcurrentQueue n) [] [].
Proof. split; cbn; [done| |lia|done|done|done]. exists []. split; [apply NewList_lists|done]. Qed.

Lemma holds_Front q buf over : holds q buf over ->
  match over with
  | [] => List_Front (q_overflow q) = Some None
  | x :: over' => exists e, List_Front (q_overflow q) = Some (Some e) /\ front_value q e = Some x /\
      exists q', remove_front q e = Some q' /\ q' = set_overflow q (q_overflow q') /\
        exists es, lists (q_overflow q') es /\ es.*2 = over'
  end.
Proof.
  intros [_ (es & Hl & <-) _ _ _ _]. destruct es as [|[e v] es]; cbn; [by apply List_Front_lists in Hl|].
  exists e. split; [by apply List_Front_lists in Hl|]. split.
  - unfold front_value. pose proof (li_values _ _ Hl) as Hv. apply list.Forall_cons in Hv as [(x & Hx & Hv) _].
    by rewrite Hx.
  - destruct (Remove_lists (q_overflow q) [] e v es Hl) as (l' & Hr & Hl'). unfold remove_front. rewrite Hr.
    exists (set_overflow q l'). split_and!; [done|done|]. by exists es.
Qed.

Lemma holds_push q buf over item : holds q buf over ->
  q_out_closed q = false -> exists q', push_overflow q item = Some (q', None) /\ holds q' buf (over ++ [item]) /\
    q' = set_overflow q (q_overflow q').
Proof.
  intros [Hb (es & Hl & Ho) Hs Hc Hd] Hopen. destruct (PushBack_lists _ _ item Hl) as (l' & Hp & Hl').
  unfold push_overflow. rewrite Hp. exists (set_overflow q l'). split_and!; [done| |done].
  split; cbn; [done| |done| |done|done].
  - exists (es ++ [(l_new (q_overflow q), item)]). split; [done|]. by rewrite fmap_app, Ho.
  - by rewrite Hopen.
Qed.

Lemma send_holds q buf over item receiver q' o :
  holds q buf over -> send q item receiver = Some (q', o) ->
  exists buf', buf ++ [item] = option_list o ++ buf' /\ q' = set_out q buf' /\ holds q' buf' over /\
    (length buf' <= S (length buf))%nat.
Proof.
  intros Hh. pose proof Hh as [Hb (es & Hl & Ho) Hs Hc Hd Hx]. unfold send. rewrite Hb. nat_bool.
  - intros H'. injection H' as <- <-. exists (buf ++ [item]). cbn. rewrite length_app. cbn. split_and!; [done|done| |lia].
    split; cbn; [done|by exists es|rewrite length_app; cbn; lia|done|done|done].
  - destruct receiver; cbn [andb]; [|done]. nat_bool; [|done]. intros H'. injection H' as <- <-.
    assert (buf = []) as -> by (destruct buf; [done|cbn in *; lia]). exists []. split_and!; [done| |done|cbn; lia].
    destruct q. cbn in *. by subst.
Qed.

(** What every turn does: it keeps the order of the items, and one of the
    goroutine or of a consumer brings the end nearer. *)
Definition turn_ok q buf over (ev : event T) q' (o : option T) : Prop :=
  exists buf' over', holds q' buf' over' /\ buf ++ over ++ input ev = option_list o ++ buf' ++ over' /\
    (internal ev = true -> (todo q' buf' over' < todo q buf over)%nat /\
      q_in_closed q' = q_in_closed q /\ q_quit q' = q_quit q).

Lemma turn_same q buf over ev q' : holds q' buf over -> input ev = [] ->
  (internal ev = true -> (phase_rank (q_phase q') < phase_rank (q_phase q))%nat /\
     q_in_closed q' = q_in_closed q /\ q_quit q' = q_quit q) ->
  turn_ok q buf over ev q' None.
Proof.
  intros Hh Hi Ht. exists buf, over. rewrite Hi, app_nil_r. split_and!; [done|done|]. intros H.
  destruct (Ht H) as (? & ? & ?). unfold todo. split_and!; [lia|done|done].
Qed.

Lemma holds_open q buf over : holds q buf over -> q_phase q <> Exited -> q_out_closed q = false.
Proof. intros Hh Hp. destruct (q_out_closed q) eqn:E; [|done]. by destruct (ho_closed _ _ _ Hh E). Qed.

Lemma holds_phase q buf over p : holds q buf over ->
  (q_out_closed q = true -> p = Exited) -> (p = Draining -> q_in_closed q = true) ->
  (p = Exited -> q_quit q = true) -> holds (set_phase q p) buf over.
Proof.
  intros [Hb Hes Hs Hc Hd Hx] Hp Hp' Hp''. split; cbn; [done|done|done| |done|intros H; left; by apply Hp'']. intros H. split; [by apply Hc|by apply Hp].
Qed.

Lemma step_Start q buf over q' o : holds q buf over -> step q Start = Some (q', o) -> turn_ok q buf over Start q' o.
Proof.
  intros Hh H'. assert (holds q' buf over /\ o = None) as [H ->]; [|by apply turn_same].
  cbn in H'. destruct (q_phase q) eqn:Hp; injection H' as <- <-; (split; [|done]); [|done..].
  apply holds_phase; [done| |done|done]. by rewrite (holds_open _ _ _ Hh) by congruence.
Qed.

Lemma step_In q buf over item receiver q' o :
  holds q buf over -> step q (In item receiver) = Some (q', o) -> turn_ok q buf over (In item receiver) q' o.
Proof.
  intros Hh. cbn [step]. destruct (q_phase q) eqn:Hp; try done. destruct (q_in_closed q); [done|].
  assert (Hpush : push_overflow q item = Some (q', o) -> turn_ok q buf over (In item receiver) q' o).
  { intros H1. destruct (holds_push _ _ _ item Hh) as (q2 & H2 & Hh2 & _); [by apply (holds_open _ _ _ Hh); congruence|].
    rewrite H1 in H2. injection H2 as <- ->. exists buf, (over ++ [item]). by split_and!. }
  pose proof (holds_Front _ _ _ Hh) as Hf. destruct over as [|x over].
  - rewrite Hf. cbn [mbind option_bind]. destruct (send q item receiver) as [[q1 o1]|] eqn:Hsend; [|done].
    intros H'. injection H' as <- <-. destruct (send_holds _ _ _ _ _ _ _ Hh Hsend) as (buf' & He & _ & Hh' & _).
    exists buf', []. cbn [input app]. rewrite app_nil_r. by split_and!.
  - destruct Hf as (e & -> & _). done.
Qed.

Lemma step_Feed q buf over receiver q' o :
  holds q buf over -> step q (Feed receiver) = Some (q', o) -> turn_ok q buf over (Feed receiver) q' o.
Proof.
  intros Hh Hstep. assert (Hopen : q_out_closed q = false).
  { apply (holds_open _ _ _ Hh). intros Hp. cbn in Hstep. by rewrite Hp in Hstep. }
  assert ((nextElement ← List_Front (q_overflow q); e ← nextElement; v ← front_value q e;
    '(q1, o) ← send q v receiver; q1 ← remove_front q1 e; Some (q1, o)) = Some (q', o)) as H'
    by (cbn [step] in Hstep; by destruct (q_phase q)). clear Hstep.
  pose proof (holds_Front _ _ _ Hh) as Hf. destruct over as [|x over]; [by rewrite Hf in H'|].
  destruct Hf as (e & Hfr & Hv & q2 & Hr & Hq2 & es' & Hl' & Ho'). rewrite Hfr in H'. cbn [mbind option_bind] in H'.
  rewrite Hv in H'. cbn [mbind option_bind] in H'.
  destruct (send q x receiver) as [[q1 o1]|] eqn:Hsend; [|done]. cbn [mbind option_bind] in H'.
  destruct (send_holds _ _ _ _ _ _ _ Hh Hsend) as (buf' & He & Hq1 & Hh' & Hlen).
  unfold remove_front in *. subst q1. cbn [q_overflow set_out] in *.
  destruct (List_Remove (q_overflow q) e) as [l|]; [|done]. injection Hr as <-. cbn in H'. injection H' as <- <-.
  exists buf', over. split_and!.
  - destruct Hh' as [_ _ Hs' _ Hd' Hx']. split; cbn in *; [done|by exists es'|done|by rewrite Hopen|done|done].
  - cbn [input]. rewrite app_nil_r. change (x :: over) with ([x] ++ over). by rewrite app_assoc, He, <- app_assoc.
  - intros _. unfold todo. cbn. split_and!; [lia|done|done].
Qed.

Lemma step_Out q buf over q' o : holds q buf over -> step q Out = Some (q', o) -> turn_ok q buf over Out q' o.
Proof.
  intros [Hb Hes Hs Hc Hd Hx] Hstep. destruct (q_out q) as [|x rest] eqn:Hq.
  { cbn in Hstep. rewrite Hq in Hstep. by destruct (q_phase q). }
  assert (Some (set_out q rest, Some x) = Some (q', o)) as H'
    by (cbn [step] in Hstep; rewrite Hq in Hstep; by destruct (q_phase q)).
  injection H' as <- <-. exists rest, over. subst buf. cbn [input]. rewrite app_nil_r. split_and!; [|done|].
  - split; cbn in *; [done|done|lia|done|done|done].
  - intros _. unfold todo. cbn. split_and!; [lia|done|done].
Qed.

Lemma step_Quit q buf over q' o : holds q buf over -> step q Quit = Some (q', o) ->
  turn_ok q buf over Quit q' o /\ q' = set_phase q Exited /\ q_out_closed q = false.
Proof.
  intros Hh Hstep. pose proof (holds_Front _ _ _ Hh) as Hf.
  assert (q_phase q <> Exited) as Hp by (intros Hp; cbn in Hstep; by rewrite Hp in Hstep).
  assert (q' = set_phase q Exited /\ o = None /\ q_quit q = true) as (-> & -> & Hq).
  { cbn in Hstep. destruct (q_phase q); try done.
    - destruct (q_quit q); [|done]. by injection Hstep as <- <-.
    - destruct over as [|x over]; [by rewrite Hf in Hstep|]. destruct Hf as (e & Hf & _). rewrite Hf in Hstep.
      cbn in Hstep. destruct (q_quit q); [|done]. by injection Hstep as <- <-. }
  split_and!; [|done|by eapply holds_open]. apply turn_same; [by apply holds_phase|done|done].
Qed.

Lemma step_ok q buf over ev q' o : holds q buf over -> step q ev = Some (q', o) -> turn_ok q buf over ev q' o.
Proof.
  intros Hh Hstep. destruct ev as [|item receiver| | |receiver| | | |].
  - by apply step_Start.
  - by apply step_In.
  - cbn in Hstep. assert (Hc : q_in_closed q = false) by (destruct (q_in_closed q); [by destruct (q_phase q)|done]).
    rewrite Hc in Hstep. assert (o = None /\ holds q' buf over) as [-> H]; [|by apply turn_same].
    destruct Hh. destruct (q_phase q) eqn:Hp; injection Hstep as <- <-; (split; [done|by split]).
  - cbn in Hstep. destruct (q_phase q) eqn:Hp; try done. destruct (q_in_closed q) eqn:Hi; [|done].
    injection Hstep as <- <-. apply turn_same; [|done|].
    + apply holds_phase; [done| |done|done]. by rewrite (holds_open _ _ _ Hh) by congruence.
    + intros _. rewrite Hp. cbn. rewrite Hi. split_and!; [lia|done|done].
  - by apply step_Feed.
  - by apply step_Out.
  - cbn in Hstep. assert (o = None /\ holds q' buf over) as [-> H]; [|by apply turn_same].
    destruct Hh. destruct (q_phase q) eqn:Hp; injection Hstep as <- <-; (split; [done|split; cbn; try done; by left]).
  - by apply step_Quit.
  - cbn in Hstep. destruct (q_phase q) eqn:Hp; try done. pose proof (holds_Front _ _ _ Hh) as Hf.
    destruct over as [|x over]; [|by destruct Hf as (e & Hf & _); rewrite Hf in Hstep].
    rewrite Hf in Hstep. injection Hstep as <- <-. destruct Hh. apply turn_same; [split; cbn; try done; by right|done|].
    intros _. rewrite Hp. cbn. split_and!; [lia|done|done].
Qed.

(** Runs compose turns. *)
Lemma run_cons q ev evs q' outs : run q (ev :: evs) = Some (q', outs) <->
  exists q1 o outs', step q ev = Some (q1, o) /\ run q1 evs = Some (q', outs') /\ outs = option_list o ++ outs'.
Proof.
  cbn [run]. split.
  - destruct (step q ev) as [[q1 o]|]; cbn [mbind option_bind]; [|done].
    destruct (run q1 evs) as [[q2 outs']|] eqn:E; cbn [mbind option_bind]; [|done].
    intros H. injection H as <- <-. by exists q1, o, outs'.
  - intros (q1 & o & outs' & -> & H & ->). cbn [mbind option_bind]. by rewrite H.
Qed.

Lemma run_ok q buf over evs q' outs : holds q buf over -> run q evs = Some (q', outs) ->
  exists buf' over', holds q' buf' over' /\ buf ++ over ++ inputs evs = outs ++ buf' ++ over' /\
    (Forall (fun ev => internal ev = true) evs -> (length evs + todo q' buf' over' <= todo q buf over)%nat /\
       q_in_closed q' = q_in_closed q /\ q_quit q' = q_quit q /\ inputs evs = []).
Proof.
  revert q buf over outs. induction evs as [|ev evs IH]; intros q buf over outs Hh Hr.
  { injection Hr as <- <-. exists buf, over. unfold inputs. cbn. rewrite app_nil_r. split_and!; [done|done|].
    intros _. cbn. split_and!; [lia|done..]. }
  apply run_cons in Hr as (q1 & o & outs' & Hs & Hr & ->).
  destruct (step_ok _ _ _ _ _ _ Hh Hs) as (b1 & o1 & Hh1 & He1 & Ht1).
  destruct (IH _ _ _ _ Hh1 Hr) as (b2 & o2 & Hh2 & He2 & Ht2). exists b2, o2. split_and!; [done| |].
  - unfold inputs in *. cbn [map concat]. 
    transitivity ((buf ++ over ++ input ev) ++ concat (map input evs)); [by rewrite <- !app_assoc|].
    by rewrite He1, <- !app_assoc, He2.
  - intros Hi. apply list.Forall_cons in Hi as [Hi1 Hi2]. destruct (Ht1 Hi1) as (? & ? & ?), (Ht2 Hi2) as (? & ? & ? & ?).
    cbn [length]. split_and!; [lia|congruence|congruence|]. unfold inputs in *. cbn [map concat]. by destruct ev.
Qed.

(** What the goroutine can do is never in its way: it takes an item whenever it
    reads, and some turn is left until the end. *)
Lemma push_enabled q buf over item receiver :
  holds q buf over -> q_phase q = Reading -> q_in_closed q = false ->
  exists q' o, step q (In item receiver) = Some (q', o).
Proof.
  intros Hh Hp Hi. cbn [step]. rewrite Hp, Hi. pose proof (holds_Front _ _ _ Hh) as Hf.
  destruct (holds_push _ _ _ item Hh) as (q2 & H2 & _); [apply (holds_open _ _ _ Hh); congruence|].
  destruct over as [|x over].
  - rewrite Hf. cbn [mbind option_bind]. destruct (send q item receiver) as [[q1 o1]|]; eauto.
  - destruct Hf as (e & -> & _). cbn [mbind option_bind]. eauto.
Qed.

Lemma send_enabled q item : q_out q = [] -> exists q' o, send q item true = Some (q', o).
Proof. intros Hq. unfold send. rewrite Hq. cbn. destruct (q_size q); cbn; eauto. Qed.

Lemma internal_enabled q buf over :
  holds q buf over -> q_phase q <> Idle -> q_in_closed q = true -> q_quit q = false ->
  (q_out_closed q = true /\ buf = [] /\ over = []) \/
  exists ev, internal ev = true /\ is_Some (step q ev).
Proof.
  intros Hh Hp Hi Hq. pose proof (holds_Front _ _ _ Hh) as Hf. pose proof (ho_buf _ _ _ Hh) as Hb.
  destruct buf as [|x buf].
  2:{ right. exists Out. split; [done|]. cbn [step]. rewrite Hb. by destruct (q_phase q). }
  destruct (q_phase q) eqn:Hph; [done| | |].
  - right. exists InClosed. split; [done|]. cbn [step]. by rewrite Hph, Hi.
  - right. destruct over as [|x over].
    + exists Finish. split; [done|]. cbn [step]. by rewrite Hph, Hf.
    + destruct Hf as (e & Hfr & Hv & q2 & Hr & _). exists (Feed true). split; [done|].
      cbn [step]. rewrite Hph, Hfr. cbn [mbind option_bind]. rewrite Hv. cbn [mbind option_bind].
      destruct (send_enabled q x Hb) as (q' & o & Hs). rewrite Hs. cbn [mbind option_bind].
      destruct (send_holds _ _ _ _ _ _ _ Hh Hs) as (buf' & _ & -> & _). unfold remove_front in *.
      cbn [q_overflow set_out]. by destruct (List_Remove (q_overflow q) e).
  - left. destruct (ho_exited _ _ _ Hh Hph) as [Hx|Hx]; [congruence|].
    split_and!; [done|done|]. by apply (ho_closed _ _ _ Hh Hx).
Qed.

Lemma todo_bound q buf over : (todo q buf over <= 2 * length (buf ++ over) + 2)%nat.
Proof. unfold todo. rewrite length_app. destruct (q_phase q); cbn; lia. Qed.

(** Moving items leaves the rest of the queue as it was. *)
Definition control q : phase * bool * bool := (q_phase q, q_in_closed q, q_quit q).

Lemma send_control q item receiver q' o : send q item receiver = Some (q', o) -> control q' = control q.
Proof.
  unfold send. destruct (_ <? _)%nat; [intros H; by injection H as <- <-|].
  destruct (_ && _); [|done]. intros H. by injection H as <- <-.
Qed.

Lemma push_control q item q' o : push_overflow q item = Some (q', o) -> control q' = control q.
Proof. unfold push_overflow. destruct (List_PushBack _ _) as [[l e]|]; [|done]. intros H. by injection H as <- <-. Qed.

Lemma feed_control q e receiver q' o :
  (v ← front_value q e; '(q1, o1) ← send q v receiver; q1 ← remove_front q1 e; Some (q1, o1)) = Some (q', o) ->
  control q' = control q.
Proof.
  destruct (front_value q e) as [v|]; cbn [mbind option_bind]; [|done].
  destruct (send q v receiver) as [[q1 o1]|] eqn:E; cbn [mbind option_bind]; [|done]. unfold remove_front.
  destruct (List_Remove _ _) as [l|]; [|done]. intros H. injection H as <- <-. by apply send_control in E.
Qed.

Lemma step_control q ev q' o : step q ev = Some (q', o) ->
  match ev with
  | In _ _ | Feed _ | Out => control q' = control q
  | Quit => q_quit q = true /\ q_in_closed q' = q_in_closed q /\ q_phase q' = Exited
  | _ => q_phase q' = q_phase q \/ q_phase q' <> Idle
  end.
Proof.
  intros Hs. destruct ev as [|item r| | |r| | | |]; cbn [step] in Hs; destruct (q_phase q) eqn:Hph; try done;
    repeat match type of Hs with
    | context [q_in_closed q] => destruct (q_in_closed q) eqn:?; try done
    | context [q_quit q] => destruct (q_quit q) eqn:?; try done
    | context [q_out q] => destruct (q_out q); try done
    | context [List_Front ?l ≫= _] => destruct (List_Front l) as [[e|]|]; cbn [mbind option_bind] in Hs; try done
    end;
    try (injection Hs as <- <-; cbn; by auto).
  - by eapply push_control.
  - destruct (send q item r) as [[q1 o1]|] eqn:E; [|by eapply push_control].
    injection Hs as <- <-. by eapply send_control.
  - by eapply feed_control.
  - by eapply feed_control.
Qed.

(** A goroutine that has started stays so. *)
Lemma step_not_idle q ev q' o : step q ev = Some (q', o) -> q_phase q <> Idle -> q_phase q' <> Idle.
Proof.
  intros Hs Hp. pose proof (step_control _ _ _ _ Hs) as H. unfold control in H.
  destruct ev; try congruence; try (destruct H as [H|H]; congruence).
  destruct H as (_ & _ & ->). discriminate.
Qed.

Lemma run_not_idle q evs q' outs : run q evs = Some (q', outs) -> q_phase q <> Idle -> q_phase q' <> Idle.
Proof.
  revert q outs. induction evs as [|ev evs IH]; intros q outs Hr Hp; [by injection Hr as <- <-|].
  apply run_cons in Hr as (q1 & o & outs' & Hs & Hr & ->). eapply IH; [done|by eapply step_not_idle].
Qed.

(** After the goroutine has been told to quit nothing moves but the buffer. *)
Lemma step_exited q ev q' o : step q ev = Some (q', o) -> q_phase q = Exited ->
  q_phase q' = Exited /\ q_overflow q' = q_overflow q /\ q_out_closed q' = q_out_closed q /\
  q_out q = option_list o ++ q_out q' /\ input ev = [].
Proof.
  intros Hs Hp. destruct ev; cbn [step] in Hs; rewrite ?Hp in Hs; try done.
  - by injection Hs as <- <-.
  - destruct (q_in_closed q); [done|]. by injection Hs as <- <-.
  - destruct (q_out q); [done|]. by injection Hs as <- <-.
  - by injection Hs as <- <-.
Qed.

Lemma run_exited q evs q' outs : run q evs = Some (q', outs) -> q_phase q = Exited ->
  q_phase q' = Exited /\ q_overflow q' = q_overflow q /\ q_out_closed q' = q_out_closed q /\
  q_out q = outs ++ q_out q' /\ inputs evs = [].
Proof.
  revert q outs. induction evs as [|ev evs IH]; intros q outs Hr Hp; [by injection Hr as <- <-|].
  apply run_cons in Hr as (q1 & o & outs' & Hs & Hr & ->).
  destruct (step_exited _ _ _ _ Hs Hp) as (Hp1 & Ho1 & Hc1 & Hb1 & Hi1).
  destruct (IH _ _ Hr Hp1) as (Hp2 & Ho2 & Hc2 & Hb2 & Hi2). unfold inputs in *. cbn [map concat].
  rewrite Hi1, Hi2. split_and!; [done|congruence|congruence| |done]. by rewrite Hb1, Hb2, app_assoc.
Qed.

(** * The correctness of the component *)

(** C30: C: in every sequence of turns of the goroutine, the producers and the
    consumers, the items come out in the order they went in: what has gone in is
    what has come out followed by what the queue holds, in the buffer, which is
    never over its capacity, and in the overflow.  While the goroutine reads, a
    producer is never held up, whatever the state of the consumers. *)
Theorem Queue_fifo n evs q outs (Hr : run (NewConcurrentQueue n) evs = Some (q, outs)) :
  (exists buf over, holds q buf over /\ inputs evs = outs ++ buf ++ over) /\
  (q_phase q = Reading -> q_in_closed q = false -> forall item receiver,
     exists q' o, step q (In item receiver) = Some (q', o)).
Proof.
  destruct (run_ok _ _ _ _ _ _ (New_holds n) Hr) as (buf & over & Hh & He & _).
  split; [by exists buf, over|]. intros Hp Hi item receiver. by eapply push_enabled.
Qed.

(** C: once the producers have closed [chanIn], the goroutine and the consumers
    have a bounded number of turns left whatever their order; as long as they have
    not all been taken some turn can be; and after the last one every item has come
    out, in order, and [chanOut] is closed. *)
Theorem Queue_drains n evs q outs evs' q' outs'
    (Hr : run (NewConcurrentQueue n) evs = Some (q, outs))
    (Hp : q_phase q <> Idle) (Hi : q_in_closed q = true) (Hq : q_quit q = false)
    (Hr' : run q evs' = Some (q', outs')) (Hint : Forall (fun ev => internal ev = true) evs') :
  (length evs' <= 2 * length (inputs evs) + 2)%nat /\
  ((forall ev, internal ev = true -> step q' ev = None) ->
     inputs evs = outs ++ outs' /\ q_out_closed q' = true).
Proof.
  destruct (run_ok _ _ _ _ _ _ (New_holds n) Hr) as (buf & over & Hh & He & _).
  destruct (run_ok _ _ _ _ _ _ Hh Hr') as (buf' & over' & Hh' & He' & Ht').
  destruct (Ht' Hint) as (Hlen & Hi' & Hq' & Hno). cbn [app] in He. split.
  - pose proof (todo_bound q buf over). rewrite He, length_app. lia.
  - intros Hstuck. destruct (internal_enabled _ _ _ Hh') as [(Hc & -> & ->)|(ev & Hev & [[q2 o] Hs])]; try congruence.
    + by eapply run_not_idle.
    + rewrite Hno, !app_nil_r in He'. by rewrite He, He'.
    + by rewrite (Hstuck ev Hev) in Hs.
Qed.

(** C: a queue that has been stopped keeps what is in its overflow for ever.
    Starting it again does nothing, so that "the queue can be restarted without
    dropping items" does not hold: from the moment the goroutine quits, whatever
    turns follow, no item is taken and the consumers get no more than what is in
    the buffer, on a channel that is never closed. *)
Theorem Stop_strands n evs q outs q1 o evs' q' outs'
    (Hr : run (NewConcurrentQueue n) evs = Some (q, outs)) (Hquit : step q Quit = Some (q1, o))
    (Hr' : run q1 evs' = Some (q', outs')) :
  q_overflow q' = q_overflow q /\ q_out q = outs' ++ q_out q' /\ inputs evs' = [] /\
  q_out_closed q' = false /\ q_phase q' = Exited.
Proof.
  destruct (run_ok _ _ _ _ _ _ (New_holds n) Hr) as (buf & over & Hh & _ & _).
  destruct (step_Quit _ _ _ _ _ Hh Hquit) as (_ & -> & Hc).
  destruct (run_exited _ _ _ _ Hr' eq_refl) as (H1 & H2 & H3 & H4 & H5). cbn in *.
  split_and!; [done|done|done|by rewrite H3|done].
Qed.
End proofs.

(** Four items through a queue with room for one. *)
Definition sample_turns : list (event nat) :=
  [Start; In 1%nat false; In 2%nat false; In 3%nat false; Out; In 4%nat false; Feed false; Out].

Example Queue_sample : forall q outs, run (NewConcurrentQueue 1) sample_turns = Some (q, outs) -> outs = [1; 2]%nat.
Proof. intros q outs H. vm_compute in H. by injection H. Qed.

Lemma Queue_fifo_witness : exists q outs, run (NewConcurrentQueue 1) sample_turns = Some (q, outs) /\
  exists buf over, holds q buf over /\ inputs sample_turns = outs ++ buf ++ over.
Proof.
  eexists _, _. split; [vm_compute; reflexivity|].
  eapply (Queue_fifo 1 sample_turns). vm_compute. reflexivity.
Defined.

Lemma Queue_drains_witness : exists q outs q' outs',
  run (NewConcurrentQueue 1) (sample_turns ++ [CloseIn]) = Some (q, outs) /\
  run q [InClosed; Feed false; Out; Feed false; Finish; Out] = Some (q', outs') /\
  (length [InClosed (T := nat); Feed false; Out; Feed false; Finish; Out] <= 2 * length (inputs (sample_turns ++ [CloseIn])) + 2)%nat.
Proof.
  eexists _, _, _, _. split; [vm_compute; reflexivity|]. split; [vm_compute; reflexivity|].
  eapply (Queue_drains 1 (sample_turns ++ [CloseIn])); [vm_compute; reflexivity|discriminate|reflexivity|reflexivity
    |vm_compute; reflexivity|by repeat constructor].
Defined.

Lemma Stop_strands_witness : exists q outs q1 o q' outs',
  run (NewConcurrentQueue 1) (sample_turns ++ [Stop]) = Some (q, outs) /\ step q Quit = Some (q1, o) /\
  run q1 [Start] = Some (q', outs') /\ q_overflow q' = q_overflow q.
Proof.
  eexists _, _, _, _, _, _. split; [vm_compute; reflexivity|]. split; [vm_compute; reflexivity|].
  split; [vm_compute; reflexivity|].
  eapply (Stop_strands 1 (sample_turns ++ [Stop]) _ _ _ _ [Start]); vm_compute; reflexivity.
Defined.
