(* ===== verification/BatchWriter.v ===== *)
(** * neutrino/chanutils/batch_writer.go: the batch writer

    The goroutine of the writer takes items from a [ConcurrentQueue] and hands
    them to [PutItems] in batches.  A turn is one of the queue, a tick, the quit
    signal or a call of the owner; the queue is the one of [ChanQueue], and the
    writer is its only consumer. *)

From Stdlib Require Import ZArith Lia.
From S2P Require Import Prelude LRUList ChanQueue.

Section writer.
Context {T D : Type}.
(** [cfg]: the most items in a batch, the buffer of the queue, and [PutItems], a
    change of the caller's database and whether it failed. *)
Variable MaxBatch : nat.
Variable QueueBufferSize : nat.
Variable PutItems : D -> list T -> D * bool.

Inductive wphase : Type := WIdle | WRunning | WDone.

Record BatchWriter : Type := mkWriter {
  b_queue : ConcurrentQueue T;
  b_phase : wphase;
  b_batch : list T;
  b_ticker : bool;          (* the ticker runs *)
  b_quit : bool;
  b_db : D;
  b_puts : list (list T);   (* the batches handed to PutItems, the last one last *)
}.

Definition NewBatchWriter (db : D) : BatchWriter :=
  mkWriter (NewConcurrentQueue QueueBufferSize) WIdle [] false false db [].

Definition set_queue (b : BatchWriter) (q : ConcurrentQueue T) : BatchWriter :=
  mkWriter q (b_phase b) (b_batch b) (b_ticker b) (b_quit b) (b_db b) (b_puts b).
Definition set_done (b : BatchWriter) : BatchWriter :=
  mkWriter (b_queue b) WDone (b_batch b) (b_ticker b) (b_quit b) (b_db b) (b_puts b).
Definition set_ticker (b : BatchWriter) (on : bool) : BatchWriter :=
  mkWriter (b_queue b) (b_phase b) (b_batch b) on (b_quit b) (b_db b) (b_puts b).
Definition set_batch (b : BatchWriter) (batch : list T) : BatchWriter :=
  mkWriter (b_queue b) (b_phase b) batch (b_ticker b) (b_quit b) (b_db b) (b_puts b).

(** [writeBatch]: an error is logged and the batch is emptied all the same. *)
Definition writeBatch (b : BatchWriter) : BatchWriter :=
  match b_batch b with
  | [] => b
  | batch =>
      mkWriter (b_queue b) (b_phase b) [] (b_ticker b) (b_quit b)
        (fst (PutItems (b_db b) batch)) (b_puts b ++ [batch])
  end.

(** The case of an item: the batch is written when it is full, and the ticker
    started anew otherwise. *)
Definition receive (b : BatchWriter) (filter : T) : BatchWriter :=
  let b := set_batch b (b_batch b ++ [filter]) in
  if (length (b_batch b) =? MaxBatch)%nat then writeBatch (set_ticker b false)
  else set_ticker b true.

(** [AddItem] is the turn [In] of the queue. *)
Inductive turn : Type :=
| WStart
| WTurn (ev : event T)   (* a turn of the queue *)
| WTick
| WStop                  (* close(b.quit) *)
| WQuit                  (* the goroutine receives from quit *)
| WStopQueue.            (* the end of Stop: b.queue.Stop() *)

(** The turns a queue takes by itself or through [AddItem]; the writer never
    closes its input. *)
Definition queue_turn (ev : event T) : bool :=
  match ev with In _ _ | Feed _ | Out | Quit => true | _ => false end.

Definition wstep (b : BatchWriter) (t : turn) : option BatchWriter :=
  match t with
  | WStart =>
      match b_phase b with
      | WIdle =>
          '(q, _) ← step (b_queue b) Start;
          Some (mkWriter q WRunning (b_batch b) (b_ticker b) (b_quit b) (b_db b) (b_puts b))
      | _ => Some b
      end
  | WTurn ev =>
      if queue_turn ev then
        '(q, o) ← step (b_queue b) ev;
        match o with
        | None => Some (set_queue b q)
        | Some item => match b_phase b with WRunning => Some (receive (set_queue b q) item) | _ => None end
        end
      else None
  | WTick =>
      match b_phase b with
      | WRunning => if b_ticker b then Some (writeBatch (set_ticker b false)) else None
      | _ => None
      end
  | WStop => Some (mkWriter (b_queue b) (b_phase b) (b_batch b) (b_ticker b) true (b_db b) (b_puts b))
  | WQuit =>
      match b_phase b with
      | WRunning => if b_quit b then Some (set_done (writeBatch b)) else None
      | _ => None
      end
  | WStopQueue =>
      match b_phase b with
      | WRunning => None                      (* b.wg.Wait() *)
      | _ => if b_quit b then '(q, _) ← step (b_queue b) Stop; Some (set_queue b q) else None
      end
  end.

Definition wrun (b : BatchWriter) (ts : list turn) : option BatchWriter :=
  foldl (fun ob t => b ← ob; wstep b t) (Some b) ts.

(** * Specification *)

Definition add (t : turn) : list T := match t with WTurn ev => input ev | _ => [] end.
Definition added (ts : list turn) : list T := concat (map add ts).

(** What the writer owes: nothing is lost, duplicated or reordered between
    [AddItem] and [PutItems], the batches have their size, and a batch that waits
    has the ticker running. *)
Record writer_pre (db : D) (items : list T) (b : BatchWriter) (buf over : list T) : Prop := {
  wo_holds : holds (b_queue b) buf over;
  wo_items : items = concat (b_puts b) ++ b_batch b ++ buf ++ over;
  wo_sizes : Forall (fun batch => 1 <= length batch <= MaxBatch)%nat (b_puts b);
  wo_full : (length (b_batch b) <= MaxBatch)%nat;
  wo_db : b_db b = foldl (fun d batch => fst (PutItems d batch)) db (b_puts b);
  wo_open : q_in_closed (b_queue b) = false;
  wo_queue : b_quit b = false -> q_quit (b_queue b) = false /\
    q_phase (b_queue b) = match b_phase b with WIdle => Idle | _ => Reading end;
}.
Record writer_ok (db : D) (items : list T) (b : BatchWriter) (buf over : list T) : Prop := {
  wo_pre : writer_pre db items b buf over;
  wo_batch : (length (b_batch b) < MaxBatch)%nat;
  wo_ticker : b_batch b <> [] -> b_phase b = WRunning /\ b_ticker b = true;
}.

(** The turns that bring the items on. *)
Definition winternal (t : turn) : bool :=
  match t with WTurn (Feed _ | Out) | WTick => true | _ => false end.
Definition wtodo (b : BatchWriter) (buf over : list T) : nat :=
  4 * length over + 3 * length buf + (if b_ticker b then 1 else 0).
End writer.
#[global] Arguments BatchWriter : clear implicits.
#[global] Arguments turn : clear implicits.

(** * Proofs *)

Section proofs.
Context {T D : Type}.
Variable MaxBatch : nat.
Variable QueueBufferSize : nat.
Variable PutItems : D -> list T -> D * bool.
Hypothesis Max_pos : (0 < MaxBatch)%nat.
Implicit Types (b : BatchWriter T D) (buf over items : list T).
Abbreviation ok := (writer_ok MaxBatch PutItems).
Abbreviation pre := (writer_pre MaxBatch PutItems).

Lemma writeBatch_ok db items b buf over :
  pre db items b buf over -> ok db items (writeBatch PutItems b) buf over /\ b_batch (writeBatch PutItems b) = [].
Proof.
  intros [Hh Hi Hs Hf Hd Ho Hq]. unfold writeBatch. destruct (b_batch b) as [|x batch] eqn:Hb.
  - split; [|done]. split; [by split; rewrite ?Hb|rewrite Hb; cbn; lia|by rewrite Hb].
  - split; [|done]. split; cbn; [|lia|done]. split; cbn; try done.
    + rewrite concat_app. cbn. by rewrite app_nil_r, <- app_assoc.
    + apply list.Forall_app. split; [done|]. apply Forall_singleton. cbn in *. lia.
    + lia.
    + by rewrite foldl_app, Hd.
Qed.

Lemma pre_ticker db items b buf over on : pre db items b buf over -> pre db items (set_ticker b on) buf over.
Proof. intros []. by split. Qed.

Lemma receive_ok db items b buf over x :
  ok db items b buf over -> b_phase b = WRunning ->
  forall q buf' over' new, holds q buf' over' -> q_in_closed q = false ->
  (b_quit b = false -> q_quit q = false /\ q_phase q = Reading) ->
  buf ++ over ++ new = x :: buf' ++ over' ->
  ok db (items ++ new) (receive MaxBatch PutItems (set_queue b q) x) buf' over'.
Proof.
  intros [[Hh Hi Hs Hf Hd Ho Hq] Hlt Htk] Hrun q buf' over' new Hh' Hin Hopen He.
  assert (Hpre : pre db (items ++ new) (set_batch (set_queue b q) (b_batch b ++ [x])) buf' over').
  { split; cbn; [done| |done|rewrite length_app; cbn; lia|done|done|by rewrite Hrun].
    rewrite Hi, <- !app_assoc. do 2 f_equal. by rewrite He. }
  unfold receive. cbn [b_batch set_batch set_queue]. destruct (Nat.eqb_spec (length (b_batch b ++ [x])) MaxBatch) as [E|E].
  - apply writeBatch_ok. by apply pre_ticker.
  - split; [by apply pre_ticker| |done]. cbn. pose proof (wo_full _ _ _ _ _ _ _ Hpre) as Hl. cbn in Hl.
    rewrite length_app in *. cbn in *. lia.
Qed.

Lemma writeBatch_keeps b : b_quit (writeBatch PutItems b) = b_quit b /\
  b_phase (writeBatch PutItems b) = b_phase b /\ b_ticker (writeBatch PutItems b) = b_ticker b.
Proof. unfold writeBatch. by destruct (b_batch b). Qed.

Lemma queue_turn_ok db items b buf over ev b' :
  ok db items b buf over -> wstep MaxBatch PutItems b (WTurn ev) = Some b' ->
  exists buf' over', ok db (items ++ input ev) b' buf' over' /\ b_phase b' = b_phase b /\ b_quit b' = b_quit b /\
    (winternal (T := T) (WTurn ev) = true -> (wtodo b' buf' over' < wtodo b buf over)%nat).
Proof.
  intros Hok. pose proof Hok as [[Hh Hi Hs Hf Hd Ho Hq] Hlt Htk]. cbn [wstep]. destruct (queue_turn ev) eqn:Hev; [|done].
  destruct (step (b_queue b) ev) as [[q o]|] eqn:Hstep; cbn [mbind option_bind]; [|done].
  destruct (step_ok _ _ _ _ _ _ Hh Hstep) as (buf' & over' & Hh' & He & Ht).
  pose proof (step_control _ _ _ _ Hstep) as Hc.
  assert (Hin : q_in_closed q = false).
  { destruct ev; try done; [unfold control in Hc; congruence..|]. destruct Hc as (_ & -> & _). done. }
  assert (Hopen : b_quit b = false ->
    q_quit q = false /\ q_phase q = match b_phase b with WIdle => Idle | _ => Reading end).
  { intros Hn. destruct (Hq Hn) as [H1 H2]. unfold control in Hc.
    destruct ev; try done; try (split; congruence); destruct Hc as (Hc & _); congruence. }
  assert (Hw : winternal (T := T) (WTurn ev) = true ->
    (length over' <= length over /\
     length over' + length buf' + length (option_list o) = length buf + length over /\
     length over' + length (buf' ++ over') < length over + length (buf ++ over))%nat).
  { intros Hwi. assert (internal ev = true /\ input ev = [] /\ control q = control (b_queue b)) as (Hint & Hno & Hctl) by by destruct ev.
    destruct (Ht Hint) as [Htodo _]. unfold control in Hctl. unfold todo in Htodo. rewrite Hno in He.
    apply (f_equal length) in He. rewrite !length_app in *. cbn in He.
    assert (Hpe : q_phase q = q_phase (b_queue b)) by congruence. rewrite Hpe in Htodo. destruct o; cbn in *; lia. }
  destruct o as [x|].
  - destruct (b_phase b) eqn:Hph; try done. intros H'. injection H' as <-. exists buf', over'.
    assert (Hr : b_phase (receive MaxBatch PutItems (set_queue b q) x) = WRunning /\
      b_quit (receive MaxBatch PutItems (set_queue b q) x) = b_quit b).
    { unfold receive, writeBatch. cbn. destruct (_ =? _)%nat; cbn; [|done]. by destruct (b_batch b ++ [x]). }
    destruct Hr as [Hr1 Hr2]. split_and!; [|done|done|].
    + by apply (receive_ok db items b buf over).
    + intros Hwi. destruct (Hw Hwi) as (Hw1 & Hw2 & Hw3). unfold wtodo. rewrite !length_app in *. cbn in *.
      destruct (b_ticker _), (b_ticker _); lia.
  - intros H'. injection H' as <-. exists buf', over'. split_and!; [|done|done|].
    + split; [|done|done]. split; cbn; try done. rewrite Hi, <- !app_assoc. do 2 f_equal. done.
    + intros Hwi. destruct (Hw Hwi) as (Hw1 & Hw2 & Hw3). unfold wtodo. rewrite !length_app in *. cbn in *. lia.
Qed.

Lemma wstep_ok db items b buf over t b' :
  ok db items b buf over -> wstep MaxBatch PutItems b t = Some b' ->
  exists buf' over', ok db (items ++ add t) b' buf' over' /\
    (b_quit b' = false -> b_quit b = false) /\ (b_phase b <> WIdle -> b_phase b' <> WIdle) /\
    (winternal t = true -> b_phase b' = b_phase b /\ b_quit b' = b_quit b /\
       (wtodo b' buf' over' < wtodo b buf over)%nat).
Proof.
  intros Hok Hs. pose proof Hok as [[Hh Hi Hsz Hf Hd Ho Hq] Hlt Htk]. destruct t as [|ev| | | |]; cbn [add]; rewrite ?app_nil_r.
  - cbn [wstep] in Hs. destruct (b_phase b) eqn:Hph; [|injection Hs as <-; exists buf, over; by rewrite Hph..].
    destruct (step (b_queue b) Start) as [[q o]|] eqn:Hstep; [|done]. injection Hs as <-.
    assert (Hb : b_batch b = []) by (destruct (b_batch b); [done|by destruct Htk]).
    destruct (step_ok _ _ _ _ _ _ Hh Hstep) as (buf' & over' & Hh' & He & _). exists buf', over'. cbn.
    rewrite app_nil_r in He.
    assert (q_in_closed q = q_in_closed (b_queue b) /\ q_quit q = q_quit (b_queue b) /\ o = None /\
      (q_phase (b_queue b) = Idle -> q_phase q = Reading)) as (Hin & Hqu & -> & Hph').
    { cbn in Hstep. by destruct (q_phase (b_queue b)); injection Hstep as <- <-. }
    split_and!; [|done|done|done]. split; cbn; [|done|by rewrite Hb]. split; cbn; try done.
    + rewrite Hi. cbn in He. by rewrite He.
    + congruence.
    + intros Hn. destruct (Hq Hn) as [H1 H2]. split; [congruence|by apply Hph'].
  - destruct (queue_turn_ok _ _ _ _ _ _ _ Hok Hs) as (buf' & over' & Hok' & Hp & Hqu & Ht).
    exists buf', over'. split_and!; [done|congruence|congruence|]. intros Hw. split_and!; [done|done|by apply Ht].
  - cbn [wstep] in Hs. destruct (b_phase b) eqn:Hph; try done. destruct (b_ticker b) eqn:Ht; [|done].
    injection Hs as <-. destruct (writeBatch_ok db items (set_ticker b false) buf over) as [Hw _]; [by apply pre_ticker, (wo_pre _ _ _ _ _ _ _ Hok)|].
    exists buf, over.
    destruct (writeBatch_keeps (set_ticker b false)) as (Hk1 & Hk2 & Hk3). cbn in Hk1, Hk2, Hk3.
    split_and!; [done|congruence|congruence|]. intros _. split_and!; [congruence|done|].
    unfold wtodo. rewrite Ht, Hk3. lia.
  - injection Hs as <-. exists buf, over. split_and!; [|done|done|done]. split; [|done|done]. by split.
  - cbn [wstep] in Hs. destruct (b_phase b) eqn:Hph; try done. destruct (b_quit b) eqn:Hqu; [|done]. injection Hs as <-.
    destruct (writeBatch_ok db items b buf over (wo_pre _ _ _ _ _ _ _ Hok)) as [[[? ? ? ? ? ? ?] ? ?] Hb].
    destruct (writeBatch_keeps b) as (Hk1 & Hk2 & Hk3). rewrite Hqu in Hk1.
    exists buf, over. split_and!; [|cbn; congruence|done|done]. split; [split; cbn; try done|done|cbn; by rewrite Hb].
    congruence.
  - cbn [wstep] in Hs.
    assert (exists q o, step (b_queue b) Stop = Some (q, o) /\ b' = set_queue b q /\ b_quit b = true) as (q & o & Hstep & -> & Hqu).
    { destruct (b_phase b); try done; (destruct (b_quit b); [|done]);
        (destruct (step (b_queue b) Stop) as [[q o]|]; [|done]); injection Hs as <-; eauto. }
    destruct (step_ok _ _ _ _ _ _ Hh Hstep) as (buf' & over' & Hh' & He & _). exists buf', over'.
    assert (q_in_closed q = q_in_closed (b_queue b) /\ o = None) as (Hin & ->)
      by (cbn in Hstep; by destruct (q_phase (b_queue b)); injection Hstep as <- <-).
    rewrite app_nil_r in He. split_and!; [|done|done|done]. split; [|done|done]. split; cbn; try done.
    + rewrite Hi. cbn in He. by rewrite He.
    + congruence.
    + congruence.
Qed.

Lemma wrun_cons b t ts b' : wrun MaxBatch PutItems b (t :: ts) = Some b' <->
  exists b1, wstep MaxBatch PutItems b t = Some b1 /\ wrun MaxBatch PutItems b1 ts = Some b'.
Proof.
  assert (Hnone : forall ts, foldl (fun ob t => b ← ob; wstep MaxBatch PutItems b t) None ts = None)
    by (clear; induction ts; done).
  unfold wrun. cbn. destruct (wstep MaxBatch PutItems b t) as [b1|]; [|rewrite Hnone].
  - split; [by exists b1|]. intros (b2 & H & Hr). by injection H as <-.
  - split; [done|by intros (? & ? & _)].
Qed.

Lemma wrun_ok db items b buf over ts b' :
  ok db items b buf over -> wrun MaxBatch PutItems b ts = Some b' ->
  exists buf' over', ok db (items ++ added ts) b' buf' over' /\
    (Forall (fun t => winternal t = true) ts -> b_phase b' = b_phase b /\ b_quit b' = b_quit b /\
       added ts = [] /\ (length ts + wtodo b' buf' over' <= wtodo b buf over)%nat).
Proof.
  revert items b buf over. induction ts as [|t ts IH]; intros items b buf over Hok Hr.
  { injection Hr as <-. exists buf, over. unfold added. cbn. rewrite app_nil_r. split; [done|].
    intros _. split_and!; [done|done|done|]. cbn. lia. }
  apply wrun_cons in Hr as (b1 & Hs & Hr).
  destruct (wstep_ok _ _ _ _ _ _ _ Hok Hs) as (buf1 & over1 & Hok1 & _ & _ & Ht1).
  destruct (IH _ _ _ _ Hok1 Hr) as (buf2 & over2 & Hok2 & Ht2). exists buf2, over2. unfold added in *. cbn [map concat].
  rewrite app_assoc. split; [done|]. intros Hall. apply list.Forall_cons in Hall as [H1 H2].
  destruct (Ht1 H1) as (? & ? & ?), (Ht2 H2) as (? & ? & Hno & ?).
  assert (add t = []) by (destruct t as [|[]| | | |]; done). rewrite Hno. cbn [length].
  split_and!; [congruence|congruence|by rewrite app_nil_r|lia].
Qed.

Lemma New_ok db : ok db [] (NewBatchWriter QueueBufferSize db) [] [].
Proof. split; cbn; [|done|done]. split; cbn; [apply New_holds|done|done|lia|done|done|done]. Qed.

(** A running writer that has not been stopped has a turn as long as it owes. *)
Lemma winternal_enabled db items b buf over :
  ok db items b buf over -> b_phase b = WRunning -> b_quit b = false ->
  (b_batch b = [] /\ buf = [] /\ over = []) \/
  exists t, winternal t = true /\ is_Some (wstep MaxBatch PutItems b t).
Proof.
  intros Hok Hp Hqu. pose proof Hok as [[Hh Hi Hs Hf Hd Ho Hq] Hlt Htk]. destruct (Hq Hqu) as [_ Hr]. rewrite Hp in Hr.
  pose proof (ho_buf _ _ _ Hh) as Hb. pose proof (holds_Front _ _ _ Hh) as Hfr.
  destruct buf as [|x buf]; [|right; exists (WTurn Out); split; [done|]; cbn; by rewrite Hb, Hp].
  destruct over as [|x over].
  - destruct (b_batch b) as [|y batch] eqn:Hbt; [by left|]. right. exists WTick. split; [done|].
    destruct (Htk ltac:(done)) as [_ Ht]. cbn. by rewrite Hp, Ht.
  - right. exists (WTurn (Feed true)). split; [done|]. destruct Hfr as (e & Hfr & Hv & q2 & Hrm & _).
    cbn [wstep queue_turn step]. rewrite Hr, Hfr. cbn [mbind option_bind]. rewrite Hv. cbn [mbind option_bind].
    destruct (send_enabled (b_queue b) x Hb) as (q' & o & Hsend). rewrite Hsend. cbn [mbind option_bind].
    destruct (send_holds _ _ _ _ _ _ _ Hh Hsend) as (buf' & _ & -> & _). unfold remove_front in *.
    cbn [q_overflow set_out]. destruct (List_Remove (q_overflow (b_queue b)) e); [|done]. cbn.
    rewrite Hp. by destruct o.
Qed.

Lemma wstep_done b t b' : wstep MaxBatch PutItems b t = Some b' -> b_phase b = WDone ->
  b_phase b' = WDone /\ b_puts b' = b_puts b /\ b_db b' = b_db b.
Proof.
  intros Hs Hp. destruct t as [|ev| | | |]; cbn [wstep] in Hs; rewrite ?Hp in Hs; try done.
  - by injection Hs as <-.
  - destruct (queue_turn ev); [|done]. destruct (step (b_queue b) ev) as [[q [x|]]|]; try done. by injection Hs as <-.
  - by injection Hs as <-.
  - destruct (b_quit b); [|done]. destruct (step (b_queue b) Stop) as [[q o]|]; [|done]. by injection Hs as <-.
Qed.
End proofs.

(** * The correctness of the component *)

(** C: whatever the turns, what has been given to [AddItem] is, in order, what has
    been handed to [PutItems], then the batch, then what the queue holds; a batch
    handed over is not empty and has at most [MaxBatch] items; a batch that waits
    is short of [MaxBatch] and has the ticker running; and the database is the
    result of the writes. *)
Theorem BatchWriter_keeps {T D} MaxBatch n (PutItems : D -> list T -> D * bool) db ts b
    (Hpos : (0 < MaxBatch)%nat) (Hr : wrun MaxBatch PutItems (NewBatchWriter n db) ts = Some b) :
  exists buf over, holds (b_queue b) buf over /\
    added ts = concat (b_puts b) ++ b_batch b ++ buf ++ over /\
    Forall (fun batch => 1 <= length batch <= MaxBatch)%nat (b_puts b) /\
    (length (b_batch b) < MaxBatch)%nat /\
    (b_batch b <> [] -> b_phase b = WRunning /\ b_ticker b = true) /\
    b_db b = foldl (fun d batch => fst (PutItems d batch)) db (b_puts b).
Proof.
  destruct (wrun_ok MaxBatch PutItems Hpos db [] _ [] [] ts b (New_ok _ n _ Hpos db) Hr) as (buf & over & [[] ? ?] & _).
  exists buf, over. by split_and!.
Qed.

(** C: a writer that has been started and not stopped writes everything: the
    turns of its two goroutines and of the ticker come to an end, and at the end
    all the items that were added have been handed to [PutItems]. *)
Theorem BatchWriter_flushes {T D} MaxBatch n (PutItems : D -> list T -> D * bool) db ts b ts' b'
    (Hpos : (0 < MaxBatch)%nat) (Hr : wrun MaxBatch PutItems (NewBatchWriter n db) ts = Some b)
    (Hp : b_phase b = WRunning) (Hq : b_quit b = false)
    (Hr' : wrun MaxBatch PutItems b ts' = Some b') (Hint : Forall (fun t => winternal t = true) ts') :
  (length ts' <= 4 * length (added ts) + 1)%nat /\
  ((forall t, winternal t = true -> wstep MaxBatch PutItems b' t = None) ->
     concat (b_puts b') = added ts /\ b_batch b' = []).
Proof.
  destruct (wrun_ok MaxBatch PutItems Hpos db [] _ [] [] ts b (New_ok _ n _ Hpos db) Hr) as (buf & over & Hok & _).
  destruct (wrun_ok _ _ Hpos _ _ _ _ _ _ _ Hok Hr') as (buf' & over' & Hok' & Ht).
  destruct (Ht Hint) as (Hp' & Hq' & Hno & Hlen). cbn [app] in *. split.
  - pose proof (wo_items _ _ _ _ _ _ _ (wo_pre _ _ _ _ _ _ _ Hok)) as Hi. rewrite Hi, !length_app.
    unfold wtodo in Hlen. destruct (b_ticker b), (b_ticker b'); lia.
  - intros Hstuck. destruct (winternal_enabled _ _ _ _ _ _ _ Hok') as [(Hb & -> & ->)|(t & Hw & [b2 Hs])]; try congruence.
    + split; [|done]. pose proof (wo_items _ _ _ _ _ _ _ (wo_pre _ _ _ _ _ _ _ Hok')) as Hi.
      rewrite Hno, Hb in Hi. cbn in Hi. by rewrite !app_nil_r in Hi.
    + by rewrite (Hstuck t Hw) in Hs.
Qed.

(** C: [Stop] drops what the queue still holds.  The goroutine writes its batch
    and leaves; from then on nothing is handed to [PutItems], and what it had not
    taken from the queue, though [AddItem] had returned, is never written. *)
Theorem Stop_drops_queue {T D} MaxBatch n (PutItems : D -> list T -> D * bool) db ts b ts' b'
    (Hpos : (0 < MaxBatch)%nat) (Hr : wrun MaxBatch PutItems (NewBatchWriter n db) ts = Some b)
    (Hp : b_phase b = WDone) (Hr' : wrun MaxBatch PutItems b ts' = Some b') :
  b_puts b' = b_puts b /\ b_db b' = b_db b /\
  exists buf over, holds (b_queue b) buf over /\ added ts = concat (b_puts b') ++ buf ++ over.
Proof.
  destruct (wrun_ok MaxBatch PutItems Hpos db [] _ [] [] ts b (New_ok _ n _ Hpos db) Hr) as (buf & over & Hok & _).
  assert (Hdone : b_puts b' = b_puts b /\ b_db b' = b_db b).
  { clear Hr Hok. revert b Hp Hr'. induction ts' as [|t ts' IH]; intros b Hp Hr'; [by injection Hr' as <-|].
    apply wrun_cons in Hr' as (b1 & Hs & Hr'). destruct (wstep_done _ _ _ _ _ Hs Hp) as (Hp1 & <- & <-). by apply IH. }
  destruct Hdone as [Hd1 Hd2]. split_and!; [done|done|]. exists buf, over. destruct Hok as [[] ? Htk]. split; [done|].
  rewrite Hd1. assert (Hb : b_batch b = []).
  { destruct (b_batch b); [done|]. destruct (Htk ltac:(done)). congruence. }
  rewrite Hb in wo_items0. done.
Qed.

(** Five items with batches of two and a database that appends. *)
Definition append_put (d items : list nat) : list nat * bool := (d ++ items, true).
Definition writer_turns : list (turn nat) :=
  WStart :: map (fun x => WTurn (In x false)) [1; 2; 3; 4; 5]%nat ++ [WTurn Out; WTurn Out; WTurn Out].

Lemma BatchWriter_keeps_witness : exists b, wrun 2 append_put (NewBatchWriter 9 []) writer_turns = Some b /\
  b_puts b = [[1; 2]]%nat /\ (length (b_batch b) < 2)%nat.
Proof.
  eexists. split; [vm_compute; reflexivity|]. split; [reflexivity|].
  refine (match BatchWriter_keeps 2 9 append_put [] writer_turns _ _ _ with ex_intro _ _ (ex_intro _ _ H) => _ end);
    [lia|vm_compute; reflexivity|apply H].
Defined.

Lemma BatchWriter_flushes_witness : exists b b', wrun 2 append_put (NewBatchWriter 9 []) writer_turns = Some b /\
  wrun 2 append_put b [WTurn Out; WTurn Out; WTick] = Some b' /\
  (length [WTurn (T := nat) Out; WTurn Out; WTick] <= 4 * length (added writer_turns) + 1)%nat /\ b_db b' = [1; 2; 3; 4; 5]%nat.
Proof.
  eexists _, _. split; [vm_compute; reflexivity|]. split; [vm_compute; reflexivity|]. split; [|reflexivity].
  eapply (BatchWriter_flushes 2 9 append_put [] writer_turns); [lia|vm_compute; reflexivity|reflexivity|reflexivity
    |vm_compute; reflexivity|by repeat constructor].
Defined.

Lemma Stop_drops_queue_witness : exists b b',
  wrun 2 append_put (NewBatchWriter 9 []) (writer_turns ++ [WStop; WQuit]) = Some b /\
  wrun 2 append_put b [WStopQueue; WTurn Quit; WStart] = Some b' /\ b_puts b' = b_puts b /\
  concat (b_puts b') = [1; 2; 3]%nat /\ added (writer_turns ++ [WStop; WQuit]) = [1; 2; 3; 4; 5]%nat.
Proof.
  eexists _, _. split; [vm_compute; reflexivity|]. split; [vm_compute; reflexivity|]. split; [|by vm_compute].
  eapply (Stop_drops_queue 2 9 append_put [] (writer_turns ++ [WStop; WQuit]) _ [WStopQueue; WTurn Quit; WStart]);
    [lia|vm_compute; reflexivity..].
Defined.
