(* ===== verification/NogoUtil.v ===== *)
(** * nogoutil: transactions and blocks with cached hashes (tx.go, block.go)

    A [Tx] wraps a decoded transaction, the bytes it was read from, and what has
    been computed of it; a [Block] owns the [Tx] it hands out, so that a hash
    computed through one of them is seen by all.  Slicing beyond the length of a
    slice is [None], the panic of the code. *)

From Stdlib Require Import ZArith Lia.
From S2P Require Import Prelude WireCommon WireTx ChainHash WireBlock.

Open Scope Z_scope.

(** [s[i:j]] *)
Definition slice_at (s : list byte) (i j : Z) : option (list byte) :=
  if (0 <=? i) && (i <=? j) && (j <=? len s) then Some (bytes_at s i (j - i)) else None.

(** ** Transactions *)

Definition TxIndexUnknown : Z := -1.

Record Tx : Type := mkTx {
  tx_msgTx : MsgTx;
  tx_txHash : option (list byte);
  tx_txHashWitness : option (list byte);
  tx_txHasWitness : option bool;
  tx_txIndex : Z;
  tx_rawBytes : option (list byte);   (* None is nil *)
}.

Definition NewTx (msgTx : MsgTx) : Tx := mkTx msgTx None None None TxIndexUnknown None.

Definition NewTxFromReader (r : list byte) : result wire_error (Tx * list byte) :=
  '(msgTx, rest) ← MsgTx_Deserialize r;
  mret (mkTx msgTx None None None TxIndexUnknown None, rest).
Definition NewTxFromBytes (serializedTx : list byte) : result wire_error Tx :=
  '(t, _) ← NewTxFromReader serializedTx;
  mret t.

Definition SetIndex (t : Tx) (index : Z) : Tx :=
  mkTx (tx_msgTx t) (tx_txHash t) (tx_txHashWitness t) (tx_txHasWitness t) index (tx_rawBytes t).
Definition setBytes (t : Tx) (bytes : list byte) : Tx :=
  mkTx (tx_msgTx t) (tx_txHash t) (tx_txHashWitness t) (tx_txHasWitness t) (tx_txIndex t) (Some bytes).
Definition set_hash (t : Tx) (h : list byte) : Tx :=
  mkTx (tx_msgTx t) (Some h) (tx_txHashWitness t) (tx_txHasWitness t) (tx_txIndex t) (tx_rawBytes t).
Definition set_witness_hash (t : Tx) (h : list byte) : Tx :=
  mkTx (tx_msgTx t) (tx_txHash t) (Some h) (tx_txHasWitness t) (tx_txIndex t) (tx_rawBytes t).

Definition Tx_HasWitness (t : Tx) : Tx * bool :=
  match tx_txHasWitness t with
  | Some w => (t, w)
  | None =>
      let hasWitness := MsgTx_HasWitness (tx_msgTx t) in
      (mkTx (tx_msgTx t) (tx_txHash t) (tx_txHashWitness t) (Some hasWitness) (tx_txIndex t) (tx_rawBytes t),
       hasWitness)
  end.

(** The raw bytes less the marker, the flag and the witnesses. *)
Definition strip_witness (rawBytes : list byte) (baseSize : Z) : option (list byte) :=
  let offset := 4 in
  version ← slice_at rawBytes 0 offset;
  let offset := offset + 2 in
  body ← slice_at rawBytes offset (offset + baseSize - 8);
  locktime ← slice_at rawBytes (len rawBytes - 4) (len rawBytes);
  Some (version ++ body ++ locktime).

Definition Tx_Hash (t : Tx) : option (Tx * list byte) :=
  match tx_txHash t with
  | Some h => Some (t, h)
  | None =>
      match tx_rawBytes t with
      | None => let hash := MsgTx_TxHash (tx_msgTx t) in Some (set_hash t hash, hash)
      | Some rawBytes =>
          let '(t, hasWitness) := Tx_HasWitness t in
          hash ←
            (if hasWitness then
               nonWitnessBytes ← strip_witness rawBytes (MsgTx_SerializeSizeStripped (tx_msgTx t));
               Some (DoubleHashRaw nonWitnessBytes)
             else Some (DoubleHashRaw rawBytes));
          Some (set_hash t hash, hash)
      end
  end.

Definition Tx_WitnessHash (t : Tx) : Tx * list byte :=
  match tx_txHashWitness t with
  | Some h => (t, h)
  | None =>
      let hash :=
        match tx_rawBytes t with
        | Some (b :: rest) => DoubleHashH (b :: rest)
        | _ => MsgTx_WitnessHash (tx_msgTx t)
        end in
      (set_witness_hash t hash, hash)
  end.

(** ** Blocks *)

Definition BlockHeightUnknown : Z := -1.
Inductive OutOfRangeError : Type := OutOfRange (txNum numTx : Z).

(** A nil slice of bytes or of transactions and an empty one are the same to the
    code. *)
Record Block : Type := mkBlock {
  b_msgBlock : MsgBlock;
  b_serializedBlock : list byte;
  b_serializedBlockNoWitness : list byte;
  b_blockHash : option (list byte);
  b_blockHeight : Z;
  b_transactions : list (option Tx);
  b_txnsGenerated : bool;
}.

Definition NewBlock (msgBlock : MsgBlock) : Block :=
  mkBlock msgBlock [] [] None BlockHeightUnknown [] false.
Definition SetHeight (b : Block) (height : Z) : Block :=
  mkBlock (b_msgBlock b) (b_serializedBlock b) (b_serializedBlockNoWitness b) (b_blockHash b) height
    (b_transactions b) (b_txnsGenerated b).
Definition set_serialized (b : Block) (s : list byte) : Block :=
  mkBlock (b_msgBlock b) s (b_serializedBlockNoWitness b) (b_blockHash b) (b_blockHeight b)
    (b_transactions b) (b_txnsGenerated b).
Definition set_transactions (b : Block) (txs : list (option Tx)) (generated : bool) : Block :=
  mkBlock (b_msgBlock b) (b_serializedBlock b) (b_serializedBlockNoWitness b) (b_blockHash b) (b_blockHeight b)
    txs generated.

Definition Block_Bytes (b : Block) : Block * list byte :=
  match b_serializedBlock b with
  | _ :: _ => (b, b_serializedBlock b)
  | [] => let s := MsgBlock_Serialize (b_msgBlock b) in (set_serialized b s, s)
  end.

Definition BytesNoWitness (b : Block) : Block * list byte :=
  match b_serializedBlockNoWitness b with
  | _ :: _ => (b, b_serializedBlockNoWitness b)
  | [] =>
      let s := MsgBlock_SerializeNoWitness (b_msgBlock b) in
      (mkBlock (b_msgBlock b) (b_serializedBlock b) s (b_blockHash b) (b_blockHeight b)
         (b_transactions b) (b_txnsGenerated b), s)
  end.

Definition Block_Hash (b : Block) : Block * list byte :=
  match b_blockHash b with
  | Some h => (b, h)
  | None =>
      let hash := MsgBlock_BlockHash (b_msgBlock b) in
      (mkBlock (b_msgBlock b) (b_serializedBlock b) (b_serializedBlockNoWitness b) (Some hash) (b_blockHeight b)
         (b_transactions b) (b_txnsGenerated b), hash)
  end.

(** The slice of transactions, made when there is none. *)
Definition tx_slots (b : Block) : list (option Tx) :=
  match b_transactions b with
  | [] => replicate (length (MsgBlock_Transactions (b_msgBlock b))) None
  | txs => txs
  end.

(** [Block.Tx]; [None] is a panic. *)
Definition Block_Tx (b : Block) (txNum : Z) : option (result OutOfRangeError (Block * Tx)) :=
  let numTx := len (MsgBlock_Transactions (b_msgBlock b)) in
  if (txNum <? 0) || (numTx <=? txNum) then Some (Err (OutOfRange txNum numTx))
  else
    let txs := tx_slots b in
    slot ← txs !! Z.to_nat txNum;
    match slot with
    | Some t => Some (Ok (set_transactions b txs (b_txnsGenerated b), t))
    | None =>
        msgTx ← MsgBlock_Transactions (b_msgBlock b) !! Z.to_nat txNum;
        let newTx := SetIndex (NewTx msgTx) txNum in
        Some (Ok (set_transactions b (<[Z.to_nat txNum := Some newTx]> txs) (b_txnsGenerated b), newTx))
    end.

(** The loop of [Transactions]: the slots from [i] on and the running offset. *)
Fixpoint generate (msgTxs : list MsgTx) (serializedBlock : list byte) (offset : Z) (i : nat)
    (txs : list (option Tx)) : option (list (option Tx)) :=
  match txs with
  | [] => Some []
  | Some t :: txs' =>
      rest ← generate msgTxs serializedBlock offset (S i) txs';
      Some (Some t :: rest)
  | None :: txs' =>
      msgTx ← msgTxs !! i;
      let newTx := SetIndex (NewTx msgTx) (Z.of_nat i) in
      let size := MsgTx_SerializeSize msgTx in
      if 0 <? len serializedBlock then
        raw ← slice_at serializedBlock offset (offset + size);
        rest ← generate msgTxs serializedBlock (offset + size) (S i) txs';
        Some (Some (setBytes newTx raw) :: rest)
      else
        rest ← generate msgTxs serializedBlock offset (S i) txs';
        Some (Some newTx :: rest)
  end.

Definition Block_Transactions (b : Block) : option Block :=
  if b_txnsGenerated b then Some b
  else
    let offset := 80 + VarIntSerializeSize (len (MsgBlock_Transactions (b_msgBlock b))) in
    txs ← generate (MsgBlock_Transactions (b_msgBlock b)) (b_serializedBlock b) offset 0 (tx_slots b);
    Some (set_transactions b txs true).

(** [Block.TxHash]: the hash stays in the block's [Tx]. *)
Definition Block_TxHash (b : Block) (txNum : Z) : option (result OutOfRangeError (Block * list byte)) :=
  r ← Block_Tx b txNum;
  match r with
  | Err e => Some (Err e)
  | Ok (b, t) =>
      '(t, h) ← Tx_Hash t;
      Some (Ok (set_transactions b (<[Z.to_nat txNum := Some t]> (b_transactions b)) (b_txnsGenerated b), h))
  end.

Definition Block_TxLoc (b : Block) : Block * result wire_error (list TxLoc) :=
  let '(b, rawMsg) := Block_Bytes b in
  (b, '(r, _) ← MsgBlock_DeserializeTxLoc rawMsg; mret r.2).

Definition NewBlockFromReader (r : list byte) : result wire_error (Block * list byte) :=
  '(msgBlock, rest) ← MsgBlock_Deserialize r;
  mret (NewBlock msgBlock, rest).

Definition NewBlockFromBytes (serializedBlock : list byte) : option (result wire_error Block) :=
  match NewBlockFromReader serializedBlock with
  | Err e => Some (Err e)
  | Ok (b, _) => b ← Block_Transactions (set_serialized b serializedBlock); Some (Ok b)
  end.

Definition NewBlockFromBlockAndBytes (msgBlock : MsgBlock) (serializedBlock : list byte) : option Block :=
  Block_Transactions (set_serialized (NewBlock msgBlock) serializedBlock).

(** * Specification *)

(** A cache holds nothing or the value it caches. *)
Definition cached {A} (c : option A) (v : A) : Prop := c = None \/ c = Some v.

Record tx_ok (t : Tx) : Prop := {
  to_ins : Forall TxIn_ok (MsgTx_TxIn (tx_msgTx t));
  to_raw : cached (tx_rawBytes t) (MsgTx_Serialize (tx_msgTx t));
  to_hash : cached (tx_txHash t) (MsgTx_TxHash (tx_msgTx t));
  to_whash : cached (tx_txHashWitness t) (MsgTx_WitnessHash (tx_msgTx t));
  to_wit : cached (tx_txHasWitness t) (MsgTx_HasWitness (tx_msgTx t));
}.

(** The slot of the transaction [i] of a block. *)
Definition slot_ok (msgTxs : list MsgTx) (i : nat) (slot : option Tx) : Prop :=
  forall t, slot = Some t -> tx_ok t /\ msgTxs !! i = Some (tx_msgTx t) /\ tx_txIndex t = Z.of_nat i.

Record block_ok (b : Block) : Prop := {
  bo_ins : Forall (fun tx => Forall TxIn_ok (MsgTx_TxIn tx)) (MsgBlock_Transactions (b_msgBlock b));
  bo_header : BlockHeader_ok (MsgBlock_Header (b_msgBlock b));
  bo_bytes : b_serializedBlock b = [] \/ exists rest, b_serializedBlock b = MsgBlock_Serialize (b_msgBlock b) ++ rest;
  bo_length : b_transactions b = [] \/ length (b_transactions b) = length (MsgBlock_Transactions (b_msgBlock b));
  bo_slots : forall i slot, b_transactions b !! i = Some slot -> slot_ok (MsgBlock_Transactions (b_msgBlock b)) i slot;
}.

(** * Proofs *)

(** ** Transactions *)

Lemma slice_at_app pre x post i j :
  i = len pre -> j = len pre + len x -> slice_at (pre ++ x ++ post) i j = Some x.
Proof.
  intros -> ->. unfold slice_at. pose proof (len_nonneg pre). pose proof (len_nonneg x). pose proof (len_nonneg post).
  rewrite !len_app. replace ((0 <=? len pre) && (len pre <=? len pre + len x) && (len pre + len x <=? len pre + (len x + len post)))
    with true by (symmetry; rewrite !andb_true_iff, !Z.leb_le; lia).
  replace (len pre + len x - len pre) with (len x) by lia. by rewrite bytes_at_app.
Qed.

Lemma serialize_parts msg : exists body wits,
  MsgTx_SerializeNoWitness msg = le_put 4 (wrap_u32 (MsgTx_Version msg)) ++ body ++ le_put 4 (MsgTx_LockTime msg) /\
  MsgTx_Serialize msg = le_put 4 (wrap_u32 (MsgTx_Version msg)) ++
    (if MsgTx_HasWitness msg then [z2b TxFlagMarker; z2b WitnessFlag] else []) ++ body ++ wits ++ le_put 4 (MsgTx_LockTime msg) /\
  (MsgTx_HasWitness msg = false -> wits = []).
Proof.
  unfold MsgTx_Serialize, MsgTx_SerializeNoWitness, MsgTx_BtcEncode, MsgTx_btcEncode.
  change (bool_decide (WitnessEncoding = WitnessEncoding)) with true.
  change (bool_decide (BaseEncoding = WitnessEncoding)) with false. cbn [andb app].
  exists (WriteVarIntBuf 0 (len (MsgTx_TxIn msg)) ++ write_all (writeTxInBuf 0 (MsgTx_Version msg)) (MsgTx_TxIn msg) ++
    WriteVarIntBuf 0 (len (MsgTx_TxOut msg)) ++ write_all (WriteTxOutBuf 0 (MsgTx_Version msg)) (MsgTx_TxOut msg)),
    (if MsgTx_HasWitness msg then write_all (fun ti => writeTxWitnessBuf 0 (MsgTx_Version msg) (wit_items ti)) (MsgTx_TxIn msg) else []).
  rewrite <- !app_assoc. split; [reflexivity|]. split; [reflexivity|]. by intros ->.
Qed.

Lemma strip_witness_correct msg : Forall TxIn_ok (MsgTx_TxIn msg) -> MsgTx_HasWitness msg = true ->
  strip_witness (MsgTx_Serialize msg) (MsgTx_SerializeSizeStripped msg) = Some (MsgTx_SerializeNoWitness msg).
Proof.
  intros Hok Hw. destruct (serialize_parts msg) as (body & wits & Hn & Hs & _). rewrite Hw in Hs.
  pose proof (proj2 (tx_sizes msg Hok)) as Hsize. rewrite Hn, !len_app, !len_le_put in Hsize.
  rewrite Hs, Hn. set (v := le_put 4 (wrap_u32 _)) in *. set (l := le_put 4 (MsgTx_LockTime msg)) in *.
  assert (Hv : len v = 4) by apply len_le_put. assert (Hl : len l = 4) by apply len_le_put.
  clearbody v l. unfold strip_witness.
  set (marks := [z2b TxFlagMarker; z2b WitnessFlag]). set (raw := v ++ marks ++ body ++ wits ++ l).
  assert (slice_at raw 0 4 = Some v) as -> by (apply (slice_at_app []); by rewrite ?Hv).
  assert (slice_at raw 6 (6 + MsgTx_SerializeSizeStripped msg - 8) = Some body) as Hb.
  { unfold raw. rewrite (app_assoc v). apply slice_at_app; rewrite len_app, Hv; change (len marks) with 2; lia. }
  assert (slice_at raw (len raw - 4) (len raw) = Some l) as Hlock.
  { replace raw with ((v ++ marks ++ body ++ wits) ++ l ++ []) by (unfold raw; by rewrite app_nil_r, <- !app_assoc).
    apply slice_at_app; rewrite !len_app, Hl; unfold len; cbn [length]; lia. }
  cbn [mbind option_bind]. change (4 + 2) with 6. rewrite Hb. cbn [mbind option_bind]. by rewrite Hlock.
Qed.

Lemma HasWitness_cached t : tx_ok t ->
  exists t', Tx_HasWitness t = (t', MsgTx_HasWitness (tx_msgTx t)) /\ tx_ok t' /\
    tx_msgTx t' = tx_msgTx t /\ tx_rawBytes t' = tx_rawBytes t /\ tx_txIndex t' = tx_txIndex t.
Proof.
  intros Hok. pose proof Hok as [Hi Hr Hh Hwh Hw]. unfold Tx_HasWitness. destruct Hw as [-> | ->]; [|by exists t].
  eexists. split; [done|]. split_and!; try done. (split; cbn; try done; first [by left|by right]).
Qed.

Lemma Tx_Hash_ok t : tx_ok t ->
  exists t', Tx_Hash t = Some (t', MsgTx_TxHash (tx_msgTx t)) /\ tx_ok t' /\
    tx_msgTx t' = tx_msgTx t /\ tx_rawBytes t' = tx_rawBytes t /\ tx_txIndex t' = tx_txIndex t.
Proof.
  intros Hok. destruct (HasWitness_cached t Hok) as (t1 & Hw1 & Hok1 & Hm1 & Hr1 & Hx1).
  pose proof Hok as [Hi Hr Hh Hwh Hw]. unfold Tx_Hash. destruct Hh as [-> | ->]; [|by exists t].
  destruct Hr as [Hr|Hr]; rewrite Hr.
  - eexists. split; [done|]. split_and!; cbn; try congruence. split; cbn; try done; first [by left|by right].
  - rewrite Hw1.
    assert (Hraw : (if MsgTx_HasWitness (tx_msgTx t)
      then nonWitnessBytes ← strip_witness (MsgTx_Serialize (tx_msgTx t)) (MsgTx_SerializeSizeStripped (tx_msgTx t1));
           Some (DoubleHashRaw nonWitnessBytes)
      else Some (DoubleHashRaw (MsgTx_Serialize (tx_msgTx t)))) = Some (MsgTx_TxHash (tx_msgTx t))).
    { rewrite Hm1. destruct (MsgTx_HasWitness (tx_msgTx t)) eqn:E; [by rewrite strip_witness_correct by done|].
      destruct (serialize_parts (tx_msgTx t)) as (body & wits & Hn & Hs & Hno).
      unfold MsgTx_TxHash. rewrite Hs, Hn, E, (Hno E). done. }
    rewrite Hraw. cbn [mbind option_bind]. eexists. split; [done|]. split_and!; cbn; try congruence.
    destruct Hok1. split; cbn; try done. right. by rewrite Hm1.
Qed.

Lemma Tx_WitnessHash_ok t : tx_ok t ->
  exists t', Tx_WitnessHash t = (t', MsgTx_WitnessHash (tx_msgTx t)) /\ tx_ok t' /\ tx_msgTx t' = tx_msgTx t.
Proof.
  intros Hok. pose proof Hok as [Hi Hr Hh Hwh Hw]. unfold Tx_WitnessHash. destruct Hwh as [-> | ->]; [|by exists t].
  set (h := match tx_rawBytes t with Some (b :: rest) => _ | _ => _ end).
  assert (h = MsgTx_WitnessHash (tx_msgTx t)) as ->.
  { unfold h. destruct Hr as [-> | ->]; [done|]. destruct (MsgTx_Serialize (tx_msgTx t)) as [|b rest] eqn:E; [done|].
    rewrite <- E. unfold MsgTx_WitnessHash. destruct (MsgTx_HasWitness (tx_msgTx t)) eqn:Ew; [done|].
    destruct (serialize_parts (tx_msgTx t)) as (body & wits & Hn & Hs & Hno).
    unfold MsgTx_TxHash. rewrite Hs, Hn, Ew, (Hno Ew). done. }
  eexists. split; [done|]. split; [|done]. split; cbn; try done; by right.
Qed.

(** ** Blocks *)

Definition fresh (i : nat) (raw : option (list byte)) (msgTx : MsgTx) : Tx :=
  mkTx msgTx None None None (Z.of_nat i) raw.

Lemma fresh_ok i msgTx raw : Forall TxIn_ok (MsgTx_TxIn msgTx) -> cached raw (MsgTx_Serialize msgTx) -> tx_ok (fresh i raw msgTx).
Proof. intros. split; cbn; [done|done|by left..]. Qed.

(** The loop over slots that are all empty cuts the serialized block into its
    transactions. *)
Lemma generate_raw msgTxs ser todo pre rest i :
  (forall k m, todo !! k = Some m -> msgTxs !! (i + k)%nat = Some m) ->
  Forall (fun tx => Forall TxIn_ok (MsgTx_TxIn tx)) todo ->
  ser = pre ++ write_all (MsgTx_btcEncode 0 WitnessEncoding) todo ++ rest -> 0 < len ser ->
  generate msgTxs ser (len pre) i (replicate (length todo) None) =
    Some (imap (fun k m => Some (fresh (i + k) (Some (MsgTx_Serialize m)) m)) todo).
Proof.
  revert pre i. induction todo as [|m todo IH]; intros pre i Hget Hok Hser Hpos; [done|].
  apply list.Forall_cons in Hok as [Hm Hok]. cbn [length replicate generate].
  pose proof (Hget 0%nat m eq_refl) as H0. rewrite Nat.add_0_r in H0. rewrite H0. cbn [mbind option_bind].
  rewrite write_all_cons in Hser. change (MsgTx_btcEncode 0 WitnessEncoding m) with (MsgTx_Serialize m) in Hser.
  destruct (Z.ltb_spec 0 (len ser)); [|lia]. rewrite <- (proj1 (tx_sizes m Hm)).
  rewrite Hser at 1. rewrite <- app_assoc, slice_at_app by done. cbn [mbind option_bind].
  rewrite <- len_app, (IH (pre ++ MsgTx_Serialize m) (S i)); [|intros k m' Hk; replace (S i + k)%nat with (i + S k)%nat by lia; by apply Hget|done| |done].
  - cbn [mbind option_bind imap]. f_equal. f_equal; [unfold fresh, setBytes, SetIndex, NewTx; cbn; by rewrite Nat.add_0_r|].
    apply imap_ext. intros k x Hk. cbn. by rewrite Nat.add_succ_r.
  - rewrite Hser, <- !app_assoc. done.
Qed.

Lemma generate_bare msgTxs offset todo i :
  (forall k m, todo !! k = Some m -> msgTxs !! (i + k)%nat = Some m) ->
  generate msgTxs [] offset i (replicate (length todo) None) =
    Some (imap (fun k m => Some (fresh (i + k) None m)) todo).
Proof.
  revert i. induction todo as [|m todo IH]; intros i Hget; [done|]. cbn [length replicate generate].
  pose proof (Hget 0%nat m eq_refl) as H0. rewrite Nat.add_0_r in H0. rewrite H0. cbn [mbind option_bind].
  change (0 <? len []) with false. cbv iota. rewrite (IH (S i)).
  - cbn [mbind option_bind imap]. f_equal. f_equal; [unfold fresh; cbn; by rewrite Nat.add_0_r|].
    apply imap_ext. intros k x Hk. cbn. by rewrite Nat.add_succ_r.
  - intros k m' Hk. replace (S i + k)%nat with (i + S k)%nat by lia. by apply Hget.
Qed.

Lemma block_prefix msg : BlockHeader_ok (MsgBlock_Header msg) ->
  exists pre, len pre = 80 + VarIntSerializeSize (len (MsgBlock_Transactions msg)) /\
    MsgBlock_Serialize msg = pre ++ write_all (MsgTx_btcEncode 0 WitnessEncoding) (MsgBlock_Transactions msg).
Proof.
  intros Hh. exists (writeBlockHeaderBuf 0 (MsgBlock_Header msg) ++ WriteVarIntBuf 0 (len (MsgBlock_Transactions msg))).
  split; [|unfold MsgBlock_Serialize, MsgBlock_BtcEncode; by rewrite <- app_assoc].
  rewrite len_app, (len_writeBlockHeaderBuf _ _ Hh), length_WriteVarIntBuf by apply len_nonneg. done.
Qed.

(** On a block none of whose transactions has been wrapped, [Transactions] wraps
    every one with its own bytes. *)
Lemma Transactions_fresh b :
  block_ok b -> b_transactions b = [] -> b_txnsGenerated b = false ->
  exists b', Block_Transactions b = Some b' /\ block_ok b' /\ b_msgBlock b' = b_msgBlock b /\
    b_serializedBlock b' = b_serializedBlock b /\
    forall i m, MsgBlock_Transactions (b_msgBlock b) !! i = Some m -> exists t, b_transactions b' !! i = Some (Some t).
Proof.
  intros [Hins Hh Hb Hl Hs] Htx Hg. unfold Block_Transactions, tx_slots. rewrite Hg, Htx.
  set (txs := MsgBlock_Transactions (b_msgBlock b)) in *.
  assert (Hgen : exists raw, (forall m, cached (raw m) (MsgTx_Serialize m)) /\
    generate txs (b_serializedBlock b) (80 + VarIntSerializeSize (len txs)) 0 (replicate (length txs) None) =
      Some (imap (fun k m => Some (fresh k (raw m) m)) txs)).
  { destruct Hb as [-> | [rest Hb]].
    - exists (fun _ => None). split; [by left|]. rewrite (generate_bare txs _ txs 0); done.
    - exists (fun m => Some (MsgTx_Serialize m)). split; [by right|].
      destruct (block_prefix (b_msgBlock b) Hh) as (pre & Hpre & Hser). fold txs in Hpre, Hser. rewrite <- Hpre.
      rewrite Hser, <- app_assoc in Hb. apply (generate_raw txs _ txs pre rest 0); [done|done|done|].
      rewrite Hb, len_app, Hpre. pose proof (len_nonneg (write_all (MsgTx_btcEncode 0 WitnessEncoding) txs ++ rest)).
      pose proof (VarIntSerializeSize_bounds (len txs)). lia. }
  destruct Hgen as (raw & Hraw & ->). cbn [mbind option_bind]. eexists. split; [done|]. split_and!; [|done|done|].
  - split; cbn; [done|done|done|right; by rewrite length_imap|].
    intros i slot Hi. rewrite list_lookup_imap in Hi. fold txs. destruct (txs !! i) as [m|] eqn:Hm; [|done].
    injection Hi as <-. intros t Ht. injection Ht as <-. split; [|done]. apply fresh_ok; [|done].
    exact (Forall_lookup_1 _ _ _ _ Hins Hm).
  - intros i m Hm. cbn. rewrite list_lookup_imap. fold txs in Hm. rewrite Hm. by eexists.
Qed.

(** A hash asked of a block in order is the transaction's, and the block stays in
    order. *)
Lemma Block_Tx_ok b i m :
  block_ok b -> MsgBlock_Transactions (b_msgBlock b) !! i = Some m ->
  exists b' t, Block_Tx b (Z.of_nat i) = Some (Ok (b', t)) /\ block_ok b' /\ b_msgBlock b' = b_msgBlock b /\
    tx_ok t /\ tx_msgTx t = m /\ tx_txIndex t = Z.of_nat i /\ b_transactions b' !! i = Some (Some t).
Proof.
  intros Hok Hm. pose proof Hok as [Hins Hh Hb Hl Hs]. pose proof (lookup_lt_Some _ _ _ Hm) as Hlt.
  set (txs := MsgBlock_Transactions (b_msgBlock b)) in *.
  assert (Hslots : length (tx_slots b) = length txs /\ forall j slot, tx_slots b !! j = Some slot -> slot_ok txs j slot).
  { unfold tx_slots. fold txs. destruct (b_transactions b) as [|x l]; [|destruct Hl as [?|Hl]; [done|by split]].
    split; [by rewrite length_replicate|]. intros j slot Hj t ->. apply lookup_replicate in Hj as [? _]. done. }
  destruct Hslots as [Hlen Hslots]. unfold Block_Tx. fold txs. unfold len.
  destruct (Z.ltb_spec (Z.of_nat i) 0); [lia|]. destruct (Z.leb_spec (Z.of_nat (length txs)) (Z.of_nat i)); [lia|]. cbn [orb].
  rewrite Nat2Z.id. destruct (lookup_lt_is_Some_2 (tx_slots b) i) as [slot Hslot]; [lia|]. rewrite Hslot. cbn [mbind option_bind].
  destruct slot as [t|].
  - destruct (Hslots _ _ Hslot t eq_refl) as (Ht & Htm & Hti). eexists _, t. split; [done|]. split_and!; [|done|done|congruence|done|done].
    split; cbn; [done|done|done|by right|done].
  - rewrite Hm. cbn [mbind option_bind]. set (t := SetIndex (NewTx m) (Z.of_nat i)).
    assert (Ht : tx_ok t).
    { apply (fresh_ok i m None); [|by left]. exact (Forall_lookup_1 _ _ _ _ Hins Hm). }
    eexists _, t. split; [done|]. split_and!; [|done|done|done|done|cbn; apply list_lookup_insert_eq; lia].
    split; cbn; [done|done|done|right; by rewrite length_insert|]. intros j slot Hj.
    apply list_lookup_insert_Some in Hj as [(<- & <- & _)|[_ Hj]]; [|by apply Hslots]. intros t' Ht'. by injection Ht' as <-.
Qed.

Lemma Block_TxHash_ok b i m :
  block_ok b -> MsgBlock_Transactions (b_msgBlock b) !! i = Some m ->
  exists b', Block_TxHash b (Z.of_nat i) = Some (Ok (b', MsgTx_TxHash m)) /\ block_ok b' /\ b_msgBlock b' = b_msgBlock b.
Proof.
  intros Hok Hm. destruct (Block_Tx_ok b i m Hok Hm) as (b1 & t & Htx & Hok1 & Hmsg & Ht & Htm & Hti & Hslot).
  unfold Block_TxHash. rewrite Htx. cbn [mbind option_bind].
  destruct (Tx_Hash_ok t Ht) as (t' & -> & Ht' & Hm' & _ & Hi'). cbn [mbind option_bind]. rewrite Htm, Nat2Z.id.
  eexists. split; [done|]. split; [|done]. destruct Hok1 as [H1 H2 H3 H4 H5].
  pose proof (lookup_lt_Some _ _ _ Hslot) as Hlt.
  split; cbn; [done|done|done|right; rewrite length_insert; by destruct H4 as [H4|H4]; [rewrite H4 in Hlt; cbn in Hlt; lia|]|].
  intros j slot Hj. apply list_lookup_insert_Some in Hj as [(<- & <- & _)|[_ Hj]]; [|by apply H5].
  intros t2 Ht2. injection Ht2 as <-. split_and!; [done| |congruence]. rewrite Hmsg, Hm'. congruence.
Qed.

(** What a decoded block gives. *)
Lemma Deserialize_block_ok bs msg rest : MsgBlock_Deserialize bs = Ok (msg, rest) ->
  block_ok (set_serialized (NewBlock msg) bs).
Proof.
  intros H. apply (codec_inv (HC := MsgBlock_codec 0 WitnessEncoding)) in H as [(Hh & Hl & Htxs) ->].
  split; cbn; [|done|right; by exists rest|by left|done].
  eapply Forall_impl; [|exact Htxs]. intros tx [Hok _]. apply (ok_ins _ _ _ Hok).
Qed.

(** * The correctness of the component *)

(** C: a [Tx] in order answers with the hashes of its transaction, whatever it
    has cached and whether or not it has the bytes it was read from: stripping the
    marker, the flag and the witnesses from those bytes gives the serialization
    without witnesses.  It stays in order. *)
Theorem Tx_hashes_correct t (Hok : tx_ok t) :
  (exists t', Tx_Hash t = Some (t', MsgTx_TxHash (tx_msgTx t)) /\ tx_ok t') /\
  (exists t', Tx_WitnessHash t = (t', MsgTx_WitnessHash (tx_msgTx t)) /\ tx_ok t').
Proof.
  destruct (Tx_Hash_ok t Hok) as (t1 & H1 & Ht1 & _), (Tx_WitnessHash_ok t Hok) as (t2 & H2 & Ht2 & _). split; eauto.
Qed.

(** C: [NewBlockFromBytes] answers on every input that decodes, keeps the input as
    the bytes of the block, and the hash it gives for each transaction, computed
    from the bytes at its place in the block, is that of the decoded
    transaction. *)
Theorem NewBlockFromBytes_hashes bs msg rest (Hdec : MsgBlock_Deserialize bs = Ok (msg, rest)) :
  exists b, NewBlockFromBytes bs = Some (Ok b) /\ b_msgBlock b = msg /\ (Block_Bytes b).2 = bs /\ block_ok b /\
    forall i m, MsgBlock_Transactions msg !! i = Some m ->
      exists b', Block_TxHash b (Z.of_nat i) = Some (Ok (b', MsgTx_TxHash m)) /\ block_ok b'.
Proof.
  pose proof (Deserialize_block_ok _ _ _ Hdec) as Hok.
  destruct (Transactions_fresh _ Hok eq_refl eq_refl) as (b & Hb & Hok' & Hmsg & Hser & _). cbn in Hmsg, Hser.
  exists b. unfold NewBlockFromBytes, NewBlockFromReader. rewrite Hdec. cbn [mbind result_bind].
  change (mret (NewBlock msg, rest)) with (Ok (E := wire_error) (NewBlock msg, rest)). cbv beta iota. rewrite Hb.
  split_and!; [done|done| |done|].
  - unfold Block_Bytes. rewrite Hser. destruct bs; [|done].
    vm_compute in Hdec. discriminate Hdec.
  - intros i m Hm. destruct (Block_TxHash_ok b i m Hok') as (b' & Hh & Hb' & _); [by rewrite Hmsg|]. by exists b'.
Qed.

(** C: [Transactions] gives a wrong hash when a transaction was wrapped before the
    block was serialized: the offset is advanced only past the transactions it
    wraps itself.  For a block of two transactions of one size without witnesses,
    asking for the first, then for the bytes, then for all, makes the second
    transaction answer with the hash of the first. *)
Theorem Transactions_misplaced h t0 t1
    (Hh : BlockHeader_ok h) (Hi : Forall TxIn_ok (MsgTx_TxIn t0) /\ Forall TxIn_ok (MsgTx_TxIn t1))
    (Hw : MsgTx_HasWitness t0 = false /\ MsgTx_HasWitness t1 = false)
    (Hsize : MsgTx_SerializeSize t0 = MsgTx_SerializeSize t1) :
  exists b1 t b2 b3 b4,
    Block_Tx (NewBlock (mkMsgBlock h [t0; t1])) 0 = Some (Ok (b1, t)) /\
    b2 = (Block_Bytes b1).1 /\ Block_Transactions b2 = Some b3 /\
    Block_TxHash b3 1 = Some (Ok (b4, MsgTx_TxHash t0)).
Proof.
  destruct Hi as [Hi0 Hi1], Hw as [Hw0 Hw1]. set (msg := mkMsgBlock h [t0; t1]).
  destruct (block_prefix msg Hh) as (pre & Hpre & Hser). cbn [MsgBlock_Transactions msg] in Hpre, Hser.
  set (s := MsgBlock_Serialize msg) in *.
  assert (Hs : s = pre ++ MsgTx_Serialize t0 ++ MsgTx_Serialize t1 ++ []).
  { rewrite Hser, !write_all_cons. done. }
  assert (Hplain : forall m, MsgTx_HasWitness m = false -> MsgTx_Serialize m = MsgTx_SerializeNoWitness m).
  { intros m Hm. destruct (serialize_parts m) as (body & wits & Hn & Hsr & Hno). by rewrite Hsr, Hn, Hm, (Hno Hm). }
  assert (Hcut : slice_at s (len pre) (len pre + MsgTx_SerializeSize t1) = Some (MsgTx_Serialize t0)).
  { rewrite Hs. apply slice_at_app; [done|]. by rewrite <- Hsize, (proj1 (tx_sizes t0 Hi0)). }
  assert (exists t', Tx_Hash (setBytes (SetIndex (NewTx t1) (Z.of_nat 1)) (MsgTx_Serialize t0)) = Some (t', MsgTx_TxHash t0))
    as [t' Ht'].
  { unfold Tx_Hash, Tx_HasWitness. cbn [tx_txHash tx_rawBytes tx_txHasWitness tx_msgTx setBytes SetIndex NewTx].
    rewrite Hw1. eexists. unfold MsgTx_TxHash. by rewrite <- (Hplain t0 Hw0). }
  eexists _, _, _, _, _. split; [reflexivity|]. split; [reflexivity|].
  assert (Hlen : 0 < len s) by (rewrite Hs, len_app, Hpre; pose proof (VarIntSerializeSize_bounds (len [t0; t1]));
    pose proof (len_nonneg (MsgTx_Serialize t0 ++ MsgTx_Serialize t1 ++ [])); lia).
  unfold Block_Bytes. cbn [b_serializedBlock set_transactions NewBlock b_msgBlock fst]. fold s.
  split.
  - unfold Block_Transactions. cbn [b_txnsGenerated set_serialized set_transactions NewBlock b_msgBlock b_serializedBlock tx_slots b_transactions MsgBlock_Transactions msg].
    rewrite <- Hpre. change (tx_slots _) with [Some (SetIndex (NewTx t0) 0); None].
    cbn [generate lookup list_lookup mbind option_bind].
    destruct (Z.ltb_spec 0 (len s)); [|lia]. rewrite Hcut. cbn [mbind option_bind]. reflexivity.
  - unfold Block_TxHash, Block_Tx. cbn [b_msgBlock set_transactions set_serialized NewBlock MsgBlock_Transactions msg].
    change ((1 <? 0) || (len [t0; t1] <=? 1)) with false. change (Z.to_nat 1) with 1%nat.
    unfold tx_slots. cbn [b_transactions set_transactions lookup list_lookup mbind option_bind].
    rewrite Ht'. reflexivity.
Qed.

Lemma Tx_hashes_correct_witness :
  exists t', Tx_Hash (fresh 0 (Some (MsgTx_Serialize tx_example)) tx_example) = Some (t', MsgTx_TxHash tx_example) /\ tx_ok t'.
Proof. apply (Tx_hashes_correct (fresh 0 (Some (MsgTx_Serialize tx_example)) tx_example)). apply fresh_ok; [apply tx_example_ok|by right]. Defined.

Lemma NewBlockFromBytes_hashes_witness :
  exists b, NewBlockFromBytes (MsgBlock_Serialize block_example) = Some (Ok b) /\ b_msgBlock b = normalize_block WitnessEncoding block_example.
Proof.
  destruct (NewBlockFromBytes_hashes (MsgBlock_Serialize block_example) (normalize_block WitnessEncoding block_example) []) as (b & H1 & H2 & _);
    [vm_compute; reflexivity|exact (ex_intro _ b (conj H1 H2))].
Defined.

Lemma Transactions_misplaced_witness : exists b1 t b2 b3 b4,
  Block_Tx (NewBlock (mkMsgBlock (MsgBlock_Header block_example) [mkMsgTx 1 [] [] 0; mkMsgTx 2 [] [] 0])) 0 = Some (Ok (b1, t)) /\
  b2 = (Block_Bytes b1).1 /\ Block_Transactions b2 = Some b3 /\
  Block_TxHash b3 1 = Some (Ok (b4, MsgTx_TxHash (mkMsgTx 1 [] [] 0))).
Proof.
  apply Transactions_misplaced; [apply block_example_ok|split; constructor|split; reflexivity|reflexivity].
Defined.
