(* ===== verification/KeyMap.v ===== *)
(** * What the database asks of its ordered maps

    The pending keys of a transaction and of the cache live in treaps.  Their
    clients are proved against the class [KeyMap]; the treaps of [Treap] are an
    instance, for any sequence of priorities.  The other interface is that of the
    metadata database, goleveldb, which is not part of the repository: a class
    [LevelDB] of what its documentation promises of snapshots and batches. *)

From Stdlib Require Import ZArith Lia.
From stdpp Require Import sorting.
From S2P Require Import Prelude WireCommon Treap.

Open Scope Z_scope.

Abbreviation bytes := (list byte).

(** ** Ordered maps *)

Class KeyMap (T : Type) : Type := {
  km_empty : T;
  km_has : T -> bytes -> bool;
  km_get : T -> bytes -> option bytes;
  km_put : T -> bytes -> option bytes -> T;
  km_delete : T -> bytes -> T;
  km_len : T -> Z;
  km_size : T -> Z;
  km_entries : T -> list (bytes * bytes);   (* what [ForEach] visits *)
}.

Definition pair_size (p : bytes * bytes) : Z := wrap_u64 (nodeFieldsSize + len p.1 + len p.2).
Definition pairs_size (l : list (bytes * bytes)) : Z := foldr (fun p n => pair_size p + n) 0 l.
Definition sorted_keys (l : list (bytes * bytes)) : Prop := StronglySorted key_lt l.*1.

Class KeyMapLaws (T : Type) `{KeyMap T} : Type := {
  km_view : T -> gmap bytes bytes;
  km_view_empty : km_view km_empty = ∅;
  km_has_view t k : km_has t k = bool_decide (is_Some (km_view t !! k));
  km_get_view t k : km_get t k = km_view t !! k;
  km_put_view t k v : km_view (km_put t k v) = <[k := default [] v]> (km_view t);
  km_delete_view t k : km_view (km_delete t k) = delete k (km_view t);
  km_len_view t : km_len t = Z.of_nat (size (km_view t));
  km_entries_view t : list_to_map (km_entries t) = km_view t;
  km_entries_sorted t : sorted_keys (km_entries t);
  km_size_view t : km_size t = wrap_u64 (pairs_size (km_entries t));
}.

(** ** The metadata database *)

Inductive batch_op : Type :=
| BatchPut (key value : bytes)
| BatchDelete (key : bytes).

Class LevelDB (L : Type) : Type := {
  ldb_new : L;                            (* [OpenFile] of a database that does not exist *)
  ldb_get : L -> bytes -> option bytes;
  ldb_write : L -> list batch_op -> L;   (* a batch or a transaction, once committed *)
}.

Definition apply_op (m : gmap bytes bytes) (o : batch_op) : gmap bytes bytes :=
  match o with BatchPut k v => <[k := v]> m | BatchDelete k => delete k m end.

Class LevelDBLaws (L : Type) `{LevelDB L} : Type := {
  ldb_view : L -> gmap bytes bytes;
  ldb_new_view : ldb_view ldb_new = ∅;
  ldb_get_view l k : ldb_get l k = ldb_view l !! k;
  ldb_write_view l ops : ldb_view (ldb_write l ops) = foldl apply_op (ldb_view l) ops;
}.

(** A finite map has what is asked of the metadata database. *)
#[export] Instance map_ldb : LevelDB (gmap bytes bytes) := {
  ldb_new := ∅;
  ldb_get := fun m k => m !! k;
  ldb_write := foldl apply_op;
}.
#[export] Instance map_ldb_laws : LevelDBLaws (gmap bytes bytes).
Proof. by refine {| ldb_view := fun m => m |}. Defined.

(** ** The treaps *)

Section treaps.
Context (rand : nat -> Z).

(** A treap with the number of priorities drawn for it. *)
Record drawn : Type := mkDrawn {
  dr_treap : Immutable;
  dr_ok : im_ok dr_treap;
  dr_draws : nat;
}.

Definition collect_pair (l : list (bytes * bytes)) (k v : bytes) : list (bytes * bytes) * bool := (l ++ [(k, v)], true).

Lemma empty_ok : im_ok NewImmutable.
Proof. split; [constructor|done|done]. Qed.

(** [Put] draws a priority whether it uses it or not. *)
Definition drawn_put (t : drawn) (k : bytes) (v : option bytes) : drawn :=
  mkDrawn (Immutable_put (dr_treap t) k v (rand (dr_draws t)))
    (proj1 (Immutable_put_ok (dr_treap t) k v (rand (dr_draws t)) (dr_ok t))) (S (dr_draws t)).

Lemma delete_ok (t : Immutable) k : im_ok t -> im_ok (default t (Immutable_Delete t k)).
Proof. intros Hok. by destruct (Immutable_delete_ok t k Hok) as (t' & -> & Hok' & _). Qed.
Definition drawn_delete (t : drawn) (k : bytes) : drawn :=
  mkDrawn (default (dr_treap t) (Immutable_Delete (dr_treap t) k)) (delete_ok _ k (dr_ok t)) (dr_draws t).

#[export] Instance immutable_KeyMap : KeyMap drawn := {
  km_empty := mkDrawn NewImmutable empty_ok 0;
  km_has t k := Immutable_Has (dr_treap t) k;
  km_get t k := Immutable_Get (dr_treap t) k;
  km_put := drawn_put;
  km_delete := drawn_delete;
  km_len t := Immutable_Len (dr_treap t);
  km_size t := Immutable_Size (dr_treap t);
  km_entries t := default [] (Immutable_ForEach collect_pair (dr_treap t) []);
}.

Lemma visit_collect l acc : visit collect_pair l acc = acc ++ map node_pair l.
Proof. revert acc. induction l as [|n l IH]; intros acc; cbn; [by rewrite app_nil_r|]. rewrite IH, <- app_assoc. done. Qed.

Lemma drawn_entries (t : drawn) : km_entries t = map node_pair (inorder (im_root (dr_treap t))).
Proof.
  change (km_entries t) with (default [] (Immutable_ForEach collect_pair (dr_treap t) [])).
  destruct (ForEach_correct collect_pair (dr_treap t) (dr_ok t) []) as [-> _]. apply visit_collect.
Qed.

Lemma fst_node_pairs l : (map node_pair l).*1 = map node_key l.
Proof. induction l as [|n l IH]; [done|]. cbn. by f_equal. Qed.
Lemma sorted_map_key l : sorted_nodes l -> StronglySorted key_lt (map node_key l).
Proof.
  induction 1 as [|n l _ IH Hl]; cbn; constructor; [done|]. by apply List.Forall_map.
Qed.

Lemma sum_pairs l : wrap_u64 (sum_nodes l) = wrap_u64 (pairs_size (map node_pair l)).
Proof.
  assert (sum_nodes l = pairs_size (map node_pair l)) as ->; [|done].
  induction l as [|n l IH]; [done|]. cbn [sum_nodes pairs_size foldr map]. unfold sum_nodes, pairs_size in IH. rewrite IH.
  f_equal. unfold pair_size, node_pair. cbn. rewrite nodeSize_wrap. f_equal. lia.
Qed.

#[export] Instance immutable_KeyMapLaws : KeyMapLaws drawn.
Proof.
  refine {| km_view := fun t => to_map (im_root (dr_treap t)) |}.
  - done.
  - intros t k. apply (Immutable_Get_correct _ k (dr_ok t)).
  - intros t k. apply (Immutable_Get_correct _ k (dr_ok t)).
  - intros t k v. apply (Immutable_put_ok _ k v _ (dr_ok t)).
  - intros t k. destruct (Immutable_delete_ok _ k (dr_ok t)) as (t' & Ht & _ & Hv). cbn. rewrite Ht. exact Hv.
  - intros t. apply (Immutable_Get_correct _ [] (dr_ok t)).
  - intros t. rewrite drawn_entries. done.
  - intros t. rewrite drawn_entries. unfold sorted_keys. rewrite fst_node_pairs. apply sorted_map_key, (tok_bst _ _ _ (dr_ok t)).
  - intros t. rewrite drawn_entries, <- sum_pairs. apply (tok_size _ _ _ (dr_ok t)).
Defined.

(** The mutable treap of a transaction computes what the immutable one does. *)
Record drawn_mutable : Type := mkDrawnMutable {
  dm_treap : Mutable;
  dm_ok : im_ok (mu_view dm_treap);
  dm_draws : nat;
}.

Lemma mutable_put_ok (t : Mutable) k v p : im_ok (mu_view t) -> im_ok (mu_view (Mutable_Put t k v p)).
Proof. intros Hok. destruct (Mutable_agrees_Immutable t k v p) as (-> & _). by apply Immutable_put_ok. Qed.
Lemma mutable_delete_ok (t : Mutable) k : im_ok (mu_view t) -> im_ok (mu_view (default t (Mutable_Delete t k))).
Proof.
  intros Hok. destruct (Mutable_agrees_Immutable t k None 0) as (_ & Hd & _).
  destruct (Immutable_delete_ok _ k Hok) as (t' & Ht & Hok' & _). rewrite Ht in Hd.
  destruct (Mutable_Delete t k) as [t2|]; [|done]. cbn in Hd |- *. injection Hd as ->. done.
Qed.

#[export] Instance mutable_KeyMap : KeyMap drawn_mutable := {
  km_empty := mkDrawnMutable NewMutable empty_ok 0;
  km_has t k := Mutable_Has (dm_treap t) k;
  km_get t k := Mutable_Get (dm_treap t) k;
  km_put t k v := mkDrawnMutable (Mutable_Put (dm_treap t) k v (rand (dm_draws t)))
    (mutable_put_ok _ k v _ (dm_ok t)) (S (dm_draws t));
  km_delete t k := mkDrawnMutable (default (dm_treap t) (Mutable_Delete (dm_treap t) k)) (mutable_delete_ok _ k (dm_ok t)) (dm_draws t);
  km_len t := Mutable_Len (dm_treap t);
  km_size t := Mutable_Size (dm_treap t);
  km_entries t := default [] (Mutable_ForEach collect_pair (dm_treap t) []);
}.

Lemma drawn_mutable_entries (t : drawn_mutable) : km_entries t = map node_pair (inorder (mu_root (dm_treap t))).
Proof.
  destruct t as [[r c z] Hok n]. change (km_entries _) with (default [] (Mutable_ForEach collect_pair (mkMutable r c z) [])).
  destruct (ForEach_correct collect_pair (newImmutable r c z) Hok []) as (_ & Hf & _).
  cbn [im_root im_count im_totalSize] in Hf. rewrite Hf. apply visit_collect.
Qed.

#[export] Instance mutable_KeyMapLaws : KeyMapLaws drawn_mutable.
Proof.
  refine {| km_view := fun t => to_map (mu_root (dm_treap t)) |}.
  - done.
  - intros t k. destruct (Mutable_agrees_Immutable (dm_treap t) k None 0) as (_ & _ & _ & H & _).
    etransitivity; [exact H|]. apply (Immutable_Get_correct _ k (dm_ok t)).
  - intros t k. destruct (Mutable_agrees_Immutable (dm_treap t) k None 0) as (_ & _ & H & _).
    etransitivity; [exact H|]. apply (Immutable_Get_correct _ k (dm_ok t)).
  - intros t k v. destruct (Mutable_agrees_Immutable (dm_treap t) k v (rand (dm_draws t))) as (H & _).
    apply (f_equal im_root) in H. cbn in H |- *. rewrite H. apply (Immutable_put_ok _ k v _ (dm_ok t)).
  - intros t k. destruct (Mutable_agrees_Immutable (dm_treap t) k None 0) as (_ & Hd & _).
    destruct (Immutable_delete_ok _ k (dm_ok t)) as (t' & Ht & _ & Hv). rewrite Ht in Hd.
    cbn. destruct (Mutable_Delete (dm_treap t) k) as [t2|]; [|done]. cbn in Hd |- *. injection Hd as <-. exact Hv.
  - intros t. apply (Immutable_Get_correct _ [] (dm_ok t)).
  - intros t. by rewrite drawn_mutable_entries.
  - intros t. rewrite drawn_mutable_entries. unfold sorted_keys. rewrite fst_node_pairs. apply sorted_map_key, (tok_bst _ _ _ (dm_ok t)).
  - intros t. rewrite drawn_mutable_entries, <- sum_pairs. apply (tok_size _ _ _ (dm_ok t)).
Defined.
End treaps.
