(* ===== verification/DbEffects.v ===== *)
(** * database/error.go, and the effects of the database's code

    The codes of the errors, and computations over a state and the outcomes of the
    system calls to come.  Every call of the file system, and of the metadata
    database, takes its outcome from a list: it succeeds, or fails, after a number
    of bytes in the case of a write, or finds the disk full.  An exhausted list
    means success. *)

From S2P Require Import Prelude.

(** The codes of [database.Error]; the other fields of an error are left out. *)
Inductive dbErr : Type :=
| ErrDbTypeRegistered
| ErrDbUnknownType
| ErrDbDoesNotExist
| ErrDbExists
| ErrDbNotOpen
| ErrDbAlreadyOpen
| ErrInvalid
| ErrCorruption
| ErrTxClosed
| ErrTxNotWritable
| ErrBucketNotFound
| ErrBucketExists
| ErrBucketNameRequired
| ErrKeyRequired
| ErrKeyTooLarge
| ErrValueTooLarge
| ErrIncompatibleValue
| ErrBlockNotFound
| ErrBlockExists
| ErrBlockRegionInvalid
| ErrDriverSpecific.

Inductive fault : Type :=
| Good
| Bad (written : nat)      (* an error, after so many bytes of a write *)
| Full (written : nat).    (* ENOSPC *)

(** The outcome of a computation with errors of type [E]. *)
Inductive outcome_of (E A : Type) : Type :=
| Val (a : A)
| Error (e : E)
| Exit                     (* os.Exit(1) *)
| Panic.
Arguments Val {E A} a.
Arguments Error {E A} e.
Arguments Exit {E A}.
Arguments Panic {E A}.
Abbreviation outcome := (outcome_of dbErr).

Definition good (fs : list fault) : Prop := Forall (fun f => f = Good) fs.
Definition is_val {E A} (o : outcome_of E A) : Prop := match o with Val _ => True | _ => False end.

(** Computations over a state [S] and the outcomes to come. *)
Definition Eff_of (E S A : Type) : Type := S -> list fault -> outcome_of E A * S * list fault.
Abbreviation Eff := (Eff_of dbErr).

Section effects.
Context {E S : Type}.
#[local] Abbreviation Eff := (Eff_of E).
#[local] Abbreviation outcome := (outcome_of E).

#[export] Instance eff_ret : MRet (Eff S) := fun A a s fs => (Val a, s, fs).
#[export] Instance eff_bind : MBind (Eff S) := fun A B k m s fs =>
  match m s fs with
  | (Val a, s, fs) => k a s fs
  | (Error e, s, fs) => (Error e, s, fs)
  | (Exit, s, fs) => (Exit, s, fs)
  | (Panic, s, fs) => (Panic, s, fs)
  end.
Definition get : Eff S S := fun s fs => (Val s, s, fs).
Definition put (s : S) : Eff S unit := fun _ fs => (Val tt, s, fs).
Definition throw {A} (e : E) : Eff S A := fun s fs => (Error e, s, fs).
Definition panic {A} : Eff S A := fun s fs => (Panic, s, fs).
Definition next_fault : Eff S fault := fun s fs =>
  match fs with [] => (Val Good, s, []) | f :: fs => (Val f, s, fs) end.
(** The result of a computation whose error is handled by the caller. *)
Definition attempt {A} (m : Eff S A) : Eff S (option E) := fun s fs =>
  match m s fs with
  | (Val _, s, fs) => (Val None, s, fs)
  | (Error e, s, fs) => (Val (Some e), s, fs)
  | (Exit, s, fs) => (Exit, s, fs)
  | (Panic, s, fs) => (Panic, s, fs)
  end.

(** The same with the value or the error. *)
Definition try_run {A} (m : Eff S A) : Eff S (result E A) := fun s fs =>
  match m s fs with
  | (Val a, s, fs) => (Val (Ok a), s, fs)
  | (Error e, s, fs) => (Val (Err e), s, fs)
  | (Exit, s, fs) => (Exit, s, fs)
  | (Panic, s, fs) => (Panic, s, fs)
  end.

(** ** Reasoning about effects *)

Definition wp {A} (m : Eff S A) (s : S) (fs : list fault)
    (Q : outcome A -> S -> list fault -> Prop) : Prop :=
  let '(o, s', fs') := m s fs in Q o s' fs'.

Lemma wp_bind {A B} (m : Eff S A) (k : A -> Eff S B) s fs Q :
  wp m s fs (fun o s' fs' => match o with
    | Val a => wp (k a) s' fs' Q
    | Error e => Q (Error e) s' fs'
    | Exit => Q Exit s' fs'
    | Panic => Q Panic s' fs'
    end) -> wp (m ≫= k) s fs Q.
Proof. unfold wp, mbind, eff_bind. by destruct (m s fs) as [[[a|e| |] s'] fs']. Qed.

Lemma wp_get {B} (k : S -> Eff S B) s fs Q : wp (k s) s fs Q -> wp (get ≫= k) s fs Q.
Proof. intros H. by apply wp_bind. Qed.

Lemma wp_put {B} (k : unit -> Eff S B) s s1 fs Q : wp (k tt) s1 fs Q -> wp (put s1 ≫= k) s fs Q.
Proof. intros H. by apply wp_bind. Qed.

Lemma wp_ret {A} (a : A) s fs (Q : outcome A -> S -> list fault -> Prop) :
  Q (Val a) s fs -> wp (mret a) s fs Q.
Proof. done. Qed.

Lemma wp_mono {A} (m : Eff S A) s fs (Q Q' : outcome A -> S -> list fault -> Prop) :
  wp m s fs Q -> (forall o s' fs', Q o s' fs' -> Q' o s' fs') -> wp m s fs Q'.
Proof. unfold wp. destruct (m s fs) as [[o s'] fs']. auto. Qed.

(** The next outcome of the file system. *)
Lemma wp_next {B} (k : fault -> Eff S B) s fs Q :
  (forall f fs', (good fs -> f = Good /\ good fs') -> wp (k f) s fs' Q) -> wp (next_fault ≫= k) s fs Q.
Proof.
  intros H. apply wp_bind. unfold wp at 1, next_fault. destruct fs as [|f fs]; apply H; [done|].
  intros Hg. by apply list.Forall_cons in Hg.
Qed.

Lemma wp_run {A} (m : Eff S A) s fs Q : wp m s fs Q -> exists o s' fs', m s fs = (o, s', fs') /\ Q o s' fs'.
Proof. unfold wp. destruct (m s fs) as [[o s'] fs']. eauto. Qed.

Lemma wp_attempt {A} (m : Eff S A) s fs (Q : outcome (option E) -> S -> list fault -> Prop) :
  wp m s fs (fun o s' fs' => match o with
    | Val _ => Q (Val None) s' fs'
    | Error e => Q (Val (Some e)) s' fs'
    | Exit => Q Exit s' fs'
    | Panic => Q Panic s' fs'
    end) -> wp (attempt m) s fs Q.
Proof. unfold wp, attempt. by destruct (m s fs) as [[[a|e| |] s'] fs']. Qed.
End effects.

(** A computation over a component of the state. *)
Definition zoom {E S T A} (view : S -> T) (update : T -> S -> S) (m : Eff_of E T A) : Eff_of E S A := fun s fs =>
  let '(o, t, fs) := m (view s) fs in (o, update t s, fs).

Lemma wp_zoom {E S T A} view update (m : Eff_of E T A) (s : S) fs Q :
  wp m (view s) fs (fun o t fs' => Q o (update t s) fs') -> wp (zoom view update m) s fs Q.
Proof. unfold wp, zoom. by destruct (m (view s) fs) as [[o t] fs']. Qed.
