(* ===== verification/BlockStore.v ===== *)
(** * database/ffldb/blockio.go: the flat files of blocks

    The block files are a map from numbers to contents.  Every call of the file
    system takes its outcome from a list: it succeeds, or fails, after a number of
    bytes in the case of a write; a full disk makes the code exit.  An exhausted
    list means success.  A handle opened for writing is the number of its file;
    the files opened for reading are tracked with their order of use. *)

From Stdlib Require Import ZArith Lia.
From S2P Require Import Prelude WireCommon WireTx DbEffects.

Open Scope Z_scope.

(** ** hash/crc32 with the Castagnoli polynomial *)

Definition crc_bit (crc : Z) : Z :=
  if Z.testbit crc 0 then Z.lxor (Z.shiftr crc 1) 0x82f63b78 else Z.shiftr crc 1.
Definition crc_byte (crc : Z) (b : byte) : Z :=
  Nat.iter 8 crc_bit (Z.lxor crc (b2z b)).
Definition crc32c (bs : list byte) : Z :=
  Z.lxor (fold_left crc_byte bs 0xffffffff) 0xffffffff.

(** ** State *)

Definition maxOpenFiles : nat := 25.
Definition maxBlockFileSize : Z := 512 * 1024 * 1024.
Definition blockLocSize : Z := 12.

Record blockStore : Type := mkStore {
  s_network : Z;
  s_maxBlockFileSize : Z;
  s_files : gmap Z (list byte);    (* the directory *)
  s_curFile : option Z;            (* writeCursor.curFile.file *)
  s_curFileNum : Z;
  s_curOffset : Z;
  s_openBlockFiles : gset Z;
  s_openBlocksLRU : list Z;        (* the front first *)
}.

Definition set_files (s : blockStore) (f : gmap Z (list byte)) : blockStore :=
  mkStore (s_network s) (s_maxBlockFileSize s) f (s_curFile s) (s_curFileNum s) (s_curOffset s)
    (s_openBlockFiles s) (s_openBlocksLRU s).
Definition set_cursor (s : blockStore) (h : option Z) (num off : Z) : blockStore :=
  mkStore (s_network s) (s_maxBlockFileSize s) (s_files s) h num off (s_openBlockFiles s) (s_openBlocksLRU s).
Definition set_open (s : blockStore) (o : gset Z) (lru : list Z) : blockStore :=
  mkStore (s_network s) (s_maxBlockFileSize s) (s_files s) (s_curFile s) (s_curFileNum s) (s_curOffset s) o lru.

Abbreviation IO := (Eff blockStore).

(** ** Locations *)

Record blockLocation : Type := mkLoc {
  l_blockFileNum : Z;
  l_fileOffset : Z;
  l_blockLen : Z;
}.

(** [None] is the panic on a short slice. *)
Definition deserializeBlockLoc (serializedLoc : list byte) : option blockLocation :=
  if len serializedLoc <? blockLocSize then None
  else Some (mkLoc (le_get (bytes_at serializedLoc 0 4)) (le_get (bytes_at serializedLoc 4 4))
               (le_get (bytes_at serializedLoc 8 4))).
Definition serializeBlockLoc (loc : blockLocation) : list byte :=
  le_put 4 (l_blockFileNum loc) ++ le_put 4 (l_fileOffset loc) ++ le_put 4 (l_blockLen loc).

(** ** Files *)

(** [WriteAt], which fills a gap with zeros. *)
Definition write_at (content : list byte) (off : nat) (data : list byte) : list byte :=
  match data with
  | [] => content
  | _ => take off (content ++ replicate (off - length content) Byte.x00) ++ data ++ drop (off + length data) content
  end.
(** [ReadAt] of [n] bytes; [None] is [io.EOF]. *)
Definition read_at (content : list byte) (off n : Z) : option (list byte) :=
  if (len content <? off + n) && negb (n =? 0) then None else Some (bytes_at content off n).
Definition truncate (content : list byte) (size : nat) : list byte :=
  take size (content ++ replicate (size - length content) Byte.x00).

Definition content (s : blockStore) (n : Z) : list byte := default [] (s_files s !! n).

Definition openWriteFile (fileNum : Z) : IO unit :=
  f ← next_fault;
  match f with
  | Good =>
      s ← get;
      _ ← put (set_files s (<[fileNum := content s fileNum]> (s_files s)));
      s ← get;
      put (set_cursor s (Some fileNum) (s_curFileNum s) (s_curOffset s))
  | _ => throw ErrDriverSpecific
  end.

Definition closeFile (fileNum : Z) : IO unit :=
  s ← get;
  put (set_open s (s_openBlockFiles s ∖ {[fileNum]}) (s_openBlocksLRU s)).

(** [lruList.Remove(lruList.Back())] *)
Definition drop_back (l : list Z) : list Z := take (length l - 1) l.

Definition openFile (fileNum : Z) : IO unit :=
  f ← next_fault;
  s ← get;
  match f, s_files s !! fileNum with
  | Good, Some _ =>
      _ ← (if (maxOpenFiles <=? length (s_openBlocksLRU s))%nat then
             match stdpp.list_basics.list.last (s_openBlocksLRU s) with
             | Some lruFileNum =>
                 _ ← put (set_open s (s_openBlockFiles s) (drop_back (s_openBlocksLRU s)));
                 closeFile lruFileNum
             | None => panic
             end
           else mret tt);
      s ← get;
      put (set_open s (s_openBlockFiles s ∪ {[fileNum]}) (fileNum :: s_openBlocksLRU s))
  | _, _ => throw ErrDriverSpecific
  end.

Definition deleteFile (fileNum : Z) : IO unit :=
  s ← get;
  if bool_decide (fileNum ∈ s_openBlockFiles s) then throw ErrDriverSpecific
  else
    f ← next_fault;
    match f, s_files s !! fileNum with
    | Good, Some _ => put (set_files s (delete fileNum (s_files s)))
    | _, _ => throw ErrDriverSpecific
    end.

(** The handle for reading is the number of the file. *)
Fixpoint remove_first (n : Z) (l : list Z) : list Z :=
  match l with
  | [] => []
  | x :: l' => if x =? n then l' else x :: remove_first n l'
  end.
Definition blockFile (fileNum : Z) : IO Z :=
  s ← get;
  match s_curFile s with
  | Some h =>
      if fileNum =? s_curFileNum s then mret h
      else if bool_decide (fileNum ∈ s_openBlockFiles s) then
        _ ← put (set_open s (s_openBlockFiles s) (fileNum :: remove_first fileNum (s_openBlocksLRU s)));
        mret fileNum
      else _ ← openFile fileNum; mret fileNum
  | None =>
      if bool_decide (fileNum ∈ s_openBlockFiles s) then
        _ ← put (set_open s (s_openBlockFiles s) (fileNum :: remove_first fileNum (s_openBlocksLRU s)));
        mret fileNum
      else _ ← openFile fileNum; mret fileNum
  end.

Definition ReadAt (h off n : Z) : IO (list byte) :=
  f ← next_fault;
  s ← get;
  match f, read_at (content s h) off n with
  | Good, Some data => mret data
  | _, _ => throw ErrDriverSpecific
  end.

(** ** Writing *)

Definition writeData (data : list byte) : IO unit :=
  s ← get;
  match s_curFile s with
  | None => panic
  | Some h =>
      f ← next_fault;
      let n := match f with Good => length data | Bad k | Full k => Nat.min k (length data) end in
      _ ← put (set_cursor
             (set_files s (<[h := write_at (content s h) (Z.to_nat (s_curOffset s)) (take n data)]> (s_files s)))
             (Some h) (s_curFileNum s) (wrap_u32 (s_curOffset s + Z.of_nat n)));
      match f with
      | Good => mret tt
      | Bad _ => throw ErrDriverSpecific
      | Full _ => fun s fs => (Exit, s, fs)
      end
  end.

Definition writeBlock (rawBlock : list byte) : IO blockLocation :=
  let blockLen := wrap_u32 (len rawBlock) in
  let fullLen := wrap_u32 (blockLen + 12) in
  s ← get;
  let finalOffset := wrap_u32 (s_curOffset s + fullLen) in
  _ ← (if (finalOffset <? s_curOffset s) || (s_maxBlockFileSize s <? finalOffset)
       then put (set_cursor s None (wrap_u32 (s_curFileNum s + 1)) 0)
       else mret tt);
  s ← get;
  _ ← match s_curFile s with None => openWriteFile (s_curFileNum s) | Some _ => mret tt end;
  s ← get;
  let origOffset := s_curOffset s in
  let net := le_put 4 (s_network s) in
  _ ← writeData net;
  let ln := le_put 4 blockLen in
  _ ← writeData ln;
  _ ← writeData rawBlock;
  _ ← writeData (be_put 4 (crc32c (net ++ ln ++ rawBlock)));
  s ← get;
  mret (mkLoc (s_curFileNum s) origOffset fullLen).

(** ** Reading *)

Definition readBlock (loc : blockLocation) : IO (list byte) :=
  h ← blockFile (l_blockFileNum loc);
  serializedData ← ReadAt h (l_fileOffset loc) (l_blockLen loc);
  let n := len serializedData in
  if n <? 4 then panic
  else
    let serializedChecksum := be_get (bytes_at serializedData (n - 4) 4) in
    let calculatedChecksum := crc32c (bytes_at serializedData 0 (n - 4)) in
    if negb (serializedChecksum =? calculatedChecksum) then throw ErrCorruption
    else
      s ← get;
      let serializedNet := le_get (bytes_at serializedData 0 4) in
      if negb (serializedNet =? s_network s) then throw ErrDriverSpecific
      else if n <? 12 then panic
      else mret (bytes_at serializedData 8 (n - 12)).

Definition readBlockRegion (loc : blockLocation) (offset numBytes : Z) : IO (list byte) :=
  h ← blockFile (l_blockFileNum loc);
  let readOffset := wrap_u32 (l_fileOffset loc + 8 + offset) in
  ReadAt h readOffset numBytes.

(** ** Syncing and rolling back *)

Definition file_sync : IO unit :=
  f ← next_fault;
  match f with Good => mret tt | Bad _ => throw ErrDriverSpecific | Full _ => fun s fs => (Exit, s, fs) end.

Definition syncBlocks : IO unit :=
  s ← get;
  match s_curFile s with None => mret tt | Some _ => file_sync end.

(** The deletions from the current file down to the one after [old]; [false] when
    one failed. *)
Fixpoint delete_down (fuel : nat) (old : Z) : IO bool :=
  s ← get;
  if old <? s_curFileNum s then
    match fuel with
    | O => panic
    | S fuel =>
        e ← attempt (deleteFile (s_curFileNum s));
        match e with
        | Some _ => mret false
        | None =>
            s ← get;
            _ ← put (set_cursor s (s_curFile s) (s_curFileNum s - 1) (s_curOffset s));
            delete_down fuel old
        end
    end
  else mret true.

(** The file is opened if needed, cut and synced; an error only ends it. *)
Definition truncate_file (oldBlockOffset : Z) : IO unit :=
  s ← get;
  e ← match s_curFile s with None => attempt (openWriteFile (s_curFileNum s)) | Some _ => mret None end;
  match e with
  | Some _ => mret tt
  | None =>
      f ← next_fault;
      s ← get;
      match f, s_curFile s with
      | Good, Some h =>
          _ ← put (set_files s (<[h := truncate (content s h) (Z.to_nat oldBlockOffset)]> (s_files s)));
          _ ← next_fault;      (* Sync *)
          mret tt
      | _, _ => mret tt
      end
  end.

(** The body of [handleRollback], without the deferred assignment. *)
Definition rollback_files (oldBlockFileNum oldBlockOffset : Z) : IO unit :=
  s ← get;
  _ ← (if oldBlockFileNum <? s_curFileNum s
       then put (set_cursor s None (s_curFileNum s) (s_curOffset s)) else mret tt);
  s ← get;
  ok ← delete_down (Z.to_nat (s_curFileNum s - oldBlockFileNum)) oldBlockFileNum;
  if negb ok then mret tt else truncate_file oldBlockOffset.

Definition handleRollback (oldBlockFileNum oldBlockOffset : Z) : IO unit :=
  s ← get;
  if (s_curFileNum s =? oldBlockFileNum) && (s_curOffset s =? oldBlockOffset) then mret tt
  else
    _ ← rollback_files oldBlockFileNum oldBlockOffset;
    s ← get;
    put (set_cursor s (s_curFile s) oldBlockFileNum oldBlockOffset).

(** ** Opening *)

(** [blockFilePath]: nine digits, more when the number needs them. *)
Fixpoint digits (width : nat) (n : Z) : list byte :=
  match width with
  | O => []
  | S w => digits w (n / 10) ++ [z2b (48 + n mod 10)]
  end.
Definition blockFileName (fileNum : Z) : list byte :=
  digits (if fileNum <? 10 ^ 9 then 9 else 10) fileNum.
(** [strconv.Atoi] of the name. *)
Definition Atoi (name : list byte) : Z := fold_left (fun n b => 10 * n + (b2z b - 48)) name 0.

(** The first and the last of the names once sorted. *)
Definition lesser (a b : list byte) : list byte := match bytes_Compare b a with Lt => b | _ => a end.
Definition greater (a b : list byte) : list byte := match bytes_Compare a b with Lt => b | _ => a end.
Definition scanBlockFiles (files : gmap Z (list byte)) : Z * Z * Z :=
  match map (fun p => blockFileName p.1) (map_to_list files) with
  | [] => (-1, -1, 0)
  | name :: names =>
      let firstFile := Atoi (fold_left lesser names name) in
      let lastFile := Atoi (fold_left greater names name) in
      (firstFile, lastFile, wrap_u32 (len (default [] (files !! wrap_u32 lastFile))))
  end.

Definition newBlockStore (files : gmap Z (list byte)) (network : Z) : blockStore :=
  let '(_, fileNum, fileOff) := scanBlockFiles files in
  let '(fileNum, fileOff) := if fileNum =? -1 then (0, 0) else (fileNum, fileOff) in
  mkStore network maxBlockFileSize files None (wrap_u32 fileNum) fileOff ∅ [].

Example crc32c_check : crc32c (bytes_of "123456789") = 0xe3069283.
Proof. vm_compute. reflexivity. Qed.

(** * Specification *)

(** The record of a block. *)
Definition record (network : Z) (raw : list byte) : list byte :=
  let head := le_put 4 network ++ le_put 4 (len raw) ++ raw in
  head ++ be_put 4 (crc32c head).

(** A position in the files, and their order. *)
Definition position : Type := Z * Z.
Definition cursor (s : blockStore) : position := (s_curFileNum s, s_curOffset s).
Definition pos_le (p q : position) : Prop := p.1 < q.1 \/ p.1 = q.1 /\ p.2 <= q.2.
Definition loc_end (loc : blockLocation) : position := (l_blockFileNum loc, l_fileOffset loc + l_blockLen loc).

(** The record of [raw] is in the files at [loc]. *)
Record stored (s : blockStore) (loc : blockLocation) (raw : list byte) : Prop := {
  sd_file : is_Some (s_files s !! l_blockFileNum loc);
  sd_bytes : bytes_at (content s (l_blockFileNum loc)) (l_fileOffset loc) (l_blockLen loc) = record (s_network s) raw;
  sd_off : 0 <= l_fileOffset loc;
  sd_len : l_blockLen loc = len raw + 12;
  sd_inside : l_fileOffset loc + l_blockLen loc <= len (content s (l_blockFileNum loc));
}.

Record store_ok (s : blockStore) : Prop := {
  so_num : 0 <= s_curFileNum s < 2 ^ 32;
  so_off : 0 <= s_curOffset s < 2 ^ 32;
  so_max : 0 <= s_maxBlockFileSize s < 2 ^ 32;
  so_net : 0 <= s_network s < 2 ^ 32;
  so_handle : s_curFile s = None \/
    s_curFile s = Some (s_curFileNum s) /\ is_Some (s_files s !! s_curFileNum s);
  so_inside : s_curOffset s <= len (content s (s_curFileNum s));
}.

(** Nothing before a position has changed. *)
Record kept (p : position) (s s' : blockStore) : Prop := {
  kp_files : forall n, n < p.1 -> s_files s' !! n = s_files s !! n;
  kp_prefix : take (Z.to_nat p.2) (content s' p.1) = take (Z.to_nat p.2) (content s p.1);
  kp_exists : is_Some (s_files s !! p.1) -> is_Some (s_files s' !! p.1);
  kp_network : s_network s' = s_network s;
}.

(** * Proofs *)

(** ** Contents *)

Lemma content_insert s n c : content (set_files s (<[n := c]> (s_files s))) n = c.
Proof. unfold content. cbn. by rewrite lookup_insert_eq. Qed.

Lemma content_insert_ne s n m c : n <> m -> content (set_files s (<[n := c]> (s_files s))) m = content s m.
Proof. intros. unfold content. cbn. by rewrite lookup_insert_ne. Qed.

Lemma write_at_within c off data : (off <= length c)%nat ->
  write_at c off data = take off c ++ data ++ drop (off + length data) c.
Proof.
  intros H. unfold write_at. destruct data as [|b data].
  - cbn. by rewrite Nat.add_0_r, take_drop.
  - replace (off - length c)%nat with O by lia. by rewrite app_nil_r.
Qed.

Lemma length_write_at c off data : (off <= length c)%nat -> (off + length data <= length (write_at c off data))%nat.
Proof. intros H. rewrite write_at_within, !length_app, length_take by done. lia. Qed.

Lemma write_at_app c off d1 d2 : (off <= length c)%nat ->
  write_at (write_at c off d1) (off + length d1) d2 = write_at c off (d1 ++ d2).
Proof.
  intros H. pose proof (length_write_at c off d1 H) as Hl. rewrite (write_at_within (write_at c off d1)) by done.
  assert (Hp : length (take off c ++ d1) = (off + length d1)%nat) by (rewrite length_app, length_take; lia).
  rewrite !write_at_within by done. rewrite (app_assoc (take off c) d1 (drop _ c)).
  rewrite take_app_length' by (by rewrite Hp). rewrite drop_app, Hp.
  replace (off + length d1 + length d2 - (off + length d1))%nat with (length d2) by lia.
  rewrite (drop_ge (take off c ++ d1)) by lia. rewrite drop_drop, length_app, <- !app_assoc. cbn. do 3 f_equal. f_equal. lia.
Qed.

Lemma take_write_at c off data p : (p <= off)%nat -> (off <= length c)%nat ->
  take p (write_at c off data) = take p c.
Proof.
  intros Hp H. rewrite write_at_within, take_app_le by (rewrite ?length_take; lia || done).
  rewrite take_take. f_equal. lia.
Qed.

Lemma read_write_at c off data : (off <= length c)%nat ->
  bytes_at (write_at c off data) (Z.of_nat off) (len data) = data.
Proof.
  intros H. rewrite write_at_within by done. unfold bytes_at. rewrite to_nat_len, Nat2Z.id.
  rewrite drop_app_length' by (rewrite length_take; lia). apply take_app_length.
Qed.

(** ** Writing a block *)

(** The cursor after the check for room, the file opened, and the store when [k]
    bytes of a record are on disk. *)
Definition moved (s : blockStore) (fullLen : Z) : blockStore :=
  if (wrap_u32 (s_curOffset s + fullLen) <? s_curOffset s) || (s_maxBlockFileSize s <? wrap_u32 (s_curOffset s + fullLen))
  then set_cursor s None (wrap_u32 (s_curFileNum s + 1)) 0 else s.
Definition opened (s : blockStore) : blockStore :=
  mkStore (s_network s) (s_maxBlockFileSize s) (<[s_curFileNum s := content s (s_curFileNum s)]> (s_files s))
    (Some (s_curFileNum s)) (s_curFileNum s) (s_curOffset s) (s_openBlockFiles s) (s_openBlocksLRU s).
Definition written (s : blockStore) (rec : list byte) (k : nat) : blockStore :=
  mkStore (s_network s) (s_maxBlockFileSize s)
    (<[s_curFileNum s := write_at (content s (s_curFileNum s)) (Z.to_nat (s_curOffset s)) (take k rec)]> (s_files s))
    (Some (s_curFileNum s)) (s_curFileNum s) (s_curOffset s + Z.of_nat k) (s_openBlockFiles s) (s_openBlocksLRU s).

Lemma opened_same s : s_curFile s = Some (s_curFileNum s) -> is_Some (s_files s !! s_curFileNum s) -> opened s = s.
Proof.
  intros Hh [c Hc]. destruct s as [net mx files cur num off op lru]. unfold opened, content. cbn in *. subst cur.
  rewrite Hc. cbn. by rewrite insert_id.
Qed.

Lemma written_0 s rec : written (opened s) rec 0 = opened s.
Proof.
  unfold written, opened. cbn. f_equal; [|lia]. rewrite insert_insert_eq. f_equal. unfold content. cbn.
  by rewrite lookup_insert_eq.
Qed.

Lemma writeData_written s rec k m data fs Q :
  0 <= s_curOffset s <= len (content s (s_curFileNum s)) -> s_curOffset s + len rec < 2 ^ 32 ->
  data = take m (drop k rec) -> (k + m <= length rec)%nat ->
  (forall j o fs', (k <= j <= k + m)%nat -> (o = Val tt -> j = (k + m)%nat) -> o <> Panic ->
     (good fs -> o = Val tt /\ good fs') -> Q o (written s rec j) fs') ->
  wp (writeData data) (written s rec k) fs Q.
Proof.
  intros Hoff Hmax -> Hm HQ. unfold writeData. apply wp_get. cbn [s_curFile written]. apply wp_next. intros f fs' Hgood.
  assert (Hlen : length (take m (drop k rec)) = m) by (rewrite length_take, length_drop; lia). rewrite Hlen.
  set (n := match f with Good => m | Bad k' | Full k' => Nat.min k' m end).
  assert (Hn : (n <= m)%nat) by (unfold n; destruct f; lia).
  assert (Hstate : set_cursor
      (set_files (written s rec k)
         (<[s_curFileNum s := write_at (content (written s rec k) (s_curFileNum s)) (Z.to_nat (s_curOffset (written s rec k)))
            (take n (take m (drop k rec)))]> (s_files (written s rec k))))
      (Some (s_curFileNum s)) (s_curFileNum (written s rec k)) (wrap_u32 (s_curOffset (written s rec k) + Z.of_nat n)) =
    written s rec (k + n)).
  { unfold set_cursor, set_files, written. cbn. f_equal.
    - rewrite insert_insert_eq. f_equal. unfold content at 1. cbn. rewrite lookup_insert_eq. cbn.
      assert (Hk : length (take k rec) = k) by (rewrite length_take; lia).
      replace (Z.to_nat (s_curOffset s + Z.of_nat k)) with (Z.to_nat (s_curOffset s) + length (take k rec))%nat by (rewrite Hk; lia).
      rewrite write_at_app by (unfold len in Hoff; lia). f_equal.
      rewrite take_take, Nat.min_l by lia. by rewrite take_take_drop.
    - unfold wrap_u32, len in *. rewrite Z.mod_small by lia. lia. }
  cbn [s_curFile written] in Hstate |- *. apply wp_put. cbn [s_curFile] in *. rewrite Hstate.
  assert (Hfinish : forall o, (o = Val tt -> n = m) -> o <> Panic -> (good fs -> o = Val tt) -> Q o (written s rec (k + n)) fs').
  { intros o H1 H2 H3. apply HQ; [lia|intros Ho; rewrite (H1 Ho); lia|done|]. intros Hg. split; [by apply H3|by apply Hgood]. }
  destruct f; (apply Hfinish; [done|done|]); [done|intros Hg; by destruct (Hgood Hg)..].
Qed.

(** What [writeBlock] does, whatever the file system does: it fails to open the
    file, or it leaves a prefix of the record at the cursor, the whole of it when
    it succeeds. *)
Definition write_outcome (s1 : blockStore) (raw : list byte) (fs : list fault) (o : outcome blockLocation)
    (s' : blockStore) (fs' : list fault) : Prop :=
  (exists e, o = Error e /\ s' = s1 /\ ~ good fs) \/
  exists k, (k <= length (record (s_network s1) raw))%nat /\
    s' = written (opened s1) (record (s_network s1) raw) k /\ o <> Panic /\
    (forall loc, o = Val loc -> k = length (record (s_network s1) raw) /\
       loc = mkLoc (s_curFileNum s1) (s_curOffset s1) (len raw + 12)) /\
    (good fs -> good fs' /\ is_val o).

Lemma len_record net raw : len (record net raw) = len raw + 12.
Proof. unfold record. rewrite !len_app, !len_le_put. unfold len. rewrite length_be_put. lia. Qed.

(** One of the writes of [writeBlock]. *)
Lemma write_step s1 raw k m data fs0 fs (cont : unit -> IO blockLocation) :
  let rec := record (s_network s1) raw in
  0 <= s_curOffset s1 <= len (content s1 (s_curFileNum s1)) -> s_curOffset s1 + (len raw + 12) < 2 ^ 32 ->
  data = take m (drop k rec) -> (k + m <= length rec)%nat -> (good fs0 -> good fs) ->
  (forall fs', (good fs0 -> good fs') ->
     wp (cont tt) (written (opened s1) rec (k + m)) fs' (write_outcome s1 raw fs0)) ->
  wp (writeData data ≫= cont) (written (opened s1) rec k) fs (write_outcome s1 raw fs0).
Proof.
  intros rec Hoff Hmax Hdata Hm Hg Hk. apply wp_bind.
  apply (writeData_written _ rec k m); [unfold content; cbn; by rewrite lookup_insert_eq|unfold rec; cbn; rewrite len_record; lia|done|done|].
  intros j o fs' Hj Ho Hnp Hg'.
  assert (Hbad : forall o' : outcome blockLocation, o' <> Panic -> (forall loc, o' <> Val loc) -> ~ good fs ->
    write_outcome s1 raw fs0 o' (written (opened s1) rec j) fs').
  { intros o' Hp Hv Hng. right. exists j. split_and!; [unfold rec in *; lia|done|done|by intros loc H; destruct (Hv loc)|].
    intros Hg0. by destruct Hng; apply Hg. }
  destruct o as [[]|e| |]; [|apply Hbad; [done|done|]..|done].
  - rewrite (Ho eq_refl). apply Hk. intros Hg0. by apply Hg', Hg.
  - intros Hgf. by destruct (Hg' Hgf).
  - intros Hgf. by destruct (Hg' Hgf).
Qed.

(** The writes one after the other. *)
Lemma write_record s1 raw fs :
  0 <= s_curOffset s1 <= len (content s1 (s_curFileNum s1)) -> s_curOffset s1 + (len raw + 12) < 2 ^ 32 ->
  wp (s ← get;
      let origOffset := s_curOffset s in
      let net := le_put 4 (s_network s) in
      _ ← writeData net;
      let ln := le_put 4 (len raw) in
      _ ← writeData ln;
      _ ← writeData raw;
      _ ← writeData (be_put 4 (crc32c (net ++ ln ++ raw)));
      s ← get;
      mret (mkLoc (s_curFileNum s) origOffset (len raw + 12))) (opened s1) fs
    (write_outcome s1 raw fs).
Proof.
  intros Hoff Hmax. apply wp_get. cbv zeta. cbn [s_network s_curOffset opened].
  set (net := le_put 4 (s_network s1)). set (ln := le_put 4 (len raw)). set (crc := be_put 4 (crc32c (net ++ ln ++ raw))).
  assert (Hrec : record (s_network s1) raw = net ++ ln ++ raw ++ crc) by (unfold record; by rewrite <- !app_assoc).
  assert (length net = 4%nat /\ length ln = 4%nat /\ length crc = 4%nat) as (Hln & Hll & Hlc)
    by (unfold net, ln, crc; rewrite !length_le_put, length_be_put; done).
  assert (Hlen : length (record (s_network s1) raw) = (length raw + 12)%nat) by (rewrite Hrec, !length_app; lia).
  rewrite <- (written_0 s1 (record (s_network s1) raw)). clearbody net ln crc.
  apply (write_step s1 raw 0 4); [done|done| |lia|done|]; [rewrite Hrec; symmetry; by apply take_app_length'|].
  intros fs1 Hg1. apply (write_step s1 raw 4 4); [done|done| |lia|done|].
  { rewrite Hrec, drop_app_length' by done. symmetry. by apply take_app_length'. }
  intros fs2 Hg2. apply (write_step s1 raw 8 (length raw)); [done|done| |lia|done|].
  { rewrite Hrec, app_assoc, drop_app_length' by (rewrite length_app; lia). symmetry. by apply take_app_length'. }
  intros fs3 Hg3. apply (write_step s1 raw (8 + length raw) 4); [done|done| |lia|done|].
  { rewrite Hrec, !app_assoc, drop_app_length' by (rewrite !length_app; lia). symmetry. by apply take_ge; lia. }
  intros fs4 Hg4. apply wp_get. apply wp_ret. right. exists (8 + length raw + 4)%nat.
  split_and!; [lia|done|done| |intros Hg; split; [by apply Hg4|done]].
  intros loc H. injection H as <-. split; [lia|done].
Qed.

Lemma writeBlock_spec s raw fs :
  store_ok s -> len raw + 12 < 2 ^ 32 -> s_curFileNum s + 1 < 2 ^ 32 ->
  let s1 := moved s (len raw + 12) in
  store_ok s1 /\ s_curOffset s1 + (len raw + 12) < 2 ^ 32 /\ wp (writeBlock raw) s fs (write_outcome s1 raw fs).
Proof.
  intros [Hn Ho Hm Hnet Hh Hin] Hraw Hnum s1. pose proof (len_nonneg raw) as Hpos.
  assert (Hs1 : store_ok s1 /\ s_curOffset s1 + (len raw + 12) < 2 ^ 32).
  { unfold s1, moved. destruct (_ || _) eqn:E.
    - unfold wrap_u32. rewrite (Z.mod_small (s_curFileNum s + 1)) by lia. split; [|cbn; lia].
      split; cbn; [lia|lia|done|done|by left|]. apply len_nonneg.
    - split; [by split|]. apply orb_false_iff in E as [E1 E2]. apply Z.ltb_ge in E1, E2. unfold wrap_u32 in *.
      destruct (Z.lt_ge_cases (s_curOffset s + (len raw + 12)) (2 ^ 32)); [done|].
      rewrite (Z.mod_eq _ (2 ^ 32)) in E1 by lia.
      assert ((s_curOffset s + (len raw + 12)) / 2 ^ 32 = 1) as Hq by (symmetry; apply (Z.div_unique _ _ _ (s_curOffset s + (len raw + 12) - 2 ^ 32)); lia).
      rewrite Hq in E1. lia. }
  destruct Hs1 as [Hok1 Hend]. split_and!; [done|done|]. unfold writeBlock. cbv zeta.
  assert (wrap_u32 (len raw) = len raw) as -> by (apply Z.mod_small; lia).
  assert (wrap_u32 (len raw + 12) = len raw + 12) as -> by (apply Z.mod_small; lia).
  apply wp_get, wp_bind.
  apply (wp_mono _ _ _ (fun o s' fs' => o = Val tt /\ s' = s1 /\ fs' = fs)).
  { unfold s1, moved. by destruct (_ || _). }
  intros o s' fs' (-> & -> & ->). clearbody s1. apply wp_get.
  destruct Hok1 as [Hn1 Ho1 Hm1 Hnet1 Hh1 Hin1].
  destruct Hh1 as [Hh1|[Hh1 Hf1]]; rewrite Hh1.
  - apply wp_bind. unfold openWriteFile. apply wp_next. intros f fs1 Hg. destruct f.
    + apply wp_get, wp_put, wp_get. apply (write_record s1 raw fs1) in Hend as Hw; [|lia].
      apply (wp_mono _ _ _ _ (write_outcome s1 raw fs)) in Hw; [exact Hw|].
      intros o s2 fs2 [(e & -> & -> & Hng)|(k & Hk & -> & Hp & Hv & Hgd)].
      * left. exists e. split_and!; [done|done|]. intros Hg0. by apply Hng, Hg.
      * right. exists k. split_and!; [done|done|done|done|]. intros Hg0. by apply Hgd, Hg.
    + left. eexists. split_and!; [done|done|]. intros Hg0. by destruct (Hg Hg0).
    + left. eexists. split_and!; [done|done|]. intros Hg0. by destruct (Hg Hg0).
  - apply wp_bind, wp_ret. rewrite <- (opened_same s1 Hh1 Hf1) at 1. apply write_record; [lia|done].
Qed.

(** ** What stays *)

Lemma kept_trans p q s s1 s2 : kept p s s1 -> kept q s1 s2 -> pos_le p q -> 0 <= p.2 -> kept p s s2.
Proof.
  destruct p as [pn po], q as [qn qo]. intros [Ha Hb He Hc] [Ha' Hb' He' Hc'] Hle Hpos. unfold pos_le in Hle. cbn in *. split; cbn; [|  | |congruence].
  - intros n Hn. rewrite Ha', Ha; [done|lia|]. destruct Hle as [|[-> _]]; cbn in *; lia.
  - rewrite <- Hb. destruct Hle as [Hlt|[-> Hle]]; cbn in *.
    + unfold content. by rewrite Ha'.
    + assert (Ht : forall c : list byte, take (Z.to_nat po) c = take (Z.to_nat po) (take (Z.to_nat qo) c))
        by (intros c; rewrite take_take; f_equal; lia).
      by rewrite Ht, Hb', <- Ht.
  - intros Hs. destruct Hle as [Hlt|[-> _]]; cbn in *; [rewrite Ha'|]; auto.
Qed.

Lemma kept_refl p s s' : s_files s' = s_files s -> s_network s' = s_network s -> kept p s s'.
Proof. intros H Hn. split; unfold content; rewrite ?H; done. Qed.

Lemma pos_le_refl p : pos_le p p.
Proof. right. lia. Qed.
Lemma pos_le_trans p q r : pos_le p q -> pos_le q r -> pos_le p r.
Proof. unfold pos_le. lia. Qed.

Lemma bytes_at_take (c : list byte) off n m : 0 <= off -> 0 <= n -> off + n <= m ->
  bytes_at (take (Z.to_nat m) c) off n = bytes_at c off n.
Proof. intros. unfold bytes_at. rewrite !take_drop_commute, take_take. do 2 f_equal. lia. Qed.

Lemma stored_kept s s' loc raw p :
  stored s loc raw -> pos_le (loc_end loc) p -> kept p s s' -> stored s' loc raw.
Proof.
  destruct p as [pn po]. intros [Hf Hb Ho Hl Hi] Hle [Ha Hp He Hn]. unfold pos_le, loc_end in Hle. cbn in *. pose proof (len_nonneg raw) as Hpos.
  destruct Hle as [Hlt|[Heq Hle]]; cbn in *.
  - split; unfold content in *; rewrite ?Ha, ?Hn by done; done.
  - subst pn. assert (Hin : l_fileOffset loc + l_blockLen loc <= len (content s' (l_blockFileNum loc))).
    { apply (f_equal length) in Hp. rewrite !length_take in Hp. unfold len in *. lia. }
    split; [by apply He| |done|done|done]. rewrite Hn, <- Hb, <- (bytes_at_take _ _ _ po), Hp by lia. apply bytes_at_take; lia.
Qed.

Lemma written_facts s1 raw k :
  let rec := record (s_network s1) raw in
  store_ok s1 -> s_curOffset s1 + (len raw + 12) < 2 ^ 32 -> (k <= length rec)%nat ->
  store_ok (written (opened s1) rec k) /\ kept (cursor s1) s1 (written (opened s1) rec k) /\
  pos_le (cursor s1) (cursor (written (opened s1) rec k)) /\
  (k = length rec -> let loc := mkLoc (s_curFileNum s1) (s_curOffset s1) (len raw + 12) in
     stored (written (opened s1) rec k) loc raw /\ loc_end loc = cursor (written (opened s1) rec k)).
Proof.
  intros rec [Hn Ho Hm Hnet Hh Hin] Hmax Hk. pose proof (len_record (s_network s1) raw) as Hlen. fold rec in Hlen.
  assert (Hc : content (written (opened s1) rec k) (s_curFileNum s1) = write_at (content s1 (s_curFileNum s1)) (Z.to_nat (s_curOffset s1)) (take k rec)).
  { unfold content at 1. cbn. rewrite lookup_insert_eq. cbn. unfold content at 1. cbn. by rewrite lookup_insert_eq. }
  assert (Hoff : (Z.to_nat (s_curOffset s1) <= length (content s1 (s_curFileNum s1)))%nat) by (unfold len in Hin; lia).
  assert (Htk : length (take k rec) = k) by (rewrite length_take; lia).
  pose proof (length_write_at _ _ (take k rec) Hoff) as Hl. rewrite Htk in Hl.
  split; [|split; [|split]].
  - split; cbn; [done|unfold len in *; lia|done|done|right; split; [done|]; rewrite lookup_insert_eq; by eexists|].
    change (s_curFileNum s1) with (s_curFileNum (opened s1)). cbn. rewrite Hc. unfold len. lia.
  - split; cbn; [| | |done].
    + intros n Hlt. rewrite !lookup_insert_ne by lia. done.
    + rewrite Hc. apply take_write_at; lia.
    + intros _. rewrite lookup_insert_eq. by eexists.
  - right. cbn. lia.
  - intros ->. cbn. split; [|unfold loc_end, cursor; cbn; f_equal; unfold len in *; lia].
    split; cbn; [rewrite lookup_insert_eq; by eexists| |lia|done|].
    + rewrite Hc. rewrite firstn_all. pose proof (read_write_at _ _ rec Hoff) as Hr.
      rewrite Z2Nat.id, Hlen in Hr by lia. exact Hr.
    + rewrite Hc. unfold len in *. lia.
Qed.

Lemma moved_facts s l : store_ok s -> s_curFileNum s + 1 < 2 ^ 32 ->
  kept (cursor s) s (moved s l) /\ pos_le (cursor s) (cursor (moved s l)) /\
  s_curFileNum (moved s l) <= s_curFileNum s + 1 /\ s_maxBlockFileSize (moved s l) = s_maxBlockFileSize s /\
  s_openBlockFiles (moved s l) = s_openBlockFiles s.
Proof.
  intros [Hn _ _ _ _ _] Hnum. unfold moved. destruct (_ || _).
  - split_and!; [by apply kept_refl|left; cbn; unfold wrap_u32; rewrite Z.mod_small by lia; lia| |done|done].
    cbn. unfold wrap_u32. rewrite Z.mod_small; lia.
  - split_and!; [by apply kept_refl|apply pos_le_refl|lia|done|done].
Qed.

(** Whatever the file system does, [writeBlock] leaves the store in order and
    everything before the old cursor as it was; when it succeeds the block is on
    disk, up to the new cursor; and it fails only when the file system does. *)
Lemma writeBlock_any s raw fs :
  store_ok s -> len raw + 12 < 2 ^ 32 -> s_curFileNum s + 1 < 2 ^ 32 ->
  wp (writeBlock raw) s fs (fun o s' fs' =>
    store_ok s' /\ kept (cursor s) s s' /\ pos_le (cursor s) (cursor s') /\ s_curFileNum s' <= s_curFileNum s + 1 /\
    o <> Panic /\ (good fs -> good fs' /\ is_val o) /\
    (forall loc, o = Val loc -> stored s' loc raw /\ loc_end loc = cursor s' /\
       pos_le (cursor s) (l_blockFileNum loc, l_fileOffset loc))).
Proof.
  intros Hok Hraw Hnum. destruct (writeBlock_spec s raw fs Hok Hraw Hnum) as (Hok1 & Hend & Hwp).
  destruct (moved_facts s (len raw + 12) Hok Hnum) as (Hk1 & Hp1 & Hn1 & _ & _).
  apply (wp_mono _ _ _ _ _ Hwp). clear Hwp.
  intros o s' fs' [(e & -> & -> & Hng)|(k & Hk & -> & Hp & Hv & Hg)].
  - by split_and!.
  - destruct (written_facts _ raw k Hok1 Hend Hk) as (Hok2 & Hk2 & Hp2 & Hst).
    split_and!; [done| |by eapply pos_le_trans|done|done|done|].
    + eapply kept_trans; [done|done|done|apply Hok].
    + intros loc Hloc. destruct (Hv loc Hloc) as [Hkl ->]. destruct (Hst Hkl) as [H1 H2]. by split_and!.
Qed.
