(* ===== verification/BlockLog.v ===== *)
(** * The block files: rolling back, reading, and what the component promises

    The proofs about [handleRollback] and the readers of [BlockStore], and the
    theorems: a log of blocks that survives failed writes. *)

From Stdlib Require Import ZArith Lia.
From S2P Require Import Prelude WireCommon WireTx DbEffects BlockStore.

Open Scope Z_scope.

(** ** Rolling back *)

(** Deleting touches only the file it names. *)
Lemma deleteFile_spec n s fs :
  wp (deleteFile n) s fs (fun o s' fs' =>
    (o = Val tt /\ s' = set_files s (delete n (s_files s)) \/ (exists e, o = Error e) /\ s' = s) /\
    (n ∉ s_openBlockFiles s -> is_Some (s_files s !! n) -> good fs -> good fs' /\ o = Val tt)).
Proof.
  unfold deleteFile. apply wp_get. destruct (bool_decide_reflect (n ∈ s_openBlockFiles s)).
  - split; [right; by eauto|done].
  - apply wp_next. intros f fs' Hg. destruct f, (s_files s !! n) as [c|] eqn:Hc;
      (split; [first [left; done|right; by eauto]|intros _ Hs Hgd; destruct (Hg Hgd); try done; by destruct Hs]).
Qed.

(** The state in the middle of a rollback: the files up to [p] are as they were. *)
Record unwinding (p : position) (s0 s : blockStore) : Prop := {
  uw_num : p.1 <= s_curFileNum s <= s_curFileNum s0;
  uw_low : forall n, n <= p.1 -> s_files s !! n = s_files s0 !! n;
  uw_sub : forall n c, s_files s !! n = Some c -> s_files s0 !! n = Some c;
  uw_same : s_network s = s_network s0 /\ s_maxBlockFileSize s = s_maxBlockFileSize s0 /\
    s_openBlockFiles s = s_openBlockFiles s0;
}.

(** No file above [p] and up to the cursor is missing or open for reading. *)
Definition removable (p : position) (s : blockStore) : Prop :=
  forall n, p.1 < n <= s_curFileNum s -> is_Some (s_files s !! n) /\ n ∉ s_openBlockFiles s.

Lemma delete_down_spec fuel p s0 s fs :
  unwinding p s0 s -> s_curFile s = None -> (Z.to_nat (s_curFileNum s - p.1) <= fuel)%nat ->
  wp (delete_down fuel p.1) s fs (fun o s' fs' =>
    exists b, o = Val b /\ unwinding p s0 s' /\ s_curFile s' = None /\ (b = true -> s_curFileNum s' = p.1) /\
      (forall n, s_curFileNum s < n -> s_files s' !! n = s_files s !! n) /\
      (removable p s -> good fs -> good fs' /\ b = true /\
         forall n, p.1 < n <= s_curFileNum s -> s_files s' !! n = None)).
Proof.
  revert s fs. induction fuel as [|fuel IH]; intros s fs Huw Hh Hfuel; cbn [delete_down]; apply wp_get;
    pose proof Huw as [Hnum Hlow Hsub (Hnet & Hmax & Hop)]; destruct (Z.ltb_spec p.1 (s_curFileNum s)).
  - lia.
  - apply wp_ret. exists true. split_and!; [done|done|done|lia|done|]. intros _ Hg. split_and!; [done|done|lia].
  - apply wp_bind, wp_attempt. apply (wp_mono _ _ _ _ _ (deleteFile_spec (s_curFileNum s) s fs)).
    intros o s1 fs1 [[[-> ->]|[[e ->] ->]] Hgood].
    + apply wp_get, wp_put. set (s2 := set_cursor _ _ _ _).
      assert (Huw2 : unwinding p s0 s2).
      { split; cbn; [lia| | |done].
        - intros n Hn. rewrite lookup_delete_ne by lia. auto.
        - intros n c Hn. apply lookup_delete_Some in Hn as [_ Hn]. auto. }
      apply (wp_mono _ _ _ _ _ (IH s2 fs1 Huw2 Hh ltac:(cbn; lia))).
      intros o s' fs' (b & -> & Hu & Hc & Hb & Hhigh & Hrest). exists b. split_and!; try done.
      { intros n Hn. rewrite Hhigh by (cbn; lia). cbn. by rewrite lookup_delete_ne by lia. }
      intros Hrem Hg. destruct (Hrem (s_curFileNum s)) as [Hex Hno]; [lia|].
      destruct (Hgood Hno Hex Hg) as [Hg1 _]. destruct Hrest as (Hg' & Hb' & Hnone); [|done|].
      { intros n Hn. cbn in Hn |- *. rewrite lookup_delete_ne by lia. apply Hrem. lia. }
      split_and!; [done|done|]. intros n Hn. destruct (Z.eq_dec n (s_curFileNum s)) as [->|Hne]; [|apply Hnone; cbn; lia].
      rewrite Hhigh by (cbn; lia). cbn. apply lookup_delete_eq.
    + apply wp_ret. exists false. split_and!; try done. intros Hrem Hg. destruct (Hrem (s_curFileNum s)) as [Hex Hno]; [lia|].
      by destruct (Hgood Hno Hex Hg).
  - apply wp_ret. exists true. split_and!; [done|done|done|lia|done|]. intros _ Hg. split_and!; [done|done|lia].
Qed.

Lemma truncate_within c p : (p <= length c)%nat -> truncate c p = take p c.
Proof. intros H. unfold truncate. replace (p - length c)%nat with O by lia. by rewrite app_nil_r. Qed.

(** What cutting a file leaves, whether or not the file system obeys. *)
Definition truncate_post (n po : Z) (s : blockStore) (fs : list fault) (o : outcome unit) (s' : blockStore) (fs' : list fault) : Prop :=
  o = Val tt /\ (s_curFile s' = None \/ s_curFile s' = Some n /\ is_Some (s_files s' !! n)) /\
  s_network s' = s_network s /\ s_maxBlockFileSize s' = s_maxBlockFileSize s /\ s_openBlockFiles s' = s_openBlockFiles s /\
  (forall m, m <> n -> s_files s' !! m = s_files s !! m) /\
  (is_Some (s_files s !! n) -> is_Some (s_files s' !! n)) /\
  (content s' n = content s n \/ content s' n = take (Z.to_nat po) (content s n)) /\
  (good fs -> good fs' /\ content s' n = take (Z.to_nat po) (content s n)).

Lemma truncate_file_spec n po s fs :
  s_curFileNum s = n -> 0 <= po <= len (content s n) ->
  (s_curFile s = None \/ s_curFile s = Some n /\ is_Some (s_files s !! n)) ->
  wp (truncate_file po) s fs (truncate_post n po s fs).
Proof.
  intros Hn Hpo Hh. unfold truncate_file. apply wp_get, wp_bind.
  apply (wp_mono _ _ _ (fun o s' fs' => (s' = s /\ (exists e, o = Val (Some e)) /\ ~ good fs /\ s_curFile s = None) \/
    (s' = opened s /\ o = Val None /\ (good fs -> good fs')))).
  { destruct Hh as [Hh|[Hh Hex]]; rewrite Hh.
    - apply wp_attempt. unfold openWriteFile. apply wp_next. intros f fs' Hg. destruct f.
      + apply wp_get, wp_put, wp_get. right. split_and!; [done|done|]. intros H. by apply Hg.
      + left. split_and!; [done|by eexists|intros H; by destruct (Hg H)|done].
      + left. split_and!; [done|by eexists|intros H; by destruct (Hg H)|done].
    - apply wp_ret. right. split_and!; [|done|done]. rewrite opened_same; congruence. }
  intros o s' fs' [(-> & [e ->] & Hng & Hnone)|(-> & -> & Hg)].
  { apply wp_ret. unfold truncate_post. split_and!; try done; by left. }
  assert (Hco : content (opened s) n = content s n) by (unfold content; cbn; by rewrite Hn, lookup_insert_eq).
  assert (Hex : is_Some (s_files (opened s) !! n)) by (cbn; rewrite Hn, lookup_insert_eq; by eexists).
  assert (Hother : forall m, m <> n -> s_files (opened s) !! m = s_files s !! m) by (intros m Hm; cbn; by rewrite Hn, lookup_insert_ne by done).
  assert (Hcur : s_curFile (opened s) = Some n) by (cbn; by rewrite Hn).
  assert (Hkeep : forall fs'', ~ good fs -> wp (mret tt) (opened s) fs'' (truncate_post n po s fs)).
  { intros fs'' Hng. apply wp_ret. unfold truncate_post. split_and!; try done; first [by right|by left]. }
  apply wp_next. intros f fs1 Hg1. apply wp_get. rewrite Hcur.
  destruct f; [|apply Hkeep; intros H; by destruct (Hg1 (Hg H))..].
  apply wp_put, wp_next. intros f2 fs2 Hg2. apply wp_ret. set (s2 := set_files _ _).
  assert (Hc2 : content s2 n = take (Z.to_nat po) (content s n)).
  { unfold s2. rewrite content_insert, Hco. apply truncate_within. unfold len in Hpo. lia. }
  split_and!; [done|right; split; [done|cbn; rewrite lookup_insert_eq; by eexists]|done|done|done| |
    |by right|intros H; split; [by apply Hg2, Hg1, Hg|done]].
  - intros m Hm. cbn. rewrite lookup_insert_ne by done. by apply Hother.
  - intros _. cbn. rewrite lookup_insert_eq. by eexists.
Qed.

(** What [handleRollback] promises: everything before the position is kept, the
    cursor is there and the store in order, whatever the file system does; when it
    obeys, and no file in the way is missing or being read, what came after is
    gone. *)
Definition undone (p : position) (s : blockStore) (fs : list fault) (s' : blockStore) (fs' : list fault) : Prop :=
  good fs' /\ content s' p.1 = take (Z.to_nat p.2) (content s p.1) /\
  (forall n, p.1 < n <= s_curFileNum s -> s_files s' !! n = None) /\
  (forall n, n < p.1 \/ s_curFileNum s < n -> s_files s' !! n = s_files s !! n).
(** Files are deleted, and the one of the position is cut. *)
Definition shrunk (pn : Z) (s s' : blockStore) : Prop :=
  (forall n c, n <> pn -> s_files s' !! n = Some c -> s_files s !! n = Some c) /\ len (content s' pn) <= len (content s pn).
Definition rollback_post (p : position) (s : blockStore) (fs : list fault) (o : outcome unit) (s' : blockStore) (fs' : list fault) : Prop :=
  o = Val tt /\ store_ok s' /\ kept p s s' /\ cursor s' = p /\ s_openBlockFiles s' = s_openBlockFiles s /\
  s_maxBlockFileSize s' = s_maxBlockFileSize s /\ shrunk p.1 s s' /\
  (removable p s -> cursor s <> p -> good fs -> undone p s fs s' fs').

(** The deferred assignment of the cursor. *)
Lemma reposition_spec pn po s fs s3 fs3 :
  store_ok s -> 0 <= pn <= s_curFileNum s -> 0 <= po < 2 ^ 32 -> po <= len (content s pn) ->
  (s_curFile s3 = None \/ s_curFile s3 = Some pn /\ is_Some (s_files s3 !! pn)) ->
  s_network s3 = s_network s /\ s_maxBlockFileSize s3 = s_maxBlockFileSize s /\ s_openBlockFiles s3 = s_openBlockFiles s ->
  (forall n c, n <> pn -> s_files s3 !! n = Some c -> s_files s !! n = Some c) ->
  (forall n, n < pn -> s_files s3 !! n = s_files s !! n) -> (is_Some (s_files s !! pn) -> is_Some (s_files s3 !! pn)) ->
  (content s3 pn = content s pn \/ content s3 pn = take (Z.to_nat po) (content s pn)) ->
  (removable (pn, po) s -> good fs -> undone (pn, po) s fs s3 fs3) ->
  wp (s ← get; put (set_cursor s (s_curFile s) pn po)) s3 fs3 (rollback_post (pn, po) s fs).
Proof.
  intros [Hn Ho Hm Hnet Hh Hcur] Hpn Hp2 Hin Hh3 (Hn3 & Hm3 & Hop3) Hsub3 Hlow3 Hex3 Hc3 Hg3. apply wp_get.
  assert (Hcont : content (set_cursor s3 (s_curFile s3) pn po) pn = content s3 pn) by done.
  unfold rollback_post. split_and!; [done| | |done|done|done| |intros Hr _ Hg; by apply Hg3].
  - split; cbn; [lia|lia|congruence|congruence|done|]. rewrite Hcont.
    destruct Hc3 as [-> | ->]; [done|]. unfold len in *. rewrite length_take. lia.
  - split; cbn; [done| |done|done]. rewrite Hcont. destruct Hc3 as [-> | ->]; [done|]. rewrite take_take. f_equal. lia.
  - split; [exact Hsub3|]. cbn [fst]. rewrite Hcont. destruct Hc3 as [-> | ->]; [lia|]. unfold len. rewrite length_take. lia.
Qed.

(** Closing the current file and deleting those above the position. *)
Lemma unwind_spec pn po s fs :
  store_ok s -> pn <= s_curFileNum s ->
  let s1 := if pn <? s_curFileNum s then set_cursor s None (s_curFileNum s) (s_curOffset s) else s in
  wp (delete_down (Z.to_nat (s_curFileNum s1 - pn)) pn) s1 fs (fun o s' fs' =>
    exists b, o = Val b /\ unwinding (pn, po) s s' /\ (b = true -> s_curFileNum s' = pn) /\
    (s_curFile s' = None \/ s_curFile s' = Some pn /\ is_Some (s_files s' !! pn)) /\
    (forall n, s_curFileNum s < n -> s_files s' !! n = s_files s !! n) /\
    (removable (pn, po) s -> good fs -> good fs' /\ b = true /\
       forall n, pn < n <= s_curFileNum s -> s_files s' !! n = None)).
Proof.
  intros [Hn Ho Hm Hnet Hh Hcur] Hpn s1. unfold s1. destruct (Z.ltb_spec pn (s_curFileNum s)).
  - assert (Huw : unwinding (pn, po) s (set_cursor s None (s_curFileNum s) (s_curOffset s))) by (split; cbn; [lia|done|done|done]).
    apply (wp_mono _ _ _ _ _ (delete_down_spec _ (pn, po) s _ fs Huw eq_refl (le_n _))).
    intros o s' fs' (b & -> & Hu & Hc & Hb & Hhigh & Hrem). exists b. by split_and!; [| | |left| |].
  - assert (s_curFileNum s = pn) as Heq by lia. rewrite Heq, Z.sub_diag. cbn [Z.to_nat delete_down]. apply wp_get.
    rewrite Heq, Z.ltb_irrefl. apply wp_ret. exists true. split_and!; [done|split; cbn; [lia|done|done|done]|done| |done|].
    + destruct Hh as [Hh|[Hh Hex]]; [by left|right]. rewrite Heq in Hh, Hex. done.
    + intros _ Hg. split_and!; [done|done|lia].
Qed.

Lemma handleRollback_spec p s fs :
  store_ok s -> 0 <= p.1 -> 0 <= p.2 < 2 ^ 32 -> pos_le p (cursor s) -> p.2 <= len (content s p.1) ->
  wp (handleRollback p.1 p.2) s fs (rollback_post p s fs).
Proof.
  intros Hok Hp1 Hp2 Hle Hin. unfold handleRollback. apply wp_get. destruct p as [pn po]. cbn [fst snd] in *.
  destruct ((s_curFileNum s =? pn) && (s_curOffset s =? po)) eqn:Hsame.
  { apply andb_true_iff in Hsame as [H1%Z.eqb_eq H2%Z.eqb_eq]. apply wp_ret.
    unfold rollback_post. split_and!; [done|done|by apply kept_refl|unfold cursor; congruence|done|done|by split|].
    intros _ Hne. destruct Hne. unfold cursor. congruence. }
  apply wp_bind. unfold rollback_files. apply wp_get, wp_bind.
  assert (pn <= s_curFileNum s) as Hpn by (unfold pos_le in Hle; cbn in Hle; lia).
  set (s1 := if pn <? s_curFileNum s then set_cursor s None (s_curFileNum s) (s_curOffset s) else s).
  apply (wp_mono _ _ _ (fun o s' fs' => o = Val tt /\ s' = s1 /\ fs' = fs)).
  { unfold s1. by destruct (pn <? s_curFileNum s). }
  intros o s' fs' (-> & -> & ->). apply wp_get, wp_bind.
  apply (wp_mono _ _ _ _ _ (unwind_spec pn po s fs Hok Hpn)).
  intros o s2 fs2 (b & -> & [Hnum Hlow Hsub Hsame2] & Hb & Hh2 & Hhigh & Hrem). cbn [fst] in *.
  assert (Hcont2 : forall n, n <= pn -> content s2 n = content s n) by (intros n Hle'; unfold content; by rewrite Hlow).
  destruct b; cbn [negb].
  - apply (wp_mono _ _ _ _ _ (truncate_file_spec pn po s2 fs2 (Hb eq_refl) ltac:(rewrite Hcont2 by lia; lia) Hh2)).
    intros o s3 fs3 (-> & Hh3 & Hn3 & Hm3 & Hop3 & Hother & Hex3 & Hc3 & Hg3). rewrite Hcont2 in Hc3, Hg3 by lia.
    apply reposition_spec; [done|lia|done|done|done|split_and!; destruct Hsame2 as (?&?&?); congruence| | | |done|].
    + intros n c Hne. rewrite Hother by done. apply Hsub.
    + intros n Hlt. rewrite Hother by lia. apply Hlow. lia.
    + intros Hex. apply Hex3. by rewrite Hlow by lia.
    + intros Hr Hg. destruct (Hrem Hr Hg) as (Hg2 & _ & Hnone). destruct (Hg3 Hg2) as [Hg4 Hc4]. split_and!; [done|done| |].
      * intros n Hr'. rewrite Hother by (cbn in Hr'; lia). by apply Hnone.
      * intros n Hr'. cbn in Hr'. rewrite Hother by lia. destruct Hr' as [?|?]; [apply Hlow; lia|by apply Hhigh].
  - apply wp_ret. apply reposition_spec; [done|lia|done|done|done|done|by intros n c _; apply Hsub| | |left; apply Hcont2; lia|intros Hr Hg; by destruct (Hrem Hr Hg) as (_ & ? & _)].
    + intros n Hlt. apply Hlow. lia.
    + intros Hex. by rewrite Hlow by lia.
Qed.

Lemma crc_bit_range c : 0 <= c < 2 ^ 32 -> 0 <= crc_bit c < 2 ^ 32.
Proof.
  intros Hc. assert (H : 0 <= Z.shiftr c 1 < 2 ^ 32).
  { rewrite Z.shiftr_div_pow2 by lia. change (2 ^ 1) with 2. split; [apply Z.div_pos; lia|].
    apply Z.div_lt_upper_bound; lia. }
  unfold crc_bit. destruct (Z.testbit c 0); [|done]. by apply lxor_width; [lia|..].
Qed.

Lemma crc32c_range bs : 0 <= crc32c bs < 256 ^ Z.of_nat 4.
Proof.
  change (256 ^ Z.of_nat 4) with (2 ^ 32).
  assert (H : forall c, 0 <= c < 2 ^ 32 -> 0 <= fold_left crc_byte bs c < 2 ^ 32).
  { induction bs as [|b bs IH]; intros c Hc; [done|]. cbn [fold_left]. apply IH. unfold crc_byte.
    assert (0 <= Z.lxor c (b2z b) < 2 ^ 32) as Hx by (apply lxor_width; [lia|done|pose proof (b2z_range b); lia]).
    revert Hx. generalize (Z.lxor c (b2z b)). intros x Hx. do 8 (apply crc_bit_range in Hx). exact Hx. }
  unfold crc32c. apply lxor_width; [lia|by apply H|done].
Qed.

(** ** Reading *)

(** Reading changes which files are open and nothing else. *)
Definition only_open (s s' : blockStore) : Prop := s' = set_open s (s_openBlockFiles s') (s_openBlocksLRU s').

Lemma openFile_good n s fs : good fs -> is_Some (s_files s !! n) ->
  wp (openFile n) s fs (fun o s' fs' => o = Val tt /\ only_open s s' /\ good fs').
Proof.
  intros Hgood [c Hc]. unfold openFile. apply wp_next. intros f fs' Hg. destruct (Hg Hgood) as [-> Hg'].
  apply wp_get. rewrite Hc. apply wp_bind.
  apply (wp_mono _ _ _ (fun o s' fs'' => o = Val tt /\ only_open s s' /\ fs'' = fs')).
  - destruct (maxOpenFiles <=? length (s_openBlocksLRU s))%nat eqn:E; [|by destruct s].
    destruct (stdpp.list_basics.list.last (s_openBlocksLRU s)) as [x|] eqn:Hl.
    + apply wp_put. unfold closeFile. apply wp_get. by destruct s.
    + apply last_None in Hl. by rewrite Hl in E.
  - intros o s' fs'' (-> & Ho & ->). apply wp_get. unfold only_open in *. rewrite Ho. by destruct s.
Qed.

Lemma blockFile_good n s fs : good fs -> is_Some (s_files s !! n) ->
  (s_curFile s = None \/ s_curFile s = Some (s_curFileNum s)) ->
  wp (blockFile n) s fs (fun o s' fs' => o = Val n /\ only_open s s' /\ good fs').
Proof.
  intros Hgood Hex Hh. unfold blockFile. apply wp_get.
  assert (Hread : wp (if bool_decide (n ∈ s_openBlockFiles s)
      then _ ← put (set_open s (s_openBlockFiles s) (n :: remove_first n (s_openBlocksLRU s))); mret n
      else _ ← openFile n; mret n) s fs (fun o s' fs' => o = Val n /\ only_open s s' /\ good fs')).
  { destruct (bool_decide _); [by apply wp_put|]. apply wp_bind.
    apply (wp_mono _ _ _ _ _ (openFile_good n s fs Hgood Hex)). by intros o s' fs' (-> & Ho & Hg). }
  destruct Hh as [-> | ->]; [done|]. destruct (Z.eqb_spec n (s_curFileNum s)) as [->|]; [|done].
  apply wp_ret. split_and!; [done|by destruct s|done].
Qed.

Lemma openFile_any n s fs : wp (openFile n) s fs (fun o s' _ => only_open s s').
Proof.
  unfold openFile. apply wp_next. intros f fs' _. apply wp_get.
  destruct f, (s_files s !! n); try by destruct s. apply wp_bind.
  apply (wp_mono _ _ _ (fun o s' _ => only_open s s')).
  - destruct (_ <=? _)%nat; [|by destruct s]. destruct (stdpp.list_basics.list.last _); by destruct s.
  - intros o s' fs'' Ho. destruct o; try done. apply wp_get. unfold only_open in *. rewrite Ho. by destruct s.
Qed.

Lemma blockFile_any n s fs : (s_curFile s = None \/ s_curFile s = Some (s_curFileNum s)) ->
  wp (blockFile n) s fs (fun o s' _ => only_open s s' /\ forall h, o = Val h -> h = n).
Proof.
  intros Hh. unfold blockFile. apply wp_get.
  assert (Hread : wp (if bool_decide (n ∈ s_openBlockFiles s)
      then _ ← put (set_open s (s_openBlockFiles s) (n :: remove_first n (s_openBlocksLRU s))); mret n
      else _ ← openFile n; mret n) s fs (fun o s' _ => only_open s s' /\ forall h, o = Val h -> h = n)).
  { destruct (bool_decide _).
    - apply wp_put, wp_ret. split; [done|]. congruence.
    - apply wp_bind. apply (wp_mono _ _ _ _ _ (openFile_any n s fs)). intros o s' fs' Ho.
      destruct o; [apply wp_ret|..]; (split; [done|congruence]). }
  destruct Hh as [-> | ->]; [done|]. destruct (Z.eqb_spec n (s_curFileNum s)) as [->|]; [|done].
  apply wp_ret. split; [by destruct s|congruence].
Qed.

Lemma le_put_get_n n bs : length bs = n -> le_put n (le_get bs) = bs.
Proof. intros <-. apply le_put_get. Qed.
Lemma be_put_get_n n bs : length bs = n -> be_put n (be_get bs) = bs.
Proof. intros <-. apply be_put_get. Qed.
Lemma bytes_at_split (c : list byte) off n m : 0 <= off -> 0 <= n -> 0 <= m ->
  bytes_at c off n ++ bytes_at c (off + n) m = bytes_at c off (n + m).
Proof.
  intros. unfold bytes_at. rewrite !Z2Nat.inj_add, <- drop_drop by lia. generalize (drop (Z.to_nat off) c). intros d.
  by rewrite take_take_drop.
Qed.
Lemma length_bytes_at (c : list byte) off n : 0 <= off -> 0 <= n -> off + n <= len c -> length (bytes_at c off n) = Z.to_nat n.
Proof. intros. unfold bytes_at, len in *. rewrite length_take, length_drop. lia. Qed.

Lemma bytes_at_sub (c : list byte) off n i m : 0 <= off -> 0 <= i -> 0 <= m -> i + m <= n ->
  bytes_at (bytes_at c off n) i m = bytes_at c (off + i) m.
Proof.
  intros. unfold bytes_at. rewrite skipn_firstn_comm, take_take, drop_drop. do 2 f_equal; lia.
Qed.

(** A block on disk is read back, from the start or from any region of it. *)
Lemma read_stored s loc raw fs :
  store_ok s -> stored s loc raw -> len raw + 12 < 2 ^ 32 -> good fs ->
  wp (readBlock loc) s fs (fun o s' fs' => o = Val raw /\ only_open s s' /\ good fs').
Proof.
  intros Hok [Hf Hb Ho Hl Hi] Hraw Hgood. unfold readBlock. apply wp_bind.
  assert (Hh : s_curFile s = None \/ s_curFile s = Some (s_curFileNum s)) by (destruct (so_handle _ Hok) as [?|[? _]]; auto).
  apply (wp_mono _ _ _ _ _ (blockFile_good _ s fs Hgood Hf Hh)). intros o s1 fs1 (-> & Hopen & Hg1).
  assert (Hc1 : content s1 (l_blockFileNum loc) = content s (l_blockFileNum loc)) by (unfold content; rewrite Hopen; done).
  assert (Hnet1 : s_network s1 = s_network s) by (rewrite Hopen; done).
  apply wp_bind. unfold ReadAt. apply wp_next. intros f fs2 Hg2. destruct (Hg2 Hg1) as [-> Hg2'].
  apply wp_get. rewrite Hc1. unfold read_at. destruct (Z.ltb_spec (len (content s (l_blockFileNum loc))) (l_fileOffset loc + l_blockLen loc)); [lia|].
  cbn [andb]. apply wp_ret. rewrite Hb. pose proof (len_nonneg raw) as Hpos.
  assert (Hlen : len (record (s_network s) raw) = len raw + 12) by apply len_record. rewrite Hlen.
  destruct (Z.ltb_spec (len raw + 12) 4); [lia|].
  unfold record in *. set (head := le_put 4 (s_network s) ++ le_put 4 (len raw) ++ raw) in *.
  assert (Hhead : len head = len raw + 8) by (unfold head; rewrite !len_app, !len_le_put; lia).
  set (crc := be_put 4 (crc32c head)) in *. assert (Hcrc : len crc = 4) by (unfold crc, len; by rewrite length_be_put).
  replace (len raw + 12 - 4) with (len head) by lia.
  assert (bytes_at (head ++ crc) 0 (len head) = head) as -> by exact (bytes_at_app [] head crc).
  assert (bytes_at (head ++ crc) (len head) 4 = crc) as ->.
  { rewrite <- Hcrc. pose proof (bytes_at_app head crc []) as H'. by rewrite app_nil_r in H'. }
  unfold crc at 1. rewrite be_get_put by apply crc32c_range. rewrite Z.eqb_refl. cbn [negb]. apply wp_get.
  assert (bytes_at (head ++ crc) 0 4 = le_put 4 (s_network s)) as ->.
  { unfold head. rewrite <- !app_assoc. apply (bytes_at_app [] (le_put 4 _)). }
  rewrite le_get_put by apply Hok. rewrite Hnet1, Z.eqb_refl. cbn [negb].
  destruct (Z.ltb_spec (len raw + 12) 12); [lia|]. apply wp_ret. split_and!; [|done|done]. f_equal.
  replace (len raw + 12 - 12) with (len raw) by lia. unfold head. rewrite <- !app_assoc, (app_assoc (le_put 4 _)).
  apply (bytes_at_app (le_put 4 (s_network s) ++ le_put 4 (len raw)) raw crc).
Qed.

Lemma read_region s loc raw o n fs :
  store_ok s -> stored s loc raw -> 0 <= o -> 0 <= n -> o + n + 8 <= l_blockLen loc ->
  l_fileOffset loc + l_blockLen loc < 2 ^ 32 -> good fs ->
  wp (readBlockRegion loc o n) s fs (fun r s' fs' =>
    r = Val (bytes_at (record (s_network s) raw) (8 + o) n) /\ only_open s s' /\ good fs').
Proof.
  intros Hok [Hf Hb Hoff Hl Hi] Ho Hn Hend Hmax Hgood. unfold readBlockRegion. apply wp_bind.
  assert (Hh : s_curFile s = None \/ s_curFile s = Some (s_curFileNum s)) by (destruct (so_handle _ Hok) as [?|[? _]]; auto).
  apply (wp_mono _ _ _ _ _ (blockFile_good _ s fs Hgood Hf Hh)). intros r s1 fs1 (-> & Hopen & Hg1).
  assert (Hc1 : content s1 (l_blockFileNum loc) = content s (l_blockFileNum loc)) by (unfold content; rewrite Hopen; done).
  unfold ReadAt. apply wp_next. intros f fs2 Hg2. destruct (Hg2 Hg1) as [-> Hg2'].
  apply wp_get. rewrite Hc1. unfold read_at, wrap_u32. rewrite Z.mod_small by lia.
  destruct (Z.ltb_spec (len (content s (l_blockFileNum loc))) (l_fileOffset loc + 8 + o + n)); [lia|].
  cbn [andb]. apply wp_ret. split_and!; [|done|done]. f_equal.
  rewrite <- Hb, bytes_at_sub by lia. f_equal. lia.
Qed.

Lemma record_region net raw o n : 0 <= o -> 0 <= n -> o + n <= len raw ->
  bytes_at (record net raw) (8 + o) n = bytes_at raw o n.
Proof.
  intros Ho Hn Hend. assert (Hr : bytes_at (record net raw) 8 (len raw) = raw).
  { unfold record. set (crc := be_put 4 _). rewrite <- !app_assoc, (app_assoc (le_put 4 net)).
    apply (bytes_at_app (le_put 4 net ++ le_put 4 (len raw)) raw crc). }
  rewrite <- Hr at 2. symmetry. apply bytes_at_sub; lia.
Qed.

(** ** The size of the files *)

Definition bounded (s : blockStore) : Prop :=
  forall n c, s_files s !! n = Some c -> len c <= s_maxBlockFileSize s.

Lemma bounded_content s n : bounded s -> 0 <= s_maxBlockFileSize s -> len (content s n) <= s_maxBlockFileSize s.
Proof. intros Hb Hm. unfold content. destruct (s_files s !! n) as [c|] eqn:E; [by eapply Hb|done]. Qed.

Lemma moved_room s l : store_ok s -> 0 <= l <= s_maxBlockFileSize s ->
  s_curOffset (moved s l) + l <= s_maxBlockFileSize s.
Proof.
  intros [Hn Ho Hm Hnet Hh Hin] Hl. unfold moved. destruct (_ || _) eqn:E; [cbn; lia|].
  apply orb_false_iff in E as [E1 E2]. apply Z.ltb_ge in E1, E2. unfold wrap_u32 in *.
  rewrite (Z.mod_eq _ (2 ^ 32)) in E1, E2 by lia.
  assert (0 <= (s_curOffset s + l) / 2 ^ 32) by (apply Z.div_pos; lia). nia.
Qed.

Lemma written_bounded s1 rec k :
  store_ok s1 -> bounded s1 -> s_curOffset s1 + len rec <= s_maxBlockFileSize s1 -> (k <= length rec)%nat ->
  bounded (written (opened s1) rec k).
Proof.
  intros [Hn Ho Hm Hnet Hh Hin] Hb Hroom Hk n c. cbn.
  pose proof (bounded_content s1 (s_curFileNum s1) Hb (proj1 Hm)) as Hc.
  assert (Hco : content (opened s1) (s_curFileNum s1) = content s1 (s_curFileNum s1)) by (unfold content; cbn; by rewrite lookup_insert_eq).
  rewrite Hco. destruct (Z.eq_dec n (s_curFileNum s1)) as [->|Hne].
  - rewrite lookup_insert_eq. intros H. injection H as <-. unfold len in *.
    rewrite write_at_within by lia. rewrite !length_app, length_drop, !length_take. lia.
  - rewrite !lookup_insert_ne by done. apply Hb.
Qed.

(** * The correctness of the component *)

(** C26: C: a block store is an append-only log of blocks.  Writing a block succeeds
    when the file system does, and returns a location at or after the old cursor
    and ending at the new one; reading that location gives the block, and reading
    the location of any block written before gives that block still. *)
Theorem block_store_log s raw fs
    (Hok : store_ok s) (Hraw : len raw + 12 < 2 ^ 32) (Hnum : s_curFileNum s + 1 < 2 ^ 32) (Hgood : good fs) :
  exists loc s' fs', writeBlock raw s fs = (Val loc, s', fs') /\ store_ok s' /\
    pos_le (cursor s) (l_blockFileNum loc, l_fileOffset loc) /\ loc_end loc = cursor s' /\
    (exists s2, (readBlock loc s' []).1 = (Val raw, s2) /\ s_files s2 = s_files s') /\
    forall loc0 raw0, stored s loc0 raw0 -> pos_le (loc_end loc0) (cursor s) -> len raw0 + 12 < 2 ^ 32 ->
      stored s' loc0 raw0 /\ exists s2, (readBlock loc0 s' []).1 = (Val raw0, s2) /\ s_files s2 = s_files s'.
Proof.
  assert (Hread : forall s loc raw, store_ok s -> stored s loc raw -> len raw + 12 < 2 ^ 32 ->
    exists s2, (readBlock loc s []).1 = (Val raw, s2) /\ s_files s2 = s_files s).
  { intros s0 loc0 raw0 H0 H1 H2. destruct (wp_run _ _ _ _ (read_stored s0 loc0 raw0 [] H0 H1 H2 ltac:(constructor)))
      as (o & s2 & fs2 & -> & -> & Ho & _). exists s2. split; [done|]. by rewrite Ho. }
  destruct (wp_run _ _ _ _ (writeBlock_any s raw fs Hok Hraw Hnum)) as (o & s' & fs' & Hrun & Hok' & Hk & Hp & _ & _ & Hg & Hv).
  destruct (Hg Hgood) as [_ Hval]. destruct o as [loc|e| |]; try done. destruct (Hv loc eq_refl) as (Hst & Hend & Hple).
  exists loc, s', fs'. split_and!; [done|done|done|done|by apply Hread|]. intros loc0 raw0 Hst0 Hle Hraw0.
  pose proof (stored_kept _ _ _ _ _ Hst0 Hle Hk). split; [done|by apply Hread].
Qed.

(** C: whatever the file system does while a block is being written and while the
    write is being undone, the store ends in order with its cursor where it was,
    and every block before it is still on disk.  When the undoing succeeds, the
    bytes of the partial write are gone. *)
Theorem write_rollback_safe s raw fs o s1 fs1
    (Hok : store_ok s) (Hraw : len raw + 12 < 2 ^ 32) (Hnum : s_curFileNum s + 1 < 2 ^ 32)
    (Hw : writeBlock raw s fs = (o, s1, fs1)) :
  exists s2 fs2, handleRollback (s_curFileNum s) (s_curOffset s) s1 fs1 = (Val tt, s2, fs2) /\
    store_ok s2 /\ cursor s2 = cursor s /\ kept (cursor s) s s2 /\
    (forall loc0 raw0, stored s loc0 raw0 -> pos_le (loc_end loc0) (cursor s) -> stored s2 loc0 raw0) /\
    (good fs1 -> removable (cursor s) s1 -> cursor s1 <> cursor s ->
       content s2 (s_curFileNum s) = take (Z.to_nat (s_curOffset s)) (content s (s_curFileNum s))).
Proof.
  pose proof (writeBlock_any s raw fs Hok Hraw Hnum) as Hwp. unfold wp in Hwp. rewrite Hw in Hwp.
  destruct Hwp as (Hok1 & Hk1 & Hp1 & _). pose proof Hok as [Hn Ho Hm Hnet Hh Hin].
  assert (Hin1 : s_curOffset s <= len (content s1 (s_curFileNum s))).
  { pose proof (kp_prefix _ _ _ Hk1) as Hpre. cbn in Hpre. apply (f_equal length) in Hpre.
    rewrite !length_take in Hpre. unfold len in *. lia. }
  destruct (wp_run _ _ _ _ (handleRollback_spec (cursor s) s1 fs1 Hok1 (proj1 Hn) Ho Hp1 Hin1))
    as (o2 & s2 & fs2 & Hrun & -> & Hok2 & Hk2 & Hc2 & _ & _ & _ & Hundo).
  assert (Hkept : kept (cursor s) s s2) by (eapply kept_trans; [done|done|apply pos_le_refl|apply Ho]).
  exists s2, fs2. split_and!; [done|done|done|done| |].
  - intros loc0 raw0 Hst Hle. by eapply stored_kept.
  - intros Hg Hr Hne. destruct (Hundo Hr Hne Hg) as (_ & Hcut & _). cbn in Hcut. rewrite Hcut. apply (kp_prefix _ _ _ Hk1).
Qed.

(** What writing does to the files as a whole. *)
Lemma writeBlock_files s raw fs :
  store_ok s -> len raw + 12 <= s_maxBlockFileSize s -> s_curFileNum s + 1 < 2 ^ 32 ->
  wp (writeBlock raw) s fs (fun o s' fs' => (bounded s -> bounded s') /\ s_maxBlockFileSize s' = s_maxBlockFileSize s /\
    (forall n, is_Some (s_files s' !! n) -> is_Some (s_files s !! n) \/ n = s_curFileNum s') /\
    (is_val o -> is_Some (s_files s' !! s_curFileNum s'))).
Proof.
  intros Hok Hraw Hnum. assert (Hraw' : len raw + 12 < 2 ^ 32) by (pose proof (so_max _ Hok); lia).
  destruct (writeBlock_spec s raw fs Hok Hraw' Hnum) as (Hok1 & _ & Hwp).
  destruct (moved_facts s (len raw + 12) Hok Hnum) as (_ & _ & _ & Hmx & _). pose proof (len_nonneg raw) as Hpos.
  pose proof (moved_room s (len raw + 12) Hok ltac:(lia)) as Hroom.
  assert (Hf1 : s_files (moved s (len raw + 12)) = s_files s) by (unfold moved; by destruct (_ || _)).
  assert (Hb1 : bounded s -> bounded (moved s (len raw + 12))) by (unfold bounded; by rewrite Hf1, Hmx).
  apply (wp_mono _ _ _ _ _ Hwp). intros o s' fs' [(e & -> & -> & _)|(k & Hk & -> & _)].
  - split_and!; [done|done| |done]. rewrite Hf1. by left.
  - split_and!; [|done| |].
    + intros Hb. apply written_bounded; [done|by apply Hb1| |done]. rewrite len_record, Hmx. done.
    + intros n. cbn. rewrite Hf1. destruct (Z.eq_dec n (s_curFileNum (moved s (len raw + 12)))); [by right|].
      rewrite !lookup_insert_ne by done. by left.
    + intros _. cbn. rewrite lookup_insert_eq. by eexists.
Qed.

(** C: no file grows over the configured size as long as no block does with its
    twelve bytes of framing, whatever the file system does. *)
Theorem file_size_bound s raw fs o s' fs'
    (Hok : store_ok s) (Hb : bounded s) (Hraw : len raw + 12 <= s_maxBlockFileSize s) (Hnum : s_curFileNum s + 1 < 2 ^ 32)
    (Hw : writeBlock raw s fs = (o, s', fs')) :
  bounded s'.
Proof.
  pose proof (writeBlock_files s raw fs Hok Hraw Hnum) as Hwp. unfold wp in Hwp. rewrite Hw in Hwp. by apply Hwp.
Qed.

(** C: what [readBlock] accepts is a record of this network: the bytes at the
    location are the network, a length that is not looked at, the block it
    returns, and the checksum of all of these. *)
Theorem readBlock_sound s loc fs raw s' fs' (Hr : readBlock loc s fs = (Val raw, s', fs'))
    (Hh : s_curFile s = None \/ s_curFile s = Some (s_curFileNum s)) (Hnet : 0 <= s_network s < 2 ^ 32)
    (Hloc : 0 <= l_fileOffset loc /\ 0 <= l_blockLen loc) :
  s_files s' = s_files s /\ exists ln, length ln = 4%nat /\
    let head := le_put 4 (s_network s) ++ ln ++ raw in
    bytes_at (content s (l_blockFileNum loc)) (l_fileOffset loc) (l_blockLen loc) = head ++ be_put 4 (crc32c head).
Proof.
  assert (Hwp : wp (readBlock loc) s fs (fun o s' _ => only_open s s' /\ forall raw, o = Val raw ->
    exists data, data = bytes_at (content s (l_blockFileNum loc)) (l_fileOffset loc) (l_blockLen loc) /\
      12 <= len data /\ be_get (bytes_at data (len data - 4) 4) = crc32c (bytes_at data 0 (len data - 4)) /\
      le_get (bytes_at data 0 4) = s_network s /\ raw = bytes_at data 8 (len data - 12))).
  { unfold readBlock. apply wp_bind. apply (wp_mono _ _ _ _ _ (blockFile_any _ s fs Hh)).
    intros o s1 fs1 [Ho Hv]. destruct o as [h|e| |]; [|by split..]. rewrite (Hv h eq_refl). clear h Hv.
    apply wp_bind. unfold ReadAt. apply wp_next. intros f fs2 _. apply wp_get.
    assert (content s1 (l_blockFileNum loc) = content s (l_blockFileNum loc)) as -> by (unfold content; rewrite Ho; done).
    unfold read_at. destruct f; [|by split..]. destruct (_ && _); [by split|]. apply wp_ret.
    set (data := bytes_at _ _ _). destruct (Z.ltb_spec (len data) 4); [by split|].
    destruct (be_get _ =? _) eqn:Hcrc; cbn [negb]; [apply Z.eqb_eq in Hcrc|by split]. apply wp_get.
    destruct (le_get _ =? _) eqn:Hn; cbn [negb]; [apply Z.eqb_eq in Hn|by split].
    destruct (Z.ltb_spec (len data) 12); [by split|]. apply wp_ret. split; [done|]. intros raw' Hraw. injection Hraw as <-.
    exists data. split_and!; [done|done|done| |done]. rewrite Hn. rewrite Ho. done. }
  unfold wp in Hwp. rewrite Hr in Hwp. destruct Hwp as [Ho Hv]. destruct (Hv raw eq_refl) as (data & Hd & Hlen & Hcrc & Hn & ->).
  split; [by rewrite Ho|]. exists (bytes_at data 4 4). rewrite <- Hd. clear Hd Hv Hr.
  assert (Hl : forall off n, 0 <= off -> 0 <= n -> off + n <= len data -> length (bytes_at data off n) = Z.to_nat n)
    by (intros; by apply length_bytes_at).
  split; [apply Hl; lia|]. cbv zeta. rewrite <- Hn, (le_put_get_n 4) by (apply Hl; lia).
  assert (bytes_at data 0 4 ++ bytes_at data 4 4 ++ bytes_at data 8 (len data - 12) = bytes_at data 0 (len data - 4)) as ->.
  { rewrite (bytes_at_split data 4 4), (bytes_at_split data 0 4) by lia. f_equal. lia. }
  rewrite <- Hcrc, (be_put_get_n 4) by (apply Hl; lia).
  rewrite <- (Z.add_0_l (len data - 4)) at 2. rewrite (bytes_at_split data 0 (len data - 4) 4) by lia. symmetry.
  unfold bytes_at, len. apply take_ge. cbn. lia.
Qed.

(** ** Rows of the index *)

(** A location that fits its fields is read back from its row. *)
Lemma location_read loc tail :
  0 <= l_blockFileNum loc < 2 ^ 32 /\ 0 <= l_fileOffset loc < 2 ^ 32 /\ 0 <= l_blockLen loc < 2 ^ 32 ->
  deserializeBlockLoc (serializeBlockLoc loc ++ tail) = Some loc.
Proof.
  destruct loc as [n o l]. cbn. intros (H1 & H2 & H3). unfold deserializeBlockLoc, serializeBlockLoc. cbn [l_blockFileNum l_fileOffset l_blockLen].
  rewrite <- !app_assoc. rewrite !len_app, !len_le_put. pose proof (len_nonneg tail).
  destruct (Z.ltb_spec (Z.of_nat 4 + (Z.of_nat 4 + (Z.of_nat 4 + len tail))) blockLocSize); [unfold blockLocSize in *; lia|].
  assert (bytes_at (le_put 4 n ++ le_put 4 o ++ le_put 4 l ++ tail) 0 4 = le_put 4 n) as -> by apply (bytes_at_app [] (le_put 4 n)).
  assert (bytes_at (le_put 4 n ++ le_put 4 o ++ le_put 4 l ++ tail) 4 4 = le_put 4 o) as -> by apply (bytes_at_app (le_put 4 n) (le_put 4 o)).
  assert (bytes_at (le_put 4 n ++ le_put 4 o ++ le_put 4 l ++ tail) 8 4 = le_put 4 l) as ->.
  { rewrite app_assoc. apply (bytes_at_app (le_put 4 n ++ le_put 4 o) (le_put 4 l)). }
  by rewrite !le_get_put by lia.
Qed.

(** * At a concrete input *)

Definition demo_store : blockStore := newBlockStore ∅ 7.
Definition demo_raw : list byte := bytes_of "abc".
Lemma demo_ok : store_ok demo_store.
Proof. split; try (vm_compute; intuition congruence). Defined.

Lemma block_store_log_witness : exists loc s' fs', writeBlock demo_raw demo_store [] = (Val loc, s', fs') /\ store_ok s'.
Proof.
  destruct (block_store_log demo_store demo_raw [] demo_ok ltac:(vm_compute; reflexivity) ltac:(vm_compute; reflexivity)
    ltac:(constructor)) as (loc & s' & fs' & H & Hok & _). exists loc, s', fs'. by split.
Defined.

(** The disk fills up in the middle of the block. *)
Definition demo_faults : list fault := [Good; Good; Good; Bad 2].
Lemma write_rollback_safe_witness : exists s2 fs2,
  handleRollback 0 0 (writeBlock demo_raw demo_store demo_faults).1.2 (writeBlock demo_raw demo_store demo_faults).2 = (Val tt, s2, fs2) /\
  cursor s2 = (0, 0).
Proof.
  destruct (write_rollback_safe demo_store demo_raw demo_faults _ _ _ demo_ok ltac:(vm_compute; reflexivity)
    ltac:(vm_compute; reflexivity) eq_refl) as (s2 & fs2 & H & _ & Hc & _). exists s2, fs2. split; [exact H|exact Hc].
Defined.

Lemma file_size_bound_witness : bounded (writeBlock demo_raw demo_store demo_faults).1.2.
Proof.
  apply (file_size_bound demo_store demo_raw demo_faults (writeBlock demo_raw demo_store demo_faults).1.1 _
    (writeBlock demo_raw demo_store demo_faults).2 demo_ok).
  - intros n c H. change ((∅ : gmap Z (list byte)) !! n = Some c) in H. by rewrite lookup_empty in H.
  - vm_compute. discriminate.
  - vm_compute. reflexivity.
  - vm_compute. reflexivity.
Defined.

Lemma readBlock_sound_witness : s_files (readBlock (mkLoc 0 0 15) (writeBlock demo_raw demo_store []).1.2 []).1.2 =
  s_files (writeBlock demo_raw demo_store []).1.2.
Proof.
  apply (readBlock_sound (writeBlock demo_raw demo_store []).1.2 (mkLoc 0 0 15) [] demo_raw _
    (readBlock (mkLoc 0 0 15) (writeBlock demo_raw demo_store []).1.2 []).2).
  - vm_compute. reflexivity.
  - right. vm_compute. reflexivity.
  - by vm_compute.
  - by vm_compute.
Defined.
