(* ===== verification/DbCache.v ===== *)
(** * database/ffldb/dbcache.go: the cache in front of the metadata database

    Changes are kept in two treaps, the keys to write and the keys to remove, and
    flushed to the database from time to time.  The clock is part of the state.
    Reading the metadata database does not fail here; opening a snapshot or a
    transaction, writing to a transaction and committing it may.  Every error of
    the metadata database is [ErrDriverSpecific]. *)

From Stdlib Require Import ZArith Lia.
From stdpp Require Import sorting.
From S2P Require Import Prelude WireCommon GoFloat KeyMap DbEffects BlockStore BlockLog.

Open Scope Z_scope.

Section db_cache.
Context {L C : Type} `{!LevelDB L, !KeyMap C}.

(** ** Snapshots *)

Record dbCacheSnapshot : Type := mkSnapshot {
  sn_dbSnapshot : L;
  sn_pendingKeys : C;
  sn_pendingRemove : C;
}.

Definition snapshot_Has (snap : dbCacheSnapshot) (key : bytes) : bool :=
  if km_has (sn_pendingRemove snap) key then false
  else if km_has (sn_pendingKeys snap) key then true
  else if ldb_get (sn_dbSnapshot snap) key is Some _ then true else false.

(** [None] is nil. *)
Definition snapshot_Get (snap : dbCacheSnapshot) (key : bytes) : option bytes :=
  if km_has (sn_pendingRemove snap) key then None
  else match km_get (sn_pendingKeys snap) key with
       | Some value => Some value
       | None => ldb_get (sn_dbSnapshot snap) key
       end.

(** ** The cache *)

Definition defaultCacheSize : Z := 100 * 1024 * 1024.
Definition defaultFlushSecs : Z := 60.
Definition second : Z := 1000000000.

Record dbCache : Type := mkCache {
  ca_ldb : L;
  ca_store : blockStore;
  ca_maxSize : Z;
  ca_flushInterval : Z;
  ca_lastFlush : Z;
  ca_now : Z;              (* what [time.Now] gives *)
  ca_keys : C;
  ca_remove : C;
}.

Definition set_ldb (l : L) (c : dbCache) : dbCache :=
  mkCache l (ca_store c) (ca_maxSize c) (ca_flushInterval c) (ca_lastFlush c) (ca_now c) (ca_keys c) (ca_remove c).
Definition set_store (s : blockStore) (c : dbCache) : dbCache :=
  mkCache (ca_ldb c) s (ca_maxSize c) (ca_flushInterval c) (ca_lastFlush c) (ca_now c) (ca_keys c) (ca_remove c).
Definition set_lastFlush (t : Z) (c : dbCache) : dbCache :=
  mkCache (ca_ldb c) (ca_store c) (ca_maxSize c) (ca_flushInterval c) t (ca_now c) (ca_keys c) (ca_remove c).
Definition set_cached (keys remove : C) (c : dbCache) : dbCache :=
  mkCache (ca_ldb c) (ca_store c) (ca_maxSize c) (ca_flushInterval c) (ca_lastFlush c) (ca_now c) keys remove.

Definition newDbCache (ldb : L) (store : blockStore) (maxSize flushIntervalSecs now : Z) : dbCache :=
  mkCache ldb store maxSize (second * flushIntervalSecs) now now km_empty km_empty.

Definition on_store {A} : Eff blockStore A -> Eff dbCache A := zoom ca_store set_store.

(** An operation of the metadata database that succeeds or does not. *)
Definition ldb_call : Eff dbCache unit :=
  f ← next_fault;
  match f with Good => mret tt | _ => throw ErrDriverSpecific end.

(** [Snapshot] reads the database and then, under the lock, the cached keys. *)
Definition Snapshot_db : Eff dbCache L :=
  _ ← ldb_call; c ← get; mret (ca_ldb c).
Definition Snapshot_cached (dbSnapshot : L) : Eff dbCache dbCacheSnapshot :=
  c ← get; mret (mkSnapshot dbSnapshot (ca_keys c) (ca_remove c)).
Definition Snapshot : Eff dbCache dbCacheSnapshot :=
  dbSnapshot ← Snapshot_db; Snapshot_cached dbSnapshot.

(** The function gives what it wrote to the transaction. *)
Definition updateDB (fn : Eff dbCache (list batch_op)) : Eff dbCache unit :=
  _ ← ldb_call;
  ops ← fn;
  _ ← ldb_call;
  c ← get;
  put (set_ldb (ldb_write (ca_ldb c) ops) c).

(** [ForEach] with a function that stops at the first error. *)
Fixpoint write_each (op : bytes * bytes -> batch_op) (l : list (bytes * bytes)) : Eff dbCache (list batch_op) :=
  match l with
  | [] => mret []
  | p :: l => _ ← ldb_call; ops ← write_each op l; mret (op p :: ops)
  end.

Definition commitTreaps (pendingKeys pendingRemove : list (bytes * bytes)) : Eff dbCache unit :=
  updateDB (
    puts ← write_each (fun p => BatchPut p.1 p.2) pendingKeys;
    deletes ← write_each (fun p => BatchDelete p.1) pendingRemove;
    mret (puts ++ deletes)).

(** [errors.Is(err, syscall.ENOSPC)]: [database.Error] is not that error and has
    no [Unwrap]. *)
Definition errors_Is_ENOSPC (err : dbErr) : bool := false.
Definition exit_if_full {A} (err : dbErr) : Eff dbCache A :=
  if errors_Is_ENOSPC err then fun c fs => (Exit, c, fs) else throw err.

Definition flush : Eff dbCache unit :=
  c ← get;
  _ ← put (set_lastFlush (ca_now c) c);
  _ ← on_store syncBlocks;
  c ← get;
  if (km_len (ca_keys c) =? 0) && (km_len (ca_remove c) =? 0) then mret tt
  else
    e ← attempt (commitTreaps (km_entries (ca_keys c)) (km_entries (ca_remove c)));
    match e with
    | Some err => exit_if_full err
    | None => c ← get; put (set_cached km_empty km_empty c)
    end.

Definition needsFlush (c : dbCache) (snap : dbCacheSnapshot) : bool :=
  if ca_flushInterval c <? ca_now c - ca_lastFlush c then true
  else
    let totalSize := wrap_u64 (km_size (sn_pendingKeys snap) + km_size (sn_pendingRemove snap)) in
    let totalSize := wrap_u64 (dy_trunc (f_mul 53 (float64_of_int totalSize) (mkDy 3 (-1)))) in
    ca_maxSize c <? totalSize.

(** The pending keys and removals of a transaction, in the order of its treaps. *)
Definition commitTx (snap : dbCacheSnapshot) (pendingKeys pendingRemove : list (bytes * bytes)) : Eff dbCache unit :=
  c ← get;
  if needsFlush c snap then
    e ← attempt flush;
    match e with
    | Some err => exit_if_full err
    | None => commitTreaps pendingKeys pendingRemove
    end
  else
    let newCachedKeys := ca_keys c in
    let newCachedRemove := ca_remove c in
    let newCachedRemove := foldl (fun t p => km_delete t p.1) newCachedRemove pendingKeys in
    let newCachedKeys := foldl (fun t p => km_put t p.1 (Some p.2)) newCachedKeys pendingKeys in
    let newCachedKeys := foldl (fun t p => km_delete t p.1) newCachedKeys pendingRemove in
    let newCachedRemove := foldl (fun t p => km_put t p.1 (Some p.2)) newCachedRemove pendingRemove in
    put (set_cached newCachedKeys newCachedRemove c).

Definition cache_Close : Eff dbCache unit :=
  e ← attempt flush;
  match e with
  | Some err => _ ← next_fault; throw err     (* the error of closing is ignored *)
  | None => ldb_call
  end.

(** * Specification *)

Context `{!LevelDBLaws L, !KeyMapLaws C}.

(** A base with keys written over it, then keys removed. *)
Definition overlay {V} (base keys : gmap bytes V) (remove : gmap bytes V) : gmap bytes V := (keys ∪ base) ∖ remove.
Definition snapshot_view (snap : dbCacheSnapshot) : gmap bytes bytes :=
  overlay (ldb_view (sn_dbSnapshot snap)) (km_view (sn_pendingKeys snap)) (km_view (sn_pendingRemove snap)).
(** The committed metadata, and the part of it that a crash leaves. *)
Definition view (c : dbCache) : gmap bytes bytes :=
  overlay (ldb_view (ca_ldb c)) (km_view (ca_keys c)) (km_view (ca_remove c)).
Definition persisted (c : dbCache) : gmap bytes bytes := ldb_view (ca_ldb c).

(** The state apart from the metadata. *)
Definition same_files (c c' : dbCache) : Prop :=
  s_files (ca_store c') = s_files (ca_store c) /\ cursor (ca_store c') = cursor (ca_store c).

(** * Proofs *)

Implicit Types (m keys remove : gmap bytes bytes) (l : list (bytes * bytes)).

Lemma lookup_overlay m keys remove k :
  overlay m keys remove !! k = match remove !! k with Some _ => None | None => match keys !! k with Some v => Some v | None => m !! k end end.
Proof.
  unfold overlay. rewrite lookup_difference, lookup_union. destruct (remove !! k); [done|]. by destruct (keys !! k), (m !! k).
Qed.

Lemma overlay_empty m : overlay m ∅ ∅ = m.
Proof. apply map_eq. intros k. by rewrite lookup_overlay, !lookup_empty. Qed.

(** The map of a list of pairs, whatever its order. *)
Definition pairs_map l : gmap bytes bytes := list_to_map l.

Lemma foldl_puts l m : sorted_keys l -> foldl (fun m p => <[p.1 := p.2]> m) m l = pairs_map l ∪ m.
Proof.
  unfold pairs_map. revert m. induction l as [|[k v] l IH]; intros m Hs; cbn; [by rewrite (left_id_L ∅ (∪))|].
  inversion Hs as [|? ? Hs' Hall]; subst. rewrite IH by done.
  apply map_eq. intros i. rewrite !lookup_union. destruct (decide (i = k)) as [->|Hne].
  - rewrite !lookup_insert_eq. assert ((list_to_map l : gmap bytes bytes) !! k = None) as ->.
    { apply not_elem_of_list_to_map_1. intros Hin. rewrite list.Forall_forall in Hall. apply Hall in Hin. by apply key_lt_irrefl in Hin. }
    by destruct (m !! k).
  - by rewrite !lookup_insert_ne by done.
Qed.

Lemma foldl_deletes l m : foldl (fun m p => delete p.1 m) m l = m ∖ pairs_map l.
Proof.
  unfold pairs_map. revert m. induction l as [|[k v] l IH]; intros m; cbn; [apply map_eq; intros i; rewrite lookup_difference, lookup_empty; done|].
  rewrite IH. apply map_eq. intros i. rewrite !lookup_difference. destruct (decide (i = k)) as [->|Hne].
  - rewrite lookup_insert_eq, lookup_delete_eq. by destruct (list_to_map l !! k).
  - by rewrite lookup_insert_ne, lookup_delete_ne by done.
Qed.

Lemma view_puts (t : C) l : sorted_keys l ->
  km_view (foldl (fun t p => km_put t p.1 (Some p.2)) t l) = pairs_map l ∪ km_view t.
Proof.
  intros Hs. rewrite <- foldl_puts by done. clear Hs. revert t. induction l as [|p l IH]; intros t; [done|]. cbn. by rewrite IH, km_put_view.
Qed.
Lemma view_deletes (t : C) l :
  km_view (foldl (fun t p => km_delete t p.1) t l) = km_view t ∖ pairs_map l.
Proof.
  rewrite <- foldl_deletes. revert t. induction l as [|p l IH]; intros t; [done|]. cbn. by rewrite IH, km_delete_view.
Qed.

(** What a transaction writes to the database. *)
Definition tx_ops (pk pr : list (bytes * bytes)) : list batch_op := map (fun p => BatchPut p.1 p.2) pk ++ map (fun p => BatchDelete p.1) pr.
Lemma apply_tx_ops m (pk pr : list (bytes * bytes)) : sorted_keys pk -> foldl apply_op m (tx_ops pk pr) = overlay m (pairs_map pk) (pairs_map pr).
Proof.
  intros Hs. unfold tx_ops, overlay. rewrite foldl_app, <- foldl_puts, <- foldl_deletes by done.
  rewrite !foldl_map. done.
Qed.

(** The maps of the new cached treaps give the same view as the transaction over
    the old one. *)
Lemma overlay_commit m keys remove pk pr :
  overlay m ((pk ∪ keys) ∖ pr) (pr ∪ (remove ∖ pk)) = overlay (overlay m keys remove) pk pr.
Proof.
  apply map_eq. intros k. rewrite !lookup_overlay, lookup_union, !lookup_difference, lookup_union.
  destruct (pr !! k), (pk !! k), (remove !! k), (keys !! k); done.
Qed.

(** ** The operations *)

Lemma ldb_call_spec c fs :
  wp (ldb_call) c fs (fun o c' fs' => c' = c /\ (o = Val tt \/ o = Error ErrDriverSpecific) /\
    (good fs -> o = Val tt /\ good fs')).
Proof.
  unfold ldb_call. apply wp_next. intros f fs' Hg. destruct f; (split_and!; [done|by auto|]); intros H; destruct (Hg H); done.
Qed.

Lemma write_each_spec op l c fs :
  wp (write_each op l) c fs (fun o c' fs' => c' = c /\ (o = Val (map op l) \/ o = Error ErrDriverSpecific) /\
    (good fs -> o = Val (map op l) /\ good fs')).
Proof.
  revert fs. induction l as [|p l IH]; intros fs; cbn [write_each map].
  - apply wp_ret. split_and!; [done|by left|done].
  - apply wp_bind. apply (wp_mono _ _ _ _ _ (ldb_call_spec c fs)). intros o c' fs' (-> & [-> | ->] & Hg).
    + apply wp_bind. apply (wp_mono _ _ _ _ _ (IH fs')). intros o c' fs2 (-> & [-> | ->] & Hg2).
      * apply wp_ret. split_and!; [done|by left|]. intros H. split; [done|]. by apply Hg2, Hg.
      * split_and!; [done|by right|]. intros H. by destruct (Hg2 (proj2 (Hg H))).
    + split_and!; [done|by right|]. intros H. by destruct (Hg H).
Qed.

(** A commit to the metadata database happens entirely or not at all. *)
Lemma commitTreaps_spec pk pr c fs :
  wp (commitTreaps pk pr) c fs (fun o c' fs' =>
    (o = Val tt /\ c' = set_ldb (ldb_write (ca_ldb c) (tx_ops pk pr)) c \/ o = Error ErrDriverSpecific /\ c' = c) /\
    (good fs -> o = Val tt /\ good fs')).
Proof.
  unfold commitTreaps, updateDB. apply wp_bind. apply (wp_mono _ _ _ _ _ (ldb_call_spec c fs)).
  intros o c' fs1 (-> & [-> | ->] & Hg1); [|split; [by right|intros H; by destruct (Hg1 H)]].
  apply wp_bind, wp_bind. apply (wp_mono _ _ _ _ _ (write_each_spec _ pk c fs1)).
  intros o c' fs2 (-> & [-> | ->] & Hg2); [|split; [by right|intros H; by destruct (Hg2 (proj2 (Hg1 H)))]].
  apply wp_bind. apply (wp_mono _ _ _ _ _ (write_each_spec _ pr c fs2)).
  intros o c' fs3 (-> & [-> | ->] & Hg3); [|split; [by right|intros H; by destruct (Hg3 (proj2 (Hg2 (proj2 (Hg1 H)))))]].
  apply wp_ret, wp_bind. apply (wp_mono _ _ _ _ _ (ldb_call_spec c fs3)).
  intros o c' fs4 (-> & [-> | ->] & Hg4).
  - apply wp_get. split; [by left|]. intros H. split; [done|]. by apply Hg4, Hg3, Hg2, Hg1.
  - split; [by right|]. intros H. by destruct (Hg4 (proj2 (Hg3 (proj2 (Hg2 (proj2 (Hg1 H))))))).
Qed.

Lemma syncBlocks_spec s fs :
  wp syncBlocks s fs (fun o s' fs' => s' = s /\ o <> Panic /\ (good fs -> o = Val tt /\ good fs')).
Proof.
  unfold syncBlocks. apply wp_get. destruct (s_curFile s); [|by apply wp_ret].
  unfold file_sync. apply wp_next. intros f fs' Hg. destruct f; split_and!; try done; intros H; by destruct (Hg H).
Qed.

(** Nothing but the database, its cache and the time of the flush changes. *)
Record flush_only (c c' : dbCache) : Prop := {
  fo_store : ca_store c' = ca_store c;
  fo_max : ca_maxSize c' = ca_maxSize c;
  fo_interval : ca_flushInterval c' = ca_flushInterval c;
  fo_now : ca_now c' = ca_now c;
}.

Lemma flush_only_refl c : flush_only c c.
Proof. by split. Qed.

Lemma km_len_zero (t : C) : (km_len t =? 0) = true -> km_view t = ∅.
Proof. intros H%Z.eqb_eq. rewrite km_len_view in H. apply map_size_empty_inv. lia. Qed.

Lemma entries_pairs (t : C) : pairs_map (km_entries t) = km_view t.
Proof. apply km_entries_view. Qed.

Lemma flush_spec c fs :
  wp flush c fs (fun o c' fs' => flush_only c c' /\ view c' = view c /\ o <> Panic /\
    (o = Val tt -> persisted c' = view c /\ km_view (ca_keys c') = ∅ /\ km_view (ca_remove c') = ∅) /\
    (o <> Val tt -> persisted c' = persisted c) /\
    (good fs -> o = Val tt /\ good fs')).
Proof.
  unfold flush. apply wp_get, wp_put, wp_bind, wp_zoom. set (c1 := set_lastFlush _ c).
  apply (wp_mono _ _ _ _ _ (syncBlocks_spec (ca_store c1) fs)).
  intros o s' fs1 (-> & Hp & Hg1). assert (Hc1 : set_store (ca_store c1) c1 = c1) by done. rewrite Hc1. clear Hc1.
  destruct o as [[]|e| |]; [|split_and!; try done; intros H; by destruct (Hg1 H)..|done].
  apply wp_get. destruct (_ && _) eqn:Hempty.
  - apply andb_true_iff in Hempty as [Hk%km_len_zero Hr%km_len_zero]. apply wp_ret.
    split_and!; [done|done|done| |done|intros H; split; [done|by apply Hg1]].
    intros _. split_and!; [|done|done]. unfold view, persisted. cbn in Hk, Hr. by rewrite Hk, Hr, overlay_empty.
  - apply wp_bind, wp_attempt. apply (wp_mono _ _ _ _ _ (commitTreaps_spec _ _ c1 fs1)).
    intros o c2 fs2 [[[-> ->]|[-> ->]] Hg2].
    + apply wp_get.
      assert (Hl : ldb_view (ldb_write (ca_ldb c1) (tx_ops (km_entries (ca_keys c1)) (km_entries (ca_remove c1)))) = view c).
      { rewrite ldb_write_view, apply_tx_ops, !entries_pairs by apply km_entries_sorted. done. }
      split_and!; [done| |done| |done|intros H; split; [done|by apply Hg2, Hg1]].
      * unfold view at 1. cbn. rewrite !km_view_empty, overlay_empty. exact Hl.
      * intros _. split_and!; [exact Hl|apply km_view_empty|apply km_view_empty].
    + split_and!; try done. intros H. by destruct (Hg2 (proj2 (Hg1 H))).
Qed.

Lemma commitTx_spec snap pk pr c fs : sorted_keys pk -> sorted_keys pr ->
  wp (commitTx snap pk pr) c fs (fun o c' fs' => flush_only c c' /\ o <> Panic /\
    (o = Val tt -> view c' = overlay (view c) (pairs_map pk) (pairs_map pr)) /\
    (o <> Val tt -> view c' = view c) /\
    (persisted c' = persisted c \/ persisted c' = view c \/ persisted c' = view c') /\
    (good fs -> o = Val tt /\ good fs')).
Proof.
  intros Hpk Hpr. unfold commitTx. apply wp_get. destruct (needsFlush c snap).
  - apply wp_bind, wp_attempt. apply (wp_mono _ _ _ _ _ (flush_spec c fs)).
    intros o c1 fs1 (Hfo & Hv & Hp & Hval & Hne & Hg1). destruct o as [[]|e| |]; [| | |done].
    + destruct (Hval eq_refl) as (Hper & Hk & Hr). apply (wp_mono _ _ _ _ _ (commitTreaps_spec pk pr c1 fs1)).
      intros o c2 fs2 [[[-> ->]|[-> ->]] Hg2].
      * assert (Hl : view (set_ldb (ldb_write (ca_ldb c1) (tx_ops pk pr)) c1) = overlay (view c) (pairs_map pk) (pairs_map pr)).
        { unfold view at 1. cbn. rewrite Hk, Hr, overlay_empty, ldb_write_view, apply_tx_ops by done.
          change (ldb_view (ca_ldb c1)) with (persisted c1). by rewrite Hper. }
        split_and!; [by destruct Hfo|done|done|done| |intros H; split; [done|by apply Hg2, Hg1]].
        right; right. unfold view, persisted. cbn. by rewrite Hk, Hr, overlay_empty.
      * split_and!; [done|done|done|done|right; by left|]. intros H. by destruct (Hg2 (proj2 (Hg1 H))).
    + cbn. split_and!; [done|done|done|done|left; by apply Hne|intros H; by destruct (Hg1 H)].
    + split_and!; [done|done|done|done|left; by apply Hne|intros H; by destruct (Hg1 H)].
  - split_and!; [done|done| |done|by left|done]. intros _. unfold view. cbn.
    rewrite !view_puts, !view_deletes, view_puts, overlay_commit by done. done.
Qed.

Lemma snapshot_readers snap k :
  snapshot_Get snap k = snapshot_view snap !! k /\ snapshot_Has snap k = bool_decide (is_Some (snapshot_view snap !! k)).
Proof.
  unfold snapshot_Get, snapshot_Has, snapshot_view. rewrite lookup_overlay, !km_has_view, km_get_view, !ldb_get_view.
  destruct (km_view (sn_pendingRemove snap) !! k).
  { rewrite bool_decide_true by eauto. split; [done|]. by rewrite bool_decide_false by (by intros [??]). }
  rewrite bool_decide_false by (by intros [??]). split; [done|]. destruct (km_view (sn_pendingKeys snap) !! k).
  { by rewrite !bool_decide_true by eauto. }
  rewrite bool_decide_false by (by intros [??]). destruct (ldb_view (sn_dbSnapshot snap) !! k).
  - by rewrite bool_decide_true by eauto.
  - by rewrite bool_decide_false by (by intros [??]).
Qed.

(** Without faults none are used up. *)
Lemma write_each_clean op l c : wp (write_each op l) c [] (fun o c' fs' => c' = c /\ fs' = []).
Proof.
  induction l as [|p l IH]; [done|]. cbn [write_each]. apply wp_bind. unfold wp at 1. cbn. apply wp_bind.
  apply (wp_mono _ _ _ _ _ IH). intros o c' fs' [-> ->]. by destruct o.
Qed.
Lemma flush_no_faults c : wp flush c [] (fun _ _ fs' => fs' = []).
Proof.
  unfold flush. apply wp_get, wp_put, wp_bind, wp_zoom. unfold syncBlocks. apply wp_get.
  destruct (s_curFile _); (unfold wp at 1; cbn; apply wp_get; destruct (_ && _); [done|]; apply wp_bind, wp_attempt;
    unfold commitTreaps, updateDB; apply wp_bind; unfold wp at 1; cbn; apply wp_bind, wp_bind;
    apply (wp_mono _ _ _ _ _ (write_each_clean _ _ _)); intros o c1 fs1 [-> ->]; destruct o; [|done..];
    apply wp_bind; apply (wp_mono _ _ _ _ _ (write_each_clean _ _ _)); intros o c1 fs1 [-> ->]; by destruct o).
Qed.

(** * The correctness of the component *)

(** C: committing a transaction to the cache is atomic under any faults.  When it
    succeeds the metadata are the old ones with the keys written and removed; when
    it fails they are the old ones.  What a crash would leave is what it would
    have left before, or the metadata before the transaction, or those after it. *)
Theorem commitTx_atomic snap pk pr c fs o c' fs' (Hpk : sorted_keys pk) (Hpr : sorted_keys pr)
    (Hrun : commitTx snap pk pr c fs = (o, c', fs')) :
  (o = Val tt /\ view c' = overlay (view c) (pairs_map pk) (pairs_map pr) \/
   (o = Exit \/ exists e, o = Error e) /\ view c' = view c) /\
  (persisted c' = persisted c \/ persisted c' = view c \/ persisted c' = view c') /\
  ca_store c' = ca_store c /\ (good fs -> o = Val tt).
Proof.
  pose proof (commitTx_spec snap pk pr c fs Hpk Hpr) as Hwp. unfold wp in Hwp. rewrite Hrun in Hwp.
  destruct Hwp as (Hfo & Hp & Hv & Hn & Hper & Hg). split_and!; [|done|by destruct Hfo|intros H; by apply Hg].
  destruct o as [[]|e| |]; [left; split; [done|by apply Hv]|right; split; [by eauto|by apply Hn]|right; split; [by eauto|by apply Hn]|done].
Qed.

(** C: a flush keeps the metadata, whatever fails; when it succeeds everything
    committed is in the database and the cache is empty, and when it fails the
    database is as it was.  Closing flushes. *)
Theorem flush_durable c fs o c' fs' (Hrun : flush c fs = (o, c', fs')) :
  view c' = view c /\ (o = Val tt -> persisted c' = view c /\ km_view (ca_keys c') = ∅ /\ km_view (ca_remove c') = ∅) /\
  (o <> Val tt -> persisted c' = persisted c) /\ (good fs -> o = Val tt) /\
  forall o2 c2 fs2, cache_Close c fs = (o2, c2, fs2) -> view c2 = view c /\ (o2 = Val tt -> persisted c2 = view c).
Proof.
  pose proof (flush_spec c fs) as Hwp. unfold wp in Hwp. rewrite Hrun in Hwp.
  destruct Hwp as (_ & Hv & Hp & Hval & Hn & Hg). split_and!; [done|done|done|intros H; by apply Hg|].
  intros o2 c2 fs2 Hclose.
  assert (Hwp : wp cache_Close c fs (fun o2 c2 _ => view c2 = view c /\ (o2 = Val tt -> persisted c2 = view c))).
  { unfold cache_Close. apply wp_bind, wp_attempt. unfold wp at 1. rewrite Hrun. destruct o as [[]|e| |]; [|by apply wp_next|done..].
    apply (wp_mono _ _ _ _ _ (ldb_call_spec c' fs')). intros o c3 fs3 (-> & _ & _). split; [done|]. intros _. by apply Hval. }
  unfold wp in Hwp. by rewrite Hclose in Hwp.
Qed.

(** C: a snapshot taken in one go reads the committed metadata, and goes on
    reading them whatever happens to the cache afterwards. *)
Theorem Snapshot_isolated c fs snap c' fs' k (Hrun : Snapshot c fs = (Val snap, c', fs')) :
  c' = c /\ snapshot_Get snap k = view c !! k /\ snapshot_Has snap k = bool_decide (is_Some (view c !! k)).
Proof.
  assert (Hwp : wp Snapshot c fs (fun o c' _ => c' = c /\ forall snap, o = Val snap -> snapshot_view snap = view c)).
  { unfold Snapshot, Snapshot_db. apply wp_bind, wp_bind. apply (wp_mono _ _ _ _ _ (ldb_call_spec c fs)).
    intros o c1 fs1 (-> & [-> | ->] & _); [|done]. apply wp_get. unfold Snapshot_cached. apply wp_ret, wp_get, wp_ret.
    split; [done|]. intros snap' H. by injection H as <-. }
  unfold wp in Hwp. rewrite Hrun in Hwp. destruct Hwp as [-> Hv]. split; [done|]. rewrite <- (Hv snap eq_refl). apply snapshot_readers.
Qed.

(** C: the database is read before the cached keys and not under their lock: when
    a flush comes between the two, the snapshot misses a key that was committed
    before and is committed after. *)
Theorem Snapshot_race c k v (Hkey : km_view (ca_keys c) !! k = Some v) (Hrem : km_view (ca_remove c) !! k = None)
    (Hold : persisted c !! k = None) :
  exists (dbSnapshot : L) c1 snap, Snapshot_db c [] = (Val dbSnapshot, c, []) /\ flush c [] = (Val tt, c1, []) /\
    Snapshot_cached dbSnapshot c1 [] = (Val snap, c1, []) /\
    view c !! k = Some v /\ view c1 !! k = Some v /\ snapshot_Get snap k = None.
Proof.
  destruct (wp_run _ _ _ _ (flush_spec c [])) as (o & c1 & fs1 & Hrun & _ & Hv & _ & Hval & _ & Hg).
  destruct (Hg ltac:(constructor)) as [-> _]. destruct (Hval eq_refl) as (_ & Hk & Hr).
  assert (Hfs : fs1 = []).
  { pose proof (flush_no_faults c) as H. unfold wp in H. by rewrite Hrun in H. }
  subst fs1. exists (ca_ldb c), c1, (mkSnapshot (ca_ldb c) (ca_keys c1) (ca_remove c1)).
  assert (Hview : view c !! k = Some v) by (unfold view; by rewrite lookup_overlay, Hrem, Hkey).
  split_and!; [done|done|done|done|by rewrite Hv|].
  rewrite (proj1 (snapshot_readers _ _)). unfold snapshot_view. cbn. by rewrite Hk, Hr, overlay_empty.
Qed.

(** C: the cache never exits on a full disk of its own: [errors.Is] does not see
    through a [database.Error].  With no block file open, a flush with the disk
    full returns an error. *)
Theorem flush_full_no_exit c fs (Hclosed : s_curFile (ca_store c) = None) : forall c' fs', flush c fs <> (Exit, c', fs').
Proof.
  assert (Hwp : wp flush c fs (fun o _ _ => o <> Exit)).
  { unfold flush. apply wp_get, wp_put, wp_bind, wp_zoom. unfold syncBlocks. apply wp_get. cbn [ca_store set_lastFlush].
    rewrite Hclosed. apply wp_ret, wp_get. destruct (_ && _); [by apply wp_ret|]. apply wp_bind, wp_attempt.
    apply (wp_mono _ _ _ _ _ (commitTreaps_spec _ _ _ _)). by intros o c' fs' [[[-> ->]|[-> ->]] _]. }
  intros c' fs' H. unfold wp in Hwp. by rewrite H in Hwp.
Qed.
End db_cache.

(** * At concrete inputs *)

Definition demo_cache : @dbCache (gmap bytes bytes) drawn :=
  let K := immutable_KeyMap (fun n => Z.of_nat n) in
  set_cached (km_put km_empty [x05] (Some [x06])) km_empty (newDbCache ∅ (newBlockStore ∅ 7) defaultCacheSize defaultFlushSecs 0).
Definition demo_snap : @dbCacheSnapshot (gmap bytes bytes) drawn :=
  mkSnapshot (ca_ldb demo_cache) (ca_keys demo_cache) (ca_remove demo_cache).

Lemma sorted_one p : sorted_keys [p].
Proof. repeat constructor. Qed.

Lemma commitTx_atomic_witness : let K := immutable_KeyMap (fun n => Z.of_nat n) in
  let c' := (commitTx demo_snap [([x07], [])] [([x05], [])] demo_cache [Good; Bad 0]).1.2 in
  ca_store c' = ca_store demo_cache.
Proof.
  intros K. destruct (commitTx demo_snap [([x07], [])] [([x05], [])] demo_cache [Good; Bad 0]) as [[o c'] fs'] eqn:Hrun.
  apply (commitTx_atomic demo_snap [([x07], [])] [([x05], [])] demo_cache [Good; Bad 0] o c' fs' (sorted_one _) (sorted_one _) Hrun).
Defined.

Lemma flush_durable_witness : let K := immutable_KeyMap (fun n => Z.of_nat n) in
  view (flush demo_cache [Good; Bad 0]).1.2 = view demo_cache.
Proof.
  intros K. destruct (flush demo_cache [Good; Bad 0]) as [[o c'] fs'] eqn:Hrun.
  apply (flush_durable demo_cache [Good; Bad 0] o c' fs' Hrun).
Defined.

Lemma Snapshot_isolated_witness : let K := immutable_KeyMap (fun n => Z.of_nat n) in
  snapshot_Get demo_snap [x05] = view demo_cache !! [x05].
Proof. intros K. apply (Snapshot_isolated demo_cache [] demo_snap demo_cache [] [x05] eq_refl). Defined.

Lemma Snapshot_race_witness : let K := immutable_KeyMap (fun n => Z.of_nat n) in
  exists (l : gmap bytes bytes) c1 snap, Snapshot_db demo_cache [] = (Val l, demo_cache, []) /\ flush demo_cache [] = (Val tt, c1, []) /\
    Snapshot_cached l c1 [] = (Val snap, c1, []) /\
    view demo_cache !! [x05] = Some [x06] /\ view c1 !! [x05] = Some [x06] /\ snapshot_Get snap [x05] = None.
Proof. intros K. apply (Snapshot_race demo_cache [x05] [x06]); reflexivity. Defined.

Lemma flush_full_no_exit_witness : let K := immutable_KeyMap (fun n => Z.of_nat n) in
  flush demo_cache [Good; Full 0] <> (Exit, demo_cache, []).
Proof. intros K. apply (flush_full_no_exit demo_cache [Good; Full 0]). reflexivity. Defined.
