(* ===== verification/DbTx.v ===== *)
(** * database/ffldb/db.go: transactions on the metadata

    The metadata are one flat map of keys to values.  Buckets are prefixes: a key
    of the bucket with identifier [id] is [id ++ key], and the index of the
    buckets holds the identifier of the bucket [name] inside the bucket [id] under
    ["bidx" ++ id ++ name].  A transaction reads a snapshot of the cache and keeps
    its own changes in two treaps.  The list of iterators to be told of changes,
    and the cursors, are left out here. *)

From Stdlib Require Import ZArith Lia.
From stdpp Require Import sorting.
From S2P Require Import Prelude WireCommon KeyMap DbEffects BlockStore DbCache.

Open Scope Z_scope.

Definition bucketIndexPrefix : bytes := bytes_of "bidx".
Definition curBucketIDKeyName : bytes := bytes_of "bidx-cbid".
Definition metadataBucketID : bytes := [x00; x00; x00; x00].
Definition blockIdxBucketID : bytes := [x00; x00; x00; x01].
Definition blockIdxBucketName : bytes := bytes_of "ffldb-blockidx".
Definition writeLocKeyName : bytes := bytes_of "ffldb-writeloc".

Definition bucketIndexKey (parentID key : bytes) : bytes := bucketIndexPrefix ++ parentID ++ key.
Definition bucketizedKey (bucketID key : bytes) : bytes := bucketID ++ key.

Section transactions.
Context {L P C : Type} `{!LevelDB L, !KeyMap P, !KeyMap C}.

Record pendingBlock : Type := mkPending { pb_hash : bytes; pb_bytes : bytes }.

Record transaction : Type := mkTx {
  tx_managed : bool;
  tx_closed : bool;
  tx_writable : bool;
  tx_snapshot : @dbCacheSnapshot L C;
  tx_pendingBlocks : gmap bytes nat;
  tx_pendingBlockData : list pendingBlock;
  tx_pendingDelFileNums : list Z;
  tx_pendingKeys : P;
  tx_pendingRemove : P;
}.

Definition set_pending (keys remove : P) (tx : transaction) : transaction :=
  mkTx (tx_managed tx) (tx_closed tx) (tx_writable tx) (tx_snapshot tx) (tx_pendingBlocks tx) (tx_pendingBlockData tx)
    (tx_pendingDelFileNums tx) keys remove.

Abbreviation IO := (Eff transaction).

Definition checkClosed : IO unit :=
  tx ← get;
  if tx_closed tx then throw ErrTxClosed else mret tt.

(** ** Keys *)

Definition hasKey (tx : transaction) (key : bytes) : bool :=
  if tx_writable tx && km_has (tx_pendingRemove tx) key then false
  else if tx_writable tx && km_has (tx_pendingKeys tx) key then true
  else snapshot_Has (tx_snapshot tx) key.

(** [None] is nil. *)
Definition fetchKey (tx : transaction) (key : bytes) : option bytes :=
  if tx_writable tx then
    if km_has (tx_pendingRemove tx) key then None
    else match km_get (tx_pendingKeys tx) key with
         | Some value => Some value
         | None => snapshot_Get (tx_snapshot tx) key
         end
  else snapshot_Get (tx_snapshot tx) key.

Definition putKey (key : bytes) (value : option bytes) : IO unit :=
  tx ← get;
  put (set_pending (km_put (tx_pendingKeys tx) key value) (km_delete (tx_pendingRemove tx) key) tx).

Definition deleteKey (key : bytes) : IO unit :=
  tx ← get;
  put (set_pending (km_delete (tx_pendingKeys tx) key) (km_put (tx_pendingRemove tx) key None) tx).

(** [binary.BigEndian.Uint32] panics on a short slice. *)
Definition nextBucketID : IO bytes :=
  tx ← get;
  let curIDBytes := default [] (fetchKey tx curBucketIDKeyName) in
  if len curIDBytes <? 4 then panic
  else
    let curBucketNum := be_get (take 4 curIDBytes) in
    let nextBucketID := be_put 4 (wrap_u32 (curBucketNum + 1)) in
    _ ← putKey curBucketIDKeyName (Some nextBucketID);
    mret nextBucketID.

(** ** Buckets: a bucket is its identifier *)

(** [copy(childBucket.id[:], childID)] into a zero array. *)
Definition bucket_id (childID : bytes) : bytes := take 4 (childID ++ replicate 4 Byte.x00).

Definition bucket_Bucket (tx : transaction) (id key : bytes) : option bytes :=
  if tx_closed tx then None else bucket_id <$> fetchKey tx (bucketIndexKey id key).

Definition bucket_CreateBucket (id key : bytes) : IO bytes :=
  _ ← checkClosed;
  tx ← get;
  if negb (tx_writable tx) then throw ErrTxNotWritable
  else if len key =? 0 then throw ErrBucketNameRequired
  else
    let bidxKey := bucketIndexKey id key in
    if hasKey tx bidxKey then throw ErrBucketExists
    else
      childID ← (if bool_decide (id = metadataBucketID) && bool_decide (key = blockIdxBucketName)
                 then mret blockIdxBucketID else nextBucketID);
      _ ← putKey bidxKey (Some childID);
      mret childID.

Definition bucket_CreateBucketIfNotExists (id key : bytes) : IO bytes :=
  _ ← checkClosed;
  tx ← get;
  if negb (tx_writable tx) then throw ErrTxNotWritable
  else match bucket_Bucket tx id key with
       | Some bucket => mret bucket
       | None => bucket_CreateBucket id key
       end.

Definition bucket_Put (id key : bytes) (value : option bytes) : IO unit :=
  _ ← checkClosed;
  tx ← get;
  if negb (tx_writable tx) then throw ErrTxNotWritable
  else if len key =? 0 then throw ErrKeyRequired
  else putKey (bucketizedKey id key) value.

Definition bucket_Get (tx : transaction) (id key : bytes) : option bytes :=
  if tx_closed tx then None
  else if len key =? 0 then None
  else fetchKey tx (bucketizedKey id key).

Definition bucket_Delete (id key : bytes) : IO unit :=
  _ ← checkClosed;
  tx ← get;
  if negb (tx_writable tx) then throw ErrTxNotWritable
  else if len key =? 0 then mret tt
  else deleteKey (bucketizedKey id key).

(** * Specification *)

Context `{!LevelDBLaws L, !KeyMapLaws P, !KeyMapLaws C}.

(** The metadata as the transaction sees them. *)
Definition tx_view (tx : transaction) : gmap bytes bytes :=
  if tx_writable tx
  then overlay (snapshot_view (tx_snapshot tx)) (km_view (tx_pendingKeys tx)) (km_view (tx_pendingRemove tx))
  else snapshot_view (tx_snapshot tx).

(** What an operation on keys leaves as it was. *)
Record same_tx (tx tx' : transaction) : Prop := {
  st_managed : tx_managed tx' = tx_managed tx;
  st_closed : tx_closed tx' = tx_closed tx;
  st_writable : tx_writable tx' = tx_writable tx;
  st_snapshot : tx_snapshot tx' = tx_snapshot tx;
  st_blocks : tx_pendingBlocks tx' = tx_pendingBlocks tx;
  st_data : tx_pendingBlockData tx' = tx_pendingBlockData tx;
  st_files : tx_pendingDelFileNums tx' = tx_pendingDelFileNums tx;
}.
End transactions.

(** ** The layout of the metadata *)

(** The first identifier whose index key could be the key of the counter. *)
Definition idLimit : Z := 0x2d636269.
Definition id_num (id : bytes) : Z := be_get id.
Definition is_id (id : bytes) : Prop := length id = 4%nat /\ 0 <= id_num id < idLimit.

(** The metadata hold buckets with identifiers up to the counter [n], and nothing
    under the identifiers to come. *)
Record meta_ok (n : Z) (m : gmap bytes bytes) : Prop := {
  mo_range : 1 <= n < idLimit;
  mo_counter : m !! curBucketIDKeyName = Some (be_put 4 n);
  mo_child : forall id name cid, is_id id -> m !! bucketIndexKey id name = Some cid ->
    is_id cid /\ 1 <= id_num cid <= n;
  mo_unique : forall id name id' name' cid, is_id id -> is_id id' ->
    m !! bucketIndexKey id name = Some cid -> m !! bucketIndexKey id' name' = Some cid -> id = id' /\ name = name';
  mo_fresh : forall id k, is_id id -> n < id_num id ->
    m !! bucketizedKey id k = None /\ m !! bucketIndexKey id k = None;
  mo_blockidx : forall id name, is_id id -> m !! bucketIndexKey id name = Some blockIdxBucketID ->
    id = metadataBucketID /\ name = blockIdxBucketName;
}.

(** * Proofs *)

(** ** Keys do not collide *)

Lemma bucketizedKey_inj id k id' k' : length id = length id' -> bucketizedKey id k = bucketizedKey id' k' -> id = id' /\ k = k'.
Proof. intros Hl H. by apply app_inj_1. Qed.

Lemma bucketIndexKey_inj id k id' k' : length id = length id' -> bucketIndexKey id k = bucketIndexKey id' k' -> id = id' /\ k = k'.
Proof. intros Hl H. apply app_inj_1 in H as [_ H]; [|done]. by apply app_inj_1. Qed.

Lemma be_get_limit id : length id = 4%nat -> 0 <= id_num id.
Proof. intros _. apply be_get_range. Qed.

Lemma prefix_not_id rest : ~ is_id bucketIndexPrefix /\ ~ is_id (take 4 (drop 4 (curBucketIDKeyName ++ rest))).
Proof. split; intros [_ H]; vm_compute in H; intuition discriminate. Qed.

Lemma keys_apart id k id' k' : is_id id -> is_id id' ->
  bucketizedKey id k <> bucketIndexKey id' k' /\ bucketizedKey id k <> curBucketIDKeyName /\
  bucketIndexKey id' k' <> curBucketIDKeyName.
Proof.
  intros Hid Hid'. assert (Hp : forall id x y, is_id id -> id ++ x <> bucketIndexPrefix ++ y).
  { intros i x y Hi H. apply app_inj_1 in H as [-> _]; [|by destruct Hi]. by apply (proj1 (prefix_not_id [])). }
  split_and!.
  - apply Hp, Hid.
  - change curBucketIDKeyName with (bucketIndexPrefix ++ bytes_of "-cbid"). apply Hp, Hid.
  - change curBucketIDKeyName with (bucketIndexPrefix ++ bytes_of "-cbi" ++ bytes_of "d"). unfold bucketIndexKey.
    intros H. apply app_inj_1 in H as [_ H]; [|done]. apply app_inj_1 in H as [-> _]; [|by destruct Hid'].
    destruct Hid' as [_ Hn]. vm_compute in Hn. intuition discriminate.
Qed.

(** ** Keys of a transaction *)

Section tx_keys.
Context {L P C : Type} `{!LevelDB L, !KeyMap P, !KeyMap C, !LevelDBLaws L, !KeyMapLaws P, !KeyMapLaws C}.
Implicit Types (tx : @transaction L P C).

Lemma same_tx_refl tx : same_tx tx tx.
Proof. by split. Qed.
Lemma same_tx_pending tx pk pr : same_tx tx (set_pending pk pr tx).
Proof. by split. Qed.
Lemma same_tx_trans tx1 tx2 tx3 : same_tx tx1 tx2 -> same_tx tx2 tx3 -> same_tx tx1 tx3.
Proof. intros [] []. split; congruence. Qed.

Lemma fetchKey_view tx k : fetchKey tx k = tx_view tx !! k.
Proof.
  unfold fetchKey, tx_view. destruct (tx_writable tx); [|apply snapshot_readers].
  rewrite lookup_overlay, km_has_view, km_get_view. destruct (km_view (tx_pendingRemove tx) !! k).
  - by rewrite bool_decide_true by eauto.
  - rewrite bool_decide_false by (by intros [??]). destruct (km_view (tx_pendingKeys tx) !! k); [done|]. apply snapshot_readers.
Qed.

Lemma hasKey_view tx k : hasKey tx k = bool_decide (is_Some (tx_view tx !! k)).
Proof.
  unfold hasKey, tx_view. destruct (tx_writable tx); cbn [andb]; [|apply snapshot_readers].
  rewrite lookup_overlay, !km_has_view. destruct (km_view (tx_pendingRemove tx) !! k).
  { rewrite bool_decide_true by eauto. by rewrite bool_decide_false by (by intros [??]). }
  rewrite bool_decide_false by (by intros [??]). destruct (km_view (tx_pendingKeys tx) !! k).
  - by rewrite !bool_decide_true by eauto.
  - rewrite bool_decide_false by (by intros [??]). apply snapshot_readers.
Qed.

(** Runs that change the metadata of a transaction to [m] and nothing else. *)
Definition now_sees tx (m : gmap bytes bytes) tx' (fs fs' : list fault) : Prop := same_tx tx tx' /\ tx_view tx' = m /\ fs' = fs.

Lemma overlay_put (m keys remove : gmap bytes bytes) k v : overlay m (<[k := v]> keys) (delete k remove) = <[k := v]> (overlay m keys remove).
Proof.
  apply map_eq. intros i. rewrite lookup_overlay. destruct (decide (i = k)) as [->|Hne].
  - by rewrite lookup_delete_eq, !lookup_insert_eq.
  - by rewrite lookup_delete_ne, !lookup_insert_ne, lookup_overlay by done.
Qed.
Lemma overlay_delete (m keys remove : gmap bytes bytes) k v : overlay m (delete k keys) (<[k := v]> remove) = delete k (overlay m keys remove).
Proof.
  apply map_eq. intros i. rewrite lookup_overlay. destruct (decide (i = k)) as [->|Hne].
  - by rewrite !lookup_delete_eq, lookup_insert_eq.
  - by rewrite !lookup_delete_ne, lookup_insert_ne, lookup_overlay by done.
Qed.

Lemma putKey_spec k v tx fs : tx_writable tx = true ->
  wp (putKey k v) tx fs (fun o tx' fs' => o = Val tt /\ now_sees tx (<[k := default [] v]> (tx_view tx)) tx' fs fs').
Proof.
  intros Hw. unfold putKey. apply wp_get. split; [done|]. split; [apply same_tx_pending|]. split; [|done].
  unfold tx_view. cbn. rewrite Hw, km_put_view, km_delete_view. apply overlay_put.
Qed.

Lemma deleteKey_spec k tx fs : tx_writable tx = true ->
  wp (deleteKey k) tx fs (fun o tx' fs' => o = Val tt /\ now_sees tx (delete k (tx_view tx)) tx' fs fs').
Proof.
  intros Hw. unfold deleteKey. apply wp_get. split; [done|]. split; [apply same_tx_pending|]. split; [|done].
  unfold tx_view. cbn. rewrite Hw, km_put_view, km_delete_view. apply overlay_delete.
Qed.

Lemma nextBucketID_spec n tx fs : tx_writable tx = true -> meta_ok n (tx_view tx) ->
  wp nextBucketID tx fs (fun o tx' fs' => o = Val (be_put 4 (n + 1)) /\
    now_sees tx (<[curBucketIDKeyName := be_put 4 (n + 1)]> (tx_view tx)) tx' fs fs').
Proof.
  intros Hw Hok. unfold nextBucketID. apply wp_get. rewrite fetchKey_view, (mo_counter _ _ Hok). cbv zeta. unfold default. cbn [from_option]. unfold id.
  pose proof (mo_range _ _ Hok) as Hn. unfold idLimit in Hn.
  assert (Hlen : length (be_put 4 n) = 4%nat) by apply length_be_put.
  destruct (Z.ltb_spec (len (be_put 4 n)) 4); [unfold len in *; lia|].
  rewrite take_ge by (rewrite Hlen; lia). rewrite be_get_put by (change (256 ^ Z.of_nat 4) with (2 ^ 32); lia).
  unfold wrap_u32. rewrite Z.mod_small by lia. apply wp_bind.
  apply (wp_mono _ _ _ _ _ (putKey_spec _ _ tx fs Hw)). intros o tx' fs' [-> Hs]. by apply wp_ret.
Qed.

(** *** The new state after each operation on buckets *)

Lemma checkClosed_open {A} (k : unit -> Eff transaction A) tx fs Q :
  tx_closed tx = false -> wp (k tt) tx fs Q -> wp (checkClosed ≫= k) tx fs Q.
Proof. intros Hc H. apply wp_bind. unfold checkClosed. apply wp_get. by rewrite Hc. Qed.
Lemma checkClosed_closed {A} (k : unit -> Eff transaction A) tx fs (Q : outcome A -> transaction -> list fault -> Prop) :
  tx_closed tx = true -> Q (Error ErrTxClosed) tx fs -> wp (checkClosed ≫= k) tx fs Q.
Proof. intros Hc H. apply wp_bind. unfold checkClosed. apply wp_get. by rewrite Hc. Qed.

Definition put_post (id key : bytes) (value : option bytes) tx fs (o : outcome unit) tx' fs' : Prop :=
  if tx_closed tx then o = Error ErrTxClosed /\ tx' = tx /\ fs' = fs
  else if negb (tx_writable tx) then o = Error ErrTxNotWritable /\ tx' = tx /\ fs' = fs
  else if bool_decide (key = []) then o = Error ErrKeyRequired /\ tx' = tx /\ fs' = fs
  else o = Val tt /\ now_sees tx (<[bucketizedKey id key := default [] value]> (tx_view tx)) tx' fs fs'.

Lemma len_zero {A} `{EqDecision A} (l : list A) : (len l =? 0) = bool_decide (l = []).
Proof. by destruct l. Qed.

Lemma bucket_Put_spec id key value tx fs : wp (bucket_Put id key value) tx fs (put_post id key value tx fs).
Proof.
  unfold bucket_Put, put_post. destruct (tx_closed tx) eqn:Hc; [by apply checkClosed_closed|]. apply checkClosed_open; [done|].
  apply wp_get. destruct (tx_writable tx) eqn:Hw; [cbn [negb]|done]. rewrite len_zero.
  destruct (bool_decide (key = [])); [done|]. by apply putKey_spec.
Qed.

Definition delete_post (id key : bytes) tx fs (o : outcome unit) tx' fs' : Prop :=
  if tx_closed tx then o = Error ErrTxClosed /\ tx' = tx /\ fs' = fs
  else if negb (tx_writable tx) then o = Error ErrTxNotWritable /\ tx' = tx /\ fs' = fs
  else if bool_decide (key = []) then o = Val tt /\ tx' = tx /\ fs' = fs
  else o = Val tt /\ now_sees tx (delete (bucketizedKey id key) (tx_view tx)) tx' fs fs'.

Lemma bucket_Delete_spec id key tx fs : wp (bucket_Delete id key) tx fs (delete_post id key tx fs).
Proof.
  unfold bucket_Delete, delete_post. destruct (tx_closed tx) eqn:Hc; [by apply checkClosed_closed|]. apply checkClosed_open; [done|].
  apply wp_get. destruct (tx_writable tx) eqn:Hw; [cbn [negb]|done]. rewrite len_zero.
  destruct (bool_decide (key = [])); [done|]. by apply deleteKey_spec.
Qed.

(** The metadata with the bucket [n + 1] made under a name. *)
Definition with_bucket (n : Z) (id key : bytes) (m : gmap bytes bytes) : gmap bytes bytes :=
  <[bucketIndexKey id key := be_put 4 (n + 1)]> (<[curBucketIDKeyName := be_put 4 (n + 1)]> m).

Definition create_post (n : Z) (id key : bytes) tx fs (o : outcome bytes) tx' fs' : Prop :=
  if tx_closed tx then o = Error ErrTxClosed /\ tx' = tx /\ fs' = fs
  else if negb (tx_writable tx) then o = Error ErrTxNotWritable /\ tx' = tx /\ fs' = fs
  else if bool_decide (key = []) then o = Error ErrBucketNameRequired /\ tx' = tx /\ fs' = fs
  else if bool_decide (is_Some (tx_view tx !! bucketIndexKey id key)) then o = Error ErrBucketExists /\ tx' = tx /\ fs' = fs
  else o = Val (be_put 4 (n + 1)) /\ now_sees tx (with_bucket n id key (tx_view tx)) tx' fs fs'.

Lemma bucket_CreateBucket_spec n id key tx fs :
  meta_ok n (tx_view tx) -> ~ (id = metadataBucketID /\ key = blockIdxBucketName) ->
  wp (bucket_CreateBucket id key) tx fs (create_post n id key tx fs).
Proof.
  intros Hok Hnot. unfold bucket_CreateBucket, create_post. destruct (tx_closed tx) eqn:Hc; [by apply checkClosed_closed|].
  apply checkClosed_open; [done|]. apply wp_get. destruct (tx_writable tx) eqn:Hw; [cbn [negb]|done]. rewrite len_zero.
  destruct (bool_decide (key = [])); [done|]. rewrite hasKey_view. destruct (bool_decide (is_Some _)); [done|].
  assert (bool_decide (id = metadataBucketID) && bool_decide (key = blockIdxBucketName) = false) as ->.
  { apply andb_false_iff. rewrite !bool_decide_eq_false. destruct (decide (id = metadataBucketID)); [right; intros ->; by apply Hnot|by left]. }
  apply wp_bind. apply (wp_mono _ _ _ _ _ (nextBucketID_spec n tx fs Hw Hok)). intros o tx1 fs1 (-> & Hst & Hv & ->).
  apply wp_bind. apply (wp_mono _ _ _ _ _ (putKey_spec _ _ tx1 fs (eq_trans (st_writable _ _ Hst) Hw))).
  intros o tx2 fs2 (-> & Hst2 & Hv2 & ->). apply wp_ret. split; [done|]. split; [by eapply same_tx_trans|]. split; [|done].
  by rewrite Hv2, Hv.
Qed.
End tx_keys.

(** ** The layout is kept *)

Lemma id_put n : 0 <= n < idLimit -> is_id (be_put 4 n) /\ id_num (be_put 4 n) = n.
Proof.
  unfold idLimit. intros Hn. assert (H : id_num (be_put 4 n) = n) by (apply be_get_put; change (256 ^ Z.of_nat 4) with (2 ^ 32); lia).
  split; [|done]. split; [apply length_be_put|]. rewrite H. unfold idLimit. lia.
Qed.

(** A change to a key of a bucket is none to the index. *)
Lemma meta_ok_data n m m' id k :
  meta_ok n m -> is_id id -> id_num id <= n -> (forall i, i <> bucketizedKey id k -> m' !! i = m !! i) -> meta_ok n m'.
Proof.
  intros [Hr Hc Hch Hu Hf Hb] Hid Hn Hsame.
  assert (Hidx : forall i name, is_id i -> m' !! bucketIndexKey i name = m !! bucketIndexKey i name).
  { intros i name Hi. apply Hsame. destruct (keys_apart id k i name Hid Hi) as (H & _). congruence. }
  split.
  - done.
  - rewrite Hsame; [done|]. destruct (keys_apart id k id k Hid Hid) as (_ & H & _). congruence.
  - intros i name cid Hi. rewrite Hidx by done. by apply Hch.
  - intros i name i' name' cid Hi Hi'. rewrite !Hidx by done. by apply Hu.
  - intros i x Hi Hlt. rewrite Hidx by done. rewrite Hsame; [by apply Hf|].
    intros H. apply bucketizedKey_inj in H as [-> _]; [lia|]. destruct Hi, Hid. congruence.
  - intros i name Hi. rewrite Hidx by done. by apply Hb.
Qed.

Lemma with_bucket_index n id key m i name : is_id id -> is_id i ->
  with_bucket n id key m !! bucketIndexKey i name =
    if bool_decide (i = id /\ name = key) then Some (be_put 4 (n + 1)) else m !! bucketIndexKey i name.
Proof.
  intros Hid Hi. unfold with_bucket. destruct (bool_decide_reflect (i = id /\ name = key)) as [[-> ->]|Hne].
  - apply lookup_insert_eq.
  - rewrite !lookup_insert_ne; [done| |].
    + destruct (keys_apart i name i name Hi Hi) as (_ & _ & H). congruence.
    + intros H. apply Hne. apply bucketIndexKey_inj in H as [-> ->]; [done|]. destruct Hi, Hid. congruence.
Qed.

Lemma with_bucket_data n id key m i k : is_id id -> is_id i -> with_bucket n id key m !! bucketizedKey i k = m !! bucketizedKey i k.
Proof.
  intros Hid Hi. unfold with_bucket. destruct (keys_apart i k id key Hi Hid) as (H1 & H2 & _).
  by rewrite !lookup_insert_ne by congruence.
Qed.

Lemma meta_ok_create n m id key :
  meta_ok n m -> n + 1 < idLimit -> is_id id -> id_num id <= n -> m !! bucketIndexKey id key = None ->
  meta_ok (n + 1) (with_bucket n id key m).
Proof.
  intros [Hr Hc Hch Hu Hf Hb] Hlim Hid Hn Hnone. destruct (id_put (n + 1)) as [Hnew Hnum]; [lia|].
  assert (Hno : forall i name cid, is_id i -> m !! bucketIndexKey i name = Some cid -> cid <> be_put 4 (n + 1)).
  { intros i name cid Hi H ->. destruct (Hch _ _ _ Hi H) as [_ H2]. lia. }
  split.
  - lia.
  - unfold with_bucket. rewrite lookup_insert_ne, lookup_insert_eq; [done|].
    destruct (keys_apart id key id key Hid Hid) as (_ & _ & H). done.
  - intros i name cid Hi. rewrite with_bucket_index by done. destruct (bool_decide _).
    + intros H. injection H as <-. split; [done|lia].
    + intros H. destruct (Hch _ _ _ Hi H). split; [done|lia].
  - intros i name i' name' cid Hi Hi'. rewrite !with_bucket_index by done.
    destruct (bool_decide_reflect (i = id /\ name = key)) as [[-> ->]|], (bool_decide_reflect (i' = id /\ name' = key)) as [[-> ->]|]; [done| | |by apply Hu].
    + intros H H2. injection H as <-. by destruct (Hno _ _ _ Hi' H2).
    + intros H H2. injection H2 as <-. by destruct (Hno _ _ _ Hi H).
  - intros i k Hi Hlt. rewrite with_bucket_data, with_bucket_index by done. destruct (Hf i k Hi) as [H1 H2]; [lia|].
    split; [done|]. rewrite bool_decide_false; [done|]. intros [-> _]. lia.
  - intros i name Hi. rewrite with_bucket_index by done. destruct (bool_decide _); [|by apply Hb].
    intros H. apply (f_equal (fun o => id_num (default [] o))) in H. change (id_num (be_put 4 (n + 1)) = id_num blockIdxBucketID) in H. rewrite Hnum in H. change (id_num blockIdxBucketID) with 1 in H. lia.
Qed.

(** * The correctness of buckets *)

Section buckets.
Context {L P C : Type} `{!LevelDB L, !KeyMap P, !KeyMap C, !LevelDBLaws L, !KeyMapLaws P, !KeyMapLaws C}.
Implicit Types (tx : @transaction L P C).

(** The operations on buckets that write, on the bucket with a given identifier. *)
Inductive bucket_op : Type :=
| OpPut (id key : bytes) (value : option bytes)
| OpDelete (id key : bytes)
| OpCreate (id key : bytes)
| OpCreateIfNotExists (id key : bytes).
Definition op_id (o : bucket_op) : bytes :=
  match o with OpPut id _ _ | OpDelete id _ | OpCreate id _ | OpCreateIfNotExists id _ => id end.
Definition run_op (o : bucket_op) : Eff (@transaction L P C) unit :=
  match o with
  | OpPut id key value => bucket_Put id key value
  | OpDelete id key => bucket_Delete id key
  | OpCreate id key => _ ← bucket_CreateBucket id key; mret tt
  | OpCreateIfNotExists id key => _ ← bucket_CreateBucketIfNotExists id key; mret tt
  end.

(** Buckets already made, apart from the special name. *)
Definition op_ok (n : Z) (o : bucket_op) : Prop :=
  is_id (op_id o) /\ id_num (op_id o) <= n /\
  match o with OpCreate id key | OpCreateIfNotExists id key => ~ (id = metadataBucketID /\ key = blockIdxBucketName) | _ => True end.

Lemma create_keeps n id key tx fs : meta_ok n (tx_view tx) -> op_ok n (OpCreate id key) -> n + 1 < idLimit ->
  wp (bucket_CreateBucket id key) tx fs (fun o tx' _ => same_tx tx tx' /\ o <> Panic /\
    exists n', meta_ok n' (tx_view tx') /\ n <= n' <= n + 1).
Proof.
  intros Hok (Hid & Hn & Hnot) Hlim. apply (wp_mono _ _ _ _ _ (bucket_CreateBucket_spec n id key tx fs Hok Hnot)).
  intros o tx' fs' H. unfold create_post in H.
  assert (Hsame : tx' = tx -> same_tx tx tx' /\ exists n', meta_ok n' (tx_view tx') /\ n <= n' <= n + 1)
    by (intros ->; split; [by split|]; exists n; split; [done|lia]).
  destruct (tx_closed tx); [destruct H as (-> & Ht & _); destruct (Hsame Ht); by split_and!|].
  destruct (negb (tx_writable tx)); [destruct H as (-> & Ht & _); destruct (Hsame Ht); by split_and!|].
  destruct (bool_decide (key = [])); [destruct H as (-> & Ht & _); destruct (Hsame Ht); by split_and!|].
  destruct (bool_decide_reflect (is_Some (tx_view tx !! bucketIndexKey id key))) as [|Hnone]; [destruct H as (-> & Ht & _); destruct (Hsame Ht); by split_and!|].
  destruct H as (-> & Hst & Hv & _). split_and!; [done|done|]. exists (n + 1). split; [|lia]. rewrite Hv.
  apply meta_ok_create; [done..|]. by apply eq_None_not_Some.
Qed.

End buckets.

Section bucket_maps.
Context {L P C : Type} `{!LevelDB L, !KeyMap P, !KeyMap C, !LevelDBLaws L, !KeyMapLaws P, !KeyMapLaws C}.
Implicit Types (tx : @transaction L P C).

Lemma bucket_Get_view tx id key : tx_closed tx = false ->
  bucket_Get tx id key = if bool_decide (key = []) then None else tx_view tx !! bucketizedKey id key.
Proof. intros Hc. unfold bucket_Get. rewrite Hc, len_zero, fetchKey_view. done. Qed.

Lemma bucket_Bucket_view tx id key : tx_closed tx = false ->
  bucket_Bucket tx id key = bucket_id <$> tx_view tx !! bucketIndexKey id key.
Proof. intros Hc. unfold bucket_Bucket. by rewrite Hc, fetchKey_view. Qed.


(** C: [CreateBucket] gives a bucket no name led to before, empty and without
    nested buckets, that its name now leads to; all other names, keys and buckets
    are as they were.  It fails when the name is taken or empty. *)
Theorem CreateBucket_fresh n tx id key fs (Hok : meta_ok n (tx_view tx)) (Hlim : n + 1 < idLimit) (Hid : is_id id)
    (Hnot : ~ (id = metadataBucketID /\ key = blockIdxBucketName))
    (Hopen : tx_closed tx = false) (Hw : tx_writable tx = true) (Hkey : key <> []) :
  match bucket_Bucket tx id key with
  | Some _ => bucket_CreateBucket id key tx fs = (Error ErrBucketExists, tx, fs)
  | None => exists new t1, bucket_CreateBucket id key tx fs = (Val new, t1, fs) /\ is_id new /\
      bucket_Bucket t1 id key = Some new /\
      (forall id' key', is_id id' -> bucket_Bucket tx id' key' <> Some new) /\
      (forall key', bucket_Get t1 new key' = None /\ bucket_Bucket t1 new key' = if bool_decide (new = id /\ key' = key) then Some new else None) /\
      (forall id' key', is_id id' -> bucket_Get t1 id' key' = bucket_Get tx id' key' /\
         (~ (id' = id /\ key' = key) -> bucket_Bucket t1 id' key' = bucket_Bucket tx id' key'))
  end.
Proof.
  destruct (wp_run _ _ _ _ (bucket_CreateBucket_spec n id key tx fs Hok Hnot)) as (o & t1 & fs1 & Hr & H).
  unfold create_post in H. rewrite Hopen, Hw in H. cbn [negb] in H. rewrite (bool_decide_false (key = [])) in H by done.
  rewrite bucket_Bucket_view by done. destruct (tx_view tx !! bucketIndexKey id key) as [cid|] eqn:Hcid; cbn [fmap option_fmap option_map].
  { rewrite bool_decide_true in H by eauto. by destruct H as (-> & -> & ->). }
  rewrite bool_decide_false in H by (by intros [??]). destruct H as (-> & Hst & Hv & ->).
  pose proof (mo_range _ _ Hok) as Hn. destruct (id_put (n + 1)) as [Hnew Hnum]; [lia|].
  assert (Hc1 : tx_closed t1 = false) by (rewrite (st_closed _ _ Hst); done).
  assert (Hbid : forall cid, length cid = 4%nat -> bucket_id cid = cid) by (intros c Hc; unfold bucket_id; by apply take_app_length').
  assert (Hbucket : forall i k, is_id i -> bucket_Bucket t1 i k = if bool_decide (i = id /\ k = key) then Some (be_put 4 (n + 1)) else bucket_Bucket tx i k).
  { intros i k Hi. rewrite !bucket_Bucket_view, Hv, with_bucket_index by done. destruct (bool_decide _); [|done].
    cbn [fmap option_fmap option_map]. by rewrite (Hbid _ (length_be_put 4 (n + 1))). }
  assert (Hfresh : forall k, tx_view tx !! bucketizedKey (be_put 4 (n + 1)) k = None /\ tx_view tx !! bucketIndexKey (be_put 4 (n + 1)) k = None).
  { intros k. apply (mo_fresh _ _ Hok); [done|lia]. }
  exists (be_put 4 (n + 1)), t1. split_and!; [done|done| | | |].
  - rewrite Hbucket by done. by rewrite bool_decide_true.
  - intros i k Hi. rewrite bucket_Bucket_view by done. destruct (tx_view tx !! bucketIndexKey i k) as [c|] eqn:E; [|done].
    destruct (mo_child _ _ Hok _ _ _ Hi E) as [[Hl ?] ?]. cbn. rewrite Hbid by done. intros [= ->]. lia.
  - intros k. split.
    + rewrite bucket_Get_view, Hv, with_bucket_data by done. destruct (bool_decide _); [done|]. apply Hfresh.
    + rewrite Hbucket by done. destruct (bool_decide _); [done|]. rewrite bucket_Bucket_view by done. by rewrite (proj2 (Hfresh k)).
  - intros i k Hi. split.
    + rewrite !bucket_Get_view, Hv, with_bucket_data by done. done.
    + intros Hne. rewrite Hbucket by done. by rewrite bool_decide_false.
Qed.

(** C: [Put] never refuses a key for being the name of a bucket, nor [CreateBucket]
    a name for being a key: the two live side by side. *)
Theorem key_beside_bucket n tx id key value cid fs (Hok : meta_ok n (tx_view tx)) (Hid : is_id id)
    (Hopen : tx_closed tx = false) (Hw : tx_writable tx = true) (Hkey : key <> [])
    (Hbucket : bucket_Bucket tx id key = Some cid) :
  exists t1, bucket_Put id key (Some value) tx fs = (Val tt, t1, fs) /\
    bucket_Get t1 id key = Some value /\ bucket_Bucket t1 id key = Some cid.
Proof.
  destruct (wp_run _ _ _ _ (bucket_Put_spec id key (Some value) tx fs)) as (o1 & t1 & fs1 & Hr1 & H1).
  unfold put_post in H1. rewrite Hopen, Hw in H1. cbn [negb] in H1. rewrite bool_decide_false in H1 by done.
  destruct H1 as (-> & Hst1 & Hv1 & ->). exists t1. split; [done|].
  assert (Hc1 : tx_closed t1 = false) by (rewrite (st_closed _ _ Hst1); done).
  rewrite bucket_Get_view, bucket_Bucket_view, Hv1 by done. rewrite bucket_Bucket_view in Hbucket by done.
  destruct (keys_apart id key id key Hid Hid) as (Hne & _). rewrite bool_decide_false by done.
  by rewrite lookup_insert_eq, lookup_insert_ne by congruence.
Qed.
End bucket_maps.

(** ** The first metadata *)

Definition init_meta (row : bytes) : gmap bytes bytes :=
  <[curBucketIDKeyName := blockIdxBucketID]> (<[bucketIndexKey metadataBucketID blockIdxBucketName := blockIdxBucketID]>
    (<[bucketizedKey metadataBucketID writeLocKeyName := row]> ∅)).

Lemma meta_ok_init row : meta_ok 1 (init_meta row).
Proof.
  assert (H0 : is_id metadataBucketID) by (split; [done|vm_compute; intuition congruence]).
  assert (Hidx : forall id name v, is_id id -> init_meta row !! bucketIndexKey id name = Some v ->
    id = metadataBucketID /\ name = blockIdxBucketName /\ v = blockIdxBucketID).
  { intros id name v Hid H. unfold init_meta in H. rewrite lookup_insert_ne in H.
    2: { intros E. by destruct (keys_apart id name id name Hid Hid) as (_ & _ & []). }
    apply lookup_insert_Some in H as [[E <-]|[_ H]].
    - apply bucketIndexKey_inj in E as [<- <-]; [done|by destruct Hid].
    - rewrite lookup_insert_ne in H; [by rewrite lookup_empty in H|]. by destruct (keys_apart metadataBucketID writeLocKeyName id name H0 Hid). }
  split.
  - by vm_compute.
  - by vm_compute.
  - intros id name cid Hid H. destruct (Hidx _ _ _ Hid H) as (_ & _ & ->). split; [split; [done|]|]; vm_compute; intuition congruence.
  - intros id name id' name' cid Hid Hid' H H'. destruct (Hidx _ _ _ Hid H) as (-> & -> & _). by destruct (Hidx _ _ _ Hid' H') as (-> & -> & _).
  - intros id k Hid Hlt. split.
    + unfold init_meta. destruct (keys_apart id k metadataBucketID blockIdxBucketName Hid H0) as (H1 & H2 & _).
      rewrite !lookup_insert_ne; [done|..]; [|congruence|congruence].
      intros E. apply bucketizedKey_inj in E as [<- _]; [by vm_compute in Hlt|by destruct Hid].
    + destruct (init_meta row !! bucketIndexKey id k) eqn:E; [|done]. destruct (Hidx _ _ _ Hid E) as (-> & _). by vm_compute in Hlt.
  - intros id name Hid H. by destruct (Hidx _ _ _ Hid H) as (-> & -> & _).
Qed.

(** * At a concrete input *)

Definition rand0 (n : nat) : Z := Z.of_nat n.
#[local] Instance demo_K : KeyMap drawn := immutable_KeyMap rand0.
#[local] Instance demo_KL : KeyMapLaws drawn := immutable_KeyMapLaws rand0.
#[local] Instance demo_M : KeyMap drawn_mutable := mutable_KeyMap rand0.
#[local] Instance demo_ML : KeyMapLaws drawn_mutable := mutable_KeyMapLaws rand0.
Definition demo_tx : @transaction (gmap bytes bytes) drawn_mutable drawn :=
 
  mkTx true false true (mkSnapshot (init_meta []) km_empty km_empty) ∅ [] [] km_empty km_empty.
Lemma demo_view : tx_view demo_tx = init_meta [].
Proof. unfold tx_view, snapshot_view. cbn [tx_writable demo_tx tx_snapshot sn_dbSnapshot sn_pendingKeys sn_pendingRemove tx_pendingKeys tx_pendingRemove].
  rewrite !km_view_empty, !overlay_empty. done. Defined.
Lemma demo_meta : meta_ok 1 (tx_view demo_tx).
Proof. rewrite demo_view. apply meta_ok_init. Defined.
Lemma demo_id : is_id metadataBucketID.
Proof. split; [done|vm_compute; intuition congruence]. Defined.



Lemma CreateBucket_fresh_witness :
  exists new (t1 : @transaction (gmap bytes bytes) drawn_mutable drawn),
    bucket_CreateBucket metadataBucketID [x61] demo_tx [] = (Val new, t1, []) /\ is_id new.
Proof.
  pose proof (CreateBucket_fresh 1 demo_tx metadataBucketID [x61] [] demo_meta ltac:(by vm_compute) demo_id
    ltac:(intros [_ H]; discriminate H) eq_refl eq_refl ltac:(discriminate)) as H.
  assert (Hn : bucket_Bucket demo_tx metadataBucketID [x61] = None) by reflexivity. rewrite Hn in H.
  destruct H as (new & t1 & H1 & H2 & _). exists new, t1. by split.
Defined.

Lemma key_beside_bucket_witness :
  exists t1 : @transaction (gmap bytes bytes) drawn_mutable drawn,
    bucket_Put metadataBucketID blockIdxBucketName (Some [x62]) demo_tx [] = (Val tt, t1, []).
Proof.
  destruct (key_beside_bucket 1 demo_tx metadataBucketID blockIdxBucketName [x62] blockIdxBucketID [] demo_meta demo_id
    eq_refl eq_refl ltac:(discriminate) ltac:(reflexivity)) as (t1 & H & _). by exists t1.
Defined.
