(* ===== verification/DbBlocks.v ===== *)
(** * database/ffldb: blocks in transactions, committing, and the database

    The part of db.go that joins the block store and the metadata: blocks wait in
    the transaction and are written to the files when it commits, before their
    locations and the new position of the write cursor are committed as metadata.
    The locks of the database are left out: there is one write transaction at a
    time.  A session is a database with one transaction. *)

From Stdlib Require Import ZArith Lia.
From stdpp Require Import sorting.
From S2P Require Import Prelude WireCommon WireTx WireBlock TxSort NogoUtil KeyMap DbEffects BlockStore BlockLog DbCache DbTx.

Open Scope Z_scope.

Definition blockHdrSize : Z := MaxBlockHeaderPayload.

(** ** reconcile.go: the row of the write cursor *)

Definition serializeWriteRow (curBlockFileNum curFileOffset : Z) : bytes :=
  let serializedRow := le_put 4 curBlockFileNum ++ le_put 4 curFileOffset in
  serializedRow ++ le_put 4 (crc32c serializedRow).

(** [None] is the panic on a short slice. *)
Definition deserializeWriteRow (writeRow : bytes) : option (result dbErr (Z * Z)) :=
  if len writeRow <? 12 then None
  else
    let gotChecksum := crc32c (bytes_at writeRow 0 8) in
    let wantChecksum := le_get (bytes_at writeRow 8 4) in
    if negb (gotChecksum =? wantChecksum) then Some (Err ErrCorruption)
    else Some (Ok (le_get (bytes_at writeRow 0 4), le_get (bytes_at writeRow 4 4))).

Record BlockRegion : Type := mkRegion { rg_Hash : bytes; rg_Offset : Z; rg_Len : Z }.

Section sessions.
Context {L P C : Type} `{!LevelDB L, !KeyMap P, !KeyMap C}.

Abbreviation transaction := (@transaction L P C).
Abbreviation dbCache := (@dbCache L C).

Record db : Type := mkDb {
  db_closed : bool;
  db_cache : dbCache;      (* with the block store *)
}.
Record session : Type := mkSession {
  ss_db : db;
  ss_tx : transaction;
}.

Definition set_cache (c : dbCache) (d : db) : db := mkDb (db_closed d) c.
Definition set_tx (tx : transaction) (s : session) : session := mkSession (ss_db s) tx.
Definition on_tx {A} : Eff transaction A -> Eff session A := zoom ss_tx set_tx.
Definition on_cache {A} : Eff dbCache A -> Eff session A :=
  zoom (fun s => db_cache (ss_db s)) (fun c s => mkSession (set_cache c (ss_db s)) (ss_tx s)).
Definition on_blocks {A} (m : Eff blockStore A) : Eff session A := on_cache (on_store m).
Definition the_store (s : session) : blockStore := ca_store (db_cache (ss_db s)).

Abbreviation IO := (Eff session).

(** ** Blocks of a transaction *)

Definition hasBlock (tx : transaction) (hash : bytes) : bool :=
  if tx_pendingBlocks tx !! hash is Some _ then true
  else hasKey tx (bucketizedKey blockIdxBucketID hash).

(** The caches inside the block object are not kept. *)
Definition StoreBlock (block : Block) : Eff transaction unit :=
  _ ← checkClosed;
  tx ← get;
  if negb (tx_writable tx) then throw ErrTxNotWritable
  else
    let '(block, blockHash) := Block_Hash block in
    if hasBlock tx blockHash then throw ErrBlockExists
    else
      let '(_, blockBytes) := Block_Bytes block in
      put (mkTx (tx_managed tx) (tx_closed tx) (tx_writable tx) (tx_snapshot tx)
             (<[blockHash := length (tx_pendingBlockData tx)]> (tx_pendingBlocks tx))
             (tx_pendingBlockData tx ++ [mkPending blockHash blockBytes])
             (tx_pendingDelFileNums tx) (tx_pendingKeys tx) (tx_pendingRemove tx)).

Definition HasBlock (hash : bytes) : Eff transaction bool :=
  _ ← checkClosed; tx ← get; mret (hasBlock tx hash).
Definition HasBlocks (hashes : list bytes) : Eff transaction (list bool) :=
  _ ← checkClosed; tx ← get; mret (map (hasBlock tx) hashes).

Definition fetchBlockRow (hash : bytes) : Eff transaction bytes :=
  tx ← get;
  match bucket_Get tx blockIdxBucketID hash with
  | None => throw ErrBlockNotFound
  | Some blockRow => mret blockRow
  end.

(** The location in a row, a panic when the row is short. *)
Definition row_location (blockRow : bytes) : IO blockLocation :=
  match deserializeBlockLoc blockRow with None => panic | Some location => mret location end.

Definition FetchBlock (hash : bytes) : IO bytes :=
  _ ← on_tx checkClosed;
  s ← get;
  match tx_pendingBlocks (ss_tx s) !! hash with
  | Some idx =>
      match tx_pendingBlockData (ss_tx s) !! idx with None => panic | Some data => mret (pb_bytes data) end
  | None =>
      blockRow ← on_tx (fetchBlockRow hash);
      location ← row_location blockRow;
      on_blocks (readBlock location)
  end.

Fixpoint fetch_all (hashes : list bytes) : IO (list bytes) :=
  match hashes with
  | [] => mret []
  | hash :: hashes => block ← FetchBlock hash; blocks ← fetch_all hashes; mret (block :: blocks)
  end.
Definition FetchBlocks (hashes : list bytes) : IO (list bytes) :=
  _ ← on_tx checkClosed; fetch_all hashes.

(** Whether a region goes past the end, with the sum of its bounds. *)
Definition region_end (region : BlockRegion) : Z := wrap_u32 (rg_Offset region + rg_Len region).
Definition region_invalid (region : BlockRegion) (blockLen : Z) : bool :=
  (region_end region <? rg_Offset region) || (blockLen <? region_end region).

(** [None] when the block is not pending. *)
Definition fetchPendingRegion (region : BlockRegion) : Eff transaction (option bytes) :=
  tx ← get;
  match tx_pendingBlocks tx !! rg_Hash region with
  | None => mret None
  | Some idx =>
      match tx_pendingBlockData tx !! idx with
      | None => panic
      | Some data =>
          let blockBytes := pb_bytes data in
          let blockLen := wrap_u32 (len blockBytes) in
          if region_invalid region blockLen then throw ErrBlockRegionInvalid
          else mret (Some (bytes_at blockBytes (rg_Offset region) (region_end region - rg_Offset region)))
      end
  end.

Definition stored_region (region : BlockRegion) : IO blockLocation :=
  blockRow ← on_tx (fetchBlockRow (rg_Hash region));
  location ← row_location blockRow;
  if region_invalid region (l_blockLen location) then throw ErrBlockRegionInvalid else mret location.

Definition FetchBlockRegion (region : BlockRegion) : IO bytes :=
  _ ← on_tx checkClosed;
  regionBytes ← on_tx (fetchPendingRegion region);
  match regionBytes with
  | Some regionBytes => mret regionBytes
  | None =>
      location ← stored_region region;
      on_blocks (readBlockRegion location (rg_Offset region) (rg_Len region))
  end.

Definition FetchBlockHeader (hash : bytes) : IO bytes :=
  FetchBlockRegion (mkRegion hash 0 blockHdrSize).

(** The regions that are not pending are read in the order of their locations. *)
Definition bulkFetchData : Type := blockLocation * nat.
Definition bulk_Less (a b : bulkFetchData) : bool :=
  if l_blockFileNum a.1 <? l_blockFileNum b.1 then true
  else if l_blockFileNum b.1 <? l_blockFileNum a.1 then false
  else l_fileOffset a.1 <? l_fileOffset b.1.

Fixpoint locate_regions (i : nat) (regions : list BlockRegion) : IO (list bytes * list bulkFetchData) :=
  match regions with
  | [] => mret ([], [])
  | region :: regions =>
      regionBytes ← on_tx (fetchPendingRegion region);
      match regionBytes with
      | Some regionBytes =>
          '(found, fetchList) ← locate_regions (S i) regions; mret (regionBytes :: found, fetchList)
      | None =>
          location ← stored_region region;
          '(found, fetchList) ← locate_regions (S i) regions; mret ([] :: found, (location, i) :: fetchList)
      end
  end.

Fixpoint read_regions (regions : list BlockRegion) (fetchList : list bulkFetchData) (blockRegions : list bytes) : IO (list bytes) :=
  match fetchList with
  | [] => mret blockRegions
  | (location, ri) :: fetchList =>
      match regions !! ri with
      | None => panic
      | Some region =>
          regionBytes ← on_blocks (readBlockRegion location (rg_Offset region) (rg_Len region));
          read_regions regions fetchList (<[ri := regionBytes]> blockRegions)
      end
  end.

Definition FetchBlockRegions `{Sorter} (regions : list BlockRegion) : IO (list bytes) :=
  _ ← on_tx checkClosed;
  '(blockRegions, fetchList) ← locate_regions 0 regions;
  read_regions regions (sort_Sort bulk_Less fetchList) blockRegions.

Definition FetchBlockHeaders `{Sorter} (hashes : list bytes) : IO (list bytes) :=
  FetchBlockRegions (map (fun hash => mkRegion hash 0 blockHdrSize) hashes).

(** ** Committing *)

(** The files to prune are closed and deleted first. *)
Fixpoint delete_files (fileNums : list Z) : IO unit :=
  match fileNums with
  | [] => mret tt
  | fileNum :: fileNums =>
      _ ← on_blocks (closeFile fileNum);
      _ ← on_blocks (deleteFile fileNum);
      delete_files fileNums
  end.

(** The error of a step undoes the writes to the block files. *)
Definition or_rollback {A} (oldBlkFileNum oldBlkOffset : Z) (m : IO A) : IO A := fun s fs =>
  match m s fs with
  | (Error e, s, fs) =>
      (_ ← on_blocks (handleRollback oldBlkFileNum oldBlkOffset); throw e) s fs
  | r => r
  end.

Fixpoint write_blocks (oldBlkFileNum oldBlkOffset : Z) (blocks : list pendingBlock) : IO unit :=
  match blocks with
  | [] => mret tt
  | blockData :: blocks =>
      location ← or_rollback oldBlkFileNum oldBlkOffset (on_blocks (writeBlock (pb_bytes blockData)));
      let blockRow := serializeBlockLoc location in
      _ ← or_rollback oldBlkFileNum oldBlkOffset (on_tx (bucket_Put blockIdxBucketID (pb_hash blockData) (Some blockRow)));
      write_blocks oldBlkFileNum oldBlkOffset blocks
  end.

Definition writePendingAndCommit : IO unit :=
  s ← get;
  _ ← delete_files (tx_pendingDelFileNums (ss_tx s));
  s ← get;
  let oldBlkFileNum := s_curFileNum (the_store s) in
  let oldBlkOffset := s_curOffset (the_store s) in
  _ ← write_blocks oldBlkFileNum oldBlkOffset (tx_pendingBlockData (ss_tx s));
  s ← get;
  let writeRow := serializeWriteRow (s_curFileNum (the_store s)) (s_curOffset (the_store s)) in
  _ ← or_rollback oldBlkFileNum oldBlkOffset (on_tx (bucket_Put metadataBucketID writeLocKeyName (Some writeRow)));
  s ← get;
  let tx := ss_tx s in
  on_cache (commitTx (tx_snapshot tx) (km_entries (tx_pendingKeys tx)) (km_entries (tx_pendingRemove tx))).

(** [close]; the snapshot is released. *)
Definition tx_close (tx : transaction) : transaction :=
  mkTx (tx_managed tx) true (tx_writable tx) (tx_snapshot tx) ∅ [] [] km_empty km_empty.
Definition close : IO unit := s ← get; put (set_tx (tx_close (ss_tx s)) s).

(** A deferred [close]: it runs after an error and after a panic. *)
Definition and_close {A} (m : IO A) : IO A := fun s fs =>
  match m s fs with
  | (Exit, s, fs) => (Exit, s, fs)
  | (o, s, fs) => (o, set_tx (tx_close (ss_tx s)) s, fs)
  end.

Definition Commit : IO unit :=
  s ← get;
  if tx_managed (ss_tx s) then _ ← close; panic
  else
    _ ← on_tx checkClosed;
    and_close
      (if negb (tx_writable (ss_tx s)) then throw ErrTxNotWritable else writePendingAndCommit).

Definition Rollback : IO unit :=
  s ← get;
  if tx_managed (ss_tx s) then _ ← close; panic
  else _ ← on_tx checkClosed; close.

(** ** The database *)

Definition begin (writable : bool) : Eff db transaction :=
  d ← get;
  if db_closed d then throw ErrDbNotOpen
  else
    snapshot ← zoom db_cache set_cache Snapshot;
    mret (mkTx false false writable snapshot ∅ [] [] km_empty km_empty).

Definition set_managed (b : bool) (s : session) : session :=
  let tx := ss_tx s in
  set_tx (mkTx b (tx_closed tx) (tx_writable tx) (tx_snapshot tx) (tx_pendingBlocks tx) (tx_pendingBlockData tx)
            (tx_pendingDelFileNums tx) (tx_pendingKeys tx) (tx_pendingRemove tx)) s.

(** [View] and [Update]: the function runs in a managed transaction, which is
    rolled back when it fails or panics, and finished by [last] otherwise. *)
Definition managed_run (writable : bool) (fn last : IO unit) : Eff db unit := fun d fs =>
  match begin writable d fs with
  | (Val tx, d, fs) =>
      match fn (set_managed true (mkSession d tx)) fs with
      | (Val _, s, fs) => let '(o, s, fs) := last (set_managed false s) fs in (o, ss_db s, fs)
      | (Error e, s, fs) => let '(_, s, fs) := Rollback (set_managed false s) fs in (Error e, ss_db s, fs)
      | (Panic, s, fs) => let '(_, s, fs) := Rollback (set_managed false s) fs in (Panic, ss_db s, fs)
      | (Exit, s, fs) => (Exit, ss_db s, fs)
      end
  | (Error e, d, fs) => (Error e, d, fs)
  | (Exit, d, fs) => (Exit, d, fs)
  | (Panic, d, fs) => (Panic, d, fs)
  end.
Definition View (fn : IO unit) : Eff db unit := managed_run false fn Rollback.
Definition Update (fn : IO unit) : Eff db unit := managed_run true fn Commit.

(** The files that are open are closed even when the cache reports an error. *)
Definition close_files (s : blockStore) : blockStore :=
  set_open (set_cursor s None (s_curFileNum s) (s_curOffset s)) ∅ [].
Definition Close : Eff db unit :=
  d ← get;
  if db_closed d then throw ErrDbNotOpen
  else
    _ ← put (mkDb true (db_cache d));
    e ← attempt (zoom db_cache set_cache cache_Close);
    d ← get;
    _ ← put (set_cache (set_store (close_files (ca_store (db_cache d))) (db_cache d)) d);
    match e with Some err => throw err | None => mret tt end.

(** ** Opening *)

(** What is on disk: the block files, and the metadata if there are any. *)
Record disk : Type := mkDisk { dk_files : gmap Z bytes; dk_metadata : option L }.

Definition init_ops : list batch_op :=
  [BatchPut (bucketizedKey metadataBucketID writeLocKeyName) (serializeWriteRow 0 0);
   BatchPut (bucketIndexKey metadataBucketID blockIdxBucketName) blockIdxBucketID;
   BatchPut curBucketIDKeyName blockIdxBucketID].
Definition initDB : Eff dbCache unit :=
  _ ← ldb_call;
  c ← get;
  put (set_ldb (ldb_write (ca_ldb c) init_ops) c).

(** The read of the row, in a transaction that is only opened and closed. *)
Definition read_write_row : Eff db (Z * Z) :=
  tx ← begin false;
  match bucket_Get tx metadataBucketID writeLocKeyName with
  | None => throw ErrCorruption
  | Some writeRow =>
      match deserializeWriteRow writeRow with
      | None => panic
      | Some (Err e) => throw e
      | Some (Ok pos) => mret pos
      end
  end.

Definition reconcileDB (create : bool) : Eff db unit :=
  _ ← (if create then zoom db_cache set_cache initDB else mret tt);
  '(curFileNum, curOffset) ← read_write_row;
  d ← get;
  let wc := ca_store (db_cache d) in
  _ ← (if (curFileNum <? s_curFileNum wc) || (s_curFileNum wc =? curFileNum) && (curOffset <? s_curOffset wc)
       then zoom db_cache set_cache (on_store (handleRollback curFileNum curOffset)) else mret tt);
  d ← get;
  let wc := ca_store (db_cache d) in
  if (s_curFileNum wc <? curFileNum) || (s_curFileNum wc =? curFileNum) && (s_curOffset wc <? curOffset)
  then throw ErrCorruption else mret tt.

Definition openDB (dk : disk) (network : Z) (create : bool) (now : Z) (fs : list fault) : outcome unit * option db * list fault :=
  let dbExists := if dk_metadata dk is Some _ then true else false in
  if negb create && negb dbExists then (Error ErrDbDoesNotExist, None, fs)
  else if create && dbExists then (Error ErrDriverSpecific, None, fs)      (* ErrorIfExist: [os.ErrExist], converted *)
  else
    let ldb := default ldb_new (dk_metadata dk) in
    let store := newBlockStore (dk_files dk) network in
    let d := mkDb false (newDbCache ldb store defaultCacheSize defaultFlushSecs now) in
    match (_ ← zoom db_cache set_cache ldb_call; reconcileDB create) d fs with
    | (o, d, fs) => (o, Some d, fs)
    end.

(** What a crash leaves on disk. *)
Definition crash (d : db) : disk := mkDisk (s_files (ca_store (db_cache d))) (Some (ca_ldb (db_cache d))).
End sessions.
