(* ===== verification/DbCommit.v ===== *)
(** * Committing blocks: what the database promises of its blocks

    The relation between the files, the metadata and the blocks of a database, and
    the proof that a commit keeps it whatever the file system and the metadata
    database do. *)

From Stdlib Require Import ZArith Lia.
From stdpp Require Import sorting.
From S2P Require Import Prelude WireCommon WireTx WireBlock KeyMap DbEffects BlockStore BlockLog DbCache DbTx DbBlocks.

Open Scope Z_scope.

(** * Specification *)

Definition index_key (hash : bytes) : bytes := bucketizedKey blockIdxBucketID hash.
Definition row_key : bytes := bucketizedKey metadataBucketID writeLocKeyName.

(** The index rows of the metadata lead to the blocks [B], by hash, all before the
    position [p] of the files. *)
Record blocks_at (s : blockStore) (m : gmap bytes bytes) (p : position) (B : gmap bytes bytes) : Prop := {
  ba_block : forall hash raw, B !! hash = Some raw ->
    exists loc, m !! index_key hash = Some (serializeBlockLoc loc) /\ stored s loc raw /\ 0 <= l_blockFileNum loc /\
      pos_le (loc_end loc) p /\ len raw + 12 < 2 ^ 32;
  ba_none : forall hash, hash <> [] -> B !! hash = None -> m !! index_key hash = None;
  ba_named : B !! [] = None;
}.

(** The position is in the files: at the start, or in a file that exists. *)
Record in_files (s : blockStore) (p : position) : Prop := {
  if_num : 0 <= p.1 < 2 ^ 32;
  if_off : 0 <= p.2 < 2 ^ 32;
  if_inside : p.2 <= len (content s p.1);
  if_exists : p = (0, 0) \/ is_Some (s_files s !! p.1);
}.

(** Metadata with a write row that the files bear out. *)
Definition consistent (s : blockStore) (m : gmap bytes bytes) (p : position) (B : gmap bytes bytes) : Prop :=
  m !! row_key = Some (serializeWriteRow p.1 p.2) /\ in_files s p /\ blocks_at s m p B.

(** The names of the files have nine digits. *)
Definition maxFiles : Z := 10 ^ 9.
Definition numbered (s : blockStore) : Prop := forall n, is_Some (s_files s !! n) -> 0 <= n < maxFiles.

(** * Proofs *)

Lemma writeRow_read p : 0 <= p.1 < 2 ^ 32 -> 0 <= p.2 < 2 ^ 32 ->
  deserializeWriteRow (serializeWriteRow p.1 p.2) = Some (Ok p).
Proof.
  destruct p as [n o]. cbn [fst snd]. intros Hn Ho. unfold deserializeWriteRow, serializeWriteRow. cbv zeta.
  set (head := le_put 4 n ++ le_put 4 o). set (crc := le_put 4 (crc32c head)).
  assert (Hh : len head = 8) by (unfold head; rewrite len_app, !len_le_put; lia).
  assert (Hc : len crc = 4) by (unfold crc; by rewrite len_le_put).
  rewrite len_app, Hh, Hc. destruct (Z.ltb_spec (8 + 4) 12); [lia|].
  assert (bytes_at (head ++ crc) 0 8 = head) as -> by (rewrite <- Hh; exact (bytes_at_app [] head crc)).
  assert (bytes_at (head ++ crc) 8 4 = crc) as ->.
  { rewrite <- Hh at 1. rewrite <- Hc at 1. pose proof (bytes_at_app head crc []) as H'. by rewrite app_nil_r in H'. }
  unfold crc at 1. rewrite le_get_put by apply crc32c_range. rewrite Z.eqb_refl. cbn [negb]. unfold head.
  rewrite <- app_assoc.
  assert (bytes_at (le_put 4 n ++ le_put 4 o ++ crc) 0 4 = le_put 4 n) as -> by apply (bytes_at_app [] (le_put 4 n)).
  assert (bytes_at (le_put 4 n ++ le_put 4 o ++ crc) 4 4 = le_put 4 o) as -> by apply (bytes_at_app (le_put 4 n) (le_put 4 o)).
  rewrite !le_get_put by (change (256 ^ Z.of_nat 4) with (2 ^ 32); lia). done.
Qed.

(** ** The relation is kept *)

Lemma blocks_kept s s' m p q B : blocks_at s m p B -> pos_le p q -> kept q s s' -> blocks_at s' m p B.
Proof.
  intros [Hb Hn He] Hle Hk. split; [|done|done]. intros hash raw H. destruct (Hb _ _ H) as (loc & Hm & Hst & Hpos & Hend & Hlen).
  exists loc. split_and!; try done. eapply stored_kept; [done|by eapply pos_le_trans|done].
Qed.

Lemma in_files_kept s s' p q : in_files s p -> pos_le p q -> kept q s s' -> in_files s' p.
Proof.
  destruct p as [pn po], q as [qn qo]. intros [Hn Ho Hi He] Hle [Ha Hp Hx _]. unfold pos_le in Hle. cbn in *.
  destruct Hle as [Hlt|[-> Hle]].
  - split; cbn; [done|done| |]; unfold content in *; by rewrite Ha.
  - split; cbn; [done|done| |destruct He; auto]. apply (f_equal length) in Hp. rewrite !length_take in Hp. unfold len in *. lia.
Qed.

Lemma consistent_kept s s' m p q B : consistent s m p B -> pos_le p q -> kept q s s' -> consistent s' m p B.
Proof. intros (H1 & H2 & H3) Hle Hk. split_and!; [done|by eapply in_files_kept|by eapply blocks_kept]. Qed.

Lemma blocks_later s m p q B : blocks_at s m p B -> pos_le p q -> blocks_at s m q B.
Proof.
  intros [Hb Hn He] Hle. split; [|done|done]. intros hash raw H. destruct (Hb _ _ H) as (loc & ? & ? & ? & ? & ?).
  exists loc. split_and!; try done. by eapply pos_le_trans.
Qed.

Lemma index_key_inj h h' : index_key h = index_key h' -> h = h'.
Proof. apply app_inj_1. done. Qed.
Lemma index_row_key h : index_key h <> row_key.
Proof. intros H. apply app_inj_1 in H as [H _]; [discriminate|done]. Qed.

(** A block more. *)
Lemma blocks_insert s m p B hash raw loc :
  blocks_at s m p B -> hash <> [] -> stored s loc raw -> 0 <= l_blockFileNum loc -> pos_le (loc_end loc) p -> len raw + 12 < 2 ^ 32 ->
  blocks_at s (<[index_key hash := serializeBlockLoc loc]> m) p (<[hash := raw]> B).
Proof.
  intros [Hb Hn He] Hne Hst Hnum Hend Hlen. split.
  - intros h r H. apply lookup_insert_Some in H as [[<- <-]|[Hd H]].
    + exists loc. by rewrite lookup_insert_eq.
    + destruct (Hb _ _ H) as (l & Hm & ?). exists l. rewrite lookup_insert_ne; [done|]. intros E. by apply index_key_inj in E.
  - intros h Hh H. apply lookup_insert_None in H as [H Hd]. rewrite lookup_insert_ne; [by apply Hn|]. intros E. by apply index_key_inj in E.
  - by rewrite lookup_insert_ne.
Qed.

(** Other keys do not matter. *)
Lemma blocks_other s m m' p B : blocks_at s m p B -> (forall h, m' !! index_key h = m !! index_key h) -> blocks_at s m' p B.
Proof. intros [Hb Hn He] H. split; [|intros h; rewrite H; apply Hn|done]. intros h r. rewrite H. apply Hb. Qed.

(** ** Whole files *)

Lemma bounded_len s n : bounded s -> 0 <= s_maxBlockFileSize s -> len (content s n) <= s_maxBlockFileSize s.
Proof. intros Hb Hm. unfold content. destruct (s_files s !! n) eqn:E; [by eapply Hb|done]. Qed.
Lemma shrunk_bounded pn s s' : shrunk pn s s' -> bounded s -> 0 <= s_maxBlockFileSize s -> s_maxBlockFileSize s' = s_maxBlockFileSize s -> bounded s'.
Proof.
  intros [Hsub Hlen] Hb Hm Hmx n x Hx. rewrite Hmx. destruct (Z.eq_dec n pn) as [->|Hne]; [|by eapply Hb, Hsub].
  pose proof (bounded_len s pn Hb Hm). unfold content at 1 in Hlen. rewrite Hx in Hlen. cbn in Hlen. lia.
Qed.
Lemma shrunk_numbered pn s s' : shrunk pn s s' -> numbered s -> 0 <= pn < maxFiles -> numbered s'.
Proof.
  intros [Hsub _] Hn Hpn n [x Hx]. destruct (Z.eq_dec n pn) as [->|Hne]; [done|]. apply Hn. exists x. by apply Hsub.
Qed.
Lemma cursor_number s : numbered s -> in_files s (cursor s) -> s_curFileNum s < maxFiles.
Proof.
  intros Hn [_ _ _ He]. destruct He as [[= He _]|He]; [unfold maxFiles; lia|]. by apply (Hn _ He).
Qed.


(** ** Sessions *)

Section commits.
Context {L P C : Type} `{!LevelDB L, !KeyMap P, !KeyMap C, !LevelDBLaws L, !KeyMapLaws P, !KeyMapLaws C}.
Abbreviation dbCache := (@dbCache L C).
Abbreviation session := (@session L P C).
Implicit Types (ses : session) (c : dbCache).

Definition with_store (st : blockStore) ses : session :=
  mkSession (set_cache (set_store st (db_cache (ss_db ses))) (ss_db ses)) (ss_tx ses).

Lemma wp_on_blocks {A} (m : Eff blockStore A) ses fs Q :
  wp m (the_store ses) fs (fun o st fs' => Q o (with_store st ses) fs') -> wp (on_blocks m) ses fs Q.
Proof. intros H. by apply wp_zoom, wp_zoom. Qed.

Lemma wp_on_tx {A} (m : Eff transaction A) ses fs Q :
  wp m (ss_tx ses) fs (fun o tx fs' => Q o (set_tx tx ses) fs') -> wp (on_tx m) ses fs Q.
Proof. intros H. by apply wp_zoom. Qed.

Lemma wp_or_rollback {A} n off (m : Eff session A) ses fs (Q : outcome A -> session -> list fault -> Prop) :
  wp m ses fs (fun o ses' fs' => match o with
    | Error e => wp (handleRollback n off) (the_store ses') fs' (fun o2 st fs2 => o2 = Val tt /\ Q (Error e) (with_store st ses') fs2)
    | _ => Q o ses' fs'
    end) -> wp (or_rollback n off m) ses fs Q.
Proof.
  unfold or_rollback, wp at 1 3. destruct (m ses fs) as [[[a|e| |] ses'] fs']; try done. intros H.
  apply wp_bind, wp_on_blocks. apply (wp_mono _ _ _ _ _ H). by intros o2 st fs2 [-> HQ].
Qed.

(** A session that differs from the first one in its files, none of which has lost
    anything before the first cursor. *)
Record torn ses0 ses : Prop := {
  to_kept : kept (cursor (the_store ses0)) (the_store ses0) (the_store ses);
  to_bounded : bounded (the_store ses);
  to_numbered : numbered (the_store ses);
  to_max : s_maxBlockFileSize (the_store ses) = s_maxBlockFileSize (the_store ses0);
  to_cache : db_cache (ss_db ses) = set_store (the_store ses) (db_cache (ss_db ses0));
  to_closed : db_closed (ss_db ses) = db_closed (ss_db ses0);
  to_tx : same_tx (ss_tx ses0) (ss_tx ses);
}.

(** In the middle of a commit: the rows written so far lead to blocks on disk. *)
Record writing ses0 (B : gmap bytes bytes) ses : Prop := {
  wr_torn : torn ses0 ses;
  wr_ok : store_ok (the_store ses);
  wr_pos : pos_le (cursor (the_store ses0)) (cursor (the_store ses));
  wr_files : in_files (the_store ses) (cursor (the_store ses));
  wr_blocks : blocks_at (the_store ses) (tx_view (ss_tx ses)) (cursor (the_store ses)) B;
  wr_row : tx_view (ss_tx ses) !! row_key = tx_view (ss_tx ses0) !! row_key;
}.

(** After an error the cursor is back. *)
Definition rolled_back ses0 ses : Prop :=
  torn ses0 ses /\ store_ok (the_store ses) /\ cursor (the_store ses) = cursor (the_store ses0).

(** Rolling back to the cursor of the first session. *)
Lemma rollback_torn ses0 ses fs :
  torn ses0 ses -> store_ok (the_store ses0) -> store_ok (the_store ses) -> in_files (the_store ses0) (cursor (the_store ses0)) ->
  s_curFileNum (the_store ses0) < maxFiles ->
  pos_le (cursor (the_store ses0)) (cursor (the_store ses)) ->
  wp (handleRollback (s_curFileNum (the_store ses0)) (s_curOffset (the_store ses0))) (the_store ses) fs
    (fun o st _ => o = Val tt /\ rolled_back ses0 (with_store st ses)).
Proof.
  intros [Hk Hb Hn Hmx Hc Hcl Htx] Hok0 Hok Hin0 Hnum Hle.
  destruct (in_files_kept _ _ _ _ Hin0 (pos_le_refl _) Hk) as [H1 H2 H3 _].
  apply (wp_mono _ _ _ _ _ (handleRollback_spec (cursor (the_store ses0)) (the_store ses) fs Hok (proj1 H1) H2 Hle H3)).
  intros o st fs' (-> & Hok' & Hk' & Hcur & _ & Hmx' & Hshr & _). split; [done|].
  split; [|by split]. split; cbn.
  - eapply kept_trans; [done|done|apply pos_le_refl|apply H2].
  - eapply shrunk_bounded; [done|done|apply Hok|done].
  - eapply shrunk_numbered; [done|done|]. cbn in H1 |- *. lia.
  - congruence.
  - by rewrite Hc.
  - done.
  - done.
Qed.

Definition add_blocks (B : gmap bytes bytes) (blocks : list pendingBlock) : gmap bytes bytes :=
  foldl (fun B b => <[pb_hash b := pb_bytes b]> B) B blocks.

(** What may be written: a hash, and a block that fits a file. *)
Definition writable_block (s : blockStore) (b : pendingBlock) : Prop :=
  pb_hash b <> [] /\ len (pb_bytes b) + 12 <= s_maxBlockFileSize s.

Lemma write_blocks_spec ses0 blocks : forall B ses fs,
  store_ok (the_store ses0) -> in_files (the_store ses0) (cursor (the_store ses0)) ->
  tx_closed (ss_tx ses0) = false -> tx_writable (ss_tx ses0) = true ->
  Forall (writable_block (the_store ses0)) blocks -> s_curFileNum (the_store ses0) < maxFiles ->
  s_curFileNum (the_store ses) + Z.of_nat (length blocks) < maxFiles -> writing ses0 B ses ->
  wp (write_blocks (s_curFileNum (the_store ses0)) (s_curOffset (the_store ses0)) blocks) ses fs (fun o ses' fs' =>
    match o with
    | Val _ => writing ses0 (add_blocks B blocks) ses'
    | Error _ => rolled_back ses0 ses'
    | Exit => torn ses0 ses'
    | Panic => False
    end).
Proof.
  induction blocks as [|b blocks IH]; intros B ses fs Hok0 Hin0 Hopen Hw Hall Hm0 Hnum Hwr; cbn [write_blocks]; [done|].
  apply list.Forall_cons in Hall as [[Hhash Hlen] Hall].
  destruct Hwr as [Ht Hok Hpos Hin Hblk Hrow]. pose proof Ht as [Hk Hb Hnb Hmx Hc Hcl Htx].
  assert (Hlen' : len (pb_bytes b) + 12 <= s_maxBlockFileSize (the_store ses)) by (rewrite Hmx; done).
  pose proof (so_max _ Hok) as Hmax. pose proof (so_num _ Hok) as Hnum0. unfold maxFiles in Hnum, Hm0.
  cbn [length] in Hnum.
  apply wp_bind, wp_or_rollback, wp_on_blocks.
  pose proof (writeBlock_any (the_store ses) (pb_bytes b) fs Hok ltac:(lia) ltac:(lia)) as Hany.
  pose proof (writeBlock_files (the_store ses) (pb_bytes b) fs Hok Hlen' ltac:(lia)) as Hfiles.
  unfold wp in Hany, Hfiles |- * at 1. destruct (writeBlock (pb_bytes b) (the_store ses) fs) as [[o st] fs1].
  destruct Hany as (Hok1 & Hk1 & Hp1 & Hn1 & Hnp & _ & Hloc), Hfiles as (Hb1 & Hmx1 & Hf1 & Hv1).
  assert (Ht1 : torn ses0 (with_store st ses)).
  { split; cbn; [eapply kept_trans; [done|done|done|apply Hok0]|by apply Hb1| |congruence|by rewrite Hc|done|done].
    intros n Hn. destruct (Hf1 n Hn) as [H | ->]; [by apply Hnb|]. unfold maxFiles. pose proof (so_num _ Hok1). lia. }
  assert (Hp01 : pos_le (cursor (the_store ses0)) (cursor st)) by (eapply pos_le_trans; done).
  destruct o as [loc|e| |]; [|by apply rollback_torn|done|done].
  destruct (Hloc loc eq_refl) as (Hst & Hend & Hple). specialize (Hv1 I).
  apply wp_bind, wp_or_rollback, wp_on_tx.
  pose proof (bucket_Put_spec blockIdxBucketID (pb_hash b) (Some (serializeBlockLoc loc)) (ss_tx ses) fs1) as Hput.
  change (ss_tx (with_store st ses)) with (ss_tx ses).
  apply (wp_mono _ _ _ _ _ Hput). intros o tx fs2 H. unfold put_post in H.
  rewrite (st_closed _ _ Htx), (st_writable _ _ Htx), Hopen, Hw in H. cbn [negb] in H. rewrite bool_decide_false in H by done.
  destruct H as (-> & Hst2 & Hview & ->). cbn [default from_option id] in Hview.
  apply IH; [done|done|done|done|done|unfold maxFiles; lia|cbn; unfold maxFiles; lia|].
  split; cbn [the_store with_store set_tx ss_db db_cache set_cache ca_store set_store ss_tx].
  - destruct Ht1 as [Ta Tb Tc Td Te Tf Tg]. split; cbn in *; [done..|]. by eapply same_tx_trans.
  - exact Hok1.
  - exact Hp01.
  - split; cbn; [apply Hok1|apply Hok1|apply Hok1|by right].
  - rewrite Hview. apply blocks_insert; [|done|done| |by rewrite Hend; apply pos_le_refl|lia].
    + eapply blocks_later; [by eapply blocks_kept; [|apply pos_le_refl|]|done].
    + destruct Hple as [Hx|[Hx _]]; cbn in Hx; lia.
  - rewrite Hview, lookup_insert_ne by apply index_row_key. exact Hrow.
Qed.

(** ** The whole commit *)

(** A database that holds the blocks [B], of which a crash would leave [B0]. *)
Record db_ok c (B B0 : gmap bytes bytes) : Prop := {
  dk_store : store_ok (ca_store c);
  dk_bounded : bounded (ca_store c);
  dk_numbered : numbered (ca_store c);
  dk_cursor : in_files (ca_store c) (cursor (ca_store c));
  dk_view : exists p, consistent (ca_store c) (view c) p B /\ pos_le p (cursor (ca_store c));
  dk_persisted : exists p, consistent (ca_store c) (persisted c) p B0 /\ pos_le p (cursor (ca_store c));
}.

(** Files and metadata that a database can be opened from. *)
Record recoverable c (B0 : gmap bytes bytes) : Prop := {
  rc_bounded : bounded (ca_store c);
  rc_numbered : numbered (ca_store c);
  rc_persisted : exists p, consistent (ca_store c) (persisted c) p B0;
}.

(** A write transaction that began in this state of the cache, has not touched the
    index or the write row, and has room for its blocks. *)
Record tx_ready c (tx : @transaction L P C) : Prop := {
  tr_managed : tx_managed tx = false;
  tr_open : tx_closed tx = false;
  tr_writable : tx_writable tx = true;
  tr_snapshot : snapshot_view (tx_snapshot tx) = view c;
  tr_index : forall h, tx_view tx !! index_key h = view c !! index_key h;
  tr_row : tx_view tx !! row_key = view c !! row_key;
  tr_files : tx_pendingDelFileNums tx = [];
  tr_blocks : Forall (writable_block (ca_store c)) (tx_pendingBlockData tx);
  tr_room : s_curFileNum (ca_store c) + Z.of_nat (length (tx_pendingBlockData tx)) < maxFiles;
}.

(** The network and the size of the files do not change. *)
Definition same_config c c' : Prop :=
  s_network (ca_store c') = s_network (ca_store c) /\ s_maxBlockFileSize (ca_store c') = s_maxBlockFileSize (ca_store c).

Definition commit_post c B B0 blocks (o : outcome unit) c' : Prop :=
  same_config c c' /\
  exists B', (B' = B0 \/ B' = B \/ B' = add_blocks B blocks /\ o = Val tt) /\
  match o with
  | Val _ => db_ok c' (add_blocks B blocks) B'
  | Error _ => db_ok c' B B'
  | Exit => recoverable c' B'
  | Panic => False
  end.

Lemma persisted_torn ses0 ses : torn ses0 ses ->
  view (db_cache (ss_db ses)) = view (db_cache (ss_db ses0)) /\ persisted (db_cache (ss_db ses)) = persisted (db_cache (ss_db ses0)).
Proof. intros Ht. by rewrite (to_cache _ _ Ht). Qed.

Lemma torn_config ses0 ses : torn ses0 ses -> same_config (db_cache (ss_db ses0)) (db_cache (ss_db ses)).
Proof. intros Ht. split; [apply (kp_network _ _ _ (to_kept _ _ Ht))|apply Ht]. Qed.

(** What an unfinished commit leaves. *)
Lemma torn_recoverable ses0 ses B B0 : db_ok (db_cache (ss_db ses0)) B B0 -> torn ses0 ses -> recoverable (db_cache (ss_db ses)) B0.
Proof.
  intros [_ _ _ _ _ (p & Hp & Hle)] Ht. pose proof (persisted_torn _ _ Ht) as [_ Hper]. split; [apply Ht|apply Ht|].
  exists p. rewrite Hper. eapply consistent_kept; [done|done|apply Ht].
Qed.

Lemma torn_db_ok ses0 ses B B0 :
  db_ok (db_cache (ss_db ses0)) B B0 -> torn ses0 ses -> store_ok (the_store ses) ->
  pos_le (cursor (the_store ses0)) (cursor (the_store ses)) -> in_files (the_store ses) (cursor (the_store ses)) ->
  db_ok (db_cache (ss_db ses)) B B0.
Proof.
  intros [_ _ _ _ (pv & Hv & Hvle) (p & Hp & Hle)] Ht Hok Hpos Hin. pose proof (persisted_torn _ _ Ht) as [Hview Hper].
  split; [done|apply Ht|apply Ht|done| |].
  - exists pv. rewrite Hview. split; [|by eapply pos_le_trans]. eapply consistent_kept; [done|done|apply Ht].
  - exists p. rewrite Hper. split; [|by eapply pos_le_trans]. eapply consistent_kept; [done|done|apply Ht].
Qed.

Lemma consistent_same s s' m p B : consistent s m p B -> s' = s -> consistent s' m p B.
Proof. by intros H ->. Qed.

(** The last step: the metadata. *)
Lemma commitTx_post ses0 ses B B0 blocks m1 snap pk pr fs :
  db_ok (db_cache (ss_db ses0)) B B0 -> torn ses0 ses -> store_ok (the_store ses) ->
  pos_le (cursor (the_store ses0)) (cursor (the_store ses)) -> in_files (the_store ses) (cursor (the_store ses)) ->
  sorted_keys pk -> sorted_keys pr ->
  m1 = overlay (view (db_cache (ss_db ses0))) (pairs_map pk) (pairs_map pr) ->
  consistent (the_store ses) m1 (cursor (the_store ses)) (add_blocks B blocks) ->
  wp (commitTx snap pk pr) (db_cache (ss_db ses)) fs (fun o c' _ => commit_post (db_cache (ss_db ses0)) B B0 blocks o c').
Proof.
  intros Hdb Ht Hok Hpos Hin Hpk Hpr Hm1 Hcon.
  pose proof (torn_db_ok _ _ _ _ Hdb Ht Hok Hpos Hin) as [_ Hb Hn _ (pv & Hv & Hvle) (p & Hp & Hle)].
  pose proof (persisted_torn _ _ Ht) as [Hview _].
  apply (wp_mono _ _ _ _ _ (commitTx_spec snap pk pr _ fs Hpk Hpr)).
  intros o c' fs' ([Hst _ _ _] & Hnp & Hval & Hne & Hper & _).
  change (the_store ses) with (ca_store (db_cache (ss_db ses))) in *.
  assert (Hcase : exists B', (B' = B0 \/ B' = B \/ B' = add_blocks B blocks /\ o = Val tt) /\
    exists q, consistent (ca_store c') (persisted c') q B' /\ pos_le q (cursor (ca_store c'))).
  { rewrite Hst. destruct Hper as [-> | [-> | ->]].
    - exists B0. split; [by left|]. by exists p.
    - exists B. split; [by right; left|]. by exists pv.
    - destruct o as [[]|e| |]; [| | |done].
      + exists (add_blocks B blocks). split; [by right; right|]. exists (cursor (ca_store (db_cache (ss_db ses)))).
        rewrite Hval, Hview, <- Hm1 by done. split; [done|apply pos_le_refl].
      + exists B. split; [by right; left|]. exists pv. by rewrite Hne.
      + exists B. split; [by right; left|]. exists pv. by rewrite Hne. }
  destruct Hcase as (B' & HB' & q & Hq & Hqle). split; [unfold same_config; rewrite Hst; by apply torn_config|].
  exists B'. split; [done|].
  destruct o as [[]|e| |]; [| | |done].
  - split; rewrite ?Hst in *; [done..| |by exists q]. exists (cursor (ca_store (db_cache (ss_db ses)))).
    rewrite Hval, Hview, <- Hm1 by done. split; [done|apply pos_le_refl].
  - split; rewrite ?Hst in *; [done..| |by exists q]. exists pv. by rewrite Hne.
  - split; rewrite ?Hst in *; [done..|]. by exists q.
Qed.

Lemma entries_map {T} `{!KeyMap T, !KeyMapLaws T} (t : T) : pairs_map (km_entries t) = km_view t.
Proof. apply km_entries_view. Qed.

Lemma writePendingAndCommit_spec ses B B0 fs :
  db_ok (db_cache (ss_db ses)) B B0 -> tx_ready (db_cache (ss_db ses)) (ss_tx ses) ->
  wp writePendingAndCommit ses fs (fun o ses' _ =>
    commit_post (db_cache (ss_db ses)) B B0 (tx_pendingBlockData (ss_tx ses)) o (db_cache (ss_db ses')) /\
    db_closed (ss_db ses') = db_closed (ss_db ses)).
Proof.
  intros Hdb [Hmg Hopen Hw Hsnap Hidx Hrow Hdel Hall Hroom]. pose proof Hdb as [Hok Hb Hn Hin (pv & Hv & Hvle) _].
  pose proof (so_num _ Hok) as Hnum. unfold writePendingAndCommit. apply wp_get. rewrite Hdel. cbn [delete_files].
  apply wp_bind, wp_ret, wp_get, wp_bind. change (ca_store (db_cache (ss_db ses))) with (the_store ses) in *.
  assert (Ht0 : torn ses ses) by (split; [by apply kept_refl|done|done|done|by destruct ses as [[? []] ?]|done|by split]).
  assert (Hwr : writing ses B ses).
  { split; [done|done|apply pos_le_refl|done| |done]. eapply blocks_other; [|done]. eapply blocks_later; [|done]. apply Hv. }
  apply (wp_mono _ _ _ _ _ (write_blocks_spec ses _ B ses fs Hok Hin Hopen Hw Hall ltac:(lia) Hroom Hwr)).
  intros o ses1 fs1 H. destruct o as [[]|e| |]; [| | |done].
  2: { destruct H as (Ht & Hok1 & Hcur). split; [|apply Ht]. split; [by apply torn_config|]. exists B0. split; [by left|].
       apply (torn_db_ok ses); [done|done|done|rewrite Hcur; apply pos_le_refl|]. rewrite Hcur.
       eapply in_files_kept; [done|apply pos_le_refl|apply Ht]. }
  2: { split; [|apply H]. split; [by apply torn_config|]. exists B0. split; [by left|]. by apply (torn_recoverable ses ses1 B). }
  destruct H as [Ht Hok1 Hpos Hin1 Hblk Hrow1]. apply wp_get, wp_bind, wp_or_rollback, wp_on_tx.
  apply (wp_mono _ _ _ _ _ (bucket_Put_spec metadataBucketID writeLocKeyName _ (ss_tx ses1) fs1)).
  intros o tx fs2 H. unfold put_post in H. pose proof (to_tx _ _ Ht) as Htx.
  rewrite (st_closed _ _ Htx), (st_writable _ _ Htx), Hopen, Hw in H. cbn [negb] in H. rewrite bool_decide_false in H by done.
  destruct H as (-> & Hst & Hview & ->). cbn [default from_option id] in Hview. apply wp_get.
  set (ses2 := set_tx tx ses1). cbv zeta.
  assert (Ht2 : torn ses ses2).
  { destruct Ht as [Ta Tb Tc Td Te Tf Tg]. split; cbn in *; [done..|]. by eapply same_tx_trans. }
  apply wp_zoom. cbn beta.
  eapply wp_mono; [apply (commitTx_post ses ses2 B B0 (tx_pendingBlockData (ss_tx ses)) (tx_view tx)); try done; try apply km_entries_sorted|].
  - rewrite !entries_map. unfold tx_view. cbn [ss_tx set_tx ses2].
    rewrite (st_writable _ _ Hst), (st_writable _ _ Htx), Hw, (st_snapshot _ _ Hst), (st_snapshot _ _ Htx), Hsnap. done.
  - split_and!; [|done|].
    + rewrite Hview. apply lookup_insert_eq.
    + rewrite Hview. eapply blocks_other; [done|]. intros h. rewrite lookup_insert_ne; [done|]. intros E. by apply (index_row_key h).
  - intros o c' fs' H. split; [done|]. apply Ht2.
Qed.
End commits.

(** * The correctness of committing and of reading back *)

Section theorems.
Context {L P C : Type} `{!LevelDB L, !KeyMap P, !KeyMap C, !LevelDBLaws L, !KeyMapLaws P, !KeyMapLaws C}.
Implicit Types (ses : @session L P C).

Lemma Commit_spec ses B B0 fs : db_ok (db_cache (ss_db ses)) B B0 -> tx_ready (db_cache (ss_db ses)) (ss_tx ses) ->
  wp Commit ses fs (fun o ses' _ =>
    commit_post (db_cache (ss_db ses)) B B0 (tx_pendingBlockData (ss_tx ses)) o (db_cache (ss_db ses')) /\
    db_closed (ss_db ses') = db_closed (ss_db ses) /\ (o <> Exit -> tx_closed (ss_tx ses') = true)).
Proof.
  intros Hdb Htx. unfold Commit. apply wp_get. rewrite (tr_managed _ _ Htx). apply wp_bind, wp_on_tx. unfold checkClosed. apply wp_get.
  rewrite (tr_open _ _ Htx). apply wp_ret. assert (set_tx (ss_tx ses) ses = ses) as -> by (by destruct ses).
  rewrite (tr_writable _ _ Htx). cbn [negb]. pose proof (writePendingAndCommit_spec ses B B0 fs Hdb Htx) as H.
  unfold and_close, wp in *. destruct (writePendingAndCommit ses fs) as [[[[]|e| |] s1] fs1]; destruct H as [H ?]; by split_and!.
Qed.

(** C23: C: [Commit] is atomic and durable under any faults of the file system and of
    the metadata database.  When it succeeds the database holds the old blocks and
    the new ones, when it returns an error it holds the old ones, and when the
    disk is full and it exits, the disk is left in a state the database can be
    opened from.  In every case what a crash would then leave is what it would
    have left before, or the old blocks, or, after success, the new ones.  It
    never panics, and the transaction is closed. *)
Theorem Commit_atomic ses B B0 fs o ses' fs' (Hdb : db_ok (db_cache (ss_db ses)) B B0)
    (Htx : tx_ready (db_cache (ss_db ses)) (ss_tx ses)) (Hrun : Commit ses fs = (o, ses', fs')) :
  commit_post (db_cache (ss_db ses)) B B0 (tx_pendingBlockData (ss_tx ses)) o (db_cache (ss_db ses')) /\
  (o <> Exit -> tx_closed (ss_tx ses') = true).
Proof.
  pose proof (Commit_spec ses B B0 fs Hdb Htx) as Hwp. unfold wp in Hwp. rewrite Hrun in Hwp. by destruct Hwp as (? & _ & ?).
Qed.

(** A transaction that sees the index of the database. *)
Record tx_reads (c : @dbCache L C) (tx : @transaction L P C) : Prop := {
  rd_open : tx_closed tx = false;
  rd_index : forall h, tx_view tx !! index_key h = view c !! index_key h;
  rd_pending : forall h i, tx_pendingBlocks tx !! h = Some i -> is_Some (tx_pendingBlockData tx !! i);
}.

(** Reading changes only which files are open. *)
Definition only_reads ses ses' : Prop := exists st, ses' = with_store st ses /\ only_open (the_store ses) st.

Lemma only_reads_refl ses : only_reads ses ses.
Proof. exists (the_store ses). split; [by destruct ses as [[? []] ?]|]. unfold only_open. by destruct (the_store ses). Qed.

(** The row of a block of the database. *)
Lemma fetch_row ses B B0 hash fs (k : bytes -> Eff (@session L P C) bytes) Q :
  db_ok (db_cache (ss_db ses)) B B0 -> tx_reads (db_cache (ss_db ses)) (ss_tx ses) -> hash <> [] ->
  match B !! hash with
  | None => Q (Error ErrBlockNotFound) ses fs
  | Some raw => forall loc, stored (the_store ses) loc raw -> len raw + 12 < 2 ^ 32 -> 0 <= l_blockFileNum loc ->
      pos_le (loc_end loc) (cursor (the_store ses)) -> wp (k (serializeBlockLoc loc)) ses fs Q
  end -> wp (on_tx (fetchBlockRow hash) ≫= k) ses fs Q.
Proof.
  intros Hdb [Hopen Hidx _] Hne H. apply wp_bind, wp_on_tx. unfold fetchBlockRow. apply wp_get.
  assert (set_tx (ss_tx ses) ses = ses) as Hset by (by destruct ses).
  rewrite bucket_Get_view, bool_decide_false by done. fold (index_key hash). rewrite Hidx.
  destruct (dk_view _ _ _ Hdb) as (p & (_ & _ & [Hb Hn _]) & Hle).
  destruct (B !! hash) as [raw|] eqn:E.
  - destruct (Hb _ _ E) as (loc & -> & Hst & Hnum & Hend & Hlen). apply wp_ret. rewrite Hset. apply H; [done..|]. by eapply pos_le_trans.
  - rewrite Hn by done. unfold wp, throw. by rewrite Hset.
Qed.

Lemma row_location_run ses B B0 loc raw fs :
  db_ok (db_cache (ss_db ses)) B B0 -> stored (the_store ses) loc raw -> len raw + 12 < 2 ^ 32 -> 0 <= l_blockFileNum loc ->
  pos_le (loc_end loc) (cursor (the_store ses)) -> row_location (serializeBlockLoc loc) ses fs = (Val loc, ses, fs).
Proof.
  intros Hdb [Hf Hbytes Hoff Hl Hins] Hlen Hnum Hend. unfold row_location.
  assert (Hread : deserializeBlockLoc (serializeBlockLoc loc) = Some loc); [|by rewrite Hread].
  rewrite <- (app_nil_r (serializeBlockLoc loc)). apply location_read.
  pose proof (so_num _ (dk_store _ _ _ Hdb)). pose proof (so_max _ (dk_store _ _ _ Hdb)).
  pose proof (bounded_len _ (l_blockFileNum loc) (dk_bounded _ _ _ Hdb) ltac:(lia)) as Hb.
  change (the_store ses) with (ca_store (db_cache (ss_db ses))) in *. pose proof (len_nonneg raw). unfold pos_le, loc_end, cursor in Hend. cbn in Hend.
  split_and!; lia.
Qed.
Lemma row_location_read ses B B0 loc raw fs (k : blockLocation -> Eff (@session L P C) bytes) Q :
  db_ok (db_cache (ss_db ses)) B B0 -> stored (the_store ses) loc raw -> len raw + 12 < 2 ^ 32 -> 0 <= l_blockFileNum loc ->
  pos_le (loc_end loc) (cursor (the_store ses)) -> wp (k loc) ses fs Q -> wp (row_location (serializeBlockLoc loc) ≫= k) ses fs Q.
Proof. intros Hdb Hst Hlen Hnum Hend H. apply wp_bind. unfold wp at 1. by rewrite (row_location_run ses B B0 loc raw). Qed.

Lemma region_tail (a b raw crc : bytes) off n : length a = 4%nat -> length b = 4%nat -> 0 <= off <= len raw -> len raw <= off + n ->
  bytes_at ((a ++ b ++ raw) ++ crc) (8 + off) n = drop (Z.to_nat off) raw ++ take (Z.to_nat (off + n - len raw)) crc.
Proof.
  intros Ha Hb Hoff Hn. unfold bytes_at, len in *.
  rewrite <- !app_assoc, (app_assoc a b). rewrite (drop_app_ge (a ++ b)) by (rewrite length_app; lia).
  replace (Z.to_nat (8 + off) - length (a ++ b))%nat with (Z.to_nat off) by (rewrite length_app; lia).
  rewrite drop_app_le by lia. rewrite take_app_ge by (rewrite length_drop; lia). do 2 f_equal. rewrite length_drop. lia.
Qed.

(** C: in a database that holds the blocks [B], [FetchBlock] gives the bytes of a
    pending block, or those of a block of [B], or [ErrBlockNotFound]; nothing but
    the set of open files changes. *)
Theorem FetchBlock_correct ses B B0 hash fs (Hdb : db_ok (db_cache (ss_db ses)) B B0)
    (Htx : tx_reads (db_cache (ss_db ses)) (ss_tx ses)) (Hne : hash <> []) (Hgood : good fs) :
  exists o ses' fs', FetchBlock hash ses fs = (o, ses', fs') /\ only_reads ses ses' /\
    match tx_pendingBlocks (ss_tx ses) !! hash with
    | Some i => exists b, tx_pendingBlockData (ss_tx ses) !! i = Some b /\ o = Val (pb_bytes b)
    | None => o = match B !! hash with Some raw => Val raw | None => Error ErrBlockNotFound end
    end.
Proof.
  apply wp_run. unfold FetchBlock. apply wp_bind, wp_on_tx. unfold checkClosed. apply wp_get. rewrite (rd_open _ _ Htx). apply wp_ret.
  assert (set_tx (ss_tx ses) ses = ses) as -> by (by destruct ses). apply wp_get.
  destruct (tx_pendingBlocks (ss_tx ses) !! hash) as [i|] eqn:Hi.
  { destruct (rd_pending _ _ Htx _ _ Hi) as [b Hbd]. rewrite Hbd. apply wp_ret. split; [apply only_reads_refl|by exists b]. }
  eapply fetch_row; [done|done|done|]. destruct (B !! hash) as [raw|]; [|split; [apply only_reads_refl|done]].
  intros loc Hst Hlen Hnum Hend. eapply row_location_read; [done..|]. apply wp_on_blocks.
  apply (wp_mono _ _ _ _ _ (read_stored _ loc raw fs (dk_store _ _ _ Hdb) Hst Hlen Hgood)).
  intros o st fs' (-> & Ho & Hg). split; [by exists st|done].
Qed.

(** The bytes of the record of a block: the region reader takes a region for valid
    up to the length of the record, framing included. *)
Lemma fetch_region ses B B0 hash raw off n fs (Hdb : db_ok (db_cache (ss_db ses)) B B0)
    (Htx : tx_reads (db_cache (ss_db ses)) (ss_tx ses)) (Hne : hash <> []) (Hgood : good fs) :
  B !! hash = Some raw -> tx_pendingBlocks (ss_tx ses) !! hash = None -> 0 <= off -> 0 <= n -> off + n < 2 ^ 32 ->
  wp (FetchBlockRegion (mkRegion hash off n)) ses fs (fun o ses' fs' =>
    (len raw + 12 < off + n -> o = Error ErrBlockRegionInvalid) /\
    (off + n <= len raw + 4 -> o = Val (bytes_at (record (s_network (the_store ses)) raw) (8 + off) n) /\ only_reads ses ses')).
Proof.
  intros HB Hpend Ho Hn Hsum. unfold FetchBlockRegion. apply wp_bind, wp_on_tx. unfold checkClosed. apply wp_get. rewrite (rd_open _ _ Htx). apply wp_ret.
  assert (set_tx (ss_tx ses) ses = ses) as Hset by (by destruct ses). rewrite Hset. apply wp_bind, wp_on_tx. unfold fetchPendingRegion. apply wp_get.
  cbn [rg_Hash]. rewrite Hpend. apply wp_ret. rewrite Hset. apply wp_bind. unfold stored_region. cbn [rg_Hash].
  assert (Hend : region_end (mkRegion hash off n) = off + n) by (unfold region_end, wrap_u32; cbn; by apply Z.mod_small; lia).
  apply wp_bind, wp_on_tx. unfold fetchBlockRow. apply wp_get. rewrite bucket_Get_view, bool_decide_false by (try done; apply Htx).
  fold (index_key hash). rewrite (rd_index _ _ Htx). destruct (dk_view _ _ _ Hdb) as (p & (_ & _ & [Hb _ _]) & Hle).
  destruct (Hb _ _ HB) as (loc & -> & Hst & Hnum & Hple & Hlen). apply wp_ret. rewrite Hset.
  assert (Hcur : pos_le (loc_end loc) (cursor (the_store ses))) by (by eapply pos_le_trans).
  pose proof (row_location_run ses B B0 loc raw fs Hdb Hst Hlen Hnum Hcur) as Hrow. apply wp_bind. unfold wp at 1. rewrite Hrow.
  unfold region_invalid. rewrite Hend. cbn [rg_Offset rg_Len]. pose proof Hst as [_ _ Hoff Hl Hins]. rewrite Hl.
  destruct (Z.ltb_spec (off + n) off); [lia|]. cbn [orb]. destruct (Z.ltb_spec (len raw + 12) (off + n)).
  - split; [done|lia].
  - apply wp_ret, wp_on_blocks.
    destruct (Z.le_gt_cases (off + n) (len raw + 4)) as [Hin|Hout].
    + pose proof (bounded_len _ (l_blockFileNum loc) (dk_bounded _ _ _ Hdb) (proj1 (so_max _ (dk_store _ _ _ Hdb)))) as Hbl.
      pose proof (so_max _ (dk_store _ _ _ Hdb)). change (ca_store (db_cache (ss_db ses))) with (the_store ses) in *.
      apply (wp_mono _ _ _ _ _ (read_region _ loc raw off n fs (dk_store _ _ _ Hdb) Hst Ho Hn ltac:(lia) ltac:(lia) Hgood)).
      intros o st fs' (-> & Hopen & _). split; [lia|]. intros _. split; [done|by exists st].
    + unfold wp. destruct (readBlockRegion _ _ _ _ _) as [[o st] fs']. split; lia.
Qed.

(** C: a region inside a block of the database is read exactly, and one that goes
    more than the twelve bytes of framing past it is refused. *)
Theorem FetchBlockRegion_correct ses B B0 hash raw off n fs (Hdb : db_ok (db_cache (ss_db ses)) B B0)
    (Htx : tx_reads (db_cache (ss_db ses)) (ss_tx ses)) (Hne : hash <> []) (Hgood : good fs)
    (HB : B !! hash = Some raw) (Hpend : tx_pendingBlocks (ss_tx ses) !! hash = None)
    (Hoff : 0 <= off) (Hn : 0 <= n) (Hsum : off + n < 2 ^ 32) :
  exists o ses' fs', FetchBlockRegion (mkRegion hash off n) ses fs = (o, ses', fs') /\
    (off + n <= len raw -> o = Val (bytes_at raw off n) /\ only_reads ses ses') /\
    (len raw + 12 < off + n -> o = Error ErrBlockRegionInvalid).
Proof.
  apply wp_run. apply (wp_mono _ _ _ _ _ (fetch_region ses B B0 hash raw off n fs Hdb Htx Hne Hgood HB Hpend Hoff Hn Hsum)).
  intros o ses' fs' [H1 H2]. split; [|done]. intros Hin. destruct H2 as [-> H2]; [lia|]. split; [|done]. by rewrite record_region.
Qed.

(** C: the length a stored region is checked against includes the framing of the
    block: a region that ends past the block, by up to four bytes, is read with
    bytes of the checksum at its end.  While the same block was pending, the same
    region was refused. *)
Theorem FetchBlockRegion_past_end ses B B0 hash raw off n fs (Hdb : db_ok (db_cache (ss_db ses)) B B0)
    (Htx : tx_reads (db_cache (ss_db ses)) (ss_tx ses)) (Hne : hash <> []) (Hgood : good fs)
    (HB : B !! hash = Some raw) (Hpend : tx_pendingBlocks (ss_tx ses) !! hash = None)
    (Hoff : 0 <= off <= len raw) (Hn : len raw < off + n <= len raw + 4) (Hlen : len raw + 12 < 2 ^ 32) :
  (exists ses' fs' tail, FetchBlockRegion (mkRegion hash off n) ses fs = (Val (drop (Z.to_nat off) raw ++ tail), ses', fs') /\
     len tail = off + n - len raw) /\
  forall tx h i, tx_pendingBlocks tx !! hash = Some i -> tx_pendingBlockData tx !! i = Some (mkPending h raw) ->
    (@fetchPendingRegion L P C (mkRegion hash off n) tx fs) = (Error ErrBlockRegionInvalid, tx, fs).
Proof.
  split.
  - destruct (wp_run _ _ _ _ (fetch_region ses B B0 hash raw off n fs Hdb Htx Hne Hgood HB Hpend ltac:(lia) ltac:(lia) ltac:(lia)))
      as (o & ses' & fs' & Hrun & _ & Hval). destruct Hval as [-> _]; [lia|]. rewrite Hrun.
    exists ses', fs'. eexists (take _ (be_put 4 (crc32c _))). split.
    + f_equal. f_equal. f_equal. unfold record. cbv zeta. apply region_tail; [apply length_le_put|apply length_le_put|lia|lia].
    + unfold len. rewrite length_take, length_be_put. unfold len in *. lia.
  - intros tx h i Hi Hd.
    assert (Hwp : wp (fetchPendingRegion (mkRegion hash off n)) tx fs (fun o tx' fs' => o = Error ErrBlockRegionInvalid /\ tx' = tx /\ fs' = fs)).
    { unfold fetchPendingRegion. apply wp_get. cbn [rg_Hash]. rewrite Hi, Hd. cbn [pb_bytes]. pose proof (len_nonneg raw).
      unfold region_invalid, region_end. cbn [rg_Offset rg_Len]. unfold wrap_u32. rewrite !Z.mod_small by lia.
      destruct (Z.ltb_spec (len raw) (off + n)); [|lia]. rewrite orb_true_r. done. }
    unfold wp in Hwp. destruct (fetchPendingRegion _ tx fs) as [[o tx'] fs']. by destruct Hwp as (-> & -> & ->).
Qed.
End theorems.

(** ** A new database *)

Lemma init_index row h : h <> [] -> init_meta row !! index_key h = None.
Proof.
  intros Hh. unfold init_meta.
  assert (Hid : is_id blockIdxBucketID /\ is_id metadataBucketID) by (split; (split; [done|vm_compute; intuition congruence])).
  destruct Hid as [Hid Hid0]. destruct (keys_apart blockIdxBucketID h metadataBucketID blockIdxBucketName Hid Hid0) as (H1 & H2 & _).
  unfold index_key. rewrite !lookup_insert_ne; [done|..]; [|congruence|congruence].
  intros E. apply bucketizedKey_inj in E as [E _]; [discriminate|done].
Qed.

Lemma init_consistent s : in_files s (0, 0) -> consistent s (init_meta (serializeWriteRow 0 0)) (0, 0) ∅.
Proof.
  intros Hin. split_and!; [|done|].
  - unfold init_meta. rewrite !lookup_insert_ne by (vm_compute; discriminate). apply lookup_insert_eq.
  - split; [done| |done]. intros h Hh _. by apply init_index.
Qed.

Lemma new_db_ok {L C} `{!LevelDB L, !KeyMap C, !LevelDBLaws L, !KeyMapLaws C} (c : @dbCache L C) :
  store_ok (ca_store c) -> s_files (ca_store c) = ∅ -> cursor (ca_store c) = (0, 0) ->
  view c = init_meta (serializeWriteRow 0 0) -> persisted c = init_meta (serializeWriteRow 0 0) -> db_ok c ∅ ∅.
Proof.
  intros Hok Hf Hc Hv Hp. assert (Hin : in_files (ca_store c) (0, 0)).
  { split; cbn; [lia|lia|apply len_nonneg|by left]. }
  split; [done| | |by rewrite Hc| |].
  - intros n x. by rewrite Hf.
  - intros n [x Hx]. by rewrite Hf in Hx.
  - exists (0, 0). rewrite Hv, Hc. split; [by apply init_consistent|apply pos_le_refl].
  - exists (0, 0). rewrite Hp, Hc. split; [by apply init_consistent|apply pos_le_refl].
Qed.

(** * At a concrete input *)

#[local] Instance demo_K : KeyMap drawn := immutable_KeyMap rand0.
#[local] Instance demo_KL : KeyMapLaws drawn := immutable_KeyMapLaws rand0.
#[local] Instance demo_M : KeyMap drawn_mutable := mutable_KeyMap rand0.
#[local] Instance demo_ML : KeyMapLaws drawn_mutable := mutable_KeyMapLaws rand0.

Definition demo_dbCache : @dbCache (gmap bytes bytes) drawn :=
  newDbCache (init_meta (serializeWriteRow 0 0)) demo_store defaultCacheSize defaultFlushSecs 0.
Definition demo_session : @session (gmap bytes bytes) drawn_mutable drawn :=
  mkSession (mkDb false demo_dbCache)
    (mkTx false false true (mkSnapshot (init_meta (serializeWriteRow 0 0)) km_empty km_empty) {[ [x01] := 0%nat ]} [mkPending [x01] demo_raw] [] km_empty km_empty).

Lemma demo_dbCache_view : view demo_dbCache = init_meta (serializeWriteRow 0 0).
Proof.
  change (overlay (init_meta (serializeWriteRow 0 0)) (km_view (km_empty : drawn)) (km_view (km_empty : drawn)) = init_meta (serializeWriteRow 0 0)).
  by rewrite km_view_empty, overlay_empty.
Defined.
Lemma demo_db : db_ok demo_dbCache ∅ ∅.
Proof. apply new_db_ok; [exact demo_ok|done|done|exact demo_dbCache_view|done]. Defined.

Lemma demo_tx_view : tx_view (ss_tx demo_session) = init_meta (serializeWriteRow 0 0).
Proof.
  unfold tx_view, snapshot_view. cbn [demo_session ss_tx tx_writable tx_snapshot sn_dbSnapshot sn_pendingKeys sn_pendingRemove tx_pendingKeys tx_pendingRemove].
  by rewrite !km_view_empty, !overlay_empty.
Defined.
Lemma demo_tx_ready : tx_ready demo_dbCache (ss_tx demo_session).
Proof.
  split; [done|done|done| | | |done| |by vm_compute].
  - rewrite demo_dbCache_view. exact demo_dbCache_view.
  - intros h. by rewrite demo_tx_view, demo_dbCache_view.
  - by rewrite demo_tx_view, demo_dbCache_view.
  - constructor; [|constructor]. split; [done|vm_compute; discriminate].
Defined.
Lemma demo_tx_reads : tx_reads demo_dbCache (ss_tx demo_session).
Proof.
  split; [done| |].
  - intros h. by rewrite demo_tx_view, demo_dbCache_view.
  - intros h i H. change (({[ [x01] := 0%nat ]} : gmap bytes nat) !! h = Some i) in H. apply lookup_singleton_Some in H as [_ <-]. by eexists.
Defined.

Lemma Commit_atomic_witness : exists o ses' fs', Commit demo_session [Good; Bad 2] = (o, ses', fs') /\
  commit_post demo_dbCache ∅ ∅ [mkPending [x01] demo_raw] o (db_cache (ss_db ses')).
Proof.
  destruct (Commit demo_session [Good; Bad 2]) as [[o ses'] fs'] eqn:Hrun. exists o, ses', fs'. split; [done|].
  apply (Commit_atomic demo_session ∅ ∅ [Good; Bad 2] o ses' fs' demo_db demo_tx_ready Hrun).
Defined.

Lemma FetchBlock_correct_witness : exists o ses' fs', FetchBlock [x01] demo_session [] = (o, ses', fs') /\ only_reads demo_session ses'.
Proof.
  destruct (FetchBlock_correct demo_session ∅ ∅ [x01] [] demo_db demo_tx_reads ltac:(discriminate) ltac:(constructor))
    as (o & ses' & fs' & H1 & H2 & _). by exists o, ses', fs'.
Defined.

(** The same database with the block on disk. *)
Definition full_store : blockStore := (writeBlock demo_raw demo_store []).1.2.
Definition full_meta : gmap bytes bytes :=
  <[index_key [x01] := serializeBlockLoc (mkLoc 0 0 15)]> (<[row_key := serializeWriteRow 0 15]> (init_meta (serializeWriteRow 0 0))).
Definition full_dbCache : @dbCache (gmap bytes bytes) drawn := newDbCache full_meta full_store defaultCacheSize defaultFlushSecs 0.
Definition full_session : @session (gmap bytes bytes) drawn_mutable drawn :=
  mkSession (mkDb false full_dbCache) (mkTx false false false (mkSnapshot full_meta km_empty km_empty) ∅ [] [] km_empty km_empty).

Lemma full_view : view full_dbCache = full_meta.
Proof.
  change (overlay full_meta (km_view (km_empty : drawn)) (km_view (km_empty : drawn)) = full_meta).
  by rewrite km_view_empty, overlay_empty.
Defined.

Lemma full_store_ok : store_ok full_store.
Proof. split; try (vm_compute; intuition congruence). right. split; [reflexivity|]. vm_compute. eexists; reflexivity. Defined.

Lemma full_consistent : consistent full_store full_meta (0, 15) {[ [x01] := demo_raw ]}.
Proof.
  split_and!; [reflexivity| |].
  - split; [by vm_compute|by vm_compute|by vm_compute|right; vm_compute; eexists; reflexivity].
  - unfold full_meta. rewrite <- insert_empty. apply blocks_insert; [|discriminate| |by vm_compute|right; by vm_compute|by vm_compute].
    + split; [done| |done]. intros h Hh _. rewrite lookup_insert_ne by (intros E; by apply (index_row_key h)). by apply init_index.
    + split; [vm_compute; eexists; reflexivity|reflexivity|by vm_compute|reflexivity|by vm_compute].
Defined.

Lemma full_db : db_ok full_dbCache {[ [x01] := demo_raw ]} {[ [x01] := demo_raw ]}.
Proof.
  assert (Hf : forall n x, s_files full_store !! n = Some x -> n = 0 /\ len x = 15).
  { assert (Hs : s_files full_store = {[ 0 := content full_store 0 ]}) by (vm_compute; reflexivity). intros n x H. rewrite Hs in H.
    apply lookup_singleton_Some in H as [<- <-]. split; reflexivity. }
  split; [exact full_store_ok| | | | |].
  - intros n x H. destruct (Hf n x H) as [_ H2]. change (ca_store full_dbCache) with full_store. rewrite H2. by vm_compute.
  - intros n [x H]. destruct (Hf n x H) as [-> _]. by vm_compute.
  - split; [by vm_compute|by vm_compute|by vm_compute|right; vm_compute; eexists; reflexivity].
  - exists (0, 15). rewrite full_view. split; [exact full_consistent|right; by vm_compute].
  - exists (0, 15). split; [exact full_consistent|right; by vm_compute].
Defined.

Lemma full_tx_reads : tx_reads full_dbCache (ss_tx full_session).
Proof.
  split; [done| |].
  - intros h. rewrite full_view. change (tx_view (ss_tx full_session)) with (overlay full_meta (km_view (km_empty : drawn)) (km_view (km_empty : drawn))).
    by rewrite km_view_empty, overlay_empty.
  - intros h i H. change ((∅ : gmap bytes nat) !! h = Some i) in H. by rewrite lookup_empty in H.
Defined.

Lemma FetchBlockRegion_correct_witness : exists o ses' fs', FetchBlockRegion (mkRegion [x01] 1 2) full_session [] = (o, ses', fs') /\
  o = Val (bytes_at demo_raw 1 2).
Proof.
  destruct (FetchBlockRegion_correct full_session _ _ [x01] demo_raw 1 2 [] full_db full_tx_reads ltac:(discriminate) ltac:(constructor)
    (lookup_singleton_eq _ _) eq_refl ltac:(lia) ltac:(lia) ltac:(lia)) as (o & ses' & fs' & H & Ho & _).
  exists o, ses', fs'. split; [exact H|]. apply Ho. by vm_compute.
Defined.

Lemma FetchBlockRegion_past_end_witness : exists ses' fs' tail,
  FetchBlockRegion (mkRegion [x01] 2 3) full_session [] = (Val (drop 2 demo_raw ++ tail), ses', fs') /\ len tail = 2.
Proof.
  destruct (FetchBlockRegion_past_end full_session _ _ [x01] demo_raw 2 3 [] full_db full_tx_reads ltac:(discriminate) ltac:(constructor)
    (lookup_singleton_eq _ _) eq_refl ltac:(by vm_compute) ltac:(by vm_compute) ltac:(by vm_compute)) as [(ses' & fs' & tail & H & Ht) _].
  by exists ses', fs', tail.
Defined.
