(* ===== verification/DbOpen.v ===== *)
(** * Opening the database: what a crash leaves is what is opened

    The scan of the block files finds the last of them, the reconciliation cuts
    what the metadata do not know of, and the database opened after a crash holds
    the blocks of the persisted metadata. *)

From Stdlib Require Import ZArith Lia.
From stdpp Require Import sorting.
From S2P Require Import Prelude WireCommon WireTx WireBlock KeyMap DbEffects BlockStore BlockLog DbCache DbTx DbBlocks DbCommit.

Open Scope Z_scope.

(** ** The names of the files *)

Lemma bytes_Compare_snoc a b x y : length a = length b ->
  bytes_Compare (a ++ [x]) (b ++ [y]) = match bytes_Compare a b with Eq => Z.compare (b2z x) (b2z y) | c => c end.
Proof.
  revert b. induction a as [|c a IH]; intros [|d b] Hl; try done; cbn.
  - by destruct (b2z x ?= b2z y).
  - destruct (b2z c ?= b2z d); [|done..]. apply IH. by injection Hl.
Qed.

Lemma length_digits w n : length (digits w n) = w.
Proof. revert n. induction w as [|w IH]; intros n; [done|]. cbn. rewrite length_app, IH. cbn. lia. Qed.

Lemma digit_value n : b2z (z2b (48 + n mod 10)) = 48 + n mod 10.
Proof. rewrite b2z_z2b. pose proof (Z.mod_pos_bound n 10). apply Z.mod_small. lia. Qed.

Lemma digits_compare w a b : 0 <= a < 10 ^ Z.of_nat w -> 0 <= b < 10 ^ Z.of_nat w ->
  bytes_Compare (digits w a) (digits w b) = Z.compare a b.
Proof.
  revert a b. induction w as [|w IH]; intros a b Ha Hb.
  - cbn in *. assert (a = 0) as -> by lia. assert (b = 0) as -> by lia. done.
  - cbn [digits]. rewrite bytes_Compare_snoc by (by rewrite !length_digits). rewrite Nat2Z.inj_succ, Z.pow_succ_r in * by lia.
    rewrite IH by (split; [apply Z.div_pos; lia|apply Z.div_lt_upper_bound; lia]). rewrite !digit_value.
    pose proof (Z.div_mod a 10). pose proof (Z.div_mod b 10). pose proof (Z.mod_pos_bound a 10). pose proof (Z.mod_pos_bound b 10).
    destruct (Z.compare_spec (a / 10) (b / 10)); destruct (Z.compare_spec a b); try lia;
      destruct (Z.compare_spec (48 + a mod 10) (48 + b mod 10)); try lia; done.
Qed.

Lemma Atoi_digits w n : 0 <= n < 10 ^ Z.of_nat w -> Atoi (digits w n) = n.
Proof.
  unfold Atoi. revert n. induction w as [|w IH]; intros n Hn; [cbn in *; lia|]. cbn [digits].
  rewrite Nat2Z.inj_succ, Z.pow_succ_r in Hn by lia. rewrite fold_left_app.
  rewrite IH by (split; [apply Z.div_pos; lia|apply Z.div_lt_upper_bound; lia]). cbn [fold_left]. rewrite digit_value.
  pose proof (Z.div_mod n 10). lia.
Qed.

Lemma name_nine n : 0 <= n < maxFiles -> blockFileName n = digits 9 n.
Proof. intros Hn. unfold blockFileName, maxFiles in *. by destruct (Z.ltb_spec n (10 ^ 9)); [|lia]. Qed.

(** Of two names the greater is that of the greater number. *)
Lemma greater_name a b : 0 <= a < maxFiles -> 0 <= b < maxFiles -> greater (blockFileName a) (blockFileName b) = blockFileName (Z.max a b).
Proof.
  intros Ha Hb. unfold greater. rewrite !name_nine, digits_compare by (unfold maxFiles in *; lia).
  destruct (Z.compare_spec a b); [subst; by rewrite Z.max_id|by rewrite Z.max_r by lia|by rewrite Z.max_l by lia].
Qed.

Lemma last_name l n : 0 <= n < maxFiles -> Forall (fun n => 0 <= n < maxFiles) l ->
  fold_left greater (map blockFileName l) (blockFileName n) = blockFileName (fold_left Z.max l n).
Proof.
  intros Hn Hl. revert n Hn. induction Hl as [|x l Hx _ IH]; intros n Hn; [done|]. cbn. rewrite greater_name by done. apply IH. lia.
Qed.

Lemma fold_max_in l n : fold_left Z.max l n = n \/ In (fold_left Z.max l n) l.
Proof.
  revert n. induction l as [|x l IH]; intros n; [by left|]. cbn. destruct (IH (Z.max n x)) as [-> | H]; [|auto].
  destruct (Z.max_spec n x) as [[_ ->]|[_ ->]]; auto.
Qed.
Lemma fold_max_ge l n x : x = n \/ In x l -> x <= fold_left Z.max l n.
Proof.
  revert n x. induction l as [|y l IH]; intros n x [->|Hx]; [cbn; lia|destruct Hx| |]; cbn.
  - etransitivity; [|apply (IH _ (Z.max n y)); by left]. lia.
  - destruct Hx as [-> | Hx]; [|apply IH; by right]. etransitivity; [|apply (IH _ (Z.max n x)); by left]. lia.
Qed.

(** The scan finds the last file. *)
Lemma scan_last (files : gmap Z bytes) :
  (forall n, is_Some (files !! n) -> 0 <= n < maxFiles) ->
  match scanBlockFiles files with
  | (_, last, size) =>
      last = -1 /\ size = 0 /\ files = ∅ \/
      0 <= last < maxFiles /\ (exists c, files !! last = Some c /\ size = wrap_u32 (len c)) /\
      forall n, is_Some (files !! n) -> n <= last
  end.
Proof.
  intros Hnum. unfold scanBlockFiles. destruct (map_to_list files) as [|[n c] l] eqn:E.
  { left. split_and!; [done|done|]. by apply map_to_list_empty_iff. }
  cbn [map fst]. right. assert (Hin : forall m x, In (m, x) ((n, c) :: l) <-> files !! m = Some x).
  { intros m x. rewrite <- E. rewrite <- list_elem_of_In. apply elem_of_map_to_list. }
  assert (Hn : 0 <= n < maxFiles) by (apply Hnum; exists c; apply Hin; by left).
  assert (Hl : Forall (fun n => 0 <= n < maxFiles) (map fst l)).
  { apply List.Forall_forall. intros m Hm. apply in_map_iff in Hm as ([m' x] & <- & Hm). apply Hnum. exists x. apply Hin. by right. }
  replace (map (fun p => blockFileName p.1) l) with (map blockFileName (map fst l)) by apply map_map.
  rewrite last_name by done. set (last := fold_left Z.max (map fst l) n).
  assert (Hlast : exists x, files !! last = Some x).
  { unfold last. destruct (fold_max_in (map fst l) n) as [-> | H]; [exists c; apply Hin; by left|].
    apply in_map_iff in H as ([m x] & <- & Hm). exists x. apply Hin. by right. }
  destruct Hlast as [x Hx]. assert (Hr : 0 <= last < maxFiles) by (apply Hnum; by exists x).
  rewrite name_nine by done. rewrite Atoi_digits by (unfold maxFiles in *; lia).
  split_and!; [lia|lia| |].
  - exists x. split; [done|]. unfold wrap_u32. rewrite (Z.mod_small last) by (unfold maxFiles in *; lia). by rewrite Hx.
  - intros m [y Hy]. apply fold_max_ge. apply Hin in Hy as [Hy|Hy]; [left; congruence|right].
    apply in_map_iff. by exists (m, y).
Qed.

(** ** The store after a scan *)

Lemma fresh_store (files : gmap Z bytes) network :
  let s := newBlockStore files network in
  (forall n, is_Some (files !! n) -> 0 <= n < maxFiles) ->
  (forall n c, files !! n = Some c -> len c <= maxBlockFileSize) -> 0 <= network < 2 ^ 32 ->
  store_ok s /\ bounded s /\ numbered s /\ in_files s (cursor s) /\ s_files s = files /\ s_network s = network /\
  (forall p, in_files s p -> pos_le p (cursor s)).
Proof.
  intros s Hnum Hb Hnet. assert (Hs : s = newBlockStore files network) by done. clearbody s. unfold newBlockStore in Hs.
  pose proof (scan_last files Hnum) as Hscan. destruct (scanBlockFiles files) as [[first last] size].
  destruct Hscan as [(-> & -> & ->)|(Hlast & (c & Hc & ->) & Hmax)].
  - change (-1 =? -1) with true in Hs. cbv iota in Hs. change (wrap_u32 0) with 0 in Hs. subst s. unfold content. split_and!; [|by intros n x|done| |done|done|].
    + split; cbn; [lia|lia|unfold maxBlockFileSize; lia|done|by left|apply len_nonneg].
    + split; cbn; [lia|lia|apply len_nonneg|by left].
    + intros [pn po] [H1 H2 H3 H4]. cbn in *. right. cbn. destruct H4 as [[= -> ->]|[x Hx]]; [lia|done].
  - destruct (Z.eqb_spec last (-1)); [lia|]. subst s. unfold wrap_u32. pose proof (Hb _ _ Hc) as Hlen. pose proof (len_nonneg c) as Hpos.
    unfold maxBlockFileSize, maxFiles in *. rewrite !Z.mod_small by lia.
    assert (Hcont : content (mkStore network (512 * 1024 * 1024) files None last (len c) ∅ []) last = c) by (unfold content; cbn; by rewrite Hc).
    split_and!; [|exact Hb|exact Hnum| |done|done|].
    + split; cbn; [lia|lia|lia|done|by left|]. rewrite Hcont. lia.
    + split; cbn; [lia|lia|rewrite Hcont; lia|right; by exists c].
    + intros [pn po] [H1 H2 H3 H4]. unfold pos_le. cbn in *. destruct H4 as [[= -> ->]|Hx]; [lia|].
      apply Hmax in Hx. destruct (Z.eq_dec pn last) as [->|]; [|lia]. rewrite Hcont in H3. lia.
Qed.

(** ** Reconciling *)

Section opening.
Context {L P C : Type} `{!LevelDB L, !KeyMap P, !KeyMap C, !LevelDBLaws L, !KeyMapLaws P, !KeyMapLaws C}.
Abbreviation dbCache := (@dbCache L C).
Abbreviation db := (@db L C).
Abbreviation begin := (DbBlocks.begin (L:=L) (P:=P) (C:=C)).
Abbreviation read_write_row := (DbBlocks.read_write_row (L:=L) (P:=P) (C:=C)).
Abbreviation reconcileDB := (DbBlocks.reconcileDB (L:=L) (P:=P) (C:=C)).
Abbreviation openDB := (DbBlocks.openDB (L:=L) (P:=P) (C:=C)).
Implicit Types (c : dbCache) (d : db).

Lemma begin_spec writable d fs : db_closed d = false ->
  wp (begin writable) d fs (fun o d' fs' => d' = d /\ o <> Panic /\ o <> Exit /\ (good fs -> is_val o /\ good fs') /\
    forall tx, o = Val tx -> tx_managed tx = false /\ tx_closed tx = false /\ tx_writable tx = writable /\
      snapshot_view (tx_snapshot tx) = view (db_cache d) /\ tx_view tx = view (db_cache d) /\
      tx_pendingBlocks tx = ∅ /\ tx_pendingBlockData tx = [] /\ tx_pendingDelFileNums tx = []).
Proof.
  intros Hc. unfold DbBlocks.begin. apply wp_get. rewrite Hc. apply wp_bind, wp_zoom. unfold Snapshot, Snapshot_db. apply wp_bind, wp_bind.
  apply (wp_mono _ _ _ _ _ (ldb_call_spec _ fs)). intros o c' fs1 (-> & Ho & Hg).
  assert (Hset : set_cache (db_cache d) d = d) by (by destruct d).
  destruct Ho as [-> | ->].
  - apply wp_get. unfold Snapshot_cached. apply wp_ret, wp_get, wp_ret. apply wp_ret. rewrite Hset.
    split_and!; [done|done|done|intros H; split; [done|by apply Hg]|]. intros tx [= <-]. split_and!; try done.
    unfold tx_view. cbn. rewrite !km_view_empty, overlay_empty. by destruct writable.
  - rewrite Hset. split_and!; [done|done|done|intros H; by destruct (Hg H)|done].
Qed.

Lemma row_key_eq : row_key = bucketizedKey metadataBucketID writeLocKeyName.
Proof. done. Qed.

Lemma read_write_row_spec d p fs : db_closed d = false -> view (db_cache d) !! row_key = Some (serializeWriteRow p.1 p.2) ->
  0 <= p.1 < 2 ^ 32 -> 0 <= p.2 < 2 ^ 32 -> good fs ->
  wp read_write_row d fs (fun o d' fs' => d' = d /\ o = Val p /\ good fs').
Proof.
  intros Hcl Hrow H1 H2 Hgood. unfold DbBlocks.read_write_row. apply wp_bind. apply (wp_mono _ _ _ _ _ (begin_spec false d fs Hcl)).
  intros o d' fs1 (-> & _ & _ & Hg & Htx). destruct (Hg Hgood) as [Hv Hg1]. destruct o as [tx|e| |]; try done.
  destruct (Htx tx eq_refl) as (_ & Hopen & _ & _ & Hview & _). rewrite bucket_Get_view by done.
  rewrite bool_decide_false by done. fold row_key. rewrite Hview, Hrow, writeRow_read by done. by apply wp_ret.
Qed.

(** A database whose files reach further than its metadata is cut back to them. *)
Lemma reconcile_spec d p B fs : db_closed d = false -> store_ok (ca_store (db_cache d)) -> bounded (ca_store (db_cache d)) ->
  numbered (ca_store (db_cache d)) -> in_files (ca_store (db_cache d)) (cursor (ca_store (db_cache d))) ->
  (forall p, in_files (ca_store (db_cache d)) p -> pos_le p (cursor (ca_store (db_cache d)))) ->
  consistent (ca_store (db_cache d)) (persisted (db_cache d)) p B -> view (db_cache d) = persisted (db_cache d) -> good fs ->
  wp (reconcileDB false) d fs (fun o d' _ => o = Val tt /\ db_ok (db_cache d') B B /\
    view (db_cache d') = view (db_cache d) /\ cursor (ca_store (db_cache d')) = p /\ db_closed d' = false).
Proof.
  intros Hcl Hok Hb Hn Hcur Hmax Hcon Hview Hgood. pose proof Hcon as (Hrow & Hin & Hblk). pose proof Hin as [H1 H2 H3 H4].
  unfold DbBlocks.reconcileDB. apply wp_bind, wp_ret, wp_bind.
  apply (wp_mono _ _ _ _ _ (read_write_row_spec d p fs Hcl ltac:(by rewrite Hview) H1 H2 Hgood)).
  intros o d' fs1 (-> & -> & Hg1). destruct p as [pn po]. cbn [fst snd] in *. apply wp_get, wp_bind.
  pose proof (Hmax _ Hin) as Hle. set (s := ca_store (db_cache d)) in *.
  assert (Hmid : wp (if (pn <? s_curFileNum s) || (s_curFileNum s =? pn) && (po <? s_curOffset s)
       then zoom db_cache set_cache (on_store (handleRollback pn po)) else mret tt) d fs1 (fun o d' _ => o = Val tt /\
     exists st, d' = set_cache (set_store st (db_cache d)) d /\ store_ok st /\ kept (pn, po) s st /\ cursor st = (pn, po) /\
       bounded st /\ numbered st)).
  { destruct (_ || _) eqn:E.
    - apply wp_zoom, wp_zoom. apply (wp_mono _ _ _ _ _ (handleRollback_spec (pn, po) s fs1 Hok (proj1 H1) H2 Hle H3)).
      intros o st fs2 (-> & Hok' & Hk & Hc & _ & Hmx & Hshr & _). split; [done|]. exists st. split_and!; try done.
      + eapply shrunk_bounded; [done|done|apply Hok|done].
      + eapply shrunk_numbered; [exact Hshr|exact Hn|]. cbn. unfold pos_le, cursor in Hle. cbn in Hle.
        assert (s_curFileNum s < maxFiles); [|lia]. by apply cursor_number.
    - apply wp_ret. split; [done|]. exists s. split_and!; [unfold s; by destruct d as [? []]|done|by apply kept_refl| |done|done].
      unfold pos_le, cursor in *. cbn in Hle. apply orb_false_iff in E as [E1%Z.ltb_ge E2].
        assert (s_curFileNum s = pn) as <- by lia. rewrite Z.eqb_refl in E2. cbn in E2. apply Z.ltb_ge in E2. f_equal. lia. }
  apply (wp_mono _ _ _ _ _ Hmid). intros o d' fs2 (-> & st & -> & Hok' & Hk & Hc & Hb' & Hn'). apply wp_get.
  cbn [db_cache set_cache ca_store set_store]. injection Hc as Hc1 Hc2. rewrite Hc1, Hc2, Z.ltb_irrefl, Z.eqb_refl, Z.ltb_irrefl. cbn [orb andb].
  apply wp_ret. assert (Hcon' : consistent st (persisted (db_cache d)) (pn, po) B) by (eapply consistent_kept; [done|apply pos_le_refl|done]).
  split_and!; [done| |done|unfold cursor; cbn; congruence|done].
  assert (Hcst : cursor st = (pn, po)) by (unfold cursor; congruence).
  split; cbn; [done|done|done|rewrite Hcst; by eapply in_files_kept; [|apply pos_le_refl|]| |]; exists (pn, po);
    (split; [|rewrite Hcst; apply pos_le_refl]); [|exact Hcon'].
  change (view (set_store st (db_cache d))) with (view (db_cache d)). by rewrite Hview.
Qed.

Lemma reopen c B0 network now fs :
  recoverable c B0 -> s_maxBlockFileSize (ca_store c) = maxBlockFileSize ->
  s_network (ca_store c) = network /\ 0 <= network < 2 ^ 32 -> good fs ->
  exists d fs', openDB (mkDisk (s_files (ca_store c)) (Some (ca_ldb c))) network false now fs = (Val tt, Some d, fs') /\
    db_ok (db_cache d) B0 B0 /\ view (db_cache d) = persisted c /\ db_closed d = false /\
    persisted c !! row_key = Some (serializeWriteRow (cursor (ca_store (db_cache d))).1 (cursor (ca_store (db_cache d))).2).
Proof.
  intros [Hb Hn (p & Hcon)] Hmax [Hnw Hnet] Hgood.
  destruct (fresh_store (s_files (ca_store c)) network Hn ltac:(rewrite <- Hmax; exact Hb) Hnet) as (Hok & Hb1 & Hn1 & Hin1 & Hf1 & Hnw1 & Hmx1).
  set (s := newBlockStore (s_files (ca_store c)) network) in *.
  set (d0 := mkDb false (newDbCache (ca_ldb c) s defaultCacheSize defaultFlushSecs now)).
  assert (Hview0 : view (db_cache d0) = persisted c) by (unfold view; cbn; by rewrite !km_view_empty, overlay_empty).
  assert (Hcon0 : consistent s (persisted c) p B0) by (eapply consistent_kept; [done|apply pos_le_refl|]; apply kept_refl; congruence).
  assert (Hwp : wp (_ ← zoom db_cache set_cache ldb_call; reconcileDB false) d0 fs (fun o d' _ => o = Val tt /\
    db_ok (db_cache d') B0 B0 /\ view (db_cache d') = persisted c /\ cursor (ca_store (db_cache d')) = p /\ db_closed d' = false)).
  { apply wp_bind, wp_zoom. apply (wp_mono _ _ _ _ _ (ldb_call_spec _ fs)). intros o c' fs1 (-> & _ & Hg). destruct (Hg Hgood) as [-> Hg1].
    assert (set_cache (db_cache d0) d0 = d0) as -> by done.
    apply (wp_mono _ _ _ _ _ (reconcile_spec d0 p B0 fs1 eq_refl Hok Hb1 Hn1 Hin1 Hmx1 Hcon0 Hview0 Hg1)).
    intros o d' fs2 (-> & Hdb & Hv & Hc & Hcl). split_and!; [done|done|by rewrite Hv|done|done]. }
  destruct (wp_run _ _ _ _ Hwp) as (o & d' & fs' & Hrun & -> & Hdb & Hv & Hc & Hcl).
  exists d', fs'. split_and!; [|done|done|done|rewrite Hc; apply Hcon].
  unfold DbBlocks.openDB. cbn [dk_metadata dk_files negb andb default from_option id]. cbv zeta. fold s. fold d0. by rewrite Hrun.
Qed.

(** C: a database can be opened from whatever a crash leaves.  From files and
    persisted metadata that agree up to the position in the write row, opening
    succeeds when the system calls do, for any leftovers after that position; the
    database opened holds the blocks of the persisted metadata, and its cursor is
    at the position of the row. *)
Theorem openDB_recovers c B0 network now fs (Hrec : recoverable c B0) (Hmax : s_maxBlockFileSize (ca_store c) = maxBlockFileSize)
    (Hnet : s_network (ca_store c) = network /\ 0 <= network < 2 ^ 32) (Hgood : good fs) :
  exists d fs', openDB (mkDisk (s_files (ca_store c)) (Some (ca_ldb c))) network false now fs = (Val tt, Some d, fs') /\
    db_ok (db_cache d) B0 B0 /\ view (db_cache d) = persisted c /\ db_closed d = false /\
    persisted c !! row_key = Some (serializeWriteRow (cursor (ca_store (db_cache d))).1 (cursor (ca_store (db_cache d))).2).
Proof. by apply reopen. Qed.

(** C2: C: the database survives a crash at any write.  Whatever the file system and
    the metadata database do while a transaction commits, and whether the commit
    succeeds, returns an error or exits in the middle, opening what is then on disk
    succeeds and gives a database that holds the blocks a crash would have left
    before, or the blocks before the commit, or all of them with the new ones; and
    all of them with the new ones only if the commit succeeded. *)
Theorem crash_safe (ses : @session L P C) B B0 fs o ses' fs' network now fs2
    (Hdb : db_ok (db_cache (ss_db ses)) B B0) (Htx : tx_ready (db_cache (ss_db ses)) (ss_tx ses))
    (Hmax : s_maxBlockFileSize (the_store ses) = maxBlockFileSize)
    (Hnet : s_network (the_store ses) = network /\ 0 <= network < 2 ^ 32)
    (Hrun : Commit ses fs = (o, ses', fs')) (Hgood : good fs2) :
  exists B' d fs3, openDB (crash (ss_db ses')) network false now fs2 = (Val tt, Some d, fs3) /\
    db_ok (db_cache d) B' B' /\ view (db_cache d) = persisted (db_cache (ss_db ses')) /\
    (B' = B0 \/ B' = B \/ B' = add_blocks B (tx_pendingBlockData (ss_tx ses)) /\ o = Val tt).
Proof.
  pose proof (Commit_spec ses B B0 fs Hdb Htx) as Hwp. unfold wp in Hwp. rewrite Hrun in Hwp.
  destruct Hwp as (([Hnw Hmx] & B' & HB' & Ho) & _). set (c' := db_cache (ss_db ses')) in *.
  assert (Hrec : recoverable c' B').
  { destruct o as [u|e| |]; [| |done|done]; (destruct Ho as [_ Hb Hn _ _ (p & Hp & _)]; split; [done|done|by exists p]). }
  destruct (reopen c' B' network now fs2 Hrec) as (d & fs3 & Hopen & Hdb' & Hv & _).
  - rewrite Hmx. exact Hmax.
  - rewrite Hnw. exact Hnet.
  - done.
  - exists B', d, fs3. by split_and!.
Qed.

(** C: metadata that reach further than the files are not opened: when the write
    row is past the end of the last file, opening gives [ErrCorruption]. *)
Theorem openDB_detects_loss (files : gmap Z bytes) (l : L) network now p fs
    (Hnum : forall n, is_Some (files !! n) -> 0 <= n < maxFiles)
    (Hlen : forall n (x : bytes), files !! n = Some x -> len x <= maxBlockFileSize) (Hnet : 0 <= network < 2 ^ 32)
    (Hrow : ldb_view l !! row_key = Some (serializeWriteRow p.1 p.2)) (Hp : 0 <= p.1 < 2 ^ 32 /\ 0 <= p.2 < 2 ^ 32)
    (Hloss : ~ pos_le p (cursor (newBlockStore files network))) (Hgood : good fs) :
  exists d fs', openDB (mkDisk files (Some l)) network false now fs = (Error ErrCorruption, Some d, fs') /\
    crash d = mkDisk files (Some l).
Proof.
  destruct (fresh_store files network Hnum Hlen Hnet) as (Hok & _ & _ & _ & Hf & _).
  set (s := newBlockStore files network) in *.
  set (d0 := mkDb false (newDbCache l s defaultCacheSize defaultFlushSecs now)).
  assert (Hview0 : view (db_cache d0) = ldb_view l) by (unfold view; cbn; by rewrite !km_view_empty, overlay_empty).
  assert (Hwp : wp (_ ← zoom db_cache set_cache ldb_call; reconcileDB false) d0 fs (fun o d' _ => o = Error ErrCorruption /\ d' = d0)).
  { apply wp_bind, wp_zoom. apply (wp_mono _ _ _ _ _ (ldb_call_spec _ fs)). intros o c' fs1 (-> & _ & Hg). destruct (Hg Hgood) as [-> Hg1].
    assert (set_cache (db_cache d0) d0 = d0) as -> by done.
    unfold DbBlocks.reconcileDB. apply wp_bind, wp_ret, wp_bind.
    apply (wp_mono _ _ _ _ _ (read_write_row_spec d0 p fs1 eq_refl ltac:(by rewrite Hview0) (proj1 Hp) (proj2 Hp) Hg1)).
    intros o d' fs2 (-> & -> & _). destruct p as [pn po]. unfold pos_le, cursor in Hloss. cbn [fst snd] in *. apply wp_get.
    change (ca_store (db_cache d0)) with s.
    assert ((pn <? s_curFileNum s) || (s_curFileNum s =? pn) && (po <? s_curOffset s) = false) as ->.
    { apply orb_false_iff. rewrite andb_false_iff, Z.ltb_ge, Z.eqb_neq, Z.ltb_ge. lia. }
    apply wp_bind, wp_ret, wp_get. change (ca_store (db_cache d0)) with s.
    assert ((s_curFileNum s <? pn) || (s_curFileNum s =? pn) && (s_curOffset s <? po) = true) as ->; [|done].
    apply orb_true_iff. rewrite andb_true_iff, Z.ltb_lt, Z.eqb_eq, Z.ltb_lt. lia. }
  destruct (wp_run _ _ _ _ Hwp) as (o & d' & fs' & Hrun & -> & ->). exists d0, fs'. split.
  - unfold DbBlocks.openDB. cbn [dk_metadata dk_files negb andb default from_option id]. cbv zeta. fold s. fold d0. by rewrite Hrun.
  - unfold crash. cbn. by rewrite Hf.
Qed.

(** C: creating a database where there is none gives an empty one, with the layout
    of the metadata in order; where there is one, an error. *)
Theorem openDB_creates network now fs (Hnet : 0 <= network < 2 ^ 32) (Hgood : good fs) :
  (exists d fs', openDB (mkDisk ∅ None) network true now fs = (Val tt, Some d, fs') /\
    db_ok (db_cache d) ∅ ∅ /\ db_closed d = false /\ meta_ok 1 (view (db_cache d))) /\
  forall files l, openDB (mkDisk files (Some l)) network true now fs = (Error ErrDriverSpecific, None, fs) /\
    openDB (mkDisk files None) network false now fs = (Error ErrDbDoesNotExist, None, fs).
Proof.
  split; [|done]. set (s := newBlockStore ∅ network).
  destruct (fresh_store ∅ network) as (Hok & _); [by intros n [??]|done|done|].
  set (d0 := mkDb false (newDbCache ldb_new s defaultCacheSize defaultFlushSecs now)).
  assert (Hwp : wp (_ ← zoom db_cache set_cache ldb_call; reconcileDB true) d0 fs (fun o d' _ => o = Val tt /\
    db_ok (db_cache d') ∅ ∅ /\ db_closed d' = false /\ meta_ok 1 (view (db_cache d')))).
  { apply wp_bind, wp_zoom. apply (wp_mono _ _ _ _ _ (ldb_call_spec _ fs)). intros o c' fs1 (-> & _ & Hg). destruct (Hg Hgood) as [-> Hg1].
    assert (set_cache (db_cache d0) d0 = d0) as -> by done.
    unfold DbBlocks.reconcileDB. apply wp_bind, wp_zoom. unfold initDB. apply wp_bind.
    apply (wp_mono _ _ _ _ _ (ldb_call_spec _ fs1)). intros o c' fs2 (-> & _ & Hg2). destruct (Hg2 Hg1) as [-> Hg3]. apply wp_get.
    set (c1 := set_ldb _ _). set (d1 := set_cache c1 d0).
    assert (Hpers : persisted c1 = init_meta (serializeWriteRow 0 0)).
    { unfold persisted, c1. cbn [ca_ldb set_ldb]. rewrite ldb_write_view. cbn [db_cache d0 newDbCache ca_ldb]. rewrite ldb_new_view. done. }
    assert (Hview : view c1 = init_meta (serializeWriteRow 0 0)).
    { rewrite <- Hpers. unfold view, c1. cbn. by rewrite !km_view_empty, overlay_empty. }
    assert (Hdb : db_ok c1 ∅ ∅) by (by apply new_db_ok).
    assert (Hrow : view (db_cache d1) !! row_key = Some (serializeWriteRow 0 0)).
    { change (view (db_cache d1)) with (view c1). rewrite Hview. apply (init_consistent s). split; cbn; [lia|lia|apply len_nonneg|by left]. }
    unfold wp at 1. cbn [put]. fold d1. apply wp_bind.
    apply (wp_mono _ _ _ _ _ (read_write_row_spec d1 (0, 0) fs2 eq_refl Hrow ltac:(cbn; lia) ltac:(cbn; lia) Hg3)).
    intros o d' fs3 (-> & -> & _). apply wp_get. cbn. apply wp_bind, wp_ret, wp_get. cbn. apply wp_ret.
    split_and!; [done|exact Hdb|done|]. change (meta_ok 1 (view c1)). rewrite Hview. apply meta_ok_init. }
  destruct (wp_run _ _ _ _ Hwp) as (o & d' & fs' & Hrun & -> & Hdb & Hcl & Hm). exists d', fs'. split_and!; try done.
  unfold DbBlocks.openDB. cbn [dk_metadata dk_files negb andb default from_option id]. cbv zeta. fold s. fold d0. by rewrite Hrun.
Qed.
End opening.

(** * At a concrete input *)

#[local] Instance demo_K : KeyMap drawn := immutable_KeyMap rand0.
#[local] Instance demo_KL : KeyMapLaws drawn := immutable_KeyMapLaws rand0.
#[local] Instance demo_M : KeyMap drawn_mutable := mutable_KeyMap rand0.
#[local] Instance demo_ML : KeyMapLaws drawn_mutable := mutable_KeyMapLaws rand0.
Abbreviation demo_open := (DbBlocks.openDB (L:=gmap bytes bytes) (P:=drawn_mutable) (C:=drawn)).

Lemma openDB_recovers_witness : exists d fs', demo_open (mkDisk (s_files full_store) (Some full_meta)) 7 false 0 [] = (Val tt, Some d, fs').
Proof.
  assert (Hrec : recoverable full_dbCache {[ [x01] := demo_raw ]}).
  { destruct full_db as [_ Hb Hn _ _ (p & Hp & _)]. split; [done|done|by exists p]. }
  destruct (openDB_recovers (P:=drawn_mutable) full_dbCache {[ [x01] := demo_raw ]} 7 0 [] Hrec eq_refl ltac:(by vm_compute) ltac:(constructor))
    as (d & fs' & H & _). exists d, fs'. exact H.
Defined.

Lemma crash_safe_witness : exists d fs3,
  demo_open (crash (ss_db (Commit demo_session [Good; Bad 2]).1.2)) 7 false 0 [] = (Val tt, Some d, fs3).
Proof.
  destruct (Commit demo_session [Good; Bad 2]) as [[o ses'] fs'] eqn:Hrun.
  destruct (crash_safe demo_session ∅ ∅ [Good; Bad 2] o ses' fs' 7 0 [] demo_db demo_tx_ready eq_refl ltac:(by vm_compute) Hrun
    ltac:(constructor)) as (B' & d & fs3 & H & _). exists d, fs3. exact H.
Defined.

Lemma openDB_detects_loss_witness : exists d fs', demo_open (mkDisk ∅ (Some full_meta)) 7 false 0 [] = (Error ErrCorruption, Some d, fs').
Proof.
  destruct (openDB_detects_loss (P:=drawn_mutable) (C:=drawn) ∅ full_meta 7 0 (0, 15) []) as (d & fs' & H & _).
  - intros n [x Hx]. by rewrite lookup_empty in Hx.
  - intros n x Hx. by rewrite lookup_empty in Hx.
  - by vm_compute.
  - reflexivity.
  - by vm_compute.
  - vm_compute. intros [H|[_ H]]; [discriminate|by apply H].
  - constructor.
  - exists d, fs'. exact H.
Defined.

Lemma openDB_creates_witness : exists d fs', demo_open (mkDisk ∅ None) 7 true 0 [] = (Val tt, Some d, fs') /\ db_closed d = false.
Proof.
  destruct (openDB_creates (L:=gmap bytes bytes) (P:=drawn_mutable) (C:=drawn) 7 0 [] ltac:(by vm_compute) ltac:(constructor))
    as [(d & fs' & H & _ & Hc & _) _]. exists d, fs'. split; [exact H|exact Hc].
Defined.
