(* ===== verification/IterMerge.v ===== *)
(** * Iterators, and the merge of two of them

    The database walks over two iterators at once: the one of the database below,
    whose changed keys are skipped, and the one of the pending keys.  The code of
    this is in dbcache.go for the cache over the metadata database and again in
    db.go for a transaction over the cache.  [Iter] is the interface of goleveldb
    that both sides have; its laws speak of walks in one direction, what remains
    of the entries being a list. *)

From Stdlib Require Import ZArith Lia.
From stdpp Require Import sorting.
From S2P Require Import Prelude WireCommon Treap TreapIter KeyMap.

Open Scope Z_scope.

Abbreviation entry := (bytes * bytes)%type.

(** [First], [Last], [Next], [Prev] and [Seek]; [Valid], [Key] and [Value] are in
    the current entry.  The bound makes the loops over an iterator total. *)
Class Iter (I : Type) : Type := {
  iter_First : I -> I;
  iter_Last : I -> I;
  iter_Next : I -> I;
  iter_Prev : I -> I;
  iter_Seek : bytes -> I -> I;
  iter_entry : I -> option entry;
  iter_bound : I -> nat;
}.
#[export] Hint Mode Iter ! : typeclass_instances.

Definition iter_step {I} `{Iter I} (forwards : bool) : I -> I := if forwards then iter_Next else iter_Prev.
Definition iter_start {I} `{Iter I} (forwards : bool) : I -> I := if forwards then iter_First else iter_Last.
Definition directed (forwards : bool) (l : list entry) : list entry := if forwards then l else rev l.

(** The order of a walk. *)
Definition comes_before (forwards : bool) (a b : bytes) : Prop := if forwards then key_lt a b else key_lt b a.
Definition walk_sorted (forwards : bool) (l : list entry) : Prop := StronglySorted (comes_before forwards) l.*1.
Definition from_key (k : bytes) (e : entry) : bool := match bytes_Compare k e.1 with Gt => false | _ => true end.

Class IterLaws (I : Type) `{Iter I} : Type := {
  iter_ok : I -> Prop;
  iter_list : I -> list entry;                    (* the entries of its range *)
  iter_walk : bool -> I -> list entry -> Prop;    (* what remains, the current entry first *)
  iter_seekable : bytes -> I -> Prop;
  iter_sorted it : iter_ok it -> sorted_keys (iter_list it);
  iter_bounded it : iter_ok it -> (length (iter_list it) <= iter_bound it)%nat;
  iter_walk_start d it : iter_ok it -> iter_walk d (iter_start d it) (directed d (iter_list it));
  iter_walk_seek k it : iter_ok it -> iter_seekable k it -> iter_walk true (iter_Seek k it) (List.filter (from_key k) (iter_list it));
  iter_walk_entry d it e l : iter_walk d it (e :: l) -> iter_entry it = Some e /\ iter_walk d (iter_step d it) l;
  iter_walk_end d it : iter_walk d it [] -> iter_entry it = None;
  iter_same_start d it : iter_ok it -> iter_ok (iter_start d it) /\ iter_list (iter_start d it) = iter_list it /\ iter_bound (iter_start d it) = iter_bound it;
  iter_same_seek k it : iter_ok it -> iter_ok (iter_Seek k it) /\ iter_list (iter_Seek k it) = iter_list it /\ iter_bound (iter_Seek k it) = iter_bound it;
  iter_same_step d it : iter_ok it -> iter_ok (iter_step d it) /\ iter_list (iter_step d it) = iter_list it /\ iter_bound (iter_step d it) = iter_bound it;
}.

(** ** The merge *)

Section merge.
Context {I J : Type} `{!Iter I, !Iter J}.

Record merged : Type := mkMerged {
  mg_dbIter : I;
  mg_pendingIter : J;
  mg_currentIter : option bool;   (* [Some true]: the database; [Some false]: the pending keys *)
}.

(** Whether the pending changes hide a key of the database. *)
Variable skip : bytes -> bool.

Fixpoint skip_loop (forwards : bool) (fuel : nat) (dbIter : I) : I :=
  match fuel with
  | O => dbIter
  | S fuel =>
      match iter_entry dbIter with
      | Some (key, _) => if skip key then skip_loop forwards fuel (iter_step forwards dbIter) else dbIter
      | None => dbIter
      end
  end.
Definition skipPendingUpdates (forwards : bool) (c : merged) : merged :=
  mkMerged (skip_loop forwards (S (iter_bound (mg_dbIter c))) (mg_dbIter c)) (mg_pendingIter c) (mg_currentIter c).

(** When both are valid, whether the pending one comes first. *)
Definition pending_first (forwards : bool) (dbKey pendingKey : bytes) : bool :=
  match bytes_Compare dbKey pendingKey, forwards with
  | Gt, true | Lt, false => true
  | _, _ => false
  end.

Definition set_current (c : merged) (cur : option bool) : merged := mkMerged (mg_dbIter c) (mg_pendingIter c) cur.

Definition chooseIterator (forwards : bool) (c : merged) : merged :=
  let c := skipPendingUpdates forwards c in
  match iter_entry (mg_dbIter c), iter_entry (mg_pendingIter c) with
  | None, None => set_current c None
  | Some _, None => set_current c (Some true)
  | None, Some _ => set_current c (Some false)
  | Some (dbKey, _), Some (pendingKey, _) => set_current c (Some (negb (pending_first forwards dbKey pendingKey)))
  end.

Definition merged_First (c : merged) : merged :=
  chooseIterator true (mkMerged (iter_First (mg_dbIter c)) (iter_First (mg_pendingIter c)) (mg_currentIter c)).
Definition merged_Last (c : merged) : merged :=
  chooseIterator false (mkMerged (iter_Last (mg_dbIter c)) (iter_Last (mg_pendingIter c)) (mg_currentIter c)).
Definition merged_Seek (seekKey : bytes) (c : merged) : merged :=
  chooseIterator true (mkMerged (iter_Seek seekKey (mg_dbIter c)) (iter_Seek seekKey (mg_pendingIter c)) (mg_currentIter c)).

(** The current iterator moves, and the other stays. *)
Definition move_current (forwards : bool) (c : merged) : merged :=
  match mg_currentIter c with
  | None => c
  | Some true => chooseIterator forwards (mkMerged (iter_step forwards (mg_dbIter c)) (mg_pendingIter c) (mg_currentIter c))
  | Some false => chooseIterator forwards (mkMerged (mg_dbIter c) (iter_step forwards (mg_pendingIter c)) (mg_currentIter c))
  end.
Definition merged_Next (c : merged) : merged := move_current true c.
Definition merged_Prev (c : merged) : merged := move_current false c.

Definition merged_entry (c : merged) : option entry :=
  match mg_currentIter c with
  | None => None
  | Some true => iter_entry (mg_dbIter c)
  | Some false => iter_entry (mg_pendingIter c)
  end.

(** ** What it should walk over *)

Definition kept_entry (e : entry) : bool := negb (skip e.1).

Fixpoint merge_lists (forwards : bool) (l1 : list entry) : list entry -> list entry :=
  fix inner l2 :=
    match l1, l2 with
    | [], _ => l2
    | _, [] => l1
    | e1 :: l1', e2 :: l2' =>
        if pending_first forwards e1.1 e2.1 then e2 :: inner l2' else e1 :: merge_lists forwards l1' l2
    end.
End merge.
Arguments merged : clear implicits.

(** * Proofs *)

(** ** Lists in the order of a walk *)

Lemma comes_before_irrefl d a : ~ comes_before d a a.
Proof. destruct d; apply key_lt_irrefl. Qed.
Lemma comes_before_trans d a b c : comes_before d a b -> comes_before d b c -> comes_before d a c.
Proof. destruct d; cbn; intros H1 H2; by eapply key_lt_trans. Qed.

Lemma walk_sorted_cons d e l : walk_sorted d (e :: l) <-> walk_sorted d l /\ Forall (fun x => comes_before d e.1 x.1) l.
Proof.
  unfold walk_sorted. cbn. split.
  - intros H. apply StronglySorted_inv in H as [H1 H2]. split; [done|]. rewrite list.Forall_fmap in H2. exact H2.
  - intros [H1 H2]. constructor; [done|]. rewrite list.Forall_fmap. exact H2.
Qed.

Lemma walk_sorted_nodup d l : walk_sorted d l -> NoDup l.
Proof.
  induction l as [|e l IH]; intros H; [constructor|]. apply walk_sorted_cons in H as [Hl He]. constructor; [|auto].
  intros Hin. rewrite list.Forall_forall in He. apply (comes_before_irrefl d e.1), He, Hin.
Qed.

(** Sorted lists with the same entries are equal. *)
Lemma walk_sorted_unique d l l' : walk_sorted d l -> walk_sorted d l' -> (forall e, e ∈ l <-> e ∈ l') -> l = l'.
Proof.
  revert l'. induction l as [|e l IH]; intros [|e' l'] Hs Hs' Hin; [done| | |].
  - specialize (Hin e'). destruct Hin as [_ Hin]. specialize (Hin ltac:(by left)). by apply elem_of_nil in Hin.
  - specialize (Hin e). destruct Hin as [Hin _]. specialize (Hin ltac:(by left)). by apply elem_of_nil in Hin.
  - pose proof Hs as Hs1. pose proof Hs' as Hs1'. apply walk_sorted_cons in Hs as [Hs He], Hs' as [Hs' He'].
    rewrite list.Forall_forall in He, He'.
    assert (e = e') as <-.
    { destruct (proj1 (elem_of_cons _ _ _) (proj1 (Hin e) ltac:(by left))) as [|H]; [done|].
      destruct (proj1 (elem_of_cons _ _ _) (proj2 (Hin e') ltac:(by left))) as [|H']; [done|].
      exfalso. eapply comes_before_irrefl, comes_before_trans; [by apply He'|by apply He]. }
    f_equal. apply IH; [done|done|]. intros x. specialize (Hin x). rewrite !elem_of_cons in Hin. split; intros Hx.
    + destruct (proj1 Hin (or_intror Hx)) as [-> | H]; [|done]. by apply He, comes_before_irrefl in Hx.
    + destruct (proj2 Hin (or_intror Hx)) as [-> | H]; [|done]. by apply He', comes_before_irrefl in Hx.
Qed.

Lemma walk_sorted_rev d l : walk_sorted d l -> walk_sorted (negb d) (rev l).
Proof.
  induction l as [|e l IH]; intros H; [constructor|]. apply walk_sorted_cons in H as [Hl He]. cbn. specialize (IH Hl).
  rewrite list.Forall_forall in He. clear Hl.
  assert (Hall : Forall (fun x => comes_before (negb d) x.1 e.1) (rev l)).
  { apply list.Forall_forall. intros x Hx. apply list_elem_of_In, in_rev, list_elem_of_In, He in Hx. by destruct d. }
  clear He. revert IH Hall. generalize (rev l). intros r. induction r as [|x r IHr]; intros Hr Hall.
  - apply walk_sorted_cons. by split; constructor.
  - cbn. apply walk_sorted_cons in Hr as [Hr Hx]. apply list.Forall_cons in Hall as [Hxe Hall].
    apply walk_sorted_cons. split; [by apply IHr|]. apply list.Forall_app. split; [done|]. by constructor; [|constructor].
Qed.

Lemma walk_sorted_directed d l : sorted_keys l -> walk_sorted d (directed d l).
Proof. intros H. destruct d; [done|]. by apply (walk_sorted_rev true). Qed.

Lemma walk_sorted_filter d (f : entry -> bool) l : walk_sorted d l -> walk_sorted d (List.filter f l).
Proof.
  induction l as [|e l IH]; intros H; [constructor|]. apply walk_sorted_cons in H as [Hl He]. cbn. destruct (f e); [|auto].
  apply walk_sorted_cons. split; [auto|]. rewrite list.Forall_forall in He |- *. intros x Hx.
  apply He. apply list_elem_of_In in Hx. apply filter_In in Hx as [Hx _]. by apply list_elem_of_In.
Qed.

(** ** The merged list *)

Lemma pending_first_spec d a b : a <> b -> if pending_first d a b then comes_before d b a else comes_before d a b.
Proof.
  intros Hne. unfold pending_first. destruct (bytes_Compare a b) eqn:E.
  - by apply bytes_Compare_eq in E.
  - destruct d; cbn; [done|]. exact E.
  - apply bytes_Compare_gt in E. by destruct d.
Qed.

Definition apart (l1 l2 : list entry) : Prop := forall e1 e2, e1 ∈ l1 -> e2 ∈ l2 -> e1.1 <> e2.1.

Lemma elem_of_merge d l1 l2 e : e ∈ merge_lists d l1 l2 <-> e ∈ l1 \/ e ∈ l2.
Proof.
  revert l2. induction l1 as [|e1 l1 IH1]; intros l2; [cbn; destruct l2; rewrite ?elem_of_nil; naive_solver|].
  induction l2 as [|e2 l2 IH2]; [cbn; rewrite elem_of_nil; naive_solver|].
  cbn [merge_lists]. destruct (pending_first d e1.1 e2.1).
  - rewrite elem_of_cons, IH2. rewrite !elem_of_cons. naive_solver.
  - rewrite elem_of_cons, IH1. rewrite !elem_of_cons. naive_solver.
Qed.

Lemma merge_sorted d l1 l2 : walk_sorted d l1 -> walk_sorted d l2 -> apart l1 l2 -> walk_sorted d (merge_lists d l1 l2).
Proof.
  revert l2. induction l1 as [|e1 l1 IH1]; intros l2 H1 H2 Ha; [by destruct l2|].
  induction l2 as [|e2 l2 IH2]; [done|]. cbn [merge_lists].
  pose proof (pending_first_spec d e1.1 e2.1 (Ha e1 e2 ltac:(by left) ltac:(by left))) as Hp.
  pose proof H1 as H1'. pose proof H2 as H2'. apply walk_sorted_cons in H1 as [Hs1 He1], H2 as [Hs2 He2].
  rewrite list.Forall_forall in He1, He2.
  destruct (pending_first d e1.1 e2.1); apply walk_sorted_cons; (split; [|apply list.Forall_forall; intros x Hx]).
  - apply IH2; [done|]. intros a b Ha1 Hb2. apply Ha; [done|by right].
  - apply (elem_of_merge d (e1 :: l1) l2) in Hx as [Hx|Hx]; [|by apply He2]. apply elem_of_cons in Hx as [-> | Hx]; [done|].
    eapply comes_before_trans; [done|by apply He1].
  - apply IH1; [done|done|]. intros a b Ha1 Hb2. apply Ha; [by right|done].
  - apply (elem_of_merge d l1 (e2 :: l2)) in Hx as [Hx|Hx]; [by apply He1|]. apply elem_of_cons in Hx as [-> | Hx]; [done|].
    eapply comes_before_trans; [done|by apply He2].
Qed.

(** ** The merged iterator *)

Definition merged_Iter {I J} `{!Iter I, !Iter J} (skip : bytes -> bool) : Iter (merged I J) := {|
  iter_First := merged_First skip;
  iter_Last := merged_Last skip;
  iter_Next := merged_Next skip;
  iter_Prev := merged_Prev skip;
  iter_Seek := merged_Seek skip;
  iter_entry := merged_entry;
  iter_bound c := (iter_bound (mg_dbIter c) + iter_bound (mg_pendingIter c))%nat;
|}.

Section merge_laws.
Context {I J : Type} `{!Iter I, !Iter J, !IterLaws I, !IterLaws J}.
Context (skip : bytes -> bool).
Implicit Types (c : merged I J).
Abbreviation kept := (kept_entry skip).

(** The two iterators are in order, and no key is kept on both sides. *)
Record merged_ok c : Prop := {
  mk_db : iter_ok (mg_dbIter c);
  mk_pending : iter_ok (mg_pendingIter c);
  mk_apart : apart (List.filter kept (iter_list (mg_dbIter c))) (iter_list (mg_pendingIter c));
}.
Definition merged_list c : list entry :=
  merge_lists true (List.filter kept (iter_list (mg_dbIter c))) (iter_list (mg_pendingIter c)).

(** The same entries and bounds as before. *)
Definition alike {K} `{!Iter K, !IterLaws K} (it it' : K) : Prop :=
  iter_ok it' /\ iter_list it' = iter_list it /\ iter_bound it' = iter_bound it.

Lemma alike_trans {K} `{!Iter K, !IterLaws K} (a b c : K) : alike a b -> alike b c -> alike a c.
Proof. intros (?&?&?) (?&?&?). repeat split; congruence. Qed.
Lemma alike_refl {K} `{!Iter K, !IterLaws K} (a : K) : iter_ok a -> alike a a.
Proof. by repeat split. Qed.

Definition hidden_head (l : list entry) : Prop := match l with e :: _ => skip e.1 = true | [] => False end.

Lemma skip_loop_spec d fuel : forall (it : I) l, iter_ok it -> iter_walk d it l -> (length l < fuel)%nat ->
  exists l' n, alike it (skip_loop skip d fuel it) /\ iter_walk d (skip_loop skip d fuel it) l' /\
    l' = drop n l /\ List.filter kept l' = List.filter kept l /\ ~ hidden_head l'.
Proof.
  induction fuel as [|fuel IH]; intros it l Hok Hw Hf; [lia|]. cbn [skip_loop]. destruct l as [|[k v] l].
  - rewrite (iter_walk_end _ _ Hw). exists [], 0%nat. split_and!; [by apply alike_refl|done|done|done|]. intros [].
  - destruct (iter_walk_entry _ _ _ _ Hw) as [-> Hw']. destruct (skip k) eqn:Hs.
    + pose proof (iter_same_step d it Hok) as Hsame.
      destruct (IH (iter_step d it) l (proj1 Hsame) Hw' ltac:(cbn in Hf; lia)) as (l' & n & Ha & Hwl & Hd & Hfl & Hh).
      exists l', (S n). split_and!; [eapply alike_trans; done|done|done| |done]. rewrite Hfl. cbn. unfold kept_entry at 2. cbn. by rewrite Hs.
    + exists ((k, v) :: l), 0%nat. split_and!; [by apply alike_refl|done|done|done|]. cbn. by rewrite Hs.
Qed.

(** In the middle of a walk. *)
Record walking (d : bool) c (l1 l2 : list entry) : Prop := {
  wk_ok : merged_ok c;
  wk_db : iter_walk d (mg_dbIter c) l1;
  wk_pending : iter_walk d (mg_pendingIter c) l2;
  wk_sorted1 : walk_sorted d l1;
  wk_bound : (length l1 <= iter_bound (mg_dbIter c))%nat;
}.
Definition choice (d : bool) (l1 l2 : list entry) : option bool :=
  match l1, l2 with
  | [], [] => None
  | _ :: _, [] => Some true
  | [], _ :: _ => Some false
  | e1 :: _, e2 :: _ => Some (negb (pending_first d e1.1 e2.1))
  end.
Definition merged_walk (d : bool) c (l : list entry) : Prop :=
  exists l1 l2, walking d c l1 l2 /\ ~ hidden_head l1 /\ mg_currentIter c = choice d l1 l2 /\
    l = merge_lists d (List.filter kept l1) l2.

Lemma walk_sorted_drop d n l : walk_sorted d l -> walk_sorted d (drop n l).
Proof.
  revert n. induction l as [|e l IH]; intros [|n] H; [done|done|done|]. apply walk_sorted_cons in H as [H _]. by apply IH.
Qed.

Lemma choose_walk d c l1 l2 : walking d c l1 l2 ->
  merged_walk d (chooseIterator skip d c) (merge_lists d (List.filter kept l1) l2) /\
  alike (mg_dbIter c) (mg_dbIter (chooseIterator skip d c)) /\ mg_pendingIter (chooseIterator skip d c) = mg_pendingIter c.
Proof.
  intros [[Hdb Hp Hh] Hw1 Hw2 Hs Hb]. set (db := skip_loop skip d (S (iter_bound (mg_dbIter c))) (mg_dbIter c)).
  destruct (skip_loop_spec d (S (iter_bound (mg_dbIter c))) (mg_dbIter c) l1 Hdb Hw1 ltac:(lia)) as (l' & n & Ha & Hw & Hd & Hf & Hhd).
  fold db in Ha, Hw.
  assert (Hres : exists cur, chooseIterator skip d c = mkMerged db (mg_pendingIter c) cur /\ cur = choice d l' l2).
  { unfold chooseIterator, skipPendingUpdates. cbn [mg_dbIter mg_pendingIter]. fold db.
    destruct l' as [|[k1 v1] l'], l2 as [|[k2 v2] l2].
    - rewrite (iter_walk_end _ _ Hw), (iter_walk_end _ _ Hw2). by eexists.
    - rewrite (iter_walk_end _ _ Hw), (proj1 (iter_walk_entry _ _ _ _ Hw2)). by eexists.
    - rewrite (proj1 (iter_walk_entry _ _ _ _ Hw)), (iter_walk_end _ _ Hw2). by eexists.
    - rewrite (proj1 (iter_walk_entry _ _ _ _ Hw)), (proj1 (iter_walk_entry _ _ _ _ Hw2)). by eexists. }
  destruct Hres as (cur & -> & ->). split; [|done]. exists l', l2. split_and!; [|done|done|by rewrite Hf].
  split; cbn [mg_dbIter mg_pendingIter];
    [split; cbn [mg_dbIter mg_pendingIter]; [apply Ha|done|by rewrite (proj1 (proj2 Ha))]|done|done|subst l'; by apply walk_sorted_drop|].
  destruct Ha as (_ & _ & Hbd). subst l'. change (length (drop n l1) <= iter_bound db)%nat. rewrite Hbd, length_drop. lia.
Qed.

Lemma merged_alike c c' : merged_ok c -> alike (mg_dbIter c) (mg_dbIter c') -> alike (mg_pendingIter c) (mg_pendingIter c') ->
  merged_ok c' /\ merged_list c' = merged_list c /\
  (iter_bound (mg_dbIter c') + iter_bound (mg_pendingIter c') = iter_bound (mg_dbIter c) + iter_bound (mg_pendingIter c))%nat.
Proof.
  intros [_ _ Hh] (H1 & H2 & H3) (H4 & H5 & H6). split_and!; [|unfold merged_list; congruence|congruence].
  split; [done|done|]. by rewrite H2, H5.
Qed.

Lemma filter_apart c (f g : entry -> bool) : merged_ok c ->
  apart (List.filter f (List.filter kept (iter_list (mg_dbIter c)))) (List.filter g (iter_list (mg_pendingIter c))).
Proof.
  intros Hok e1 e2 H1 H2. apply (mk_apart _ Hok).
  - apply list_elem_of_In, filter_In in H1 as [H1 _]. by apply list_elem_of_In.
  - apply list_elem_of_In, filter_In in H2 as [H2 _]. by apply list_elem_of_In.
Qed.

Lemma filter_all {A} (l : list A) : List.filter (fun _ => true) l = l.
Proof. induction l as [|x l IH]; [done|]. cbn. by f_equal. Qed.

Lemma merged_sorted c : merged_ok c -> sorted_keys (merged_list c).
Proof.
  intros Hok. apply (merge_sorted true).
  - apply walk_sorted_filter, (iter_sorted _ (mk_db _ Hok)).
  - apply (iter_sorted _ (mk_pending _ Hok)).
  - pose proof (filter_apart c (fun _ => true) (fun _ => true) Hok) as H. by rewrite !filter_all in H.
Qed.

Lemma merge_length d (l1 l2 : list entry) : length (merge_lists d l1 l2) = (length l1 + length l2)%nat.
Proof.
  revert l2. induction l1 as [|e1 l1 IH1]; intros l2; [by destruct l2|]. induction l2 as [|e2 l2 IH2]; [cbn; lia|].
  cbn [merge_lists]. destruct (pending_first d e1.1 e2.1); cbn [length].
  - etransitivity; [apply (f_equal S IH2)|]. cbn [length]. lia.
  - rewrite IH1. cbn [length]. lia.
Qed.

Lemma elem_directed d (l : list entry) e : e ∈ directed d l <-> e ∈ l.
Proof. destruct d; [done|]. cbn. by rewrite !list_elem_of_In, <- in_rev. Qed.
Lemma elem_filter (f : entry -> bool) l e : e ∈ List.filter f l <-> e ∈ l /\ f e = true.
Proof. by rewrite !list_elem_of_In, filter_In. Qed.

Lemma apart_directed d l1 l2 : apart l1 l2 -> apart (directed d l1) (directed d l2).
Proof. intros H e1 e2 H1%elem_directed H2%elem_directed. by apply H. Qed.

(** The walk from an end, and from a key. *)
Lemma directed_merge d c : merged_ok c ->
  directed d (merged_list c) = merge_lists d (List.filter kept (directed d (iter_list (mg_dbIter c)))) (directed d (iter_list (mg_pendingIter c))).
Proof.
  intros Hok. pose proof (filter_apart c (fun _ => true) (fun _ => true) Hok) as Hap. rewrite !filter_all in Hap.
  apply (walk_sorted_unique d).
  - by apply walk_sorted_directed, merged_sorted.
  - apply merge_sorted.
    + apply walk_sorted_filter, walk_sorted_directed, iter_sorted, Hok.
    + apply walk_sorted_directed, iter_sorted, Hok.
    + intros e1 e2 [H1%elem_directed H1']%elem_filter H2%elem_directed. apply Hap; [|done]. by apply elem_filter.
  - intros e. unfold merged_list. rewrite elem_directed, !elem_of_merge, !elem_filter, !elem_directed. done.
Qed.

Lemma seek_merge k c : merged_ok c ->
  List.filter (from_key k) (merged_list c) =
    merge_lists true (List.filter kept (List.filter (from_key k) (iter_list (mg_dbIter c)))) (List.filter (from_key k) (iter_list (mg_pendingIter c))).
Proof.
  intros Hok. apply (walk_sorted_unique true).
  - apply walk_sorted_filter. by apply merged_sorted.
  - apply merge_sorted.
    + do 2 apply walk_sorted_filter. apply (iter_sorted _ (mk_db _ Hok)).
    + apply walk_sorted_filter, (iter_sorted _ (mk_pending _ Hok)).
    + intros e1 e2 [[H1 H1']%elem_filter H1'']%elem_filter H2. apply (filter_apart c (from_key k) (from_key k) Hok); [|done].
      by rewrite !elem_filter.
  - intros e. unfold merged_list. rewrite elem_filter, !elem_of_merge, !elem_filter. naive_solver.
Qed.

#[local] Instance merged_Iter' : Iter (merged I J) := merged_Iter skip.

Lemma start_walking d c : merged_ok c ->
  walking d (mkMerged (iter_start d (mg_dbIter c)) (iter_start d (mg_pendingIter c)) (mg_currentIter c))
    (directed d (iter_list (mg_dbIter c))) (directed d (iter_list (mg_pendingIter c))).
Proof.
  intros [H1 H2 H3]. destruct (iter_same_start d _ H1) as (Ha & Hb & Hc), (iter_same_start d _ H2) as (Ha' & Hb' & Hc').
  split; cbn; [split; cbn; [done|done|by rewrite Hb, Hb']|by apply iter_walk_start|by apply iter_walk_start|by apply walk_sorted_directed, iter_sorted|].
  rewrite Hc. pose proof (iter_bounded _ H1). destruct d; cbn; [|rewrite length_rev]; lia.
Qed.

Lemma merged_start d c : iter_start d c = chooseIterator skip d (mkMerged (iter_start d (mg_dbIter c)) (iter_start d (mg_pendingIter c)) (mg_currentIter c)).
Proof. by destruct d. Qed.
Lemma merged_step d c : iter_step d c = move_current skip d c.
Proof. by destruct d. Qed.

Lemma skip_alike d fuel : forall it : I, iter_ok it -> alike it (skip_loop skip d fuel it).
Proof.
  induction fuel as [|fuel IH]; intros it Hok; cbn [skip_loop]; [by apply alike_refl|].
  destruct (iter_entry it) as [[k v]|]; [|by apply alike_refl]. destruct (skip k); [|by apply alike_refl].
  pose proof (iter_same_step d it Hok) as Hsame. eapply alike_trans; [exact Hsame|]. apply IH, Hsame.
Qed.

Lemma choose_shape d c : exists cur,
  chooseIterator skip d c = mkMerged (skip_loop skip d (S (iter_bound (mg_dbIter c))) (mg_dbIter c)) (mg_pendingIter c) cur.
Proof.
  unfold chooseIterator, skipPendingUpdates. cbn [mg_dbIter mg_pendingIter].
  destruct (iter_entry (skip_loop _ _ _ _)) as [[k v]|], (iter_entry (mg_pendingIter c)) as [[k' v']|]; by eexists.
Qed.

Lemma choose_alike d c0 c : merged_ok c0 -> alike (mg_dbIter c0) (mg_dbIter c) -> alike (mg_pendingIter c0) (mg_pendingIter c) ->
  let c' := chooseIterator skip d c in
  merged_ok c' /\ merged_list c' = merged_list c0 /\ iter_bound c' = iter_bound c0.
Proof.
  intros Hok H1 H2. cbv zeta. destruct (choose_shape d c) as [cur ->]. apply (merged_alike c0); [done| |done].
  cbn [mg_dbIter]. eapply alike_trans; [done|]. apply skip_alike, H1.
Qed.

Lemma merged_laws : IterLaws (merged I J).
Proof.
  refine {| iter_ok := merged_ok; iter_list := merged_list; iter_walk := merged_walk;
    iter_seekable := fun k c => iter_seekable k (mg_dbIter c) /\ iter_seekable k (mg_pendingIter c) |}.
  - apply merged_sorted.
  - intros c Hok. cbn. pose proof (iter_bounded _ (mk_db _ Hok)). pose proof (iter_bounded _ (mk_pending _ Hok)).
    enough (length (merged_list c) <= length (iter_list (mg_dbIter c)) + length (iter_list (mg_pendingIter c)))%nat by lia.
    unfold merged_list. rewrite merge_length. pose proof (length_filter_le kept (iter_list (mg_dbIter c))). lia.
  - intros d c Hok. rewrite merged_start, directed_merge by done. apply (choose_walk d), start_walking, Hok.
  - intros k c Hok [Hs1 Hs2]. rewrite seek_merge by done. destruct Hok as [H1 H2 H3].
    destruct (iter_same_seek k _ H1) as (Ha & Hb & Hc), (iter_same_seek k _ H2) as (Ha' & Hb' & Hc').
    apply (choose_walk true). split; cbn; [split; cbn; [done|done|by rewrite Hb, Hb']|by apply iter_walk_seek|by apply iter_walk_seek| |].
    + apply (walk_sorted_filter true), (iter_sorted _ H1).
    + rewrite Hc. pose proof (iter_bounded _ H1). pose proof (length_filter_le (from_key k) (iter_list (mg_dbIter c))). lia.
  - intros d c e l (l1 & l2 & [Hok Hw1 Hw2 Hs Hb] & Hh & Hcur & He). rewrite merged_step. unfold move_current. cbn [iter_entry merged_Iter' merged_Iter].
    unfold merged_entry. rewrite Hcur. pose proof (iter_same_step d _ (mk_db _ Hok)) as Hsame1. pose proof (iter_same_step d _ (mk_pending _ Hok)) as Hsame2.
    assert (Hok1 : merged_ok (mkMerged (iter_step d (mg_dbIter c)) (mg_pendingIter c) (mg_currentIter c))) by (destruct Hok; split; cbn; [apply Hsame1|done|by rewrite (proj1 (proj2 Hsame1))]).
    assert (Hok2 : merged_ok (mkMerged (mg_dbIter c) (iter_step d (mg_pendingIter c)) (mg_currentIter c))).
    { destruct Hok. destruct Hsame2 as (? & Hl2 & _). split; cbn; [done|done|by rewrite Hl2]. }
    assert (Hdb : forall e1 r1, l1 = e1 :: r1 -> skip e1.1 = false -> l = merge_lists d (List.filter kept r1) l2 ->
      iter_entry (mg_dbIter c) = Some e1 /\ merged_walk d (chooseIterator skip d (mkMerged (iter_step d (mg_dbIter c)) (mg_pendingIter c) (mg_currentIter c))) l).
    { intros e1 r1 -> _ ->. destruct (iter_walk_entry _ _ _ _ Hw1) as [-> Hw1']. split; [done|]. apply (choose_walk d).
      apply walk_sorted_cons in Hs as [Hs _]. split; cbn; [done|done|done|done|]. destruct Hsame1 as (_ & _ & ->). cbn in Hb. lia. }
    assert (Hpd : forall e2 r2, l2 = e2 :: r2 -> l = merge_lists d (List.filter kept l1) r2 ->
      iter_entry (mg_pendingIter c) = Some e2 /\ merged_walk d (chooseIterator skip d (mkMerged (mg_dbIter c) (iter_step d (mg_pendingIter c)) (mg_currentIter c))) l).
    { intros e2 r2 -> ->. destruct (iter_walk_entry _ _ _ _ Hw2) as [-> Hw2']. split; [done|]. apply (choose_walk d). by split. }
    clear Hok1 Hok2 Hsame1 Hsame2. destruct l1 as [|e1 r1], l2 as [|e2 r2]; cbn [choice].
    + done.
    + cbn in He. injection He as -> ->. apply (Hpd e2 r2); [done|by destruct r2].
    + cbn in Hh. apply not_true_is_false in Hh. cbn [List.filter] in He. unfold kept_entry at 1 in He. rewrite Hh in He. cbn in He.
      injection He as -> ->. apply (Hdb e1 r1); [done|done|]. by destruct (List.filter kept r1).
    + cbn in Hh. apply not_true_is_false in Hh. cbn [List.filter] in He. unfold kept_entry at 1 in He. rewrite Hh in He. cbn [negb] in He.
      cbn [merge_lists] in He. destruct (pending_first d e1.1 e2.1); cbn [negb]; injection He as -> ->.
      * apply (Hpd e2 r2); [done|]. assert (kept e1 = true) as Hk by (unfold kept_entry; by rewrite Hh). cbn [List.filter]. by rewrite Hk.
      * by apply (Hdb e1 r1).
  - intros d c (l1 & l2 & [Hok Hw1 Hw2 Hs Hb] & Hh & Hcur & He). cbn [iter_entry merged_Iter' merged_Iter]. unfold merged_entry. rewrite Hcur.
    destruct l1 as [|e1 r1], l2 as [|e2 r2]; [done|done| |]; cbn in Hh; apply not_true_is_false in Hh; cbn [List.filter] in He;
      unfold kept_entry at 1 in He; rewrite Hh in He; cbn in He; [done|]. by destruct (pending_first d e1.1 e2.1).
  - intros d c Hok. rewrite merged_start. apply (choose_alike d c); [done|..]; cbn; apply iter_same_start, Hok.
  - intros k c Hok. apply (choose_alike true c); [done|..]; cbn; apply iter_same_seek, Hok.
  - intros d c Hok. rewrite merged_step. unfold move_current. destruct (mg_currentIter c) as [[]|].
    + apply (choose_alike d c); [done|..]; cbn; [apply iter_same_step, Hok|apply alike_refl, Hok].
    + apply (choose_alike d c); [done|..]; cbn; [apply alike_refl, Hok|apply iter_same_step, Hok].
    + done.
Defined.
End merge_laws.

(** The walks of the merge. *)
Section merged_walks.
Context {I J : Type} `{!Iter I, !Iter J, !IterLaws I, !IterLaws J}.
Implicit Types (c : merged I J).

Lemma merged_walk_start skip d c : merged_ok skip c ->
  merged_walk skip d ((if d then merged_First skip else merged_Last skip) c) (directed d (merged_list skip c)).
Proof. intros H. destruct d; [exact (@iter_walk_start _ _ (merged_laws skip) true c H)|exact (@iter_walk_start _ _ (merged_laws skip) false c H)]. Qed.
Lemma merged_walk_seek skip k c : merged_ok skip c -> iter_seekable k (mg_dbIter c) -> iter_seekable k (mg_pendingIter c) ->
  merged_walk skip true (merged_Seek skip k c) (List.filter (from_key k) (merged_list skip c)).
Proof. intros H H1 H2. exact (@iter_walk_seek _ _ (merged_laws skip) k c H (conj H1 H2)). Qed.
Lemma merged_walk_entry skip d c e l : merged_walk skip d c (e :: l) ->
  merged_entry c = Some e /\ merged_walk skip d ((if d then merged_Next skip else merged_Prev skip) c) l.
Proof. intros H. destruct d; exact (@iter_walk_entry _ _ (merged_laws skip) _ c e l H). Qed.
Lemma merged_walk_end skip d c : merged_walk skip d c [] -> merged_entry c = None.
Proof. intros H. exact (@iter_walk_end _ _ (merged_laws skip) d c H). Qed.
End merged_walks.
