(* ===== verification/IterMap.v ===== *)
(** * Iterators over the ordered maps of the database

    [IterMap] is what the database asks of its treaps beyond [KeyMap]: an iterator
    over a range of keys, and to tell it of a change.  The treap iterator of
    [TreapIter] has the laws of [Iter] when its range is bounded on both sides and
    it was not told of a change since it last moved; [Seek] may then look for the
    keys from the start of the range on. *)

From Stdlib Require Import ZArith Lia.
From stdpp Require Import sorting.
From S2P Require Import Prelude WireCommon Treap TreapIter KeyMap IterMerge.

Open Scope Z_scope.

(** [util.Range] of goleveldb: from [Start] on and below [Limit], nil being no bound. *)
Record Range : Type := mkRange {
  r_Start : option bytes;
  r_Limit : option bytes;
}.
Definition key_in_range (r : Range) (key : bytes) : bool :=
  negb (below_start (r_Start r) key) && negb (above_limit (r_Limit r) key).
Definition bounded (r : Range) : Prop := is_Some (r_Start r) /\ is_Some (r_Limit r).

Class IterMap (T I : Type) : Type := {
  im_Iterator : T -> Range -> I;
  im_ForceReseek : T -> I -> I;
}.

Definition range_entries (r : Range) (l : list entry) : list entry := List.filter (fun e => key_in_range r e.1) l.

Class IterMapLaws (T I : Type) `{!KeyMap T, !KeyMapLaws T, !Iter I, !IterLaws I, !IterMap T I} : Type := {
  im_iterator_ok t r : bounded r -> iter_ok (im_Iterator t r);
  im_iterator_list t r : bounded r -> iter_list (im_Iterator t r) = range_entries r (km_entries t);
  im_iterator_seek t r k : bounded r -> below_start (r_Start r) k = false -> iter_seekable k (im_Iterator t r);
}.

(** ** The treap iterator *)

Definition treap_entry (it : Iterator) : option entry := node_pair ∘ cur_node <$> it_node it.

#[export] Instance treap_Iter : Iter Iterator := {
  iter_First it := (Iterator_First it).1;
  iter_Last it := (Iterator_Last it).1;
  iter_Next it := (Iterator_Next it).1;
  iter_Prev it := (Iterator_Prev it).1;
  iter_Seek k it := (Iterator_Seek it k).1;
  iter_entry := treap_entry;
  iter_bound it := length (inorder (it_root it));
}.

(** * Proofs *)

Record treap_iter_ok (it : Iterator) : Prop := {
  ti_bst : bst (it_root it);
  ti_seek : it_seekKey it = None;
  ti_start : is_Some (it_startKey it);
  ti_limit : is_Some (it_limitKey it);
}.
Definition treap_list (it : Iterator) : list entry := map node_pair (List.filter (in_range it) (inorder (it_root it))).
Definition treap_walk (d : bool) (it : Iterator) (l : list entry) : Prop :=
  match l with
  | [] => it_node it = None
  | e :: l => exists a n b, positioned it /\ stands it a n b /\ e = node_pair n /\
      l = map node_pair (while_range it (ahead d a b))
  end.

Lemma while_range_same it it' l : it_startKey it' = it_startKey it -> it_limitKey it' = it_limitKey it ->
  while_range it' l = while_range it l.
Proof. intros Hs Hl. induction l as [|n l IH]; [done|]. cbn. unfold in_range. rewrite Hs, Hl, IH. done. Qed.

Lemma lands_walk d it res a n b : lands it res (Some (a, n, b)) -> treap_walk d res.1 (map node_pair (while_range it (n :: ahead d a b))).
Proof.
  unfold lands. cbn [while_range]. destruct (in_range it n).
  - intros (_ & Hst & _ & Hnew & Hk & Hs & Hl). cbn. exists a, n, b. split_and!; [done|done|done|]. by rewrite (while_range_same it res.1).
  - by intros [_ ?].
Qed.
Lemma lands_none_walk d it res : lands it res None -> treap_walk d res.1 [].
Proof. by intros [_ ?]. Qed.

(** A seek starts a walk over what lies on its side. *)
Lemma seek_walk d it key exactMatch : positioned it -> bst (it_root it) ->
  treap_walk d (Iterator_seek key exactMatch d it).1
    (map node_pair (while_range it (if d then List.filter (negb ∘ left_side key exactMatch d) (inorder (it_root it))
      else rev (List.filter (left_side key exactMatch d) (inorder (it_root it)))))).
Proof.
  intros Hp Hb. pose proof (Iterator_seek_lands it it key exactMatch d ltac:(by split) Hp Hb) as H. unfold seek_target in H. destruct d.
  - destruct (List.filter (negb ∘ _) _) as [|n r]; [by apply (lands_none_walk _ it)|]. by apply (lands_walk true it) in H.
  - destruct (rev (List.filter _ _)) as [|n r]; [by apply (lands_none_walk _ it)|]. apply (lands_walk false it) in H. cbn [ahead] in H.
    by rewrite rev_involutive in H.
Qed.

Lemma map_filter_pairs (f : entry -> bool) l : List.filter f (map node_pair l) = map node_pair (List.filter (fun n => f (node_pair n)) l).
Proof. induction l as [|n l IH]; [done|]. cbn. rewrite IH. by destruct (f (node_pair n)). Qed.

(** What is not below a key at or above the start. *)
Lemma seek_forward it key : sorted_nodes (inorder (it_root it)) -> below_start (it_startKey it) key = false ->
  while_range it (List.filter (negb ∘ left_side key true true) (inorder (it_root it))) =
  List.filter (fun n => from_key key (node_pair n)) (List.filter (in_range it) (inorder (it_root it))).
Proof.
  intros Hs Hst. rewrite while_range_forward; [|by apply sorted_filter|].
  - assert (forall n, from_key key (node_pair n) = (negb ∘ left_side key true true) n) as Hf.
    { intros n. unfold from_key, left_side. cbn. change (node_pair n).1 with (node_key n). by destruct (bytes_Compare key (node_key n)). }
    rewrite (filter_ext _ _ Hf). generalize (inorder (it_root it)). intros l. induction l as [|n l IH]; [done|]. cbn [List.filter].
    destruct ((negb ∘ left_side key true true) n) eqn:E1, (in_range it n) eqn:E2; cbn [List.filter]; rewrite ?E1, ?E2, IH; done.
  - eapply Forall_impl; [|apply Forall_filter]. intros n Hn. cbn in Hn. rewrite split_start in Hn. unfold below_start in *.
    destruct (it_startKey it) as [s|]; [|done]. destruct (bytes_Compare (node_key n) s) eqn:E1; [done| |done]. exfalso.
    destruct (bytes_Compare (node_key n) key) eqn:E2; [|done|].
    + apply bytes_Compare_eq in E2. rewrite E2 in E1. by rewrite E1 in Hst.
    + apply bytes_Compare_gt in E2. pose proof (key_lt_trans _ _ _ E2 E1) as H. unfold key_lt in H. by rewrite H in Hst.
Qed.

(** What moves keep of an iterator. *)
Definition same_range (it it' : Iterator) : Prop :=
  it_root it' = it_root it /\ it_startKey it' = it_startKey it /\ it_limitKey it' = it_limitKey it /\
  (it_seekKey it = None -> it_seekKey it' = None).

Lemma same_range_pos it it' node ps : same_range it it' -> same_range it (limitIterator (set_pos it' node ps)).1.
Proof.
  intros H. unfold limitIterator. cbn. destruct node as [c|]; [|exact H].
  destruct (below_start _ _); [exact H|]. by destruct (above_limit _ _).
Qed.
Lemma seek_same_range it it' key exactMatch greater : same_range it it' -> same_range it (Iterator_seek key exactMatch greater it').1.
Proof. intros H. unfold Iterator_seek. destruct (seek_loop _ _ _ _ _ _ _). by apply same_range_pos. Qed.

Lemma start_same_range d it : same_range it (iter_start d it).
Proof.
  destruct d; cbn; unfold Iterator_First, Iterator_Last; cbn.
  - destruct (it_startKey it); [apply seek_same_range; by split_and!|]. destruct (it_root it) as [|l n r] eqn:E; [by split_and!|].
    destruct (leftmost l n r []). by split_and!.
  - destruct (it_limitKey it); [apply seek_same_range; by split_and!|]. destruct (it_root it) as [|l n r] eqn:E; [by split_and!|].
    destruct (rightmost l n r []). by split_and!.
Qed.

Lemma step_same_range d it : same_range it (iter_step d it).
Proof.
  destruct d; cbn; unfold Iterator_Next, Iterator_Prev.
  - destruct (it_isNew it); [apply (start_same_range true)|]. destruct (it_node it) as [[[l n] r]|]; [|by split_and!].
    destruct (it_seekKey it); [apply seek_same_range; by split_and!|].
    destruct r as [|rl rn rr]; [destruct (climb _ _ _)|destruct (leftmost _ _ _ _)]; apply same_range_pos; by split_and!.
  - destruct (it_isNew it); [apply (start_same_range false)|]. destruct (it_node it) as [[[l n] r]|]; [|by split_and!].
    destruct (it_seekKey it); [apply seek_same_range; by split_and!|].
    destruct l as [|ll ln lr]; [destruct (climb _ _ _)|destruct (rightmost _ _ _ _)]; apply same_range_pos; by split_and!.
Qed.

Lemma same_range_alike it it' : same_range it it' -> treap_iter_ok it ->
  treap_iter_ok it' /\ treap_list it' = treap_list it /\ length (inorder (it_root it')) = length (inorder (it_root it)).
Proof.
  intros (Hr & Hs & Hl & Hk) [H1 H2 H3 H4]. split_and!; [|unfold treap_list; rewrite Hr; unfold in_range; by rewrite Hs, Hl|by rewrite Hr].
  split; [by rewrite Hr|auto|by rewrite Hs|by rewrite Hl].
Qed.

#[export] Instance treap_IterLaws : IterLaws Iterator.
Proof.
  refine {| iter_ok := treap_iter_ok; iter_list := treap_list; iter_walk := treap_walk;
    iter_seekable := fun k it => below_start (it_startKey it) k = false |}.
  - intros it [Hb _ _ _]. unfold sorted_keys, treap_list. rewrite fst_node_pairs. by apply sorted_map_key, sorted_filter.
  - intros it _. unfold treap_list. rewrite length_map. apply length_filter_le.
  - intros d it [Hb Hk [s Hs] [l Hl]]. destruct d; cbn [iter_start iter_First iter_Last treap_Iter directed].
    + unfold Iterator_First. cbn [set_isNew it_startKey]. rewrite Hs. pose proof (seek_walk true (set_isNew it false) s true ltac:(by split) Hb) as H.
      cbn [it_root set_isNew] in H. rewrite (seek_forward (set_isNew it false)) in H; [|done|cbn; rewrite Hs; cbn; by rewrite (proj2 (bytes_Compare_eq s s) eq_refl)].
      unfold treap_list. erewrite <- (filter_all (List.filter _ _)), filter_ext_in; [exact H|]. cbn. intros n Hn.
      apply filter_In in Hn as [_ Hn]. apply in_range_true in Hn as [Hn _]. rewrite Hs in Hn. unfold from_key, below_start in *.
      change (node_pair n).1 with (node_key n). rewrite bytes_Compare_antisym. by destruct (bytes_Compare (node_key n) s).
    + unfold Iterator_Last. cbn [set_isNew it_limitKey]. rewrite Hl. pose proof (seek_walk false (set_isNew it false) l false ltac:(by split) Hb) as H.
      cbn [it_root set_isNew] in H. unfold treap_list. rewrite <- map_rev. rewrite while_range_backward in H.
      * rewrite filter_drop_out in H; [exact H|]. intros n Hn. rewrite split_limit, <- Hl. apply in_range_true in Hn as [_ Hn]. cbn in Hn. by rewrite Hn.
      * by apply sorted_filter.
      * cbn. rewrite Hl. eapply Forall_impl; [|apply Forall_filter]. intros n Hn. cbn in Hn. rewrite split_limit in Hn. by destruct (above_limit _ _).
  - intros k it [Hb Hk _ _] Hst. cbn [iter_Seek treap_Iter]. unfold Iterator_Seek.
    pose proof (seek_walk true (set_isNew it false) k true ltac:(by split) Hb) as H. cbn [it_root set_isNew] in H.
    rewrite (seek_forward (set_isNew it false)) in H by done. unfold treap_list. by rewrite map_filter_pairs.
  - intros d it e l (a & n & b & Hp & Hst & -> & ->). split; [cbn; unfold treap_entry; by destruct Hst as (c & -> & <- & _)|].
    pose proof (Iterator_step_lands d it a n b Hp Hst) as H.
    assert (iter_step d it = (Iterator_step d it).1) as -> by by destruct d.
    destruct (ahead d a b) as [|m rest] eqn:E.
    + assert (lands it (Iterator_step d it) None) as Hn; [|by apply (lands_none_walk d it)].
      destruct d; cbn [ahead] in E.
      * subst b. exact (Iterator_Next_lands _ _ _ _ Hp Hst).
      * pose proof (Iterator_Prev_lands _ _ _ _ Hp Hst) as H'. unfold prev_target in H'. by rewrite E in H'.
    + destruct H as (a' & b' & <- & H). by apply (lands_walk d it).
  - intros d it Hn. cbn in Hn |- *. unfold treap_entry. by rewrite Hn.
  - intros d it Hok. apply same_range_alike; [apply start_same_range|done].
  - intros k it Hok. apply same_range_alike; [|done]. cbn. apply seek_same_range. by split_and!.
  - intros d it Hok. apply same_range_alike; [apply step_same_range|done].
Defined.

(** ** The treaps *)

Section instances.
Context (rand : nat -> Z).

#[export] Instance drawn_IterMap : IterMap drawn Iterator := {
  im_Iterator t r := Immutable_Iterator (dr_treap t) (r_Start r) (r_Limit r);
  im_ForceReseek t it := Iterator_ForceReseek it (im_root (dr_treap t));
}.
#[export] Instance drawn_mutable_IterMap : IterMap drawn_mutable Iterator := {
  im_Iterator t r := Mutable_Iterator (dm_treap t) (r_Start r) (r_Limit r);
  im_ForceReseek t it := Iterator_ForceReseek it (mu_root (dm_treap t));
}.

Lemma entries_in_range r it l : it_startKey it = r_Start r -> it_limitKey it = r_Limit r ->
  map node_pair (List.filter (in_range it) l) = range_entries r (map node_pair l).
Proof. intros Hs Hl. unfold range_entries. rewrite map_filter_pairs. f_equal. apply filter_ext. intros n. unfold in_range, key_in_range. by rewrite Hs, Hl. Qed.

#[local] Instance K : KeyMap drawn := immutable_KeyMap rand.
#[local] Instance KL : KeyMapLaws drawn := immutable_KeyMapLaws rand.
#[export] Instance drawn_IterMapLaws : IterMapLaws drawn Iterator.
Proof.
  split.
  - intros t r [Hs Hl]. split; [apply (tok_bst _ _ _ (dr_ok t))|done|done|done].
  - intros t r _. rewrite (drawn_entries rand). by apply entries_in_range.
  - done.
Qed.

#[local] Instance M : KeyMap drawn_mutable := mutable_KeyMap rand.
#[local] Instance ML : KeyMapLaws drawn_mutable := mutable_KeyMapLaws rand.
#[export] Instance drawn_mutable_IterMapLaws : IterMapLaws drawn_mutable Iterator.
Proof.
  split.
  - intros t r [Hs Hl]. split; [apply (tok_bst _ _ _ (dm_ok t))|done|done|done].
  - intros t r _. rewrite (drawn_mutable_entries rand). by apply entries_in_range.
  - done.
Qed.
End instances.

(** ** What goleveldb adds *)

(** Iterators over a snapshot. *)
Class LevelDBIter (L I : Type) : Type := { ldb_NewIterator : L -> Range -> I }.
Definition covers (in_range : bytes -> bool) (l : list entry) (m : gmap bytes bytes) : Prop :=
  forall e, e ∈ l <-> m !! e.1 = Some e.2 /\ in_range e.1 = true.
Class LevelDBIterLaws (L I : Type) `{!LevelDB L, !LevelDBLaws L, !Iter I, !IterLaws I, !LevelDBIter L I} : Type := {
  ldb_iterator_ok l r : bounded r -> iter_ok (ldb_NewIterator l r);
  ldb_iterator_covers l r : bounded r -> covers (key_in_range r) (iter_list (ldb_NewIterator l r)) (ldb_view l);
  ldb_iterator_seek l r k : bounded r -> below_start (r_Start r) k = false -> iter_seekable k (ldb_NewIterator l r);
}.

(** The keys with a prefix. *)
Fixpoint HasPrefix (key prefix : bytes) : bool :=
  match prefix, key with
  | [], _ => true
  | p :: prefix, k :: key => bool_decide (p = k) && HasPrefix key prefix
  | _ :: _, [] => false
  end.
Class BytesPrefixes : Type := { BytesPrefix : bytes -> Range }.
Class BytesPrefixLaws `{!BytesPrefixes} : Type := {
  prefix_bounded prefix : Exists (fun b => b <> xff) prefix -> bounded (BytesPrefix prefix);
  prefix_start prefix : r_Start (BytesPrefix prefix) = Some prefix;
  prefix_range prefix key : key_in_range (BytesPrefix prefix) key = HasPrefix key prefix;
}.

(** [iterator.NewMergedIterator] of two iterators without a key in common; it
    holds them, so what is done to them is done to it. *)
Class MergedIterator (I M : Type) : Type := {
  NewMergedIterator : I -> I -> M;
  merged_update : (I -> I) -> M -> M;
}.
Class MergedIteratorLaws (I M : Type) `{!Iter I, !IterLaws I, !Iter M, !IterLaws M, !MergedIterator I M} : Type := {
  merged_new_ok a b : iter_ok a -> iter_ok b -> apart (iter_list a) (iter_list b) -> iter_ok (NewMergedIterator a b);
  merged_new_elem a b e : iter_ok a -> iter_ok b -> apart (iter_list a) (iter_list b) ->
    e ∈ iter_list (NewMergedIterator a b) <-> e ∈ iter_list a \/ e ∈ iter_list b;
  merged_new_seek a b k : iter_seekable k a -> iter_seekable k b -> iter_seekable k (NewMergedIterator a b);
}.

(** *** Instances *)

(** A treap could be the metadata database. *)
Section treap_database.
Context (rand : nat -> Z).
#[local] Instance K' : KeyMap drawn := immutable_KeyMap rand.
#[local] Instance KL' : KeyMapLaws drawn := immutable_KeyMapLaws rand.

Definition treap_write (t : drawn) (o : batch_op) : drawn :=
  match o with BatchPut k v => km_put t k (Some v) | BatchDelete k => km_delete t k end.
#[export] Instance treap_ldb : LevelDB drawn := {
  ldb_new := km_empty;
  ldb_get := km_get;
  ldb_write := foldl treap_write;
}.
#[export] Instance treap_ldb_laws : LevelDBLaws drawn.
Proof.
  refine {| ldb_view := km_view |}; [apply km_view_empty|apply km_get_view|].
  intros t ops. change (ldb_write t ops) with (foldl treap_write t ops). revert t. induction ops as [|[k v|k] ops IH]; intros t; [done| |];
    cbn [foldl]; rewrite IH; cbn [treap_write apply_op]; [by rewrite km_put_view|by rewrite km_delete_view].
Defined.

#[export] Instance treap_ldb_iter : LevelDBIter drawn Iterator := { ldb_NewIterator := im_Iterator }.
Lemma entries_covers {T} `{!KeyMap T, !KeyMapLaws T} (t : T) r : covers (key_in_range r) (range_entries r (km_entries t)) (km_view t).
Proof.
  intros [k v]. unfold range_entries. rewrite elem_filter. cbn [fst snd]. rewrite <- (km_entries_view t).
  enough ((k, v) ∈ km_entries t <-> (list_to_map (km_entries t) : gmap bytes bytes) !! k = Some v) as -> by done.
  apply elem_of_list_to_map. pose proof (km_entries_sorted t) as H. unfold sorted_keys in H. induction H as [|x l H IH Hx]; constructor; [|done].
  intros Hin. rewrite list.Forall_forall in Hx. by apply Hx, key_lt_irrefl in Hin.
Qed.
#[export] Instance treap_ldb_iter_laws : LevelDBIterLaws drawn Iterator.
Proof.
  split.
  - apply im_iterator_ok.
  - intros t r Hr. change (ldb_NewIterator t r) with (im_Iterator t r). rewrite im_iterator_list by done. apply entries_covers.
  - apply im_iterator_seek.
Qed.
End treap_database.

(** The last byte of the prefix that can grow. *)
Fixpoint prefix_limit (prefix : bytes) : option bytes :=
  match prefix with
  | [] => None
  | b :: prefix =>
      match prefix_limit prefix with
      | Some limit => Some (b :: limit)
      | None => if bool_decide (b = xff) then None else Some [z2b (b2z b + 1)]
      end
  end.
#[export] Instance prefix_ranges : BytesPrefixes := { BytesPrefix prefix := mkRange (Some prefix) (prefix_limit prefix) }.

Lemma byte_compare a b : (b2z a ?= b2z b) = Eq <-> a = b.
Proof. rewrite Z.compare_eq_iff. split; [apply b2z_inj|by intros ->]. Qed.

Lemma b2z_xff b : b2z b <= b2z xff.
Proof. pose proof (b2z_range b). change (b2z xff) with 255. lia. Qed.

(** Keys between a prefix and its limit. *)
Lemma prefix_limit_range prefix : forall key,
  negb (below_start (Some prefix) key) && negb (above_limit (prefix_limit prefix) key) = HasPrefix key prefix.
Proof.
  induction prefix as [|p prefix IH]; intros [|k key]; [done|done| |].
  - done.
  - cbn [HasPrefix prefix_limit]. rewrite <- IH. unfold below_start, above_limit. cbn [bytes_Compare].
    destruct (Z.compare_spec (b2z k) (b2z p)) as [E|E|E].
    + apply b2z_inj in E as ->. rewrite (bool_decide_true (p = p)) by done. destruct (prefix_limit prefix) as [l|].
      * cbn [bytes_Compare]. rewrite Z.compare_refl. done.
      * case_bool_decide as Hp; [done|]. cbn [bytes_Compare]. rewrite b2z_z2b_small.
        -- destruct (Z.compare_spec (b2z p) (b2z p + 1)); [exfalso; lia|done|exfalso; lia].
        -- pose proof (b2z_range p). pose proof (b2z_xff p). assert (b2z p <> b2z xff) by (intros E; by apply b2z_inj in E).
           change (b2z xff) with 255 in *. lia.
    + rewrite (bool_decide_false (p = k)) by (intros ->; lia). done.
    + rewrite (bool_decide_false (p = k)) by (intros ->; lia). cbn [negb andb]. destruct (prefix_limit prefix) as [l|].
      * cbn [bytes_Compare]. destruct (Z.compare_spec (b2z k) (b2z p)); [exfalso; lia|exfalso; lia|done].
      * case_bool_decide as Hp.
        -- subst p. pose proof (b2z_xff k). exfalso. lia.
        -- cbn [bytes_Compare]. pose proof (b2z_range p). pose proof (b2z_range k). rewrite b2z_z2b_small by lia.
           destruct (Z.compare_spec (b2z k) (b2z p + 1)) as [E'|E'|E']; [|exfalso; lia|done]. by destruct key.
Qed.

#[export] Instance prefix_range_laws : BytesPrefixLaws.
Proof.
  split.
  - intros prefix H. split; [by eexists|]. cbn. induction H as [b l Hb|b l _ [x IH]]; cbn.
    + destruct (prefix_limit l); [by eexists|]. rewrite bool_decide_false by done. by eexists.
    + rewrite IH. by eexists.
  - done.
  - intros prefix key. apply prefix_limit_range.
Qed.

(** A merge that hides nothing. *)
Section plain_merge.
Context {I : Type} `{!Iter I, !IterLaws I}.
Definition hides_none (key : bytes) : bool := false.
Definition plain_Iter : Iter (merged I I) := merged_Iter hides_none.
Definition plain_laws : @IterLaws (merged I I) plain_Iter := merged_laws hides_none.
Definition plain_MergedIterator : MergedIterator I (merged I I) := {|
  NewMergedIterator a b := mkMerged a b None;
  merged_update f c := mkMerged (f (mg_dbIter c)) (f (mg_pendingIter c)) (mg_currentIter c);
|}.

Lemma kept_none (l : list entry) : List.filter (kept_entry hides_none) l = l.
Proof. apply filter_all. Qed.

Lemma plain_MergedIteratorLaws : @MergedIteratorLaws I (merged I I) _ _ plain_Iter plain_laws plain_MergedIterator.
Proof.
  split.
  - intros a b Ha Hb Hap. change (merged_ok hides_none (mkMerged a b None)). split; [done|done|]. by rewrite kept_none.
  - intros a b e Ha Hb Hap. change (e ∈ merge_lists true (List.filter (kept_entry hides_none) (iter_list a)) (iter_list b) <-> e ∈ iter_list a \/ e ∈ iter_list b).
    rewrite kept_none. apply elem_of_merge.
  - intros a b k Ha Hb. by split.
Qed.
End plain_merge.
