(* ===== verification/DbCursor.v ===== *)
(** * database/ffldb: cursors

    db.go and ldbtreapiter.go, and the iterator of dbcache.go.  A cursor walks over
    the keys of a bucket, its nested buckets, or both: on the database side a
    [dbCacheIterator] over the snapshot for each, on the other side an iterator over
    the pending keys for each, told of every change of the transaction.  goleveldb
    merges the two of one side when both are wanted.  The finalizers, which only
    take iterators off the list of those to be told, are left out. *)

From Stdlib Require Import ZArith Lia.
From stdpp Require Import sorting.
From S2P Require Import Prelude WireCommon Treap TreapIter KeyMap DbEffects DbCache DbTx IterMerge IterMap.

Open Scope Z_scope.

(** ** The iterator of the cache *)

Section cursors.
Context {L P C LI TI MD MP : Type} `{!LevelDB L, !KeyMap P, !KeyMap C}.
Context `{!Iter LI, !LevelDBIter L LI, !Iter TI, !IterMap P TI, !IterMap C TI, BP : !BytesPrefixes}.

Record dbCacheIterator : Type := mkCacheIter {
  ci_cacheSnapshot : @dbCacheSnapshot L C;
  ci_iters : merged LI TI;   (* [dbIter], [cacheIter] and [currentIter] *)
}.

Definition snapshot_skips (snap : @dbCacheSnapshot L C) (key : bytes) : bool :=
  if km_has (sn_pendingRemove snap) key then true else km_has (sn_pendingKeys snap) key.

Definition on_cache (f : (bytes -> bool) -> merged LI TI -> merged LI TI) (it : dbCacheIterator) : dbCacheIterator :=
  mkCacheIter (ci_cacheSnapshot it) (f (snapshot_skips (ci_cacheSnapshot it)) (ci_iters it)).
#[export] Instance dbCache_Iter : Iter dbCacheIterator := {
  iter_First := on_cache merged_First;
  iter_Last := on_cache merged_Last;
  iter_Next := on_cache merged_Next;
  iter_Prev := on_cache merged_Prev;
  iter_Seek k := on_cache (fun skip => merged_Seek skip k);
  iter_entry it := merged_entry (ci_iters it);
  iter_bound it := (iter_bound (mg_dbIter (ci_iters it)) + iter_bound (mg_pendingIter (ci_iters it)))%nat;
}.

Definition snapshot_NewIterator (snap : @dbCacheSnapshot L C) (slice : Range) : dbCacheIterator :=
  mkCacheIter snap (mkMerged (ldb_NewIterator (sn_dbSnapshot snap) slice) (im_Iterator (sn_pendingKeys snap) slice) None).

(** ** One iterator, or two merged *)

Inductive source (I M : Type) : Type :=
| Single (it : I)
| Merged (m : M).
Arguments Single {I M} it.
Arguments Merged {I M} m.

Definition on_source {I M} (f : I -> I) (g : M -> M) (s : source I M) : source I M :=
  match s with Single it => Single (f it) | Merged m => Merged (g m) end.
Definition of_source {I M A} (f : I -> A) (g : M -> A) (s : source I M) : A :=
  match s with Single it => f it | Merged m => g m end.
#[export] Instance source_Iter {I M} `{!Iter I, !Iter M} : Iter (source I M) := {
  iter_First := on_source iter_First iter_First;
  iter_Last := on_source iter_Last iter_Last;
  iter_Next := on_source iter_Next iter_Next;
  iter_Prev := on_source iter_Prev iter_Prev;
  iter_Seek k := on_source (iter_Seek k) (iter_Seek k);
  iter_entry := of_source iter_entry iter_entry;
  iter_bound := of_source iter_bound iter_bound;
}.

(** ** Cursors *)

Context `{!Iter MD, !MergedIterator dbCacheIterator MD, !Iter MP, !MergedIterator TI MP}.
Abbreviation transaction := (@transaction L P C).

Record cursor : Type := mkCursor {
  cu_id : bytes;   (* of the bucket *)
  cu_iters : merged (source dbCacheIterator MD) (source TI MP);
}.
Definition set_iters (iters : merged (source dbCacheIterator MD) (source TI MP)) (c : cursor) : cursor := mkCursor (cu_id c) iters.

Inductive cursorType : Type := ctKeys | ctBuckets | ctFull.

Definition bucket_prefix (bucketID : bytes) : bytes := bucketIndexPrefix ++ bucket_id bucketID.

Definition newCursor (tx : transaction) (id bucketID : bytes) (cursorTyp : cursorType) : cursor :=
  let '(dbIter, pendingIter) :=
    match cursorTyp with
    | ctKeys =>
        let keyRange := BytesPrefix bucketID in
        (Single (snapshot_NewIterator (tx_snapshot tx) keyRange), Single (im_Iterator (tx_pendingKeys tx) keyRange))
    | ctBuckets =>
        let bucketRange := BytesPrefix (bucket_prefix bucketID) in
        (Single (snapshot_NewIterator (tx_snapshot tx) bucketRange), Single (im_Iterator (tx_pendingKeys tx) bucketRange))
    | ctFull =>
        let bucketRange := BytesPrefix (bucket_prefix bucketID) in
        let keyRange := BytesPrefix bucketID in
        (Merged (NewMergedIterator (snapshot_NewIterator (tx_snapshot tx) keyRange) (snapshot_NewIterator (tx_snapshot tx) bucketRange)),
         Merged (NewMergedIterator (im_Iterator (tx_pendingKeys tx) keyRange) (im_Iterator (tx_pendingKeys tx) bucketRange)))
    end in
  mkCursor id (mkMerged dbIter pendingIter None).

(** Without iterators on a closed transaction, and so [None]: no operation gets
    past [checkClosed] then. *)
Definition bucket_Cursor (tx : transaction) (id : bytes) : option cursor :=
  if tx_closed tx then None else Some (newCursor tx id id ctFull).

Definition tx_skips (tx : transaction) (key : bytes) : bool :=
  if km_has (tx_pendingRemove tx) key then true else km_has (tx_pendingKeys tx) key.

Definition cursor_valid (c : cursor) : bool := if mg_currentIter (cu_iters c) is Some _ then true else false.
Definition cursor_move (f : (bytes -> bool) -> merged (source dbCacheIterator MD) (source TI MP) -> merged (source dbCacheIterator MD) (source TI MP))
    (tx : transaction) (c : cursor) : cursor * bool :=
  if tx_closed tx then (c, false)
  else let c := set_iters (f (tx_skips tx) (cu_iters c)) c in (c, cursor_valid c).
Definition cursor_First : transaction -> cursor -> cursor * bool := cursor_move merged_First.
Definition cursor_Last : transaction -> cursor -> cursor * bool := cursor_move merged_Last.
Definition cursor_Next : transaction -> cursor -> cursor * bool := cursor_move merged_Next.
Definition cursor_Prev : transaction -> cursor -> cursor * bool := cursor_move merged_Prev.
Definition cursor_Seek (tx : transaction) (c : cursor) (seek : bytes) : cursor * bool :=
  cursor_move (fun skip => merged_Seek skip (bucketizedKey (cu_id c) seek)) tx c.

(** The key and value of the current iterator, nil when it is not on one. *)
Definition current_entry (c : cursor) : option entry :=
  match mg_currentIter (cu_iters c) with
  | None => None
  | Some _ => Some (default ([], []) (merged_entry (cu_iters c)))
  end.
Definition cursor_rawKey (c : cursor) : option bytes := fst <$> current_entry c.
Definition cursor_rawValue (c : cursor) : option bytes := snd <$> current_entry c.

(** [None] is nil; the slices of a key shorter than its prefix panic. *)
Definition entry_Key (key : bytes) : outcome (option bytes) :=
  if HasPrefix key bucketIndexPrefix then if len key <? 8 then Panic else Val (Some (drop 8 key))
  else if len key <? 4 then Panic else Val (Some (drop 4 key)).
Definition cursor_Key (tx : transaction) (c : cursor) : outcome (option bytes) :=
  if tx_closed tx then Val None
  else match current_entry c with None => Val None | Some (key, _) => entry_Key key end.
Definition cursor_Value (tx : transaction) (c : cursor) : option bytes :=
  if tx_closed tx then None
  else match current_entry c with
       | None => None
       | Some (key, value) => if HasPrefix key bucketIndexPrefix then None else Some value
       end.

(** [notifyActiveIters]: the iterators of the cursors over the pending keys. *)
Definition cursor_notify (tx : transaction) (c : cursor) : cursor :=
  let m := cu_iters c in
  set_iters (mkMerged (mg_dbIter m)
    (on_source (im_ForceReseek (tx_pendingKeys tx)) (merged_update (im_ForceReseek (tx_pendingKeys tx))) (mg_pendingIter m))
    (mg_currentIter m)) c.

(** [Delete] of one cursor, with all the cursors of the transaction. *)
Definition cursor_Delete (c : cursor) : Eff (transaction * list cursor) unit :=
  w ← get;
  if tx_closed w.1 then throw ErrTxClosed
  else match current_entry c with
  | None => throw ErrIncompatibleValue
  | Some (key, _) =>
      if HasPrefix key bucketIndexPrefix then throw ErrIncompatibleValue
      else
        _ ← zoom fst (fun tx w => (tx, w.2)) (deleteKey key);
        w ← get;
        put (w.1, cursor_notify w.1 <$> w.2)
  end.

(** ** The loops over a bucket *)

(** The function takes the key and the value, and a state of its own. *)
Fixpoint each_loop {A} (fn : A -> option bytes -> option bytes -> A * option dbErr) (fuel : nat) (tx : transaction)
    (c : cursor) (ok : bool) (a : A) : A * outcome unit :=
  match fuel with
  | O => (a, Val tt)
  | S fuel =>
      if ok then
        match cursor_Key tx c with
        | Val key =>
            let '(a, err) := fn a key (cursor_Value tx c) in
            match err with
            | Some err => (a, Error err)
            | None => let '(c, ok) := cursor_Next tx c in each_loop fn fuel tx c ok a
            end
        | _ => (a, Panic)
        end
      else (a, Val tt)
  end.
Definition each {A} (fn : A -> option bytes -> option bytes -> A * option dbErr) (tx : transaction) (id : bytes) (typ : cursorType)
    (a : A) : A * outcome unit :=
  if tx_closed tx then (a, Error ErrTxClosed)
  else
    let '(c, ok) := cursor_First tx (newCursor tx id id typ) in
    each_loop fn (2 + iter_bound (mg_dbIter (cu_iters c)) + iter_bound (mg_pendingIter (cu_iters c))) tx c ok a.
Definition bucket_ForEach {A} (tx : transaction) (id : bytes) (fn : A -> option bytes -> option bytes -> A * option dbErr) :
    A -> A * outcome unit := each fn tx id ctKeys.
Definition bucket_ForEachBucket {A} (tx : transaction) (id : bytes) (fn : A -> option bytes -> A * option dbErr) :
    A -> A * outcome unit := each (fun a key _ => fn a key) tx id ctBuckets.
End cursors.
Arguments dbCacheIterator : clear implicits.
Arguments cursor : clear implicits.

(** * Proofs *)

(** What the merge of two iterators covers. *)
Section covers.
Context {I J : Type} `{!Iter I, !Iter J, !IterLaws I, !IterLaws J}.
Context (r : bytes -> bool) (m keys remove : gmap bytes bytes) (skip : bytes -> bool).
Context (Hskip : forall k, skip k = bool_decide (is_Some (remove !! k)) || bool_decide (is_Some (keys !! k))).

Lemma covers_apart l1 l2 : covers r l1 m -> covers r l2 keys -> apart (List.filter (kept_entry skip) l1) l2.
Proof using Hskip.
  intros _ H2 e1 e2 [_ Hk]%elem_filter [He2 _]%H2 E. unfold kept_entry in Hk. rewrite Hskip, E, He2 in Hk.
  rewrite (bool_decide_true (is_Some (Some _))) in Hk by by eexists. by rewrite orb_true_r in Hk.
Qed.

Lemma merged_covers (c : merged I J) : keys ##ₘ remove -> covers r (iter_list (mg_dbIter c)) m ->
  covers r (iter_list (mg_pendingIter c)) keys -> covers r (merged_list skip c) (overlay m keys remove).
Proof using Hskip.
  intros Hd H1 H2 e. unfold merged_list. rewrite elem_of_merge, elem_filter, (H1 e), (H2 e), lookup_overlay. unfold kept_entry. rewrite Hskip.
  destruct (remove !! e.1) eqn:Er, (keys !! e.1) eqn:Ek.
  - exfalso. by eapply (map_disjoint_spec keys remove).
  - rewrite bool_decide_true by by eexists. cbn. intuition discriminate.
  - rewrite bool_decide_false, bool_decide_true by (by eexists || by intros [??]). cbn. intuition discriminate.
  - rewrite !bool_decide_false by by intros [??]. cbn. intuition discriminate.
Qed.
End covers.

Section laws.
Context {L P C LI TI MD MP : Type} `{!LevelDB L, !KeyMap P, !KeyMap C}.
Context `{!Iter LI, !LevelDBIter L LI, !Iter TI, !IterMap P TI, !IterMap C TI, BP : !BytesPrefixes}.
Context `{!LevelDBLaws L, !KeyMapLaws P, !KeyMapLaws C, !IterLaws LI, !LevelDBIterLaws L LI, !IterLaws TI, !IterMapLaws P TI, !IterMapLaws C TI, BPL : !BytesPrefixLaws}.

(** ** The iterator of the cache *)

#[export] Instance dbCache_IterLaws : IterLaws (dbCacheIterator L C LI TI).
Proof.
  pose (K := fun it : dbCacheIterator L C LI TI => merged_laws (I := LI) (J := TI) (snapshot_skips (ci_cacheSnapshot it))).
  refine {| iter_ok it := merged_ok (snapshot_skips (ci_cacheSnapshot it)) (ci_iters it);
    iter_list it := merged_list (snapshot_skips (ci_cacheSnapshot it)) (ci_iters it);
    iter_walk d it l := merged_walk (snapshot_skips (ci_cacheSnapshot it)) d (ci_iters it) l;
    iter_seekable k it := iter_seekable k (mg_dbIter (ci_iters it)) /\ iter_seekable k (mg_pendingIter (ci_iters it)) |}.
  - intros it H. exact (@iter_sorted _ _ (K it) _ H).
  - intros it H. exact (@iter_bounded _ _ (K it) _ H).
  - intros [] it H; [exact (@iter_walk_start _ _ (K it) true _ H)|exact (@iter_walk_start _ _ (K it) false _ H)].
  - intros k it H Hs. exact (@iter_walk_seek _ _ (K it) k _ H Hs).
  - intros [] it e l H; [exact (@iter_walk_entry _ _ (K it) true _ _ _ H)|exact (@iter_walk_entry _ _ (K it) false _ _ _ H)].
  - intros d it H. exact (@iter_walk_end _ _ (K it) d _ H).
  - intros [] it H; [exact (@iter_same_start _ _ (K it) true _ H)|exact (@iter_same_start _ _ (K it) false _ H)].
  - intros k it H. exact (@iter_same_seek _ _ (K it) k _ H).
  - intros [] it H; [exact (@iter_same_step _ _ (K it) true _ H)|exact (@iter_same_step _ _ (K it) false _ H)].
Defined.

Lemma entries_cover {T} `{!KeyMap T, !KeyMapLaws T, !IterMap T TI, !IterMapLaws T TI} (t : T) r : bounded r ->
  covers (key_in_range r) (iter_list (im_Iterator t r)) (km_view t).
Proof. intros Hr. rewrite im_iterator_list by done. apply entries_covers. Qed.

Lemma skips_views (keys remove : C) k : (if km_has remove k then true else km_has keys k) =
  bool_decide (is_Some (km_view remove !! k)) || bool_decide (is_Some (km_view keys !! k)).
Proof. rewrite !km_has_view. by destruct (bool_decide (is_Some (km_view remove !! k))). Qed.

(** No key both pending and to be removed. *)
Definition snapshot_apart (snap : @dbCacheSnapshot L C) : Prop := km_view (sn_pendingKeys snap) ##ₘ km_view (sn_pendingRemove snap).

Abbreviation new_iterator snap r := (snapshot_NewIterator (L := L) (C := C) (LI := LI) (TI := TI) snap r).
Lemma NewIterator_ok snap r : bounded r -> iter_ok (new_iterator snap r).
Proof.
  intros Hr. split; cbn [ci_iters snapshot_NewIterator mg_dbIter mg_pendingIter].
  - by apply ldb_iterator_ok.
  - by apply im_iterator_ok.
  - eapply (covers_apart (key_in_range r)); [intros k; apply skips_views|by apply ldb_iterator_covers|by apply entries_cover].
Qed.
Lemma NewIterator_covers snap r : bounded r -> snapshot_apart snap ->
  covers (key_in_range r) (iter_list (new_iterator snap r)) (snapshot_view snap).
Proof.
  intros Hr Hd. apply (merged_covers (key_in_range r)); [intros k; apply skips_views|done|by apply ldb_iterator_covers|by apply entries_cover].
Qed.
Lemma NewIterator_seek snap r k : bounded r -> below_start (r_Start r) k = false -> iter_seekable k (new_iterator snap r).
Proof. intros Hr Hk. split; [by apply ldb_iterator_seek|by apply im_iterator_seek]. Qed.

(** ** Cursors *)

#[export] Instance source_IterLaws {I M} `{!Iter I, !Iter M, !IterLaws I, !IterLaws M} : IterLaws (source I M).
Proof.
  refine {| iter_ok := of_source iter_ok iter_ok; iter_list := of_source iter_list iter_list;
    iter_walk d := of_source (iter_walk d) (iter_walk d); iter_seekable k := of_source (iter_seekable k) (iter_seekable k) |}.
  - intros [it|it]; exact (iter_sorted it).
  - intros [it|it]; exact (iter_bounded it).
  - intros [] [it|it]; [exact (iter_walk_start true it)|exact (iter_walk_start true it)|exact (iter_walk_start false it)|exact (iter_walk_start false it)].
  - intros k [it|it]; exact (iter_walk_seek k it).
  - intros [] [it|it]; [exact (iter_walk_entry true it)|exact (iter_walk_entry true it)|exact (iter_walk_entry false it)|exact (iter_walk_entry false it)].
  - intros d [it|it]; exact (iter_walk_end d it).
  - intros d [it|it] H; destruct (iter_same_start d it H) as (H1 & H2 & H3); destruct d; by split_and!.
  - intros k [it|it] H; destruct (iter_same_seek k it H) as (H1 & H2 & H3); by split_and!.
  - intros d [it|it] H; destruct (iter_same_step d it H) as (H1 & H2 & H3); destruct d; by split_and!.
Defined.

Context `{!Iter MD, !IterLaws MD, !MergedIterator (dbCacheIterator L C LI TI) MD, !MergedIteratorLaws (dbCacheIterator L C LI TI) MD}.
Context `{!Iter MP, !IterLaws MP, !MergedIterator TI MP, !MergedIteratorLaws TI MP}.
Implicit Types (tx : @transaction L P C) (c : cursor L C LI TI MD MP).

(** The pending changes of a transaction, of which a read-only one has none. *)
Record tx_tidy tx : Prop := {
  td_snapshot : snapshot_apart (tx_snapshot tx);
  td_pending : km_view (tx_pendingKeys tx) ##ₘ km_view (tx_pendingRemove tx);
  td_readonly : tx_writable tx = false -> km_view (tx_pendingKeys tx) = ∅ /\ km_view (tx_pendingRemove tx) = ∅;
}.

Lemma tidy_view tx : tx_tidy tx ->
  tx_view tx = overlay (snapshot_view (tx_snapshot tx)) (km_view (tx_pendingKeys tx)) (km_view (tx_pendingRemove tx)).
Proof. intros [_ _ Hr]. unfold tx_view. destruct (tx_writable tx); [done|]. destruct Hr as [-> ->]; [done|]. by rewrite overlay_empty. Qed.

(** The keys a cursor is for. *)
Definition cursor_range (typ : cursorType) (id key : bytes) : bool :=
  match typ with
  | ctKeys => HasPrefix key id
  | ctBuckets => HasPrefix key (bucketIndexPrefix ++ id)
  | ctFull => HasPrefix key id || HasPrefix key (bucketIndexPrefix ++ id)
  end.

Lemma HasPrefix_spec prefix key : HasPrefix key prefix = true <-> exists rest, key = prefix ++ rest.
Proof.
  revert key. induction prefix as [|p prefix IH]; intros [|k key]; cbn.
  - split; [by exists []|done].
  - split; [by eexists|done].
  - split; [done|by intros [? ?]].
  - rewrite andb_true_iff, bool_decide_eq_true, IH. split.
    + intros [-> [rest ->]]. by exists rest.
    + intros [rest [= -> ->]]. by split; [|exists rest].
Qed.

Lemma not_all_ff (l : bytes) : Exists (fun b => b <> xff) l \/ l = replicate (length l) xff.
Proof.
  induction l as [|b l [IH|IH]]; [by right|by left; right|]. destruct (decide (b = xff)) as [->|Hb]; [|by left; left].
  right. cbn. by f_equal.
Qed.
Lemma id_bounded id : is_id id -> bounded (BytesPrefix id).
Proof.
  intros [Hl Hn]. apply prefix_bounded. destruct (not_all_ff id) as [?|E]; [done|]. rewrite Hl in E. subst id. vm_compute in Hn. by destruct Hn.
Qed.
Lemma bucket_prefix_id id : is_id id -> bucket_prefix id = bucketIndexPrefix ++ id.
Proof. intros [Hl _]. unfold bucket_prefix, bucket_id. by rewrite take_app_length' by done. Qed.
Lemma index_bounded id : bounded (BytesPrefix (bucketIndexPrefix ++ id)).
Proof. apply prefix_bounded. by left. Qed.

Lemma prefixes_apart id key : is_id id -> HasPrefix key id = true -> HasPrefix key (bucketIndexPrefix ++ id) = true -> False.
Proof.
  intros Hid [x ->]%HasPrefix_spec [y H]%HasPrefix_spec. rewrite <- app_assoc in H.
  by destruct (keys_apart id x id y Hid Hid) as [[] _].
Qed.

Lemma covers_prefix l m prefix : covers (key_in_range (BytesPrefix prefix)) l m -> covers (fun k => HasPrefix k prefix) l m.
Proof. intros H e. rewrite (H e). by rewrite prefix_range. Qed.
Lemma covers_two r1 r2 l1 l2 l m : covers r1 l1 m -> covers r2 l2 m -> (forall e, e ∈ l <-> e ∈ l1 \/ e ∈ l2) -> covers (fun k => r1 k || r2 k) l m.
Proof. intros H1 H2 H e. rewrite (H e), (H1 e), (H2 e), orb_true_iff. tauto. Qed.
Lemma covers_disjoint r1 r2 l1 l2 m1 m2 : covers r1 l1 m1 -> covers r2 l2 m2 -> (forall k, r1 k = true -> r2 k = true -> False) -> apart l1 l2.
Proof. intros H1 H2 H e1 e2 [_ He1]%H1 [_ He2]%H2 E. apply (H e1.1); [done|by rewrite E]. Qed.

Lemma tx_skips_views tx k : tx_skips tx k =
  bool_decide (is_Some (km_view (tx_pendingRemove tx) !! k)) || bool_decide (is_Some (km_view (tx_pendingKeys tx) !! k)).
Proof. unfold tx_skips. rewrite !km_has_view. by destruct (bool_decide (is_Some (km_view (tx_pendingRemove tx) !! k))). Qed.

(** The two sides of a new cursor. *)
Definition side_ok {I} `{!Iter I, !IterLaws I} (r : bytes -> bool) (m : gmap bytes bytes) (it : I) : Prop :=
  iter_ok it /\ covers r (iter_list it) m.

Lemma snapshot_side snap prefix : snapshot_apart snap -> bounded (BytesPrefix prefix) ->
  side_ok (fun k => HasPrefix k prefix) (snapshot_view snap) (new_iterator snap (BytesPrefix prefix)).
Proof. intros Hd Hb. split; [by apply NewIterator_ok|]. apply covers_prefix. by apply NewIterator_covers. Qed.
Lemma pending_side (t : P) prefix : bounded (BytesPrefix prefix) ->
  side_ok (fun k => HasPrefix k prefix) (km_view t) (im_Iterator t (BytesPrefix prefix)).
Proof. intros Hb. split; [by apply im_iterator_ok|]. apply covers_prefix. by apply entries_cover. Qed.

Lemma two_sides {I M} `{!Iter I, !IterLaws I, !Iter M, !IterLaws M, !MergedIterator I M, !MergedIteratorLaws I M} r1 r2 m (a b : I) :
  side_ok r1 m a -> side_ok r2 m b -> (forall k, r1 k = true -> r2 k = true -> False) ->
  side_ok (fun k => r1 k || r2 k) m (NewMergedIterator a b : M).
Proof.
  intros [Ha Hca] [Hb Hcb] Hd. pose proof (covers_disjoint _ _ _ _ _ _ Hca Hcb Hd) as Hap. split; [by apply merged_new_ok|].
  eapply covers_two; [exact Hca|exact Hcb|]. intros e. by apply merged_new_elem.
Qed.

Lemma newCursor_sides tx id typ : tx_tidy tx -> is_id id ->
  side_ok (cursor_range typ id) (snapshot_view (tx_snapshot tx)) (mg_dbIter (cu_iters (newCursor tx id id typ : cursor L C LI TI MD MP))) /\
  side_ok (cursor_range typ id) (km_view (tx_pendingKeys tx)) (mg_pendingIter (cu_iters (newCursor tx id id typ : cursor L C LI TI MD MP))).
Proof.
  intros [Hs _ _] Hid. pose proof (id_bounded id Hid) as Hb1. pose proof (index_bounded id) as Hb2. unfold newCursor.
  rewrite !(bucket_prefix_id id Hid). destruct typ; cbn [cu_iters mg_dbIter mg_pendingIter].
  - split; [exact (snapshot_side _ _ Hs Hb1)|exact (pending_side _ _ Hb1)].
  - split; [exact (snapshot_side _ _ Hs Hb2)|exact (pending_side _ _ Hb2)].
  - split.
    + refine (two_sides _ _ _ _ _ (snapshot_side _ _ Hs Hb1) (snapshot_side _ _ Hs Hb2) _). intros k. by apply prefixes_apart.
    + refine (two_sides _ _ _ _ _ (pending_side _ _ Hb1) (pending_side _ _ Hb2) _). intros k. by apply prefixes_apart.
Qed.

Lemma newCursor_ok tx id typ : tx_tidy tx -> is_id id ->
  let iters := cu_iters (newCursor tx id id typ : cursor L C LI TI MD MP) in
  merged_ok (tx_skips tx) iters /\ covers (cursor_range typ id) (merged_list (tx_skips tx) iters) (tx_view tx).
Proof.
  intros Ht Hid. destruct (newCursor_sides tx id typ Ht Hid) as [[Ha Hca] [Hb Hcb]]. cbv zeta. split.
  - split; [done|done|]. by eapply covers_apart; [intros k; apply tx_skips_views| |].
  - rewrite tidy_view by done. apply merged_covers; [intros k; apply tx_skips_views|apply Ht|done|done].
Qed.

(** ** Walks *)

Definition cursor_start (d : bool) : @transaction L P C -> cursor L C LI TI MD MP -> cursor L C LI TI MD MP * bool :=
  if d then cursor_First else cursor_Last.
Definition cursor_step (d : bool) : @transaction L P C -> cursor L C LI TI MD MP -> cursor L C LI TI MD MP * bool :=
  if d then cursor_Next else cursor_Prev.
(** What a caller sees that moves until it is told there is no more. *)
Fixpoint cursor_collect (d : bool) (fuel : nat) tx (cok : cursor L C LI TI MD MP * bool) : list (option bytes * option bytes) :=
  match fuel with
  | O => []
  | S fuel =>
      if cok.2 then (cursor_rawKey cok.1, cursor_rawValue cok.1) :: cursor_collect d fuel tx (cursor_step d tx cok.1)
      else []
  end.

(** A cursor in the middle of a walk with the flag of its last move. *)
Definition at_walk (d : bool) tx (cok : cursor L C LI TI MD MP * bool) (l : list entry) : Prop :=
  merged_walk (tx_skips tx) d (cu_iters cok.1) l /\ cok.2 = cursor_valid cok.1.

Lemma at_walk_nil d tx cok : at_walk d tx cok [] -> cok.2 = false.
Proof.
  intros [(l1 & l2 & [Hok Hw1 Hw2 Hs Hb] & Hh & Hcur & He) ->]. unfold cursor_valid. rewrite Hcur.
  destruct l1 as [|e1 l1]; cbn [hidden_head] in Hh.
  - destruct l2; [done|]. by cbn in He.
  - cbn [List.filter] in He. unfold kept_entry at 1 in He. apply not_true_is_false in Hh. rewrite Hh in He. cbn [negb] in He.
    destruct l2; [done|]. cbn in He. by destruct (pending_first _ _ _).
Qed.
Lemma at_walk_cons d tx cok e l : tx_closed tx = false -> at_walk d tx cok (e :: l) ->
  cok.2 = true /\ current_entry cok.1 = Some e /\ at_walk d tx (cursor_step d tx cok.1) l.
Proof.
  intros Hc [Hw ->]. destruct (merged_walk_entry _ _ _ _ _ Hw) as [He Hw'].
  assert (cursor_valid cok.1 = true /\ current_entry cok.1 = Some e) as [-> ->].
  { unfold cursor_valid, current_entry. rewrite He. unfold merged_entry in He. by destruct (mg_currentIter _). }
  split_and!; [done|done|]. destruct d; unfold at_walk, cursor_step, cursor_Next, cursor_Prev, cursor_move; rewrite Hc; by split.
Qed.
Lemma at_walk_start d tx id typ : tx_tidy tx -> tx_closed tx = false -> is_id id ->
  at_walk d tx (cursor_start d tx (newCursor tx id id typ)) (directed d (merged_list (tx_skips tx) (cu_iters (newCursor tx id id typ : cursor L C LI TI MD MP)))).
Proof.
  intros Ht Hc Hid. pose proof (merged_walk_start (tx_skips tx) d _ (proj1 (newCursor_ok tx id typ Ht Hid))) as H.
  destruct d; unfold at_walk, cursor_start, cursor_First, cursor_Last, cursor_move; rewrite Hc; by split.
Qed.

Lemma collect_walk d tx l : forall cok fuel, tx_closed tx = false -> at_walk d tx cok l -> (length l < fuel)%nat ->
  cursor_collect d fuel tx cok = map (fun e => (Some e.1, Some e.2)) l.
Proof.
  induction l as [|e l IH]; intros cok [|fuel] Hc Hw Hf; cbn in Hf; [lia| |lia|]; cbn [cursor_collect].
  - by rewrite (at_walk_nil _ _ _ Hw).
  - destruct (at_walk_cons _ _ _ _ _ Hc Hw) as (-> & He & Hw'). unfold cursor_rawKey, cursor_rawValue. rewrite He. cbn. f_equal.
    apply IH; [done|done|lia].
Qed.

(** C28: a cursor of an open transaction goes over every key and every nested bucket of its
    bucket once: from [First] on with [Next] in ascending order, from [Last] on with
    [Prev] in descending order, with the values the transaction sees, whatever part
    of them lies in the database, in the cache and in the transaction. *)
Theorem Cursor_walks tx id (d : bool) (Ht : tx_tidy tx) (Hc : tx_closed tx = false) (Hid : is_id id) :
  exists c l, bucket_Cursor tx id = Some c /\ sorted_keys l /\
    (forall k v, (k, v) ∈ l <-> tx_view tx !! k = Some v /\ cursor_range ctFull id k = true) /\
    forall fuel, (length l < fuel)%nat ->
      cursor_collect d fuel tx (cursor_start d tx c) = map (fun e => (Some e.1, Some e.2)) (directed d l).
Proof.
  destruct (newCursor_ok tx id ctFull Ht Hid) as [Hok Hcov].
  exists (newCursor tx id id ctFull), (merged_list (tx_skips tx) (cu_iters (newCursor tx id id ctFull : cursor L C LI TI MD MP))).
  split_and!; [unfold bucket_Cursor; by rewrite Hc|by apply (merged_sorted (tx_skips tx))|intros k v; exact (Hcov (k, v))|].
  intros fuel Hf. apply collect_walk; [done|by apply at_walk_start|]. destruct d; cbn [directed]; [done|]. by rewrite length_rev.
Qed.

(** Changes keep the pending keys apart from those to be removed. *)
Lemma putKey_tidy k v tx fs : tx_tidy tx -> tx_writable tx = true -> wp (putKey k v) tx fs (fun _ tx' _ => tx_tidy tx').
Proof.
  intros [H1 H2 H3] Hw. unfold putKey. apply wp_get. split; cbn; [done| |congruence]. rewrite km_put_view, km_delete_view.
  apply map_disjoint_insert_l_2; [apply lookup_delete_eq|]. by apply map_disjoint_delete_r.
Qed.
Lemma deleteKey_tidy k tx fs : tx_tidy tx -> tx_writable tx = true -> wp (deleteKey k) tx fs (fun _ tx' _ => tx_tidy tx').
Proof.
  intros [H1 H2 H3] Hw. unfold deleteKey. apply wp_get. split; cbn; [done| |congruence]. rewrite km_put_view, km_delete_view.
  apply map_disjoint_insert_r_2; [apply lookup_delete_eq|]. by apply map_disjoint_delete_l.
Qed.

(** ** The loops *)

Fixpoint visit_pairs {A} (fn : A -> option bytes -> option bytes -> A * option dbErr) (a : A) (l : list (bytes * option bytes)) : A * outcome unit :=
  match l with
  | [] => (a, Val tt)
  | (k, v) :: l =>
      let '(a, err) := fn a (Some k) v in
      match err with Some err => (a, Error err) | None => visit_pairs fn a l end
  end.

(** What the loops hand to the function. *)
Definition shown_entry (typ : cursorType) (e : entry) : bytes * option bytes :=
  match typ with ctBuckets => (drop 8 e.1, None) | _ => (drop 4 e.1, Some e.2) end.

Lemma HasPrefix_app prefix rest : HasPrefix (prefix ++ rest) prefix = true.
Proof. apply HasPrefix_spec. by eexists. Qed.
Lemma id_not_index id rest : is_id id -> HasPrefix (id ++ rest) bucketIndexPrefix = false.
Proof.
  intros Hid. apply not_true_is_false. intros [y H]%HasPrefix_spec. apply app_inj_1 in H as [-> _]; [|by destruct Hid].
  by apply (proj1 (prefix_not_id [])).
Qed.

(** The key and value of a cursor over one kind of entry. *)
Lemma shown_correct typ id tx c e : typ <> ctFull -> is_id id -> tx_closed tx = false -> current_entry c = Some e ->
  cursor_range typ id e.1 = true ->
  cursor_Key tx c = Val (Some (shown_entry typ e).1) /\ cursor_Value tx c = (shown_entry typ e).2.
Proof.
  intros Hty Hid Hc He Hr. unfold cursor_Key, cursor_Value. rewrite Hc, He. destruct e as [k v]. unfold entry_Key. cbn [fst snd] in *.
  destruct typ; cbn [cursor_range] in Hr; [| |done]; apply HasPrefix_spec in Hr as [rest ->].
  - rewrite (id_not_index id rest Hid). destruct (Z.ltb_spec (len (id ++ rest)) 4) as [Hlt|_]; [|done].
    destruct Hid as [Hl _]. unfold len in Hlt. rewrite length_app in Hlt. lia.
  - rewrite <- app_assoc, HasPrefix_app. destruct (Z.ltb_spec (len (bucketIndexPrefix ++ id ++ rest)) 8) as [Hlt|_]; [|done].
    destruct Hid as [Hl _]. unfold len in Hlt. rewrite !length_app in Hlt. change (length bucketIndexPrefix) with 4%nat in Hlt. lia.
Qed.

Lemma each_walk {A} (fn : A -> option bytes -> option bytes -> A * option dbErr) typ id tx l : forall cok fuel a,
  typ <> ctFull -> is_id id -> tx_closed tx = false -> at_walk true tx cok l ->
  Forall (fun e => cursor_range typ id e.1 = true) l -> (length l < fuel)%nat ->
  each_loop fn fuel tx cok.1 cok.2 a = visit_pairs fn a (map (shown_entry typ) l).
Proof.
  induction l as [|e l IH]; intros cok [|fuel] a Hty Hid Hc Hw Hr Hf; cbn in Hf; [lia| |lia|]; cbn [each_loop].
  - by rewrite (at_walk_nil _ _ _ Hw).
  - destruct (at_walk_cons _ _ _ _ _ Hc Hw) as (-> & He & Hw'). apply list.Forall_cons in Hr as [Hre Hr].
    destruct (shown_correct typ id tx _ e Hty Hid Hc He Hre) as [-> ->]. cbn [map visit_pairs]. destruct (shown_entry typ e) as [k v]. cbn [fst snd].
    destruct (fn a (Some k) v) as [a' [err|]]; [done|]. specialize (IH (cursor_step true tx cok.1) fuel a' Hty Hid Hc Hw' Hr ltac:(lia)).
    unfold cursor_step in IH. by destruct (cursor_Next tx cok.1).
Qed.

Lemma each_visits {A} (fn : A -> option bytes -> option bytes -> A * option dbErr) typ id tx a :
  typ <> ctFull -> tx_tidy tx -> tx_closed tx = false -> is_id id ->
  each (LI := LI) (TI := TI) (MD := MD) (MP := MP) fn tx id typ a =
    visit_pairs fn a (map (shown_entry typ) (merged_list (tx_skips tx) (cu_iters (newCursor tx id id typ : cursor L C LI TI MD MP)))).
Proof.
  intros Hty Ht Hc Hid. destruct (newCursor_ok tx id typ Ht Hid) as [Hok Hcov]. unfold each. rewrite Hc.
  pose proof (at_walk_start true tx id typ Ht Hc Hid) as Hw. unfold cursor_start in Hw. cbn [directed] in Hw.
  destruct (@iter_same_start _ _ (merged_laws (tx_skips tx)) true _ Hok) as (_ & _ & Hb).
  pose proof (@iter_bounded _ _ (merged_laws (tx_skips tx)) _ Hok) as Hle.
  assert (Hf : cursor_First tx (newCursor tx id id typ : cursor L C LI TI MD MP) =
    (set_iters (merged_First (tx_skips tx) (cu_iters (newCursor tx id id typ))) (newCursor tx id id typ), cursor_valid (set_iters (merged_First (tx_skips tx) (cu_iters (newCursor tx id id typ))) (newCursor tx id id typ)))).
  { unfold cursor_First, cursor_move. by rewrite Hc. }
  destruct (cursor_First tx (newCursor tx id id typ)) as [c ok] eqn:E. eapply (each_walk fn typ id tx _ (c, ok)); [done|done|done|exact Hw| |].
  - apply list.Forall_forall. intros e He. by apply Hcov in He as [_ He].
  - injection Hf as -> _. cbn [cu_iters set_iters]. cbn in Hb, Hle |- *. unfold merged_list in *. lia.
Qed.

(** Below a prefix, in order. *)
Definition bucket_entries (prefix : bytes) (m : gmap bytes bytes) (l : list entry) : Prop :=
  sorted_keys l /\ forall k v, (k, v) ∈ l <-> m !! (prefix ++ k) = Some v.

Lemma bytes_Compare_app prefix a b : bytes_Compare (prefix ++ a) (prefix ++ b) = bytes_Compare a b.
Proof. induction prefix as [|p prefix IH]; [done|]. cbn. by rewrite Z.compare_refl. Qed.

Lemma strip_entries prefix m l : sorted_keys l -> covers (fun k => HasPrefix k prefix) l m ->
  bucket_entries prefix m (map (fun e => (drop (length prefix) e.1, e.2)) l).
Proof.
  intros Hs Hc. assert (Hp : Forall (fun e => exists rest, e.1 = prefix ++ rest) l).
  { apply list.Forall_forall. intros e He. apply Hc in He as [_ He]. by apply HasPrefix_spec. }
  split.
  - unfold sorted_keys in *. clear Hc. induction l as [|e l IH]; [constructor|]. apply (walk_sorted_cons true) in Hs as [Hs He].
    apply list.Forall_cons in Hp as [[r Hr] Hp]. apply (walk_sorted_cons true). split; [by apply IH|].
    rewrite list.Forall_forall in He, Hp. apply list.Forall_forall. intros x Hx. apply list_elem_of_In, in_map_iff in Hx as (y & <- & Hy).
    apply list_elem_of_In in Hy. destruct (Hp y Hy) as [r' Hr']. specialize (He y Hy). cbn in He |- *. rewrite Hr, Hr' in He |- *.
    rewrite !drop_app_length. unfold key_lt in *. by rewrite bytes_Compare_app in He.
  - intros k v. rewrite list_elem_of_In, in_map_iff. split.
    + intros ([k' v'] & [= <- <-] & Hin). apply list_elem_of_In in Hin. rewrite list.Forall_forall in Hp. destruct (Hp _ Hin) as [r Hr]. cbn in Hr. subst k'.
      apply Hc in Hin as [Hin _]. cbn in Hin |- *. by rewrite drop_app_length.
    + intros Hm. exists (prefix ++ k, v). cbn. rewrite drop_app_length. split; [done|]. apply list_elem_of_In, Hc. split; [done|]. apply HasPrefix_app.
Qed.

(** [ForEach] calls its function on exactly the keys of the bucket with their
    values, in ascending order of the keys, and stops at the first error it gives,
    which it returns. *)
Theorem ForEach_visits tx id (Ht : tx_tidy tx) (Hc : tx_closed tx = false) (Hid : is_id id) :
  exists l, bucket_entries id (tx_view tx) l /\
    forall (A : Type) (fn : A -> option bytes -> option bytes -> A * option dbErr) (a : A),
      bucket_ForEach (LI := LI) (TI := TI) (MD := MD) (MP := MP) tx id fn a = visit_pairs fn a (map (fun e => (e.1, Some e.2)) l).
Proof.
  destruct (newCursor_ok tx id ctKeys Ht Hid) as [Hok Hcov]. eexists. split.
  - apply strip_entries; [exact (merged_sorted (tx_skips tx) _ Hok)|exact Hcov].
  - intros A fn a. unfold bucket_ForEach. rewrite each_visits by done. rewrite map_map. do 2 f_equal. destruct Hid as [-> _]. done.
Qed.

(** [ForEachBucket] calls its function on exactly the names of the buckets in
    the bucket, in ascending order, up to the first error. *)
Theorem ForEachBucket_visits tx id (Ht : tx_tidy tx) (Hc : tx_closed tx = false) (Hid : is_id id) :
  exists l, sorted_keys l /\ (forall name cid, (name, cid) ∈ l <-> tx_view tx !! bucketIndexKey id name = Some cid) /\
    forall (A : Type) (fn : A -> option bytes -> A * option dbErr) (a : A),
      bucket_ForEachBucket (LI := LI) (TI := TI) (MD := MD) (MP := MP) tx id fn a =
        visit_pairs (fun a key _ => fn a key) a (map (fun e => (e.1, None)) l).
Proof.
  destruct (newCursor_ok tx id ctBuckets Ht Hid) as [Hok Hcov]. destruct (strip_entries (bucketIndexPrefix ++ id) (tx_view tx) _ (merged_sorted (tx_skips tx) _ Hok) Hcov) as [Hs Hm].
  eexists. split_and!; [exact Hs|intros name cid; rewrite (Hm name cid); unfold bucketIndexKey; by rewrite app_assoc|].
  intros A fn a. unfold bucket_ForEachBucket. rewrite each_visits by done. rewrite map_map. do 2 f_equal. destruct Hid as [Hl _].
  rewrite length_app, Hl. done.
Qed.
End laws.

(** * At a concrete input *)

Section demo.
#[local] Instance demo_K : KeyMap drawn := immutable_KeyMap rand0.
#[local] Instance demo_KL : KeyMapLaws drawn := immutable_KeyMapLaws rand0.
#[local] Instance demo_M : KeyMap drawn_mutable := mutable_KeyMap rand0.
#[local] Instance demo_ML : KeyMapLaws drawn_mutable := mutable_KeyMapLaws rand0.
#[local] Instance demo_L : LevelDB drawn := treap_ldb rand0.
#[local] Instance demo_LL : LevelDBLaws drawn := treap_ldb_laws rand0.
#[local] Instance demo_LI : LevelDBIter drawn Iterator := treap_ldb_iter.
#[local] Instance demo_LIL : LevelDBIterLaws drawn Iterator := treap_ldb_iter_laws rand0.
#[local] Instance demo_IM : IterMapLaws drawn Iterator := drawn_IterMapLaws rand0.
#[local] Instance demo_IMM : IterMapLaws drawn_mutable Iterator := drawn_mutable_IterMapLaws rand0.
Abbreviation cache_iterator := (dbCacheIterator drawn drawn Iterator Iterator).
#[local] Instance demo_MD : Iter (merged cache_iterator cache_iterator) := plain_Iter.
#[local] Instance demo_MDL : IterLaws (merged cache_iterator cache_iterator) := plain_laws.
#[local] Instance demo_MDM : MergedIterator cache_iterator (merged cache_iterator cache_iterator) := plain_MergedIterator.
#[local] Instance demo_MDML : MergedIteratorLaws cache_iterator (merged cache_iterator cache_iterator) := plain_MergedIteratorLaws.
#[local] Instance demo_MP : Iter (merged Iterator Iterator) := plain_Iter.
#[local] Instance demo_MPL : IterLaws (merged Iterator Iterator) := plain_laws.
#[local] Instance demo_MPM : MergedIterator Iterator (merged Iterator Iterator) := plain_MergedIterator.
#[local] Instance demo_MPML : MergedIteratorLaws Iterator (merged Iterator Iterator) := plain_MergedIteratorLaws.
Abbreviation demo_cursor := (cursor drawn drawn Iterator Iterator (merged cache_iterator cache_iterator) (merged Iterator Iterator)).

(** The keys [a] and [c] of the metadata bucket are in the database, [b] is in the
    transaction. *)
Definition meta_key (k : bytes) : bytes := bucketizedKey metadataBucketID k.
Definition stored (l : list entry) : drawn := ldb_write ldb_new ((fun e => BatchPut e.1 e.2) <$> l).
Definition pending (l : list entry) : drawn_mutable := foldl (fun t e => km_put t e.1 (Some e.2)) km_empty l.
Definition tx_over (db pend : list entry) : @transaction drawn drawn_mutable drawn :=
  mkTx true false true (mkSnapshot (stored db) km_empty km_empty) ∅ [] [] (pending pend) km_empty.
Definition abc_tx := tx_over [(meta_key [x61], [x01]); (meta_key [x63], [x03])] [(meta_key [x62], [x02])].

Lemma tx_over_tidy db pend : tx_tidy (tx_over db pend).
Proof.
  split; [unfold snapshot_apart|..]; cbn [tx_over tx_snapshot sn_pendingKeys sn_pendingRemove tx_pendingKeys tx_pendingRemove tx_writable].
  - rewrite km_view_empty. apply map_disjoint_empty_l.
  - rewrite km_view_empty. apply map_disjoint_empty_r.
  - discriminate.
Defined.

Lemma Cursor_walks_witness : exists (c : demo_cursor) l, bucket_Cursor abc_tx metadataBucketID = Some c /\ sorted_keys l.
Proof.
  destruct (Cursor_walks abc_tx metadataBucketID true (tx_over_tidy _ _) eq_refl demo_id) as (c & l & Hc & Hs & _).
  exists c, l. split; [exact Hc|exact Hs].
Defined.
Lemma ForEach_visits_witness : exists l, bucket_entries metadataBucketID (tx_view abc_tx) l.
Proof.
  destruct (ForEach_visits (LI := Iterator) (TI := Iterator) (MD := merged cache_iterator cache_iterator) (MP := merged Iterator Iterator)
    abc_tx metadataBucketID (tx_over_tidy _ _) eq_refl demo_id) as (l & Hl & _). exists l. exact Hl.
Defined.
Lemma ForEachBucket_visits_witness : exists l : list entry, sorted_keys l.
Proof.
  destruct (ForEachBucket_visits (LI := Iterator) (TI := Iterator) (MD := merged cache_iterator cache_iterator) (MP := merged Iterator Iterator)
    abc_tx metadataBucketID (tx_over_tidy _ _) eq_refl demo_id) as (l & Hl & _). exists l. exact Hl.
Defined.

Definition demo_Cursor (tx : @transaction drawn drawn_mutable drawn) : demo_cursor := newCursor tx metadataBucketID metadataBucketID ctFull.
Definition shown_key (tx : @transaction drawn drawn_mutable drawn) (cok : demo_cursor * bool) : bool * outcome (option bytes) :=
  (cok.2, cursor_Key tx cok.1).

(** moving back after moving forward does not give the key before: over the keys
    a, b and c with b pending in the transaction, [First] and [Next] stand on b
    and [Prev] then moves to c: the iterator of the other side is already past b. *)
Theorem Prev_after_Next :
  let first := cursor_First abc_tx (demo_Cursor abc_tx) in
  let second := cursor_Next abc_tx first.1 in
  shown_key abc_tx first = (true, Val (Some [x61])) /\
  shown_key abc_tx second = (true, Val (Some [x62])) /\
  shown_key abc_tx (cursor_Prev abc_tx second.1) = (true, Val (Some [x63])).
Proof. vm_compute. split_and!; reflexivity. Qed.

(** The transaction made a nested bucket "n", and put a key in another bucket. *)
Definition nested_tx := tx_over [] [(bucketIndexKey metadataBucketID [x6e], [x00; x00; x00; x02]); (bucketizedKey [x00; x00; x00; x02] [x6b], [])].

(** [Seek] does not find the nested buckets made in the transaction when a
    later bucket has a pending key: the treap iterator over the bucket index lands
    on that key, which is outside its range, and gives up, although [First] finds
    the nested bucket and it is above the key sought. *)
Theorem Seek_misses_buckets :
  let c := demo_Cursor nested_tx in
  shown_key nested_tx (cursor_First nested_tx c) = (true, Val (Some [x6e])) /\
  (cursor_Seek nested_tx c [x61]).2 = false.
Proof. vm_compute. split; reflexivity. Qed.

(** [First] does not forget the key an iterator stood on when it was told of a
    change: a cursor on c, told of a new key d, goes from [First], on a, to d with
    [Next], past b and c. *)
Theorem First_after_change_skips :
  let abc := [(meta_key [x61], []); (meta_key [x62], []); (meta_key [x63], [])] in
  let tx := tx_over [] abc in
  let tx' := (putKey (meta_key [x64]) (Some []) tx []).1.2 in
  let last := cursor_Last tx (demo_Cursor tx) in
  let first := cursor_First tx' (cursor_notify tx' last.1) in
  shown_key tx last = (true, Val (Some [x63])) /\
  shown_key tx' first = (true, Val (Some [x61])) /\
  shown_key tx' (cursor_Next tx' first.1) = (true, Val (Some [x64])).
Proof. vm_compute. split_and!; reflexivity. Qed.
End demo.
