(* ===== verification/Bloom.v ===== *)
(** * nogoutil/bloom: MurmurHash3 and bloom filters

    The filter is the [filterload] message it was made from, whose bytes its
    operations change in place; nil is [None].  The mutex is left out: every
    exported method holds it throughout.  An index out of range and a division by
    zero are panics, the result [None].  [math.Log] and the conversion of a
    floating point number that an [uint32] cannot hold, which Go leaves open, are
    parameters of [NewFilter]. *)

From Stdlib Require Import ZArith Lia.
From stdpp Require Import sorting.
From S2P Require Import Prelude WireCommon ChainHash WireTx WireBlock WireNet WireMsgs GoFloat NogoUtil.

Open Scope Z_scope.

(** ** MurmurHash3 *)

Definition murmurC1 : Z := 0xcc9e2d51.
Definition murmurC2 : Z := 0x1b873593.
Definition murmurR1 : Z := 15.
Definition murmurR2 : Z := 13.
Definition murmurM : Z := 5.
Definition murmurN : Z := 0xe6546b64.

(** [(x << r) | (x >> (32 - r))] *)
Definition rotl32 (r x : Z) : Z := Z.lor (wrap_u32 (Z.shiftl x r)) (Z.shiftr x (32 - r)).
Definition murmur_mix (k : Z) : Z := wrap_u32 (rotl32 murmurR1 (wrap_u32 (k * murmurC1)) * murmurC2).
Definition murmur_round (hash k : Z) : Z :=
  wrap_u32 (rotl32 murmurR2 (Z.lxor hash (murmur_mix k)) * murmurM + murmurN).

(** The hash after [n] chunks of four bytes, and the bytes that remain. *)
Fixpoint murmur_chunks (n : nat) (hash : Z) (data : list byte) : Z * list byte :=
  match n with
  | O => (hash, data)
  | S n => murmur_chunks n (murmur_round hash (le_get (take 4 data))) (drop 4 data)
  end.
Definition murmur_tail (hash : Z) (rest : list byte) : Z :=
  match rest with
  | b0 :: b1 :: b2 :: _ => Z.lxor hash (murmur_mix (Z.lxor (Z.lxor (Z.shiftl (b2z b2) 16) (Z.shiftl (b2z b1) 8)) (b2z b0)))
  | b0 :: b1 :: _ => Z.lxor hash (murmur_mix (Z.lxor (Z.shiftl (b2z b1) 8) (b2z b0)))
  | b0 :: _ => Z.lxor hash (murmur_mix (b2z b0))
  | [] => hash
  end.
Definition murmur_final (hash : Z) : Z :=
  let hash := Z.lxor hash (Z.shiftr hash 16) in
  let hash := wrap_u32 (hash * 0x85ebca6b) in
  let hash := Z.lxor hash (Z.shiftr hash 13) in
  let hash := wrap_u32 (hash * 0xc2b2ae35) in
  Z.lxor hash (Z.shiftr hash 16).

(** The length is taken to fit in 32 bits, so that [dataLen & 3] bytes remain. *)
Definition MurmurHash3 (seed : Z) (data : list byte) : Z :=
  let dataLen := wrap_u32 (len data) in
  let numBlocks := dataLen / 4 in
  let '(hash, rest) := murmur_chunks (Z.to_nat numBlocks) seed data in
  murmur_final (Z.lxor (murmur_tail hash rest) dataLen).

(** The vectors of murmurhash3_test.go. *)
Example MurmurHash3_vectors :
  map (fun p => MurmurHash3 p.1 p.2)
    [(0, []); (0xfba4c795, []); (0xffffffff, []); (0, [x00]); (0xfba4c795, [x00]); (0, [xff]); (0, [x00; x11]); (0, [x00; x11; x22]);
     (0, [x00; x11; x22; x33]); (0, [x00; x11; x22; x33; x44]); (0, [x00; x11; x22; x33; x44; x55]);
     (0, [x00; x11; x22; x33; x44; x55; x66]); (0, [x00; x11; x22; x33; x44; x55; x66; x77]);
     (0, [x00; x11; x22; x33; x44; x55; x66; x77; x88])] =
    [0; 0x6a396f08; 0x81f16f39; 0x514e28b7; 0xea3f0b17; 0xfd6cf10d; 0x16c6b7ab; 0x8eb51c3d; 0xb4471bf8; 0xe2301fa8; 0xfc2e4a15;
     0xb074502c; 0x8034d2a0; 0xb4698def].
Proof. vm_compute. reflexivity. Qed.

(** ** Filters *)

Definition Filter : Type := option MsgFilterLoad.

Definition set_filter (filter : list byte) (msg : MsgFilterLoad) : MsgFilterLoad :=
  mkMsgFilterLoad filter (FilterLoad_HashFuncs msg) (FilterLoad_Tweak msg) (FilterLoad_Flags msg).

Definition normalize (bf : Filter) : Filter :=
  match bf with
  | Some msg =>
      if len (FilterLoad_Filter msg) =? 0
      then Some (mkMsgFilterLoad (FilterLoad_Filter msg) 0 (FilterLoad_Tweak msg) (FilterLoad_Flags msg))
      else bf
  | None => None
  end.
Definition LoadFilter (filter : option MsgFilterLoad) : Filter := normalize filter.
Definition IsLoaded (bf : Filter) : bool := if bf is Some _ then true else false.
Definition Reload (bf : Filter) (filter : option MsgFilterLoad) : Filter := normalize filter.
Definition Unload (bf : Filter) : Filter := None.
Definition Filter_MsgFilterLoad (bf : Filter) : option MsgFilterLoad := bf.

(** [uint32(len(filter)) << 3] *)
Definition filter_bits (msg : MsgFilterLoad) : Z := wrap_u32 (Z.shiftl (wrap_u32 (len (FilterLoad_Filter msg))) 3).

Definition filter_hash (msg : MsgFilterLoad) (hashNum : Z) (data : list byte) : option Z :=
  let mm := MurmurHash3 (wrap_u32 (wrap_u32 (hashNum * 0xfba4c795) + FilterLoad_Tweak msg)) data in
  if filter_bits msg =? 0 then None else Some (mm mod filter_bits msg).

(** [filter[idx>>3]] *)
Definition byte_of (msg : MsgFilterLoad) (idx : Z) : option byte := FilterLoad_Filter msg !! Z.to_nat (Z.shiftr idx 3).

(** The loop from the hash function [i] on, [n] being left. *)
Fixpoint matches_loop (msg : MsgFilterLoad) (data : list byte) (n : nat) (i : Z) : option bool :=
  match n with
  | O => Some (0 <? FilterLoad_HashFuncs msg)
  | S n =>
      idx ← filter_hash msg i data;
      b ← byte_of msg idx;
      if Z.land (b2z b) (Z.shiftl 1 (Z.land idx 7)) =? 0 then Some false
      else matches_loop msg data n (i + 1)
  end.
Definition matches (bf : Filter) (data : list byte) : option bool :=
  match bf with
  | None => Some false
  | Some msg => matches_loop msg data (Z.to_nat (FilterLoad_HashFuncs msg)) 0
  end.
Definition Matches : Filter -> list byte -> option bool := matches.

Definition outpoint_bytes (outpoint : OutPoint) : list byte := OutPoint_Hash outpoint ++ le_put 4 (OutPoint_Index outpoint).
Definition matchesOutPoint (bf : Filter) (outpoint : OutPoint) : option bool := matches bf (outpoint_bytes outpoint).
Definition MatchesOutPoint : Filter -> OutPoint -> option bool := matchesOutPoint.

Fixpoint add_loop (msg : MsgFilterLoad) (data : list byte) (n : nat) (i : Z) : option MsgFilterLoad :=
  match n with
  | O => Some msg
  | S n =>
      idx ← filter_hash msg i data;
      b ← byte_of msg idx;
      let filter := <[Z.to_nat (Z.shiftr idx 3) := z2b (Z.lor (b2z b) (Z.shiftl 1 (Z.land 7 idx)))]> (FilterLoad_Filter msg) in
      add_loop (set_filter filter msg) data n (i + 1)
  end.
Definition add (bf : Filter) (data : list byte) : option Filter :=
  match bf with
  | None => Some None
  | Some msg => msg ← add_loop msg data (Z.to_nat (FilterLoad_HashFuncs msg)) 0; Some (Some msg)
  end.
Definition Add : Filter -> list byte -> option Filter := add.
Definition AddHash : Filter -> list byte -> option Filter := add.
Definition addOutPoint (bf : Filter) (outpoint : OutPoint) : option Filter := add bf (outpoint_bytes outpoint).
Definition AddOutPoint : Filter -> OutPoint -> option Filter := addOutPoint.

(** ** NewFilter *)

(** [math.Ln2] and [ln2Squared] as float64, and 1e-9. *)
Definition Ln2 : dy := mkDy 6243314768165359 (-53).
Definition ln2Squared : dy := mkDy 8655072057804175 (-54).
Definition min_fprate : dy := mkDy 4835703278458517 (-82).

(** [None] is not a number, or infinite. *)
Definition float_div (x y : dy) : option dy := if dm y =? 0 then None else Some (f_div 53 x y).

Section new_filter.
Context (math_Log : dy -> dy) (to_uint32 : option dy -> Z).

Definition minUint32 (a b : Z) : Z := if a <? b then a else b.

Definition NewFilter (elements tweak : Z) (fprate : dy) (flags : Z) : Filter :=
  let fprate := if dy_ltb (dy_int 1) fprate then dy_int 1 else fprate in
  let fprate := if dy_ltb fprate min_fprate then min_fprate else fprate in
  let dataLen := to_uint32 (float_div (f_mul 53 (f_mul 53 (dy_int (-1)) (float64_of_int elements)) (math_Log fprate)) ln2Squared) in
  let dataLen := minUint32 dataLen (MaxFilterLoadFilterSize * 8) / 8 in
  let hashFuncs := to_uint32 ((fun x => f_mul 53 x Ln2) <$> float_div (float64_of_int (wrap_u32 (dataLen * 8))) (float64_of_int elements)) in
  let hashFuncs := minUint32 hashFuncs MaxFilterLoadHashFuncs in
  Some (mkMsgFilterLoad (replicate (Z.to_nat dataLen) x00) hashFuncs tweak flags).
End new_filter.

(** ** Transactions *)

Definition BloomUpdateNone : Z := 0.
Definition BloomUpdateAll : Z := 1.
Definition BloomUpdateP2PubkeyOnly : Z := 2.

(** txscript: scripts are not looked into. *)
Inductive ScriptClass : Type := NonStandardTy | PubKeyTy | MultiSigTy.
Definition GetScriptClass (script : list byte) : ScriptClass := NonStandardTy.
Definition PushedData (script : list byte) : list (list byte) := [].

Definition maybeAddOutpoint (bf : Filter) (pkScript outHash : list byte) (outIdx : Z) : option Filter :=
  match bf with
  | None => None     (* nil is dereferenced *)
  | Some msg =>
      if FilterLoad_Flags msg =? BloomUpdateAll then addOutPoint bf (NewOutPoint outHash outIdx)
      else if FilterLoad_Flags msg =? BloomUpdateP2PubkeyOnly then
        match GetScriptClass pkScript with
        | PubKeyTy | MultiSigTy => addOutPoint bf (NewOutPoint outHash outIdx)
        | NonStandardTy => Some bf
        end
      else Some bf
  end.

(** The first data element that matches; whether there was one. *)
Fixpoint match_pushed (bf : Filter) (pkScript txHash : list byte) (i : Z) (pushedData : list (list byte)) : option (Filter * bool) :=
  match pushedData with
  | [] => Some (bf, false)
  | data :: pushedData =>
      m ← matches bf data;
      if negb (m : bool) then match_pushed bf pkScript txHash i pushedData
      else bf ← maybeAddOutpoint bf pkScript txHash i; Some (bf, true)
  end.
Fixpoint match_outputs (bf : Filter) (txHash : list byte) (i : Z) (outs : list TxOut) (matched : bool) : option (Filter * bool) :=
  match outs with
  | [] => Some (bf, matched)
  | txOut :: outs =>
      '(bf, m) ← match_pushed bf (TxOut_PkScript txOut) txHash (wrap_u32 i) (PushedData (TxOut_PkScript txOut));
      match_outputs bf txHash (i + 1) outs (matched || m)
  end.
Fixpoint match_any (bf : Filter) (pushedData : list (list byte)) : option bool :=
  match pushedData with
  | [] => Some false
  | data :: pushedData => m ← matches bf data; if (m : bool) then Some true else match_any bf pushedData
  end.
Fixpoint match_inputs (bf : Filter) (ins : list TxIn) : option bool :=
  match ins with
  | [] => Some false
  | txin :: ins =>
      m ← matchesOutPoint bf (TxIn_PreviousOutPoint txin);
      if (m : bool) then Some true
      else m ← match_any bf (PushedData (TxIn_SignatureScript txin)); if (m : bool) then Some true else match_inputs bf ins
  end.

Definition matchTxAndUpdate (bf : Filter) (tx : Tx) : option (Filter * Tx * bool) :=
  '(tx, txHash) ← Tx_Hash tx;
  matched ← matches bf txHash;
  '(bf, matched) ← match_outputs bf txHash 0 (MsgTx_TxOut (tx_msgTx tx)) matched;
  if (matched : bool) then Some (bf, tx, true)
  else m ← match_inputs bf (MsgTx_TxIn (tx_msgTx tx)); Some (bf, tx, m).
Definition MatchTxAndUpdate : Filter -> Tx -> option (Filter * Tx * bool) := matchTxAndUpdate.

(** * Specification *)

(** A filter as a set of bits. *)
Definition bit_set (msg : MsgFilterLoad) (idx : Z) : bool :=
  match byte_of msg idx with Some b => Z.testbit (b2z b) (idx mod 8) | None => false end.

(** Filters whose bits can be counted in 32 bits; one without bytes has no hash
    functions, as after [normalize]. *)
Record filter_ok (msg : MsgFilterLoad) : Prop := {
  fo_size : len (FilterLoad_Filter msg) < 2 ^ 29;
  fo_empty : FilterLoad_Filter msg = [] -> FilterLoad_HashFuncs msg <= 0;
}.

(** The bit of a hash function. *)
Definition bit_index (msg : MsgFilterLoad) (i : Z) (data : list byte) : Z :=
  MurmurHash3 (wrap_u32 (wrap_u32 (i * 0xfba4c795) + FilterLoad_Tweak msg)) data mod (8 * len (FilterLoad_Filter msg)).
Definition bits_of (msg : MsgFilterLoad) (data : list byte) : list Z :=
  map (fun i => bit_index msg (Z.of_nat i) data) (seq 0 (Z.to_nat (FilterLoad_HashFuncs msg))).

(** What changes leave as it is. *)
Definition same_filter (msg msg' : MsgFilterLoad) : Prop :=
  length (FilterLoad_Filter msg') = length (FilterLoad_Filter msg) /\ FilterLoad_HashFuncs msg' = FilterLoad_HashFuncs msg /\
  FilterLoad_Tweak msg' = FilterLoad_Tweak msg /\ FilterLoad_Flags msg' = FilterLoad_Flags msg.

(** * Proofs *)

Lemma filter_bits_len msg : len (FilterLoad_Filter msg) < 2 ^ 29 -> filter_bits msg = 8 * len (FilterLoad_Filter msg).
Proof.
  intros H. pose proof (len_nonneg (FilterLoad_Filter msg)). unfold filter_bits, wrap_u32. rewrite (Z.mod_small (len _)) by lia.
  rewrite Z.shiftl_mul_pow2, Z.mod_small by lia. lia.
Qed.

Lemma filter_hash_some msg i data : filter_ok msg -> FilterLoad_Filter msg <> [] ->
  filter_hash msg i data = Some (bit_index msg i data) /\ 0 <= bit_index msg i data < 8 * len (FilterLoad_Filter msg).
Proof.
  intros [Hs _] Hne. assert (0 < len (FilterLoad_Filter msg)) by (unfold len; destruct (FilterLoad_Filter msg); [done|cbn; lia]).
  unfold filter_hash, bit_index. rewrite filter_bits_len by done.
  destruct (Z.eqb_spec (8 * len (FilterLoad_Filter msg)) 0); [lia|]. split; [done|]. apply Z.mod_pos_bound. lia.
Qed.

Lemma byte_of_some msg idx : 0 <= idx < 8 * len (FilterLoad_Filter msg) -> exists b, byte_of msg idx = Some b.
Proof.
  intros H. unfold byte_of. apply lookup_lt_is_Some. rewrite Z.shiftr_div_pow2 by lia. unfold len in H.
  pose proof (Z.div_lt_upper_bound idx (2 ^ 3) (Z.of_nat (length (FilterLoad_Filter msg))) ltac:(lia) ltac:(lia)).
  pose proof (Z.div_pos idx (2 ^ 3) ltac:(lia) ltac:(lia)). lia.
Qed.

Lemma land_7 idx : Z.land idx 7 = idx mod 8.
Proof. change 7 with (Z.ones 3). by rewrite Z.land_ones. Qed.

Lemma test_mask b k : 0 <= k -> (Z.land b (Z.shiftl 1 k) =? 0) = negb (Z.testbit b k).
Proof.
  intros Hk. rewrite Z.shiftl_1_l. destruct (Z.testbit b k) eqn:E; cbn.
  - apply Z.eqb_neq. intros H. assert (Z.testbit (Z.land b (2 ^ k)) k = false) as Hf by (rewrite H; apply Z.bits_0).
    rewrite Z.land_spec, E, Z.pow2_bits_true in Hf by done. done.
  - apply Z.eqb_eq, Z.bits_inj_0. intros j. rewrite Z.land_spec. destruct (Z.eq_dec k j) as [<-|Hne]; [by rewrite E|].
    rewrite Z.pow2_bits_false by done. apply andb_false_r.
Qed.

(** *** Matching *)

Lemma matches_loop_spec msg data : filter_ok msg -> FilterLoad_Filter msg <> [] -> forall n i,
  matches_loop msg data n (Z.of_nat i) =
    Some (forallb (fun j => bit_set msg (bit_index msg (Z.of_nat j) data)) (seq i n) && (0 <? FilterLoad_HashFuncs msg)).
Proof.
  intros Hok Hne. induction n as [|n IH]; intros i; [done|]. cbn [matches_loop seq forallb].
  destruct (filter_hash_some msg (Z.of_nat i) data Hok Hne) as [-> Hr]. cbn [mbind option_bind].
  destruct (byte_of_some msg _ Hr) as [b Hb]. rewrite Hb. cbn [mbind option_bind]. unfold bit_set at 1. rewrite Hb.
  rewrite land_7, test_mask by (apply Z.mod_pos_bound; lia). destruct (Z.testbit (b2z b) _); cbn; [|done].
  replace (Z.of_nat i + 1) with (Z.of_nat (S i)) by lia. apply IH.
Qed.

Lemma matches_spec msg data : filter_ok msg ->
  matches (Some msg) data = Some (forallb (bit_set msg) (bits_of msg data) && (0 <? FilterLoad_HashFuncs msg)).
Proof.
  intros Hok. unfold matches, bits_of. destruct (decide (FilterLoad_Filter msg = [])) as [He|Hne].
  - pose proof (fo_empty _ Hok He). replace (Z.to_nat (FilterLoad_HashFuncs msg)) with 0%nat by lia. done.
  - rewrite (matches_loop_spec msg data Hok Hne _ 0). do 2 f_equal. induction (seq 0 _) as [|j l IH]; [done|]. cbn. by rewrite IH.
Qed.

(** *** Adding *)

Lemma b2z_set_bit b k : 0 <= k < 8 -> forall j, 0 <= j < 8 ->
  Z.testbit (b2z (z2b (Z.lor (b2z b) (Z.shiftl 1 k)))) j = Z.testbit (b2z b) j || (j =? k).
Proof.
  intros Hk j Hj. rewrite b2z_z2b. change 256 with (2 ^ 8). rewrite Z.mod_pow2_bits_low, Z.lor_spec, Z.shiftl_1_l, Z.pow2_bits_eqb by lia.
  by rewrite (Z.eqb_sym k j).
Qed.

(** The position of a bit. *)
Lemma same_place a b : 0 <= a -> 0 <= b -> (a =? b) = (Z.to_nat (Z.shiftr a 3) =? Z.to_nat (Z.shiftr b 3))%nat && (a mod 8 =? b mod 8).
Proof.
  intros Ha Hb. rewrite !Z.shiftr_div_pow2 by lia. change (2 ^ 3) with 8.
  pose proof (Z.div_mod a 8 ltac:(lia)). pose proof (Z.div_mod b 8 ltac:(lia)).
  pose proof (Z.div_pos a 8 ltac:(lia) ltac:(lia)). pose proof (Z.div_pos b 8 ltac:(lia) ltac:(lia)).
  destruct (Z.eqb_spec a b) as [->|Hne]; [by rewrite Nat.eqb_refl, Z.eqb_refl|].
  destruct (Nat.eqb_spec (Z.to_nat (a / 8)) (Z.to_nat (b / 8))); [|done]. destruct (Z.eqb_spec (a mod 8) (b mod 8)); [|done]. lia.
Qed.

Lemma set_bit_spec msg idx b : 0 <= idx < 8 * len (FilterLoad_Filter msg) -> byte_of msg idx = Some b ->
  let msg' := set_filter (<[Z.to_nat (Z.shiftr idx 3) := z2b (Z.lor (b2z b) (Z.shiftl 1 (Z.land 7 idx)))]> (FilterLoad_Filter msg)) msg in
  same_filter msg msg' /\ forall k, 0 <= k -> bit_set msg' k = bit_set msg k || (k =? idx).
Proof.
  intros Hi Hb. cbv zeta. split; [split_and!; [apply length_insert|done..]|]. intros k Hk. unfold bit_set, byte_of in *. cbn [FilterLoad_Filter set_filter].
  rewrite (same_place k idx) by lia. destruct (Nat.eqb_spec (Z.to_nat (Z.shiftr k 3)) (Z.to_nat (Z.shiftr idx 3))) as [E|E].
  - rewrite E, list_lookup_insert_eq, Hb by (apply lookup_lt_is_Some; by eexists). rewrite (Z.land_comm 7), land_7. cbn [andb].
    apply b2z_set_bit; apply Z.mod_pos_bound; lia.
  - rewrite list_lookup_insert_ne by congruence. by rewrite orb_false_r.
Qed.

Lemma same_filter_trans a b c : same_filter a b -> same_filter b c -> same_filter a c.
Proof. intros (?&?&?&?) (?&?&?&?). split_and!; congruence. Qed.
Lemma same_filter_ok a b : same_filter a b -> filter_ok a -> filter_ok b.
Proof.
  intros (Hl & Hh & _) [Hs He]. split; [unfold len in *; by rewrite Hl|]. intros E. rewrite Hh. apply He.
  rewrite E in Hl. by destruct (FilterLoad_Filter a).
Qed.
Lemma same_bit_index a b i data : same_filter a b -> bit_index b i data = bit_index a i data.
Proof. intros (Hl & _ & Ht & _). unfold bit_index, len. by rewrite Hl, Ht. Qed.

Lemma existsb_eq {A} (f g : A -> bool) l : (forall x, f x = g x) -> existsb f l = existsb g l.
Proof. intros H. induction l as [|x l IH]; [done|]. cbn. by rewrite H, IH. Qed.

Lemma add_loop_spec data : forall n msg i, filter_ok msg -> FilterLoad_Filter msg <> [] ->
  exists msg', add_loop msg data n (Z.of_nat i) = Some msg' /\ same_filter msg msg' /\
    forall k, 0 <= k -> bit_set msg' k = bit_set msg k || existsb (fun j => k =? bit_index msg (Z.of_nat j) data) (seq i n).
Proof.
  induction n as [|n IH]; intros msg i Hok Hne.
  - exists msg. split_and!; [done|done|]. intros k _. by rewrite orb_false_r.
  - cbn [add_loop seq existsb]. destruct (filter_hash_some msg (Z.of_nat i) data Hok Hne) as [-> Hr]. cbn [mbind option_bind].
    destruct (byte_of_some msg _ Hr) as [b Hb]. rewrite Hb. cbn [mbind option_bind].
    destruct (set_bit_spec msg _ b Hr Hb) as [Hsame Hbits]. set (msg1 := set_filter _ msg) in *.
    assert (Hne1 : FilterLoad_Filter msg1 <> []).
    { destruct Hsame as [Hl _]. intros E. rewrite E in Hl. by destruct (FilterLoad_Filter msg). }
    replace (Z.of_nat i + 1) with (Z.of_nat (S i)) by lia.
    destruct (IH msg1 (S i) (same_filter_ok _ _ Hsame Hok) Hne1) as (msg' & -> & Hs' & Hb').
    exists msg'. split_and!; [done|by eapply same_filter_trans|]. intros k Hk. rewrite Hb', Hbits, <- orb_assoc by done.
    rewrite (existsb_eq _ (fun j => k =? bit_index msg (Z.of_nat j) data)); [done|]. intros j. by rewrite (same_bit_index msg msg1).
Qed.

(** Adding sets the bits of the data, whatever the filter held. *)
Lemma add_spec msg data : filter_ok msg ->
  exists msg', add (Some msg) data = Some (Some msg') /\ same_filter msg msg' /\ filter_ok msg' /\
    forall k, 0 <= k -> bit_set msg' k = bit_set msg k || existsb (Z.eqb k) (bits_of msg data).
Proof.
  intros Hok. unfold add, bits_of. destruct (decide (FilterLoad_Filter msg = [])) as [He|Hne].
  - pose proof (fo_empty _ Hok He). replace (Z.to_nat (FilterLoad_HashFuncs msg)) with 0%nat by lia. exists msg.
    split_and!; [done|done|done|]. intros k _. by rewrite orb_false_r.
  - destruct (add_loop_spec data (Z.to_nat (FilterLoad_HashFuncs msg)) msg 0 Hok Hne) as (msg' & Hl & Hs & Hb). change (Z.of_nat 0) with 0 in Hl. rewrite Hl.
    exists msg'. split_and!; [done|done|by eapply same_filter_ok|]. intros k Hk. rewrite Hb by done. f_equal.
    clear. induction (seq 0 _) as [|j l IH]; [done|]. cbn. by rewrite <- IH.
Qed.

(** ** Correctness *)

Lemma matches_bits msg data : filter_ok msg -> 0 < FilterLoad_HashFuncs msg ->
  matches (Some msg) data = Some true <-> forall k, k ∈ bits_of msg data -> bit_set msg k = true.
Proof.
  intros Hok Hh. rewrite matches_spec by done. destruct (Z.ltb_spec 0 (FilterLoad_HashFuncs msg)); [|lia]. rewrite andb_true_r. split.
  - intros [= H1] k Hk. rewrite forallb_forall in H1. apply H1. by apply list_elem_of_In.
  - intros Hk. f_equal. apply forallb_forall. intros k Hin. apply Hk. by apply list_elem_of_In.
Qed.

Lemma same_bits msg msg' data : same_filter msg msg' -> bits_of msg' data = bits_of msg data.
Proof.
  intros Hs. unfold bits_of. pose proof Hs as (_ & -> & _). apply map_ext. intros j. by apply same_bit_index.
Qed.

Lemma bits_nonneg msg data k : filter_ok msg -> k ∈ bits_of msg data -> 0 <= k.
Proof.
  intros Hok Hk. unfold bits_of in Hk. apply list_elem_of_In, in_map_iff in Hk as (j & <- & Hj).
  destruct (decide (FilterLoad_Filter msg = [])) as [He|Hne].
  - pose proof (fo_empty _ Hok He). apply in_seq in Hj. lia.
  - by apply (filter_hash_some msg (Z.of_nat j) data).
Qed.

Fixpoint add_all (bf : Filter) (l : list (list byte)) : option Filter :=
  match l with [] => Some bf | data :: l => bf ← add bf data; add_all bf l end.

Lemma add_all_spec l : forall msg, filter_ok msg ->
  exists msg', add_all (Some msg) l = Some (Some msg') /\ same_filter msg msg' /\ filter_ok msg' /\
    forall k, 0 <= k -> bit_set msg' k = bit_set msg k || existsb (fun data => existsb (Z.eqb k) (bits_of msg data)) l.
Proof.
  induction l as [|data l IH]; intros msg Hok.
  - exists msg. split_and!; [done|done|done|]. intros k _. by rewrite orb_false_r.
  - cbn [add_all existsb]. destruct (add_spec msg data Hok) as (m1 & -> & Hs1 & Hok1 & Hb1). cbn [mbind option_bind].
    destruct (IH m1 Hok1) as (m2 & -> & Hs2 & Hok2 & Hb2). exists m2. split_and!; [done|by eapply same_filter_trans|done|].
    intros k Hk. rewrite Hb2, Hb1, <- orb_assoc by done. rewrite (existsb_eq _ (fun d => existsb (Z.eqb k) (bits_of msg d))); [done|].
    intros d. by rewrite (same_bits msg m1).
Qed.

Lemma exist_iff {A} (P Q : A -> Prop) : (forall x, P x <-> Q x) -> (exists x, P x) <-> (exists x, Q x).
Proof. intros H. split; intros [x Hx]; exists x; by apply H. Qed.

(** C32: a bloom filter is the set of the bits of what was added to it: no operation on a
    filter that the wire protocol lets through panics, an addition never fails,
    afterwards exactly the bits of the old filter and of the data are set, in
    whatever order data were added, and so every datum that was added matches, as
    does all that matched before; nothing matches a filter without hash functions. *)
Theorem Filter_no_false_negatives msg l (Hok : filter_ok msg) :
  exists msg', add_all (Some msg) l = Some (Some msg') /\ same_filter msg msg' /\ filter_ok msg' /\
    (forall k, 0 <= k -> bit_set msg' k = true <-> bit_set msg k = true \/ exists data, data ∈ l /\ k ∈ bits_of msg data) /\
    (forall data, data ∈ l -> matches (Some msg') data = Some (0 <? FilterLoad_HashFuncs msg)) /\
    (forall data, matches (Some msg) data = Some true -> matches (Some msg') data = Some true).
Proof.
  destruct (add_all_spec l msg Hok) as (msg' & Ha & Hs & Hok' & Hb). exists msg'.
  assert (Hset : forall k, 0 <= k -> bit_set msg' k = true <-> bit_set msg k = true \/ exists data, data ∈ l /\ k ∈ bits_of msg data).
  { intros k Hk. rewrite Hb, orb_true_iff, existsb_exists by done. apply or_iff_compat_l. apply exist_iff. intros d.
    rewrite list_elem_of_In, existsb_exists, list_elem_of_In. apply and_iff_compat_l. split.
    - intros (x & Hx & E%Z.eqb_eq). by subst.
    - intros Hin. exists k. split; [done|]. apply Z.eqb_refl. }
  pose proof Hs as (_ & Hh & _). split_and!; try done.
  - intros data Hin. destruct (Z.ltb_spec 0 (FilterLoad_HashFuncs msg)) as [Hlt|Hle].
    + apply matches_bits; [done|lia|]. intros k Hk. rewrite (same_bits msg msg') in Hk by done.
      apply Hset; [exact (bits_nonneg msg data k Hok Hk)|]. right. by exists data.
    + rewrite matches_spec, Hh by done. destruct (Z.ltb_spec 0 (FilterLoad_HashFuncs msg)); [lia|]. by rewrite andb_false_r.
  - intros data Hm. destruct (Z.ltb_spec 0 (FilterLoad_HashFuncs msg)) as [Hlt|Hle].
    + apply matches_bits; [done|lia|]. intros k Hk. rewrite (same_bits msg msg') in Hk by done.
      apply Hset; [exact (bits_nonneg msg data k Hok Hk)|]. left. by apply (proj1 (matches_bits msg data Hok Hlt) Hm).
    + rewrite matches_spec in Hm by done. destruct (Z.ltb_spec 0 (FilterLoad_HashFuncs msg)); [lia|]. by rewrite andb_false_r in Hm.
Qed.

Lemma normalize_ok msg : len (FilterLoad_Filter msg) < 2 ^ 29 -> exists msg', LoadFilter (Some msg) = Some msg' /\ filter_ok msg'.
Proof.
  intros H. unfold LoadFilter, normalize. destruct (Z.eqb_spec (len (FilterLoad_Filter msg)) 0) as [E|E].
  - eexists. split; [done|]. split; [done|]. cbn. lia.
  - exists msg. split; [done|]. split; [done|]. intros E'. by rewrite E' in E.
Qed.

(** *** Transactions *)

Definition matched (msg : MsgFilterLoad) (data : list byte) : bool :=
  forallb (bit_set msg) (bits_of msg data) && (0 <? FilterLoad_HashFuncs msg).

Lemma match_outputs_spec bf txHash outs : forall i m, match_outputs bf txHash i outs m = Some (bf, m).
Proof. induction outs as [|o outs IH]; intros i m; [done|]. cbn. by rewrite orb_false_r. Qed.

Lemma match_inputs_spec msg ins : filter_ok msg ->
  match_inputs (Some msg) ins = Some (existsb (fun txin => matched msg (outpoint_bytes (TxIn_PreviousOutPoint txin))) ins).
Proof.
  intros Hok. induction ins as [|txin ins IH]; [done|]. cbn [match_inputs existsb]. unfold matchesOutPoint. rewrite matches_spec by done. cbn [mbind option_bind].
  change (forallb _ _ && _) with (matched msg (outpoint_bytes (TxIn_PreviousOutPoint txin))).
  destruct (matched msg (outpoint_bytes (TxIn_PreviousOutPoint txin))); [done|]. cbn. exact IH.
Qed.

(** a transaction matches exactly when its hash does or an outpoint it spends; the
    scripts of its inputs and outputs are never looked at, since [PushedData] finds
    no data in any script, and for the same reason the filter is never updated. *)
Theorem MatchTx_hash_or_outpoint msg tx tx' h (Hok : filter_ok msg) (Hh : Tx_Hash tx = Some (tx', h)) :
  matchTxAndUpdate (Some msg) tx = Some (Some msg, tx',
    matched msg h || existsb (fun txin => matched msg (outpoint_bytes (TxIn_PreviousOutPoint txin))) (MsgTx_TxIn (tx_msgTx tx'))).
Proof.
  unfold matchTxAndUpdate. rewrite Hh. cbn [mbind option_bind]. rewrite matches_spec by done. cbn [mbind option_bind].
  change (forallb _ _ && _) with (matched msg h). rewrite match_outputs_spec. cbn [mbind option_bind].
  destruct (matched msg h); [done|]. by rewrite match_inputs_spec.
Qed.

(** *** New filters *)

Section new_filters.
Context (math_Log : dy -> dy) (to_uint32 : option dy -> Z).
(** Go converts a number that fits exactly, and anything to some [uint32]. *)
Context (conv_range : forall x, 0 <= to_uint32 x < 2 ^ 32).
Context (conv_exact : forall x, 0 <= dy_trunc x < 2 ^ 32 -> to_uint32 (Some x) = dy_trunc x).

Lemma zero_round p x : dm x = 0 -> dy_round p x = x.
Proof. intros H. unfold dy_round. cbv zeta. by rewrite H. Qed.
Lemma zero_mul p x y : dm x = 0 \/ dm y = 0 -> dm (f_mul p x y) = 0.
Proof. intros H. assert (dm (dy_mul x y) = 0) as Hz by (cbn; lia). unfold f_mul. by rewrite zero_round. Qed.
Lemma zero_div x y : dm x = 0 -> dm y <> 0 -> dm (f_div 53 x y) = 0.
Proof.
  intros H Hy. unfold f_div. cbv zeta. rewrite H. change (Z.abs 0) with 0. rewrite !Z.mul_0_l. by rewrite zero_round.
Qed.
Lemma small_float n : 0 <= n < 2 ^ 32 -> float64_of_int n = dy_int n.
Proof.
  intros H. unfold float64_of_int, dy_round. cbn [dm dy_int]. rewrite Z.abs_eq by lia.
  destruct (Z.eqb_spec n 0); [done|]. pose proof (Z.log2_lt_pow2 n 32 ltac:(lia)) as Hl.
  destruct (Z.leb_spec (Z.log2 n + 1 - 53) 0); [done|]. lia.
Qed.
Lemma zero_conv x : dm x = 0 -> to_uint32 (Some x) = 0.
Proof using conv_exact.
  intros H. assert (dy_trunc x = 0) as Ht; [|rewrite conv_exact; lia]. unfold dy_trunc. rewrite H. destruct (0 <=? de x); [done|]. cbn. done.
Qed.

Lemma minUint32_spec a b : minUint32 a b = Z.min a b.
Proof. unfold minUint32. destruct (Z.ltb_spec a b); lia. Qed.

(** [NewFilter] always makes a clear filter that the wire protocol takes and that
    can be added to without a panic, for any number of elements and any rate;
    whatever the logarithm. *)
Theorem NewFilter_sendable elements tweak fprate flags pver enc (Hnan : elements = 0 -> to_uint32 None = 0)
    (Hel : 0 <= elements < 2 ^ 32) (Hpver : BIP0037Version <= pver) :
  exists msg raw, NewFilter math_Log to_uint32 elements tweak fprate flags = Some msg /\
    filter_ok msg /\ len (FilterLoad_Filter msg) <= MaxFilterLoadFilterSize /\ 0 <= FilterLoad_HashFuncs msg <= MaxFilterLoadHashFuncs /\
    (forall k, bit_set msg k = false) /\ MsgFilterLoad_BtcEncode pver enc msg = Ok raw.
Proof using conv_range conv_exact.
  unfold NewFilter. set (rate := if dy_ltb _ min_fprate then _ else _).
  set (x := float_div _ ln2Squared). pose proof (conv_range x) as Hx. rewrite !minUint32_spec.
  set (n := Z.min (to_uint32 x) (MaxFilterLoadFilterSize * 8) / 8).
  assert (Hn : 0 <= n <= MaxFilterLoadFilterSize).
  { unfold n, MaxFilterLoadFilterSize. split; [apply Z.div_pos; lia|]. apply Z.div_le_upper_bound; lia. }
  set (y := _ <$> float_div _ _). pose proof (conv_range y) as Hy.
  set (msg := mkMsgFilterLoad _ _ _ _). assert (Hlen : len (FilterLoad_Filter msg) = n) by (cbn; unfold len; rewrite length_replicate; lia).
  assert (Hf : 0 <= FilterLoad_HashFuncs msg <= MaxFilterLoadHashFuncs) by (cbn; unfold MaxFilterLoadHashFuncs; lia).
  exists msg. eexists. split_and!; [done| |lia|apply Hf|apply Hf| |].
  - split; [rewrite Hlen; unfold MaxFilterLoadFilterSize in Hn; lia|]. intros E. rewrite E in Hlen. cbn in Hlen.
    enough (to_uint32 y = 0) as Hz by (cbn; rewrite Hz; unfold MaxFilterLoadHashFuncs; lia). unfold y. rewrite <- Hlen. change (wrap_u32 (0 * 8)) with 0.
    unfold float_div. destruct (Z.eqb_spec (dm (float64_of_int elements)) 0) as [He|He].
    + cbn. apply Hnan. by rewrite small_float in He.
    + cbn. apply zero_conv, zero_mul. left. by apply zero_div.
  - intros k. unfold bit_set, byte_of. cbn [FilterLoad_Filter msg]. destruct (replicate _ _ !! _) as [b|] eqn:E; [|done].
    apply lookup_replicate in E as [-> _]. change (b2z x00) with 0. apply Z.testbit_0_l.
  - unfold MsgFilterLoad_BtcEncode. destruct (Z.ltb_spec pver BIP0037Version); [lia|]. rewrite Hlen.
    destruct (Z.ltb_spec MaxFilterLoadFilterSize n); [lia|]. destruct (Z.ltb_spec MaxFilterLoadHashFuncs (FilterLoad_HashFuncs msg)); [lia|]. done.
Qed.

(** the rate 1, documented to match everything, makes a filter that matches nothing. *)
Theorem NewFilter_rate_one elements tweak fprate flags data (Hrate : dy_ltb (dy_int 1) fprate = true \/ fprate = dy_int 1)
    (Hlog : dm (math_Log (dy_int 1)) = 0) (Hnan : elements = 0 -> to_uint32 None = 0) (Hel : 0 <= elements < 2 ^ 32) :
  matches (NewFilter math_Log to_uint32 elements tweak fprate flags) data = Some false.
Proof using conv_exact.
  unfold NewFilter. cbv zeta. assert ((if dy_ltb (dy_int 1) fprate then dy_int 1 else fprate) = dy_int 1) as ->.
  { destruct Hrate as [-> | ->]; [done|]. by destruct (dy_ltb _ _). }
  change (dy_ltb (dy_int 1) min_fprate) with false. cbv iota.
  assert (Hz : forall z, dm z = 0 -> to_uint32 (float_div z ln2Squared) = 0).
  { intros z Hz. unfold float_div. change (dm ln2Squared =? 0) with false. cbv iota. apply zero_conv. by apply zero_div. }
  rewrite !Hz by (apply zero_mul; by right).
  change (minUint32 0 (MaxFilterLoadFilterSize * 8) / 8) with 0. change (wrap_u32 (0 * 8)) with 0.
  assert (to_uint32 ((fun x => f_mul 53 x Ln2) <$> float_div (float64_of_int 0) (float64_of_int elements)) = 0) as ->; [|done].
  unfold float_div. rewrite (small_float elements) by done. destruct (Z.eqb_spec (dm (dy_int elements)) 0) as [He|He]; [by apply Hnan|].
  apply zero_conv, zero_mul. left. by apply zero_div.
Qed.
End new_filters.

(** ** Witnesses *)

Definition small_filter : MsgFilterLoad := mkMsgFilterLoad [x00; x00; x00] 5 0 BloomUpdateAll.
Lemma small_filter_ok : filter_ok small_filter.
Proof. split; [by vm_compute|discriminate]. Defined.

Lemma Filter_no_false_negatives_witness :
  exists msg', add_all (Some small_filter) [[x01]; [x02]] = Some (Some msg') /\ matches (Some msg') [x02] = Some true.
Proof.
  destruct (Filter_no_false_negatives small_filter [[x01]; [x02]] small_filter_ok) as (msg' & Ha & _ & _ & _ & Hm & _).
  exists msg'. split; [exact Ha|]. apply (Hm [x02]). right. left.
Defined.

Definition coin_tx : Tx := NewTx (NewMsgTx 1).
Lemma MatchTx_hash_or_outpoint_witness : exists tx' b, matchTxAndUpdate (Some small_filter) coin_tx = Some (Some small_filter, tx', b).
Proof.
  do 2 eexists. apply (MatchTx_hash_or_outpoint small_filter coin_tx (set_hash coin_tx (MsgTx_TxHash (NewMsgTx 1))) (MsgTx_TxHash (NewMsgTx 1)) small_filter_ok).
  reflexivity.
Defined.

Definition demo_conv (x : option dy) : Z := match x with Some x => wrap_u32 (dy_trunc x) | None => 0 end.
Lemma demo_conv_range x : 0 <= demo_conv x < 2 ^ 32.
Proof. destruct x as [x|]; [apply Z.mod_pos_bound; lia|vm_compute; intuition congruence]. Defined.
Lemma demo_conv_exact x : 0 <= dy_trunc x < 2 ^ 32 -> demo_conv (Some x) = dy_trunc x.
Proof. intros H. by apply Z.mod_small. Defined.

Lemma NewFilter_sendable_witness :
  exists msg raw, NewFilter (fun _ => dy_int (-7)) demo_conv 10 0 (mkDy 1 (-10)) BloomUpdateAll = Some msg /\
    MsgFilterLoad_BtcEncode BIP0037Version BaseEncoding msg = Ok raw.
Proof.
  destruct (NewFilter_sendable (fun _ => dy_int (-7)) demo_conv demo_conv_range demo_conv_exact 10 0 (mkDy 1 (-10)) BloomUpdateAll
    BIP0037Version BaseEncoding ltac:(discriminate) ltac:(lia) ltac:(lia)) as (msg & raw & Hm & _ & _ & _ & _ & Hr).
  exists msg, raw. split; [exact Hm|exact Hr].
Defined.

Lemma NewFilter_rate_one_witness : matches (NewFilter (fun _ => dy_int 0) demo_conv 10 0 (dy_int 1) BloomUpdateAll) [x01] = Some false.
Proof.
  apply (NewFilter_rate_one (fun _ => dy_int 0) demo_conv demo_conv_exact 10 0 (dy_int 1) BloomUpdateAll [x01] (or_intror eq_refl) eq_refl);
    [discriminate|lia].
Defined.
