(* ===== verification/MerkleBlock.v ===== *)
(** * nogoutil/bloom: partial merkle trees

    [NewMerkleBlock] sends a filtering client the branches of the merkle tree that
    lead to the transactions that matched.  The client's side is not in the
    repository; [extract] is what BIP 37 prescribes for it, less its check against
    two equal branches. *)

From Stdlib Require Import ZArith Lia.
From stdpp Require Import sorting.
From S2P Require Import Prelude WireCommon ChainHash WireTx WireBlock WireNet WireMsgs NogoUtil Bloom.

Open Scope Z_scope.

Definition HashMerkleBranches (left right : list byte) : list byte := DoubleHashH (left ++ right).

Record merkleBlock : Type := mkMerkle {
  mb_numTx : Z;
  mb_allHashes : list (list byte);
  mb_finalHashes : list (list byte);
  mb_matchedBits : list bool;
  mb_bits : list bool;
}.

(** [(numTx + (1 << height) - 1) >> height] *)
Definition calcTreeWidth (numTx : Z) (height : nat) : Z :=
  Z.shiftr (wrap_u32 (numTx + wrap_u32 (Z.shiftl 1 (Z.of_nat height)) - 1)) (Z.of_nat height).

(** [None] is an index out of range. *)
Fixpoint calcHash (m : merkleBlock) (height : nat) (pos : Z) : option (list byte) :=
  match height with
  | O => mb_allHashes m !! Z.to_nat pos
  | S height =>
      left ← calcHash m height (wrap_u32 (pos * 2));
      right ← (if wrap_u32 (pos * 2 + 1) <? calcTreeWidth (mb_numTx m) height
               then calcHash m height (wrap_u32 (pos * 2 + 1)) else Some left);
      Some (HashMerkleBranches left right)
  end.

(** [isParent |= matchedBits[i]] from [i] on, [n] times at most. *)
Fixpoint any_matched (m : merkleBlock) (n : nat) (i : Z) (isParent : bool) : option bool :=
  match n with
  | O => Some isParent
  | S n =>
      if i <? mb_numTx m then
        b ← mb_matchedBits m !! Z.to_nat i;
        any_matched m n (i + 1) (isParent || b)
      else Some isParent
  end.

Definition add_bit (b : bool) (m : merkleBlock) : merkleBlock :=
  mkMerkle (mb_numTx m) (mb_allHashes m) (mb_finalHashes m) (mb_matchedBits m) (mb_bits m ++ [b]).
Definition add_final (hash : list byte) (m : merkleBlock) : merkleBlock :=
  mkMerkle (mb_numTx m) (mb_allHashes m) (mb_finalHashes m ++ [hash]) (mb_matchedBits m) (mb_bits m).

Fixpoint traverseAndBuild (height : nat) (pos : Z) (m : merkleBlock) : option merkleBlock :=
  isParent ← any_matched m (Z.to_nat (wrap_u32 (Z.shiftl (pos + 1) (Z.of_nat height)) - wrap_u32 (Z.shiftl pos (Z.of_nat height))))
               (wrap_u32 (Z.shiftl pos (Z.of_nat height))) false;
  let m := add_bit isParent m in
  match height with
  | O => hash ← calcHash m 0 pos; Some (add_final hash m)
  | S h =>
      if negb isParent then hash ← calcHash m height pos; Some (add_final hash m)
      else
        m ← traverseAndBuild h (wrap_u32 (pos * 2)) m;
        if wrap_u32 (pos * 2 + 1) <? calcTreeWidth (mb_numTx m) h
        then traverseAndBuild h (wrap_u32 (pos * 2 + 1)) m
        else Some m
  end.

(** [for calcTreeWidth(height) > 1 { height++ }] *)
Fixpoint tree_height (fuel : nat) (numTx : Z) (height : nat) : nat :=
  match fuel with
  | O => height
  | S fuel => if 1 <? calcTreeWidth numTx height then tree_height fuel numTx (S height) else height
  end.

(** The transactions of the block, with their hashes cached, and the filter. *)
Fixpoint match_txs (filter : Filter) (txs : list Tx) : option (Filter * list (bool * list byte)) :=
  match txs with
  | [] => Some (filter, [])
  | tx :: txs =>
      '(filter, tx, m) ← MatchTxAndUpdate filter tx;
      '(_, hash) ← Tx_Hash tx;
      '(filter, rest) ← match_txs filter txs;
      Some (filter, (m, hash) :: rest)
  end.

(** [Flags[i/8] |= bits[i] << (i % 8)], into bytes that are clear. *)
Definition set_flag (flags : list byte) (i : nat) (b : bool) : list byte :=
  alter (fun f => z2b (Z.lor (b2z f) (Z.shiftl (Z.b2z b) (Z.of_nat (i mod 8))))) (i / 8)%nat flags.
Fixpoint pack_flags (flags : list byte) (i : nat) (bits : list bool) : list byte :=
  match bits with [] => flags | b :: bits => pack_flags (set_flag flags i b) (S i) bits end.
Definition flag_bytes (bits : list bool) : list byte := pack_flags (replicate ((length bits + 7) / 8) x00) 0 bits.

(** The indices of the set bits. *)
Fixpoint matched_indices (i : Z) (bits : list bool) : list Z :=
  match bits with [] => [] | b :: bits => if (b : bool) then wrap_u32 i :: matched_indices (i + 1) bits else matched_indices (i + 1) bits end.

Definition add_hashes (hashes : list (list byte)) : list (list byte) :=
  foldl (fun l h => ignoring_error MsgMerkleBlock_AddTxHash l h) [] hashes.

(** The block's transactions are generated, [txs] being those of its slots. *)
Definition NewMerkleBlock (header : BlockHeader) (txs : list Tx) (filter : Filter) : option (Filter * MsgMerkleBlock * list Z) :=
  '(filter, pairs) ← match_txs filter txs;
  let numTx := wrap_u32 (Z.of_nat (length txs)) in
  let mBlock := mkMerkle numTx (map snd pairs) [] (map fst pairs) [] in
  let height := tree_height 33 numTx 0 in
  mBlock ← traverseAndBuild height 0 mBlock;
  Some (filter, mkMsgMerkleBlock header (mb_numTx mBlock) (add_hashes (mb_finalHashes mBlock)) (flag_bytes (mb_bits mBlock)),
        matched_indices 0 (map fst pairs)).

(** * Specification *)

(** A level of the merkle tree from the one below: the last node stands twice
    when the count is odd. *)
Fixpoint merkle_level (l : list (list byte)) : list (list byte) :=
  match l with
  | a :: b :: l => HashMerkleBranches a b :: merkle_level l
  | [a] => [HashMerkleBranches a a]
  | [] => []
  end.
Fixpoint merkle_root (fuel : nat) (l : list (list byte)) : option (list byte) :=
  match l with
  | [] => None
  | [root] => Some root
  | _ => match fuel with O => None | S fuel => merkle_root fuel (merkle_level l) end
  end.

(** The client: the hash of a subtree and the matched leaves in it, from the bits and hashes that are left. *)
Fixpoint extract (numTx : Z) (height pos : nat) (bits : list bool) (hashes : list (list byte)) :
    option (list byte * list (nat * list byte) * list bool * list (list byte)) :=
  match bits with
  | [] => None
  | bit :: bits =>
      match height, bit with
      | S h, true =>
          '(lh, m1, bits, hashes) ← extract numTx h (pos * 2) bits hashes;
          if Z.of_nat (pos * 2 + 1) <? calcTreeWidth numTx h then
            '(rh, m2, bits, hashes) ← extract numTx h (pos * 2 + 1) bits hashes;
            Some (HashMerkleBranches lh rh, m1 ++ m2, bits, hashes)
          else Some (HashMerkleBranches lh lh, m1, bits, hashes)
      | _, _ =>
          match hashes with
          | [] => None
          | hash :: hashes => Some (hash, if bit then [(pos, hash)] else [], bits, hashes)
          end
      end
  end.
Definition unpack_flags (flags : list byte) : list bool :=
  flat_map (fun f => map (fun i => Z.testbit (b2z f) (Z.of_nat i)) (seq 0 8)) flags.
Definition read_merkle_block (msg : MsgMerkleBlock) : option (list byte * list (nat * list byte) * list bool * list (list byte)) :=
  extract (MerkleBlock_Transactions msg) (tree_height 33 (MerkleBlock_Transactions msg) 0) 0 (unpack_flags (MerkleBlock_Flags msg)) (MerkleBlock_Hashes msg).

(** * Proofs *)

(** ** Levels *)

Lemma merkle_level_length l : Z.of_nat (length (merkle_level l)) = (Z.of_nat (length l) + 1) / 2.
Proof.
  induction l as [|a|a b l IH] using list_pair_ind; [done|done|]. cbn [merkle_level length]. rewrite !Nat2Z.inj_succ, IH.
  replace (Z.succ (Z.succ (Z.of_nat (length l))) + 1) with (Z.of_nat (length l) + 1 + 1 * 2) by lia. rewrite Z.div_add by lia. lia.
Qed.

Lemma merkle_level_lookup l : forall pos, (pos < length (merkle_level l))%nat ->
  exists a, l !! (pos * 2)%nat = Some a /\ merkle_level l !! pos = Some (HashMerkleBranches a (default a (l !! (pos * 2 + 1)%nat))).
Proof.
  induction l as [|a|a b l IH] using list_pair_ind; intros pos Hp.
  - cbn in Hp. lia.
  - cbn in Hp. assert (pos = 0%nat) as -> by lia. by exists a.
  - destruct pos as [|pos]; [by exists a|]. cbn in Hp. destruct (IH pos ltac:(lia)) as (x & Hx & Hm). exists x. by cbn.
Qed.

Definition level (l : list (list byte)) (h : nat) : list (list byte) := Nat.iter h merkle_level l.

Section tree.
Context (l : list (list byte)) (Hpos : (0 < length l)%nat) (Hmax : Z.of_nat (length l) <= 2 ^ 31).
Abbreviation n := (Z.of_nat (length l)).

Lemma width_div h : (h <= 31)%nat -> calcTreeWidth n h = (n + 2 ^ Z.of_nat h - 1) / 2 ^ Z.of_nat h.
Proof.
  intros Hh. unfold calcTreeWidth. assert (2 ^ Z.of_nat h <= 2 ^ 31) by (apply Z.pow_le_mono_r; lia).
  assert (0 < 2 ^ Z.of_nat h) by (apply Z.pow_pos_nonneg; lia).
  rewrite Z.shiftl_1_l, Z.shiftr_div_pow2 by lia. unfold wrap_u32. rewrite (Z.mod_small (2 ^ Z.of_nat h)), Z.mod_small by lia. done.
Qed.

Lemma level_width h : (h <= 31)%nat -> calcTreeWidth n h = Z.of_nat (length (level l h)).
Proof.
  induction h as [|h IH]; intros Hh.
  - rewrite width_div by lia. change (2 ^ Z.of_nat 0) with 1. rewrite Z.div_1_r. cbn. lia.
  - change (level l (S h)) with (merkle_level (level l h)). rewrite merkle_level_length, <- IH, !width_div by lia.
    assert (0 < 2 ^ Z.of_nat h) by (apply Z.pow_pos_nonneg; lia).
    rewrite <- (Z.div_add _ 1), Z.div_div by lia. rewrite Nat2Z.inj_succ, Z.pow_succ_r by lia. f_equal; lia.
Qed.

Lemma width_bound h : (h <= 31)%nat -> 0 < calcTreeWidth n h <= 2 ^ 31.
Proof.
  intros Hh. rewrite width_div by lia. assert (0 < 2 ^ Z.of_nat h) by (apply Z.pow_pos_nonneg; lia). split.
  - apply Z.div_str_pos. lia.
  - apply Z.div_le_upper_bound; [lia|]. nia.
Qed.

(** The children of a node. *)
Lemma width_children h pos : (S h <= 31)%nat -> Z.of_nat pos < calcTreeWidth n (S h) ->
  Z.of_nat (pos * 2) < calcTreeWidth n h /\ Z.of_nat (pos * 2 + 1) < 2 ^ 32.
Proof.
  intros Hh Hp. pose proof (width_bound (S h) Hh). assert (Z.of_nat pos < 2 ^ 31) by lia. rewrite !level_width in * by lia. change (level l (S h)) with (merkle_level (level l h)) in Hp. rewrite merkle_level_length in Hp.
  pose proof (Z.div_mod (Z.of_nat (length (level l h)) + 1) 2 ltac:(lia)).
  pose proof (Z.mod_pos_bound (Z.of_nat (length (level l h)) + 1) 2 ltac:(lia)). lia.
Qed.

Context (ms : list bool).
Definition over (m : merkleBlock) : Prop := mb_numTx m = n /\ mb_allHashes m = l /\ mb_matchedBits m = ms.

Lemma calcHash_level m h : over m -> forall pos, (h <= 31)%nat -> Z.of_nat pos < calcTreeWidth n h ->
  calcHash m h (Z.of_nat pos) = level l h !! pos /\ is_Some (level l h !! pos).
Proof.
  intros (Hn & Ha & _). induction h as [|h IH]; intros pos Hh Hp.
  - rewrite level_width in Hp by lia. cbn in *. rewrite Ha, Nat2Z.id. split; [done|]. apply lookup_lt_is_Some. lia.
  - destruct (width_children h pos Hh Hp) as [Hl Hw]. cbn [calcHash]. unfold wrap_u32.
    rewrite !Z.mod_small by lia. replace (Z.of_nat pos * 2) with (Z.of_nat (pos * 2)) by lia.
    replace (Z.of_nat (pos * 2) + 1) with (Z.of_nat (pos * 2 + 1)) by lia. destruct (IH (pos * 2)%nat ltac:(lia) Hl) as [-> [a Ea]].
    assert (Hpl : (pos < length (merkle_level (level l h)))%nat) by (rewrite level_width in Hp by lia; change (level l (S h)) with (merkle_level (level l h)) in Hp; lia).
    destruct (merkle_level_lookup (level l h) pos Hpl) as (a' & Ha' & Hm). rewrite Ea in Ha'. injection Ha' as <-.
    rewrite Ea. cbn [mbind option_bind]. rewrite Hn. change (level l (S h)) with (merkle_level (level l h)). rewrite Hm. split; [|by eexists].
    destruct (Z.ltb_spec (Z.of_nat (pos * 2 + 1)) (calcTreeWidth n h)) as [Hr|Hr].
    + destruct (IH (pos * 2 + 1)%nat ltac:(lia) Hr) as [-> [b Eb]]. rewrite Eb. done.
    + rewrite level_width in Hr by lia. rewrite (lookup_ge_None_2 (level l h) (pos * 2 + 1)%nat) by lia. done.
Qed.

(** ** The walk *)

Context (Hlen : length ms = length l).

(** The matched leaves from [lo] on, of [k]. *)
Definition matched_at (i : nat) : option (nat * list byte) :=
  match ms !! i, l !! i with Some true, Some hash => Some (i, hash) | _, _ => None end.
Definition matched_seg (lo k : nat) : list (nat * list byte) := omap matched_at (seq lo k).
Definition any_seg (lo k : nat) : bool := existsb id (take k (drop lo ms)).

Lemma any_matched_spec m : over m -> forall k i p, any_matched m k (Z.of_nat i) p = Some (p || any_seg i k).
Proof.
  intros (Hn & _ & Hm). induction k as [|k IH]; intros i p; cbn [any_matched]; [unfold any_seg; cbn; by rewrite orb_false_r|].
  rewrite Hn, Hm. unfold any_seg. destruct (Z.ltb_spec (Z.of_nat i) n) as [Hi|Hi].
  - destruct (lookup_lt_is_Some_2 ms i ltac:(lia)) as [b Hb]. rewrite Nat2Z.id, Hb. cbn [mbind option_bind].
    replace (Z.of_nat i + 1) with (Z.of_nat (S i)) by lia. rewrite IH. rewrite (drop_S ms b i Hb). cbn. unfold any_seg. by rewrite orb_assoc.
  - rewrite drop_ge by lia. rewrite take_nil. cbn. by rewrite orb_false_r.
Qed.

Lemma seg_none lo k : any_seg lo k = false -> matched_seg lo k = [].
Proof.
  clear Hpos Hmax. unfold any_seg, matched_seg. revert lo. induction k as [|k IH]; intros lo H; [done|]. cbn [seq omap list_omap]. unfold matched_at at 1.
  destruct (ms !! lo) as [b|] eqn:E.
  - rewrite (drop_S ms b lo E) in H. cbn in H. apply orb_false_iff in H as [Hb H]. cbn in Hb. subst b. by apply IH.
  - apply IH. rewrite drop_ge; [by rewrite take_nil|]. apply lookup_ge_None in E. lia.
Qed.
Lemma matched_split lo k k' : matched_seg lo (k + k') = matched_seg lo k ++ matched_seg (lo + k) k'.
Proof. unfold matched_seg. by rewrite seq_app, omap_app. Qed.
Lemma seg_past lo k : (length l <= lo)%nat -> matched_seg lo k = [].
Proof.
  clear Hpos Hmax. intros H. apply seg_none. unfold any_seg. rewrite drop_ge by lia. by rewrite take_nil.
Qed.
Lemma seg_leaf pos hash : l !! pos = Some hash -> matched_seg pos 1 = if any_seg pos 1 then [(pos, hash)] else [].
Proof.
  intros H. unfold matched_seg, any_seg. cbn. unfold matched_at. destruct (lookup_lt_is_Some_2 ms pos) as [b Hb]; [apply lookup_lt_Some in H; lia|].
  rewrite Hb, H, (drop_S ms b pos Hb). cbn. by destruct b.
Qed.

Lemma leaf_range h pos : (h <= 31)%nat -> Z.of_nat pos < calcTreeWidth n h -> (pos * 2 ^ h < length l)%nat.
Proof.
  clear Hlen. intros Hh Hp. rewrite width_div in Hp by done. assert (0 < 2 ^ Z.of_nat h) by (apply Z.pow_pos_nonneg; lia).
  assert (Z.of_nat pos * 2 ^ Z.of_nat h < n); [|apply Nat2Z.inj_lt; rewrite Nat2Z.inj_mul, Nat2Z.inj_pow; done].
  pose proof (Z.mul_div_le (n + 2 ^ Z.of_nat h - 1) (2 ^ Z.of_nat h) ltac:(lia)). nia.
Qed.
Lemma leaf_past h pos : (h <= 31)%nat -> calcTreeWidth n h <= Z.of_nat pos -> (length l <= pos * 2 ^ h)%nat.
Proof.
  clear Hlen. intros Hh Hp. rewrite width_div in Hp by done. assert (0 < 2 ^ Z.of_nat h) by (apply Z.pow_pos_nonneg; lia).
  assert (n <= Z.of_nat pos * 2 ^ Z.of_nat h); [|apply Nat2Z.inj_le; rewrite Nat2Z.inj_mul, Nat2Z.inj_pow; done].
  pose proof (Z.mul_succ_div_gt (n + 2 ^ Z.of_nat h - 1) (2 ^ Z.of_nat h) ltac:(lia)). nia.
Qed.

Lemma parent_spec m h pos : over m -> (h <= 31)%nat -> Z.of_nat pos < calcTreeWidth n h ->
  any_matched m (Z.to_nat (wrap_u32 (Z.shiftl (Z.of_nat pos + 1) (Z.of_nat h)) - wrap_u32 (Z.shiftl (Z.of_nat pos) (Z.of_nat h))))
    (wrap_u32 (Z.shiftl (Z.of_nat pos) (Z.of_nat h))) false = Some (any_seg (pos * 2 ^ h) (2 ^ h)).
Proof.
  intros Hm Hh Hp. pose proof (leaf_range h pos Hh Hp) as Hr. assert (2 ^ Z.of_nat h <= 2 ^ 31) by (apply Z.pow_le_mono_r; lia).
  assert (E : Z.of_nat (pos * 2 ^ h) = Z.of_nat pos * 2 ^ Z.of_nat h) by by rewrite Nat2Z.inj_mul, Nat2Z.inj_pow.
  rewrite !Z.shiftl_mul_pow2 by lia. unfold wrap_u32. rewrite (Z.mod_small (Z.of_nat pos * _)), (Z.mod_small ((Z.of_nat pos + 1) * _)) by nia.
  rewrite <- E. replace (Z.to_nat _) with (2 ^ h)%nat; [by apply any_matched_spec|].
  apply Nat2Z.inj. rewrite Z2Nat.id, Nat2Z.inj_pow by nia. change (Z.of_nat 2) with 2. nia.
Qed.

(** What the walk adds below a node: the client reads the root of the subtree and
    the matched leaves off it, and nothing more. *)
Definition added (h pos : nat) (m : merkleBlock) (bs : list bool) (hs : list (list byte)) (root : list byte) : Prop :=
  traverseAndBuild h (Z.of_nat pos) m = Some (mkMerkle n l (mb_finalHashes m ++ hs) ms (mb_bits m ++ bs)) /\
  level l h !! pos = Some root /\ (0 < length hs <= 2 ^ h)%nat /\ (pos * 2 ^ h + length hs <= length l)%nat /\
  forall bs' hs', extract n h pos (bs ++ bs') (hs ++ hs') = Some (root, matched_seg (pos * 2 ^ h) (2 ^ h), bs', hs').

Lemma over_add b m : over m -> over (add_bit b m).
Proof. done. Qed.
Lemma over_built fs bs : over (mkMerkle n l fs ms bs).
Proof. done. Qed.

Lemma add_final_eq m hash b : over m -> add_final hash (add_bit b m) = mkMerkle n l (mb_finalHashes m ++ [hash]) ms (mb_bits m ++ [b]).
Proof. intros (<- & <- & <-). done. Qed.

Lemma child_seg h pos : (pos * 2 * 2 ^ h = pos * 2 ^ S h /\ (pos * 2 + 1) * 2 ^ h = pos * 2 ^ S h + 2 ^ h /\ 2 ^ S h = 2 ^ h + 2 ^ h)%nat.
Proof. cbn [Nat.pow]. lia. Qed.

(** A node with two children, and one with a left child only. *)
Lemma added_both h pos m b1 h1 r1 b2 h2 r2 : over m -> (S h <= 31)%nat -> Z.of_nat pos < calcTreeWidth n (S h) -> any_seg (pos * 2 ^ S h) (2 ^ S h) = true ->
  Z.of_nat (pos * 2 + 1) < calcTreeWidth n h -> added h (pos * 2) (add_bit true m) b1 h1 r1 ->
  added h (pos * 2 + 1) (mkMerkle n l (mb_finalHashes m ++ h1) ms (mb_bits (add_bit true m) ++ b1)) b2 h2 r2 ->
  added (S h) pos m (true :: b1 ++ b2) (h1 ++ h2) (HashMerkleBranches r1 r2).
Proof.
  intros Hm Hh Hp Eany Hr (Ht1 & Hr1 & Hs1 & Hb1 & He1) (Ht2 & Hr2 & Hs2 & Hb2 & He2). pose proof (leaf_range _ _ Hh Hp) as Hlo. pose proof (parent_spec m _ pos Hm Hh Hp) as Hpar. rewrite Eany in Hpar.
  destruct (width_children h pos Hh Hp) as [Hl Hw]. destruct (child_seg h pos) as (E2 & E3 & E4).
  unfold added. cbn [traverseAndBuild]. rewrite Hpar. cbn [mbind option_bind negb].
  replace (wrap_u32 (Z.of_nat pos * 2)) with (Z.of_nat (pos * 2)) by (unfold wrap_u32; rewrite Z.mod_small; lia).
  replace (wrap_u32 (Z.of_nat pos * 2 + 1)) with (Z.of_nat (pos * 2 + 1)) by (unfold wrap_u32; rewrite Z.mod_small; lia).
  rewrite Ht1. cbn [mbind option_bind]. change (mb_numTx _) with n. destruct (Z.ltb_spec (Z.of_nat (pos * 2 + 1)) (calcTreeWidth n h)); [|lia].
  change (mb_finalHashes (add_bit true m)) with (mb_finalHashes m). rewrite Ht2. split_and!.
  -- f_equal. f_equal; [cbn; by rewrite <- app_assoc|]. cbn. by rewrite <- !app_assoc.
  -- destruct (merkle_level_lookup (level l h) pos) as (a & Ha & Hm').
     { rewrite level_width in Hp by lia. change (level l (S h)) with (merkle_level (level l h)) in Hp. lia. }
     rewrite Hr1 in Ha. injection Ha as <-. change (level l (S h)) with (merkle_level (level l h)). by rewrite Hm', Hr2.
  -- rewrite length_app. lia.
  -- rewrite length_app. lia.
  -- rewrite length_app. lia.
  -- intros bs' hs'. cbn [app extract]. rewrite <- !app_assoc, He1. cbn [mbind option_bind].
     destruct (Z.ltb_spec (Z.of_nat (pos * 2 + 1)) (calcTreeWidth n h)); [|lia]. rewrite He2. cbn [mbind option_bind].
     by rewrite E2, E3, E4, matched_split.
Qed.
Lemma added_left h pos m b1 h1 r1 : over m -> (S h <= 31)%nat -> Z.of_nat pos < calcTreeWidth n (S h) -> any_seg (pos * 2 ^ S h) (2 ^ S h) = true ->
  calcTreeWidth n h <= Z.of_nat (pos * 2 + 1) -> added h (pos * 2) (add_bit true m) b1 h1 r1 ->
  added (S h) pos m (true :: b1) h1 (HashMerkleBranches r1 r1).
Proof.
  intros Hm Hh Hp Eany Hr (Ht1 & Hr1 & Hs1 & Hb1 & He1). pose proof (leaf_range _ _ Hh Hp) as Hlo. pose proof (parent_spec m _ pos Hm Hh Hp) as Hpar. rewrite Eany in Hpar.
  destruct (width_children h pos Hh Hp) as [Hl Hw]. destruct (child_seg h pos) as (E2 & E3 & E4).
  unfold added. cbn [traverseAndBuild]. rewrite Hpar. cbn [mbind option_bind negb].
  replace (wrap_u32 (Z.of_nat pos * 2)) with (Z.of_nat (pos * 2)) by (unfold wrap_u32; rewrite Z.mod_small; lia).
  replace (wrap_u32 (Z.of_nat pos * 2 + 1)) with (Z.of_nat (pos * 2 + 1)) by (unfold wrap_u32; rewrite Z.mod_small; lia).
  rewrite Ht1. cbn [mbind option_bind]. change (mb_numTx _) with n. destruct (Z.ltb_spec (Z.of_nat (pos * 2 + 1)) (calcTreeWidth n h)); [lia|].
  split_and!.
  -- f_equal. f_equal. cbn. by rewrite <- !app_assoc.
  -- destruct (merkle_level_lookup (level l h) pos) as (a & Ha & Hm').
     { rewrite level_width in Hp by lia. change (level l (S h)) with (merkle_level (level l h)) in Hp. lia. }
     rewrite Hr1 in Ha. injection Ha as <-. change (level l (S h)) with (merkle_level (level l h)). rewrite Hm'.
     rewrite level_width in Hr by lia. by rewrite (lookup_ge_None_2 (level l h) (pos * 2 + 1)%nat) by lia.
  -- lia.
  -- lia.
  -- lia.
  -- intros bs' hs'. cbn [app extract]. rewrite He1. cbn [mbind option_bind].
     destruct (Z.ltb_spec (Z.of_nat (pos * 2 + 1)) (calcTreeWidth n h)); [lia|].
     pose proof (leaf_past h (pos * 2 + 1) ltac:(lia) Hr) as Hpast. rewrite E3, E4 in Hpast.
     by rewrite E2, E4, matched_split, (seg_past _ _ Hpast), app_nil_r.
Qed.

Lemma traverse_spec h : forall pos m, over m -> (h <= 31)%nat -> Z.of_nat pos < calcTreeWidth n h -> exists bs hs root, added h pos m bs hs root.
Proof.
  induction h as [|h IH]; intros pos m Hm Hh Hp; pose proof (leaf_range _ _ Hh Hp) as Hlo; pose proof (parent_spec m _ pos Hm Hh Hp) as Hpar.
  - destruct (calcHash_level (add_bit (any_seg (pos * 2 ^ 0) (2 ^ 0)) m) 0 (over_add _ _ Hm) pos Hh Hp) as [Hc [hash Hhash]].
    exists [any_seg (pos * 2 ^ 0) (2 ^ 0)], [hash], hash. unfold added. cbn [traverseAndBuild]. rewrite Hpar. cbn [mbind option_bind].
    rewrite Hc, Hhash. cbn [mbind option_bind]. rewrite add_final_eq by done. cbn [Nat.pow]. rewrite Nat.mul_1_r in *.
    split_and!; [done|done|cbn; lia|cbn; lia|cbn; lia|]. intros bs' hs'. rewrite (seg_leaf pos hash) by done. done.
  - cbn [added]. destruct (any_seg (pos * 2 ^ S h) (2 ^ S h)) eqn:Eany.
    + destruct (width_children h pos Hh Hp) as [Hl Hw].
      destruct (IH (pos * 2)%nat (add_bit true m) (over_add _ _ Hm) ltac:(lia) Hl) as (b1 & h1 & r1 & H1).
      destruct (Z.ltb_spec (Z.of_nat (pos * 2 + 1)) (calcTreeWidth n h)) as [Hr|Hr].
      * destruct (IH (pos * 2 + 1)%nat (mkMerkle n l (mb_finalHashes m ++ h1) ms (mb_bits (add_bit true m) ++ b1)) (over_built _ _) ltac:(lia) Hr)
          as (b2 & h2 & r2 & H2). do 3 eexists. by eapply added_both.
      * do 3 eexists. by eapply added_left.
    + destruct (calcHash_level (add_bit false m) (S h) (over_add _ _ Hm) pos Hh Hp) as [Hc [root Hroot]].
      exists [false], [root], root. unfold added. cbn [traverseAndBuild]. rewrite Hpar. cbn [mbind option_bind negb].
      rewrite Hc, Hroot. cbn [mbind option_bind]. rewrite add_final_eq by done.
      pose proof (Nat.pow_nonzero 2 (S h) ltac:(lia)).
      split_and!; [done|done|cbn [length]; lia|cbn [length]; lia|cbn [length]; lia|]. intros bs' hs'. by rewrite (seg_none _ _ Eany).
Qed.
End tree.

(** ** Flags *)

Definition flag_at (flags : list byte) (k : nat) : bool :=
  match flags !! (k / 8)%nat with Some f => Z.testbit (b2z f) (Z.of_nat (k mod 8)) | None => false end.

Lemma shifted_bit b i j : 0 <= i -> 0 <= j -> Z.testbit (Z.shiftl (Z.b2z b) i) j = b && (j =? i).
Proof.
  intros Hi Hj. destruct b; cbn [Z.b2z andb].
  - rewrite Z.shiftl_1_l, Z.pow2_bits_eqb by done. apply Z.eqb_sym.
  - rewrite Z.shiftl_0_l. apply Z.bits_0.
Qed.

Lemma set_flag_spec flags i b k : (i < 8 * length flags)%nat ->
  length (set_flag flags i b) = length flags /\ flag_at (set_flag flags i b) k = flag_at flags k || (b && Nat.eqb k i).
Proof.
  intros Hi. unfold set_flag. split; [apply length_alter|]. unfold flag_at.
  assert (Hlt : (i / 8 < length flags)%nat) by (apply Nat.Div0.div_lt_upper_bound; lia).
  destruct (lookup_lt_is_Some_2 flags (i / 8)%nat Hlt) as [f Hf]. destruct (Nat.eq_dec (k / 8)%nat (i / 8)%nat) as [E|E].
  - rewrite E, list_lookup_alter_eq, Hf. cbn [fmap option_fmap option_map].
    assert (Hk : 0 <= Z.of_nat (k mod 8) < 8) by (pose proof (Nat.mod_upper_bound k 8); lia).
    rewrite b2z_z2b. change 256 with (2 ^ 8). rewrite Z.mod_pow2_bits_low, Z.lor_spec by lia. f_equal.
    rewrite shifted_bit by lia. f_equal. pose proof (Nat.div_mod k 8 ltac:(lia)). pose proof (Nat.div_mod i 8 ltac:(lia)).
    destruct (Nat.eqb_spec k i) as [->|Hne]; [by rewrite Z.eqb_refl|]. apply Z.eqb_neq. lia.
  - rewrite list_lookup_alter_ne by congruence. destruct (Nat.eqb_spec k i) as [->|]; [done|]. by rewrite andb_false_r, orb_false_r.
Qed.

Lemma pack_flags_spec bits : forall flags i k, (i + length bits <= 8 * length flags)%nat ->
  length (pack_flags flags i bits) = length flags /\
  flag_at (pack_flags flags i bits) k = flag_at flags k || (if Nat.leb i k then default false (bits !! (k - i)%nat) else false).
Proof.
  induction bits as [|b bits IH]; intros flags i k Hl; cbn [pack_flags].
  - split; [done|]. rewrite lookup_nil. cbn. by destruct (Nat.leb i k); rewrite orb_false_r.
  - cbn [length] in Hl. destruct (set_flag_spec flags i b k ltac:(lia)) as [Hs Hf]. destruct (IH (set_flag flags i b) (S i) k ltac:(lia)) as [Hs' Hf'].
    split; [congruence|]. rewrite Hf', Hf, <- orb_assoc. f_equal.
    destruct (Nat.leb_spec i k), (Nat.leb_spec (S i) k), (Nat.eqb_spec k i); try lia.
    + rewrite andb_false_r. cbn [orb]. replace (k - i)%nat with (S (k - S i)) by lia. done.
    + subst k. rewrite andb_true_r, orb_false_r, Nat.sub_diag. done.
Qed.

Lemma unpack_lookup flags : forall k, unpack_flags flags !! k = if Nat.ltb k (8 * length flags) then Some (flag_at flags k) else None.
Proof.
  induction flags as [|f flags IH]; intros k; [done|]. unfold unpack_flags. cbn [flat_map]. fold (unpack_flags flags).
  destruct (Nat.lt_ge_cases k 8) as [Hk|Hk].
  - rewrite lookup_app_l by done. destruct (Nat.ltb_spec k (8 * length (f :: flags))); [|cbn [length] in *; lia].
    unfold flag_at. rewrite Nat.div_small, Nat.mod_small by lia. cbn [lookup list_lookup].
    do 8 (destruct k as [|k]; [done|]). lia.
  - rewrite lookup_app_r by done. cbn [length map seq]. rewrite IH. unfold flag_at.
    assert (Hd : (k / 8 = S ((k - 8) / 8))%nat) by (replace k with ((k - 8) + 1 * 8)%nat at 1 by lia; rewrite Nat.div_add by lia; lia).
    assert (Hm : (k mod 8 = (k - 8) mod 8)%nat) by (replace k with ((k - 8) + 1 * 8)%nat at 1 by lia; by rewrite Nat.Div0.mod_add).
    rewrite Hd, Hm. cbn [lookup list_lookup].
    destruct (Nat.ltb_spec (k - 8) (8 * length flags)), (Nat.ltb_spec k (8 * S (length flags))); try lia; done.
Qed.

Lemma unpack_flag_bytes bits : exists padding, unpack_flags (flag_bytes bits) = bits ++ padding /\ Forall (fun b => b = false) padding /\ (length padding < 8)%nat.
Proof.
  set (w := ((length bits + 7) / 8)%nat). pose proof (Nat.div_mod (length bits + 7) 8 ltac:(lia)). pose proof (Nat.mod_upper_bound (length bits + 7) 8 ltac:(lia)).
  exists (replicate (8 * w - length bits) false). split_and!.
  - apply list_eq. intros k. rewrite unpack_lookup. unfold flag_bytes. fold w.
    destruct (pack_flags_spec bits (replicate w x00) 0 k) as [Hl Hf]; [rewrite length_replicate; unfold w; lia|].
    rewrite Hl, Hf, length_replicate, Nat.sub_0_r. cbn [Nat.leb].
    assert (flag_at (replicate w x00) k = false) as ->.
    { unfold flag_at. destruct (replicate w x00 !! _) as [f|] eqn:E; [|done]. apply lookup_replicate in E as [-> _]. apply Z.testbit_0_l. }
    cbn [orb]. destruct (Nat.lt_ge_cases k (length bits)) as [Hk|Hk].
    + rewrite lookup_app_l by done. destruct (lookup_lt_is_Some_2 bits k Hk) as [b ->]. unfold default, from_option.
      destruct (Nat.ltb_spec k (8 * w)); [done|unfold w in *; lia].
    + rewrite lookup_app_r, (lookup_ge_None_2 bits k) by done. unfold default, from_option. destruct (Nat.ltb_spec k (8 * w)).
      * symmetry. apply lookup_replicate. split; [done|]. lia.
      * symmetry. apply lookup_ge_None_2. rewrite length_replicate. lia.
  - apply Forall_replicate. done.
  - rewrite length_replicate. unfold w. lia.
Qed.

(** ** The whole message *)

Lemma matched_at_0 h l' b bits : matched_at (h :: l') (b :: bits) 0 = if b then Some (0%nat, h) else None.
Proof. by destruct b. Qed.
Lemma matched_at_S h l' b bits j : matched_at (h :: l') (b :: bits) (S j) = (fun p => (S p.1, p.2)) <$> matched_at l' bits j.
Proof. unfold matched_at. cbn. destruct (bits !! j) as [[]|]; [|done|done]. by destruct (l' !! j). Qed.

Lemma matched_indices_spec bits : forall l' i, length bits = length l' -> Z.of_nat i + Z.of_nat (length bits) <= 2 ^ 32 ->
  matched_indices (Z.of_nat i) bits = map (fun p => Z.of_nat (i + p.1)) (matched_seg l' bits 0 (length bits)).
Proof.
  induction bits as [|b bits IH]; intros l' i Hl Hi; [done|]. destruct l' as [|h l']; [done|]. cbn [length] in *.
  specialize (IH l' (S i) ltac:(lia) ltac:(lia)). cbn [matched_indices]. replace (Z.of_nat i + 1) with (Z.of_nat (S i)) by lia. rewrite IH.
  unfold matched_seg. cbn [seq omap list_omap]. rewrite <- seq_shift.
  assert (Hshift : forall k, omap (matched_at (h :: l') (b :: bits)) (map S (seq 0 k)) =
    map (fun p => (S p.1, p.2)) (omap (matched_at l' bits) (seq 0 k))).
  { intros k. induction (seq 0 k) as [|j js IHj]; [done|]. cbn [map omap list_omap]. rewrite matched_at_S, IHj. by destruct (matched_at l' bits j). }
  rewrite Hshift, matched_at_0. destruct b; cbn [map]; rewrite map_map.
  - cbn [fst]. unfold wrap_u32. rewrite Z.mod_small by lia. f_equal; [lia|]. apply map_ext. intros p. cbn. lia.
  - apply map_ext. intros p. cbn. lia.
Qed.

Lemma add_hashes_all hashes : (Z.of_nat (length hashes) <= maxTxPerBlock) -> add_hashes hashes = hashes.
Proof.
  intros H. unfold add_hashes. change hashes with ([] ++ hashes) at 2. assert (Hl : len (@nil (list byte)) + Z.of_nat (length hashes) <= maxTxPerBlock) by (change (len []) with 0; lia).
  clear H. revert Hl. generalize (@nil (list byte)). induction hashes as [|h hashes IH]; intros acc Hl; [by rewrite app_nil_r|].
  cbn [foldl length] in *. assert (ignoring_error MsgMerkleBlock_AddTxHash acc h = acc ++ [h]) as ->.
  { apply add_bounded_below. unfold len in *. lia. }
  rewrite IH; [by rewrite <- app_assoc|]. unfold len in *. rewrite length_app. cbn. lia.
Qed.
Section message.
Context (l : list (list byte)) (Hpos : (0 < length l)%nat) (Hmax : Z.of_nat (length l) <= 2 ^ 31).
Abbreviation n := (Z.of_nat (length l)).

Lemma tree_height_spec fuel : forall h, (32 <= h + fuel)%nat -> (h <= 31)%nat ->
  let H := tree_height fuel n h in (H <= 31)%nat /\ calcTreeWidth n H = 1 /\ merkle_root fuel (level l h) = level l H !! 0%nat.
Proof.
  induction fuel as [|fuel IH]; intros h Hf Hh; [lia|]. cbn [tree_height]. destruct (Z.ltb_spec 1 (calcTreeWidth n h)) as [Hw|Hw].
  - assert (Hne : h <> 31%nat).
    { intros ->. rewrite width_div in Hw by (done || lia). change (Z.of_nat 31) with 31 in Hw.
      assert ((n + 2 ^ 31 - 1) / 2 ^ 31 < 2) by (apply Z.div_lt_upper_bound; lia). lia. }
    destruct (IH (S h) ltac:(lia) ltac:(lia)) as (H1 & H2 & H3). split_and!; [done|done|]. rewrite <- H3. change (level l (S h)) with (merkle_level (level l h)).
    rewrite level_width in Hw by (done || lia). destruct (level l h) as [|a [|b t]]; cbn [length] in Hw; [lia|lia|done].
  - pose proof (width_bound l Hpos Hmax h Hh). split_and!; [done|lia|]. rewrite level_width in * by (done || lia).
    destruct (level l h) as [|a [|b t]]; cbn [length] in *; [lia|done|lia].
Qed.

Context (ms : list bool) (Hlen : length ms = length l).

Lemma seg_all k : (length l <= k)%nat -> matched_seg l ms 0 k = matched_seg l ms 0 (length ms).
Proof.
  clear Hpos Hmax. intros Hk. replace k with (length ms + (k - length ms))%nat by lia. rewrite matched_split, (seg_past l ms Hlen (0 + length ms)) by lia. apply app_nil_r.
Qed.

End message.

Lemma match_txs_length filter txs filter' pairs : match_txs filter txs = Some (filter', pairs) -> length pairs = length txs.
Proof.
  revert filter pairs. induction txs as [|tx txs IH]; intros filter pairs H; cbn in H; [by injection H as <- <-|].
  destruct (MatchTxAndUpdate filter tx) as [[[f t] b]|]; [cbn in H|done]. destruct (Tx_Hash t) as [[t' h]|]; [cbn in H|done].
  destruct (match_txs f txs) as [[f' rest]|] eqn:E; [cbn in H|done]. injection H as <- <-. cbn. f_equal. by eapply IH.
Qed.

(** C31: from a merkle block a client reads back the root of the block's merkle tree and
    exactly the transactions that matched the filter, with their positions: the
    partial tree built by the walk is complete, every hash is used, and what
    remains of the flags is the padding of the last byte. *)
Theorem NewMerkleBlock_extracts header txs filter filter' pairs (Hm : match_txs filter txs = Some (filter', pairs))
    (Hne : txs <> []) (Hmax : len txs <= maxTxPerBlock) :
  let matches := matched_seg (map snd pairs) (map fst pairs) 0 (length pairs) in
  exists msg root padding,
    NewMerkleBlock header txs filter = Some (filter', msg, map (fun p => Z.of_nat p.1) matches) /\
    merkle_root 33 (map snd pairs) = Some root /\
    read_merkle_block msg = Some (root, matches, padding, []) /\
    Forall (fun b => b = false) padding /\ (length padding < 8)%nat.
Proof.
  pose proof (match_txs_length _ _ _ _ Hm) as Hl. set (l := map snd pairs). set (ms := map fst pairs). cbv zeta.
  assert (Hll : length l = length txs) by (unfold l; by rewrite length_map). assert (Hml : length ms = length l) by (unfold ms, l; by rewrite !length_map).
  assert (Hpos : (0 < length l)%nat) by (destruct txs; [done|cbn in Hll; lia]).
  assert (Hm31 : Z.of_nat (length l) <= 2 ^ 31) by (assert (maxTxPerBlock <= 2 ^ 31) by (vm_compute; discriminate); unfold len in Hmax; lia).
  destruct (tree_height_spec l Hpos Hm31 33 0 ltac:(lia) ltac:(lia)) as (HH & HW & HR). set (H := tree_height 33 (Z.of_nat (length l)) 0) in *.
  set (m0 := mkMerkle (Z.of_nat (length l)) l [] ms []).
  destruct (traverse_spec l Hpos Hm31 ms Hml H 0 m0) as (bs & hs & root & Ht & Hroot & Hh1 & Hh2 & Hex); [done|done|lia|].
  destruct (unpack_flag_bytes bs) as (padding & Hun & Hpad & Hpl).
  exists (mkMsgMerkleBlock header (Z.of_nat (length l)) (add_hashes hs) (flag_bytes bs)), root, padding.
  assert (Hu : wrap_u32 (Z.of_nat (length txs)) = Z.of_nat (length l)) by (unfold wrap_u32; rewrite Z.mod_small; lia).
  assert (Hlp : length pairs = length ms) by (unfold ms; by rewrite length_map).
  split_and!; [| |unfold read_merkle_block; cbn [MerkleBlock_Transactions MerkleBlock_Flags MerkleBlock_Hashes]|done|done].
  - unfold NewMerkleBlock. rewrite Hm. cbn [mbind option_bind]. rewrite Hu. fold l ms H m0. change (Z.of_nat 0) with 0 in Ht. rewrite Ht. cbn [mbind option_bind mb_numTx mb_finalHashes mb_bits app m0].
    f_equal. f_equal. rewrite Hlp. apply (matched_indices_spec ms l 0 Hml). lia.
  - change (level l 0) with l in HR. by rewrite HR.
  - rewrite add_hashes_all by (unfold len in Hmax; lia). fold H. rewrite Hun. rewrite <- (app_nil_r hs), Hex. rewrite Nat.mul_0_l, Hlp. do 4 f_equal.
    apply seg_all; [done|]. pose proof (leaf_past l Hpos Hm31 H 1 HH ltac:(lia)). lia.
Qed.

(** ** A block of three transactions *)

Definition three_txs : list Tx := (fun v => NewTx (NewMsgTx v)) <$> [1; 2; 3].
Definition second_filter : Filter := default None (AddHash (Some small_filter) (MsgTx_TxHash (NewMsgTx 2))).
Definition demo_header : BlockHeader := mkBlockHeader 1 [] [] 0 0 0.
Lemma NewMerkleBlock_extracts_witness : exists msg root matches padding f pairs,
  match_txs second_filter three_txs = Some (f, pairs) /\ map fst pairs = [false; true; false] /\
  NewMerkleBlock demo_header three_txs second_filter = Some (f, msg, map (fun p => Z.of_nat p.1) matches) /\
  read_merkle_block msg = Some (root, matches, padding, []).
Proof.
  assert (Hrun : (map fst ∘ snd) <$> match_txs second_filter three_txs = Some [false; true; false]) by (vm_compute; reflexivity).
  destruct (match_txs second_filter three_txs) as [[f pairs]|] eqn:E; [|discriminate Hrun]. injection Hrun as Hbits.
  destruct (NewMerkleBlock_extracts demo_header three_txs second_filter f pairs E ltac:(discriminate) ltac:(vm_compute; discriminate)) as (msg & root & padding & H1 & H2 & H3 & _).
  exists msg, root, (matched_seg (map snd pairs) (map fst pairs) 0 (length pairs)), padding, f, pairs.
  split; [reflexivity|]. split; [exact Hbits|]. split; [exact H1|exact H3].
Defined.
