(* ===== verification/GCS.v ===== *)
(** * nogoutil/gcs: Golomb coded sets

    A filter is a sorted list of hashes, each written as the difference from the
    one before: the quotient by [2^P] in unary and the remainder in [P] bits.  The
    bit stream and SipHash are third-party code: [BStream] is what the former
    promises, the latter is any function to 64 bits.  [sort.Slice] on integers is
    the one sorted list.  Reading past the end of the stream is [io.EOF]; no other
    error of the stream occurs. *)

From Stdlib Require Import ZArith Lia.
From stdpp Require Import sorting.
From S2P Require Import Prelude WireCommon.

Open Scope Z_scope.

Abbreviation bytes := (list byte).

Definition KeySize : Z := 16.
Definition varIntProtoVer : Z := 0.

Inductive gcs_error : Type :=
| ErrNTooBig
| ErrPTooBig
| ErrWire (e : wire_error)
| ErrNoP          (* "p value is not set, cannot build" *)
| ErrNoM
| ErrRandom.      (* of the random number generator *)

(** [(v * N) >> 64] in 64-bit arithmetic, [N] being in two halves. *)
Definition fastReduction (v nHi nLo : Z) : Z :=
  let vhi := Z.shiftr v 32 in
  let vlo := wrap_u32 v in
  let vnphi := wrap_u64 (vhi * nHi) in
  let vnpmid := wrap_u64 (vhi * nLo) in
  let npvmid := wrap_u64 (nHi * vlo) in
  let vnplo := wrap_u64 (vlo * nLo) in
  let carry := Z.shiftr (wrap_u64 (wrap_u64 (wrap_u32 vnpmid + wrap_u32 npvmid) + Z.shiftr vnplo 32)) 32 in
  wrap_u64 (wrap_u64 (wrap_u64 (vnphi + Z.shiftr vnpmid 32) + Z.shiftr npvmid 32) + carry).

(** ** The bit stream *)

Class BStream (W R : Type) : Type := {
  NewBStreamWriter : W;
  WriteBit : bool -> W -> W;
  WriteBits : Z -> nat -> W -> W;
  BStream_Bytes : W -> bytes;
  NewBStreamReader : bytes -> R;
  ReadBit : R -> option (bool * R);       (* [None] is [io.EOF] *)
  ReadBits : nat -> R -> option (Z * R);
}.

(** The low bits of a number, the highest first, and back. *)
Fixpoint low_bits (n : nat) (v : Z) : list bool :=
  match n with O => [] | S n => Z.testbit v (Z.of_nat n) :: low_bits n v end.
Definition bits_value (l : list bool) : Z := fold_left (fun v b => 2 * v + Z.b2z b) l 0.

Definition bits_of (bs : bytes) : list bool := bs ≫= fun b => low_bits 8 (b2z b).

(** Bytes are read from their highest bit, and the last byte written is filled
    up with zeros. *)
Class BStreamLaws (W R : Type) `{!BStream W R} : Type := {
  written : W -> list bool;
  left_bits : R -> list bool;
  written_new : written NewBStreamWriter = [];
  written_bit b w : written (WriteBit b w) = written w ++ [b];
  written_bits v n w : written (WriteBits v n w) = written w ++ low_bits n v;
  bytes_written w : exists k, (k < 8)%nat /\ bits_of (BStream_Bytes w) = written w ++ repeat false k;
  left_reader bs : left_bits (NewBStreamReader bs) = bits_of bs;
  read_bit r : match left_bits r with
    | [] => ReadBit r = None
    | b :: l => exists r', ReadBit r = Some (b, r') /\ left_bits r' = l end;
  read_bits n r : if Nat.leb n (length (left_bits r))
    then exists r', ReadBits n r = Some (bits_value (take n (left_bits r)), r') /\ left_bits r' = drop n (left_bits r)
    else ReadBits n r = None;
}.

Section gcs.
Context {W R : Type} `{!BStream W R}.
Context (siphash_Sum64 : bytes -> bytes -> Z).   (* of the data and the key *)

(** ** Filters *)

Record Filter : Type := mkFilter {
  f_n : Z;
  f_p : Z;
  f_modulusNP : Z;
  f_filterData : bytes;
}.

(** The hash of a datum in the range of the filter. *)
Definition reduced_hash (modulusNP : Z) (key d : bytes) : Z :=
  let nphi := Z.shiftr modulusNP 32 in
  let nplo := wrap_u32 modulusNP in
  fastReduction (siphash_Sum64 d key) nphi nplo.

(** One difference: the quotient in unary and the remainder. *)
Definition write_delta (p : Z) (delta : Z) (b : W) : W :=
  let remainder := Z.land delta (wrap_u64 (Z.shiftl 1 p) - 1) in
  let value := Z.shiftr (delta - remainder) p in
  let b := Nat.iter (Z.to_nat value) (WriteBit true) b in
  let b := WriteBit false b in
  WriteBits remainder (Z.to_nat p) b.
Fixpoint write_values (p : Z) (values : list Z) (lastValue : Z) (b : W) : W :=
  match values with
  | [] => b
  | v :: values => write_values p values v (write_delta p (wrap_u64 (v - lastValue)) b)
  end.

Definition sorted_values (values : list Z) : list Z := merge_sort Z.le values.

Definition BuildGCSFilter (P M : Z) (key : bytes) (data : list bytes) : result gcs_error Filter :=
  if 2 ^ 32 <=? len data then Err ErrNTooBig
  else if 32 <? P then Err ErrPTooBig
  else
    let n := wrap_u32 (len data) in
    let modulusNP := wrap_u64 (n * M) in
    if n =? 0 then Ok (mkFilter n P modulusNP [])
    else
      let values := sorted_values (map (reduced_hash modulusNP key) data) in
      Ok (mkFilter n P modulusNP (BStream_Bytes (write_values P values 0 NewBStreamWriter))).

Definition FromBytes (N P M : Z) (d : bytes) : result gcs_error Filter :=
  if 32 <? P then Err ErrPTooBig else Ok (mkFilter N P (wrap_u64 (N * M)) d).

Definition FromNBytes (P M : Z) (d : bytes) : result gcs_error Filter :=
  match ReadVarIntBuf varIntProtoVer d with
  | Err e => Err (ErrWire e)
  | Ok (N, rest) => if 2 ^ 32 <=? N then Err ErrNTooBig else FromBytes (wrap_u32 N) P M rest
  end.

Definition Filter_Bytes (f : Filter) : bytes := f_filterData f.
Definition NBytes (f : Filter) : bytes := WriteVarIntBuf varIntProtoVer (f_n f) ++ f_filterData f.
Definition PBytes (f : Filter) : bytes := z2b (f_p f) :: f_filterData f.
Definition NPBytes (f : Filter) : bytes := WriteVarIntBuf varIntProtoVer (f_n f) ++ [z2b (f_p f)] ++ f_filterData f.
Definition Filter_P (f : Filter) : Z := f_p f.
Definition Filter_N (f : Filter) : Z := f_n f.

(** ** Reading *)

(** The loop over the ones, with as much fuel as there can be bits. *)
Fixpoint read_unary (fuel : nat) (quotient : Z) (b : R) : option (Z * R) :=
  match fuel with
  | O => None
  | S fuel =>
      '(c, b) ← ReadBit b;
      if (c : bool) then read_unary fuel (wrap_u64 (quotient + 1)) b else Some (quotient, b)
  end.
Definition readFullUint64 (f : Filter) (b : R) : option (Z * R) :=
  '(quotient, b) ← read_unary (S (8 * length (f_filterData f))) 0 b;
  '(remainder, b) ← ReadBits (Z.to_nat (f_p f)) b;
  Some (wrap_u64 (wrap_u64 (Z.shiftl quotient (f_p f)) + remainder), b).

Fixpoint match_loop (f : Filter) (term : Z) (n : nat) (value : Z) (b : R) : bool :=
  match n with
  | O => false
  | S n =>
      match readFullUint64 f b with
      | None => false
      | Some (delta, b) =>
          let value := wrap_u64 (value + delta) in
          if value =? term then true else if term <? value then false else match_loop f term n value b
      end
  end.
Definition Match (f : Filter) (key data : bytes) : bool :=
  match_loop f (reduced_hash (f_modulusNP f) key data) (Z.to_nat (f_n f)) 0 (NewBStreamReader (Filter_Bytes f)).

(** The inner loop: the query from the first item on that is not below the value,
    or the result of the call. *)
Fixpoint advance_query (value : Z) (query : list Z) : list Z + bool :=
  match query with
  | [] => inr false
  | q :: rest => if q =? value then inr true else if value <? q then inl query else advance_query value rest
  end.
Fixpoint zip_loop (f : Filter) (n : nat) (value : Z) (query : list Z) (b : R) : bool :=
  match n with
  | O => false
  | S n =>
      match readFullUint64 f b with
      | None => false
      | Some (delta, b) =>
          let value := wrap_u64 (value + delta) in
          match advance_query value query with
          | inr found => found
          | inl query => zip_loop f n value query b
          end
      end
  end.
Definition ZipMatchAny (f : Filter) (key : bytes) (data : list bytes) : bool :=
  if len data =? 0 then false
  else zip_loop f (Z.to_nat (f_n f)) 0 (sorted_values (map (reduced_hash (f_modulusNP f) key) data)) (NewBStreamReader (Filter_Bytes f)).

(** The index of the values, cut to 32 bits, until the end of the stream. *)
Fixpoint index_loop (f : Filter) (fuel : nat) (lastValue : Z) (values : gset Z) (b : R) : gset Z :=
  match fuel with
  | O => values
  | S fuel =>
      match readFullUint64 f b with
      | None => values
      | Some (value, b) =>
          let lastValue := wrap_u64 (lastValue + value) in
          index_loop f fuel lastValue ({[wrap_u32 lastValue]} ∪ values) b
      end
  end.
Definition HashMatchAny (f : Filter) (key : bytes) (data : list bytes) : bool :=
  if len data =? 0 then false
  else
    let values := index_loop f (S (8 * length (f_filterData f))) 0 ∅ (NewBStreamReader (Filter_Bytes f)) in
    existsb (fun d => bool_decide (wrap_u32 (reduced_hash (f_modulusNP f) key d) ∈ values)) data.

Definition MatchAny (f : Filter) (key : bytes) (data : list bytes) : bool :=
  if f_n f / 2 <=? len data then HashMatchAny f key data else ZipMatchAny f key data.
End gcs.

(** ** Reduction *)

Lemma half_products a b : 0 <= a < 2 ^ 32 -> 0 <= b < 2 ^ 32 -> 0 <= a * b <= (2 ^ 32 - 1) * (2 ^ 32 - 1).
Proof. nia. Qed.

Lemma fastReduction_spec v N :
  u64_ok v -> u64_ok N -> fastReduction v (Z.shiftr N 32) (wrap_u32 N) = v * N / 2 ^ 64.
Proof.
  intros Hv HN. unfold fastReduction, wrap_u32. rewrite !Z.shiftr_div_pow2 by lia.
  pose proof (Z.div_mod v (2 ^ 32) ltac:(lia)) as Ev. pose proof (Z.div_mod N (2 ^ 32) ltac:(lia)) as EN.
  pose proof (Z.mod_pos_bound v (2 ^ 32) ltac:(lia)). pose proof (Z.mod_pos_bound N (2 ^ 32) ltac:(lia)).
  assert (0 <= v / 2 ^ 32 < 2 ^ 32) by (split; [apply Z.div_pos; lia|apply Z.div_lt_upper_bound; lia]).
  assert (0 <= N / 2 ^ 32 < 2 ^ 32) by (split; [apply Z.div_pos; lia|apply Z.div_lt_upper_bound; lia]).
  set (vh := v / 2 ^ 32) in *. set (vl := v mod 2 ^ 32) in *. set (nh := N / 2 ^ 32) in *. set (nl := N mod 2 ^ 32) in *.
  clearbody vh vl nh nl. subst v N.
  pose proof (half_products vh nh ltac:(lia) ltac:(lia)). pose proof (half_products vh nl ltac:(lia) ltac:(lia)).
  pose proof (half_products nh vl ltac:(lia) ltac:(lia)). pose proof (half_products vl nl ltac:(lia) ltac:(lia)).
  unfold wrap_u64. rewrite (Z.mod_small (vh * nh)), (Z.mod_small (vh * nl)), (Z.mod_small (nh * vl)), (Z.mod_small (vl * nl)) by lia.
  replace ((2 ^ 32 * vh + vl) * (2 ^ 32 * nh + nl))
    with (2 ^ 64 * (vh * nh) + 2 ^ 32 * (vh * nl + nh * vl) + vl * nl) by (change (2 ^ 64) with (2 ^ 32 * 2 ^ 32); ring).
  assert (Hlt : (2 ^ 64 * (vh * nh) + 2 ^ 32 * (vh * nl + nh * vl) + vl * nl) / 2 ^ 64 < 2 ^ 64) by (apply Z.div_lt_upper_bound; lia).
  set (x := vh * nh) in *. set (a := vh * nl) in *. set (b := nh * vl) in *. set (c := vl * nl) in *. clearbody x a b c.
  assert (forall y, 0 <= y <= (2 ^ 32 - 1) * (2 ^ 32 - 1) -> exists q r, y = 2 ^ 32 * q + r /\ 0 <= r < 2 ^ 32 /\ 0 <= q < 2 ^ 32 - 1 /\ y / 2 ^ 32 = q /\ y mod 2 ^ 32 = r) as Hd.
  { intros y Hy. exists (y / 2 ^ 32), (y mod 2 ^ 32). pose proof (Z.div_mod y (2 ^ 32) ltac:(lia)).
    pose proof (Z.mod_pos_bound y (2 ^ 32) ltac:(lia)). repeat split; try lia. }
  destruct (Hd a ltac:(lia)) as (qa & ra & -> & Hra & Hqa & -> & ->), (Hd b ltac:(lia)) as (qb & rb & -> & Hrb & Hqb & -> & ->),
    (Hd c ltac:(lia)) as (qc & rc & -> & Hrc & Hqc & -> & _).
  rewrite (Z.mod_small (ra + rb)), (Z.mod_small (ra + rb + qc)) by lia.
  pose proof (Z.div_mod (ra + rb + qc) (2 ^ 32) ltac:(lia)) as Es. pose proof (Z.mod_pos_bound (ra + rb + qc) (2 ^ 32) ltac:(lia)).
  set (k := (ra + rb + qc) / 2 ^ 32) in *. set (s := (ra + rb + qc) mod 2 ^ 32) in *. clearbody k s.
  assert (Eq : (2 ^ 64 * x + 2 ^ 32 * (2 ^ 32 * qa + ra + (2 ^ 32 * qb + rb)) + (2 ^ 32 * qc + rc)) / 2 ^ 64 = x + qa + qb + k).
  { symmetry. apply (Z.div_unique _ _ _ (2 ^ 32 * s + rc)); lia. }
  rewrite Eq in *. rewrite (Z.mod_small (x + qa)), (Z.mod_small (x + qa + qb)), Z.mod_small by lia. done.
Qed.

Lemma reduction_range v N : u64_ok v -> u64_ok N -> u64_ok (v * N / 2 ^ 64).
Proof. intros. split; [apply Z.div_pos; lia|]. apply Z.div_lt_upper_bound; nia. Qed.

(** ** Bits *)

Lemma length_low_bits n v : length (low_bits n v) = n.
Proof. induction n as [|n IH]; simpl; [done|by rewrite IH]. Qed.

Lemma bits_value_from l v : fold_left (fun v b => 2 * v + Z.b2z b) l v = v * 2 ^ len l + bits_value l.
Proof.
  unfold bits_value. revert v. induction l as [|b l IH]; intros v; simpl fold_left.
  - change (len (@nil bool)) with 0. lia.
  - rewrite IH, (IH (2 * 0 + Z.b2z b)). replace (len (b :: l)) with (Z.succ (len l)) by (unfold len; rewrite length_cons; lia).
    rewrite Z.pow_succ_r by apply len_nonneg. lia.
Qed.

Lemma bits_value_low n v : bits_value (low_bits n v) = v mod 2 ^ Z.of_nat n.
Proof.
  induction n as [|n IH]; [by rewrite Z.mod_1_r|]. cbn [low_bits]. unfold bits_value. cbn [fold_left].
  rewrite bits_value_from, IH; unfold len; rewrite length_low_bits, Nat2Z.inj_succ, Z.pow_succ_r by lia.
  replace (2 * 2 ^ Z.of_nat n) with (2 ^ Z.of_nat n * 2) by lia.
  rewrite Z.rem_mul_r by lia. rewrite <- Z.shiftr_div_pow2, <- Z.bit0_mod, Z.shiftr_spec, (Z.add_0_l (Z.of_nat n)) by lia. nia.
Qed.

Lemma length_bits_of bs : length (bits_of bs) = (8 * length bs)%nat.
Proof. induction bs as [|b bs IH]; [done|]. unfold bits_of in *. cbn [mbind list_bind]. rewrite length_app, IH, length_low_bits. simpl length. lia. Qed.

(** ** Golomb coding *)

Definition delta_bits (p delta : Z) : list bool :=
  repeat true (Z.to_nat (Z.shiftr delta p)) ++ [false] ++ low_bits (Z.to_nat p) delta.
Fixpoint encoded (p : Z) (values : list Z) (lastValue : Z) : list bool :=
  match values with
  | [] => []
  | v :: values => delta_bits p (v - lastValue) ++ encoded p values v
  end.

(** A list that goes up from a value, within 64 bits. *)
Fixpoint rising (lastValue : Z) (values : list Z) : Prop :=
  match values with
  | [] => True
  | v :: values => lastValue <= v < 2 ^ 64 /\ rising v values
  end.

Section coding.
Context {W R : Type} `{!BStream W R} `{!BStreamLaws W R}.

Lemma low_bits_mod n v : low_bits n (v mod 2 ^ Z.of_nat n) = low_bits n v.
Proof.
  assert (H : forall k, (k <= n)%nat -> low_bits k (v mod 2 ^ Z.of_nat n) = low_bits k v); [|by apply H].
  intros k. induction k as [|k IH]; intros Hk; [done|]. simpl. rewrite IH by lia. f_equal. apply Z.mod_pow2_bits_low. lia.
Qed.

Lemma written_delta p delta (b : W) :
  0 <= p <= 32 -> u64_ok delta -> written (write_delta p delta b) = written b ++ delta_bits p delta.
Proof.
  intros Hp Hd. unfold write_delta, delta_bits. pose proof (Z.pow_pos_nonneg 2 p ltac:(lia) ltac:(lia)).
  assert (2 ^ p < 2 ^ 64) by (apply Z.pow_lt_mono_r; lia).
  assert (E : wrap_u64 (Z.shiftl 1 p) - 1 = Z.ones p).
  { unfold wrap_u64. rewrite Z.shiftl_1_l, Z.mod_small, Z.ones_equiv by lia. lia. }
  rewrite E, Z.land_ones, written_bits, written_bit by lia.
  assert (Hq : Z.shiftr (delta - delta mod 2 ^ p) p = Z.shiftr delta p).
  { rewrite !Z.shiftr_div_pow2 by lia. pose proof (Z.div_mod delta (2 ^ p)).
    replace (delta - delta mod 2 ^ p) with (delta / 2 ^ p * 2 ^ p) by lia. apply Z.div_mul. lia. }
  rewrite Hq. assert (Ho : forall n (b : W), written (Nat.iter n (WriteBit true) b) = written b ++ repeat true n).
  { clear. intros n b. induction n as [|n IH]; [by rewrite app_nil_r|]. simpl Nat.iter. rewrite written_bit, IH, <- app_assoc.
    by rewrite <- repeat_cons. }
  rewrite Ho, <- !app_assoc. do 3 f_equal. rewrite <- (low_bits_mod (Z.to_nat p) delta), Z2Nat.id by lia. done.
Qed.

Lemma written_values p values lastValue (b : W) :
  0 <= p <= 32 -> 0 <= lastValue -> rising lastValue values ->
  written (write_values p values lastValue b) = written b ++ encoded p values lastValue.
Proof.
  intros Hp. revert lastValue b. induction values as [|v values IH]; intros last b H0 Hr; [by rewrite app_nil_r|].
  destruct Hr as (Hv & Hr). simpl. rewrite IH by (done || lia).
  unfold wrap_u64. rewrite Z.mod_small by lia. rewrite written_delta by lia. by rewrite app_assoc.
Qed.

Lemma read_unary_ones fuel q n (r : R) rest :
  left_bits r = repeat true n ++ false :: rest -> (n < fuel)%nat -> 0 <= q -> q + Z.of_nat n < 2 ^ 64 ->
  exists r', read_unary fuel q r = Some (q + Z.of_nat n, r') /\ left_bits r' = rest.
Proof.
  revert q n r. induction fuel as [|fuel IH]; intros q n r El Hn H0 Hq; [lia|].
  cbn [read_unary]. pose proof (read_bit r) as Hb. rewrite El in Hb. destruct n as [|n]; simpl in Hb; destruct Hb as (r' & E & El').
  - exists r'. rewrite E. split; [|done]. simpl. do 2 f_equal. lia.
  - rewrite E. simpl. unfold wrap_u64. rewrite Z.mod_small by lia.
    destruct (IH (q + 1) n r' El' ltac:(lia) ltac:(lia) ltac:(lia)) as (r2 & E2 & El2). exists r2. split; [|done]. rewrite E2. do 2 f_equal. lia.
Qed.

(** A difference that was written is read. *)
Lemma read_delta f (r : R) delta rest :
  0 <= f_p f <= 32 -> u64_ok delta -> left_bits r = delta_bits (f_p f) delta ++ rest ->
  (length (left_bits r) <= 8 * length (f_filterData f))%nat ->
  exists r', readFullUint64 f r = Some (delta, r') /\ left_bits r' = rest.
Proof.
  intros Hp Hd El Hl. unfold readFullUint64, delta_bits in *. set (q := Z.shiftr delta (f_p f)) in *.
  pose proof (Z.pow_pos_nonneg 2 (f_p f) ltac:(lia) ltac:(lia)) as Hpow.
  assert (Hq : 0 <= q <= delta).
  { unfold q. rewrite Z.shiftr_div_pow2 by lia. split; [apply Z.div_pos; lia|apply Z.div_le_upper_bound; nia]. }
  rewrite <- !app_assoc in El. pose proof El as Ell. apply (f_equal length) in Ell.
  rewrite !length_app, repeat_length in Ell. simpl in El.
  destruct (read_unary_ones (S (8 * length (f_filterData f))) 0 _ r _ El ltac:(lia) ltac:(lia) ltac:(lia)) as (r' & E & El').
  rewrite E. simpl. rewrite Z2Nat.id by lia. pose proof (read_bits (Z.to_nat (f_p f)) r') as Hr.
  rewrite El', length_app, length_low_bits in Hr. replace (Nat.leb _ _) with true in Hr by (symmetry; apply Nat.leb_le; lia).
  destruct Hr as (r2 & E2 & El2). exists r2. rewrite E2. simpl.
  rewrite drop_app_length' in El2 by (by rewrite length_low_bits). split; [|done].
  rewrite take_app_length' by (by rewrite length_low_bits). rewrite bits_value_low, Z2Nat.id by lia. do 2 f_equal.
  unfold q, wrap_u64. rewrite Z.shiftl_mul_pow2, Z.shiftr_div_pow2 by lia. pose proof (Z.div_mod delta (2 ^ f_p f) ltac:(lia)).
  pose proof (Z.div_pos delta (2 ^ f_p f) ltac:(lia) ltac:(lia)).
  pose proof (Z.mod_pos_bound delta (2 ^ f_p f) ltac:(lia)).
  rewrite Z.add_0_l, (Z.mod_small (_ / _ * _)) by nia. rewrite Z.mod_small by lia. lia.
Qed.
End coding.

(** ** The loops over a stream of differences *)

Section loops.
Context {W R : Type} `{!BStream W R} `{!BStreamLaws W R}.
Context (f : Filter) (p_ok : 0 <= f_p f <= 32).

Lemma rising_ge lastValue values v : rising lastValue values -> In v values -> lastValue <= v.
Proof.
  revert lastValue. induction values as [|w values IH]; intros last Hr Hin; [done|].
  destruct Hr as (Hw & Hr), Hin as [->|Hin]; [lia|]. specialize (IH _ Hr Hin). lia.
Qed.

Lemma step_value value v : 0 <= value <= v -> v < 2 ^ 64 -> wrap_u64 (value + (v - value)) = v.
Proof. intros. unfold wrap_u64. replace (value + (v - value)) with v by lia. apply Z.mod_small. lia. Qed.

(** One step of each loop: the next value of the set. *)
Lemma read_encoded (r : R) value v values rest :
  0 <= value -> rising value (v :: values) -> left_bits r = encoded (f_p f) (v :: values) value ++ rest ->
  (length (left_bits r) <= 8 * length (f_filterData f))%nat ->
  exists r', readFullUint64 f r = Some (v - value, r') /\ wrap_u64 (value + (v - value)) = v /\ 0 <= v /\ rising v values /\
    left_bits r' = encoded (f_p f) values v ++ rest /\ (length (left_bits r') < length (left_bits r))%nat.
Proof using BStreamLaws0 p_ok.
  intros H0 (Hv & Hr) El Hl. cbn [encoded] in El. rewrite <- app_assoc in El.
  destruct (read_delta f r (v - value) _ p_ok ltac:(lia) El Hl) as (r' & E & El').
  exists r'. split_and!; try done; [by apply step_value; lia|lia|].
  rewrite El', El. unfold delta_bits. rewrite !length_app. simpl. lia.
Qed.

Lemma match_loop_spec term values value (r : R) rest :
  0 <= value -> rising value values -> left_bits r = encoded (f_p f) values value ++ rest ->
  (length (left_bits r) <= 8 * length (f_filterData f))%nat ->
  match_loop f term (length values) value r = existsb (Z.eqb term) values.
Proof using BStreamLaws0 p_ok.
  revert value r. induction values as [|v values IH]; intros value r H0 Hr El Hl; [done|].
  destruct (read_encoded _ _ _ _ _ H0 Hr El Hl) as (r' & E & Ev & Hv & Hr' & El' & Hlt).
  cbn [length match_loop existsb]. rewrite E, Ev, (Z.eqb_sym term).
  destruct (Z.eqb_spec v term); [done|]. destruct (Z.ltb_spec term v).
  - symmetry. apply not_true_is_false. intros (w & Hw & Ew)%existsb_exists. apply Z.eqb_eq in Ew.
    pose proof (rising_ge _ _ _ Hr' Hw). lia.
  - apply IH; try done. lia.
Qed.

(** Some value of the first list is one of the second. *)
Definition common (values query : list Z) : bool := existsb (fun v => existsb (Z.eqb v) query) values.

Lemma common_true values query : common values query = true <-> exists v, In v values /\ In v query.
Proof.
  unfold common. rewrite existsb_exists. split.
  - intros (v & Hv & (w & Hw & ->%Z.eqb_eq)%existsb_exists). by exists w.
  - intros (v & Hv & Hw). exists v. split; [done|]. apply existsb_exists. exists v. by rewrite Z.eqb_refl.
Qed.

Lemma advance_query_spec v values q0 query :
  rising q0 query -> rising v values ->
  match advance_query v query with
  | inr found => common (v :: values) query = found
  | inl query' => common values query' = common (v :: values) query /\ exists q1, rising q1 query'
  end.
Proof.
  revert q0. induction query as [|q query IH]; intros q0 Hq Hr; cbn [advance_query].
  - apply not_true_is_false. rewrite common_true. by intros (? & ? & ?).
  - pose proof Hq as (Hq0 & Hq'). destruct (Z.eqb_spec q v) as [->|]; [|destruct (Z.ltb_spec v q)].
    + apply common_true. exists v. simpl. auto.
    + split; [|by eexists]. apply eq_true_iff_eq. rewrite !common_true. split; intros (x & Hx & Hxq); exists x; split; try done.
      * by right.
      * destruct Hx as [->|]; [|done]. destruct Hxq as [->|Hxq]; [lia|]. pose proof (rising_ge _ _ _ Hq' Hxq). lia.
    + assert (E : common (v :: values) (q :: query) = common (v :: values) query).
      { apply eq_true_iff_eq. rewrite !common_true. split; intros (x & Hx & Hxq); exists x; split; try done; [|by right].
        destruct Hxq as [->|]; [|done]. destruct Hx as [->|Hx]; [lia|]. pose proof (rising_ge _ _ _ Hr Hx). lia. }
      rewrite E. by apply (IH q).
Qed.

Lemma zip_loop_spec query q0 values value (r : R) rest :
  0 <= value -> rising value values -> rising q0 query -> left_bits r = encoded (f_p f) values value ++ rest ->
  (length (left_bits r) <= 8 * length (f_filterData f))%nat ->
  zip_loop f (length values) value query r = common values query.
Proof using BStreamLaws0 p_ok.
  revert value r q0 query. induction values as [|v values IH]; intros value r q0 query H0 Hr Hq El Hl; [done|].
  destruct (read_encoded _ _ _ _ _ H0 Hr El Hl) as (r' & E & Ev & Hv & Hr' & El' & Hlt).
  cbn [length zip_loop]. rewrite E, Ev. pose proof (advance_query_spec v values q0 query Hq Hr') as Ha.
  destruct (advance_query v query) as [query'|found]; [|done]. destruct Ha as (<- & q1 & Hq1).
  apply (IH _ _ q1); try done. lia.
Qed.

(** The filling of the last byte reads as the last value again, or as the end. *)
Lemma index_padding fuel k value (r : R) acc :
  left_bits r = repeat false k -> (k < 8)%nat -> (k < fuel)%nat -> (k <= 8 * length (f_filterData f))%nat ->
  u64_ok value -> (k = O \/ wrap_u32 value ∈ acc) -> index_loop f fuel value acc r = acc.
Proof using BStreamLaws0 p_ok.
  revert fuel r. induction k as [k IH] using lt_wf_ind. intros fuel r El Hk Hf Hd Hv Hacc.
  destruct fuel as [|fuel]; [lia|]. cbn [index_loop]. destruct k as [|k].
  - unfold readFullUint64. cbn [read_unary]. pose proof (read_bit r) as Hb. rewrite El in Hb. simpl in Hb. by rewrite Hb.
  - destruct Hacc as [|Hacc]; [done|]. unfold readFullUint64.
    destruct (read_unary_ones (S (8 * length (f_filterData f))) 0 0 r (repeat false k) El ltac:(lia) ltac:(lia) ltac:(lia)) as (r' & E & El').
    rewrite E. cbn [mbind option_bind]. pose proof (read_bits (Z.to_nat (f_p f)) r') as Hr. rewrite El', repeat_length in Hr.
    destruct (Nat.leb_spec (Z.to_nat (f_p f)) k); [|by rewrite Hr].
    destruct Hr as (r2 & E2 & El2). rewrite E2. cbn [mbind option_bind].
    assert (Ez : bits_value (take (Z.to_nat (f_p f)) (repeat false k)) = 0).
    { unfold bits_value. clear. generalize (Z.to_nat (f_p f)). intros n. revert k.
      induction n as [|n IH]; intros [|k]; [done..|]. apply IH. }
    rewrite Ez. change (0 + Z.of_nat 0) with 0. rewrite Z.shiftl_0_l. change (wrap_u64 (wrap_u64 0 + 0)) with 0. rewrite Z.add_0_r. unfold wrap_u64. rewrite Z.mod_small by lia.
    replace ({[wrap_u32 value]} ∪ acc) with acc by set_solver.
    apply (IH (k - Z.to_nat (f_p f))%nat); try lia; [|by right].
    rewrite El2. clear. generalize (Z.to_nat (f_p f)). intros n. revert k. induction n as [|n IH]; intros [|k]; simpl; done.
Qed.

Lemma index_loop_spec fuel values value (r : R) k acc x :
  0 <= value < 2 ^ 64 -> rising value values -> left_bits r = encoded (f_p f) values value ++ repeat false k -> (k < 8)%nat ->
  (length (left_bits r) <= 8 * length (f_filterData f))%nat -> (length (left_bits r) < fuel)%nat ->
  (k = O \/ wrap_u32 value ∈ acc \/ values <> []) ->
  x ∈ index_loop f fuel value acc r <-> x ∈ acc \/ exists v, In v values /\ x = wrap_u32 v.
Proof using BStreamLaws0 p_ok.
  revert fuel value r acc. induction values as [|v values IH]; intros fuel value r acc Hv Hr El Hk Hl Hf Hacc.
  - rewrite (index_padding _ k); try done; [set_solver| | |set_solver]; rewrite El in *; simpl in *; rewrite repeat_length in *; lia.
  - destruct (read_encoded _ _ _ _ _ (proj1 Hv) Hr El Hl) as (r' & E & Ev & Hv0 & Hr' & El' & Hlt).
    destruct fuel as [|fuel]; [lia|]. cbn [index_loop]. rewrite E, Ev. destruct Hr as (Hvr & _).
    rewrite IH; try done; [| |lia..|]; [|lia|right; left; set_solver].
    rewrite elem_of_union, elem_of_singleton. split.
    + intros [[->|Ha]|(w & Hw & ->)]; [right; exists v; by split; [left|]|by left|right; exists w; by split; [right|]].
    + intros [Ha|(w & [->|Hw] & ->)]; [by left; right|by left; left|right; by exists w].
Qed.
End loops.

(** ** Filters that were built *)

Section filters.
Context {W R : Type} `{!BStream W R} `{!BStreamLaws W R}.
Context (siphash_Sum64 : bytes -> bytes -> Z) (siphash_u64 : forall d key, u64_ok (siphash_Sum64 d key)).

#[local] Abbreviation reduced_hash := (reduced_hash siphash_Sum64).
#[local] Abbreviation BuildGCSFilter := (BuildGCSFilter siphash_Sum64).

Lemma reduced_hash_spec modulusNP key d :
  u64_ok modulusNP -> reduced_hash modulusNP key d = siphash_Sum64 d key * modulusNP / 2 ^ 64.
Proof using siphash_u64. intros H. by apply fastReduction_spec. Qed.

Lemma reduced_hash_u64 modulusNP key d : u64_ok modulusNP -> u64_ok (reduced_hash modulusNP key d).
Proof using siphash_u64. intros H. rewrite reduced_hash_spec by done. by apply reduction_range. Qed.

Lemma sorted_rising values lastValue :
  StronglySorted Z.le values -> Forall (fun v => lastValue <= v < 2 ^ 64) values -> rising lastValue values.
Proof.
  intros Hs. revert lastValue. induction Hs as [|v values Hs IH Hv]; intros last Hf; [done|].
  apply list.Forall_cons in Hf as [H1 Hf]. split; [done|]. apply IH.
  rewrite list.Forall_forall in *. intros w Hw. specialize (Hv w Hw). specialize (Hf w Hw). lia.
Qed.

Lemma sorted_values_rising modulusNP key data :
  u64_ok modulusNP -> rising 0 (sorted_values (map (reduced_hash modulusNP key) data)).
Proof using siphash_u64.
  intros H. apply sorted_rising; [apply StronglySorted_merge_sort; apply _|].
  unfold sorted_values. rewrite merge_sort_Permutation. apply list.Forall_forall. intros v (d & -> & _)%list_elem_of_fmap.
  pose proof (reduced_hash_u64 modulusNP key d H). lia.
Qed.

Lemma in_sorted_values values v : In v (sorted_values values) <-> In v values.
Proof. unfold sorted_values. rewrite <- !list_elem_of_In, merge_sort_Permutation. done. Qed.

Lemma length_sorted_values values : length (sorted_values values) = length values.
Proof. unfold sorted_values. by rewrite merge_sort_Permutation. Qed.

Lemma wrap_u64_ok z : u64_ok (wrap_u64 z).
Proof. apply Z.mod_pos_bound. lia. Qed.

Lemma built_filter P M key data f :
  0 <= P -> BuildGCSFilter P M key data = Ok f ->
  f_n f = len data /\ 0 <= len data < 2 ^ 32 /\ f_p f = P /\ P <= 32 /\ u64_ok (f_modulusNP f) /\
  exists k, (k < 8)%nat /\ (data = [] -> k = O) /\
    bits_of (f_filterData f) = encoded P (sorted_values (map (reduced_hash (f_modulusNP f) key) data)) 0 ++ repeat false k.
Proof using siphash_u64 BStreamLaws0.
  intros HP. unfold BuildGCSFilter. pose proof (len_nonneg data). destruct (Z.leb_spec (2 ^ 32) (len data)); [done|].
  destruct (Z.ltb_spec 32 P); [done|]. unfold wrap_u32. rewrite (Z.mod_small (len data)) by lia.
  pose proof (wrap_u64_ok (len data * M)) as Hm.
  destruct (Z.eqb_spec (len data) 0) as [E|E]; intros [= <-]; cbn [f_n f_p f_modulusNP f_filterData]; split_and!; try done; try lia.
  - exists O. assert (data = []) as -> by (destruct data; [done|unfold len in E; simpl in E; lia]). split_and!; [lia|done|done].
  - pose proof (sorted_values_rising _ key data Hm) as Hr. set (values := sorted_values _) in *.
    destruct (bytes_written (write_values P values 0 NewBStreamWriter)) as (k & Hk & Eb). exists k. split; [done|].
    split; [by intros ->|]. rewrite Eb, written_values, written_new by (done || lia). done.
Qed.

(** What a filter answers to a query is what its values say. *)
Lemma Match_values P M key data f d :
  0 <= P -> BuildGCSFilter P M key data = Ok f ->
  Match siphash_Sum64 f key d = existsb (fun d' => reduced_hash (f_modulusNP f) key d =? reduced_hash (f_modulusNP f) key d') data.
Proof using siphash_u64 BStreamLaws0.
  intros HP Hf. destruct (built_filter _ _ _ _ _ HP Hf) as (En & Hn & Ep & HP' & Hm & k & Hk & _ & Eb).
  unfold Match. set (values := sorted_values _) in *. pose proof (sorted_values_rising _ key data Hm) as Hr.
  assert (El : Z.to_nat (f_n f) = length values).
  { rewrite En. unfold values. rewrite length_sorted_values, length_map. unfold len. lia. }
  rewrite El, (match_loop_spec f ltac:(lia) _ values 0 _ (repeat false k)); try done.
  - apply eq_true_iff_eq. rewrite !existsb_exists. unfold values. setoid_rewrite in_sorted_values. setoid_rewrite in_map_iff.
    split; [intros (v & (d' & <- & Hd') & E); by exists d'|intros (d' & Hd' & E); eexists; split; [by exists d'|done]].
  - unfold Filter_Bytes. rewrite left_reader, Eb, Ep. done.
  - unfold Filter_Bytes. rewrite left_reader, length_bits_of. done.
Qed.

Lemma ZipMatchAny_Match P M key data f query :
  0 <= P -> BuildGCSFilter P M key data = Ok f ->
  ZipMatchAny siphash_Sum64 f key query = existsb (Match siphash_Sum64 f key) query.
Proof using siphash_u64 BStreamLaws0.
  intros HP Hf. destruct (built_filter _ _ _ _ _ HP Hf) as (En & Hn & Ep & HP' & Hm & k & Hk & _ & Eb).
  unfold ZipMatchAny. destruct (Z.eqb_spec (len query) 0) as [E|E].
  { destruct query; [done|]. unfold len in E. simpl in E. lia. }
  set (values := sorted_values (map _ data)) in *. pose proof (sorted_values_rising _ key data Hm) as Hr.
  assert (El : Z.to_nat (f_n f) = length values).
  { rewrite En. unfold values. rewrite length_sorted_values, length_map. unfold len. lia. }
  pose proof (sorted_values_rising _ key query Hm) as Hq.
  rewrite El, (zip_loop_spec f ltac:(lia) _ 0 values 0 _ (repeat false k)); try done.
  - apply eq_true_iff_eq. rewrite common_true, existsb_exists. unfold values. setoid_rewrite in_sorted_values. setoid_rewrite in_map_iff.
    setoid_rewrite (fun d => Match_values P M key data f d HP Hf). setoid_rewrite existsb_exists. setoid_rewrite Z.eqb_eq.
    split; [intros (v & (d & E1 & Hd) & q & E2 & Hq'); exists q; split; [done|]; exists d; split; [done|congruence]|].
    intros (q & Hq' & d & Hd & E1). exists (reduced_hash (f_modulusNP f) key d). split; [by exists d|by exists q].
  - unfold Filter_Bytes. rewrite left_reader, Eb, Ep. done.
  - unfold Filter_Bytes. rewrite left_reader, length_bits_of. done.
Qed.

Lemma HashMatchAny_values P M key data f query :
  0 <= P -> BuildGCSFilter P M key data = Ok f ->
  HashMatchAny siphash_Sum64 f key query = true <->
  exists q d, In q query /\ In d data /\ reduced_hash (f_modulusNP f) key q mod 2 ^ 32 = reduced_hash (f_modulusNP f) key d mod 2 ^ 32.
Proof using siphash_u64 BStreamLaws0.
  intros HP Hf. destruct (built_filter _ _ _ _ _ HP Hf) as (En & Hn & Ep & HP' & Hm & k & Hk & Hk0 & Eb).
  unfold HashMatchAny. destruct (Z.eqb_spec (len query) 0) as [E|E].
  { destruct query; [|unfold len in E; simpl in E; lia]. split; [done|]. by intros (? & ? & ? & ?). }
  pose proof (sorted_values_rising _ key data Hm) as Hr. rewrite existsb_exists. setoid_rewrite bool_decide_eq_true.
  setoid_rewrite (fun x => index_loop_spec f ltac:(lia) (S (8 * length (f_filterData f))) _ 0 (NewBStreamReader (Filter_Bytes f)) k ∅ x
    ltac:(lia) Hr ltac:(by unfold Filter_Bytes; rewrite left_reader, Ep) Hk ltac:(by unfold Filter_Bytes; rewrite left_reader, length_bits_of)
    ltac:(unfold Filter_Bytes; rewrite left_reader, length_bits_of; lia)
    ltac:(destruct data; [left; by apply Hk0|right; right; intros E0%(f_equal length); by rewrite length_sorted_values in E0])).
  split.
  - intros (q & Hq & [Hx|(v & Hv & Ev)]); [set_solver|]. apply in_sorted_values, in_map_iff in Hv as (d & <- & Hd). by exists q, d.
  - intros (q & d & Hq & Hd & Ev). exists q. split; [done|]. right. exists (reduced_hash (f_modulusNP f) key d).
    split; [|done]. apply in_sorted_values, in_map_iff. by exists d.
Qed.
End filters.

(** ** A bit stream of lists of booleans *)

Fixpoint pack (n : nat) (l : list bool) : bytes :=
  match n with
  | O => []
  | S n => match l with
           | [] => []
           | _ => z2b (bits_value (take 8 l ++ repeat false (8 - length l))) :: pack n (drop 8 l)
           end
  end.

#[export] Instance plain_BStream : BStream (list bool) (list bool) := {
  NewBStreamWriter := [];
  WriteBit b w := w ++ [b];
  WriteBits v n w := w ++ low_bits n v;
  BStream_Bytes w := pack (length w) w;
  NewBStreamReader bs := bits_of bs;
  ReadBit r := match r with [] => None | b :: r => Some (b, r) end;
  ReadBits n r := if Nat.leb n (length r) then Some (bits_value (take n r), drop n r) else None;
}.

Lemma low_bits_value l : low_bits (length l) (bits_value l) = l.
Proof.
  induction l as [|b l IH] using rev_ind; [done|].
  assert (E : bits_value (l ++ [b]) = 2 * bits_value l + Z.b2z b) by (unfold bits_value; by rewrite fold_left_app).
  rewrite E, length_app, Nat.add_1_r. clear E.
  assert (H : forall n v, low_bits (S n) (2 * v + Z.b2z b) = low_bits n v ++ [b]).
  { clear. intros n v. induction n as [|n IH]; [cbn; by rewrite Z.testbit_0_r|]. cbn [low_bits] in *. rewrite IH.
    cbn [app]. f_equal. rewrite Nat2Z.inj_succ, Z.testbit_succ_r by lia. done. }
  by rewrite H, IH.
Qed.

Lemma bits_value_range l : 0 <= bits_value l < 2 ^ len l.
Proof.
  rewrite <- (low_bits_value l), bits_value_low. rewrite low_bits_value. apply Z.mod_pos_bound. apply Z.pow_pos_nonneg; unfold len; lia.
Qed.

Lemma pack_bits n l : (length l <= n)%nat -> exists k, (k < 8)%nat /\ bits_of (pack n l) = l ++ repeat false k.
Proof.
  revert l. induction n as [|n IH]; intros l Hl.
  - destruct l; [|simpl in Hl; lia]. exists O. split; [lia|done].
  - cbn [pack]. destruct l as [|b l]; [exists O; split; [lia|done]|]. set (l' := b :: l) in *.
    set (x := take 8 l' ++ repeat false (8 - length l')).
    assert (Lx : length x = 8%nat) by (unfold x; rewrite length_app, length_take, repeat_length; lia).
    pose proof (bits_value_range x) as Hx. unfold len in Hx. rewrite Lx in Hx.
    assert (E : bits_of (z2b (bits_value x) :: pack n (drop 8 l')) = x ++ bits_of (pack n (drop 8 l'))).
    { change (bits_of (z2b (bits_value x) :: pack n (drop 8 l')))
        with (low_bits 8 (b2z (z2b (bits_value x))) ++ bits_of (pack n (drop 8 l'))).
      rewrite b2z_z2b_small by lia. rewrite <- Lx at 1. by rewrite low_bits_value. }
    rewrite E. destruct (le_lt_dec 8 (length l')) as [H8|H8].
    + destruct (IH (drop 8 l')) as (k & Hk & Ek); [rewrite length_drop; lia|]. exists k. split; [done|]. rewrite Ek.
      unfold x. replace (8 - length l')%nat with O by lia. rewrite app_nil_r, app_assoc, take_drop. done.
    + exists (8 - length l')%nat. subst l'. simpl length in *. split; [lia|]. unfold x. rewrite (drop_ge (b :: l)) by (simpl; lia).
      rewrite take_ge by (simpl; lia). replace (bits_of (pack n [])) with (@nil bool) by (by destruct n). by rewrite app_nil_r.
Qed.

#[export] Program Instance plain_BStreamLaws : BStreamLaws (list bool) (list bool) := {
  written w := w;
  left_bits r := r;
}.
Solve All Obligations with try done.
Next Obligation. intros w. by apply pack_bits. Qed.
Next Obligation. intros [|b l]; [done|]. by exists l. Qed.
Next Obligation. intros n r. cbn. destruct (Nat.leb n (length r)); [|done]. by eexists. Qed.

(** ** The properties *)

Section claims.
Context {W R : Type} `{!BStream W R} `{!BStreamLaws W R}.
Context (siphash_Sum64 : bytes -> bytes -> Z) (siphash_u64 : forall d key, u64_ok (siphash_Sum64 d key)).

Lemma Match_hash P M key data f d :
  0 <= P -> BuildGCSFilter siphash_Sum64 P M key data = Ok f ->
  Match siphash_Sum64 f key d = true <->
   exists d', In d' data /\
     siphash_Sum64 d key * f_modulusNP f / 2 ^ 64 = siphash_Sum64 d' key * f_modulusNP f / 2 ^ 64.
Proof using siphash_u64 BStreamLaws0.
  intros HP Hf. destruct (built_filter _ siphash_u64 _ _ _ _ _ HP Hf) as (_ & _ & _ & _ & Hm & _).
  rewrite (Match_values _ siphash_u64 P M key data f d HP Hf), existsb_exists.
  setoid_rewrite (fun d => reduced_hash_spec _ siphash_u64 (f_modulusNP f) key d Hm). setoid_rewrite Z.eqb_eq. done.
Qed.

Lemma Match_in P M key data f d :
  0 <= P -> BuildGCSFilter siphash_Sum64 P M key data = Ok f -> In d data -> Match siphash_Sum64 f key d = true.
Proof using siphash_u64 BStreamLaws0. intros HP Hf Hd. apply (Match_hash P M key data f d HP Hf). by exists d. Qed.

Lemma filter_permutation P M key data f data' :
  Permutation data data' -> BuildGCSFilter siphash_Sum64 P M key data = Ok f -> BuildGCSFilter siphash_Sum64 P M key data' = Ok f.
Proof using BStreamLaws0.
  intros Hp Hf. rewrite <- Hf. unfold BuildGCSFilter, len. rewrite (Permutation_length Hp). do 3 (case_match; [done|]).
  do 4 f_equal. apply (StronglySorted_unique Z.le); [apply StronglySorted_merge_sort; apply _..|].
  unfold sorted_values. rewrite !merge_sort_Permutation. symmetry. by apply Permutation_map.
Qed.

(** a filter answers for a datum whether one of the data it was built from has
    the same hash in the filter's range, the high half of the product of SipHash
    and the range: it never misses a datum it was built from, and what it says of
    others is decided by the hashes alone. *)
Theorem Match_answers P M key data f d :
  0 <= P -> BuildGCSFilter siphash_Sum64 P M key data = Ok f ->
  (In d data -> Match siphash_Sum64 f key d = true) /\
  (Match siphash_Sum64 f key d = true <->
   exists d', In d' data /\
     siphash_Sum64 d key * f_modulusNP f / 2 ^ 64 = siphash_Sum64 d' key * f_modulusNP f / 2 ^ 64).
Proof using siphash_u64 BStreamLaws0. intros HP Hf. split; [by eapply Match_in|by apply (Match_hash P M key data)]. Qed.

(** C33: a query for several data finds a match whenever a single query would for
    one of them; the walk down both sorted lists answers exactly that, and so does
    the index while the filter's range fits in 32 bits. *)
Theorem MatchAny_answers P M key data f query :
  0 <= P -> BuildGCSFilter siphash_Sum64 P M key data = Ok f ->
  ZipMatchAny siphash_Sum64 f key query = existsb (Match siphash_Sum64 f key) query /\
  (existsb (Match siphash_Sum64 f key) query = true -> MatchAny siphash_Sum64 f key query = true) /\
  (f_modulusNP f <= 2 ^ 32 -> MatchAny siphash_Sum64 f key query = existsb (Match siphash_Sum64 f key) query).
Proof using siphash_u64 BStreamLaws0.
  intros HP Hf. pose proof (ZipMatchAny_Match _ siphash_u64 P M key data f query HP Hf) as HZ.
  pose proof (HashMatchAny_values _ siphash_u64 P M key data f query HP Hf) as HH.
  destruct (built_filter _ siphash_u64 _ _ _ _ _ HP Hf) as (_ & _ & _ & _ & Hm & _).
  assert (HE : existsb (Match siphash_Sum64 f key) query = true <-> exists q d, In q query /\ In d data /\
      reduced_hash siphash_Sum64 (f_modulusNP f) key q = reduced_hash siphash_Sum64 (f_modulusNP f) key d).
  { rewrite existsb_exists. setoid_rewrite (fun d => Match_values _ siphash_u64 P M key data f d HP Hf).
    setoid_rewrite existsb_exists. setoid_rewrite Z.eqb_eq. naive_solver. }
  split; [done|]. unfold MatchAny. destruct (Z.leb_spec (f_n f / 2) (len query)); [|by rewrite HZ]. split.
  - intros (q & d & Hq & Hd & E)%HE. apply HH. exists q, d. split_and!; congruence.
  - intros Hs. apply eq_true_iff_eq. rewrite HH, HE. split; intros (q & d & Hq & Hd & E); exists q, d; split_and!; try done; [|congruence].
    assert (Hlt : forall d, 0 <= reduced_hash siphash_Sum64 (f_modulusNP f) key d < 2 ^ 32).
    { intros x. rewrite (reduced_hash_spec _ siphash_u64) by done. pose proof (siphash_u64 x key).
      split; [apply Z.div_pos; lia|apply Z.div_lt_upper_bound; nia]. }
    by rewrite !Z.mod_small in E by apply Hlt.
Qed.

(** a filter that is written with its size and read back with the same
    parameters is the same filter, and the order of the data does not matter. *)
Theorem GCS_roundtrip P M key data f :
  0 <= P -> BuildGCSFilter siphash_Sum64 P M key data = Ok f ->
  FromNBytes P M (NBytes f) = Ok f /\
  forall data', Permutation data data' -> BuildGCSFilter siphash_Sum64 P M key data' = Ok f.
Proof using siphash_u64 BStreamLaws0.
  intros HP Hf. split.
  - destruct (built_filter _ siphash_u64 _ _ _ _ _ HP Hf) as (En & Hn & Ep & HP' & _ & _).
    assert (Em : f_modulusNP f = wrap_u64 (f_n f * M)).
    { revert Hf. unfold BuildGCSFilter. destruct (2 ^ 32 <=? len data), (32 <? P); try done.
      destruct (wrap_u32 (len data) =? 0); by intros [= <-]. }
    unfold FromNBytes, NBytes. assert (Er : ReadVarIntBuf varIntProtoVer (WriteVarIntBuf varIntProtoVer (f_n f) ++ f_filterData f)
      = Ok (f_n f, f_filterData f)) by (apply (codec_reads (m := ReadVarIntBuf varIntProtoVer)); lia).
    rewrite Er. destruct (Z.leb_spec (2 ^ 32) (f_n f)); [lia|]. unfold FromBytes. destruct (Z.ltb_spec 32 P); [lia|].
    unfold wrap_u32. rewrite Z.mod_small by lia. destruct f. cbn [f_n f_p f_modulusNP f_filterData] in *. congruence.
  - intros data' Hp. by eapply filter_permutation.
Qed.
End claims.

(** ** Instances *)

Definition example_hash (d key : bytes) : Z := wrap_u64 ((be_get d + 1) * (11400714819323198485 + le_get key)).

Lemma example_hash_u64 d key : u64_ok (example_hash d key).
Proof. apply wrap_u64_ok. Qed.

Definition example_data : list bytes := [bytes_of "one"; bytes_of "two"; bytes_of "three"; bytes_of "four"; bytes_of "five"].
Definition example_filter : Filter :=
  Eval vm_compute in match BuildGCSFilter (W := list bool) example_hash 19 784931 (repeat x00 16) example_data with
    | Ok f => f | Err _ => mkFilter 0 0 0 [] end.

Lemma example_built : BuildGCSFilter (W := list bool) example_hash 19 784931 (repeat x00 16) example_data = Ok example_filter.
Proof. vm_compute. reflexivity. Qed.

Lemma Match_answers_witness :
  Match (R := list bool) example_hash example_filter (repeat x00 16) (bytes_of "three") = true /\
  Match (R := list bool) example_hash example_filter (repeat x00 16) (bytes_of "six") = false.
Proof.
  split; [|vm_compute; reflexivity].
  apply (proj1 (Match_answers example_hash example_hash_u64 19 784931 (repeat x00 16) example_data example_filter (bytes_of "three") ltac:(lia) example_built)).
  right. right. left. reflexivity.
Defined.

Lemma MatchAny_answers_witness :
  MatchAny (R := list bool) example_hash example_filter (repeat x00 16) [bytes_of "six"; bytes_of "two"] = true /\
  ZipMatchAny (R := list bool) example_hash example_filter (repeat x00 16) [bytes_of "six"; bytes_of "seven"] = false.
Proof.
  destruct (MatchAny_answers example_hash example_hash_u64 19 784931 (repeat x00 16) example_data example_filter
    [bytes_of "six"; bytes_of "two"] ltac:(lia) example_built) as (_ & Hm & _).
  split; [|vm_compute; reflexivity]. apply Hm. vm_compute. reflexivity.
Defined.

Lemma GCS_roundtrip_witness :
  FromNBytes 19 784931 (NBytes example_filter) = Ok example_filter /\ len (f_filterData example_filter) = 13.
Proof.
  split; [|vm_compute; reflexivity].
  apply (proj1 (GCS_roundtrip example_hash example_hash_u64 19 784931 (repeat x00 16) example_data example_filter ltac:(lia) example_built)).
Defined.

(** the index of a query for several data keeps 32 bits of each value, so that
    beyond a range of 2^32 it finds matches that no single query finds, and which
    the walk down the sorted lists does not find either. *)
Theorem index_is_cut :
  exists (siphash_Sum64 : bytes -> bytes -> Z) P M key data f query,
    (forall d k, u64_ok (siphash_Sum64 d k)) /\ BuildGCSFilter (W := list bool) siphash_Sum64 P M key data = Ok f /\
    MatchAny (R := list bool) siphash_Sum64 f key query = true /\
    ZipMatchAny (R := list bool) siphash_Sum64 f key query = false /\
    existsb (Match (R := list bool) siphash_Sum64 f key) query = false.
Proof.
  exists (fun d _ => wrap_u64 (be_get d)), 32, (2 ^ 32), [], [be_put 8 (2 ^ 31); be_put 8 (2 ^ 32)].
  eexists. exists [be_put 8 (2 ^ 63 + 2 ^ 31)]. split; [intros; apply wrap_u64_ok|]. split; [vm_compute; reflexivity|].
  vm_compute. auto.
Qed.

(** the reduction of a hash to the filter's range, four products of halves and
    a carry, is the high half of their 128-bit product. *)
Theorem fastReduction_correct v N :
  u64_ok v -> u64_ok N -> fastReduction v (Z.shiftr N 32) (wrap_u32 N) = Z.shiftr (v * N) 64.
Proof. intros Hv HN. rewrite fastReduction_spec by done. by rewrite Z.shiftr_div_pow2 by lia. Qed.

Lemma fastReduction_correct_witness :
  fastReduction (2 ^ 64 - 1) (Z.shiftr 3924655 32) (wrap_u32 3924655) = 3924654.
Proof. rewrite (fastReduction_correct (2 ^ 64 - 1) 3924655) by lia. vm_compute. reflexivity. Defined.
