(* ===== verification/GCSBuilder.v ===== *)
(** * nogoutil/gcs/builder: builders of Golomb coded filters

    [GCSBuilder] with its setters, which do nothing once an error is set, the
    constructors, and the basic filter of a block.  The set of entries is a Go map,
    whose order of iteration is the parameter [range_order]; adding to a map that
    was not made panics ([None]).  [RandomKey] takes what the random number
    generator delivers. *)

From Stdlib Require Import ZArith Lia.
From S2P Require Import Prelude WireCommon WireTx ChainHash WireBlock GCS.

Open Scope Z_scope.

Definition DefaultP : Z := 19.
Definition DefaultM : Z := 784931.
Definition OP_RETURN : Z := 0x6a.

Record GCSBuilder : Type := mkGCSBuilder {
  gb_p : Z;
  gb_m : Z;
  gb_key : bytes;
  gb_data : option (gset bytes);
  gb_err : option gcs_error;
}.

Definition zero_builder : GCSBuilder := mkGCSBuilder 0 0 (repeat x00 (Z.to_nat KeySize)) None None.

(** [rand] is what [rand.Read] fills in, or its error. *)
Definition RandomKey (rand : option bytes) : result gcs_error bytes :=
  match rand with None => Err ErrRandom | Some randKey => Ok (take (Z.to_nat KeySize) randKey) end.
Definition DeriveKey (keyHash : bytes) : bytes := take (Z.to_nat KeySize) keyHash.

Definition Key (b : GCSBuilder) : result gcs_error bytes :=
  match gb_err b with Some e => Err e | None => Ok (gb_key b) end.

Definition SetKey (key : bytes) (b : GCSBuilder) : GCSBuilder :=
  match gb_err b with
  | Some _ => b
  | None => mkGCSBuilder (gb_p b) (gb_m b) key (gb_data b) (gb_err b)
  end.
Definition SetKeyFromHash (keyHash : bytes) (b : GCSBuilder) : GCSBuilder :=
  match gb_err b with Some _ => b | None => SetKey (DeriveKey keyHash) b end.
Definition SetP (p : Z) (b : GCSBuilder) : GCSBuilder :=
  match gb_err b with
  | Some _ => b
  | None => if 32 <? p then mkGCSBuilder (gb_p b) (gb_m b) (gb_key b) (gb_data b) (Some ErrPTooBig)
            else mkGCSBuilder p (gb_m b) (gb_key b) (gb_data b) (gb_err b)
  end.
Definition SetM (m : Z) (b : GCSBuilder) : GCSBuilder :=
  match gb_err b with
  | Some _ => b
  | None => if 2 ^ 32 - 1 <? m then mkGCSBuilder (gb_p b) (gb_m b) (gb_key b) (gb_data b) (Some ErrPTooBig)
            else mkGCSBuilder (gb_p b) m (gb_key b) (gb_data b) (gb_err b)
  end.
(** The size asked for has no effect on what the map holds. *)
Definition Preallocate (n : Z) (b : GCSBuilder) : GCSBuilder :=
  match gb_err b, gb_data b with
  | None, None => mkGCSBuilder (gb_p b) (gb_m b) (gb_key b) (Some ∅) (gb_err b)
  | _, _ => b
  end.

Definition AddEntry (data : bytes) (b : GCSBuilder) : option GCSBuilder :=
  match gb_err b with
  | Some _ => Some b
  | None => entries ← gb_data b; Some (mkGCSBuilder (gb_p b) (gb_m b) (gb_key b) (Some ({[data]} ∪ entries)) (gb_err b))
  end.
Fixpoint add_each (data : list bytes) (b : GCSBuilder) : option GCSBuilder :=
  match data with
  | [] => Some b
  | entry :: data => b ← AddEntry entry b; add_each data b
  end.
Definition AddEntries (data : list bytes) (b : GCSBuilder) : option GCSBuilder :=
  match gb_err b with Some _ => Some b | None => add_each data b end.
Definition AddHash (hash : bytes) (b : GCSBuilder) : option GCSBuilder :=
  match gb_err b with Some _ => Some b | None => AddEntry hash b end.
Definition AddWitness (witness : list bytes) (b : GCSBuilder) : option GCSBuilder :=
  match gb_err b with Some _ => Some b | None => AddEntries witness b end.

Definition WithKeyPNM (key : bytes) (p n m : Z) : GCSBuilder := Preallocate n (SetM m (SetP p (SetKey key zero_builder))).
Definition WithKeyPM (key : bytes) (p m : Z) : GCSBuilder := WithKeyPNM key p 0 m.
Definition WithKey (key : bytes) : GCSBuilder := WithKeyPNM key DefaultP 0 DefaultM.
Definition WithKeyHashPNM (keyHash : bytes) (p n m : Z) : GCSBuilder := WithKeyPNM (DeriveKey keyHash) p n m.
Definition WithKeyHashPM (keyHash : bytes) (p m : Z) : GCSBuilder := WithKeyHashPNM keyHash p 0 m.
Definition WithKeyHash (keyHash : bytes) : GCSBuilder := WithKeyHashPNM keyHash DefaultP 0 DefaultM.
Definition WithRandomKeyPNM (rand : option bytes) (p n m : Z) : GCSBuilder :=
  match RandomKey rand with
  | Err e => mkGCSBuilder (gb_p zero_builder) (gb_m zero_builder) (gb_key zero_builder) (gb_data zero_builder) (Some e)
  | Ok key => WithKeyPNM key p n m
  end.
Definition WithRandomKeyPM (rand : option bytes) (p m : Z) : GCSBuilder := WithRandomKeyPNM rand p 0 m.
Definition WithRandomKey (rand : option bytes) : GCSBuilder := WithRandomKeyPNM rand DefaultP 0 DefaultM.

(** The scripts of the outputs of a block that go into its filter. *)
Definition add_output (txOut : TxOut) (b : GCSBuilder) : option GCSBuilder :=
  match TxOut_PkScript txOut with
  | [] => Some b
  | op :: _ => if b2z op =? OP_RETURN then Some b else AddEntry (TxOut_PkScript txOut) b
  end.
Fixpoint add_outputs (outs : list TxOut) (b : GCSBuilder) : option GCSBuilder :=
  match outs with
  | [] => Some b
  | txOut :: outs => b ← add_output txOut b; add_outputs outs b
  end.
Fixpoint add_txs (txs : list MsgTx) (b : GCSBuilder) : option GCSBuilder :=
  match txs with
  | [] => Some b
  | tx :: txs => b ← add_outputs (MsgTx_TxOut tx) b; add_txs txs b
  end.
Fixpoint add_prevs (prevOutScripts : list bytes) (b : GCSBuilder) : option GCSBuilder :=
  match prevOutScripts with
  | [] => Some b
  | prevScript :: prevOutScripts =>
      b ← (if len prevScript =? 0 then Some b else AddEntry prevScript b);
      add_prevs prevOutScripts b
  end.

Definition GetFilterHash (filter : Filter) : bytes := DoubleHashRaw (NBytes filter).
(** Both hashes are copied into a buffer of their joint size. *)
Definition MakeHeaderForFilter (filter : Filter) (prevHeader : bytes) : bytes :=
  DoubleHashRaw (GetFilterHash filter ++ prevHeader).

Section build.
Context {W R : Type} `{!BStream W R}.
Context (siphash_Sum64 : bytes -> bytes -> Z) (range_order : gset bytes -> list bytes).

Definition Build (b : GCSBuilder) : result gcs_error Filter :=
  match gb_err b with
  | Some e => Err e
  | None =>
      if gb_p b =? 0 then Err ErrNoP
      else if gb_m b =? 0 then Err ErrNoM
      else BuildGCSFilter siphash_Sum64 (gb_p b) (gb_m b) (gb_key b)
             (match gb_data b with None => [] | Some entries => range_order entries end)
  end.

Definition BuildBasicFilter (block : MsgBlock) (prevOutScripts : list bytes) : option (result gcs_error Filter) :=
  let blockHash := MsgBlock_BlockHash block in
  let b := WithKeyHash blockHash in
  match Key b with
  | Err e => Some (Err e)
  | Ok _ =>
      b ← add_txs (MsgBlock_Transactions block) b;
      b ← add_prevs prevOutScripts b;
      Some (Build b)
  end.
End build.

(** ** The entries of a builder *)

(** A builder as the constructors give it, with a set of entries. *)
Definition builder_with (key : bytes) (p m : Z) (entries : gset bytes) : GCSBuilder := mkGCSBuilder p m key (Some entries) None.

Lemma WithKeyPNM_builder key p n m : p <= 32 -> m <= 2 ^ 32 - 1 -> WithKeyPNM key p n m = builder_with key p m ∅.
Proof.
  intros Hp Hm. unfold WithKeyPNM, SetKey, SetP. cbn [zero_builder gb_err gb_p gb_m gb_key gb_data].
  destruct (Z.ltb_spec 32 p); [lia|]. unfold SetM. cbn [gb_err gb_p gb_m gb_key gb_data].
  destruct (Z.ltb_spec (2 ^ 32 - 1) m); [lia|]. done.
Qed.

Definition script_kept (s : bytes) : bool :=
  match s with [] => false | op :: _ => negb (b2z op =? OP_RETURN) end.
Definition kept_outputs (outs : list TxOut) : list bytes := filter (fun s => script_kept s = true) (map TxOut_PkScript outs).
Definition nonempty (s : bytes) : bool := match s with [] => false | _ => true end.
(** The entries of the basic filter of a block. *)
Definition basic_entries (block : MsgBlock) (prevOutScripts : list bytes) : list bytes :=
  (MsgBlock_Transactions block ≫= fun tx => kept_outputs (MsgTx_TxOut tx)) ++ filter (fun s => nonempty s = true) prevOutScripts.

Section entries.
Context (key : bytes) (p m : Z).
#[local] Abbreviation builder_with := (builder_with key p m).

Lemma AddEntry_builder s entries : AddEntry s (builder_with entries) = Some (builder_with ({[s]} ∪ entries)).
Proof. done. Qed.

Lemma add_output_builder o entries :
  add_output o (builder_with entries) = Some (builder_with (list_to_set (kept_outputs [o]) ∪ entries)).
Proof.
  unfold add_output, kept_outputs. cbn [map]. rewrite filter_cons, filter_nil. unfold script_kept. destruct (TxOut_PkScript o) as [|op s].
  - simpl. by rewrite union_empty_l_L.
  - destruct (b2z op =? OP_RETURN); simpl; [by rewrite union_empty_l_L|]. rewrite AddEntry_builder, union_empty_r_L. done.
Qed.

Lemma add_outputs_builder outs entries :
  add_outputs outs (builder_with entries) = Some (builder_with (list_to_set (kept_outputs outs) ∪ entries)).
Proof.
  revert entries. induction outs as [|o outs IH]; intros entries; [simpl; by rewrite union_empty_l_L|].
  cbn [add_outputs]. rewrite add_output_builder. cbn [mbind option_bind]. rewrite IH. do 2 f_equal.
  change (o :: outs) with ([o] ++ outs). unfold kept_outputs. rewrite map_app, list.filter_app, list_to_set_app_L. set_solver.
Qed.

Lemma add_txs_builder txs entries :
  add_txs txs (builder_with entries) = Some (builder_with (list_to_set (txs ≫= fun tx => kept_outputs (MsgTx_TxOut tx)) ∪ entries)).
Proof.
  revert entries. induction txs as [|tx txs IH]; intros entries; [simpl; by rewrite union_empty_l_L|].
  cbn [add_txs]. rewrite add_outputs_builder. cbn [mbind option_bind list_bind]. rewrite IH. do 2 f_equal. rewrite list_to_set_app_L. set_solver.
Qed.

Lemma add_prevs_builder prevs entries :
  add_prevs prevs (builder_with entries) = Some (builder_with (list_to_set (filter (fun s => nonempty s = true) prevs) ∪ entries)).
Proof.
  revert entries. induction prevs as [|s prevs IH]; intros entries; [simpl; by rewrite union_empty_l_L|].
  cbn [add_prevs]. rewrite filter_cons. destruct s as [|c s].
  - change (len [] =? 0) with true. cbn [mbind option_bind nonempty]. rewrite IH. done.
  - replace (len (c :: s) =? 0) with false by (symmetry; apply Z.eqb_neq; unfold len; rewrite length_cons; lia).
    rewrite AddEntry_builder. cbn [mbind option_bind nonempty]. rewrite IH, decide_True, list_to_set_cons by done. do 2 f_equal. set_solver.
Qed.
End entries.

(** ** The properties *)

Section claims.
Context {W R : Type} `{!BStream W R} `{!BStreamLaws W R}.
Context (siphash_Sum64 : bytes -> bytes -> Z) (siphash_u64 : forall d key, u64_ok (siphash_Sum64 d key)).

Lemma BuildGCSFilter_total P M key data :
  P <= 32 -> len data < 2 ^ 32 -> exists f, BuildGCSFilter siphash_Sum64 P M key data = Ok f.
Proof.
  intros HP Hl. unfold BuildGCSFilter. destruct (Z.leb_spec (2 ^ 32) (len data)); [lia|]. destruct (Z.ltb_spec 32 P); [lia|].
  destruct (_ =? 0); by eexists.
Qed.

Lemma BuildBasicFilter_builder range_order block prevs :
  BuildBasicFilter siphash_Sum64 range_order block prevs =
  Some (BuildGCSFilter siphash_Sum64 DefaultP DefaultM (DeriveKey (MsgBlock_BlockHash block))
          (range_order (list_to_set (basic_entries block prevs)))).
Proof.
  unfold BuildBasicFilter, WithKeyHash, WithKeyHashPNM. rewrite WithKeyPNM_builder by (unfold DefaultP, DefaultM; lia).
  cbn [Key builder_with gb_err]. change (mkGCSBuilder DefaultP DefaultM ?k (Some ∅) None) with (builder_with k DefaultP DefaultM ∅).
  rewrite add_txs_builder. cbn [mbind option_bind]. rewrite add_prevs_builder. cbn [mbind option_bind].
  unfold Build. cbn [builder_with gb_err gb_p gb_m gb_key gb_data]. change (DefaultP =? 0) with false. change (DefaultM =? 0) with false.
  cbv iota. unfold basic_entries. do 4 f_equal. rewrite list_to_set_app_L, union_empty_r_L. set_solver.
Qed.

Lemma in_basic_entries block prevs s :
  s ∈ basic_entries block prevs <->
  (exists tx o, In tx (MsgBlock_Transactions block) /\ In o (MsgTx_TxOut tx) /\ TxOut_PkScript o = s /\ script_kept s = true) \/
  (In s prevs /\ s <> []).
Proof.
  unfold basic_entries. rewrite elem_of_app, list_elem_of_bind, list_elem_of_filter, !list_elem_of_In. unfold kept_outputs.
  setoid_rewrite list_elem_of_filter. setoid_rewrite list_elem_of_In. setoid_rewrite in_map_iff. split.
  - intros [(tx & (Hk & o & Eo & Ho) & Htx)|(Hn & Hs)]; [left; by exists tx, o|right; split; [done|by destruct s]].
  - intros [(tx & o & Htx & Ho & Eo & Hk)|(Hs & Hn)]; [left; exists tx; split_and!; try done; by exists o|right; split; [by destruct s|done]].
Qed.

End claims.

Definition example_block : MsgBlock :=
  mkMsgBlock (mkBlockHeader 1 (repeat x00 32) (repeat x00 32) 0 0 0)
    [mkMsgTx 1 [] [mkTxOut 5 [x51; x21]; mkTxOut 0 []; mkTxOut 0 [x6a; x01]] 0; mkMsgTx 1 [] [mkTxOut 7 [x52]; mkTxOut 7 [x51; x21]] 0].

