(* ===== verification/HeaderFS.v ===== *)
(** * neutrino/headerfs: the stores of block and filter headers

    Headers in a flat file, in the order of their heights, and an index from block
    hash to height in a database that both stores share.  [index.go], [file.go] and
    [store.go].  Every call of the file system and every transaction of walletdb
    takes its outcome from a list ([DbEffects]); a transaction is atomic.  The
    file is opened for appending: a write goes to its end and moves the offset
    there, which is otherwise where the last write left it.  The mutexes, the pool
    of buffers and the way a file is truncated on Windows are left out. *)

From Stdlib Require Import ZArith Lia.
From S2P Require Import Prelude WireCommon WireTx ChainHash WireBlock WireMsgs TxSort GCS GCSBuilder DbEffects.

Open Scope Z_scope.

Inductive HeaderType : Type := Block | RegularFilter | UnknownHeader (t : Z).

Inductive hfs_error : Type :=
| EFile                    (* of a call of the file system *)
| EDatabase                (* of walletdb *)
| EWire (e : wire_error)
| EHash (e : hash_error)
| EGcs (e : gcs_error)
| EHeaderType              (* "unknown header type" *)
| EMissingSubBucket
| ENoTip
| ErrHeightNotFound
| ErrHashNotFound
| ERemoveFlag              (* the flag and the headers to remove do not agree *)
| ErrHeaderNotFound
| EWrite                   (* "failed to write header" *)
| EWriteTruncate           (* the same, and the file could not be truncated *)
| ESync
| EAddHeaders              (* "failed to add headers to db" *)
| EAddRollback             (* the same, and the file could not be truncated *)
| ERollbackGenesis
| ERange                   (* "failed to read headers range" *)
| EChainTip
| EReadTip
| EOutOfSync
| ENotIncreasing
| ENotConnected.

Definition BlockHeaderSize : Z := 80.
Definition RegularFilterHeaderSize : Z := 32.
Definition numSubBucketBytes : Z := 2.
Definition bitcoinTip : bytes := bytes_of "bitcoin".
Definition regFilterTip : bytes := bytes_of "regular".
Definition indexSubBucketsReady : bytes := bytes_of "index-sub-buckets-ready".

(** ** State *)

Record flat : Type := mkFlat { fl_data : bytes; fl_pos : Z }.
(** The top-level bucket: its keys, and its buckets by their names. *)
Record index_db : Type := mkIndex { ix_root : gmap bytes bytes; ix_subs : gmap bytes (gmap bytes bytes) }.
Record headers : Type := mkHeaders { hd_blocks : flat; hd_filters : flat; hd_index : option index_db }.

(** A store of another type is never made. *)
Definition the_file (t : HeaderType) (s : headers) : flat :=
  match t with Block => hd_blocks s | RegularFilter => hd_filters s | UnknownHeader _ => mkFlat [] 0 end.
Definition set_file (t : HeaderType) (f : flat) (s : headers) : headers :=
  match t with
  | Block => mkHeaders f (hd_filters s) (hd_index s)
  | RegularFilter => mkHeaders (hd_blocks s) f (hd_index s)
  | UnknownHeader _ => s
  end.
Definition set_index (ix : option index_db) (s : headers) : headers := mkHeaders (hd_blocks s) (hd_filters s) ix.

Abbreviation IO := (Eff_of hfs_error headers).
Abbreviation TX := (Eff_of hfs_error (option index_db)).

(** ** The system calls *)

Definition file_Seek_current (t : HeaderType) : IO Z :=
  f ← next_fault;
  match f with Good => s ← get; mret (fl_pos (the_file t s)) | _ => throw EFile end.
(** The bytes that get written, the number of them and the error. *)
Definition file_Write (t : HeaderType) (bs : bytes) : IO (Z * option hfs_error) :=
  f ← next_fault;
  s ← get;
  let data := fl_data (the_file t s) in
  let append (b : bytes) := mkFlat (data ++ b) (match b with [] => fl_pos (the_file t s) | _ => len (data ++ b) end) in
  match f with
  | Good => put (set_file t (append bs) s) ;; mret (len bs, None)
  | Bad n | Full n => put (set_file t (append (take n bs)) s) ;; mret (len (take n bs), Some EFile)
  end.
Definition file_Truncate (t : HeaderType) (size : Z) : IO unit :=
  f ← next_fault;
  match f with
  | Good =>
      if size <? 0 then throw EFile
      else s ← get;
           let data := fl_data (the_file t s) in
           put (set_file t (mkFlat (take (Z.to_nat size) data ++ repeat x00 (Z.to_nat size - length data)) (fl_pos (the_file t s))) s)
  | _ => throw EFile
  end.
Definition file_Size (t : HeaderType) : IO Z :=
  f ← next_fault;
  match f with Good => s ← get; mret (len (fl_data (the_file t s))) | _ => throw EFile end.
Definition file_Sync (t : HeaderType) : IO unit :=
  f ← next_fault;
  match f with Good => mret tt | _ => throw EFile end.
Definition file_ReadAt (t : HeaderType) (n off : Z) : IO bytes :=
  f ← next_fault;
  match f with
  | Good =>
      s ← get;
      let data := fl_data (the_file t s) in
      if (n =? 0) || (off + n <=? len data) then mret (take (Z.to_nat n) (drop (Z.to_nat off) data)) else throw EFile
  | _ => throw EFile
  end.

(** The effect of a transaction is kept if it succeeds. *)
Definition in_update {A} (body : TX A) : IO A := fun s fs =>
  match body (hd_index s) [] with
  | (Val a, ix, _) => (Val a, set_index ix s, fs)
  | (o, _, _) => (o, s, fs)
  end.
Definition walletdb_Update {A} (body : TX A) : IO A :=
  f ← next_fault;
  match f with Good => in_update body | _ => throw EDatabase end.
(** What reads in a transaction that does not write. *)
Definition in_tx {A} (body : TX A) : IO A := fun s fs => let '(o, _, _) := body (hd_index s) [] in (o, s, fs).
Definition walletdb_View {A} (body : IO A) : IO A :=
  f ← next_fault;
  match f with Good => body | _ => throw EDatabase end.

(** ** index.go *)

Definition HeaderType_Size (h : HeaderType) : result hfs_error Z :=
  match h with Block => Ok BlockHeaderSize | RegularFilter => Ok RegularFilterHeaderSize | UnknownHeader _ => Err EHeaderType end.
Definition TipKey (h : HeaderType) : result hfs_error bytes :=
  match h with Block => Ok bitcoinTip | RegularFilter => Ok regFilterTip | UnknownHeader _ => Err EHeaderType end.
Definition of_result {S A} (r : result hfs_error A) : Eff_of hfs_error S A :=
  match r with Ok a => mret a | Err e => throw e end.

(** The top-level bucket, which is nil unless it was created. *)
Definition rootBucket : TX index_db := ix ← get; match ix with Some ix => mret ix | None => panic end.
Definition root_Put (key value : bytes) : TX unit :=
  ix ← rootBucket; put (Some (mkIndex (<[key := value]> (ix_root ix)) (ix_subs ix))).
Definition root_Delete (key : bytes) : TX unit :=
  ix ← rootBucket; put (Some (mkIndex (delete key (ix_root ix)) (ix_subs ix))).
Definition update_sub (name : bytes) (f : gmap bytes bytes -> gmap bytes bytes) : TX unit :=
  ix ← rootBucket; put (Some (mkIndex (ix_root ix) (alter f name (ix_subs ix)))).
Definition CreateBucketIfNotExists (name : bytes) (subs : gmap bytes (gmap bytes bytes)) : gmap bytes (gmap bytes bytes) :=
  match subs !! name with Some _ => subs | None => <[name := ∅]> subs end.

Fixpoint create_prefixes (n : nat) (i : Z) (subs : gmap bytes (gmap bytes bytes)) : gmap bytes (gmap bytes bytes) :=
  match n with
  | O => subs
  | S n => create_prefixes n (i + 1) (CreateBucketIfNotExists (be_put 2 i) subs)
  end.
Definition ensureIndexSubBuckets : TX unit :=
  ix ← rootBucket;
  match ix_root ix !! indexSubBucketsReady with
  | Some _ => mret tt
  | None => put (Some (mkIndex (ix_root ix) (create_prefixes (Z.to_nat 0x10000) 0 (ix_subs ix)))) ;; root_Put indexSubBucketsReady [x01]
  end.
Definition newHeaderIndex : IO unit :=
  walletdb_Update (
    ix ← get;
    (match ix with None => put (Some (mkIndex ∅ ∅)) | Some _ => mret tt end) ;;
    ensureIndexSubBuckets).

Record headerEntry : Type := mkHeaderEntry { he_hash : bytes; he_height : Z }.
Definition headerBatch_Less (a b : headerEntry) : bool :=
  match bytes_Compare (he_hash a) (he_hash b) with Lt => true | _ => false end.

Definition hash_prefix (hash : bytes) : bytes := take (Z.to_nat numSubBucketBytes) hash.
Definition putHeaderEntryInBucket (subBucket : bytes) (header : headerEntry) : TX unit :=
  update_sub subBucket (insert (he_hash header) (be_put 4 (he_height header))).
Definition putHeaderEntry (header : headerEntry) : TX unit :=
  ix ← rootBucket;
  put (Some (mkIndex (ix_root ix) (CreateBucketIfNotExists (hash_prefix (he_hash header)) (ix_subs ix)))) ;;
  putHeaderEntryInBucket (hash_prefix (he_hash header)) header.

(** The loop of [addHeaders], with the name of the bucket it has at hand. *)
Fixpoint add_entries (batch : list headerEntry) (currentSubPrefix chainTipHash : bytes) (chainTipHeight : Z) : TX bytes :=
  match batch with
  | [] => mret chainTipHash
  | header :: batch =>
      let prefix := hash_prefix (he_hash header) in
      ix ← rootBucket;
      (if bool_decide (currentSubPrefix = prefix) then mret tt
       else match ix_subs ix !! prefix with None => throw EMissingSubBucket | Some _ => mret tt end) ;;
      putHeaderEntryInBucket prefix header ;;
      if chainTipHeight <=? he_height header then add_entries batch prefix (he_hash header) (he_height header)
      else add_entries batch prefix chainTipHash chainTipHeight
  end.
Definition addHeaders `{Sorter} (t : HeaderType) (batch : list headerEntry) : IO unit :=
  match batch with
  | [] => mret tt
  | _ =>
      let batch := sort_Sort headerBatch_Less batch in
      walletdb_Update (
        tipKey ← of_result (TipKey t);
        chainTipHash ← add_entries batch [] (repeat x00 32) 0;
        root_Put tipKey chainTipHash)
  end.

Definition BigEndian_Uint32 (b : bytes) : TX Z := if len b <? 4 then panic else mret (be_get (take 4 b)).
Definition getHeaderEntryFallback (hashBytes : bytes) : TX Z :=
  ix ← rootBucket;
  match ix_root ix !! hashBytes with None => throw ErrHashNotFound | Some heightBytes => BigEndian_Uint32 heightBytes end.
Definition getHeaderEntry (hashBytes : bytes) : TX Z :=
  ix ← rootBucket;
  if len hashBytes <? numSubBucketBytes then panic
  else match ix_subs ix !! hash_prefix hashBytes with
       | None => getHeaderEntryFallback hashBytes
       | Some subBucket =>
           match subBucket !! hashBytes with
           | None => getHeaderEntryFallback hashBytes
           | Some heightBytes => BigEndian_Uint32 heightBytes
           end
       end.
Definition heightFromHashWithTx (hash : bytes) : TX Z := getHeaderEntry hash.
Definition heightFromHash (hash : bytes) : IO Z := walletdb_View (in_tx (heightFromHashWithTx hash)).

Definition chainTipWithTx (t : HeaderType) : TX (bytes * Z) :=
  ix ← rootBucket;
  tipKey ← of_result (TipKey t);
  match ix_root ix !! tipKey with
  | None => throw ENoTip
  | Some tipHashBytes =>
      r ← try_run (getHeaderEntry tipHashBytes);
      match r with
      | Err _ => throw ErrHeightNotFound
      | Ok tipHeight =>
          match NewHash tipHashBytes with Err e => throw (EHash e) | Ok tipHash => mret (tipHash, tipHeight) end
      end
  end.
Definition chainTip (t : HeaderType) : IO (bytes * Z) := walletdb_View (in_tx (chainTipWithTx t)).

(** The groups of one prefix are a map; each group has a bucket of its own, so the
    order in which Go walks the map does not matter. *)
Definition group_hashes (root : gmap bytes bytes) (hashes : list bytes) : list bytes * gmap bytes (list bytes) :=
  fold_left (fun '(roots, groups) hash =>
    match root !! hash with
    | Some v => if len v =? 4 then (roots ++ [hash], groups)
                else (roots, <[hash_prefix hash := default [] (groups !! hash_prefix hash) ++ [hash]]> groups)
    | None => (roots, <[hash_prefix hash := default [] (groups !! hash_prefix hash) ++ [hash]]> groups)
    end) hashes ([], ∅).
Fixpoint delete_roots (hashes : list bytes) : TX unit :=
  match hashes with [] => mret tt | hash :: hashes => root_Delete hash ;; delete_roots hashes end.
Fixpoint delete_group (prefix : bytes) (hashes : list bytes) : TX unit :=
  match hashes with [] => mret tt | hash :: hashes => update_sub prefix (delete hash) ;; delete_group prefix hashes end.
Fixpoint delete_groups (groups : list (bytes * list bytes)) : TX unit :=
  match groups with
  | [] => mret tt
  | (prefix, hashes) :: groups =>
      ix ← rootBucket;
      match ix_subs ix !! prefix with
      | None => throw ErrHashNotFound
      | Some _ => delete_group prefix hashes ;; delete_groups groups
      end
  end.
Definition deleteHeaderEntries (headerHashes : list bytes) : TX unit :=
  match headerHashes with
  | [] => mret tt
  | _ =>
      ix ← rootBucket;
      let '(rootBucketHashes, bySubBucket) := group_hashes (ix_root ix) headerHashes in
      delete_roots rootBucketHashes ;;
      delete_groups (map_to_list bySubBucket)
  end.

Definition truncateIndices (t : HeaderType) (newTip : bytes) (blockHeadersToTruncate : list bytes) (remove : bool) : IO unit :=
  if remove && (len blockHeadersToTruncate =? 0) then throw ERemoveFlag
  else if negb remove && negb (len blockHeadersToTruncate =? 0) then throw ERemoveFlag
  else walletdb_Update (
    tipKey ← of_result (TipKey t);
    (if remove then deleteHeaderEntries blockHeadersToTruncate else mret tt) ;;
    root_Put tipKey newTip).

(** ** file.go *)

Definition appendRaw (t : HeaderType) (header : bytes) : IO unit :=
  currentPos ← file_Seek_current t;
  r ← file_Write t header;
  match r with
  | (_, None) => mret tt
  | (n, Some _) =>
      if 0 <? n then
        truncErr ← attempt (file_Truncate t currentPos);
        throw (match truncErr with Some _ => EWriteTruncate | None => EWrite end)
      else throw EWrite
  end.

Definition readRaw (t : HeaderType) (seekDist : Z) : IO bytes :=
  headerSize ← of_result (HeaderType_Size t);
  r ← try_run (file_ReadAt t headerSize seekDist);
  match r with Ok rawHeader => mret rawHeader | Err _ => throw ErrHeaderNotFound end.

Definition readHeadersFromFile (t : HeaderType) (headerSize startHeight endHeight : Z) : IO bytes :=
  let seekDistance := startHeight * headerSize in
  let numHeaders := wrap_u32 (endHeight - startHeight + 1) in
  file_ReadAt t (wrap_u32 (headerSize * numHeaders)) seekDistance.

Definition Deserialize_header (raw : bytes) : result hfs_error (BlockHeader * bytes) :=
  match BlockHeader_Deserialize raw with Ok r => Ok r | Err e => Err (EWire e) end.

(** Until the reader is empty; each header takes some bytes of it. *)
Fixpoint parse_headers (fuel : nat) (reader : bytes) : result hfs_error (list BlockHeader) :=
  match fuel, reader with
  | _, [] => Ok []
  | O, _ => Err (EWire ErrUnexpectedEOF)
  | S fuel, _ =>
      '(nextHeader, reader) ← Deserialize_header reader;
      headers ← parse_headers fuel reader;
      Ok (nextHeader :: headers)
  end.
Definition block_readHeaderRange (startHeight endHeight : Z) : IO (list BlockHeader) :=
  headerReader ← readHeadersFromFile Block BlockHeaderSize startHeight endHeight;
  of_result (parse_headers (length headerReader) headerReader).

Definition block_readHeader (height : Z) : IO BlockHeader :=
  rawHeader ← readRaw Block (height * 80);
  '(header, _) ← of_result (Deserialize_header rawHeader);
  mret header.

Definition of_hash_result (r : result hash_error bytes) : IO bytes :=
  match r with Ok h => mret h | Err e => throw (EHash e) end.
Definition filter_readHeader (t : HeaderType) (height : Z) : IO bytes :=
  rawHeader ← readRaw t (height * 32);
  of_hash_result (NewHash rawHeader).

Fixpoint parse_hashes (fuel : nat) (reader : bytes) : list bytes :=
  match fuel, reader with
  | _, [] | O, _ => []
  | S fuel, _ => take 32 (reader ++ repeat x00 32) :: parse_hashes fuel (drop 32 reader)
  end.
Definition filter_readHeaderRange (t : HeaderType) (startHeight endHeight : Z) : IO (list bytes) :=
  headerReader ← readHeadersFromFile t RegularFilterHeaderSize startHeight endHeight;
  mret (parse_hashes (length headerReader) headerReader).

(** ** store.go: both kinds *)

Record BlockStamp : Type := mkBlockStamp { bs_Height : Z; bs_Hash : bytes; bs_Timestamp : Z }.
(** The zero [time.Time]. *)
Definition zero_time : Z := -62135596800.
Definition zero_stamp : BlockStamp := mkBlockStamp 0 (repeat x00 32) zero_time.

Definition truncateHeaders (t : HeaderType) (numHeaders : Z) : IO unit :=
  if numHeaders =? 0 then mret tt
  else
    fileSize ← file_Size t;
    headerTypeSize ← of_result (HeaderType_Size t);
    file_Truncate t (fileSize - numHeaders * headerTypeSize).

(** Opening the file leaves its offset at the start. *)
Definition open_file (t : HeaderType) : IO unit :=
  f ← next_fault;
  match f with
  | Good => s ← get; put (set_file t (mkFlat (fl_data (the_file t s)) 0) s)
  | _ => throw EFile
  end.
Definition newHeaderStore (hType : HeaderType) : IO unit :=
  match hType with
  | UnknownHeader _ => throw EHeaderType
  | _ => open_file hType ;; newHeaderIndex
  end.

(** ** store.go: block headers *)

(** [headerfs.BlockHeader] *)
Record BlockHeaderAt : Type := mkBlockHeaderAt { at_header : BlockHeader; at_height : Z }.
Definition block_toIndexEntry (b : BlockHeaderAt) : headerEntry :=
  mkHeaderEntry (BlockHeader_BlockHash (at_header b)) (at_height b).

Definition block_WriteHeaders `{Sorter} (hdrs : list BlockHeaderAt) : IO unit :=
  let headerBuf := concat (map (fun h => BlockHeader_Serialize (at_header h)) hdrs) in
  appendRaw Block headerBuf ;;
  err ← attempt (addHeaders Block (map block_toIndexEntry hdrs));
  match err with
  | None => mret tt
  | Some _ =>
      syncErr ← attempt (file_Sync Block);
      match syncErr with
      | Some _ => throw ESync
      | None =>
          truncateErr ← attempt (truncateHeaders Block (wrap_u32 (len hdrs)));
          throw (match truncateErr with Some _ => EAddRollback | None => EAddHeaders end)
      end
  end.

Definition FetchHeader (hash : bytes) : IO (BlockHeader * Z) :=
  height ← heightFromHash hash;
  header ← block_readHeader height;
  mret (header, height).
Definition FetchHeaderByHeight (height : Z) : IO BlockHeader := block_readHeader height.
Definition FetchHeaderAncestors (numHeaders : Z) (stopHash : bytes) : IO (list BlockHeader * Z) :=
  endHeight ← heightFromHash stopHash;
  let startHeight := wrap_u32 (endHeight - numHeaders) in
  headers ← block_readHeaderRange startHeight endHeight;
  mret (headers, startHeight).
Definition HeightFromHash (hash : bytes) : IO Z := heightFromHash hash.

Definition RollbackBlockHeaders (n : Z) : IO BlockStamp :=
  if n =? 0 then mret zero_stamp
  else
    '(_, chainTipHeight) ← chainTip Block;
    if chainTipHeight <? n then throw ERollbackGenesis
    else
      r ← try_run (block_readHeaderRange (chainTipHeight - n) chainTipHeight);
      match r with
      | Err _ => throw ERange
      | Ok [] => panic
      | Ok (prevHeader :: rest) =>
          let prevHeaderHash := BlockHeader_BlockHash prevHeader in
          let headersToTruncate := map BlockHeader_BlockHash rest in
          truncateHeaders Block n ;;
          truncateIndices Block prevHeaderHash headersToTruncate true ;;
          mret (mkBlockStamp (to_signed 32 (chainTipHeight - n)) prevHeaderHash (Header_Timestamp prevHeader))
      end.
Definition RollbackLastBlock : IO BlockStamp := RollbackBlockHeaders 1.

Definition block_ChainTip : IO (BlockHeader * Z) :=
  r ← try_run (chainTip Block);
  match r with
  | Err _ => throw EChainTip
  | Ok (_, tipHeight) =>
      h ← try_run (block_readHeader tipHeight);
      match h with Err _ => throw EReadTip | Ok latestHeader => mret (latestHeader, tipHeight) end
  end.

(** The loop has added one hash for each step, so that it ends with the bound on
    their number; an error comes with the hashes so far. *)
Fixpoint locator_loop (fuel : nat) (height decrement : Z) (locator : list bytes) : IO (list bytes * option hfs_error) :=
  if negb ((0 <? height) && (len locator <? MaxBlockLocatorsPerMsg)) then mret (locator, None)
  else match fuel with
  | O => mret (locator, None)
  | S fuel =>
      let decrement := if 10 <? len locator then wrap_u32 (decrement * 2) else decrement in
      let height := if height <? decrement then 0 else height - decrement in
      r ← try_run (FetchHeaderByHeight height);
      match r with
      | Err e => mret (locator, Some e)
      | Ok blockHeader => locator_loop fuel height decrement (locator ++ [BlockHeader_BlockHash blockHeader])
      end
  end.
Definition blockLocatorFromHash (hash : bytes) : IO (list bytes * option hfs_error) :=
  let locator := [hash] in
  r ← try_run (heightFromHash hash);
  match r with
  | Err _ => mret (locator, None)
  | Ok height => if height =? 0 then mret (locator, None) else locator_loop 500 height 1 locator
  end.
Definition LatestBlockLocator : IO (list bytes * option hfs_error) :=
  r ← try_run (chainTip Block);
  match r with
  | Err e => mret ([], Some e)
  | Ok (chainTipHash, _) => blockLocatorFromHash chainTipHash
  end.
Definition BlockLocatorFromHash (hash : bytes) : IO (list bytes * option hfs_error) := blockLocatorFromHash hash.

(** Downwards from a height; a header is read at each, so that there are no more
    steps than bytes in the file. *)
Fixpoint connectivity_loop (fuel : nat) (height : Z) (header : BlockHeader) : IO unit :=
  if height <=? 0 then mret tt
  else match fuel with
  | O => throw ERange
  | S fuel =>
      r ← try_run (block_readHeader height);
      match r with
      | Err _ => throw ErrHeaderNotFound
      | Ok newHeader =>
          let newHeaderHash := BlockHeader_BlockHash newHeader in
          i ← try_run (in_tx (heightFromHashWithTx newHeaderHash));
          match i with
          | Err _ => throw EOutOfSync
          | Ok indexHeight =>
              if negb (indexHeight =? height) then throw ENotIncreasing
              else if negb (bool_decide (newHeaderHash = Header_PrevBlock header)) then throw ENotConnected
              else connectivity_loop fuel (wrap_u32 (height - 1)) newHeader
          end
      end
  end.
Definition CheckConnectivity : IO unit :=
  walletdb_View (
    '(_, tipHeight) ← in_tx (chainTipWithTx Block);
    header ← block_readHeader tipHeight;
    s ← get;
    connectivity_loop (S (length (fl_data (hd_blocks s)))) (wrap_u32 (tipHeight - 1)) header).

(** [genesis] is the header of the parameters' genesis block. *)
Definition NewBlockHeaderStore `{Sorter} (genesis : BlockHeader) : IO unit :=
  newHeaderStore Block ;;
  size ← file_Size Block;
  if size =? 0 then block_WriteHeaders [mkBlockHeaderAt genesis 0]
  else
    '(tipHash, tipHeight) ← chainTip Block;
    let fileHeight := wrap_u32 (wrap_u32 (size / 80) - 1) in
    latestFileHeader ← block_readHeader fileHeight;
    if bool_decide (tipHash = BlockHeader_BlockHash latestFileHeader) then mret tt
    else truncateHeaders Block (wrap_u32 (fileHeight - tipHeight)).

(** ** store.go: filter headers *)

Record FilterHeader : Type := mkFilterHeader { fh_HeaderHash : bytes; fh_FilterHash : bytes; fh_Height : Z }.
Definition filter_toIndexEntry (f : FilterHeader) : headerEntry := mkHeaderEntry (fh_HeaderHash f) (fh_Height f).

Definition filter_WriteHeaders (t : HeaderType) (hdrs : list FilterHeader) : IO unit :=
  match list.last hdrs with
  | None => mret tt
  | Some lastHdr =>
      appendRaw t (concat (map fh_FilterHash hdrs)) ;;
      let newTip := he_hash (filter_toIndexEntry lastHdr) in
      err ← attempt (truncateIndices t newTip [] false);
      match err with
      | None => mret tt
      | Some _ =>
          syncErr ← attempt (file_Sync t);
          match syncErr with
          | Some _ => throw ESync
          | None =>
              truncateErr ← attempt (truncateHeaders t (wrap_u32 (len hdrs)));
              throw (match truncateErr with Some _ => EAddRollback | None => EAddHeaders end)
          end
      end
  end.

Definition filter_FetchHeader (t : HeaderType) (hash : bytes) : IO bytes :=
  height ← heightFromHash hash;
  filter_readHeader t height.
Definition filter_FetchHeaderByHeight (t : HeaderType) (height : Z) : IO bytes := filter_readHeader t height.
Definition filter_FetchHeaderAncestors (t : HeaderType) (numHeaders : Z) (stopHash : bytes) : IO (list bytes * Z) :=
  endHeight ← heightFromHash stopHash;
  let startHeight := wrap_u32 (endHeight - numHeaders) in
  headers ← filter_readHeaderRange t startHeight endHeight;
  mret (headers, startHeight).
Definition filter_ChainTip (t : HeaderType) : IO (bytes * Z) :=
  r ← try_run (chainTip t);
  match r with
  | Err _ => throw EChainTip
  | Ok (_, tipHeight) =>
      h ← try_run (filter_readHeader t tipHeight);
      match h with Err _ => throw EReadTip | Ok latestHeader => mret (latestHeader, tipHeight) end
  end.
Definition filter_RollbackLastBlock (t : HeaderType) (newTip : bytes) : IO BlockStamp :=
  '(_, chainTipHeight) ← chainTip t;
  let newHeightTip := wrap_u32 (chainTipHeight - 1) in
  newHeaderTip ← filter_readHeader t newHeightTip;
  truncateHeaders t 1 ;;
  truncateIndices t newTip [] false ;;
  mret (mkBlockStamp (to_signed 32 newHeightTip) newHeaderTip zero_time).

(** [os.Remove] of the closed file. *)
Definition remove_file (t : HeaderType) : IO unit :=
  f ← next_fault;
  match f with Good => s ← get; put (set_file t (mkFlat [] 0) s) | _ => throw EFile end.
Definition close_file (t : HeaderType) : IO unit :=
  f ← next_fault; match f with Good => mret tt | _ => throw EFile end.
Definition maybeResetHeaderState (t : HeaderType) (headerStateAssertion : FilterHeader) : IO bool :=
  r ← try_run (filter_FetchHeaderByHeight t (fh_Height headerStateAssertion));
  match r with
  | Err ErrHeaderNotFound => mret false
  | Err e => throw e
  | Ok assertedHeader =>
      if bool_decide (assertedHeader = fh_FilterHash headerStateAssertion) then mret false
      else close_file t ;; remove_file t ;; mret true
  end.

Section new_filters.
Context {W R : Type} `{!BStream W R}.
Context (siphash_Sum64 : bytes -> bytes -> Z) (range_order : gset bytes -> list bytes).

(** The first filter header of a chain, of its genesis block. *)
Definition genesis_filter_header (genesis : MsgBlock) : IO bytes :=
  match BuildBasicFilter siphash_Sum64 range_order genesis [] with
  | None => panic
  | Some (Err e) => throw (EGcs e)
  | Some (Ok basicFilter) => mret (MakeHeaderForFilter basicFilter (Header_PrevBlock (MsgBlock_Header genesis)))
  end.

(** The store is made anew at most once, without an assertion. *)
Fixpoint open_filters (again : nat) (filterType : HeaderType) (genesis : MsgBlock) (genesisHash : bytes)
    (headerStateAssertion : option FilterHeader) : IO unit :=
  newHeaderStore filterType ;;
  size ← file_Size filterType;
  if size =? 0 then
    match filterType with
    | RegularFilter =>
        genesisFilterHash ← genesis_filter_header genesis;
        filter_WriteHeaders filterType [mkFilterHeader genesisHash genesisFilterHash 0]
    | _ => throw EHeaderType
    end
  else
    reset ← match headerStateAssertion with None => mret false | Some a => maybeResetHeaderState filterType a end;
    match reset, again with
    | true, S again => open_filters again filterType genesis genesisHash None
    | true, O => panic
    | false, _ =>
        '(tipHash, tipHeight) ← chainTip filterType;
        let fileHeight := wrap_u32 (wrap_u32 (size / 32) - 1) in
        latestFileHeader ← filter_readHeader filterType fileHeight;
        if bool_decide (tipHash = latestFileHeader) then mret tt
        else truncateHeaders filterType (wrap_u32 (fileHeight - tipHeight))
    end.
Definition NewFilterHeaderStore (filterType : HeaderType) (genesis : MsgBlock) (genesisHash : bytes)
    (headerStateAssertion : option FilterHeader) : IO unit :=
  open_filters 1 filterType genesis genesisHash headerStateAssertion.
End new_filters.
