(* ===== verification/HeaderStore.v ===== *)
(** * neutrino/headerfs: what the header stores hold

    A store represents a chain of headers: the file is their encodings one after
    another, the index gives each hash its height and nothing else, and its tip is
    the last hash.  The operations are verified against this, without faults and
    with one, and after a crash between two of their steps. *)

From Stdlib Require Import ZArith Lia.
From S2P Require Import Prelude WireCommon WireTx ChainHash WireBlock WireMsgs TxSort DbEffects GCS GCSBuilder HeaderFS.

Open Scope Z_scope.

(** ** Running without faults *)

Lemma bind_run {E S A B} (m : Eff_of E S A) (k : A -> Eff_of E S B) s fs a s' fs' :
  m s fs = (Val a, s', fs') -> (m ≫= k) s fs = k a s' fs'.
Proof. unfold mbind, eff_bind. by intros ->. Qed.

Lemma try_run_val {E S A} (m : Eff_of E S A) s fs a s' fs' :
  m s fs = (Val a, s', fs') -> try_run m s fs = (Val (Ok a), s', fs').
Proof. unfold try_run. by intros ->. Qed.

Lemma try_run_err {E S A} (m : Eff_of E S A) s fs e s' fs' :
  m s fs = (Error e, s', fs') -> try_run m s fs = (Val (Err e), s', fs').
Proof. unfold try_run. by intros ->. Qed.

Lemma bind_run_err {E S A B} (m : Eff_of E S A) (k : A -> Eff_of E S B) s fs e s' fs' :
  m s fs = (Error e, s', fs') -> (m ≫= k) s fs = (Error e, s', fs').
Proof. unfold mbind, eff_bind. by intros ->. Qed.

Lemma View_run {A} (body : IO A) s : walletdb_View body s [] = body s [].
Proof. done. Qed.

Lemma in_tx_run {A} (body : TX A) s fs a ix : body (hd_index s) [] = (Val a, ix, []) -> in_tx body s fs = (Val a, s, fs).
Proof. unfold in_tx. by intros ->. Qed.

Ltac run H := rewrite (bind_run _ _ _ _ _ _ _ H).

(** ** Files of records of one size *)

Section records.
Context {A : Type} (w : nat) (ser : A -> bytes).

Definition file_of (l : list A) : bytes := concat (map ser l).

Lemma file_of_app l k : file_of (l ++ k) = file_of l ++ file_of k.
Proof. unfold file_of. by rewrite map_app, concat_app. Qed.

Lemma length_file_of l : Forall (fun x => length (ser x) = w) l -> length (file_of l) = (length l * w)%nat.
Proof.
  induction 1 as [|x l Hx Hl IH]; [done|]. change (file_of (x :: l)) with (ser x ++ file_of l).
  rewrite length_app, Hx, IH. simpl. lia.
Qed.

Lemma file_of_drop i l : Forall (fun x => length (ser x) = w) l -> drop (i * w) (file_of l) = file_of (drop i l).
Proof.
  revert l. induction i as [|i IH]; intros l Hl; [done|]. destruct Hl as [|x l Hx Hl]; [apply drop_nil|].
  change (file_of (x :: l)) with (ser x ++ file_of l). cbn [drop]. rewrite <- IH by done.
  replace (S i * w)%nat with (length (ser x) + i * w)%nat by lia. by rewrite drop_app_add.
Qed.

Lemma file_of_take i l : Forall (fun x => length (ser x) = w) l -> take (i * w) (file_of l) = file_of (take i l).
Proof.
  revert l. induction i as [|i IH]; intros l Hl; [done|]. destruct Hl as [|x l Hx Hl]; [apply take_nil|].
  change (file_of (x :: l)) with (ser x ++ file_of l). cbn [take]. change (file_of (x :: take i l)) with (ser x ++ file_of (take i l)).
  rewrite <- IH by done. replace (S i * w)%nat with (length (ser x) + i * w)%nat by lia. by rewrite take_app_add.
Qed.
End records.

Abbreviation header_file := (file_of BlockHeader_Serialize).
Abbreviation Hash := BlockHeader_BlockHash.

Lemma length_Serialize h : BlockHeader_ok h -> length (BlockHeader_Serialize h) = 80%nat.
Proof.
  intros H. apply (len_writeBlockHeaderBuf 0) in H. unfold len, blockHeaderLen in H.
  unfold BlockHeader_Serialize, writeBlockHeader. lia.
Qed.

Lemma all_80 hs : Forall BlockHeader_ok hs -> Forall (fun x => length (BlockHeader_Serialize x) = 80%nat) hs.
Proof. intros H. apply (list.Forall_impl _ _ _ H). apply length_Serialize. Qed.

Lemma len_header_file hs : Forall BlockHeader_ok hs -> len (header_file hs) = 80 * len hs.
Proof. intros H. unfold len. rewrite (length_file_of 80 _ _ (all_80 _ H)). lia. Qed.

Lemma length_Hash h : length (Hash h) = 32%nat.
Proof. apply length_sha256_Sum256. Qed.

Lemma Deserialize_Serialize h rest : BlockHeader_ok h -> Deserialize_header (BlockHeader_Serialize h ++ rest) = Ok (h, rest).
Proof.
  intros H. unfold Deserialize_header, BlockHeader_Deserialize, readBlockHeader, BlockHeader_Serialize, writeBlockHeader.
  by rewrite (codec_reads (Codec := BlockHeader_codec 0) h H).
Qed.

Lemma parse_header_file fuel hs : Forall BlockHeader_ok hs -> (length (header_file hs) <= fuel)%nat -> parse_headers fuel (header_file hs) = Ok hs.
Proof.
  intros Hok. revert fuel. induction Hok as [|h hs Hh Hok IH]; intros fuel Hl; [by destruct fuel|].
  change (header_file (h :: hs)) with (BlockHeader_Serialize h ++ header_file hs) in *.
  rewrite length_app, length_Serialize in Hl by done. pose proof (length_Serialize h Hh) as Hs.
  destruct fuel as [|fuel]; [lia|]. cbn [parse_headers].
  destruct (BlockHeader_Serialize h ++ header_file hs) as [|b r] eqn:E; [apply (f_equal length) in E; rewrite length_app, Hs in E; simpl in E; lia|].
  rewrite <- E, Deserialize_Serialize by done. cbn [mbind result_bind]. rewrite IH by lia. done.
Qed.

(** ** The index *)

Definition sub_entry (ix : index_db) (hash : bytes) : option bytes := ix_subs ix !! hash_prefix hash ≫= (fun sub => sub !! hash).
(** The height of a hash: in the bucket of its prefix, or else in the old place. *)
Definition entry (ix : index_db) (hash : bytes) : option bytes :=
  match sub_entry ix hash with Some v => Some v | None => ix_root ix !! hash end.

Lemma getHeaderEntry_found ix hash h fs :
  2 <= len hash -> u32_ok h -> entry ix hash = Some (be_put 4 h) -> getHeaderEntry hash (Some ix) fs = (Val h, Some ix, fs).
Proof.
  intros Hl Hh He. assert (Hb : forall ix : option index_db, BigEndian_Uint32 (be_put 4 h) ix fs = (Val h, ix, fs)).
  { intros x. unfold BigEndian_Uint32, len. rewrite length_be_put. change (Z.of_nat 4 <? 4) with false.
    rewrite take_ge by (by rewrite length_be_put). rewrite be_get_put; [done|]. exact Hh. }
  assert (Hf : ix_root ix !! hash = Some (be_put 4 h) -> getHeaderEntryFallback hash (Some ix) fs = (Val h, Some ix, fs)).
  { intros E. unfold getHeaderEntryFallback, rootBucket, get, mbind, eff_bind, mret, eff_ret. rewrite E. apply Hb. }
  unfold getHeaderEntry, rootBucket, get, mbind, eff_bind, mret, eff_ret.
  destruct (Z.ltb_spec (len hash) numSubBucketBytes); [unfold numSubBucketBytes in *; lia|].
  unfold entry, sub_entry in He. destruct (ix_subs ix !! hash_prefix hash) as [sub|]; [|by apply Hf].
  cbn [mbind option_bind] in He. destruct (sub !! hash) as [v|]; [apply (inj Some) in He as ->; apply Hb|by apply Hf].
Qed.

Lemma getHeaderEntry_missing ix hash fs :
  2 <= len hash -> entry ix hash = None -> getHeaderEntry hash (Some ix) fs = (Error ErrHashNotFound, Some ix, fs).
Proof.
  intros Hl He. assert (Hf : ix_root ix !! hash = None -> getHeaderEntryFallback hash (Some ix) fs = (Error ErrHashNotFound, Some ix, fs)).
  { intros E. unfold getHeaderEntryFallback, rootBucket, get, mbind, eff_bind, mret, eff_ret. by rewrite E. }
  unfold getHeaderEntry, rootBucket, get, mbind, eff_bind, mret, eff_ret.
  destruct (Z.ltb_spec (len hash) numSubBucketBytes); [unfold numSubBucketBytes in *; lia|].
  unfold entry, sub_entry in He. destruct (ix_subs ix !! hash_prefix hash) as [sub|]; [|by apply Hf].
  cbn [mbind option_bind] in He. destruct (sub !! hash) as [v|]; [done|by apply Hf].
Qed.

(** Every prefix has its bucket, and no hash is in both places. *)
Record index_ok (ix : index_db) : Prop := {
  io_prefixes : forall p, length p = 2%nat -> is_Some (ix_subs ix !! p);
  io_once : forall hash v, length hash = 32%nat -> ix_root ix !! hash = Some v -> len v = 4 /\ sub_entry ix hash = None;
}.

(** The index of a chain of hashes. *)
Record indexes (hashes : list bytes) (ix : index_db) : Prop := {
  in_ok : index_ok ix;
  in_heights : forall i hash, hashes !! i = Some hash -> entry ix hash = Some (be_put 4 (Z.of_nat i));
  in_only : forall hash, length hash = 32%nat -> is_Some (entry ix hash) -> hash ∈ hashes;
}.

(** What a store holds: the headers of a chain, from the genesis block on. *)
Record represents (hs : list BlockHeader) (s : headers) : Prop := {
  rp_some : hs <> [];
  rp_small : len hs < 2 ^ 32;
  rp_wf : Forall BlockHeader_ok hs;
  rp_file : fl_data (hd_blocks s) = header_file hs;
  rp_index : exists ix, hd_index s = Some ix /\ indexes (map Hash hs) ix /\ ix_root ix !! bitcoinTip = Hash <$> list.last hs;
}.

Lemma indexes_NoDup hashes ix : len hashes <= 2 ^ 32 -> indexes hashes ix -> NoDup hashes.
Proof.
  intros Hl [_ Hh _]. apply NoDup_alt. intros i j hash Hi Hj. pose proof (Hh _ _ Hi) as E. rewrite (Hh _ _ Hj) in E.
  apply lookup_lt_Some in Hi, Hj. unfold len in Hl. apply (inj Some), (f_equal be_get) in E.
  rewrite !be_get_put in E by (change (256 ^ Z.of_nat 4) with (2 ^ 32); lia). lia.
Qed.

(** ** Reading *)

Lemma file_ReadAt_run t n off s :
  0 <= off -> off + n <= len (fl_data (the_file t s)) ->
  file_ReadAt t n off s [] = (Val (take (Z.to_nat n) (drop (Z.to_nat off) (fl_data (the_file t s)))), s, []).
Proof.
  intros H0 Hl. unfold file_ReadAt, next_fault, get, mbind, eff_bind.
  replace (off + n <=? len _) with true by (symmetry; apply Z.leb_le; lia). by rewrite orb_true_r.
Qed.

Lemma file_ReadAt_past t n off s :
  0 < n -> len (fl_data (the_file t s)) < off + n -> file_ReadAt t n off s [] = (Error EFile, s, []).
Proof.
  intros H0 Hl. unfold file_ReadAt, next_fault, get, mbind, eff_bind.
  destruct (Z.eqb_spec n 0); [lia|]. destruct (Z.leb_spec (off + n) (len (fl_data (the_file t s)))); [lia|done].
Qed.

Lemma read_records {A} (ser : A -> bytes) w t l rest s a n :
  Forall (fun x => length (ser x) = w) l -> fl_data (the_file t s) = file_of ser l ++ rest -> (a + n <= length l)%nat ->
  file_ReadAt t (Z.of_nat (n * w)) (Z.of_nat (a * w)) s [] = (Val (file_of ser (take n (drop a l))), s, []).
Proof.
  intros Hw Hd Hl. pose proof (length_file_of w ser l Hw) as Hlen.
  assert (Hm : (a * w + n * w <= length l * w)%nat) by (rewrite <- Nat.mul_add_distr_r; by apply Nat.mul_le_mono_r).
  rewrite file_ReadAt_run by (rewrite ?Hd; unfold len; rewrite ?length_app, ?Hlen; lia).
  do 3 f_equal. rewrite Hd, !Nat2Z.id. rewrite drop_app_le, take_app_le by (rewrite ?length_drop, ?Hlen; lia).
  rewrite (file_of_drop w), (file_of_take w); [done| |done]. by apply Forall_drop.
Qed.

Lemma read_record {A} (ser : A -> bytes) w t l rest s i x :
  Forall (fun x => length (ser x) = w) l -> fl_data (the_file t s) = file_of ser l ++ rest -> l !! i = Some x ->
  file_ReadAt t (Z.of_nat w) (Z.of_nat (i * w)) s [] = (Val (ser x), s, []).
Proof.
  intros Hw Hd Hx. pose proof (lookup_lt_Some _ _ _ Hx) as Hi.
  pose proof (read_records ser w t l rest s i 1 Hw Hd ltac:(lia)) as E. rewrite Nat.mul_1_l in E. rewrite E. do 3 f_equal.
  rewrite (drop_S _ _ _ Hx). cbn [take]. unfold file_of. cbn [map concat]. by rewrite app_nil_r.
Qed.

Lemma readRaw_run t w off raw s :
  HeaderType_Size t = Ok w -> file_ReadAt t w off s [] = (Val raw, s, []) -> readRaw t off s [] = (Val raw, s, []).
Proof. intros Hs E. unfold readRaw. rewrite Hs. cbn [of_result]. unfold mbind, eff_bind, mret, eff_ret, try_run. by rewrite E. Qed.

Lemma readRaw_past t w off s :
  HeaderType_Size t = Ok w -> file_ReadAt t w off s [] = (Error EFile, s, []) -> readRaw t off s [] = (Error ErrHeaderNotFound, s, []).
Proof. intros Hs E. unfold readRaw. rewrite Hs. cbn [of_result]. unfold mbind, eff_bind, mret, eff_ret, try_run. by rewrite E. Qed.

Lemma block_readHeader_run hs rest s i h :
  Forall BlockHeader_ok hs -> fl_data (hd_blocks s) = header_file hs ++ rest -> hs !! i = Some h ->
  block_readHeader (Z.of_nat i) s [] = (Val h, s, []).
Proof.
  intros Hok Hd Hi. unfold block_readHeader.
  pose proof (read_record BlockHeader_Serialize 80 Block hs rest s i h (all_80 _ Hok) Hd Hi) as E.
  replace (Z.of_nat (i * 80)) with (Z.of_nat i * 80) in E by lia.
  rewrite (bind_run _ _ _ _ _ _ _ (readRaw_run Block BlockHeaderSize _ _ s eq_refl E)).
  rewrite list.Forall_lookup in Hok. rewrite <- (app_nil_r (BlockHeader_Serialize h)), Deserialize_Serialize by eauto. done.
Qed.

Lemma block_readHeader_past s i :
  len (fl_data (hd_blocks s)) < i * 80 + 80 -> block_readHeader i s [] = (Error ErrHeaderNotFound, s, []).
Proof.
  intros Hl. unfold block_readHeader. apply bind_run_err. apply (readRaw_past Block BlockHeaderSize); [done|].
  apply file_ReadAt_past; unfold BlockHeaderSize; [lia|]. exact Hl.
Qed.

Lemma block_readHeaderRange_run hs rest s a b :
  Forall BlockHeader_ok hs -> fl_data (hd_blocks s) = header_file hs ++ rest -> (a <= b < length hs)%nat ->
  80 * (Z.of_nat b - Z.of_nat a + 1) < 2 ^ 32 ->
  block_readHeaderRange (Z.of_nat a) (Z.of_nat b) s [] = (Val (take (S (b - a)) (drop a hs)), s, []).
Proof.
  intros Hok Hd Hab Hsmall. unfold block_readHeaderRange, readHeadersFromFile, BlockHeaderSize. unfold wrap_u32.
  rewrite (Z.mod_small (_ - _ + 1)), Z.mod_small by lia.
  pose proof (read_records BlockHeader_Serialize 80 Block hs rest s a (S (b - a)) (all_80 _ Hok) Hd ltac:(lia)) as E.
  replace (Z.of_nat (a * 80)) with (Z.of_nat a * 80) in E by lia.
  replace (Z.of_nat (S (b - a) * 80)) with (80 * (Z.of_nat b - Z.of_nat a + 1)) in E by lia.
  rewrite (bind_run _ _ _ _ _ _ _ E).
  rewrite parse_header_file; [done| |done]. by apply Forall_take, Forall_drop.
Qed.

Lemma chainTipWithTx_run t key ix hash h fs :
  TipKey t = Ok key -> ix_root ix !! key = Some hash -> length hash = 32%nat -> u32_ok h -> entry ix hash = Some (be_put 4 h) ->
  chainTipWithTx t (Some ix) fs = (Val (hash, h), Some ix, fs).
Proof.
  intros Hk Hr Hl Hh He. unfold chainTipWithTx. rewrite Hk. unfold rootBucket, get, of_result, mbind, eff_bind, mret, eff_ret.
  rewrite Hr. unfold try_run. rewrite (getHeaderEntry_found _ _ h) by (done || unfold len; lia).
  unfold NewHash, Hash_SetBytes, len. rewrite Hl. done.
Qed.

Lemma heightFromHash_run s ix hash h :
  hd_index s = Some ix -> 2 <= len hash -> u32_ok h -> entry ix hash = Some (be_put 4 h) -> heightFromHash hash s [] = (Val h, s, []).
Proof.
  intros Hi Hl Hh He. unfold heightFromHash. rewrite View_run. apply (in_tx_run _ _ _ _ (Some ix)). rewrite Hi. by apply getHeaderEntry_found.
Qed.

Lemma heightFromHash_missing s ix hash :
  hd_index s = Some ix -> 2 <= len hash -> entry ix hash = None -> heightFromHash hash s [] = (Error ErrHashNotFound, s, []).
Proof.
  intros Hi Hl He. unfold heightFromHash. rewrite View_run. unfold in_tx, heightFromHashWithTx. rewrite Hi, getHeaderEntry_missing; done.
Qed.

Lemma chainTip_run t key s ix hash h :
  hd_index s = Some ix -> TipKey t = Ok key -> ix_root ix !! key = Some hash -> length hash = 32%nat -> u32_ok h ->
  entry ix hash = Some (be_put 4 h) -> chainTip t s [] = (Val (hash, h), s, []).
Proof.
  intros Hi Hk Hr Hl Hh He. unfold chainTip. rewrite View_run. apply (in_tx_run _ _ _ _ (Some ix)). rewrite Hi. by eapply chainTipWithTx_run.
Qed.

(** ** Adding to the index *)

Lemma update_sub_lookup ix name f hash :
  sub_entry (mkIndex (ix_root ix) (alter f name (ix_subs ix))) hash =
  if decide (hash_prefix hash = name) then (ix_subs ix !! name) ≫= (fun sub => f sub !! hash) else sub_entry ix hash.
Proof.
  unfold sub_entry. cbn [ix_subs]. destruct (decide (hash_prefix hash = name)) as [->|Hn].
  - rewrite lookup_alter_eq. by destruct (ix_subs ix !! name).
  - by rewrite lookup_alter_ne.
Qed.

Definition prefixes_ok (ix : index_db) : Prop := forall p, length p = 2%nat -> is_Some (ix_subs ix !! p).

Lemma prefixes_alter ix name f : prefixes_ok ix -> prefixes_ok (mkIndex (ix_root ix) (alter f name (ix_subs ix))).
Proof. intros H p Hp. cbn [ix_subs]. rewrite lookup_alter_is_Some. by apply H. Qed.

Lemma length_hash_prefix hash : length hash = 32%nat -> length (hash_prefix hash) = 2%nat.
Proof. intros H. unfold hash_prefix. rewrite length_take, H. done. Qed.

(** The tip that the loop ends with. *)
Definition tip_of (batch : list headerEntry) (tip : bytes) (height : Z) : bytes * Z :=
  fold_left (fun '(tip, height) e => if height <=? he_height e then (he_hash e, he_height e) else (tip, height)) batch (tip, height).

(** The index with the entries of a batch. *)
Record added (batch : list headerEntry) (ix ix' : index_db) : Prop := {
  ad_root : ix_root ix' = ix_root ix;
  ad_prefixes : prefixes_ok ix';
  ad_new : forall e, e ∈ batch -> sub_entry ix' (he_hash e) = Some (be_put 4 (he_height e));
  ad_old : forall hash, hash ∉ map he_hash batch -> sub_entry ix' hash = sub_entry ix hash;
}.

Lemma add_entries_run batch cur tip height ix fs :
  prefixes_ok ix -> NoDup (map he_hash batch) -> Forall (fun e => length (he_hash e) = 32%nat) batch ->
  exists ix', add_entries batch cur tip height (Some ix) fs = (Val (fst (tip_of batch tip height)), Some ix', fs) /\ added batch ix ix'.
Proof.
  revert cur tip height ix. induction batch as [|e batch IH]; intros cur tip height ix Hp Hn Hf.
  - exists ix. split; [done|]. split; try done. intros e He. by apply not_elem_of_nil in He.
  - cbn [map] in Hn; apply list.NoDup_cons in Hn as [He Hn]. apply list.Forall_cons in Hf as [Hl Hf].
    pose proof (Hp _ (length_hash_prefix _ Hl)) as [sub Hsub].
    set (ix1 := mkIndex (ix_root ix) (alter (insert (he_hash e) (be_put 4 (he_height e))) (hash_prefix (he_hash e)) (ix_subs ix))).
    assert (Hp1 : prefixes_ok ix1) by by apply prefixes_alter.
    assert (H1 : sub_entry ix1 (he_hash e) = Some (be_put 4 (he_height e))).
    { unfold ix1. rewrite update_sub_lookup, decide_True, Hsub by done. cbn [mbind option_bind]. by rewrite lookup_insert_eq. }
    assert (H2 : forall hash, hash <> he_hash e -> sub_entry ix1 hash = sub_entry ix hash).
    { intros hash Hne. unfold ix1. rewrite update_sub_lookup. destruct (decide _) as [E|]; [|done].
      unfold sub_entry. rewrite E. destruct (ix_subs ix !! _); [|done]. cbn [mbind option_bind]. by rewrite lookup_insert_ne. }
    assert (Hrun : forall tip height, exists ix', add_entries batch (hash_prefix (he_hash e)) tip height (Some ix1) fs =
        (Val (fst (tip_of batch tip height)), Some ix', fs) /\ added (e :: batch) ix ix').
    { intros tip' height'. destruct (IH (hash_prefix (he_hash e)) tip' height' ix1 Hp1 Hn Hf) as (ix' & E & [A1 A2 A3 A4]).
      exists ix'. split; [done|]. split; [done|done| |].
      - intros e' [->|He']%elem_of_cons; [|by apply A3]. by rewrite A4.
      - intros hash [Hne Hnotin]%not_elem_of_cons. rewrite A4 by done. by apply H2. }
    cbn [add_entries]. unfold tip_of. cbn [fold_left].
    unfold putHeaderEntryInBucket, update_sub, rootBucket, get, put, mbind, eff_bind, mret, eff_ret. rewrite Hsub.
    destruct (bool_decide (cur = hash_prefix (he_hash e))), (Z.leb_spec height (he_height e)); apply Hrun.
Qed.

(** With distinct heights the tip is the highest entry, in whatever order. *)
Lemma tip_of_highest batch tip height e :
  e ∈ batch -> height <= he_height e -> (forall e', e' ∈ batch -> e' = e \/ he_height e' < he_height e) ->
  fst (tip_of batch tip height) = he_hash e.
Proof.
  assert (Hstay : forall batch, (forall e', e' ∈ batch -> e' = e \/ he_height e' < he_height e) ->
    tip_of batch (he_hash e) (he_height e) = (he_hash e, he_height e)).
  { clear. induction batch as [|x batch IH]; intros H; [done|]. unfold tip_of in *. cbn [fold_left].
    destruct (Z.leb_spec (he_height e) (he_height x)) as [Hle|].
    - destruct (H x) as [->|]; [by left|apply IH; intros; apply H; by right|lia].
    - apply IH. intros. apply H. by right. }
  revert tip height. induction batch as [|x batch IH]; intros tip height He Hh Hmax; [by apply not_elem_of_nil in He|].
  unfold tip_of. cbn [fold_left]. fold (tip_of batch).
  assert (Hmax' : forall e', e' ∈ batch -> e' = e \/ he_height e' < he_height e) by (intros; apply Hmax; by right).
  destruct (Z.leb_spec height (he_height x)).
  - destruct (Hmax x) as [->|]; [by left| |].
    + change (fst (tip_of batch (he_hash e) (he_height e)) = he_hash e). by rewrite Hstay.
    + apply elem_of_cons in He as [->|He]; [lia|]. apply IH; [done|lia|done].
  - apply elem_of_cons in He as [->|He]; [lia|]. apply IH; [done|lia|done].
Qed.

(** ** Removing from the index *)

Definition in_root (root : gmap bytes bytes) (hash : bytes) : bool :=
  match root !! hash with Some v => len v =? 4 | None => false end.

(** The two groups hold the hashes, by where they are found. *)
Record grouped (root : gmap bytes bytes) (hashes : list bytes) (g : list bytes * gmap bytes (list bytes)) : Prop := {
  gr_roots : forall hash, hash ∈ fst g <-> hash ∈ hashes /\ in_root root hash = true;
  gr_prefix : forall p l hash, snd g !! p = Some l -> hash ∈ l -> p = hash_prefix hash /\ hash ∈ hashes /\ in_root root hash = false;
  gr_all : forall hash, hash ∈ hashes -> in_root root hash = false -> exists l, snd g !! hash_prefix hash = Some l /\ hash ∈ l;
  gr_some : forall p l, snd g !! p = Some l -> l <> [];
}.

Lemma group_hashes_grouped root hashes : grouped root hashes (group_hashes root hashes).
Proof.
  unfold group_hashes. induction hashes as [|hash hashes IH] using rev_ind.
  { split; cbn; try done; set_solver. }
  rewrite fold_left_app. cbn [fold_left]. destruct (fold_left _ hashes _) as [roots groups]. destruct IH as [I1 I2 I3 I4]. cbn [fst snd] in *.
  assert (Hroot : in_root root hash = true -> grouped root (hashes ++ [hash]) (roots ++ [hash], groups)).
  { intros Hr. split; cbn [fst snd].
    - intros h. rewrite !elem_of_app, I1, !list_elem_of_singleton. naive_solver.
    - intros p l h Hp Hh. destruct (I2 p l h Hp Hh) as (-> & Hin & E). split_and!; try done. rewrite elem_of_app. by left.
    - intros h [Hh| ->%list_elem_of_singleton]%elem_of_app E; [by apply I3|congruence].
    - done. }
  assert (Hsub : in_root root hash = false ->
    grouped root (hashes ++ [hash]) (roots, <[hash_prefix hash := default [] (groups !! hash_prefix hash) ++ [hash]]> groups)).
  { intros Hr. split; cbn [fst snd].
    - intros h. rewrite I1, elem_of_app, list_elem_of_singleton. split; [naive_solver|]. intros [[Hh| ->] E]; [done|congruence].
    - intros p l h Hp Hh. destruct (decide (p = hash_prefix hash)) as [->|Hne].
      + rewrite lookup_insert_eq in Hp. injection Hp as <-. apply elem_of_app in Hh as [Hh| ->%list_elem_of_singleton].
        * destruct (groups !! hash_prefix hash) as [l|] eqn:El; [|by apply not_elem_of_nil in Hh].
          destruct (I2 _ _ h El Hh) as (E & Hin & Er). split_and!; try done. rewrite elem_of_app. by left.
        * split_and!; try done. rewrite elem_of_app, list_elem_of_singleton. by right.
      + rewrite lookup_insert_ne in Hp by done. destruct (I2 p l h Hp Hh) as (-> & Hin & E). split_and!; try done. rewrite elem_of_app. by left.
    - intros h [Hh| ->%list_elem_of_singleton]%elem_of_app E.
      + destruct (I3 h Hh E) as (l & El & Hin). destruct (decide (hash_prefix h = hash_prefix hash)) as [Ep|].
        * rewrite Ep, lookup_insert_eq. eexists. split; [done|]. rewrite <- Ep, El. cbn [default]. rewrite elem_of_app. by left.
        * rewrite lookup_insert_ne by done. by exists l.
      + rewrite lookup_insert_eq. eexists. split; [done|]. rewrite elem_of_app, list_elem_of_singleton. by right.
    - intros p l. destruct (decide (p = hash_prefix hash)) as [->|]; [|rewrite lookup_insert_ne by done; apply I4].
      rewrite lookup_insert_eq. intros [= <-]. by destruct (default [] _). }
  unfold in_root in *. destruct (root !! hash) as [v|]; [|by apply Hsub]. destruct (len v =? 4); [by apply Hroot|by apply Hsub].
Qed.

Lemma delete_roots_run hashes ix fs :
  exists ix', delete_roots hashes (Some ix) fs = (Val tt, Some ix', fs) /\ ix_subs ix' = ix_subs ix /\
    (forall key, key ∈ hashes -> ix_root ix' !! key = None) /\ (forall key, key ∉ hashes -> ix_root ix' !! key = ix_root ix !! key).
Proof.
  revert ix. induction hashes as [|hash hashes IH]; intros ix; [exists ix; split_and!; try done; intros key Hk; by apply not_elem_of_nil in Hk|].
  destruct (IH (mkIndex (delete hash (ix_root ix)) (ix_subs ix))) as (ix' & E & Es & H1 & H2).
  exists ix'. split_and!; [exact E|done| |].
  - intros key Hk. destruct (decide (key ∈ hashes)) as [|Hn]; [by apply H1|]. rewrite H2 by done.
    apply elem_of_cons in Hk as [->|]; [|done]. apply lookup_delete_eq.
  - intros key [Hne Hn]%not_elem_of_cons. rewrite H2 by done. cbn [ix_root]. by rewrite lookup_delete_ne.
Qed.

Lemma delete_group_run prefix hashes ix fs :
  prefixes_ok ix -> (forall hash, hash ∈ hashes -> hash_prefix hash = prefix) ->
  exists ix', delete_group prefix hashes (Some ix) fs = (Val tt, Some ix', fs) /\ ix_root ix' = ix_root ix /\ prefixes_ok ix' /\
    (forall hash, hash ∈ hashes -> sub_entry ix' hash = None) /\ (forall hash, hash ∉ hashes -> sub_entry ix' hash = sub_entry ix hash).
Proof.
  intros Hp Hh. revert ix Hp. induction hashes as [|hash hashes IH]; intros ix Hp; [exists ix; split_and!; try done; intros h Hk; by apply not_elem_of_nil in Hk|].
  set (ix1 := mkIndex (ix_root ix) (alter (delete hash) prefix (ix_subs ix))).
  assert (H1 : sub_entry ix1 hash = None).
  { unfold ix1. rewrite update_sub_lookup, decide_True by (apply Hh; by left). destruct (ix_subs ix !! prefix); [|done].
    cbn [mbind option_bind]. apply lookup_delete_eq. }
  assert (H2 : forall h, h <> hash -> sub_entry ix1 h = sub_entry ix h).
  { intros h Hne. unfold ix1. rewrite update_sub_lookup. destruct (decide _) as [E|]; [|done].
    unfold sub_entry. rewrite E. destruct (ix_subs ix !! prefix); [|done]. cbn [mbind option_bind]. by rewrite lookup_delete_ne. }
  destruct (IH ltac:(intros h Hin; apply Hh; by right) ix1 ltac:(by apply prefixes_alter)) as (ix' & E & Er & Hp' & I1 & I2).
  exists ix'. split_and!; [exact E|done|done| |].
  - intros h Hk. destruct (decide (h ∈ hashes)) as [|Hn]; [by apply I1|]. rewrite I2 by done. apply elem_of_cons in Hk as [->|]; done.
  - intros h [Hne Hn]%not_elem_of_cons. rewrite I2 by done. by apply H2.
Qed.

Lemma delete_groups_run groups ix fs :
  prefixes_ok ix -> (forall p l hash, (p, l) ∈ groups -> hash ∈ l -> hash_prefix hash = p) ->
  (forall p l, (p, l) ∈ groups -> length p = 2%nat) ->
  exists ix', delete_groups groups (Some ix) fs = (Val tt, Some ix', fs) /\ ix_root ix' = ix_root ix /\ prefixes_ok ix' /\
    (forall p l hash, (p, l) ∈ groups -> hash ∈ l -> sub_entry ix' hash = None) /\
    (forall hash, (forall p l, (p, l) ∈ groups -> hash ∉ l) -> sub_entry ix' hash = sub_entry ix hash).
Proof.
  revert ix. induction groups as [|[prefix hashes] groups IH]; intros ix Hp Hh H2.
  { exists ix. split_and!; try done. intros p l h Hk. by apply not_elem_of_nil in Hk. }
  destruct (Hp prefix) as [sub Hsub]; [eapply H2; by left|].
  destruct (delete_group_run prefix hashes ix fs Hp) as (ix1 & E1 & Er1 & Hp1 & I1 & I2); [intros h Hin; eapply Hh; [by left|done]|].
  destruct (IH ix1 Hp1) as (ix' & E & Er & Hp' & J1 & J2); [intros p l h Hin; apply Hh; by right|intros p l Hin; eapply H2; by right|].
  exists ix'. split_and!; [|congruence|done| |].
  - cbn [delete_groups]. rewrite (bind_run rootBucket _ (Some ix) fs ix (Some ix) fs eq_refl), Hsub. by rewrite (bind_run _ _ _ _ _ _ _ E1).
  - intros p l h Hin Hl. destruct (decide (Exists (fun q => h ∈ snd q) groups)) as [([q lq] & Hq & Hl')%list.Exists_exists|Hno].
    + by eapply J1.
    + apply elem_of_cons in Hin as [[= -> ->]|Hin]; [|by eapply J1]. rewrite J2; [by apply I1|].
      intros p' l' Hin' Hl'. apply Hno, list.Exists_exists. by exists (p', l').
  - intros h Hno. rewrite J2 by (intros p l Hin; eapply Hno; by right). apply I2. eapply Hno. by left.
Qed.

(** The index without a list of hashes. *)
Lemma deleteHeaderEntries_run hashes ix fs :
  index_ok ix -> Forall (fun hash => length hash = 32%nat) hashes ->
  exists ix', deleteHeaderEntries hashes (Some ix) fs = (Val tt, Some ix', fs) /\ index_ok ix' /\
    (forall key, length key <> 32%nat -> ix_root ix' !! key = ix_root ix !! key) /\
    (forall hash, hash ∈ hashes -> entry ix' hash = None) /\
    (forall hash, hash ∉ hashes -> entry ix' hash = entry ix hash).
Proof.
  intros [Hp Ho] Hl. destruct (decide (hashes = [])) as [->|Hne].
  { exists ix. split_and!; try done. intros h Hk. by apply not_elem_of_nil in Hk. }
  assert (Hd : deleteHeaderEntries hashes = (ix ← rootBucket;
    let '(rootBucketHashes, bySubBucket) := group_hashes (ix_root ix) hashes in
    delete_roots rootBucketHashes ;; delete_groups (map_to_list bySubBucket))) by by destruct hashes.
  rewrite Hd, (bind_run rootBucket _ (Some ix) fs ix (Some ix) fs eq_refl).
  destruct (group_hashes (ix_root ix) hashes) as [roots groups] eqn:Eg.
  pose proof (group_hashes_grouped (ix_root ix) hashes) as [G1 G2 G3 G4]. rewrite Eg in *. cbn [fst snd] in *.
  rewrite list.Forall_forall in Hl.
  destruct (delete_roots_run roots ix fs) as (ix1 & E1 & Es1 & R1 & R2).
  assert (Hp1 : prefixes_ok ix1) by (intros p; rewrite Es1; apply Hp).
  destruct (delete_groups_run (map_to_list groups) ix1 fs Hp1) as (ix' & E2 & Er & Hp' & D1 & D2).
  { intros p l h Hin%elem_of_map_to_list Hh. symmetry. by apply (G2 p l). }
  { intros p l Hin%elem_of_map_to_list. pose proof (G4 _ _ Hin). destruct l as [|h l]; [done|].
    destruct (G2 p (h :: l) h Hin) as (-> & Hh & _); [by left|]. by apply length_hash_prefix, Hl. }
  assert (Hsub1 : forall h, sub_entry ix1 h = sub_entry ix h) by (intros; unfold sub_entry; by rewrite Es1).
  assert (Hnot : forall h, ~ (h ∈ hashes /\ in_root (ix_root ix) h = false) -> sub_entry ix' h = sub_entry ix h).
  { intros h Hno. rewrite D2, Hsub1; [done|]. intros p l Hin%elem_of_map_to_list Hh. apply Hno. by destruct (G2 p l h Hin Hh) as (_ & ? & ?). }
  assert (Hroot : forall h, in_root (ix_root ix) h = true -> length h = 32%nat -> sub_entry ix h = None).
  { intros h Hr H32. unfold in_root in Hr. destruct (ix_root ix !! h) as [v|] eqn:Ev; [|done]. by destruct (Ho h v H32 Ev). }
  assert (Hroot' : forall h, h ∉ hashes \/ in_root (ix_root ix) h = false -> ix_root ix' !! h = ix_root ix !! h).
  { intros h Hr. rewrite Er, R2; [done|]. rewrite G1. intros [? ?]. destruct Hr; [done|congruence]. }
  exists ix'. split_and!.
  - by rewrite (bind_run _ _ _ _ _ _ _ E1).
  - split; [done|]. intros h v H32 Hv. destruct (decide (h ∈ hashes)) as [Hin|Hn].
    + destruct (in_root (ix_root ix) h) eqn:Ei.
      * rewrite Er, R1 in Hv by (by apply G1). done.
      * rewrite Hroot' in Hv by auto. unfold in_root in Ei. rewrite Hv in Ei. destruct (Ho h v H32 Hv) as [H4 _]. apply Z.eqb_neq in Ei. lia.
    + rewrite Hroot' in Hv by auto. destruct (Ho h v H32 Hv) as [H4 Hsub]. rewrite Hnot by naive_solver. done.
  - intros key Hk. apply Hroot'. left. intros Hin. by apply Hk, Hl.
  - intros h Hin. unfold entry. destruct (in_root (ix_root ix) h) eqn:Ei.
    + rewrite Hnot by (intros [_ ?]; congruence). rewrite Hroot by auto. rewrite Er. apply R1. by apply G1.
    + destruct (G3 h Hin Ei) as (l & El & Hh). rewrite (D1 (hash_prefix h) l h) by (by try apply elem_of_map_to_list).
      rewrite Hroot' by auto. unfold in_root in Ei. destruct (ix_root ix !! h) as [v|] eqn:Ev; [|done].
      destruct (Ho h v (Hl _ Hin) Ev) as [H4 _]. apply Z.eqb_neq in Ei. lia.
  - intros h Hn. unfold entry. rewrite Hnot by naive_solver. by rewrite Hroot' by auto.
Qed.

(** ** The index through the operations *)

Lemma index_ok_prefixes ix : index_ok ix -> prefixes_ok ix.
Proof. by intros []. Qed.

Lemma entry_sub ix hash : index_ok ix -> length hash = 32%nat ->
  entry ix hash = match ix_root ix !! hash with Some v => Some v | None => sub_entry ix hash end.
Proof.
  intros [_ Ho] H32. unfold entry. destruct (ix_root ix !! hash) as [v|] eqn:Ev; [|by destruct (sub_entry ix hash)].
  destruct (Ho hash v H32 Ev) as [_ Hs]. by rewrite Hs.
Qed.

Lemma tip_key_short key t : TipKey t = Ok key -> length key <> 32%nat.
Proof. by destruct t; intros [= <-]. Qed.

Lemma index_ok_tip ix key v : index_ok ix -> length key <> 32%nat -> index_ok (mkIndex (<[key := v]> (ix_root ix)) (ix_subs ix)).
Proof.
  intros [Hp Ho] Hk. split; [done|]. intros hash w H32. cbn [ix_root]. rewrite lookup_insert_ne by (intros ->; done). apply Ho. done.
Qed.

Lemma entry_tip ix key v hash : length hash = 32%nat -> length key <> 32%nat ->
  entry (mkIndex (<[key := v]> (ix_root ix)) (ix_subs ix)) hash = entry ix hash.
Proof. intros H32 Hk. unfold entry, sub_entry. cbn [ix_root ix_subs]. by rewrite lookup_insert_ne by (intros ->; done). Qed.

Lemma indexes_tip hashes ix key v : Forall (fun hash => length hash = 32%nat) hashes -> length key <> 32%nat ->
  indexes hashes ix -> indexes hashes (mkIndex (<[key := v]> (ix_root ix)) (ix_subs ix)).
Proof.
  intros H32 Hk [Ho Hh Honly]. split; [by apply index_ok_tip| |].
  - intros i hash Hi. rewrite entry_tip; [by apply Hh| |done]. rewrite list.Forall_lookup in H32. eauto.
  - intros hash Hl. rewrite entry_tip by done. by apply Honly.
Qed.

(** The entries of the headers that come after a chain. *)
Definition entries_from (n : nat) (hashes : list bytes) : list headerEntry := imap (fun i hash => mkHeaderEntry hash (Z.of_nat (n + i))) hashes.

Lemma map_entries_from n hashes : map he_hash (entries_from n hashes) = hashes.
Proof. unfold entries_from. change (map he_hash (imap ?f hashes)) with (he_hash <$> imap f hashes). rewrite fmap_imap. apply imap_id || (apply list_eq; intros i; rewrite list_lookup_imap; by destruct (hashes !! i)). Qed.

Lemma indexes_added hashes new ix ix' :
  Forall (fun hash => length hash = 32%nat) (hashes ++ new) -> NoDup (hashes ++ new) -> indexes hashes ix ->
  added (entries_from (length hashes) new) ix ix' -> indexes (hashes ++ new) ix'.
Proof.
  intros H32 Hn [Ho Hh Honly] [A1 A2 A3 A4]. rewrite map_entries_from in A4. apply list.NoDup_app in Hn as (Hn1 & Hd & Hn2).
  assert (Hroot : forall h, h ∈ new -> ix_root ix !! h = None).
  { intros h Hin. destruct (ix_root ix !! h) as [v|] eqn:Ev; [|done]. exfalso. apply (Hd h); [|done].
    rewrite list.Forall_forall in H32. apply Honly; [apply H32, elem_of_app; by right|]. rewrite entry_sub, Ev; [done|done|].
    apply H32, elem_of_app. by right. }
  assert (Ho' : index_ok ix').
  { split; [done|]. intros h v Hl Hv. rewrite A1 in Hv. destruct (decide (h ∈ new)) as [Hin|Hni].
    - rewrite Hroot in Hv by done. done.
    - rewrite A4 by done. apply (io_once ix Ho); done. }
  assert (Hnew : forall i h, new !! i = Some h -> entry ix' h = Some (be_put 4 (Z.of_nat (length hashes + i)))).
  { intros i h Hi. unfold entry.
    assert (Ea : sub_entry ix' h = Some (be_put 4 (Z.of_nat (length hashes + i)))); [|by rewrite Ea].
    apply (A3 (mkHeaderEntry h (Z.of_nat (length hashes + i)))).
    apply list_elem_of_lookup. exists i. unfold entries_from. by rewrite list_lookup_imap, Hi. }
  assert (Hold : forall h, h ∉ new -> entry ix' h = entry ix h) by (intros h Hni; unfold entry; by rewrite A4, A1).
  split; [done| |].
  - intros i h Hi. apply lookup_app_Some in Hi as [Hi|[Hle Hi]].
    + rewrite Hold; [by apply Hh|]. intros Hin. apply (Hd h); [by eapply list_elem_of_lookup_2|done].
    + rewrite (Hnew _ _ Hi). do 3 f_equal. lia.
  - intros h Hl Hs. apply elem_of_app. destruct (decide (h ∈ new)) as [|Hni]; [by right|left]. rewrite Hold in Hs by done. by apply Honly.
Qed.

Lemma indexes_removed hashes rest ix ix' :
  Forall (fun hash => length hash = 32%nat) (hashes ++ rest) -> NoDup (hashes ++ rest) -> indexes (hashes ++ rest) ix ->
  index_ok ix' -> (forall hash, hash ∈ rest -> entry ix' hash = None) -> (forall hash, hash ∉ rest -> entry ix' hash = entry ix hash) ->
  indexes hashes ix'.
Proof.
  intros H32 Hn [Ho Hh Honly] Ho' D1 D2. apply list.NoDup_app in Hn as (Hn1 & Hd & Hn2). split; [done| |].
  - intros i h Hi. rewrite D2; [by apply Hh, lookup_app_l_Some|]. apply Hd. by eapply list_elem_of_lookup_2.
  - intros h Hl Hs. destruct (decide (h ∈ rest)) as [Hr|Hr]; [rewrite D1 in Hs by done; by destruct Hs|].
    rewrite D2 in Hs by done. specialize (Honly h Hl Hs). by apply elem_of_app in Honly as [|].
Qed.

Lemma all_32 hs : Forall (fun hash => length hash = 32%nat) (map Hash hs).
Proof. apply list.Forall_forall. intros hash (h & -> & _)%list_elem_of_fmap. apply length_Hash. Qed.

(** ** One fault *)

Definition faults (fs : list fault) : nat := length (List.filter (fun f => match f with Good => false | _ => true end) fs).
Definition is_fault (f : fault) : nat := match f with Good => O | _ => 1%nat end.

Lemma wp_next_count {E S B} (k : fault -> Eff_of E S B) s fs Q :
  (forall f fs', faults fs = (is_fault f + faults fs')%nat -> wp (k f) s fs' Q) -> wp (next_fault ≫= k) s fs Q.
Proof.
  intros H. apply wp_bind. unfold wp at 1, next_fault. destruct fs as [|f fs]; [by apply H|].
  apply (H f fs). unfold faults. cbn [List.filter]. by destruct f.
Qed.

Lemma wp_throw {E S A} (e : E) s fs (Q : outcome_of E A -> S -> list fault -> Prop) : Q (Error e) s fs -> wp (throw e) s fs Q.
Proof. done. Qed.

Definition known (t : HeaderType) : Prop := match t with UnknownHeader _ => False | _ => True end.

Lemma the_file_set t f s : known t -> the_file t (set_file t f s) = f.
Proof. by destruct t. Qed.
Lemma set_file_set t f g s : set_file t f (set_file t g s) = set_file t f s.
Proof. by destruct t. Qed.
Lemma hd_index_set t f s : hd_index (set_file t f s) = hd_index s.
Proof. by destruct t. Qed.

(** A truncation that succeeds. *)
Lemma file_Truncate_wp t size s fs Q :
  faults fs = O -> 0 <= size ->
  (forall fs', faults fs' = O ->
    Q (Val tt) (set_file t (mkFlat (take (Z.to_nat size) (fl_data (the_file t s)) ++ repeat x00 (Z.to_nat size - length (fl_data (the_file t s))))
      (fl_pos (the_file t s))) s) fs') ->
  wp (file_Truncate t size) s fs Q.
Proof.
  intros Hf Hs HQ. unfold file_Truncate. apply wp_next_count. intros f fs' Ef. destruct f; cbn [is_fault] in Ef; [|lia..].
  destruct (Z.ltb_spec size 0); [lia|]. apply wp_get. apply (HQ fs'). lia.
Qed.

(** What [appendRaw] does after a write that stopped short. *)
Lemma append_failed_wp t w s pos fs (Q : outcome_of hfs_error unit -> headers -> list fault -> Prop) :
  let data := fl_data (the_file t s) in
  known t -> faults fs = O ->
  (forall e pos fs', faults fs' = O -> Q (Error e) (set_file t (mkFlat data pos) s) fs') ->
  wp (if 0 <? len w then
        truncErr ← attempt (file_Truncate t (len data));
        throw (match truncErr with Some _ => EWriteTruncate | None => EWrite end)
      else throw EWrite) (set_file t (mkFlat (data ++ w) pos) s) fs Q.
Proof.
  intros data Hk Hf HQ. destruct w as [|b w].
  - change (0 <? len []) with false. apply wp_throw. rewrite app_nil_r. by apply HQ.
  - replace (0 <? len (b :: w)) with true by (symmetry; apply Z.ltb_lt; unfold len; rewrite length_cons; lia).
    apply wp_bind, wp_attempt, file_Truncate_wp; [done|unfold len; lia|]. intros fs' Hf'. rewrite the_file_set, set_file_set by done.
    cbn [fl_data fl_pos]. unfold len. rewrite Nat2Z.id, take_app_length, length_app.
    replace (length data - _)%nat with O by lia. rewrite app_nil_r. by apply wp_throw, HQ.
Qed.

Lemma appendRaw_wp t bs s fs (Q : outcome_of hfs_error unit -> headers -> list fault -> Prop) :
  let data := fl_data (the_file t s) in
  known t -> fl_pos (the_file t s) = len data -> (faults fs <= 1)%nat ->
  (forall fs', (faults fs' <= faults fs)%nat -> Q (Val tt) (set_file t (mkFlat (data ++ bs) (len (data ++ bs))) s) fs') ->
  (forall e pos fs', faults fs = 1%nat -> faults fs' = O -> Q (Error e) (set_file t (mkFlat data pos) s) fs') ->
  wp (appendRaw t bs) s fs Q.
Proof.
  intros data Hk Hpos Hf HQ HE. unfold appendRaw, file_Seek_current, file_Write.
  assert (Hid : set_file t (mkFlat data (len data)) s = s).
  { rewrite <- Hpos. unfold data. destruct t; [| |done]; destruct s as [[? ?] [? ?] ?]; done. }
  apply wp_bind, wp_next_count. intros f1 fs1 E1. destruct f1; cbn [is_fault] in E1.
  2,3: apply wp_throw; rewrite <- Hid; apply HE; lia.
  apply wp_get, wp_ret. rewrite Hpos. apply wp_bind, wp_next_count. intros f2 fs2 E2. apply wp_get. fold data.
  destruct f2 as [|n|n]; cbn [is_fault] in E2.
  - apply wp_put, wp_ret, wp_ret. replace (match bs with [] => _ | _ => _ end) with (len (data ++ bs)); [apply HQ; lia|].
    destruct bs; [by rewrite app_nil_r|done].
  - apply wp_put, wp_ret, append_failed_wp; try done; [lia|]. intros. apply HE; lia.
  - apply wp_put, wp_ret, append_failed_wp; try done; [lia|]. intros. apply HE; lia.
Qed.

(** ** Writing block headers *)

Lemma added_Permutation batch batch' ix ix' : batch ≡ₚ batch' -> added batch ix ix' -> added batch' ix ix'.
Proof.
  intros Hp [A1 A2 A3 A4]. split; [done|done|intros e He; apply A3; by rewrite Hp|]. intros h Hh. apply A4.
  intros Hin. apply Hh. by rewrite <- (Permutation_map he_hash Hp).
Qed.

Lemma entries_from_in n hashes e : e ∈ entries_from n hashes -> exists i, hashes !! i = Some (he_hash e) /\ he_height e = Z.of_nat (n + i).
Proof.
  intros (i & Hi)%list_elem_of_lookup. unfold entries_from in Hi. rewrite list_lookup_imap in Hi.
  destruct (hashes !! i) as [h|] eqn:E; [|done]. injection Hi as <-. by exists i.
Qed.

(** The transaction of [addHeaders] on the index of a chain. *)
Lemma addHeaders_index `{Sorter} t key hashes new ix :
  TipKey t = Ok key -> Forall (fun hash => length hash = 32%nat) (hashes ++ new) -> NoDup (hashes ++ new) -> indexes hashes ix -> new <> [] ->
  exists ix', (tipKey ← of_result (TipKey t);
      chainTipHash ← add_entries (sort_Sort headerBatch_Less (entries_from (length hashes) new)) [] (repeat x00 32) 0;
      root_Put tipKey chainTipHash) (Some ix) [] = (Val tt, Some ix', []) /\
    indexes (hashes ++ new) ix' /\ ix_root ix' !! key = list.last new /\
    (forall k, k <> key -> ix_root ix' !! k = ix_root ix !! k).
Proof.
  intros Hk H32 Hn Hix Hne. set (batch := entries_from (length hashes) new).
  pose proof (sort_Sort_perm headerBatch_Less batch) as Hperm. set (sorted := sort_Sort headerBatch_Less batch) in *.
  assert (Hmap : map he_hash sorted ≡ₚ new) by (rewrite (Permutation_map he_hash Hperm); unfold batch; by rewrite map_entries_from).
  pose proof Hn as (_ & _ & Hn2)%list.NoDup_app. pose proof H32 as [_ H32n]%list.Forall_app.
  destruct (add_entries_run sorted [] (repeat x00 32) 0 ix [] (index_ok_prefixes _ (in_ok _ _ Hix))) as (ix1 & E & Ha).
  { by rewrite Hmap. }
  { apply list.Forall_forall. intros e He. rewrite list.Forall_forall in H32n. apply H32n. rewrite <- Hmap. apply list_elem_of_fmap. by exists e. }
  apply (added_Permutation _ _ _ _ Hperm) in Ha. pose proof (tip_key_short _ _ Hk) as Hks.
  destruct (list.last new) as [lst|] eqn:El; [|by apply last_None in El].
  assert (Htip : fst (tip_of sorted (repeat x00 32) 0) = lst).
  { rewrite last_lookup in El. set (e := mkHeaderEntry lst (Z.of_nat (length hashes + pred (length new)))).
    change lst with (he_hash e). apply tip_of_highest; [| |].
    - rewrite Hperm. unfold batch, entries_from. apply list_elem_of_lookup. exists (pred (length new)). by rewrite list_lookup_imap, El.
    - cbn. lia.
    - intros e' He'. rewrite Hperm in He'. destruct (entries_from_in _ _ _ He') as (i & Hi & Eh). pose proof (lookup_lt_Some _ _ _ Hi).
      destruct (decide (i = pred (length new))) as [->|]; [left|right; cbn; lia].
      rewrite El in Hi. injection Hi as Hi. destruct e'. cbn in *. by subst. }
  exists (mkIndex (<[key := lst]> (ix_root ix1)) (ix_subs ix1)). split_and!.
  - rewrite Hk. cbn [of_result]. rewrite (bind_run _ _ (Some ix) [] key (Some ix) [] eq_refl).
    rewrite (bind_run _ _ _ _ _ _ _ E), Htip. done.
  - apply indexes_tip; [done|done|]. by eapply indexes_added.
  - cbn [ix_root]. by rewrite lookup_insert_eq.
  - intros k Hkk. cbn [ix_root]. rewrite lookup_insert_ne by done. by rewrite (ad_root _ _ _ Ha).
Qed.

(** Headers that continue a chain of [n] headers. *)
Definition heights_from (n : nat) (new : list BlockHeaderAt) : Prop :=
  forall i b, new !! i = Some b -> at_height b = Z.of_nat (n + i).

Lemma toIndexEntry_from n new : heights_from n new -> map block_toIndexEntry new = entries_from n (map Hash (map at_header new)).
Proof.
  intros Hh. apply list_eq. intros i. unfold entries_from. rewrite list_lookup_imap, !list_lookup_fmap.
  destruct (new !! i) as [b|] eqn:E; [|done]. cbn. unfold block_toIndexEntry. by rewrite (Hh _ _ E).
Qed.

Definition at_end (s : headers) : Prop := fl_pos (hd_blocks s) = len (fl_data (hd_blocks s)).

(** The buckets of the index were made. *)
Definition ready (s : headers) : Prop := forall ix, hd_index s = Some ix -> ix_root ix !! indexSubBucketsReady <> None.

Record continues (hs : list BlockHeader) (new : list BlockHeaderAt) : Prop := {
  ct_ok : Forall BlockHeader_ok (map at_header new);
  ct_heights : heights_from (length hs) new;
  ct_fresh : NoDup (map Hash (hs ++ map at_header new));
  ct_small : len hs + len new < 2 ^ 32;
}.

Lemma addHeaders_wp `{Sorter} hs new s fs (Q : outcome_of hfs_error unit -> headers -> list fault -> Prop) ix :
  hd_index s = Some ix -> indexes (map Hash hs) ix -> continues hs new -> ix_root ix !! bitcoinTip = Hash <$> list.last hs ->
  (forall ix' fs', indexes (map Hash (hs ++ map at_header new)) ix' -> ix_root ix' !! bitcoinTip = Hash <$> list.last (hs ++ map at_header new) ->
     (forall k, k <> bitcoinTip -> ix_root ix' !! k = ix_root ix !! k) -> (faults fs' <= faults fs)%nat ->
     Q (Val tt) (set_index (Some ix') s) fs') ->
  (forall e fs', faults fs = S (faults fs') -> Q (Error e) s fs') ->
  wp (addHeaders Block (map block_toIndexEntry new)) s fs Q.
Proof.
  intros Hs Hix [C1 C2 C3 C4] Htip HQ HE. rewrite (toIndexEntry_from (length hs)) by done.
  destruct (decide (new = [])) as [->|Hne].
  { change (Q (Val tt) s fs). assert (Es : set_index (Some ix) s = s) by (destruct s; cbn in *; by rewrite Hs).
    rewrite <- Es. apply HQ; rewrite ?app_nil_r; done. }
  assert (Hb : forall A (a b : A), match entries_from (length hs) (map Hash (map at_header new)) with [] => a | _ => b end = b) by by destruct new.
  unfold addHeaders. rewrite Hb. apply wp_next_count. intros f fs1 Ef. destruct f; cbn [is_fault] in Ef; [|apply wp_throw, HE; lia..].
  rewrite map_app in C3. pose proof (all_32 (hs ++ map at_header new)) as H32. rewrite map_app in H32.
  destruct (addHeaders_index Block bitcoinTip (map Hash hs) (map Hash (map at_header new)) ix eq_refl H32 C3 Hix) as (ix' & E & Hix' & Ht & Hk); [by destruct new|].
  unfold wp, in_update. rewrite length_map in E. rewrite Hs, E. apply HQ; [by rewrite map_app| |done|lia].
  rewrite Ht, last_app. change (map Hash (map at_header new)) with (Hash <$> (at_header <$> new)). rewrite fmap_last.
  change (map at_header new) with (at_header <$> new). destruct (list.last (at_header <$> new)) eqn:El; [done|].
  apply last_None, fmap_nil_inv in El. done.
Qed.

Lemma len_headers new : Forall BlockHeader_ok (map at_header new) ->
  len (concat (map (fun h => BlockHeader_Serialize (at_header h)) new)) = 80 * len new /\
  concat (map (fun h => BlockHeader_Serialize (at_header h)) new) = header_file (map at_header new).
Proof.
  intros Hok. assert (E : concat (map (fun h => BlockHeader_Serialize (at_header h)) new) = header_file (map at_header new)) by (unfold file_of; by rewrite map_map).
  split; [|done]. rewrite E, len_header_file by done. unfold len. by rewrite length_map.
Qed.

Lemma block_WriteHeaders_wp `{Sorter} hs new s fs :
  represents hs s -> at_end s -> continues hs new -> (faults fs <= 1)%nat ->
  wp (block_WriteHeaders new) s fs (fun o s' fs' => hd_filters s' = hd_filters s /\ (ready s -> ready s') /\
    match o with
    | Val _ => represents (hs ++ map at_header new) s' /\ at_end s'
    | Error _ => faults fs = 1%nat /\ represents hs s'
    | _ => False
    end).
Proof.
  intros [R1 R2 R3 R4 (ix & Hs & Hix & Htip)] Hend Hc Hf. pose proof Hc as [C1 C2 C3 C4].
  destruct (len_headers new C1) as [Hlen Hser]. unfold block_WriteHeaders.
  assert (Hkeep : forall s', fl_data (hd_blocks s') = header_file hs -> hd_index s' = Some ix -> represents hs s') by (intros s' E1 E2; split; [done..|by exists ix]).
  assert (Hready : forall s', hd_index s' = Some ix -> ready s -> ready s') by (intros s' E2 Hr ix' E; apply Hr; congruence).
  apply wp_bind, appendRaw_wp; [done|exact Hend|done| |]; cbn [the_file].
  2: { intros e pos fs' Ef _. cbn [set_file]. split; [done|]. split; [by apply Hready|]. split; [done|]. by apply Hkeep. }
  intros fs1 Ef1. set (s1 := set_file Block _ s).
  assert (Hs1 : fl_data (hd_blocks s1) = header_file (hs ++ map at_header new)) by (cbn; by rewrite R4, Hser, file_of_app).
  apply wp_bind, wp_attempt, (addHeaders_wp hs new s1 fs1 _ ix); [done..| |].
  - intros ix' fs2 Hix' Ht' Hk Ef2. apply wp_ret. split; [done|]. split.
    { intros Hr ix2 [= <-]. rewrite Hk by done. by apply Hr. }
    split; [|done]. split.
    + by destruct hs.
    + rewrite len_app. unfold len at 2. rewrite length_map. exact C4.
    + by apply list.Forall_app.
    + done.
    + by exists ix'.
  - intros e fs2 Ef2. apply wp_bind, wp_attempt. unfold file_Sync. apply wp_next_count. intros f fs3 Ef3. destruct f; cbn [is_fault] in Ef3; [|lia..].
    apply wp_ret, wp_bind, wp_attempt.
    assert (Hw : wrap_u32 (len new) = len new) by (unfold wrap_u32; apply Z.mod_small; unfold len; unfold len in C4; lia).
    rewrite Hw. unfold truncateHeaders. destruct (Z.eqb_spec (len new) 0) as [E0|E0].
    { apply wp_ret, wp_throw. split; [done|]. split; [by apply Hready|]. split; [lia|]. apply Hkeep; [|done].
      assert (new = []) as -> by (destruct new; [done|unfold len in E0; simpl in E0; lia]). rewrite Hs1. by rewrite app_nil_r. }
    apply wp_bind. unfold file_Size. apply wp_next_count. intros f fs4 Ef4. destruct f; cbn [is_fault] in Ef4; [|lia..].
    apply wp_get, wp_ret. cbn [of_result HeaderType_Size]. apply wp_bind, wp_ret, file_Truncate_wp; [lia| |]; cbn [the_file]; rewrite Hs1, file_of_app, len_app, <- Hser, Hlen; unfold BlockHeaderSize.
    { pose proof (len_nonneg (header_file hs)). lia. }
    intros fs5 Ef5. apply wp_throw. split; [done|]. split; [by apply Hready|]. split; [lia|]. apply Hkeep; [|done].
    cbn [hd_blocks set_file fl_data]. replace (len (header_file hs) + 80 * len new - len new * 80) with (len (header_file hs)) by lia.
    unfold len. rewrite Nat2Z.id, take_app_length, length_app. replace (_ - _)%nat with O by lia. by rewrite app_nil_r.
Qed.
