(* ===== verification/HeaderLaws.v ===== *)
(** * neutrino/headerfs: rolling back, opening, walking

    Removing headers from the end, opening a store after a crash, the locator and
    the check of connectivity, and the filter headers that follow the block
    headers; then the properties of the stores. *)

From Stdlib Require Import ZArith Lia.
From S2P Require Import Prelude WireCommon WireTx ChainHash WireBlock WireMsgs TxSort DbEffects GCS GCSBuilder HeaderFS HeaderStore.

Open Scope Z_scope.

(** ** A chain in its store *)

Lemma represents_lookup hs s i h : represents hs s -> hs !! i = Some h ->
  0 <= Z.of_nat i < 2 ^ 32 /\ BlockHeader_ok h /\
  exists ix, hd_index s = Some ix /\ entry ix (Hash h) = Some (be_put 4 (Z.of_nat i)).
Proof.
  intros [R1 R2 R3 R4 (ix & Hs & Hix & Htip)] Hi. pose proof (lookup_lt_Some _ _ _ Hi). unfold len in R2. split; [lia|].
  rewrite list.Forall_lookup in R3. split; [by eapply R3|]. exists ix. split; [done|]. apply (in_heights _ _ Hix).
  change (map Hash hs) with (Hash <$> hs). by rewrite list_lookup_fmap, Hi.
Qed.

Lemma represents_read hs s i h : represents hs s -> hs !! i = Some h -> block_readHeader (Z.of_nat i) s [] = (Val h, s, []).
Proof. intros [R1 R2 R3 R4 _] Hi. apply (block_readHeader_run hs [] s i h R3); [by rewrite app_nil_r|done]. Qed.

Lemma represents_height hs s i h : represents hs s -> hs !! i = Some h -> heightFromHash (Hash h) s [] = (Val (Z.of_nat i), s, []).
Proof.
  intros HR Hi. destruct (represents_lookup _ _ _ _ HR Hi) as (Hr & _ & ix & Hs & He).
  apply (heightFromHash_run s ix); try done. unfold len. rewrite length_Hash. lia.
Qed.

Lemma represents_unknown hs s hash : represents hs s -> length hash = 32%nat -> hash ∉ map Hash hs ->
  heightFromHash hash s [] = (Error ErrHashNotFound, s, []).
Proof.
  intros [R1 R2 R3 R4 (ix & Hs & Hix & Htip)] Hl Hn. apply (heightFromHash_missing s ix); [done|unfold len; lia|].
  destruct (entry ix hash) eqn:E; [|done]. exfalso. apply Hn, (in_only _ _ Hix); [done|by rewrite E].
Qed.

Lemma represents_chainTipWithTx hs s h : represents hs s -> list.last hs = Some h ->
  exists ix, hd_index s = Some ix /\ forall fs, chainTipWithTx Block (Some ix) fs = (Val (Hash h, len hs - 1), Some ix, fs).
Proof.
  intros HR Hl. pose proof Hl as Hi. rewrite last_lookup in Hi. destruct (represents_lookup _ _ _ _ HR Hi) as (Hr & _ & ix & Hs & He).
  pose proof (lookup_lt_Some _ _ _ Hi).
  destruct HR as [R1 R2 R3 R4 (ix' & Hs' & Hix & Htip)]. rewrite Hs in Hs'. injection Hs' as <-. exists ix. split; [done|]. intros fs.
  replace (Z.of_nat (pred (length hs))) with (len hs - 1) in * by (unfold len; lia).
  apply (chainTipWithTx_run Block bitcoinTip); try done; [by rewrite Htip, Hl|apply length_Hash].
Qed.

Lemma represents_chainTip hs s h : represents hs s -> list.last hs = Some h -> chainTip Block s [] = (Val (Hash h, len hs - 1), s, []).
Proof.
  intros HR Hl. destruct (represents_chainTipWithTx _ _ _ HR Hl) as (ix & Hs & E). unfold chainTip. rewrite View_run.
  apply (in_tx_run _ _ _ _ (Some ix)). by rewrite Hs.
Qed.

Lemma represents_last hs s : represents hs s -> exists h, list.last hs = Some h.
Proof. intros [R1 _ _ _ _]. destruct (list.last hs) eqn:E; [eauto|]. by apply last_None in E. Qed.

Lemma represents_NoDup hs s : represents hs s -> NoDup (map Hash hs).
Proof.
  intros [R1 R2 R3 R4 (ix & Hs & Hix & Htip)]. apply (indexes_NoDup _ ix); [|done]. unfold len in *. rewrite length_map. lia.
Qed.

(** ** Truncating the file *)

Lemma truncateHeaders_run t w size n s :
  known t -> HeaderType_Size t = Ok w -> fl_data (the_file t s) = size -> 0 < n -> n * w <= len size -> 
  truncateHeaders t n s [] = (Val tt, set_file t (mkFlat (take (Z.to_nat (len size - n * w)) size) (fl_pos (the_file t s))) s, []).
Proof.
  intros Hk Hw Hd Hn Hl. unfold truncateHeaders. destruct (Z.eqb_spec n 0); [lia|].
  assert (E : file_Size t s [] = (Val (len size), s, [])) by (unfold file_Size, next_fault, get, mbind, eff_bind, mret, eff_ret; by rewrite Hd).
  rewrite (bind_run _ _ _ _ _ _ _ E), Hw. cbn [of_result].
  rewrite (bind_run _ _ s [] w s [] eq_refl). unfold file_Truncate, next_fault, get, put, mbind, eff_bind, mret, eff_ret.
  destruct (Z.ltb_spec (len size - n * w) 0); [lia|]. rewrite Hd. do 2 f_equal.
  replace (Z.to_nat (len size - n * w) - length size)%nat with O; [by rewrite app_nil_r|].
  assert (0 <= w) by (destruct t; [injection Hw as <-..|done]; unfold BlockHeaderSize, RegularFilterHeaderSize; lia). unfold len in *. nia.
Qed.

Definition cut_blocks (hs : list BlockHeader) (s : headers) : headers := set_file Block (mkFlat (header_file hs) (fl_pos (hd_blocks s))) s.

Lemma truncate_blocks hs rest s :
  Forall BlockHeader_ok (hs ++ rest) -> fl_data (hd_blocks s) = header_file (hs ++ rest) -> rest <> [] ->
  truncateHeaders Block (len rest) s [] = (Val tt, cut_blocks hs s, []).
Proof.
  intros Hok Hd Hr. assert (0 < len rest) by (destruct rest; [done|unfold len; rewrite length_cons; lia]).
  pose proof Hok as [Hok1 Hok2]%list.Forall_app.
  rewrite (truncateHeaders_run Block BlockHeaderSize (header_file (hs ++ rest))) by (done || rewrite len_header_file, len_app by done; unfold BlockHeaderSize; pose proof (len_nonneg hs); lia).
  unfold cut_blocks. do 4 f_equal. rewrite file_of_app, len_app, (len_header_file rest) by done. unfold BlockHeaderSize.
  replace (len (header_file hs) + 80 * len rest - len rest * 80) with (len (header_file hs)) by lia. unfold len. by rewrite Nat2Z.id, take_app_length.
Qed.

(** ** Rolling back *)

Lemma truncateIndices_blocks hs rest ix h fs s :
  indexes (map Hash (hs ++ rest)) ix -> NoDup (map Hash (hs ++ rest)) -> rest <> [] -> list.last hs = Some h -> hd_index s = Some ix ->
  exists ix', truncateIndices Block (Hash h) (map Hash rest) true s fs = (match fs with
      | [] => (Val tt, set_index (Some ix') s, [])
      | Good :: fs => (Val tt, set_index (Some ix') s, fs)
      | _ :: fs => (Error EDatabase, s, fs) end) /\
    indexes (map Hash hs) ix' /\ ix_root ix' !! bitcoinTip = Some (Hash h) /\
    (forall key, length key <> 32%nat -> key <> bitcoinTip -> ix_root ix' !! key = ix_root ix !! key).
Proof.
  intros Hix Hn Hr Hl Hs. rewrite map_app in Hix, Hn. pose proof (all_32 (hs ++ rest)) as H32. rewrite map_app in H32.
  pose proof H32 as [H1 H2]%list.Forall_app.
  destruct (deleteHeaderEntries_run (map Hash rest) ix [] (in_ok _ _ Hix) H2) as (ix1 & E & Ho & K & D1 & D2).
  pose proof (indexes_removed _ _ _ _ H32 Hn Hix Ho D1 D2) as Hix1.
  exists (mkIndex (<[bitcoinTip := Hash h]> (ix_root ix1)) (ix_subs ix1)). split_and!.
  - unfold truncateIndices. assert (Hlen : (len (map Hash rest) =? 0) = false).
    { apply Z.eqb_neq. destruct rest; [done|]. cbn [map]. unfold len. rewrite length_cons. lia. }
    rewrite Hlen. cbn [andb negb]. unfold walletdb_Update.
    assert (Eu : forall fs, in_update (tipKey ← of_result (TipKey Block);
        (if true then deleteHeaderEntries (map Hash rest) else mret tt) ;; root_Put tipKey (Hash h)) s fs =
      (Val tt, set_index (Some (mkIndex (<[bitcoinTip := Hash h]> (ix_root ix1)) (ix_subs ix1))) s, fs)).
    { intros fs'. unfold in_update. rewrite Hs. cbn [TipKey of_result]. rewrite (bind_run _ _ (Some ix) [] bitcoinTip (Some ix) [] eq_refl).
      by rewrite (bind_run _ _ _ _ _ _ _ E). }
    destruct fs as [|[| |] fs]; [apply (Eu [])|apply (Eu fs)|done|done].
  - by apply indexes_tip.
  - cbn [ix_root]. by rewrite lookup_insert_eq.
  - intros key Hk Hk'. cbn [ix_root]. rewrite lookup_insert_ne by done. by apply K.
Qed.

(** The file is cut first, then the index. *)
Lemma Rollback_to_index hs rest s h :
  represents (hs ++ rest) s -> list.last hs = Some h -> rest <> [] -> 80 * (len rest + 1) < 2 ^ 32 ->
  RollbackBlockHeaders (len rest) s [] =
  (truncateIndices Block (Hash h) (map Hash rest) true ;;
   mret (mkBlockStamp (to_signed 32 (len hs - 1)) (Hash h) (Header_Timestamp h))) (cut_blocks hs s) [].
Proof.
  intros HR Hl Hr Hsmall. destruct (represents_last _ _ HR) as (h' & Hl'). pose proof HR as [R1 R2 R3 R4 _].
  assert (Hr0 : 0 < len rest) by (destruct rest; [done|unfold len; rewrite length_cons; lia]).
  assert (Hh0 : 0 < len hs) by (destruct hs; [done|unfold len; rewrite length_cons; lia]).
  unfold RollbackBlockHeaders. destruct (Z.eqb_spec (len rest) 0); [lia|].
  rewrite (bind_run _ _ _ _ _ _ _ (represents_chainTip _ _ _ HR Hl')). cbn beta iota. rewrite len_app.
  destruct (Z.ltb_spec (len hs + len rest - 1) (len rest)); [lia|].
  assert (E : block_readHeaderRange (len hs + len rest - 1 - len rest) (len hs + len rest - 1) s [] = (Val (h :: rest), s, [])).
  { pose proof (block_readHeaderRange_run (hs ++ rest) [] s (pred (length hs)) (pred (length (hs ++ rest))) R3) as E.
    rewrite app_nil_r in E. rewrite length_app in E. unfold len in *.
    specialize (E R4 ltac:(lia) ltac:(lia)).
    replace (Z.of_nat (length hs) + Z.of_nat (length rest) - 1 - Z.of_nat (length rest)) with (Z.of_nat (pred (length hs))) by lia.
    replace (Z.of_nat (length hs) + Z.of_nat (length rest) - 1) with (Z.of_nat (pred (length hs + length rest))) by lia.
    rewrite E. do 3 f_equal. rewrite last_lookup in Hl. rewrite (drop_S (hs ++ rest) h (pred (length hs))) by (by apply lookup_app_l_Some).
    replace (S (pred (length hs))) with (length hs + 0)%nat by lia. rewrite drop_app_add, drop_0. cbn [take]. f_equal. apply take_ge. lia. }
  rewrite (bind_run _ _ _ _ _ _ _ (try_run_val _ _ _ _ _ _ E)). cbn beta iota zeta.
  rewrite (bind_run _ _ _ _ _ _ _ (truncate_blocks hs rest s R3 R4 Hr)).
  by replace (len hs + len rest - 1 - len rest) with (len hs - 1) by lia.
Qed.

Lemma Rollback_run hs rest s h :
  represents (hs ++ rest) s -> list.last hs = Some h -> rest <> [] -> 80 * (len rest + 1) < 2 ^ 32 ->
  exists s', RollbackBlockHeaders (len rest) s [] =
    (Val (mkBlockStamp (to_signed 32 (len hs - 1)) (Hash h) (Header_Timestamp h)), s', []) /\
    represents hs s' /\ hd_filters s' = hd_filters s /\
    (forall ix key, hd_index s = Some ix -> length key <> 32%nat -> key <> bitcoinTip ->
       exists ix', hd_index s' = Some ix' /\ ix_root ix' !! key = ix_root ix !! key).
Proof.
  intros HR Hl Hr Hsmall. rewrite (Rollback_to_index _ _ _ _ HR Hl Hr Hsmall). pose proof (represents_NoDup _ _ HR) as Hn.
  destruct HR as [R1 R2 R3 R4 (ix & Hs & Hix & Htip)].
  destruct (truncateIndices_blocks hs rest ix h [] (cut_blocks hs s) Hix Hn Hr Hl) as (ix' & E & Hix' & Htip' & K); [done|].
  exists (set_index (Some ix') (cut_blocks hs s)). split_and!.
  - by rewrite (bind_run _ _ _ _ _ _ _ E).
  - apply list.Forall_app in R3 as [R3 _]. rewrite len_app in R2. pose proof (len_nonneg rest). split; [by intros ->|lia|done|done|].
    exists ix'. split_and!; [done|done|]. by rewrite Hl.
  - done.
  - intros ix0 key Hs0 H1 H2. rewrite Hs in Hs0. injection Hs0 as <-. exists ix'. split; [done|by apply K].
Qed.

(** ** Opening *)

Definition opened_blocks (s : headers) : headers := set_file Block (mkFlat (fl_data (hd_blocks s)) 0) s.

Lemma indexes_ready hashes ix : indexes hashes ix -> ix_root ix !! indexSubBucketsReady <> None -> ensureIndexSubBuckets (Some ix) [] = (Val tt, Some ix, []).
Proof.
  intros _ Hr. unfold ensureIndexSubBuckets. rewrite (bind_run rootBucket _ (Some ix) [] ix (Some ix) [] eq_refl).
  by destruct (ix_root ix !! indexSubBucketsReady).
Qed.

Lemma newHeaderStore_blocks ix s :
  hd_index s = Some ix -> ix_root ix !! indexSubBucketsReady <> None -> newHeaderStore Block s [] = (Val tt, opened_blocks s, []).
Proof.
  intros Hs Hr. unfold newHeaderStore. rewrite (bind_run (open_file Block) _ s [] tt (opened_blocks s) [] eq_refl).
  unfold newHeaderIndex, walletdb_Update. rewrite (bind_run next_fault _ _ [] Good _ [] eq_refl). unfold in_update.
  change (hd_index (opened_blocks s)) with (hd_index s). rewrite Hs.
  rewrite (bind_run get _ (Some ix) [] (Some ix) (Some ix) [] eq_refl). cbn beta iota. rewrite (bind_run _ _ (Some ix) [] tt (Some ix) [] eq_refl).
  unfold ensureIndexSubBuckets. rewrite (bind_run rootBucket _ (Some ix) [] ix (Some ix) [] eq_refl).
  destruct (ix_root ix !! indexSubBucketsReady); [|done]. cbn. unfold set_index. cbn. by rewrite Hs.
Qed.

(** What opening does to a file of which the index knows the first headers. *)
Lemma open_blocks_run `{Sorter} genesis (hs : list BlockHeader) ix h file_hs junk s :
  hd_index s = Some ix -> ready s -> (forall fs, chainTipWithTx Block (Some ix) fs = (Val (Hash h, len hs - 1), Some ix, fs)) ->
  Forall BlockHeader_ok file_hs -> fl_data (hd_blocks s) = header_file file_hs ++ junk -> (length junk < 80)%nat -> file_hs <> [] -> len file_hs < 2 ^ 32 ->
  NewBlockHeaderStore genesis s [] =
  (if decide (Some (Hash h) = Hash <$> list.last file_hs) then mret tt
   else truncateHeaders Block (wrap_u32 (len file_hs - len hs))) (opened_blocks s) [].
Proof.
  intros Hs Hready Htip Hok Hd Hj Hne Hsmall. unfold NewBlockHeaderStore.
  rewrite (bind_run _ _ _ _ _ _ _ (newHeaderStore_blocks ix s Hs (Hready _ Hs))).
  assert (Hlen : len (fl_data (hd_blocks s)) = 80 * len file_hs + len junk) by (rewrite Hd, len_app, len_header_file by done; lia).
  assert (0 < len file_hs) by (destruct file_hs; [done|unfold len; rewrite length_cons; lia]).
  assert (Hj' : 0 <= len junk < 80) by (unfold len; lia).
  rewrite (bind_run (file_Size Block) _ (opened_blocks s) [] (len (fl_data (hd_blocks s))) (opened_blocks s) [] eq_refl).
  rewrite Hlen. destruct (Z.eqb_spec (80 * len file_hs + len junk) 0); [lia|].
  assert (Et : chainTip Block (opened_blocks s) [] = (Val (Hash h, len hs - 1), opened_blocks s, [])).
  { unfold chainTip. rewrite View_run. apply (in_tx_run _ _ _ _ (Some ix)). change (hd_index (opened_blocks s)) with (hd_index s). by rewrite Hs. }
  rewrite (bind_run _ _ _ _ _ _ _ Et). cbn beta iota zeta.
  assert (Hdiv : (80 * len file_hs + len junk) / 80 = len file_hs) by (symmetry; apply (Z.div_unique _ _ _ (len junk)); lia).
  rewrite Hdiv. unfold wrap_u32. rewrite (Z.mod_small (len file_hs)), (Z.mod_small (len file_hs - 1)) by lia.
  destruct (list.last file_hs) as [fh|] eqn:El; [|by apply last_None in El]. rewrite last_lookup in El.
  assert (Er : block_readHeader (len file_hs - 1) (opened_blocks s) [] = (Val fh, opened_blocks s, [])).
  { replace (len file_hs - 1) with (Z.of_nat (pred (length file_hs))) by (unfold len in *; lia). by apply (block_readHeader_run file_hs junk). }
  rewrite (bind_run _ _ _ _ _ _ _ Er). cbn [fmap option_fmap option_map].
  replace (len file_hs - 1 - (len hs - 1)) with (len file_hs - len hs) by lia.
  destruct (decide (Some (Hash h) = Some (Hash fh))) as [E|E].
  - injection E as E. by rewrite bool_decide_true.
  - rewrite bool_decide_false by congruence. done.
Qed.

(** A file that is ahead of its index, as a crash between writing and indexing
    leaves it. *)
Record ahead (hs extra : list BlockHeader) (s : headers) : Prop := {
  ah_some : hs <> [];
  ah_small : len (hs ++ extra) < 2 ^ 32;
  ah_wf : Forall BlockHeader_ok (hs ++ extra);
  ah_file : fl_data (hd_blocks s) = header_file (hs ++ extra);
  ah_index : exists ix, hd_index s = Some ix /\ indexes (map Hash hs) ix /\ ix_root ix !! bitcoinTip = Hash <$> list.last hs;
  ah_fresh : NoDup (map Hash (hs ++ extra));
}.

Lemma index_chainTip hs ix h : indexes (map Hash hs) ix -> ix_root ix !! bitcoinTip = Hash <$> list.last hs -> list.last hs = Some h -> len hs < 2 ^ 32 ->
  forall fs, chainTipWithTx Block (Some ix) fs = (Val (Hash h, len hs - 1), Some ix, fs).
Proof.
  intros Hix Htip Hl Hsmall fs. rewrite Hl in Htip. rewrite last_lookup in Hl. pose proof (lookup_lt_Some _ _ _ Hl).
  unfold len in *. replace (Z.of_nat (length hs) - 1) with (Z.of_nat (pred (length hs))) by lia.
  apply (chainTipWithTx_run Block bitcoinTip); try done; [apply length_Hash|lia|]. apply (in_heights _ _ Hix).
  change (map Hash hs) with (Hash <$> hs). by rewrite list_lookup_fmap, Hl.
Qed.

Lemma open_recovers_run `{Sorter} genesis hs extra s :
  ahead hs extra s -> ready s -> exists s', NewBlockHeaderStore genesis s [] = (Val tt, s', []) /\ represents hs s'.
Proof.
  intros [A1 A2 A3 A4 (ix & Hs & Hix & Htip) A6] Hready. destruct (list.last hs) as [h|] eqn:El; [|by apply last_None in El].
  assert (Hsmall : len hs < 2 ^ 32) by (rewrite len_app in A2; pose proof (len_nonneg extra); lia).
  rewrite (open_blocks_run genesis hs ix h (hs ++ extra) []); [|done|done| |done|by rewrite app_nil_r|simpl; lia|by destruct hs|done].
  2: { apply index_chainTip; [done|by rewrite El|done|done]. }
  pose proof A3 as [A3l _]%list.Forall_app.
  assert (Hrep : forall pos, represents hs (set_file Block (mkFlat (header_file hs) pos) s)) by (intros pos; split; [done..|exists ix; by rewrite El]).
  destruct extra as [|x extra].
  - rewrite app_nil_r in *. rewrite El, decide_True by done. exists (opened_blocks s). split; [done|].
    unfold opened_blocks. rewrite A4. apply Hrep.
  - rewrite decide_False; [|].
    + rewrite len_app. replace (len hs + len (x :: extra) - len hs) with (len (x :: extra)) by lia.
      unfold wrap_u32. rewrite Z.mod_small by (rewrite len_app in A2; pose proof (len_nonneg hs); pose proof (len_nonneg (x :: extra)); lia).
      exists (cut_blocks hs (opened_blocks s)). split; [by apply truncate_blocks|]. unfold cut_blocks. cbn. apply Hrep.
    + rewrite last_app, last_cons. rewrite map_app in A6. apply list.NoDup_app in A6 as (_ & Hd & _). intros E.
      apply (Hd (Hash h)); [apply list_elem_of_fmap; exists h; split; [done|by apply last_Some_elem_of]|]. apply list_elem_of_fmap.
      destruct (list.last extra) as [y|] eqn:Ey; injection E as E; [exists y|exists x]; (split; [done|]); [right; by apply last_Some_elem_of|left].
Qed.

(** ** A new store *)

Lemma create_prefixes_some n i subs p :
  (exists j, i <= j < i + Z.of_nat n /\ p = be_put 2 j) \/ is_Some (subs !! p) -> is_Some (create_prefixes n i subs !! p).
Proof.
  revert i subs. induction n as [|n IH]; intros i subs Hp.
  { destruct Hp as [(j & ? & _)|]; [lia|done]. }
  cbn [create_prefixes]. apply IH. unfold CreateBucketIfNotExists. destruct Hp as [(j & Hj & ->)|Hp].
  - destruct (decide (j = i)) as [->|]; [right|left; exists j; split; [lia|done]].
    destruct (subs !! be_put 2 i) eqn:E; [by rewrite E|]. by rewrite lookup_insert_eq.
  - right. destruct (subs !! be_put 2 i); [done|]. destruct (decide (p = be_put 2 i)) as [->|]; [by rewrite lookup_insert_eq|by rewrite lookup_insert_ne].
Qed.

Lemma create_prefixes_empty n i subs : (forall p sub, subs !! p = Some sub -> sub = ∅) ->
  forall p sub, create_prefixes n i subs !! p = Some sub -> sub = ∅.
Proof.
  revert i subs. induction n as [|n IH]; intros i subs Hs p sub; [apply Hs|]. cbn [create_prefixes]. apply IH.
  intros q sub'. unfold CreateBucketIfNotExists. destruct (subs !! be_put 2 i); [apply Hs|].
  destruct (decide (q = be_put 2 i)) as [->|]; [rewrite lookup_insert_eq; by intros [= <-]|rewrite lookup_insert_ne by done; apply Hs].
Qed.

#[local] Opaque create_prefixes.
Definition new_index : index_db := mkIndex {[indexSubBucketsReady := [x01]]} (create_prefixes (Z.to_nat 0x10000) 0 ∅).

Lemma new_index_indexes : indexes [] new_index.
Proof.
  assert (He : forall hash, sub_entry new_index hash = None).
  { intros hash. unfold sub_entry, new_index. cbn [ix_subs]. destruct (create_prefixes _ _ _ !! _) as [sub|] eqn:E; [|done].
    apply create_prefixes_empty in E as ->; [done|]. by intros p sub'; rewrite lookup_empty. }
  assert (Hr : forall hash, length hash = 32%nat -> ix_root new_index !! hash = None).
  { intros hash Hl. cbn [new_index ix_root]. apply lookup_singleton_ne. intros <-. done. }
  split; [split| |].
  - intros p Hp. apply create_prefixes_some. left. exists (be_get p). pose proof (be_get_range p) as Hg. rewrite Hp in Hg.
    split; [rewrite Z2Nat.id by lia; change (256 ^ Z.of_nat 2) with 0x10000 in Hg; lia|].
    pose proof (be_put_get p) as Ep. by rewrite Hp in Ep.
  - intros hash v Hl Hv. rewrite (Hr hash Hl) in Hv. discriminate Hv.
  - intros i hash Hi. rewrite lookup_nil in Hi. discriminate Hi.
  - intros hash Hl. unfold entry. rewrite He, (Hr hash Hl). intros [x Hx]. discriminate Hx.
Qed.

Lemma newHeaderStore_new s : hd_index s = None -> newHeaderStore Block s [] = (Val tt, set_index (Some new_index) (opened_blocks s), []).
Proof.
  intros Hs. unfold newHeaderStore. rewrite (bind_run (open_file Block) _ s [] tt (opened_blocks s) [] eq_refl).
  unfold newHeaderIndex, walletdb_Update. rewrite (bind_run next_fault _ _ [] Good _ [] eq_refl). unfold in_update.
  change (hd_index (opened_blocks s)) with (hd_index s). rewrite Hs.
  rewrite (bind_run get _ None [] None None [] eq_refl). cbn beta iota. rewrite (bind_run _ _ None [] tt (Some (mkIndex ∅ ∅)) [] eq_refl).
  unfold ensureIndexSubBuckets. rewrite (bind_run rootBucket _ (Some (mkIndex ∅ ∅)) [] (mkIndex ∅ ∅) (Some (mkIndex ∅ ∅)) [] eq_refl).
  cbn [ix_root ix_subs]. rewrite lookup_empty.
  rewrite (bind_run (put _) _ (Some (mkIndex ∅ ∅)) [] tt (Some (mkIndex ∅ (create_prefixes (Z.to_nat 0x10000) 0 ∅))) [] eq_refl). reflexivity.
Qed.

Lemma open_new_run `{Sorter} genesis s :
  hd_index s = None -> fl_data (hd_blocks s) = [] -> BlockHeader_ok genesis ->
  exists s', NewBlockHeaderStore genesis s [] = (Val tt, s', []) /\ represents [genesis] s' /\ at_end s' /\ ready s'.
Proof.
  intros Hs Hd Hg. unfold NewBlockHeaderStore. rewrite (bind_run _ _ _ _ _ _ _ (newHeaderStore_new s Hs)).
  set (s1 := set_index _ _). assert (Hd1 : fl_data (hd_blocks s1) = []) by (cbn; done).
  rewrite (bind_run (file_Size Block) _ s1 [] (len (fl_data (hd_blocks s1))) s1 [] eq_refl). rewrite Hd1. cbn beta iota.
  change (len [] =? 0) with true. cbn iota. unfold block_WriteHeaders.
  assert (Hser : concat (map (fun h => BlockHeader_Serialize (at_header h)) [mkBlockHeaderAt genesis 0]) = header_file [genesis]) by done.
  rewrite Hser. pose proof (length_Serialize genesis Hg) as Hl80.
  assert (Hl : len (header_file [genesis]) = 80) by (unfold file_of; cbn [map concat]; rewrite app_nil_r; unfold len; lia).
  set (s2 := set_file Block (mkFlat (header_file [genesis]) 80) s1).
  assert (Ea : appendRaw Block (header_file [genesis]) s1 [] = (Val tt, s2, [])).
  { unfold appendRaw, file_Seek_current, file_Write. unfold next_fault, get, put, mbind, eff_bind, mret, eff_ret.
    cbn [the_file]. rewrite Hd1. cbn [app]. unfold s2. destruct (header_file [genesis]) eqn:E; [unfold len in Hl; simpl in Hl; lia|]. by rewrite Hl. }
  rewrite (bind_run _ _ _ _ _ _ _ Ea).
  destruct (addHeaders_index Block bitcoinTip [] [Hash genesis] new_index eq_refl) as (ix & E & Hix & Ht & Hk);
    [repeat constructor; apply length_Hash|apply NoDup_singleton|apply new_index_indexes|done|].
  assert (Eh : attempt (addHeaders Block (map block_toIndexEntry [mkBlockHeaderAt genesis 0])) s2 [] = (Val None, set_index (Some ix) s2, [])).
  { unfold addHeaders, walletdb_Update, attempt. cbn [map block_toIndexEntry at_header at_height].
    rewrite (bind_run next_fault _ s2 [] Good s2 [] eq_refl). unfold in_update. change (hd_index s2) with (Some new_index).
    change (entries_from (length []) [Hash genesis]) with [block_toIndexEntry (mkBlockHeaderAt genesis 0)] in E. by rewrite E. }
  rewrite (bind_run _ _ _ _ _ _ _ Eh). exists (set_index (Some ix) s2). split; [done|]. split_and!.
  - split; [discriminate|reflexivity|apply list.Forall_cons; split; [exact Hg|constructor]|reflexivity|]. exists ix. split; [reflexivity|]. split; [exact Hix|exact Ht].
  - symmetry. exact Hl.
  - intros ix' [= <-]. rewrite Hk by done. done.
Qed.

(** ** Connectivity *)

(** Each header from height 2 up to a height names the one before it. *)
Definition linked_upto (hs : list BlockHeader) (i : nat) : Prop :=
  forall j a b, (1 <= j <= i)%nat -> hs !! j = Some a -> hs !! S j = Some b -> Header_PrevBlock b = Hash a.

Lemma in_tx_height hs s i h fs : represents hs s -> hs !! i = Some h ->
  in_tx (heightFromHashWithTx (Hash h)) s fs = (Val (Z.of_nat i), s, fs).
Proof.
  intros HR Hi. destruct (represents_lookup _ _ _ _ HR Hi) as (Hr & _ & ix & Hs & He).
  apply (in_tx_run _ _ _ _ (Some ix)). rewrite Hs. apply getHeaderEntry_found; [unfold len; rewrite length_Hash; lia|done|done].
Qed.

Lemma connectivity_loop_run hs s fuel i b :
  represents hs s -> hs !! S i = Some b -> (i < fuel)%nat ->
  (connectivity_loop fuel (Z.of_nat i) b s [] = (Val tt, s, []) /\ linked_upto hs i) \/
  (connectivity_loop fuel (Z.of_nat i) b s [] = (Error ENotConnected, s, []) /\ ~ linked_upto hs i).
Proof.
  intros HR. revert i b. induction fuel as [|fuel IH]; intros i b Hb Hf; [lia|]. cbn [connectivity_loop].
  destruct (Z.leb_spec (Z.of_nat i) 0) as [H0|H0]; [left; split; [done|]; intros j; lia|].
  destruct (hs !! i) as [a|] eqn:Ha; [|apply lookup_ge_None in Ha; apply lookup_lt_Some in Hb; lia].
  rewrite (bind_run _ _ _ _ _ _ _ (try_run_val _ _ _ _ _ _ (represents_read _ _ _ _ HR Ha))). cbn beta iota zeta.
  rewrite (bind_run _ _ _ _ _ _ _ (try_run_val _ _ _ _ _ _ (in_tx_height _ _ _ _ [] HR Ha))). cbn beta iota.
  rewrite Z.eqb_refl. cbn [negb].
  destruct (represents_lookup _ _ _ _ HR Ha) as (Hsmall & _).
  destruct (decide (Hash a = Header_PrevBlock b)) as [E|E].
  - rewrite bool_decide_true by done. cbn [negb]. destruct i as [|i]; [lia|].
    replace (wrap_u32 (Z.of_nat (S i) - 1)) with (Z.of_nat i) by (unfold wrap_u32; rewrite Z.mod_small; lia).
    destruct (IH i a Ha ltac:(lia)) as [[-> Hl]|[-> Hl]]; [left|right]; (split; [done|]).
    + intros j x y Hj Hx Hy. destruct (decide (j = S i)) as [->|]; [congruence|]. apply (Hl j); [lia|done|done].
    + intros Hl'. apply Hl. intros j x y Hj. apply Hl'. lia.
  - rewrite bool_decide_false by done. right. split; [done|]. intros Hl. apply E. symmetry. by apply (Hl i); [lia|..].
Qed.

Lemma length_header_file hs : Forall BlockHeader_ok hs -> (length hs <= length (header_file hs))%nat.
Proof. intros H. rewrite (length_file_of 80 _ _ (all_80 _ H)). lia. Qed.

(** ** Locators *)

(** Heights that go down from one to the genesis block. *)
Fixpoint descends (height : Z) (l : list Z) : Prop :=
  match l with
  | [] => height = 0
  | h :: l => 0 <= h < height /\ descends h l
  end.

Definition hash_at (hs : list BlockHeader) (height : Z) (hash : bytes) : Prop := exists h, hs !! Z.to_nat height = Some h /\ hash = Hash h.

(** With [n] hashes so far, the step and what is left; the steps taken so far are
    what the height has come down, so that the step cannot overflow. *)
Definition locator_inv (n decrement height : Z) : Prop :=
  (n <= 11 -> decrement = 1 /\ height + n <= 2 ^ 32) /\ (11 <= n -> decrement = 2 ^ (n - 11) /\ height + 8 + 2 * decrement < 2 ^ 32).

Lemma locator_inv_step n d h : 1 <= n -> 0 < h -> locator_inv n d h ->
  n <= 42 /\ let d' := if 10 <? n then wrap_u32 (d * 2) else d in
  0 < d' /\ (d' <= h -> locator_inv (n + 1) d' (h - d')).
Proof.
  intros Hn Hh [I1 I2]. cbv zeta. destruct (Z.ltb_spec 10 n) as [Hlt|Hge].
  - destruct (I2 ltac:(lia)) as [Ed Hb]. assert (Hp : 0 < 2 ^ (n - 11)) by (apply Z.pow_pos_nonneg; lia).
    assert (Hn42 : n <= 42).
    { destruct (Z_le_gt_dec n 42); [done|]. assert (2 ^ 32 <= 2 ^ (n - 11)) by (apply Z.pow_le_mono_r; lia). lia. }
    split; [done|]. unfold wrap_u32. rewrite Z.mod_small by lia. split; [lia|]. intros Hd. split; intros; [lia|].
    replace (n + 1 - 11) with (Z.succ (n - 11)) by lia. rewrite Z.pow_succ_r by lia. lia.
  - destruct (I1 ltac:(lia)) as [-> Hb]. split; [lia|]. split; [lia|]. intros Hd. split; intros; [lia|].
    assert (n = 10) as -> by lia. change (2 ^ (10 + 1 - 11)) with 1. lia.
Qed.

Lemma locator_loop_run hs s fuel n h d locator :
  represents hs s -> (1 <= n <= 43)%nat -> (43 - n <= fuel)%nat -> len locator = Z.of_nat n -> 0 <= h < len hs -> locator_inv (Z.of_nat n) d h ->
  exists l hashes, locator_loop fuel h d locator s [] = (Val (locator ++ hashes, None), s, []) /\
    descends h l /\ Forall2 (hash_at hs) l hashes /\ (n + length l <= 43)%nat.
Proof.
  intros HR. revert n h d locator. induction fuel as [|fuel IH]; intros n h d locator Hn Hf Hl Hh Hi; cbn [locator_loop]; rewrite Hl.
  all: destruct (Z.ltb_spec 0 h) as [H0|H0]; cbn [andb negb];
    [|exists [], []; rewrite app_nil_r; split_and!; [done|cbn; lia|constructor|simpl; lia]].
  all: destruct (locator_inv_step (Z.of_nat n) d h ltac:(lia) H0 Hi) as (H42 & Hd & Hi'); cbv zeta in *.
  { lia. }
  replace (Z.of_nat n <? MaxBlockLocatorsPerMsg) with true by (symmetry; apply Z.ltb_lt; unfold MaxBlockLocatorsPerMsg; lia). cbn [andb negb].
  set (d' := if 10 <? Z.of_nat n then wrap_u32 (d * 2) else d) in *. set (h' := if h <? d' then 0 else h - d').
  assert (Hh' : 0 <= h' < h) by (unfold h'; destruct (Z.ltb_spec h d'); lia).
  destruct (lookup_lt_is_Some_2 hs (Z.to_nat h')) as [x Hx]; [unfold len in Hh; lia|].
  pose proof (represents_read _ _ _ _ HR Hx) as Er. rewrite Z2Nat.id in Er by lia.
  rewrite (bind_run _ _ _ _ _ _ _ (try_run_val _ _ _ _ _ _ Er)). cbn beta iota.
  assert (Hl' : len (locator ++ [Hash x]) = Z.of_nat (S n)) by (rewrite len_app, Hl; change (len [Hash x]) with 1; lia).
  assert (Hadd : forall l hashes, descends h' l -> Forall2 (hash_at hs) l hashes ->
    descends h (h' :: l) /\ Forall2 (hash_at hs) (h' :: l) (Hash x :: hashes)).
  { intros l hashes D F. split; [by split; [lia|]|]. constructor; [|done]. by exists x. }
  assert (Eh : h' = if h <? d' then 0 else h - d') by done. clearbody h'. destruct (Z.ltb_spec h d') as [Hlt|Hge]; subst h'.
  - exists [0], [Hash x]. destruct (Hadd [] []) as [D F]; [done|constructor|]. split_and!; [|done|done|simpl; lia].
    destruct fuel; cbn [locator_loop]; done.
  - destruct (IH (S n) (h - d') d' (locator ++ [Hash x]) ltac:(lia) ltac:(lia) Hl' ltac:(lia)) as (l & hashes & E & D & F & B).
    { rewrite Nat2Z.inj_succ. by apply Hi'. }
    exists (h - d' :: l), (Hash x :: hashes). destruct (Hadd l hashes D F) as [D' F']. split_and!; [|done|done|simpl; lia].
    by rewrite E, <- app_assoc.
Qed.

(** ** Filter headers *)

(** The filter headers of the first blocks of a chain, with their tip. *)
Record filters_of (hs : list BlockHeader) (fhs : list bytes) (s : headers) : Prop := {
  fo_some : fhs <> [];
  fo_len : (length fhs <= length hs)%nat;
  fo_wf : Forall (fun f => length f = 32%nat) fhs;
  fo_file : fl_data (hd_filters s) = concat fhs;
  fo_tip : exists ix, hd_index s = Some ix /\ ix_root ix !! regFilterTip = Hash <$> (hs !! pred (length fhs));
}.

Lemma concat_file_of fhs : concat fhs = file_of id fhs.
Proof. unfold file_of. by rewrite map_id. Qed.

Lemma filters_read hs fhs s i f : filters_of hs fhs s -> fhs !! i = Some f -> filter_readHeader RegularFilter (Z.of_nat i) s [] = (Val f, s, []).
Proof.
  intros [F1 F2 F3 F4 _] Hi. unfold filter_readHeader.
  pose proof (read_record id 32 RegularFilter fhs [] s i f F3 ltac:(cbn [the_file]; by rewrite F4, concat_file_of, app_nil_r) Hi) as E.
  replace (Z.of_nat (i * 32)) with (Z.of_nat i * 32) in E by lia.
  rewrite (bind_run _ _ _ _ _ _ _ (readRaw_run RegularFilter RegularFilterHeaderSize _ _ s eq_refl E)).
  rewrite list.Forall_lookup in F3. unfold id, NewHash, Hash_SetBytes, len. by rewrite (F3 _ _ Hi).
Qed.

Lemma filters_tip hs fhs s : represents hs s -> filters_of hs fhs s ->
  exists h, hs !! pred (length fhs) = Some h /\ chainTip RegularFilter s [] = (Val (Hash h, len fhs - 1), s, []).
Proof.
  intros HR [F1 F2 F3 F4 (ix & Hs & Ht)]. assert (0 < length fhs)%nat by (destruct fhs; [done|simpl; lia]).
  destruct (lookup_lt_is_Some_2 hs (pred (length fhs))) as [h Hh]; [lia|]. exists h. split; [done|].
  destruct (represents_lookup _ _ _ _ HR Hh) as (Hr & _ & ix' & Hs' & He). rewrite Hs in Hs'. injection Hs' as <-.
  replace (Z.of_nat (pred (length fhs))) with (len fhs - 1) in * by (unfold len; lia).
  apply (chainTip_run RegularFilter regFilterTip s ix); try done; [by rewrite Ht, Hh|apply length_Hash].
Qed.

(** Headers for the blocks that come next. *)
Definition filters_next (hs : list BlockHeader) (n : nat) (new : list FilterHeader) : Prop :=
  forall i f, new !! i = Some f -> length (fh_FilterHash f) = 32%nat /\ exists h, hs !! (n + i)%nat = Some h /\ fh_HeaderHash f = Hash h.

Lemma truncateIndices_tip t key newTip s fs ix (Q : outcome_of hfs_error unit -> headers -> list fault -> Prop) :
  TipKey t = Ok key -> hd_index s = Some ix ->
  (forall fs', (faults fs' <= faults fs)%nat -> Q (Val tt) (set_index (Some (mkIndex (<[key := newTip]> (ix_root ix)) (ix_subs ix))) s) fs') ->
  (forall e fs', faults fs = S (faults fs') -> Q (Error e) s fs') ->
  wp (truncateIndices t newTip [] false) s fs Q.
Proof.
  intros Hk Hs HQ HE. unfold truncateIndices. change (len [] =? 0) with true. cbn [andb negb].
  apply wp_next_count. intros f fs1 Ef. destruct f; cbn [is_fault] in Ef; [|apply wp_throw, HE; lia..].
  unfold wp, in_update. rewrite Hk, Hs. apply HQ. lia.
Qed.

Lemma represents_other hs s s' ix ix' : represents hs s -> hd_blocks s' = hd_blocks s -> hd_index s = Some ix -> hd_index s' = Some ix' ->
  ix_subs ix' = ix_subs ix -> (forall k, k <> regFilterTip -> ix_root ix' !! k = ix_root ix !! k) -> represents hs s'.
Proof.
  intros [R1 R2 R3 R4 (ix0 & Hs & [[Hp Ho] Hh Honly] & Htip)] Hb Hs1 Hs' Es Er. rewrite Hs in Hs1. injection Hs1 as ->.
  assert (Hr32 : forall h, length h = 32%nat -> ix_root ix' !! h = ix_root ix !! h) by (intros h Hl; apply Er; by intros ->).
  assert (Hse : forall h, sub_entry ix' h = sub_entry ix h) by (intros h; unfold sub_entry; by rewrite Es).
  assert (He : forall h, length h = 32%nat -> entry ix' h = entry ix h) by (intros h Hl; unfold entry; by rewrite Hse, Hr32).
  split; [done..|by rewrite Hb|]. exists ix'. split; [done|]. split; [split|].
  - split; [by rewrite Es|]. intros h v Hl. rewrite Hr32, Hse by done. by apply Ho.
  - intros i h Hi. rewrite He; [by apply Hh|]. change (map Hash hs) with (Hash <$> hs) in Hi. rewrite list_lookup_fmap in Hi.
    destruct (hs !! i); [|done]. injection Hi as <-. apply length_Hash.
  - intros h Hl. rewrite He by done. by apply Honly.
  - rewrite Er; done.
Qed.

Lemma filter_WriteHeaders_wp hs fhs new s fs :
  represents hs s -> filters_of hs fhs s -> fl_pos (hd_filters s) = len (fl_data (hd_filters s)) -> filters_next hs (length fhs) new ->
  (faults fs <= 1)%nat -> len hs < 2 ^ 32 ->
  wp (filter_WriteHeaders RegularFilter new) s fs (fun o s' fs' => represents hs s' /\
    match o with
    | Val _ => filters_of hs (fhs ++ map fh_FilterHash new) s'
    | Error _ => faults fs = 1%nat /\ filters_of hs fhs s'
    | _ => False
    end).
Proof.
  intros HR HF Hpos Hnext Hf Hsmall. pose proof HF as [F1 F2 F3 F4 (ix & Hs & Ht)]. unfold filter_WriteHeaders.
  destruct (list.last new) as [lst|] eqn:El; [|apply last_None in El as ->; apply wp_ret; by rewrite app_nil_r].
  rewrite last_lookup in El. destruct (Hnext _ _ El) as (Hl32 & h & Hh & Ehash). pose proof (lookup_lt_Some _ _ _ El) as Hlt.
  pose proof (lookup_lt_Some _ _ _ Hh) as Hlt'.
  assert (Hkeep : forall s', fl_data (hd_filters s') = concat fhs -> hd_blocks s' = hd_blocks s -> hd_index s' = Some ix -> represents hs s' /\ filters_of hs fhs s').
  { intros s' E1 E2 E3. split; [by apply (represents_other hs s s' ix ix)|]. split; [done..|by exists ix]. }
  assert (H32n : Forall (fun f => length f = 32%nat) (map fh_FilterHash new)).
  { apply list.Forall_forall. intros x (f & -> & (i & Hi)%list_elem_of_lookup)%list_elem_of_fmap. by apply (Hnext i f). }
  apply wp_bind, appendRaw_wp; [done|exact Hpos|done| |]; cbn [the_file].
  2: { intros e pos fs' Ef _. destruct (Hkeep (set_file RegularFilter (mkFlat (fl_data (hd_filters s)) pos) s)) as [K1 K2]; [exact F4|reflexivity|exact Hs|]. by split; [|split]. }
  intros fs1 Ef1. set (s1 := set_file RegularFilter _ s).
  assert (Hs1 : fl_data (hd_filters s1) = concat (fhs ++ map fh_FilterHash new)) by (cbn; by rewrite F4, concat_app).
  apply wp_bind, wp_attempt, (truncateIndices_tip RegularFilter regFilterTip _ s1 fs1 ix); [done..| |].
  - intros fs2 Ef2. apply wp_ret. split.
    + apply (represents_other hs s _ ix (mkIndex (<[regFilterTip := fh_HeaderHash lst]> (ix_root ix)) (ix_subs ix))); try done.
      intros k Hk. cbn [ix_root]. by rewrite lookup_insert_ne.
    + split; [by destruct fhs|rewrite length_app, length_map; lia|by apply list.Forall_app|done|].
      eexists. split; [done|]. cbn [ix_root]. rewrite lookup_insert_eq, length_app, length_map.
      replace (pred (length fhs + length new)) with (length fhs + pred (length new))%nat by lia. rewrite Hh. change (Some (fh_HeaderHash lst) = Some (Hash h)). by rewrite Ehash.
  - intros e fs2 Ef2. apply wp_bind, wp_attempt. unfold file_Sync. apply wp_next_count. intros f fs3 Ef3. destruct f; cbn [is_fault] in Ef3; [|lia..].
    apply wp_ret, wp_bind, wp_attempt.
    assert (Hw : wrap_u32 (len new) = len new) by (unfold wrap_u32; apply Z.mod_small; unfold len in *; lia).
    rewrite Hw. unfold truncateHeaders. destruct (Z.eqb_spec (len new) 0) as [E0|E0]; [unfold len in E0; lia|].
    apply wp_bind. unfold file_Size. apply wp_next_count. intros f fs4 Ef4. destruct f; cbn [is_fault] in Ef4; [|lia..].
    apply wp_get, wp_ret. cbn [of_result HeaderType_Size]. apply wp_bind, wp_ret.
    assert (Hlen : len (concat (map fh_FilterHash new)) = 32 * len new).
    { rewrite concat_file_of. unfold len. rewrite (length_file_of 32 id _ H32n), length_map. lia. }
    apply file_Truncate_wp; [lia| |]; cbn [the_file]; rewrite Hs1, concat_app, len_app, Hlen; unfold RegularFilterHeaderSize.
    { pose proof (len_nonneg (concat fhs)). lia. }
    intros fs5 Ef5. apply wp_throw. destruct (Hkeep (set_file RegularFilter (mkFlat (concat fhs) (fl_pos (hd_filters s1))) s1)) as [K1 K2]; [reflexivity|reflexivity|exact Hs|].
    replace (len (concat fhs) + 32 * len new - len new * 32) with (len (concat fhs)) by lia.
    unfold len. rewrite Nat2Z.id, take_app_length, length_app. replace (_ - _)%nat with O by lia. rewrite app_nil_r. split; [exact K1|split; [lia|exact K2]].
Qed.
