(* ===== verification/HeaderClaims.v ===== *)
(** * neutrino/headerfs: the properties of the header stores

    Reads, writes with a fault, rollbacks, recovery after a crash and what it does
    not recover from, the check of connectivity, locators, and filter headers. *)

From Stdlib Require Import ZArith Lia.
From S2P Require Import Prelude WireCommon WireTx ChainHash WireBlock WireMsgs TxSort DbEffects GCS GCSBuilder HeaderFS HeaderStore HeaderLaws.

Open Scope Z_scope.

Lemma short_append t bs n s :
  known t -> fl_pos (the_file t s) = 0 -> bs <> [] -> (0 < n)%nat ->
  appendRaw t bs s [Good; Bad n] = (Error EWrite, set_file t (mkFlat [] (len (fl_data (the_file t s) ++ take n bs))) s, []).
Proof.
  intros Hk Hp Hbs Hn. unfold appendRaw, file_Seek_current, file_Write.
  rewrite (bind_run _ _ s [Good; Bad n] 0 s [Bad n]) by (unfold next_fault, get, mbind, eff_bind, mret, eff_ret; by rewrite Hp).
  destruct bs as [|b bs]; [done|]. destruct n as [|n]; [lia|]. cbn [take].
  set (s1 := set_file t (mkFlat (fl_data (the_file t s) ++ b :: take n bs) (len (fl_data (the_file t s) ++ b :: take n bs))) s).
  rewrite (bind_run _ _ s [Bad (S n)] (len (b :: take n bs), Some EFile) s1 []) by done. cbn beta iota.
  replace (0 <? len (b :: take n bs)) with true by (symmetry; apply Z.ltb_lt; unfold len; rewrite length_cons; lia).
  unfold attempt, file_Truncate, next_fault, get, put, throw, mbind, eff_bind, mret, eff_ret.
  change (0 <? 0) with false. cbn iota. change (Z.to_nat 0) with O. cbn [take Nat.sub repeat app].
  unfold s1. rewrite set_file_set, the_file_set by done. done.
Qed.

(** a store answers what its chain holds: a header by its hash or its height,
    the headers before it, the tip; a hash that is not of the chain is not found,
    and a height past its end neither. *)
Theorem store_reads hs s :
  represents hs s ->
  (forall i h, hs !! i = Some h ->
     FetchHeader (Hash h) s [] = (Val (h, Z.of_nat i), s, []) /\
     FetchHeaderByHeight (Z.of_nat i) s [] = (Val h, s, []) /\
     forall n, (n <= i)%nat -> 80 * (Z.of_nat n + 1) < 2 ^ 32 ->
       FetchHeaderAncestors (Z.of_nat n) (Hash h) s [] = (Val (take (S n) (drop (i - n) hs), Z.of_nat (i - n)), s, [])) /\
  (forall h, list.last hs = Some h -> block_ChainTip s [] = (Val (h, len hs - 1), s, [])) /\
  (forall hash, length hash = 32%nat -> hash ∉ map Hash hs -> FetchHeader hash s [] = (Error ErrHashNotFound, s, [])) /\
  (forall i, len hs <= i -> FetchHeaderByHeight i s [] = (Error ErrHeaderNotFound, s, [])).
Proof.
  intros HR. split_and!.
  - intros i h Hi. pose proof (represents_height _ _ _ _ HR Hi) as Eh. pose proof (represents_read _ _ _ _ HR Hi) as Er. split_and!.
    + unfold FetchHeader. rewrite (bind_run _ _ _ _ _ _ _ Eh), (bind_run _ _ _ _ _ _ _ Er). done.
    + exact Er.
    + intros n Hn Hsmall. unfold FetchHeaderAncestors. rewrite (bind_run _ _ _ _ _ _ _ Eh). cbn beta zeta.
      destruct (represents_lookup _ _ _ _ HR Hi) as (Hi32 & _). unfold wrap_u32. rewrite Z.mod_small by lia.
      replace (Z.of_nat i - Z.of_nat n) with (Z.of_nat (i - n)) by lia. destruct HR as [R1 R2 R3 R4 _].
      pose proof (lookup_lt_Some _ _ _ Hi).
      pose proof (block_readHeaderRange_run hs [] s (i - n) i R3 ltac:(by rewrite app_nil_r) ltac:(lia) ltac:(lia)) as E.
      rewrite (bind_run _ _ _ _ _ _ _ E). by replace (i - (i - n))%nat with n by lia.
  - intros h Hl. unfold block_ChainTip. rewrite (bind_run _ _ _ _ _ _ _ (try_run_val _ _ _ _ _ _ (represents_chainTip _ _ _ HR Hl))). cbn beta iota.
    rewrite last_lookup in Hl. pose proof (lookup_lt_Some _ _ _ Hl). pose proof (represents_read _ _ _ _ HR Hl) as Er.
    replace (Z.of_nat (pred (length hs))) with (len hs - 1) in Er by (unfold len; lia).
    by rewrite (bind_run _ _ _ _ _ _ _ (try_run_val _ _ _ _ _ _ Er)).
  - intros hash Hl Hn. unfold FetchHeader. apply bind_run_err. by eapply represents_unknown.
  - intros i Hi. apply block_readHeader_past. destruct HR as [R1 R2 R3 R4 _]. rewrite R4, len_header_file by done. lia.
Qed.


(** C25: rolling back removes the last headers from file and index and answers the
    new tip, with its height and time. *)
Theorem Rollback_correct hs rest s h :
  represents (hs ++ rest) s -> list.last hs = Some h -> rest <> [] -> 80 * (len rest + 1) < 2 ^ 32 ->
  exists s', RollbackBlockHeaders (len rest) s [] =
    (Val (mkBlockStamp (to_signed 32 (len hs - 1)) (Hash h) (Header_Timestamp h)), s', []) /\
    represents hs s' /\ hd_filters s' = hd_filters s.
Proof. intros HR Hl Hr Hs. destruct (Rollback_run hs rest s h HR Hl Hr Hs) as (s' & E & Hrep & Hf & _). by exists s'. Qed.

(** C29: a store that is opened with an empty file holds the genesis block, and one
    whose file is ahead of its index, by headers that were written but not indexed
    before a crash, is cut back to its index. *)
Theorem NewBlockHeaderStore_recovers `{Sorter} genesis s :
  (hd_index s = None -> fl_data (hd_blocks s) = [] -> BlockHeader_ok genesis ->
   exists s', NewBlockHeaderStore genesis s [] = (Val tt, s', []) /\ represents [genesis] s') /\
  (forall hs extra, ahead hs extra s -> ready s ->
   exists s', NewBlockHeaderStore genesis s [] = (Val tt, s', []) /\ represents hs s').
Proof.
  split; [|intros; by eapply open_recovers_run].
  intros Hs Hd Hg. destruct (open_new_run genesis s Hs Hd Hg) as (s' & E & HR & _). by exists s'.
Qed.

(** a rollback cuts the file and then the index; after a crash in between, the
    index is ahead of the file, the difference of the heights wraps around, and the
    store cannot be opened any more. *)
Theorem rollback_crash_locks `{Sorter} genesis hs rest s h :
  represents (hs ++ rest) s -> ready s -> list.last hs = Some h -> rest <> [] -> 80 * (len rest + 1) < 2 ^ 32 ->
  let crashed := cut_blocks hs s in
  RollbackBlockHeaders (len rest) s [] =
    (truncateIndices Block (Hash h) (map Hash rest) true ;;
     mret (mkBlockStamp (to_signed 32 (len hs - 1)) (Hash h) (Header_Timestamp h))) crashed [] /\
  exists s', NewBlockHeaderStore genesis crashed [] = (Error EFile, s', []).
Proof.
  intros HR Hready Hl Hr Hsmall. cbv zeta. split; [by apply Rollback_to_index|].
  destruct (represents_last _ _ HR) as (h' & Hl'). pose proof (represents_NoDup _ _ HR) as Hn.
  destruct (represents_chainTipWithTx _ _ _ HR Hl') as (ix & Hs & Et). destruct HR as [R1 R2 R3 R4 _].
  apply list.Forall_app in R3 as [R3 _]. rewrite len_app in R2.
  assert (0 < len rest) by (destruct rest; [done|unfold len; rewrite length_cons; lia]). pose proof (len_nonneg hs).
  assert (Hne : hs <> []) by (intros ->; done).
  rewrite (open_blocks_run genesis (hs ++ rest) ix h' hs []); [|done|done|done|done|by rewrite app_nil_r|simpl; lia|done|lia].
  rewrite decide_False.
  - rewrite len_app. unfold wrap_u32. replace (len hs - (len hs + len rest)) with (- len rest) by lia.
    replace (- len rest mod 2 ^ 32) with (2 ^ 32 - len rest) by (apply (Z.mod_unique _ _ (-1)); lia).
    unfold truncateHeaders. destruct (Z.eqb_spec (2 ^ 32 - len rest) 0); [lia|].
    set (s1 := opened_blocks (cut_blocks hs s)).
    rewrite (bind_run (file_Size Block) _ s1 [] (len (header_file hs)) s1 [] eq_refl). cbn [HeaderType_Size of_result].
    rewrite (bind_run (mret BlockHeaderSize) _ s1 [] BlockHeaderSize s1 [] eq_refl). rewrite len_header_file by done.
    unfold file_Truncate. rewrite (bind_run next_fault _ s1 [] Good s1 [] eq_refl). unfold BlockHeaderSize.
    destruct (Z.ltb_spec (80 * len hs - (2 ^ 32 - len rest) * 80) 0); [by eexists|lia].
  - rewrite Hl. rewrite map_app in Hn. apply list.NoDup_app in Hn as (_ & Hd & _). intros E. cbn [fmap option_fmap option_map] in E. apply (inj Some) in E.
    apply (Hd (Hash h)); [apply list_elem_of_fmap; exists h; split; [done|by apply last_Some_elem_of]|]. rewrite <- E.
    apply list_elem_of_fmap. exists h'. split; [done|]. destruct (list.last rest) as [y|] eqn:Ey; [|by apply last_None in Ey].
    rewrite last_app, Ey in Hl'. injection Hl' as ->. by apply last_Some_elem_of.
Qed.

(** a write that stops short is taken back to the offset of the file before
    it, and opening leaves the offset at the start: if the first write after a store
    is opened stops short, the file loses all of its headers. *)
Theorem short_write_after_open `{Sorter} genesis hs new n s :
  represents hs s -> ready s -> new <> [] -> Forall BlockHeader_ok (map at_header new) -> (0 < n)%nat ->
  exists s1 s2, NewBlockHeaderStore genesis s [] = (Val tt, s1, []) /\
    represents hs s1 /\ block_WriteHeaders new s1 [Good; Bad n] = (Error EWrite, s2, []) /\ fl_data (hd_blocks s2) = [].
Proof.
  intros HR Hready Hne Hok Hn. destruct (represents_last _ _ HR) as (hl & Hl).
  destruct (represents_chainTipWithTx _ _ _ HR Hl) as (ix & Hs & Et). pose proof HR as [R1 R2 R3 R4 R5].
  exists (opened_blocks s). eexists. split_and!.
  - rewrite (open_blocks_run genesis hs ix hl hs []); [|done|done|done|done|by rewrite app_nil_r|simpl; lia|done|done]. by rewrite Hl, decide_True by done.
  - by split.
  - unfold block_WriteHeaders. apply bind_run_err. apply (short_append Block); [done|done| |done].
    destruct (len_headers new Hok) as [E _]. intros E0. rewrite E0 in E. change (len []) with 0 in E. destruct new; [done|]. unfold len in E. rewrite length_cons in E. lia.
  - done.
Qed.

(** bytes of a header that was being written at a crash stay in the file: they
    are not counted as a header when the store is opened, but the next header is
    written after them, and its height reads as a mixture of both. *)
Theorem torn_header_stays `{Sorter} genesis hs junk h s :
  represents hs (set_file Block (mkFlat (header_file hs) 0) s) -> ready s -> fl_data (hd_blocks s) = header_file hs ++ junk ->
  (0 < length junk < 80)%nat -> BlockHeader_ok h ->
  NewBlockHeaderStore genesis s [] = (Val tt, opened_blocks s, []) /\
  forall s', appendRaw Block (BlockHeader_Serialize h) (opened_blocks s) [] = (Val tt, s', []) ->
    readRaw Block (80 * len hs) s' [] = (Val (take 80 (junk ++ BlockHeader_Serialize h)), s', []).
Proof.
  intros HR Hready Hd Hj Hh. destruct (represents_last _ _ HR) as (hl & Hl).
  destruct (represents_chainTipWithTx _ _ _ HR Hl) as (ix & Hs & Et). destruct HR as [R1 R2 R3 R4 _]. split.
  - rewrite (open_blocks_run genesis hs ix hl hs junk); [|done|done|done|done|done|lia|done|done]. by rewrite Hl, decide_True by done.
  - assert (Hle : len (header_file hs) = 80 * len hs) by by apply len_header_file.
    pose proof (length_Serialize h Hh) as H80. set (raw := BlockHeader_Serialize h) in *. clearbody raw.
    intros s' E. assert (Hdat : fl_data (hd_blocks s') = header_file hs ++ junk ++ raw).
    { revert E. unfold appendRaw, file_Seek_current, file_Write, next_fault, get, put, mbind, eff_bind, mret, eff_ret. intros [= <-]. cbn. by rewrite Hd, app_assoc. }
    apply (readRaw_run Block BlockHeaderSize); [done|]. unfold BlockHeaderSize.
    rewrite file_ReadAt_run; cbn [the_file]; rewrite ?Hdat.
    + rewrite <- Hle. unfold len. rewrite Nat2Z.id, drop_app_length. done.
    + pose proof (len_nonneg hs). lia.
    + rewrite !len_app, Hle. unfold len in *. lia.
Qed.

(** the check of connectivity succeeds exactly when each header from height 2
    on names the one before it; on a store of the genesis block alone, whose height
    below the tip wraps around, it fails. *)
Theorem CheckConnectivity_correct hs s :
  represents hs s ->
  (forall i, length hs = S (S i) -> CheckConnectivity s [] = (Val tt, s, []) <-> linked_upto hs i) /\
  (length hs = 1%nat -> len (fl_data (hd_blocks s)) = 80 -> exists e, CheckConnectivity s [] = (Error e, s, [])).
Proof.
  intros HR. destruct (represents_last _ _ HR) as (h & Hl). destruct (represents_chainTipWithTx _ _ _ HR Hl) as (ix & Hs & Et).
  assert (Ein : in_tx (chainTipWithTx Block) s [] = (Val (Hash h, len hs - 1), s, [])) by (apply (in_tx_run _ _ _ _ (Some ix)); by rewrite Hs).
  pose proof HR as [R1 R2 R3 R4 _]. rewrite last_lookup in Hl. pose proof (represents_read _ _ _ _ HR Hl) as Er.
  pose proof (lookup_lt_Some _ _ _ Hl). replace (Z.of_nat (pred (length hs))) with (len hs - 1) in Er by (unfold len; lia).
  assert (Eall : CheckConnectivity s [] = connectivity_loop (S (length (fl_data (hd_blocks s)))) (wrap_u32 (len hs - 1 - 1)) h s []).
  { unfold CheckConnectivity. rewrite View_run, (bind_run _ _ _ _ _ _ _ Ein). cbn beta iota. rewrite (bind_run _ _ _ _ _ _ _ Er).
    by rewrite (bind_run get _ s [] s s [] eq_refl). }
  rewrite Eall. split.
  - intros i Hi. rewrite Hi in Hl. cbn [pred] in Hl.
    replace (wrap_u32 (len hs - 1 - 1)) with (Z.of_nat i) by (unfold wrap_u32, len in *; rewrite Z.mod_small; lia).
    pose proof (length_header_file hs R3) as Hlf. rewrite <- R4 in Hlf.
    destruct (connectivity_loop_run hs s (S (length (fl_data (hd_blocks s)))) i h HR Hl ltac:(lia)) as [[-> Hk]|[-> Hk]]; split; try done.
  - intros H1 H80. exists ErrHeaderNotFound. replace (len hs - 1 - 1) with (-1) by (unfold len; lia). change (wrap_u32 (-1)) with (2 ^ 32 - 1).
    cbn [connectivity_loop]. destruct (Z.leb_spec (2 ^ 32 - 1) 0); [lia|].
    rewrite (bind_run _ _ _ _ _ _ _ (try_run_err _ _ _ _ _ _ (block_readHeader_past s (2 ^ 32 - 1) ltac:(lia)))). done.
Qed.

(** the locator of a store starts at the tip, goes down strictly and ends at
    the genesis block, all of its hashes being those of the chain, and it has no
    more than 43 of them, so that the bound of the protocol never cuts it and its
    doubled step never overflows. *)
Theorem Locator_correct hs s h :
  represents hs s -> list.last hs = Some h ->
  exists heights hashes, LatestBlockLocator s [] = (Val (Hash h :: hashes, None), s, []) /\
    descends (len hs - 1) heights /\ Forall2 (hash_at hs) heights hashes /\ (length hashes <= 42)%nat.
Proof.
  intros HR Hl. unfold LatestBlockLocator. rewrite (bind_run _ _ _ _ _ _ _ (try_run_val _ _ _ _ _ _ (represents_chainTip _ _ _ HR Hl))).
  cbn beta iota. unfold blockLocatorFromHash. rewrite last_lookup in Hl.
  rewrite (bind_run _ _ _ _ _ _ _ (try_run_val _ _ _ _ _ _ (represents_height _ _ _ _ HR Hl))). cbn beta iota zeta.
  pose proof (lookup_lt_Some _ _ _ Hl). replace (Z.of_nat (pred (length hs))) with (len hs - 1) by (unfold len; lia).
  destruct (Z.eqb_spec (len hs - 1) 0) as [E|E].
  - exists [], []. split_and!; [done|exact E|constructor|simpl; lia].
  - pose proof (rp_small _ _ HR). unfold len in *.
    destruct (locator_loop_run hs s 500 1 (Z.of_nat (length hs) - 1) 1 [Hash h] HR) as (l & hashes & El & D & F & B);
      [lia|lia|done|unfold len; lia|split; [split; [done|lia]|lia]|].
    exists l, hashes. rewrite El. split_and!; try done. apply Forall2_length in F. lia.
Qed.

(** filter headers written for the blocks that come next are there with their
    tip, or, with one fault, the filter headers are as before; the block headers
    stay, and a filter header is found by the hash of its block. *)
Theorem filters_follow_blocks hs fhs new s fs :
  represents hs s -> filters_of hs fhs s -> fl_pos (hd_filters s) = len (fl_data (hd_filters s)) -> filters_next hs (length fhs) new ->
  (faults fs <= 1)%nat ->
  exists o s' fs' all, filter_WriteHeaders RegularFilter new s fs = (o, s', fs') /\ represents hs s' /\ filters_of hs all s' /\
    match o with Val _ => all = fhs ++ map fh_FilterHash new | Error _ => faults fs = 1%nat /\ all = fhs | _ => False end /\
    (forall i h f, hs !! i = Some h -> all !! i = Some f -> filter_FetchHeader RegularFilter (Hash h) s' [] = (Val f, s', [])) /\
    (forall f, list.last all = Some f -> filter_ChainTip RegularFilter s' [] = (Val (f, len all - 1), s', [])).
Proof.
  intros HR HF Hp Hn Hf.
  destruct (wp_run _ _ _ _ (filter_WriteHeaders_wp hs fhs new s fs HR HF Hp Hn Hf (rp_small _ _ HR))) as (o & s' & fs' & E & HR' & Ho).
  assert (Hall : exists all, filters_of hs all s' /\
    match o with Val _ => all = fhs ++ map fh_FilterHash new | Error _ => faults fs = 1%nat /\ all = fhs | _ => False end).
  { destruct o; [by eexists|destruct Ho; by eexists|done..]. }
  destruct Hall as (all & HF' & Ho'). exists o, s', fs', all. split_and!; try done.
  - intros i h f Hi Hfi. unfold filter_FetchHeader. rewrite (bind_run _ _ _ _ _ _ _ (represents_height _ _ _ _ HR' Hi)). by eapply filters_read.
  - intros f Hl. unfold filter_ChainTip. destruct (filters_tip _ _ _ HR' HF') as (h & _ & Et).
    rewrite (bind_run _ _ _ _ _ _ _ (try_run_val _ _ _ _ _ _ Et)). cbn beta iota. rewrite last_lookup in Hl.
    pose proof (lookup_lt_Some _ _ _ Hl). pose proof (filters_read _ _ _ _ _ HF' Hl) as Er.
    replace (Z.of_nat (pred (length all))) with (len all - 1) in Er by (unfold len; lia).
    by rewrite (bind_run _ _ _ _ _ _ _ (try_run_val _ _ _ _ _ _ Er)).
Qed.

(** ** Instances *)

Definition genesis0 : BlockHeader := mkBlockHeader 1 (repeat x00 32) (repeat x01 32) 1700000000 0x1d00ffff 7.
Definition header1 : BlockHeader := mkBlockHeader 1 (Hash genesis0) (repeat x02 32) 1700000600 0x1d00ffff 8.
Definition header2 : BlockHeader := mkBlockHeader 1 (Hash header1) (repeat x03 32) 1700001200 0x1d00ffff 9.
Definition new12 : list BlockHeaderAt := [mkBlockHeaderAt header1 1; mkBlockHeaderAt header2 2].
Definition empty_disk : headers := mkHeaders (mkFlat [] 0) (mkFlat [] 0) None.

Lemma example_headers_ok : BlockHeader_ok genesis0 /\ BlockHeader_ok header1 /\ BlockHeader_ok header2.
Proof.
  unfold BlockHeader_ok, genesis0, header1, header2, len.
  cbn [Header_Version Header_PrevBlock Header_MerkleRoot Header_Timestamp Header_Bits Header_Nonce].
  rewrite !length_Hash, !repeat_length. unfold chainhash_HashSize. lia.
Qed.

Lemma example_distinct : NoDup (map Hash [genesis0; header1; header2]).
Proof.
  assert (E : bool_decide (NoDup (map Hash [genesis0; header1; header2])) = true) by (vm_compute; reflexivity).
  by apply bool_decide_eq_true in E.
Qed.

Lemma example_continues : continues [genesis0] new12.
Proof.
  destruct example_headers_ok as (H0 & H1 & H2). split.
  - cbn [map at_header new12]. apply list.Forall_cons; split; [exact H1|]. apply list.Forall_cons; split; [exact H2|constructor].
  - intros [|[|i]] b E; cbn in E; [by injection E as <-..|done].
  - exact example_distinct.
  - unfold len. simpl length. lia.
Qed.

Lemma example_new : exists s, NewBlockHeaderStore genesis0 empty_disk [] = (Val tt, s, []) /\ represents [genesis0] s /\ at_end s /\ ready s.
Proof. apply open_new_run; [reflexivity|reflexivity|apply example_headers_ok]. Qed.

Lemma example_store : exists s, represents [genesis0; header1; header2] s /\ at_end s /\ ready s.
Proof.
  destruct example_new as (s & _ & HR & He & Hr).
  destruct (wp_run _ _ _ _ (block_WriteHeaders_wp [genesis0] new12 s [] HR He example_continues (Nat.le_0_l 1))) as (o & s' & fs' & _ & _ & Hr' & Ho).
  exists s'. destruct o; [destruct Ho as [Hrep Hend]|destruct Ho as [Ho _]; discriminate Ho|done..]. split; [exact Hrep|]. split; [exact Hend|by apply Hr'].
Qed.

Lemma store_reads_witness : exists s, represents [genesis0; header1; header2] s /\
  FetchHeader (Hash header1) s [] = (Val (header1, 1), s, []) /\
  FetchHeaderAncestors 1 (Hash header2) s [] = (Val ([header1; header2], 1), s, []).
Proof.
  destruct example_store as (s & HR & _). exists s. split; [exact HR|].
  destruct (store_reads _ s HR) as (Hi & _ & _ & _). split.
  - apply (proj1 (Hi 1%nat header1 eq_refl)).
  - destruct (Hi 2%nat header2 eq_refl) as (_ & _ & Ha). apply (Ha 1%nat); lia.
Defined.


Lemma Rollback_correct_witness : exists s s', represents [genesis0; header1; header2] s /\
  RollbackBlockHeaders 2 s [] = (Val (mkBlockStamp 0 (Hash genesis0) 1700000000), s', []) /\ represents [genesis0] s'.
Proof.
  destruct example_store as (s & HR & _).
  destruct (Rollback_correct [genesis0] [header1; header2] s genesis0 HR eq_refl ltac:(discriminate) ltac:(unfold len; simpl length; lia)) as (s' & E & HR' & _).
  exists s, s'. split; [exact HR|]. split; [exact E|exact HR'].
Defined.

Lemma NewBlockHeaderStore_recovers_witness : exists s, NewBlockHeaderStore genesis0 empty_disk [] = (Val tt, s, []) /\ represents [genesis0] s.
Proof. apply (proj1 (NewBlockHeaderStore_recovers genesis0 empty_disk)); [reflexivity|reflexivity|apply example_headers_ok]. Defined.

Lemma rollback_crash_locks_witness : exists s s', represents [genesis0; header1; header2] s /\
  NewBlockHeaderStore genesis0 (cut_blocks [genesis0] s) [] = (Error EFile, s', []).
Proof.
  destruct example_store as (s & HR & _ & Hr).
  destruct (rollback_crash_locks genesis0 [genesis0] [header1; header2] s genesis0 HR Hr eq_refl ltac:(discriminate) ltac:(unfold len; simpl length; lia)) as (_ & s' & E).
  exists s, s'. split; [exact HR|exact E].
Defined.

Lemma short_write_after_open_witness : exists s s1 s2, represents [genesis0] s /\
  NewBlockHeaderStore genesis0 s [] = (Val tt, s1, []) /\ block_WriteHeaders new12 s1 [Good; Bad 100] = (Error EWrite, s2, []) /\ fl_data (hd_blocks s2) = [].
Proof.
  destruct example_new as (s & _ & HR & _ & Hr).
  destruct (short_write_after_open genesis0 [genesis0] new12 100 s HR Hr ltac:(discriminate) (ct_ok _ _ example_continues) ltac:(lia)) as (s1 & s2 & E1 & _ & E2 & E3).
  exists s, s1, s2. split; [exact HR|]. split; [exact E1|]. split; [exact E2|exact E3].
Defined.

Lemma torn_header_stays_witness : exists s s', represents [genesis0] s /\
  NewBlockHeaderStore genesis0 (set_file Block (mkFlat (header_file [genesis0] ++ [x0a; x0b]) 0) s) [] = (Val tt, s', []).
Proof.
  destruct example_new as (s & _ & HR & _ & Hr). set (s1 := set_file Block (mkFlat (header_file [genesis0] ++ [x0a; x0b]) 0) s).
  assert (HR1 : represents [genesis0] (set_file Block (mkFlat (header_file [genesis0]) 0) s1)).
  { destruct HR as [R1 R2 R3 R4 R5]. split; [exact R1|exact R2|exact R3|reflexivity|exact R5]. }
  destruct (torn_header_stays genesis0 [genesis0] [x0a; x0b] header1 s1 HR1 Hr eq_refl ltac:(simpl; lia) (proj1 (proj2 example_headers_ok))) as (E & _).
  exists s, (opened_blocks s1). split; [exact HR|exact E].
Defined.

Lemma CheckConnectivity_correct_witness : exists s s' e, represents [genesis0; header1; header2] s /\
  CheckConnectivity s [] = (Val tt, s, []) /\ represents [genesis0] s' /\ CheckConnectivity s' [] = (Error e, s', []).
Proof.
  destruct example_store as (s & HR & _). destruct example_new as (s' & _ & HR' & _).
  destruct (CheckConnectivity_correct _ s HR) as (H1 & _). destruct (CheckConnectivity_correct _ s' HR') as (_ & H2).
  destruct (H2 eq_refl) as (e & E).
  { rewrite (rp_file _ _ HR'), len_header_file by (apply (rp_wf _ _ HR')). reflexivity. }
  exists s, s', e. split; [exact HR|]. split; [|split; [exact HR'|exact E]]. apply (H1 1%nat eq_refl).
  intros [|[|j]] a b Hj Ha Hb; [lia| |lia]. injection Ha as <-. injection Hb as <-. reflexivity.
Defined.

Lemma Locator_correct_witness : exists s hashes, represents [genesis0; header1; header2] s /\
  LatestBlockLocator s [] = (Val (Hash header2 :: hashes, None), s, []) /\ (length hashes <= 42)%nat.
Proof.
  destruct example_store as (s & HR & _). destruct (Locator_correct _ s header2 HR eq_refl) as (l & hashes & E & _ & _ & Hb).
  exists s, hashes. split; [exact HR|]. split; [exact E|exact Hb].
Defined.

(** The filter headers of the genesis block, put into the state by hand. *)
Lemma filters_follow_blocks_witness : exists s s', represents [genesis0; header1; header2] s /\
  filter_FetchHeader RegularFilter (Hash header1) s' [] = (Val (repeat x22 32), s', []).
Proof.
  destruct example_store as (s & HR & _ & _). pose proof (rp_index _ _ HR) as (ix & Hs & _).
  set (s1 := mkHeaders (hd_blocks s) (mkFlat (repeat x11 32) 32) (Some (mkIndex (<[regFilterTip := Hash genesis0]> (ix_root ix)) (ix_subs ix)))).
  assert (HR1 : represents [genesis0; header1; header2] s1).
  { apply (represents_other _ s s1 ix (mkIndex (<[regFilterTip := Hash genesis0]> (ix_root ix)) (ix_subs ix)) HR); [reflexivity|exact Hs|reflexivity|reflexivity|].
    intros k Hk. cbn [ix_root]. rewrite lookup_insert_ne; [reflexivity|congruence]. }
  assert (HF : filters_of [genesis0; header1; header2] [repeat x11 32] s1).
  { split; [discriminate|simpl; lia|repeat constructor|reflexivity|]. eexists. split; [reflexivity|]. cbn [ix_root]. by rewrite lookup_insert_eq. }
  assert (Hnext : filters_next [genesis0; header1; header2] 1 [mkFilterHeader (Hash header1) (repeat x22 32) 1]).
  { intros [|i] f E; [|discriminate E]. injection E as <-. split; [reflexivity|]. exists header1. split; reflexivity. }
  destruct (filters_follow_blocks _ _ _ s1 [] HR1 HF eq_refl Hnext (Nat.le_0_l 1)) as (o & s' & fs' & all & _ & _ & _ & Ho & Hfetch & _).
  exists s, s'. split; [exact HR|]. apply (Hfetch 1%nat); [reflexivity|]. destruct o; [by subst all|destruct Ho as [Ho _]; discriminate Ho|destruct Ho..].
Defined.
