(* ===== verification/NetText.v ===== *)
(** * Textual forms of network addresses

    What [addrmgr] and [wire/netaddressv2.go] use of Go's library to write
    addresses and read them back: decimal numbers ([strconv]), [net.IP.String] and
    [net.ParseIP], which are the functions of [net/netip], [net.JoinHostPort] and
    [net.SplitHostPort], and base32.  A string is a list of bytes; an error is
    [None], as its text is all it carries.

    The theorems are the round trips: what the library writes, it reads back. *)

From Stdlib Require Import ZArith Lia.
From S2P Require Import Prelude WireCommon ChainHash WireNet.
Open Scope Z_scope.

Definition chr_colon : byte := x3a.
Definition chr_dot : byte := x2e.
Definition chr_lbracket : byte := x5b.
Definition chr_rbracket : byte := x5d.
Definition chr_percent : byte := x25.

(** ** strconv *)

Definition dec_digit (d : Z) : byte := z2b (48 + d).
Definition is_dec (c : byte) : bool := (48 <=? b2z c) && (b2z c <=? 57).

(** [FormatUint(n, 10)]; a [uint64] has at most 20 digits. *)
Fixpoint FormatUint_loop (fuel : nat) (n : Z) (acc : list byte) : list byte :=
  match fuel with
  | O => acc
  | S fuel' =>
      let acc := dec_digit (n mod 10) :: acc in
      if n <? 10 then acc else FormatUint_loop fuel' (n / 10) acc
  end.
Definition FormatUint (n : Z) : list byte := FormatUint_loop 20 n [].

Fixpoint ParseUint_loop (bitSize n : Z) (s : list byte) : option Z :=
  match s with
  | [] => Some n
  | c :: s' =>
      if is_dec c then
        let n' := 10 * n + (b2z c - 48) in
        if n' <? 2 ^ bitSize then ParseUint_loop bitSize n' s' else None
      else None
  end.
(** [ParseUint(s, 10, bitSize)]. *)
Definition ParseUint (bitSize : Z) (s : list byte) : option Z :=
  if bool_decide (s = []) then None else ParseUint_loop bitSize 0 s.

(** ** net/netip: writing *)

Definition ip4_String (a : list byte) : list byte :=
  let f i := FormatUint (b2z (at_ a i)) in
  f 0%nat ++ [chr_dot] ++ f 1%nat ++ [chr_dot] ++ f 2%nat ++ [chr_dot] ++ f 3%nat.

(** A group of 16 bits in hexadecimal, without leading zeros. *)
Definition appendHex (x : Z) : list byte :=
  (if 0x1000 <=? x then [hex_digit (x / 0x1000)] else []) ++
  (if 0x100 <=? x then [hex_digit (x / 0x100 mod 16)] else []) ++
  (if 0x10 <=? x then [hex_digit (x / 0x10 mod 16)] else []) ++
  [hex_digit (x mod 16)].

Fixpoint groups_of (ip : list byte) : list Z :=
  match ip with
  | a :: b :: ip' => be_get [a; b] :: groups_of ip'
  | _ => []
  end.
Definition bytes_of_groups (gs : list Z) : list byte := concat (map (be_put 2) gs).

Fixpoint zero_run (gs : list Z) : nat :=
  match gs with
  | g :: gs' => if g =? 0 then S (zero_run gs') else 0
  | [] => 0
  end.
(** The first longest run of two or more zero groups, its start and its length. *)
Fixpoint longest_run (i : nat) (gs : list Z) (best : nat * nat) : nat * nat :=
  match gs with
  | [] => best
  | _ :: gs' =>
      let l := zero_run gs in
      longest_run (S i) gs'
        (if (2 <=? l)%nat && (best.2 <? l)%nat then (i, l) else best)
  end.

Fixpoint join_groups (gs : list Z) : list byte :=
  match gs with
  | [] => []
  | [g] => appendHex g
  | g :: gs' => appendHex g ++ [chr_colon] ++ join_groups gs'
  end.

Definition ip6_String (a : list byte) : list byte :=
  let gs := groups_of a in
  let '(i, l) := longest_run 0 gs (0, 0)%nat in
  if (l =? 0)%nat then join_groups gs
  else join_groups (take i gs) ++ [chr_colon; chr_colon] ++ join_groups (drop (i + l) gs).

(** [net.IP.To4]. *)
Definition IP_To4 (ip : list byte) : option (list byte) :=
  if len ip =? 4 then Some ip
  else if (len ip =? 16) && bool_decide (take 12 ip = v4InV6Prefix) then Some (drop 12 ip)
  else None.

Definition IP_String (ip : list byte) : list byte :=
  if bool_decide (ip = []) then bytes_of "<nil>"
  else if negb (len ip =? 4) && negb (len ip =? 16) then bytes_of "?" ++ hex_EncodeToString ip
  else match IP_To4 ip with
       | Some p4 => ip4_String p4
       | None => ip6_String ip
       end.

(** ** net/netip: reading *)

(** [parseIPv4Fields]: [first] at the start of the string; [n] octets are read,
    [digLen] digits of the next one, of value [val]. *)
Fixpoint parseIPv4_loop (s : list byte) (first : bool) (prev_dot : bool)
    (fields : list Z) (val : Z) (digLen : nat) : option (list Z) :=
  match s with
  | [] => if (length fields <? 3)%nat then None else Some (fields ++ [val])
  | c :: s' =>
      if is_dec c then
        if (digLen =? 1)%nat && (val =? 0) then None
        else
          let val := val * 10 + (b2z c - 48) in
          if 255 <? val then None
          else parseIPv4_loop s' false false fields val (S digLen)
      else if Byte.eqb c chr_dot then
        if first || bool_decide (s' = []) || prev_dot then None
        else if (length fields =? 3)%nat then None
        else parseIPv4_loop s' false true (fields ++ [val]) 0 0
      else None
  end.
Definition parseIPv4Fields (s : list byte) : option (list byte) :=
  map z2b <$> parseIPv4_loop s true false [] 0 0.

(** The hexadecimal number [s] starts with: its value, the digits, the rest.
    More than four digits are refused. *)
Fixpoint parse_group (s : list byte) (off : nat) (acc : Z) : option (nat * Z * list byte) :=
  match s with
  | [] => Some (off, acc, [])
  | c :: s' =>
      match fromHexChar c with
      | None => Some (off, acc, s)
      | Some d => if (3 <? off)%nat then None else parse_group s' (S off) (acc * 16 + d)
      end
  end.

(** The loop of [parseIPv6]: [ip] holds the bytes written, [s] is what is left.
    The result has the bytes, the place of the ellipsis and the unread rest; a
    turn writes at least two of the sixteen bytes. *)
Fixpoint parseIPv6_loop (fuel : nat) (s : list byte) (ip : list byte) (ellipsis : option nat)
    : option (list byte * option nat * list byte) :=
  match fuel with
  | O => Some (ip, ellipsis, s)
  | S fuel' =>
      if (16 <=? length ip)%nat then Some (ip, ellipsis, s)
      else
        r ← parse_group s 0 0;
        let '(off, acc, rest) := r in
        if (off =? 0)%nat then None
        else if bool_decide (head rest = Some chr_dot) then
          if bool_decide (ellipsis = None) && negb (length ip =? 12)%nat then None
          else if (16 <? length ip + 4)%nat then None
          else v4 ← parseIPv4Fields s; Some (ip ++ v4, ellipsis, [])
        else
          let ip := ip ++ be_put 2 acc in
          match rest with
          | [] => Some (ip, ellipsis, [])
          | c :: s' =>
              if negb (Byte.eqb c chr_colon) then None
              else match s' with
                   | [] => None
                   | c' :: s'' =>
                       if Byte.eqb c' chr_colon then
                         if bool_decide (ellipsis <> None) then None
                         else match s'' with
                              | [] => Some (ip, Some (length ip), [])
                              | _ => parseIPv6_loop fuel' s'' ip (Some (length ip))
                              end
                       else parseIPv6_loop fuel' s' ip ellipsis
                   end
          end
  end.

Definition expand_ellipsis (ip : list byte) (ellipsis : option nat) : option (list byte) :=
  match ellipsis with
  | None => if (length ip <? 16)%nat then None else Some ip
  | Some e =>
      if (length ip <? 16)%nat
      then Some (take e ip ++ replicate (16 - length ip) x00 ++ drop e ip) else None
  end.

(** [parseIPv6], for a string without zone: [net.ParseIP] refuses the others. *)
Definition parseIPv6 (s : list byte) : option (list byte) :=
  let ellipsis := bool_decide (take 2 s = [chr_colon; chr_colon]) in
  let s := if ellipsis then drop 2 s else s in
  if ellipsis && bool_decide (s = []) then Some (replicate 16 x00)
  else
    r ← parseIPv6_loop 8 s [] (if ellipsis then Some 0%nat else None);
    let '(ip, e, rest) := r in
    if bool_decide (rest = []) then expand_ellipsis ip e else None.

(** [netip.ParseAddr]: the first of the separators decides. *)
Fixpoint ParseAddr_scan (s in_ : list byte) : option (list byte) :=
  match s with
  | [] => None
  | c :: s' =>
      if Byte.eqb c chr_dot then v4 ← parseIPv4Fields in_; Some (v4InV6Prefix ++ v4)
      else if Byte.eqb c chr_colon then
        if bool_decide (chr_percent ∈ in_) then None else parseIPv6 in_
      else if Byte.eqb c chr_percent then None
      else ParseAddr_scan s' in_
  end.
(** [net.ParseIP]: the 16 bytes of an address, [None] for nil. *)
Definition ParseIP (s : list byte) : option (list byte) := ParseAddr_scan s s.

(** ** Hosts and ports *)

Definition JoinHostPort (host port : list byte) : list byte :=
  if bool_decide (chr_colon ∈ host)
  then [chr_lbracket] ++ host ++ [chr_rbracket; chr_colon] ++ port
  else host ++ [chr_colon] ++ port.

Definition SplitHostPort (hostport : list byte) : option (list byte * list byte) :=
  i ← LastIndexByte hostport chr_colon;
  r ← (if bool_decide (head hostport = Some chr_lbracket) then
         e ← IndexByte hostport chr_rbracket;
         if (S e =? i)%nat then Some (take (e - 1) (drop 1 hostport), 1, S e)%nat else None
       else
         let host := take i hostport in
         if bool_decide (chr_colon ∈ host) then None else Some (host, 0, 0)%nat);
  let '(host, j, k) := r in
  if bool_decide (chr_lbracket ∈ drop j hostport) then None
  else if bool_decide (chr_rbracket ∈ drop k hostport) then None
  else Some (host, drop (S i) hostport).

(** ** encoding/base32 *)

Definition base32_alphabet : list byte := bytes_of "ABCDEFGHIJKLMNOPQRSTUVWXYZ234567".
Definition base32_pad : byte := x3d.

(** The eight characters of five bytes. *)
Definition base32_quantum (bs : list byte) : list byte :=
  map (fun i => nth (Z.to_nat (Z.land (Z.shiftr (be_get bs) (35 - 5 * Z.of_nat i)) 31))
                  base32_alphabet x00)
    (seq 0 8).
(** [EncodeToString] of a whole number of quanta, the only lengths in use. *)
Fixpoint base32_Encode (bs : list byte) : list byte :=
  match bs with
  | a :: b :: c :: d :: e :: bs' => base32_quantum [a; b; c; d; e] ++ base32_Encode bs'
  | _ => []
  end.

Definition base32_value (c : byte) : option Z :=
  let v := b2z c in
  if (65 <=? v) && (v <=? 90) then Some (v - 65)
  else if (50 <=? v) && (v <=? 55) then Some (v - 50 + 26)
  else None.

(** The inner loop of [decode]: [dbuf] has the values of the quantum so far.  The
    boolean says that padding ended the string. *)
Fixpoint base32_read_quantum (j : nat) (src : list byte) (dbuf : list Z) {struct src}
    : option (list Z * list byte * bool) :=
  if (j =? 8)%nat then Some (dbuf, src, false)
  else match src with
  | [] => None
  | c :: src' =>
      if Byte.eqb c base32_pad && (2 <=? j)%nat && (length src' <? 8)%nat then
        if (length src' + j <? 7)%nat then None
        else if negb (forallb (Byte.eqb base32_pad) (take (7 - j) src')) then None
        else if existsb (Nat.eqb j) [1; 3; 6]%nat then None
        else Some (dbuf, src', true)
      else
        v ← base32_value c;
        base32_read_quantum (S j) src' (dbuf ++ [v])
  end.

(** The bytes of a quantum of [dlen] values: 1, 2, 3, 4 or 5 of them. *)
Definition base32_bytes (dbuf : list Z) : list byte :=
  let dlen := length dbuf in
  let v := foldl (fun n d => n * 32 + d) 0 (take 8 (dbuf ++ replicate 8 0)) in
  take (dlen * 5 / 8) (be_put 5 v).

(** [decode]; a quantum consumes at least one character. *)
Fixpoint base32_decode_loop (fuel : nat) (src : list byte) (out : list byte)
    : option (list byte) :=
  match fuel with
  | O => None
  | S fuel' =>
      match src with
      | [] => Some out
      | _ =>
          r ← base32_read_quantum 0 src [];
          let '(dbuf, src, finished) := r in
          let out := out ++ base32_bytes dbuf in
          if (finished : bool) then Some out else base32_decode_loop fuel' src out
      end
  end.
(** [DecodeString], which drops line breaks first. *)
Definition base32_DecodeString (s : list byte) : option (list byte) :=
  let src := base.filter (fun c => c <> x0a /\ c <> x0d) s in
  base32_decode_loop (S (length src)) src [].

Example ip4_example : IP_String (v4InV6Prefix ++ [x0a; x00; xff; x07]) = bytes_of "10.0.255.7".
Proof. vm_compute. reflexivity. Qed.
Example ip6_example :
  ParseIP (bytes_of "2001:DB8::1") = Some ([x20; x01; x0d; xb8] ++ replicate 11 x00 ++ [x01]) /\
  IP_String ([x20; x01; x0d; xb8] ++ replicate 11 x00 ++ [x01]) = bytes_of "2001:db8::1" /\
  IP_String (replicate 16 x00) = bytes_of "::" /\
  ParseIP (bytes_of "::ffff:1.2.3.4") = Some (v4InV6Prefix ++ [x01; x02; x03; x04]) /\
  ParseIP (bytes_of "1:2:3:4:5:6:7::") =
    Some [x00; x01; x00; x02; x00; x03; x00; x04; x00; x05; x00; x06; x00; x07; x00; x00] /\
  ParseIP (bytes_of "1.2.3") = None /\ ParseIP (bytes_of "1:2") = None.
Proof. vm_compute. split_and!; reflexivity. Qed.
Example host_port_example :
  SplitHostPort (JoinHostPort (bytes_of "::1") (bytes_of "80")) = Some (bytes_of "::1", bytes_of "80") /\
  SplitHostPort (bytes_of "a:b:80") = None /\ SplitHostPort (bytes_of "[::1]") = None /\
  SplitHostPort (bytes_of "host:80") = Some (bytes_of "host", bytes_of "80").
Proof. vm_compute. split_and!; reflexivity. Qed.
Example base32_example :
  base32_Encode (bytes_of "foobarbaz!") = bytes_of "MZXW6YTBOJRGC6RB" /\
  base32_DecodeString (bytes_of "MZXW6YTBOJRGC6RB") = Some (bytes_of "foobarbaz!") /\
  base32_DecodeString (bytes_of "MZXW6YQ=") = Some (bytes_of "foob") /\
  base32_DecodeString (bytes_of "MZXW6===") = Some (bytes_of "foo").
Proof. vm_compute. split_and!; reflexivity. Qed.

(** ** Decimal numbers *)

Definition digits_value (ds : list Z) : Z := foldl (fun n d => 10 * n + d) 0 ds.
Definition dec_digits (ds : list Z) : Prop := Forall (fun d => 0 <= d < 10) ds.

Lemma b2z_dec_digit d : 0 <= d < 10 -> b2z (dec_digit d) = 48 + d.
Proof. intros H. unfold dec_digit. apply b2z_z2b_small. lia. Qed.

Lemma is_dec_digit d : 0 <= d < 10 -> is_dec (dec_digit d) = true.
Proof. intros H. unfold is_dec. rewrite b2z_dec_digit by done. apply andb_true_intro. lia. Qed.

Lemma foldl_digits_le n ds : 0 <= n -> dec_digits ds -> n <= foldl (fun n d => 10 * n + d) n ds.
Proof.
  intros Hn H. revert n Hn. induction H as [|d ds Hd _ IH]; intros n Hn; [done|].
  simpl. specialize (IH (10 * n + d)). lia.
Qed.

Lemma FormatUint_loop_digits fuel n acc :
  (0 < fuel)%nat -> 0 <= n < 10 ^ Z.of_nat fuel ->
  exists ds, FormatUint_loop fuel n acc = map dec_digit ds ++ acc /\ ds <> [] /\
    dec_digits ds /\ digits_value ds = n.
Proof.
  revert n acc. induction fuel as [|fuel IH]; [lia|]. intros n acc _ Hn. cbn [FormatUint_loop].
  pose proof (Z.mod_pos_bound n 10 ltac:(lia)) as Hm.
  case_bool.
  { exists [n mod 10]. split_and!; [done|done|by apply Forall_singleton|].
    unfold digits_value. simpl. rewrite Z.mod_small; lia. }
  assert (H0 : (0 < fuel)%nat).
  { destruct fuel; [|lia]. exfalso. simpl Z.of_nat in Hn. change (10 ^ 1) with 10 in Hn. lia. }
  destruct (IH (n / 10) (dec_digit (n mod 10) :: acc)) as (ds & -> & Hne & Hd & Hv); [done| |].
  { split; [apply Z.div_pos; lia|]. apply Z.div_lt_upper_bound; [lia|].
    rewrite Nat2Z.inj_succ, Z.pow_succ_r in Hn by lia. lia. }
  exists (ds ++ [n mod 10]). split_and!.
  - by rewrite map_app, <- app_assoc.
  - by destruct ds.
  - apply Forall_app; split; [done|by apply Forall_singleton].
  - unfold digits_value in *. rewrite foldl_app, Hv. simpl. pose proof (Z.div_mod n 10). lia.
Qed.

Lemma ParseUint_loop_digits w n ds :
  0 <= n -> dec_digits ds -> foldl (fun n d => 10 * n + d) n ds < 2 ^ w ->
  ParseUint_loop w n (map dec_digit ds) = Some (foldl (fun n d => 10 * n + d) n ds).
Proof.
  intros Hn H. revert n Hn. induction H as [|d ds Hd H IH]; intros n Hn Hlt; [done|].
  cbn [map ParseUint_loop foldl] in *. rewrite is_dec_digit, b2z_dec_digit by done.
  replace (48 + d - 48) with d by lia.
  pose proof (foldl_digits_le (10 * n + d) ds ltac:(lia) H).
  case_bool; [|lia]. apply IH; [lia|done].
Qed.

Lemma ParseUint_Format w n :
  0 <= n < 10 ^ 20 -> n < 2 ^ w -> ParseUint w (FormatUint n) = Some n.
Proof.
  intros Hn Hw. unfold FormatUint.
  destruct (FormatUint_loop_digits 20 n []) as (ds & -> & Hne & Hd & Hv); [lia|done|].
  rewrite app_nil_r. unfold ParseUint.
  rewrite bool_decide_eq_false_2 by (destruct ds; done). unfold digits_value in Hv.
  rewrite ParseUint_loop_digits; [by rewrite Hv|lia|done|lia].
Qed.

(** Decimal strings have digits only. *)
Lemma FormatUint_dec n : 0 <= n < 10 ^ 20 -> Forall (fun c => is_dec c = true) (FormatUint n).
Proof.
  intros Hn. unfold FormatUint.
  destruct (FormatUint_loop_digits 20 n []) as (ds & -> & _ & Hd & _); [lia|done|].
  rewrite app_nil_r. apply Forall_map. revert Hd. apply Forall_impl.
  intros d Hd'. by apply is_dec_digit.
Qed.

(** ** IPv4 *)

Lemma parse_octet b rest first prev fields :
  parseIPv4_loop (FormatUint (b2z b) ++ rest) first prev fields 0 0 =
  parseIPv4_loop rest false false fields (b2z b) (length (FormatUint (b2z b))).
Proof. destruct b; reflexivity. Qed.

Lemma parse_octet_dot b rest first prev fields :
  (length fields < 3)%nat -> rest <> [] ->
  parseIPv4_loop (FormatUint (b2z b) ++ [chr_dot] ++ rest) first prev fields 0 0 =
  parseIPv4_loop rest false true (fields ++ [b2z b]) 0 0.
Proof.
  intros Hf Hr. rewrite parse_octet. cbn [app parseIPv4_loop].
  change (is_dec chr_dot) with false. change (Byte.eqb chr_dot chr_dot) with true. cbv iota.
  rewrite (bool_decide_eq_false_2 _ Hr). cbn [orb].
  destruct (Nat.eqb_spec (length fields) 3); [lia|done].
Qed.

Lemma parse_octet_last b first prev fields :
  length fields = 3%nat ->
  parseIPv4_loop (FormatUint (b2z b)) first prev fields 0 0 = Some (fields ++ [b2z b]).
Proof.
  intros Hf. rewrite <- (app_nil_r (FormatUint _)), parse_octet. cbn [parseIPv4_loop].
  by rewrite Hf.
Qed.

Lemma app_cons_ne {A} (l : list A) x r : l ++ x :: r <> [].
Proof. by destruct l. Qed.

Lemma FormatUint_octet_ne b : FormatUint (b2z b) <> [].
Proof. by destruct b. Qed.

Lemma ip4_String_parse a :
  len a = 4 -> parseIPv4Fields (ip4_String a) = Some a.
Proof.
  intros Ha. destruct a as [|a [|b [|c [|d [|]]]]]; unfold len in Ha; cbn in Ha; try lia.
  unfold parseIPv4Fields, ip4_String. unfold at_. cbn [nth].
  rewrite !parse_octet_dot by (cbn [length app]; done || lia || apply app_cons_ne || apply FormatUint_octet_ne).
  rewrite parse_octet_last by done. cbn [app map fmap option_fmap option_map].
  by rewrite !z2b_b2z.
Qed.

(** ** Hexadecimal groups *)

Lemma hex_digit_step c v s off acc :
  fromHexChar c = Some v -> (off < 4)%nat ->
  parse_group (c :: s) off acc = parse_group s (S off) (acc * 16 + v).
Proof. intros Hc Ho. cbn [parse_group]. rewrite Hc. by destruct (Nat.ltb_spec 3 off); [lia|]. Qed.

Definition not_hex_head (s : list byte) : Prop :=
  match s with [] => True | c :: _ => fromHexChar c = None end.

Lemma parse_group_stop s off acc :
  not_hex_head s -> parse_group s off acc = Some (off, acc, s).
Proof. destruct s as [|c s]; cbn [not_hex_head parse_group]; [done|]. by intros ->. Qed.

Lemma appendHex_parse g rest :
  0 <= g < 65536 -> not_hex_head rest ->
  exists n, parse_group (appendHex g ++ rest) 0 0 = Some (S n, g, rest).
Proof.
  intros Hg Hr. unfold appendHex. pose proof fromHexChar_digit as Hd.
  repeat case_bool; try (exfalso; lia); cbn [app];
    repeat (erewrite hex_digit_step; [|apply Hd; Z.to_euclidean_division_equations; lia|lia]);
    rewrite parse_group_stop by done; eexists; f_equal; f_equal; f_equal;
    Z.to_euclidean_division_equations; lia.
Qed.

(** ** IPv6 *)

Definition group_ok (g : Z) : Prop := 0 <= g < 65536.
Definition is_hex (c : byte) : Prop := fromHexChar c <> None.

Lemma hex_digit_is_hex v : 0 <= v < 16 -> is_hex (hex_digit v).
Proof. intros H. unfold is_hex. by rewrite fromHexChar_digit. Qed.

Lemma appendHex_hex g : group_ok g -> Forall is_hex (appendHex g) /\ appendHex g <> [].
Proof.
  intros Hg. unfold group_ok in Hg. unfold appendHex. split; [|apply app_cons_ne || idtac].
  - repeat case_bool; cbn [app]; repeat constructor; apply hex_digit_is_hex;
      Z.to_euclidean_division_equations; lia.
  - intros H. do 3 (apply app_eq_nil in H as [_ H]). done.
Qed.

Lemma is_hex_not_sep c :
  is_hex c -> c <> chr_colon /\ c <> chr_dot /\ c <> chr_percent /\ c <> chr_lbracket /\ c <> chr_rbracket.
Proof. intros H. split_and!; intros ->; by apply H. Qed.

Lemma join_groups_cons g gs : 
  join_groups (g :: gs) = appendHex g ++ match gs with [] => [] | _ => [chr_colon] ++ join_groups gs end.
Proof. destruct gs; cbn [join_groups]; [by rewrite app_nil_r|done]. Qed.

Lemma join_groups_head g gs :
  group_ok g -> exists c s, join_groups (g :: gs) = c :: s /\ is_hex c.
Proof.
  intros Hg. rewrite join_groups_cons. destruct (appendHex_hex g Hg) as [Hf Hne].
  destruct (appendHex g) as [|c s]; [done|]. inversion Hf; subst. by eexists _, _.
Qed.

Lemma eqb_hex_colon c : is_hex c -> Byte.eqb c chr_colon = false.
Proof.
  intros H. destruct (Byte.eqb c chr_colon) eqn:E; [|done].
  apply Byte.byte_dec_bl in E. subst. by destruct H.
Qed.

(** One turn of the loop, on a group that a colon or the end follows. *)
Lemma loop_group fuel g rest ip e :
  group_ok g -> (length ip < 16)%nat -> not_hex_head rest -> head rest <> Some chr_dot ->
  parseIPv6_loop (S fuel) (appendHex g ++ rest) ip e =
  let ip := ip ++ be_put 2 g in
  match rest with
  | [] => Some (ip, e, [])
  | c :: s' =>
      if negb (Byte.eqb c chr_colon) then None
      else match s' with
           | [] => None
           | c' :: s'' =>
               if Byte.eqb c' chr_colon then
                 if bool_decide (e <> None) then None
                 else match s'' with
                      | [] => Some (ip, Some (length ip), [])
                      | _ => parseIPv6_loop fuel s'' ip (Some (length ip))
                      end
               else parseIPv6_loop fuel s' ip e
           end
  end.
Proof.
  intros Hg Hip Hr Hdot. destruct (appendHex_parse g rest Hg Hr) as [n Hn].
  cbn [parseIPv6_loop]. destruct (Nat.leb_spec 16 (length ip)); [lia|].
  rewrite Hn. cbn [mbind option_bind Nat.eqb]. by rewrite (bool_decide_eq_false_2 _ Hdot).
Qed.

Lemma loop_join gs : forall fuel ip e,
  gs <> [] -> Forall group_ok gs -> (length ip + 2 * length gs <= 16)%nat -> (length gs <= fuel)%nat ->
  parseIPv6_loop fuel (join_groups gs) ip e = Some (ip ++ bytes_of_groups gs, e, []).
Proof.
  induction gs as [|g gs IH]; [done|]. intros fuel ip e _ Hok Hip Hf.
  apply list.Forall_cons in Hok as [Hg Hok]. cbn [length] in *. destruct fuel as [|fuel]; [lia|].
  rewrite join_groups_cons. destruct gs as [|g' gs].
  { rewrite loop_group by (done || lia). unfold bytes_of_groups. cbn [map concat].
    by rewrite app_nil_r. }
  assert (Hg' : group_ok g') by (by apply list.Forall_cons in Hok as [? _]).
  rewrite loop_group by (done || lia). cbn [app]. change (negb (Byte.eqb chr_colon chr_colon)) with false.
  destruct (join_groups_head g' gs Hg') as (c & s & Hc & Hhex). rewrite Hc.
  rewrite eqb_hex_colon by done. rewrite <- Hc. cbv iota zeta.
  rewrite IH; [|done|done|rewrite length_app, length_be_put; cbn [length] in *; lia|cbn [length] in *; lia].
  unfold bytes_of_groups. cbn [map concat]. by rewrite <- app_assoc.
Qed.

Lemma loop_join_ellipsis gs tail : forall fuel ip,
  gs <> [] -> Forall group_ok gs -> (length ip + 2 * length gs <= 16)%nat -> (length gs <= fuel)%nat ->
  let ip' := ip ++ bytes_of_groups gs in
  parseIPv6_loop fuel (join_groups gs ++ [chr_colon; chr_colon] ++ tail) ip None =
  match tail with
  | [] => Some (ip', Some (length ip'), [])
  | _ => parseIPv6_loop (fuel - length gs) tail ip' (Some (length ip'))
  end.
Proof.
  induction gs as [|g gs IH]; [done|]. intros fuel ip _ Hok Hip Hf.
  apply list.Forall_cons in Hok as [Hg Hok]. cbn [length] in *. destruct fuel as [|fuel]; [lia|].
  rewrite join_groups_cons, <- app_assoc. destruct gs as [|g' gs].
  { cbn zeta. cbn [app]. rewrite loop_group by (done || lia).
    change (negb (Byte.eqb chr_colon chr_colon)) with false.
    change (Byte.eqb chr_colon chr_colon) with true. cbv iota zeta.
    rewrite bool_decide_eq_false_2 by (intros H; by apply H).
    unfold bytes_of_groups. cbn [map concat length]. rewrite app_nil_r.
    replace (S fuel - 1)%nat with fuel by lia. done. }
  assert (Hg' : group_ok g') by (by apply list.Forall_cons in Hok as [? _]).
  rewrite <- app_assoc. cbn zeta.
  rewrite loop_group by (done || lia). cbn [app]. change (negb (Byte.eqb chr_colon chr_colon)) with false.
  destruct (join_groups_head g' gs Hg') as (c & s & Hc & Hhex). rewrite Hc. cbn [app].
  rewrite eqb_hex_colon by done. change (c :: s ++ chr_colon :: chr_colon :: tail) with ((c :: s) ++ [chr_colon; chr_colon] ++ tail).
  rewrite <- Hc. cbv iota zeta.
  rewrite IH; [|done|done|rewrite length_app, length_be_put; cbn [length] in *; lia|cbn [length] in *; lia].
  unfold bytes_of_groups. cbn [map concat length]. rewrite <- app_assoc.
  by replace (S fuel - S (S (length gs)))%nat with (fuel - S (length gs))%nat by lia.
Qed.

(** ** The run that is elided *)

Lemma zero_run_spec gs :
  (zero_run gs <= length gs)%nat /\ take (zero_run gs) gs = replicate (zero_run gs) 0.
Proof.
  induction gs as [|g gs [IH1 IH2]]; [done|]. cbn [zero_run].
  destruct (Z.eqb_spec g 0) as [->|]; [|split; [lia|done]].
  cbn [length take replicate]. split; [lia|by rewrite IH2].
Qed.

Definition run_ok (all : list Z) (best : nat * nat) : Prop :=
  best.2 = 0%nat \/ (2 <= best.2)%nat /\ (best.1 + best.2 <= length all)%nat /\
    all = take best.1 all ++ replicate best.2 0 ++ drop (best.1 + best.2) all.

Lemma longest_run_ok all gs : forall i best,
  drop i all = gs -> run_ok all best -> run_ok all (longest_run i gs best).
Proof.
  induction gs as [|g gs IH]; intros i best Hd Hb; [done|]. cbn [longest_run].
  apply IH.
  { replace (S i) with (i + 1)%nat by lia. rewrite <- drop_drop, Hd. done. }
  destruct (_ && _) eqn:E; [|done]. apply andb_prop in E as [E _]. apply Nat.leb_le in E.
  destruct (zero_run_spec (g :: gs)) as [Hl Ht]. right. cbn [fst snd].
  assert (Hlen : (i + length (g :: gs) <= length all)%nat).
  { rewrite <- Hd, length_drop. assert (length (drop i all) <> 0)%nat by (by rewrite Hd).
    rewrite length_drop in H. lia. }
  split_and!; [done|lia|]. by rewrite <- Ht, <- Hd, <- drop_drop, !take_drop.
Qed.

Lemma bytes_of_groups_app xs ys :
  bytes_of_groups (xs ++ ys) = bytes_of_groups xs ++ bytes_of_groups ys.
Proof. unfold bytes_of_groups. by rewrite map_app, concat_app. Qed.

Lemma bytes_of_zero_groups l : bytes_of_groups (replicate l 0) = replicate (2 * l) x00.
Proof.
  induction l as [|l IH]; [done|]. replace (2 * S l)%nat with (S (S (2 * l))) by lia.
  cbn [replicate]. rewrite <- IH. done.
Qed.

Lemma length_bytes_of_groups gs : length (bytes_of_groups gs) = (2 * length gs)%nat.
Proof.
  induction gs as [|g gs IH]; [done|]. unfold bytes_of_groups in *. cbn [map concat].
  rewrite length_app, length_be_put, IH. cbn [length]. lia.
Qed.

Lemma groups_of_ok ip : forall n, length ip = (2 * n)%nat ->
  Forall group_ok (groups_of ip) /\ length (groups_of ip) = n /\ bytes_of_groups (groups_of ip) = ip.
Proof.
  induction ip as [|x|a b ip IH] using list_pair_ind; intros n Hn; cbn [length] in Hn.
  - by replace n with 0%nat by lia.
  - lia.
  - destruct n as [|n]; [lia|]. destruct (IH n) as (H1 & H2 & H3); [lia|]. cbn [groups_of].
    split_and!.
    + constructor; [|done]. exact (be_get_range [a; b]).
    + cbn [length]. lia.
    + unfold bytes_of_groups in *. cbn [map concat]. rewrite H3.
      pose proof (be_put_get [a; b]) as Hbp. cbn [length] in Hbp. by rewrite Hbp.
Qed.

Lemma parse_plain_head gs s :
  Forall group_ok gs -> gs <> [] -> take 2 (join_groups gs ++ s) <> [chr_colon; chr_colon].
Proof.
  intros Hok Hne. destruct gs as [|g gs]; [done|]. apply list.Forall_cons in Hok as [Hg _].
  destruct (join_groups_head g gs Hg) as (c & t & -> & Hc). cbn. intros [= -> _].
  by apply is_hex_not_sep in Hc as [? _].
Qed.

(** The bytes before and after an ellipsis, put together. *)
Lemma expand_groups pre post l :
  (1 <= l)%nat -> (length pre + l + length post = 8)%nat ->
  expand_ellipsis (bytes_of_groups pre ++ bytes_of_groups post) (Some (length (bytes_of_groups pre)))
  = Some (bytes_of_groups (pre ++ replicate l 0 ++ post)).
Proof.
  intros Hl Hlen. unfold expand_ellipsis.
  rewrite length_app, !length_bytes_of_groups.
  destruct (Nat.ltb_spec (2 * length pre + 2 * length post) 16); [|lia].
  rewrite <- (length_bytes_of_groups pre), take_app_length, drop_app_length.
  rewrite !bytes_of_groups_app, bytes_of_zero_groups. do 4 f_equal.
  rewrite length_bytes_of_groups. lia.
Qed.

(** A text with its groups before and after the ellipsis is read. *)
Lemma parse_ellipsis pre post l :
  Forall group_ok pre -> Forall group_ok post -> (1 <= l)%nat ->
  (length pre + l + length post = 8)%nat ->
  parseIPv6 (join_groups pre ++ [chr_colon; chr_colon] ++ join_groups post)
  = Some (bytes_of_groups (pre ++ replicate l 0 ++ post)).
Proof.
  intros Hpre Hpost Hl Hlen. rewrite <- (expand_groups pre post l) by done. unfold parseIPv6.
  destruct (decide (pre = [])) as [->|Hne].
  - rewrite bool_decide_eq_true_2 by done. cbn [join_groups app drop andb]. rewrite drop_0.
    destruct post as [|g post].
    { rewrite bool_decide_eq_true_2 by done. done. }
    destruct (join_groups_head g post) as (c & s & Hc & Hx); [by apply list.Forall_cons in Hpost as [? _]|].
    rewrite bool_decide_eq_false_2 by (by rewrite Hc).
    rewrite loop_join by (done || (cbn [length] in *; lia)). cbn [mbind option_bind].
    by rewrite bool_decide_eq_true_2.
  - rewrite bool_decide_eq_false_2 by (by apply parse_plain_head). cbn [andb].
    rewrite loop_join_ellipsis by (done || (cbn [length]; lia)). cbn zeta. cbn [app].
    destruct post as [|g post].
    { cbn [join_groups mbind option_bind]. rewrite bool_decide_eq_true_2 by done.
      unfold bytes_of_groups at 3. cbn [map concat]. by rewrite app_nil_r. }
    destruct (join_groups_head g post) as (c & s & Hc & Hx); [by apply list.Forall_cons in Hpost as [? _]|].
    rewrite Hc, <- Hc. rewrite loop_join;
      [|done|done|rewrite length_bytes_of_groups; cbn [length] in *; lia|cbn [length] in *; lia].
    cbn [mbind option_bind]. by rewrite bool_decide_eq_true_2.
Qed.

Lemma ip6_String_parse a : len a = 16 -> parseIPv6 (ip6_String a) = Some a.
Proof.
  intros Ha. unfold len in Ha. destruct (groups_of_ok a 8 ltac:(lia)) as (Hok & Hlen & Hb).
  unfold ip6_String. set (gs := groups_of a) in *.
  destruct (longest_run 0 gs (0, 0)%nat) as [i l] eqn:E.
  assert (Hr : run_ok gs (i, l)) by (rewrite <- E; apply longest_run_ok; [done|by left]).
  destruct (Nat.eqb_spec l 0) as [->|Hl].
  - unfold parseIPv6. rewrite bool_decide_eq_false_2.
    2:{ rewrite <- (app_nil_r (join_groups gs)). apply parse_plain_head; [done|]. by intros Hg; rewrite Hg in Hlen. }
    cbn [andb]. rewrite loop_join by (done || (cbn [length]; lia) || (by intros Hg; rewrite Hg in Hlen)).
    cbn [mbind option_bind app]. rewrite bool_decide_eq_true_2 by done.
    unfold expand_ellipsis. rewrite length_bytes_of_groups, Hlen. cbn. by rewrite Hb.
  - destruct Hr as [Hr|(H2 & Hle & Heq)]; [by cbn in Hr|]. cbn [fst snd] in *.
    rewrite (parse_ellipsis _ _ l);
      [by rewrite <- Heq, Hb|by apply Forall_take|by apply Forall_drop|lia|].
    rewrite length_take, length_drop. lia.
Qed.

(** ** The scan for the first separator *)

Definition plain (c : byte) : Prop := c <> chr_dot /\ c <> chr_colon /\ c <> chr_percent.

Lemma eqb_ne (a b : byte) : a <> b -> Byte.eqb a b = false.
Proof.
  intros H. destruct (Byte.eqb a b) eqn:E; [|done]. by apply Byte.byte_dec_bl in E.
Qed.

Lemma scan_plain pre s in_ : Forall plain pre -> ParseAddr_scan (pre ++ s) in_ = ParseAddr_scan s in_.
Proof.
  induction 1 as [|c pre (H1 & H2 & H3) _ IH]; [done|]. cbn [app ParseAddr_scan].
  by rewrite !eqb_ne.
Qed.

Lemma hex_plain c : is_hex c -> plain c.
Proof. intros H. apply is_hex_not_sep in H as (? & ? & ? & _). by split_and!. Qed.

Lemma dec_is_hex c : is_dec c = true -> is_hex c.
Proof. unfold is_dec, is_hex, fromHexChar. by intros ->. Qed.

Lemma FormatUint_octet_plain b : Forall plain (FormatUint (b2z b)).
Proof.
  pose proof (FormatUint_dec (b2z b)) as H. pose proof (b2z_range b).
  eapply Forall_impl; [|apply H; lia]. intros c Hc. by apply hex_plain, dec_is_hex.
Qed.

Lemma ParseIP_ip4 a : len a = 4 -> ParseIP (ip4_String a) = Some (v4InV6Prefix ++ a).
Proof.
  intros Ha. unfold ParseIP, ip4_String at 1. rewrite scan_plain by apply FormatUint_octet_plain.
  cbn [app ParseAddr_scan]. change (Byte.eqb chr_dot chr_dot) with true. cbv iota.
  by rewrite ip4_String_parse.
Qed.

(** The characters of an IPv6 address: hexadecimal digits and colons, with a colon
    after the first digits. *)
Lemma join_groups_chars gs :
  Forall group_ok gs -> Forall (fun c => is_hex c \/ c = chr_colon) (join_groups gs).
Proof.
  induction 1 as [|g gs Hg _ IH]; [done|]. rewrite join_groups_cons.
  apply Forall_app. split.
  - destruct (appendHex_hex g Hg) as [H _]. eapply Forall_impl; [|exact H]. by left.
  - destruct gs; [done|]. constructor; [by right|done].
Qed.

Lemma ip6_String_chars a : len a = 16 -> Forall (fun c => is_hex c \/ c = chr_colon) (ip6_String a).
Proof.
  intros Ha. unfold len in Ha. destruct (groups_of_ok a 8 ltac:(lia)) as (Hok & _ & _).
  unfold ip6_String. destruct (longest_run _ _ _) as [i l].
  destruct (l =? 0)%nat; [by apply join_groups_chars|].
  apply Forall_app; split; [by apply join_groups_chars, Forall_take|].
  constructor; [by right|]. constructor; [by right|]. by apply join_groups_chars, Forall_drop.
Qed.

Lemma ip6_String_colon a :
  len a = 16 -> exists pre s, ip6_String a = pre ++ chr_colon :: s /\ Forall is_hex pre.
Proof.
  intros Ha. unfold len in Ha. destruct (groups_of_ok a 8 ltac:(lia)) as (Hok & Hlen & _).
  assert (Hj : forall g gs s, group_ok g -> gs <> [] \/ s <> [] ->
    exists pre s', join_groups (g :: gs) ++ [chr_colon] ++ s = pre ++ chr_colon :: s' /\ Forall is_hex pre).
  { intros g gs s Hg _. rewrite join_groups_cons. destruct (appendHex_hex g Hg) as [H _].
    rewrite <- app_assoc. destruct gs; eexists _, _; by split. }
  unfold ip6_String. destruct (groups_of a) as [|g gs] eqn:E; [done|].
  apply list.Forall_cons in Hok as [Hg Hok].
  destruct (longest_run _ _ _) as [i l]. destruct (l =? 0)%nat.
  - destruct gs as [|g' gs]; [done|]. rewrite join_groups_cons.
    eexists _, _. split; [done|]. by apply appendHex_hex.
  - destruct i as [|i]; [eexists [], _; by split|]. cbn [take]. apply Hj; [done|].
    by right.
Qed.

Lemma ParseIP_ip6 a : len a = 16 -> ParseIP (ip6_String a) = Some a.
Proof.
  intros Ha. destruct (ip6_String_colon a Ha) as (pre & s & Hs & Hpre).
  unfold ParseIP. rewrite Hs at 1. rewrite scan_plain.
  2:{ eapply Forall_impl; [|exact Hpre]. apply hex_plain. }
  cbn [ParseAddr_scan]. change (Byte.eqb chr_colon chr_dot) with false.
  change (Byte.eqb chr_colon chr_colon) with true. cbv iota.
  rewrite bool_decide_eq_false_2; [by apply ip6_String_parse|].
  intros Hin. pose proof (ip6_String_chars a Ha) as Hc. rewrite list.Forall_forall in Hc.
  destruct (Hc _ Hin) as [H|H]; [by apply is_hex_not_sep in H as (_ & _ & ? & _)|done].
Qed.

(** Reading an address back gives its 16 byte form. *)
Lemma ParseIP_String ip :
  len ip = 4 \/ len ip = 16 -> ParseIP (IP_String ip) = Some (IP_To16 ip).
Proof.
  intros Hl. unfold IP_String, IP_To16.
  rewrite bool_decide_eq_false_2 by (intros ->; by destruct Hl).
  unfold IP_To4. destruct Hl as [Hl|Hl]; rewrite Hl.
  - by apply ParseIP_ip4.
  - cbn [Z.eqb Pos.eqb negb andb]. case_bool_decide as Hp; [|by apply ParseIP_ip6].
    rewrite ParseIP_ip4; [by rewrite <- Hp, take_drop|].
    unfold len in *. rewrite length_drop. lia.
Qed.

(** ** Hosts and ports *)

Lemma IndexByte_app s c t : c ∉ s -> IndexByte (s ++ c :: t) c = Some (length s).
Proof.
  induction s as [|x s IH]; intros Hs; cbn [app IndexByte length].
  - by rewrite decide_True.
  - rewrite elem_of_cons in Hs. rewrite decide_False by (intros ->; tauto). by rewrite IH by tauto.
Qed.

Definition no_brackets (s : list byte) : Prop := chr_lbracket ∉ s /\ chr_rbracket ∉ s.

Lemma SplitHostPort_Join host port :
  no_brackets host -> no_brackets port -> chr_colon ∉ port ->
  SplitHostPort (JoinHostPort host port) = Some (host, port).
Proof.
  intros [Hl Hr] [Hpl Hpr] Hc. unfold JoinHostPort. case_bool_decide as Hcol.
  - set (s := [chr_lbracket] ++ host ++ [chr_rbracket; chr_colon] ++ port).
    assert (Hs : s = ((chr_lbracket :: host) ++ [chr_rbracket]) ++ chr_colon :: port).
    { subst s. cbn [app]. by rewrite <- app_assoc. }
    unfold SplitHostPort. rewrite Hs, LastIndexByte_app by done. cbn [mbind option_bind].
    rewrite <- Hs. rewrite bool_decide_eq_true_2 by done.
    subst s. cbn [app]. change (chr_lbracket :: host ++ chr_rbracket :: chr_colon :: port)
      with ((chr_lbracket :: host) ++ chr_rbracket :: chr_colon :: port).
    rewrite IndexByte_app by (rewrite elem_of_cons; intros [|]; done). cbn [mbind option_bind].
    replace (length (chr_lbracket :: host ++ [chr_rbracket])) with (S (S (length host)))
      by (cbn [length]; rewrite length_app; cbn [length]; lia).
    cbn [length]. rewrite Nat.eqb_refl. cbn [mbind option_bind app drop Nat.sub].
    rewrite Nat.sub_0_r, drop_0, take_app_length.
    rewrite bool_decide_eq_false_2.
    2:{ rewrite not_elem_of_app, !not_elem_of_cons. split_and!; done. }
    rewrite !drop_app_ge by lia.
    replace (S (length host) - length host)%nat with 1%nat by lia.
    replace (S (S (length host)) - length host)%nat with 2%nat by lia. cbn [drop].
    rewrite !drop_0. rewrite bool_decide_eq_false_2; [done|].
    rewrite not_elem_of_cons. by split.
  - unfold SplitHostPort. cbn [app]. rewrite LastIndexByte_app by done. cbn [mbind option_bind].
    rewrite bool_decide_eq_false_2.
    2:{ destruct host as [|c host]; [done|]. cbn. intros [= ->]. apply Hl. by left. }
    rewrite take_app_length, bool_decide_eq_false_2 by done. cbn [mbind option_bind].
    rewrite !drop_0. rewrite bool_decide_eq_false_2.
    2:{ rewrite not_elem_of_app, not_elem_of_cons. by split_and!. }
    rewrite bool_decide_eq_false_2.
    2:{ rewrite not_elem_of_app, not_elem_of_cons. by split_and!. }
    do 2 f_equal. rewrite drop_app_ge by lia.
    by replace (S (length host) - length host)%nat with 1%nat by lia.
Qed.

(** ** Base32 *)

Definition base32_char (d : Z) : byte := nth (Z.to_nat d) base32_alphabet x00.
Definition base32_digit (v : Z) (i : nat) : Z := Z.land (Z.shiftr v (35 - 5 * Z.of_nat i)) 31.

(** What the character of a digit is good for: it is read back, also after a change
    of case, and is no padding and no line break. *)
Definition base32_char_ok (d : Z) : bool :=
  let c := base32_char d in
  bool_decide (to_upper (to_lower c) = c) && bool_decide (base32_value c = Some d) &&
  negb (Byte.eqb c base32_pad) && bool_decide (c <> x0a /\ c <> x0d).

Lemma base32_char_all d : 0 <= d < 32 -> base32_char_ok d = true.
Proof.
  intros Hd.
  assert (Hall : forallb (fun n => base32_char_ok (Z.of_nat n)) (seq 0 32) = true)
    by (vm_compute; reflexivity).
  rewrite forallb_forall in Hall. rewrite <- (Z2Nat.id d) by lia. apply Hall, in_seq. lia.
Qed.

Lemma base32_char_facts d : 0 <= d < 32 ->
  to_upper (to_lower (base32_char d)) = base32_char d /\
  base32_value (base32_char d) = Some d /\ Byte.eqb (base32_char d) base32_pad = false /\
  (base32_char d <> x0a /\ base32_char d <> x0d).
Proof.
  intros Hd. pose proof (base32_char_all d Hd) as H. unfold base32_char_ok in H. cbv zeta in H.
  rewrite !andb_true_iff, !bool_decide_eq_true, negb_true_iff in H. tauto.
Qed.

Lemma base32_digit_range v i : 0 <= base32_digit v i < 32.
Proof.
  unfold base32_digit. change 31 with (Z.ones 5). rewrite Z.land_ones by lia.
  apply Z.mod_pos_bound. lia.
Qed.

Lemma base32_digits_value v :
  0 <= v < 2 ^ 40 -> foldl (fun n d => n * 32 + d) 0 (map (base32_digit v) (seq 0 8)) = v.
Proof.
  intros Hv. cbn [map seq foldl].
  assert (Hd : forall i k, (35 - 5 * Z.of_nat i = 5 * k) -> 0 <= k ->
    base32_digit v i = v / 32 ^ k mod 32).
  { intros i k Hi Hk. unfold base32_digit. change 31 with (Z.ones 5).
    rewrite Z.land_ones, Z.shiftr_div_pow2, Hi by lia. by rewrite Z.pow_mul_r by lia. }
  rewrite (Hd 0%nat 7), (Hd 1%nat 6), (Hd 2%nat 5), (Hd 3%nat 4), (Hd 4%nat 3), (Hd 5%nat 2),
    (Hd 6%nat 1), (Hd 7%nat 0) by lia.
  assert (Hq : forall k k', 0 <= k -> k' = k + 1 ->
    v / 32 ^ k = 32 * (v / 32 ^ k') + v / 32 ^ k mod 32).
  { intros k k' Hk ->. rewrite Z.pow_add_r, <- Z.div_div by lia. change (32 ^ 1) with 32.
    apply Z.div_mod. lia. }
  pose proof (Hq 0 1 ltac:(lia) eq_refl) as H0. pose proof (Hq 1 2 ltac:(lia) eq_refl) as H1.
  pose proof (Hq 2 3 ltac:(lia) eq_refl) as H2. pose proof (Hq 3 4 ltac:(lia) eq_refl) as H3.
  pose proof (Hq 4 5 ltac:(lia) eq_refl) as H4. pose proof (Hq 5 6 ltac:(lia) eq_refl) as H5.
  pose proof (Hq 6 7 ltac:(lia) eq_refl) as H6.
  assert (H7 : v / 32 ^ 7 < 32) by (apply Z.div_lt_upper_bound; lia).
  pose proof (Z.div_pos v (32 ^ 7) ltac:(lia) ltac:(lia)) as H8.
  rewrite (Z.mod_small (v / 32 ^ 7)) by lia.
  replace (v / 32 ^ 0) with v in * by (symmetry; apply Z.div_1_r). clear Hd Hq.
  generalize dependent (v / 32 ^ 1). generalize dependent (v / 32 ^ 2).
  generalize dependent (v / 32 ^ 3). generalize dependent (v / 32 ^ 4).
  generalize dependent (v / 32 ^ 5). generalize dependent (v / 32 ^ 6).
  generalize dependent (v / 32 ^ 7). intros q7 ? ? q6 ? q5 ? q4 ? q3 ? q2 ? q1 ? ?.
  generalize dependent (v mod 32). generalize dependent (q1 mod 32).
  generalize dependent (q2 mod 32). generalize dependent (q3 mod 32).
  generalize dependent (q4 mod 32). generalize dependent (q5 mod 32).
  generalize dependent (q6 mod 32). intros. lia.
Qed.

(** A whole quantum is read, digit by digit. *)
Lemma base32_read_chars ds rest : forall dbuf,
  Forall (fun d => 0 <= d < 32) ds -> (length dbuf + length ds = 8)%nat ->
  base32_read_quantum (length dbuf) (map base32_char ds ++ rest) dbuf = Some (dbuf ++ ds, rest, false).
Proof.
  induction ds as [|d ds IH]; intros dbuf Hds Hlen; cbn [length] in Hlen.
  - rewrite app_nil_r. cbn [map app].
    destruct rest; cbn [base32_read_quantum]; by rewrite (proj2 (Nat.eqb_eq _ _)) by lia.
  - apply list.Forall_cons in Hds as [Hd Hds]. cbn [map app base32_read_quantum].
    rewrite (proj2 (Nat.eqb_neq _ _)) by lia.
    destruct (base32_char_facts d Hd) as (_ & Hv & Hp & _). rewrite Hp, Hv. cbn [andb mbind option_bind].
    replace (S (length dbuf)) with (length (dbuf ++ [d])) by (rewrite length_app; cbn; lia).
    rewrite IH; [by rewrite <- app_assoc|done|]. rewrite length_app. cbn [length]. lia.
Qed.

Definition quantum_digits (bs : list byte) : list Z := map (base32_digit (be_get bs)) (seq 0 8).

Lemma base32_quantum_chars bs : base32_quantum bs = map base32_char (quantum_digits bs).
Proof. done. Qed.

Lemma quantum_digits_ok bs : Forall (fun d => 0 <= d < 32) (quantum_digits bs).
Proof. unfold quantum_digits. apply Forall_map, list.Forall_forall. intros. apply base32_digit_range. Qed.

Lemma base32_bytes_quantum bs : length bs = 5%nat -> base32_bytes (quantum_digits bs) = bs.
Proof.
  intros H5. unfold base32_bytes. pose proof (be_get_range bs) as Hr. rewrite H5 in Hr.
  assert (Hl : length (quantum_digits bs) = 8%nat) by (unfold quantum_digits; by rewrite length_map).
  rewrite Hl. rewrite take_app_le by lia. rewrite (take_ge (quantum_digits bs)) by lia. unfold quantum_digits.
  rewrite base32_digits_value by exact Hr.
  rewrite <- H5, be_put_get. apply take_ge. rewrite H5. vm_compute. lia.
Qed.

(** Lists cut in fives. *)
Lemma list_five_ind {A} (P : list A -> Prop) :
  P [] -> (forall a b c d e l, P l -> P (a :: b :: c :: d :: e :: l)) ->
  forall k l, length l = (5 * k)%nat -> P l.
Proof.
  intros H0 H5. induction k as [|k IH]; intros l Hl.
  - by destruct l.
  - do 5 (destruct l as [|? l]; [cbn in Hl; lia|]). apply H5, IH. cbn [length] in Hl. lia.
Qed.

Lemma base32_Encode_facts k bs :
  length bs = (5 * k)%nat ->
  map to_upper (map to_lower (base32_Encode bs)) = base32_Encode bs /\
  base.filter (fun c => c <> x0a /\ c <> x0d) (base32_Encode bs) = base32_Encode bs /\
  length (base32_Encode bs) = (8 * k)%nat.
Proof.
  intros Hl. assert (Hk : Forall (fun c => exists d, 0 <= d < 32 /\ c = base32_char d) (base32_Encode bs) /\
    (length (base32_Encode bs) * 5 = 8 * length bs)%nat).
  { revert k bs Hl. apply list_five_ind; [done|]. intros a b c d e l [IH1 IH2].
    cbn [base32_Encode]. rewrite base32_quantum_chars, length_app, length_map. split.
    - apply Forall_app. split; [|done]. apply Forall_map.
      eapply Forall_impl; [|apply quantum_digits_ok]. intros x Hx. by exists x.
    - unfold quantum_digits. rewrite length_map, length_seq. cbn [length]. lia. }
  destruct Hk as [Hc Hlen]. split_and!; [| |lia].
  - clear Hlen. induction Hc as [|c l (d & Hd & ->) _ IH]; [done|]. cbn [map].
    rewrite IH. by destruct (base32_char_facts d Hd) as (-> & _).
  - clear Hlen. induction Hc as [|c l (d & Hd & ->) _ IH]; [done|].
    rewrite filter_cons_True by (by destruct (base32_char_facts d Hd) as (_ & _ & _ & ?)).
    by rewrite IH.
Qed.

Lemma base32_decode_Encode k bs : length bs = (5 * k)%nat -> forall fuel out,
  (k < fuel)%nat -> base32_decode_loop fuel (base32_Encode bs) out = Some (out ++ bs).
Proof.
  revert bs. induction k as [|k IH]; intros bs Hl fuel out Hf; (destruct fuel as [|fuel]; [lia|]).
  - destruct bs; [|done]. cbn. by rewrite app_nil_r.
  - do 5 (destruct bs as [|? bs]; [cbn in Hl; lia|]). cbn [length] in Hl.
    cbn [base32_Encode]. rewrite base32_quantum_chars. cbn [base32_decode_loop].
    rewrite (base32_read_chars _ _ []) by (apply quantum_digits_ok || done).
    change (match map base32_char _ ++ _ with [] => _ | _ => ?x end) with x.
    cbn [mbind option_bind app]. rewrite base32_bytes_quantum by done.
    rewrite IH by lia. by rewrite <- app_assoc.
Qed.

(** The lower case form of an encoding, as host names have it, is read back. *)
Lemma base32_roundtrip k bs :
  length bs = (5 * k)%nat ->
  base32_DecodeString (map to_upper (map to_lower (base32_Encode bs))) = Some bs.
Proof.
  intros Hl. destruct (base32_Encode_facts k bs Hl) as (Hu & Hfil & Hlen).
  unfold base32_DecodeString. rewrite Hu, Hfil. by rewrite (base32_decode_Encode k) by lia.
Qed.
