(* ===== verification/AddrNetwork.v ===== *)
(** * addrmgr/network.go: the networks of addresses, their groups and their keys

    The reserved ranges, what is routable, and the group of an address, which
    decides the buckets of the address manager; then the textual keys of addresses
    ([wire/netaddressv2.go], [NetAddressKey]) and how they are read back
    ([HostToNetAddress], [DeserializeNetAddress]).  SHA3-256, for the checksum of an
    onion name, is third-party code and a parameter, as is the look-up of a host
    name.  The clock is an argument. *)

From Stdlib Require Import ZArith Lia.
From S2P Require Import Prelude WireCommon ChainHash WireNet NetText.
Open Scope Z_scope.

(** ** net.IPNet *)

Record IPNet : Type := mkIPNet { IPNet_IP : list byte; IPNet_Mask : list byte }.

Definition byte_and (a b : byte) : byte := z2b (Z.land (b2z a) (b2z b)).

(** [net.CIDRMask(ones, bits)]: [bits / 8] bytes with the first [ones] bits set. *)
Definition CIDRMask (ones bits : Z) : list byte :=
  be_put (Z.to_nat (bits / 8)) (2 ^ bits - 2 ^ (bits - ones)).

Definition ip_mask (ip mask : list byte) : list byte := zip_with byte_and ip mask.

(** [n.Contains(ip)]. *)
Definition networkNumberAndMask (n : IPNet) : list byte * list byte :=
  let m := IPNet_Mask n in
  match IP_To4 (IPNet_IP n) with
  | Some ip =>
      if len m =? 4 then (ip, m) else if len m =? 16 then (ip, drop 12 m) else ([], [])
  | None =>
      if (len (IPNet_IP n) =? 16) && (len m =? 16) then (IPNet_IP n, m) else ([], [])
  end.
Definition IPNet_Contains (n : IPNet) (ip : list byte) : bool :=
  let '(nn, m) := networkNumberAndMask n in
  let ip := default ip (IP_To4 ip) in
  (len ip =? len nn) && bool_decide (ip_mask nn m = ip_mask ip m).

(** [ip.Mask(mask)]; [None] is nil. *)
Definition IP_Mask (ip mask : list byte) : list byte :=
  let mask := if (len mask =? 16) && (len ip =? 4) && bool_decide (take 12 mask = replicate 12 xff)
              then drop 12 mask else mask in
  let ip := if (len mask =? 4) && (len ip =? 16) && bool_decide (take 12 ip = v4InV6Prefix)
            then drop 12 ip else ip in
  if len ip =? len mask then ip_mask ip mask else [].

Definition IPv4 (a b c d : byte) : list byte := v4InV6Prefix ++ [a; b; c; d].
Definition IPv4zero : list byte := IPv4 x00 x00 x00 x00.
Definition IPv4bcast : list byte := IPv4 xff xff xff xff.
Definition IPv6zero : list byte := replicate 16 x00.
Definition IPv6loopback : list byte := replicate 15 x00 ++ [x01].

Definition IP_Equal (ip x : list byte) : bool :=
  if len ip =? len x then bool_decide (ip = x)
  else if (len ip =? 4) && (len x =? 16) then bool_decide (x = v4InV6Prefix ++ ip)
  else if (len ip =? 16) && (len x =? 4) then bool_decide (ip = v4InV6Prefix ++ x)
  else false.
Definition IP_IsUnspecified (ip : list byte) : bool := IP_Equal ip IPv4zero || IP_Equal ip IPv6zero.
Definition IP_IsLoopback (ip : list byte) : bool :=
  match IP_To4 ip with
  | Some ip4 => b2z (at_ ip4 0) =? 127
  | None => IP_Equal ip IPv6loopback
  end.

(** ** The reserved ranges *)

(** [net.ParseIP] of a literal. *)
Definition ipNet (ip : string) (ones bits : Z) : IPNet :=
  mkIPNet (default [] (ParseIP (bytes_of ip))) (CIDRMask ones bits).

Definition rfc1918Nets : list IPNet :=
  Eval vm_compute in
  [ipNet "10.0.0.0" 8 32; ipNet "172.16.0.0" 12 32; ipNet "192.168.0.0" 16 32].
Definition rfc2544Net : IPNet := Eval vm_compute in ipNet "198.18.0.0" 15 32.
Definition rfc3849Net : IPNet := Eval vm_compute in ipNet "2001:DB8::" 32 128.
Definition rfc3927Net : IPNet := Eval vm_compute in ipNet "169.254.0.0" 16 32.
Definition rfc3964Net : IPNet := Eval vm_compute in ipNet "2002::" 16 128.
Definition rfc4193Net : IPNet := Eval vm_compute in ipNet "FC00::" 7 128.
Definition rfc4380Net : IPNet := Eval vm_compute in ipNet "2001::" 32 128.
Definition rfc4843Net : IPNet := Eval vm_compute in ipNet "2001:10::" 28 128.
Definition rfc7343Net : IPNet := Eval vm_compute in ipNet "2001:20::" 28 128.
Definition rfc4862Net : IPNet := Eval vm_compute in ipNet "FE80::" 64 128.
Definition rfc5737Net : list IPNet :=
  Eval vm_compute in
  [ipNet "192.0.2.0" 24 32; ipNet "198.51.100.0" 24 32; ipNet "203.0.113.0" 24 32].
Definition rfc6052Net : IPNet := Eval vm_compute in ipNet "64:FF9B::" 96 128.
Definition rfc6145Net : IPNet := Eval vm_compute in ipNet "::FFFF:0:0:0" 96 128.
Definition rfc6598Net : IPNet := Eval vm_compute in ipNet "100.64.0.0" 10 32.
Definition onionCatNet : IPNet := Eval vm_compute in ipNet "fd87:d87e:eb43::" 48 128.
Definition zero4Net : IPNet := Eval vm_compute in ipNet "0.0.0.0" 8 32.
Definition zero6Net : IPNet := Eval vm_compute in ipNet "::" 16 128.
Definition heNet : IPNet := Eval vm_compute in ipNet "2001:470::" 32 128.

Definition IsIPv4 (na : NetAddress) : bool := bool_decide (IP_To4 (NA_IP na) <> None).
Definition IsLocal (na : NetAddress) : bool :=
  IP_IsLoopback (NA_IP na) || IPNet_Contains zero4Net (NA_IP na).
Definition IsZero (na : NetAddress) : bool :=
  if IPNet_Contains zero4Net (NA_IP na) then true
  else if IPNet_Contains zero6Net (NA_IP na) then
    if IPNet_Contains rfc6145Net (NA_IP na) then false else true
  else false.
Definition IsOnionCatTor (na : NetAddress) : bool := IPNet_Contains onionCatNet (NA_IP na).
Definition IsRFC1918 (na : NetAddress) : bool :=
  existsb (fun rfc => IPNet_Contains rfc (NA_IP na)) rfc1918Nets.
Definition IsRFC2544 (na : NetAddress) : bool := IPNet_Contains rfc2544Net (NA_IP na).
Definition IsRFC3849 (na : NetAddress) : bool := IPNet_Contains rfc3849Net (NA_IP na).
Definition IsRFC3927 (na : NetAddress) : bool := IPNet_Contains rfc3927Net (NA_IP na).
Definition IsRFC3964 (na : NetAddress) : bool := IPNet_Contains rfc3964Net (NA_IP na).
Definition IsRFC4193 (na : NetAddress) : bool := IPNet_Contains rfc4193Net (NA_IP na).
Definition IsRFC4380 (na : NetAddress) : bool := IPNet_Contains rfc4380Net (NA_IP na).
Definition IsRFC4843 (na : NetAddress) : bool := IPNet_Contains rfc4843Net (NA_IP na).
Definition IsRFC7343 (na : NetAddress) : bool := IPNet_Contains rfc7343Net (NA_IP na).
Definition IsRFC4862 (na : NetAddress) : bool := IPNet_Contains rfc4862Net (NA_IP na).
Definition IsRFC5737 (na : NetAddress) : bool :=
  existsb (fun rfc => IPNet_Contains rfc (NA_IP na)) rfc5737Net.
Definition IsRFC6052 (na : NetAddress) : bool := IPNet_Contains rfc6052Net (NA_IP na).
Definition IsRFC6145 (na : NetAddress) : bool := IPNet_Contains rfc6145Net (NA_IP na).
Definition IsRFC6598 (na : NetAddress) : bool := IPNet_Contains rfc6598Net (NA_IP na).

(** A nil [net.IP] is the empty list. *)
Definition IsValid (na : NetAddress) : bool :=
  bool_decide (NA_IP na <> []) &&
  negb (IP_IsUnspecified (NA_IP na) || IP_Equal (NA_IP na) IPv4bcast).

(** [na.ToLegacy()] where the code goes on to use it: it is nil for a Tor v3 address
    only, which every caller has sorted out before ([legacy_ToLegacy]). *)
Definition legacy (na : NetAddressV2) : NetAddress :=
  default zeroNetAddress (NetAddressV2_ToLegacy na).

Definition IsRoutable (na : NetAddressV2) : bool :=
  if NetAddressV2_IsTorV3 na then true
  else
    let lna := legacy na in
    IsValid lna && negb (IsRFC1918 lna || IsRFC2544 lna || IsRFC3927 lna || IsRFC4862 lna ||
      IsRFC3849 lna || IsRFC4843 lna || IsRFC7343 lna || IsRFC5737 lna || IsRFC6598 lna ||
      IsLocal lna || IsZero lna || (IsRFC4193 lna && negb (IsOnionCatTor lna))).

(** The first byte of a Tor v3 key; the code panics on other addresses. *)
Definition TorV3Key (na : NetAddressV2) : option byte :=
  match NA2_Addr na with
  | Some (torv3Addr a) => Some (at_ a 0)
  | _ => None
  end.

Definition tor_group (b : byte) : list byte :=
  bytes_of "tor:" ++ FormatUint (Z.land (b2z b) (2 ^ 4 - 1)).

(** The group of four bytes of an IPv4 address. *)
Definition group4 (ip : list byte) : list byte := IP_String (IP_Mask ip (CIDRMask 16 32)).

Definition GroupKey (na : NetAddressV2) : list byte :=
  match TorV3Key na with
  | Some b => tor_group b
  | None =>
      let lna := legacy na in
      let ip := NA_IP lna in
      if IsLocal lna then bytes_of "local"
      else if negb (IsRoutable na) then bytes_of "unroutable"
      else if IsIPv4 lna then group4 ip
      else if IsRFC6145 lna || IsRFC6052 lna then group4 (drop 12 ip)
      else if IsRFC3964 lna then group4 (take 4 (drop 2 ip))
      else if IsRFC4380 lna then
        group4 (map (fun b => z2b (Z.lxor (b2z b) 0xff)) (drop 12 ip))
      else if IsOnionCatTor lna then tor_group (at_ ip 6)
      else
        let bits := if IPNet_Contains heNet ip then 36 else 32 in
        IP_String (IP_Mask ip (CIDRMask bits 128))
  end.

(** ** Names and keys *)

Definition dot_onion : list byte := bytes_of ".onion".
Definition TorV2EncodedSize : Z := 22.
Definition TorV3EncodedSize : Z := 62.

Section Keys.
Variable sha3_Sum256 : list byte -> list byte.

Definition ipv4Addr_String (a : list byte) : list byte := IP_String a.
Definition ipv6Addr_String (a : list byte) : list byte := IP_String a.
Definition torv2Addr_String (a : list byte) : list byte :=
  map to_lower (base32_Encode a) ++ dot_onion.
Definition torV3Version : list byte := [x03].
Definition torv3Addr_String (a : list byte) : list byte :=
  let truncatedChecksum := take 2 (sha3_Sum256 (bytes_of ".onion checksum" ++ a ++ torV3Version)) in
  map to_lower (base32_Encode (a ++ truncatedChecksum ++ torV3Version)) ++ dot_onion.
(** [string(a.netID)]: the identifiers are below 128, and so one byte of UTF-8. *)
Definition ipv4Addr_Network : list byte := [z2b id_ipv4].
Definition ipv6Addr_Network : list byte := [z2b id_ipv6].
Definition torv2Addr_Network : list byte := [z2b id_torv2].
Definition torv3Addr_Network : list byte := [z2b id_torv3].
Definition NetAddr_Network (a : NetAddr) : list byte :=
  match a with
  | ipv4Addr _ => ipv4Addr_Network
  | ipv6Addr _ => ipv6Addr_Network
  | torv2Addr _ => torv2Addr_Network
  | torv3Addr _ => torv3Addr_Network
  end.

Definition NetAddr_String (a : NetAddr) : list byte :=
  match a with
  | ipv4Addr a => ipv4Addr_String a
  | ipv6Addr a => ipv6Addr_String a
  | torv2Addr a => torv2Addr_String a
  | torv3Addr a => torv3Addr_String a
  end.

(** The method call on a nil [Addr] panics: [None]. *)
Definition NetAddressKey (na : NetAddressV2) : option (list byte) :=
  a ← NA2_Addr na;
  Some (JoinHostPort (NetAddr_String a) (FormatUint (NA2_Port na))).

(** ** Reading them back *)

Variable lookupFunc : list byte -> option (list (list byte)).

(** [base32.StdEncoding.DecodeString] decodes in place: the second component is
    what is behind the decoded bytes in the buffer of the string. *)
Definition DecodeString_buffer (s : list byte) : option (list byte * list byte) :=
  data ← base32_DecodeString s;
  let src := base.filter (fun c => c <> x0a /\ c <> x0d) s in
  Some (data, drop (length data) (src ++ drop (length src) s)).

Definition has_suffix_at (host : list byte) (n : Z) : bool :=
  (len host =? n) && bool_decide (drop (Z.to_nat (n - 6)) host = dot_onion).

(** [data[:TorV3Size]] may reach behind the decoded bytes, but not past the buffer. *)
Definition HostToNetAddress (now : Z) (host : list byte) (port services : Z)
    : option NetAddressV2 :=
  if has_suffix_at host TorV2EncodedSize then
    r ← DecodeString_buffer (map to_upper (take (Z.to_nat (TorV2EncodedSize - 6)) host));
    Some (NetAddressV2FromBytes now services (fst r) port)
  else if has_suffix_at host TorV3EncodedSize then
    r ← DecodeString_buffer (map to_upper (take (Z.to_nat (TorV3EncodedSize - 6)) host));
    Some (NetAddressV2FromBytes now services (take (Z.to_nat TorV3Size) (fst r ++ snd r)) port)
  else match ParseIP host with
       | None =>
           ips ← lookupFunc host;
           ip ← head ips;
           Some (NetAddressV2FromBytes now services ip port)
       | Some ip => Some (NetAddressV2FromBytes now services ip port)
       end.

Definition DeserializeNetAddress (now : Z) (addr : list byte) (services : Z)
    : option NetAddressV2 :=
  hp ← SplitHostPort addr;
  port ← ParseUint 16 (snd hp);
  HostToNetAddress now (fst hp) port services.
End Keys.

(** ** On concrete addresses *)

Definition test_v4 (a b c d : byte) : NetAddressV2 := mkNetAddressV2 0 0 (Some (ipv4Addr [a; b; c; d])) 8333.
Definition test_v6 (s : string) : NetAddressV2 :=
  NetAddressV2FromBytes 0 0 (default [] (ParseIP (bytes_of s))) 8333.

Example routable_example :
  IsRoutable (test_v4 x08 x08 x08 x08) = true /\ IsRoutable (test_v4 x0a x00 x00 x01) = false /\
  IsRoutable (test_v4 xac x10 x01 x01) = false /\ IsRoutable (test_v4 x00 x01 x02 x03) = false /\
  IsRoutable (test_v4 xff xff xff xff) = false /\ IsRoutable (test_v6 "::1") = false /\
  IsRoutable (test_v6 "2001:db8::1") = false /\ IsRoutable (test_v6 "2001:470::1") = true /\
  IsRoutable (test_v6 "fd87:d87e:eb43::1") = true /\ IsRoutable (test_v6 "fd00::1") = false /\
  IsRoutable (test_v6 "::ffff:0:1.2.3.4") = true /\ IsRoutable (test_v6 "64:ff9b::1.2.3.4") = true.
Proof. vm_compute. split_and!; reflexivity. Qed.

Example group_example :
  GroupKey (test_v4 x0c x01 x02 x03) = bytes_of "12.1.0.0" /\
  GroupKey (test_v4 x7f x00 x00 x01) = bytes_of "local" /\
  GroupKey (test_v4 x0a x01 x02 x03) = bytes_of "unroutable" /\
  GroupKey (test_v6 "2002:0c01:0203::") = bytes_of "12.1.0.0" /\
  GroupKey (test_v6 "2001:0:9d38:6ab8:384e:1c3e:b4fe:fdfc") = bytes_of "75.1.0.0" /\
  GroupKey (test_v6 "2001:470:1f10:a1::2") = bytes_of "2001:470:1000::" /\
  GroupKey (test_v6 "2602:100::1") = bytes_of "2602:100::" /\
  GroupKey (test_v6 "fd87:d87e:eb43:1234::5678") = bytes_of "tor:2".
Proof. vm_compute. split_and!; reflexivity. Qed.

Example key_example sha3 :
  NetAddressKey sha3 (test_v4 x0c x01 x02 x03) = Some (bytes_of "12.1.2.3:8333") /\
  NetAddressKey sha3 (test_v6 "2001:470::1") = Some (bytes_of "[2001:470::1]:8333") /\
  NetAddressKey sha3 (test_v6 "fd87:d87e:eb43::") = Some (bytes_of "aaaaaaaaaaaaaaaa.onion:8333").
Proof. vm_compute. split_and!; reflexivity. Qed.

(** ** Keys are read back *)

Lemma legacy_ToLegacy na :
  NetAddressV2_IsTorV3 na = false -> NetAddressV2_ToLegacy na = Some (legacy na).
Proof. destruct na as [t s [[]|] p]; done. Qed.

(** The lower case characters of an onion name. *)
Definition onion_char_ok (c : byte) : bool :=
  negb (existsb (Byte.eqb c) [chr_colon; chr_lbracket; chr_rbracket]).

Lemma base32_lower_ok d : 0 <= d < 32 -> onion_char_ok (to_lower (base32_char d)) = true.
Proof.
  intros Hd.
  assert (Hall : forallb (fun n => onion_char_ok (to_lower (base32_char (Z.of_nat n)))) (seq 0 32) = true)
    by (vm_compute; reflexivity).
  rewrite forallb_forall in Hall. rewrite <- (Z2Nat.id d) by lia. apply Hall, in_seq. lia.
Qed.

Lemma onion_chars k bs :
  length bs = (5 * k)%nat ->
  Forall (fun c => onion_char_ok c = true) (map to_lower (base32_Encode bs) ++ dot_onion).
Proof.
  intros Hl. apply Forall_app. split; [|by repeat constructor].
  revert k bs Hl. apply list_five_ind; [done|]. intros a b c d e l IH.
  cbn [base32_Encode]. rewrite map_app. apply Forall_app. split; [|done].
  rewrite base32_quantum_chars. rewrite map_map. apply Forall_map.
  eapply Forall_impl; [|apply quantum_digits_ok]. apply base32_lower_ok.
Qed.

Lemma onion_host s :
  Forall (fun c => onion_char_ok c = true) s -> no_brackets s /\ chr_colon ∉ s.
Proof.
  intros H. rewrite list.Forall_forall in H. unfold no_brackets.
  split_and!; intros Hin; by apply H in Hin.
Qed.

(** The characters of an IP address: none of a suffix of a name, no bracket. *)
Lemma ip4_String_chars a : len a = 4 -> Forall (fun c => is_hex c \/ c = chr_dot) (ip4_String a).
Proof.
  intros Ha.
  assert (H : forall i, Forall (fun c => is_hex c \/ c = chr_dot) (FormatUint (b2z (at_ a i)))).
  { intros i. eapply Forall_impl; [|apply FormatUint_dec; pose proof (b2z_range (at_ a i)); lia].
    intros c Hc. left. by apply dec_is_hex. }
  unfold ip4_String. rewrite !Forall_app. split_and!; auto; repeat constructor; by right.
Qed.

Lemma IP_String_chars a :
  len a = 4 \/ len a = 16 -> Forall (fun c => is_hex c \/ c = chr_dot \/ c = chr_colon) (IP_String a).
Proof.
  intros Ha. unfold IP_String. rewrite bool_decide_eq_false_2 by (intros ->; by destruct Ha).
  assert (H4 : forall x, len x = 4 ->
    Forall (fun c => is_hex c \/ c = chr_dot \/ c = chr_colon) (ip4_String x)).
  { intros x Hx. eapply Forall_impl; [|by apply ip4_String_chars]. intros c. cbn. tauto. }
  unfold IP_To4. destruct Ha as [Ha|Ha]; rewrite Ha; cbn [Z.eqb Pos.eqb negb andb]; [by apply H4|].
  case_bool_decide as Hp.
  - apply H4. unfold len in *. rewrite length_drop. lia.
  - eapply Forall_impl; [|by apply ip6_String_chars]. intros c. cbn. tauto.
Qed.

Lemma IP_String_host a :
  len a = 4 \/ len a = 16 -> no_brackets (IP_String a) /\ x6f ∉ IP_String a.
Proof.
  intros Ha. pose proof (IP_String_chars a Ha) as H. rewrite list.Forall_forall in H. unfold no_brackets.
  split_and!; intros Hin; apply H in Hin as [Hc|[Hc|Hc]]; done || (by apply Hc).
Qed.

Lemma no_suffix host n : x6f ∉ host -> has_suffix_at host n = false.
Proof.
  intros H. unfold has_suffix_at. apply andb_false_intro2, bool_decide_eq_false_2.
  intros Hd. apply H. rewrite <- (take_drop (Z.to_nat (n - 6)) host), Hd, elem_of_app.
  right. rewrite list_elem_of_In. vm_compute. tauto.
Qed.

Section ReadBack.
Variable sha3_Sum256 : list byte -> list byte.
Hypothesis sha3_size : forall x, length (sha3_Sum256 x) = 32%nat.
Variable lookupFunc : list byte -> option (list (list byte)).

Lemma FromBytes_IP now services port ip a :
  NetAddr_ok a -> (exists x, a = ipv4Addr x /\ ip = x \/ a = ipv6Addr x /\ ip = x) ->
  NetAddressV2FromBytes now services (IP_To16 ip) port = mkNetAddressV2 now services (Some a) port.
Proof.
  intros Hok (x & [[-> ->]|[-> ->]]).
  - destruct (from_bytes_legacy now services port (ipv4Addr x) Hok) as [Hl <-]; [done|].
    cbn [legacy_ip16 NetAddr_ok] in *. unfold IP_To16. by rewrite Hok.
  - destruct (from_bytes_legacy now services port (ipv6Addr x) Hok) as [Hl <-]; [done|].
    cbn [legacy_ip16] in *. unfold IP_To16. by rewrite Hl.
Qed.

Lemma read_onion k n bs :
  length bs = (5 * k)%nat -> n = 8 * Z.of_nat k + 6 ->
  let host := map to_lower (base32_Encode bs) ++ dot_onion in
  len host = n /\ has_suffix_at host n = true /\
  exists spare, DecodeString_buffer (map to_upper (take (Z.to_nat (n - 6)) host)) = Some (bs, spare).
Proof.
  intros Hl ->. destruct (base32_Encode_facts k bs Hl) as (_ & _ & Hlen). cbv zeta.
  set (e := map to_lower (base32_Encode bs)).
  assert (He : length e = (8 * k)%nat) by (unfold e; by rewrite length_map).
  assert (Hn : Z.to_nat (8 * Z.of_nat k + 6 - 6) = length e) by lia.
  assert (H0 : len (e ++ dot_onion) = 8 * Z.of_nat k + 6)
    by (unfold len; rewrite length_app, He; cbn; lia).
  split_and!; [done| |].
  - unfold has_suffix_at. rewrite H0, Z.eqb_refl, Hn, drop_app_length. by apply bool_decide_eq_true_2.
  - rewrite Hn, take_app_length. unfold DecodeString_buffer. unfold e.
    rewrite (base32_roundtrip k) by done. cbn [mbind option_bind]. by eexists.
Qed.

(** The name of an address gives the address. *)
Lemma HostToNetAddress_String now a port services :
  NetAddr_ok a ->
  HostToNetAddress lookupFunc now (NetAddr_String sha3_Sum256 a) port services =
  Some (mkNetAddressV2 now services (Some a) port).
Proof.
  intros Hok. unfold HostToNetAddress. destruct a as [x|x|x|x].
  1, 2: assert (Hx : len x = 4 \/ len x = 16)
    by (cbn [NetAddr_ok] in Hok; unfold ipv4Size, ipv6Size in Hok; tauto);
    cbn [NetAddr_String]; unfold ipv4Addr_String, ipv6Addr_String;
    destruct (IP_String_host x Hx) as [_ Ho]; rewrite !no_suffix by done;
    rewrite ParseIP_String by done; f_equal; apply FromBytes_IP; [done|exists x; tauto].
  - cbn [NetAddr_ok] in Hok. unfold torv2Size, len in Hok. cbn [NetAddr_String]. unfold torv2Addr_String.
    destruct (read_onion 2 TorV2EncodedSize x) as (_ & -> & spare & ->); [lia|done|].
    cbn [mbind option_bind fst]. unfold NetAddressV2FromBytes, len. by rewrite Hok.
  - cbn [NetAddr_ok] in Hok. unfold TorV3Size, len in Hok. cbn [NetAddr_String]. unfold torv3Addr_String.
    set (key := x ++ _ ++ torV3Version).
    assert (Hk : length key = 35%nat).
    { unfold key. rewrite !length_app, length_take, sha3_size. cbn. lia. }
    destruct (read_onion 7 TorV3EncodedSize key) as (Hl & -> & spare & ->); [lia|done|].
    assert (Hn : has_suffix_at (map to_lower (base32_Encode key) ++ dot_onion) TorV2EncodedSize = false).
    { unfold has_suffix_at. by rewrite Hl. }
    rewrite Hn. cbn [mbind option_bind fst snd]. unfold key. rewrite <- app_assoc.
    rewrite take_app_le by (unfold TorV3Size; lia). rewrite take_ge by (unfold TorV3Size; lia).
    unfold NetAddressV2FromBytes, len. by rewrite Hok.
Qed.

Lemma NetAddr_String_host a :
  NetAddr_ok a -> no_brackets (NetAddr_String sha3_Sum256 a).
Proof.
  intros Hok. destruct a as [x|x|x|x]; cbn [NetAddr_ok NetAddr_String] in *.
  - apply IP_String_host. by left.
  - apply IP_String_host. right. by destruct Hok.
  - unfold torv2Size, len in Hok. by apply onion_host, (onion_chars 2); lia.
  - unfold TorV3Size, len in Hok. apply onion_host, (onion_chars 7).
    rewrite !length_app, length_take, sha3_size. cbn. lia.
Qed.

Definition addr_ok (na : NetAddressV2) : Prop :=
  u16_ok (NA2_Port na) /\ exists a, NA2_Addr na = Some a /\ NetAddr_ok a.

Lemma port_chars port : u16_ok port -> no_brackets (FormatUint port) /\ chr_colon ∉ FormatUint port.
Proof.
  intros Hp. pose proof (FormatUint_dec port ltac:(lia)) as H. rewrite list.Forall_forall in H.
  unfold no_brackets. split_and!; intros Hin; by apply H in Hin.
Qed.

Lemma DeserializeNetAddress_Key now na key services :
  addr_ok na -> NetAddressKey sha3_Sum256 na = Some key ->
  DeserializeNetAddress lookupFunc now key services =
  Some (mkNetAddressV2 now services (NA2_Addr na) (NA2_Port na)).
Proof.
  intros (Hp & a & Ha & Hok) Hkey. unfold NetAddressKey in Hkey. rewrite Ha in *.
  cbn [mbind option_bind] in Hkey. injection Hkey as <-. unfold DeserializeNetAddress.
  destruct (port_chars _ Hp) as [Hb Hc].
  rewrite SplitHostPort_Join by (done || by apply NetAddr_String_host). cbn [mbind option_bind fst snd].
  rewrite ParseUint_Format by lia. cbn [mbind option_bind]. by apply HostToNetAddress_String.
Qed.

(** Two addresses with the same key are the same address. *)
Lemma NetAddressKey_inj na na' key :
  addr_ok na -> addr_ok na' ->
  NetAddressKey sha3_Sum256 na = Some key -> NetAddressKey sha3_Sum256 na' = Some key ->
  NA2_Addr na = NA2_Addr na' /\ NA2_Port na = NA2_Port na'.
Proof.
  intros H H' Hk Hk'. pose proof (DeserializeNetAddress_Key 0 na key 0 H Hk) as E.
  rewrite (DeserializeNetAddress_Key 0 na' key 0 H' Hk') in E. by injection E.
Qed.
End ReadBack.

(** ** Tunnelled addresses *)

Definition lxor_ff (b : byte) : byte := z2b (Z.lxor (b2z b) 0xff).

Lemma lxor_ff_involutive b : lxor_ff (lxor_ff b) = b.
Proof. destruct b; reflexivity. Qed.

(** The IPv6 addresses that carry the IPv4 address [x]: 6to4, Teredo, and the
    translated prefixes of RFC 6052 and RFC 6145. *)
Definition tunnel (x ip : list byte) : Prop :=
  (exists r, len r = 10 /\ ip = [x20; x02] ++ x ++ r) \/
  (exists r, len r = 8 /\ ip = [x20; x01; x00; x00] ++ r ++ map lxor_ff x) \/
  ip = [x00; x64; xff; x9b] ++ replicate 8 x00 ++ x \/
  ip = replicate 8 x00 ++ [xff; xff; x00; x00] ++ x.

Lemma IP_To4_not_mapped ip : len ip = 16 -> take 12 ip <> v4InV6Prefix -> IP_To4 ip = None.
Proof.
  intros Hl Hp. unfold IP_To4. rewrite Hl. cbn. by rewrite bool_decide_eq_false_2.
Qed.

Lemma outside n ip i nn m p q r :
  IP_To4 ip = None -> networkNumberAndMask n = (nn, m) ->
  nn !! i = Some p -> m !! i = Some q -> ip !! i = Some r ->
  byte_and p q <> byte_and r q -> IPNet_Contains n ip = false.
Proof.
  intros H4 Hn Hp Hq Hr Hne. unfold IPNet_Contains. rewrite Hn, H4. cbn [default].
  apply andb_false_intro2, bool_decide_eq_false_2. intros H. apply Hne.
  assert (Hi : ip_mask nn m !! i = ip_mask ip m !! i) by by rewrite H.
  unfold ip_mask in Hi. rewrite !lookup_zip_with, Hp, Hq, Hr in Hi. by injection Hi.
Qed.

Lemma outside_v4 n ip nn m :
  IP_To4 ip = None -> networkNumberAndMask n = (nn, m) -> len nn = 4 -> len ip = 16 ->
  IPNet_Contains n ip = false.
Proof.
  intros H4 Hn Hl Hip. unfold IPNet_Contains. rewrite Hn, H4. cbn [default].
  by rewrite Hip, Hl.
Qed.

Lemma byte_and_0 b : byte_and b x00 = x00.
Proof. unfold byte_and. by rewrite Z.land_0_r. Qed.
Lemma byte_and_ff b : byte_and b xff = b.
Proof. destruct b; reflexivity. Qed.

Lemma ip_mask_prefix k ip :
  (k <= length ip)%nat ->
  ip_mask ip (replicate k xff ++ replicate (length ip - k) x00) =
  take k ip ++ replicate (length ip - k) x00.
Proof.
  revert k. induction ip as [|b ip IH]; intros [|k] Hk; cbn [length] in *; try done || lia.
  - change (S (length ip) - 0)%nat with (S (length ip)). cbn [replicate app take].
    unfold ip_mask in *. cbn [zip_with]. rewrite byte_and_0. f_equal.
    specialize (IH 0%nat ltac:(lia)). cbn [replicate app take] in IH. by rewrite Nat.sub_0_r in IH.
  - cbn [replicate app take Nat.sub]. unfold ip_mask in *. cbn [zip_with].
    rewrite byte_and_ff, IH by lia. done.
Qed.

(** A range whose mask is whole bytes is a prefix. *)
Lemma inside_prefix n ip k nn :
  IP_To4 ip = None -> len ip = 16 -> len nn = 16 -> (k <= 16)%nat ->
  networkNumberAndMask n = (nn, replicate k xff ++ replicate (16 - k) x00) ->
  take k nn = take k ip -> IPNet_Contains n ip = true.
Proof.
  intros H4 Hip Hnn Hk Hn Hp. unfold IPNet_Contains. rewrite Hn, H4. cbn [default].
  rewrite Hip, Hnn, Z.eqb_refl. apply bool_decide_eq_true_2. unfold len in *.
  replace (16 - k)%nat with (length nn - k)%nat at 1 by lia. rewrite ip_mask_prefix by lia.
  replace (16 - k)%nat with (length ip - k)%nat by lia. rewrite ip_mask_prefix by lia.
  rewrite Hp. do 2 f_equal. lia.
Qed.

Ltac outside_at ip i :=
  match goal with
  | |- context [IPNet_Contains ?n ip] =>
      rewrite (outside n ip i _ _ _ _ _ ltac:(eassumption) eq_refl eq_refl eq_refl eq_refl)
        by (vm_compute; discriminate)
  | |- context [IPNet_Contains ?n ip] =>
      rewrite (outside_v4 n ip _ _ ltac:(eassumption) eq_refl eq_refl eq_refl)
  end.

Lemma IP_Equal_differs ip x i p q :
  len ip = 16 -> len x = 16 -> ip !! i = Some p -> x !! i = Some q -> p <> q -> IP_Equal ip x = false.
Proof.
  intros Hi Hx Hp Hq Hne. unfold IP_Equal. rewrite Hi, Hx. cbn.
  apply bool_decide_eq_false_2. intros ->. congruence.
Qed.

(** An IPv6 address that is none of the reserved ones. *)
Ltac not_reserved ip :=
  unfold IsRoutable, IsValid, IsLocal, IsZero, IsOnionCatTor, IsRFC1918, IsRFC2544, IsRFC3849,
    IsRFC3927, IsRFC4193, IsRFC4843, IsRFC7343, IsRFC4862, IsRFC5737, IsRFC6598, IsRFC6052,
    IsRFC6145, IsRFC3964, IsRFC4380, IsIPv4, IP_IsUnspecified, IP_IsLoopback;
  cbn [TorV3Key NetAddressV2_IsTorV3 legacy NetAddressV2_ToLegacy NA2_Addr default from_option id
    NA_IP existsb rfc1918Nets rfc5737Net];
  match goal with H : IP_To4 ip = None |- _ => rewrite !H end;
  repeat first [outside_at ip 0%nat | outside_at ip 1%nat | outside_at ip 2%nat | outside_at ip 8%nat];
  repeat match goal with
  | |- context [IP_Equal ip ?x] =>
      first [rewrite (IP_Equal_differs ip x 0 _ _ ltac:(eassumption) eq_refl eq_refl eq_refl) by discriminate
            |rewrite (IP_Equal_differs ip x 8 _ _ ltac:(eassumption) eq_refl eq_refl eq_refl) by discriminate
            |rewrite (IP_Equal_differs ip x 10 _ _ ltac:(eassumption) eq_refl eq_refl eq_refl) by discriminate]
  end.


Definition v6_address (ip : list byte) : NetAddressV2 := mkNetAddressV2 0 0 (Some (ipv6Addr ip)) 0.

Ltac known_v6 ip :=
  assert (len ip = 16) by (by unfold len; cbn [length]);
  assert (IP_To4 ip = None) by (apply IP_To4_not_mapped; [done|by intros [=]]).

Ltac prefix_of net k :=
  apply (inside_prefix _ _ k (IPNet_IP net)); [done|done|reflexivity|lia|reflexivity|reflexivity].

Lemma tunnel_6to4 a b c d r0 r1 r2 r3 r4 r5 r6 r7 r8 r9 :
  let ip := [x20; x02; a; b; c; d; r0; r1; r2; r3; r4; r5; r6; r7; r8; r9] in
  GroupKey (v6_address ip) = group4 [a; b; c; d].
Proof.
  intros ip. known_v6 ip.
  assert (Hin : IPNet_Contains rfc3964Net ip = true) by (prefix_of rfc3964Net 2%nat).
  unfold GroupKey, v6_address. not_reserved ip. rewrite Hin. reflexivity.
Qed.

Lemma tunnel_teredo a b c d r0 r1 r2 r3 r4 r5 r6 r7 :
  let ip := [x20; x01; x00; x00; r0; r1; r2; r3; r4; r5; r6; r7; a; b; c; d] in
  GroupKey (v6_address ip) = group4 (map lxor_ff [a; b; c; d]).
Proof.
  intros ip. known_v6 ip.
  assert (Hin : IPNet_Contains rfc4380Net ip = true) by (prefix_of rfc4380Net 4%nat).
  unfold GroupKey, v6_address. not_reserved ip. rewrite Hin. reflexivity.
Qed.

Lemma tunnel_6052 a b c d :
  let ip := [x00; x64; xff; x9b; x00; x00; x00; x00; x00; x00; x00; x00; a; b; c; d] in
  GroupKey (v6_address ip) = group4 [a; b; c; d].
Proof.
  intros ip. known_v6 ip.
  assert (Hin : IPNet_Contains rfc6052Net ip = true) by (prefix_of rfc6052Net 12%nat).
  unfold GroupKey, v6_address. not_reserved ip. rewrite Hin. by rewrite orb_true_r.
Qed.

Lemma tunnel_6145 a b c d :
  let ip := [x00; x00; x00; x00; x00; x00; x00; x00; xff; xff; x00; x00; a; b; c; d] in
  GroupKey (v6_address ip) = group4 [a; b; c; d].
Proof.
  intros ip. known_v6 ip.
  assert (Hin : IPNet_Contains rfc6145Net ip = true) by (prefix_of rfc6145Net 12%nat).
  assert (Hz : IPNet_Contains zero6Net ip = true) by (prefix_of zero6Net 2%nat).
  unfold GroupKey, v6_address. not_reserved ip. rewrite Hin, ?Hz. reflexivity.
Qed.

Lemma four_bytes (x : list byte) : len x = 4 -> exists a b c d, x = [a; b; c; d].
Proof.
  intros H. destruct x as [|a [|b [|c [|d [|e x]]]]]; unfold len in H; cbn [length] in H; try lia.
  by exists a, b, c, d.
Qed.

(** The group of a routable IPv4 address. *)
Lemma GroupKey_v4 t s x p :
  len x = 4 -> IsRoutable (mkNetAddressV2 t s (Some (ipv4Addr x)) p) = true ->
  GroupKey (mkNetAddressV2 t s (Some (ipv4Addr x)) p) = group4 x.
Proof.
  intros Hx Hr. unfold GroupKey. cbn [TorV3Key NA2_Addr]. rewrite Hr. cbn [negb].
  assert (Hloc : IsLocal (legacy (mkNetAddressV2 t s (Some (ipv4Addr x)) p)) = false).
  { unfold IsRoutable in Hr. cbn [NetAddressV2_IsTorV3 NA2_Addr] in Hr.
    apply andb_prop in Hr as [_ Hr]. apply negb_true_iff in Hr. rewrite !orb_false_iff in Hr. tauto. }
  rewrite Hloc. destruct (four_bytes x Hx) as (a & b & c & d & ->). reflexivity.
Qed.

(** The group does not depend on the time, the services and the port. *)
Lemma GroupKey_addr t s t' s' p' a p :
  GroupKey (mkNetAddressV2 t s (Some a) p) = GroupKey (mkNetAddressV2 t' s' (Some a) p').
Proof. destruct a; reflexivity. Qed.

(** * Properties *)

(** the group of an address decides which buckets of the address manager an
    attacker who owns it can reach.  An address that reaches an IPv4 host through a
    tunnel or a translator (6to4, Teredo, RFC 6052, RFC 6145) is in the group of
    that IPv4 address, whatever the free bits of the IPv6 address, so that tunnels
    give no further groups. *)
Theorem GroupKey_tunnel t s p t' s' p' x ip :
  len x = 4 -> tunnel x ip -> IsRoutable (mkNetAddressV2 t s (Some (ipv4Addr x)) p) = true ->
  GroupKey (mkNetAddressV2 t' s' (Some (ipv6Addr ip)) p') =
  GroupKey (mkNetAddressV2 t s (Some (ipv4Addr x)) p).
Proof.
  intros Hx Ht Hr. rewrite (GroupKey_v4 t s x p Hx Hr).
  rewrite (GroupKey_addr t' s' 0 0 0). fold (v6_address ip).
  destruct (four_bytes x Hx) as (a & b & c & d & ->).
  destruct Ht as [(r & Hl & ->)|[(r & Hl & ->)|[->| ->]]].
  - unfold len in Hl. do 10 (destruct r as [|? r]; [cbn [length] in Hl; lia|]).
    destruct r; [apply tunnel_6to4|cbn [length] in Hl; lia].
  - unfold len in Hl. do 8 (destruct r as [|? r]; [cbn [length] in Hl; lia|]).
    destruct r; [|cbn [length] in Hl; lia].
    etransitivity; [apply tunnel_teredo|]. cbn [map]. by rewrite !lxor_ff_involutive.
  - apply tunnel_6052.
  - apply tunnel_6145.
Qed.

Lemma GroupKey_tunnel_witness :
  let x := [x08; x09; x0a; x0b] in
  let ip := [x20; x02] ++ x ++ replicate 10 x07 in
  GroupKey (mkNetAddressV2 5 1 (Some (ipv6Addr ip)) 80) =
  GroupKey (mkNetAddressV2 6 1 (Some (ipv4Addr x)) 81).
Proof.
  apply (GroupKey_tunnel 6 1 81 5 1 80); [reflexivity| |vm_compute; reflexivity].
  left. exists (replicate 10 x07). split; reflexivity.
Defined.

(** C39: the key of an address, by which the address manager knows it, is read
    back: [DeserializeNetAddress] gives the address and the port, with the services
    it is told and the time of reading, whether the key is of an IPv4 or an IPv6
    address (with its zeros elided), or an onion name of either length.  So two
    addresses with one key are the same, whatever the hash in the names and
    whatever the resolver. *)
Theorem NetAddressKey_roundtrip sha3_Sum256 lookupFunc now na services :
  (forall x, length (sha3_Sum256 x) = 32%nat) -> addr_ok na ->
  exists key, NetAddressKey sha3_Sum256 na = Some key /\
    DeserializeNetAddress lookupFunc now key services =
      Some (mkNetAddressV2 now services (NA2_Addr na) (NA2_Port na)) /\
    forall na', addr_ok na' -> NetAddressKey sha3_Sum256 na' = Some key ->
      NA2_Addr na' = NA2_Addr na /\ NA2_Port na' = NA2_Port na.
Proof.
  intros Hsha Hok. pose proof Hok as (_ & a & Ha & _).
  destruct (NetAddressKey sha3_Sum256 na) as [key|] eqn:E.
  2:{ unfold NetAddressKey in E. by rewrite Ha in E. }
  exists key. split_and!; [done|by apply (DeserializeNetAddress_Key sha3_Sum256)|].
  intros na' Hok' Hk. by apply (NetAddressKey_inj sha3_Sum256 Hsha lookupFunc na' na key).
Qed.

Lemma NetAddressKey_roundtrip_witness :
  let sha3 := fun _ : list byte => replicate 32 x07 in
  let na := mkNetAddressV2 5 1 (Some (torv3Addr (replicate 32 x5a))) 8333 in
  exists key, NetAddressKey sha3 na = Some key /\
    DeserializeNetAddress (fun _ => None) 9 key 1 = Some (mkNetAddressV2 9 1 (NA2_Addr na) 8333) /\
    forall na', addr_ok na' -> NetAddressKey sha3 na' = Some key ->
      NA2_Addr na' = NA2_Addr na /\ NA2_Port na' = NA2_Port na.
Proof.
  apply (NetAddressKey_roundtrip (fun _ => replicate 32 x07) (fun _ => None) 9
    (mkNetAddressV2 5 1 (Some (torv3Addr (replicate 32 x5a))) 8333) 1); [intros; reflexivity|].
  split; [cbn; lia|]. by exists (torv3Addr (replicate 32 x5a)).
Defined.

(** an onion name is not checked: a name of the right length whose padding
    shortens it is taken, with the bytes the decoder left behind for a long name, and
    as an address without a network for a short one. *)
Theorem onion_name_unchecked now lookup sha3 :
  DeserializeNetAddress lookup now (bytes_of "aaaaaaaaaa======.onion:8333") 1 =
    Some (mkNetAddressV2 now 1 None 8333) /\
  NetAddressKey sha3 (mkNetAddressV2 now 1 None 8333) = None /\
  exists a, HostToNetAddress lookup now
    (map to_lower (base32_Encode (replicate 30 x00)) ++ bytes_of "aa======.onion") 80 1 =
    Some (mkNetAddressV2 now 1 (Some (torv3Addr a)) 80) /\
  drop 31 a <> [x00].
Proof.
  split; [vm_compute; reflexivity|]. split; [reflexivity|].
  eexists. split; [vm_compute; reflexivity|]. vm_compute. discriminate.
Qed.
