(* ===== verification/Float64.v ===== *)
(** * Go's [float64] with its whole exponent range

    [GoFloat] leaves the ends of the exponent range out; the address manager reaches
    them.  Here a [float64] that is not negative is a finite number, infinity, or not
    a number; results are rounded to 53 bits, or to a multiple of [2^-1074] below the
    normal range, and become infinite from [2^1024] on. *)

From Stdlib Require Import ZArith Lia.
From S2P Require Import Prelude GoFloat.
Open Scope Z_scope.

Inductive f64 : Type :=
| Fin (x : dy)
| Inf
| NaN.

Definition f64_zero : f64 := Fin (mkDy 0 0).

(** A number that is not negative, rounded to the nearest [float64], ties to even. *)
Definition f64_round (x : dy) : f64 :=
  let a := dm x in
  if a =? 0 then f64_zero
  else
    let k := Z.max (Z.log2 a + 1 - 53) (- 1074 - de x) in
    let y := if k <=? 0 then x else mkDy (rne a k) (de x + k) in
    if dm y =? 0 then f64_zero
    else if 1024 <=? Z.log2 (dm y) + de y then Inf else Fin y.

Definition f64_mul (x y : f64) : f64 :=
  match x, y with
  | Fin a, Fin b => f64_round (dy_mul a b)
  | Inf, Fin b => if dm b =? 0 then NaN else Inf
  | Fin a, Inf => if dm a =? 0 then NaN else Inf
  | Inf, Inf => Inf
  | NaN, _ | _, NaN => NaN
  end.

(** The quotient of numbers of at most 53 bits to 60 bits or more, with a sticky bit. *)
Definition f64_div (x y : dy) : f64 :=
  if dm x =? 0 then f64_zero
  else
    let k := Z.max 0 (60 + Z.log2 (dm y) - Z.log2 (dm x)) in
    let q := dm x * 2 ^ k / dm y in
    let sticky := if (dm x * 2 ^ k) mod dm y =? 0 then 0 else 1 in
    f64_round (mkDy (2 * q + sticky) (de x - de y - k - 1)).

Definition f64_ltb (x y : f64) : bool :=
  match x, y with
  | Fin a, Fin b => dy_ltb a b
  | Fin _, Inf => true
  | _, _ => false
  end.

(** A quotient of literals. *)
Definition f64_ratio (n d : Z) : f64 := f64_div (dy_int n) (dy_int d).

(** [x] divided by a finite number other than 0. *)
Definition f64_quot (x : f64) (y : dy) : f64 :=
  match x with
  | Fin a => f64_div a y
  | _ => x
  end.

Example f64_tenth : f64_ratio 1 10 = Fin (mkDy 7205759403792794 (-56)).
Proof. vm_compute. reflexivity. Qed.
Example f64_smallest : f64_round (mkDy 3 (-1075)) = Fin (mkDy 2 (-1074)) /\
  f64_round (mkDy 1 (-1075)) = f64_zero /\ f64_round (mkDy 1 1024) = Inf.
Proof. vm_compute. split_and!; reflexivity. Qed.
