(* ===== verification/AddrManager.v ===== *)
(** * addrmgr: the manager of the addresses of peers

    [knownaddress.go] and [addrmanager.go].  The manager shares each [KnownAddress]
    between its index, up to eight of its 1024 buckets of new addresses and one of
    its 64 lists of tried ones: they are cells of a store.  An operation that would
    panic is [None].  The clock is an argument, read once for an operation and in
    whole seconds, and so is what the random generator gives; the order in which a
    map is walked is the parameter [range_order].  The locks and the logger are left
    out.  The file of peers is the value its JSON text stands for. *)

From Stdlib Require Import ZArith Lia.
From S2P Require Import Prelude WireCommon ChainHash WireNet NetText AddrNetwork GoFloat Float64.
Open Scope Z_scope.

Definition needAddressThreshold : Z := 1000.
Definition triedBucketSize : Z := 256.
Definition triedBucketCount : Z := 64.
Definition newBucketSize : Z := 64.
Definition newBucketCount : Z := 1024.
Definition triedBucketsPerGroup : Z := 8.
Definition newBucketsPerGroup : Z := 64.
Definition newBucketsPerAddress : Z := 8.
Definition numMissingDays : Z := 30.
Definition numRetries : Z := 3.
Definition maxFailures : Z := 10.
Definition minBadDays : Z := 7.
Definition getAddrMax : Z := 2500.
Definition getAddrPercent : Z := 23.
Definition serialisationVersion : Z := 2.

Definition time_Minute : Z := 60.
Definition time_Hour : Z := 3600.

(** ** Known addresses *)

Record KnownAddress : Type := mkKnownAddress {
  ka_na : NetAddressV2;
  ka_srcAddr : NetAddressV2;
  ka_attempts : Z;
  ka_lastattempt : Z;
  ka_lastsuccess : Z;
  ka_tried : bool;
  ka_refs : Z;
}.

Definition ka_with_na (na : NetAddressV2) (ka : KnownAddress) : KnownAddress :=
  mkKnownAddress na (ka_srcAddr ka) (ka_attempts ka) (ka_lastattempt ka) (ka_lastsuccess ka)
    (ka_tried ka) (ka_refs ka).
Definition ka_with_refs (r : Z) (ka : KnownAddress) : KnownAddress :=
  mkKnownAddress (ka_na ka) (ka_srcAddr ka) (ka_attempts ka) (ka_lastattempt ka)
    (ka_lastsuccess ka) (ka_tried ka) r.
Definition ka_with_tried (t : bool) (ka : KnownAddress) : KnownAddress :=
  mkKnownAddress (ka_na ka) (ka_srcAddr ka) (ka_attempts ka) (ka_lastattempt ka)
    (ka_lastsuccess ka) t (ka_refs ka).
Definition ka_with_attempts (n attempt success : Z) (ka : KnownAddress) : KnownAddress :=
  mkKnownAddress (ka_na ka) (ka_srcAddr ka) n attempt success (ka_tried ka) (ka_refs ka).

Definition KnownAddress_NetAddress (ka : KnownAddress) : NetAddressV2 := ka_na ka.
Definition KnownAddress_LastAttempt (ka : KnownAddress) : Z := ka_lastattempt ka.
Definition KnownAddress_Services (ka : KnownAddress) : Z := NA2_Services (ka_na ka).

(** [for i := ka.attempts; i > 0; i-- { c /= 1.5 }]. *)
Fixpoint deprioritise (attempts : nat) (c : f64) : f64 :=
  match attempts with
  | O => c
  | S n => deprioritise n (f64_quot c (mkDy 3 (-1)))
  end.
Definition KnownAddress_chance (now : Z) (ka : KnownAddress) : f64 :=
  let lastAttempt := Z.max 0 (now - ka_lastattempt ka) in
  let c := Fin (dy_int 1) in
  let c := if lastAttempt <? 10 * time_Minute then f64_mul c (f64_ratio 1 100) else c in
  deprioritise (Z.to_nat (ka_attempts ka)) c.

Definition KnownAddress_isBad (now : Z) (ka : KnownAddress) : bool :=
  if now - time_Minute <? ka_lastattempt ka then false
  else if now + 10 * time_Minute <? NA2_Timestamp (ka_na ka) then true
  else if NA2_Timestamp (ka_na ka) <? now - numMissingDays * time_Hour * 24 then true
  else if (ka_lastsuccess ka =? zeroTime) && (numRetries <=? ka_attempts ka) then true
  else if negb (now - minBadDays * time_Hour * 24 <? ka_lastsuccess ka) &&
          (maxFailures <=? ka_attempts ka) then true
  else false.

(** ** The manager *)

Definition AddressPriority : Type := Z.
Definition InterfacePrio : AddressPriority := 0.
Definition BoundPrio : AddressPriority := 1.
Definition UpnpPrio : AddressPriority := 2.
Definition HTTPPrio : AddressPriority := 3.
Definition ManualPrio : AddressPriority := 4.

Record localAddress : Type := mkLocalAddress { la_na : NetAddressV2; la_score : AddressPriority }.

Abbreviation addr_key := (list byte).

Record AddrManager : Type := mkAddrManager {
  am_key : list byte;
  am_heap : gmap nat KnownAddress;   (* the known addresses *)
  am_next : nat;                     (* the next cell to be allocated *)
  am_addrIndex : gmap addr_key nat;
  am_addrNew : list (gmap addr_key nat);
  am_addrTried : list (list nat);
  am_nTried : Z;
  am_nNew : Z;
  am_localAddresses : gmap addr_key localAddress;
  am_version : Z;
}.

Definition am_with_heap (h : gmap nat KnownAddress) (am : AddrManager) : AddrManager :=
  mkAddrManager (am_key am) h (am_next am) (am_addrIndex am) (am_addrNew am) (am_addrTried am)
    (am_nTried am) (am_nNew am) (am_localAddresses am) (am_version am).
Definition am_with_index (ix : gmap addr_key nat) (am : AddrManager) : AddrManager :=
  mkAddrManager (am_key am) (am_heap am) (am_next am) ix (am_addrNew am) (am_addrTried am)
    (am_nTried am) (am_nNew am) (am_localAddresses am) (am_version am).
Definition am_with_new (bs : list (gmap addr_key nat)) (am : AddrManager) : AddrManager :=
  mkAddrManager (am_key am) (am_heap am) (am_next am) (am_addrIndex am) bs (am_addrTried am)
    (am_nTried am) (am_nNew am) (am_localAddresses am) (am_version am).
Definition am_with_tried (ts : list (list nat)) (am : AddrManager) : AddrManager :=
  mkAddrManager (am_key am) (am_heap am) (am_next am) (am_addrIndex am) (am_addrNew am) ts
    (am_nTried am) (am_nNew am) (am_localAddresses am) (am_version am).
Definition am_with_counts (nTried nNew : Z) (am : AddrManager) : AddrManager :=
  mkAddrManager (am_key am) (am_heap am) (am_next am) (am_addrIndex am) (am_addrNew am)
    (am_addrTried am) nTried nNew (am_localAddresses am) (am_version am).
Definition am_with_local (m : gmap addr_key localAddress) (am : AddrManager) : AddrManager :=
  mkAddrManager (am_key am) (am_heap am) (am_next am) (am_addrIndex am) (am_addrNew am)
    (am_addrTried am) (am_nTried am) (am_nNew am) m (am_version am).

(** The assignment of a changed value to what a pointer points to. *)
Definition am_update (l : nat) (f : KnownAddress -> KnownAddress) (am : AddrManager) : AddrManager :=
  am_with_heap (alter f l (am_heap am)) am.
(** [p := &KnownAddress{...}]. *)
Definition am_alloc (ka : KnownAddress) (am : AddrManager) : nat * AddrManager :=
  (am_next am,
   mkAddrManager (am_key am) (<[am_next am := ka]> (am_heap am)) (S (am_next am))
     (am_addrIndex am) (am_addrNew am) (am_addrTried am) (am_nTried am) (am_nNew am)
     (am_localAddresses am) (am_version am)).
Definition am_new_insert (bucket : nat) (k : addr_key) (l : nat) (am : AddrManager) : AddrManager :=
  am_with_new (alter (insert k l) bucket (am_addrNew am)) am.
Definition am_new_delete (bucket : nat) (k : addr_key) (am : AddrManager) : AddrManager :=
  am_with_new (alter (delete k) bucket (am_addrNew am)) am.

Section Manager.
Context (sha3_Sum256 : list byte -> list byte)
        (range_order : gmap addr_key nat -> list (addr_key * nat)).

Definition am_NetAddressKey (na : NetAddressV2) : option addr_key := NetAddressKey sha3_Sum256 na.

(** ** Buckets *)

Definition getNewBucket (am : AddrManager) (netAddr srcAddr : NetAddressV2) : nat :=
  let data1 := am_key am ++ GroupKey netAddr ++ GroupKey srcAddr in
  let hash1 := DoubleHashB data1 in
  let hash64 := le_get (take 8 hash1) mod newBucketsPerGroup in
  let data2 := am_key am ++ GroupKey srcAddr ++ le_put 8 hash64 in
  let hash2 := DoubleHashB data2 in
  Z.to_nat (le_get (take 8 hash2) mod newBucketCount).

Definition getTriedBucket (am : AddrManager) (netAddr : NetAddressV2) : option nat :=
  k ← am_NetAddressKey netAddr;
  let data1 := am_key am ++ k in
  let hash1 := DoubleHashB data1 in
  let hash64 := le_get (take 8 hash1) mod triedBucketsPerGroup in
  let data2 := am_key am ++ GroupKey netAddr ++ le_put 8 hash64 in
  let hash2 := DoubleHashB data2 in
  Some (Z.to_nat (le_get (take 8 hash2) mod triedBucketCount)).

(** [am_find] has no nil address: one would panic. *)
Definition am_find (am : AddrManager) (addr : NetAddressV2) : option (option nat) :=
  k ← am_NetAddressKey addr; Some (am_addrIndex am !! k).

(** Takes a new address out of a bucket, and forgets it with its last bucket. *)
Definition expire (bucket : nat) (k : addr_key) (l : nat) (am : AddrManager) : option AddrManager :=
  let am := am_new_delete bucket k am in
  v ← am_heap am !! l;
  let am := am_update l (ka_with_refs (ka_refs v - 1)) am in
  if ka_refs v - 1 =? 0 then
    Some (am_with_index (delete k (am_addrIndex am))
            (am_with_counts (am_nTried am) (am_nNew am - 1) am))
  else Some am.

Definition timestamp_at (am : AddrManager) (l : nat) : option Z :=
  (fun v => NA2_Timestamp (ka_na v)) <$> am_heap am !! l.

(** The loop of [expireNew] over the entries of the bucket. *)
Fixpoint expire_loop (now : Z) (bucket : nat) (entries : list (addr_key * nat))
    (oldest : option nat) (am : AddrManager) : option (option nat * AddrManager) :=
  match entries with
  | [] => Some (oldest, am)
  | (k, l) :: entries =>
      v ← am_heap am !! l;
      if KnownAddress_isBad now v then
        am ← expire bucket k l am;
        expire_loop now bucket entries oldest am
      else match oldest with
      | None => expire_loop now bucket entries (Some l) am
      | Some o =>
          t ← timestamp_at am o;
          if negb (t <? NA2_Timestamp (ka_na v))
          then expire_loop now bucket entries (Some l) am
          else expire_loop now bucket entries oldest am
      end
  end.

Definition expireNew (now : Z) (bucket : nat) (am : AddrManager) : option AddrManager :=
  b ← am_addrNew am !! bucket;
  r ← expire_loop now bucket (range_order b) None am;
  let '(oldest, am) := r in
  match oldest with
  | None => Some am
  | Some o =>
      ka ← am_heap am !! o;
      key ← am_NetAddressKey (ka_na ka);
      expire bucket key o am
  end.

(** The element of a list of tried addresses to be replaced: the first with the
    oldest timestamp. *)
Fixpoint pickTried_loop (am : AddrManager) (i : nat) (ls : list nat) (oldest : option (nat * Z))
    : option (option (nat * Z)) :=
  match ls with
  | [] => Some oldest
  | l :: ls =>
      t ← timestamp_at am l;
      match oldest with
      | None => pickTried_loop am (S i) ls (Some (i, t))
      | Some (_, o) =>
          if t <? o then pickTried_loop am (S i) ls (Some (i, t))
          else pickTried_loop am (S i) ls oldest
      end
  end.
Definition pickTried (am : AddrManager) (bucket : nat) : option nat :=
  ls ← am_addrTried am !! bucket;
  r ← pickTried_loop am 0 ls None;
  fst <$> r.

(** ** Adding *)

Definition copy_seen (netAddr : NetAddressV2) (na : NetAddressV2) : NetAddressV2 :=
  NetAddressV2_AddService
    (mkNetAddressV2 (NA2_Timestamp netAddr) (NA2_Services na) (NA2_Addr na) (NA2_Port na))
    (NA2_Services netAddr).

(** The end of [updateAddress]: the address goes into the bucket of its group and its
    source, which is made room in when it is full. *)
Definition add_to_bucket (now : Z) (netAddr srcAddr : NetAddressV2) (addr : addr_key) (l : nat)
    (am : AddrManager) : option AddrManager :=
  let bucket := getNewBucket am netAddr srcAddr in
  b ← am_addrNew am !! bucket;
  if bool_decide (is_Some (b !! addr)) then Some am
  else
    am ← (if newBucketSize <? Z.of_nat (size b) then expireNew now bucket am else Some am);
    ka ← am_heap am !! l;
    Some (am_new_insert bucket addr l (am_update l (ka_with_refs (ka_refs ka + 1)) am)).

(** [draw n] is what [a.rand.Int31n(n)] gives; it panics unless [n] is positive. *)
Definition updateAddress (now : Z) (draw : Z -> Z) (netAddr srcAddr : NetAddressV2)
    (am : AddrManager) : option AddrManager :=
  if negb (IsRoutable netAddr) then Some am
  else
    addr ← am_NetAddressKey netAddr;
    match am_addrIndex am !! addr with
    | Some l =>
        ka ← am_heap am !! l;
        let am :=
          if (NA2_Timestamp (ka_na ka) <? NA2_Timestamp netAddr) ||
             negb (Z.land (NA2_Services (ka_na ka)) (NA2_Services netAddr) =? NA2_Services netAddr)
          then am_update l (ka_with_na (copy_seen netAddr (ka_na ka))) am else am in
        if ka_tried ka then Some am
        else if ka_refs ka =? newBucketsPerAddress then Some am
        else
          let factor := to_signed 32 (wrap_u32 (2 * ka_refs ka)) in
          if factor <=? 0 then None
          else if negb (draw factor =? 0) then Some am
          else add_to_bucket now netAddr srcAddr addr l am
    | None =>
        let '(l, am) := am_alloc (mkKnownAddress netAddr srcAddr 0 zeroTime zeroTime false 0) am in
        let am := am_with_index (<[addr := l]> (am_addrIndex am)) am in
        let am := am_with_counts (am_nTried am) (am_nNew am + 1) am in
        add_to_bucket now netAddr srcAddr addr l am
    end.

(** The generator is asked at most once for each address. *)
Fixpoint AddAddresses (now : Z) (draws : nat -> Z -> Z) (addrs : list NetAddressV2)
    (srcAddr : NetAddressV2) (am : AddrManager) : option AddrManager :=
  match addrs with
  | [] => Some am
  | na :: addrs =>
      am ← updateAddress now (draws 0%nat) na srcAddr am;
      AddAddresses now (fun i => draws (S i)) addrs srcAddr am
  end.
Definition AddAddress (now : Z) (draw : Z -> Z) (addr srcAddr : NetAddressV2) (am : AddrManager)
    : option AddrManager :=
  updateAddress now draw addr srcAddr am.

(** [false] is an error. *)
Definition AddAddressByIP (now : Z) (draw : Z -> Z) (addrIP : list byte) (am : AddrManager)
    : option (bool * AddrManager) :=
  match SplitHostPort addrIP with
  | None => Some (false, am)
  | Some (addr, portStr) =>
      match ParseIP addr with
      | None => Some (false, am)
      | Some ip =>
          match ParseUint 64 portStr with
          | None => Some (false, am)
          | Some port =>
              let na := NetAddressV2FromBytes now 0 ip (wrap_u16 port) in
              am ← AddAddress now draw na na am; Some (true, am)
          end
      end
  end.

(** ** Reading *)

Definition numAddresses (am : AddrManager) : Z := am_nTried am + am_nNew am.
Definition NumAddresses (am : AddrManager) : Z := numAddresses am.
Definition NeedMoreAddresses (am : AddrManager) : bool := numAddresses am <? needAddressThreshold.

Definition getAddresses (am : AddrManager) : option (list NetAddressV2) :=
  mapM (fun e => ka_na <$> am_heap am !! snd e) (range_order (am_addrIndex am)).

(** [x[i], x[j] = x[j], x[i]]. *)
Definition swap_at {A} (i j : nat) (xs : list A) : option (list A) :=
  x ← xs !! i; y ← xs !! j; Some (<[j := x]> (<[i := y]> xs)).

(** [draws i n] is what the [i]-th [rand.Intn(n)] gives. *)
Fixpoint shuffle {A} (draws : nat -> Z -> Z) (turns : nat) (i : nat) (xs : list A) : option (list A) :=
  match turns with
  | O => Some xs
  | S turns =>
      let j := Z.to_nat (draws i (Z.of_nat (length xs) - Z.of_nat i) + Z.of_nat i) in
      xs ← swap_at i j xs;
      shuffle draws turns (S i) xs
  end.
Definition AddressCache (draws : nat -> Z -> Z) (am : AddrManager) : option (list NetAddressV2) :=
  allAddr ← getAddresses am;
  let numAddresses := Z.min (len allAddr * getAddrPercent / 100) getAddrMax in
  allAddr ← shuffle draws (Z.to_nat numAddresses) 0 allAddr;
  Some (take (Z.to_nat numAddresses) allAddr).

(** ** Choosing a peer *)

(** [Searching]: the numbers given did not suffice to choose. *)
Inductive got : Type :=
| GotNil
| Got (l : nat)
| Searching.

Definition Intn (n r : Z) : Z := r mod n.

(** The loop of [GetAddress] over buckets of which [entries] gives the content; the
    code has it twice.  A turn takes a number for the bucket and, unless that is
    empty, one for the entry and one for the chance. *)
Fixpoint GetAddress_loop (now : Z) (buckets : list (list nat)) (am : AddrManager)
    (rs : list Z) (factor : f64) : option got :=
  match rs with
  | [] => Some Searching
  | r :: rs =>
      entries ← buckets !! Z.to_nat (Intn (len buckets) r);
      match entries with
      | [] => GetAddress_loop now buckets am rs factor
      | _ =>
          match rs with
          | nth :: r :: rs =>
              l ← entries !! Z.to_nat (Intn (len entries) nth);
              ka ← am_heap am !! l;
              let large := 2 ^ 30 in
              let randval := Intn large r in
              if f64_ltb (f64_round (dy_int randval))
                   (f64_mul (f64_mul factor (KnownAddress_chance now ka)) (f64_round (dy_int large)))
              then Some (Got l)
              else GetAddress_loop now buckets am rs (f64_mul factor (f64_ratio 12 10))
          | _ => Some Searching
          end
      end
  end.

Definition new_entries (am : AddrManager) : list (list nat) :=
  map (fun b => map snd (range_order b)) (am_addrNew am).

(** [rs] are the numbers the generator gives. *)
Definition GetAddress (now : Z) (rs : list Z) (am : AddrManager) : option got :=
  if numAddresses am =? 0 then Some GotNil
  else
    let loop buckets rs := GetAddress_loop now buckets am rs (Fin (dy_int 1)) in
    if 0 <? am_nTried am then
      if am_nNew am =? 0 then loop (am_addrTried am) rs
      else match rs with
           | [] => Some Searching
           | r :: rs => loop (if Intn 2 r =? 0 then am_addrTried am else new_entries am) rs
           end
    else loop (new_entries am) rs.

(** ** Reports on peers *)

(** [am_find], and what the caller does with a known address. *)
Definition with_known (addr : NetAddressV2) (am : AddrManager)
    (f : nat -> KnownAddress -> option AddrManager) : option AddrManager :=
  r ← am_find am addr;
  match r with
  | None => Some am
  | Some l => ka ← am_heap am !! l; f l ka
  end.

Definition Attempt (now : Z) (addr : NetAddressV2) (am : AddrManager) : option AddrManager :=
  with_known addr am (fun l ka =>
    Some (am_update l (ka_with_attempts (ka_attempts ka + 1) now (ka_lastsuccess ka)) am)).

Definition Connected (now : Z) (addr : NetAddressV2) (am : AddrManager) : option AddrManager :=
  with_known addr am (fun l ka =>
    let na := ka_na ka in
    Some (if NA2_Timestamp na + time_Minute * 20 <? now
          then am_update l (ka_with_na (mkNetAddressV2 now (NA2_Services na) (NA2_Addr na) (NA2_Port na))) am
          else am)).

Definition SetServices (addr : NetAddressV2) (services : Z) (am : AddrManager) : option AddrManager :=
  with_known addr am (fun l ka =>
    let na := ka_na ka in
    Some (if negb (NA2_Services na =? services)
          then am_update l (ka_with_na (mkNetAddressV2 (NA2_Timestamp na) services (NA2_Addr na) (NA2_Port na))) am
          else am)).

(** The loop of [Good] over the buckets from [i] on: takes the address out of all of
    them; the first is [oldBucket]. *)
Fixpoint unlink_loop (n : nat) (i : nat) (k : addr_key) (l : nat) (oldBucket : option nat)
    (am : AddrManager) : option (option nat * AddrManager) :=
  match n with
  | O => Some (oldBucket, am)
  | S n =>
      b ← am_addrNew am !! i;
      if bool_decide (is_Some (b !! k)) then
        let am := am_new_delete i k am in
        let am := am_update l (fun v => ka_with_refs (ka_refs v - 1) v) am in
        unlink_loop n (S i) k l (Some (default i oldBucket)) am
      else unlink_loop n (S i) k l oldBucket am
  end.

(** The end of [Good] when the tried bucket is full: [l] takes the place of the oldest
    of the bucket, which goes back to a new bucket. *)
Definition replace_tried (bucket oldBucket : nat) (l : nat) (am : AddrManager) : option AddrManager :=
  t ← am_addrTried am !! bucket;
  entry ← pickTried am bucket;
  rml ← t !! entry;
  rmka ← am_heap am !! rml;
  let newBucket := getNewBucket am (ka_na rmka) (ka_srcAddr rmka) in
  b ← am_addrNew am !! newBucket;
  let newBucket := if newBucketSize <=? Z.of_nat (size b) then oldBucket else newBucket in
  let am := am_update l (ka_with_tried true) am in
  let am := am_with_tried (alter (insert entry l) bucket (am_addrTried am)) am in
  let am := am_update rml (ka_with_tried false) am in
  let am := am_update rml (fun v => ka_with_refs (ka_refs v + 1) v) am in
  let am := am_with_counts (am_nTried am) (am_nNew am + 1) am in
  rmkey ← am_NetAddressKey (ka_na rmka);
  Some (am_new_insert newBucket rmkey rml am).

Definition Good (now : Z) (addr : NetAddressV2) (am : AddrManager) : option AddrManager :=
  with_known addr am (fun l ka =>
    let am := am_update l (ka_with_attempts 0 now now) am in
    if ka_tried ka then Some am
    else
      addrKey ← am_NetAddressKey addr;
      r ← unlink_loop (length (am_addrNew am)) 0 addrKey l None am;
      let '(oldBucket, am) := r in
      let am := am_with_counts (am_nTried am) (am_nNew am - 1) am in
      match oldBucket with
      | None => Some am
      | Some oldBucket =>
          bucket ← getTriedBucket am (ka_na ka);
          t ← am_addrTried am !! bucket;
          if len t <? triedBucketSize then
            let am := am_update l (ka_with_tried true) am in
            let am := am_with_tried (alter (fun t => t ++ [l]) bucket (am_addrTried am)) am in
            Some (am_with_counts (am_nTried am + 1) (am_nNew am) am)
          else replace_tried bucket oldBucket l am
      end).
End Manager.

(** ** A new manager *)

(** [reset] fills the key with random bytes and makes the tables empty; it does not
    touch the counters. *)
Definition reset (key : list byte) (am : AddrManager) : AddrManager :=
  mkAddrManager key (am_heap am) (am_next am) ∅
    (replicate (Z.to_nat newBucketCount) ∅) (replicate (Z.to_nat triedBucketCount) [])
    (am_nTried am) (am_nNew am) (am_localAddresses am) (am_version am).
Definition New (key : list byte) : AddrManager :=
  reset key (mkAddrManager [] ∅ 0 ∅ [] [] 0 0 ∅ serialisationVersion).
