(* ===== verification/AddrLocal.v ===== *)
(** * addrmgr: which of its own addresses a node tells a peer

    The local addresses with their scores, and the choice among them by how well a
    peer can reach them ([AddLocalAddress], [getReachabilityFrom],
    [GetBestLocalAddress]).  The order in which the map of local addresses is walked
    is the parameter [local_order]. *)

From Stdlib Require Import ZArith Lia.
From S2P Require Import Prelude WireCommon ChainHash WireNet NetText AddrNetwork AddrManager.
Open Scope Z_scope.

Definition SFNodeNetwork : Z := 1.
Definition SFNodeBloom : Z := 4.
Definition SFNodeWitness : Z := 8.

Definition Unreachable : Z := 0.
Definition Default : Z := 1.
Definition Teredo : Z := 2.
Definition Ipv6Weak : Z := 3.
Definition Ipv4 : Z := 4.
Definition Ipv6Strong : Z := 5.
Definition Private : Z := 6.

Definition getReachabilityFrom (localAddr remoteAddr : NetAddressV2) : Z :=
  if negb (IsRoutable remoteAddr) then Unreachable
  else if NetAddressV2_IsTorV3 remoteAddr then
    if NetAddressV2_IsTorV3 localAddr then Private
    else
      let lna := legacy localAddr in
      if IsOnionCatTor lna then Unreachable
      else if IsRoutable localAddr && IsIPv4 lna then Ipv4
      else Default
  else if NetAddressV2_IsTorV3 localAddr then Default
  else
    let remoteLna := legacy remoteAddr in
    let localLna := legacy localAddr in
    if IsOnionCatTor remoteLna then
      if IsOnionCatTor localLna then Private
      else if IsRoutable localAddr && IsIPv4 localLna then Ipv4
      else Default
    else if IsRFC4380 remoteLna then
      if negb (IsRoutable localAddr) then Default
      else if IsRFC4380 localLna then Teredo
      else if IsIPv4 localLna then Ipv4
      else Ipv6Weak
    else if IsIPv4 remoteLna then
      if IsRoutable localAddr && IsIPv4 localLna then Ipv4 else Unreachable
    else
      let tunnelled := IsRFC3964 localLna || IsRFC6052 localLna || IsRFC6145 localLna in
      if negb (IsRoutable localAddr) then Default
      else if IsRFC4380 localLna then Teredo
      else if IsIPv4 localLna then Ipv4
      else if tunnelled then Ipv6Weak
      else Ipv6Strong.

Section Local.
Context (sha3_Sum256 : list byte -> list byte)
        (local_order : gmap addr_key localAddress -> list (addr_key * localAddress)).

(** The boolean is false when the address is refused.  A routable address has a
    network, so that its key does not panic. *)
Definition AddLocalAddress (na : NetAddressV2) (priority : AddressPriority) (am : AddrManager)
    : option (bool * AddrManager) :=
  if negb (IsRoutable na) then Some (false, am)
  else
    key ← NetAddressKey sha3_Sum256 na;
    Some (true,
      match am_localAddresses am !! key with
      | Some la =>
          if la_score la <? priority
          then am_with_local (<[key := mkLocalAddress (la_na la) (priority + 1)]> (am_localAddresses am)) am
          else am
      | None => am_with_local (<[key := mkLocalAddress na priority]> (am_localAddresses am)) am
      end).

(** One turn of the loop of [GetBestLocalAddress]. *)
Definition best_step (remoteAddr : NetAddressV2)
    (best : Z * AddressPriority * option NetAddressV2) (la : localAddress)
    : Z * AddressPriority * option NetAddressV2 :=
  let '(bestreach, bestscore, bestAddress) := best in
  let reach := getReachabilityFrom (la_na la) remoteAddr in
  if (bestreach <? reach) || ((reach =? bestreach) && (bestscore <? la_score la))
  then (reach, la_score la, Some (la_na la))
  else best.

(** What is sent when there is no local address to tell. *)
Definition unroutable_address (now : Z) (remoteAddr : NetAddressV2) : NetAddressV2 :=
  let ip :=
    if NetAddressV2_IsTorV3 remoteAddr then IPv4zero
    else
      let remoteLna := legacy remoteAddr in
      if negb (IsIPv4 remoteLna) && negb (IsOnionCatTor remoteLna) then IPv6zero else IPv4zero in
  let services := Z.lor (Z.lor SFNodeNetwork SFNodeWitness) SFNodeBloom in
  NetAddressV2FromBytes now services ip 0.

Definition GetBestLocalAddress (now : Z) (remoteAddr : NetAddressV2) (am : AddrManager)
    : NetAddressV2 :=
  let locals := map snd (local_order (am_localAddresses am)) in
  let '(_, _, bestAddress) := foldl (best_step remoteAddr) (0, 0, None) locals in
  match bestAddress with
  | Some a => a
  | None => unroutable_address now remoteAddr
  end.
End Local.

(** ** The order of preference *)

Definition rank (remoteAddr : NetAddressV2) (la : localAddress) : Z * Z :=
  (getReachabilityFrom (la_na la) remoteAddr, la_score la).

Definition rank_lt (a b : Z * Z) : Prop := fst a < fst b \/ fst a = fst b /\ snd a < snd b.

Lemma getReachabilityFrom_range l r : 0 <= getReachabilityFrom l r <= 6.
Proof.
  unfold getReachabilityFrom.
  repeat (match goal with |- context [if ?b then _ else _] => destruct b end);
    unfold Unreachable, Default, Teredo, Ipv6Weak, Ipv4, Ipv6Strong, Private; lia.
Qed.

(** The best of the local addresses walked so far. *)
Definition best_of (remoteAddr : NetAddressV2) (seen : list localAddress)
    (best : Z * AddressPriority * option NetAddressV2) : Prop :=
  let '(reach, score, a) := best in
  (forall la, la ∈ seen -> ~ rank_lt (reach, score) (rank remoteAddr la)) /\
  match a with
  | Some a => exists la, la ∈ seen /\ la_na la = a /\ rank remoteAddr la = (reach, score)
  | None => reach = 0 /\ score = 0
  end.

Lemma best_step_best remoteAddr seen best la :
  best_of remoteAddr seen best -> best_of remoteAddr (seen ++ [la]) (best_step remoteAddr best la).
Proof.
  destruct best as [[reach score] a]. intros [Hmax Ha]. unfold best_step.
  set (r := getReachabilityFrom (la_na la) remoteAddr).
  destruct (_ || _) eqn:E.
  - assert (Hlt : rank_lt (reach, score) (rank remoteAddr la)).
    { unfold rank_lt, rank. cbn [fst snd]. fold r. apply orb_prop in E as [E|E]; [lia|].
      apply andb_prop in E as [E1 E2]. lia. }
    split.
    + intros la' Hin. rewrite elem_of_app, list_elem_of_singleton in Hin.
      destruct Hin as [Hin|Hin]; [apply Hmax in Hin|subst la'];
        unfold rank_lt, rank in *; cbn [fst snd] in *; fold r in Hlt |- *; lia.
    + exists la. rewrite elem_of_app, list_elem_of_singleton. by split_and!; [right| |].
  - assert (Hnlt : ~ rank_lt (reach, score) (rank remoteAddr la)).
    { unfold rank_lt, rank. cbn [fst snd]. fold r. apply orb_false_elim in E as [E1 E2].
      apply andb_false_elim in E2 as [E2|E2]; lia. }
    split.
    + intros la' Hin. rewrite elem_of_app, list_elem_of_singleton in Hin.
      destruct Hin as [Hin|Hin]; [by apply Hmax|by subst la'].
    + destruct a as [a|]; [|done]. destruct Ha as (la' & Hin & H1 & H2). exists la'.
      rewrite elem_of_app. by split_and!; [left| |].
Qed.

Lemma best_loop remoteAddr ls : forall seen best,
  best_of remoteAddr seen best -> best_of remoteAddr (seen ++ ls) (foldl (best_step remoteAddr) best ls).
Proof.
  induction ls as [|la ls IH]; intros seen best H; [by rewrite app_nil_r|].
  cbn [foldl]. rewrite cons_middle, app_assoc. by apply IH, best_step_best.
Qed.

(** * Properties *)

(** [GetBestLocalAddress] tells a peer a local address that no other beats, first
    in reachability and then in score, whatever the order in which the map is walked;
    and it makes an unroutable one up only if every local address is unreachable
    for the peer and has the lowest score.  So an address with a better score is told
    even if the peer cannot reach it. *)
Theorem GetBestLocalAddress_best local_order now remoteAddr am :
  (forall m, Permutation (local_order m) (map_to_list m)) ->
  let a := GetBestLocalAddress local_order now remoteAddr am in
  (exists k la, am_localAddresses am !! k = Some la /\ a = la_na la /\
     forall k' la', am_localAddresses am !! k' = Some la' ->
       ~ rank_lt (rank remoteAddr la) (rank remoteAddr la')) \/
  (a = unroutable_address now remoteAddr /\
   forall k la, am_localAddresses am !! k = Some la ->
     getReachabilityFrom (la_na la) remoteAddr = 0 /\ la_score la <= 0).
Proof.
  intros Hord. cbv zeta. unfold GetBestLocalAddress.
  set (ls := map snd (local_order (am_localAddresses am))).
  assert (Hls : forall la, la ∈ ls <-> exists k, am_localAddresses am !! k = Some la).
  { intros la. unfold ls. rewrite list_elem_of_fmap. split.
    - intros ([k la'] & -> & Hin). rewrite Hord in Hin. exists k. by apply elem_of_map_to_list.
    - intros [k Hk]. exists (k, la). split; [done|]. rewrite Hord. by apply elem_of_map_to_list. }
  pose proof (best_loop remoteAddr ls [] (0, 0, None)) as Hb. cbn [app] in Hb.
  destruct (foldl _ _ ls) as [[reach score] a].
  destruct Hb as [Hmax Ha]; [split; [intros la Hin; by apply elem_of_nil in Hin|done]|].
  destruct a as [a|].
  - left. destruct Ha as (la & Hin & <- & Hr). apply Hls in Hin as [k Hk].
    exists k, la. split_and!; [done|done|]. intros k' la' Hk'. rewrite Hr. apply Hmax, Hls.
    by exists k'.
  - right. destruct Ha as [-> ->]. split; [done|]. intros k la Hk.
    specialize (Hmax la (proj2 (Hls la) (ex_intro _ k Hk))).
    pose proof (getReachabilityFrom_range (la_na la) remoteAddr).
    unfold rank_lt, rank in Hmax. cbn [fst snd] in Hmax. lia.
Qed.

Definition example_local : localAddress :=
  mkLocalAddress (mkNetAddressV2 0 0 (Some (ipv6Addr ([x26; x07] ++ replicate 14 x01))) 8333) BoundPrio.
Definition example_am : AddrManager :=
  mkAddrManager [] ∅ 0 ∅ [] [] 0 0 {[bytes_of "a" := example_local]} 2.

Lemma GetBestLocalAddress_best_witness :
  let remote := test_v4 x08 x08 x08 x08 in
  let a := GetBestLocalAddress map_to_list 5 remote example_am in
  (exists k la, am_localAddresses example_am !! k = Some la /\ a = la_na la /\
     forall k' la', am_localAddresses example_am !! k' = Some la' ->
       ~ rank_lt (rank remote la) (rank remote la')) \/
  (a = unroutable_address 5 remote /\
   forall k la, am_localAddresses example_am !! k = Some la ->
     getReachabilityFrom (la_na la) remote = 0 /\ la_score la <= 0).
Proof. apply GetBestLocalAddress_best. intros m. reflexivity. Defined.

(** a peer that has an IPv4 address is told an IPv6 address which the code itself
    rates as unreachable for it, although "something unroutable if nothing suitable"
    is what should be sent. *)
Theorem unreachable_address_told :
  let remote := test_v4 x08 x08 x08 x08 in
  getReachabilityFrom (la_na example_local) remote = Unreachable /\
  GetBestLocalAddress map_to_list 5 remote example_am = la_na example_local.
Proof. vm_compute. split; reflexivity. Qed.
