(* ===== verification/AddrLaws.v ===== *)
(** * addrmgr: the invariant of the address manager

    The index, the buckets of new addresses, the lists of tried ones, the counters
    and the reference counts agree after every operation, and no operation
    panics: [AddrInv] and one lemma for each elementary change. *)

From Stdlib Require Import ZArith Lia.
From S2P Require Import Prelude WireCommon ChainHash WireNet NetText AddrNetwork AddrManager.
Open Scope Z_scope.

(** ** Counting the buckets that hold a key *)

Definition has_key (k : addr_key) (b : gmap addr_key nat) : Z :=
  if bool_decide (is_Some (b !! k)) then 1 else 0.
Definition buckets_with (k : addr_key) (bs : list (gmap addr_key nat)) : Z :=
  foldr (fun b n => has_key k b + n) 0 bs.

Lemma has_key_range k b : 0 <= has_key k b <= 1.
Proof. unfold has_key. case_bool_decide; lia. Qed.

Lemma buckets_with_nonneg k bs : 0 <= buckets_with k bs.
Proof. induction bs as [|b bs IH]; [done|]. cbn. pose proof (has_key_range k b). unfold buckets_with in *. lia. Qed.

Lemma buckets_with_alter k f i bs b :
  bs !! i = Some b -> buckets_with k (alter f i bs) = buckets_with k bs - has_key k b + has_key k (f b).
Proof.
  revert i. induction bs as [|b' bs IH]; intros [|i] H; [done|done| |].
  - injection H as ->. cbn. lia.
  - cbn [lookup list_lookup] in H. specialize (IH i H). cbn in *. unfold buckets_with in *. lia.
Qed.

Lemma buckets_with_pos k bs : 0 < buckets_with k bs <-> exists i b l, bs !! i = Some b /\ b !! k = Some l.
Proof.
  induction bs as [|b bs IH]; cbn [buckets_with foldr].
  - split; [lia|]. intros (i & b & l & H & _). done.
  - pose proof (buckets_with_nonneg k bs). fold (buckets_with k bs). unfold has_key.
    case_bool_decide as E.
    + split; [|lia]. intros _. destruct E as [l El]. by exists 0%nat, b, l.
    + split.
      * intros Hp. destruct (proj1 IH ltac:(lia)) as (i & b' & l & H1 & H2). by exists (S i), b', l.
      * intros (i & b' & l & H1 & H2). cut (0 < buckets_with k bs); [lia|]. apply IH.
        destruct i as [|i]; [injection H1 as ->; by destruct E|]. by exists i, b', l.
Qed.

Lemma has_key_delete k k' b : has_key k (delete k' b) = if decide (k = k') then 0 else has_key k b.
Proof.
  unfold has_key. case_decide as E; [subst; by rewrite lookup_delete_eq|].
  by rewrite lookup_delete_ne.
Qed.
Lemma has_key_insert k k' l b : has_key k (<[k' := l]> b) = if decide (k = k') then 1 else has_key k b.
Proof.
  unfold has_key. case_decide as E; [subst; by rewrite lookup_insert_eq|].
  by rewrite lookup_insert_ne.
Qed.
Lemma has_key_Some k b l : b !! k = Some l -> has_key k b = 1.
Proof. unfold has_key. by intros ->. Qed.
Lemma has_key_None k b : b !! k = None -> has_key k b = 0.
Proof. unfold has_key. by intros ->. Qed.

(** ** The cells *)

Lemma heap_alter_Some (f : KnownAddress -> KnownAddress) l (h : gmap nat KnownAddress) l' ka' :
  alter f l h !! l' = Some ka' <->
  exists ka, h !! l' = Some ka /\ ka' = if decide (l = l') then f ka else ka.
Proof.
  case_decide as E; [subst; rewrite lookup_alter_eq|rewrite lookup_alter_ne by done].
  - destruct (h !! l') as [ka|]; cbn; split.
    + intros [= <-]. by exists ka.
    + intros (? & [= <-] & ->). done.
    + done.
    + by intros (? & ? & _).
  - split; [by exists ka'|]. by intros (? & ? & ->).
Qed.

Lemma list_alter_Some {A} (f : A -> A) i (xs : list A) j y :
  alter f i xs !! j = Some y <->
  exists x, xs !! j = Some x /\ y = if decide (i = j) then f x else x.
Proof.
  case_decide as E; [subst; rewrite list_lookup_alter_eq|rewrite list_lookup_alter_ne by done].
  - destruct (xs !! j) as [x|]; cbn; split.
    + intros [= <-]. by exists x.
    + intros (? & [= <-] & ->). done.
    + done.
    + by intros (? & ? & _).
  - split; [by exists y|]. by intros (? & ? & ->).
Qed.

Section Laws.
Context (sha3_Sum256 : list byte -> list byte)
        (range_order : gmap addr_key nat -> list (addr_key * nat)).
Hypothesis range_perm : forall m, Permutation (range_order m) (map_to_list m).

Local Abbreviation Key := (am_NetAddressKey sha3_Sum256).

(** ** The invariant *)

(** What holds of the cell of a known address under the key [k].  A new address is in
    a bucket, except for [loose], the one an operation is about to put somewhere. *)
Record known_ok (loose : addr_key -> Prop) (bs : list (gmap addr_key nat)) (k : addr_key)
    (ka : KnownAddress) : Prop := mkKnownOk {
  ko_key : Key (ka_na ka) = Some k;
  ko_refs : ka_refs ka = buckets_with k bs;
  ko_max : ka_refs ka <= newBucketsPerAddress;
  ko_tried : ka_tried ka = true -> ka_refs ka = 0;
  ko_new : ka_tried ka = false -> ~ loose k -> 0 < ka_refs ka;
}.

(** No address is in hand. *)
Definition nobody : addr_key -> Prop := fun _ => False.

(** [due] addresses are in the index that neither counter counts. *)
Record AddrInv (loose : addr_key -> Prop) (due : Z) (am : AddrManager) : Prop := mkAddrInv {
  ai_buckets : length (am_addrNew am) = 1024%nat /\ length (am_addrTried am) = 64%nat;
  ai_index : forall k l, am_addrIndex am !! k = Some l ->
    exists ka, am_heap am !! l = Some ka /\ known_ok loose (am_addrNew am) k ka;
  ai_new : forall i b k l, am_addrNew am !! i = Some b -> b !! k = Some l ->
    am_addrIndex am !! k = Some l;
  ai_nodup : NoDup (concat (am_addrTried am));
  ai_tried : forall l, l ∈ concat (am_addrTried am) <->
    exists k ka, am_addrIndex am !! k = Some l /\ am_heap am !! l = Some ka /\ ka_tried ka = true;
  ai_nTried : am_nTried am = Z.of_nat (length (concat (am_addrTried am)));
  ai_total : am_nTried am + am_nNew am + due = Z.of_nat (size (am_addrIndex am));
  ai_new_size : forall i b, am_addrNew am !! i = Some b -> Z.of_nat (size b) <= newBucketSize + 1;
  ai_tried_size : forall i t, am_addrTried am !! i = Some t -> len t <= triedBucketSize;
  ai_fresh : forall l, (am_next am <= l)%nat -> am_heap am !! l = None;
}.

(** Two keys of the index never share a cell. *)
Lemma index_inj loose due am k k' l :
  AddrInv loose due am -> am_addrIndex am !! k = Some l -> am_addrIndex am !! k' = Some l -> k = k'.
Proof.
  intros H Hk Hk'. destruct (ai_index _ _ _ H _ _ Hk) as (ka & Hka & Ho).
  destruct (ai_index _ _ _ H _ _ Hk') as (ka' & Hka' & Ho'). rewrite Hka in Hka'.
  injection Hka' as ->. pose proof (ko_key _ _ _ _ Ho). pose proof (ko_key _ _ _ _ Ho'). congruence.
Qed.

(** A new address is in the index under its key, and has not been tried. *)
Lemma in_new loose due am i b k l :
  AddrInv loose due am -> am_addrNew am !! i = Some b -> b !! k = Some l ->
  am_addrIndex am !! k = Some l /\
  exists ka, am_heap am !! l = Some ka /\ known_ok loose (am_addrNew am) k ka /\
    ka_tried ka = false /\ 0 < ka_refs ka.
Proof.
  intros H Hi Hk. pose proof (ai_new _ _ _ H _ _ _ _ Hi Hk) as Hx. split; [done|].
  destruct (ai_index _ _ _ H _ _ Hx) as (ka & Hka & Ho). exists ka. split_and!; [done|done| |].
  - destruct (ka_tried ka) eqn:E; [|done]. exfalso. apply (ko_tried _ _ _ _ Ho) in E.
    rewrite (ko_refs _ _ _ _ Ho) in E. cut (0 < buckets_with k (am_addrNew am)); [lia|].
    apply buckets_with_pos. by exists i, b, l.
  - rewrite (ko_refs _ _ _ _ Ho). apply buckets_with_pos. by exists i, b, l.
Qed.

(** ** Changes of a cell that keep key, references and the list it is in *)

Definition keeps (f : KnownAddress -> KnownAddress) (ka : KnownAddress) : Prop :=
  Key (ka_na (f ka)) = Key (ka_na ka) /\ ka_refs (f ka) = ka_refs ka /\ ka_tried (f ka) = ka_tried ka.

Lemma known_ok_keeps loose bs k f ka : keeps f ka -> known_ok loose bs k ka -> known_ok loose bs k (f ka).
Proof.
  intros (E1 & E2 & E3) [H1 H2 H3 H4 H5]. split; rewrite ?E1, ?E2, ?E3; done.
Qed.

Lemma update_inv loose due am l f :
  (forall ka, am_heap am !! l = Some ka -> keeps f ka) ->
  AddrInv loose due am -> AddrInv loose due (am_update l f am).
Proof.
  intros Hf [H1 H2 H3 H4 H5 H6 H7 H8 H9 H10]. split; cbn; try done.
  - intros k l' Hk. destruct (H2 _ _ Hk) as (ka & Hka & Ho).
    eexists. split; [apply heap_alter_Some; by exists ka|].
    case_decide; [subst; by apply known_ok_keeps; [apply Hf|]|done].
  - intros l'. rewrite H5. split; intros (k & ka & Hk & Hka & Ht).
    + exists k. eexists. split_and!; [done|apply heap_alter_Some; by exists ka|].
      case_decide; [subst|done]. by destruct (Hf _ Hka) as (_ & _ & ->).
    + apply heap_alter_Some in Hka as (ka' & Hka' & ->). exists k, ka'. split_and!; [done|done|].
      case_decide; [subst|done]. by destruct (Hf _ Hka') as (_ & _ & <-).
  - intros l' Hl. rewrite <- (H10 l' Hl).
    destruct (decide (l = l')) as [->|]; [|by rewrite lookup_alter_ne].
    by rewrite lookup_alter_eq, (H10 l' Hl).
Qed.

(** ** Taking an address out of a bucket *)

Lemma buckets_with_delete k k' (i : nat) bs b l :
  bs !! i = Some b -> b !! k = Some l ->
  buckets_with k' (alter (delete k) i bs) = buckets_with k' bs - (if decide (k' = k) then 1 else 0).
Proof.
  intros Hi Hk. rewrite (buckets_with_alter _ _ _ _ b) by done. rewrite has_key_delete.
  case_decide as E; [subst; rewrite (has_key_Some _ _ _ Hk)|]; lia.
Qed.

Lemma alter_delete_Some (k : addr_key) (i : nat) (bs : list (gmap addr_key nat)) j b k' l' :
  alter (delete k) i bs !! j = Some b -> b !! k' = Some l' ->
  exists b0, bs !! j = Some b0 /\ b0 !! k' = Some l'.
Proof.
  intros Hj Hk. apply list_alter_Some in Hj as (b0 & Hj & ->). exists b0. split; [done|].
  case_decide; [|done]. by apply lookup_delete_Some in Hk as [_ ?].
Qed.

(** Deleting from a bucket and counting one reference less, with or without the entry
    of the index. *)
Definition drop_ref (i : nat) (k : addr_key) (l : nat) (am : AddrManager) : AddrManager :=
  am_update l (fun v => ka_with_refs (ka_refs v - 1) v) (am_new_delete i k am).

Lemma new_size_delete (bs : list (gmap addr_key nat)) (i : nat) (k : addr_key) :
  (forall j b, bs !! j = Some b -> Z.of_nat (size b) <= newBucketSize + 1) ->
  forall j b, alter (delete k) i bs !! j = Some b -> Z.of_nat (size b) <= newBucketSize + 1.
Proof.
  intros H j b Hj. apply list_alter_Some in Hj as (b0 & Hj & ->). specialize (H _ _ Hj).
  case_decide; [|done]. rewrite map_size_delete. unfold id. destruct (b0 !! k); lia.
Qed.

(** What [drop_ref] does to the cells of the index. *)
Lemma drop_ref_known loose due am i b k l k' l' :
  AddrInv loose due am -> am_addrNew am !! i = Some b -> b !! k = Some l ->
  am_addrIndex am !! k' = Some l' ->
  exists ka, am_heap (drop_ref i k l am) !! l' = Some ka /\
    Key (ka_na ka) = Some k' /\ ka_refs ka = buckets_with k' (am_addrNew (drop_ref i k l am)) /\
    ka_refs ka <= newBucketsPerAddress /\ (ka_tried ka = true -> ka_refs ka = 0) /\
    (k' <> k -> known_ok loose (am_addrNew (drop_ref i k l am)) k' ka) /\
    (exists ka0, am_heap am !! l' = Some ka0 /\ ka_tried ka = ka_tried ka0 /\ (k' <> k -> ka = ka0)).
Proof.
  intros H Hi Hk Hk'. destruct (in_new _ _ _ _ _ _ _ H Hi Hk) as (Hx & ka & Hka & Ho & Hnt & Hpos).
  destruct (ai_index _ _ _ H _ _ Hk') as (ka' & Hka' & Ho').
  assert (Hl : k' = k <-> l = l').
  { split; [intros ->; congruence|intros <-; by eapply index_inj]. }
  exists (if decide (l = l') then ka_with_refs (ka_refs ka' - 1) ka' else ka').
  split; [apply heap_alter_Some; by exists ka'|]. cbn [drop_ref am_update am_new_delete am_with_new am_with_heap am_addrNew].
  rewrite (buckets_with_delete k k' i _ b l) by done.
  destruct Ho' as [O1 O2 O3 O4 O5].
  destruct (decide (l = l')) as [El|El].
  - assert (Ek : k' = k) by tauto. rewrite decide_True by done. cbn [ka_with_refs ka_na ka_refs ka_tried].
    assert (ka' = ka) as -> by congruence.
    split_and!; [done|lia|lia|intros Ht; congruence|done|]. exists ka. by split_and!.
  - assert (Ek : k' <> k) by tauto. rewrite decide_False by done.
    split_and!; [done|lia|done|done| |exists ka'; by split_and!].
    intros _. split; try done. rewrite (buckets_with_delete k k' i _ b l) by done.
    rewrite decide_False by done. lia.
Qed.

Lemma drop_ref_tried loose due am i b k l :
  AddrInv loose due am -> am_addrNew am !! i = Some b -> b !! k = Some l ->
  forall l', l' ∈ concat (am_addrTried am) <->
    exists k' ka, am_addrIndex am !! k' = Some l' /\ am_heap (drop_ref i k l am) !! l' = Some ka /\
      ka_tried ka = true.
Proof.
  intros H Hi Hk l'. rewrite (ai_tried _ _ _ H). split.
  - intros (k' & ka & Hk' & Hka & Ht).
    destruct (drop_ref_known _ _ _ _ _ _ _ _ _ H Hi Hk Hk') as (ka1 & Hka1 & _ & _ & _ & _ & _ & ka0 & Hka0 & Ht0 & _).
    exists k', ka1. split_and!; [done|done|]. congruence.
  - intros (k' & ka & Hk' & Hka & Ht).
    destruct (drop_ref_known _ _ _ _ _ _ _ _ _ H Hi Hk Hk') as (ka1 & Hka1 & _ & _ & _ & _ & _ & ka0 & Hka0 & Ht0 & _).
    exists k', ka0. split_and!; [done|done|]. congruence.
Qed.

Lemma drop_ref_fresh loose due am i k l :
  AddrInv loose due am -> forall l', (am_next am <= l')%nat -> am_heap (drop_ref i k l am) !! l' = None.
Proof.
  intros H l' Hl. pose proof (ai_fresh _ _ _ H l' Hl) as E. cbn.
  destruct (decide (l = l')) as [->|]; [by rewrite lookup_alter_eq, E|by rewrite lookup_alter_ne].
Qed.

(** The entry of the index goes with the last reference. *)
Definition forget (k : addr_key) (am : AddrManager) : AddrManager :=
  am_with_index (delete k (am_addrIndex am))
    (am_with_counts (am_nTried am) (am_nNew am - 1) am).

Lemma expire_eq am i k l ka :
  am_heap am !! l = Some ka ->
  expire i k l am = Some (if ka_refs ka - 1 =? 0 then forget k (drop_ref i k l am)
                          else drop_ref i k l am).
Proof.
  intros Hka. unfold expire. cbn [am_new_delete am_with_new am_heap]. rewrite Hka.
  cbn [mbind option_bind].
  assert (Hst : am_update l (ka_with_refs (ka_refs ka - 1)) (am_new_delete i k am) = drop_ref i k l am).
  { unfold drop_ref, am_update, am_new_delete, am_with_new, am_with_heap. cbn. f_equal.
    apply map_eq. intros l'. destruct (decide (l = l')) as [<-|]; [|by rewrite !lookup_alter_ne].
    by rewrite !lookup_alter_eq, Hka. }
  unfold am_new_delete, am_with_new in Hst. unfold am_new_delete, am_with_new. rewrite Hst.
  by destruct (ka_refs ka - 1 =? 0).
Qed.

Section Expire.
Context (loose : addr_key -> Prop) (due : Z) (am : AddrManager) (i : nat)
  (b : gmap addr_key nat) (k : addr_key) (l : nat).
Hypothesis H : AddrInv loose due am.
Hypothesis Hi : am_addrNew am !! i = Some b.
Hypothesis Hk : b !! k = Some l.

Lemma drop_ref_new j b' k' l' :
  am_addrNew (drop_ref i k l am) !! j = Some b' -> b' !! k' = Some l' ->
  am_addrIndex am !! k' = Some l'.
Proof.
  intros Hj Hk'. destruct (alter_delete_Some _ _ _ _ _ _ _ Hj Hk') as (b0 & Hj0 & Hk0).
  by apply (ai_new _ _ _ H _ _ _ _ Hj0).
Qed.

Lemma drop_ref_count :
  buckets_with k (am_addrNew (drop_ref i k l am)) = buckets_with k (am_addrNew am) - 1.
Proof.
  etransitivity; [exact (buckets_with_delete k k i _ b l Hi Hk)|]. by rewrite decide_True.
Qed.

(** With a reference left, or when it is the address at hand. *)
Lemma drop_ref_inv :
  buckets_with k (am_addrNew am) <> 1 \/ loose k -> AddrInv loose due (drop_ref i k l am).
Proof.
  intros Hleft. pose proof drop_ref_count as Hc.
  assert (Hpos : 0 < buckets_with k (am_addrNew am)) by (apply buckets_with_pos; by exists i, b, l).
  split; try apply H.
  - cbn. rewrite length_alter. apply H.
  - intros k' l' Hk'.
    destruct (drop_ref_known _ _ _ _ _ _ _ _ _ H Hi Hk Hk')
      as (ka1 & Hka1 & O1 & O2 & O3 & O4 & Hok & _).
    exists ka1. split; [done|]. destruct (decide (k' = k)) as [->|Hne]; [|by apply Hok].
    split; try done. intros _ Hl. destruct Hleft as [Hleft|Hleft]; [lia|done].
  - exact drop_ref_new.
  - exact (drop_ref_tried _ _ _ _ _ _ _ H Hi Hk).
  - apply new_size_delete, H.
  - exact (drop_ref_fresh _ _ _ i k l H).
Qed.

Lemma forget_inv :
  buckets_with k (am_addrNew am) = 1 -> AddrInv loose due (forget k (drop_ref i k l am)).
Proof.
  intros H1. pose proof drop_ref_count as Hc.
  pose proof (ai_new _ _ _ H _ _ _ _ Hi Hk) as Hx.
  destruct (in_new _ _ _ _ _ _ _ H Hi Hk) as (_ & ka & Hka & _ & Hnt & _).
  pose proof (drop_ref_tried _ _ _ _ _ _ _ H Hi Hk) as Htr.
  pose proof (fun k' l' => drop_ref_known _ _ _ _ _ _ _ k' l' H Hi Hk) as Hkn.
  split; try apply H; cbn [forget am_with_index am_with_counts am_addrIndex am_addrNew am_heap
    am_addrTried am_nTried am_nNew am_next].
  - cbn. rewrite length_alter. apply H.
  - intros k' l' Hk'. apply lookup_delete_Some in Hk' as [Hne Hk'].
    destruct (Hkn _ _ Hk') as (ka1 & Hka1 & _ & _ & _ & _ & Hok & _).
    exists ka1. split; [done|]. by apply Hok.
  - intros j b' k' l' Hj Hk'. apply lookup_delete_Some. split; [|by eapply drop_ref_new].
    intros <-. cut (0 < buckets_with k (am_addrNew (drop_ref i k l am))); [lia|].
    apply buckets_with_pos. by exists j, b', l'.
  - intros l'. cbn [drop_ref am_update am_with_heap am_new_delete am_with_new am_addrTried]. rewrite Htr.
    split; intros (k' & ka1 & Hk' & Hka1 & Ht).
    + exists k', ka1. split_and!; [|done|done]. apply lookup_delete_Some. split; [|done].
      intros <-. destruct (Hkn _ _ Hk') as (ka2 & Hka2 & _ & _ & _ & _ & _ & ka0 & Hka0 & Ht0 & _).
      congruence.
    + apply lookup_delete_Some in Hk' as [_ Hk']. by exists k', ka1.
  - cbn. rewrite map_size_delete_Some by (by exists l). pose proof (ai_total _ _ _ H).
    assert (size (am_addrIndex am) <> 0%nat)
      by (intros Hz; apply map_size_empty_inv in Hz; by rewrite Hz in Hx).
    lia.
  - apply new_size_delete, H.
  - exact (drop_ref_fresh _ _ _ i k l H).
Qed.

(** What [expire] leaves, but for the invariant. *)
Definition expired (am' : AddrManager) : Prop :=
  am_addrNew am' = alter (delete k) i (am_addrNew am) /\
  am_addrTried am' = am_addrTried am /\ am_key am' = am_key am /\
  am_heap am' = am_heap (drop_ref i k l am) /\
  (forall k', k' <> k -> am_addrIndex am' !! k' = am_addrIndex am !! k') /\
  am_addrIndex am' !! k = if decide (buckets_with k (am_addrNew am) = 1) then None else Some l.

Lemma expire_inv :
  ~ loose k -> exists am', expire i k l am = Some am' /\ AddrInv loose due am' /\ expired am'.
Proof.
  intros Hloose. destruct (in_new _ _ _ _ _ _ _ H Hi Hk) as (Hx & ka & Hka & Ho & _).
  pose proof (ko_refs _ _ _ _ Ho) as Hr. rewrite (expire_eq _ _ _ _ _ Hka).
  eexists. split; [reflexivity|]. unfold expired.
  destruct (Z.eqb_spec (ka_refs ka - 1) 0).
  - split; [apply forget_inv; lia|]. rewrite decide_True by lia. split_and!; try done; cbn.
    + intros k' Hne. by rewrite lookup_delete_ne.
    + by rewrite lookup_delete_eq.
  - split; [apply drop_ref_inv; left; lia|]. rewrite decide_False by lia. by split_and!.
Qed.
End Expire.

(** ** Making room in a bucket *)

(** Between two states only reference counts differ. *)
Definition refs_only (am am' : AddrManager) : Prop :=
  forall l ka, am_heap am !! l = Some ka ->
    exists ka', am_heap am' !! l = Some ka' /\ ka' = ka_with_refs (ka_refs ka') ka.

Lemma refs_only_refl am : refs_only am am.
Proof. intros l ka H. exists ka. split; [done|by destruct ka]. Qed.

Lemma refs_only_trans am1 am2 am3 : refs_only am1 am2 -> refs_only am2 am3 -> refs_only am1 am3.
Proof.
  intros H1 H2 l ka H. destruct (H1 _ _ H) as (ka2 & H' & E2).
  destruct (H2 _ _ H') as (ka3 & H'' & E3). exists ka3. split; [done|]. rewrite E3, E2. done.
Qed.

Lemma drop_ref_refs_only i k l am am' :
  am_heap am' = am_heap (drop_ref i k l am) -> refs_only am am'.
Proof.
  intros He l' ka H. rewrite He. cbn. eexists.
  split; [apply heap_alter_Some; by exists ka|]. case_decide; by destruct ka.
Qed.

(** The known address of an entry of a bucket. *)
Definition entry_ka (am : AddrManager) (b : gmap addr_key nat) (k : addr_key) : option KnownAddress :=
  l ← b !! k; am_heap am !! l.

Definition is_bad (now : Z) (am : AddrManager) (b : gmap addr_key nat) (k : addr_key) : bool :=
  if entry_ka am b k is Some ka then KnownAddress_isBad now ka else false.
Definition last_seen (am : AddrManager) (b : gmap addr_key nat) (k : addr_key) : Z :=
  if entry_ka am b k is Some ka then NA2_Timestamp (ka_na ka) else 0.

(** The state [am'] differs from [am] in the bucket [i], from which entries were
    removed, and in what follows from that. *)
Record shrunk (i : nat) (b b' : gmap addr_key nat) (am am' : AddrManager) : Prop := mkShrunk {
  sh_new : am_addrNew am' = <[i := b']> (am_addrNew am);
  sh_tried : am_addrTried am' = am_addrTried am;
  sh_key : am_key am' = am_key am;
  sh_refs : refs_only am am';
  sh_bucket : forall k, b' !! k = b !! k \/ b' !! k = None;
  sh_index : forall k, am_addrIndex am' !! k =
    if bool_decide (b' !! k <> b !! k /\ buckets_with k (am_addrNew am) = 1) then None
    else am_addrIndex am !! k;
}.

Lemma shrunk_refl i b am : am_addrNew am !! i = Some b -> shrunk i b b am am.
Proof.
  intros Hi. split; try done; [by rewrite list_insert_id|apply refs_only_refl|by left|].
  intros k. rewrite bool_decide_eq_false_2; [done|]. tauto.
Qed.

Lemma shrunk_at i b b' am am' : am_addrNew am !! i = Some b -> shrunk i b b' am am' -> am_addrNew am' !! i = Some b'.
Proof.
  intros Hi H. rewrite (sh_new _ _ _ _ _ H). apply list_lookup_insert_eq. by eapply lookup_lt_Some.
Qed.

Lemma shrunk_count i b b' am am' k :
  am_addrNew am !! i = Some b -> shrunk i b b' am am' -> b' !! k = b !! k ->
  buckets_with k (am_addrNew am') = buckets_with k (am_addrNew am).
Proof.
  intros Hi H Hk. rewrite (sh_new _ _ _ _ _ H).
  assert (E : <[i := b']> (am_addrNew am) = alter (fun _ => b') i (am_addrNew am)).
  { apply list_eq. intros j. destruct (decide (i = j)) as [<-|Hne].
    - rewrite list_lookup_alter_eq, Hi. apply list_lookup_insert_eq. by eapply lookup_lt_Some.
    - by rewrite list_lookup_alter_ne, list_lookup_insert_ne. }
  rewrite E, (buckets_with_alter k _ _ _ b) by done. unfold has_key. rewrite Hk. lia.
Qed.

(** One more entry is removed. *)
Lemma shrunk_expire due loose i b b1 am am1 am2 k l :
  am_addrNew am !! i = Some b -> shrunk i b b1 am am1 -> AddrInv loose due am1 ->
  b1 !! k = Some l -> expired am1 i k l am2 -> shrunk i b (delete k b1) am am2.
Proof.
  intros Hi H Hinv Hk (E1 & E2 & E3 & E4 & E5 & E6). pose proof (shrunk_at _ _ _ _ _ Hi H) as Hi1.
  assert (Hb : b !! k = Some l).
  { destruct (sh_bucket _ _ _ _ _ H k) as [E|E]; [by rewrite <- E|congruence]. }
  split.
  - rewrite E1, (sh_new _ _ _ _ _ H). apply list_eq. intros j. destruct (decide (i = j)) as [<-|Hne].
    + pose proof (lookup_lt_Some _ _ _ Hi).
      rewrite list_lookup_alter_eq, !list_lookup_insert_eq by (rewrite ?length_insert; done). done.
    + by rewrite list_lookup_alter_ne, !list_lookup_insert_ne.
  - by rewrite E2, (sh_tried _ _ _ _ _ H).
  - by rewrite E3, (sh_key _ _ _ _ _ H).
  - eapply refs_only_trans; [apply H|]. by eapply drop_ref_refs_only.
  - intros k'. destruct (decide (k' = k)) as [->|Hne]; [right; by rewrite lookup_delete_eq|].
    rewrite lookup_delete_ne by done. apply H.
  - intros k'. destruct (decide (k' = k)) as [->|Hne].
    + rewrite E6, (shrunk_count _ _ _ _ _ k Hi H) by congruence. rewrite lookup_delete_eq, Hb.
      destruct (decide (buckets_with k (am_addrNew am) = 1)) as [Hc|Hc].
      * by rewrite bool_decide_eq_true_2 by (by split).
      * rewrite bool_decide_eq_false_2 by tauto.
        pose proof (ai_new _ _ _ Hinv _ _ _ _ Hi1 Hk) as Hx. rewrite (sh_index _ _ _ _ _ H) in Hx.
        case_bool_decide as Hd; [done|by rewrite Hx].
    + rewrite E5 by done. rewrite (sh_index _ _ _ _ _ H). by rewrite lookup_delete_ne.
Qed.

Lemma entry_ka_refs_only am am' b k :
  refs_only am am' -> forall ka, entry_ka am b k = Some ka ->
  exists ka', entry_ka am' b k = Some ka' /\ ka' = ka_with_refs (ka_refs ka') ka.
Proof.
  intros H ka. unfold entry_ka. destruct (b !! k) as [l|]; [|done]. cbn. apply H.
Qed.

(** What decides about an entry does not depend on reference counts. *)
Lemma entry_same loose due i now am am' b k l :
  AddrInv loose due am -> am_addrNew am !! i = Some b -> refs_only am am' ->
  b !! k = Some l ->
  exists ka', am_heap am' !! l = Some ka' /\ KnownAddress_isBad now ka' = is_bad now am b k /\
    NA2_Timestamp (ka_na ka') = last_seen am b k.
Proof.
  intros H Hi Hr Hb. destruct (in_new _ _ _ _ _ _ _ H Hi Hb) as (_ & ka & Hka & _).
  destruct (Hr _ _ Hka) as (ka' & Hka' & E). exists ka'. split; [done|].
  unfold is_bad, last_seen, entry_ka. rewrite Hb. cbn. rewrite Hka, E. by destruct ka.
Qed.

Section ExpireNew.
Context (now : Z) (loose : addr_key -> Prop) (due : Z) (am : AddrManager) (i : nat)
  (b : gmap addr_key nat).
Hypothesis H : AddrInv loose due am.
Hypothesis Hi : am_addrNew am !! i = Some b.
Hypothesis Hloose : forall k, loose k -> b !! k = None.

Local Abbreviation bad := (is_bad now am b).
Local Abbreviation seen := (last_seen am b).

(** The state of the loop before the entries [es]. *)
Record loop_state (es : list (addr_key * nat)) (oldest : option nat) (b1 : gmap addr_key nat)
    (am1 : AddrManager) : Prop := mkLoopState {
  ls_shrunk : shrunk i b b1 am am1;
  ls_inv : AddrInv loose due am1;
  ls_entries : forall k l, (k, l) ∈ es -> b1 !! k = Some l;
  ls_nodup : NoDup (es.*1);
  ls_done : forall k, k ∉ es.*1 -> b1 !! k = if bad k then None else b !! k;
  ls_oldest : match oldest with
    | None => forall k, is_Some (b !! k) -> k ∉ es.*1 -> bad k = true
    | Some o => exists k, b1 !! k = Some o /\ k ∉ es.*1 /\ bad k = false /\
        forall k', is_Some (b !! k') -> k' ∉ es.*1 -> bad k' = false -> seen k <= seen k'
    end;
}.

Lemma ls_b es oldest b1 am1 k l :
  loop_state es oldest b1 am1 -> b1 !! k = Some l -> b !! k = Some l.
Proof.
  intros Hs Hk. destruct (sh_bucket _ _ _ _ _ (ls_shrunk _ _ _ _ Hs) k) as [E|E]; [by rewrite <- E|].
  congruence.
Qed.

Lemma ls_entry es oldest b1 am1 k l :
  loop_state es oldest b1 am1 -> b1 !! k = Some l ->
  exists ka, am_heap am1 !! l = Some ka /\ KnownAddress_isBad now ka = bad k /\
    NA2_Timestamp (ka_na ka) = seen k.
Proof.
  intros Hs Hk. eapply entry_same; [exact H|exact Hi|apply (sh_refs _ _ _ _ _ (ls_shrunk _ _ _ _ Hs))|].
  by eapply ls_b.
Qed.

Lemma not_in_tail k (l : nat) (es : list (addr_key * nat)) k' : k' ∉ es.*1 -> k' <> k -> k' ∉ ((k, l) :: es).*1.
Proof. intros H1 H2. rewrite fmap_cons, not_elem_of_cons. by split. Qed.

(** An entry that stays: it is the oldest so far, or not. *)
Lemma loop_keep k l es oldest b1 am1 oldest' :
  loop_state ((k, l) :: es) oldest b1 am1 -> bad k = false ->
  (oldest' = Some l /\ match oldest with
     | None => True
     | Some o => forall k', b1 !! k' = Some o -> seen k <= seen k'
     end \/
   oldest' = oldest /\ exists o k', oldest = Some o /\ b1 !! k' = Some o /\ seen k' <= seen k) ->
  loop_state es oldest' b1 am1.
Proof.
  intros Hs Hbad Hold. pose proof Hs as [S1 S2 S3 S4 S5 S6].
  rewrite fmap_cons in S4. apply list.NoDup_cons in S4 as [Hnin Hnd].
  assert (Hk : b1 !! k = Some l) by (apply S3; by left).
  pose proof (ls_b _ _ _ _ _ _ Hs Hk) as Hbk.
  split; [done|done|intros; apply S3; by right|done| |].
  - intros k' Hk'. destruct (decide (k' = k)) as [->|]; [by rewrite Hbad, Hk|].
    by apply S5, not_in_tail.
  - destruct Hold as [[-> Hold]|(-> & o & k0 & -> & Hk0 & Hle)].
    + exists k. split_and!; [done|done|done|]. intros k' Hs' Hn' Hb'.
      destruct (decide (k' = k)) as [->|Hne]; [lia|]. pose proof (not_in_tail k l es k' Hn' Hne) as Hn2.
      destruct oldest as [o|].
      * destruct S6 as (k1 & E1 & E2 & E3 & E4). specialize (E4 k' Hs' Hn2 Hb'). specialize (Hold k1 E1). lia.
      * specialize (S6 k' Hs' Hn2). congruence.
    + destruct S6 as (k1 & E1 & E2 & E3 & E4).
      assert (k0 = k1) as -> by (eapply (index_inj loose due am1); [done|eapply ai_new; [done|by eapply shrunk_at|done]..]).
      exists k1. rewrite fmap_cons, not_elem_of_cons in E2. split_and!; try tauto.
      intros k' Hs' Hn' Hb'. destruct (decide (k' = k)) as [->|Hne]; [lia|].
      by apply E4, Hb'; [|apply not_in_tail].
Qed.

Lemma loop_drop k l es oldest b1 am1 :
  loop_state ((k, l) :: es) oldest b1 am1 -> bad k = true ->
  exists am2, expire i k l am1 = Some am2 /\ loop_state es oldest (delete k b1) am2.
Proof.
  intros Hs Hbad. pose proof Hs as [S1 S2 S3 S4 S5 S6].
  rewrite fmap_cons in S4. apply list.NoDup_cons in S4 as [Hnin Hnd].
  assert (Hk : b1 !! k = Some l) by (apply S3; by left).
  pose proof (ls_b _ _ _ _ _ _ Hs Hk) as Hbk.
  destruct (expire_inv loose due am1 i b1 k l S2 (shrunk_at _ _ _ _ _ Hi S1) Hk) as (am2 & He & Hinv2 & Hex).
  { intros E. apply Hloose in E. congruence. }
  exists am2. split; [done|]. split; [by eapply shrunk_expire|done| |done| |].
  - intros k' l' Hin. rewrite lookup_delete_ne; [apply S3; by right|].
    intros <-. apply Hnin. apply list_elem_of_fmap. by exists (k, l').
  - intros k' Hk'. destruct (decide (k' = k)) as [->|]; [by rewrite lookup_delete_eq, Hbad|].
    rewrite lookup_delete_ne by done. by apply S5, not_in_tail.
  - destruct oldest as [o|].
    + destruct S6 as (k1 & E1 & E2 & E3 & E4). exists k1.
      rewrite fmap_cons, not_elem_of_cons in E2. split_and!; try tauto.
      * rewrite lookup_delete_ne; [done|]. intros ->. congruence.
      * intros k' Hs' Hn' Hb'. apply E4; [done|apply not_in_tail; [done|]|done]. intros ->. congruence.
    + intros k' Hs' Hn'. destruct (decide (k' = k)) as [->|]; [done|]. by apply S6, not_in_tail.
Qed.

Lemma expire_loop_spec es : forall oldest b1 am1,
  loop_state es oldest b1 am1 ->
  exists oldest' am', expire_loop now i es oldest am1 = Some (oldest', am') /\
    exists b', loop_state [] oldest' b' am'.
Proof.
  induction es as [|[k l] es IH]; intros oldest b1 am1 Hs.
  { exists oldest, am1. split; [done|by exists b1]. }
  assert (Hk : b1 !! k = Some l) by (apply (ls_entries _ _ _ _ Hs); by left).
  destruct (ls_entry _ _ _ _ _ _ Hs Hk) as (ka & Hka & Hbad & Hseen).
  cbn [expire_loop]. rewrite Hka. cbn [mbind option_bind]. rewrite Hbad.
  destruct (bad k) eqn:Eb.
  { destruct (loop_drop _ _ _ _ _ _ Hs Eb) as (am2 & -> & Hs2). cbn [mbind option_bind]. by apply IH in Hs2. }
  destruct oldest as [o|].
  2:{ eapply IH, loop_keep; [exact Hs|done|]. by left. }
  destruct (ls_oldest _ _ _ _ Hs) as (k1 & E1 & E2 & E3 & E4).
  destruct (ls_entry _ _ _ _ _ _ Hs E1) as (ka1 & Hka1 & _ & Hseen1).
  unfold timestamp_at. rewrite Hka1. cbn [fmap option_fmap option_map mbind option_bind].
  rewrite Hseen, Hseen1.
  assert (Huniq : forall k', b1 !! k' = Some o -> k' = k1).
  { intros k' E'. pose proof (ls_shrunk _ _ _ _ Hs). pose proof (ls_inv _ _ _ _ Hs).
    eapply (index_inj loose due am1); [done|eapply ai_new; [done|by eapply shrunk_at|done]..]. }
  destruct (Z.ltb_spec (seen k1) (seen k)); cbn [negb]; (eapply IH, loop_keep; [exact Hs|done|]).
  - right. split; [done|]. exists o, k1. split_and!; [done|done|lia].
  - left. split; [done|]. intros k' E'. apply Huniq in E'. subst. lia.
Qed.

(** [expireNew] removes the bad entries of a bucket and the one seen longest ago of
    the others. *)
Lemma expireNew_spec :
  exists am' b', expireNew sha3_Sum256 range_order now i am = Some am' /\
    AddrInv loose due am' /\ shrunk i b b' am am' /\
    exists removed,
      (forall k, b' !! k = if bad k || bool_decide (removed = Some k) then None else b !! k) /\
      match removed with
      | None => forall k, is_Some (b !! k) -> bad k = true
      | Some k => is_Some (b !! k) /\ bad k = false /\
          forall k', is_Some (b !! k') -> bad k' = false -> seen k <= seen k'
      end.
Proof.
  unfold expireNew. rewrite Hi. cbn [mbind option_bind].
  assert (Hin : forall k l, (k, l) ∈ range_order b <-> b !! k = Some l).
  { intros k l. rewrite range_perm. apply elem_of_map_to_list. }
  assert (Hk : forall k, k ∉ (range_order b).*1 -> b !! k = None).
  { intros k Hn. destruct (b !! k) as [l|] eqn:E; [|done]. destruct Hn.
    apply list_elem_of_fmap. exists (k, l). split; [done|]. by apply Hin. }
  destruct (expire_loop_spec (range_order b) None b am) as (oldest & am1 & -> & b1 & Hs).
  { split; [by apply shrunk_refl|done|intros; by apply Hin| | |].
    - rewrite range_perm. apply NoDup_fst_map_to_list.
    - intros k Hn. rewrite Hk by done. by destruct (bad k).
    - intros k [l Hl] Hn. by rewrite Hk in Hl. }
  pose proof Hs as [S1 S2 S3 S4 S5 S6]. cbn [mbind option_bind].
  assert (Hnil : forall k : addr_key, k ∉ ([] : list (addr_key * nat)).*1) by (intros k; apply not_elem_of_nil).
  destruct oldest as [o|].
  2:{ exists am1, b1. split_and!; [done|done|done|]. exists None. split.
      - intros k. rewrite (bool_decide_eq_false_2 (None = Some k)), orb_false_r by done. by apply S5.
      - intros k Hb. by apply S6. }
  destruct S6 as (k & E1 & _ & Ebad & Emin).
  destruct (in_new _ _ _ _ _ _ _ S2 (shrunk_at _ _ _ _ _ Hi S1) E1) as (Hx & ka & Hka & Hok & _).
  rewrite Hka. cbn [mbind option_bind]. rewrite (ko_key _ _ _ _ Hok). cbn [mbind option_bind].
  destruct (expire_inv loose due am1 i b1 k o S2 (shrunk_at _ _ _ _ _ Hi S1) E1) as (am2 & He & Hinv2 & Hex).
  { intros E. apply Hloose in E. pose proof (ls_b _ _ _ _ _ _ Hs E1). congruence. }
  exists am2, (delete k b1). split_and!; [done|done|by eapply shrunk_expire|].
  exists (Some k). split_and!.
  - intros k'. destruct (decide (k' = k)) as [->|Hne].
    + by rewrite lookup_delete_eq, bool_decide_eq_true_2, orb_true_r.
    + rewrite lookup_delete_ne, S5 by done.
      rewrite (bool_decide_eq_false_2 (Some k = Some k')), orb_false_r by congruence. done.
  - exists o. by eapply ls_b.
  - done.
  - intros k' Hk' Hb'. by apply Emin.
Qed.
End ExpireNew.

(** ** Putting an address into a bucket *)

Definition put_ref (i : nat) (k : addr_key) (l : nat) (am : AddrManager) : AddrManager :=
  am_new_insert i k l (am_update l (fun v => ka_with_refs (ka_refs v + 1) v) am).

Lemma put_ref_count am i b k l k' :
  am_addrNew am !! i = Some b -> b !! k = None ->
  buckets_with k' (am_addrNew (put_ref i k l am)) =
  buckets_with k' (am_addrNew am) + (if decide (k' = k) then 1 else 0).
Proof.
  intros Hi Hk. change (am_addrNew (put_ref i k l am)) with (alter (insert k l) i (am_addrNew am)).
  rewrite (buckets_with_alter _ _ _ _ b) by done. rewrite has_key_insert.
  case_decide as E; [subst; rewrite (has_key_None _ _ Hk)|]; lia.
Qed.

Lemma put_ref_inv loose loose' due am i b k l ka :
  AddrInv loose due am -> (forall k', loose k' -> k' <> k -> loose' k') -> am_addrIndex am !! k = Some l -> am_heap am !! l = Some ka ->
  ka_tried ka = false -> ka_refs ka < newBucketsPerAddress ->
  am_addrNew am !! i = Some b -> b !! k = None -> Z.of_nat (size b) <= newBucketSize ->
  AddrInv loose' due (put_ref i k l am).
Proof.
  intros H Hloose Hx Hka Hnt Hmax Hi Hk Hsize.
  assert (Hheap : forall l' ka', am_heap (put_ref i k l am) !! l' = Some ka' <->
    exists ka0, am_heap am !! l' = Some ka0 /\
      ka' = if decide (l = l') then ka_with_refs (ka_refs ka0 + 1) ka0 else ka0)
    by (intros; apply heap_alter_Some).
  split; try apply H.
  - cbn. rewrite length_alter. apply H.
  - intros k' l' Hk'. cbn in Hk'. destruct (ai_index _ _ _ H _ _ Hk') as (ka' & Hka' & [O1 O2 O3 O4 O5]).
    eexists. split; [apply Hheap; by exists ka'|].
    assert (Hl : k' = k <-> l = l').
    { split; [intros ->; congruence|intros <-; by eapply index_inj]. }
    destruct (decide (l = l')) as [El|El]; split; cbn [ka_with_refs ka_na ka_refs ka_tried];
      rewrite ?(put_ref_count am i b k l k' Hi Hk); try done.
    + rewrite decide_True by tauto. lia.
    + assert (ka' = ka) by congruence. subst. lia.
    + assert (ka' = ka) by congruence. subst. intros; congruence.
    + pose proof (buckets_with_nonneg k' (am_addrNew am)). lia.
    + rewrite decide_False by tauto. lia.
    + intros Ht Hlo. apply O5; [done|]. intros Hlo'. apply Hlo, Hloose; [done|tauto].
  - intros j b' k' l' Hj Hk'. cbn in Hj. apply list_alter_Some in Hj as (b0 & Hj & ->).
    cbn. destruct (decide (i = j)) as [<-|]; [|by eapply ai_new].
    apply lookup_insert_Some in Hk' as [[<- <-]|[_ Hk']]; [done|by eapply ai_new].
  - intros l'. cbn [put_ref am_new_insert am_with_new am_update am_with_heap am_addrTried am_addrIndex].
    rewrite (ai_tried _ _ _ H). split; intros (k' & ka' & Hk' & Hka' & Ht).
    + exists k'. eexists. split_and!; [done|apply Hheap; by exists ka'|]. by case_decide.
    + apply Hheap in Hka' as (ka0 & Hka0 & ->). exists k', ka0. split_and!; [done|done|].
      by case_decide.
  - intros j b' Hj. cbn in Hj. apply list_alter_Some in Hj as (b0 & Hj & ->).
    pose proof (ai_new_size _ _ _ H _ _ Hj). destruct (decide (i = j)) as [<-|]; [|done].
    assert (b0 = b) as -> by congruence. rewrite map_size_insert_None by done. lia.
  - intros l' Hl. cbn in *. pose proof (ai_fresh _ _ _ H l' Hl) as E.
    destruct (decide (l = l')) as [->|]; [by rewrite lookup_alter_eq, E|by rewrite lookup_alter_ne].
Qed.

Lemma put_ref_eq am i k l ka :
  am_heap am !! l = Some ka ->
  am_new_insert i k l (am_update l (ka_with_refs (ka_refs ka + 1)) am) = put_ref i k l am.
Proof.
  intros Hka. unfold put_ref. f_equal. unfold am_update, am_with_heap. f_equal.
  apply map_eq. intros l'. destruct (decide (l = l')) as [<-|]; [|by rewrite !lookup_alter_ne].
  by rewrite !lookup_alter_eq, Hka.
Qed.

(** The one address in hand is put down. *)
Lemma eq_nobody (k k' : addr_key) : k = k' -> k' <> k -> nobody k'.
Proof. intros -> H. by destruct H. Qed.

(** With all in order, addresses may be in hand. *)
Lemma loosen loose loose' due am :
  (forall k, loose k -> loose' k) -> AddrInv loose due am -> AddrInv loose' due am.
Proof.
  intros Hlo H. split; try apply H. intros k' l' Hk'.
  destruct (ai_index _ _ _ H _ _ Hk') as (ka & Hka & [O1 O2 O3 O4 O5]).
  exists ka. split; [done|]. split; try done. intros Ht Hn. apply O5; [done|]. intros Hl. by apply Hn, Hlo.
Qed.

(** The addresses in hand may be put down once they are in a bucket. *)
Lemma tighten loose due am :
  AddrInv loose due am ->
  (forall k l ka, loose k -> am_addrIndex am !! k = Some l -> am_heap am !! l = Some ka ->
     ka_tried ka = false -> 0 < buckets_with k (am_addrNew am)) ->
  AddrInv nobody due am.
Proof.
  intros H Hin. split; try apply H. intros k' l' Hk'.
  destruct (ai_index _ _ _ H _ _ Hk') as (ka & Hka & [O1 O2 O3 O4 O5]).
  exists ka. split; [done|]. split; try done. intros Ht _.
  destruct (Z.lt_ge_cases 0 (ka_refs ka)) as [|Hz]; [done|].
  apply O5; [done|]. intros Hl. specialize (Hin _ _ _ Hl Hk' Hka Ht). lia.
Qed.

(** ** updateAddress *)

Lemma getNewBucket_range am na src : (getNewBucket am na src < 1024)%nat.
Proof.
  unfold getNewBucket. set (x := le_get _ mod newBucketCount).
  pose proof (Z.mod_pos_bound (le_get (take 8 (DoubleHashB (am_key am ++ GroupKey src ++
    le_put 8 (le_get (take 8 (DoubleHashB (am_key am ++ GroupKey na ++ GroupKey src))) mod newBucketsPerGroup)))))
    newBucketCount ltac:(done)) as Hm.
  fold x in Hm. unfold newBucketCount in Hm. lia.
Qed.

Lemma new_bucket loose due am na src :
  AddrInv loose due am -> exists b, am_addrNew am !! getNewBucket am na src = Some b.
Proof.
  intros H. apply lookup_lt_is_Some. destruct (ai_buckets _ _ _ H) as [-> _]. apply getNewBucket_range.
Qed.

(** A removal leaves fewer entries. *)
Lemma removed_smaller (bad : addr_key -> bool) (b b1 : gmap addr_key nat) removed :
  b <> ∅ ->
  (forall k, b1 !! k = if bad k || bool_decide (removed = Some k) then None else b !! k) ->
  match removed with
  | None => forall k, is_Some (b !! k) -> bad k = true
  | Some k => is_Some (b !! k)
  end -> (size b1 < size b)%nat.
Proof.
  intros Hne Hb1 Hrem. apply map_subset_size, map_subset_alt. split.
  - apply map_subseteq_spec. intros k0 l0. rewrite Hb1. by destruct (_ || _).
  - destruct removed as [k0|].
    + exists k0. split; [|done]. by rewrite Hb1, bool_decide_eq_true_2, orb_true_r.
    + apply map_choose in Hne as (k0 & l0 & Hl0). exists k0. split; [|by exists l0].
      by rewrite Hb1, (Hrem k0) by (by exists l0).
Qed.

(** An address that is not in the bucket keeps its place. *)
Lemma shrunk_known loose due i b b' am am' k l ka :
  AddrInv loose due am -> AddrInv loose due am' -> am_addrNew am !! i = Some b ->
  shrunk i b b' am am' -> b !! k = None -> am_addrIndex am !! k = Some l -> am_heap am !! l = Some ka ->
  b' !! k = None /\ am_addrIndex am' !! k = Some l /\ am_heap am' !! l = Some ka.
Proof.
  intros H H' Hb Hsh Hbk Hx Hka.
  assert (Hbk' : b' !! k = None) by (destruct (sh_bucket _ _ _ _ _ Hsh k) as [E|E]; congruence).
  assert (Hx' : am_addrIndex am' !! k = Some l).
  { rewrite (sh_index _ _ _ _ _ Hsh), bool_decide_eq_false_2; [done|]. intros [Hne _]. congruence. }
  destruct (sh_refs _ _ _ _ _ Hsh _ _ Hka) as (ka' & Hka' & E).
  destruct (ai_index _ _ _ H' _ _ Hx') as (ka2 & Hka2 & [_ O2 _ _ _]).
  destruct (ai_index _ _ _ H _ _ Hx) as (ka3 & Hka3 & [_ O3 _ _ _]).
  assert (ka2 = ka') as -> by congruence. assert (ka3 = ka) as -> by congruence.
  rewrite (shrunk_count _ _ _ _ _ k Hb Hsh) in O2 by congruence.
  split_and!; [done|done|]. rewrite Hka', E, O2, <- O3. by destruct ka.
Qed.

(** What changed of the index when the bucket [i] was made room in. *)
Definition index_room (i : nat) (k : addr_key) (l : nat) (am am' : AddrManager) : Prop :=
  exists b b', am_addrNew am !! i = Some b /\ am_addrNew am' !! i = Some b' /\ b' !! k = Some l /\
    forall k', k' <> k -> am_addrIndex am' !! k' = am_addrIndex am !! k' \/
      is_Some (b !! k') /\ b' !! k' = None /\ Z.of_nat (size b) = newBucketSize + 1.

(** What [add_to_bucket] leaves: the address in its bucket, and the rest of the index
    but for what made room. *)
Lemma add_to_bucket_spec now netAddr srcAddr k l ka am :
  AddrInv (eq k) 0 am -> am_addrIndex am !! k = Some l -> am_heap am !! l = Some ka ->
  ka_tried ka = false -> ka_refs ka < newBucketsPerAddress ->
  let i := getNewBucket am netAddr srcAddr in
  exists am', add_to_bucket sha3_Sum256 range_order now netAddr srcAddr k l am = Some am' /\
    AddrInv nobody 0 am' /\ am_addrIndex am' !! k = Some l /\
    am_addrTried am' = am_addrTried am /\ am_key am' = am_key am /\
    index_room i k l am am'.
Proof.
  intros H Hx Hka Hnt Hmax i. destruct (new_bucket _ _ am netAddr srcAddr H) as [b Hb].
  unfold add_to_bucket. fold i in Hb |- *. rewrite Hb. cbn [mbind option_bind].
  case_bool_decide as Hin.
  { exists am. destruct Hin as [l' Hl']. pose proof (ai_new _ _ _ H _ _ _ _ Hb Hl') as Hx'.
    assert (l' = l) as -> by congruence.
    split_and!; try done; [|exists b, b; split_and!; try done; intros; by left].
    eapply tighten; [done|]. intros k0 l0 ka0 <- _ _ _. apply buckets_with_pos.
    by exists i, b, l. }
  assert (Hbk : b !! k = None) by (destruct (b !! k); [by destruct Hin|done]).
  destruct (Z.ltb_spec newBucketSize (Z.of_nat (size b))) as [Hfull|Hroom].
  - destruct (expireNew_spec now (eq k) 0 am i b H Hb) as (am1 & b1 & -> & H1 & Hsh & removed & Hb1 & Hrem).
    { by intros k0 <-. }
    destruct (shrunk_known _ _ _ _ _ _ _ _ _ _ H H1 Hb Hsh Hbk Hx Hka) as (Hbk1 & Hx1 & Hka1).
    assert (Hlt : (size b1 < size b)%nat).
    { eapply removed_smaller; [|exact Hb1|by destruct removed; [destruct Hrem|]].
      intros ->. by rewrite map_size_empty in Hfull. }
    pose proof (ai_new_size _ _ _ H _ _ Hb) as Hsz. pose proof (shrunk_at _ _ _ _ _ Hb Hsh) as Hi1.
    cbn [mbind option_bind]. rewrite Hka1. cbn [mbind option_bind]. rewrite (put_ref_eq _ _ _ _ _ Hka1).
    eexists. split; [reflexivity|]. split_and!; [eapply (put_ref_inv (eq k)); [done|apply eq_nobody|try done; lia..]|done|apply Hsh|apply Hsh|].
    exists b, (<[k := l]> b1). split_and!; [done| |by rewrite lookup_insert_eq|].
    { cbn. by rewrite list_lookup_alter_eq, Hi1. }
    intros k' Hne. cbn. rewrite lookup_insert_ne by done. rewrite (sh_index _ _ _ _ _ Hsh).
    case_bool_decide as Hch; [|by left]. right. destruct Hch as [Hch _].
    destruct (sh_bucket _ _ _ _ _ Hsh k') as [E|E]; [done|]. split_and!; [|done|lia].
    destruct (b !! k'); [by eexists|congruence].
  - cbn [mbind option_bind]. rewrite Hka. cbn [mbind option_bind]. rewrite (put_ref_eq _ _ _ _ _ Hka).
    eexists. split; [reflexivity|]. split_and!; try done.
    + by eapply (put_ref_inv (eq k)); [|apply eq_nobody|..].
    + exists b, (<[k := l]> b). split_and!; [done| |by rewrite lookup_insert_eq|intros; by left].
      cbn. by rewrite list_lookup_alter_eq, Hb.
Qed.

(** ** Adding an address *)

Lemma counts_inv loose d d' am nNew :
  AddrInv loose d am -> nNew + d' = am_nNew am + d ->
  AddrInv loose d' (am_with_counts (am_nTried am) nNew am).
Proof. intros H E. split; try apply H. cbn. pose proof (ai_total _ _ _ H). lia. Qed.

Lemma alloc_inv loose loose' due am k ka :
  AddrInv loose due am -> (forall k', loose k' -> loose' k') -> loose' k -> am_addrIndex am !! k = None ->
  Key (ka_na ka) = Some k -> ka_tried ka = false -> ka_refs ka = 0 ->
  let '(l, am1) := am_alloc ka am in
  AddrInv loose' (due + 1) (am_with_index (<[k := l]> (am_addrIndex am1)) am1).
Proof.
  intros H Hlo Hlok Hk Hkey Hnt Hr. cbn.
  assert (Hcount : buckets_with k (am_addrNew am) = 0).
  { pose proof (buckets_with_nonneg k (am_addrNew am)).
    destruct (Z.eq_dec (buckets_with k (am_addrNew am)) 0) as [|Hne]; [done|].
    destruct (proj1 (buckets_with_pos k (am_addrNew am)) ltac:(lia)) as (i & b & l & Hi & Hb).
    pose proof (ai_new _ _ _ H _ _ _ _ Hi Hb). congruence. }
  assert (Hfresh : am_heap am !! am_next am = None) by (by apply (ai_fresh _ _ _ H)).
  assert (Hold : forall k' l', am_addrIndex am !! k' = Some l' -> l' <> am_next am).
  { intros k' l' Hk' ->. destruct (ai_index _ _ _ H _ _ Hk') as (ka' & Hka & _). congruence. }
  split; try apply H; cbn.
  - intros k' l' Hk'. apply lookup_insert_Some in Hk' as [[<- <-]|[Hne Hk']].
    + exists ka. split; [by rewrite lookup_insert_eq|]. split; [done|by rewrite Hr|by rewrite Hr|done|done].
    + destruct (ai_index _ _ _ H _ _ Hk') as (ka' & Hka & [O1 O2 O3 O4 O5]). exists ka'.
      split; [rewrite lookup_insert_ne; [done|by apply not_eq_sym, (Hold k')]|].
      split; try done. intros Ht Hn. apply O5; [done|]. intros Hl. by apply Hn, Hlo.
  - intros i b k' l' Hi Hb. pose proof (ai_new _ _ _ H _ _ _ _ Hi Hb) as Hx.
    rewrite lookup_insert_ne; [done|]. congruence.
  - intros l'. rewrite (ai_tried _ _ _ H). split; intros (k' & ka' & Hk' & Hka & Ht).
    + exists k', ka'. rewrite lookup_insert_ne by congruence.
      by rewrite lookup_insert_ne by (by apply not_eq_sym, (Hold k')).
    + apply lookup_insert_Some in Hk' as [[<- <-]|[Hne Hk']].
      * rewrite lookup_insert_eq in Hka. congruence.
      * exists k', ka'. split_and!; [done| |done].
        rewrite lookup_insert_ne in Hka; [done|]. by apply not_eq_sym, (Hold k').
  - rewrite map_size_insert_None by done. pose proof (ai_total _ _ _ H). lia.
  - intros l Hl. rewrite lookup_insert_ne by lia. apply (ai_fresh _ _ _ H). lia.
Qed.

Lemma IsRoutable_network na : IsRoutable na = true -> exists a, NA2_Addr na = Some a.
Proof.
  destruct na as [t s [a|] p]; intros Hr; [by exists a|done].
Qed.

Lemma Key_network na : is_Some (NA2_Addr na) -> exists k, Key na = Some k.
Proof. intros [a Ha]. unfold am_NetAddressKey, NetAddressKey. rewrite Ha. by eexists. Qed.

Lemma Key_same na na' : NA2_Addr na = NA2_Addr na' -> NA2_Port na = NA2_Port na' -> Key na = Key na'.
Proof. intros H1 H2. unfold am_NetAddressKey, NetAddressKey. by rewrite H1, H2. Qed.

(** The factor of [updateAddress] does not wrap and is positive. *)
Lemma refs_factor r : 0 < r <= newBucketsPerAddress -> to_signed 32 (wrap_u32 (2 * r)) = 2 * r.
Proof.
  unfold newBucketsPerAddress. intros H. unfold wrap_u32. rewrite Z.mod_small by lia.
  unfold to_signed. cbn. repeat case_bool; lia.
Qed.

(** What adding the address with the key [k] leaves: it is known, and the others stay
    known, but for those of its bucket if that was full. *)
Record added (netAddr srcAddr : NetAddressV2) (k : addr_key) (am am' : AddrManager) : Prop := mkAdded {
  ad_inv : AddrInv nobody 0 am';
  ad_tried : am_addrTried am' = am_addrTried am;
  ad_known : is_Some (am_addrIndex am' !! k);
  ad_others : forall k' l, am_addrIndex am !! k' = Some l -> am_addrIndex am' !! k' = Some l \/
    exists b, am_addrNew am !! getNewBucket am netAddr srcAddr = Some b /\ is_Some (b !! k') /\
      Z.of_nat (size b) = newBucketSize + 1;
}.

Lemma added_room netAddr srcAddr k l ka am am0 now :
  AddrInv (eq k) 0 am0 -> am_addrIndex am0 !! k = Some l -> am_heap am0 !! l = Some ka ->
  ka_tried ka = false -> ka_refs ka < newBucketsPerAddress ->
  am_addrNew am0 = am_addrNew am -> am_key am0 = am_key am -> am_addrTried am0 = am_addrTried am ->
  (forall k' l', am_addrIndex am !! k' = Some l' -> am_addrIndex am0 !! k' = Some l') ->
  exists am', add_to_bucket sha3_Sum256 range_order now netAddr srcAddr k l am0 = Some am' /\
    added netAddr srcAddr k am am'.
Proof.
  intros H0 Hx Hka Hnt Hmax En Ek Et Ei.
  destruct (add_to_bucket_spec now netAddr srcAddr k l ka am0) as (am' & -> & H' & Hx' & Et' & Ek' & Hr);
    [done..|].
  exists am'. split; [done|]. destruct Hr as (b & b' & Hb & Hb' & Hbk & Hrest).
  assert (Eg : getNewBucket am0 netAddr srcAddr = getNewBucket am netAddr srcAddr)
    by (unfold getNewBucket; by rewrite Ek).
  split; [done|congruence|by exists l|]. intros k' l' Hk'. apply Ei in Hk'.
  destruct (decide (k' = k)) as [->|Hne]; [left; congruence|].
  destruct (Hrest k' Hne) as [E|(Hs & _ & Hsz)]; [left; by rewrite E|].
  right. exists b. by rewrite <- Eg, <- En.
Qed.

(** The new time and services of an address that is known. *)
Definition refresh (netAddr : NetAddressV2) (l : nat) (ka : KnownAddress) (am : AddrManager) : AddrManager :=
  if (NA2_Timestamp (ka_na ka) <? NA2_Timestamp netAddr) ||
     negb (Z.land (NA2_Services (ka_na ka)) (NA2_Services netAddr) =? NA2_Services netAddr)
  then am_update l (ka_with_na (copy_seen netAddr (ka_na ka))) am else am.

Lemma refresh_facts netAddr l ka am :
  AddrInv nobody 0 am -> am_heap am !! l = Some ka ->
  AddrInv nobody 0 (refresh netAddr l ka am) /\ am_addrNew (refresh netAddr l ka am) = am_addrNew am /\
  am_key (refresh netAddr l ka am) = am_key am /\
  am_addrIndex (refresh netAddr l ka am) = am_addrIndex am /\
  am_addrTried (refresh netAddr l ka am) = am_addrTried am /\
  exists ka', am_heap (refresh netAddr l ka am) !! l = Some ka' /\ ka_tried ka' = ka_tried ka /\
    ka_refs ka' = ka_refs ka.
Proof.
  intros H Hka. unfold refresh. destruct (_ || _); [|split_and!; try done; by exists ka].
  split_and!; try done.
  - apply update_inv; [|done]. intros ka' E. assert (ka' = ka) as -> by congruence.
    by split_and!; [apply Key_same| |].
  - eexists. split; [apply heap_alter_Some; by exists ka|]. by rewrite decide_True.
Qed.

Lemma updateAddress_spec now draw netAddr srcAddr am :
  AddrInv nobody 0 am ->
  exists am', updateAddress sha3_Sum256 range_order now draw netAddr srcAddr am = Some am' /\
    if IsRoutable netAddr
    then exists k, Key netAddr = Some k /\ added netAddr srcAddr k am am'
    else am' = am.
Proof.
  intros H. unfold updateAddress. destruct (IsRoutable netAddr) eqn:Er; cbn [negb]; [|by exists am].
  destruct (Key_network netAddr) as [k Hk]; [by apply IsRoutable_network in Er|].
  rewrite Hk. cbn [mbind option_bind].
  cut (exists am', match am_addrIndex am !! k with
    | Some l => ka ← am_heap am !! l;
        let am := refresh netAddr l ka am in
        if ka_tried ka then Some am
        else if ka_refs ka =? newBucketsPerAddress then Some am
        else let factor := to_signed 32 (wrap_u32 (2 * ka_refs ka)) in
          if factor <=? 0 then None
          else if negb (draw factor =? 0) then Some am
          else add_to_bucket sha3_Sum256 range_order now netAddr srcAddr k l am
    | None =>
        let '(l, am) := am_alloc (mkKnownAddress netAddr srcAddr 0 zeroTime zeroTime false 0) am in
        let am := am_with_index (<[k := l]> (am_addrIndex am)) am in
        let am := am_with_counts (am_nTried am) (am_nNew am + 1) am in
        add_to_bucket sha3_Sum256 range_order now netAddr srcAddr k l am
    end = Some am' /\ added netAddr srcAddr k am am').
  { intros (am' & E & Ha). exists am'. split; [exact E|by exists k]. }
  destruct (am_addrIndex am !! k) as [l|] eqn:Hx.
  - destruct (ai_index _ _ _ H _ _ Hx) as (ka & Hka & Ho). rewrite Hka. cbn [mbind option_bind]. cbv zeta.
    destruct (refresh_facts netAddr l ka am H Hka) as (H0 & En & Ek & Ei & Et & ka0 & Hka0 & Ht0 & Hr0).
    set (am0 := refresh netAddr l ka am) in *. clearbody am0.
    assert (Hkeep : exists am', Some am0 = Some am' /\ added netAddr srcAddr k am am').
    { exists am0. split; [done|]. split; [done|done|rewrite Ei; by exists l|]. intros; left; by rewrite Ei. }
    destruct (ka_tried ka) eqn:Htried; [exact Hkeep|].
    destruct (Z.eqb_spec (ka_refs ka) newBucketsPerAddress) as [|Hmax]; [exact Hkeep|].
    pose proof (ko_new _ _ _ _ Ho Htried (fun x => x)) as Hpos. pose proof (ko_max _ _ _ _ Ho) as Hle.
    rewrite refs_factor by lia. destruct (Z.leb_spec (2 * ka_refs ka) 0); [lia|].
    destruct (draw _ =? 0); cbn [negb]; [|exact Hkeep].
    eapply added_room; [by apply (loosen nobody)|by rewrite Ei|done|done|lia|done|done|done|by rewrite Ei].
  - pose proof (alloc_inv nobody (eq k) 0 am k (mkKnownAddress netAddr srcAddr 0 zeroTime zeroTime false 0) H
      (fun k' => False_ind _) eq_refl Hx Hk eq_refl eq_refl) as H0.
    unfold am_alloc in *. cbv iota zeta in *.
    eapply added_room; [refine (counts_inv _ _ 0 _ _ H0 _); cbn; lia|cbn; by rewrite lookup_insert_eq|cbn; by rewrite lookup_insert_eq|done..|].
    intros k' l' Hk'. cbn. rewrite lookup_insert_ne; [done|congruence].
Qed.

Lemma AddAddresses_inv now srcAddr addrs : forall draws am,
  AddrInv nobody 0 am ->
  exists am', AddAddresses sha3_Sum256 range_order now draws addrs srcAddr am = Some am' /\ AddrInv nobody 0 am'.
Proof.
  induction addrs as [|na addrs IH]; intros draws am H; [by exists am|]. cbn [AddAddresses].
  destruct (updateAddress_spec now (draws 0%nat) na srcAddr am H) as (am1 & -> & H1).
  cbn [mbind option_bind]. apply IH. destruct (IsRoutable na); [|by subst].
  by destruct H1 as (k & _ & [H1 _ _ _]).
Qed.

(** ** Marking an address as good *)

(** The first part: out of all new buckets. *)
Record unlinked (k : addr_key) (l : nat) (n : nat) (am0 am : AddrManager) : Prop := mkUnlinked {
  ul_inv : AddrInv (eq k) 0 am;
  ul_gone : forall j b, (j < n)%nat -> am_addrNew am !! j = Some b -> b !! k = None;
  ul_index : am_addrIndex am = am_addrIndex am0;
  ul_tried : am_addrTried am = am_addrTried am0;
  ul_refs : refs_only am0 am;
  ul_key : am_key am = am_key am0;
}.

Lemma unlink_loop_spec k l n : forall i old am0 am,
  unlinked k l i am0 am -> am_addrIndex am !! k = Some l -> (i + n = 1024)%nat ->
  (forall j, old = Some j -> exists b, am_addrNew am !! j = Some b /\ Z.of_nat (size b) <= newBucketSize) ->
  exists old' am', unlink_loop n i k l old am = Some (old', am') /\ unlinked k l 1024 am0 am' /\
    (forall j, old' = Some j -> exists b, am_addrNew am' !! j = Some b /\ Z.of_nat (size b) <= newBucketSize) /\
    (old' = None -> old = None /\ buckets_with k (am_addrNew am) = 0).
Proof.
  induction n as [|n IH]; intros i old am0 am Hu Hx Hn Hold.
  { exists old, am. replace i with 1024%nat in Hu by lia. split_and!; try done. intros Eold. split; [done|].
    pose proof (buckets_with_nonneg k (am_addrNew am)).
    destruct (Z.eq_dec (buckets_with k (am_addrNew am)) 0) as [|Hne]; [done|]. exfalso.
    destruct (proj1 (buckets_with_pos k (am_addrNew am)) ltac:(lia)) as (j & b & l' & Hj & Hb).
    pose proof (lookup_lt_Some _ _ _ Hj) as Hlt.
    destruct (ai_buckets _ _ _ (ul_inv _ _ _ _ _ Hu)) as [E _]. rewrite E in Hlt.
    rewrite (ul_gone _ _ _ _ _ Hu j b Hlt Hj) in Hb. done. }
  pose proof Hu as [U1 U2 U3 U4 U5 U6].
  destruct (lookup_lt_is_Some_2 (am_addrNew am) i) as [b Hi].
  { destruct (ai_buckets _ _ _ U1) as [-> _]. lia. }
  cbn [unlink_loop]. rewrite Hi. cbn [mbind option_bind]. case_bool_decide as Hin.
  - destruct Hin as [l' Hl']. pose proof (ai_new _ _ _ U1 _ _ _ _ Hi Hl') as Hx'.
    assert (l' = l) as -> by congruence.
    change (am_update l (fun v => ka_with_refs (ka_refs v - 1) v) (am_new_delete i k am)) with (drop_ref i k l am).
    destruct (IH (S i) (Some (default i old)) am0 (drop_ref i k l am)) as (old' & am' & Hl & Hu' & Ho' & Hn');
      [|done|lia| |].
    + split; try done.
      * eapply drop_ref_inv; [done|done|done|by right].
      * intros j b' Hj Hb'. cbn in Hb'. apply list_alter_Some in Hb' as (b0 & Hb0 & ->).
        case_decide as Eij; [by rewrite lookup_delete_eq|]. eapply U2; [|done]. lia.
      * eapply refs_only_trans; [done|]. by apply (drop_ref_refs_only i k l).
    + intros j [= <-]. pose proof (ai_new_size _ _ _ U1) as Hsz.
      destruct old as [j0|]; cbn [default].
      * destruct (Hold j0 eq_refl) as (b0 & Hb0 & Hs0). cbn. eexists.
        split; [apply list_alter_Some; by exists b0|]. case_decide; [|done].
        rewrite map_size_delete. unfold id. destruct (b0 !! k); lia.
      * cbn. eexists. split; [apply list_alter_Some; by exists b|]. rewrite decide_True by done.
        specialize (Hsz _ _ Hi). rewrite map_size_delete_Some by (by exists l).
        assert (size b <> 0%nat) by (intros Hz; apply map_size_empty_inv in Hz; by rewrite Hz in Hl'). lia.
    + exists old', am'. split_and!; [done|done|done|]. intros E. destruct (Hn' E) as [E' _]. discriminate E'.
  - assert (Hbk : b !! k = None) by (destruct (b !! k); [by destruct Hin|done]).
    apply IH; [|done|lia|done]. split; try done.
    intros j b' Hj Hb'. destruct (decide (j = i)) as [->|]; [congruence|]. eapply U2; [|done]. lia.
Qed.

(** Changing which addresses are tried, and the lists with them. *)
Lemma retag_inv lo lo' d d' am am' (f : nat -> bool -> bool) :
  AddrInv lo d am ->
  am_addrNew am' = am_addrNew am -> am_addrIndex am' = am_addrIndex am -> am_next am' = am_next am ->
  (forall x, am_heap am' !! x = (fun ka => ka_with_tried (f x (ka_tried ka)) ka) <$> am_heap am !! x) ->
  length (am_addrTried am') = 64%nat -> NoDup (concat (am_addrTried am')) ->
  (forall i t, am_addrTried am' !! i = Some t -> len t <= triedBucketSize) ->
  am_nTried am' = Z.of_nat (length (concat (am_addrTried am'))) ->
  am_nTried am' + am_nNew am' + d' = am_nTried am + am_nNew am + d ->
  (forall k x ka, am_addrIndex am !! k = Some x -> am_heap am !! x = Some ka ->
     (f x (ka_tried ka) = true -> ka_refs ka = 0) /\
     (f x (ka_tried ka) = false -> ~ lo' k -> 0 < ka_refs ka)) ->
  (forall x, x ∈ concat (am_addrTried am') <->
     exists k ka, am_addrIndex am !! k = Some x /\ am_heap am !! x = Some ka /\ f x (ka_tried ka) = true) ->
  AddrInv lo' d' am'.
Proof.
  intros H En Ei Ex Eh El Hnd Hsz HnT Htot Hka Htr.
  split; rewrite ?En, ?Ei, ?Ex; try apply H; try done.
  - split; [apply H|done].
  - intros k x Hx. destruct (ai_index _ _ _ H _ _ Hx) as (ka & E & [O1 O2 O3 O4 O5]).
    exists (ka_with_tried (f x (ka_tried ka)) ka). split; [by rewrite Eh, E|].
    destruct (Hka _ _ _ Hx E) as [H1 H2]. by split.
  - intros x. rewrite Htr. split; intros (k & ka & Hx & E & Ht); exists k.
    + exists (ka_with_tried (f x (ka_tried ka)) ka). split_and!; [done|by rewrite Eh, E|done].
    + rewrite Eh in E. destruct (am_heap am !! x) as [ka0|] eqn:E0; [|done].
      exists ka0. injection E as <-. by split_and!.
  - rewrite Htot. apply H.
  - intros l Hl. rewrite Eh. by rewrite (ai_fresh _ _ _ H l Hl).
Qed.

Lemma concat_alter (f : list nat -> list nat) i ts t :
  ts !! i = Some t -> exists pre post, ts = pre ++ t :: post /\ alter f i ts = pre ++ f t :: post.
Proof.
  revert i. induction ts as [|t' ts IH]; intros [|i] Hi; [done|done| |].
  - injection Hi as ->. by exists [], ts.
  - destruct (IH i Hi) as (pre & post & E1 & E2). exists (t' :: pre), post.
    cbn. split; [by rewrite E1|]. f_equal. exact E2.
Qed.

Lemma getTriedBucket_range am na j : getTriedBucket sha3_Sum256 am na = Some j -> (j < 64)%nat.
Proof.
  unfold getTriedBucket. destruct (Key na) as [k|]; [|done]. cbn [mbind option_bind]. intros [= <-].
  set (x := le_get _ mod triedBucketCount) at 1. 
  assert (0 <= x < 64) by (subst x; apply Z.mod_pos_bound; done). lia.
Qed.

Lemma concat_append ts i (t : list nat) l :
  ts !! i = Some t -> concat (alter (fun t => t ++ [l]) i ts) ≡ₚ l :: concat ts.
Proof.
  intros Hi. destruct (concat_alter (fun t => t ++ [l]) i ts t Hi) as (pre & post & E1 & E2).
  rewrite E2, E1, !concat_app. cbn [concat]. rewrite <- app_assoc. cbn [app].
  rewrite !(app_assoc (concat pre) t). by rewrite <- Permutation_middle.
Qed.

Lemma concat_replace ts i (t : list nat) e r l :
  ts !! i = Some t -> t !! e = Some r ->
  exists R, concat ts ≡ₚ r :: R /\ concat (alter (insert e l) i ts) ≡ₚ l :: R.
Proof.
  intros Hi He. destruct (concat_alter (insert e l) i ts t Hi) as (pre & post & E1 & E2).
  apply list_elem_of_split_length in He as (t1 & t2 & -> & ->).
  exists (concat pre ++ t1 ++ t2 ++ concat post). rewrite E2, E1, !concat_app. cbn [concat].
  rewrite insert_app_r_alt, Nat.sub_diag by done. cbn [insert list_insert].
  rewrite <- !app_assoc. cbn [app].
  split; rewrite app_assoc, <- Permutation_middle; by rewrite <- app_assoc.
Qed.

(** The cells of the listed addresses, all tried. *)
Lemma listed loose due am i t l :
  AddrInv loose due am -> am_addrTried am !! i = Some t -> l ∈ t ->
  exists k ka, am_addrIndex am !! k = Some l /\ am_heap am !! l = Some ka /\ ka_tried ka = true /\
    known_ok loose (am_addrNew am) k ka.
Proof.
  intros H Hi Hl.
  assert (Hin : l ∈ concat (am_addrTried am)).
  { apply list_elem_of_In, in_concat. exists t. split; [|by apply list_elem_of_In].
    apply list_elem_of_In. by eapply list_elem_of_lookup_2. }
  apply (ai_tried _ _ _ H) in Hin as (k & ka & Hx & Hka & Ht). exists k, ka. split_and!; try done.
  destruct (ai_index _ _ _ H _ _ Hx) as (ka' & E & Ho). congruence.
Qed.

Lemma pickTried_loop_spec am ls : forall i best,
  (forall l, l ∈ ls -> is_Some (am_heap am !! l)) ->
  exists r, pickTried_loop am i ls best = Some r /\
    match r with
    | Some (j, o) =>
        (best = Some (j, o) \/ (i <= j)%nat /\ exists l, ls !! (j - i)%nat = Some l /\ timestamp_at am l = Some o) /\
        (forall o', snd <$> best = Some o' -> o <= o') /\
        (forall l t, l ∈ ls -> timestamp_at am l = Some t -> o <= t)
    | None => ls = [] /\ best = None
    end.
Proof.
  induction ls as [|l ls IH]; intros i best Hh.
  { exists best. split; [done|]. destruct best as [[j o]|]; [|done]. split_and!; [by left|by intros o' [= <-]|].
    intros l t Hl. by apply elem_of_nil in Hl. }
  destruct (Hh l) as [ka Hka]; [by left|]. cbn [pickTried_loop].
  assert (Ht : timestamp_at am l = Some (NA2_Timestamp (ka_na ka))) by (unfold timestamp_at; by rewrite Hka).
  set (t := NA2_Timestamp (ka_na ka)) in *. rewrite Ht. cbn [mbind option_bind].
  assert (Hstep : forall best1,
    (best1 = Some (i, t) \/ best1 = best) ->
    (forall o', snd <$> best = Some o' -> exists o1, snd <$> best1 = Some o1 /\ o1 <= o') ->
    (exists o1, snd <$> best1 = Some o1 /\ o1 <= t) ->
    exists r, pickTried_loop am (S i) ls best1 = Some r /\
      match r with
      | Some (j, o) =>
          (best = Some (j, o) \/ (i <= j)%nat /\ exists l0, (l :: ls) !! (j - i)%nat = Some l0 /\ timestamp_at am l0 = Some o) /\
          (forall o', snd <$> best = Some o' -> o <= o') /\
          (forall l0 t0, l0 ∈ l :: ls -> timestamp_at am l0 = Some t0 -> o <= t0)
      | None => l :: ls = [] /\ best = None
      end).
  { intros best1 Hb1 Hle (o1 & Ho1 & Hlt).
    destruct (IH (S i) best1) as (r & -> & Hr); [intros; apply Hh; by right|]. exists r. split; [done|].
    destruct r as [[j o]|]; [|destruct Hr as [_ ->]; done]. destruct Hr as (R1 & R2 & R3). split_and!.
    - destruct R1 as [R1|(R1 & l0 & E1 & E2)].
      + destruct Hb1 as [->| ->]; [|by left]. injection R1 as <- <-. right. split; [done|].
        exists l. by rewrite Nat.sub_diag.
      + right. split; [lia|]. exists l0. replace (j - i)%nat with (S (j - S i)) by lia. done.
    - intros o' Ho'. destruct (Hle o' Ho') as (o2 & Ho2 & ?). specialize (R2 o2 Ho2). lia.
    - intros l0 t0 Hl0 Ht0. apply elem_of_cons in Hl0 as [->|Hl0]; [|by eapply R3].
      specialize (R2 o1 Ho1). rewrite Ht in Ht0. injection Ht0 as <-. lia. }
  destruct best as [[j o]|].
  - destruct (Z.ltb_spec t o).
    + apply Hstep; [by left|intros o' [= <-]; exists t; split; [done|lia]|exists t; split; [done|lia]].
    + apply Hstep; [by right|intros o' [= <-]; exists o; split; [done|lia]|exists o; split; [done|lia]].
  - apply Hstep; [by left|done|exists t; split; [done|lia]].
Qed.

Lemma pickTried_spec am bucket t :
  am_addrTried am !! bucket = Some t -> t <> [] -> (forall l, l ∈ t -> is_Some (am_heap am !! l)) ->
  exists e l o, pickTried am bucket = Some e /\ t !! e = Some l /\ timestamp_at am l = Some o /\
    forall l' o', l' ∈ t -> timestamp_at am l' = Some o' -> o <= o'.
Proof.
  intros Ht Hne Hh. unfold pickTried. rewrite Ht. cbn [mbind option_bind].
  destruct (pickTried_loop_spec am t 0 None Hh) as (r & -> & Hr).
  destruct r as [[j o]|]; [|by destruct Hr]. destruct Hr as ([?|(_ & l & Hl & Ho)] & _ & Hmin); [done|].
  rewrite Nat.sub_0_r in Hl. by exists j, l, o.
Qed.

(** Into the list of tried addresses of its bucket, if there is room. *)
Lemma place_tried_inv loose loose' due k l ka j t am :
  AddrInv loose (due + 1) am -> (forall k', loose k' -> k' <> k -> loose' k') -> am_addrIndex am !! k = Some l -> am_heap am !! l = Some ka ->
  ka_tried ka = false -> ka_refs ka = 0 -> am_addrTried am !! j = Some t -> len t < triedBucketSize ->
  let am1 := am_update l (ka_with_tried true) am in
  let am2 := am_with_tried (alter (fun t => t ++ [l]) j (am_addrTried am1)) am1 in
  AddrInv loose' due (am_with_counts (am_nTried am2 + 1) (am_nNew am2) am2).
Proof.
  intros H Hloose Hx Hka Hnt Hr Hj Hroom am1 am2.
  pose proof (concat_append _ _ _ l Hj) as Hp.
  assert (Hnin : l ∉ concat (am_addrTried am)).
  { intros Hin. apply (ai_tried _ _ _ H) in Hin as (k' & ka' & _ & E & Ht). congruence. }
  apply (retag_inv loose loose' (due + 1) due am _ (fun x t => if decide (x = l) then true else t)); try done.
  - intros x. cbn. destruct (decide (x = l)) as [->|Hne].
    + by rewrite lookup_alter_eq.
    + rewrite lookup_alter_ne by done. destruct (am_heap am !! x) as [[]|]; done.
  - cbn. rewrite length_alter. apply H.
  - cbn. rewrite Hp. apply list.NoDup_cons. split; [done|apply H].
  - intros i t' Hi. cbn in Hi. apply list_alter_Some in Hi as (t0 & Hi & ->).
    pose proof (ai_tried_size _ _ _ H _ _ Hi). case_decide; [subst|done].
    assert (t0 = t) as -> by congruence. unfold len in *. rewrite length_app. cbn [length]. lia.
  - cbn. rewrite Hp. cbn [length]. rewrite (ai_nTried _ _ _ H). lia.
  - cbn. lia.
  - intros k' x ka' Hk' Hka'. destruct (ai_index _ _ _ H _ _ Hk') as (ka0 & E & [O1 O2 O3 O4 O5]).
    assert (ka0 = ka') as -> by congruence. case_decide as Ex.
    + subst x. assert (ka' = ka) as -> by congruence. done.
    + split; [done|]. intros Hf Hlo. apply O5; [done|]. intros Hlo'. apply Hlo, Hloose; [done|].
      intros ->. congruence.
  - intros x. cbn. rewrite Hp, elem_of_cons, (ai_tried _ _ _ H). split.
    + intros [->|(k' & ka' & E1 & E2 & E3)].
      * exists k, ka. by rewrite decide_True.
      * exists k', ka'. split_and!; [done|done|]. by case_decide.
    + intros (k' & ka' & E1 & E2 & E3). case_decide as Ex; [by left|right]. by exists k', ka'.
Qed.

(** In the place of another address of a full list, which becomes the one in hand. *)
Lemma swap_tried_inv k l ka j t e r rk rka am :
  AddrInv (eq k) 1 am -> am_addrIndex am !! k = Some l -> am_heap am !! l = Some ka ->
  ka_tried ka = false -> ka_refs ka = 0 -> am_addrTried am !! j = Some t -> t !! e = Some r ->
  am_addrIndex am !! rk = Some r -> am_heap am !! r = Some rka -> ka_tried rka = true ->
  let am1 := am_update l (ka_with_tried true) am in
  let am2 := am_with_tried (alter (insert e l) j (am_addrTried am1)) am1 in
  AddrInv (eq rk) 1 (am_update r (ka_with_tried false) am2).
Proof.
  intros H Hx Hka Hnt Hr Hj He Hrx Hrka Hrt am1 am2.
  destruct (concat_replace _ _ _ e r l Hj He) as (R & Hp & Hp').
  assert (Hnin : l ∉ concat (am_addrTried am)).
  { intros Hin. apply (ai_tried _ _ _ H) in Hin as (k' & ka' & _ & E & Ht). congruence. }
  assert (Hne : l <> r) by congruence.
  pose proof (ai_nodup _ _ _ H) as Hnd. rewrite Hp in Hnd. apply list.NoDup_cons in Hnd as [HrR HndR].
  rewrite Hp, not_elem_of_cons in Hnin. destruct Hnin as [_ HlR].
  assert (Hrx' : forall k', am_addrIndex am !! k' = Some r -> k' = rk)
    by (intros k' Hk'; by eapply index_inj).
  apply (retag_inv (eq k) (eq rk) 1 1 am _
    (fun x t => if decide (x = l) then true else if decide (x = r) then false else t)); try done.
  - intros x. cbn. destruct (decide (x = l)) as [->|Hxl].
    + rewrite lookup_alter_ne by done. by rewrite lookup_alter_eq.
    + destruct (decide (x = r)) as [->|Hxr].
      * rewrite lookup_alter_eq. by rewrite lookup_alter_ne by done.
      * rewrite !lookup_alter_ne by done. destruct (am_heap am !! x) as [[]|]; done.
  - cbn. rewrite length_alter. apply H.
  - cbn. rewrite Hp'. by apply list.NoDup_cons.
  - intros i t' Hi. cbn in Hi. apply list_alter_Some in Hi as (t0 & Hi & ->).
    pose proof (ai_tried_size _ _ _ H _ _ Hi). case_decide; [|done].
    unfold len in *. by rewrite length_insert.
  - cbn. rewrite Hp'. rewrite (ai_nTried _ _ _ H), Hp. done.
  - intros k' x ka' Hk' Hka'. destruct (ai_index _ _ _ H _ _ Hk') as (ka0 & E & [O1 O2 O3 O4 O5]).
    assert (ka0 = ka') as -> by congruence. destruct (decide (x = l)) as [->|Hxl].
    { assert (ka' = ka) as -> by congruence. done. }
    destruct (decide (x = r)) as [->|Hxr].
    + split; [done|]. intros _ Hlo. by destruct Hlo, (Hrx' _ Hk').
    + split; [done|]. intros Hf _. apply O5; [done|]. intros <-. congruence.
  - intros x. cbn. rewrite Hp', elem_of_cons. pose proof (ai_tried _ _ _ H x) as Htx.
    rewrite Hp, elem_of_cons in Htx. split.
    + intros [->|HR]; [exists k, ka; by rewrite decide_True|].
      destruct (proj1 Htx (or_intror HR)) as (k' & ka' & E1 & E2 & E3). exists k', ka'.
      split_and!; [done|done|]. destruct (decide (x = l)); [done|].
      destruct (decide (x = r)) as [->|]; [by destruct HrR|done].
    + intros (k' & ka' & E1 & E2 & E3). destruct (decide (x = l)) as [->|]; [by left|right].
      destruct (decide (x = r)); [done|]. destruct (proj2 Htx) as [->|HR]; [by exists k', ka'|done|done].
Qed.

(** What [Good] leaves of a known address that was new: it is tried, every address is
    still known, and at most one tried address is new again. *)
Record promoted (k : addr_key) (l : nat) (am am' : AddrManager) : Prop := mkPromoted {
  pr_inv : AddrInv nobody 0 am';
  pr_index : am_addrIndex am' = am_addrIndex am;
  pr_tried : exists ka, am_heap am' !! l = Some ka /\ ka_tried ka = true;
  pr_others : exists evicted, forall l' ka', am_heap am !! l' = Some ka' -> l' <> l ->
    exists ka2, am_heap am' !! l' = Some ka2 /\ ka_na ka2 = ka_na ka' /\
      ka_tried ka2 = if bool_decide (evicted = Some l') then false else ka_tried ka';
}.

Lemma replace_tried_spec k l ka j t ob am :
  AddrInv (eq k) 1 am -> am_addrIndex am !! k = Some l -> am_heap am !! l = Some ka ->
  ka_tried ka = false -> ka_refs ka = 0 -> am_addrTried am !! j = Some t -> t <> [] ->
  (exists b, am_addrNew am !! ob = Some b /\ Z.of_nat (size b) <= newBucketSize) ->
  exists am', replace_tried sha3_Sum256 j ob l am = Some am' /\ promoted k l am am'.
Proof.
  intros H Hx Hka Hnt Hr Hj Hne Hob. unfold replace_tried. rewrite Hj. cbn [mbind option_bind].
  destruct (pickTried_spec am j t Hj Hne) as (e & r & o & -> & He & _ & _).
  { intros l' Hl'. destruct (listed _ _ _ _ _ _ H Hj Hl') as (_ & ka' & _ & E & _). by exists ka'. }
  cbn [mbind option_bind]. rewrite He. cbn [mbind option_bind].
  destruct (listed _ _ _ _ _ _ H Hj (list_elem_of_lookup_2 _ _ _ He)) as (rk & rka & Hrx & Hrka & Hrt & Hro).
  rewrite Hrka. cbn [mbind option_bind].
  destruct (new_bucket _ _ am (ka_na rka) (ka_srcAddr rka) H) as [b Hb]. rewrite Hb. cbn [mbind option_bind].
  set (nb := if newBucketSize <=? Z.of_nat (size b) then ob else _).
  assert (Hnb : exists b', am_addrNew am !! nb = Some b' /\ Z.of_nat (size b') <= newBucketSize).
  { subst nb. destruct (Z.leb_spec newBucketSize (Z.of_nat (size b))); [done|]. exists b. split; [done|lia]. }
  clearbody nb. destruct Hnb as (b' & Hb' & Hsz).
  rewrite (ko_key _ _ _ _ Hro). cbn [mbind option_bind].
  pose proof (swap_tried_inv _ _ _ _ _ _ _ _ _ _ H Hx Hka Hnt Hr Hj He Hrx Hrka Hrt) as H1. cbv zeta in H1.
  set (am1 := am_update r (ka_with_tried false) _) in H1.
  assert (Hlr : l <> r) by congruence.
  assert (Hr1 : am_heap am1 !! r = Some (ka_with_tried false rka)).
  { cbn. rewrite lookup_alter_eq. rewrite lookup_alter_ne by done. by rewrite Hrka. }
  assert (Hrr : ka_refs rka = 0) by (by apply (ko_tried _ _ _ _ Hro)).
  assert (Hrb : b' !! rk = None).
  { destruct (b' !! rk) as [l'|] eqn:E; [|done]. exfalso. pose proof (ko_refs _ _ _ _ Hro) as Hc.
    rewrite Hrr in Hc. cut (0 < buckets_with rk (am_addrNew am)); [lia|]. apply buckets_with_pos. by exists nb, b', l'. }
  pose proof (put_ref_inv (eq rk) nobody 1 am1 nb b' rk r _ H1 (eq_nobody rk) Hrx Hr1 eq_refl) as H2. cbn [ka_with_tried ka_refs] in H2.
  rewrite Hrr in H2. specialize (H2 ltac:(done) Hb' Hrb Hsz).
  eexists. split; [reflexivity|]. split.
  - refine (counts_inv nobody 1 0 _ (am_nNew am + 1) H2 _). cbn. lia.
  - done.
  - cbn. exists (ka_with_tried true ka). rewrite lookup_alter_ne, lookup_alter_ne by done.
    by rewrite lookup_alter_eq, Hka.
  - exists (Some r). intros l' ka' E Hl'. cbn.
    destruct (decide (l' = r)) as [->|Hne'].
    + rewrite bool_decide_eq_true_2 by done. rewrite !lookup_alter_eq, lookup_alter_ne, E by done.
      eexists. split; [reflexivity|]. done.
    + rewrite bool_decide_eq_false_2 by congruence. rewrite !lookup_alter_ne by done.
      exists ka'. by split_and!.
Qed.

Lemma with_known_spec addr am f (P : AddrManager -> Prop) :
  AddrInv nobody 0 am -> is_Some (NA2_Addr addr) -> P am ->
  (forall k l ka, Key addr = Some k -> am_addrIndex am !! k = Some l -> am_heap am !! l = Some ka ->
     known_ok nobody (am_addrNew am) k ka -> exists am', f l ka = Some am' /\ P am') ->
  exists am', with_known sha3_Sum256 addr am f = Some am' /\ P am'.
Proof.
  intros H Ha H0 Hf. destruct (Key_network addr Ha) as [k Hk]. unfold with_known, am_find.
  rewrite Hk. cbn [mbind option_bind]. destruct (am_addrIndex am !! k) as [l|] eqn:Hx; [|by exists am].
  destruct (ai_index _ _ _ H _ _ Hx) as (ka & Hka & Ho). rewrite Hka. cbn [mbind option_bind].
  by apply (Hf k).
Qed.

(** A new address is taken out of every bucket, and one of them has room now. *)
Lemma unlink_all k l ka am :
  AddrInv nobody 0 am -> am_addrIndex am !! k = Some l -> am_heap am !! l = Some ka -> ka_tried ka = false ->
  exists ob am2, unlink_loop (length (am_addrNew am)) 0 k l None am = Some (Some ob, am2) /\
    AddrInv (eq k) 1 (am_with_counts (am_nTried am2) (am_nNew am2 - 1) am2) /\
    am_addrIndex am2 = am_addrIndex am /\ am_addrTried am2 = am_addrTried am /\ refs_only am am2 /\
    am_heap am2 !! l = Some (ka_with_refs 0 ka) /\
    exists b, am_addrNew am2 !! ob = Some b /\ Z.of_nat (size b) <= newBucketSize.
Proof.
  intros H Hx Hka Ht. destruct (ai_buckets _ _ _ H) as [-> _].
  destruct (unlink_loop_spec k l 1024 0 None am am) as (ob & am2 & -> & Hu & Hob & Hnone);
    [|done|lia|done|].
  { split; try done; [by apply (loosen nobody)|lia|apply refs_only_refl]. }
  pose proof Hu as [U1 U2 U3 U4 U5 U6].
  destruct (ai_index _ _ _ H _ _ Hx) as (ka0 & E0 & Ho). assert (ka0 = ka) as -> by congruence.
  pose proof (ko_new _ _ _ _ Ho Ht (fun x => x)) as Hpos. rewrite (ko_refs _ _ _ _ Ho) in Hpos.
  destruct ob as [ob|]; [|destruct (Hnone eq_refl) as [_ Hz]; lia].
  assert (Hx2 : am_addrIndex am2 !! k = Some l) by (by rewrite U3).
  destruct (U5 _ _ Hka) as (ka2 & Hka2 & Eka2).
  destruct (ai_index _ _ _ U1 _ _ Hx2) as (ka3 & E3 & Ho3). assert (ka3 = ka2) as -> by congruence.
  assert (Hr2 : ka_refs ka2 = 0).
  { rewrite (ko_refs _ _ _ _ Ho3). pose proof (buckets_with_nonneg k (am_addrNew am2)).
    destruct (Z.eq_dec (buckets_with k (am_addrNew am2)) 0) as [|Hne]; [done|]. exfalso.
    destruct (proj1 (buckets_with_pos k (am_addrNew am2)) ltac:(lia)) as (j & b & l' & Hj & Hb).
    pose proof (lookup_lt_Some _ _ _ Hj) as Hlen. destruct (ai_buckets _ _ _ U1) as [E _]. rewrite E in Hlen.
    by rewrite (U2 j b Hlen Hj) in Hb. }
  exists ob, am2. split_and!; try done; [|by rewrite Hka2, Eka2, Hr2|by apply Hob].
  eapply counts_inv; [exact U1|lia].
Qed.

(** The second part of [Good], after the address has left the new buckets. *)
Lemma promote_spec k l ka j ob am :
  AddrInv (eq k) 1 am -> am_addrIndex am !! k = Some l -> am_heap am !! l = Some ka ->
  ka_tried ka = false -> ka_refs ka = 0 -> (j < 64)%nat ->
  (exists b, am_addrNew am !! ob = Some b /\ Z.of_nat (size b) <= newBucketSize) ->
  exists am', (t ← am_addrTried am !! j;
    if len t <? triedBucketSize
    then let am4 := am_update l (ka_with_tried true) am in
         let am5 := am_with_tried (alter (fun t => t ++ [l]) j (am_addrTried am4)) am4 in
         Some (am_with_counts (am_nTried am5 + 1) (am_nNew am5) am5)
    else replace_tried sha3_Sum256 j ob l am) = Some am' /\ promoted k l am am'.
Proof.
  intros H Hx Hka Ht Hr Hlt Hob. destruct (lookup_lt_is_Some_2 (am_addrTried am) j) as [t Hj].
  { destruct (ai_buckets _ _ _ H) as [_ ->]. lia. }
  rewrite Hj. cbn [mbind option_bind]. destruct (Z.ltb_spec (len t) triedBucketSize) as [Hroom|Hfull].
  - eexists. split; [reflexivity|]. split.
    + by eapply (place_tried_inv (eq k) nobody 0); [|apply eq_nobody|..].
    + done.
    + exists (ka_with_tried true ka). cbn. by rewrite lookup_alter_eq, Hka.
    + exists None. intros l' ka' E Hl'. exists ka'. cbn. by rewrite lookup_alter_ne.
  - eapply replace_tried_spec; try done. by intros ->.
Qed.

Lemma Good_spec now addr am :
  AddrInv nobody 0 am -> is_Some (NA2_Addr addr) ->
  exists am', Good sha3_Sum256 now addr am = Some am' /\
    AddrInv nobody 0 am' /\ am_addrIndex am' = am_addrIndex am /\
    forall k l, Key addr = Some k -> am_addrIndex am !! k = Some l ->
      exists am1, am1 = am_update l (ka_with_attempts 0 now now) am /\
        (promoted k l am1 am' \/ am' = am1 /\ exists ka, am_heap am !! l = Some ka /\ ka_tried ka = true).
Proof.
  intros H Ha. unfold Good. destruct (Key_network addr Ha) as [k0 Hk0].
  unfold with_known, am_find. rewrite Hk0. cbn [mbind option_bind].
  destruct (am_addrIndex am !! k0) as [l|] eqn:Hx.
  2:{ exists am. split_and!; try done. intros k l [= <-]. congruence. }
  destruct (ai_index _ _ _ H _ _ Hx) as (ka & Hka & Ho). rewrite Hka. cbn [mbind option_bind].
  set (am1 := am_update l (ka_with_attempts 0 now now) am).
  assert (H1 : AddrInv nobody 0 am1) by (apply update_inv; [|done]; intros ka' _; by split_and!).
  assert (Hka1 : am_heap am1 !! l = Some (ka_with_attempts 0 now now ka)) by (cbn; by rewrite lookup_alter_eq, Hka).
  destruct (ka_tried ka) eqn:Ht.
  { exists am1. split_and!; try done. intros k l' [= <-] E. assert (l' = l) as -> by congruence.
    exists am1. split; [done|]. right. split; [done|by exists ka]. }
  change (length (am_addrNew am)) with (length (am_addrNew am1)).
  destruct (unlink_all k0 l _ am1 H1 Hx Hka1 Ht) as (ob & am2 & -> & H3 & E1 & E2 & E3 & Hka2 & Hob).
  cbn [mbind option_bind]. set (am3 := am_with_counts _ _ am2) in *. cbv zeta.
  destruct (getTriedBucket sha3_Sum256 am3 (ka_na ka)) as [j|] eqn:Ej.
  2:{ unfold getTriedBucket in Ej. by rewrite (ko_key _ _ _ _ Ho) in Ej. }
  cbn [mbind option_bind]. apply getTriedBucket_range in Ej.
  destruct (promote_spec k0 l (ka_with_refs 0 (ka_with_attempts 0 now now ka)) j ob am3) as (am' & E & [P1 P2 P3 P4]);
    [done|change (am_addrIndex am2 !! k0 = Some l); by rewrite E1|done..|].
  exists am'. split; [exact E|]. split_and!; [done|by rewrite P2|].
  intros k l' [= <-] El. assert (l' = l) as -> by congruence. exists am1. split; [done|]. left.
  split; [done|by rewrite P2|done|]. destruct P4 as [ev P4]. exists ev. intros l' ka' E' Hl'.
  destruct (E3 _ _ E') as (ka4 & E4 & Eq4). destruct (P4 _ _ E4 Hl') as (ka5 & E5 & F1 & F2).
  exists ka5. split; [done|]. rewrite F1, F2, Eq4. done.
Qed.

Lemma report_inv addr am f :
  AddrInv nobody 0 am -> is_Some (NA2_Addr addr) ->
  (forall l ka, am_heap am !! l = Some ka ->
     f l ka = Some am \/ exists g, keeps g ka /\ f l ka = Some (am_update l g am)) ->
  exists am', with_known sha3_Sum256 addr am f = Some am' /\ AddrInv nobody 0 am' /\
    am_addrIndex am' = am_addrIndex am.
Proof.
  intros H Ha Hf. apply with_known_spec; [done|done|by split|].
  intros k l ka _ Hx Hka _. destruct (Hf l ka Hka) as [->|(g & Hg & ->)]; [by exists am|].
  eexists. split; [reflexivity|]. split; [|done].
  apply update_inv; [|done]. intros ka' E. by assert (ka' = ka) as -> by congruence.
Qed.

Lemma Attempt_inv now addr am :
  AddrInv nobody 0 am -> is_Some (NA2_Addr addr) ->
  exists am', Attempt sha3_Sum256 now addr am = Some am' /\ AddrInv nobody 0 am' /\ am_addrIndex am' = am_addrIndex am.
Proof.
  intros H Ha. apply report_inv; [done|done|]. intros l ka _. right. eexists. split; [|reflexivity]. by split_and!.
Qed.

Lemma Connected_inv now addr am :
  AddrInv nobody 0 am -> is_Some (NA2_Addr addr) ->
  exists am', Connected sha3_Sum256 now addr am = Some am' /\ AddrInv nobody 0 am' /\ am_addrIndex am' = am_addrIndex am.
Proof.
  intros H Ha. apply report_inv; [done|done|]. intros l ka _. cbv beta zeta.
  destruct (NA2_Timestamp (ka_na ka) + time_Minute * 20 <? now); [right|by left]. eexists. split; [|reflexivity]. by split_and!; [apply Key_same| |].
Qed.

Lemma SetServices_inv addr services am :
  AddrInv nobody 0 am -> is_Some (NA2_Addr addr) ->
  exists am', SetServices sha3_Sum256 addr services am = Some am' /\ AddrInv nobody 0 am' /\ am_addrIndex am' = am_addrIndex am.
Proof.
  intros H Ha. apply report_inv; [done|done|]. intros l ka _. cbv beta zeta.
  destruct (negb (NA2_Services (ka_na ka) =? services)); [right|by left]. eexists. split; [|reflexivity]. by split_and!; [apply Key_same| |].
Qed.

(** ** A new manager *)

Lemma AddrManager_New_inv key : AddrInv nobody 0 (New key).
Proof.
  assert (Hc : concat (replicate (Z.to_nat triedBucketCount) ([] : list nat)) = []) by (vm_compute; done).
  split; cbn [New reset am_addrNew am_addrTried am_addrIndex am_heap am_nTried am_nNew am_next];
    rewrite ?Hc; try done.
  - intros i b k l Hi Hb. apply lookup_replicate in Hi as [-> _]. done.
  - apply NoDup_nil_2.
  - intros l. split; [intros H; by apply elem_of_nil in H|]. intros (k & ka & H & _). done.
  - intros i b Hi. apply lookup_replicate in Hi as [-> _]. by rewrite map_size_empty.
  - intros i t Hi. apply lookup_replicate in Hi as [-> _]. done.
Qed.

End Laws.
