(* ===== verification/AddrClaims.v ===== *)
(** * addrmgr: the properties of the address manager

    The invariant over all sequences of operations, what each operation does to the
    tables, and the choice of a peer. *)

From Stdlib Require Import ZArith Lia.
From S2P Require Import Prelude WireCommon ChainHash WireNet NetText AddrNetwork GoFloat Float64 AddrManager AddrLocal AddrLaws.
Open Scope Z_scope.

(** ** Sequences of operations *)

Inductive am_op : Type :=
| OpAddAddresses (now : Z) (draws : nat -> Z -> Z) (addrs : list NetAddressV2) (srcAddr : NetAddressV2)
| OpGood (now : Z) (addr : NetAddressV2)
| OpAttempt (now : Z) (addr : NetAddressV2)
| OpConnected (now : Z) (addr : NetAddressV2)
| OpSetServices (addr : NetAddressV2) (services : Z)
| OpAddLocalAddress (na : NetAddressV2) (priority : AddressPriority).

Section Claims.
Context (sha3_Sum256 : list byte -> list byte)
        (range_order : gmap addr_key nat -> list (addr_key * nat)).

Definition am_step (op : am_op) (am : AddrManager) : option AddrManager :=
  match op with
  | OpAddAddresses now draws addrs srcAddr =>
      AddAddresses sha3_Sum256 range_order now draws addrs srcAddr am
  | OpGood now addr => Good sha3_Sum256 now addr am
  | OpAttempt now addr => Attempt sha3_Sum256 now addr am
  | OpConnected now addr => Connected sha3_Sum256 now addr am
  | OpSetServices addr services => SetServices sha3_Sum256 addr services am
  | OpAddLocalAddress na priority => snd <$> AddLocalAddress sha3_Sum256 na priority am
  end.

Fixpoint am_run (ops : list am_op) (am : AddrManager) : option AddrManager :=
  match ops with
  | [] => Some am
  | op :: ops => am ← am_step op am; am_run ops am
  end.

(** The addresses reported on have a network: the code panics on the others. *)
Definition op_ok (op : am_op) : Prop :=
  match op with
  | OpAddAddresses _ _ _ _ | OpAddLocalAddress _ _ => True
  | OpGood _ addr | OpAttempt _ addr | OpConnected _ addr | OpSetServices addr _ =>
      is_Some (NA2_Addr addr)
  end.

Definition op_adds (op : am_op) : bool := match op with OpAddAddresses _ _ _ _ => true | _ => false end.

Hypothesis range_perm : forall m, Permutation (range_order m) (map_to_list m).

Local Abbreviation Inv := (AddrInv sha3_Sum256 nobody 0).

Lemma local_inv na priority am :
  Inv am -> exists ok am', AddLocalAddress sha3_Sum256 na priority am = Some (ok, am') /\ Inv am' /\
    am_addrIndex am' = am_addrIndex am.
Proof.
  intros H. unfold AddLocalAddress. destruct (IsRoutable na) eqn:Er; cbn [negb]; [|by eexists _, am].
  destruct (Key_network sha3_Sum256 na) as [k Hk]; [by apply IsRoutable_network in Er|].
  unfold am_NetAddressKey in Hk. rewrite Hk. cbn [mbind option_bind]. eexists _, _. split; [reflexivity|].
  assert (Hl : forall m, Inv (am_with_local m am)) by (intros m; split; apply H).
  destruct (am_localAddresses am !! k) as [la|]; [destruct (la_score la <? priority)|]; split; try done; apply Hl.
Qed.

Lemma am_step_inv op am :
  Inv am -> op_ok op -> exists am', am_step op am = Some am' /\ Inv am' /\
    (op_adds op = false -> am_addrIndex am' = am_addrIndex am).
Proof.
  intros H Hok. destruct op as [now draws addrs src|now addr|now addr|now addr|addr s|na p]; cbn in Hok |- *.
  - destruct (AddAddresses_inv sha3_Sum256 range_order range_perm now src addrs draws am H) as (am' & E & H').
    by exists am'.
  - destruct (Good_spec sha3_Sum256 now addr am H Hok) as (am' & E & H' & Hi & _). by exists am'.
  - destruct (Attempt_inv sha3_Sum256 now addr am H Hok) as (am' & E & H' & Hi). by exists am'.
  - destruct (Connected_inv sha3_Sum256 now addr am H Hok) as (am' & E & H' & Hi). by exists am'.
  - destruct (SetServices_inv sha3_Sum256 addr s am H Hok) as (am' & E & H' & Hi). by exists am'.
  - destruct (local_inv na p am H) as (ok & am' & -> & H' & Hi). by exists am'.
Qed.
End Claims.

(** * Properties *)


(** ** Choosing a peer *)

(** The factor after [n] candidates that were not taken. *)
Definition factor_after (n : nat) : f64 := Nat.iter n (fun f => f64_mul f (f64_ratio 12 10)) (Fin (dy_int 1)).

Lemma factor_after_S n : factor_after (S n) = f64_mul (factor_after n) (f64_ratio 12 10).
Proof. done. Qed.

(** How many candidates the numbers [rs] give the loop to look at. *)
Fixpoint candidates (buckets : list (list nat)) (rs : list Z) : nat :=
  match rs with
  | [] => 0
  | r :: rs =>
      match buckets !! Z.to_nat (Intn (len buckets) r) with
      | Some (_ :: _) => match rs with _ :: _ :: rs => S (candidates buckets rs) | _ => 0 end
      | _ => candidates buckets rs
      end
  end.

Lemma Intn_lookup {A} (xs : list A) r : xs <> [] -> exists x, xs !! Z.to_nat (Intn (len xs) r) = Some x /\ x ∈ xs.
Proof.
  intros Hne. assert (Hl : 0 < len xs) by (destruct xs; [done|unfold len; cbn [length]; lia]).
  pose proof (Z.mod_pos_bound r (len xs) Hl) as Hm.
  destruct (lookup_lt_is_Some_2 xs (Z.to_nat (Intn (len xs) r))) as [x Hx].
  { unfold Intn. unfold len in *. lia. }
  exists x. split; [done|]. by eapply list_elem_of_lookup_2.
Qed.

(** The loop takes an address of the buckets, or goes on; it goes on for as long as
    its candidates have chances below those of the turn. *)
Lemma GetAddress_loop_spec now buckets am (n0 : nat) rs : forall n,
  buckets <> [] -> (forall b l, b ∈ buckets -> l ∈ b -> is_Some (am_heap am !! l)) ->
  exists g, GetAddress_loop now buckets am rs (factor_after n) = Some g /\
    match g with
    | GotNil => False
    | Got l => exists b, b ∈ buckets /\ l ∈ b
    | Searching =>
        (forall b l ka r, b ∈ buckets -> l ∈ b -> am_heap am !! l = Some ka ->
           f64_ltb (f64_round (dy_int (Intn (2 ^ 30) r)))
             (f64_mul (f64_mul (factor_after n0) (KnownAddress_chance now ka)) (f64_round (dy_int (2 ^ 30)))) = true) ->
        (n <= n0)%nat -> (n + candidates buckets rs <= n0)%nat
    end.
Proof.
  induction rs as [rs IH] using (induction_ltof1 _ (@length Z)). intros n Hne Hh. destruct rs as [|r rs]; [exists Searching; split; [done|intros; cbn; lia]|].
  cbn [GetAddress_loop candidates]. destruct (Intn_lookup buckets r Hne) as (es & Hes & Hin). rewrite Hes.
  cbn [mbind option_bind]. destruct es as [|l0 es].
  { apply IH; [unfold ltof; cbn; lia|done|done]. }
  destruct rs as [|nth [|r' rs]]; [exists Searching; split; [done|intros; lia]..|].
  destruct (Intn_lookup (l0 :: es) nth) as (l & Hl & Hlin); [done|]. rewrite Hl. cbn [mbind option_bind].
  destruct (Hh _ _ Hin Hlin) as [ka Hka]. rewrite Hka. cbn [mbind option_bind]. cbv zeta.
  destruct (f64_ltb _ _) eqn:Eacc; [exists (Got l); split; [done|by exists (l0 :: es)]|].
  rewrite <- factor_after_S. destruct (IH rs) with (n := S n) as (g & -> & Hg); [unfold ltof; cbn; lia|done|done|].
  exists g. split; [done|]. destruct g as [|l'|]; [done|done|]. intros Hacc Hn.
  destruct (decide (n = n0)) as [->|]; [rewrite (Hacc _ _ _ r' Hin Hlin Hka) in Eacc; done|].
  specialize (Hg Hacc ltac:(lia)). lia.
Qed.

(** *** Chances *)

Lemma deprioritise_add a b c : deprioritise (a + b) c = deprioritise b (deprioritise a c).
Proof. revert c. induction a as [|a IH]; intros c; [done|]. apply IH. Qed.

Definition positive_f64 (x : f64) : bool := match x with Fin d => negb (dm d =? 0) | _ => false end.

(** What is not a positive number stays so. *)
Lemma deprioritise_not_positive n c : positive_f64 c = false -> positive_f64 (deprioritise n c) = false.
Proof.
  revert c. induction n as [|n IH]; intros c Hc; [done|]. cbn [deprioritise]. apply IH.
  destruct c as [d| |]; [|done|done]. cbn in *. unfold f64_div. apply negb_false_iff in Hc. by rewrite Hc.
Qed.

Lemma deprioritise_positive a n c :
  (a <= n)%nat -> positive_f64 (deprioritise n c) = true -> positive_f64 (deprioritise a c) = true.
Proof.
  intros Ha Hn. destruct (positive_f64 (deprioritise a c)) eqn:E; [done|].
  replace n with (a + (n - a))%nat in Hn by lia. rewrite deprioritise_add in Hn.
  by rewrite deprioritise_not_positive in Hn.
Qed.

(** Halfway below the smallest number rounding goes up: division by 1.5 ends there. *)
Definition smallest_f64 : f64 := Fin (mkDy 1 (-1074)).

Lemma deprioritise_smallest n : deprioritise n smallest_f64 = smallest_f64.
Proof. induction n as [|n IH]; [done|exact IH]. Qed.

(** The failures after which a chance has sunk to the smallest number, and the
    candidates after which every chance suffices. *)
Definition attempts_smallest : nat := 1850.
Definition candidates_enough : nat := 3900.

Lemma deprioritise_always a c :
  deprioritise attempts_smallest c = smallest_f64 -> positive_f64 (deprioritise a c) = true.
Proof.
  intros Hc. destruct (Nat.le_ge_cases a attempts_smallest) as [Ha|Ha].
  - apply (deprioritise_positive _ _ _ Ha). by rewrite Hc.
  - replace a with (attempts_smallest + (a - attempts_smallest))%nat by lia.
    by rewrite deprioritise_add, Hc, deprioritise_smallest.
Qed.

#[local] Opaque deprioritise factor_after.

Lemma chance_positive now ka : positive_f64 (KnownAddress_chance now ka) = true.
Proof.
  unfold KnownAddress_chance.
  destruct (_ <? _); (apply deprioritise_always; vm_compute; reflexivity).
Qed.

Lemma factor_enough : factor_after candidates_enough = Inf.
Proof. vm_compute. reflexivity. Qed.

Lemma f64_round_int r : 0 <= r < 2 ^ 30 -> f64_round (dy_int r) = Fin (dy_int r).
Proof.
  intros Hr. unfold f64_round, dy_int. cbn [dm de]. destruct (Z.eqb_spec r 0) as [->|Hne]; [done|].
  assert (Hl : 0 <= Z.log2 r < 30) by (split; [apply Z.log2_nonneg|apply Z.log2_lt_pow2; lia]).
  cbv zeta. destruct (Z.leb_spec (Z.max (Z.log2 r + 1 - 53) (- 1074 - 0)) 0); [|lia]. cbn [dm de].
  case_bool; [lia|]. case_bool; [lia|done].
Qed.

Lemma Intn_range n r : 0 < n -> 0 <= Intn n r < n.
Proof. intros H. by apply Z.mod_pos_bound. Qed.

(** After enough candidates any address is taken, however often it failed. *)
Lemma chance_suffices now ka r :
  f64_ltb (f64_round (dy_int (Intn (2 ^ 30) r)))
    (f64_mul (f64_mul (factor_after candidates_enough) (KnownAddress_chance now ka))
       (f64_round (dy_int (2 ^ 30)))) = true.
Proof.
  rewrite factor_enough, f64_round_int by (by apply Intn_range).
  pose proof (chance_positive now ka) as Hc. destruct (KnownAddress_chance now ka) as [d| |]; try done.
  cbn [positive_f64] in Hc. apply negb_true_iff in Hc. cbn [f64_mul]. rewrite Hc. reflexivity.
Qed.

(** *** What is chosen from *)

(** The table [GetAddress] looks at, and the numbers it has left for it. *)
Definition chosen_table (range_order : gmap addr_key nat -> list (addr_key * nat)) (am : AddrManager)
    (rs : list Z) : list (list nat) * list Z :=
  if 0 <? am_nTried am then
    if am_nNew am =? 0 then (am_addrTried am, rs)
    else match rs with
         | [] => (am_addrTried am, [])
         | r :: rs => (if Intn 2 r =? 0 then am_addrTried am else new_entries range_order am, rs)
         end
  else (new_entries range_order am, rs).

Lemma GetAddress_table range_order now rs am :
  numAddresses am <> 0 ->
  GetAddress range_order now rs am =
  GetAddress_loop now (fst (chosen_table range_order am rs)) am (snd (chosen_table range_order am rs)) (factor_after 0).
Proof.
  intros Hn. unfold GetAddress, chosen_table. destruct (Z.eqb_spec (numAddresses am) 0); [done|].
  destruct (0 <? am_nTried am); [|done]. destruct (am_nNew am =? 0); [done|]. by destruct rs.
Qed.

Section Choice.
Context (sha3_Sum256 : list byte -> list byte)
        (range_order : gmap addr_key nat -> list (addr_key * nat)).
Hypothesis range_perm : forall m, Permutation (range_order m) (map_to_list m).
Context (am : AddrManager).
Hypothesis H : AddrInv sha3_Sum256 nobody 0 am.

Lemma new_entries_elem es : es ∈ new_entries range_order am <->
  exists i b, am_addrNew am !! i = Some b /\ es = map snd (range_order b).
Proof.
  unfold new_entries. rewrite list_elem_of_fmap. split.
  - intros (b & -> & Hb). apply list_elem_of_lookup in Hb as [i Hi]. by exists i, b.
  - intros (i & b & Hi & ->). exists b. split; [done|]. by eapply list_elem_of_lookup_2.
Qed.

Lemma table_indexed es l :
  es ∈ am_addrTried am \/ es ∈ new_entries range_order am -> l ∈ es ->
  exists k ka, am_addrIndex am !! k = Some l /\ am_heap am !! l = Some ka.
Proof.
  intros [He|He] Hl.
  - apply list_elem_of_lookup in He as [i Hi].
    destruct (listed _ _ _ _ _ _ _ H Hi Hl) as (k & ka & Hx & Hka & _). by exists k, ka.
  - apply new_entries_elem in He as (i & b & Hi & ->). apply list_elem_of_fmap in Hl as ([k l'] & -> & Hin).
    rewrite range_perm in Hin. apply elem_of_map_to_list in Hin.
    destruct (in_new _ _ _ _ _ _ _ _ H Hi Hin) as (Hx & ka & Hka & _). by exists k, ka.
Qed.

(** With none of the index new, the counter of the new ones is 0. *)
Lemma some_new : 0 < am_nNew am ->
  exists k l ka, am_addrIndex am !! k = Some l /\ am_heap am !! l = Some ka /\ ka_tried ka = false.
Proof.
  intros Hn.
  set (new := fun e : addr_key * nat =>
    match am_heap am !! snd e with Some ka => negb (ka_tried ka) | None => false end).
  destruct (existsb new (map_to_list (am_addrIndex am))) eqn:Enew.
  - apply existsb_exists in Enew as ([k l] & Hin & Hka). unfold new in Hka. cbn in Hka.
    apply list_elem_of_In, elem_of_map_to_list in Hin. destruct (am_heap am !! l) as [ka|] eqn:E; [|done].
    apply negb_true_iff in Hka. by exists k, l, ka.
  - exfalso. pose proof (ai_total _ _ _ _ H) as Ht. rewrite (ai_nTried _ _ _ _ H) in Ht.
    set (ls := map snd (map_to_list (am_addrIndex am))).
    assert (Hnd : NoDup ls).
    { apply NoDup_fmap_2_strong; [|apply NoDup_map_to_list]. intros [k l] [k' l'] Hk Hk' E. cbn in E. subst l'.
      apply elem_of_map_to_list in Hk, Hk'. by rewrite (index_inj _ _ _ _ _ _ _ H Hk Hk'). }
    assert (Hsub : forall l, l ∈ ls -> l ∈ concat (am_addrTried am)).
    { intros l Hl. apply list_elem_of_fmap in Hl as ([k l'] & -> & Hin). cbn. apply (ai_tried _ _ _ _ H).
      pose proof Hin as Hx. apply elem_of_map_to_list in Hx. destruct (ai_index _ _ _ _ H _ _ Hx) as (ka & Hka & _).
      exists k, ka. split_and!; [done|done|]. destruct (ka_tried ka) eqn:E; [done|]. exfalso.
      assert (Hex : existsb new (map_to_list (am_addrIndex am)) = true); [|congruence].
      apply existsb_exists. exists (k, l'). split; [by apply list_elem_of_In|].
      unfold new. cbn. by rewrite Hka, E. }
    assert (Hlen : (length ls <= length (concat (am_addrTried am)))%nat)
      by (apply submseteq_length, NoDup_submseteq; done).
    unfold ls in Hlen. rewrite length_map, length_map_to_list in Hlen. lia.
Qed.

Lemma table_not_empty rs :
  numAddresses am <> 0 -> exists es, es ∈ fst (chosen_table range_order am rs) /\ es <> [].
Proof.
  intros Hn. unfold numAddresses in Hn. pose proof (ai_nTried _ _ _ _ H) as Ht.
  pose proof (ai_total _ _ _ _ H) as Htot.
  assert (Htried : 0 < am_nTried am -> exists es, es ∈ am_addrTried am /\ es <> []).
  { intros Hp. destruct (concat (am_addrTried am)) as [|l ls] eqn:E; [cbn in Ht; lia|].
    assert (Hin : In l (concat (am_addrTried am))) by (rewrite E; by left).
    apply in_concat in Hin as (es & He & Hl). exists es. split; [by apply list_elem_of_In|]. by destruct es. }
  assert (Hnew : 0 < am_nNew am -> exists es, es ∈ new_entries range_order am /\ es <> []).
  { intros Hp. destruct (some_new Hp) as (k & l & ka & Hx & Hka & Hnt).
    destruct (ai_index _ _ _ _ H _ _ Hx) as (ka' & E & Ho). assert (ka' = ka) as -> by congruence.
    pose proof (ko_new _ _ _ _ _ Ho Hnt (fun x => x)) as Hr. rewrite (ko_refs _ _ _ _ _ Ho) in Hr.
    apply buckets_with_pos in Hr as (i & b & l' & Hi & Hb). exists (map snd (range_order b)).
    split; [apply new_entries_elem; by exists i, b|]. intros E'. apply map_eq_nil in E'.
    assert (Hin : (k, l') ∈ range_order b) by (rewrite range_perm; by apply elem_of_map_to_list).
    rewrite E' in Hin. by apply elem_of_nil in Hin. }
  unfold chosen_table. destruct (Z.ltb_spec 0 (am_nTried am)); [|apply Hnew; lia].
  destruct (Z.eqb_spec (am_nNew am) 0); [by apply Htried|].
  destruct rs as [|r rs]; [by apply Htried|]. cbn [fst].
  assert (Hp : 0 < am_nNew am).
  { assert (0 <= am_nNew am); [|lia]. apply Z.nlt_ge. intros Hneg.
    assert (length (concat (am_addrTried am)) <= size (am_addrIndex am))%nat; [|lia].
    rewrite <- length_map_to_list, <- (length_map snd). apply submseteq_length, NoDup_submseteq; [apply H|].
    intros l Hl. apply (ai_tried _ _ _ _ H) in Hl as (k & ka & Hx & _). apply list_elem_of_fmap.
    exists (k, l). split; [done|]. by apply elem_of_map_to_list. }
  destruct (Intn 2 r =? 0); [by apply Htried|by apply Hnew].
Qed.
End Choice.


Definition example_sha3 : list byte -> list byte := fun _ => replicate 32 x07.

Definition example_draws : list Z := [1; 2; 3].



(** after [Good] a known address is tried.  No address is forgotten, and all the
    others keep their state, but for one if the tried list of the group was full:
    that one is new again. *)
Theorem Good_promotes sha3_Sum256 now addr am k l :
  AddrInv sha3_Sum256 nobody 0 am -> is_Some (NA2_Addr addr) ->
  am_NetAddressKey sha3_Sum256 addr = Some k -> am_addrIndex am !! k = Some l ->
  exists am', Good sha3_Sum256 now addr am = Some am' /\
    AddrInv sha3_Sum256 nobody 0 am' /\ am_addrIndex am' = am_addrIndex am /\
    (exists ka, am_heap am' !! l = Some ka /\ ka_tried ka = true) /\
    exists evicted, forall k' l' ka, am_addrIndex am !! k' = Some l' -> k' <> k -> am_heap am !! l' = Some ka ->
      exists ka', am_heap am' !! l' = Some ka' /\ ka_na ka' = ka_na ka /\
        ka_tried ka' = if bool_decide (evicted = Some l') then false else ka_tried ka.
Proof.
  intros H Ha Hk Hx. destruct (Good_spec sha3_Sum256 now addr am H Ha) as (am' & E & H' & Hi & Hkn).
  exists am'. split_and!; [done|done|done| |].
  - destruct (Hkn k l Hk Hx) as (am1 & -> & [P|(-> & ka & Hka & Ht)]); [apply P|].
    exists (ka_with_attempts 0 now now ka). cbn. by rewrite lookup_alter_eq, Hka.
  - assert (Hne : forall k' l', am_addrIndex am !! k' = Some l' -> k' <> k -> l' <> l).
    { intros k' l' Hx' Hne ->. apply Hne. exact (index_inj _ _ _ _ _ _ _ H Hx' Hx). }
    destruct (Hkn k l Hk Hx) as (am1 & -> & [[_ _ _ [ev P]]|(-> & _)]).
    + exists ev. intros k' l' ka Hx' Hk' Hka. apply P; [|by eapply Hne].
      cbn. rewrite lookup_alter_ne; [done|]. by apply not_eq_sym, (Hne k').
    + exists None. intros k' l' ka Hx' Hk' Hka. exists ka. cbn.
      by rewrite lookup_alter_ne by (by apply not_eq_sym, (Hne k')).
Qed.

(** A manager that was told of one address. *)
Lemma one_address : exists am k l,
  AddAddress example_sha3 map_to_list 9 (fun _ => 0) (test_v4 x08 x08 x08 x08) (test_v4 x08 x08 x08 x08) (New [x01])
    = Some am /\ AddrInv example_sha3 nobody 0 am /\
  am_NetAddressKey example_sha3 (test_v4 x08 x08 x08 x08) = Some k /\ am_addrIndex am !! k = Some l.
Proof.
  destruct (updateAddress_spec example_sha3 map_to_list (fun m => reflexivity _) 9 (fun _ => 0)
    (test_v4 x08 x08 x08 x08) (test_v4 x08 x08 x08 x08) (New [x01]) (AddrManager_New_inv _ _)) as (am & E & Hr).
  change (IsRoutable (test_v4 x08 x08 x08 x08)) with true in Hr. destruct Hr as (k & Hk & [Hinv _ [l Hl] _]).
  exists am, k, l. split; [exact E|]. split; [exact Hinv|]. split; [exact Hk|exact Hl].
Qed.

Lemma Good_promotes_witness : exists am k l,
  AddrInv example_sha3 nobody 0 am /\ am_addrIndex am !! k = Some l /\
  exists am', Good example_sha3 10 (test_v4 x08 x08 x08 x08) am = Some am' /\
    AddrInv example_sha3 nobody 0 am' /\ am_addrIndex am' = am_addrIndex am /\
    (exists ka, am_heap am' !! l = Some ka /\ ka_tried ka = true) /\
    exists evicted, forall k' l' ka, am_addrIndex am !! k' = Some l' -> k' <> k -> am_heap am !! l' = Some ka ->
      exists ka', am_heap am' !! l' = Some ka' /\ ka_na ka' = ka_na ka /\
        ka_tried ka' = if bool_decide (evicted = Some l') then false else ka_tried ka.
Proof.
  destruct one_address as (am & k & l & _ & H & Hk & Hx). exists am, k, l. split; [exact H|]. split; [exact Hx|].
  apply (Good_promotes example_sha3 10 (test_v4 x08 x08 x08 x08) am k l H); [by eexists|exact Hk|exact Hx].
Defined.

(** an address that is added and routable is known afterwards, an address that is
    not routable changes nothing, and other addresses are forgotten only if they
    were in the bucket the new one goes to and that was full; tried ones never are. *)
Theorem AddAddress_known sha3_Sum256 range_order now draw addr src am :
  (forall m, Permutation (range_order m) (map_to_list m)) -> AddrInv sha3_Sum256 nobody 0 am ->
  exists am', AddAddress sha3_Sum256 range_order now draw addr src am = Some am' /\
    if IsRoutable addr
    then exists k, am_NetAddressKey sha3_Sum256 addr = Some k /\ added sha3_Sum256 addr src k am am'
    else am' = am.
Proof. intros Hr H. unfold AddAddress. by apply updateAddress_spec. Qed.

Lemma AddAddress_known_witness : exists am,
  AddAddress example_sha3 map_to_list 9 (fun _ => 0) (test_v4 x08 x08 x08 x08) (test_v6 "2001:470::1") (New [x01])
    = Some am /\
  exists k, am_NetAddressKey example_sha3 (test_v4 x08 x08 x08 x08) = Some k /\
    added example_sha3 (test_v4 x08 x08 x08 x08) (test_v6 "2001:470::1") k (New [x01]) am.
Proof.
  apply (AddAddress_known example_sha3 map_to_list 9 (fun _ => 0) (test_v4 x08 x08 x08 x08) (test_v6 "2001:470::1"));
    [intros m; reflexivity|apply AddrManager_New_inv].
Defined.

(** making room in a bucket removes exactly its bad entries and, of the others,
    the one seen longest ago; the comment has that one leave only "if no bad entries
    are available".  An entry that was in no other bucket is forgotten. *)
Theorem expireNew_removes sha3_Sum256 range_order now i b am :
  (forall m, Permutation (range_order m) (map_to_list m)) -> AddrInv sha3_Sum256 nobody 0 am ->
  am_addrNew am !! i = Some b ->
  exists am' b', expireNew sha3_Sum256 range_order now i am = Some am' /\
    AddrInv sha3_Sum256 nobody 0 am' /\ am_addrNew am' = <[i := b']> (am_addrNew am) /\
    (forall k, am_addrIndex am' !! k =
       if bool_decide (b' !! k <> b !! k /\ buckets_with k (am_addrNew am) = 1) then None
       else am_addrIndex am !! k) /\
    exists removed,
      (forall k, b' !! k = if is_bad now am b k || bool_decide (removed = Some k) then None else b !! k) /\
      match removed with
      | None => forall k, is_Some (b !! k) -> is_bad now am b k = true
      | Some k => is_Some (b !! k) /\ is_bad now am b k = false /\
          forall k', is_Some (b !! k') -> is_bad now am b k' = false -> last_seen am b k <= last_seen am b k'
      end.
Proof.
  intros Hr H Hi.
  destruct (expireNew_spec sha3_Sum256 range_order Hr now nobody 0 am i b H Hi) as (am' & b' & E & H' & Hsh & Hrem);
    [done|].
  exists am', b'. split_and!; [done|done|apply Hsh|apply Hsh|done].
Qed.

Lemma expireNew_removes_witness : exists am k b,
  AddrInv example_sha3 nobody 0 am /\ is_Some (am_addrIndex am !! k) /\ am_addrNew am !! 3%nat = Some b /\
  exists am' b', expireNew example_sha3 map_to_list 20 3 am = Some am' /\
    AddrInv example_sha3 nobody 0 am' /\ am_addrNew am' = <[3%nat := b']> (am_addrNew am) /\
    (forall k, am_addrIndex am' !! k =
       if bool_decide (b' !! k <> b !! k /\ buckets_with k (am_addrNew am) = 1) then None
       else am_addrIndex am !! k) /\
    exists removed,
      (forall k, b' !! k = if is_bad 20 am b k || bool_decide (removed = Some k) then None else b !! k) /\
      match removed with
      | None => forall k, is_Some (b !! k) -> is_bad 20 am b k = true
      | Some k => is_Some (b !! k) /\ is_bad 20 am b k = false /\
          forall k', is_Some (b !! k') -> is_bad 20 am b k' = false -> last_seen am b k <= last_seen am b k'
      end.
Proof.
  destruct one_address as (am & k & l & _ & H & Hk & Hx).
  destruct (lookup_lt_is_Some_2 (am_addrNew am) 3) as [b Hb].
  { destruct (ai_buckets _ _ _ _ H) as [-> _]. lia. }
  exists am, k, b. split; [exact H|]. split; [by exists l|]. split; [exact Hb|].
  apply (expireNew_removes example_sha3 map_to_list 20 3 b am); [intros m; reflexivity|exact H|exact Hb].
Defined.

(** ** How full a bucket gets *)

Lemma updateAddress_room sha3_Sum256 range_order now draw na src k b am :
  AddrInv sha3_Sum256 nobody 0 am -> IsRoutable na = true -> am_NetAddressKey sha3_Sum256 na = Some k ->
  am_addrIndex am !! k = None -> am_addrNew am !! getNewBucket am na src = Some b ->
  Z.of_nat (size b) <= newBucketSize ->
  exists am', updateAddress sha3_Sum256 range_order now draw na src am = Some am' /\
    am_key am' = am_key am /\ (forall k', k' <> k -> am_addrIndex am' !! k' = am_addrIndex am !! k') /\
    exists b', am_addrNew am' !! getNewBucket am na src = Some b' /\ size b' = S (size b).
Proof.
  intros H Hr Hk Hx Hb Hsz. unfold updateAddress. rewrite Hr, Hk. cbn [negb mbind option_bind]. rewrite Hx.
  unfold am_alloc. cbv zeta. cbv iota. unfold add_to_bucket.
  set (am1 := am_with_counts _ _ _). change (getNewBucket am1 na src) with (getNewBucket am na src).
  change (am_addrNew am1) with (am_addrNew am). rewrite Hb. cbn [mbind option_bind].
  assert (Hbk : b !! k = None).
  { destruct (b !! k) as [l|] eqn:E; [|done]. pose proof (ai_new _ _ _ _ H _ _ _ _ Hb E). congruence. }
  rewrite bool_decide_eq_false_2 by (rewrite Hbk; by intros [? ?]).
  destruct (Z.ltb_spec newBucketSize (Z.of_nat (size b))); [lia|]. cbn [mbind option_bind].
  assert (Hka : am_heap am1 !! am_next am = Some (mkKnownAddress na src 0 zeroTime zeroTime false 0))
    by (cbn; by rewrite lookup_insert_eq).
  rewrite Hka. cbn [mbind option_bind]. eexists. split; [reflexivity|]. split; [done|]. split.
  - intros k' Hne. cbn. by rewrite lookup_insert_ne.
  - exists (<[k := am_next am]> b). split; [|by rewrite map_size_insert_None].
    cbn. by rewrite list_lookup_alter_eq, Hb.
Qed.

(** New addresses of one group, told of by one peer, all go to the same bucket. *)
Lemma AddAddresses_fill sha3_Sum256 range_order now src g i nas : forall draws am ks b,
  (forall m, Permutation (range_order m) (map_to_list m)) ->
  AddrInv sha3_Sum256 nobody 0 am ->
  Forall (fun na => IsRoutable na = true /\ GroupKey na = g) nas ->
  mapM (am_NetAddressKey sha3_Sum256) nas = Some ks -> NoDup ks ->
  (forall k, k ∈ ks -> am_addrIndex am !! k = None) ->
  (forall na, na ∈ nas -> getNewBucket am na src = i) -> am_addrNew am !! i = Some b ->
  Z.of_nat (size b + length nas) <= newBucketSize + 1 ->
  exists am' b', AddAddresses sha3_Sum256 range_order now draws nas src am = Some am' /\
    am_addrNew am' !! i = Some b' /\ size b' = (size b + length nas)%nat.
Proof.
  induction nas as [|na nas IH]; intros draws am ks b Hr H Hna Hks Hnd Hx Hi Hb Hsz.
  { exists am, b. rewrite Nat.add_0_r. by split_and!. }
  apply list.Forall_cons in Hna as [[Hroute Hg] Hna]. cbn [length] in Hsz.
  cbn [mapM] in Hks. apply bind_Some in Hks as (k & Hk & Hks). apply bind_Some in Hks as (ks' & Hks & [= <-]).
  apply list.NoDup_cons in Hnd as [Hnin Hnd].
  pose proof (Hi na (list_elem_of_here _ _)) as Hi0. rewrite <- Hi0 in Hb.
  destruct (updateAddress_room sha3_Sum256 range_order now (draws 0%nat) na src k b am H Hroute Hk
    (Hx k (list_elem_of_here _ _)) Hb ltac:(lia)) as (am1 & E & Ekey & Eidx & b1 & Hb1 & Es).
  cbn [AddAddresses]. rewrite E. cbn [mbind option_bind].
  destruct (updateAddress_spec sha3_Sum256 range_order Hr now (draws 0%nat) na src am H) as (am1' & E' & Ha).
  rewrite Hroute in Ha. destruct Ha as (k' & _ & [H1 _ _ _]). assert (am1' = am1) as -> by congruence.
  rewrite Hi0 in Hb1.
  destruct (IH (fun n => draws (S n)) am1 ks' b1) as (am' & b' & E2 & Hb' & Es'); try done.
  - intros k0 Hk0. rewrite Eidx; [apply Hx; by right|]. by intros ->.
  - intros na' Hin. rewrite <- (Hi na'); [|by right]. unfold getNewBucket. by rewrite Ekey.
  - lia.
  - exists am', b'. split_and!; [done|done|]. rewrite Es', Es. cbn [length]. lia.
Qed.

(** 65 addresses of one /16. *)
Definition crowd : list NetAddressV2 :=
  map (fun n => mkNetAddressV2 9 1 (Some (ipv4Addr [x08; x08; x01; z2b (Z.of_nat n)])) 8333) (seq 1 65).

Definition crowd_keys : list addr_key :=
  Eval vm_compute in default [] (mapM (am_NetAddressKey example_sha3) crowd).

Lemma crowd_keys_eq sha3_Sum256 : mapM (am_NetAddressKey sha3_Sum256) crowd = Some crowd_keys.
Proof. vm_compute. reflexivity. Qed.

Lemma crowd_keys_nodup : NoDup crowd_keys.
Proof.
  assert (H : bool_decide (NoDup crowd_keys) = true) by (vm_compute; reflexivity).
  by apply bool_decide_eq_true in H.
Qed.

(** a bucket holds 65 new addresses, although [newBucketSize] "is the maximum
    number of addresses in each new address bucket" and is 64: the test for room asks
    whether there are more.  65 addresses of one network, told of by one peer, do it
    for every key. *)
Theorem new_bucket_holds_65 sha3_Sum256 range_order now draws key src :
  (forall m, Permutation (range_order m) (map_to_list m)) ->
  exists am b, AddAddresses sha3_Sum256 range_order now draws crowd src (New key) = Some am /\
    am_addrNew am !! getNewBucket (New key) (test_v4 x08 x08 x01 x01) src = Some b /\ size b = 65%nat.
Proof.
  intros Hr. set (i := getNewBucket (New key) (test_v4 x08 x08 x01 x01) src).
  pose proof (crowd_keys_eq sha3_Sum256) as Hks. pose proof crowd_keys_nodup as Hnd.
  assert (Hgroup : forall na, na ∈ crowd -> IsRoutable na = true /\ GroupKey na = GroupKey (test_v4 x08 x08 x01 x01)).
  { assert (Hall : forallb (fun na => IsRoutable na && bool_decide (GroupKey na = GroupKey (test_v4 x08 x08 x01 x01))) crowd = true)
      by (vm_compute; reflexivity).
    rewrite forallb_forall in Hall. intros na Hin. apply list_elem_of_In in Hin. apply Hall in Hin.
    apply andb_prop in Hin as [H1 H2]. by apply bool_decide_eq_true in H2. }
  destruct (AddAddresses_fill sha3_Sum256 range_order now src (GroupKey (test_v4 x08 x08 x01 x01)) i crowd
    draws (New key) crowd_keys ∅) as (am & b & E & Hb & Hs).
  - exact Hr.
  - apply AddrManager_New_inv.
  - apply list.Forall_forall. intros na Hin. by apply Hgroup.
  - exact Hks.
  - exact Hnd.
  - intros k _. apply lookup_empty.
  - intros na Hin. unfold i, getNewBucket. by destruct (Hgroup na Hin) as [_ ->].
  - pose proof (getNewBucket_range (New key) (test_v4 x08 x08 x01 x01) src). cbn [New reset am_addrNew].
    apply lookup_replicate. split; [done|]. unfold newBucketCount. fold i in H. lia.
  - rewrite map_size_empty. vm_compute. discriminate.
  - exists am, b. split; [exact E|]. split; [exact Hb|]. rewrite Hs, map_size_empty. reflexivity.
Qed.

Lemma new_bucket_holds_65_witness :
  exists am b, AddAddresses example_sha3 map_to_list 9 (fun _ _ => 0) crowd (test_v6 "2001:470::1") (New [x01]) = Some am /\
    am_addrNew am !! getNewBucket (New [x01]) (test_v4 x08 x08 x01 x01) (test_v6 "2001:470::1") = Some b /\ size b = 65%nat.
Proof. apply new_bucket_holds_65. intros m. reflexivity. Defined.

(** ** Sharing addresses *)

Lemma delete_same {A} (xs : list A) i y : delete i (<[i := y]> xs) = delete i xs.
Proof. revert i. induction xs as [|x xs IH]; intros [|i]; [done..|]. cbn. f_equal. exact (IH i). Qed.

Lemma insert_Permutation {A} (xs : list A) i x y :
  xs !! i = Some x -> x :: <[i := y]> xs ≡ₚ y :: xs.
Proof.
  intros Hi. pose proof (lookup_lt_Some _ _ _ Hi) as Hlt.
  assert (Hy : <[i := y]> xs !! i = Some y) by (by apply list_lookup_insert_eq).
  rewrite (delete_Permutation _ _ _ Hy), delete_same. rewrite (delete_Permutation xs i x Hi) at 2.
  apply Permutation_swap.
Qed.

Lemma swap_at_Permutation {A} i j (xs : list A) :
  (i < length xs)%nat -> (j < length xs)%nat -> exists ys, swap_at i j xs = Some ys /\ ys ≡ₚ xs.
Proof.
  intros Hi Hj. destruct (lookup_lt_is_Some_2 _ _ Hi) as [x Hx]. destruct (lookup_lt_is_Some_2 _ _ Hj) as [y Hy].
  unfold swap_at. rewrite Hx, Hy. cbn [mbind option_bind]. eexists. split; [reflexivity|].
  destruct (decide (i = j)) as [->|Hne].
  - assert (x = y) as -> by congruence. rewrite list_insert_id; by rewrite list_insert_id.
  - assert (Hyz : <[i := y]> xs !! j = Some y) by (by rewrite list_lookup_insert_ne).
    pose proof (insert_Permutation _ j y x Hyz) as H1. pose proof (insert_Permutation _ i x y Hx) as H2.
    apply (Permutation_cons_inv (a := y)). rewrite H1. by rewrite H2.
Qed.

Lemma shuffle_Permutation {A} draws turns : forall i (xs : list A),
  (forall i n, 0 < n -> 0 <= draws i n < n) -> (i + turns <= length xs)%nat ->
  exists ys, shuffle draws turns i xs = Some ys /\ ys ≡ₚ xs.
Proof.
  induction turns as [|turns IH]; intros i xs Hd Hlen; [by exists xs|]. cbn [shuffle].
  pose proof (Hd i (Z.of_nat (length xs) - Z.of_nat i) ltac:(lia)) as Hr.
  destruct (swap_at_Permutation i (Z.to_nat (draws i (Z.of_nat (length xs) - Z.of_nat i) + Z.of_nat i)) xs)
    as (ys & -> & Hp); [lia|lia|]. cbn [mbind option_bind].
  destruct (IH (S i) ys Hd) as (zs & -> & Hq); [rewrite Hp; lia|]. exists zs. split; [done|]. by rewrite Hq.
Qed.

(** [AddressCache] shares 23 percent of the known addresses, but no more than 2500,
    and no known address twice: what it returns and some rest are together what is
    known, whatever the order of the index and the random numbers. *)
Theorem AddressCache_sample sha3_Sum256 range_order draws am :
  (forall m, Permutation (range_order m) (map_to_list m)) -> AddrInv sha3_Sum256 nobody 0 am ->
  (forall i n, 0 < n -> 0 <= draws i n < n) ->
  exists all shared rest, getAddresses range_order am = Some all /\
    len all = numAddresses am /\
    (forall na, na ∈ all <-> exists k l ka,
       am_addrIndex am !! k = Some l /\ am_heap am !! l = Some ka /\ ka_na ka = na) /\
    AddressCache range_order draws am = Some shared /\ all ≡ₚ shared ++ rest /\
    len shared = Z.min (numAddresses am * 23 / 100) 2500.
Proof.
  intros Hr H Hd.
  assert (Hall : exists all, getAddresses range_order am = Some all /\ len all = numAddresses am /\
    forall na, na ∈ all <-> exists k l ka,
       am_addrIndex am !! k = Some l /\ am_heap am !! l = Some ka /\ ka_na ka = na).
  { unfold getAddresses.
    destruct (mapM_is_Some_2 (fun e : addr_key * nat => ka_na <$> am_heap am !! snd e)
      (range_order (am_addrIndex am))) as [all Hall].
    { apply list.Forall_forall. intros [k l] Hin. rewrite Hr in Hin. apply elem_of_map_to_list in Hin.
      destruct (ai_index _ _ _ _ H _ _ Hin) as (ka & Hka & _). cbn. by rewrite Hka. }
    exists all. split; [done|]. apply mapM_Some in Hall. split.
    - assert (Hl : length (range_order (am_addrIndex am)) = length all) by (by eapply Forall2_length).
      unfold len. rewrite <- Hl, Hr, length_map_to_list.
      unfold numAddresses. pose proof (ai_total _ _ _ _ H). lia.
    - intros na. split.
      + intros Hin. apply list_elem_of_lookup in Hin as [i Hi].
        destruct (Forall2_lookup_r _ _ _ _ _ Hall Hi) as ([k l] & He & Hka). cbn in Hka.
        destruct (am_heap am !! l) as [ka|] eqn:E; [|done]. injection Hka as <-.
        apply list_elem_of_lookup_2 in He. rewrite Hr in He. apply elem_of_map_to_list in He. by exists k, l, ka.
      + intros (k & l & ka & Hx & Hka & <-). apply elem_of_map_to_list in Hx. rewrite <- Hr in Hx.
        apply list_elem_of_lookup in Hx as [i Hi].
        destruct (Forall2_lookup_l _ _ _ _ _ Hall Hi) as (na & He & Hna). cbn in Hna.
        rewrite Hka in Hna. injection Hna as <-. by eapply list_elem_of_lookup_2. }
  destruct Hall as (all & Ea & Hlen & Hel).
  set (n := Z.to_nat (Z.min (len all * getAddrPercent / 100) getAddrMax)).
  assert (Hn : (n <= length all)%nat).
  { unfold n, getAddrPercent, getAddrMax, len. Z.to_euclidean_division_equations. lia. }
  destruct (shuffle_Permutation draws n 0 all Hd) as (ys & Ey & Hp); [lia|].
  exists all, (take n ys), (drop n ys). split_and!; [done|done|done| | |].
  - unfold AddressCache. rewrite Ea. cbn [mbind option_bind]. fold n. by rewrite Ey.
  - by rewrite take_drop.
  - unfold len at 1. rewrite length_take, Hp, Nat.min_l by done. unfold n, getAddrPercent, getAddrMax.
    rewrite Hlen. pose proof (len_nonneg all) as H0. rewrite Hlen in H0.
    rewrite Z2Nat.id; [done|]. Z.to_euclidean_division_equations. lia.
Qed.

Lemma AddressCache_sample_witness : exists am,
  AddrInv example_sha3 nobody 0 am /\ (exists k l, am_addrIndex am !! k = Some l) /\
  exists all shared rest, getAddresses map_to_list am = Some all /\ len all = numAddresses am /\
    (forall na, na ∈ all <-> exists k l ka,
       am_addrIndex am !! k = Some l /\ am_heap am !! l = Some ka /\ ka_na ka = na) /\
    AddressCache map_to_list (fun _ n => n - 1) am = Some shared /\ all ≡ₚ shared ++ rest /\
    len shared = Z.min (numAddresses am * 23 / 100) 2500.
Proof.
  destruct one_address as (am & k & l & _ & H & Hk & Hx). exists am. split; [exact H|]. split; [by exists k, l|].
  apply (AddressCache_sample example_sha3 map_to_list (fun _ n => n - 1) am); [intros m; reflexivity|exact H|].
  intros i n Hn. lia.
Defined.

(** ** Announcements *)

(** "the latest last-seen time" of a known address is not kept: an announcement
    with an older time that claims a service not known before takes the clock of the
    address back.  Here for a tried address: whatever its time was, it has then the
    time of the announcement, of which [isBad] and the choice of what to evict
    depend. *)
Theorem announcement_rewinds sha3_Sum256 range_order now draw na src am k l ka :
  IsRoutable na = true -> am_NetAddressKey sha3_Sum256 na = Some k ->
  am_addrIndex am !! k = Some l -> am_heap am !! l = Some ka -> ka_tried ka = true ->
  Z.land (NA2_Services (ka_na ka)) (NA2_Services na) <> NA2_Services na ->
  exists am' ka', updateAddress sha3_Sum256 range_order now draw na src am = Some am' /\
    am_heap am' !! l = Some ka' /\ NA2_Timestamp (ka_na ka') = NA2_Timestamp na.
Proof.
  intros Hr Hk Hx Hka Ht Hs. unfold updateAddress. rewrite Hr, Hk. cbn [negb mbind option_bind].
  rewrite Hx, Hka. cbn [mbind option_bind]. rewrite Ht.
  rewrite (proj2 (Z.eqb_neq _ _) Hs), orb_true_r. eexists _, _. split; [reflexivity|]. cbn.
  rewrite lookup_alter_eq, Hka. by split.
Qed.

Lemma announcement_rewinds_witness :
  let na := mkNetAddressV2 3 9 (Some (ipv4Addr [x08; x08; x08; x08])) 8333 in
  let ka := mkKnownAddress (test_v4 x08 x08 x08 x08) na 0 5 5 true 0 in
  let am := mkAddrManager [] {[0%nat := ka]} 1 {[bytes_of "8.8.8.8:8333" := 0%nat]} [] [] 1 0 ∅ 2 in
  exists am' ka', updateAddress example_sha3 map_to_list 9 (fun _ => 0) na na am = Some am' /\
    am_heap am' !! 0%nat = Some ka' /\ NA2_Timestamp (ka_na ka') = 3.
Proof.
  apply (announcement_rewinds example_sha3 map_to_list 9 (fun _ => 0)
    (mkNetAddressV2 3 9 (Some (ipv4Addr [x08; x08; x08; x08])) 8333)
    (mkNetAddressV2 3 9 (Some (ipv4Addr [x08; x08; x08; x08])) 8333) _ (bytes_of "8.8.8.8:8333") 0
    (mkKnownAddress (test_v4 x08 x08 x08 x08)
       (mkNetAddressV2 3 9 (Some (ipv4Addr [x08; x08; x08; x08])) 8333) 0 5 5 true 0));
    try reflexivity. vm_compute. discriminate.
Defined.

(** [AddAddressByIP] takes a port that does not fit 16 bits, and adds the address
    with its remainder. *)
Theorem AddAddressByIP_wraps sha3_Sum256 range_order now draw am :
  (forall m, Permutation (range_order m) (map_to_list m)) -> AddrInv sha3_Sum256 nobody 0 am ->
  exists am', AddAddressByIP sha3_Sum256 range_order now draw (bytes_of "8.8.8.8:73869") am = Some (true, am') /\
    is_Some (am_addrIndex am' !! bytes_of "8.8.8.8:8333").
Proof.
  intros Hr H. unfold AddAddressByIP.
  change (SplitHostPort (bytes_of "8.8.8.8:73869")) with (Some (bytes_of "8.8.8.8", bytes_of "73869")).
  cbv iota beta.
  change (ParseIP (bytes_of "8.8.8.8")) with (Some (IPv4 x08 x08 x08 x08)). cbv iota beta.
  change (ParseUint 64 (bytes_of "73869")) with (Some 73869). cbv iota zeta.
  set (na := NetAddressV2FromBytes now 0 (IPv4 x08 x08 x08 x08) (wrap_u16 73869)).
  destruct (updateAddress_spec sha3_Sum256 range_order Hr now draw na na am H) as (am' & E & Ha).
  unfold AddAddress. rewrite E. cbn [mbind option_bind]. exists am'. split; [done|].
  change (IsRoutable na) with true in Ha. destruct Ha as (k & Hk & [_ _ Hkn _]).
  change (am_NetAddressKey sha3_Sum256 na) with (Some (bytes_of "8.8.8.8:8333")) in Hk. by injection Hk as ->.
Qed.

Lemma AddAddressByIP_wraps_witness :
  exists am', AddAddressByIP example_sha3 map_to_list 9 (fun _ => 0) (bytes_of "8.8.8.8:73869") (New [x01])
      = Some (true, am') /\
    is_Some (am_addrIndex am' !! bytes_of "8.8.8.8:8333").
Proof. apply AddAddressByIP_wraps; [intros m; reflexivity|apply AddrManager_New_inv]. Defined.
