(* ===== verification/AddrPeers.v ===== *)
(** * addrmgr: the file of peers

    [savePeers], [deserializePeers] and [loadPeers].  The JSON text is left out: a
    file holds the value its text stands for, or a text that is refused.  Reading
    gives each address the time of the reading ([now]).  The order in which maps are
    walked is [range_order], as in [AddrManager]; the look-up of host names is a
    parameter. *)

From Stdlib Require Import ZArith Lia.
From S2P Require Import Prelude WireCommon ChainHash WireNet NetText AddrNetwork AddrManager AddrLocal AddrLaws.
Open Scope Z_scope.

Record serializedKnownAddress : Type := mkSerializedKnownAddress {
  ska_Addr : list byte;
  ska_Src : list byte;
  ska_Attempts : Z;
  ska_TimeStamp : Z;
  ska_LastAttempt : Z;
  ska_LastSuccess : Z;
  ska_Services : Z;
  ska_SrcServices : Z;
}.

Record serializedAddrManager : Type := mkSerializedAddrManager {
  sam_Version : Z;
  sam_Key : list byte;
  sam_Addresses : list serializedKnownAddress;
  sam_NewBuckets : list (list (list byte));
  sam_TriedBuckets : list (list (list byte));
}.

Section Peers.
Context (sha3_Sum256 : list byte -> list byte)
        (range_order : gmap addr_key nat -> list (addr_key * nat))
        (lookupFunc : list byte -> option (list (list byte))).

Local Abbreviation Key := (am_NetAddressKey sha3_Sum256).

(** ** Saving *)

(** The services are left out of a file of the first version. *)
Definition serialize_known (am : AddrManager) (e : addr_key * nat) : option serializedKnownAddress :=
  v ← am_heap am !! snd e;
  src ← Key (ka_srcAddr v);
  let with_services := 1 <? am_version am in
  Some (mkSerializedKnownAddress (fst e) src (ka_attempts v) (NA2_Timestamp (ka_na v))
    (ka_lastattempt v) (ka_lastsuccess v)
    (if with_services then NA2_Services (ka_na v) else 0)
    (if with_services then NA2_Services (ka_srcAddr v) else 0)).

Definition serialize_tried (am : AddrManager) (l : nat) : option (list byte) :=
  ka ← am_heap am !! l; Key (ka_na ka).

(** What [savePeers] writes. *)
Definition savePeers (am : AddrManager) : option serializedAddrManager :=
  addresses ← mapM (serialize_known am) (range_order (am_addrIndex am));
  tried ← mapM (mapM (serialize_tried am)) (am_addrTried am);
  Some (mkSerializedAddrManager (am_version am) (am_key am) addresses
    (map (fun b => map fst (range_order b)) (am_addrNew am)) tried).

(** ** Loading *)

(** [false] is an error, which leaves what was done; [None] is a panic. *)
Local Abbreviation loaded := (option (bool * AddrManager)).

Fixpoint load_addresses (now : Z) (version : Z) (vs : list serializedKnownAddress)
    (am : AddrManager) : loaded :=
  match vs with
  | [] => Some (true, am)
  | v :: vs =>
      let services := if version =? 1 then SFNodeNetwork else ska_Services v in
      match DeserializeNetAddress lookupFunc now (ska_Addr v) services with
      | None => Some (false, am)
      | Some na =>
          let srcServices := if version =? 1 then SFNodeNetwork else ska_SrcServices v in
          match DeserializeNetAddress lookupFunc now (ska_Src v) srcServices with
          | None => Some (false, am)
          | Some src =>
              let '(l, am) := am_alloc (mkKnownAddress na src (ska_Attempts v) (ska_LastAttempt v)
                (ska_LastSuccess v) false 0) am in
              k ← Key na;
              load_addresses now version vs (am_with_index (<[k := l]> (am_addrIndex am)) am)
          end
      end
  end.

(** The names of one bucket of new addresses. *)
Fixpoint load_new_bucket (i : nat) (vals : list (list byte)) (am : AddrManager) : loaded :=
  match vals with
  | [] => Some (true, am)
  | val :: vals =>
      match am_addrIndex am !! val with
      | None => Some (false, am)
      | Some l =>
          ka ← am_heap am !! l;
          let am := if ka_refs ka =? 0 then am_with_counts (am_nTried am) (am_nNew am + 1) am else am in
          let am := am_update l (ka_with_refs (ka_refs ka + 1)) am in
          load_new_bucket i vals (am_new_insert i val l am)
      end
  end.

Fixpoint load_tried_bucket (i : nat) (vals : list (list byte)) (am : AddrManager) : loaded :=
  match vals with
  | [] => Some (true, am)
  | val :: vals =>
      match am_addrIndex am !! val with
      | None => Some (false, am)
      | Some l =>
          let am := am_update l (ka_with_tried true) am in
          let am := am_with_counts (am_nTried am + 1) (am_nNew am) am in
          load_tried_bucket i vals
            (am_with_tried (alter (fun t => t ++ [l]) i (am_addrTried am)) am)
      end
  end.

(** The loops over the buckets, from the number [i] on; they stop at the first error. *)
Fixpoint load_buckets (load : nat -> list (list byte) -> AddrManager -> loaded) (i : nat)
    (bss : list (list (list byte))) (am : AddrManager) : loaded :=
  match bss with
  | [] => Some (true, am)
  | vals :: bss =>
      r ← load i vals am;
      let '(ok, am) := r in
      if (ok : bool) then load_buckets load (S i) bss am else Some (ok, am)
  end.

(** An address must be new or tried, not both. *)
Definition sane (am : AddrManager) (e : addr_key * nat) : bool :=
  match am_heap am !! snd e with
  | Some v => negb ((ka_refs v =? 0) && negb (ka_tried v)) && negb ((0 <? ka_refs v) && ka_tried v)
  | None => false
  end.

Definition deserializePeers (now : Z) (sam : serializedAddrManager) (am : AddrManager) : loaded :=
  if serialisationVersion <? sam_Version sam then Some (false, am)
  else
    let am := mkAddrManager (sam_Key sam) (am_heap am) (am_next am) (am_addrIndex am) (am_addrNew am)
      (am_addrTried am) (am_nTried am) (am_nNew am) (am_localAddresses am) (am_version am) in
    r ← load_addresses now (sam_Version sam) (sam_Addresses sam) am;
    let '(ok, am) := r in
    if negb ok then Some (false, am)
    else
      r ← load_buckets load_new_bucket 0 (sam_NewBuckets sam) am;
      let '(ok, am) := r in
      if negb ok then Some (false, am)
      else
        r ← load_buckets load_tried_bucket 0 (sam_TriedBuckets sam) am;
        let '(ok, am) := r in
        if negb ok then Some (false, am)
        else Some (forallb (sane am) (range_order (am_addrIndex am)), am).

(** What is found at [peersFile]. *)
Inductive peers_file : Type :=
| NoFile
| Refused
| Saved (sam : serializedAddrManager).

(** [loadPeers]: a file that is refused is removed, and the manager is reset, with the
    key [fresh]. *)
Definition loadPeers (now : Z) (fresh : list byte) (file : peers_file) (am : AddrManager)
    : option (peers_file * AddrManager) :=
  match file with
  | NoFile => Some (NoFile, am)
  | Refused => Some (NoFile, reset fresh am)
  | Saved sam =>
      r ← deserializePeers now sam am;
      let '(ok, am) := r in
      if (ok : bool) then Some (file, am) else Some (NoFile, reset fresh am)
  end.
End Peers.
