(* ===== verification/AddrRestart.v ===== *)
(** * addrmgr: what a restart keeps

    Saving the peers and loading the file gives back the same addresses, in the same
    buckets and lists, with the same references and counts; only the times at which
    the addresses were seen are those of the loading. *)

From Stdlib Require Import ZArith Lia.
From S2P Require Import Prelude WireCommon ChainHash WireNet NetText AddrNetwork AddrManager AddrLocal AddrLaws AddrPeers.
Open Scope Z_scope.


Section Restart.
Context (sha3_Sum256 : list byte -> list byte)
        (range_order : gmap addr_key nat -> list (addr_key * nat))
        (lookupFunc : list byte -> option (list (list byte))).
Hypothesis range_perm : forall m, Permutation (range_order m) (map_to_list m).
Hypothesis sha3_size : forall x, length (sha3_Sum256 x) = 32%nat.

Local Abbreviation Key := (am_NetAddressKey sha3_Sum256).

(** The manager that was saved, and the time of loading. *)
Context (am : AddrManager) (now : Z).
Hypothesis H : AddrInv sha3_Sum256 nobody 0 am.
Hypothesis Hversion : am_version am = serialisationVersion.
Hypothesis Hvalid : forall k l ka, am_addrIndex am !! k = Some l -> am_heap am !! l = Some ka ->
  addr_ok (ka_na ka) /\ addr_ok (ka_srcAddr ka).

Definition at_time (t : Z) (na : NetAddressV2) : NetAddressV2 :=
  mkNetAddressV2 t (NA2_Services na) (NA2_Addr na) (NA2_Port na).

(** A known address as it is read back, but for references and tries. *)
Definition reread (ka ka' : KnownAddress) : Prop :=
  ka_na ka' = at_time now (ka_na ka) /\ ka_srcAddr ka' = at_time now (ka_srcAddr ka) /\
  ka_attempts ka' = ka_attempts ka /\ ka_lastattempt ka' = ka_lastattempt ka /\
  ka_lastsuccess ka' = ka_lastsuccess ka.

(** The loading so far: the addresses in [pending] are in no bucket and no list. *)
Record loading (ks : gset addr_key) (pending : gset addr_key) (am' : AddrManager) : Prop := mkLoading {
  ld_inv : AddrInv sha3_Sum256 (fun k => k ∈ pending) (Z.of_nat (size pending)) am';
  ld_pending : forall k, k ∈ pending -> exists l ka, am_addrIndex am' !! k = Some l /\
    am_heap am' !! l = Some ka /\ ka_refs ka = 0 /\ ka_tried ka = false;
  ld_index : forall k, is_Some (am_addrIndex am' !! k) <-> k ∈ ks;
  ld_reread : forall k l ka, k ∈ ks -> am_addrIndex am !! k = Some l -> am_heap am !! l = Some ka ->
    exists l' ka', am_addrIndex am' !! k = Some l' /\ am_heap am' !! l' = Some ka' /\ reread ka ka';
}.

Lemma elem_of_added (k k' : addr_key) (ks : gset addr_key) : k' ∈ {[k]} ∪ ks <-> k' = k \/ k' ∈ ks.
Proof. by rewrite elem_of_union, elem_of_singleton. Qed.

Lemma size_added (k : addr_key) (ks : gset addr_key) :
  k ∉ ks -> Z.of_nat (size ({[k]} ∪ ks)) = Z.of_nat (size ks) + 1.
Proof. intros Hk. rewrite size_union by set_solver. rewrite size_singleton. lia. Qed.

Lemma Key_at_time t na : Key (at_time t na) = Key na.
Proof. done. Qed.

(** ** The addresses *)

Lemma serialize_known_ok k l :
  am_addrIndex am !! k = Some l -> exists ka v src, am_heap am !! l = Some ka /\
    serialize_known sha3_Sum256 am (k, l) = Some v /\ Key (ka_srcAddr ka) = Some src /\
    v = mkSerializedKnownAddress k src (ka_attempts ka) (NA2_Timestamp (ka_na ka))
      (ka_lastattempt ka) (ka_lastsuccess ka) (NA2_Services (ka_na ka)) (NA2_Services (ka_srcAddr ka)).
Proof.
  intros Hx. destruct (ai_index _ _ _ _ H _ _ Hx) as (ka & Hka & Ho).
  destruct (Hvalid _ _ _ Hx Hka) as [_ (_ & a & Ha & _)].
  destruct (Key_network sha3_Sum256 (ka_srcAddr ka)) as [src Hsrc]; [by exists a|].
  exists ka. eexists _, src. split; [done|]. split; [|by split].
  unfold serialize_known. cbn [fst snd]. rewrite Hka. cbn [mbind option_bind]. rewrite Hsrc.
  cbn [mbind option_bind]. rewrite Hversion. reflexivity.
Qed.

Lemma load_address ks am' k l ka vs :
  loading ks ks am' -> am_addrIndex am !! k = Some l -> am_heap am !! l = Some ka -> k ∉ ks ->
  exists v am1, serialize_known sha3_Sum256 am (k, l) = Some v /\
    load_addresses sha3_Sum256 lookupFunc now serialisationVersion (v :: vs) am' =
    load_addresses sha3_Sum256 lookupFunc now serialisationVersion vs am1 /\
    loading ({[k]} ∪ ks) ({[k]} ∪ ks) am1 /\ am_key am1 = am_key am' /\
    am_addrNew am1 = am_addrNew am' /\ am_addrTried am1 = am_addrTried am'.
Proof.
  intros [L1 L2 L3 L4] Hx Hka Hk.
  destruct (serialize_known_ok k l Hx) as (ka0 & v & src & Hka0 & Hv & Hsrc & Ev).
  assert (ka0 = ka) as -> by congruence. destruct (Hvalid _ _ _ Hx Hka) as [Hna Hsna].
  destruct (ai_index _ _ _ _ H _ _ Hx) as (ka0 & E0 & Ho). assert (ka0 = ka) as -> by congruence.
  pose proof (DeserializeNetAddress_Key sha3_Sum256 sha3_size lookupFunc now _ k (NA2_Services (ka_na ka)) Hna
    (ko_key _ _ _ _ _ Ho)) as D1.
  pose proof (DeserializeNetAddress_Key sha3_Sum256 sha3_size lookupFunc now _ src (NA2_Services (ka_srcAddr ka))
    Hsna Hsrc) as D2.
  assert (Hnone : am_addrIndex am' !! k = None).
  { destruct (am_addrIndex am' !! k) eqn:E; [|done]. destruct Hk. apply L3. by eexists. }
  set (ka' := mkKnownAddress (at_time now (ka_na ka)) (at_time now (ka_srcAddr ka)) (ka_attempts ka)
    (ka_lastattempt ka) (ka_lastsuccess ka) false 0).
  pose proof (alloc_inv sha3_Sum256 _ (fun k' => k' ∈ ({[k]} ∪ ks : gset addr_key)) _ am' k ka' L1
    (fun k' Hk' => proj2 (elem_of_added k k' ks) (or_intror Hk'))
    (proj2 (elem_of_added k k ks) (or_introl eq_refl)) Hnone (ko_key _ _ _ _ _ Ho) eq_refl eq_refl) as Hinv.
  unfold am_alloc in Hinv. cbv iota zeta in Hinv.
  rewrite <- (size_added k ks) in Hinv by done. subst v. eexists _, _. split; [done|]. split.
  { cbn [load_addresses ska_Services ska_SrcServices ska_Addr ska_Src ska_Attempts ska_LastAttempt ska_LastSuccess].
    change (serialisationVersion =? 1) with false. cbv iota.
    rewrite D1, D2. unfold am_alloc. cbv iota zeta.
    change (Key _) with (Key (ka_na ka)) at 1. rewrite (ko_key _ _ _ _ _ Ho). reflexivity. }
  split; [|by split_and!]. split; [exact Hinv| | |].
  - intros k' Hk'. cbn. rewrite elem_of_added in Hk'. destruct (decide (k' = k)) as [->|Hne].
    + exists (am_next am'), ka'. by rewrite !lookup_insert_eq.
    + destruct (L2 k') as (l' & ka1 & E1 & E2 & E3); [tauto|]. exists l', ka1.
      rewrite lookup_insert_ne by done. split; [done|]. rewrite lookup_insert_ne; [done|].
      intros <-. rewrite (ai_fresh _ _ _ _ L1) in E2 by lia. done.
  - intros k'. cbn. rewrite elem_of_added. destruct (decide (k' = k)) as [->|Hne].
    + rewrite lookup_insert_eq. split; [by left|by eexists].
    + rewrite lookup_insert_ne, L3 by done. tauto.
  - intros k' l' ka1 Hk' E1 E2. cbn. rewrite elem_of_added in Hk'. destruct (decide (k' = k)) as [->|Hne].
    + exists (am_next am'), ka'. rewrite !lookup_insert_eq. split_and!; [done..|].
      assert (l' = l) as -> by congruence. assert (ka1 = ka) as -> by congruence. by split_and!.
    + destruct (L4 k' l' ka1) as (l2 & ka2 & F1 & F2 & F3); [tauto|done|done|]. exists l2, ka2.
      rewrite lookup_insert_ne by done. split; [done|]. rewrite lookup_insert_ne; [done|].
      intros <-. rewrite (ai_fresh _ _ _ _ L1) in F2 by lia. done.
Qed.

Lemma load_addresses_spec : forall entries ks am' vs,
  mapM (serialize_known sha3_Sum256 am) entries = Some vs -> NoDup entries.*1 ->
  (forall e, e ∈ entries -> am_addrIndex am !! e.1 = Some e.2 /\ e.1 ∉ ks) ->
  loading ks ks am' ->
  exists am1, load_addresses sha3_Sum256 lookupFunc now serialisationVersion vs am' = Some (true, am1) /\
    loading (list_to_set entries.*1 ∪ ks) (list_to_set entries.*1 ∪ ks) am1 /\ am_key am1 = am_key am' /\
    am_addrNew am1 = am_addrNew am' /\ am_addrTried am1 = am_addrTried am'.
Proof.
  induction entries as [|[k l] entries IH]; intros ks am' vs Hm Hnd He HL.
  { injection Hm as <-. exists am'. split_and!; try done. cbn [fmap list_fmap list_to_set].
    by rewrite (left_id_L ∅ (∪)). }
  destruct (He (k, l)) as [Hx Hk]; [by left|]. cbn [fst snd] in *.
  destruct (ai_index _ _ _ _ H _ _ Hx) as (ka & Hka & _).
  cbn [mapM] in Hm. destruct (serialize_known _ _ (k, l)) as [v|] eqn:Ev; [|done]. cbn [mbind option_bind] in Hm.
  destruct (mapM _ entries) as [vs'|] eqn:Evs; [|done]. injection Hm as <-.
  destruct (load_address ks am' k l ka vs' HL Hx Hka Hk) as (v' & am1 & Ev' & Eq & HL1 & E1 & E2 & E3).
  assert (v' = v) as -> by congruence. rewrite Eq.
  cbn [fmap list_fmap fst] in Hnd. apply list.NoDup_cons in Hnd as [Hnin Hnd].
  destruct (IH ({[k]} ∪ ks) am1 vs' eq_refl Hnd) as (am2 & Hr & HL2 & F1 & F2 & F3); [|done|].
  { intros [k1 l1] Hin. cbn. destruct (He (k1, l1)) as [G1 G2]; [by right|]. split; [done|].
    rewrite elem_of_added. intros [->|]; [|done]. apply Hnin. apply list_elem_of_fmap. by exists (k, l1). }
  exists am2. rewrite F1, F2, F3. split_and!; try done.
  cbn [fmap list_fmap fst list_to_set]. rewrite <- (assoc_L (∪)), (comm_L (∪) {[k]}), <- (assoc_L (∪)).
  by rewrite (comm_L (∪) ks).
Qed.

(** ** The buckets of new addresses *)

Abbreviation buckets := (list (gmap addr_key nat)).

(** The keys of a bucket. *)
Local Abbreviation names b := (dom (D := gset addr_key) (b : gmap addr_key nat)).

Lemma buckets_with_dom (k : addr_key) (bs bs' : buckets) : map (fun b => names b) bs = map (fun b => names b) bs' -> buckets_with k bs = buckets_with k bs'.
Proof.
  revert bs'. induction bs as [|b bs IH]; intros [|b' bs'] E; try done. injection E as E1 E2.
  cbn. fold (buckets_with k bs) (buckets_with k bs'). rewrite (IH bs') by done. f_equal.
  unfold has_key. erewrite bool_decide_ext; [done|].
  by rewrite <- !(elem_of_dom (D := gset addr_key)), E1.
Qed.

Lemma buckets_with_le (k : addr_key) (bs bs' : buckets) :
  Forall2 (fun b b' => names b' ⊆ names b) bs bs' -> buckets_with k bs' <= buckets_with k bs.
Proof.
  induction 1 as [|b b' bs bs' Hb Hbs IH]; [done|]. cbn. fold (buckets_with k bs) (buckets_with k bs').
  unfold has_key, buckets_with in *. repeat case_bool_decide; try lia.
    match goal with Hn : ~ is_Some _ |- _ => destruct Hn end.
    rewrite <- (elem_of_dom (D := gset addr_key)). apply Hb. by apply elem_of_dom.
Qed.

Lemma buckets_with_lt (k : addr_key) (bs bs' : buckets) i b b' :
  Forall2 (fun b b' => names b' ⊆ names b) bs bs' -> bs !! i = Some b -> bs' !! i = Some b' ->
  is_Some (b !! k) -> b' !! k = None -> buckets_with k bs' < buckets_with k bs.
Proof.
  intros HF. revert i. induction HF as [|c c' bs bs' Hc Hbs IH]; intros i Hi Hi' Hb Hb'; [done|].
  cbn. fold (buckets_with k bs) (buckets_with k bs'). destruct i as [|i].
  - injection Hi as ->. injection Hi' as ->. pose proof (buckets_with_le k _ _ Hbs).
    destruct Hb as [l Hb]. rewrite (has_key_Some _ _ _ Hb), (has_key_None _ _ Hb'). lia.
  - specialize (IH i Hi Hi' Hb Hb'). unfold has_key, buckets_with in *. repeat case_bool_decide; try lia.
    match goal with Hn : ~ is_Some _ |- _ => destruct Hn end.
    rewrite <- (elem_of_dom (D := gset addr_key)). apply Hc. by apply elem_of_dom.
Qed.

(** The buckets before [i] are complete; the names [rest] are to come in the bucket [i]. *)
Definition bucket_state (i : nat) (rest : list addr_key) (bs bs' : buckets) : Prop :=
  length bs' = length bs /\ NoDup rest /\ forall j b b', bs !! j = Some b -> bs' !! j = Some b' ->
    ((j < i)%nat -> names b' = names b) /\
    (j = i -> forall k, (is_Some (b !! k) <-> is_Some (b' !! k) \/ k ∈ rest) /\ (k ∈ rest -> b' !! k = None)) /\
    ((i < j)%nat -> b' = ∅).

Lemma bucket_state_sub (i : nat) (rest : list addr_key) (bs bs' : buckets) :
  bucket_state i rest bs bs' -> Forall2 (fun b b' => names b' ⊆ names b) bs bs'.
Proof.
  intros (Hl & _ & Hs). apply Forall2_same_length_lookup. split; [done|]. intros j b b' Hb Hb'.
  destruct (Hs j b b' Hb Hb') as (S1 & S2 & S3). intros k Hk.
  destruct (lt_eq_lt_dec j i) as [[Hlt| ->]|Hgt].
  - by rewrite <- S1.
  - apply elem_of_dom. apply S2; [done|]. left. by apply elem_of_dom.
  - rewrite S3 in Hk by done. by rewrite dom_empty in Hk.
Qed.

Lemma bucket_state_put (i : nat) (k : addr_key) (rest : list addr_key) (bs bs' : buckets) (l : nat) :
  bucket_state i (k :: rest) bs bs' -> bucket_state i rest bs (alter (insert k l) i bs').
Proof.
  intros (Hl & Hnd & Hs). apply list.NoDup_cons in Hnd as [Hnin Hnd].
  split; [by rewrite length_alter|]. split; [done|]. intros j b b' Hb Hb'.
  apply list_alter_Some in Hb' as (b0 & Hb0 & ->). destruct (Hs j b b0 Hb Hb0) as (S1 & S2 & S3).
  case_decide as E; [|by split_and!].
  split_and!; [lia| |lia]. intros _ k'. destruct (S2 (eq_sym E) k') as [T1 T2]. rewrite elem_of_cons in T1, T2.
  destruct (decide (k' = k)) as [->|Hne].
  - rewrite lookup_insert_eq. split; [|done]. split; [intros _; left; by eexists|intros _; apply T1; by right; left].
  - rewrite lookup_insert_ne by done. split; [rewrite T1; tauto|intros; apply T2; by right].
Qed.

(** A step of the loading changes one cell, and takes its address out of the pending ones. *)
Lemma loading_update (ks pending : gset addr_key) (am' am1 : AddrManager) (k : addr_key) (l : nat) f :
  loading ks pending am' -> am_addrIndex am1 = am_addrIndex am' -> am_heap am1 = alter f l (am_heap am') ->
  (forall ka ka', reread ka ka' -> reread ka (f ka')) -> am_addrIndex am' !! k = Some l ->
  AddrInv sha3_Sum256 (fun k' => k' ∈ pending ∖ {[k]}) (Z.of_nat (size (pending ∖ {[k]}))) am1 ->
  loading ks (pending ∖ {[k]}) am1.
Proof.
  intros [L1 L2 L3 L4] Ei Eh Hf Hx Hinv. split; [done| | |].
  - intros k' Hk'. apply elem_of_difference in Hk' as [Hk' Hne]. rewrite elem_of_singleton in Hne.
    destruct (L2 k' Hk') as (l' & ka & E1 & E2 & E3). exists l', ka. rewrite Ei, Eh.
    split; [done|]. rewrite lookup_alter_ne; [done|]. intros <-. apply Hne. by apply (index_inj _ _ _ _ _ _ _ L1 E1).
  - intros k'. rewrite Ei. apply L3.
  - intros k' l' ka Hk' E1 E2. destruct (L4 k' l' ka Hk' E1 E2) as (l2 & ka2 & F1 & F2 & F3).
    exists l2. eexists. rewrite Ei, Eh. split; [done|]. split; [apply heap_alter_Some; by exists ka2|].
    case_decide; [by apply Hf|done].
Qed.

(** All addresses of the index are there. *)
Local Abbreviation all := (dom (D := gset addr_key) (am_addrIndex am)).

Lemma loaded_index (pending : gset addr_key) (am' : AddrManager) (k : addr_key) :
  loading all pending am' -> is_Some (am_addrIndex am !! k) -> is_Some (am_addrIndex am' !! k).
Proof. intros HL Hk. apply (ld_index _ _ _ HL). by apply elem_of_dom. Qed.

Lemma pending_refs (pending : gset addr_key) (am' : AddrManager) (k : addr_key) (l : nat) (ka : KnownAddress) :
  loading all pending am' -> am_addrIndex am' !! k = Some l -> am_heap am' !! l = Some ka ->
  ka_tried ka = false -> ka_refs ka = 0 <-> k ∈ pending.
Proof.
  intros HL Hx Hka Ht. split.
  - intros Hr. destruct (decide (k ∈ pending)) as [|Hn]; [done|].
    destruct (ai_index _ _ _ _ (ld_inv _ _ _ HL) _ _ Hx) as (ka' & E & Ho).
    assert (ka' = ka) as -> by congruence. pose proof (ko_new _ _ _ _ _ Ho Ht Hn). lia.
  - intros Hp. destruct (ld_pending _ _ _ HL k Hp) as (l' & ka' & E1 & E2 & E3 & _). congruence.
Qed.

Lemma size_taken (pending : gset addr_key) (k : addr_key) :
  Z.of_nat (size (pending ∖ {[k]})) = Z.of_nat (size pending) - (if decide (k ∈ pending) then 1 else 0).
Proof.
  case_decide as E.
  - rewrite size_difference by (by apply singleton_subseteq_l). rewrite size_singleton.
    pose proof (subseteq_size {[k]} pending ltac:(by apply singleton_subseteq_l)) as Hs.
    rewrite size_singleton in Hs. lia.
  - replace (pending ∖ {[k]}) with pending; [lia|]. apply set_eq. intros k'.
    rewrite elem_of_difference, elem_of_singleton. split; [|tauto]. intros Hk'. split; [done|]. by intros ->.
Qed.

Lemma load_new_step (i : nat) (k : addr_key) (rest : list addr_key) (pending : gset addr_key) (am' : AddrManager) :
  loading all pending am' -> concat (am_addrTried am') = [] -> (i < 1024)%nat ->
  bucket_state i (k :: rest) (am_addrNew am) (am_addrNew am') ->
  exists am1, load_new_bucket i (k :: rest) am' = load_new_bucket i rest am1 /\
    loading all (pending ∖ {[k]}) am1 /\ bucket_state i rest (am_addrNew am) (am_addrNew am1) /\
    am_addrTried am1 = am_addrTried am' /\ am_key am1 = am_key am'.
Proof.
  intros HL Ht Hi Hb. pose proof (ld_inv _ _ _ HL) as HI.
  destruct (lookup_lt_is_Some_2 (am_addrNew am) i) as [b Hbi]; [by rewrite (proj1 (ai_buckets _ _ _ _ H))|].
  destruct (lookup_lt_is_Some_2 (am_addrNew am') i) as [b' Hbi']; [by rewrite (proj1 (ai_buckets _ _ _ _ HI))|].
  destruct (proj1 (proj2 (proj2 (proj2 Hb) i b b' Hbi Hbi')) eq_refl k) as [S1 S2].
  specialize (S2 (list_elem_of_here _ _)).
  assert (Hin : is_Some (b !! k)) by (apply S1; by right; left).
  destruct Hin as [l0 Hin]. destruct (in_new _ _ _ _ _ _ _ _ H Hbi Hin) as (Hx0 & ka0 & Hka0 & Ho0 & _).
  destruct (loaded_index _ _ k HL) as [l Hx]; [by eexists|].
  destruct (ai_index _ _ _ _ HI _ _ Hx) as (ka & Hka & Ho).
  assert (Hnt : ka_tried ka = false).
  { destruct (ka_tried ka) eqn:E; [|done]. assert (Hl : l ∈ concat (am_addrTried am')) by
      (apply (ai_tried _ _ _ _ HI); by exists k, ka). by rewrite Ht in Hl; apply elem_of_nil in Hl. }
  pose proof (pending_refs _ _ _ _ _ HL Hx Hka Hnt) as Hp.
  assert (Hmax : ka_refs ka < newBucketsPerAddress).
  { rewrite (ko_refs _ _ _ _ _ Ho). pose proof (buckets_with_lt k _ _ i b b' (bucket_state_sub _ _ _ _ Hb) Hbi Hbi'
      ltac:(by eexists) S2). pose proof (ko_refs _ _ _ _ _ Ho0). pose proof (ko_max _ _ _ _ _ Ho0). lia. }
  assert (Hroom : Z.of_nat (size b') <= newBucketSize).
  { pose proof (ai_new_size _ _ _ _ H _ _ Hbi) as Hs. cut (size b' < size b)%nat; [lia|].
    rewrite <- !(size_dom (D := gset addr_key)). apply subset_size. split.
    - intros k' Hk'. apply elem_of_dom in Hk'. apply elem_of_dom.
      apply (proj2 (proj2 Hb) i b b' Hbi Hbi'); [done|]. by left.
    - intros Hsub. specialize (Hsub k). rewrite !elem_of_dom, S2 in Hsub.
      destruct Hsub as [? Hs']; [by eexists|done]. }
  exists (put_ref i k l (am_with_counts (am_nTried am')
    (if ka_refs ka =? 0 then am_nNew am' + 1 else am_nNew am') am')).
  split.
  { cbn [load_new_bucket]. rewrite Hx, Hka. cbn [mbind option_bind].
    f_equal. rewrite <- (put_ref_eq _ _ _ _ ka) by done. destruct (ka_refs ka =? 0); [done|]. by destruct am'. }
  split; [|split_and!; [by apply bucket_state_put|done..]].
  apply (loading_update _ _ am' _ k l (fun v => ka_with_refs (ka_refs v + 1) v)); try done.
  apply (put_ref_inv sha3_Sum256 (fun k' => k' ∈ pending) _ _ _ i b' k l ka); try done.
  - apply (counts_inv _ _ (Z.of_nat (size pending))); [done|]. rewrite size_taken.
    destruct (Z.eqb_spec (ka_refs ka) 0); case_decide; try tauto; lia.
  - intros k' Hk' Hne. apply elem_of_difference. by rewrite elem_of_singleton.
Qed.

(** The walk of a map meets each of its keys once. *)
Lemma range_keys (m : gmap addr_key nat) k : k ∈ map fst (range_order m) <-> is_Some (m !! k).
Proof.
  change (map fst) with (fmap (M := list) (@fst addr_key nat)). rewrite list_elem_of_fmap. split.
  - intros ([k' l] & -> & Hin). rewrite range_perm in Hin. apply elem_of_map_to_list in Hin. by eexists.
  - intros [l Hl]. exists (k, l). split; [done|]. rewrite range_perm. by apply elem_of_map_to_list.
Qed.

Lemma range_keys_NoDup (m : gmap addr_key nat) : NoDup (map fst (range_order m)).
Proof.
  change (map fst) with (fmap (M := list) (@fst addr_key nat)). rewrite range_perm. apply NoDup_fst_map_to_list.
Qed.

(** What the loading of the buckets, from a state to a later one, keeps. *)
Definition new_loaded (i : nat) (rest : list addr_key) (am' am1 : AddrManager) : Prop :=
  (exists pending, loading all pending am1) /\ bucket_state i rest (am_addrNew am) (am_addrNew am1) /\
  am_addrTried am1 = am_addrTried am' /\ am_key am1 = am_key am'.

Lemma load_new_bucket_spec (i : nat) : forall (vals : list addr_key) (am' : AddrManager),
  new_loaded i vals am' am' -> concat (am_addrTried am') = [] -> (i < 1024)%nat ->
  exists am1, load_new_bucket i vals am' = Some (true, am1) /\ new_loaded i [] am' am1.
Proof.
  induction vals as [|k vals IH]; intros am' Hnl Ht Hi; [by exists am'|].
  destruct Hnl as ((pending & HL) & Hb & _ & _).
  destruct (load_new_step i k vals pending am' HL Ht Hi Hb) as (am1 & -> & HL1 & Hb1 & Et & Ek).
  destruct (IH am1) as (am2 & Hr & HL2 & Hb2 & Et2 & Ek2); [|by rewrite Et|done|].
  { split; [by eexists|done]. }
  exists am2. rewrite Hr. split; [done|]. split; [done|]. split; [done|]. split; congruence.
Qed.

Lemma bucket_state_next (i : nat) (b : gmap addr_key nat) (bs' : buckets) :
  am_addrNew am !! i = Some b -> bucket_state i [] (am_addrNew am) bs' ->
  bucket_state (S i) (default [] ((fun b => map fst (range_order b)) <$> am_addrNew am !! S i)) (am_addrNew am) bs'.
Proof.
  intros Hi (Hl & _ & Hs). split; [done|]. split.
  { destruct (am_addrNew am !! S i) as [b1|]; [|apply NoDup_nil_2]. apply range_keys_NoDup. }
  intros j b1 b1' Hb Hb'. destruct (Hs j b1 b1' Hb Hb') as (S1 & S2 & S3). split_and!.
  - intros Hj. destruct (decide (j = i)) as [->|]; [|apply S1; lia]. apply set_eq. intros k.
    rewrite !elem_of_dom. destruct (S2 eq_refl k) as [T _]. rewrite T, elem_of_nil. tauto.
  - intros ->. rewrite S3 by lia. intros k. rewrite Hb. cbn [fmap option_fmap option_map from_option id].
    rewrite range_keys, lookup_empty. pose proof (is_Some_None (A := nat)). tauto.
  - intros Hj. apply S3. lia.
Qed.

Lemma load_new_buckets_spec : forall (bs : buckets) (i : nat) (am' : AddrManager),
  drop i (am_addrNew am) = bs -> new_loaded i (default [] ((fun b => map fst (range_order b)) <$> bs !! 0%nat)) am' am' ->
  concat (am_addrTried am') = [] ->
  exists am1, load_buckets load_new_bucket i (map (fun b => map fst (range_order b)) bs) am' = Some (true, am1) /\
    new_loaded 1024 [] am' am1.
Proof.
  induction bs as [|b bs IH]; intros i am' Hd Hnl Ht.
  { exists am'. split; [done|]. destruct Hnl as (HL & (Hl & _ & Hs) & _). split; [done|]. split; [|done]. split; [done|]. split.
    - apply NoDup_nil_2.
    - intros j b b' Hb Hb'. assert (Hj : (j < i)%nat).
      { apply (f_equal length) in Hd. rewrite length_drop in Hd. apply lookup_lt_Some in Hb. cbn in Hd. lia. }
      assert (j < 1024)%nat by (rewrite <- (proj1 (ai_buckets _ _ _ _ H)); by eapply lookup_lt_Some).
      destruct (Hs j b b' Hb Hb') as (S1 & _). split_and!; [|lia..]. intros _. by apply S1. }
  assert (Hbi : am_addrNew am !! i = Some b).
  { rewrite <- (Nat.add_0_r i), <- lookup_drop, Hd. done. }
  assert (Hi : (i < 1024)%nat) by (rewrite <- (proj1 (ai_buckets _ _ _ _ H)); by eapply lookup_lt_Some).
  cbn [map load_buckets]. cbn [lookup list_lookup fmap option_fmap option_map from_option id] in Hnl.
  destruct (load_new_bucket_spec i _ am' Hnl Ht Hi) as (am1 & -> & HL1 & Hb1 & Et & Ek).
  cbn [mbind option_bind].
  assert (Hd' : drop (S i) (am_addrNew am) = bs) by (by rewrite <- Nat.add_1_r, <- drop_drop, Hd).
  destruct (IH (S i) am1 Hd') as (am2 & Hr & HL2 & Hb2 & Et2 & Ek2); [|by rewrite Et|].
  { pose proof (bucket_state_next i b _ Hbi Hb1) as Hn. replace (am_addrNew am !! S i) with (bs !! 0%nat) in Hn.
    { by split. }
    by rewrite <- Hd', lookup_drop, Nat.add_0_r. }
  exists am2. rewrite Hr. split; [done|]. split; [done|]. split; [done|]. split; congruence.
Qed.

(** ** The lists of tried addresses *)

(** [t] lists the addresses named [ks]. *)
Definition named (m : AddrManager) (ks : list addr_key) (t : list nat) : Prop :=
  Forall2 (fun k l => am_addrIndex m !! k = Some l) ks t.

Lemma mapM_total {A B} (f : A -> option B) (P : B -> A -> Prop) (xs : list A) :
  (forall x, x ∈ xs -> exists y, f x = Some y /\ P y x) -> exists ys, mapM f xs = Some ys /\ Forall2 P ys xs.
Proof.
  induction xs as [|x xs IH]; intros Hx; [by exists []|].
  destruct (Hx x) as (y & Hy & HP); [by left|]. destruct IH as (ys & Hys & HF); [intros; apply Hx; by right|].
  exists (y :: ys). cbn [mapM]. rewrite Hy. cbn [mbind option_bind]. rewrite Hys. split; [done|by constructor].
Qed.

Lemma saved_tried :
  exists kss, mapM (mapM (serialize_tried sha3_Sum256 am)) (am_addrTried am) = Some kss /\
    Forall2 (named am) kss (am_addrTried am).
Proof.
  apply mapM_total. intros t Ht. apply mapM_total. intros l Hl.
  apply list_elem_of_lookup in Ht as [i Hi].
  destruct (listed _ _ _ _ _ _ _ H Hi Hl) as (k & ka & Hx & Hka & _ & Ho). exists k. split; [|done].
  unfold serialize_tried. rewrite Hka. cbn [mbind option_bind]. apply Ho.
Qed.

Lemma named_concat (m : AddrManager) (kss : list (list addr_key)) (ts : list (list nat)) :
  Forall2 (named m) kss ts -> named m (concat kss) (concat ts).
Proof. unfold named. induction 1; cbn; [constructor|by apply Forall2_app]. Qed.

(** The names of listed addresses are those the lists are saved with. *)
Lemma named_serialized (m : AddrManager) (kss : list (list addr_key)) (ts : list (list nat)) :
  AddrInv sha3_Sum256 nobody 0 m -> Forall2 (named m) kss ts ->
  mapM (mapM (serialize_tried sha3_Sum256 m)) ts = Some kss.
Proof.
  intros HI HF. apply mapM_Some. apply Forall2_flip. eapply Forall2_impl; [|exact HF]. intros ks t Hks.
  apply mapM_Some. apply Forall2_flip. eapply Forall2_impl; [|exact Hks]. intros k l Hx.
  destruct (ai_index _ _ _ _ HI _ _ Hx) as (ka & Hka & Ho). unfold serialize_tried.
  rewrite Hka. cbn [mbind option_bind]. apply Ho.
Qed.

Section Tried.
Context (kss : list (list addr_key)).
Hypothesis Hkss : Forall2 (named am) kss (am_addrTried am).

Lemma kss_room (i : nat) (ks : list addr_key) : kss !! i = Some ks -> len ks <= triedBucketSize.
Proof.
  intros Hi. destruct (Forall2_lookup_l _ _ _ _ _ Hkss Hi) as (t & Ht & HF).
  pose proof (ai_tried_size _ _ _ _ H _ _ Ht). apply Forall2_length in HF. unfold len in *. lia.
Qed.

Lemma kss_NoDup : NoDup (concat kss).
Proof.
  pose proof (named_concat _ _ _ Hkss) as HF. pose proof (ai_nodup _ _ _ _ H) as Hn. revert Hn.
  induction HF as [|k l ks ls Hk HF IH]; [constructor|]. rewrite !list.NoDup_cons. intros [Hl Hn].
  split; [|by apply IH]. intros Hin. apply Hl. apply list_elem_of_lookup in Hin as [i Hi].
  destruct (Forall2_lookup_l _ _ _ _ _ HF Hi) as (l' & Hl' & E). apply list_elem_of_lookup. exists i. congruence.
Qed.

(** The lists before [i] are complete; the names [rest] are to come in the list [i]. *)
Definition tried_state (i : nat) (rest : list addr_key) (am' : AddrManager) : Prop :=
  forall j ks t, kss !! j = Some ks -> am_addrTried am' !! j = Some t ->
    ((j < i)%nat -> named am' ks t) /\
    (j = i -> exists before, ks = before ++ rest /\ named am' before t) /\
    ((i < j)%nat -> t = []).

Lemma load_tried_step (i : nat) (k : addr_key) (rest : list addr_key) (pending : gset addr_key) (am' : AddrManager) :
  loading all pending am' -> k ∈ pending -> (i < 64)%nat -> tried_state i (k :: rest) am' ->
  exists am1, load_tried_bucket i (k :: rest) am' = load_tried_bucket i rest am1 /\
    loading all (pending ∖ {[k]}) am1 /\ tried_state i rest am1 /\
    am_addrNew am1 = am_addrNew am' /\ am_key am1 = am_key am'.
Proof.
  intros HL Hk Hi Hs. pose proof (ld_inv _ _ _ HL) as HI.
  destruct (ld_pending _ _ _ HL k Hk) as (l & ka & Hx & Hka & Hr & Hnt).
  destruct (lookup_lt_is_Some_2 (am_addrTried am') i) as [t Hti]; [by rewrite (proj2 (ai_buckets _ _ _ _ HI))|].
  destruct (lookup_lt_is_Some_2 kss i) as [ks Hks].
  { by rewrite (Forall2_length Hkss), (proj2 (ai_buckets _ _ _ _ H)). }
  destruct (proj1 (proj2 (Hs i ks t Hks Hti)) eq_refl) as (before & Eks & Hb).
  assert (Hroom : len t < triedBucketSize).
  { pose proof (kss_room _ _ Hks) as Hs1. apply Forall2_length in Hb. subst ks. unfold len in *.
    rewrite length_app in Hs1. cbn [length] in Hs1. lia. }
  set (am1 := am_with_counts (am_nTried am' + 1) (am_nNew am') (am_update l (ka_with_tried true) am')).
  exists (am_with_tried (alter (fun t => t ++ [l]) i (am_addrTried am1)) am1). split.
  { cbn [load_tried_bucket]. rewrite Hx. reflexivity. }
  split; [|split; [|done]].
  - apply (loading_update _ _ am' _ k l (ka_with_tried true)); try done.
    apply (place_tried_inv sha3_Sum256 (fun k' => k' ∈ pending) _ _ k l ka i t am'); try done.
    + rewrite size_taken, decide_True by done. by rewrite Z.sub_add.
    + intros k' Hk' Hne. apply elem_of_difference. by rewrite elem_of_singleton.
  - intros j ks' t' Hks' Ht'. cbn in Ht'. apply list_alter_Some in Ht' as (t0 & Ht0 & ->).
    destruct (Hs j ks' t0 Hks' Ht0) as (S1 & S2 & S3). case_decide as E.
    + split; [lia|]. split; [|lia]. intros _. destruct (S2 (eq_sym E)) as (before' & E1 & E2).
      exists (before' ++ [k]). rewrite <- app_assoc. split; [done|]. apply Forall2_app; [done|].
      by constructor.
    + by split_and!.
Qed.

Lemma load_tried_bucket_spec (i : nat) (later : list addr_key) : forall (vals : list addr_key) (pending : gset addr_key) (am' : AddrManager),
  loading all pending am' -> (i < 64)%nat -> tried_state i vals am' -> NoDup (vals ++ later) ->
  (forall k, k ∈ pending <-> k ∈ vals ++ later) ->
  exists am1 pending', load_tried_bucket i vals am' = Some (true, am1) /\ loading all pending' am1 /\
    (forall k, k ∈ pending' <-> k ∈ later) /\ tried_state i [] am1 /\
    am_addrNew am1 = am_addrNew am' /\ am_key am1 = am_key am'.
Proof.
  induction vals as [|k vals IH]; intros pending am' HL Hi Hs Hnd Hp; [by exists am', pending|].
  cbn [app] in *. apply list.NoDup_cons in Hnd as [Hnin Hnd].
  destruct (load_tried_step i k vals pending am' HL) as (am1 & -> & HL1 & Hs1 & En & Ek); [|done|done|].
  { apply Hp. by left. }
  destruct (IH _ am1 HL1 Hi Hs1 Hnd) as (am2 & pending' & Hr & HL2 & Hp2 & Hs2 & En2 & Ek2).
  { intros k'. rewrite elem_of_difference, elem_of_singleton, Hp, elem_of_cons.
    split; [tauto|]. intros Hk'. split; [by right|]. by intros ->. }
  exists am2, pending'. rewrite Hr, En2, Ek2. by split_and!.
Qed.

Lemma tried_state_next (i : nat) (ks : list addr_key) (am' : AddrManager) :
  kss !! i = Some ks -> tried_state i [] am' -> tried_state (S i) (default [] (kss !! S i)) am'.
Proof.
  intros Hi Hs j ks' t Hks Ht. destruct (Hs j ks' t Hks Ht) as (S1 & S2 & S3). split_and!.
  - intros Hj. destruct (decide (j = i)) as [->|]; [|apply S1; lia].
    destruct (S2 eq_refl) as (before & -> & Hb). by rewrite app_nil_r.
  - intros ->. exists []. rewrite Hks, S3 by lia. split; [done|constructor].
  - intros Hj. apply S3. lia.
Qed.

Lemma load_tried_buckets_spec : forall (rest : list (list addr_key)) (i : nat) (pending : gset addr_key) (am' : AddrManager),
  drop i kss = rest -> loading all pending am' -> NoDup (concat rest) ->
  (forall k, k ∈ pending <-> k ∈ concat rest) -> tried_state i (default [] (rest !! 0%nat)) am' ->
  exists am1, load_buckets load_tried_bucket i rest am' = Some (true, am1) /\ loading all ∅ am1 /\
    Forall2 (named am1) kss (am_addrTried am1) /\
    am_addrNew am1 = am_addrNew am' /\ am_key am1 = am_key am'.
Proof.
  assert (Hlen : length kss = 64%nat) by (by rewrite (Forall2_length Hkss), (proj2 (ai_buckets _ _ _ _ H))).
  induction rest as [|ks rest IH]; intros i pending am' Hd HL Hnd Hp Hs.
  - exists am'. split; [done|]. assert (pending = ∅) as -> by (apply elem_of_equiv_empty_L; intros k Hk; by apply Hp, elem_of_nil in Hk).
    split; [done|]. split; [|done]. apply Forall2_same_length_lookup.
    pose proof (proj2 (ai_buckets _ _ _ _ (ld_inv _ _ _ HL))) as Hlt. split; [congruence|].
    intros j ks t Hks Ht. apply (Hs j ks t Hks Ht). apply lookup_lt_Some in Hks.
    apply (f_equal length) in Hd. rewrite length_drop in Hd. cbn in Hd. lia.
  - assert (Hi : kss !! i = Some ks) by (by rewrite <- (Nat.add_0_r i), <- lookup_drop, Hd).
    assert (Hi' : (i < 64)%nat) by (rewrite <- Hlen; by eapply lookup_lt_Some).
    assert (Hd' : drop (S i) kss = rest) by (by rewrite <- Nat.add_1_r, <- drop_drop, Hd).
    cbn [concat] in *. cbn [lookup list_lookup from_option id] in Hs.
    destruct (load_tried_bucket_spec i (concat rest) ks pending am' HL Hi' Hs Hnd Hp)
      as (am1 & pending' & E1 & HL1 & Hp1 & Hs1 & En & Ek).
    apply tried_state_next with (ks := ks) in Hs1; [|done].
    destruct (IH (S i) pending' am1 Hd' HL1) as (am2 & Hr & HL2 & HF & En2 & Ek2).
    { by apply list.NoDup_app in Hnd as (_ & _ & ?). }
    { done. }
    { replace (rest !! 0%nat) with (kss !! S i); [done|]. by rewrite <- Hd', lookup_drop, Nat.add_0_r. }
    exists am2. cbn [load_buckets]. rewrite E1. cbn [mbind option_bind]. rewrite Hr, En2, Ek2. by split_and!.
Qed.
End Tried.

(** ** The whole file *)

(** The manager [am'] has the peers of [am]. *)
Record same_peers (m m' : AddrManager) : Prop := mkSamePeers {
  sp_key : am_key m' = am_key m;
  sp_index : forall k, is_Some (am_addrIndex m' !! k) <-> is_Some (am_addrIndex m !! k);
  sp_known : forall k l ka, am_addrIndex m !! k = Some l -> am_heap m !! l = Some ka ->
    exists l' ka', am_addrIndex m' !! k = Some l' /\ am_heap m' !! l' = Some ka' /\
      reread ka ka' /\ ka_refs ka' = ka_refs ka /\ ka_tried ka' = ka_tried ka;
  sp_new : map (fun b => names b) (am_addrNew m') = map (fun b => names b) (am_addrNew m);
  sp_tried : mapM (mapM (serialize_tried sha3_Sum256 m')) (am_addrTried m') =
    mapM (mapM (serialize_tried sha3_Sum256 m)) (am_addrTried m);
  sp_nTried : am_nTried m' = am_nTried m;
  sp_nNew : am_nNew m' = am_nNew m;
}.

Lemma tried_refs (m : AddrManager) k l ka :
  AddrInv sha3_Sum256 nobody 0 m -> am_addrIndex m !! k = Some l -> am_heap m !! l = Some ka ->
  ka_tried ka = (ka_refs ka =? 0).
Proof.
  intros HI Hx Hka. destruct (ai_index _ _ _ _ HI _ _ Hx) as (ka0 & E & Ho).
  assert (ka0 = ka) as -> by congruence. destruct (ka_tried ka) eqn:Et.
  - by rewrite (ko_tried _ _ _ _ _ Ho Et).
  - pose proof (ko_new _ _ _ _ _ Ho Et ltac:(intros [])). lia.
Qed.

(** Every address read is new, in a bucket, or tried, in a list. *)
Lemma sane_loaded (m : AddrManager) :
  AddrInv sha3_Sum256 nobody 0 m -> forallb (sane m) (range_order (am_addrIndex m)) = true.
Proof.
  intros HI. apply forallb_forall. intros [k l] Hin. apply list_elem_of_In in Hin.
  rewrite range_perm in Hin. apply elem_of_map_to_list in Hin.
  destruct (ai_index _ _ _ _ HI _ _ Hin) as (ka & Hka & Ho). unfold sane. cbn [snd]. rewrite Hka.
  rewrite (tried_refs m k l ka HI Hin Hka).
  pose proof (buckets_with_nonneg k (am_addrNew m)) as Hn. rewrite <- (ko_refs _ _ _ _ _ Ho) in Hn.
  destruct (Z.eqb_spec (ka_refs ka) 0) as [->|Hne]; [done|]. by rewrite andb_false_r.
Qed.

(** All addresses can be written. *)
Lemma saved_addresses :
  exists vs, mapM (serialize_known sha3_Sum256 am) (range_order (am_addrIndex am)) = Some vs.
Proof.
  destruct (mapM_total (serialize_known sha3_Sum256 am) (fun _ _ => True) (range_order (am_addrIndex am)))
    as (vs & Hvs & _); [|by exists vs].
  intros [k l] Hin. rewrite range_perm in Hin. apply elem_of_map_to_list in Hin.
  destruct (serialize_known_ok k l Hin) as (ka & v & src & _ & Hv & _). by exists v.
Qed.

Lemma same_loaded (kss : list (list addr_key)) (m' : AddrManager) :
  mapM (mapM (serialize_tried sha3_Sum256 am)) (am_addrTried am) = Some kss ->
  Forall2 (named am) kss (am_addrTried am) -> Forall2 (named m') kss (am_addrTried m') ->
  loading all ∅ m' -> AddrInv sha3_Sum256 nobody 0 m' ->
  map (fun b => names b) (am_addrNew m') = map (fun b => names b) (am_addrNew am) ->
  am_key m' = am_key am -> same_peers am m'.
Proof.
  intros Hk HF HF' HL HI Hn Hkey.
  assert (Hidx : forall k, is_Some (am_addrIndex m' !! k) <-> is_Some (am_addrIndex am !! k)).
  { intros k. rewrite (ld_index _ _ _ HL). apply elem_of_dom. }
  assert (Hsize : size (am_addrIndex m') = size (am_addrIndex am)).
  { rewrite <- !(size_dom (D := gset addr_key)). f_equal. apply set_eq. intros k. by rewrite !elem_of_dom. }
  assert (Hc : am_nTried m' = am_nTried am).
  { rewrite (ai_nTried _ _ _ _ HI), (ai_nTried _ _ _ _ H).
    rewrite <- (Forall2_length (named_concat _ _ _ HF')), <- (Forall2_length (named_concat _ _ _ HF)). done. }
  split; try done.
  - intros k l ka Hx Hka. destruct (ld_reread _ _ _ HL k l ka) as (l' & ka' & E1 & E2 & E3); [|done|done|].
    { apply elem_of_dom. by eexists. }
    exists l', ka'. split_and!; [done..| |].
    + destruct (ai_index _ _ _ _ HI _ _ E1) as (ka1 & F1 & Ho1).
      destruct (ai_index _ _ _ _ H _ _ Hx) as (ka2 & F2 & Ho2).
      assert (ka1 = ka') as -> by congruence. assert (ka2 = ka) as -> by congruence.
      rewrite (ko_refs _ _ _ _ _ Ho1), (ko_refs _ _ _ _ _ Ho2). by apply buckets_with_dom.
    + destruct (ai_index _ _ _ _ HI _ _ E1) as (ka1 & F1 & Ho1).
      destruct (ai_index _ _ _ _ H _ _ Hx) as (ka2 & F2 & Ho2).
      assert (ka1 = ka') as -> by congruence. assert (ka2 = ka) as -> by congruence.
      rewrite (tried_refs m' k l' ka'), (tried_refs am k l ka) by done.
      rewrite (ko_refs _ _ _ _ _ Ho1), (ko_refs _ _ _ _ _ Ho2). by rewrite (buckets_with_dom _ _ _ Hn).
  - rewrite Hk. by apply named_serialized.
  - pose proof (ai_total _ _ _ _ HI). pose proof (ai_total _ _ _ _ H). lia.
Qed.

(** Nothing is loaded, and the buckets are empty, to begin with. *)
Lemma loading_start (key0 : list byte) : loading ∅ ∅ (New key0).
Proof.
  split.
  - rewrite size_empty. apply (loosen _ nobody); [intros k []|apply AddrManager_New_inv].
  - intros k Hk. by apply elem_of_empty in Hk.
  - intros k. cbn [New reset am_addrIndex]. rewrite lookup_empty, elem_of_empty. pose proof (is_Some_None (A := nat)). tauto.
  - intros k l ka Hk. by apply elem_of_empty in Hk.
Qed.

Lemma bucket_state_start (bs' : buckets) :
  length bs' = length (am_addrNew am) -> (forall j b', bs' !! j = Some b' -> b' = ∅) ->
  bucket_state 0 (default [] ((fun b => map fst (range_order b)) <$> am_addrNew am !! 0%nat)) (am_addrNew am) bs'.
Proof.
  intros Hl He. split; [done|]. split.
  { destruct (am_addrNew am !! 0%nat) as [b1|]; [apply range_keys_NoDup|apply NoDup_nil_2]. }
  intros j b b' Hb Hb'. apply He in Hb' as ->. split; [lia|]. split; [|done]. intros -> k. rewrite Hb.
  cbn [fmap option_fmap option_map from_option id]. rewrite range_keys, lookup_empty.
  pose proof (is_Some_None (A := nat)). tauto.
Qed.

Lemma bucket_state_end (bs' : buckets) :
  bucket_state 1024 [] (am_addrNew am) bs' -> map (fun b => names b) bs' = map (fun b => names b) (am_addrNew am).
Proof.
  intros (Hl & _ & Hs). apply list_eq_Forall2, Forall2_fmap, Forall2_same_length_lookup. split; [done|].
  intros j b' b Hb' Hb. apply (Hs j b b' Hb Hb'). rewrite <- (proj1 (ai_buckets _ _ _ _ H)).
  by eapply lookup_lt_Some.
Qed.

(** The addresses left when the buckets have been loaded are the tried ones. *)
Lemma pending_tried (kss : list (list addr_key)) (pending : gset addr_key) (am2 : AddrManager) :
  Forall2 (named am) kss (am_addrTried am) -> loading all pending am2 -> concat (am_addrTried am2) = [] ->
  map (fun b => names b) (am_addrNew am2) = map (fun b => names b) (am_addrNew am) ->
  forall k, k ∈ pending <-> k ∈ concat kss.
Proof.
  intros HF HL Hc Hn k. apply named_concat in HF.
  assert (Hat : forall l2 ka2, am_addrIndex am2 !! k = Some l2 -> am_heap am2 !! l2 = Some ka2 -> ka_tried ka2 = false).
  { intros l2 ka2 F1 F2. destruct (ka_tried ka2) eqn:E; [|done]. assert (Hl : l2 ∈ concat (am_addrTried am2)) by
      (apply (ai_tried _ _ _ _ (ld_inv _ _ _ HL)); by exists k, ka2). by rewrite Hc in Hl; apply elem_of_nil in Hl. }
  assert (Hrefs : forall l ka l2 ka2, am_addrIndex am !! k = Some l -> am_heap am !! l = Some ka ->
    am_addrIndex am2 !! k = Some l2 -> am_heap am2 !! l2 = Some ka2 -> ka_refs ka2 = ka_refs ka).
  { intros l ka l2 ka2 E1 E2 F1 F2. destruct (ai_index _ _ _ _ (ld_inv _ _ _ HL) _ _ F1) as (ka2' & G2 & Ho2).
    destruct (ai_index _ _ _ _ H _ _ E1) as (ka' & G & Ho). assert (ka2' = ka2) as -> by congruence.
    assert (ka' = ka) as -> by congruence. rewrite (ko_refs _ _ _ _ _ Ho), (ko_refs _ _ _ _ _ Ho2).
    by rewrite (buckets_with_dom _ _ _ Hn). }
  split.
  - intros Hk. destruct (ld_pending _ _ _ HL k Hk) as (l2 & ka2 & F1 & F2 & F3 & _).
    assert (Hin : is_Some (am_addrIndex am !! k)) by (apply (elem_of_dom (D := gset addr_key)), (ld_index _ _ _ HL); by eexists).
    destruct Hin as [l Hx]. destruct (ai_index _ _ _ _ H _ _ Hx) as (ka & Hka & _).
    pose proof (tried_refs am k l ka H Hx Hka) as Ht. rewrite <- (Hrefs l ka l2 ka2), F3 in Ht by done.
    assert (Hl : l ∈ concat (am_addrTried am)) by (apply (ai_tried _ _ _ _ H); by exists k, ka).
    apply list_elem_of_lookup in Hl as [i Hi]. destruct (Forall2_lookup_r _ _ _ _ _ HF Hi) as (k' & Hk' & Hx').
    assert (k' = k) as -> by (by apply (index_inj _ _ _ _ _ _ _ H Hx')). by eapply list_elem_of_lookup_2.
  - intros Hk. apply list_elem_of_lookup in Hk as [i Hi]. destruct (Forall2_lookup_l _ _ _ _ _ HF Hi) as (l & Hl & Hx).
    apply list_elem_of_lookup_2 in Hl. apply (ai_tried _ _ _ _ H) in Hl as (k' & ka & Hx' & Hka & Ht).
    assert (k' = k) as -> by (by apply (index_inj _ _ _ _ _ _ _ H Hx')).
    destruct (loaded_index _ _ k HL) as [l2 F1]; [by eexists|].
    destruct (ai_index _ _ _ _ (ld_inv _ _ _ HL) _ _ F1) as (ka2 & F2 & _).
    apply (pending_refs _ _ _ _ _ HL F1 F2); [by eapply Hat|]. rewrite (Hrefs l ka l2 ka2) by done.
    destruct (ai_index _ _ _ _ H _ _ Hx) as (ka' & G & Ho). assert (ka' = ka) as -> by congruence. by apply Ho.
Qed.

(** The three loops of the loading, one after the other. *)
Lemma load_saved (kss : list (list addr_key)) (vs : list serializedKnownAddress) (key0 : list byte) :
  mapM (serialize_known sha3_Sum256 am) (range_order (am_addrIndex am)) = Some vs ->
  Forall2 (named am) kss (am_addrTried am) ->
  exists am1 am2 am3,
    load_addresses sha3_Sum256 lookupFunc now serialisationVersion vs
      (mkAddrManager (am_key am) (am_heap (New key0)) (am_next (New key0)) (am_addrIndex (New key0))
        (am_addrNew (New key0)) (am_addrTried (New key0)) (am_nTried (New key0)) (am_nNew (New key0))
        (am_localAddresses (New key0)) (am_version (New key0))) = Some (true, am1) /\
    load_buckets load_new_bucket 0 (map (fun b => map fst (range_order b)) (am_addrNew am)) am1 = Some (true, am2) /\
    load_buckets load_tried_bucket 0 kss am2 = Some (true, am3) /\
    loading all ∅ am3 /\ Forall2 (named am3) kss (am_addrTried am3) /\
    map (fun b => names b) (am_addrNew am3) = map (fun b => names b) (am_addrNew am) /\ am_key am3 = am_key am.
Proof.
  intros Hvs HF. change (mkAddrManager _ _ _ _ _ _ _ _ _ _) with (New (am_key am)).
  destruct (load_addresses_spec _ ∅ (New (am_key am)) vs Hvs (range_keys_NoDup _)) as (am1 & E1 & HL1 & Ek1 & En1 & Et1).
  { intros [k l] Hin. rewrite range_perm in Hin. apply elem_of_map_to_list in Hin. by split; [|apply not_elem_of_empty]. }
  { apply loading_start. }
  exists am1. change (am_key (New (am_key am))) with (am_key am) in Ek1.
  replace (list_to_set (range_order (am_addrIndex am)).*1 ∪ ∅ : gset addr_key) with all in HL1.
  2:{ apply set_eq. intros k. rewrite (right_id_L ∅ (∪)), elem_of_list_to_set, elem_of_dom. symmetry. apply range_keys. }
  assert (Hc : concat (am_addrTried am1) = []) by (rewrite Et1; vm_compute; done).
  destruct (load_new_buckets_spec (am_addrNew am) 0 am1 eq_refl) as (am2 & E2 & (pending & HL2) & Hb2 & Et2 & Ek2); [|done|].
  { split; [by exists all|]. split; [|done]. rewrite En1. apply bucket_state_start.
    - by rewrite (proj1 (ai_buckets _ _ _ _ H)).
    - intros j b' Hb'. by apply lookup_replicate in Hb' as [-> _]. }
  apply bucket_state_end in Hb2.
  exists am2.
  destruct (load_tried_buckets_spec kss HF kss 0 pending am2 eq_refl HL2) as (am3 & E3 & HL3 & HF3 & En3 & Ek3).
  { by apply kss_NoDup. }
  { apply (pending_tried _ _ am2); try done. by rewrite Et2. }
  { intros j ks t Hks Ht. rewrite Et2, Et1 in Ht. apply lookup_replicate in Ht as [-> _].
    split; [lia|]. split; [|done]. intros ->. exists []. rewrite Hks. split; [done|constructor]. }
  exists am3. split_and!; try done; [|congruence].
  by rewrite En3.
Qed.

(** C11: A restart keeps the peers.  A manager whose addresses are valid can be saved, and
    a new manager that loads the file, at any time and with any order of the walks
    through the maps, accepts it and has the same key for the bucket hashes, the same
    addresses with the same services, sources, attempts and times of contact, in the
    same buckets and lists, with the same reference counts and totals; and it satisfies
    the invariant of the manager.  Only the times at which the addresses were last seen
    are those of the loading. *)
Theorem loadPeers_savePeers (key0 fresh : list byte) :
  exists sam am', savePeers sha3_Sum256 range_order am = Some sam /\
    loadPeers sha3_Sum256 range_order lookupFunc now fresh (Saved sam) (New key0) = Some (Saved sam, am') /\
    AddrInv sha3_Sum256 nobody 0 am' /\ same_peers am am'.
Proof.
  destruct (saved_addresses) as (vs & Hvs).
  destruct saved_tried as (kss & Hkss & HF).
  destruct (load_saved kss vs key0 Hvs HF) as (am1 & am2 & am3 & E1 & E2 & E3 & HL & HF3 & Hn & Hk).
  assert (HI : AddrInv sha3_Sum256 nobody 0 am3).
  { apply (loosen sha3_Sum256 (fun k => k ∈ (∅ : gset addr_key))); [|apply HL]. intros k Hk'. by apply elem_of_empty in Hk'. }
  eexists _, am3. split.
  { unfold savePeers. rewrite Hvs. cbn [mbind option_bind]. rewrite Hkss. reflexivity. }
  split; [|split; [done|by apply (same_loaded kss)]].
  unfold loadPeers, deserializePeers. cbn [sam_Version sam_Key sam_Addresses sam_NewBuckets sam_TriedBuckets].
  rewrite Hversion, Z.ltb_irrefl. rewrite E1. cbn [mbind option_bind negb]. rewrite E2. cbn [mbind option_bind negb].
  rewrite E3. cbn [mbind option_bind negb]. by rewrite sane_loaded.
Qed.
End Restart.

(** ** A manager with one new address *)

Definition sample_address : NetAddressV2 := mkNetAddressV2 5 1 (Some (ipv4Addr [x08; x08; x08; x08])) 8333.
Definition sample_name : list byte := bytes_of "8.8.8.8:8333".
Definition sample_known : KnownAddress := mkKnownAddress sample_address sample_address 3 7 0 false 0.
Definition sample_peers : AddrManager :=
  let am := New [x01] in
  put_ref 17 sample_name 0 (am_with_counts 0 1
    (am_with_index (<[sample_name := 0%nat]> ∅) (snd (am_alloc sample_known am)))).

Lemma sample_peers_inv sha3 : AddrInv sha3 nobody 0 sample_peers.
Proof.
  apply (put_ref_inv sha3 (eq sample_name) nobody 0 _ 17 ∅ sample_name 0
    sample_known);
    [|by apply eq_nobody|reflexivity|reflexivity|done|done|reflexivity|reflexivity|done].
  refine (counts_inv sha3 _ 1 0 _ 1 _ _); [|reflexivity].
  exact (alloc_inv sha3 nobody (eq sample_name) 0 (New [x01]) sample_name sample_known (AddrManager_New_inv sha3 [x01])
    (fun _ => False_ind _) eq_refl eq_refl eq_refl eq_refl eq_refl).
Qed.

Lemma loadPeers_savePeers_witness :
  let sha3 := fun _ : list byte => replicate 32 x07 in
  exists sam am', savePeers sha3 map_to_list sample_peers = Some sam /\
    loadPeers sha3 map_to_list (fun _ => None) 1000 [] (Saved sam) (New []) = Some (Saved sam, am') /\
    AddrInv sha3 nobody 0 am' /\ same_peers sha3 1000 sample_peers am'.
Proof.
  apply (loadPeers_savePeers (fun _ => replicate 32 x07) map_to_list (fun _ => None)
    ltac:(reflexivity) ltac:(reflexivity) sample_peers 1000 (sample_peers_inv _) eq_refl).
  intros k l ka Hx Hka. assert (l = 0%nat) as ->.
  { change (<[sample_name := 0%nat]> (∅ : gmap addr_key nat) !! k = Some l) in Hx.
    apply lookup_insert_Some in Hx as [[_ <-]|[_ Hx]]; done. }
  assert (ka = ka_with_refs 1 sample_known) as -> by (apply (inj Some); rewrite <- Hka; reflexivity).
  assert (Hok : addr_ok sample_address) by (split; [cbn; lia|by eexists]). done.
Defined.

(** ** Files that are refused *)

Section RefusedFiles.
Context (sha3_Sum256 : list byte -> list byte)
        (range_order : gmap addr_key nat -> list (addr_key * nat))
        (lookupFunc : list byte -> option (list (list byte))).
Hypothesis range_perm : forall m, Permutation (range_order m) (map_to_list m).

(** Empty buckets are searched for ever. *)
Lemma empty_buckets_searched now n am rs factor :
  GetAddress_loop now (replicate (S n) []) am rs factor = Some Searching.
Proof.
  revert factor. induction rs as [|r rs IH]; intros factor; [done|]. cbn [GetAddress_loop].
  destruct (lookup_lt_is_Some_2 (replicate (S n) ([] : list nat)) (Z.to_nat (Intn (len (replicate (S n) ([] : list nat))) r))) as [b Hb].
  { unfold Intn, len. rewrite length_replicate. pose proof (Z.mod_pos_bound r (Z.of_nat (S n)) ltac:(lia)). lia. }
  rewrite Hb. apply lookup_replicate in Hb as [-> _]. cbn [mbind option_bind]. apply IH.
Qed.

Lemma reset_searched now rs fresh am :
  0 <= am_nTried am -> 0 <= am_nNew am -> numAddresses am <> 0 ->
  GetAddress range_order now rs (reset fresh am) = Some Searching.
Proof.
  intros Ht Hn Hne. unfold GetAddress, numAddresses in *. cbn [reset am_nTried am_nNew am_addrTried].
  destruct (Z.eqb_spec (am_nTried am + am_nNew am) 0); [done|].
  assert (He : new_entries range_order (reset fresh am) = replicate (Z.to_nat newBucketCount) []).
  { unfold new_entries. cbn [reset am_addrNew].
    assert (E : range_order ∅ = []) by (apply Permutation_nil; by rewrite range_perm, map_to_list_empty).
    assert (Hr : forall m, map (fun b => map snd (range_order b)) (replicate m (∅ : gmap addr_key nat)) = replicate m []).
    { induction m as [|m IH]; [done|]. cbn [replicate map]. by rewrite E, IH. }
    apply Hr. }
  rewrite He. change (Z.to_nat newBucketCount) with (S 1023). change (Z.to_nat triedBucketCount) with (S 63).
  destruct (0 <? am_nTried am); [|apply empty_buckets_searched].
  destruct (am_nNew am =? 0); [apply empty_buckets_searched|].
  destruct rs as [|r rs]; [done|]. destruct (Intn 2 r =? 0); apply empty_buckets_searched.
Qed.

(** A file with one address in the first list, whose second list names an address
    the file does not have. *)
Definition stray_file : serializedAddrManager :=
  mkSerializedAddrManager serialisationVersion [x01]
    [mkSerializedKnownAddress sample_name sample_name 0 5 0 0 1 1]
    (replicate 1024 []) (([sample_name] :: [bytes_of "9.9.9.9:8333"] :: replicate 62 [])).


(** a file that gives an onion name whose padding shortens it stops the program:
    the name is taken as an address without a network, whose key cannot be formed. *)
Theorem onion_file_panics (now : Z) (key0 fresh : list byte) :
  loadPeers sha3_Sum256 range_order lookupFunc now fresh (Saved (mkSerializedAddrManager serialisationVersion [x01]
    [mkSerializedKnownAddress (bytes_of "aaaaaaaaaa======.onion:8333") sample_name 0 5 0 0 1 1]
    (replicate 1024 []) (replicate 64 []))) (New key0) = None.
Proof. vm_compute. reflexivity. Qed.
End RefusedFiles.

