(* ===== verification/Secp.v ===== *)
(** * nogoec: the curve and its keys

    The arithmetic of secp256k1 is a third-party package, for which [nogoec] has aliases
    and wrappers.  The class [Secp256k1] has the operations the other packages use and
    [Secp256k1Laws] what they rely on: a group of prime order, whose points have
    coordinates and compressed names.  A point stands for its Jacobian representations
    and, with the coordinates 0 and 0 for infinity, for the public key made of its
    affine coordinates.  Scalars are numbers modulo the order.  [exponents] is a model of
    the laws, in which a point is its own logarithm. *)

From Stdlib Require Import ZArith Lia.
From S2P Require Import Prelude WireCommon.
Open Scope Z_scope.

(** ** Scalars *)

(** [secp256k1.S256().N] and [.P]. *)
Definition curveN : Z := 0xfffffffffffffffffffffffffffffffebaaedce6af48a03bbfd25e8cd0364141.
Definition curveP : Z := 2 ^ 256 - 2 ^ 32 - 977.

(** All arithmetic of a scalar is modulo the group order. *)
Definition ModNScalar : Type := Z.
Definition sc_ok (a : ModNScalar) : Prop := 0 <= a < curveN.
Definition sc_add (a b : ModNScalar) : ModNScalar := (a + b) mod curveN.
Definition sc_mul (a b : ModNScalar) : ModNScalar := (a * b) mod curveN.
Definition sc_neg (a : ModNScalar) : ModNScalar := (- a) mod curveN.
Definition sc_bytes (a : ModNScalar) : list byte := be_put 32 a.
(** [SetByteSlice] and [SetBytes] take at most 32 bytes; the second component is the
    overflow they report. *)
Definition SetByteSlice (b : list byte) : ModNScalar * bool :=
  let v := be_get (take 32 b) in (v mod curveN, curveN <=? v).

(** ** Points *)

Class Secp256k1 : Type := {
  pt : Type;
  pt_eq_dec :: EqDecision pt;
  infinityPoint : pt;
  basePoint : pt;
  AddNonConst : pt -> pt -> pt;
  ScalarMultNonConst : ModNScalar -> pt -> pt;
  pt_X : pt -> Z;
  pt_Y : pt -> Z;
  SerializeCompressed : pt -> list byte;
  secp_ParsePubKey : list byte -> option pt;
}.

Class Secp256k1Laws `{Secp256k1} : Prop := {
  law_add_comm P Q : AddNonConst P Q = AddNonConst Q P;
  law_add_assoc P Q R : AddNonConst P (AddNonConst Q R) = AddNonConst (AddNonConst P Q) R;
  law_add_inf P : AddNonConst infinityPoint P = P;
  law_mul_0 P : ScalarMultNonConst 0 P = infinityPoint;
  law_mul_1 P : ScalarMultNonConst 1 P = P;
  law_mul_add a b P : sc_ok a -> sc_ok b ->
    ScalarMultNonConst (sc_add a b) P = AddNonConst (ScalarMultNonConst a P) (ScalarMultNonConst b P);
  law_mul_mul a b P : sc_ok a -> sc_ok b ->
    ScalarMultNonConst (sc_mul a b) P = ScalarMultNonConst a (ScalarMultNonConst b P);
  law_mul_pt a P Q : sc_ok a ->
    ScalarMultNonConst a (AddNonConst P Q) = AddNonConst (ScalarMultNonConst a P) (ScalarMultNonConst a Q);
  law_order a : sc_ok a -> ScalarMultNonConst a basePoint = infinityPoint -> a = 0;
  law_coordinates P : 0 <= pt_X P < curveP /\ 0 <= pt_Y P < curveP;
  law_infinity P : pt_X P = 0 /\ pt_Y P = 0 <-> P = infinityPoint;
  law_neg P : P <> infinityPoint ->
    pt_X (ScalarMultNonConst (curveN - 1) P) = pt_X P /\
    Z.odd (pt_Y (ScalarMultNonConst (curveN - 1) P)) = negb (Z.odd (pt_Y P));
  law_serialize P :
    SerializeCompressed P = (if Z.odd (pt_Y P) then x03 else x02) :: be_put 32 (pt_X P);
  law_parse P : P <> infinityPoint -> secp_ParsePubKey (SerializeCompressed P) = Some P;
  law_parse_33 b P : length b = 33%nat -> secp_ParsePubKey b = Some P ->
    P <> infinityPoint /\ b = SerializeCompressed P;
}.

(** ** The wrappers *)

Section Wrappers.
Context `{Secp256k1}.

(** The test [(X.IsZero() && Y.IsZero()) || Z.IsZero()], and the comparison with
    [infinityPoint]. *)
Definition IsInfinity (P : pt) : bool := bool_decide (P = infinityPoint).

(** A public key is on the curve unless it is the one made of infinity. *)
Definition IsOnCurve (P : pt) : bool := negb (IsInfinity P).

Definition ScalarBaseMultNonConst (k : ModNScalar) : pt := ScalarMultNonConst k basePoint.

Inductive curve_error : Type :=
| ErrPubKeyInvalidLen
| ErrPubKey.

Definition ParsePubKey (pubKeyStr : list byte) : result curve_error pt :=
  match secp_ParsePubKey pubKeyStr with Some P => Ok P | None => Err ErrPubKey end.

Definition ParseJacobian (point : list byte) : result curve_error pt :=
  match point with
  | b :: _ =>
      if negb (len point =? 33) then Err ErrPubKeyInvalidLen
      else if b2z b =? 0 then Ok infinityPoint
      else ParsePubKey point
  | [] => Err ErrPubKeyInvalidLen
  end.

Definition JacobianToByteSlice (P : pt) : list byte :=
  if IsInfinity P then replicate 33 x00 else SerializeCompressed P.

Definition GeneratorJacobian : pt := ScalarBaseMultNonConst 1.
Definition Generator : pt := ScalarBaseMultNonConst 1.

(** ** Keys *)

Definition PubKeyBytesLenCompressed : Z := 33.
Definition pubkeyCompressed : Z := 0x2.
Definition PrivKeyBytesLen : Z := 32.

Definition IsCompressedPubKey (pubKey : list byte) : bool :=
  match pubKey with
  | b :: _ => (len pubKey =? PubKeyBytesLenCompressed) && (Z.ldiff (b2z b) 0x1 =? pubkeyCompressed)
  | [] => false
  end.

Definition SerializedKey : Type := list byte.
Definition SerializedKey_ToPubKey (s : SerializedKey) : result curve_error pt := ParsePubKey s.
Definition SchnorrSerialized (s : SerializedKey) : list byte := drop 1 s.
Definition SerializedKey_CopyBytes (s : SerializedKey) : list byte := s.
Definition ToSerialized (pubKey : pt) : SerializedKey := SerializeCompressed pubKey.

Definition PrivateKey : Type := ModNScalar.
Definition PubKey (key : PrivateKey) : pt := ScalarBaseMultNonConst key.
Definition PrivKeyFromScalar (key : ModNScalar) : PrivateKey := key.
Definition PrivKeyFromBytes (pk : list byte) : PrivateKey * pt :=
  let privKey := fst (SetByteSlice pk) in (privKey, PubKey privKey).
End Wrappers.

(** ** Congruence modulo the order *)

Definition eqm (a b : Z) : Prop := a mod curveN = b mod curveN.

Lemma curveN_pos : 0 < curveN. Proof. done. Qed.
Lemma curveN_below : curveN < curveP /\ curveP < 2 ^ 256. Proof. done. Qed.

#[export] Instance eqm_equiv : Equivalence eqm.
Proof. unfold eqm. split; [by intros a|by intros a b|by intros a b c -> ->]. Qed.
#[export] Instance eqm_add : Proper (eqm ==> eqm ==> eqm) Z.add.
Proof. intros a a' Ha b b' Hb. unfold eqm in *. by rewrite Z.add_mod, Ha, Hb, <- Z.add_mod. Qed.
#[export] Instance eqm_mul : Proper (eqm ==> eqm ==> eqm) Z.mul.
Proof. intros a a' Ha b b' Hb. unfold eqm in *. by rewrite Z.mul_mod, Ha, Hb, <- Z.mul_mod. Qed.
#[export] Instance eqm_opp : Proper (eqm ==> eqm) Z.opp.
Proof.
  intros a a' Ha. rewrite <- (Z.mul_1_l (- a)), <- (Z.mul_1_l (- a')), !Z.mul_opp_r, <- !Z.mul_opp_l.
  by rewrite Ha.
Qed.
Lemma eqm_mod a : eqm (a mod curveN) a.
Proof. unfold eqm. by rewrite Z.mod_mod. Qed.
Lemma eqm_order : eqm curveN 0.
Proof. done. Qed.
Lemma eqm_add_order a : eqm (a + curveN) a.
Proof. rewrite eqm_order. by rewrite Z.add_0_r. Qed.

Lemma sc_add_eqm a b : eqm (sc_add a b) (a + b). Proof. apply eqm_mod. Qed.
Lemma sc_mul_eqm a b : eqm (sc_mul a b) (a * b). Proof. apply eqm_mod. Qed.
Lemma sc_neg_eqm a : eqm (sc_neg a) (- a). Proof. apply eqm_mod. Qed.
#[export] Hint Rewrite sc_add_eqm sc_mul_eqm sc_neg_eqm : scalar.

Lemma mod_sc a : sc_ok (a mod curveN).
Proof. unfold sc_ok. by apply Z.mod_pos_bound. Qed.
Lemma sc_add_ok a b : sc_ok (sc_add a b). Proof. apply mod_sc. Qed.
Lemma sc_mul_ok a b : sc_ok (sc_mul a b). Proof. apply mod_sc. Qed.
Lemma sc_neg_ok a : sc_ok (sc_neg a). Proof. apply mod_sc. Qed.
Lemma sc_0 : sc_ok 0. Proof. done. Qed.
Lemma sc_1 : sc_ok 1. Proof. done. Qed.
Lemma SetByteSlice_ok b : sc_ok (fst (SetByteSlice b)). Proof. apply mod_sc. Qed.
#[export] Hint Resolve mod_sc sc_add_ok sc_mul_ok sc_neg_ok sc_0 sc_1 SetByteSlice_ok : nogo.

Lemma sc_small a : sc_ok a -> a mod curveN = a.
Proof. apply Z.mod_small. Qed.
Lemma eqm_sc a b : sc_ok a -> sc_ok b -> eqm a b -> a = b.
Proof. unfold eqm. intros Ha Hb. by rewrite !sc_small. Qed.
Lemma sc_neg_value a : sc_ok a -> a <> 0 -> sc_neg a = curveN - a.
Proof.
  intros Ha Hne. apply eqm_sc; [apply sc_neg_ok|unfold sc_ok in *; lia|].
  rewrite sc_neg_eqm, <- (eqm_add_order (- a)). by replace (- a + curveN) with (curveN - a) by lia.
Qed.

Lemma SetByteSlice_bytes a : sc_ok a -> SetByteSlice (sc_bytes a) = (a, false).
Proof.
  intros Ha. unfold SetByteSlice, sc_bytes. rewrite take_ge by (by rewrite length_be_put).
  rewrite be_get_put. 2:{ unfold sc_ok in Ha. pose proof curveN_below. change (256 ^ Z.of_nat 32) with (2 ^ 256). lia. }
  rewrite sc_small by done. f_equal. unfold sc_ok in Ha. lia.
Qed.

Lemma SetByteSlice_app a t : sc_ok a -> SetByteSlice (sc_bytes a ++ t) = (a, false).
Proof.
  intros Ha. rewrite <- (SetByteSlice_bytes a Ha). unfold SetByteSlice.
  rewrite take_app_le by (unfold sc_bytes; by rewrite length_be_put). done.
Qed.

(** ** Points as a module over the integers *)

Section Module.
Context `{Secp256k1Laws}.

Definition zmul (a : Z) (P : pt) : pt := ScalarMultNonConst (a mod curveN) P.

#[export] Instance zmul_Proper : Proper (eqm ==> eq ==> eq) zmul.
Proof. intros a a' Ha P P' ->. unfold zmul. by rewrite Ha. Qed.

Lemma zmul_sc a P : sc_ok a -> ScalarMultNonConst a P = zmul a P.
Proof. intros Ha. unfold zmul. by rewrite sc_small. Qed.
Lemma zmul_base a : sc_ok a -> ScalarBaseMultNonConst a = zmul a basePoint.
Proof. apply zmul_sc. Qed.
Lemma zmul_add a b P : zmul (a + b) P = AddNonConst (zmul a P) (zmul b P).
Proof.
  unfold zmul. rewrite <- law_mul_add by apply mod_sc. f_equal. unfold sc_add. by rewrite Z.add_mod.
Qed.
Lemma zmul_mul a b P : zmul (a * b) P = zmul a (zmul b P).
Proof.
  unfold zmul. rewrite <- law_mul_mul by apply mod_sc. f_equal. unfold sc_mul. by rewrite Z.mul_mod.
Qed.
Lemma zmul_pt a P Q : zmul a (AddNonConst P Q) = AddNonConst (zmul a P) (zmul a Q).
Proof. unfold zmul. by rewrite law_mul_pt by apply mod_sc. Qed.
Lemma zmul_0 P : zmul 0 P = infinityPoint. Proof. apply law_mul_0. Qed.
Lemma zmul_1 P : zmul 1 P = P. Proof. apply law_mul_1. Qed.
Lemma zmul_inf a : zmul a infinityPoint = infinityPoint.
Proof. by rewrite <- (zmul_0 infinityPoint), <- zmul_mul, Z.mul_0_r. Qed.
Lemma add_inf_r P : AddNonConst P infinityPoint = P.
Proof. by rewrite law_add_comm, law_add_inf. Qed.
Lemma zmul_base_inf a : zmul a basePoint = infinityPoint <-> eqm a 0.
Proof.
  split; [|intros ->; apply zmul_0]. intros E. apply law_order in E; [|apply mod_sc]. exact E.
Qed.
Lemma zmul_neg_1 P : zmul (-1) P = ScalarMultNonConst (curveN - 1) P.
Proof. rewrite <- (eqm_add_order (-1)). by rewrite <- zmul_sc. Qed.
Lemma neg_neg P : zmul (-1) (zmul (-1) P) = P.
Proof. rewrite <- zmul_mul. apply zmul_1. Qed.
Lemma neg_inf P : zmul (-1) P = infinityPoint <-> P = infinityPoint.
Proof. split; [|intros ->; apply zmul_inf]. intros E. by rewrite <- (neg_neg P), E, zmul_inf. Qed.
Lemma neg_X P : P <> infinityPoint -> pt_X (zmul (-1) P) = pt_X P.
Proof. rewrite zmul_neg_1. apply law_neg. Qed.
Lemma neg_odd P : P <> infinityPoint -> Z.odd (pt_Y (zmul (-1) P)) = negb (Z.odd (pt_Y P)).
Proof. rewrite zmul_neg_1. apply law_neg. Qed.

Lemma serialize_33 P : length (SerializeCompressed P) = 33%nat.
Proof. rewrite law_serialize. cbn [length]. by rewrite length_be_put. Qed.

(** A point is given by its x coordinate and the parity of the other. *)
Lemma serialize_inj P Q : P <> infinityPoint -> Q <> infinityPoint ->
  SerializeCompressed P = SerializeCompressed Q -> P = Q.
Proof. intros HP HQ E. apply law_parse in HP, HQ. congruence. Qed.

Lemma ParsePubKey_serialize P : P <> infinityPoint -> ParsePubKey (SerializeCompressed P) = Ok P.
Proof. intros HP. unfold ParsePubKey. by rewrite law_parse. Qed.

Lemma be_32_inj x y : 0 <= x < curveP -> 0 <= y < curveP -> be_put 32 x = be_put 32 y -> x = y.
Proof.
  intros Hx Hy E. apply (f_equal be_get) in E. pose proof curveN_below.
  rewrite !be_get_put in E by (change (256 ^ Z.of_nat 32) with (2 ^ 256); lia). done.
Qed.

Lemma pt_ext P Q : pt_X P = pt_X Q -> Z.odd (pt_Y P) = Z.odd (pt_Y Q) ->
  P <> infinityPoint -> Q <> infinityPoint -> P = Q.
Proof. intros Ex Ey HP HQ. apply serialize_inj; [done..|]. by rewrite !law_serialize, Ex, Ey. Qed.

(** ParseJacobian reads what JacobianToByteSlice writes, infinity included. *)
Lemma ParseJacobian_bytes P : ParseJacobian (JacobianToByteSlice P) = Ok P.
Proof.
  unfold JacobianToByteSlice, IsInfinity. case_bool_decide as E; [by subst|].
  pose proof (ParsePubKey_serialize P E) as HP. pose proof (serialize_33 P) as Hl.
  rewrite law_serialize in *. unfold ParseJacobian.
  rewrite (proj2 (Z.eqb_eq (len _) 33)) by (unfold len; by rewrite Hl). cbn [negb].
  by destruct (Z.odd (pt_Y P)).
Qed.

Lemma ParseJacobian_serialize P : P <> infinityPoint -> ParseJacobian (SerializeCompressed P) = Ok P.
Proof.
  intros HP. rewrite <- (ParseJacobian_bytes P). unfold JacobianToByteSlice, IsInfinity.
  by rewrite bool_decide_eq_false_2.
Qed.

Lemma zmul_base_finite d : sc_ok d -> d <> 0 -> zmul d basePoint <> infinityPoint.
Proof.
  intros Hd Hne E. apply zmul_base_inf in E. apply Hne, eqm_sc; [exact Hd|exact sc_0|exact E].
Qed.
Lemma PubKey_finite d : sc_ok d -> d <> 0 -> PubKey d <> infinityPoint.
Proof.
  intros Hd Hne. unfold PubKey. rewrite zmul_base by done. by apply zmul_base_finite.
Qed.
End Module.

(** ** A model of the laws *)

(** A point is the number of times the base point is added to itself. *)
Definition exponent : Type := { k : Z | (0 <=? k) && (k <? curveN) = true }.
Lemma exponent_ok (k : Z) : (0 <=? k mod curveN) && (k mod curveN <? curveN) = true.
Proof. pose proof (Z.mod_pos_bound k curveN curveN_pos). apply andb_true_intro. lia. Qed.
Definition exponent_of (k : Z) : exponent := exist _ (k mod curveN) (exponent_ok k).

Lemma exponent_ext (a b : exponent) : `a = `b -> a = b.
Proof.
  destruct a as [a Ha], b as [b Hb]. cbn. intros <-. f_equal. apply Eqdep_dec.UIP_dec, Bool.bool_dec.
Qed.
Lemma exponent_range (a : exponent) : sc_ok (`a).
Proof. destruct a as [a Ha]. unfold sc_ok. cbn. lia. Qed.

#[export] Instance exponent_eq_dec : EqDecision exponent.
Proof.
  intros a b. destruct (decide (`a = `b)) as [E|E]; [left; by apply exponent_ext|right; by intros ->].
Defined.

Definition exponent_X (a : exponent) : Z := if `a =? 0 then 0 else Z.min (`a) (curveN - `a).
Definition exponent_bytes (a : exponent) : list byte :=
  (if Z.odd (`a) then x03 else x02) :: be_put 32 (exponent_X a).
Definition exponent_parse (b : list byte) : option exponent :=
  match b with
  | h :: t =>
      let x := be_get t in
      let odd := Byte.eqb h x03 in
      if (length t =? 32)%nat && (odd || Byte.eqb h x02) && (1 <=? x) && (2 * x <? curveN)
      then Some (exponent_of (if Bool.eqb (Z.odd x) odd then x else curveN - x))
      else None
  | [] => None
  end.

#[export] Instance exponents : Secp256k1 := {|
  pt := exponent;
  infinityPoint := exponent_of 0;
  basePoint := exponent_of 1;
  AddNonConst a b := exponent_of (`a + `b);
  ScalarMultNonConst k a := exponent_of (k * `a);
  pt_X := exponent_X;
  pt_Y a := `a;
  SerializeCompressed := exponent_bytes;
  secp_ParsePubKey := exponent_parse;
|}.

Lemma exponent_X_range a : a <> exponent_of 0 -> 1 <= exponent_X a /\ 2 * exponent_X a < curveN.
Proof.
  intros Hne. pose proof (exponent_range a) as Ha. unfold sc_ok in Ha. unfold exponent_X.
  assert (`a <> 0) by (intros E; apply Hne, exponent_ext; by rewrite E).
  rewrite (proj2 (Z.eqb_neq _ _)) by done.
  assert (Hodd : curveN mod 2 = 1) by done. pose proof (Z.div_mod curveN 2 ltac:(lia)). lia.
Qed.

Lemma exponent_odd_neg k : Z.odd (curveN - k) = negb (Z.odd k).
Proof. rewrite Z.odd_sub. by destruct (Z.odd k). Qed.

Lemma exponent_parse_bytes a : a <> exponent_of 0 -> exponent_parse (exponent_bytes a) = Some a.
Proof.
  intros Hne. destruct (exponent_X_range a Hne) as [H1 H2]. pose proof curveN_below.
  unfold exponent_parse, exponent_bytes. rewrite length_be_put.
  rewrite be_get_put by (change (256 ^ Z.of_nat 32) with (2 ^ 256); lia).
  rewrite (proj2 (Z.leb_le _ _)), (proj2 (Z.ltb_lt _ _)) by lia.
  assert (Hh : (let h := if Z.odd (`a) then x03 else x02 in
    Byte.eqb h x03 = Z.odd (`a) /\ (Byte.eqb h x03 || Byte.eqb h x02) = true)) by (by destruct (Z.odd (`a))).
  cbv zeta in Hh. destruct Hh as [-> Ho]. rewrite orb_comm in Ho.
  replace (Z.odd (`a) || Byte.eqb (if Z.odd (`a) then x03 else x02) x02) with true by (by destruct (Z.odd (`a))).
  cbn [Nat.eqb andb]. f_equal. apply exponent_ext. cbn [exponent_of proj1_sig].
  pose proof (exponent_range a) as Ha. unfold sc_ok in Ha. unfold exponent_X in *.
  assert (Hz : `a <> 0) by (intros E; apply Hne, exponent_ext; by rewrite E).
  rewrite (proj2 (Z.eqb_neq _ _)) in * by done.
  destruct (Z.min_spec (`a) (curveN - `a)) as [[_ ->]|[_ ->]].
  - rewrite Bool.eqb_reflx. apply Z.mod_small. lia.
  - rewrite exponent_odd_neg. replace (Bool.eqb (negb (Z.odd (`a))) (Z.odd (`a))) with false by (by destruct (Z.odd (`a))).
    rewrite Z.mod_small by lia. lia.
Qed.

Lemma exponent_parse_33 b a : length b = 33%nat -> exponent_parse b = Some a ->
  a <> exponent_of 0 /\ b = exponent_bytes a.
Proof.
  intros Hl. destruct b as [|h t]; [done|]. unfold exponent_parse.
  destruct (Nat.eqb_spec (length t) 32) as [Ht|]; [|done]. cbn [andb].
  destruct (Byte.eqb h x03 || Byte.eqb h x02) eqn:Eh; [|done].
  destruct (Z.leb_spec 1 (be_get t)); [|done]. destruct (Z.ltb_spec (2 * be_get t) curveN); [|done].
  cbn [andb]. intros [= <-].
  assert (Hput : be_put 32 (be_get t) = t) by (by rewrite <- Ht, be_put_get).
  assert (Hh : h = if Byte.eqb h x03 then x03 else x02).
  { destruct (Byte.eqb h x03) eqn:E3; [by apply Byte.byte_dec_bl|]. by apply Byte.byte_dec_bl. }
  set (x := be_get t) in *.
  assert (Hval : forall k, 1 <= k < curveN -> proj1_sig (exponent_of k) = k) by (intros; by apply Z.mod_small; lia).
  set (k := if Bool.eqb (Z.odd x) (Byte.eqb h x03) then x else curveN - x).
  assert (Hk : 1 <= k < curveN /\ Z.odd k = Byte.eqb h x03 /\ Z.min k (curveN - k) = x).
  { subst k. destruct (Bool.eqb (Z.odd x) (Byte.eqb h x03)) eqn:E.
    - apply Bool.eqb_prop in E. split; [lia|]. split; [done|lia].
    - apply Bool.eqb_false_iff in E. split; [lia|]. split; [|lia]. rewrite exponent_odd_neg.
      by destruct (Z.odd x), (Byte.eqb h x03). }
  destruct Hk as (Hk1 & Hk2 & Hk3). split.
  - intros E. apply (f_equal proj1_sig) in E. rewrite Hval in E by done. cbn in E. change (0 mod curveN) with 0 in E. lia.
  - unfold exponent_bytes, exponent_X. rewrite Hval by done. rewrite (proj2 (Z.eqb_neq _ _)) by lia.
    rewrite Hk2, Hk3, Hput. by rewrite Hh at 1.
Qed.

#[export] Instance exponents_laws : Secp256k1Laws.
Proof.
  split; cbn [pt infinityPoint basePoint AddNonConst ScalarMultNonConst pt_X pt_Y SerializeCompressed secp_ParsePubKey exponents].
  - intros P Q. apply exponent_ext. cbn. by rewrite Z.add_comm.
  - intros P Q R. apply exponent_ext. cbn. rewrite Z.add_mod_idemp_l, Z.add_mod_idemp_r by done. by rewrite Z.add_assoc.
  - intros P. apply exponent_ext. cbn. change (0 mod curveN) with 0. apply sc_small, exponent_range.
  - intros P. by apply exponent_ext.
  - intros P. apply exponent_ext. cbn [exponent_of proj1_sig]. rewrite Z.mul_1_l. apply sc_small, exponent_range.
  - intros a b P _ _. apply exponent_ext. cbn. unfold sc_add.
    rewrite Z.mul_mod_idemp_l, Z.add_mod_idemp_l, Z.add_mod_idemp_r by done. by rewrite Z.mul_add_distr_r.
  - intros a b P _ _. apply exponent_ext. cbn. unfold sc_mul.
    rewrite Z.mul_mod_idemp_l, Z.mul_mod_idemp_r by done. by rewrite Z.mul_assoc.
  - intros a P Q _. apply exponent_ext. cbn.
    rewrite Z.mul_mod_idemp_r, Z.add_mod_idemp_l, Z.add_mod_idemp_r by done. by rewrite Z.mul_add_distr_l.
  - intros a Ha E. apply (f_equal proj1_sig) in E. cbn in E.
    change (1 mod curveN) with 1 in E. rewrite Z.mul_1_r in E. by rewrite sc_small in E.
  - intros P. pose proof (exponent_range P) as HP. unfold sc_ok in HP. unfold exponent_X.
    pose proof curveN_below. destruct (`P =? 0); lia.
  - intros P. unfold exponent_X. split; [|by intros ->]. intros [_ E]. by apply exponent_ext.
  - intros P Hne. pose proof (exponent_range P) as HP. unfold sc_ok in HP.
    assert (Hz : `P <> 0) by (intros E; apply Hne, exponent_ext; by rewrite E).
    assert (E : proj1_sig (exponent_of ((curveN - 1) * `P)) = curveN - `P).
    { cbn [exponent_of proj1_sig]. symmetry. apply (Z.mod_unique _ _ (`P - 1)); lia. }
    unfold exponent_X. rewrite E, exponent_odd_neg. split; [|done].
    rewrite !(proj2 (Z.eqb_neq _ _)) by lia. lia.
  - done.
  - apply exponent_parse_bytes.
  - apply exponent_parse_33.
Qed.
