(* ===== verification/Schnorr.v ===== *)
(** * nogoec/schnorr: signatures of BIP 340

    The code of [signature.go] and [pubkey.go] over the curve of [Secp].  The nonces of
    RFC 6979 are a parameter; signing tries one after the other, with a bound [fuel] on
    their number. *)

From Stdlib Require Import ZArith Lia.
From S2P Require Import Prelude WireCommon ChainHash Secp.
Open Scope Z_scope.

Definition SignatureSize : Z := 64.
Definition scalarSize : Z := 32.
Definition PubKeyBytesLen : Z := 32.
Definition rfc6979ExtraDataV0 : list byte := map z2b
  [0xa3; 0xeb; 0x4c; 0x18; 0x2f; 0xae; 0x7e; 0xf4;
   0xe8; 0x10; 0xc6; 0xee; 0x13; 0xb0; 0xe9; 0x26;
   0x68; 0x6d; 0x71; 0xe8; 0x7f; 0x39; 0x4f; 0x79;
   0x9c; 0x00; 0xa5; 0x21; 0x03; 0xcb; 0x4e; 0x17].

Inductive schnorr_error : Type :=
| ErrSigTooShort
| ErrSigTooLong
| ErrSigRTooBig
| ErrInvalidHashLen
| ErrNilPubKey
| ErrBadPubKeySize
| ErrPubKeyNotOnCurve
| ErrCurve (e : curve_error)
| ErrSigRNotOnCurve
| ErrSigRYIsOdd
| ErrUnequalRValues
| ErrSchnorrHashValue
| ErrPrivateKeyIsZero.

Record Signature : Type := mkSignature { sig_r : Z; sig_s : ModNScalar }.
Definition NewSignature (r : Z) (s : ModNScalar) : Signature := mkSignature (r mod curveP) s.

Definition Signature_Serialize (sig : Signature) : list byte :=
  be_put 32 (sig_r sig) ++ sc_bytes (sig_s sig).

(** The overflow of the second scalar is not looked at. *)
Definition ParseSignature (sig : list byte) : result schnorr_error Signature :=
  if len sig <? SignatureSize then Err ErrSigTooShort
  else if SignatureSize <? len sig then Err ErrSigTooLong
  else
    let r := be_get (take 32 sig) in
    if curveP <=? r then Err ErrSigRTooBig
    else
      let '(s, _) := SetByteSlice (drop 32 sig) in
      Ok (NewSignature r s).

Definition Signature_IsEqual (sig otherSig : Signature) : bool :=
  (sig_r sig =? sig_r otherSig) && (sig_s sig =? sig_s otherSig).

Section Schnorr.
Context `{Secp256k1}.
Variable NonceRFC6979 : list byte -> list byte -> list byte -> list byte -> Z -> ModNScalar.

(** ** Public keys of 32 bytes *)

(** [None] is a nil slice. *)
Definition schnorr_ParsePubKey (pubKeyStr : option (list byte)) : result schnorr_error pt :=
  match pubKeyStr with
  | None => Err ErrNilPubKey
  | Some pubKeyStr =>
      if negb (len pubKeyStr =? PubKeyBytesLen) then Err ErrBadPubKeySize
      else
        let keyCompressed := x02 :: pubKeyStr in
        match ParsePubKey keyCompressed with Ok P => Ok P | Err e => Err (ErrCurve e) end
  end.

Definition SerializePubKey (pub : pt) : list byte := drop 1 (SerializeCompressed pub).

(** ** Verifying *)

Definition challenge (r : Z) (pBytes hash : list byte) : list byte :=
  TaggedHash TagBIP0340Challenge [be_put 32 r; pBytes; hash].

Definition schnorrVerify (sig : Signature) (hash pubKeyBytes : list byte) : result schnorr_error unit :=
  if negb (len hash =? scalarSize) then Err ErrInvalidHashLen
  else
    P ← schnorr_ParsePubKey (Some pubKeyBytes);
    if negb (IsOnCurve P) then Err ErrPubKeyNotOnCurve
    else
      let pBytes := SerializePubKey P in
      let '(e, _) := SetByteSlice (challenge (sig_r sig) pBytes hash) in
      let e := sc_neg e in
      let sG := ScalarBaseMultNonConst (sig_s sig) in
      let eP := ScalarMultNonConst e P in
      let R := AddNonConst sG eP in
      if IsInfinity R then Err ErrSigRNotOnCurve
      else if Z.odd (pt_Y R) then Err ErrSigRYIsOdd
      else if negb (sig_r sig =? pt_X R) then Err ErrUnequalRValues
      else Ok tt.

Definition Signature_Verify (sig : Signature) (hash : list byte) (pubKey : pt) : bool :=
  match schnorrVerify sig hash (SerializePubKey pubKey) with Ok _ => true | Err _ => false end.

(** ** Signing *)

Record signOptions : Type := mkSignOptions {
  fastSign : bool;
  authNonce : option (list byte);
}.
Definition SignOption : Type := signOptions -> signOptions.
Definition defaultSignOptions : signOptions := mkSignOptions false None.
Definition FastSign : SignOption := fun o => mkSignOptions true (authNonce o).
Definition CustomNonce (auxData : list byte) : SignOption := fun o => mkSignOptions (fastSign o) (Some auxData).

Definition schnorrSign (privKey nonce : ModNScalar) (pubKey : pt) (hash : list byte) (opts : signOptions)
    : result schnorr_error Signature :=
  let R := ScalarBaseMultNonConst nonce in
  let k := if Z.odd (pt_Y R) then sc_neg nonce else nonce in
  let pBytes := SerializePubKey pubKey in
  let '(e, overflow) := SetByteSlice (challenge (pt_X R) pBytes hash) in
  if (overflow : bool) then Err ErrSchnorrHashValue
  else
    let s := sc_add (sc_mul e privKey) k in
    let sig := NewSignature (pt_X R) s in
    if negb (fastSign opts) then _ ← schnorrVerify sig hash pBytes; Ok sig
    else Ok sig.

Definition xor_bytes (a b : list byte) : list byte :=
  zip_with (fun x y => z2b (Z.lxor (b2z x) (b2z y))) a b.

(** The nonce of BIP 340 from auxiliary data. *)
Definition auxiliary_nonce (privKeyScalar : ModNScalar) (pubKeyBytes hash aux : list byte) : ModNScalar :=
  let privBytes := sc_bytes privKeyScalar in
  let t := xor_bytes (TaggedHash TagBIP0340Aux [aux]) privBytes in
  let rand := TaggedHash TagBIP0340Nonce [t; drop 1 pubKeyBytes; hash] in
  fst (SetByteSlice rand).

(** The loop over the nonces; [None] if [fuel] of them have failed. *)
Fixpoint sign_loop (fuel : nat) (iteration : Z) (privKeyScalar : ModNScalar) (pub : pt) (hash : list byte)
    (opts : signOptions) : option Signature :=
  match fuel with
  | O => None
  | S fuel =>
      let k := NonceRFC6979 (sc_bytes privKeyScalar) hash rfc6979ExtraDataV0 [] iteration in
      match schnorrSign privKeyScalar k pub hash opts with
      | Ok sig => Some sig
      | Err _ => sign_loop fuel (wrap_u32 (iteration + 1)) privKeyScalar pub hash opts
      end
  end.

Definition Sign (fuel : nat) (privKey : PrivateKey) (hash : list byte) (signOpts : list SignOption)
    : option (result schnorr_error Signature) :=
  let opts := foldl (fun o option => option o) defaultSignOptions signOpts in
  if negb (len hash =? scalarSize) then Some (Err ErrInvalidHashLen)
  else if privKey =? 0 then Some (Err ErrPrivateKeyIsZero)
  else
    let pub := PubKey privKey in
    let pubKeyBytes := SerializeCompressed pub in
    let privKeyScalar := if bool_decide (head pubKeyBytes = Some x03) then sc_neg privKey else privKey in
    match authNonce opts with
    | Some aux =>
        let kPrime := auxiliary_nonce privKeyScalar pubKeyBytes hash aux in
        if kPrime =? 0 then Some (Err ErrSchnorrHashValue)
        else Some (schnorrSign privKeyScalar kPrime pub hash opts)
    | None => Ok <$> sign_loop fuel 0 privKeyScalar pub hash opts
    end.
End Schnorr.

(** ** Points and their x coordinates *)

Section Laws.
Context `{Secp256k1Laws}.
#[local] Opaque TaggedHash.
Variable NonceRFC6979 : list byte -> list byte -> list byte -> list byte -> Z -> ModNScalar.

(** The point with the same x coordinate whose y coordinate is even. *)
Definition even_pt (P : pt) : pt := if Z.odd (pt_Y P) then zmul (-1) P else P.

Lemma even_pt_finite P : P <> infinityPoint -> even_pt P <> infinityPoint.
Proof. unfold even_pt. destruct (Z.odd (pt_Y P)); [|done]. by rewrite neg_inf. Qed.
Lemma even_pt_X P : P <> infinityPoint -> pt_X (even_pt P) = pt_X P.
Proof. unfold even_pt. intros HP. destruct (Z.odd (pt_Y P)); [by apply neg_X|done]. Qed.
Lemma even_pt_even P : P <> infinityPoint -> Z.odd (pt_Y (even_pt P)) = false.
Proof. unfold even_pt. intros HP. destruct (Z.odd (pt_Y P)) eqn:E; [by rewrite neg_odd, E|done]. Qed.
Lemma even_pt_of P : Z.odd (pt_Y P) = false -> even_pt P = P.
Proof. unfold even_pt. by intros ->. Qed.

Lemma SerializePubKey_X P : SerializePubKey P = be_put 32 (pt_X P).
Proof. unfold SerializePubKey. by rewrite law_serialize. Qed.
Lemma SerializePubKey_even P : P <> infinityPoint -> SerializePubKey (even_pt P) = SerializePubKey P.
Proof. intros HP. by rewrite !SerializePubKey_X, even_pt_X. Qed.

Lemma parse_x_only P : P <> infinityPoint ->
  schnorr_ParsePubKey (Some (SerializePubKey P)) = Ok (even_pt P).
Proof.
  intros HP. unfold schnorr_ParsePubKey.
  rewrite SerializePubKey_X at 1. unfold len. rewrite length_be_put. cbn [Z.eqb negb].
  replace (negb (Z.of_nat 32 =? PubKeyBytesLen)) with false by done.
  replace (x02 :: SerializePubKey P) with (SerializeCompressed (even_pt P)).
  { by rewrite ParsePubKey_serialize by (by apply even_pt_finite). }
  by rewrite law_serialize, even_pt_even, even_pt_X, SerializePubKey_X by done.
Qed.

Lemma schnorr_ParsePubKey_finite pk P : schnorr_ParsePubKey (Some pk) = Ok P ->
  P <> infinityPoint /\ Z.odd (pt_Y P) = false /\ pk = SerializePubKey P.
Proof.
  unfold schnorr_ParsePubKey. destruct (Z.eqb_spec (len pk) PubKeyBytesLen) as [Hl|]; [|done]. cbn [negb].
  unfold ParsePubKey. destruct (secp_ParsePubKey (x02 :: pk)) as [Q|] eqn:E; [|done]. intros [= <-].
  apply law_parse_33 in E as [HQ E]; [|unfold len, PubKeyBytesLen in Hl; cbn; lia]. split; [done|].
  rewrite law_serialize in E. rewrite SerializePubKey_X. destruct (Z.odd (pt_Y Q)); [done|]. by injection E.
Qed.

(** The number a signature is checked against. *)
Definition challenge_scalar (r : Z) (pBytes hash : list byte) : ModNScalar :=
  fst (SetByteSlice (challenge r pBytes hash)).

(** What verifying amounts to. *)
Lemma schnorrVerify_iff sig hash P :
  sc_ok (sig_s sig) -> P <> infinityPoint -> Z.odd (pt_Y P) = false ->
  schnorrVerify sig hash (SerializePubKey P) = Ok tt <->
  len hash = 32 /\ exists R, R <> infinityPoint /\ Z.odd (pt_Y R) = false /\ pt_X R = sig_r sig /\
    zmul (sig_s sig) basePoint = AddNonConst R (zmul (challenge_scalar (sig_r sig) (SerializePubKey P) hash) P).
Proof.
  intros Hs HP Hev. unfold schnorrVerify. rewrite parse_x_only, even_pt_of by done. cbn [mbind result_bind].
  destruct (Z.eqb_spec (len hash) scalarSize) as [Hl|Hl]; cbn [negb]; [|split; [done|]; by intros [? _]].
  unfold IsOnCurve, IsInfinity. rewrite (bool_decide_eq_false_2 (P = _)) by done. cbn [negb].
  unfold challenge_scalar. destruct (SetByteSlice _) as [e ov] eqn:Ee. cbn [fst].
  assert (Hok : sc_ok e) by (replace e with (fst (e, ov)) by done; rewrite <- Ee; apply SetByteSlice_ok).
  rewrite zmul_base by done. rewrite (zmul_sc (sc_neg e)) by apply sc_neg_ok.
  set (sG := zmul (sig_s sig) basePoint).
  set (R := AddNonConst sG (zmul (sc_neg e) P)).
  assert (HR : forall R', sG = AddNonConst R' (zmul e P) <-> R' = R).
  { intros R'. subst R. split; [intros ->|intros ->]; rewrite <- law_add_assoc, <- zmul_add.
    - rewrite sc_neg_eqm. by rewrite Z.add_opp_diag_r, zmul_0, add_inf_r.
    - rewrite sc_neg_eqm. by rewrite Z.add_opp_diag_l, zmul_0, add_inf_r. }
  split.
  - case_bool_decide as Hinf; [done|]. destruct (Z.odd (pt_Y R)) eqn:Hodd; [done|].
    destruct (Z.eqb_spec (sig_r sig) (pt_X R)) as [Hx|]; [|done]. intros _. split; [done|].
    exists R. split_and!; [done..|]. by apply HR.
  - intros (_ & R' & H1 & H2 & H3 & H4). apply HR in H4 as ->.
    rewrite bool_decide_eq_false_2 by done. rewrite H2, H3, Z.eqb_refl. done.
Qed.

(** ** Signing *)

Definition overflows (r : Z) (pBytes hash : list byte) : bool := snd (SetByteSlice (challenge r pBytes hash)).

Lemma schnorrSign_correct d nonce pub hash opts :
  sc_ok d -> d <> 0 -> sc_ok nonce -> nonce <> 0 -> len hash = 32 -> pub <> infinityPoint ->
  even_pt pub = zmul d basePoint ->
  let r := pt_X (zmul nonce basePoint) in
  if overflows r (SerializePubKey pub) hash
  then schnorrSign d nonce pub hash opts = Err ErrSchnorrHashValue
  else exists sig, schnorrSign d nonce pub hash opts = Ok sig /\ sig_r sig = r /\ sc_ok (sig_s sig) /\
    schnorrVerify sig hash (SerializePubKey pub) = Ok tt.
Proof.
  intros Hd Hd0 Hk Hk0 Hl Hpub HP r. unfold schnorrSign, overflows. rewrite zmul_base by done. fold r.
  pose proof (SetByteSlice_ok (challenge r (SerializePubKey pub) hash)) as He.
  pose proof (eq_refl (challenge_scalar r (SerializePubKey pub) hash)) as Ech. unfold challenge_scalar at 1 in Ech.
  destruct (SetByteSlice _) as [e ov] eqn:Ee. cbn [snd fst] in *. destruct ov; [done|].
  set (R := zmul nonce basePoint) in *.
  assert (HR : R <> infinityPoint).
  { exact (zmul_base_finite nonce Hk Hk0). }
  set (k := if Z.odd (pt_Y R) then sc_neg nonce else nonce).
  assert (HkG : zmul k basePoint = even_pt R).
  { unfold k, even_pt. destruct (Z.odd (pt_Y R)); [|done]. unfold R. rewrite <- zmul_mul, sc_neg_eqm.
    by replace (-1 * nonce) with (- nonce) by lia. }
  set (sig := NewSignature r (sc_add (sc_mul e d) k)).
  assert (Hr : sig_r sig = r).
  { unfold sig, NewSignature. cbn. apply Z.mod_small, law_coordinates. }
  assert (Hs : sc_ok (sig_s sig)) by apply sc_add_ok.
  assert (Hv : schnorrVerify sig hash (SerializePubKey pub) = Ok tt).
  { rewrite <- SerializePubKey_even by done. apply schnorrVerify_iff; [done|by apply even_pt_finite|by apply even_pt_even|].
    split; [done|]. exists (even_pt R).
    split; [by apply even_pt_finite|]. split; [by apply even_pt_even|]. split; [by rewrite Hr, even_pt_X|].
    rewrite Hr, SerializePubKey_even by done. rewrite <- Ech. unfold sig. cbn [sig_s NewSignature].
    rewrite sc_add_eqm, sc_mul_eqm, zmul_add, HkG, zmul_mul, <- HP. by rewrite law_add_comm. }
  exists sig. split; [|exact (conj Hr (conj Hs Hv))].
  destruct (fastSign opts); cbn [negb]; [done|]. by rewrite Hv.
Qed.

(** The private key that belongs to the even point. *)
Definition even_key (d : ModNScalar) : ModNScalar :=
  if Z.odd (pt_Y (zmul d basePoint)) then sc_neg d else d.

Lemma even_key_ok d : sc_ok d -> d <> 0 -> sc_ok (even_key d) /\ even_key d <> 0.
Proof.
  intros Hd Hne. unfold even_key. destruct (Z.odd _); [|done]. split; [apply sc_neg_ok|].
  rewrite sc_neg_value by done. unfold sc_ok in Hd. lia.
Qed.

Lemma even_key_pt d : zmul (even_key d) basePoint = even_pt (zmul d basePoint).
Proof.
  unfold even_key, even_pt. destruct (Z.odd _); [|done]. rewrite <- zmul_mul, sc_neg_eqm.
  by replace (-1 * d) with (- d) by lia.
Qed.

Lemma even_key_code d : sc_ok d ->
  (if bool_decide (head (SerializeCompressed (PubKey d)) = Some x03) then sc_neg d else d) = even_key d.
Proof.
  intros Hd. unfold even_key, PubKey. rewrite zmul_base, law_serialize by done. by destruct (Z.odd _).
Qed.

Hypothesis nonce_range : forall pk hash extra version i,
  sc_ok (NonceRFC6979 pk hash extra version i) /\ NonceRFC6979 pk hash extra version i <> 0.

Local Abbreviation nonce_at d hash i := (NonceRFC6979 (sc_bytes d) hash rfc6979ExtraDataV0 [] i).

Lemma sign_loop_finds d pub hash opts (j : nat) : forall fuel i,
  sc_ok d -> d <> 0 -> len hash = 32 -> pub <> infinityPoint -> even_pt pub = zmul d basePoint ->
  (j < fuel)%nat -> 0 <= i -> i + Z.of_nat j < 2 ^ 32 ->
  (forall m, (m < j)%nat -> overflows (pt_X (zmul (nonce_at d hash (i + Z.of_nat m)) basePoint)) (SerializePubKey pub) hash = true) ->
  overflows (pt_X (zmul (nonce_at d hash (i + Z.of_nat j)) basePoint)) (SerializePubKey pub) hash = false ->
  exists sig, sign_loop NonceRFC6979 fuel i d pub hash opts = Some sig /\
    sig_r sig = pt_X (zmul (nonce_at d hash (i + Z.of_nat j)) basePoint) /\ sc_ok (sig_s sig) /\
    schnorrVerify sig hash (SerializePubKey pub) = Ok tt.
Proof.
  induction j as [|j IH]; intros [|fuel] i Hd Hd0 Hl Hpub HP Hf Hi Hj Hbefore Hlast; try lia; cbn [sign_loop].
  - destruct (nonce_range (sc_bytes d) hash rfc6979ExtraDataV0 [] i) as [Hk Hk0].
    pose proof (schnorrSign_correct d _ pub hash opts Hd Hd0 Hk Hk0 Hl Hpub HP) as Hs. cbv zeta in Hs.
    rewrite Z.add_0_r in Hlast |- *. rewrite Hlast in Hs. destruct Hs as (sig & Es & Er & Hok & Hv).
    exists sig. rewrite Es. exact (conj eq_refl (conj Er (conj Hok Hv))).
  - destruct (nonce_range (sc_bytes d) hash rfc6979ExtraDataV0 [] i) as [Hk Hk0].
    pose proof (schnorrSign_correct d _ pub hash opts Hd Hd0 Hk Hk0 Hl Hpub HP) as Hs. cbv zeta in Hs.
    pose proof (Hbefore 0%nat ltac:(lia)) as Hov. rewrite Z.add_0_r in Hov. rewrite Hov in Hs. rewrite Hs.
    unfold wrap_u32. rewrite Z.mod_small by lia.
    replace (i + Z.of_nat (S j)) with (i + 1 + Z.of_nat j) in Hlast |- * by lia.
    apply IH; try assumption; [lia..|]. intros m Hm. specialize (Hbefore (S m) ltac:(lia)).
    by replace (i + 1 + Z.of_nat m) with (i + Z.of_nat (S m)) by lia.
Qed.

Lemma Verify_of_Ok sig hash P :
  schnorrVerify sig hash (SerializePubKey P) = Ok tt -> Signature_Verify sig hash P = true.
Proof. unfold Signature_Verify. by intros ->. Qed.

(** C10: What is signed verifies.  For a private key that is not zero and a message of 32
    bytes, signing with the nonces of RFC 6979 returns as soon as there is a nonce whose
    challenge is below the order, after exactly the attempts before it, with a signature
    of that nonce that verifies under the public key; signing with auxiliary data makes
    one attempt, which gives a signature that verifies or the error that nonce or
    challenge cannot be used.  Whether the last check is skipped makes no difference. *)
Theorem Sign_correct (d : ModNScalar) (hash : list byte) (signOpts : list SignOption) (fuel : nat) :
  sc_ok d -> d <> 0 -> len hash = 32 ->
  match authNonce (foldl (fun o option => option o) defaultSignOptions signOpts) with
  | Some _ =>
      Sign NonceRFC6979 fuel d hash signOpts = Some (Err ErrSchnorrHashValue) \/
      exists sig, Sign NonceRFC6979 fuel d hash signOpts = Some (Ok sig) /\
        Signature_Verify sig hash (PubKey d) = true
  | None =>
      let r i := pt_X (PubKey (nonce_at (even_key d) hash (Z.of_nat i))) in
      forall j, (j < fuel)%nat -> Z.of_nat j < 2 ^ 32 ->
        (forall i, (i < j)%nat -> overflows (r i) (SerializePubKey (PubKey d)) hash = true) ->
        overflows (r j) (SerializePubKey (PubKey d)) hash = false ->
        exists sig, Sign NonceRFC6979 fuel d hash signOpts = Some (Ok sig) /\ sig_r sig = r j /\
          Signature_Verify sig hash (PubKey d) = true
  end.
Proof.
  intros Hd Hd0 Hl. destruct (even_key_ok d Hd Hd0) as [He He0].
  pose proof (PubKey_finite d Hd Hd0) as Hpub.
  assert (HP : even_pt (PubKey d) = zmul (even_key d) basePoint) by (unfold PubKey; by rewrite zmul_base, even_key_pt).
  unfold Sign. rewrite Hl, even_key_code by done. change (negb (32 =? scalarSize)) with false. cbv iota.
  rewrite (proj2 (Z.eqb_neq d 0)) by done.
  destruct (authNonce _) as [aux|].
  - destruct (Z.eqb_spec (auxiliary_nonce (even_key d) (SerializeCompressed (PubKey d)) hash aux) 0) as [E|E]; [by left|].
    pose proof (schnorrSign_correct (even_key d) (auxiliary_nonce (even_key d) (SerializeCompressed (PubKey d)) hash aux)
      (PubKey d) hash (foldl (fun o option => option o) defaultSignOptions signOpts) He He0 (SetByteSlice_ok _) E Hl Hpub HP) as Hs.
    cbv zeta in Hs. destruct (overflows _ _ _); [left; by rewrite Hs|right].
    destruct Hs as (sig & Es & _ & _ & Hv). exists sig. rewrite Es. split; [done|by apply Verify_of_Ok].
  - cbv zeta. set (r := fun i : nat => pt_X (PubKey (nonce_at (even_key d) hash (Z.of_nat i)))).
    intros j Hj H32 Hbefore Hlast.
    assert (Hr : forall i : nat, r i = pt_X (zmul (nonce_at (even_key d) hash (0 + Z.of_nat i)) basePoint)).
    { intros i. unfold r, PubKey. rewrite zmul_base; [done|apply nonce_range]. }
    destruct (sign_loop_finds (even_key d) (PubKey d) hash (foldl (fun o option => option o) defaultSignOptions signOpts)
      j fuel 0 He He0 Hl Hpub HP Hj ltac:(lia) ltac:(lia)) as (sig & Es & Er & _ & Hv).
    { intros m Hm. rewrite <- Hr. by apply Hbefore. }
    { by rewrite <- Hr. }
    exists sig. rewrite Es. split; [done|]. split; [by rewrite Er, <- Hr|by apply Verify_of_Ok].
Qed.

(** C19: Verifying decides the equation of BIP 340: the message has 32 bytes, the key is the
    x coordinate of a point P with an even y coordinate, and s G = R + e P for a point R
    that is not infinity, has an even y coordinate and the x coordinate of the signature. *)
Theorem schnorrVerify_equation (sig : Signature) (hash pk : list byte) :
  sc_ok (sig_s sig) ->
  schnorrVerify sig hash pk = Ok tt <->
  len hash = 32 /\ exists P R, pk = be_put 32 (pt_X P) /\ P <> infinityPoint /\ Z.odd (pt_Y P) = false /\
    R <> infinityPoint /\ Z.odd (pt_Y R) = false /\ pt_X R = sig_r sig /\
    ScalarBaseMultNonConst (sig_s sig) =
      AddNonConst R (ScalarMultNonConst (challenge_scalar (sig_r sig) pk hash) P).
Proof.
  intros Hs. rewrite zmul_base by done. split.
  - intros Hv. destruct (schnorr_ParsePubKey (Some pk)) as [P|e] eqn:E.
    + apply schnorr_ParsePubKey_finite in E as (HP & Hev & ->).
      apply (schnorrVerify_iff sig hash P Hs HP Hev) in Hv as (Hl & R & H1 & H2 & H3 & H4). split; [exact Hl|].
      exists P, R. rewrite zmul_sc by apply SetByteSlice_ok. split_and!; try assumption. apply SerializePubKey_X.
    + unfold schnorrVerify in Hv. rewrite E in Hv. by destruct (negb (len hash =? scalarSize)).
  - intros (Hl & P & R & -> & HP & Hev & H1 & H2 & H3 & H4).
    rewrite <- SerializePubKey_X in *. apply schnorrVerify_iff; try assumption. split; [exact Hl|]. exists R.
    rewrite zmul_sc in H4 by apply SetByteSlice_ok. split_and!; assumption.
Qed.
End Laws.

(** ** Signatures as bytes *)

Lemma length_Signature_Serialize sig : length (Signature_Serialize sig) = 64%nat.
Proof. unfold Signature_Serialize, sc_bytes. by rewrite length_app, !length_be_put. Qed.

Lemma ParseSignature_halves (r : Z) (sb : list byte) :
  0 <= r < curveP -> length sb = 32%nat ->
  ParseSignature (be_put 32 r ++ sb) = Ok (mkSignature r (be_get sb mod curveN)).
Proof.
  intros Hr Hs. unfold ParseSignature, len. rewrite length_app, length_be_put, Hs.
  change (Z.of_nat (32 + 32) <? SignatureSize) with false. change (SignatureSize <? Z.of_nat (32 + 32)) with false. cbv iota.
  rewrite take_app_le, drop_app_le by (by rewrite length_be_put).
  rewrite take_ge, drop_ge by (by rewrite length_be_put). rewrite app_nil_l. pose proof curveN_below.
  rewrite be_get_put by (change (256 ^ Z.of_nat 32) with (2 ^ 256); lia).
  rewrite (proj2 (Z.leb_gt _ _)) by lia. unfold SetByteSlice, NewSignature.
  rewrite take_ge by lia. by rewrite (Z.mod_small r) by lia.
Qed.

Lemma be_put_get_32 x : length x = 32%nat -> be_put 32 (be_get x) = x.
Proof. intros Hx. by rewrite <- Hx, be_put_get. Qed.

(** A signature in range is read back from its bytes, and the bytes of an accepted
    signature whose second half is below the order are its only serialization. *)
Theorem Signature_roundtrip :
  (forall sig, 0 <= sig_r sig < curveP -> sc_ok (sig_s sig) ->
    length (Signature_Serialize sig) = 64%nat /\ ParseSignature (Signature_Serialize sig) = Ok sig) /\
  (forall b sig, ParseSignature b = Ok sig ->
    length b = 64%nat /\ 0 <= sig_r sig < curveP /\ sc_ok (sig_s sig) /\
    (be_get (drop 32 b) < curveN <-> Signature_Serialize sig = b)).
Proof.
  split.
  - intros [r s] Hr Hs. cbn [sig_r sig_s] in *. split; [apply length_Signature_Serialize|].
    unfold Signature_Serialize. cbn [sig_r sig_s]. unfold sc_bytes. rewrite ParseSignature_halves by (try done; apply length_be_put).
    unfold sc_ok in Hs. pose proof curveN_below.
    rewrite be_get_put by (change (256 ^ Z.of_nat 32) with (2 ^ 256); lia). by rewrite Z.mod_small by lia.
  - intros b sig Hp. assert (Hl : length b = 64%nat).
    { unfold ParseSignature, len, SignatureSize in Hp.
      destruct (Z.ltb_spec (Z.of_nat (length b)) 64); [done|]. destruct (Z.ltb_spec 64 (Z.of_nat (length b))); [done|]. lia. }
    assert (Hlt : length (take 32 b) = 32%nat) by (rewrite length_take; lia).
    assert (Hld : length (drop 32 b) = 32%nat) by (rewrite length_drop; lia).
    assert (Hb : b = be_put 32 (be_get (take 32 b)) ++ drop 32 b).
    { by rewrite be_put_get_32, take_drop. }
    assert (Hr : 0 <= be_get (take 32 b) < curveP).
    { pose proof (be_get_range (take 32 b)). split; [lia|]. unfold ParseSignature, len, SignatureSize in Hp.
      rewrite Hl in Hp. change (Z.of_nat 64 <? 64) with false in Hp. change (64 <? Z.of_nat 64) with false in Hp. cbv iota in Hp.
      by destruct (Z.leb_spec curveP (be_get (take 32 b))). }
    rewrite Hb in Hp. rewrite ParseSignature_halves in Hp by done. injection Hp as <-. cbn [sig_r sig_s].
    split; [done|]. split; [done|]. split; [apply mod_sc|]. unfold Signature_Serialize. cbn [sig_r sig_s].
    pose proof (be_get_range (drop 32 b)) as [Hd _]. split.
    + intros Hs. rewrite Z.mod_small by lia. unfold sc_bytes. by rewrite (be_put_get_32 (drop 32 b)), <- Hb.
    + intros E. pose proof (eq_trans E Hb) as E'. apply app_inv_head in E'. clear E. rename E' into E. rewrite <- E. unfold sc_bytes.
      pose proof (Z.mod_pos_bound (be_get (drop 32 b)) curveN curveN_pos). pose proof curveN_below.
      rewrite be_get_put by (change (256 ^ Z.of_nat 32) with (2 ^ 256); lia). lia.
Qed.

(** The range of the second scalar is not enforced, although it is meant to be: to a
    signature with a small enough one there are other 64 bytes that are read as the same
    signature. *)
Theorem ParseSignature_second_form (sig : Signature) :
  0 <= sig_r sig < curveP -> 0 <= sig_s sig < 2 ^ 256 - curveN ->
  exists b, length b = 64%nat /\ b <> Signature_Serialize sig /\ ParseSignature b = Ok sig.
Proof.
  destruct sig as [r s]. cbn [sig_r sig_s]. intros Hr Hs.
  assert (Hn : 2 ^ 256 - curveN < curveN) by done.
  exists (be_put 32 r ++ be_put 32 (s + curveN)). split; [by rewrite length_app, !length_be_put|].
  assert (Hget : be_get (be_put 32 (s + curveN)) = s + curveN).
  { apply be_get_put. change (256 ^ Z.of_nat 32) with (2 ^ 256). pose proof curveN_pos. lia. }
  split.
  - unfold Signature_Serialize. cbn [sig_r sig_s]. intros E. apply app_inv_head in E.
    apply (f_equal be_get) in E. rewrite Hget in E. unfold sc_bytes in E. pose proof curveN_below. pose proof curveN_pos.
    rewrite be_get_put in E by (change (256 ^ Z.of_nat 32) with (2 ^ 256); lia). lia.
  - rewrite ParseSignature_halves by (try done; apply length_be_put). rewrite Hget. do 2 f_equal.
    symmetry. apply (Z.mod_unique _ _ 1); lia.
Qed.

(** ** Concrete inputs *)

(** Nonces that are 1, 2, 3 and so on. *)
Definition counting_nonce (pk hash extra version : list byte) (i : Z) : ModNScalar :=
  1 + i mod (curveN - 1).
Lemma counting_nonce_range pk hash extra version i :
  sc_ok (counting_nonce pk hash extra version i) /\ counting_nonce pk hash extra version i <> 0.
Proof.
  unfold counting_nonce, sc_ok. pose proof (Z.mod_pos_bound i (curveN - 1) ltac:(done)). lia.
Qed.

Lemma Sign_correct_witness :
  exists sig, Sign counting_nonce 1 5 (replicate 32 x07) [FastSign] = Some (Ok sig) /\ sig_r sig = 1 /\
    Signature_Verify sig (replicate 32 x07) (PubKey 5) = true.
Proof.
  apply (Sign_correct counting_nonce counting_nonce_range 5 (replicate 32 x07) [FastSign] 1
    ltac:(by unfold sc_ok) ltac:(done) ltac:(reflexivity) 0%nat ltac:(lia) ltac:(done)); [lia|].
  vm_compute. reflexivity.
Defined.

Lemma schnorrVerify_equation_witness :
  let sig := mkSignature 1 9 in
  schnorrVerify sig (replicate 32 x07) (be_put 32 5) = Ok tt <->
  len (replicate 32 x07) = 32 /\ exists P R, be_put 32 5 = be_put 32 (pt_X P) /\ P <> infinityPoint /\
    Z.odd (pt_Y P) = false /\ R <> infinityPoint /\ Z.odd (pt_Y R) = false /\ pt_X R = 1 /\
    ScalarBaseMultNonConst 9 =
      AddNonConst R (ScalarMultNonConst (challenge_scalar 1 (be_put 32 5) (replicate 32 x07)) P).
Proof. apply (schnorrVerify_equation (mkSignature 1 9)). by split. Defined.

Lemma ParseSignature_second_form_witness :
  exists b, length b = 64%nat /\ b <> Signature_Serialize (mkSignature 1 9) /\ ParseSignature b = Ok (mkSignature 1 9).
Proof. by apply ParseSignature_second_form. Defined.
