(* ===== verification/MuSig2.v ===== *)
(** * nogoec/schnorr/musig2: keys, nonces and partial signatures

    The code of [keys.go], [nonces.go] and [sign.go] over the curve of [Secp] and the
    signatures of [Schnorr].  Functional options are functions on the record of options.
    Sorting keys sorts the slice of the caller, which the code relies on afterwards;
    where it goes on with the sorted slice, so does the model.  Randomness is what its
    reader gives. *)

From Stdlib Require Import ZArith Lia.
From S2P Require Import Prelude WireCommon WireTx TxSort ChainHash Secp Schnorr.
Open Scope Z_scope.

Inductive musig_error : Type :=
| ErrTweakedKeyIsInfinity
| ErrTweakedKeyOverflows
| ErrPubkeyInvalid
| ErrRand
| ErrPartialSigInvalid
| ErrPrivKeyZero
| ErrSecretNonceZero
| ErrSecNoncePubkey
| ErrPubkeyNotIncluded
| ErrSigInvalid
| ErrNonce (e : curve_error)
| Panic.

Definition of_curve {A} (r : result curve_error A) : result musig_error A :=
  match r with Ok a => Ok a | Err e => Err (ErrNonce e) end.

Definition KeyAggTagList : list byte := bytes_of "KeyAgg list".
Definition KeyAggTagCoeff : list byte := bytes_of "KeyAgg coefficient".
Definition NonceAuxTag : list byte := bytes_of "MuSig/aux".
Definition NonceGenTag : list byte := bytes_of "MuSig/nonce".
Definition NonceBlindTag : list byte := bytes_of "MuSig/noncecoef".
Definition ChallengeHashTag : list byte := bytes_of "BIP0340/challenge".
Definition PubNonceSize : Z := 66.
Definition SecNonceSize : Z := 97.

(** [copy] into an array of [n] zeros. *)
Definition copy_into (n : nat) (src : list byte) : list byte := take n (src ++ replicate n x00).

Record KeyTweakDesc : Type := mkKeyTweakDesc { Tweak : list byte; IsXOnly : bool }.

(** ** keys.go *)

Record keyAggOption : Type := mkKeyAggOption {
  kao_keyHash : option (list byte);
  kao_uniqueKeyIndex : option Z;
  kao_tweaks : list KeyTweakDesc;
  kao_taprootTweak : bool;
  kao_bip86Tweak : bool;
}.
Definition KeyAggOption : Type := keyAggOption -> keyAggOption.
Definition WithKeysHash (keyHash : list byte) : KeyAggOption := fun o =>
  mkKeyAggOption (Some keyHash) (kao_uniqueKeyIndex o) (kao_tweaks o) (kao_taprootTweak o) (kao_bip86Tweak o).
Definition WithUniqueKeyIndex (idx : Z) : KeyAggOption := fun o =>
  mkKeyAggOption (kao_keyHash o) (Some idx) (kao_tweaks o) (kao_taprootTweak o) (kao_bip86Tweak o).
Definition WithKeyTweaks (tweaks : list KeyTweakDesc) : KeyAggOption := fun o =>
  mkKeyAggOption (kao_keyHash o) (kao_uniqueKeyIndex o) tweaks (kao_taprootTweak o) (kao_bip86Tweak o).
Definition WithTaprootKeyTweak (scriptRoot : list byte) : KeyAggOption := fun o =>
  mkKeyAggOption (kao_keyHash o) (kao_uniqueKeyIndex o) [mkKeyTweakDesc (copy_into 32 scriptRoot) true] true (kao_bip86Tweak o).
Definition WithBIP86KeyTweak : KeyAggOption := fun o =>
  mkKeyAggOption (kao_keyHash o) (kao_uniqueKeyIndex o) [mkKeyTweakDesc (replicate 32 x00) true] true true.
Definition defaultKeyAggOptions : keyAggOption := mkKeyAggOption None None [] false false.
Definition key_options (keyOpts : list KeyAggOption) : keyAggOption :=
  foldl (fun o (option : KeyAggOption) => option o) defaultKeyAggOptions keyOpts.

Section MuSig2.
Context `{Secp256k1} `{Sorter}.

Definition sortableKeys_Less (a b : pt) : bool :=
  bool_decide (bytes_Compare (SerializeCompressed a) (SerializeCompressed b) = Lt).

Definition sortKeys (keys : list pt) : list pt :=
  if sort_IsSorted sortableKeys_Less keys then keys else sort_Sort sortableKeys_Less keys.

(** The slice after a call that has sorted it or not. *)
Definition after_sort (sort : bool) (keys : list pt) : list pt := if sort then sortKeys keys else keys.

Definition keyHashFingerprint (keys : list pt) (sort : bool) : list byte :=
  let keys := after_sort sort keys in
  TaggedHash KeyAggTagList [concat (map SerializeCompressed keys)].

Definition keyBytesEqual (a b : pt) : bool :=
  bool_decide (SerializeCompressed a = SerializeCompressed b).

Definition aggregationCoefficient (keySet : list pt) (targetKey : pt) (keysHash : list byte)
    (secondKeyIdx : Z) : result musig_error ModNScalar :=
  second ← (if secondKeyIdx =? -1 then Ok false
            else match keySet !! Z.to_nat secondKeyIdx with
                 | Some k => if secondKeyIdx <? 0 then Err Panic else Ok (keyBytesEqual k targetKey)
                 | None => Err Panic
                 end);
  if (second : bool) then Ok 1
  else
    let coefficientBytes := copy_into 32 keysHash ++ SerializeCompressed targetKey in
    Ok (fst (SetByteSlice (TaggedHash KeyAggTagCoeff [coefficientBytes]))).

Fixpoint second_loop (i : Z) (first : pt) (keySet : list pt) : Z :=
  match keySet with
  | [] => -1
  | k :: keySet => if negb (keyBytesEqual k first) then i else second_loop (i + 1) first keySet
  end.
Definition secondUniqueKeyIndex (keySet : list pt) (sort : bool) : Z :=
  match after_sort sort keySet with
  | [] => -1
  | (first :: _) as keySet => second_loop 0 first keySet
  end.

Definition hasEvenY (P : pt) : bool := bool_decide (head (SerializeCompressed P) = Some x02).

Definition tweakKey (keyJ : pt) (parityAcc : ModNScalar) (tweak : list byte) (tweakAcc : ModNScalar)
    (xOnly : bool) : result musig_error (pt * ModNScalar * ModNScalar) :=
  let parityFactor := if xOnly && negb (hasEvenY keyJ) then sc_neg 1 else 1 in
  let '(tweakInt, overflows) := SetByteSlice tweak in
  if (overflows : bool) then Err ErrTweakedKeyOverflows
  else
    let tweakedGenerator := ScalarBaseMultNonConst tweakInt in
    let keyJ := ScalarMultNonConst parityFactor keyJ in
    let keyJ := AddNonConst tweakedGenerator keyJ in
    if IsInfinity keyJ then Err ErrTweakedKeyIsInfinity
    else Ok (keyJ, sc_mul parityAcc parityFactor, sc_add (sc_mul tweakAcc parityFactor) tweakInt).

Record AggregateKey : Type := mkAggregateKey { FinalKey : pt; PreTweakedKey : pt }.

Fixpoint aggregate_loop (keySet : list pt) (keysHash : list byte) (idx : Z) (keys : list pt) (finalKeyJ : pt)
    : result musig_error pt :=
  match keys with
  | [] => Ok finalKeyJ
  | key :: keys =>
      a ← aggregationCoefficient keySet key keysHash idx;
      aggregate_loop keySet keysHash idx keys (AddNonConst finalKeyJ (ScalarMultNonConst a key))
  end.

Fixpoint tweak_loop (tweaks : list KeyTweakDesc) (st : pt * ModNScalar * ModNScalar)
    : result musig_error (pt * ModNScalar * ModNScalar) :=
  match tweaks with
  | [] => Ok st
  | t :: tweaks =>
      let '(finalKeyJ, parityAcc, tweakAcc) := st in
      st ← tweakKey finalKeyJ parityAcc (Tweak t) tweakAcc (IsXOnly t);
      tweak_loop tweaks st
  end.

(** The tweak of BIP 341 in the place of the first one given. *)
Definition taproot_tweaks (combinedKey : pt) (bip86 : bool) (tweaks : list KeyTweakDesc)
    : result musig_error (list KeyTweakDesc) :=
  match tweaks with
  | [] => Err Panic
  | t :: ts =>
      match schnorr_ParsePubKey (Some (SerializePubKey combinedKey)) with
      | Err _ => Err Panic
      | Ok key =>
          let tweakBytes := if bip86 then [] else Tweak t in
          Ok (mkKeyTweakDesc (TaggedHash TagTapTweak [SerializePubKey key; tweakBytes]) (IsXOnly t) :: ts)
      end
  end.

Definition AggregateKeys (keys : list pt) (sort : bool) (keyOpts : list KeyAggOption)
    : result musig_error (AggregateKey * ModNScalar * ModNScalar) :=
  let opts := key_options keyOpts in
  let keys := after_sort sort keys in
  let keyHash := default (keyHashFingerprint keys sort) (kao_keyHash opts) in
  let uniqueKeyIndex := default (secondUniqueKeyIndex keys sort) (kao_uniqueKeyIndex opts) in
  finalKeyJ ← aggregate_loop keys keyHash uniqueKeyIndex keys infinityPoint;
  let combinedKey := finalKeyJ in
  tweaks ← (if kao_taprootTweak opts then taproot_tweaks combinedKey (kao_bip86Tweak opts) (kao_tweaks opts)
            else Ok (kao_tweaks opts));
  st ← tweak_loop tweaks (finalKeyJ, 1, 0);
  let '(finalKeyJ, parityAcc, tweakAcc) := st in
  Ok (mkAggregateKey finalKeyJ combinedKey, parityAcc, tweakAcc).

(** ** nonces.go *)

Record Nonces : Type := mkNonces { PubNonce : list byte; SecNonce : list byte }.

Definition secNonceToPubNonce (secNonce : list byte) : list byte :=
  let k1Mod := fst (SetByteSlice (take 32 secNonce)) in
  let k2Mod := fst (SetByteSlice (drop 32 secNonce)) in
  SerializeCompressed (ScalarBaseMultNonConst k1Mod) ++ SerializeCompressed (ScalarBaseMultNonConst k2Mod).

(** What the reader of random bytes gives, which may be fewer than asked for. *)
Record nonceGenOpts : Type := mkNonceGenOpts {
  randReader : option (list byte);
  ng_publicKey : option (list byte);
  ng_secretKey : list byte;
  ng_combinedKey : list byte;
  ng_msg : option (list byte);
  ng_auxInput : list byte;
}.
Definition NonceGenOption : Type := nonceGenOpts -> nonceGenOpts.
Definition defaultNonceGenOpts (cryptoRand : option (list byte)) : nonceGenOpts :=
  mkNonceGenOpts cryptoRand None [] [] None [].
Definition WithCustomRand (r : option (list byte)) : NonceGenOption := fun o =>
  mkNonceGenOpts r (ng_publicKey o) (ng_secretKey o) (ng_combinedKey o) (ng_msg o) (ng_auxInput o).
Definition WithPublicKey (pubKey : pt) : NonceGenOption := fun o =>
  mkNonceGenOpts (randReader o) (Some (SerializeCompressed pubKey)) (ng_secretKey o) (ng_combinedKey o) (ng_msg o) (ng_auxInput o).
Definition WithNonceSecretKeyAux (secKey : PrivateKey) : NonceGenOption := fun o =>
  mkNonceGenOpts (randReader o) (ng_publicKey o) (sc_bytes secKey) (ng_combinedKey o) (ng_msg o) (ng_auxInput o).
Definition WithNonceCombinedKeyAux (combinedKey : pt) : NonceGenOption := fun o =>
  mkNonceGenOpts (randReader o) (ng_publicKey o) (ng_secretKey o) (SerializePubKey combinedKey) (ng_msg o) (ng_auxInput o).
Definition WithNonceMessageAux (msg : list byte) : NonceGenOption := fun o =>
  mkNonceGenOpts (randReader o) (ng_publicKey o) (ng_secretKey o) (ng_combinedKey o) (Some msg) (ng_auxInput o).
Definition WithNonceAuxInput (aux : list byte) : NonceGenOption := fun o =>
  mkNonceGenOpts (randReader o) (ng_publicKey o) (ng_secretKey o) (ng_combinedKey o) (ng_msg o) aux.
Definition withCustomOptions (customOpts : nonceGenOpts) : NonceGenOption := fun _ => customOpts.

Definition uint8Writer (b : list byte) : list byte := be_put 1 (wrap_u8 (len b)).
Definition uint32Writer (b : list byte) : list byte := be_put 4 (wrap_u32 (len b)).
Definition uint64Writer (b : list byte) : list byte := be_put 8 (wrap_u64 (len b)).
Definition writeBytesPrefix (b : list byte) (lenWriter : list byte -> list byte) : list byte := lenWriter b ++ b.

Definition genNonceAuxBytes (rand pubkey : list byte) (i : Z) (opts : nonceGenOpts) : list byte :=
  TaggedHash NonceGenTag [
    rand ++ writeBytesPrefix pubkey uint8Writer ++ writeBytesPrefix (ng_combinedKey opts) uint8Writer ++
    match ng_msg opts with
    | None => [x00]
    | Some msg => x01 :: writeBytesPrefix msg uint64Writer
    end ++ writeBytesPrefix (ng_auxInput opts) uint32Writer ++ be_put 1 (wrap_u8 i)].

Definition GenNonces (cryptoRand : option (list byte)) (options : list NonceGenOption) : result musig_error Nonces :=
  let opts := foldl (fun o opt => opt o) (defaultNonceGenOpts cryptoRand) options in
  match ng_publicKey opts with
  | None => Err ErrPubkeyInvalid
  | Some publicKey =>
      if negb (len publicKey =? 33) then Err ErrPubkeyInvalid
      else
        match randReader opts with
        | None => Err ErrRand
        | Some r =>
            let randBytes := copy_into 32 r in
            let randBytes := if len (ng_secretKey opts) =? 32
              then xor_bytes (ng_secretKey opts) (TaggedHash NonceAuxTag [randBytes]) else randBytes in
            let k1Mod := fst (SetByteSlice (genNonceAuxBytes randBytes publicKey 0 opts)) in
            let k2Mod := fst (SetByteSlice (genNonceAuxBytes randBytes publicKey 1 opts)) in
            let secNonce := sc_bytes k1Mod ++ sc_bytes k2Mod ++ publicKey in
            Ok (mkNonces (secNonceToPubNonce secNonce) secNonce)
        end
  end.

(** One of the two sums of [AggregateNonces]. *)
Fixpoint combine_nonces (slicer : list byte -> list byte) (pubNonces : list (list byte)) (acc : pt)
    : result musig_error pt :=
  match pubNonces with
  | [] => Ok acc
  | n :: pubNonces =>
      P ← of_curve (ParseJacobian (slicer n));
      combine_nonces slicer pubNonces (AddNonConst acc P)
  end.

Definition AggregateNonces (pubNonces : list (list byte)) : result musig_error (list byte) :=
  combinedNonce1 ← combine_nonces (take 33) pubNonces infinityPoint;
  combinedNonce2 ← combine_nonces (drop 33) pubNonces infinityPoint;
  Ok (JacobianToByteSlice combinedNonce1 ++ JacobianToByteSlice combinedNonce2).
End MuSig2.

(** ** sign.go *)

(** A partial signature; [ps_R] is nil after decoding. *)
Record PartialSignature `{Secp256k1} : Type := NewPartialSignature {
  ps_S : ModNScalar;
  ps_R : option pt;
}.

Definition PartialSignature_Encode `{Secp256k1} (p : PartialSignature) : list byte := sc_bytes (ps_S p).

(** A reader that ends early is no error: the scalar stays zero. *)
Definition PartialSignature_Decode `{Secp256k1} (p : PartialSignature) (r : list byte) : result musig_error PartialSignature :=
  if len r <? 32 then Ok (NewPartialSignature _ 0 (ps_R p))
  else
    let '(s, overflows) := SetByteSlice (take 32 r) in
    if (overflows : bool) then Err ErrPartialSigInvalid else Ok (NewPartialSignature _ s (ps_R p)).

Record musig_signOptions : Type := mkMusigSignOptions {
  so_fastSign : bool;
  so_sortKeys : bool;
  so_tweaks : list KeyTweakDesc;
  so_taprootTweak : option (list byte);
  so_bip86Tweak : bool;
}.
Definition musig_SignOption : Type := musig_signOptions -> musig_signOptions.
Definition musig_defaultSignOptions : musig_signOptions := mkMusigSignOptions false false [] None false.
Definition sign_options (signOpts : list musig_SignOption) : musig_signOptions :=
  foldl (fun o (option : musig_SignOption) => option o) musig_defaultSignOptions signOpts.
Definition WithFastSign : musig_SignOption := fun o =>
  mkMusigSignOptions true (so_sortKeys o) (so_tweaks o) (so_taprootTweak o) (so_bip86Tweak o).
Definition WithSortedKeys : musig_SignOption := fun o =>
  mkMusigSignOptions (so_fastSign o) true (so_tweaks o) (so_taprootTweak o) (so_bip86Tweak o).
Definition WithTweaks (tweaks : list KeyTweakDesc) : musig_SignOption := fun o =>
  mkMusigSignOptions (so_fastSign o) (so_sortKeys o) tweaks (so_taprootTweak o) (so_bip86Tweak o).
Definition WithTaprootSignTweak (scriptRoot : option (list byte)) : musig_SignOption := fun o =>
  mkMusigSignOptions (so_fastSign o) (so_sortKeys o) (so_tweaks o) scriptRoot (so_bip86Tweak o).
Definition WithBip86SignTweak : musig_SignOption := fun o =>
  mkMusigSignOptions (so_fastSign o) (so_sortKeys o) (so_tweaks o) (so_taprootTweak o) true.

(** The options for aggregating keys that signing and verifying make of theirs. *)
Definition tweak_options (bip86Tweak : bool) (taprootTweak : option (list byte)) (tweaks : list KeyTweakDesc)
    : list KeyAggOption :=
  if bip86Tweak then [WithBIP86KeyTweak]
  else match taprootTweak with
       | Some root => [WithTaprootKeyTweak root]
       | None => match tweaks with [] => [] | _ => [WithKeyTweaks tweaks] end
       end.

Section Sign.
Context `{Secp256k1} `{Sorter}.

(** b, the factor that blinds the second nonces. *)
Definition nonce_blinder (combinedNonce : list byte) (combinedKey : pt) (msg : list byte) : ModNScalar :=
  fst (SetByteSlice (TaggedHash NonceBlindTag [combinedNonce ++ SerializePubKey combinedKey ++ msg])).

Definition computeSigningNonce (combinedNonce : list byte) (combinedKey : pt) (msg : list byte)
    : result musig_error (pt * ModNScalar) :=
  let nonceBlinder := nonce_blinder combinedNonce combinedKey msg in
  r1J ← of_curve (ParseJacobian (take 33 combinedNonce));
  r2J ← of_curve (ParseJacobian (drop 33 combinedNonce));
  let nonce := AddNonConst r1J (ScalarMultNonConst nonceBlinder r2J) in
  let nonce := if IsInfinity nonce then Generator else nonce in
  Ok (nonce, nonceBlinder).

(** e, the challenge. *)
Definition musig_challenge (nonceKey combinedKey : pt) (msg : list byte) : ModNScalar :=
  fst (SetByteSlice (TaggedHash ChallengeHashTag [SerializePubKey nonceKey ++ SerializePubKey combinedKey ++ msg])).

(** -1 if the combined key has an odd y coordinate. *)
Definition parity_of (combinedKey : pt) : ModNScalar :=
  if bool_decide (head (SerializeCompressed combinedKey) = Some x03) then sc_neg 1 else 1.

Definition verifyPartialSig (partialSig : PartialSignature) (pubNonce combinedNonce : list byte)
    (keySet : list pt) (pubKey msg : list byte) (signOpts : list musig_SignOption) : result musig_error unit :=
  let opts := sign_options signOpts in
  let s := ps_S partialSig in
  let keysHash := keyHashFingerprint keySet (so_sortKeys opts) in
  let keySet := after_sort (so_sortKeys opts) keySet in
  let uniqueKeyIndex := secondUniqueKeyIndex keySet (so_sortKeys opts) in
  let keyAggOpts := [WithKeysHash keysHash; WithUniqueKeyIndex uniqueKeyIndex] ++
    tweak_options (so_bip86Tweak opts) (so_taprootTweak opts) (so_tweaks opts) in
  agg ← AggregateKeys keySet (so_sortKeys opts) keyAggOpts;
  let '(combinedKey, parityAcc, _) := agg in
  let nonceBlinder := nonce_blinder combinedNonce (FinalKey combinedKey) msg in
  r1J ← of_curve (ParseJacobian (take 33 combinedNonce));
  r2J ← of_curve (ParseJacobian (drop 33 combinedNonce));
  let nonce := AddNonConst r1J (ScalarMultNonConst nonceBlinder r2J) in
  pubNonce1J ← of_curve (ParseJacobian (take 33 pubNonce));
  pubNonce2J ← of_curve (ParseJacobian (drop 33 pubNonce));
  let nonce := if IsInfinity nonce then GeneratorJacobian else nonce in
  let pubNonceJ := AddNonConst pubNonce1J (ScalarMultNonConst nonceBlinder pubNonce2J) in
  let pubNonceJ := if Z.odd (pt_Y nonce) then ScalarMultNonConst (curveN - 1) pubNonceJ else pubNonceJ in
  let e := musig_challenge nonce (FinalKey combinedKey) msg in
  signingKey ← of_curve (ParsePubKey pubKey);
  a ← aggregationCoefficient keySet signingKey keysHash uniqueKeyIndex;
  let finalParityFactor := sc_mul (parity_of (FinalKey combinedKey)) parityAcc in
  let sG := ScalarBaseMultNonConst s in
  let rP := ScalarMultNonConst (sc_mul (sc_mul e a) finalParityFactor) signingKey in
  let rP := AddNonConst rP pubNonceJ in
  if negb (bool_decide (sG = rP)) then Err ErrPartialSigInvalid else Ok tt.

Definition PartialSignature_Verify (p : PartialSignature) (pubNonce combinedNonce : list byte)
    (keySet : list pt) (signingKey : pt) (msg : list byte) (signOpts : list musig_SignOption) : bool :=
  match verifyPartialSig p pubNonce combinedNonce keySet (SerializeCompressed signingKey) msg signOpts with
  | Ok _ => true | Err _ => false
  end.

Definition musig_Sign (secNonce : list byte) (privKey : PrivateKey) (combinedNonce : list byte)
    (pubKeys : list pt) (msg : list byte) (signOpts : list musig_SignOption) : result musig_error PartialSignature :=
  let opts := sign_options signOpts in
  if negb (bool_decide (drop 64 secNonce = SerializeCompressed (PubKey privKey))) then Err ErrSecNoncePubkey
  else if negb (existsb (fun pk => bool_decide (PubKey privKey = pk)) pubKeys) then Err ErrPubkeyNotIncluded
  else
    let keysHash := keyHashFingerprint pubKeys (so_sortKeys opts) in
    let pubKeys := after_sort (so_sortKeys opts) pubKeys in
    let uniqueKeyIndex := secondUniqueKeyIndex pubKeys (so_sortKeys opts) in
    let keyAggOpts := [WithKeysHash keysHash; WithUniqueKeyIndex uniqueKeyIndex] ++
      tweak_options (so_bip86Tweak opts) (so_taprootTweak opts) (so_tweaks opts) in
    agg ← AggregateKeys pubKeys (so_sortKeys opts) keyAggOpts;
    let '(combinedKey, parityAcc, _) := agg in
    r ← computeSigningNonce combinedNonce (FinalKey combinedKey) msg;
    let '(nonce, nonceBlinder) := r in
    let k1 := fst (SetByteSlice (take 32 secNonce)) in
    let k2 := fst (SetByteSlice (drop 32 secNonce)) in
    if (k1 =? 0) || (k2 =? 0) then Err ErrSecretNonceZero
    else
      let nonceKey := nonce in
      let odd := Z.odd (pt_Y nonce) in
      let k1 := if odd then sc_neg k1 else k1 in
      let k2 := if odd then sc_neg k2 else k2 in
      if privKey =? 0 then Err ErrPrivKeyZero
      else
        let pubKey := PubKey privKey in
        let privKeyScalar := sc_mul (sc_mul privKey (parity_of (FinalKey combinedKey))) parityAcc in
        let e := musig_challenge nonceKey (FinalKey combinedKey) msg in
        a ← aggregationCoefficient pubKeys pubKey keysHash uniqueKeyIndex;
        let s := sc_add (sc_add k1 (sc_mul k2 nonceBlinder)) (sc_mul (sc_mul e a) privKeyScalar) in
        let sig := NewPartialSignature _ s (Some nonceKey) in
        if negb (so_fastSign opts) then
          let pubNonce := secNonceToPubNonce secNonce in
          if PartialSignature_Verify sig pubNonce combinedNonce pubKeys pubKey msg signOpts
          then Ok sig else Err ErrSigInvalid
        else Ok sig.

(** ** Combining *)

Record combineOptions : Type := mkCombineOptions {
  co_msg : list byte;
  co_combinedKey : option pt;
  co_tweakAcc : option ModNScalar;
}.
Definition CombineOption : Type := combineOptions -> result musig_error combineOptions.
Definition defaultCombineOptions : combineOptions := mkCombineOptions (replicate 32 x00) None None.

(** The errors of [AggregateKeys] are dropped, and the key it did not return is used. *)
Definition tweaked_combine (msg : list byte) (keys : list pt) (sort : bool) (o : KeyAggOption) : CombineOption := fun _ =>
  match AggregateKeys keys sort [o] with
  | Ok (combinedKey, _, tweakAcc) => Ok (mkCombineOptions msg (Some (FinalKey combinedKey)) (Some tweakAcc))
  | Err _ => Err Panic
  end.
Definition WithTweakedCombine (msg : list byte) (keys : list pt) (tweaks : list KeyTweakDesc) (sort : bool) : CombineOption :=
  tweaked_combine msg keys sort (WithKeyTweaks tweaks).
Definition WithTaprootTweakedCombine (msg : list byte) (keys : list pt) (scriptRoot : list byte) (sort : bool) : CombineOption :=
  tweaked_combine msg keys sort (WithTaprootKeyTweak scriptRoot).
Definition WithBip86TweakedCombine (msg : list byte) (keys : list pt) (sort : bool) : CombineOption :=
  tweaked_combine msg keys sort WithBIP86KeyTweak.

(** The options of a session for the tweak it was made with. *)
Definition combine_with (bip86Tweak : bool) (taprootTweak : option (list byte)) (tweaks : list KeyTweakDesc)
    (msg : list byte) (keys : list pt) (sort : bool) : list CombineOption :=
  if bip86Tweak then [WithBip86TweakedCombine msg keys sort]
  else match taprootTweak with
       | Some root => [WithTaprootTweakedCombine msg keys root sort]
       | None => match tweaks with [] => [] | _ => [WithTweakedCombine msg keys tweaks sort] end
       end.

Fixpoint combine_options (o : combineOptions) (opts : list CombineOption) : result musig_error combineOptions :=
  match opts with
  | [] => Ok o
  | option :: opts => o ← option o; combine_options o opts
  end.

Definition CombineSigs (combinedNonce : pt) (partialSigs : list PartialSignature) (combineOpts : list CombineOption)
    : result musig_error Signature :=
  opts ← combine_options defaultCombineOptions combineOpts;
  let tweakProduct :=
    match co_combinedKey opts, co_tweakAcc opts with
    | Some combinedKey, Some tweakAcc =>
        let e := musig_challenge combinedNonce combinedKey (co_msg opts) in
        Some (sc_mul (sc_mul e tweakAcc) (parity_of combinedKey))
    | _, _ => None
    end in
  let combinedSig := foldl (fun s partialSig => sc_add s (ps_S partialSig)) 0 partialSigs in
  let combinedSig := match tweakProduct with Some t => sc_add combinedSig t | None => combinedSig end in
  Ok (NewSignature (pt_X combinedNonce) combinedSig).
End Sign.
