(* ===== verification/MuSig2Claims.v ===== *)
(** * nogoec/schnorr/musig2: honest signers make valid signatures

    The combined key and nonce as sums of points, what a partial signature that verifies
    says, and that such partial signatures add up to a signature of the combined key. *)

From Stdlib Require Import ZArith Lia.
From S2P Require Import Prelude WireCommon WireTx TxSort ChainHash Secp Schnorr MuSig2.
Open Scope Z_scope.

#[local] Opaque TaggedHash.

(** ** Sums of points *)

Section Sums.
Context `{Secp256k1Laws}.

Definition psum (Ps : list pt) : pt := foldr AddNonConst infinityPoint Ps.

Lemma psum_cons P Ps : psum (P :: Ps) = AddNonConst P (psum Ps). Proof. done. Qed.

#[export] Instance psum_Permutation : Proper (Permutation ==> eq) psum.
Proof.
  intros Ps Qs E. induction E as [|P Ps Qs _ IH|P Q Ps|Ps Qs Rs _ IH1 _ IH2];
    [done|by rewrite !psum_cons, IH| |congruence]. rewrite !psum_cons.
  rewrite !law_add_assoc. f_equal. apply law_add_comm.
Qed.

Lemma add_swap P Q R S : AddNonConst (AddNonConst P Q) (AddNonConst R S) = AddNonConst (AddNonConst P R) (AddNonConst Q S).
Proof.
  rewrite <- !law_add_assoc. f_equal. rewrite !law_add_assoc. f_equal. apply law_add_comm.
Qed.

Lemma psum_zmul a Ps : zmul a (psum Ps) = psum (map (zmul a) Ps).
Proof. induction Ps as [|P Ps IH]; [apply zmul_inf|]. cbn [map]. by rewrite !psum_cons, zmul_pt, IH. Qed.

Lemma psum_add {A} (f g : A -> pt) xs :
  psum (map (fun x => AddNonConst (f x) (g x)) xs) = AddNonConst (psum (map f xs)) (psum (map g xs)).
Proof. induction xs as [|x xs IH]; [symmetry; apply law_add_inf|]. cbn [map]. by rewrite !psum_cons, IH, add_swap. Qed.

Lemma psum_scalars {A} (f : A -> Z) P xs :
  psum (map (fun x => zmul (f x) P) xs) = zmul (foldr (fun x n => f x + n) 0 xs) P.
Proof. induction xs as [|x xs IH]; [symmetry; apply zmul_0|]. cbn [map foldr]. by rewrite psum_cons, IH, zmul_add. Qed.
End Sums.

(** ** Sorting the keys *)

Section Keys.
Context `{Secp256k1Laws} `{Sorter}.

Lemma sortableKeys_strict_weak : strict_weak (fun _ => True) sortableKeys_Less.
Proof.
  apply (strict_weak_key _ _ (fun P => be_get (SerializeCompressed P))). intros P Q _ _.
  unfold sortableKeys_Less. rewrite bytes_Compare_be by (by rewrite !serialize_33).
  apply Bool.eq_true_iff_eq. rewrite bool_decide_eq_true, Z.ltb_lt. apply Z.compare_lt_iff.
Qed.

Lemma sortKeys_perm keys : sortKeys keys ≡ₚ keys.
Proof. unfold sortKeys. destruct (sort_IsSorted _ _); [done|]. apply sort_Sort_perm. Qed.
Lemma sortKeys_sorted keys : sort_IsSorted sortableKeys_Less (sortKeys keys) = true.
Proof.
  unfold sortKeys. destruct (sort_IsSorted sortableKeys_Less keys) eqn:E; [done|].
  apply (sort_Sort_sorted (fun _ => True)); [apply sortableKeys_strict_weak|by apply Forall_true].
Qed.
Lemma after_sort_perm sort keys : after_sort sort keys ≡ₚ keys.
Proof. destruct sort; [apply sortKeys_perm|done]. Qed.
Lemma after_sort_twice sort keys : after_sort sort (after_sort sort keys) = after_sort sort keys.
Proof. destruct sort; [|done]. cbn. unfold sortKeys at 1. by rewrite sortKeys_sorted. Qed.

(** Sorting twice makes no difference to what is computed from the keys. *)
Lemma keyHashFingerprint_sorted sort keys :
  keyHashFingerprint (after_sort sort keys) sort = keyHashFingerprint keys sort.
Proof. unfold keyHashFingerprint. by rewrite after_sort_twice. Qed.
Lemma secondUniqueKeyIndex_sorted sort keys :
  secondUniqueKeyIndex (after_sort sort keys) sort = secondUniqueKeyIndex keys sort.
Proof. unfold secondUniqueKeyIndex. by rewrite after_sort_twice. Qed.
Lemma AggregateKeys_sorted sort keys os : AggregateKeys (after_sort sort keys) sort os = AggregateKeys keys sort os.
Proof.
  unfold AggregateKeys. by rewrite !after_sort_twice, keyHashFingerprint_sorted, secondUniqueKeyIndex_sorted.
Qed.

(** ** The coefficients *)

Lemma second_loop_range first keySet i :
  0 <= i -> second_loop i first keySet = -1 \/
  exists j k, second_loop i first keySet = i + Z.of_nat j /\ keySet !! j = Some k.
Proof.
  revert i. induction keySet as [|k keySet IH]; intros i Hi; [by left|]. cbn [second_loop].
  destruct (negb (keyBytesEqual k first)); [right; exists 0%nat, k; split; [lia|done]|].
  destruct (IH (i + 1) ltac:(lia)) as [E|(j & k' & E & Hk)]; [by left|]. right. exists (S j), k'. split; [lia|done].
Qed.

(** The scalar of a key in the combined key of [keys]. *)
Definition coefficient (sort : bool) (keys : list pt) (P : pt) : ModNScalar :=
  match aggregationCoefficient (after_sort sort keys) P (keyHashFingerprint keys sort) (secondUniqueKeyIndex keys sort) with
  | Ok a => a | Err _ => 0
  end.

Lemma aggregationCoefficient_ok sort keys P :
  aggregationCoefficient (after_sort sort keys) P (keyHashFingerprint keys sort) (secondUniqueKeyIndex keys sort) =
    Ok (coefficient sort keys P) /\ sc_ok (coefficient sort keys P).
Proof.
  unfold coefficient. 
  assert (Hex : exists a, aggregationCoefficient (after_sort sort keys) P (keyHashFingerprint keys sort) (secondUniqueKeyIndex keys sort) = Ok a /\ sc_ok a).
  { unfold aggregationCoefficient. set (h := keyHashFingerprint keys sort).
    assert (Hidx : secondUniqueKeyIndex keys sort = -1 \/ exists j k, secondUniqueKeyIndex keys sort = Z.of_nat j /\ after_sort sort keys !! j = Some k).
    { unfold secondUniqueKeyIndex. destruct (after_sort sort keys) as [|first ks]; [by left|]. apply second_loop_range. lia. }
    destruct Hidx as [->|(j & k & -> & Hk)].
    - cbn [Z.eqb mbind result_bind]. eexists. split; [reflexivity|apply SetByteSlice_ok].
    - rewrite (proj2 (Z.eqb_neq _ _)) by lia. rewrite Nat2Z.id, Hk, (proj2 (Z.ltb_ge _ _)) by lia. cbn [mbind result_bind].
      destruct (keyBytesEqual k P); eexists; (split; [reflexivity|]); [apply sc_1|apply SetByteSlice_ok]. }
  destruct Hex as (a & -> & Ha). done.
Qed.

(** The combined key before any tweak. *)
Definition combined (sort : bool) (keys : list pt) : pt :=
  psum (map (fun P => zmul (coefficient sort keys P) P) keys).

Lemma combined_sorted sort keys :
  psum (map (fun P => zmul (coefficient sort keys P) P) (after_sort sort keys)) = combined sort keys.
Proof. unfold combined. by rewrite (after_sort_perm sort keys). Qed.

Lemma aggregate_loop_sum sort keys ks acc :
  aggregate_loop (after_sort sort keys) (keyHashFingerprint keys sort) (secondUniqueKeyIndex keys sort) ks acc =
    Ok (AddNonConst acc (psum (map (fun P => zmul (coefficient sort keys P) P) ks))).
Proof.
  revert acc. induction ks as [|P ks IH]; intros acc; cbn [aggregate_loop map psum foldr]; [by rewrite add_inf_r|].
  destruct (aggregationCoefficient_ok sort keys P) as [-> Ha]. cbn [mbind result_bind].
  rewrite IH, zmul_sc by done. fold (psum (map (fun P => zmul (coefficient sort keys P) P) ks)).
  by rewrite <- law_add_assoc.
Qed.

(** ** Tweaks *)

Lemma neg_one_ok : sc_ok (sc_neg 1). Proof. apply sc_neg_ok. Qed.

(** The point, the parity factor and the tweak belong to the combined key [Q0]. *)
Definition tweaked (Q0 : pt) (st : pt * ModNScalar * ModNScalar) : Prop :=
  let '(Q, g, t) := st in
  sc_ok g /\ sc_ok t /\ Q = AddNonConst (zmul g Q0) (zmul t basePoint).

Lemma tweakKey_spec Q0 Q g tw t xOnly st :
  tweaked Q0 (Q, g, t) -> tweakKey Q g tw t xOnly = Ok st -> tweaked Q0 st /\ st.1.1 <> infinityPoint.
Proof.
  intros (Hg & Ht & HQ). unfold tweakKey. pose proof (SetByteSlice_ok tw) as Hw.
  destruct (SetByteSlice tw) as [w []]; [done|]. cbn [fst] in Hw.
  set (f := if xOnly && negb (hasEvenY Q) then sc_neg 1 else 1).
  assert (Hf : sc_ok f) by (unfold f; destruct (xOnly && negb (hasEvenY Q)); [apply neg_one_ok|apply sc_1]).
  rewrite zmul_base, zmul_sc by done. unfold IsInfinity. case_bool_decide as Hinf; [done|]. intros [= <-].
  split; [|exact Hinf]. split; [apply sc_mul_ok|]. split; [apply sc_add_ok|].
  rewrite HQ, zmul_pt, <- !zmul_mul, sc_mul_eqm, sc_add_eqm, zmul_add, sc_mul_eqm.
  rewrite (Z.mul_comm f g), (Z.mul_comm f t). rewrite law_add_comm, <- law_add_assoc. done.
Qed.

Lemma tweak_loop_spec Q0 tweaks : forall st st',
  tweaked Q0 st -> tweak_loop tweaks st = Ok st' -> tweaked Q0 st'.
Proof.
  induction tweaks as [|t tweaks IH]; intros [[Q g] acc] st' Hst Hr; cbn [tweak_loop] in Hr; [by injection Hr as <-|].
  destruct (tweakKey _ _ _ _ _) as [st1|] eqn:E; [|done]. cbn [mbind result_bind] in Hr.
  apply (IH st1); [|done]. by eapply tweakKey_spec.
Qed.

(** The precomputed hash and index of the keys, if given, are theirs. *)
Definition precomputed_ok (sort : bool) (keys : list pt) (o : keyAggOption) : Prop :=
  default (keyHashFingerprint keys sort) (kao_keyHash o) = keyHashFingerprint keys sort /\
  default (secondUniqueKeyIndex keys sort) (kao_uniqueKeyIndex o) = secondUniqueKeyIndex keys sort.

Lemma AggregateKeys_spec sort keys os agg g t :
  precomputed_ok sort keys (key_options os) ->
  AggregateKeys keys sort os = Ok (agg, g, t) ->
  PreTweakedKey agg = combined sort keys /\ tweaked (combined sort keys) (FinalKey agg, g, t).
Proof.
  unfold AggregateKeys. set (o := key_options os). intros [Eh Ei].
  rewrite keyHashFingerprint_sorted, secondUniqueKeyIndex_sorted, Eh, Ei.
  rewrite aggregate_loop_sum. cbn [mbind result_bind].
  rewrite law_add_inf, combined_sorted. set (tw := if kao_taprootTweak o then _ else _).
  destruct tw as [tweaks|]; [|done]. cbn [mbind result_bind].
  destruct (tweak_loop _ _) as [[[Q g'] t']|] eqn:E; [|done]. cbn [mbind result_bind]. intros [= <- <- <-].
  split; [done|]. cbn [FinalKey]. apply (tweak_loop_spec _ tweaks (combined sort keys, 1, 0)); [|done].
  split; [apply sc_1|]. split; [apply sc_0|]. by rewrite zmul_1, zmul_0, add_inf_r.
Qed.

(** Without tweaks keys are always combined. *)
Lemma AggregateKeys_plain sort keys :
  AggregateKeys keys sort [] = Ok (mkAggregateKey (combined sort keys) (combined sort keys), 1, 0).
Proof.
  unfold AggregateKeys. rewrite keyHashFingerprint_sorted, secondUniqueKeyIndex_sorted.
  cbn [key_options foldl default kao_keyHash kao_uniqueKeyIndex defaultKeyAggOptions from_option].
  rewrite aggregate_loop_sum. cbn [mbind result_bind kao_taprootTweak kao_tweaks tweak_loop].
  by rewrite law_add_inf, combined_sorted.
Qed.

Lemma tweak_options_plain bip tap ts :
  kao_keyHash (key_options (tweak_options bip tap ts)) = None /\
  kao_uniqueKeyIndex (key_options (tweak_options bip tap ts)) = None.
Proof. unfold tweak_options. by destruct bip, tap, ts. Qed.

(** Signing and verifying pass the hash and the index they have computed. *)
Lemma AggregateKeys_precomputed sort keys bip tap ts :
  AggregateKeys (after_sort sort keys) sort
    ([WithKeysHash (keyHashFingerprint keys sort); WithUniqueKeyIndex (secondUniqueKeyIndex (after_sort sort keys) sort)] ++
     tweak_options bip tap ts) =
  AggregateKeys keys sort (tweak_options bip tap ts).
Proof.
  rewrite AggregateKeys_sorted, secondUniqueKeyIndex_sorted. unfold AggregateKeys.
  rewrite keyHashFingerprint_sorted, secondUniqueKeyIndex_sorted.
  generalize (keyHashFingerprint keys sort) (secondUniqueKeyIndex keys sort). intros h i.
  unfold tweak_options. destruct bip; [reflexivity|]. destruct tap; [reflexivity|]. by destruct ts.
Qed.

Lemma AggregateKeys_tweaked sort keys bip tap ts agg g t :
  AggregateKeys keys sort (tweak_options bip tap ts) = Ok (agg, g, t) ->
  tweaked (combined sort keys) (FinalKey agg, g, t).
Proof.
  intros E. eapply AggregateKeys_spec; [|exact E]. destruct (tweak_options_plain bip tap ts) as [Eh Ei].
  unfold precomputed_ok. by rewrite Eh, Ei.
Qed.

(** ** The challenge and the signs *)

Lemma TaggedHash_concat tag msgs msgs' : concat msgs = concat msgs' -> TaggedHash tag msgs = TaggedHash tag msgs'.
Proof.
  intros E. rewrite (proj1 (TaggedHash_spec tag msgs)), (proj1 (TaggedHash_spec tag msgs')). by rewrite E.
Qed.

Lemma musig_challenge_schnorr R Q msg :
  musig_challenge R Q msg = challenge_scalar (pt_X R) (SerializePubKey Q) msg.
Proof.
  unfold musig_challenge, challenge_scalar, challenge. rewrite <- SerializePubKey_X. do 2 f_equal.
  apply TaggedHash_concat. cbn [concat]. by rewrite !app_nil_r.
Qed.

(** [P] with the sign that makes the y coordinate of [R] even. *)
Definition signed (R P : pt) : pt := if Z.odd (pt_Y R) then zmul (-1) P else P.

Lemma signed_self R : signed R R = even_pt R. Proof. done. Qed.
Lemma signed_add R P Q : signed R (AddNonConst P Q) = AddNonConst (signed R P) (signed R Q).
Proof. unfold signed. destruct (Z.odd _); [apply zmul_pt|done]. Qed.
Lemma signed_psum R Ps : signed R (psum Ps) = psum (map (signed R) Ps).
Proof.
  unfold signed. destruct (Z.odd _); [apply psum_zmul|]. by rewrite map_id.
Qed.

Lemma parity_of_ok Q : sc_ok (parity_of Q).
Proof. unfold parity_of. case_bool_decide; [apply sc_neg_ok|apply sc_1]. Qed.
Lemma parity_of_even Q : zmul (parity_of Q) Q = even_pt Q.
Proof.
  unfold parity_of, even_pt. rewrite law_serialize. destruct (Z.odd (pt_Y Q)).
  - rewrite bool_decide_eq_true_2 by done. by rewrite sc_neg_eqm.
  - rewrite bool_decide_eq_false_2 by done. apply zmul_1.
Qed.

(** ** A partial signature that verifies *)

(** What the signers have agreed on. *)
Section Session.
Context (keys : list pt) (cn msg : list byte) (signOpts : list musig_SignOption).
Context (agg : AggregateKey) (g t : ModNScalar) (R1 R2 : pt).
Local Abbreviation opts := (sign_options signOpts).
Hypothesis Hagg : AggregateKeys keys (so_sortKeys opts)
  (tweak_options (so_bip86Tweak opts) (so_taprootTweak opts) (so_tweaks opts)) = Ok (agg, g, t).
Hypothesis HR1 : ParseJacobian (take 33 cn) = Ok R1.
Hypothesis HR2 : ParseJacobian (drop 33 cn) = Ok R2.

Local Abbreviation b := (nonce_blinder cn (FinalKey agg) msg).
Local Abbreviation R := (AddNonConst R1 (zmul b R2)).
Hypothesis HR : R <> infinityPoint.
Local Abbreviation e := (musig_challenge R (FinalKey agg) msg).
Local Abbreviation a P := (coefficient (so_sortKeys opts) keys P).
Local Abbreviation Q0 := (combined (so_sortKeys opts) keys).

Lemma blinder_ok : sc_ok b. Proof. apply SetByteSlice_ok. Qed.
Lemma challenge_ok : sc_ok e. Proof. apply SetByteSlice_ok. Qed.

Lemma session_tweaked : tweaked Q0 (FinalKey agg, g, t).
Proof. by eapply AggregateKeys_tweaked. Qed.

Lemma verifyPartialSig_iff ps pn P N1 N2 :
  sc_ok (ps_S ps) -> P <> infinityPoint ->
  ParseJacobian (take 33 pn) = Ok N1 -> ParseJacobian (drop 33 pn) = Ok N2 ->
  verifyPartialSig ps pn cn keys (SerializeCompressed P) msg signOpts = Ok tt <->
  zmul (ps_S ps) basePoint =
    AddNonConst (zmul (e * a P * (parity_of (FinalKey agg) * g)) P) (signed R (AddNonConst N1 (zmul b N2))).
Proof.
  intros Hs HP E1 E2. unfold verifyPartialSig. rewrite AggregateKeys_precomputed, Hagg. cbn [mbind result_bind].
  rewrite HR1, HR2, E1, E2. cbn [of_curve mbind result_bind].
  rewrite !(zmul_sc b) by apply blinder_ok. unfold IsInfinity. rewrite (bool_decide_eq_false_2 (R = _)) by done.
  rewrite ParsePubKey_serialize by done. cbn [of_curve mbind result_bind].
  rewrite secondUniqueKeyIndex_sorted. destruct (aggregationCoefficient_ok (so_sortKeys opts) keys P) as [-> Ha].
  cbn [mbind result_bind]. rewrite <- zmul_neg_1. fold (signed R (AddNonConst N1 (zmul b N2))).
  rewrite zmul_base by exact Hs. rewrite (zmul_sc (sc_mul (sc_mul _ _) _)) by apply sc_mul_ok. case_bool_decide as E; cbn [negb]; rewrite !sc_mul_eqm in E.
  - split; [intros _; exact E|intros _; reflexivity].
  - split; [discriminate|intros E'; destruct (E E')].
Qed.

Lemma verifyPartialSig_nonces ps pn P :
  verifyPartialSig ps pn cn keys (SerializeCompressed P) msg signOpts = Ok tt ->
  exists N1 N2, ParseJacobian (take 33 pn) = Ok N1 /\ ParseJacobian (drop 33 pn) = Ok N2.
Proof.
  unfold verifyPartialSig. rewrite AggregateKeys_precomputed, Hagg. cbn [mbind result_bind].
  rewrite HR1, HR2. cbn [of_curve mbind result_bind].
  destruct (ParseJacobian (take 33 pn)) as [N1|]; [|done]. destruct (ParseJacobian (drop 33 pn)) as [N2|]; [|done].
  intros _. by exists N1, N2.
Qed.
End Session.

(** ** Adding up *)

Lemma combine_nonces_spec slicer : forall pns acc A,
  combine_nonces slicer pns acc = Ok A ->
  exists Ns, Forall2 (fun pn N => ParseJacobian (slicer pn) = Ok N) pns Ns /\ A = AddNonConst acc (psum Ns).
Proof.
  induction pns as [|pn pns IH]; intros acc A E; cbn [combine_nonces] in E.
  { injection E as <-. exists []. split; [constructor|]. symmetry. apply add_inf_r. }
  destruct (ParseJacobian (slicer pn)) as [N|] eqn:EN; [|done]. cbn [of_curve mbind result_bind] in E.
  destruct (IH _ _ E) as (Ns & HF & ->). exists (N :: Ns). split; [by constructor|].
  by rewrite psum_cons, law_add_assoc.
Qed.

Lemma JacobianToByteSlice_33 P : length (JacobianToByteSlice P) = 33%nat.
Proof. unfold JacobianToByteSlice. destruct (IsInfinity P); [done|apply serialize_33]. Qed.

(** The combined nonce names the sums of the nonces. *)
Lemma AggregateNonces_spec pns cn :
  AggregateNonces pns = Ok cn ->
  exists N1s N2s, Forall2 (fun pn N => ParseJacobian (take 33 pn) = Ok N) pns N1s /\
    Forall2 (fun pn N => ParseJacobian (drop 33 pn) = Ok N) pns N2s /\
    ParseJacobian (take 33 cn) = Ok (psum N1s) /\ ParseJacobian (drop 33 cn) = Ok (psum N2s).
Proof.
  unfold AggregateNonces. destruct (combine_nonces (take 33) pns infinityPoint) as [A1|] eqn:E1; [|done].
  cbn [mbind result_bind]. destruct (combine_nonces (drop 33) pns infinityPoint) as [A2|] eqn:E2; [|done].
  cbn [mbind result_bind]. intros [= <-].
  destruct (combine_nonces_spec _ _ _ _ E1) as (N1s & HF1 & ->). destruct (combine_nonces_spec _ _ _ _ E2) as (N2s & HF2 & ->).
  exists N1s, N2s. rewrite !law_add_inf.
  rewrite take_app_le, drop_app_le by (by rewrite JacobianToByteSlice_33).
  rewrite take_ge, drop_ge by (by rewrite JacobianToByteSlice_33). rewrite app_nil_l, !ParseJacobian_bytes. done.
Qed.

Definition sum_S (sigs : list PartialSignature) : Z := foldr (fun s n => ps_S s + n) 0 sigs.

Lemma fold_sigs sigs : forall acc, eqm (foldl (fun s partialSig => sc_add s (ps_S partialSig)) acc sigs) (acc + sum_S sigs).
Proof.
  induction sigs as [|s sigs IH]; intros acc; cbn [foldl sum_S foldr]; [by rewrite Z.add_0_r|].
  rewrite IH, sc_add_eqm. fold (sum_S sigs). by rewrite Z.add_assoc.
Qed.

(** The tweak that [CombineSigs] adds, and the options with which it knows of it. *)
Lemma CombineSigs_value keys sort bip tap ts msg agg g t R sigs :
  AggregateKeys keys sort (tweak_options bip tap ts) = Ok (agg, g, t) ->
  exists s, CombineSigs R sigs (combine_with bip tap ts msg keys sort) = Ok (NewSignature (pt_X R) s) /\ sc_ok s /\
    eqm s (sum_S sigs + musig_challenge R (FinalKey agg) msg * t * parity_of (FinalKey agg)).
Proof.
  intros Hagg.
  assert (Hsome : forall o, tweak_options bip tap ts = [o] ->
    combine_options defaultCombineOptions [tweaked_combine msg keys sort o] =
      Ok (mkCombineOptions msg (Some (FinalKey agg)) (Some t))).
  { intros o Eo. rewrite Eo in Hagg. cbn [combine_options]. unfold tweaked_combine. by rewrite Hagg. }
  assert (Hcase : combine_options defaultCombineOptions (combine_with bip tap ts msg keys sort) =
      Ok (mkCombineOptions msg (Some (FinalKey agg)) (Some t)) \/
    combine_options defaultCombineOptions (combine_with bip tap ts msg keys sort) = Ok defaultCombineOptions /\ t = 0).
  { unfold combine_with. destruct bip; [left; by apply Hsome|]. destruct tap as [root|]; [left; by apply Hsome|].
    destruct ts as [|t1 ts]; [right|left; by apply Hsome]. split; [done|]. unfold tweak_options in Hagg. rewrite AggregateKeys_plain in Hagg. by injection Hagg. }
  unfold CombineSigs. destruct Hcase as [->|[-> Ht]]; cbn [mbind result_bind co_combinedKey co_tweakAcc co_msg defaultCombineOptions].
  - eexists. split; [reflexivity|]. split; [apply sc_add_ok|].
    rewrite sc_add_eqm, !sc_mul_eqm, fold_sigs. by rewrite Z.add_0_l.
  - eexists. split; [reflexivity|]. split.
    + destruct sigs as [|s sigs] using rev_ind; [apply sc_0|]. rewrite foldl_app. apply sc_add_ok.
    + rewrite fold_sigs, Ht, Z.mul_0_r, Z.mul_0_l, Z.add_0_l, Z.add_0_r. done.
Qed.

(** A signer's part in a session. *)
Record contribution : Type := mkContribution { c_sig : PartialSignature; c_nonce : list byte; c_key : pt }.

(** What the equations of the parts add up to. *)
Lemma sum_equation (a : pt -> Z) (c b : Z) (R : pt) (parts : list contribution) : forall N1s N2s,
  Forall2 (fun p N => ParseJacobian (take 33 (c_nonce p)) = Ok N) parts N1s ->
  Forall2 (fun p N => ParseJacobian (drop 33 (c_nonce p)) = Ok N) parts N2s ->
  Forall (fun p => forall N1 N2,
    ParseJacobian (take 33 (c_nonce p)) = Ok N1 -> ParseJacobian (drop 33 (c_nonce p)) = Ok N2 ->
    zmul (ps_S (c_sig p)) basePoint =
      AddNonConst (zmul (c * a (c_key p)) (c_key p)) (signed R (AddNonConst N1 (zmul b N2)))) parts ->
  zmul (sum_S (map c_sig parts)) basePoint =
    AddNonConst (zmul c (psum (map (fun P => zmul (a P) P) (map c_key parts))))
      (signed R (AddNonConst (psum N1s) (zmul b (psum N2s)))).
Proof.
  induction parts as [|p parts IH]; intros N1s N2s HN1 HN2 Hall.
  - apply Forall2_nil_inv_l in HN1 as ->. apply Forall2_nil_inv_l in HN2 as ->. cbn.
    rewrite !zmul_inf, !law_add_inf, zmul_0. unfold signed. by destruct (Z.odd _); rewrite ?zmul_inf.
  - apply Forall2_cons_inv_l in HN1 as (N1 & N1s' & E1 & HN1 & ->). apply Forall2_cons_inv_l in HN2 as (N2 & N2s' & E2 & HN2 & ->).
    apply list.Forall_cons in Hall as [Hp Hall]. specialize (IH _ _ HN1 HN2 Hall). specialize (Hp _ _ E1 E2).
    cbn [map sum_S foldr]. fold (sum_S (map c_sig parts)). rewrite zmul_add, Hp, IH, !psum_cons, !zmul_pt.
    rewrite add_swap, <- zmul_mul, <- signed_add. do 2 f_equal. apply add_swap.
Qed.

Section Combining.
Context (parts : list contribution) (cn msg : list byte) (signOpts : list musig_SignOption).
Context (agg : AggregateKey) (g t : ModNScalar) (R1 R2 : pt).
Local Abbreviation opts := (sign_options signOpts).
Local Abbreviation keys := (map c_key parts).
Hypothesis Hagg : AggregateKeys keys (so_sortKeys opts)
  (tweak_options (so_bip86Tweak opts) (so_taprootTweak opts) (so_tweaks opts)) = Ok (agg, g, t).
Hypothesis Hcn : AggregateNonces (map c_nonce parts) = Ok cn.
Hypothesis HR1 : ParseJacobian (take 33 cn) = Ok R1.
Hypothesis HR2 : ParseJacobian (drop 33 cn) = Ok R2.
Local Abbreviation R := (AddNonConst R1 (zmul (nonce_blinder cn (FinalKey agg) msg) R2)).
Hypothesis HR : R <> infinityPoint.
Hypothesis HQ : FinalKey agg <> infinityPoint.
Hypothesis Hmsg : len msg = 32.

Lemma combined_signature :
  Forall (fun p => sc_ok (ps_S (c_sig p)) /\ c_key p <> infinityPoint /\
    verifyPartialSig (c_sig p) (c_nonce p) cn keys (SerializeCompressed (c_key p)) msg signOpts = Ok tt) parts ->
  exists sig, CombineSigs R (map c_sig parts)
      (combine_with (so_bip86Tweak opts) (so_taprootTweak opts) (so_tweaks opts) msg keys (so_sortKeys opts)) = Ok sig /\
    Signature_Verify sig msg (FinalKey agg) = true.
Proof.
  intros Hall. destruct (AggregateNonces_spec _ _ Hcn) as (N1s & N2s & HN1 & HN2 & E1 & E2).
  rewrite HR1 in E1. rewrite HR2 in E2. injection E1 as E1. injection E2 as E2.
  apply Forall2_fmap_l in HN1, HN2.
  set (Q := FinalKey agg) in *. set (e := musig_challenge R Q msg).
  assert (Hsum := sum_equation (coefficient (so_sortKeys opts) keys) (e * (parity_of Q * g)) (nonce_blinder cn Q msg) R parts N1s N2s HN1 HN2).
  rewrite <- E1, <- E2 in Hsum. fold (combined (so_sortKeys opts) keys) in Hsum.
  assert (Hpart : Forall (fun p => forall N1 N2,
    ParseJacobian (take 33 (c_nonce p)) = Ok N1 -> ParseJacobian (drop 33 (c_nonce p)) = Ok N2 ->
    zmul (ps_S (c_sig p)) basePoint =
      AddNonConst (zmul (e * (parity_of Q * g) * coefficient (so_sortKeys opts) keys (c_key p)) (c_key p))
        (signed R (AddNonConst N1 (zmul (nonce_blinder cn Q msg) N2)))) parts).
  { apply (fun F => Forall_impl _ F Hall). intros p (Hs & HP & Hv) N1 N2 EN1 EN2.
    apply (verifyPartialSig_iff keys cn msg signOpts agg g t R1 R2 Hagg HR1 HR2 HR _ _ _ N1 N2 Hs HP EN1 EN2) in Hv.
    rewrite Hv. fold Q. fold e. by rewrite (Z.mul_shuffle0 e (parity_of Q * g)). }
  specialize (Hsum Hpart).
  rewrite signed_self in Hsum.
  destruct (CombineSigs_value _ _ _ _ _ msg _ _ _ R (map c_sig parts) Hagg) as (s & Es & Hs & Hsv).
  exists (NewSignature (pt_X R) s). split; [exact Es|]. apply Verify_of_Ok.
  assert (Hr : sig_r (NewSignature (pt_X R) s) = pt_X R) by (cbn; apply Z.mod_small, law_coordinates).
  rewrite <- SerializePubKey_even by exact HQ.
  apply schnorrVerify_iff; [exact Hs|by apply even_pt_finite|by apply even_pt_even|].
  split; [exact Hmsg|]. exists (even_pt R). rewrite Hr.
  split; [by apply even_pt_finite|]. split; [by apply even_pt_even|]. split; [by apply even_pt_X|].
  rewrite SerializePubKey_even by exact HQ. rewrite <- musig_challenge_schnorr. fold e.
  cbn [sig_s NewSignature]. rewrite Hsv, zmul_add, Hsum.
  destruct (session_tweaked keys signOpts agg g t Hagg) as (Hg & Ht & HQ0). fold Q in HQ0.
  assert (Hq : forall x, zmul x Q = AddNonConst (zmul (x * g) (combined (so_sortKeys opts) keys)) (zmul (x * t) basePoint)).
  { intros x. rewrite HQ0. by rewrite zmul_pt, <- !zmul_mul. }
  rewrite <- (parity_of_even Q), <- zmul_mul, Hq, law_add_comm, (law_add_comm _ (even_pt R)).
  rewrite (law_add_comm (zmul (e * t * _) _)), <- law_add_assoc. rewrite Z.mul_assoc. by rewrite (Z.mul_shuffle0 e t).
Qed.
End Combining.

(** ** Honest signers *)

Lemma verifyPartialSig_sorted ps pn cn keys pk msg signOpts :
  verifyPartialSig ps pn cn (after_sort (so_sortKeys (sign_options signOpts)) keys) pk msg signOpts =
  verifyPartialSig ps pn cn keys pk msg signOpts.
Proof. unfold verifyPartialSig. by rewrite keyHashFingerprint_sorted, after_sort_twice. Qed.

(** The secret nonces as [GenNonces] lays them out, and what is published of them. *)
Definition secret_nonces (k1 k2 : ModNScalar) (P : pt) : list byte := sc_bytes k1 ++ sc_bytes k2 ++ SerializeCompressed P.

Lemma secret_nonces_fields k1 k2 P : sc_ok k1 -> sc_ok k2 ->
  SetByteSlice (take 32 (secret_nonces k1 k2 P)) = (k1, false) /\
  SetByteSlice (drop 32 (secret_nonces k1 k2 P)) = (k2, false) /\
  drop 64 (secret_nonces k1 k2 P) = SerializeCompressed P.
Proof.
  intros H1' H2'. unfold secret_nonces. assert (Hl : forall k, length (sc_bytes k) = 32%nat) by (intros; apply length_be_put).
  rewrite take_app_le, take_ge by (by rewrite Hl). split; [by apply SetByteSlice_bytes|].
  rewrite drop_app_ge by (rewrite Hl; lia). rewrite Hl. change (32 - 32)%nat with 0%nat.
  split; [by apply SetByteSlice_app|]. rewrite app_assoc, drop_app_ge by (rewrite length_app, !Hl; lia).
  by rewrite length_app, !Hl.
Qed.

Lemma public_nonces k1 k2 P : sc_ok k1 -> sc_ok k2 -> k1 <> 0 -> k2 <> 0 ->
  ParseJacobian (take 33 (secNonceToPubNonce (secret_nonces k1 k2 P))) = Ok (zmul k1 basePoint) /\
  ParseJacobian (drop 33 (secNonceToPubNonce (secret_nonces k1 k2 P))) = Ok (zmul k2 basePoint).
Proof.
  intros Hk1 Hk2 Hn1 Hn2. unfold secNonceToPubNonce. destruct (secret_nonces_fields k1 k2 P Hk1 Hk2) as (-> & -> & _).
  cbn [fst]. rewrite !zmul_base by done. rewrite take_app_le, drop_app_le by (by rewrite serialize_33).
  rewrite take_ge, drop_ge by (by rewrite serialize_33). rewrite app_nil_l.
  split; by apply ParseJacobian_serialize, zmul_base_finite.
Qed.

Section Signing.
Context (keys : list pt) (cn msg : list byte) (signOpts : list musig_SignOption).
Context (agg : AggregateKey) (g t : ModNScalar) (R1 R2 : pt).
Local Abbreviation opts := (sign_options signOpts).
Hypothesis Hagg : AggregateKeys keys (so_sortKeys opts)
  (tweak_options (so_bip86Tweak opts) (so_taprootTweak opts) (so_tweaks opts)) = Ok (agg, g, t).
Hypothesis HR1 : ParseJacobian (take 33 cn) = Ok R1.
Hypothesis HR2 : ParseJacobian (drop 33 cn) = Ok R2.
Local Abbreviation b := (nonce_blinder cn (FinalKey agg) msg).
Local Abbreviation R := (AddNonConst R1 (zmul b R2)).
Hypothesis HR : R <> infinityPoint.

Lemma Sign_valid (d k1 k2 : ModNScalar) :
  sc_ok d -> d <> 0 -> sc_ok k1 -> k1 <> 0 -> sc_ok k2 -> k2 <> 0 -> PubKey d ∈ keys ->
  exists ps, musig_Sign (secret_nonces k1 k2 (PubKey d)) d cn keys msg signOpts = Ok ps /\
    ps_R ps = Some R /\ sc_ok (ps_S ps) /\
    verifyPartialSig ps (secNonceToPubNonce (secret_nonces k1 k2 (PubKey d))) cn keys
      (SerializeCompressed (PubKey d)) msg signOpts = Ok tt.
Proof.
  intros Hd Hd0 Hk1 Hk10 Hk2 Hk20 Hin. pose proof (PubKey_finite d Hd Hd0) as HP.
  assert (HPd : PubKey d = zmul d basePoint) by (by apply zmul_base).
  destruct (secret_nonces_fields k1 k2 (PubKey d) Hk1 Hk2) as (E1 & E2 & E3).
  destruct (public_nonces k1 k2 (PubKey d) Hk1 Hk2 Hk10 Hk20) as (N1 & N2).
  unfold musig_Sign. rewrite E3, (bool_decide_eq_true_2 (SerializeCompressed _ = _)) by done. cbn [negb].
  rewrite (proj2 (existsb_exists _ keys)) by (exists (PubKey d); split; [by apply list_elem_of_In|by apply bool_decide_eq_true]).
  cbn [negb]. rewrite AggregateKeys_precomputed, Hagg. cbn [mbind result_bind].
  unfold computeSigningNonce. rewrite HR1, HR2. cbn [of_curve mbind result_bind].
  rewrite (zmul_sc b) by apply SetByteSlice_ok. unfold IsInfinity. rewrite (bool_decide_eq_false_2 (R = _)) by done.
  rewrite E1, E2. cbn [fst]. rewrite (proj2 (Z.eqb_neq k1 0)), (proj2 (Z.eqb_neq k2 0)), (proj2 (Z.eqb_neq d 0)) by done. cbn [orb].
  rewrite secondUniqueKeyIndex_sorted. destruct (aggregationCoefficient_ok (so_sortKeys opts) keys (PubKey d)) as [-> Ha].
  cbn [mbind result_bind]. set (Q := FinalKey agg) in *. set (e := musig_challenge R Q msg).
  set (s := sc_add _ _). set (ps := NewPartialSignature _ s _).
  assert (Hs : sc_ok (ps_S ps)) by apply sc_add_ok.
  assert (Hv : verifyPartialSig ps (secNonceToPubNonce (secret_nonces k1 k2 (PubKey d))) cn keys
      (SerializeCompressed (PubKey d)) msg signOpts = Ok tt).
  { apply (verifyPartialSig_iff keys cn msg signOpts agg g t R1 R2 Hagg HR1 HR2 HR ps _ _ _ _ Hs HP N1 N2).
    fold Q. fold e. cbn [ps_S ps]. unfold s. rewrite !sc_add_eqm, !sc_mul_eqm, zmul_add, law_add_comm. f_equal.
    - rewrite HPd, <- zmul_mul. apply (f_equal (fun x => zmul x basePoint)). lia.
    - unfold signed. destruct (Z.odd _); rewrite ?sc_neg_eqm, <- ?zmul_mul, <- ?zmul_add, <- ?zmul_mul;
        apply (f_equal (fun x => zmul x basePoint)); lia. }
  exists ps. unfold PartialSignature_Verify. rewrite verifyPartialSig_sorted, Hv.
  refine (conj _ (conj eq_refl (conj Hs eq_refl))). destruct (so_fastSign opts); cbn [negb]; reflexivity.
Qed.
End Signing.

(** A signer's key and secret nonces. *)
Record signer : Type := mkSigner { s_key : PrivateKey; s_k1 : ModNScalar; s_k2 : ModNScalar }.
Definition signer_ok (s : signer) : Prop :=
  (sc_ok (s_key s) /\ s_key s <> 0) /\ (sc_ok (s_k1 s) /\ s_k1 s <> 0) /\ (sc_ok (s_k2 s) /\ s_k2 s <> 0).
Definition s_pub (s : signer) : pt := PubKey (s_key s).
Definition s_secret (s : signer) : list byte := secret_nonces (s_k1 s) (s_k2 s) (s_pub s).
Definition s_public (s : signer) : list byte := secNonceToPubNonce (s_secret s).

Lemma combine_nonces_all slicer (f : signer -> pt) ss : forall acc,
  Forall (fun s => ParseJacobian (slicer (s_public s)) = Ok (f s)) ss ->
  combine_nonces slicer (map s_public ss) acc = Ok (AddNonConst acc (psum (map f ss))).
Proof.
  induction ss as [|s ss IH]; intros acc Hall; cbn [map combine_nonces psum foldr]; [by rewrite add_inf_r|].
  apply list.Forall_cons in Hall as [-> Hall]. cbn [of_curve mbind result_bind].
  rewrite IH by done. fold (psum (map f ss)). by rewrite law_add_assoc.
Qed.

Definition nonce1_sum (ss : list signer) : pt := psum (map (fun s => PubKey (s_k1 s)) ss).
Definition nonce2_sum (ss : list signer) : pt := psum (map (fun s => PubKey (s_k2 s)) ss).
Definition combined_nonce (ss : list signer) : list byte :=
  JacobianToByteSlice (nonce1_sum ss) ++ JacobianToByteSlice (nonce2_sum ss).

Lemma combined_nonce_halves ss :
  ParseJacobian (take 33 (combined_nonce ss)) = Ok (nonce1_sum ss) /\
  ParseJacobian (drop 33 (combined_nonce ss)) = Ok (nonce2_sum ss).
Proof.
  unfold combined_nonce. rewrite take_app_le, drop_app_le by (by rewrite JacobianToByteSlice_33).
  rewrite take_ge, drop_ge by (by rewrite JacobianToByteSlice_33). by rewrite app_nil_l, !ParseJacobian_bytes.
Qed.

Lemma signers_nonces ss : Forall signer_ok ss -> AggregateNonces (map s_public ss) = Ok (combined_nonce ss).
Proof.
  intros Hall. assert (Hpub : forall s, signer_ok s ->
    ParseJacobian (take 33 (s_public s)) = Ok (PubKey (s_k1 s)) /\ ParseJacobian (drop 33 (s_public s)) = Ok (PubKey (s_k2 s))).
  { intros s (_ & [H1' H2'] & [H3' H4']). unfold PubKey. rewrite !zmul_base by assumption. exact (public_nonces _ _ _ H1' H3' H2' H4'). }
  unfold AggregateNonces.
  rewrite (combine_nonces_all (take 33) (fun s => PubKey (s_k1 s))) by (apply (fun F => Forall_impl _ F Hall); intros s Hs; exact (proj1 (Hpub s Hs))).
  cbn [mbind result_bind].
  rewrite (combine_nonces_all (drop 33) (fun s => PubKey (s_k2 s))) by (apply (fun F => Forall_impl _ F Hall); intros s Hs; exact (proj2 (Hpub s Hs))).
  cbn [mbind result_bind]. by rewrite !law_add_inf.
Qed.

Lemma contributions (Q : signer -> PartialSignature -> Prop) ss sigs : Forall2 Q ss sigs ->
  exists parts, map c_sig parts = sigs /\ map c_nonce parts = map s_public ss /\ map c_key parts = map s_pub ss /\
    Forall (fun p => exists s, c_nonce p = s_public s /\ c_key p = s_pub s /\ Q s (c_sig p)) parts.
Proof.
  induction 1 as [|s ps ss sigs HQ _ (parts & <- & E1 & E2 & Hall)]; [by exists []|].
  exists (mkContribution ps (s_public s) (s_pub s) :: parts). cbn [map c_sig c_nonce c_key]. rewrite E1, E2.
  split; [done|]. split; [done|]. split; [done|]. constructor; [by exists s|done].
Qed.

(** The point all sign under. *)
Definition combined_R (ss : list signer) (Q : pt) (msg : list byte) : pt :=
  AddNonConst (nonce1_sum ss) (zmul (nonce_blinder (combined_nonce ss) Q msg) (nonce2_sum ss)).

Section Honest.
Context (ss : list signer) (msg : list byte) (signOpts : list musig_SignOption).
Context (agg : AggregateKey) (g t : ModNScalar).
Local Abbreviation opts := (sign_options signOpts).
Local Abbreviation keys := (map s_pub ss).
Local Abbreviation R := (combined_R ss (FinalKey agg) msg).
Hypothesis Hall : Forall signer_ok ss.
Hypothesis Hagg : AggregateKeys keys (so_sortKeys opts)
  (tweak_options (so_bip86Tweak opts) (so_taprootTweak opts) (so_tweaks opts)) = Ok (agg, g, t).
Hypothesis HR : R <> infinityPoint.

(** What an honest signer's call gives. *)
Definition signs_validly (s : signer) (ps : PartialSignature) : Prop :=
  musig_Sign (s_secret s) (s_key s) (combined_nonce ss) keys msg signOpts = Ok ps /\ ps_R ps = Some R /\
  sc_ok (ps_S ps) /\ s_pub s <> infinityPoint /\
  verifyPartialSig ps (s_public s) (combined_nonce ss) keys (SerializeCompressed (s_pub s)) msg signOpts = Ok tt.

Lemma signers_sign s : s ∈ ss -> exists ps, signs_validly s ps.
Proof.
  intros Hin. destruct (proj1 (list.Forall_forall _ _) Hall s Hin) as ([Hd Hd0] & [Hk1 Hk10] & [Hk2 Hk20]).
  destruct (combined_nonce_halves ss) as [HR1 HR2].
  destruct (Sign_valid keys _ msg signOpts agg g t _ _ Hagg HR1 HR2 HR _ _ _ Hd Hd0 Hk1 Hk10 Hk2 Hk20) as (ps & E1 & E2 & E3 & E4).
  { apply list_elem_of_fmap. exists s. exact (conj eq_refl Hin). }
  exists ps. exact (conj E1 (conj E2 (conj E3 (conj (PubKey_finite _ Hd Hd0) E4)))).
Qed.

Lemma signers_sign_all : exists sigs, Forall2 signs_validly ss sigs.
Proof. apply Forall_exists_Forall2_l, list.Forall_forall. exact signers_sign. Qed.

Lemma signatures_combine sigs :
  FinalKey agg <> infinityPoint -> len msg = 32 -> Forall2 signs_validly ss sigs ->
  exists sig, CombineSigs R sigs
      (combine_with (so_bip86Tweak opts) (so_taprootTweak opts) (so_tweaks opts) msg keys (so_sortKeys opts)) = Ok sig /\
    Signature_Verify sig msg (FinalKey agg) = true.
Proof.
  intros HQ Hmsg Hsigs. destruct (contributions _ _ _ Hsigs) as (parts & <- & En & Ek & Hparts).
  destruct (combined_nonce_halves ss) as [HR1 HR2]. pose proof (signers_nonces ss Hall) as Hcn.
  rewrite <- En in Hcn. pose proof Hagg as Hagg'. rewrite <- Ek in Hagg'.
  destruct (combined_signature parts _ msg signOpts agg g t _ _ Hagg' Hcn HR1 HR2 HR HQ Hmsg) as (sig & Hsig & Hv).
  { apply (fun F => Forall_impl _ F Hparts). intros p (s & -> & Hk & (_ & _ & Hs & HP & Hver)). rewrite Hk, Ek.
    exact (conj Hs (conj HP Hver)). }
  exists sig. rewrite Ek in Hsig. exact (conj Hsig Hv).
Qed.
End Honest.

(** Honest signers make a valid signature.  Signers with keys and secret nonces that are
    not zero, and a combined key, with whatever tweaks, that is not infinity: aggregating
    their public nonces succeeds, and unless the combined nonce turns out to be infinity,
    each of them signs the message, all under the combined nonce, and combining the
    partial signatures gives a signature that verifies under the combined key. *)
Theorem honest_signers_sign (ss : list signer) (msg : list byte) (signOpts : list musig_SignOption)
    (agg : AggregateKey) (g t : ModNScalar) :
  let opts := sign_options signOpts in
  let keys := map s_pub ss in
  Forall signer_ok ss -> len msg = 32 ->
  AggregateKeys keys (so_sortKeys opts) (tweak_options (so_bip86Tweak opts) (so_taprootTweak opts) (so_tweaks opts)) =
    Ok (agg, g, t) ->
  FinalKey agg <> infinityPoint ->
  exists cn, AggregateNonces (map s_public ss) = Ok cn /\
    let R := AddNonConst (psum (map (fun s => PubKey (s_k1 s)) ss))
      (zmul (nonce_blinder cn (FinalKey agg) msg) (psum (map (fun s => PubKey (s_k2 s)) ss))) in
    R <> infinityPoint ->
    exists sigs sig,
      Forall2 (fun s ps => musig_Sign (s_secret s) (s_key s) cn keys msg signOpts = Ok ps /\ ps_R ps = Some R) ss sigs /\
      CombineSigs R sigs
        (combine_with (so_bip86Tweak opts) (so_taprootTweak opts) (so_tweaks opts) msg keys (so_sortKeys opts)) = Ok sig /\
      Signature_Verify sig msg (FinalKey agg) = true.
Proof.
  cbv zeta. intros Hall Hmsg Hagg HQ. exists (combined_nonce ss). split; [exact (signers_nonces ss Hall)|]. intros HR.
  destruct (signers_sign_all ss msg signOpts agg g t Hall Hagg HR) as [sigs Hsigs].
  destruct (signatures_combine ss msg signOpts agg g t Hall Hagg HR sigs HQ Hmsg Hsigs) as (sig & Hsig & Hv).
  exists sigs, sig. split; [|exact (conj Hsig Hv)].
  apply (fun F => Forall2_impl _ F Hsigs). intros s ps (Hs & Hr & _). exact (conj Hs Hr).
Qed.

(** C17: What is combined is valid whoever the signers are: if the public nonces add up to
    the combined nonce and every partial signature verifies for its nonce and key, then
    the combined signature verifies under the combined key, unless that or the combined
    nonce is infinity. *)
Theorem CombineSigs_valid (parts : list contribution) (cn msg : list byte) (signOpts : list musig_SignOption)
    (agg : AggregateKey) (g t : ModNScalar) (R1 R2 : pt) :
  let opts := sign_options signOpts in
  let keys := map c_key parts in
  let R := AddNonConst R1 (zmul (nonce_blinder cn (FinalKey agg) msg) R2) in
  AggregateKeys keys (so_sortKeys opts) (tweak_options (so_bip86Tweak opts) (so_taprootTweak opts) (so_tweaks opts)) =
    Ok (agg, g, t) ->
  AggregateNonces (map c_nonce parts) = Ok cn ->
  ParseJacobian (take 33 cn) = Ok R1 -> ParseJacobian (drop 33 cn) = Ok R2 ->
  R <> infinityPoint -> FinalKey agg <> infinityPoint -> len msg = 32 ->
  Forall (fun p => sc_ok (ps_S (c_sig p)) /\ c_key p <> infinityPoint /\
    PartialSignature_Verify (c_sig p) (c_nonce p) cn keys (c_key p) msg signOpts = true) parts ->
  exists sig, CombineSigs R (map c_sig parts)
      (combine_with (so_bip86Tweak opts) (so_taprootTweak opts) (so_tweaks opts) msg keys (so_sortKeys opts)) = Ok sig /\
    Signature_Verify sig msg (FinalKey agg) = true.
Proof.
  cbv zeta. intros Hagg Hcn HR1 HR2 HR HQ Hmsg Hall.
  apply (combined_signature parts cn msg signOpts agg g t R1 R2 Hagg Hcn HR1 HR2 HR HQ Hmsg).
  apply (fun F => Forall_impl _ F Hall). intros p (Hs & HP & Hv). split; [exact Hs|]. split; [exact HP|].
  unfold PartialSignature_Verify in Hv. destruct (verifyPartialSig _ _ _ _ _ _ _) as [[]|]; [reflexivity|discriminate].
Qed.
End Keys.

(** ** Concrete inputs *)

(** Two signers over [exponents], whose second nonces cancel out. *)
Definition signer1 : signer := mkSigner 5 2 1.
Definition signer2 : signer := mkSigner 7 3 (curveN - 1).
Definition two_signers : list signer := [signer1; signer2].
Definition two_keys : list pt := map s_pub two_signers.
Definition two_msg : list byte := replicate 32 x07.

Lemma two_signers_ok : Forall signer_ok two_signers.
Proof. repeat constructor; by vm_compute. Qed.
Lemma two_keys_combined : combined false two_keys <> infinityPoint.
Proof. intros E. apply (f_equal (fun a => `a)) in E. vm_compute in E. discriminate E. Qed.
Lemma two_nonces b : AddNonConst (psum (map (fun s => PubKey (s_k1 s)) two_signers))
  (zmul b (psum (map (fun s => PubKey (s_k2 s)) two_signers))) = exponent_of 5.
Proof.
  replace (psum (map (fun s => PubKey (s_k2 s)) two_signers)) with infinityPoint by (by apply exponent_ext).
  rewrite zmul_inf. by apply exponent_ext.
Qed.

Lemma honest_signers_sign_witness :
  let agg := mkAggregateKey (combined false two_keys) (combined false two_keys) in
  FinalKey agg <> infinityPoint /\ exists cn sigs sig,
    AggregateNonces (map s_public two_signers) = Ok cn /\
    Forall2 (fun s ps => musig_Sign (s_secret s) (s_key s) cn two_keys two_msg [] = Ok ps) two_signers sigs /\
    CombineSigs (exponent_of 5) sigs [] = Ok sig /\ Signature_Verify sig two_msg (FinalKey agg) = true.
Proof.
  cbv zeta. split; [exact two_keys_combined|].
  destruct (honest_signers_sign two_signers two_msg [] _ 1 0 two_signers_ok eq_refl (AggregateKeys_plain false two_keys) two_keys_combined)
    as (cn & Hcn & Hs). cbv zeta in Hs. rewrite two_nonces in Hs.
  destruct Hs as (sigs & sig & H1 & H2 & H3); [intros E; discriminate (f_equal (fun a : exponent => `a) E)|].
  exists cn, sigs, sig. split; [exact Hcn|]. split; [|exact (conj H2 H3)].
  apply (fun F => Forall2_impl _ F H1). intros s ps [Hps _]. exact Hps.
Defined.

Lemma CombineSigs_valid_witness :
  exists cn ps1 ps2 sig,
    let part (s : signer) (ps : PartialSignature) := mkContribution ps (s_public s) (s_pub s) in
    let parts := [part signer1 ps1; part signer2 ps2] in
    AggregateNonces (map c_nonce parts) = Ok cn /\
    Forall (fun p => PartialSignature_Verify (c_sig p) (c_nonce p) cn two_keys (c_key p) two_msg [] = true) parts /\
    CombineSigs (exponent_of 5) [ps1; ps2] [] = Ok sig /\ Signature_Verify sig two_msg (combined false two_keys) = true.
Proof.
  pose proof (signers_nonces two_signers two_signers_ok) as Hcn.
  destruct (combined_nonce_halves two_signers) as [HR1 HR2].
  pose proof (AggregateKeys_plain false two_keys) as Hagg.
  set (agg := mkAggregateKey _ _) in Hagg. set (cn := combined_nonce two_signers) in *.
  assert (HR : combined_R two_signers (FinalKey agg) two_msg = exponent_of 5) by apply two_nonces.
  assert (HR0 : combined_R two_signers (FinalKey agg) two_msg <> infinityPoint).
  { rewrite HR. intros E. discriminate (f_equal (fun a : exponent => `a) E). }
  assert (Hsign : forall s, s ∈ two_signers -> exists ps, sc_ok (ps_S ps) /\ s_pub s <> infinityPoint /\
    PartialSignature_Verify ps (s_public s) cn two_keys (s_pub s) two_msg [] = true).
  { intros s Hin. destruct (signers_sign two_signers two_msg [] agg 1 0 two_signers_ok Hagg HR0 s Hin) as (ps & _ & _ & Hs & HP & Hv).
    exists ps. split; [exact Hs|]. split; [exact HP|]. unfold PartialSignature_Verify. unfold s_public in *.
    fold cn two_keys in Hv. rewrite Hv. reflexivity. }
  destruct (Hsign signer1) as (ps1 & Hs1 & Hf1 & Hv1); [left|].
  destruct (Hsign signer2) as (ps2 & Hs2 & Hf2 & Hv2); [right; left|].
  destruct (CombineSigs_valid [mkContribution ps1 (s_public signer1) (s_pub signer1); mkContribution ps2 (s_public signer2) (s_pub signer2)] cn two_msg [] agg 1 0
    _ _ Hagg Hcn HR1 HR2 HR0 two_keys_combined eq_refl) as (sig & Hsig & Hver).
  { apply list.Forall_cons_2; [exact (conj Hs1 (conj Hf1 Hv1))|]. apply list.Forall_cons_2; [exact (conj Hs2 (conj Hf2 Hv2))|constructor]. }
  change (AddNonConst _ _) with (combined_R two_signers (FinalKey agg) two_msg) in Hsig. rewrite HR in Hsig. exists cn, ps1, ps2, sig. cbv zeta. split; [exact Hcn|]. split; [|exact (conj Hsig Hver)].
  apply list.Forall_cons_2; [exact Hv1|]. apply list.Forall_cons_2; [exact Hv2|constructor].
Defined.
