(* ===== verification/MuSigContext.v ===== *)
(** * nogoec/schnorr/musig2: contexts and sessions

    The code of [context.go]: a context knows the signers, a session collects nonces and
    partial signatures.  A call returns the state it leaves behind together with its
    result, since some errors leave changes; a session's calls take the context too,
    whose keys they sort in place.  Dereferencing nil is the error [Panic].  Randomness
    is an argument of the calls that draw nonces. *)

From Stdlib Require Import ZArith Lia.
From S2P Require Import Prelude WireCommon WireTx TxSort ChainHash Secp Schnorr MuSig2 MuSig2Claims.
Open Scope Z_scope.

#[local] Opaque TaggedHash.

Inductive context_error : Type :=
| ErrSignersNotSpecified
| ErrSignerNotInKeySet
| ErrAlredyHaveAllNonces
| ErrNotEnoughSigners
| ErrAlreadyHaveAllSigners
| ErrAlredyHaveAllSigs
| ErrSigningContextReuse
| ErrFinalSigInvalid
| ErrCombinedNonceUnavailable
| ErrTaprootInternalKeyUnavailable
| ErrNoEarlyNonce
| ErrCombinedNonceAfterPubNonces
| ErrInvalidCombinedNonce (e : curve_error)
| ErrMusig (e : musig_error).

Definition of_musig {A} (r : result musig_error A) : result context_error A :=
  match r with Ok a => Ok a | Err e => Err (ErrMusig e) end.
Local Abbreviation panics := (Err (ErrMusig Panic)).

(** ** Contexts *)

Section Context.
Context `{Secp256k1} `{Sorter}.

(** [None] as the set of keys is a nil slice. *)
Record contextOptions : Type := mkContextOptions {
  cx_tweaks : list KeyTweakDesc;
  cx_taprootTweak : option (list byte);
  cx_bip86Tweak : bool;
  cx_keySet : option (list pt);
  cx_numSigners : Z;
  cx_earlyNonce : bool;
}.
Definition ContextOption : Type := contextOptions -> contextOptions.
Definition defaultContextOptions : contextOptions := mkContextOptions [] None false None 0 false.
Definition WithTweakedContext (tweaks : list KeyTweakDesc) : ContextOption := fun o =>
  mkContextOptions tweaks (cx_taprootTweak o) (cx_bip86Tweak o) (cx_keySet o) (cx_numSigners o) (cx_earlyNonce o).
Definition WithTaprootTweakCtx (scriptRoot : option (list byte)) : ContextOption := fun o =>
  mkContextOptions (cx_tweaks o) scriptRoot (cx_bip86Tweak o) (cx_keySet o) (cx_numSigners o) (cx_earlyNonce o).
Definition WithBip86TweakCtx : ContextOption := fun o =>
  mkContextOptions (cx_tweaks o) (cx_taprootTweak o) true (cx_keySet o) (cx_numSigners o) (cx_earlyNonce o).
Definition WithKnownSigners (signers : option (list pt)) : ContextOption := fun o =>
  mkContextOptions (cx_tweaks o) (cx_taprootTweak o) (cx_bip86Tweak o) signers (len (default [] signers)) (cx_earlyNonce o).
Definition WithNumSigners (n : Z) : ContextOption := fun o =>
  mkContextOptions (cx_tweaks o) (cx_taprootTweak o) (cx_bip86Tweak o) (cx_keySet o) n (cx_earlyNonce o).
Definition WithEarlyNonceGen : ContextOption := fun o =>
  mkContextOptions (cx_tweaks o) (cx_taprootTweak o) (cx_bip86Tweak o) (cx_keySet o) (cx_numSigners o) true.
Definition context_options (ctxOpts : list ContextOption) : contextOptions :=
  foldl (fun o (option : ContextOption) => option o) defaultContextOptions ctxOpts.

Definition with_keySet (keys : list pt) (o : contextOptions) : contextOptions :=
  mkContextOptions (cx_tweaks o) (cx_taprootTweak o) (cx_bip86Tweak o) (Some keys) (cx_numSigners o) (cx_earlyNonce o).
Definition keys_of (o : contextOptions) : list pt := default [] (cx_keySet o).

Record Context : Type := mkContext {
  signingKey : PrivateKey;
  ctx_pubKey : pt;
  combinedKey : option AggregateKey;
  uniqueKeyIndex : Z;
  keysHash : list byte;
  ctx_opts : contextOptions;
  shouldSort : bool;
  sessionNonce : option Nonces;
}.
Definition ctx_with_opts (o : contextOptions) (c : Context) : Context :=
  mkContext (signingKey c) (ctx_pubKey c) (combinedKey c) (uniqueKeyIndex c) (keysHash c) o (shouldSort c) (sessionNonce c).
Definition ctx_with_keys (keys : list pt) (c : Context) : Context := ctx_with_opts (with_keySet keys (ctx_opts c)) c.
Definition ctx_with_nonce (n : option Nonces) (c : Context) : Context :=
  mkContext (signingKey c) (ctx_pubKey c) (combinedKey c) (uniqueKeyIndex c) (keysHash c) (ctx_opts c) (shouldSort c) n.

Definition combineSignerKeys (c : Context) : Context * result context_error unit :=
  let keySet := keys_of (ctx_opts c) in
  if negb (existsb (fun key => bool_decide (key = ctx_pubKey c)) keySet) then (c, Err ErrSignerNotInKeySet)
  else
    let hash := keyHashFingerprint keySet (shouldSort c) in
    let keySet := after_sort (shouldSort c) keySet in
    let idx := secondUniqueKeyIndex keySet (shouldSort c) in
    let o := ctx_opts c in
    let keyAggOpts := [WithKeysHash hash; WithUniqueKeyIndex idx] ++
      tweak_options (cx_bip86Tweak o) (cx_taprootTweak o) (cx_tweaks o) in
    let combine k := mkContext (signingKey c) (ctx_pubKey c) k idx hash (with_keySet keySet o) (shouldSort c) (sessionNonce c) in
    match AggregateKeys keySet (shouldSort c) keyAggOpts with
    | Ok (agg, _, _) => (combine (Some agg), Ok tt)
    | Err e => (combine None, Err (ErrMusig e))
    end.

Definition NewContext (cryptoRand : option (list byte)) (signingKey : PrivateKey) (shouldSort : bool)
    (ctxOpts : list ContextOption) : result context_error Context :=
  let opts := context_options ctxOpts in
  let pubKey := PubKey signingKey in
  let ctx := mkContext signingKey pubKey None 0 [] opts shouldSort None in
  ctx ← match cx_keySet opts with
        | Some _ => match combineSignerKeys ctx with (ctx, Ok _) => Ok ctx | (_, Err e) => Err e end
        | None =>
            if negb (cx_numSigners opts =? 0)
            then if cx_numSigners opts <? 0 then panics else Ok (ctx_with_keys [pubKey] ctx)
            else Err ErrSignersNotSpecified
        end;
  if cx_earlyNonce opts
  then
    nonce ← of_musig (GenNonces cryptoRand [WithPublicKey pubKey; WithNonceSecretKeyAux signingKey]);
    Ok (ctx_with_nonce (Some nonce) ctx)
  else Ok ctx.

Definition EarlySessionNonce (c : Context) : result context_error Nonces :=
  match sessionNonce c with None => Err ErrNoEarlyNonce | Some n => Ok n end.

Definition RegisterSigner (c : Context) (pub : pt) : Context * result context_error bool :=
  if len (keys_of (ctx_opts c)) =? cx_numSigners (ctx_opts c) then (c, Err ErrAlreadyHaveAllSigners)
  else
    let c := ctx_with_keys (keys_of (ctx_opts c) ++ [pub]) c in
    let haveAllSigners := len (keys_of (ctx_opts c)) =? cx_numSigners (ctx_opts c) in
    if haveAllSigners
    then match combineSignerKeys c with
         | (c, Ok _) => (c, Ok true)
         | (c, Err e) => (c, Err e)
         end
    else (c, Ok false).

Definition NumRegisteredSigners (c : Context) : Z := len (keys_of (ctx_opts c)).
Definition CombinedKey (c : Context) : result context_error pt :=
  match combinedKey c with None => Err ErrNotEnoughSigners | Some k => Ok (FinalKey k) end.
Definition Context_PubKey (c : Context) : pt := ctx_pubKey c.
Definition SigningKeys (c : Context) : list pt := keys_of (ctx_opts c).
Definition TaprootInternalKey (c : Context) : result context_error pt :=
  match combinedKey c with
  | None => Err ErrNotEnoughSigners
  | Some k =>
      if negb (bool_decide (is_Some (cx_taprootTweak (ctx_opts c)))) && negb (cx_bip86Tweak (ctx_opts c))
      then Err ErrTaprootInternalKeyUnavailable else Ok (PreTweakedKey k)
  end.

(** ** Sessions *)

Record sessionOptions : Type := mkSessionOptions { externalNonce : option Nonces }.
Definition SessionOption : Type := sessionOptions -> sessionOptions.
Definition defaultSessionOptions : sessionOptions := mkSessionOptions None.
Definition WithPreGeneratedNonce (nonce : option Nonces) : SessionOption := fun _ => mkSessionOptions nonce.

Record Session : Type := mkSession {
  localNonces : option Nonces;
  pubNonces : list (list byte);
  combinedNonce : option (list byte);
  se_msg : list byte;
  ourSig : option PartialSignature;
  se_sigs : list PartialSignature;
  finalSig : option Signature;
}.

Definition NewSession (cryptoRand : option (list byte)) (c : Context) (options : list SessionOption)
    : Context * result context_error Session :=
  let opts := foldl (fun o (opt : SessionOption) => opt o) defaultSessionOptions options in
  if negb (len (keys_of (ctx_opts c)) =? cx_numSigners (ctx_opts c)) then (c, Err ErrNotEnoughSigners)
  else
    let '(localNonces, c) := match sessionNonce c with
      | Some n => (Some n, ctx_with_nonce None c)
      | None => (externalNonce opts, c)
      end in
    let localNonces := match localNonces with
      | Some n => Ok n
      | None =>
          match combinedKey c with
          | None => panics
          | Some k => of_musig (GenNonces cryptoRand [WithPublicKey (ctx_pubKey c);
              WithNonceSecretKeyAux (signingKey c); WithNonceCombinedKeyAux (FinalKey k)])
          end
      end in
    (c, n ← localNonces;
        Ok (mkSession (Some n) [PubNonce n] None (replicate 32 x00) None [] None)).

Definition PublicNonce (s : Session) : result context_error (list byte) :=
  match localNonces s with None => panics | Some n => Ok (PubNonce n) end.
Definition NumRegisteredNonces (s : Session) : Z := len (pubNonces s).

Definition se_with_nonces (pns : list (list byte)) (cn : option (list byte)) (s : Session) : Session :=
  mkSession (localNonces s) pns cn (se_msg s) (ourSig s) (se_sigs s) (finalSig s).

Definition RegisterPubNonce (c : Context) (s : Session) (nonce : list byte) : Session * result context_error bool :=
  let haveAllNonces := len (pubNonces s) =? cx_numSigners (ctx_opts c) in
  if haveAllNonces || bool_decide (is_Some (combinedNonce s)) then (s, Err ErrAlredyHaveAllNonces)
  else
    let pns := pubNonces s ++ [nonce] in
    let haveAllNonces := len pns =? cx_numSigners (ctx_opts c) in
    let s := se_with_nonces pns (combinedNonce s) s in
    if haveAllNonces
    then match AggregateNonces pns with
         | Err e => (s, Err (ErrMusig e))
         | Ok cn => (se_with_nonces pns (Some cn) s, Ok true)
         end
    else (s, Ok false).

Definition CombinedNonce (s : Session) : result context_error (list byte) :=
  match combinedNonce s with None => Err ErrCombinedNonceUnavailable | Some cn => Ok cn end.

Definition RegisterCombinedNonce (s : Session) (cn : list byte) : Session * result context_error unit :=
  if bool_decide (is_Some (combinedNonce s)) then (s, Err ErrAlredyHaveAllNonces)
  else if 1 <? len (pubNonces s) then (s, Err ErrCombinedNonceAfterPubNonces)
  else
    match ParsePubKey (take 33 cn) with
    | Err e => (s, Err (ErrInvalidCombinedNonce e))
    | Ok _ =>
        match ParsePubKey (drop 33 cn) with
        | Err e => (s, Err (ErrInvalidCombinedNonce e))
        | Ok _ => (se_with_nonces (pubNonces s) (Some cn) s, Ok tt)
        end
    end.

(** The options of a context for its tweak, added to those of the call. *)
Definition session_sign_options (o : contextOptions) (signOpts : list musig_SignOption) : list musig_SignOption :=
  if cx_bip86Tweak o then signOpts ++ [WithBip86SignTweak]
  else match cx_taprootTweak o with
       | Some root => signOpts ++ [WithTaprootSignTweak (Some root)]
       | None => match cx_tweaks o with [] => signOpts | tweaks => signOpts ++ [WithTweaks tweaks] end
       end.

(** The keys after [Sign]: sorted, if it is asked to, once it has passed its first checks. *)
Definition keys_after_sign (secNonce : list byte) (privKey : PrivateKey) (keys : list pt)
    (signOpts : list musig_SignOption) : list pt :=
  if bool_decide (drop 64 secNonce = SerializeCompressed (PubKey privKey)) &&
     existsb (fun pk => bool_decide (PubKey privKey = pk)) keys
  then after_sort (so_sortKeys (sign_options signOpts)) keys else keys.

Definition Session_Sign (c : Context) (s : Session) (msg : list byte) (signOpts : list musig_SignOption)
    : Context * Session * result context_error PartialSignature :=
  match localNonces s, combinedNonce s with
  | None, _ => (c, s, Err ErrSigningContextReuse)
  | _, None => (c, s, Err ErrCombinedNonceUnavailable)
  | Some n, Some cn =>
      let signOpts := session_sign_options (ctx_opts c) signOpts in
      let keys := keys_of (ctx_opts c) in
      let r := musig_Sign (SecNonce n) (signingKey c) cn keys msg signOpts in
      let c := ctx_with_keys (keys_after_sign (SecNonce n) (signingKey c) keys signOpts) c in
      let s := mkSession None (pubNonces s) (combinedNonce s) (se_msg s) (ourSig s) (se_sigs s) (finalSig s) in
      match r with
      | Err e => (c, s, Err (ErrMusig e))
      | Ok partialSig =>
          (c, mkSession None (pubNonces s) (combinedNonce s) msg (Some partialSig) (se_sigs s ++ [partialSig]) (finalSig s),
           Ok partialSig)
      end
  end.

Definition CombineSig (c : Context) (s : Session) (sig : PartialSignature)
    : Context * Session * result context_error bool :=
  let keys := keys_of (ctx_opts c) in
  if len (se_sigs s) =? len keys then (c, s, Err ErrAlredyHaveAllSigs)
  else
    let sigs := se_sigs s ++ [sig] in
    let s := mkSession (localNonces s) (pubNonces s) (combinedNonce s) (se_msg s) (ourSig s) sigs (finalSig s) in
    let haveAllSigs := len sigs =? len keys in
    if haveAllSigs
    then
      let o := ctx_opts c in
      let combineOpts := combine_with (cx_bip86Tweak o) (cx_taprootTweak o) (cx_tweaks o) (se_msg s) keys (shouldSort c) in
      match ourSig s with
      | None => (c, s, panics)
      | Some our =>
          let c := match combineOpts with [] => c | _ => ctx_with_keys (after_sort (shouldSort c) keys) c end in
          match ps_R our with
          | None => (c, s, panics)
          | Some R =>
              match CombineSigs R sigs combineOpts, combinedKey c with
              | Ok sig, Some k =>
                  if negb (Signature_Verify sig (se_msg s) (FinalKey k)) then (c, s, Err ErrFinalSigInvalid)
                  else (c, mkSession (localNonces s) (pubNonces s) (combinedNonce s) (se_msg s) (ourSig s) sigs (Some sig), Ok true)
              | _, _ => (c, s, panics)
              end
          end
      end
    else (c, s, Ok false).

Definition FinalSig (s : Session) : option Signature := finalSig s.

(** ** The calls on one session, in any order *)

Inductive call : Type :=
| Call_RegisterPubNonce (nonce : list byte)
| Call_RegisterCombinedNonce (cn : list byte)
| Call_Sign (msg : list byte) (signOpts : list musig_SignOption)
| Call_CombineSig (sig : PartialSignature).

Inductive answer : Type :=
| Answer_nonce (r : result context_error bool)
| Answer_combined (r : result context_error unit)
| Answer_sign (r : result context_error PartialSignature)
| Answer_sig (r : result context_error bool).

Definition session_call (st : Context * Session) (op : call) : Context * Session * answer :=
  let '(c, s) := st in
  match op with
  | Call_RegisterPubNonce n => let '(s, r) := RegisterPubNonce c s n in (c, s, Answer_nonce r)
  | Call_RegisterCombinedNonce n => let '(s, r) := RegisterCombinedNonce s n in (c, s, Answer_combined r)
  | Call_Sign msg os => let '(c, s, r) := Session_Sign c s msg os in (c, s, Answer_sign r)
  | Call_CombineSig sig => let '(c, s, r) := CombineSig c s sig in (c, s, Answer_sig r)
  end.

Fixpoint session_run (st : Context * Session) (ops : list call) : Context * Session * list answer :=
  match ops with
  | [] => (st, [])
  | op :: ops =>
      let '(st, a) := session_call st op in
      let '(st, answers) := session_run st ops in
      (st, a :: answers)
  end.
End Context.

(** ** One signature per session *)

Section Laws.
Context `{Secp256k1Laws} `{Sorter}.

(** Signing uses up the nonces, and a final signature is one of the session's key. *)
Definition session_ok (c : Context) (s : Session) : Prop :=
  (is_Some (ourSig s) -> localNonces s = None) /\
  (forall sig, finalSig s = Some sig -> is_Some (ourSig s) /\
    exists k, combinedKey c = Some k /\ Signature_Verify sig (se_msg s) (FinalKey k) = true) /\
  len (pubNonces s) <= cx_numSigners (ctx_opts c).

(** What no call changes. *)
Definition fixed_by (c c' : Context) (s s' : Session) : Prop :=
  combinedKey c' = combinedKey c /\ cx_numSigners (ctx_opts c') = cx_numSigners (ctx_opts c) /\
  length (keys_of (ctx_opts c')) = length (keys_of (ctx_opts c)) /\
  (is_Some (combinedNonce s) -> combinedNonce s' = combinedNonce s) /\
  (localNonces s = None -> localNonces s' = None).

Definition gives_signature (a : answer) : bool :=
  match a with Answer_sign (Ok _) => true | _ => false end.

Lemma length_keys_after_sign sn d keys os : length (keys_after_sign sn d keys os) = length keys.
Proof.
  unfold keys_after_sign. destruct (_ && _); [|reflexivity]. by rewrite (after_sort_perm _ keys).
Qed.

Lemma RegisterPubNonce_ok c s n :
  session_ok c s -> let s' := fst (RegisterPubNonce c s n) in session_ok c s' /\ fixed_by c c s s'.
Proof.
  intros (H1' & H2' & H3'). unfold RegisterPubNonce. set (full := len (pubNonces s) =? _).
  destruct (full || bool_decide (is_Some (combinedNonce s))) eqn:E; [cbn; split; [exact (conj H1' (conj H2' H3'))|by split_and!]|].
  apply orb_false_iff in E as [Efull Ecn]. apply bool_decide_eq_false in Ecn.
  assert (Hl : len (pubNonces s ++ [n]) <= cx_numSigners (ctx_opts c)).
  { unfold full, len in *. rewrite length_app. cbn [length]. apply Z.eqb_neq in Efull. lia. }
  destruct (len (pubNonces s ++ [n]) =? cx_numSigners (ctx_opts c)); [destruct (AggregateNonces _)|];
    cbn; (split; [exact (conj H1' (conj H2' Hl))|]); by split_and!.
Qed.

Lemma RegisterCombinedNonce_ok c s n :
  session_ok c s -> let s' := fst (RegisterCombinedNonce s n) in session_ok c s' /\ fixed_by c c s s'.
Proof.
  intros Hok. unfold RegisterCombinedNonce.
  case_bool_decide as Ecn; [cbn; split; [exact Hok|by split_and!]|].
  destruct (1 <? len (pubNonces s)); [cbn; split; [exact Hok|by split_and!]|].
  destruct (ParsePubKey (take 33 n)); [|cbn; split; [exact Hok|by split_and!]].
  destruct (ParsePubKey (drop 33 n)); cbn; split; [exact Hok|by split_and!|exact Hok|by split_and!].
Qed.

Lemma Session_Sign_ok c s msg os :
  session_ok c s -> let '(c', s', r) := Session_Sign c s msg os in
  session_ok c' s' /\ fixed_by c c' s s' /\
  (gives_signature (Answer_sign r) = true -> is_Some (localNonces s) /\ localNonces s' = None).
Proof.
  intros Hok. unfold Session_Sign.
  destruct (localNonces s) as [n|] eqn:En; [|split; [exact Hok|]; split; [by split_and!|discriminate]].
  destruct (combinedNonce s) as [cn|] eqn:Ecn; [|split; [exact Hok|]; split; [by split_and!|discriminate]].
  destruct Hok as (H1' & H2' & H3').
  assert (Hour : ourSig s = None).
  { destruct (ourSig s); [|reflexivity]. rewrite En in H1'. discriminate H1'. by eexists. }
  assert (Hfin : finalSig s = None).
  { destruct (finalSig s) as [sig|]; [|reflexivity]. destruct (H2' sig eq_refl) as [[? E] _]. rewrite Hour in E. discriminate E. }
  assert (Hfix : forall ks s', length ks = length (keys_of (ctx_opts c)) -> combinedNonce s' = Some cn -> localNonces s' = None ->
    fixed_by c (ctx_with_keys ks c) s s').
  { intros ks s' Hl Hcn Hn. unfold fixed_by. rewrite Ecn, Hcn. split_and!; [reflexivity|reflexivity|exact Hl|reflexivity|intros _; exact Hn]. }
  destruct (musig_Sign _ _ _ _ _ _) as [ps|e].
  - split; [|split; [apply Hfix; [apply length_keys_after_sign|reflexivity|reflexivity]|intros _; split; [by eexists|reflexivity]]].
    split; [reflexivity|]. split; [|exact H3']. cbn [finalSig]. intros sig E. rewrite Hfin in E. discriminate E.
  - split; [|split; [apply Hfix; [apply length_keys_after_sign|reflexivity|reflexivity]|discriminate]].
    split; [reflexivity|]. split; [|exact H3']. cbn [finalSig]. intros sig E. rewrite Hfin in E. discriminate E.
Qed.

Lemma CombineSig_ok c s sig :
  session_ok c s -> let '(c', s', r) := CombineSig c s sig in session_ok c' s' /\ fixed_by c c' s s'.
Proof.
  intros Hok. unfold CombineSig.
  destruct (len (se_sigs s) =? _); [split; [exact Hok|by split_and!]|].
  destruct (len (se_sigs s ++ [sig]) =? _); [|split; [exact Hok|by split_and!]].
  destruct (ourSig s) as [our|] eqn:Eo; [|split; [rewrite <- Eo; exact Hok|by split_and!]].
  set (opts := combine_with _ _ _ _ _ _). set (keys := keys_of (ctx_opts c)).
  set (c' := match opts with [] => c | _ => _ end). set (s' := mkSession _ _ _ _ _ _ _).
  assert (Hc' : combinedKey c' = combinedKey c /\ cx_numSigners (ctx_opts c') = cx_numSigners (ctx_opts c) /\
    length (keys_of (ctx_opts c')) = length (keys_of (ctx_opts c))).
  { unfold c'. destruct opts; [by split_and!|]. split; [reflexivity|]. split; [reflexivity|].
    exact (Permutation_length (after_sort_perm (shouldSort c) keys)). }
  destruct Hc' as (Ek & En & El). destruct Hok as (H1' & H2' & H3').
  assert (Hok' : session_ok c' s').
  { unfold session_ok. rewrite Ek, En. cbn. rewrite Eo in H1', H2'. exact (conj H1' (conj H2' H3')). }
  assert (Hfix : forall x, localNonces x = localNonces s -> combinedNonce x = combinedNonce s -> fixed_by c c' s x).
  { intros x E1 E2. unfold fixed_by. rewrite E1, E2. exact (conj Ek (conj En (conj El (conj (fun _ => eq_refl) (fun E => E))))). }
  cbv zeta. change (ourSig s') with (Some our). cbv iota. destruct (ps_R our) as [R|]; [|split; [exact Hok'|apply Hfix; reflexivity]].
  destruct (CombineSigs R _ opts) as [final|]; [|split; [exact Hok'|apply Hfix; reflexivity]].
  rewrite Ek. destruct (combinedKey c) as [k|] eqn:Ekey; [|split; [exact Hok'|apply Hfix; reflexivity]].
  destruct (Signature_Verify final _ (FinalKey k)) eqn:Ev; cbn [negb]; (split; [|apply Hfix; reflexivity]); [|exact Hok'].
  unfold session_ok. rewrite Ek, En. cbn. cbn in Ev. rewrite Eo in H1'.
  split; [exact H1'|]. split; [|exact H3']. intros x [= <-]. split; [by eexists|]. exists k. split; [reflexivity|exact Ev].
Qed.

Lemma session_call_ok c s op :
  session_ok c s -> let '(c', s', a) := session_call (c, s) op in
  session_ok c' s' /\ fixed_by c c' s s' /\
  (gives_signature a = true -> is_Some (localNonces s) /\ localNonces s' = None).
Proof.
  intros Hok. destruct op as [n|n|msg os|sig]; cbn [session_call].
  - pose proof (RegisterPubNonce_ok c s n Hok) as Hr. destruct (RegisterPubNonce c s n) as [s' r]. cbn in Hr.
    exact (conj (proj1 Hr) (conj (proj2 Hr) (fun E => False_ind _ (Bool.diff_false_true E)))).
  - pose proof (RegisterCombinedNonce_ok c s n Hok) as Hr. destruct (RegisterCombinedNonce s n) as [s' r]. cbn in Hr.
    exact (conj (proj1 Hr) (conj (proj2 Hr) (fun E => False_ind _ (Bool.diff_false_true E)))).
  - pose proof (Session_Sign_ok c s msg os Hok) as Hr. destruct (Session_Sign c s msg os) as [[c' s'] r]. exact Hr.
  - pose proof (CombineSig_ok c s sig Hok) as Hr. destruct (CombineSig c s sig) as [[c' s'] r].
    exact (conj (proj1 Hr) (conj (proj2 Hr) (fun E => False_ind _ (Bool.diff_false_true E)))).
Qed.

Lemma fixed_by_trans c1 c2 c3 s1 s2 s3 : fixed_by c1 c2 s1 s2 -> fixed_by c2 c3 s2 s3 -> fixed_by c1 c3 s1 s3.
Proof.
  intros (K1 & N1 & L1 & C1 & D1) (K2 & N2 & L2 & C2 & D2). unfold fixed_by.
  rewrite K2, N2, L2. split; [exact K1|]. split; [exact N1|]. split; [exact L1|]. split; [|intros E; exact (D2 (D1 E))].
  intros E. rewrite <- (C1 E). apply C2. rewrite (C1 E). exact E.
Qed.

Definition signatures_given (answers : list answer) : nat := length (List.filter gives_signature answers).

Lemma session_run_ok ops : forall c s, session_ok c s ->
  let '(c', s', answers) := session_run (c, s) ops in
  session_ok c' s' /\ fixed_by c c' s s' /\
  (signatures_given answers <= match localNonces s with Some _ => 1 | None => 0 end)%nat.
Proof.
  induction ops as [|op ops IH]; intros c s Hok; cbn [session_run].
  - split; [exact Hok|]. split; [unfold fixed_by; by split_and!|]. cbn. lia.
  - pose proof (session_call_ok c s op Hok) as Hcall. destruct (session_call (c, s) op) as [[c1 s1] a].
    destruct Hcall as (Hok1 & Hfix1 & Hsig). specialize (IH c1 s1 Hok1).
    destruct (session_run (c1, s1) ops) as [[c2 s2] answers]. destruct IH as (Hok2 & Hfix2 & Hcount).
    split; [exact Hok2|]. split; [by eapply fixed_by_trans|]. unfold signatures_given in *. cbn [List.filter].
    destruct Hfix1 as (_ & _ & _ & _ & Hnone). destruct (gives_signature a); cbn [length].
    + destruct (Hsig eq_refl) as [[n En] E1]. rewrite E1 in Hcount. rewrite En. lia.
    + destruct (localNonces s); [destruct (localNonces s1); lia|]. rewrite (Hnone eq_refl) in Hcount. lia.
Qed.

Lemma NewSession_ok rand c options c' s :
  1 <= cx_numSigners (ctx_opts c) -> NewSession rand c options = (c', Ok s) ->
  session_ok c' s /\ sessionNonce c' = None /\ is_Some (localNonces s) /\ finalSig s = None /\ ourSig s = None /\ se_sigs s = [] /\
  combinedNonce s = None.
Proof.
  intros Hn. unfold NewSession. destruct (negb _); [discriminate|].
  set (o := foldl _ _ _). intros E.
  assert (Hs : exists n, s = mkSession (Some n) [PubNonce n] None (replicate 32 x00) None [] None).
  { destruct (sessionNonce c); [injection E as _ <-; by eexists|].
    destruct (externalNonce o); [injection E as _ <-; by eexists|].
    destruct (combinedKey c); [|discriminate]. destruct (of_musig (GenNonces _ _)); [|discriminate].
    injection E as _ <-. by eexists. }
  assert (Hc : sessionNonce c' = None /\ ctx_opts c' = ctx_opts c).
  { destruct (sessionNonce c) eqn:En; [injection E as <- _; by split|].
    destruct (externalNonce o); injection E as <- _; by split. }
  destruct Hs as [n ->], Hc as [Hc Ho]. unfold session_ok. rewrite Ho. cbn.
  split; [split; [intros [? [=]]|split; [discriminate|unfold len; cbn; lia]]|].
  split; [exact Hc|]. split; [by eexists|]. split_and!; reflexivity.
Qed.

Lemma session_run_app ops1 ops2 : forall st,
  session_run st (ops1 ++ ops2) =
    let '(st1, answers1) := session_run st ops1 in
    let '(st2, answers2) := session_run st1 ops2 in (st2, answers1 ++ answers2).
Proof.
  induction ops1 as [|op ops1 IH]; intros st; cbn [session_run app]; [by destruct (session_run st ops2)|].
  destruct (session_call st op) as [st1 a]. rewrite IH. destruct (session_run st1 ops1) as [st2 b].
  by destruct (session_run st2 ops2).
Qed.

(** C9: A session signs at most once.  Whatever is called on a new session, in whatever
    order and with whatever arguments, at most one call of [Sign] returns a partial
    signature; the context has given away the nonces it may have drawn early; there are
    never more public nonces than signers, and a combined nonce stays as it is; and a
    final signature verifies under the combined key for the message that was signed. *)
Theorem session_signs_once (rand : option (list byte)) (c0 c : Context) (options : list SessionOption) (s : Session)
    (ops1 ops2 : list call) :
  1 <= cx_numSigners (ctx_opts c0) -> NewSession rand c0 options = (c, Ok s) ->
  sessionNonce c = None /\
  let '(c1, s1, answers1) := session_run (c, s) ops1 in
  let '(c2, s2, answers2) := session_run (c1, s1) ops2 in
  (signatures_given answers1 + signatures_given answers2 <= 1)%nat /\
  len (pubNonces s2) <= cx_numSigners (ctx_opts c2) /\
  (is_Some (combinedNonce s1) -> combinedNonce s2 = combinedNonce s1) /\
  (forall sig, FinalSig s2 = Some sig ->
    exists k, CombinedKey c2 = Ok k /\ Signature_Verify sig (se_msg s2) k = true).
Proof.
  intros Hn E. destruct (NewSession_ok rand c0 options c s Hn E) as (Hok & Hnone & [n En] & _).
  split; [exact Hnone|].
  pose proof (session_run_ok (ops1 ++ ops2) c s Hok) as H3'.
  rewrite session_run_app in H3'. pose proof (session_run_ok ops1 c s Hok) as H1'.
  destruct (session_run (c, s) ops1) as [[c1 s1] answers1]. destruct H1' as (Hok1 & _ & _).
  pose proof (session_run_ok ops2 c1 s1 Hok1) as H2'. destruct (session_run (c1, s1) ops2) as [[c2 s2] answers2].
  destruct H2' as ((_ & Hfin & Hlen) & (_ & _ & _ & Hcn & _) & _), H3' as (_ & _ & Hcount). rewrite En in Hcount.
  split; [unfold signatures_given in *; by rewrite List.filter_app, length_app in Hcount|].
  split; [exact Hlen|]. split; [exact Hcn|]. intros sig Hsig. destruct (Hfin sig Hsig) as (_ & k & Ek & Hv).
  exists (FinalKey k). split; [|exact Hv]. unfold CombinedKey. by rewrite Ek.
Qed.

(** The list of partial signatures is full, or full up to the session's own, without one. *)
Definition past_combining (c : Context) (s : Session) : Prop :=
  finalSig s = None /\
  (ourSig s = None /\ len (keys_of (ctx_opts c)) - 1 <= len (se_sigs s) \/ len (keys_of (ctx_opts c)) <= len (se_sigs s)).

Lemma past_combining_fixed c c' s s' :
  length (keys_of (ctx_opts c')) = length (keys_of (ctx_opts c)) ->
  finalSig s' = finalSig s -> ourSig s' = ourSig s -> se_sigs s' = se_sigs s ->
  past_combining c s -> past_combining c' s'.
Proof. unfold past_combining, len. intros -> -> -> ->. done. Qed.

Lemma past_combining_Sign c s msg os :
  past_combining c s -> let '(c', s', _) := Session_Sign c s msg os in past_combining c' s'.
Proof.
  intros Hp. unfold Session_Sign. destruct (localNonces s) as [n|]; [|exact Hp].
  destruct (combinedNonce s) as [cn|]; [|exact Hp]. pose proof (length_keys_after_sign (SecNonce n) (signingKey c)
    (keys_of (ctx_opts c)) (session_sign_options (ctx_opts c) os)) as Hl.
  destruct (musig_Sign _ _ _ _ _ _) as [ps|e]; [|exact (past_combining_fixed c (ctx_with_keys _ c) s _ Hl eq_refl eq_refl eq_refl Hp)].
  destruct Hp as [Hf Hp]. split; [exact Hf|]. right. cbn. unfold len in *. rewrite Hl, length_app. cbn [length]. lia.
Qed.

Lemma past_combining_CombineSig c s sig :
  past_combining c s -> let '(c', s', _) := CombineSig c s sig in past_combining c' s'.
Proof.
  intros Hp. pose proof Hp as [Hf Hcase]. unfold CombineSig.
  destruct (Z.eqb_spec (len (se_sigs s)) (len (keys_of (ctx_opts c)))) as [E|E]; [exact Hp|].
  assert (Hl : len (se_sigs s ++ [sig]) = len (se_sigs s) + 1) by (unfold len; rewrite length_app; cbn [length]; lia).
  rewrite Hl. destruct (Z.eqb_spec (len (se_sigs s) + 1) (len (keys_of (ctx_opts c)))) as [E'|E'].
  - assert (Ho : ourSig s = None) by (destruct Hcase as [[Ho _]|]; [exact Ho|lia]).
    cbv zeta. cbn [ourSig]. rewrite Ho. split; [exact Hf|]. right. cbn [se_sigs]. lia.
  - split; [exact Hf|]. right. cbn [se_sigs]. lia.
Qed.

Lemma past_combining_run ops : forall c s, past_combining c s ->
  let '(c', s', _) := session_run (c, s) ops in past_combining c' s'.
Proof.
  induction ops as [|op ops IH]; intros c s Hp; cbn [session_run]; [exact Hp|].
  assert (Hc : let '(c1, s1, _) := session_call (c, s) op in past_combining c1 s1).
  { destruct op as [n|n|msg os|sig]; cbn [session_call].
    - unfold RegisterPubNonce. destruct (_ || _); [exact Hp|]. destruct (_ =? _); [destruct (AggregateNonces _)|]; exact Hp.
    - unfold RegisterCombinedNonce. destruct (bool_decide _); [exact Hp|]. destruct (1 <? _); [exact Hp|].
      destruct (ParsePubKey (take 33 n)); [|exact Hp]. destruct (ParsePubKey (drop 33 n)); exact Hp.
    - pose proof (past_combining_Sign c s msg os Hp) as Hs. by destruct (Session_Sign c s msg os) as [[c1 s1] r].
    - pose proof (past_combining_CombineSig c s sig Hp) as Hs. by destruct (CombineSig c s sig) as [[c1 s1] r]. }
  destruct (session_call (c, s) op) as [[c1 s1] a]. specialize (IH c1 s1 Hc).
  by destruct (session_run (c1, s1) ops) as [[c2 s2] answers].
Qed.

(** Who signs last gets no final signature.  In a session that has not signed and lacks
    only its own partial signature or no more than that, no call whatever leads to a final
    signature: [CombineSig] alone combines, and only in the call that fills the list.
    A session of one signer is always such a session. *)
Theorem own_signature_last (c c' : Context) (s s' : Session) (ops : list call) (answers : list answer) :
  finalSig s = None -> ourSig s = None -> len (keys_of (ctx_opts c)) - 1 <= len (se_sigs s) ->
  session_run (c, s) ops = (c', s', answers) -> FinalSig s' = None.
Proof.
  intros Hf Ho Hl Hrun. pose proof (past_combining_run ops c s (conj Hf (or_introl (conj Ho Hl)))) as Hp.
  rewrite Hrun in Hp. exact (proj1 Hp).
Qed.

(** ** A session among honest signers *)

(** Keys in their order are combined the same way without sorting. *)
Lemma AggregateKeys_in_order sort keys os :
  AggregateKeys (after_sort sort keys) false os = AggregateKeys (after_sort sort keys) sort os.
Proof.
  unfold AggregateKeys, keyHashFingerprint, secondUniqueKeyIndex. by rewrite !after_sort_twice.
Qed.

Lemma combine_with_in_order bip tap ts msg sort keys :
  combine_with bip tap ts msg (after_sort sort keys) sort = combine_with bip tap ts msg (after_sort sort keys) false.
Proof.
  unfold combine_with, WithBip86TweakedCombine, WithTaprootTweakedCombine, WithTweakedCombine, tweaked_combine.
  destruct bip, tap, ts; rewrite ?AggregateKeys_in_order; reflexivity.
Qed.

(** The order of the partial signatures does not matter. *)
Lemma fold_sigs_value sigs : foldl (fun s partialSig => sc_add s (ps_S partialSig)) 0 sigs = sum_S sigs mod curveN.
Proof.
  apply eqm_sc; [|apply mod_sc|by rewrite fold_sigs, eqm_mod].
  destruct sigs as [|s sigs _] using rev_ind; [apply sc_0|]. rewrite foldl_app. apply sc_add_ok.
Qed.
Lemma sum_S_perm sigs sigs' : sigs ≡ₚ sigs' -> sum_S sigs = sum_S sigs'.
Proof. induction 1 as [|s l l' _ IH|s s' l|l l' l'' _ IH1 _ IH2]; cbn [sum_S foldr] in *; unfold sum_S in *; lia. Qed.
Lemma CombineSigs_perm R sigs sigs' os : sigs ≡ₚ sigs' -> CombineSigs R sigs os = CombineSigs R sigs' os.
Proof. intros E. unfold CombineSigs. by rewrite !fold_sigs_value, (sum_S_perm _ _ E). Qed.

(** What a session adds to the options of a call. *)
Definition call_options (fast : bool) : list musig_SignOption := if fast then [WithFastSign] else [].

Lemma session_options_tweak o fast :
  let so := sign_options (session_sign_options o (call_options fast)) in
  so_sortKeys so = false /\
  tweak_options (so_bip86Tweak so) (so_taprootTweak so) (so_tweaks so) =
    tweak_options (cx_bip86Tweak o) (cx_taprootTweak o) (cx_tweaks o) /\
  forall msg keys, combine_with (so_bip86Tweak so) (so_taprootTweak so) (so_tweaks so) msg keys (so_sortKeys so) =
    combine_with (cx_bip86Tweak o) (cx_taprootTweak o) (cx_tweaks o) msg keys false.
Proof.
  unfold session_sign_options. destruct (cx_bip86Tweak o), (cx_taprootTweak o), (cx_tweaks o), fast; split_and!; reflexivity.
Qed.

(** A context whose keys are in their order and combined. *)
Definition context_of (d : PrivateKey) (sort : bool) (keys : list pt) (o : contextOptions) (agg : AggregateKey) : Context :=
  mkContext d (PubKey d) (Some agg) (secondUniqueKeyIndex (after_sort sort keys) sort) (keyHashFingerprint keys sort)
    (with_keySet (after_sort sort keys) o) sort None.

Lemma NewContext_known rand d sort ctxOpts keys agg g t :
  let o := context_options ctxOpts in
  cx_keySet o = Some keys -> cx_earlyNonce o = false -> PubKey d ∈ keys ->
  AggregateKeys keys sort (tweak_options (cx_bip86Tweak o) (cx_taprootTweak o) (cx_tweaks o)) = Ok (agg, g, t) ->
  NewContext rand d sort ctxOpts = Ok (context_of d sort keys o agg).
Proof.
  cbv zeta. intros Ek En Hin Hagg. unfold NewContext. rewrite Ek, En. unfold combineSignerKeys. cbn [ctx_opts ctx_pubKey shouldSort].
  unfold keys_of. rewrite Ek. change (default [] (Some keys)) with keys.
  rewrite (proj2 (existsb_exists _ keys)) by (exists (PubKey d); split; [by apply list_elem_of_In|by apply bool_decide_eq_true]).
  cbn [negb]. cbv zeta. rewrite AggregateKeys_precomputed, Hagg. reflexivity.
Qed.

(** Registering the nonces that are missing combines all. *)
Lemma register_all c cn : forall pns s,
  pns <> [] -> combinedNonce s = None ->
  len (pubNonces s) + len pns = cx_numSigners (ctx_opts c) -> AggregateNonces (pubNonces s ++ pns) = Ok cn ->
  exists answers, session_run (c, s) (map Call_RegisterPubNonce pns) =
    (c, se_with_nonces (pubNonces s ++ pns) (Some cn) s, answers).
Proof.
  induction pns as [|n pns IH]; intros s Hne Hcn Hlen Hagg; [done|]. cbn [map session_run session_call].
  unfold RegisterPubNonce. rewrite Hcn.
  assert (El : len (pubNonces s ++ [n]) = len (pubNonces s) + 1) by (unfold len; rewrite length_app; cbn [length]; lia).
  assert (En : len (n :: pns) = len pns + 1) by (unfold len; cbn [length]; lia). rewrite En in Hlen.
  assert (0 <= len pns) by (unfold len; lia).
  rewrite (proj2 (Z.eqb_neq _ _)) by lia. cbn [orb]. rewrite bool_decide_eq_false_2 by (intros [? [=]]). rewrite El.
  destruct pns as [|n' pns].
  - rewrite (proj2 (Z.eqb_eq _ _)) by (unfold len in *; cbn in *; lia). rewrite Hagg. cbn [map session_run]. by eexists.
  - rewrite (proj2 (Z.eqb_neq _ _)) by (unfold len in *; cbn [length] in *; lia).
    destruct (IH (se_with_nonces (pubNonces s ++ [n]) None s)) as [answers E]; cbn [pubNonces combinedNonce se_with_nonces].
    + discriminate.
    + reflexivity.
    + rewrite El. lia.
    + by rewrite <- app_assoc.
    + cbn [pubNonces se_with_nonces] in E. rewrite <- app_assoc in E. rewrite E. eexists. reflexivity.
Qed.

Definition se_with_sigs (sigs : list PartialSignature) (final : option Signature) (s : Session) : Session :=
  mkSession (localNonces s) (pubNonces s) (combinedNonce s) (se_msg s) (ourSig s) sigs final.

(** The partial signatures that are missing give the final one. *)
Lemma combine_all c our R k sig : forall qs s,
  qs <> [] -> ourSig s = Some our -> ps_R our = Some R -> combinedKey c = Some k -> finalSig s = None ->
  ctx_with_keys (after_sort (shouldSort c) (keys_of (ctx_opts c))) c = c ->
  len (se_sigs s) + len qs = len (keys_of (ctx_opts c)) ->
  CombineSigs R (se_sigs s ++ qs) (combine_with (cx_bip86Tweak (ctx_opts c)) (cx_taprootTweak (ctx_opts c)) (cx_tweaks (ctx_opts c))
    (se_msg s) (keys_of (ctx_opts c)) (shouldSort c)) = Ok sig ->
  Signature_Verify sig (se_msg s) (FinalKey k) = true ->
  exists answers, session_run (c, s) (map Call_CombineSig qs) = (c, se_with_sigs (se_sigs s ++ qs) (Some sig) s, answers).
Proof.
  induction qs as [|q qs IH]; intros s Hne Hour HR Hk Hfin Hsorted Hlen Hsig Hver; [done|]. cbn [map session_run session_call].
  unfold CombineSig.
  assert (El : len (se_sigs s ++ [q]) = len (se_sigs s) + 1) by (unfold len; rewrite length_app; cbn [length]; lia).
  assert (En : len (q :: qs) = len qs + 1) by (unfold len; cbn [length]; lia). rewrite En in Hlen.
  assert (0 <= len qs) by (unfold len; lia).
  rewrite (proj2 (Z.eqb_neq (len (se_sigs s)) _)) by lia. rewrite El.
  destruct qs as [|q' qs].
  - rewrite (proj2 (Z.eqb_eq _ _)) by (unfold len in *; cbn in *; lia). cbn [ourSig se_msg]. rewrite Hour, Hsorted, HR, Hsig.
    set (c' := match combine_with _ _ _ _ _ _ with [] => c | _ => c end).
    assert (Ec : c' = c) by (unfold c'; by destruct (combine_with _ _ _ _ _ _)). rewrite Ec, Hk, Hver. cbn [negb map session_run].
    eexists. unfold se_with_sigs. rewrite Hour. reflexivity.
  - rewrite (proj2 (Z.eqb_neq _ _)) by (unfold len in *; cbn [length] in *; lia). rewrite Hfin.
    destruct (IH (se_with_sigs (se_sigs s ++ [q]) None s)) as [answers E]; cbn [se_sigs ourSig finalSig se_msg se_with_sigs]; try assumption.
    + discriminate.
    + reflexivity.
    + rewrite El. lia.
    + by rewrite <- app_assoc.
    + cbn [se_sigs se_with_sigs] in E. rewrite <- app_assoc in E. unfold se_with_sigs in *. rewrite E. eexists. reflexivity.
Qed.

Lemma combined_nonce_perm ss ss' : ss ≡ₚ ss' -> combined_nonce ss = combined_nonce ss'.
Proof. intros E. unfold combined_nonce, nonce1_sum, nonce2_sum. by rewrite E. Qed.
Lemma combined_R_perm ss ss' Q msg : ss ≡ₚ ss' -> combined_R ss Q msg = combined_R ss' Q msg.
Proof.
  intros E. unfold combined_R. rewrite (combined_nonce_perm _ _ E). unfold nonce1_sum, nonce2_sum. by rewrite E.
Qed.

(** The session of the signer [me] with no other nonce, with all of them and once it has
    signed. *)
Definition my_nonces (me : signer) : Nonces := mkNonces (s_public me) (s_secret me).
Definition my_session (me : signer) : Session :=
  mkSession (Some (my_nonces me)) [s_public me] None (replicate 32 x00) None [] None.
Definition with_all_nonces (me : signer) (nonces : list (list byte)) (cn : list byte) : Session :=
  se_with_nonces ([s_public me] ++ nonces) (Some cn) (my_session me).
Definition once_signed (me : signer) (nonces : list (list byte)) (cn msg : list byte) (ps : PartialSignature) : Session :=
  mkSession None ([s_public me] ++ nonces) (Some cn) msg (Some ps) [ps] None.

Section Protocol.
Context (ss : list signer) (sort fast : bool) (o : contextOptions) (msg : list byte).
Context (agg : AggregateKey) (g t : ModNScalar).
Local Abbreviation keys := (map s_pub ss).
Hypothesis Hall : Forall signer_ok ss.
Hypothesis Htwo : (1 < length ss)%nat.
Hypothesis Hnum : cx_numSigners o = len keys.
Hypothesis Hagg : AggregateKeys keys sort (tweak_options (cx_bip86Tweak o) (cx_taprootTweak o) (cx_tweaks o)) = Ok (agg, g, t).
Hypothesis HQ : FinalKey agg <> infinityPoint.
Local Abbreviation R := (combined_R ss (FinalKey agg) msg).
Hypothesis HR : R <> infinityPoint.
Local Abbreviation os := (session_sign_options o (call_options fast)).

(** The signers in the order of the keys. *)
Lemma ordered_signers : exists ss', ss ≡ₚ ss' /\ after_sort sort keys = map s_pub ss' /\
  AggregateKeys (map s_pub ss') (so_sortKeys (sign_options os))
    (tweak_options (so_bip86Tweak (sign_options os)) (so_taprootTweak (sign_options os)) (so_tweaks (sign_options os))) = Ok (agg, g, t).
Proof.
  destruct (Permutation_map_inv s_pub ss (after_sort_perm sort keys)) as (ss' & E & Hp).
  exists ss'. split; [exact Hp|]. split; [exact E|]. destruct (session_options_tweak o fast) as (-> & -> & _).
  by rewrite <- E, AggregateKeys_in_order, AggregateKeys_sorted.
Qed.

(** What a signer's session gives. *)
Definition my_signature (s : signer) : PartialSignature :=
  match musig_Sign (s_secret s) (s_key s) (combined_nonce ss) (after_sort sort keys) msg os with
  | Ok ps => ps | Err _ => NewPartialSignature _ 0 None
  end.

Lemma my_signature_ok s : s ∈ ss ->
  musig_Sign (s_secret s) (s_key s) (combined_nonce ss) (after_sort sort keys) msg os = Ok (my_signature s) /\
  ps_R (my_signature s) = Some R.
Proof.
  intros Hin. destruct ordered_signers as (ss' & Hp & Ek & Hagg'). unfold my_signature. rewrite Ek.
  rewrite (combined_nonce_perm _ _ Hp), (combined_R_perm _ _ _ _ Hp).
  assert (Hall' : Forall signer_ok ss') by (by rewrite <- Hp). assert (Hin' : s ∈ ss') by (by rewrite <- Hp).
  pose proof HR as HR'. rewrite (combined_R_perm _ _ _ _ Hp) in HR'.
  destruct (signers_sign ss' msg os agg g t Hall' Hagg' HR' s Hin') as (ps & Es & Er & _). rewrite Es. exact (conj eq_refl Er).
Qed.

Lemma my_signatures_combine : len msg = 32 -> exists sig,
  (forall sigs, sigs ≡ₚ map my_signature ss ->
    CombineSigs R sigs (combine_with (cx_bip86Tweak o) (cx_taprootTweak o) (cx_tweaks o) msg (after_sort sort keys) sort) = Ok sig) /\
  Signature_Verify sig msg (FinalKey agg) = true.
Proof.
  intros Hmsg. destruct ordered_signers as (ss' & Hp & Ek & Hagg').
  assert (Hall' : Forall signer_ok ss') by (by rewrite <- Hp).
  pose proof HR as HR'. rewrite (combined_R_perm _ _ _ _ Hp) in HR'.
  destruct (signers_sign_all ss' msg os agg g t Hall' Hagg' HR') as [sigs Hsigs].
  destruct (signatures_combine ss' msg os agg g t Hall' Hagg' HR' sigs HQ Hmsg Hsigs) as (sig & Hsig & Hv).
  exists sig. split; [|exact Hv]. intros sigs' Hperm. rewrite combine_with_in_order, Ek.
  destruct (session_options_tweak o fast) as (_ & _ & <-). rewrite (combined_R_perm _ _ _ _ Hp), <- Hsig.
  assert (Hf : forall l l', Forall2 (signs_validly ss' msg os agg) l l' -> map my_signature l = l').
  { induction 1 as [|s ps l l' (Es & _) _ IH]; [reflexivity|]. cbn [map]. rewrite IH. f_equal.
    unfold my_signature. by rewrite Ek, (combined_nonce_perm _ _ Hp), Es. }
  apply CombineSigs_perm. by rewrite Hperm, Hp, (Hf _ _ Hsigs).
Qed.

(** One signer's session. *)
Context (me : signer) (others : list signer).
Hypothesis Hme : ss ≡ₚ me :: others.
Local Abbreviation c := (context_of (s_key me) sort keys o agg).

Lemma me_in : me ∈ ss.
Proof. rewrite Hme. left. Qed.
Lemma count_keys : len (keys_of (ctx_opts c)) = len keys /\ len keys = len others + 1 /\ 0 < len others.
Proof.
  unfold len. rewrite (Permutation_length Hme) in Htwo. cbn [length] in Htwo.
  split; [f_equal; exact (Permutation_length (after_sort_perm sort keys))|].
  rewrite length_map, (Permutation_length Hme). cbn [length]. lia.
Qed.
Lemma count_others {A} (f : signer -> A) l : l ≡ₚ map f others -> len l = len others /\ l <> [].
Proof.
  intros Hl. pose proof count_keys as (_ & _ & Hpos). assert (E : len l = len others).
  { unfold len. by rewrite (Permutation_length Hl), length_map. }
  split; [exact E|]. intros ->. unfold len in *. cbn in E. lia.
Qed.

Lemma nonces_register nonces : nonces ≡ₚ map s_public others ->
  exists answers, session_run (c, my_session me) (map Call_RegisterPubNonce nonces) =
    (c, with_all_nonces me nonces (combined_nonce ss), answers).
Proof.
  intros Hn. pose proof count_keys as (_ & Hk & _). destruct (count_others _ _ Hn) as [Hl Hne].
  apply register_all; [exact Hne|reflexivity| |].
  - change (cx_numSigners (ctx_opts c)) with (cx_numSigners o). rewrite Hnum, Hk, Hl. change (len (pubNonces (my_session me))) with 1. lia.
  - destruct (Permutation_map_inv s_public others Hn) as (others' & -> & Ho).
    rewrite (combined_nonce_perm ss (me :: others')) by (by rewrite Hme, Ho).
    apply (signers_nonces (me :: others')). by rewrite <- Ho, <- Hme.
Qed.

Lemma session_signs nonces :
  Session_Sign c (with_all_nonces me nonces (combined_nonce ss)) msg (call_options fast) =
    (c, once_signed me nonces (combined_nonce ss) msg (my_signature me), Ok (my_signature me)).
Proof.
  destruct (my_signature_ok me me_in) as [Hsign _]. unfold Session_Sign, with_all_nonces.
  cbn [localNonces combinedNonce se_with_nonces my_session].
  change (SecNonce (my_nonces me)) with (s_secret me). change (signingKey c) with (s_key me).
  change (keys_of (ctx_opts c)) with (after_sort sort keys).
  change (session_sign_options (ctx_opts c)) with (session_sign_options o). rewrite Hsign.
  replace (ctx_with_keys _ c) with c; [reflexivity|].
  unfold keys_after_sign. destruct (session_options_tweak o fast) as (-> & _). cbn [after_sort]. destruct (_ && _); reflexivity.
Qed.

Lemma signatures_complete nonces sigs sig :
  sigs ≡ₚ map my_signature others ->
  (forall l, l ≡ₚ map my_signature ss ->
    CombineSigs R l (combine_with (cx_bip86Tweak o) (cx_taprootTweak o) (cx_tweaks o) msg (after_sort sort keys) sort) = Ok sig) ->
  Signature_Verify sig msg (FinalKey agg) = true ->
  exists s answers, session_run (c, once_signed me nonces (combined_nonce ss) msg (my_signature me)) (map Call_CombineSig sigs) =
    (c, s, answers) /\ FinalSig s = Some sig.
Proof.
  intros Hs Hcomb Hver. pose proof count_keys as (Hkeys & Hk & _). destruct (count_others _ _ Hs) as [Hl Hne].
  destruct (my_signature_ok me me_in) as [_ HsR].
  destruct (combine_all c (my_signature me) R agg sig sigs (once_signed me nonces (combined_nonce ss) msg (my_signature me)))
    as [answers Hrun]; [exact Hne|reflexivity|exact HsR|reflexivity|reflexivity| | | |exact Hver|].
  - unfold ctx_with_keys, ctx_with_opts, context_of. cbn. by rewrite after_sort_twice.
  - rewrite Hkeys, Hk, Hl. change (len (se_sigs _)) with 1. lia.
  - apply Hcomb. etransitivity; [exact (Permutation_app_head [my_signature me] Hs)|].
    symmetry. exact (Permutation_map my_signature Hme).
  - eexists _, answers. split; [exact Hrun|reflexivity].
Qed.
End Protocol.

(** C5: Sessions of honest signers all end with the same valid signature.  For two signers or
    more whose contexts know all keys, with or without sorting and with whatever tweak, so
    long as neither the combined key nor the combined nonce is infinity: each signer's
    context and session are created, registering the nonces of the others in any order
    and then signing gives a partial signature, and combining those of the others, in any
    order again, gives each of them the one final signature, which verifies. *)
Theorem sessions_complete (rand : option (list byte)) (ss : list signer) (sort fast : bool) (ctxOpts : list ContextOption)
    (msg : list byte) (agg : AggregateKey) (g t : ModNScalar) :
  let o := context_options ctxOpts in
  let keys := map s_pub ss in
  Forall signer_ok ss -> (1 < length ss)%nat -> len msg = 32 ->
  cx_keySet o = Some keys -> cx_numSigners o = len keys -> cx_earlyNonce o = false ->
  AggregateKeys keys sort (tweak_options (cx_bip86Tweak o) (cx_taprootTweak o) (cx_tweaks o)) = Ok (agg, g, t) ->
  FinalKey agg <> infinityPoint -> combined_R ss (FinalKey agg) msg <> infinityPoint ->
  exists (partial : signer -> PartialSignature) (sig : Signature),
    Signature_Verify sig msg (FinalKey agg) = true /\
    forall me others nonces sigs,
      ss ≡ₚ me :: others -> nonces ≡ₚ map s_public others -> sigs ≡ₚ map partial others ->
      exists c s0 s1 s2 s3 answers1 answers2,
        NewContext rand (s_key me) sort ctxOpts = Ok c /\ CombinedKey c = Ok (FinalKey agg) /\
        NewSession rand c [WithPreGeneratedNonce (Some (my_nonces me))] = (c, Ok s0) /\
        session_run (c, s0) (map Call_RegisterPubNonce nonces) = (c, s1, answers1) /\
        Session_Sign c s1 msg (call_options fast) = (c, s2, Ok (partial me)) /\
        session_run (c, s2) (map Call_CombineSig sigs) = (c, s3, answers2) /\
        FinalSig s3 = Some sig.
Proof.
  cbv zeta. set (o := context_options ctxOpts). set (keys := map s_pub ss).
  intros Hall Htwo Hmsg Hkeys Hnum Hearly Hagg HQ HR.
  destruct (my_signatures_combine ss sort fast o msg agg g t Hall Hagg HQ HR Hmsg) as (sig & Hcomb & Hver).
  exists (my_signature ss sort fast o msg), sig. split; [exact Hver|]. intros me others nonces sigs Hme Hn Hs.
  destruct (nonces_register ss sort o agg Hall Htwo Hnum me others Hme nonces Hn) as [answers1 Hrun1].
  destruct (signatures_complete ss sort fast o msg agg g t Hall Htwo Hagg HR me others Hme nonces sigs sig Hs Hcomb Hver)
    as (s3 & answers2 & Hrun2 & Hfinal).
  eexists (context_of (s_key me) sort keys o agg), (my_session me), _, _, s3, answers1, answers2.
  split; [apply (NewContext_known rand _ _ _ keys agg g t Hkeys Hearly); [|exact Hagg]|].
  { apply list_elem_of_fmap. exists me. exact (conj eq_refl (me_in ss me others Hme)). }
  split; [reflexivity|]. split; [|split; [exact Hrun1|]].
  { pose proof (proj1 (count_keys ss sort o agg Htwo me others Hme)) as Hc. fold keys in Hc. unfold NewSession. rewrite Hc.
    change (cx_numSigners (ctx_opts _)) with (cx_numSigners o). rewrite Hnum, Z.eqb_refl. reflexivity. }
  split; [exact (session_signs ss sort fast o msg agg g t Hall Hagg HR me others Hme nonces)|]. exact (conj Hrun2 Hfinal).
Qed.

(** A context for one signer whose key is its own cannot sign: made with the number of
    signers it never combines its key, and creating a session dereferences nil. *)
Theorem lone_session_panics (rand : option (list byte)) (d : PrivateKey) (sort : bool) :
  exists c, NewContext rand d sort [WithNumSigners 1] = Ok c /\
    (forall pub, RegisterSigner c pub = (c, Err ErrAlreadyHaveAllSigners)) /\
    CombinedKey c = Err ErrNotEnoughSigners /\ NewSession rand c [] = (c, panics).
Proof. eexists. split; [reflexivity|]. split; [intros pub; reflexivity|]. split; reflexivity. Qed.

Lemma zero_key_refused : ParsePubKey (replicate 33 x00) = Err ErrPubKey.
Proof.
  unfold ParsePubKey. destruct (secp_ParsePubKey (replicate 33 x00)) as [P|] eqn:E; [|reflexivity].
  apply law_parse_33 in E as [_ E]; [|reflexivity]. rewrite law_serialize in E. destruct (Z.odd (pt_Y P)); discriminate E.
Qed.

(** A combined nonce that was made from the nonces of signers is not always one that can
    be registered: if one of its points is infinity, which aggregating writes as zeros and
    a session that aggregates itself accepts, registering it as a whole is refused. *)
Theorem infinite_nonce_refused (ss : list signer) (s : Session) :
  Forall signer_ok ss -> nonce1_sum ss <> infinityPoint -> nonce2_sum ss = infinityPoint ->
  combinedNonce s = None -> len (pubNonces s) <= 1 ->
  exists cn, AggregateNonces (map s_public ss) = Ok cn /\
    RegisterCombinedNonce s cn = (s, Err (ErrInvalidCombinedNonce ErrPubKey)).
Proof.
  intros Hall Hn1 Hn2 Hnone Hlen. exists (combined_nonce ss). split; [exact (signers_nonces ss Hall)|].
  unfold RegisterCombinedNonce. rewrite Hnone, bool_decide_eq_false_2 by (intros [? [=]]).
  rewrite (proj2 (Z.ltb_ge _ _)) by lia. unfold combined_nonce.
  rewrite take_app_le, drop_app_le by (by rewrite JacobianToByteSlice_33).
  rewrite take_ge, drop_ge by (by rewrite JacobianToByteSlice_33). rewrite app_nil_l, Hn2.
  unfold JacobianToByteSlice, IsInfinity. rewrite bool_decide_eq_false_2, bool_decide_eq_true_2 by done.
  rewrite ParsePubKey_serialize by done. by rewrite zero_key_refused.
Qed.

(** A partial signature is read back from its bytes, without its nonce, and a scalar
    out of range is refused; but an input that ends early is read as the scalar zero. *)
Theorem PartialSignature_roundtrip (p q : PartialSignature) (r : list byte) :
  sc_ok (ps_S q) ->
  PartialSignature_Decode p (PartialSignature_Encode q ++ r) = Ok (NewPartialSignature _ (ps_S q) (ps_R p)) /\
  (curveN <= be_get (take 32 r) -> 32 <= len r -> PartialSignature_Decode p r = Err ErrPartialSigInvalid) /\
  (len r < 32 -> PartialSignature_Decode p r = Ok (NewPartialSignature _ 0 (ps_R p))).
Proof.
  intros Hq. unfold PartialSignature_Decode, PartialSignature_Encode.
  assert (Hl : length (sc_bytes (ps_S q)) = 32%nat) by apply length_be_put. split; [|split].
  - rewrite (proj2 (Z.ltb_ge _ _)) by (unfold len; rewrite length_app, Hl; lia).
    rewrite take_app_le, take_ge by (by rewrite Hl). by rewrite SetByteSlice_bytes.
  - intros Hbig Hlen. rewrite (proj2 (Z.ltb_ge _ _)) by lia. unfold SetByteSlice.
    rewrite take_take. change (32 `min` 32)%nat with 32%nat. by rewrite (proj2 (Z.leb_le _ _)) by exact Hbig.
  - intros Hlen. by rewrite (proj2 (Z.ltb_lt _ _)) by lia.
Qed.
End Laws.

(** ** Concrete inputs *)

Definition two_options : contextOptions := context_options [WithKnownSigners (Some two_keys)].
Definition two_agg : AggregateKey := mkAggregateKey (combined false two_keys) (combined false two_keys).
Definition two_context : Context := context_of 5 false two_keys two_options two_agg.

Lemma two_R : combined_R two_signers (FinalKey two_agg) two_msg <> infinityPoint.
Proof. unfold combined_R, nonce1_sum, nonce2_sum. rewrite two_nonces. intros E. discriminate (f_equal (fun a : exponent => `a) E). Qed.

Lemma sessions_complete_witness :
  exists ps1 ps2 sig c s0 s1 s2 s3 answers1 answers2,
    NewContext None 5 false [WithKnownSigners (Some two_keys)] = Ok c /\ CombinedKey c = Ok (FinalKey two_agg) /\
    NewSession None c [WithPreGeneratedNonce (Some (my_nonces signer1))] = (c, Ok s0) /\
    session_run (c, s0) [Call_RegisterPubNonce (s_public signer2)] = (c, s1, answers1) /\
    Session_Sign c s1 two_msg [WithFastSign] = (c, s2, Ok ps1) /\
    session_run (c, s2) [Call_CombineSig ps2] = (c, s3, answers2) /\
    FinalSig s3 = Some sig /\ Signature_Verify sig two_msg (FinalKey two_agg) = true.
Proof.
  destruct (sessions_complete None two_signers false true [WithKnownSigners (Some two_keys)] two_msg two_agg 1 0
    two_signers_ok ltac:(cbn; lia) eq_refl eq_refl eq_refl eq_refl (AggregateKeys_plain false two_keys) two_keys_combined two_R)
    as (partial & sig & Hver & Hrun).
  destruct (Hrun signer1 [signer2] [s_public signer2] [partial signer2] (Permutation_refl _) (Permutation_refl _) (Permutation_refl _))
    as (c & s0 & s1 & s2 & s3 & answers1 & answers2 & E1 & E2 & E3 & E4 & E5 & E6 & E7).
  exists (partial signer1), (partial signer2), sig, c, s0, s1, s2, s3, answers1, answers2.
  exact (conj E1 (conj E2 (conj E3 (conj E4 (conj E5 (conj E6 (conj E7 Hver))))))).
Defined.

Lemma session_signs_once_witness :
  let '(c1, s1, answers1) := session_run (two_context, my_session signer1) [Call_RegisterPubNonce (s_public signer2)] in
  let '(c2, s2, answers2) := session_run (c1, s1) [Call_Sign two_msg []; Call_Sign two_msg []] in
  (signatures_given answers1 + signatures_given answers2 <= 1)%nat.
Proof.
  destruct (session_signs_once None two_context two_context [WithPreGeneratedNonce (Some (my_nonces signer1))] (my_session signer1)
    [Call_RegisterPubNonce (s_public signer2)] [Call_Sign two_msg []; Call_Sign two_msg []]) as [_ Hr]; [done|reflexivity|].
  destruct (session_run (two_context, my_session signer1) _) as [[c1 s1] answers1].
  destruct (session_run (c1, s1) _) as [[c2 s2] answers2]. exact (proj1 Hr).
Defined.

Lemma own_signature_last_witness (q := NewPartialSignature _ 3 None) :
  exists c' s' answers,
    session_run (two_context, se_with_sigs [q] None (my_session signer1)) [Call_Sign two_msg []; Call_CombineSig q] = (c', s', answers) /\
    FinalSig s' = None.
Proof.
  destruct (session_run (two_context, se_with_sigs [q] None (my_session signer1)) [Call_Sign two_msg []; Call_CombineSig q])
    as [[c' s'] answers] eqn:E. exists c', s', answers. split; [reflexivity|].
  apply (own_signature_last two_context c' (se_with_sigs [q] None (my_session signer1)) s' _ answers) in E; [exact E|reflexivity|reflexivity|].
  by vm_compute.
Defined.

Lemma infinite_nonce_refused_witness :
  exists cn, AggregateNonces (map s_public two_signers) = Ok cn /\
    RegisterCombinedNonce (my_session signer1) cn = (my_session signer1, Err (ErrInvalidCombinedNonce ErrPubKey)).
Proof.
  apply (infinite_nonce_refused two_signers); [exact two_signers_ok| |by apply exponent_ext|reflexivity|by vm_compute].
  intros E. discriminate (f_equal (fun a : exponent => `a) E).
Defined.

Lemma PartialSignature_roundtrip_witness (p := NewPartialSignature _ 0 None) :
  PartialSignature_Decode p (PartialSignature_Encode (NewPartialSignature _ 3 None) ++ []) = Ok (NewPartialSignature _ 3 None) /\
  PartialSignature_Decode p [] = Ok (NewPartialSignature _ 0 None).
Proof.
  destruct (PartialSignature_roundtrip p (NewPartialSignature _ 3 None) []) as (H1 & _ & H2); [by unfold sc_ok|].
  split; [exact H1|apply H2; by vm_compute].
Defined.
