(* ===== verification/CoinSet.v ===== *)
(** * nogoutil/coinset: sets of coins and the selectors

    A coin is the record of what the methods of its interface return, which the
    package asks to be constant.  Values and value ages are signed words of 64 bits and
    wrap; division truncates.  A call that divides by zero is [Panic].  Sorting is the
    class [Sorter] of [TxSort]. *)

From Stdlib Require Import ZArith Lia Sorting.Sorted.
From S2P Require Import Prelude WireCommon WireTx WireBlock TxSort NogoUtil.
Open Scope Z_scope.

Record Coin : Type := mkCoin {
  coin_Hash : list byte;
  coin_Index : Z;
  coin_Value : Z;
  coin_PkScript : list byte;
  coin_NumConfs : Z;
  coin_ValueAge : Z;
}.

(** ** The set *)

Record CoinSet : Type := mkCoinSet {
  coinList : list Coin;
  totalValue : Z;
  totalValueAge : Z;
}.

Definition PushCoin (cs : CoinSet) (c : Coin) : CoinSet :=
  mkCoinSet (coinList cs ++ [c]) (wrap_i64 (totalValue cs + coin_Value c)) (wrap_i64 (totalValueAge cs + coin_ValueAge c)).
Definition NewCoinSet (coins : list Coin) : CoinSet := foldl PushCoin (mkCoinSet [] 0 0) coins.
Definition Coins (cs : CoinSet) : list Coin := coinList cs.
Definition TotalValue (cs : CoinSet) : Z := totalValue cs.
Definition TotalValueAge (cs : CoinSet) : Z := totalValueAge cs.
Definition Num (cs : CoinSet) : Z := len (coinList cs).

(** [CoinSet_removeElement] of the element with index [i]. *)
Definition CoinSet_removeElement (cs : CoinSet) (i : nat) (c : Coin) : CoinSet * option Coin :=
  (mkCoinSet (delete i (coinList cs)) (wrap_i64 (totalValue cs - coin_Value c)) (wrap_i64 (totalValueAge cs - coin_ValueAge c)), Some c).
Definition PopCoin (cs : CoinSet) : CoinSet * option Coin :=
  match list.last (coinList cs) with
  | None => (cs, None)
  | Some c => CoinSet_removeElement cs (length (coinList cs) - 1) c
  end.
Definition ShiftCoin (cs : CoinSet) : CoinSet * option Coin :=
  match head (coinList cs) with
  | None => (cs, None)
  | Some c => CoinSet_removeElement cs 0 c
  end.

Definition NewMsgTxWithInputCoins (txVersion : Z) (inputCoins : list Coin) : MsgTx :=
  mkMsgTx txVersion
    (map (fun coin => mkTxIn (mkOutPoint (coin_Hash coin) (coin_Index coin)) [] None MaxTxInSequenceNum) inputCoins) [] 0.

(** ** The selectors *)

Inductive coin_error : Type :=
| ErrCoinsNoSelectionAvailable
| Panic.

Definition satisfiesTargetValue (targetValue minChange totalValue : Z) : bool :=
  (totalValue =? targetValue) || (wrap_i64 (targetValue + minChange) <=? totalValue).

(** [MinIndexCoinSelector], [MinNumberCoinSelector] and [MaxValueAgeCoinSelector] have
    the same fields. *)
Record selector : Type := mkSelector { MaxInputs : Z; MinChangeAmount : Z }.

Fixpoint select_loop (s : selector) (targetValue : Z) (n : Z) (coins : list Coin) (cs : CoinSet) : result coin_error CoinSet :=
  match coins with
  | [] => Err ErrCoinsNoSelectionAvailable
  | c :: coins =>
      if negb (n <? MaxInputs s) then Err ErrCoinsNoSelectionAvailable
      else
        let cs := PushCoin cs c in
        if satisfiesTargetValue targetValue (MinChangeAmount s) (TotalValue cs) then Ok cs
        else select_loop s targetValue (n + 1) coins cs
  end.
Definition MinIndex_CoinSelect (s : selector) (targetValue : Z) (coins : list Coin) : result coin_error CoinSet :=
  select_loop s targetValue 0 coins (NewCoinSet []).

Definition byValueAge_Less (a b : Coin) : bool := coin_ValueAge a <? coin_ValueAge b.
Definition byAmount_Less (a b : Coin) : bool := coin_Value a <? coin_Value b.
Definition sort_Reverse {A} (Less : A -> A -> bool) : A -> A -> bool := fun a b => Less b a.

Section Selectors.
Context `{Sorter}.

Definition MinNumber_CoinSelect (s : selector) (targetValue : Z) (coins : list Coin) : result coin_error CoinSet :=
  MinIndex_CoinSelect s targetValue (sort_Sort (sort_Reverse byAmount_Less) coins).
Definition MaxValueAge_CoinSelect (s : selector) (targetValue : Z) (coins : list Coin) : result coin_error CoinSet :=
  MinIndex_CoinSelect s targetValue (sort_Sort (sort_Reverse byValueAge_Less) coins).

Record MinPriorityCoinSelector : Type := mkMinPriority {
  mp_MaxInputs : Z;
  mp_MinChangeAmount : Z;
  MinAvgValueAgePerInput : Z;
}.

Fixpoint cutoff_loop (threshold : Z) (coins : list Coin) : option nat :=
  match coins with
  | [] => None
  | c :: coins => if threshold <=? coin_ValueAge c then Some O else S <$> cutoff_loop threshold coins
  end.

(** The coins below the cutoff, each added if the average stays high enough. *)
Fixpoint extend_loop (s : MinPriorityCoinSelector) (low : list Coin) (extended : CoinSet) : result coin_error CoinSet :=
  match low with
  | [] => Ok extended
  | c :: low =>
      if mp_MaxInputs s <=? Num extended then Ok extended
      else if coin_ValueAge c =? 0 then extend_loop s low extended
      else
        let pushed := PushCoin extended c in
        if Num pushed =? 0 then Err Panic
        else if TotalValueAge pushed ÷ Num pushed <? MinAvgValueAgePerInput s
        then extend_loop s low (fst (PopCoin pushed))
        else extend_loop s low pushed
  end.

(** Low coins to make up what the high ones lack, few before many; [select] is the
    selection among them. *)
Fixpoint low_loop (select : MinPriorityCoinSelector -> Z -> result coin_error CoinSet) (s : MinPriorityCoinSelector)
    (targetValue : Z) (high : list Coin) (nums : list Z) : result coin_error CoinSet :=
  match nums with
  | [] => Err ErrCoinsNoSelectionAvailable
  | numLow :: nums =>
      if negb (numLow + (len high - 1) <=? mp_MaxInputs s) then Err ErrCoinsNoSelectionAvailable
      else
        let allHigh := NewCoinSet high in
        let newTargetValue := wrap_i64 (targetValue - TotalValue allHigh) in
        let newMaxInputs := Num allHigh + numLow in
        let newMaxInputs := if numLow <? newMaxInputs then numLow else newMaxInputs in
        let newMinAvgValueAge :=
          wrap_i64 (wrap_i64 (wrap_i64 (MinAvgValueAgePerInput s * (Num allHigh + numLow)) - TotalValueAge allHigh) ÷ numLow) in
        match select (mkMinPriority newMaxInputs (mp_MinChangeAmount s) newMinAvgValueAge) newTargetValue with
        | Ok lowSelect => Ok (foldl PushCoin allHigh (Coins lowSelect))
        | Err Panic => Err Panic
        | Err _ => low_loop select s targetValue high nums
        end
  end.

(** The numbers 1 to [n]. *)
Definition one_to (n : nat) : list Z := map Z.of_nat (seq 1 n).

(** The loop over the coins from the cutoff on, [high] those already passed. *)
Fixpoint high_loop (select : MinPriorityCoinSelector -> Z -> result coin_error CoinSet) (s : MinPriorityCoinSelector)
    (targetValue : Z) (low high rest : list Coin) : result coin_error CoinSet :=
  match rest with
  | [] => Err ErrCoinsNoSelectionAvailable
  | c :: rest =>
      let high := high ++ [c] in
      match MinNumber_CoinSelect (mkSelector (mp_MaxInputs s) (mp_MinChangeAmount s)) targetValue high with
      | Err _ =>
          match low_loop select s targetValue high (one_to (length low)) with
          | Err ErrCoinsNoSelectionAvailable => high_loop select s targetValue low high rest
          | r => r
          end
      | Ok highSelect => extend_loop s low (NewCoinSet (Coins highSelect))
      end
  end.

(** The recursion is on the coins below the cutoff, which are fewer than all. *)
Fixpoint MinPriority_select (fuel : nat) (s : MinPriorityCoinSelector) (targetValue : Z) (coins : list Coin)
    : result coin_error CoinSet :=
  match fuel with
  | O => Err Panic
  | S fuel =>
      let possibleCoins := sort_Sort byValueAge_Less coins in
      match cutoff_loop (MinAvgValueAgePerInput s) possibleCoins with
      | None => Err ErrCoinsNoSelectionAvailable
      | Some cutoffIndex =>
          let low := take cutoffIndex possibleCoins in
          high_loop (fun s targetValue => MinPriority_select fuel s targetValue low) s targetValue low []
            (drop cutoffIndex possibleCoins)
      end
  end.
Definition MinPriority_CoinSelect (s : MinPriorityCoinSelector) (targetValue : Z) (coins : list Coin) : result coin_error CoinSet :=
  MinPriority_select (S (length coins)) s targetValue coins.
End Selectors.

(** ** Coins of transactions *)

Record SimpleCoin : Type := mkSimpleCoin { sc_Tx : Tx; TxIndex : Z; TxNumConfs : Z }.

Definition SimpleCoin_Index (c : SimpleCoin) : Z := TxIndex c.
(** [None] is the panic of an index out of range. *)
Definition SimpleCoin_txOut (c : SimpleCoin) : option TxOut := MsgTx_TxOut (tx_msgTx (sc_Tx c)) !! Z.to_nat (TxIndex c).
Definition SimpleCoin_Hash (c : SimpleCoin) : option (SimpleCoin * list byte) :=
  '(tx, h) ← Tx_Hash (sc_Tx c); Some (mkSimpleCoin tx (TxIndex c) (TxNumConfs c), h).
Definition SimpleCoin_Value (c : SimpleCoin) : option Z := TxOut_Value <$> SimpleCoin_txOut c.
Definition SimpleCoin_PkScript (c : SimpleCoin) : option (list byte) := TxOut_PkScript <$> SimpleCoin_txOut c.
Definition SimpleCoin_NumConfs (c : SimpleCoin) : Z := TxNumConfs c.
Definition SimpleCoin_ValueAge (c : SimpleCoin) : option Z :=
  v ← SimpleCoin_Value c; Some (wrap_i64 (TxNumConfs c * v)).

(** What the methods of a coin return. *)
Definition SimpleCoin_coin (c : SimpleCoin) : option Coin :=
  '(_, h) ← SimpleCoin_Hash c;
  v ← SimpleCoin_Value c;
  script ← SimpleCoin_PkScript c;
  age ← SimpleCoin_ValueAge c;
  Some (mkCoin h (SimpleCoin_Index c) v script (SimpleCoin_NumConfs c) age).

(** ** Totals *)

Definition sum_value (coins : list Coin) : Z := foldr (fun c n => coin_Value c + n) 0 coins.
Definition sum_age (coins : list Coin) : Z := foldr (fun c n => coin_ValueAge c + n) 0 coins.

Lemma sum_value_app a b : sum_value (a ++ b) = sum_value a + sum_value b.
Proof. induction a as [|c a IH]; cbn; [done|unfold sum_value in *; lia]. Qed.
Lemma sum_age_app a b : sum_age (a ++ b) = sum_age a + sum_age b.
Proof. induction a as [|c a IH]; cbn; [done|unfold sum_age in *; lia]. Qed.
#[export] Instance sum_value_perm : Proper (Permutation ==> eq) sum_value.
Proof. intros a b E. induction E; cbn in *; unfold sum_value in *; lia. Qed.
#[export] Instance sum_age_perm : Proper (Permutation ==> eq) sum_age.
Proof. intros a b E. induction E; cbn in *; unfold sum_age in *; lia. Qed.

(** The totals are those of the coins, up to the wrap-around. *)
Definition totals_ok (cs : CoinSet) : Prop :=
  totalValue cs = wrap_i64 (sum_value (coinList cs)) /\ totalValueAge cs = wrap_i64 (sum_age (coinList cs)).

Lemma wrap_i64_mod z : wrap_i64 z mod 2 ^ 64 = z mod 2 ^ 64.
Proof. unfold wrap_i64. apply (to_signed_range 64); [lia|]. apply Z.mod_pos_bound. lia. Qed.
Lemma wrap_i64_add a b : wrap_i64 (wrap_i64 a + b) = wrap_i64 (a + b).
Proof. unfold wrap_i64 at 1 3. f_equal. by rewrite Z.add_mod, wrap_i64_mod, <- Z.add_mod. Qed.
Lemma wrap_i64_sub a b : wrap_i64 (wrap_i64 a - b) = wrap_i64 (a - b).
Proof. rewrite <- !Z.add_opp_r. apply wrap_i64_add. Qed.

Lemma PushCoin_ok cs c : totals_ok cs -> totals_ok (PushCoin cs c).
Proof.
  intros [Hv Ha]. unfold totals_ok, PushCoin. cbn. rewrite Hv, Ha, !wrap_i64_add, sum_value_app, sum_age_app.
  cbn. by rewrite !Z.add_0_r.
Qed.

Lemma foldl_PushCoin coins : forall cs, totals_ok cs ->
  totals_ok (foldl PushCoin cs coins) /\ coinList (foldl PushCoin cs coins) = coinList cs ++ coins.
Proof.
  induction coins as [|c coins IH]; intros cs Hok; cbn [foldl]; [by rewrite app_nil_r|].
  destruct (IH (PushCoin cs c) (PushCoin_ok cs c Hok)) as [H1 ->]. split; [done|]. cbn. by rewrite <- app_assoc.
Qed.
Lemma NewCoinSet_ok coins : totals_ok (NewCoinSet coins) /\ coinList (NewCoinSet coins) = coins.
Proof. apply (foldl_PushCoin coins (mkCoinSet [] 0 0)). by split. Qed.

Lemma totals_ext a b : totals_ok a -> totals_ok b -> coinList a = coinList b -> a = b.
Proof. destruct a, b. unfold totals_ok. cbn. intros [-> ->] [-> ->] ->. done. Qed.

Lemma CoinSet_removeElement_ok cs l1 c l2 : totals_ok cs -> coinList cs = l1 ++ c :: l2 ->
  fst (CoinSet_removeElement cs (length l1) c) = NewCoinSet (l1 ++ l2).
Proof.
  intros [Hv Ha] Hl. destruct (NewCoinSet_ok (l1 ++ l2)) as [Hok El]. apply totals_ext; [|done|].
  - unfold totals_ok. cbn. rewrite Hv, Ha, Hl, !wrap_i64_sub, delete_middle, !sum_value_app, !sum_age_app. cbn.
    split; f_equal; unfold sum_value, sum_age; lia.
  - cbn. by rewrite El, Hl, delete_middle.
Qed.

(** A set of coins is the list of its coins: however it was made, adding a coin appends
    it, taking one from either end removes that one, and the totals are the sums over the
    coins, modulo words, at every time. *)
Theorem CoinSet_correct (coins : list Coin) (c : Coin) :
  let cs := NewCoinSet coins in
  Coins cs = coins /\ Num cs = len coins /\
  TotalValue cs = wrap_i64 (sum_value coins) /\ TotalValueAge cs = wrap_i64 (sum_age coins) /\
  PushCoin cs c = NewCoinSet (coins ++ [c]) /\
  PopCoin (NewCoinSet (coins ++ [c])) = (cs, Some c) /\
  ShiftCoin (NewCoinSet (c :: coins)) = (cs, Some c) /\
  PopCoin (NewCoinSet []) = (NewCoinSet [], None) /\ ShiftCoin (NewCoinSet []) = (NewCoinSet [], None).
Proof.
  cbv zeta. destruct (NewCoinSet_ok coins) as [[Hv Ha] Hl].
  unfold Coins, Num, TotalValue, TotalValueAge. rewrite Hv, Ha, Hl.
  destruct (NewCoinSet_ok (coins ++ [c])) as [Hok1 El1]. destruct (NewCoinSet_ok (c :: coins)) as [Hok2 El2].
  split_and!; try done.
  - unfold NewCoinSet. by rewrite foldl_app.
  - unfold PopCoin. rewrite El1, last_snoc, length_app. replace (length coins + length [c] - 1)%nat with (length coins) by (cbn; lia).
    rewrite (surjective_pairing (CoinSet_removeElement _ _ _)).
    by rewrite (CoinSet_removeElement_ok _ coins c []), app_nil_r by done.
  - unfold ShiftCoin. rewrite El2. cbn [head]. rewrite (surjective_pairing (CoinSet_removeElement _ _ _)).
    by rewrite (CoinSet_removeElement_ok _ [] c coins) by done.
Qed.

(** ** The first coins that are enough *)

Definition enough (s : selector) (targetValue : Z) (coins : list Coin) : bool :=
  satisfiesTargetValue targetValue (MinChangeAmount s) (TotalValue (NewCoinSet coins)).

Lemma select_loop_spec s t coins : forall done,
  match select_loop s t (len done) coins (NewCoinSet done) with
  | Ok cs => exists n, (0 < n <= length coins)%nat /\ len done + Z.of_nat n <= MaxInputs s /\ cs = NewCoinSet (done ++ take n coins) /\
      enough s t (done ++ take n coins) = true /\
      forall m, (0 < m < n)%nat -> enough s t (done ++ take m coins) = false
  | Err e => e = ErrCoinsNoSelectionAvailable /\
      forall n, (0 < n <= length coins)%nat -> len done + Z.of_nat n <= MaxInputs s -> enough s t (done ++ take n coins) = false
  end.
Proof.
  induction coins as [|c coins IH]; intros acc; cbn [select_loop].
  { split; [done|]. cbn. lia. }
  destruct (Z.ltb_spec (len acc) (MaxInputs s)); cbn [negb]; [|split; [done|]; lia].
  assert (Hp : PushCoin (NewCoinSet acc) c = NewCoinSet (acc ++ [c])) by (unfold NewCoinSet; by rewrite foldl_app).
  rewrite Hp. fold (enough s t (acc ++ [c])). destruct (enough s t (acc ++ [c])) eqn:E.
  { exists 1%nat. cbn [take length]. rewrite take_0. split_and!; [lia|lia|lia|done|done|lia]. }
  assert (Hl : len acc + 1 = len (acc ++ [c])) by (unfold len; rewrite length_app; cbn; lia).
  rewrite Hl. specialize (IH (acc ++ [c])).
  assert (Hm : forall m, (0 < m)%nat -> m = 1%nat \/ exists k, m = S k /\ (0 < k)%nat) by (intros [|[|k]]; [lia|by left|right; exists (S k); lia]).
  assert (Ht : forall k, acc ++ take (S k) (c :: coins) = (acc ++ [c]) ++ take k coins) by (intros k; by rewrite <- app_assoc).
  destruct (select_loop _ _ _ _ _) as [cs|e].
  - destruct IH as (n & Hn & Hmax & -> & Hen & Hbefore). exists (S n). rewrite Ht. cbn [length].
    split; [lia|]. split; [lia|]. split; [done|]. split; [done|]. intros m Hm'.
    destruct (Hm m) as [->|(k & -> & Hk)]; [lia|by rewrite Ht, take_0, app_nil_r|]. rewrite Ht. apply Hbefore. lia.
  - destruct IH as [-> Hnone]. split; [done|]. cbn [length]. intros n Hn Hmax.
    destruct (Hm n) as [->|(k & -> & Hk)]; [lia|by rewrite Ht, take_0, app_nil_r|]. rewrite Ht. apply Hnone; lia.
Qed.

Lemma MinIndex_spec s t coins :
  match MinIndex_CoinSelect s t coins with
  | Ok cs => exists n, (0 < n <= length coins)%nat /\ Z.of_nat n <= MaxInputs s /\ cs = NewCoinSet (take n coins) /\
      enough s t (take n coins) = true /\ forall m, (0 < m < n)%nat -> enough s t (take m coins) = false
  | Err e => e = ErrCoinsNoSelectionAvailable /\
      forall n, (0 < n <= length coins)%nat -> Z.of_nat n <= MaxInputs s -> enough s t (take n coins) = false
  end.
Proof. exact (select_loop_spec s t coins []). Qed.

(** ** As few coins as possible *)

(** Coins as they occur: no amount is negative and no sum leaves the words. *)
Definition coins_ok (coins : list Coin) : Prop :=
  Forall (fun c => 0 <= coin_Value c /\ 0 <= coin_ValueAge c) coins /\ sum_value coins < 2 ^ 62 /\ sum_age coins < 2 ^ 62.

Lemma sums_nonneg coins : Forall (fun c => 0 <= coin_Value c /\ 0 <= coin_ValueAge c) coins ->
  0 <= sum_value coins /\ 0 <= sum_age coins.
Proof. induction 1 as [|c coins [H1 H2] _ IH]; cbn; [lia|]. unfold sum_value, sum_age in *. lia. Qed.

Lemma coins_ok_sub l coins : l ⊆+ coins -> coins_ok coins -> coins_ok l.
Proof.
  intros Hs (Hall & Hv & Ha). apply submseteq_Permutation in Hs as [k Hk]. rewrite Hk in Hall, Hv, Ha.
  apply Forall_app in Hall as [Hl Hk']. rewrite sum_value_app in Hv. rewrite sum_age_app in Ha.
  pose proof (sums_nonneg k Hk'). split; [done|]. lia.
Qed.

Lemma totals_exact coins : coins_ok coins ->
  TotalValue (NewCoinSet coins) = sum_value coins /\ TotalValueAge (NewCoinSet coins) = sum_age coins /\
  0 <= sum_value coins < 2 ^ 62 /\ 0 <= sum_age coins < 2 ^ 62.
Proof.
  intros (Hall & Hv & Ha). destruct (NewCoinSet_ok coins) as [[Ev Ea] El]. pose proof (sums_nonneg coins Hall) as [H1 H2].
  unfold TotalValue, TotalValueAge. rewrite Ev, Ea, El, !wrap_i64_small by lia. lia.
Qed.

Lemma enough_spec s t coins : coins_ok coins -> - 2 ^ 63 <= t + MinChangeAmount s < 2 ^ 63 ->
  enough s t coins = true <-> sum_value coins = t \/ t + MinChangeAmount s <= sum_value coins.
Proof.
  intros Hok Hr. unfold enough, satisfiesTargetValue. destruct (totals_exact coins Hok) as [-> _].
  rewrite wrap_i64_small by done. rewrite orb_true_iff, Z.eqb_eq, Z.leb_le. done.
Qed.

Section Optimal.
Context `{Sorter}.

Definition by_key_desc (key : Coin -> Z) : Coin -> Coin -> bool := sort_Reverse (fun a b => key a <? key b).

Lemma sorted_desc (key : Coin -> Z) coins :
  StronglySorted (fun a b => key b <= key a) (sort_Sort (by_key_desc key) coins).
Proof.
  apply Sorted_StronglySorted; [intros a b c; lia|].
  assert (Hs : sort_IsSorted (by_key_desc key) (sort_Sort (by_key_desc key) coins) = true).
  { apply (sort_Sort_sorted (fun _ => True)); [|by apply Forall_true].
    apply (strict_weak_key _ _ (fun c => - key c)). intros a b _ _. unfold by_key_desc, sort_Reverse.
    apply Bool.eq_true_iff_eq. rewrite !Z.ltb_lt. lia. }
  apply sort_IsSorted_spec in Hs. eapply Sorted_ind; [constructor|..|exact Hs].
  intros a l _ IH Hd. constructor; [exact IH|]. inversion Hd as [|b l' Hb]; constructor.
  unfold by_key_desc, sort_Reverse in Hb. apply Z.ltb_ge in Hb. exact Hb.
Qed.

(** The first coins in falling order are worth at least as much as any others. *)
Lemma take_shift x L m : Forall (fun c => coin_Value c <= coin_Value x) L -> 0 <= coin_Value x ->
  sum_value (take m L) <= coin_Value x + sum_value (take (pred m) L).
Proof.
  intros HL Hx. destruct m as [|m]; [cbn [pred]; rewrite !take_0; cbn; lia|]. cbn [pred]. destruct (decide (m < length L)%nat) as [Hm|Hm].
  - apply lookup_lt_is_Some in Hm as [y Hy]. rewrite (take_S_r _ _ y) by done. rewrite sum_value_app. cbn.
    pose proof (Forall_lookup_1 _ _ _ _ HL Hy). cbn in *. lia.
  - rewrite !take_ge by lia. lia.
Qed.

Lemma first_are_most L : StronglySorted (fun a b => coin_Value b <= coin_Value a) L ->
  Forall (fun c => 0 <= coin_Value c /\ 0 <= coin_ValueAge c) L ->
  forall l, l ⊆+ L -> sum_value l <= sum_value (take (length l) L).
Proof.
  induction 1 as [|x L _ IH Hx]; intros Hall l Hl.
  - apply submseteq_nil_r in Hl as ->. done.
  - apply list.Forall_cons in Hall as [[Hx0 _] Hall]. apply submseteq_cons_r in Hl as [Hl|(l' & Hp & Hl')].
    + specialize (IH Hall l Hl). pose proof (take_shift x L (length l) Hx Hx0).
      destruct l as [|y l]; [cbn; lia|]. cbn [length take pred] in *. cbn in *. unfold sum_value in *. cbn in *. lia.
    + specialize (IH Hall l' Hl'). rewrite Hp. cbn. unfold sum_value in *. lia.
Qed.

(** C40: The selector by number uses as few coins as any selection that leaves enough
    change: what it selects are coins given, no more than allowed, worth the target or
    the target and the least change; no selection worth that much has fewer coins, and
    there is none within the limit if it finds none. *)
Theorem MinNumber_fewest (s : selector) (t : Z) (coins : list Coin) :
  coins_ok coins -> - 2 ^ 63 <= t + MinChangeAmount s < 2 ^ 63 ->
  match MinNumber_CoinSelect s t coins with
  | Ok cs =>
      Coins cs ⊆+ coins /\ 0 < Num cs <= MaxInputs s /\
      (sum_value (Coins cs) = t \/ t + MinChangeAmount s <= sum_value (Coins cs)) /\
      forall l, l ⊆+ coins -> l <> [] -> t + MinChangeAmount s <= sum_value l -> Num cs <= len l
  | Err e =>
      e = ErrCoinsNoSelectionAvailable /\
      forall l, l ⊆+ coins -> l <> [] -> t + MinChangeAmount s <= sum_value l -> MaxInputs s < len l
  end.
Proof.
  intros Hok Hr. unfold MinNumber_CoinSelect. change (sort_Reverse byAmount_Less) with (by_key_desc coin_Value).
  pose proof (sorted_desc coin_Value coins) as Hsorted. pose proof (sort_Sort_perm (by_key_desc coin_Value) coins) as Hp.
  set (L := sort_Sort _ coins) in *.
  assert (Hsub : forall n, take n L ⊆+ coins) by (intros n; rewrite <- Hp; apply sublist_submseteq, sublist_take).
  assert (Hall : Forall (fun c => 0 <= coin_Value c /\ 0 <= coin_ValueAge c) L) by (rewrite Hp; apply Hok).
  assert (Hen : forall n, enough s t (take n L) = true <->
    sum_value (take n L) = t \/ t + MinChangeAmount s <= sum_value (take n L)).
  { intros n. apply enough_spec; [|exact Hr]. exact (coins_ok_sub _ _ (Hsub n) Hok). }
  assert (Hbest : forall l, l ⊆+ coins -> t + MinChangeAmount s <= sum_value l -> enough s t (take (length l) L) = true).
  { intros l Hl Ht. apply Hen. right. rewrite <- Hp in Hl. pose proof (first_are_most L Hsorted Hall l Hl). lia. }
  assert (Hlen : forall l, l ⊆+ coins -> l <> [] -> (0 < length l <= length L)%nat).
  { intros l Hl Hne. apply submseteq_length in Hl. rewrite (Permutation_length Hp). destruct l; [done|]. cbn in *. lia. }
  pose proof (MinIndex_spec s t L) as Hspec. destruct (MinIndex_CoinSelect s t L) as [cs|e].
  - destruct Hspec as (n & Hn & Hmax & -> & Hyes & Hbefore). unfold Coins, Num. destruct (NewCoinSet_ok (take n L)) as [_ ->].
    split; [apply Hsub|]. unfold len. rewrite length_take_le by lia. split; [lia|]. split; [by apply Hen|].
    intros l Hl Hne Ht. destruct (Z.le_gt_cases (Z.of_nat n) (Z.of_nat (length l))) as [|Hlt]; [done|].
    pose proof (Hbest l Hl Ht). pose proof (Hlen l Hl Hne). rewrite Hbefore in H0 by lia. done.
  - destruct Hspec as [-> Hnone]. split; [done|]. intros l Hl Hne Ht. unfold len.
    destruct (Z.lt_ge_cases (MaxInputs s) (Z.of_nat (length l))) as [|Hle]; [done|].
    pose proof (Hbest l Hl Ht) as He. rewrite Hnone in He by (first [by apply Hlen|lia]). done.
Qed.
End Optimal.

(** ** The selector by priority *)

Lemma PushCoin_new l c : PushCoin (NewCoinSet l) c = NewCoinSet (l ++ [c]).
Proof. unfold NewCoinSet. by rewrite foldl_app. Qed.
Lemma foldl_PushCoin_new l k : foldl PushCoin (NewCoinSet l) k = NewCoinSet (l ++ k).
Proof. unfold NewCoinSet. by rewrite foldl_app. Qed.
Lemma PopCoin_push l c : fst (PopCoin (PushCoin (NewCoinSet l) c)) = NewCoinSet l.
Proof.
  rewrite PushCoin_new. destruct (NewCoinSet_ok (l ++ [c])) as [Hok El]. unfold PopCoin. rewrite El, last_snoc, length_app.
  replace (length l + length [c] - 1)%nat with (length l) by (cbn; lia).
  by rewrite (CoinSet_removeElement_ok _ l c []), app_nil_r by done.
Qed.
Lemma Num_new l : Num (NewCoinSet l) = len l.
Proof. unfold Num. by destruct (NewCoinSet_ok l) as [_ ->]. Qed.

Lemma extend_loop_spec s low : forall l, exists extra,
  extra `sublist_of` low /\ extend_loop s low (NewCoinSet l) = Ok (NewCoinSet (l ++ extra)).
Proof.
  induction low as [|c low IH]; intros l; cbn [extend_loop]; [exists []; by rewrite app_nil_r|].
  destruct (_ <=? _); [exists []; rewrite app_nil_r; split; [apply sublist_nil_l|done]|].
  assert (Hskip : exists extra, extra `sublist_of` c :: low /\ extend_loop s low (NewCoinSet l) = Ok (NewCoinSet (l ++ extra))).
  { destruct (IH l) as (extra & Hs & E). exists extra. split; [by apply sublist_cons|done]. }
  destruct (coin_ValueAge c =? 0); [exact Hskip|].
  rewrite PushCoin_new, Num_new, (proj2 (Z.eqb_neq _ 0)) by (unfold len; rewrite length_app; cbn; lia).
  destruct (_ <? _); [rewrite <- PushCoin_new, PopCoin_push; exact Hskip|].
  destruct (IH (l ++ [c])) as (extra & Hs & E). exists (c :: extra). split; [by apply sublist_skip|].
  rewrite E. by rewrite <- app_assoc.
Qed.

Lemma submseteq_self (l : list Coin) : l ⊆+ l.
Proof. reflexivity. Qed.

(** A selection of [coins] worth the target. *)
Definition selects (t : Z) (coins : list Coin) (r : result coin_error CoinSet) : Prop :=
  match r with
  | Ok cs => exists l, cs = NewCoinSet l /\ l ⊆+ coins /\ l <> [] /\ t <= sum_value l
  | Err e => e = ErrCoinsNoSelectionAvailable
  end.

Section Priority.
Context `{Sorter}.

Lemma MinNumber_selects s t coins : coins_ok coins -> 0 <= MinChangeAmount s < 2 ^ 62 -> - 2 ^ 62 <= t < 2 ^ 62 ->
  selects t coins (MinNumber_CoinSelect s t coins).
Proof.
  intros Hok Hc Ht. unfold MinNumber_CoinSelect. pose proof (sort_Sort_perm (sort_Reverse byAmount_Less) coins) as Hp.
  set (L := sort_Sort _ coins) in *. pose proof (MinIndex_spec s t L) as Hspec.
  destruct (MinIndex_CoinSelect s t L) as [cs|e]; [|apply Hspec]. destruct Hspec as (n & Hn & _ & -> & Hyes & _).
  assert (Hsub : take n L ⊆+ coins) by (rewrite <- Hp; apply sublist_submseteq, sublist_take).
  exists (take n L). split; [done|]. split; [done|]. split.
  - intros E. apply (f_equal length) in E. rewrite length_take_le in E by lia. cbn in E. lia.
  - apply enough_spec in Hyes; [lia|exact (coins_ok_sub _ _ Hsub Hok)|lia].
Qed.

Lemma sum_value_sub l coins : l ⊆+ coins -> coins_ok coins -> 0 <= sum_value l <= sum_value coins.
Proof.
  intros Hs Hok. pose proof (coins_ok_sub _ _ Hs Hok) as (Hl & _). pose proof (sums_nonneg _ Hl).
  apply submseteq_Permutation in Hs as [k Hk]. destruct Hok as (Hall & _). rewrite Hk in Hall |- *.
  apply Forall_app in Hall as [_ Hk']. pose proof (sums_nonneg _ Hk'). rewrite sum_value_app. lia.
Qed.

(** The ranges in which nothing wraps, kept by the recursion. *)
Definition target_ok (t : Z) (coins : list Coin) : Prop := sum_value coins - 2 ^ 62 <= t < 2 ^ 62.

Definition select_ok (select : MinPriorityCoinSelector -> Z -> result coin_error CoinSet) (low : list Coin) : Prop :=
  forall s t, 0 <= mp_MinChangeAmount s < 2 ^ 62 -> target_ok t low -> selects t low (select s t).

Lemma low_loop_selects select s t low high nums :
  select_ok select low -> 0 <= mp_MinChangeAmount s < 2 ^ 62 -> coins_ok (low ++ high) -> target_ok t (low ++ high) ->
  high <> [] -> selects t (low ++ high) (low_loop select s t high nums).
Proof.
  intros Hsel Hc Hok Ht Hne. induction nums as [|n nums IH]; cbn [low_loop]; [done|]. destruct (negb _); [done|].
  assert (Hhigh : coins_ok high) by (apply (coins_ok_sub _ _ (submseteq_inserts_l _ _ _ (submseteq_self high)) Hok)).
  destruct (totals_exact high Hhigh) as (Ev & _ & Hv & _). unfold target_ok in Ht. rewrite sum_value_app in Ht.
  pose proof (sum_value_sub low (low ++ high) (submseteq_inserts_r _ _ _ (submseteq_self low)) Hok) as Hlow.
  rewrite Ev, (wrap_i64_small (t - sum_value high)) by lia.
  match goal with |- context [select ?s' ?t'] => pose proof (Hsel s' t') as Hs; destruct (select s' t') as [cs|e] end.
  - destruct Hs as (l & -> & Hl & _ & Hsum); [done|unfold target_ok; lia|].
    exists (high ++ l). unfold Coins. destruct (NewCoinSet_ok l) as [_ ->]. split; [apply foldl_PushCoin_new|].
    split; [rewrite (Permutation_app_comm low high); by apply submseteq_skips_l|]. split; [by destruct high|].
    rewrite sum_value_app. lia.
  - rewrite (Hs Hc) by (unfold target_ok; lia). exact IH.
Qed.

Lemma high_loop_selects select s t low rest : forall high,
  select_ok select low -> 0 <= mp_MinChangeAmount s < 2 ^ 62 -> coins_ok (low ++ high ++ rest) -> target_ok t (low ++ high ++ rest) ->
  selects t (low ++ high ++ rest) (high_loop select s t low high rest).
Proof.
  induction rest as [|c rest IH]; intros high Hsel Hc Hok Ht; cbn [high_loop]; [done|].
  replace (high ++ c :: rest) with ((high ++ [c]) ++ rest) in * by (by rewrite <- app_assoc).
  set (high' := high ++ [c]) in *. rewrite app_assoc in Hok, Ht |- *.
  assert (Hlh : low ++ high' ⊆+ (low ++ high') ++ rest) by (by apply submseteq_inserts_r).
  pose proof (coins_ok_sub _ _ Hlh Hok) as Hok'. pose proof (sum_value_sub _ _ Hlh Hok) as Hsum.
  assert (Ht' : target_ok t (low ++ high')) by (unfold target_ok in *; lia).
  assert (Hhigh : high' ⊆+ low ++ high') by (by apply submseteq_inserts_l).
  assert (Hup : forall r, selects t (low ++ high') r -> selects t ((low ++ high') ++ rest) r).
  { intros [cs|e]; [|done]. intros (l & E & Hl & H1 & H2). exists l. split; [done|]. split; [by etransitivity|done]. }
  pose proof (MinNumber_selects (mkSelector (mp_MaxInputs s) (mp_MinChangeAmount s)) t high' (coins_ok_sub _ _ Hhigh Hok') Hc) as Hnum.
  destruct (MinNumber_CoinSelect _ t high') as [cs|e].
  - apply Hup. destruct Hnum as (l & -> & Hl & Hne & Hsl).
    { unfold target_ok in Ht'. pose proof (sum_value_sub _ _ (submseteq_self _) Hok'). lia. }
    unfold Coins. destruct (NewCoinSet_ok l) as [_ ->]. destruct (extend_loop_spec s low l) as (extra & Hs & ->).
    exists (l ++ extra). split; [done|]. assert (Hsub : l ++ extra ⊆+ low ++ high').
    { rewrite (Permutation_app_comm low high'). apply submseteq_app; [done|by apply sublist_submseteq]. }
    split; [done|]. split; [by destruct l|]. rewrite sum_value_app.
    pose proof (sum_value_sub extra (l ++ extra) (submseteq_inserts_l _ _ _ (submseteq_self _)) (coins_ok_sub _ _ Hsub Hok')). lia.
  - pose proof (low_loop_selects select s t low high' (one_to (length low)) Hsel Hc Hok' Ht' ltac:(unfold high'; by destruct high)) as Hlow.
    destruct (low_loop select s t high' _) as [cs|e']; [by apply Hup|]. cbn in Hlow. subst e'.
    rewrite <- app_assoc in *. by apply IH.
Qed.

Lemma cutoff_loop_lt threshold coins i : cutoff_loop threshold coins = Some i -> (i < length coins)%nat.
Proof.
  revert i. induction coins as [|c coins IH]; intros i E; [done|]. cbn [cutoff_loop length] in *.
  destruct (_ <=? _); [injection E as <-; lia|]. destruct (cutoff_loop threshold coins) as [j|]; [|done].
  injection E as <-. specialize (IH j eq_refl). lia.
Qed.

Lemma MinPriority_selects fuel : forall s t coins, (length coins < fuel)%nat ->
  0 <= mp_MinChangeAmount s < 2 ^ 62 -> coins_ok coins -> target_ok t coins ->
  selects t coins (MinPriority_select fuel s t coins).
Proof.
  induction fuel as [|fuel IH]; intros s t coins Hf Hc Hok Ht; [lia|]. cbn [MinPriority_select].
  pose proof (sort_Sort_perm byValueAge_Less coins) as Hp. set (L := sort_Sort _ coins) in *.
  destruct (cutoff_loop _ L) as [i|] eqn:Ei; [|done]. apply cutoff_loop_lt in Ei. rewrite (Permutation_length Hp) in Ei.
  assert (Hl : take i L ++ [] ++ drop i L ≡ₚ coins) by (by rewrite app_nil_l, take_drop).
  assert (Hok' : coins_ok (take i L ++ [] ++ drop i L)) by (unfold coins_ok; by rewrite Hl).
  assert (Ht' : target_ok t (take i L ++ [] ++ drop i L)) by (unfold target_ok; by rewrite Hl).
  assert (Hsel : select_ok (fun s t => MinPriority_select fuel s t (take i L)) (take i L)).
  { intros s' t' Hc' Htt. apply IH; [rewrite length_take; lia|done| |done].
    exact (coins_ok_sub _ _ (submseteq_inserts_r _ _ _ (submseteq_self _)) Hok'). }
  pose proof (high_loop_selects _ s t (take i L) (drop i L) [] Hsel Hc Hok' Ht') as Hr.
  destruct (high_loop _ s t _ _ _) as [cs|e]; [|done]. destruct Hr as (l & E & Hs & H1 & H2).
  exists l. split; [done|]. split; [by rewrite <- Hl|done].
Qed.

(** The selector by priority, with its recursion over fewer and fewer coins, returns: it
    selects coins it was given, at least one, worth no less than the target, or reports
    that it found no selection; it never divides by zero. *)
Theorem MinPriority_sound (s : MinPriorityCoinSelector) (t : Z) (coins : list Coin) :
  coins_ok coins -> 0 <= mp_MinChangeAmount s < 2 ^ 62 -> 0 <= t < 2 ^ 62 ->
  match MinPriority_CoinSelect s t coins with
  | Ok cs => Coins cs ⊆+ coins /\ 0 < Num cs /\ TotalValue cs = sum_value (Coins cs) /\ t <= TotalValue cs
  | Err e => e = ErrCoinsNoSelectionAvailable
  end.
Proof.
  intros Hok Hc Ht. pose proof (MinPriority_selects (S (length coins)) s t coins ltac:(lia) Hc Hok) as Hs.
  unfold MinPriority_CoinSelect. destruct (MinPriority_select _ s t coins) as [cs|e].
  - destruct Hs as (l & -> & Hl & Hne & Hsum); [destruct Hok as (_ & H1 & _); unfold target_ok; lia|].
    destruct (totals_exact l (coins_ok_sub _ _ Hl Hok)) as (Ev & _). rewrite Ev, Num_new.
    unfold Coins. destruct (NewCoinSet_ok l) as [_ ->]. split; [done|]. split; [destruct l; [done|unfold len; cbn; lia]|]. split; [done|lia].
  - apply Hs. destruct Hok as (_ & H1 & _). unfold target_ok. lia.
Qed.
End Priority.

(** ** Coins of transactions *)

(** A coin of a transaction that was not read from bytes has the hash, the value and the
    script of its output, and its age is their product with the confirmations. *)
Lemma SimpleCoin_values (msg : MsgTx) (i confs : Z) (out : TxOut) :
  MsgTx_TxOut msg !! Z.to_nat i = Some out ->
  SimpleCoin_coin (mkSimpleCoin (NewTx msg) i confs) =
    Some (mkCoin (MsgTx_TxHash msg) i (TxOut_Value out) (TxOut_PkScript out) confs (wrap_i64 (confs * TxOut_Value out))).
Proof. intros E. unfold SimpleCoin_coin, SimpleCoin_ValueAge, SimpleCoin_Value, SimpleCoin_PkScript, SimpleCoin_txOut. cbn. by rewrite E. Qed.

(** ** Concrete inputs *)

Definition small_coin (value age : Z) : Coin := mkCoin [] 0 value [] 1 age.
Definition values (r : result coin_error CoinSet) : option (list Z) :=
  match r with Ok cs => Some (map coin_Value (Coins cs)) | Err _ => None end.

Lemma small_coins_ok : coins_ok [small_coin 9 1; small_coin 6 1; small_coin 5 1].
Proof. by repeat constructor. Qed.

(** The selectors do not all keep what their comments say.  The one by number uses two
    coins where one is worth exactly the target.  The one by priority selects two coins
    where one is allowed, leaves a change of 3 where the least is 10, and selects coins
    whose average age, 29 in three coins, is below the threshold of 10. *)
Theorem selectors_fall_short :
  values (MinNumber_CoinSelect (mkSelector 3 10) 5 [small_coin 9 1; small_coin 6 1; small_coin 5 1]) = Some [9; 6] /\
  values (MinPriority_CoinSelect (mkMinPriority 1 0 10) 15 [small_coin 5 5; small_coin 10 20]) = Some [10; 5] /\
  values (MinPriority_CoinSelect (mkMinPriority 5 10 10) 10 [small_coin 10 100; small_coin 3 5]) = Some [10; 3] /\
  values (MinPriority_CoinSelect (mkMinPriority 5 0 10) 16 [small_coin 10 25; small_coin 3 2; small_coin 3 2]) = Some [10; 3; 3].
Proof. vm_compute. split_and!; reflexivity. Qed.

Lemma MinNumber_fewest_witness :
  MinNumber_CoinSelect (mkSelector 3 0) 10 [small_coin 9 1; small_coin 6 1; small_coin 5 1] =
    Ok (NewCoinSet [small_coin 9 1; small_coin 6 1]) /\
  forall l, l ⊆+ [small_coin 9 1; small_coin 6 1; small_coin 5 1] -> l <> [] -> 10 <= sum_value l -> 2 <= len l.
Proof.
  pose proof (MinNumber_fewest (mkSelector 3 0) 10 [small_coin 9 1; small_coin 6 1; small_coin 5 1] small_coins_ok ltac:(by cbn)) as Hs.
  replace (MinNumber_CoinSelect _ _ _) with (Ok (E := coin_error) (NewCoinSet [small_coin 9 1; small_coin 6 1])) in * by (by vm_compute).
  split; [done|]. destruct Hs as (_ & _ & _ & Hs). exact Hs.
Defined.

Lemma MinPriority_sound_witness :
  match MinPriority_CoinSelect (mkMinPriority 3 0 1) 10 [small_coin 9 1; small_coin 6 1; small_coin 5 1] with
  | Ok cs => Coins cs ⊆+ [small_coin 9 1; small_coin 6 1; small_coin 5 1] /\ 0 < Num cs /\
      TotalValue cs = sum_value (Coins cs) /\ 10 <= TotalValue cs
  | Err e => e = ErrCoinsNoSelectionAvailable
  end.
Proof. apply MinPriority_sound; [exact small_coins_ok|by cbn|by cbn]. Defined.
